(* ===== verification/_CoqProject ===== *)
-Q . S2P
Prelude.v
Effects.v
Limbs.v
KnuthD.v
Bignum.v
BignumSpec.v
Arena.v
ArenaSpec.v
ArenaRuns.v
HostHeap.v
ArenaTheorems.v
BignumTheorems.v
BignumString.v
DecimalTheorems.v
BignumBits.v
BitsTheorems.v
Rational.v
RationalSpec.v
RationalTheorems.v
Doubles.v
Tagged.v
HashKeys.v
HashTable.v
HashTableSpec.v
HashTableRuns.v
HashTableTheorems.v
DeepEqual.v
Unification.v
Logic.v
LogicSpec.v
LogicQuery.v
LogicRegistry.v
LogicTheorems.v
OrderedMap.v
TypeEnv.v
TypeEnvSpec.v
TypeEnvRuns.v
TypeTheorems.v
Dependent.v
DependentTheorems.v
Annotations.v
AnnotationTheorems.v
Ownership.v
OwnershipSpec.v
OwnershipTheorems.v
MacroExpander.v
MacroSpec.v
MacroRuns.v
MacroTheorems.v
WorkStealing.v
WorkStealingSpec.v
WorkStealingTheorems.v
Dispatch.v
DispatchSpec.v
DispatchTheorems.v
Regions.v
Evacuation.v
RegionsSpec.v
HeapTyping.v
EvacuationSpec.v
EvacuationKinds.v
EvacuationObjects.v
RegionMemory.v
RegionPrograms.v
RegionSteps.v
RegionSafety.v
RegionTheorems.v
Eskb.v
EskbSpec.v
EskbRead.v
EskbSafety.v
EskbTheorems.v
VmCore.v
VmRun.v
VmLoad.v
VmSafety.v
VmSteps.v
VmSafetyTheorems.v
VmCompiler.v
VmCompilerSpec.v
