(* ===== verification/Prelude.v ===== *)
(** * A verification development for the Eshkol runtime

    Eshkol compiles a Scheme dialect to native code.  The compiled program leans
    on a C++ runtime: it allocates from arenas, computes with exact numbers of any
    size, stores values in hash tables and unifies terms.  The compiler itself expands
    macros, checks gradual types, dimensions and ownership, and can emit bytecode for a
    virtual machine.  This development models that core of the runtime, the type machinery
    of the compiler and the bytecode side, and proves them correct.

    ** The parts and how they interact

    - The arena allocator (src/lib/core/runtime_arena_core.cpp) hands out memory
      from blocks obtained with [malloc]; scopes mark a position and release
      everything allocated since.  Object allocation
      (src/lib/core/runtime_object_alloc.cpp) puts an 8-byte header with the
      subtype and the size before the data.
    - Bignums (src/lib/core/bignum.cpp) are sign and 64-bit limbs, allocated as
      objects from an arena; every operation returns a new object, or null.
    - Rationals (src/lib/core/rational.cpp) are reduced [int64_t] pairs, or reduced
      bignum pairs when those do not fit; they call the bignum operations.
    - The numeric dispatch (the tagged-value halves of bignum.cpp and
      rational.cpp) is what generated code calls: it inspects the tags of its
      operands, promotes them to bignums or rationals, computes, and demotes.
    - Hash tables (src/lib/core/runtime_hash_table.cpp) use open addressing over
      tagged keys, hashed and compared structurally; their arrays come from an
      arena.
    - Deep equality (src/lib/core/runtime_deep_equal.cpp) compares tagged values;
      it calls the comparisons of bignums and rationals, and unification calls it.
    - The logic engine (src/lib/core/logic.cpp, logic_builtins.cpp) unifies terms
      (tagged values with logic variables and facts) under substitutions, which are
      arena objects that are never changed, and answers queries of knowledge bases,
      arrays of facts.  Variable names and predicates are registered in tables.
    - The type environment (src/lib/types/hott_types.cpp) holds the type hierarchy and
      interns function, pair and parameterised types; dependent types
      (src/lib/types/dependent.cpp) add dimensions and constant folding and call its
      subtype check; annotations (the type expressions of src/lib/core/ast.cpp, the
      aliases and [resolveType] of src/lib/types/type_checker.cpp) resolve to its ids.
    - The ownership checks (the scopes, linear variables, [LinearContext] and
      [BorrowChecker] of type_checker.cpp) are driven by the type checker's rules.
    - The macro expander (src/lib/frontend/macro_expander.cpp) rewrites the syntax trees
      of the parser before they are checked and compiled: uses of [syntax-rules] macros
      are matched against the patterns of the rules and replaced by their templates.
    - The work-stealing deque (inc/eshkol/backend/work_stealing_deque.h) holds the tasks
      of one worker of the thread pool; the others steal from it without locks.  Arrays
      outgrown are deleted by epochs.
    - Regions (src/lib/core/runtime_regions.cpp) are arenas with a lexical extent: the
      code generator brackets the body of [with-region] by calls that make the region's
      arena the current one and destroy it at the end.  What leaves a region, as its value
      or by a store, is copied out first with everything it reaches.
    - Bytecode files (src/lib/backend/eskb_format.h, eskb_writer.c, eskb_reader.c) hold the
      constants and functions of programs for the virtual machine, under a checksum.
    - The bytecode machine (src/lib/backend/vm_core.c, vm_run.c, eshkol_vm.c) checks a
      loaded module and runs its functions on a stack, with a heap of objects, closures,
      continuations, exception handlers and winds.
    - The bytecode compiler (src/lib/backend/vm_compiler.c, the chunks of vm_parser.c)
      translates syntax trees to code for that machine, with variables as stack slots.

    ** Files

    - [Prelude]: machine integers ([u32], [u64], [u128], [s64], [s128] wrap a
      number to its width), bit lemmas, tactics.
    - [Effects]: the monad [M St A] of all allocating code (state, the outcomes
      return, raise, crash, out of fuel, and a flag that some request was
      refused), the class [Arena] of requests and [ArenaLaws] of what an arena
      promises, the weakest-precondition calculus [wp], and specifications of runs from a given
      state.
    - [Limbs], [KnuthD], [Bignum], [BignumSpec], [BignumTheorems]: the limb loops
      ([bignum_add_abs], [bignum_sub_abs], ...), Knuth's algorithm D
      ([bignum_divmod_abs]), the public arithmetic, its exactness.
    - [BignumString], [DecimalTheorems]: [eshkol_bignum_from_string], [_to_string],
      [_display].  [BignumBits], [BitsTheorems]: bitwise operations and shifts.
    - [Arena], [ArenaSpec], [ArenaRuns], [HostHeap], [ArenaTheorems]: [arena_t] as a
      record of blocks and scopes over a heap that satisfies the class
      [MallocLaws], each function of runtime_arena_core.cpp as a definition of its
      name, the invariant [arena_wf], runs of operations as sequences of steps,
      a concrete heap, and the proof that the arena is an instance of [ArenaLaws].
    - [Rational], [RationalSpec], [RationalTheorems]: [eshkol_rational_t] and its
      operations, canonical form [rational_wf], value [rvalue] in Q.
    - [Doubles]: doubles by their bits, arithmetic from the standard library's IEEE
      specification.  [Tagged]: [eshkol_tagged_value_t] and heap objects.
    - [HashKeys], [HashTable], [HashTableSpec], [HashTableRuns],
      [HashTableTheorems]: [hash_tagged_value], [hash_keys_equal]; the table over
      the class [HashKey]; its invariant; refinement.
    - [Dispatch], [DispatchSpec], [DispatchTheorems]: the tagged entry points
      ([eshkol_bignum_binary_tagged], [eshkol_bignum_compare_tagged],
      [eshkol_bignum_pow_tagged], [eshkol_gcd_tagged],
      [eshkol_string_to_number_tagged], ...).
    - [DeepEqual]: [eshkol_deep_equal] over a store of heap objects, and the datum
      a value denotes.
    - [Unification]: first-order terms, triangular substitutions, their images,
      acyclicity and most general unifiers, free of any machine representation.
      [Logic]: the code of the logic engine.  [LogicSpec], [LogicQuery],
      [LogicRegistry]: how values represent terms, and what walking, the occurs
      check, unification, the query loop and the two registries do.
      [LogicTheorems]: their theorems.
    - [OrderedMap]: [std::map] as a sorted association list over the classes [KeyOrder]
      and [KeyLaws].  [TypeEnv]: the class [TypeEnvironment] as a record and its
      methods, those that fill the mutable subtype cache in the monad [E].
      [TypeEnvSpec], [TypeEnvRuns], [TypeTheorems]: the hierarchy [below], the invariant
      [env_ok], the steps a program takes ([reachable]), what each query decides.
    - [Dependent], [DependentTheorems]: [evaluateConstExpr], [CTValue],
      [DependentType], the dimension checks, with undefined C++ behaviour as [None].
    - [Annotations], [AnnotationTheorems]: [hott_type_expr_t], its copies and printed
      form, aliases, [substituteTypeVars], [resolveType].
    - [Ownership], [OwnershipSpec], [OwnershipTheorems]: [Context], [LinearContext],
      [BorrowChecker] and the checks of [TypeChecker]; the ownership machine
      [discipline] and its refinement.
    - [MacroExpander]: syntax trees, patterns, templates, and the functions of
      macro_expander.cpp in a state monad over the scopes of macros, the errors and the
      arrays of match clauses.  [MacroSpec]: which forms a pattern matches and how
      bindings stand for a form.  [MacroRuns]: facts that hold of every run ([Closed]),
      instantiated to scopes and errors and to termination.  [MacroTheorems]: the theorems.
    - [WorkStealing]: the deque, the epoch manager, and the accesses of [push], [pop],
      [reclaimRetired] and [steal] as the steps of a machine ([owner_step], [thief_step]),
      with the loops of [grow] and [reclaimRetired] turn by turn; [run] gives the state, the
      calls and returns of a schedule, and how it ends.  [WorkStealingSpec]: the atomic
      deque ([takes_effect], [shows], [history]), the invariant, the simulation of a step.
      [WorkStealingTheorems]: the theorems.
    - [Regions], [Evacuation]: memory as nodes by address (an object or buffer as a list
      of slots), the region stack and the current arena; the copying collector
      ([evac_object], [evac_item] with a case for each kind of object, [drain]), the entry
      points and the write barrier.  [RegionsSpec]: disjoint arenas over the heap, the
      class [AddressSpace].  [HeapTyping]: types of nodes and what a value may refer to
      from a place.  [EvacuationSpec], [EvacuationKinds], [EvacuationObjects]:
      the invariant of an evacuation, the scan of each kind, the loop.
      [RegionMemory]: well-typed memory and the effect of an evacuation on it.
      [RegionPrograms]: a language of pairs, vectors and [with-region] that runs the calls
      that backend/llvm_codegen.cpp and backend/collection_codegen.cpp emit.
      [RegionSteps], [RegionSafety], [RegionTheorems]: its steps, its safety, the theorems.
    - [Eskb]: the encodings, the writer
      over growing buffers, the reader over bytes and a position.  [EskbSpec]: the bytes of
      a program and that the writer writes them.  [EskbRead]: that the reader takes them
      back.  [EskbSafety]: the checksum as a linear register, the reader on any bytes.
      [EskbTheorems]: the theorems.
    - [VmCore]: the values, objects and registers of the machine, the effect [V] of an
      instruction (it goes on, leaves the loop, calls another file, or is undefined), stack
      and heap.  [VmRun]: the instructions ([exec_ADD], ...), the dispatch [vm_step], runs
      [vm_run].  [VmLoad]: the checks of a module, its constants, entering a function.
      [VmSafety]: the typing of machines and a calculus of instructions that keep it.
      [VmSteps]: every instruction keeps it.  [VmSafetyTheorems]: loaded machines, sessions
      of runs, the theorem.
    - [VmCompiler]: syntax trees, chunks, the forms of [compile_expr] as functions of a chunk
      ([None] where a form outside of the model is met).  [VmCompilerSpec]: a reference
      evaluator with environments ([eval]), the layout of locals on the stack, the
      correctness of each form, and of [run_compiled_chunk].

    A definition bears the name of the C function it translates; loops are
    separate definitions named after it.  A pointer to an object that code may
    find null is an [option]; a use without a check is [deref], and a null there
    is the outcome [Crash].

    ** What the theorems show

    - Exactness: bignum addition, subtraction, multiplication, division, powers,
      comparison, bitwise operations and shifts are those of the integers for all
      operands (knuth_division_correct, bignum_division_truncates, ...); rational
      arithmetic is that of the field Q on canonical representations; the dispatch
      computes exactly on every mix of [int64_t], bignum and rational and returns
      the smallest representation (numeric_tower_exact and its companions).  The
      theorems hold over every arena that satisfies [ArenaLaws], so a null result
      means a refused request or a result too large for an object header.
    - Round trips: printing then reading a bignum, [int64_t] to bignum and back.
    - Memory: allocations are aligned, disjoint from all live memory and inside
      their block; any sequence of allocations and scope operations refines a stack
      of levels (arena_refines_levels); a popped scope restores its starting state
      exactly; the end of a loop iteration never frees what a survivor points to;
      an object's header stays as written.
    - Maps: every sequence of hash-table operations answers as an association list
      with one entry per key (hash_table_refines_map), and key equality is
      structural equality consistent with the hash.
    - Logic: unification returns most general unifiers and null only when there is
      none or memory was refused (unify_most_general); walking terminates and
      resolves (walks_resolve); queries are sound and complete
      (kb_query_sound_complete); a knowledge base is a list of facts
      (knowledge_base_refines_list); ids and predicate pointers stand for names
      (names_are_identities).
    - Equality: deep equality is equality of the data values denote
      (deep_equal_is_structural).
    - Types: the cached subtype check decides the hierarchy, a partial order
      (subtype_is_ancestry); common supertypes are least (lcs_is_least); promotion follows
      the numeric tower (promotion_follows_tower); function and pair types are interned;
      constant folding and the dimension checks are exact up to the undefined cases;
      resolving annotations terminates exactly without circular aliases
      (alias_resolution_terminates); aliases mean what binding their parameters means.
    - Ownership: the borrow checker refines a machine of four statuses
      (borrow_checker_refines_ownership), which gives the ownership rules; the linear
      trackers count uses exactly (linear_usage_exact, checked_linear_uses).
    - Macros: matching and instantiation are inverse to each other
      (macro_passes_arguments), expansion ends (expansion_total) and removes the definition
      forms (definitions_expanded_away), and leaves other code alone (plain_code_unchanged).
    - Concurrency: in every interleaving, up to its first undefined access, the deque is
      linearisable (deque_refines_list), every task is taken once (tasks_taken_once) and no
      call comes back with nothing without a reason (misses_are_justified).  The only
      undefined access is a thief's read of an array that was deleted since it found it
      (reads_after_delete), which does occur (deque_edge_cases).
    - Regions: programs with nested regions and mutation never touch a dead object
      (region_programs_safe); what leaves a region is copied completely, with its sharing
      and cycles, and nothing else is (evacuation_copies_graph), and survives it
      (escape_survives_region).  Both speak of well-typed memory and of values with the tag
      of a heap value, which complex numbers do not have (region_edge_cases).
    - Bytecode files: what is written is loaded back (eskb_round_trip); the loader is safe
      on all bytes and accepts only well-formed modules (eskb_loader_safe); damage to four
      consecutive bytes is noticed (corrupted_file_refused).
    - Bytecode machine: code that passes the checks of the loader keeps every reference
      typed and the registers within their tables, but for the stack pointer of a machine
      that has stopped with an error, whatever it does, up to the listed undefined accesses,
      below and above the stack among them (validated_code_contained), which do occur
      (validator_misses).
    - Bytecode compiler: the code of a program computes what a reference evaluator gives, or
      sets the error flag where that has an error (compiled_code_computes); what it computes
      otherwise than Scheme has no value there (compiler_deviates).
    - Errors: which inputs raise divide-by-zero, and what running out of memory
      does.  Several theorems (division_out_of_memory, allocation_size_wraps,
      failed_push_pops_parent, shift_and_bitwise_edge_cases,
      to_string_out_of_memory, rational_rounding_edge_cases,
      float_keys_break_lookup, dispatch_edge_cases, unify_edge_cases,
      registry_edge_cases, deep_equal_not_an_equivalence, type_ids_collide, type_edge_cases,
      folding_edge_cases, alias_edge_cases, ownership_edge_cases,
      macro_edge_cases, deque_edge_cases, region_edge_cases,
      eskb_edge_cases, validator_misses, compiler_deviates) prove that the code does not
      do what it documents on a concrete input.

    ** Bounds and fuel

    A bignum has at most [MAX_LIMBS] limbs, the most an object header's 32-bit
    size can describe.  Loops that are not structural carry fuel, and the theorems
    prove that it suffices: 128 and 256 rounds for the machine [gcd] loops (each
    round halves the product of the operands), two rounds per bit for the bignum
    gcd, 64 rounds for powers, 3 for the quotient refinement of algorithm D, one
    per slot for the probing loops of hash tables, the nesting depth for keys.  A
    run out of fuel is the outcome [Diverge], which every specification excludes.
    Hash-table sequences are bounded by [2^40] operations, which keeps capacities
    below [2^52], where the load factor computed in double is exact.

    The occurs check and the deep walk of the logic engine stop at depths 1000 and
    10000, as in the code.  The theorems about unification take a set of at most
    65536 variables (the size of the registry) and a bound on the nesting of facts
    such that no image is deeper than 1000 ([depth_bound]); then the occurs check
    is exact and [unify_fuel], one round per variable and level, is enough.
    Walking takes at most one step per binding.  Knowledge bases are run for up to
    [2^30] operations, which keeps the 32-bit capacity from wrapping around.

    Type ids are 16-bit.  Ids of pair types start at 300, of function types at 500, of
    user types at 1000; the theorems about the type environment ask that each counter is
    still in its range, and type_ids_collide shows what happens beyond.  A supertype has a
    smaller id than its subtypes, so [type_fuel], 65540 rounds, is enough for every walk.
    Resolution of annotations needs the depth of the annotation plus the depth of an
    alias for each rank.  Traces of the ownership checks are shorter than 2^64 calls, those
    of the linear trackers than 2^31, which keeps their counters from wrapping around.

    The expander stops 1000 levels down, as in the code; at one node a macro is expanded at
    most once by name, so more rounds than there are macro names are enough, and fuel
    above the depth of the templates is enough to instantiate them.  Termination is shown
    for templates without match expressions, whose clause arrays the expander overwrites.

    Schedules of the deque push at most [2^62] tasks, which keeps the signed indices and
    the size of the array from wrapping around.  A call of the epoch manager is one step;
    every other access to shared memory is a step of its own.  Steps are interleaved
    sequentially.

    The loop of an evacuation has one round for each object copied, so the number of nodes
    is fuel enough.  Programs nest at most 64 regions, the size of the region stack, and
    their vectors are at most 256 MB, the largest object an evacuation copies.  Integers
    that are captured by closures are taken for cells when they are addresses of a region,
    as in the code; [AddressSpace] keeps plain integers apart from addresses.

    Bytecode files are smaller than 2 GB, the range of the [int] to which the reader casts
    lengths; the loader's theorem has no such bound.  64 rounds are enough to double a
    capacity up to any size.

    The limits of the machine are those of the desktop profile of vm_limits.h.  Its run is
    given by fuel, one instruction each; the theorem about it holds for every fuel.

    Expressions are compiled up to 1000 levels deep, as in the code.  The theorem about
    compiled code asks that two slots for each node of the program fit the stack and its
    constants the machine; it gives a fuel with which the run ends.

    ** What is not modelled

    The bytes of memory (objects are values by address, so zero-filling and the
    optional poisoning of released memory are not visible), the mutexes (calls are
    sequential, but for the deque), the memory orders weaker than sequential consistency,
    [WorkStealingScheduler] (the thread pool does not use it), log messages, and the C
    library's [pow] and [strtod], which are parameters.  Of the regions, the stacks of
    automatic differentiation and the shallow copies of strings are left out; factor graphs
    and the interior of leaf kinds are copied as the code does but have no type, so the
    theorems leave them out; one thread runs, outside of parallel constructs.
    [eshkol_double_to_rational] and [eshkol_rationalize_tagged] search along rounded doubles;
    the thread pool runs on the threads of the host; the synthesis rules of the type
    checker walk the syntax trees of the parser: these are left out.  Of the logic engine, the
    display functions, some of the tagged wrappers and the saving and loading of knowledge
    bases are left out.  Runs of the bytecode machine
    end where they call a native function, a bignum operation or an after-thunk; its table
    of native functions, its tape of automatic differentiation and the text it prints are
    left out.  Of the bytecode compiler, the reader, procedures, assignments and
    definitions, loops, guards, quasiquotation, the preamble of builtins and the peephole
    pass are left out.  The front end, the LLVM code generation, GPU back ends and bindings are
    outside this development. *)

From Stdlib Require Import String ZArith List Lia Bool Permutation.
Import ListNotations.
Open Scope Z_scope.

(** ** Machine integers *)

(** The base of the limb representation, [2^64], kept as a literal so that
    [lia] sees a number. *)
Abbreviation B64 := 18446744073709551616 (only parsing).
Abbreviation UINT64_MAX := 18446744073709551615 (only parsing).
Abbreviation INT64_MAX := 9223372036854775807 (only parsing).
Abbreviation INT64_MIN := (-9223372036854775808) (only parsing).
Abbreviation UINT32_MAX := 4294967295 (only parsing).

(** Conversions to the unsigned and signed widths the source uses. *)
Definition u32 (x : Z) : Z := x mod 2 ^ 32.
Definition u64 (x : Z) : Z := x mod 2 ^ 64.
Definition u128 (x : Z) : Z := x mod 2 ^ 128.
Definition s64 (x : Z) : Z := (x + 2 ^ 63) mod 2 ^ 64 - 2 ^ 63.
Definition s128 (x : Z) : Z := (x + 2 ^ 127) mod 2 ^ 128 - 2 ^ 127.

Definition int64_range (x : Z) : Prop := INT64_MIN <= x <= INT64_MAX.

Lemma pow2_64 : 2 ^ 64 = B64.
Proof. reflexivity. Qed.

Lemma u64_range x : 0 <= u64 x < B64.
Proof. unfold u64. rewrite pow2_64. apply Z.mod_pos_bound. lia. Qed.

Lemma u64_small x : 0 <= x < B64 -> u64 x = x.
Proof. intros H. unfold u64. apply Z.mod_small. rewrite pow2_64. lia. Qed.

Lemma u32_small x : 0 <= x <= UINT32_MAX -> u32 x = x.
Proof. intros H. unfold u32. apply Z.mod_small. change (2 ^ 32) with 4294967296. lia. Qed.

Lemma u128_small x : 0 <= x < B64 * B64 -> u128 x = x.
Proof.
  intros H. unfold u128. apply Z.mod_small.
  change (2 ^ 128) with (B64 * B64). lia.
Qed.

Lemma s64_range raw : int64_range (s64 raw).
Proof.
  unfold int64_range, s64. pose proof (Z.mod_pos_bound (raw + 2 ^ 63) (2 ^ 64) ltac:(lia)).
  change (2 ^ 64) with 18446744073709551616 in *. change (2 ^ 63) with 9223372036854775808 in *. lia.
Qed.

Lemma s64_small x : int64_range x -> s64 x = x.
Proof.
  unfold int64_range, s64. intros H. rewrite Z.mod_small.
  - lia.
  - change (2 ^ 63) with 9223372036854775808.
    change (2 ^ 64) with B64. lia.
Qed.

Lemma s128_small x : - 2 ^ 127 <= x < 2 ^ 127 -> s128 x = x.
Proof.
  unfold s128. intros H. rewrite Z.mod_small; [lia|].
  change (2 ^ 128) with (2 ^ 127 + 2 ^ 127). lia.
Qed.

(** Low and high word of a wide value: [(uint64_t)x] and [x >> 64]. *)
Lemma u64_div x : u64 x = x - B64 * (x / B64).
Proof. unfold u64. rewrite pow2_64. rewrite (Z.mod_eq x B64); lia. Qed.

Lemma shr64_div x : Z.shiftr x 64 = x / B64.
Proof. rewrite Z.shiftr_div_pow2 by lia. reflexivity. Qed.

Lemma u64_split x : x = u64 x + B64 * Z.shiftr x 64.
Proof. rewrite u64_div, shr64_div. lia. Qed.

Lemma shr64_bound x k : 0 <= x < B64 * k -> 0 <= Z.shiftr x 64 < k.
Proof.
  intros H. rewrite shr64_div. split.
  - apply Z.div_pos; lia.
  - apply Z.div_lt_upper_bound; lia.
Qed.

(** ** Bitwise combination of disjoint fields *)

(** A word below [2^k] has no bit at or above [k]. *)
Lemma bits_above k lo i : 0 <= lo < 2 ^ k -> 0 <= k <= i -> Z.testbit lo i = false.
Proof.
  intros Hlo Hi. destruct (Z.eq_dec lo 0) as [->|Hne]; [apply Z.bits_0|].
  apply Z.bits_above_log2; [lia|].
  apply Z.log2_lt_pow2; [lia|].
  apply Z.lt_le_trans with (2 ^ k); [lia|]. apply Z.pow_le_mono_r; lia.
Qed.

Lemma land_shiftl_low k hi lo :
  0 <= k -> 0 <= lo < 2 ^ k -> Z.land (Z.shiftl hi k) lo = 0.
Proof.
  intros Hk Hlo. apply Z.bits_inj'. intros i Hi. rewrite Z.land_spec, Z.bits_0.
  destruct (Z.ltb_spec i k).
  - rewrite Z.shiftl_spec_low by lia. reflexivity.
  - rewrite (bits_above k lo i) by lia. apply andb_false_r.
Qed.

Lemma lor_disjoint_add k hi lo :
  0 <= k -> 0 <= lo < 2 ^ k -> Z.lor (Z.shiftl hi k) lo = hi * 2 ^ k + lo.
Proof.
  intros Hk Hlo. pose proof (land_shiftl_low k hi lo Hk Hlo) as Hd.
  rewrite <- Z.shiftl_mul_pow2 by lia.
  rewrite Z.add_nocarry_lxor by exact Hd.
  symmetry. apply Z.lxor_lor. exact Hd.
Qed.

(** Bits of a number built from a high part and a [k]-bit low part. *)
Lemma testbit_split k hi lo i :
  0 <= k -> 0 <= lo < 2 ^ k -> 0 <= i ->
  Z.testbit (lo + 2 ^ k * hi) i = if i <? k then Z.testbit lo i else Z.testbit hi (i - k).
Proof.
  intros Hk Hlo Hi. replace (lo + 2 ^ k * hi) with (hi * 2 ^ k + lo) by lia.
  rewrite <- lor_disjoint_add, Z.lor_spec, Z.shiftl_spec by lia.
  destruct (Z.ltb_spec i k).
  - rewrite Z.testbit_neg_r by lia. reflexivity.
  - rewrite (bits_above k lo i) by lia. apply orb_false_r.
Qed.

(** [(hi << 64) | lo] for a word [lo]. *)
Lemma lor_shl64 hi lo : 0 <= lo < B64 -> Z.lor (Z.shiftl hi 64) lo = hi * B64 + lo.
Proof. intros Hlo. rewrite lor_disjoint_add by (rewrite ?pow2_64; lia). reflexivity. Qed.

(** The parity test [x & 1]. *)
Lemma land_1 x : Z.land x 1 = x mod 2.
Proof. exact (Z.land_ones x 1 ltac:(lia)). Qed.

(** ** Rewriting database for the machine-word conversions *)

Create HintDb word.
#[export] Hint Resolve u64_range : word.

(** [wsimpl] removes every [u64] and [u128] whose argument [lia] bounds. *)
Ltac wsimpl :=
  repeat first
    [ rewrite u64_small by lia
    | rewrite u128_small by nia ].

(** Opens conjunctions and existentials of the context. *)
Ltac decompose_all :=
  repeat match goal with
         | H : _ /\ _ |- _ => destruct H
         | H : exists _, _ |- _ => destruct H
         end.

(** Case analysis on the innermost boolean comparison of the goal. *)
Ltac case_cmp :=
  match goal with
  | |- context [ ?x =? ?y ] => destruct (Z.eqb_spec x y)
  | |- context [ ?x <? ?y ] => destruct (Z.ltb_spec x y)
  | |- context [ ?x <=? ?y ] => destruct (Z.leb_spec x y)
  | |- context [ ?x >? ?y ] => rewrite (Z.gtb_ltb x y); destruct (Z.ltb_spec y x)
  | |- context [ ?x >=? ?y ] => rewrite (Z.geb_leb x y); destruct (Z.leb_spec y x)
  end.

(** Two relations that agree on their values relate a list to the same list. *)
Lemma Forall2_agree {X Y} (R R' : X -> Y -> Prop) l k k' :
  (forall a b b', R a b -> R' a b' -> b = b') -> Forall2 R l k -> Forall2 R' l k' -> k = k'.
Proof.
  intros H HR. revert k'. induction HR as [|a b l k Hab _ IH]; intros k' HR'; inversion HR'; subst; [reflexivity|].
  f_equal; eauto.
Qed.

Lemma flat_map_permutation {A B} (f : A -> list B) l l' : Permutation l l' -> Permutation (flat_map f l) (flat_map f l').
Proof.
  induction 1 as [|x l l' _ IH|x y l|l l1 l2 _ IH1 _ IH2]; cbn; [reflexivity|apply Permutation_app_head, IH| |etransitivity; eassumption].
  rewrite !app_assoc. apply Permutation_app_tail, Permutation_app_comm.
Qed.
