(* ===== verification/Effects.v ===== *)
(** * Effects of the runtime: results, allocation, exceptions

    The numeric runtime allocates every result from an arena, may raise an
    Eshkol exception (a [longjmp] out of the call) and, where a returned null
    pointer is used unchecked, dereferences null.  This file gives the state and
    error monad the components are written in, the interface through which they
    see the arena, and the weakest-precondition calculus their theorems use. *)

From Stdlib Require Import String ZArith List Lia Bool.
From S2P Require Import Prelude.
Import ListNotations.
Open Scope Z_scope.

(** ** Outcomes *)

(** [eshkol_exception_type_t], the codes the modelled code raises. *)
Inductive exception_type : Type :=
| ESHKOL_EXCEPTION_DIVIDE_BY_ZERO
| ESHKOL_EXCEPTION_ERROR.

(** How a call ends: it returns, it raises (code and message), it dereferences
    a null or stale pointer or overruns a buffer, or a loop exhausts the fuel of
    its model. *)
Inductive outcome (A : Type) : Type :=
| Ret (a : A)
| Raise (e : exception_type) (msg : string)
| Crash
| Diverge.
Arguments Ret {A} a.
Arguments Raise {A} e msg.
Arguments Crash {A}.
Arguments Diverge {A}.

(** ** The arena, as its clients see it *)

(** Requests return an address or null and leave a new arena state. *)
Class Arena (S : Type) : Type := {
  arena_is_null : S -> bool;
  arena_allocate : Z -> S -> option Z * S;
  arena_allocate_with_header : Z -> Z -> Z -> S -> option Z * S;
  arena_allocate_string_with_header : Z -> S -> option Z * S;
  arena_allocate_cons : S -> option Z * S;
}.

(** What an arena promises: an invariant its operations keep, for requests of
    any size an object can have.  A request whose
    size does not fit the 32-bit size field of the object header is refused
    whatever the state. *)
Class ArenaLaws (S : Type) {A : Arena S} : Type := {
  arena_inv : S -> Prop;
  arena_inv_not_null : forall s, arena_inv s -> arena_is_null s = false;
  arena_allocate_inv : forall n s,
    0 <= n < 2 ^ 61 -> arena_inv s -> arena_inv (snd (arena_allocate n s));
  arena_allocate_with_header_inv : forall n st fl s,
    0 <= n -> arena_inv s -> arena_inv (snd (arena_allocate_with_header n st fl s));
  arena_allocate_string_inv : forall n s,
    0 <= n < 2 ^ 61 -> arena_inv s -> arena_inv (snd (arena_allocate_string_with_header n s));
  arena_allocate_cons_inv : forall s, arena_inv s -> arena_inv (snd (arena_allocate_cons s));
  arena_allocate_with_header_refuses : forall n st fl s,
    arena_inv s -> UINT32_MAX < n < 2 ^ 63 ->
    fst (arena_allocate_with_header n st fl s) = None;
}.

(** ** The monad *)

(** A call takes the arena state to an outcome, a new state, and a flag that
    records whether some request of an admissible size was refused on the way
    (the system is out of memory, or a bounded arena is full).  The flag is not
    program state: it is what lets a theorem say that a null result is always due
    to a refused request. *)
Definition M (S A : Type) : Type := S -> outcome A * S * bool.

Section Monad.
  Context {S : Type}.

Definition ret {A} (a : A) : M S A := fun s => (Ret a, s, false).

Definition bind {A C} (m : M S A) (k : A -> M S C) : M S C := fun s =>
  match m s with
  | (Ret a, s', f) => let '(o, s'', f') := k a s' in (o, s'', f || f')
  | (Raise e msg, s', f) => (Raise e msg, s', f)
  | (Crash, s', f) => (Crash, s', f)
  | (Diverge, s', f) => (Diverge, s', f)
  end.

Definition raise {A} (e : exception_type) (msg : string) : M S A :=
  fun s => (Raise e msg, s, false).
Definition crash {A} : M S A := fun s => (Crash, s, false).
Definition diverge {A} : M S A := fun s => (Diverge, s, false).

(** Dereference of a possibly null pointer. *)
Definition deref {A} (p : option A) : M S A :=
  match p with Some a => ret a | None => crash end.

(** The result of a fuelled loop. *)
Definition fuelled {A} (r : option A) : M S A :=
  match r with Some a => ret a | None => diverge end.

End Monad.

(** The requests a client makes of its arena. *)
Section Requests.
  Context {S : Type} {A : Arena S}.

Definition is_null_arena : M S bool := fun s => (Ret (arena_is_null s), s, false).

Definition refused (p : option Z) (admissible : bool) : bool :=
  match p with None => admissible | Some _ => false end.

Definition allocate (n : Z) : M S (option Z) := fun s =>
  let '(p, s') := arena_allocate n s in (Ret p, s', refused p true).

Definition allocate_with_header (n subtype flags : Z) : M S (option Z) := fun s =>
  let '(p, s') := arena_allocate_with_header n subtype flags s in
  (Ret p, s', refused p (n <=? UINT32_MAX)).

Definition allocate_string_with_header (n : Z) : M S (option Z) := fun s =>
  let '(p, s') := arena_allocate_string_with_header n s in (Ret p, s', refused p true).

(** [arena_allocate_cons_with_header]. *)
Definition allocate_cons : M S (option Z) := fun s =>
  let '(p, s') := arena_allocate_cons s in (Ret p, s', refused p true).

End Requests.

Declare Scope effect_scope.
Delimit Scope effect_scope with effect.
Notation "'let!' x ':=' m 'in' k" := (bind m (fun x => k))
  (at level 10, x pattern, k at level 200,
   format "'[v' 'let!'  x  ':='  m  'in' '/' k ']'") : effect_scope.
Open Scope effect_scope.

(** Null check: [if (!p) return nullptr]. *)
Notation "'check!' x ':=' m 'in' k" :=
  (bind m (fun p => match p with Some x => k | None => ret None end))
  (at level 10, x pattern, k at level 200,
   format "'[v' 'check!'  x  ':='  m  'in' '/' k ']'") : effect_scope.

(** ** Weakest preconditions *)

(** Specifications are stated relative to an assumption on the run: [granted] is
    a proposition under which no request was refused.  With [granted := False] a
    specification holds of every run; with [granted := True] it speaks of the runs
    in which no request was refused. *)
Class Granted : Type := granted : Prop.

Section WP.
  Context {S : Type} {A : Arena S} {L : ArenaLaws S} {G : Granted}.

(** [wpx m Q E]: from every state that satisfies the arena invariant, [m] returns
    a value satisfying [Q] or raises an exception satisfying [E]; it never
    crashes or runs out of fuel, and the invariant is kept. *)
Definition wpx {X} (m : M S X) (Q : X -> Prop) (E : exception_type -> Prop) : Prop :=
  forall s, arena_inv s ->
  let '(o, s', f) := m s in
  (granted -> f = false) ->
  arena_inv s' /\
  match o with
  | Ret x => Q x
  | Raise e _ => E e
  | _ => False
  end.

Definition wp {X} (m : M S X) (Q : X -> Prop) : Prop := wpx m Q (fun _ => False).

Lemma wpx_ret {X} (x : X) Q E : Q x -> wpx (ret x) Q E.
Proof. intros HQ s Hs. simpl. auto. Qed.

Lemma wpx_raise {X} e msg (Q : X -> Prop) (E : exception_type -> Prop) :
  E e -> wpx (raise e msg) Q E.
Proof. intros HE s Hs. simpl. auto. Qed.

Lemma wpx_bind {X Y} (m : M S X) (k : X -> M S Y) Q E :
  wpx m (fun x => wpx (k x) Q E) E -> wpx (bind m k) Q E.
Proof.
  intros Hm s Hs. unfold bind. specialize (Hm s Hs).
  destruct (m s) as [[[x|e msg| |] s1] f1]; try exact Hm.
  destruct (k x s1) as [[o s2] f2] eqn:Ek. intros Hf.
  assert (H1 : granted -> f1 = false) by (intros g; apply (orb_false_elim _ _ (Hf g))).
  destruct (Hm H1) as [Hs1 Hk]. specialize (Hk s1 Hs1). rewrite Ek in Hk.
  apply Hk. intros g. apply (orb_false_elim _ _ (Hf g)).
Qed.

Lemma wpx_mono {X} (m : M S X) (Q Q' : X -> Prop) (E E' : exception_type -> Prop) :
  (forall x, Q x -> Q' x) -> (forall e, E e -> E' e) -> wpx m Q E -> wpx m Q' E'.
Proof.
  intros HQ HE Hm s Hs. specialize (Hm s Hs).
  destruct (m s) as [[[x|e msg| |] s'] f]; intuition.
Qed.

Lemma wp_ret {X} (x : X) Q : Q x -> wp (ret x) Q.
Proof. apply wpx_ret. Qed.

Lemma wp_mono {X} (m : M S X) (Q Q' : X -> Prop) :
  (forall x, Q x -> Q' x) -> wp m Q -> wp m Q'.
Proof. intros HQ. apply wpx_mono; auto. Qed.

(** A call whose specification is known, followed by a continuation. *)
Lemma wp_call {X Y} (m : M S X) (k : X -> M S Y) (P : X -> Prop) Q :
  wp m P -> (forall x, P x -> wp (k x) Q) -> wp (bind m k) Q.
Proof. intros Hm Hk. apply wpx_bind. exact (wp_mono _ _ _ Hk Hm). Qed.

Lemma wpx_call {X Y} (m : M S X) (k : X -> M S Y) (P : X -> Prop) Q E :
  wp m P -> (forall x, P x -> wpx (k x) Q E) -> wpx (bind m k) Q E.
Proof.
  intros Hm Hk. apply wpx_bind. unfold wp in Hm.
  eapply wpx_mono; [exact Hk| |exact Hm]. intros e [].
Qed.

Lemma wp_deref {X} (x : X) Q : Q x -> wp (deref (Some x)) Q.
Proof. apply wpx_ret. Qed.

Lemma wp_fuelled {X} (x : X) Q : Q x -> wp (fuelled (Some x)) Q.
Proof. apply wpx_ret. Qed.

(** Both postconditions of a call. *)
Lemma wp_and {X} (m : M S X) (Q Q' : X -> Prop) :
  wp m Q -> wp m Q' -> wp m (fun x => Q x /\ Q' x).
Proof.
  intros H H' s Hs. specialize (H s Hs). specialize (H' s Hs).
  destruct (m s) as [[[x|e msg| |] s'] f]; intuition.
Qed.

Lemma wp_is_null_arena : wp is_null_arena (fun b => b = false).
Proof. intros s Hs. simpl. intros _. split; [exact Hs|apply arena_inv_not_null, Hs]. Qed.

End WP.

(** The result of an allocating operation: an object satisfying [P], or null,
    which happens only when a request was refused or [fits] fails. *)
Definition or_null {G : Granted} {X} (fits : Prop) (P : X -> Prop) (r : option X) : Prop :=
  match r with
  | Some x => P x
  | None => granted -> fits -> False
  end.

Section OrNull.
  Context {S : Type} {A : Arena S} {L : ArenaLaws S} {G : Granted}.

Lemma or_null_mono {X} (F F' : Prop) (P P' : X -> Prop) r :
  (F' -> F) -> (forall x, P x -> P' x) -> or_null F P r -> or_null F' P' r.
Proof. destruct r; simpl; intuition. Qed.

(** A null-checked call: null is passed on. *)
Lemma wp_check {X Y} (m : M S (option X)) (k : X -> M S (option Y)) F P F' P' :
  wp m (or_null F P) -> (F' -> F) ->
  (forall x, P x -> wp (k x) (or_null F' P')) ->
  wp (bind m (fun p => match p with Some x => k x | None => ret None end)) (or_null F' P').
Proof.
  intros Hm HF Hk. apply (wp_call _ _ _ _ Hm). intros [x|] Hx.
  - apply Hk. exact Hx.
  - apply wp_ret. simpl in *. intuition.
Qed.

(** When every request was granted [or_null] gives a non-null result. *)
Lemma or_null_granted {X} (F : Prop) (P : X -> Prop) r :
  granted -> F -> or_null F P r -> exists x, r = Some x /\ P x.
Proof. destruct r; simpl; [eauto|intuition]. Qed.

Lemma wp_or_null_weaken {X} (m : M S (option X)) (F F' : Prop) P P' :
  (F' -> F) -> (forall x, P x -> P' x) -> wp m (or_null F P) -> wp m (or_null F' P').
Proof. intros HF HP. apply wp_mono. intros r. apply or_null_mono; assumption. Qed.

(** The four requests. *)
Lemma refused_spec (p : option Z) (adm : bool) (F : Prop) (P : Z -> Prop) :
  (granted -> refused p adm = false) -> (F -> adm = true) -> (forall x, p = Some x -> P x) ->
  or_null F P p.
Proof.
  intros Hg HF HP. destruct p; simpl in *; [auto|]. intros g f. specialize (HF f).
  rewrite HF in Hg. discriminate (Hg g).
Qed.

Lemma allocate_spec n : 0 <= n < 2 ^ 61 -> wp (allocate n) (or_null True (fun _ => True)).
Proof.
  intros Hn s Hs. unfold allocate. pose proof (arena_allocate_inv n s Hn Hs) as Hinv.
  destruct (arena_allocate n s) as [p s']. intros Hf. split; [exact Hinv|].
  apply (refused_spec p true); auto.
Qed.

Lemma allocate_string_spec n :
  0 <= n < 2 ^ 61 -> wp (allocate_string_with_header n) (or_null True (fun _ => True)).
Proof.
  intros Hn s Hs. unfold allocate_string_with_header.
  pose proof (arena_allocate_string_inv n s Hn Hs) as Hinv.
  destruct (arena_allocate_string_with_header n s) as [p s']. intros Hf. split; [exact Hinv|].
  apply (refused_spec p true); auto.
Qed.

Lemma allocate_cons_spec : wp allocate_cons (or_null True (fun _ => True)).
Proof.
  intros s Hs. unfold allocate_cons. pose proof (arena_allocate_cons_inv s Hs) as Hinv.
  destruct (arena_allocate_cons s) as [p s']. intros Hf. split; [exact Hinv|].
  apply (refused_spec p true); auto.
Qed.

Lemma allocate_with_header_spec n st fl :
  0 <= n < 2 ^ 63 ->
  wp (allocate_with_header n st fl) (or_null (n <= UINT32_MAX) (fun _ => n <= UINT32_MAX)).
Proof.
  intros Hn s Hs. unfold allocate_with_header.
  pose proof (arena_allocate_with_header_inv n st fl s (proj1 Hn) Hs) as Hinv.
  pose proof (arena_allocate_with_header_refuses n st fl s Hs) as Href.
  destruct (arena_allocate_with_header n st fl s) as [p s']. intros Hf. split; [exact Hinv|].
  apply (refused_spec p (n <=? UINT32_MAX)); [exact Hf|intros; apply Z.leb_le; lia|].
  intros x ->. cbn [fst] in Href. destruct (Z.leb_spec n UINT32_MAX); [lia|].
  discriminate Href. lia.
Qed.

End OrNull.

(** ** Reading a specification off a run *)

(** The two readings of a specification proved for every [Granted]. *)
Lemma wp_run {S} {A : Arena S} {L : ArenaLaws S} {X} (m : M S (option X)) F P s :
  (forall G : Granted, wp m (or_null F P)) -> arena_inv s ->
  exists r s' f, m s = (Ret r, s', f) /\ arena_inv s' /\
    match r with Some x => P x | None => f = true \/ ~ F end.
Proof.
  intros H Hs. pose proof (H False s Hs) as H0. pose proof (H True s Hs) as H1.
  unfold granted in *. destruct (m s) as [[o s'] f].
  destruct (H0 (False_ind _)) as [Hs' Ho]. destruct o as [r| | |]; try contradiction.
  exists r, s', f. repeat split; auto. destruct r as [x|]; [exact Ho|].
  destruct f; [auto|]. right. intros HF. destruct (H1 (fun _ => eq_refl)) as [_ H2]. exact (H2 I HF).
Qed.

(** A specification whose postcondition speaks of [granted]: what holds of every
    run, and what holds of the runs in which no request was refused. *)
Lemma wp_readings {S} {A : Arena S} {L : ArenaLaws S} {X} (m : M S X) (Q : Prop -> X -> Prop) s :
  (forall G : Granted, wp m (Q G)) -> arena_inv s ->
  exists r s' f, m s = (Ret r, s', f) /\ arena_inv s' /\ Q False r /\ (f = false -> Q True r).
Proof.
  intros H Hs. pose proof (H False s Hs) as H0. pose proof (H True s Hs) as H1.
  unfold granted in *. destruct (m s) as [[o s'] f].
  destruct (H0 (False_ind _)) as [Hs' Ho]. destruct o as [r| | |]; try contradiction.
  exists r, s', f. repeat split; auto. intros Hf. apply H1. auto.
Qed.

(** ** Runs in which every request is granted *)

Definition runs {S A} (m : M S A) (s : S) (Q : A -> S -> Prop) : Prop :=
  let '(o, s', f) := m s in f = false -> match o with Ret a => Q a s' | _ => False end.

Lemma runs_value {S A} (a : A) (s : S) Q : Q a s -> runs (ret a) s Q.
Proof. intros HQ _. exact HQ. Qed.

Lemma runs_seq {S A C} (m : M S A) (k : A -> M S C) s Q : runs m s (fun a s' => runs (k a) s' Q) -> runs (bind m k) s Q.
Proof.
  unfold runs, bind. destruct (m s) as [[[a| | |] s1] f1]; try (intros Hm Hf; exact (Hm Hf)).
  destruct (k a s1) as [[o s2] f2]. intros Hm Hf. apply orb_false_iff in Hf as [Hf1 Hf2]. exact (Hm Hf1 Hf2).
Qed.

Lemma runs_mono {S A} (m : M S A) s (Q Q' : A -> S -> Prop) : (forall a s', Q a s' -> Q' a s') -> runs m s Q -> runs m s Q'.
Proof. unfold runs. intros Hi. destruct (m s) as [[[a| | |] s1] f1]; auto. Qed.

(** A step whose result is known. *)
Lemma runs_step {S A C} (m : M S A) (k : A -> M S C) s a s' Q : m s = (Ret a, s', false) -> runs (k a) s' Q -> runs (bind m k) s Q.
Proof. intros E Hk. apply runs_seq. unfold runs. rewrite E. auto. Qed.

(** A run whose result is known, followed by a continuation. *)
Lemma runs_call {S A C} (m : M S A) (k : A -> M S C) s (P : A -> S -> Prop) Q :
  runs m s P -> (forall a s', P a s' -> runs (k a) s' Q) -> runs (bind m k) s Q.
Proof. intros Hm Hk. apply runs_seq. exact (runs_mono _ _ _ _ Hk Hm). Qed.

(** ** Runs that return, whatever requests are refused *)

Definition safely {S A} (m : M S A) (s : S) (Q : A -> S -> Prop) : Prop :=
  match m s with (Ret a, s', _) => Q a s' | _ => False end.

Lemma safely_value {S A} (a : A) (s : S) (Q : A -> S -> Prop) : Q a s -> safely (ret a) s Q.
Proof. intros HQ. exact HQ. Qed.

Lemma safely_seq {S A C} (m : M S A) (k : A -> M S C) s Q : safely m s (fun a s' => safely (k a) s' Q) -> safely (bind m k) s Q.
Proof.
  unfold safely, bind. destruct (m s) as [[[a| | |] s1] f1]; try contradiction. destruct (k a s1) as [[o s2] f2]. exact (fun Hk => Hk).
Qed.

Lemma safely_mono {S A} (m : M S A) s (Q Q' : A -> S -> Prop) : (forall a s', Q a s' -> Q' a s') -> safely m s Q -> safely m s Q'.
Proof. unfold safely. intros Hi. destruct (m s) as [[[a| | |] s1] f1]; auto. Qed.

Lemma safely_call {S A C} (m : M S A) (k : A -> M S C) s (P : A -> S -> Prop) Q :
  safely m s P -> (forall a s', P a s' -> safely (k a) s' Q) -> safely (bind m k) s Q.
Proof. intros Hm Hk. apply safely_seq. exact (safely_mono _ _ _ _ Hk Hm). Qed.
