(* ===== verification/Limbs.v ===== *)
(** * Limb arrays: the unsigned magnitudes of lib/core/bignum.cpp

    A magnitude is the little-endian list of the 64-bit limbs that follow an
    [eshkol_bignum_t] in memory.  The loops of the static helpers of
    lib/core/bignum.cpp are translated one by one, each with the equation its
    loop establishes between the values of its arguments and of its result. *)

From Stdlib Require Import ZArith List Lia Bool.
From S2P Require Import Prelude.
Import ListNotations.
Open Scope Z_scope.

(** ** Values and well-formedness *)

Definition limb (x : Z) : Prop := 0 <= x < B64.
Definition limbs_ok (l : list Z) : Prop := Forall limb l.

(** The number a limb array stands for: [sum(limbs[i] * 2^(64*i))]. *)
Fixpoint lval (l : list Z) : Z :=
  match l with
  | [] => 0
  | x :: l' => x + B64 * lval l'
  end.

(** The weight of the limb at index [n]. *)
Definition bpow (n : nat) : Z := B64 ^ Z.of_nat n.

(** At least one limb, and no leading zero limb unless it is the only one. *)
Definition canonical (l : list Z) : Prop :=
  l <> [] /\ ((1 < length l)%nat -> last l 0 <> 0).

(** ** The loops *)

(** [bignum_normalize]'s loop: the number of limbs that remain. *)
Fixpoint normalize_count (l : list Z) (n : nat) : nat :=
  match n with
  | S (S _ as n') => if nth n' l 0 =? 0 then normalize_count l n' else n
  | _ => n
  end.

Definition normalize_limbs (l : list Z) : list Z :=
  firstn (normalize_count l (length l)) l.

(** [bignum_compare_abs]'s loop, from limb [i - 1] down to limb 0. *)
Fixpoint compare_loop (la lb : list Z) (i : nat) : Z :=
  match i with
  | O => 0
  | S k =>
    if nth k la 0 =? nth k lb 0 then compare_loop la lb k
    else if nth k la 0 >? nth k lb 0 then 1 else -1
  end.

Definition compare_limbs (la lb : list Z) : Z :=
  if (length la =? length lb)%nat then compare_loop la lb (length la)
  else if (length lb <? length la)%nat then 1 else -1.

(** [bignum_add_abs]'s loop over [n] limbs: an index past the end of an operand
    reads zero. *)
Fixpoint add_loop (n : nat) (la lb : list Z) (carry : Z) : list Z * Z :=
  match n with
  | O => ([], carry)
  | S n' =>
    let sum := u128 (hd 0 la + hd 0 lb + carry) in
    let '(r, c) := add_loop n' (tl la) (tl lb) (Z.shiftr sum 64) in
    (u64 sum :: r, c)
  end.

(** [bignum_sub_abs]'s loop over the limbs of [a]. *)
Fixpoint sub_loop (la lb : list Z) (borrow : Z) : list Z * Z :=
  match la with
  | [] => ([], borrow)
  | av :: la' =>
    let bv := hd 0 lb in
    let diff := u64 (av - bv - borrow) in
    let borrow' :=
      if (av <? u64 (bv + borrow)) || (negb (borrow =? 0) && (bv =? UINT64_MAX))
      then 1 else 0 in
    let '(r, b) := sub_loop la' (tl lb) borrow' in
    (diff :: r, b)
  end.

(** [bignum_addmul_limb]'s loop, on the part of [result] from [offset] on. *)
Fixpoint addmul_loop (r a : list Z) (b_limb carry : Z) : list Z :=
  match a with
  | [] =>
    match r with
    | [] => []
    | r0 :: r' => u64 (r0 + carry) :: r'
    end
  | a0 :: a' =>
    let prod := u128 (a0 * b_limb + hd 0 r + carry) in
    u64 prod :: addmul_loop (tl r) a' b_limb (Z.shiftr prod 64)
  end.

Definition bignum_addmul_limb (result a : list Z) (b_limb : Z) (offset : nat) : list Z :=
  firstn offset result ++ addmul_loop (skipn offset result) a b_limb 0.

(** The schoolbook loop of [eshkol_bignum_mul] over the limbs of [b]. *)
Fixpoint mul_loop (result la lb : list Z) (i : nat) : list Z :=
  match lb with
  | [] => result
  | b0 :: lb' =>
    mul_loop (if b0 =? 0 then result else bignum_addmul_limb result la b0 i) la lb' (S i)
  end.

(** [bignum_div_limb]'s loop, most significant limb first: quotient limbs and
    remainder. *)
Fixpoint div_limb_loop (la : list Z) (divisor : Z) : list Z * Z :=
  match la with
  | [] => ([], 0)
  | x :: la' =>
    let '(q, rem) := div_limb_loop la' divisor in
    let cur := Z.lor (u128 (Z.shiftl rem 64)) x in
    (u64 (cur / divisor) :: q, cur mod divisor)
  end.

(** One multiply-and-add pass of [eshkol_bignum_from_string]:
    [limbs = limbs * 10 + carry] and the carry out. *)
Fixpoint muladd_loop (l : list Z) (m carry : Z) : list Z * Z :=
  match l with
  | [] => ([], carry)
  | x :: l' =>
    let prod := u128 (x * m + carry) in
    let '(r, c) := muladd_loop l' m (Z.shiftr prod 64) in
    (u64 prod :: r, c)
  end.

(** ** Generic facts *)

Lemma bpow_0 : bpow 0 = 1.
Proof. reflexivity. Qed.

Lemma bpow_S n : bpow (S n) = B64 * bpow n.
Proof. unfold bpow. rewrite Nat2Z.inj_succ, Z.pow_succ_r by lia. reflexivity. Qed.

Lemma bpow_pow2 n : bpow n = 2 ^ (64 * Z.of_nat n).
Proof. unfold bpow. rewrite <- pow2_64, <- Z.pow_mul_r by lia. reflexivity. Qed.

Lemma bpow_pos n : 0 < bpow n.
Proof. unfold bpow. apply Z.pow_pos_nonneg; lia. Qed.

Lemma bpow_add n m : bpow (n + m) = bpow n * bpow m.
Proof. unfold bpow. rewrite Nat2Z.inj_add, Z.pow_add_r by lia. reflexivity. Qed.

Lemma lval_app a b : lval (a ++ b) = lval a + bpow (length a) * lval b.
Proof.
  induction a as [|x a IH]; cbn [app lval length]; [rewrite bpow_0; lia|].
  rewrite IH, bpow_S. ring.
Qed.

Lemma limbs_ok_cons x l : limbs_ok (x :: l) <-> limb x /\ limbs_ok l.
Proof. apply Forall_cons_iff. Qed.

Lemma limbs_ok_nil : limbs_ok [].
Proof. constructor. Qed.

Lemma limbs_ok_one x : limb x -> limbs_ok [x].
Proof. repeat constructor; apply H. Qed.

Lemma limbs_ok_app_intro a b : limbs_ok a -> limbs_ok b -> limbs_ok (a ++ b).
Proof. intros. apply Forall_app. auto. Qed.

Lemma limbs_ok_app a b : limbs_ok (a ++ b) <-> limbs_ok a /\ limbs_ok b.
Proof. apply Forall_app. Qed.

Lemma limb_u64 x : limb (u64 x).
Proof. apply u64_range. Qed.

Lemma limb_hd l : limbs_ok l -> limb (hd 0 l).
Proof. intros [|x l' H _]; [unfold limb; simpl; lia|exact H]. Qed.

Lemma limbs_ok_tl l : limbs_ok l -> limbs_ok (tl l).
Proof. intros [|x l' _ H]; [constructor|exact H]. Qed.

Lemma limbs_ok_firstn n l : limbs_ok l -> limbs_ok (firstn n l).
Proof.
  intros H. rewrite <- (firstn_skipn n l) in H. apply limbs_ok_app in H. tauto.
Qed.

Lemma limbs_ok_skipn n l : limbs_ok l -> limbs_ok (skipn n l).
Proof.
  intros H. rewrite <- (firstn_skipn n l) in H. apply limbs_ok_app in H. tauto.
Qed.

Lemma limbs_ok_nth l i : limbs_ok l -> limb (nth i l 0).
Proof.
  intros H. destruct (nth_in_or_default i l 0) as [Hin| ->].
  - exact (proj1 (Forall_forall _ _) H _ Hin).
  - unfold limb. lia.
Qed.

Lemma limbs_ok_repeat n : limbs_ok (repeat 0 n).
Proof. induction n; constructor; auto. unfold limb. lia. Qed.

Lemma lval_repeat n : lval (repeat 0 n) = 0.
Proof. induction n; cbn [repeat lval]; lia. Qed.

Lemma lval_hd_tl l : lval l = hd 0 l + B64 * lval (tl l).
Proof. destruct l; reflexivity. Qed.

Lemma lval_firstn_skipn n l :
  (n <= length l)%nat -> lval l = lval (firstn n l) + bpow n * lval (skipn n l).
Proof.
  intros Hn. rewrite <- (firstn_skipn n l) at 1. rewrite lval_app.
  rewrite length_firstn, Nat.min_l by lia. reflexivity.
Qed.

Lemma lval_nonneg l : limbs_ok l -> 0 <= lval l.
Proof. induction 1 as [|x l Hx _ IH]; cbn [lval]; unfold limb in *; lia. Qed.

Lemma lval_bound l : limbs_ok l -> lval l < bpow (length l).
Proof.
  induction 1 as [|x l Hx Hl IH]; cbn [lval length].
  - rewrite bpow_0. lia.
  - rewrite bpow_S. unfold limb in *. lia.
Qed.

Create HintDb limbs.
#[export] Hint Resolve limbs_ok_nil limbs_ok_one limbs_ok_app_intro limb_u64 limb_hd limbs_ok_tl limbs_ok_firstn limbs_ok_skipn
  limbs_ok_nth limbs_ok_repeat lval_nonneg lval_bound bpow_pos : limbs.
#[export] Hint Constructors Forall : limbs.

(** The top limb bounds a magnitude from below. *)
Lemma lval_last_lower l :
  limbs_ok l -> l <> [] ->
  0 <= last l 0 /\ last l 0 * bpow (length l - 1) <= lval l.
Proof.
  intros Hl Hne. destruct (exists_last Hne) as [l' [x ->]].
  apply limbs_ok_app in Hl. destruct Hl as [H1 H2]. apply Forall_inv in H2.
  rewrite last_last, lval_app, length_app. cbn [lval length].
  replace (length l' + 1 - 1)%nat with (length l') by lia.
  pose proof (lval_nonneg _ H1). unfold limb in H2. lia.
Qed.

Lemma canonical_lower l :
  limbs_ok l -> canonical l -> (1 < length l)%nat -> bpow (length l - 1) <= lval l.
Proof.
  intros Hl [Hne Hc] Hlen. specialize (Hc Hlen).
  destruct (lval_last_lower l Hl Hne). pose proof (bpow_pos (length l - 1)). nia.
Qed.

(** ** Normalisation *)

Lemma firstn_snoc_nth (l : list Z) n :
  (n < length l)%nat -> firstn (S n) l = firstn n l ++ [nth n l 0].
Proof.
  revert n. induction l as [|x l IH]; intros [|n] Hn; cbn [length] in Hn; try lia; [reflexivity|].
  cbn [firstn nth app]. rewrite <- IH by lia. reflexivity.
Qed.

Lemma normalize_count_step l n :
  normalize_count l (S (S n)) =
  if nth (S n) l 0 =? 0 then normalize_count l (S n) else S (S n).
Proof. reflexivity. Qed.

(** The limbs dropped are zero, and what is left is canonical. *)
Lemma normalize_count_spec l n :
  (0 < n <= length l)%nat ->
  lval (firstn (normalize_count l n) l) = lval (firstn n l) /\
  canonical (firstn (normalize_count l n) l).
Proof.
  induction n as [|[|n] IH]; intros Hn; [lia| |].
  - split; [reflexivity|]. destruct l; [simpl in Hn; lia|]. split; simpl; [discriminate|lia].
  - rewrite normalize_count_step. rewrite (firstn_snoc_nth l (S n)) by lia.
    case_cmp.
    + destruct IH as [IHv IHc]; [lia|]. rewrite IHv, lval_app, e. cbn [lval].
      split; [lia|exact IHc].
    + rewrite <- firstn_snoc_nth by lia. split; [reflexivity|].
      rewrite firstn_snoc_nth by lia. split.
      * intros E. apply app_eq_nil in E. destruct E; discriminate.
      * intros _. rewrite last_last. exact n0.
Qed.

Lemma normalize_value l : lval (normalize_limbs l) = lval l.
Proof.
  unfold normalize_limbs. destruct l as [|x l]; [reflexivity|].
  rewrite (proj1 (normalize_count_spec (x :: l) (length (x :: l)) ltac:(simpl; lia))).
  rewrite firstn_all. reflexivity.
Qed.

Lemma normalize_canonical l : l <> [] -> canonical (normalize_limbs l).
Proof.
  intros Hne. apply normalize_count_spec. destruct l; [contradiction|simpl; lia].
Qed.

Lemma normalize_limbs_ok l : limbs_ok l -> limbs_ok (normalize_limbs l).
Proof. apply limbs_ok_firstn. Qed.

Lemma normalize_length l : (length (normalize_limbs l) <= length l)%nat.
Proof. unfold normalize_limbs. rewrite length_firstn. lia. Qed.

#[export] Hint Resolve normalize_canonical normalize_limbs_ok : limbs.

Lemma skipn_cons_nth (l : list Z) n :
  (n < length l)%nat -> skipn n l = nth n l 0 :: skipn (S n) l.
Proof.
  revert n. induction l as [|x l IH]; intros [|n] Hn; cbn [length] in Hn; try lia; [reflexivity|].
  cbn [skipn nth]. rewrite IH by lia. reflexivity.
Qed.

Lemma lval_firstn_S l k :
  (k < length l)%nat -> lval (firstn (S k) l) = lval (firstn k l) + bpow k * nth k l 0.
Proof.
  intros Hk. rewrite firstn_snoc_nth, lval_app, length_firstn, Nat.min_l by lia.
  cbn [lval]. lia.
Qed.

Lemma nth_last_eq (l : list Z) : l <> [] -> nth (length l - 1) l 0 = last l 0.
Proof.
  intros Hne. destruct (exists_last Hne) as [l' [x ->]].
  rewrite last_last, length_app, app_nth2; simpl; [|lia].
  replace (length l' + 1 - 1 - length l')%nat with O by lia. reflexivity.
Qed.

(** A magnitude by its top limb and the rest. *)
Lemma lval_top l k :
  length l = S k -> lval l = lval (firstn k l) + bpow k * nth k l 0.
Proof.
  intros Hl. rewrite <- (firstn_all l) at 1. rewrite Hl. apply lval_firstn_S. lia.
Qed.

Lemma lval_firstn_bound l k :
  limbs_ok l -> (k <= length l)%nat -> 0 <= lval (firstn k l) < bpow k.
Proof.
  intros Hl Hk. pose proof (lval_nonneg _ (limbs_ok_firstn k l Hl)).
  pose proof (lval_bound _ (limbs_ok_firstn k l Hl)) as Hb.
  rewrite length_firstn, Nat.min_l in Hb by lia. lia.
Qed.

(** ** Comparison *)

Lemma compare_loop_value la lb i :
  limbs_ok la -> limbs_ok lb -> (i <= length la)%nat -> (i <= length lb)%nat ->
  compare_loop la lb i = Z.sgn (lval (firstn i la) - lval (firstn i lb)).
Proof.
  intros Ha Hb. induction i as [|i IH]; intros Hi Hj; [reflexivity|].
  rewrite !firstn_snoc_nth, !lval_app, !length_firstn, !Nat.min_l by lia.
  cbn [compare_loop lval].
  pose proof (limbs_ok_nth la i Ha). pose proof (limbs_ok_nth lb i Hb).
  pose proof (lval_bound _ (limbs_ok_firstn i la Ha)) as Ba.
  pose proof (lval_bound _ (limbs_ok_firstn i lb Hb)) as Bb.
  pose proof (lval_nonneg _ (limbs_ok_firstn i la Ha)).
  pose proof (lval_nonneg _ (limbs_ok_firstn i lb Hb)).
  rewrite length_firstn, Nat.min_l in Ba, Bb by lia.
  case_cmp; [rewrite IH, e by lia; f_equal; lia|].
  case_cmp; symmetry; [apply Z.sgn_pos|apply Z.sgn_neg]; nia.
Qed.

(** More limbs means a larger magnitude when neither array has leading zeros. *)
Lemma lval_length_lt la lb :
  limbs_ok la -> limbs_ok lb -> la <> [] -> canonical lb ->
  (length la < length lb)%nat -> lval la < lval lb.
Proof.
  intros Ha Hb Hne Hc Hlen. pose proof (lval_bound la Ha).
  assert (1 < length lb)%nat by (destruct la; simpl in *; [contradiction|lia]).
  pose proof (canonical_lower lb Hb Hc ltac:(lia)).
  replace (length lb - 1)%nat with (length la + (length lb - 1 - length la))%nat in * by lia.
  rewrite bpow_add in *. pose proof (bpow_pos (length lb - 1 - length la)).
  pose proof (bpow_pos (length la)). nia.
Qed.

Theorem compare_limbs_spec la lb :
  limbs_ok la -> limbs_ok lb -> canonical la -> canonical lb ->
  compare_limbs la lb = Z.sgn (lval la - lval lb).
Proof.
  intros Ha Hb Ca Cb. unfold compare_limbs. destruct (Nat.eqb_spec (length la) (length lb)).
  - rewrite compare_loop_value, firstn_all, e, firstn_all by (auto; lia). reflexivity.
  - destruct (Nat.ltb_spec (length lb) (length la)); symmetry.
    + apply Z.sgn_pos. pose proof (lval_length_lt lb la Hb Ha (proj1 Cb) Ca ltac:(lia)). lia.
    + apply Z.sgn_neg. pose proof (lval_length_lt la lb Ha Hb (proj1 Ca) Cb ltac:(lia)). lia.
Qed.

(** ** Addition and subtraction *)

(** Splits [x] into its low word and the carry above it. *)
Ltac split_word x :=
  let E := fresh "Esplit" in let R := fresh "Rlow" in
  pose proof (u64_split x) as E; pose proof (u64_range x) as R.

Lemma add_loop_spec n la lb carry r c :
  limbs_ok la -> limbs_ok lb -> 0 <= carry <= 1 ->
  add_loop n la lb carry = (r, c) ->
  limbs_ok r /\ length r = n /\ 0 <= c <= 1 /\
  lval r + bpow n * c = lval (firstn n la) + lval (firstn n lb) + carry.
Proof.
  revert la lb carry r c. induction n as [|n IH]; intros la lb carry r c Ha Hb Hc E.
  - injection E as <- <-. rewrite bpow_0, !firstn_O. cbn [lval length].
    repeat split; try lia. constructor.
  - cbn [add_loop] in E. destruct (add_loop n _ _ _) as [r' c'] eqn:Er.
    injection E as <- <-.
    pose proof (limb_hd la Ha) as Hha. pose proof (limb_hd lb Hb) as Hhb. unfold limb in *.
    rewrite u128_small in Er |- * by lia.
    set (sum := hd 0 la + hd 0 lb + carry) in *. split_word sum.
    pose proof (shr64_bound sum 2 ltac:(lia)) as Hsh.
    destruct (IH _ _ (Z.shiftr sum 64) _ _ (limbs_ok_tl _ Ha) (limbs_ok_tl _ Hb) ltac:(lia) Er)
      as (Hr & Hl & Hc' & Hv).
    repeat split; [constructor; auto with limbs|simpl; lia|lia|lia|].
    rewrite bpow_S. cbn [lval].
    assert (Hf : forall l, lval (firstn (S n) l) = hd 0 l + B64 * lval (firstn n (tl l))).
    { intros [|x l]; [rewrite firstn_nil; cbn; rewrite firstn_nil; reflexivity|reflexivity]. }
    rewrite !Hf. subst sum. lia.
Qed.

Lemma sub_loop_spec la lb borrow r b :
  limbs_ok la -> limbs_ok lb -> 0 <= borrow <= 1 -> (length lb <= length la)%nat ->
  sub_loop la lb borrow = (r, b) ->
  limbs_ok r /\ length r = length la /\ 0 <= b <= 1 /\
  lval r - bpow (length la) * b = lval la - lval lb - borrow.
Proof.
  revert lb borrow r b. induction la as [|av la IH]; intros lb borrow r b Ha Hb Hw Hlen E.
  - injection E as <- <-. destruct lb; [|simpl in Hlen; lia].
    cbn [lval length]. rewrite bpow_0. repeat split; try lia. constructor.
  - cbn [sub_loop] in E. apply limbs_ok_cons in Ha. destruct Ha as [Hav Ha].
    destruct (sub_loop la _ _) as [r' b'] eqn:Er. injection E as <- <-.
    pose proof (limb_hd lb Hb) as Hbv. unfold limb in Hav, Hbv.
    set (bo := if _ || _ then 1 else 0) in Er.
    assert (Hbo : 0 <= bo <= 1 /\ u64 (av - hd 0 lb - borrow) = av - hd 0 lb - borrow + B64 * bo).
    { subst bo. split_word (av - hd 0 lb - borrow).
      destruct (Z.eqb_spec (hd 0 lb) UINT64_MAX) as [Emax|Nmax].
      - destruct (Z.eqb_spec borrow 0) as [E0|N0]; cbn [negb andb].
        + rewrite u64_small by lia. rewrite orb_false_r. case_cmp; lia.
        + rewrite orb_true_r. lia.
      - rewrite u64_small with (x := hd 0 lb + borrow) by lia.
        rewrite andb_false_r, orb_false_r. case_cmp; lia. }
    destruct Hbo as [Hb1 Hd]. clearbody bo.
    assert (Hl' : (length (tl lb) <= length la)%nat) by (destruct lb; simpl in *; lia).
    specialize (IH _ _ _ _ Ha (limbs_ok_tl _ Hb) Hb1 Hl' Er).
    destruct IH as (Hr & Hl & Hc & Hv).
    repeat split; [constructor; auto with limbs|simpl; lia|lia|lia|].
    cbn [length lval]. rewrite bpow_S, Hd. rewrite (lval_hd_tl lb). lia.
Qed.

(** With [|a| >= |b|] no borrow leaves the loop. *)
Lemma sub_loop_value la lb r b :
  limbs_ok la -> limbs_ok lb -> (length lb <= length la)%nat -> lval lb <= lval la ->
  sub_loop la lb 0 = (r, b) ->
  limbs_ok r /\ length r = length la /\ lval r = lval la - lval lb.
Proof.
  intros Ha Hb Hlen Hle E.
  destruct (sub_loop_spec la lb 0 r b) as (Hr & Hl & Hb1 & Hv); auto; [lia|].
  split; [exact Hr|]. split; [exact Hl|].
  pose proof (lval_bound r Hr) as Hbr. rewrite Hl in Hbr.
  assert (b = 0 \/ b = 1) as [-> | ->] by lia; lia.
Qed.

(** ** Multiplication *)

(** The limb above the product is still zero when its carry is stored there. *)
Lemma addmul_loop_spec lo a z b_limb carry :
  limbs_ok lo -> limbs_ok a -> limb b_limb -> limb carry -> length lo = length a ->
  exists lo',
    addmul_loop (lo ++ 0 :: z) a b_limb carry = lo' ++ z /\
    limbs_ok lo' /\ length lo' = S (length a) /\
    lval lo' = lval lo + lval a * b_limb + carry.
Proof.
  intros Hlo Ha Hb. revert lo carry Hlo.
  induction a as [|a0 a IH]; intros [|r0 lo] carry Hlo Hc Hlen; cbn [length] in Hlen; try lia.
  - exists [u64 carry]. cbn [app addmul_loop lval length]. unfold limb in Hc.
    rewrite Z.add_0_l, u64_small by lia.
    repeat split; [repeat constructor; unfold limb; lia|lia].
  - apply limbs_ok_cons in Ha, Hlo. destruct Ha as [Ha0 Ha], Hlo as [Hr0 Hlo].
    cbn [app addmul_loop hd tl]. unfold limb in Ha0, Hr0, Hb, Hc.
    rewrite u128_small by nia.
    set (prod := a0 * b_limb + r0 + carry). split_word prod.
    pose proof (shr64_bound prod B64 ltac:(subst prod; nia)) as Hsh.
    destruct (IH Ha lo (Z.shiftr prod 64) Hlo Hsh ltac:(lia)) as (lo' & E & Hok & Hl & Hv).
    exists (u64 prod :: lo'). rewrite E. cbn [app length lval].
    repeat split; [constructor; auto with limbs|lia|]. rewrite Hv. subst prod. lia.
Qed.

Lemma mul_loop_spec lo la lb i :
  limbs_ok lo -> limbs_ok la -> limbs_ok lb -> length lo = (i + length la)%nat ->
  limbs_ok (mul_loop (lo ++ repeat 0 (length lb)) la lb i) /\
  length (mul_loop (lo ++ repeat 0 (length lb)) la lb i) = (length lo + length lb)%nat /\
  lval (mul_loop (lo ++ repeat 0 (length lb)) la lb i) =
    lval lo + bpow i * (lval la * lval lb).
Proof.
  intros Hlo Ha Hb. revert lo i Hlo.
  induction lb as [|b0 lb IH]; intros lo i Hlo Hlen; cbn [mul_loop length repeat].
  - rewrite app_nil_r. cbn [lval]. repeat split; [exact Hlo|lia|lia].
  - apply limbs_ok_cons in Hb. destruct Hb as [Hb0 Hb].
    assert (Hstep : exists lo', length lo' = S (length lo) /\ limbs_ok lo' /\
      lval lo' = lval lo + bpow i * (lval la * b0) /\
      (if b0 =? 0 then lo ++ 0 :: repeat 0 (length lb)
       else bignum_addmul_limb (lo ++ 0 :: repeat 0 (length lb)) la b0 i) =
      lo' ++ repeat 0 (length lb)).
    { case_cmp.
      - exists (lo ++ [0]). rewrite length_app, lval_app, <- app_assoc. cbn [length lval app].
        repeat split; [lia| |subst; lia].
        apply limbs_ok_app; split; [exact Hlo|repeat constructor; unfold limb; lia].
      - unfold bignum_addmul_limb.
        rewrite firstn_app, skipn_app.
        replace (i - length lo)%nat with O by lia.
        rewrite firstn_O, skipn_O, app_nil_r.
        destruct (addmul_loop_spec (skipn i lo) la (repeat 0 (length lb)) b0 0)
          as (lo' & E & Hok & Hl & Hv); auto with limbs; [unfold limb; lia|rewrite length_skipn; lia|].
        rewrite E. exists (firstn i lo ++ lo'). rewrite length_app, length_firstn, lval_app, length_firstn.
        rewrite Nat.min_l by lia. repeat split; [lia| | |rewrite app_assoc; reflexivity].
        + apply limbs_ok_app; auto with limbs.
        + rewrite Hv. rewrite (lval_firstn_skipn i lo) by lia. ring. }
    destruct Hstep as (lo' & Hl & Hok & Hv & ->).
    destruct (IH Hb lo' (S i) Hok ltac:(lia)) as (H1 & H2 & H3).
    repeat split; [exact H1|lia|]. rewrite H3, Hv, bpow_S. cbn [lval]. ring.
Qed.

(** ** Division by one limb *)

Lemma div_limb_loop_spec la d q rem :
  limbs_ok la -> 0 < d < B64 -> div_limb_loop la d = (q, rem) ->
  limbs_ok q /\ length q = length la /\ lval la = lval q * d + rem /\ 0 <= rem < d.
Proof.
  intros Ha Hd. revert q rem. induction la as [|x la IH]; intros q rem E.
  - injection E as <- <-. cbn [lval length]. rewrite ?bpow_0.
    repeat split; try lia. constructor.
  - cbn [div_limb_loop] in E. apply limbs_ok_cons in Ha. destruct Ha as [Hx Ha].
    destruct (div_limb_loop la d) as [q' rem'] eqn:Er.
    destruct (IH Ha q' rem' eq_refl) as (Hq & Hl & Hv & Hrem). unfold limb in Hx.
    assert (Hcur : Z.lor (u128 (Z.shiftl rem' 64)) x = rem' * B64 + x).
    { rewrite u128_small; [apply lor_shl64; lia|].
      rewrite Z.shiftl_mul_pow2 by lia. rewrite pow2_64. nia. }
    rewrite Hcur in E. set (cur := rem' * B64 + x) in E. injection E as <- <-.
    pose proof (Z.div_mod cur d ltac:(lia)). pose proof (Z.mod_pos_bound cur d ltac:(lia)).
    assert (Hcq : 0 <= cur / d < B64).
    { split; [apply Z.div_pos; subst cur; lia|apply Z.div_lt_upper_bound; subst cur; nia]. }
    rewrite u64_small by lia. cbn [length lval].
    repeat split; [constructor; auto|lia| |lia|lia]. rewrite Hv. subst cur. nia.
Qed.

(** ** Multiply and add, in place *)

Lemma muladd_loop_spec l m carry r c :
  limbs_ok l -> 0 < m < B64 -> 0 <= carry < m -> muladd_loop l m carry = (r, c) ->
  limbs_ok r /\ length r = length l /\ 0 <= c < m /\
  lval r + bpow (length l) * c = lval l * m + carry.
Proof.
  intros Hl Hm. revert carry r c. induction l as [|x l IH]; intros carry r c Hc E.
  - injection E as <- <-. cbn [lval length]. rewrite ?bpow_0.
    repeat split; try lia. constructor.
  - cbn [muladd_loop] in E. apply limbs_ok_cons in Hl. destruct Hl as [Hx Hl].
    destruct (muladd_loop l m _) as [r' c'] eqn:Er. injection E as <- <-. unfold limb in Hx.
    rewrite u128_small in Er |- * by nia.
    set (prod := x * m + carry) in *. split_word prod.
    pose proof (shr64_bound prod m ltac:(subst prod; nia)) as Hsh.
    destruct (IH Hl _ _ _ Hsh Er) as (Hr & Hlen & Hc' & Hv). cbn [length lval].
    rewrite bpow_S. repeat split; [constructor; auto with limbs|lia|lia|lia|].
    subst prod. lia.
Qed.
