(* ===== verification/KnuthD.v ===== *)
(** * Multi-limb division: [bignum_divmod_abs] of lib/core/bignum.cpp

    Knuth's Algorithm D as the source writes it: normalising shift, trial
    quotient from the top two limbs, the refinement loop, multiply-and-subtract
    with a signed 128-bit borrow, add-back, un-shift of the remainder.  The
    theorem of this file is that quotient and remainder are those of the integer
    division of the two magnitudes. *)

From Stdlib Require Import ZArith List Lia Bool.
From S2P Require Import Prelude Limbs.
Import ListNotations.
Open Scope Z_scope.

(** ** The algorithm *)

(** [__builtin_clzll] on a nonzero word; the source skips the call on zero. *)
Definition normalize_shift (d_top : Z) : Z :=
  if d_top =? 0 then 0 else 63 - Z.log2 d_top.

(** The two shift-left loops (divisor and dividend): limbs and carry out. *)
Fixpoint shl_loop (l : list Z) (shift carry : Z) : list Z * Z :=
  match l with
  | [] => ([], carry)
  | x :: l' =>
    let '(r, c) := shl_loop l' shift (Z.shiftr x (64 - shift)) in
    (Z.lor (u64 (Z.shiftl x shift)) carry :: r, c)
  end.

Definition shift_left (l : list Z) (shift : Z) : list Z * Z :=
  if shift >? 0 then shl_loop l shift 0 else (l, 0).

(** The shift-right loop that un-shifts the remainder, top limb first. *)
Fixpoint shr_loop (l : list Z) (shift : Z) : list Z * Z :=
  match l with
  | [] => ([], 0)
  | x :: l' =>
    let '(r, c) := shr_loop l' shift in
    (Z.lor (Z.shiftr x shift) c :: r, u64 (Z.shiftl x (64 - shift)))
  end.

Definition shift_right (l : list Z) (shift : Z) : list Z :=
  if shift >? 0 then fst (shr_loop l shift) else l.

(** The loop that corrects the trial quotient.  [two] is the source's [n >= 2],
    [vnext] and [unext] the limbs below the top ones. *)
Fixpoint qhat_refine (fuel : nat) (two : bool) (vtop vnext unext qhat rhat : Z)
  : option Z :=
  match fuel with
  | O => None
  | S fuel' =>
    if (qhat >=? B64) ||
       (two && (u128 (qhat * vnext) >? u128 (u128 (Z.shiftl rhat 64) + unext)))
    then
      let qhat := u128 (qhat - 1) in
      let rhat := u128 (rhat + vtop) in
      if rhat >=? B64 then Some qhat
      else qhat_refine fuel' two vtop vnext unext qhat rhat
    else Some qhat
  end.

(** The multiply-and-subtract loop over the limbs of the divisor. *)
Fixpoint mulsub_loop (w v : list Z) (qhat borrow_s : Z) : list Z * Z :=
  match v with
  | [] => ([], borrow_s)
  | v0 :: v' =>
    let prod := u128 (u64 qhat * v0) in
    let plo := u64 prod in
    let phi := u64 (Z.shiftr prod 64) in
    let diff := s128 (hd 0 w - plo + borrow_s) in
    let '(r, b) := mulsub_loop (tl w) v' qhat (s128 (Z.shiftr diff 64 - phi)) in
    (u64 diff :: r, b)
  end.

(** One iteration of the main loop on the window [w = un[j .. j+n]]: the
    quotient limb [ql[j]] and the window left behind. *)
Definition div_step (vn w : list Z) : option (Z * list Z) :=
  let n := length vn in
  let vtop := nth (n - 1) vn 0 in
  let uhat := Z.lor (u128 (Z.shiftl (nth n w 0) 64)) (nth (n - 1) w 0) in
  match qhat_refine 3 (2 <=? n)%nat vtop (nth (n - 2) vn 0) (nth (n - 2) w 0)
          (uhat / vtop) (uhat mod vtop) with
  | None => None
  | Some qhat =>
    let '(lo, borrow_s) := mulsub_loop (firstn n w) vn qhat 0 in
    let diff_top := s128 (nth n w 0 + borrow_s) in
    if diff_top <? 0 then
      let '(lo', carry) := add_loop n lo vn 0 in
      Some (u64 (u64 qhat - 1), lo' ++ [u64 (u64 diff_top + carry)])
    else Some (u64 qhat, lo ++ [u64 diff_top])
  end.

(** The main loop for [j = k - 1] down to [0]: the quotient limbs and [un]. *)
Fixpoint div_loop (vn : list Z) (k : nat) (un : list Z) : option (list Z * list Z) :=
  match k with
  | O => Some ([], un)
  | S j =>
    match div_step vn (firstn (S (length vn)) (skipn j un)) with
    | None => None
    | Some (q, w) =>
      match div_loop vn j (firstn j un ++ w ++ skipn (j + S (length vn)) un) with
      | None => None
      | Some (ql, un') => Some (ql ++ [q], un')
      end
    end
  end.

(** The division proper, for [|a| > |b|] and at least two limbs in [b]:
    quotient limbs and remainder limbs before their normalisation. *)
Definition knuth_divmod (la lb : list Z) : option (list Z * list Z) :=
  let n := length lb in
  let m := (length la - n)%nat in
  let shift := normalize_shift (nth (n - 1) lb 0) in
  let vn := fst (shift_left lb shift) in
  let '(lo, carry) := shift_left la shift in
  match div_loop vn (S m) (lo ++ [carry]) with
  | None => None
  | Some (ql, un) => Some (ql, shift_right (firstn n un) shift)
  end.

(** ** The trial quotient, over the integers *)

Section TrialQuotient.
Variables (B P U V uhat unext ur vtop vnext vr : Z).
Hypothesis HB : 2 <= B.
Hypothesis HP : 1 <= P.
Hypothesis HU : U = (uhat * B + unext) * P + ur.
Hypothesis HV : V = (vtop * B + vnext) * P + vr.
Hypothesis Hu : 0 <= uhat /\ 0 <= unext < B /\ 0 <= ur < P.
Hypothesis Hv : 0 < vtop < B /\ 0 <= vnext < B /\ 0 <= vr < P.
Hypothesis HUV : U < V * B.

Lemma trial_V_lower : vtop * B * P <= V.
Proof. subst V. assert (0 <= vnext * P) by nia. lia. Qed.

Lemma trial_uhat_bound : uhat <= vtop * B + vnext.
Proof.
  assert (uhat * B * P <= U) by (subst U; assert (0 <= unext * P) by nia; lia).
  assert (V < (vtop * B + vnext + 1) * P) by (subst V; lia).
  assert (uhat * P < (vtop * B + vnext + 1) * P) by nia.
  nia.
Qed.

(** The first estimate is not too small. *)
Lemma trial_initial q r : uhat = q * vtop + r -> 0 <= r < vtop -> 0 <= q -> U < (q + 1) * V.
Proof.
  intros Hq Hr Hq0. pose proof trial_V_lower.
  assert (U < (uhat + 1) * (B * P)).
  { subst U. assert ((unext + 1) * P <= B * P) by nia. lia. }
  assert ((uhat + 1) * (B * P) <= (q + 1) * vtop * (B * P)).
  { apply Z.mul_le_mono_nonneg_r; [nia|]. lia. }
  assert ((q + 1) * (vtop * B * P) <= (q + 1) * V) by nia.
  lia.
Qed.

(** A failed test means the estimate is too large. *)
Lemma trial_test_fails q r :
  uhat = q * vtop + r -> 0 <= q -> r * B + unext < q * vnext -> U < q * V.
Proof.
  intros Hq Hq0 Ht.
  assert ((uhat * B + unext + 1) * P <= q * (vtop * B + vnext) * P).
  { apply Z.mul_le_mono_nonneg_r; [lia|]. subst uhat. lia. }
  assert (0 <= q * vr) by nia. subst U V. lia.
Qed.

(** A passed test leaves the estimate at most one too large. *)
Lemma trial_test_passes q r :
  uhat = q * vtop + r -> 0 <= q < B -> q * vnext <= r * B + unext -> (q - 1) * V <= U.
Proof.
  intros Hq Hq0 Ht. pose proof trial_V_lower.
  assert (q * (vtop * B + vnext) * P <= (uhat * B + unext) * P).
  { apply Z.mul_le_mono_nonneg_r; [lia|]. subst uhat. lia. }
  assert (q * vr <= B * P) by nia.
  assert (B * P <= vtop * B * P) by nia.
  assert (q * V = q * (vtop * B + vnext) * P + q * vr) by (subst V; ring).
  lia.
Qed.

(** Leaving the loop because the remainder left one word means the estimate is
    not too large. *)
Lemma trial_break q r :
  uhat = q * vtop + r -> 0 <= q -> B <= r -> q < B /\ q * V <= U.
Proof.
  intros Hq Hq0 Hr. pose proof trial_uhat_bound.
  assert (Hqb : q < B) by nia. split; [exact Hqb|].
  assert (q * V <= q * ((vtop + 1) * B * P)).
  { apply Z.mul_le_mono_nonneg_l; [lia|]. subst V. nia. }
  assert (q * (vtop + 1) <= uhat) by nia.
  assert (q * (vtop + 1) * (B * P) <= uhat * (B * P)) by (apply Z.mul_le_mono_nonneg_r; nia).
  assert (uhat * (B * P) <= U) by (subst U; nia).
  lia.
Qed.

End TrialQuotient.

(** ** The refinement loop *)

Section Refine.
Variables (P U V uhat unext ur vtop vnext vr : Z).
Hypothesis HP : 1 <= P.
Hypothesis HU : U = (uhat * B64 + unext) * P + ur.
Hypothesis HV : V = (vtop * B64 + vnext) * P + vr.
Hypothesis Hu : 0 <= uhat /\ 0 <= unext < B64 /\ 0 <= ur < P.
Hypothesis Hv : 0 < vtop < B64 /\ 0 <= vnext < B64 /\ 0 <= vr < P.
Hypothesis HUV : U < V * B64.

(** The loop stops within the fuel that takes [rhat] past one word, with an
    estimate that is the true quotient or one more. *)
Lemma qhat_refine_spec fuel qhat rhat :
  uhat = qhat * vtop + rhat -> 0 <= rhat < B64 -> 0 <= qhat ->
  U < (qhat + 1) * V -> B64 <= rhat + Z.of_nat fuel * vtop ->
  exists q, qhat_refine fuel true vtop vnext unext qhat rhat = Some q /\
    0 <= q < B64 /\ U < (q + 1) * V /\ (q - 1) * V <= U.
Proof.
  revert qhat rhat. induction fuel as [|fuel IH]; intros qhat rhat Hq Hr Hq0 Hup Hf; [lia|].
  assert (H2B : 2 <= B64) by lia.
  assert (Hub : uhat <= vtop * B64 + vnext) by (eapply trial_uhat_bound; eassumption).
  assert (HVlow : vtop * B64 * P <= V) by (eapply trial_V_lower; eassumption).
  assert (HVpos : 0 < V) by (clear - HVlow Hv HP; nia).
  assert (Hqmax : qhat <= uhat) by (clear - Hq Hr Hq0 Hv; nia).
  cbn [qhat_refine]. cbn [andb].
  assert (Hsh : u128 (u128 (Z.shiftl rhat 64) + unext) = rhat * B64 + unext).
  { rewrite Z.shiftl_mul_pow2 by lia. rewrite pow2_64.
    rewrite (u128_small (rhat * B64)) by lia. apply u128_small. lia. }
  rewrite Hsh. destruct (_ || _) eqn:Ec.
  - assert (Hdec : 0 < qhat /\ U < qhat * V).
    { apply orb_true_iff in Ec. destruct Ec as [Ec|Ec].
      - apply Z.geb_le in Ec. split; [lia|]. clear - HUV Ec HVpos. nia.
      - destruct (Z.ltb_spec qhat B64) as [Hlt|Hge];
          [|split; [lia|clear - HUV Hge HVpos; nia]].
        apply Z.gtb_lt in Ec. rewrite u128_small in Ec by (clear - Hlt Hq0 Hv; nia).
        split; [clear - Ec Hr Hu Hv Hq0; nia|].
        eapply trial_test_fails; eassumption. }
    rewrite (u128_small (qhat - 1)) by (clear - Hdec Hqmax Hub Hv; lia).
    rewrite (u128_small (rhat + vtop)) by lia.
    case_cmp.
    + exists (qhat - 1). split; [reflexivity|].
      assert (Hbr : qhat - 1 < B64 /\ (qhat - 1) * V <= U).
      { eapply trial_break with (r := rhat + vtop); try eassumption; lia. }
      destruct Hbr as [H1 H2'].
      repeat split; [lia|lia|lia|clear - H2' HVpos; lia].
    + apply IH; lia.
  - apply orb_false_iff in Ec. destruct Ec as [E1 E2].
    rewrite Z.geb_leb in E1. apply Z.leb_gt in E1.
    rewrite Z.gtb_ltb in E2. apply Z.ltb_ge in E2.
    rewrite u128_small in E2 by (clear - E1 Hq0 Hv; nia).
    exists qhat. split; [reflexivity|]. repeat split; [lia|lia|exact Hup|].
    eapply trial_test_passes with (r := rhat); try eassumption. lia.
Qed.

End Refine.

(** ** Multiply and subtract *)

Lemma mulsub_loop_spec w v qhat borrow r b :
  limbs_ok w -> limbs_ok v -> 0 <= qhat < B64 -> - B64 <= borrow <= 0 ->
  length w = length v -> mulsub_loop w v qhat borrow = (r, b) ->
  limbs_ok r /\ length r = length v /\ - B64 <= b <= 0 /\
  lval r + bpow (length v) * b = lval w - qhat * lval v + borrow.
Proof.
  intros Hw Hv Hq. revert w borrow r b Hw.
  induction v as [|v0 v IH]; intros w borrow r b Hw Hb Hlen E.
  - injection E as <- <-. destruct w; [|discriminate]. cbn [length lval]. rewrite bpow_0.
    repeat split; try lia. constructor.
  - destruct w as [|w0 w]; [discriminate|]. cbn [mulsub_loop hd tl] in E.
    apply limbs_ok_cons in Hw, Hv. destruct Hw as [Hw0 Hw], Hv as [Hv0 Hv]. unfold limb in *.
    rewrite (u64_small qhat) in E by lia. rewrite (u128_small (qhat * v0)) in E by nia.
    set (prod := qhat * v0) in E. split_word prod.
    pose proof (shr64_bound prod B64 ltac:(subst prod; nia)) as Hphi.
    rewrite (u64_small (Z.shiftr prod 64)) in E by lia.
    assert (Hphi' : 0 <= Z.shiftr prod 64 <= B64 - 2).
    { split; [lia|]. rewrite shr64_div.
      assert (prod < B64 * (B64 - 1)) by (subst prod; nia).
      pose proof (Z.div_lt_upper_bound prod B64 (B64 - 1) ltac:(lia) ltac:(lia)). lia. }
    rewrite (s128_small (w0 - u64 prod + borrow)) in E by (change (2 ^ 127) with (B64 * 9223372036854775808); lia).
    set (diff := w0 - u64 prod + borrow) in E. split_word diff.
    assert (Hd : -2 <= Z.shiftr diff 64 <= 0).
    { rewrite shr64_div. split.
      - apply Z.div_le_lower_bound; subst diff; lia.
      - assert (diff / B64 < 1) by (apply Z.div_lt_upper_bound; subst diff; lia). lia. }
    rewrite (s128_small (Z.shiftr diff 64 - Z.shiftr prod 64)) in E
      by (change (2 ^ 127) with (B64 * 9223372036854775808); lia).
    destruct (mulsub_loop w v qhat _) as [r' b'] eqn:Er. injection E as <- <-.
    destruct (IH Hv w (Z.shiftr diff 64 - Z.shiftr prod 64) r' b' Hw
                ltac:(lia) ltac:(simpl in Hlen; lia) Er) as (Hr & Hl & Hb' & Hval).
    cbn [length lval]. rewrite bpow_S.
    repeat split; [constructor; auto with limbs|lia|lia|lia|].
    subst diff prod. lia.
Qed.

(** ** One step of the main loop *)

(** A quantity of one divisor's size has no limb above the divisor's. *)
Lemma top_limb_zero x b t V : 0 <= x < b -> 0 <= x + b * t < V -> V <= b -> t = 0.
Proof. intros Hx Ht HV. nia. Qed.

(** The trial quotient of a step is right or one too large. *)
Lemma div_step_qhat vn w :
  limbs_ok vn -> limbs_ok w -> length w = S (length vn) -> (2 <= length vn)%nat ->
  2 ^ 63 <= nth (length vn - 1) vn 0 -> lval w < lval vn * B64 ->
  let n := length vn in
  let uhat := Z.lor (u128 (Z.shiftl (nth n w 0) 64)) (nth (n - 1) w 0) in
  let vtop := nth (n - 1) vn 0 in
  exists q,
    qhat_refine 3 (2 <=? n)%nat vtop (nth (n - 2) vn 0) (nth (n - 2) w 0)
      (uhat / vtop) (uhat mod vtop) = Some q /\
    0 <= q < B64 /\ lval w < (q + 1) * lval vn /\ (q - 1) * lval vn <= lval w.
Proof.
  intros Hvn Hw Hlen Hn Htop Hlt.
  destruct (length vn) as [|[|k]] eqn:En; [lia|lia|]. cbn zeta. clear Hn.
  replace (S (S k) - 1)%nat with (S k) in * by lia.
  replace (S (S k) - 2)%nat with k by lia.
  replace (2 <=? S (S k))%nat with true by reflexivity.
  assert (EV : lval vn = lval (firstn k vn) + bpow k * nth k vn 0 + bpow (S k) * nth (S k) vn 0).
  { rewrite <- (firstn_all vn) at 1. rewrite En, !lval_firstn_S by lia. reflexivity. }
  assert (EU : lval w = lval (firstn k w) + bpow k * nth k w 0 + bpow (S k) * nth (S k) w 0
                        + bpow (S (S k)) * nth (S (S k)) w 0).
  { rewrite <- (firstn_all w) at 1. rewrite Hlen, !lval_firstn_S by lia. reflexivity. }
  rewrite (bpow_S (S k)) in EU. rewrite (bpow_S k) in EV, EU.
  pose proof (limbs_ok_nth vn k Hvn). pose proof (limbs_ok_nth vn (S k) Hvn).
  pose proof (limbs_ok_nth w k Hw). pose proof (limbs_ok_nth w (S k) Hw).
  pose proof (limbs_ok_nth w (S (S k)) Hw). unfold limb in *.
  pose proof (lval_firstn_bound w k Hw ltac:(lia)) as Bw.
  pose proof (lval_firstn_bound vn k Hvn ltac:(lia)) as Bv.
  change (2 ^ 63) with 9223372036854775808 in Htop.
  set (vtop := nth (S k) vn 0) in *.
  rewrite u128_small by (rewrite Z.shiftl_mul_pow2, pow2_64 by lia; lia).
  rewrite lor_shl64 by lia. set (uhat := nth (S (S k)) w 0 * B64 + nth (S k) w 0).
  pose proof (Z.div_mod uhat vtop ltac:(lia)) as Hdm.
  pose proof (Z.mod_pos_bound uhat vtop ltac:(lia)) as Hmb.
  assert (Hq0 : 0 <= uhat / vtop) by (apply Z.div_pos; subst uhat; lia).
  assert (HP : 1 <= bpow k) by lia.
  eapply qhat_refine_spec with (uhat := uhat) (P := bpow k)
    (ur := lval (firstn k w)) (vr := lval (firstn k vn));
    try lia.
  eapply trial_initial with (B := B64) (P := bpow k) (uhat := uhat) (unext := nth k w 0)
    (ur := lval (firstn k w)) (vr := lval (firstn k vn)) (vtop := vtop) (vnext := nth k vn 0)
    (r := uhat mod vtop); lia.
Qed.

(** One step divides its window by the divisor. *)
Lemma div_step_spec vn w :
  limbs_ok vn -> limbs_ok w -> length w = S (length vn) -> (2 <= length vn)%nat ->
  2 ^ 63 <= nth (length vn - 1) vn 0 -> lval w < lval vn * B64 ->
  exists q w', div_step vn w = Some (q, w') /\ limb q /\ limbs_ok w' /\
    length w' = S (length vn) /\ lval w = q * lval vn + lval w' /\ lval w' < lval vn.
Proof.
  intros Hvn Hw Hlen Hn Htop Hlt.
  destruct (div_step_qhat vn w Hvn Hw Hlen Hn Htop Hlt) as (q & Eq & Hq & Hup & Hlo).
  unfold div_step. rewrite Eq. clear Eq.
  set (n := length vn) in *.
  destruct (mulsub_loop (firstn n w) vn q 0) as [lo b] eqn:Em.
  assert (Hfn : length (firstn n w) = n) by (rewrite length_firstn; lia).
  destruct (mulsub_loop_spec (firstn n w) vn q 0 lo b (limbs_ok_firstn n w Hw) Hvn Hq ltac:(lia) Hfn Em)
    as (Hlo_ok & Hlo_len & Hb & Hval). fold n in Hlo_len, Hval.
  pose proof (lval_top w n Hlen) as EU.
  pose proof (limbs_ok_nth w n Hw) as Htw. unfold limb in Htw.
  rewrite (s128_small (nth n w 0 + b)) by (change (2 ^ 127) with (B64 * 9223372036854775808); lia).
  set (top := nth n w 0 + b) in *.
  assert (Hsum : lval lo + bpow n * top = lval w - q * lval vn) by (subst top; lia).
  pose proof (lval_nonneg lo Hlo_ok) as Nl. pose proof (lval_bound lo Hlo_ok) as Bl.
  pose proof (lval_bound vn Hvn) as Bv. pose proof (lval_nonneg w Hw) as Nw.
  pose proof (lval_nonneg vn Hvn) as Nv. rewrite Hlo_len in Bl. fold n in Bv.
  pose proof (bpow_pos n) as Bp. rewrite (u64_small q) by lia.
  destruct (Z.ltb_spec top 0) as [Hneg0|Hpos0].
  - destruct (add_loop n lo vn 0) as [lo' carry] eqn:Ea.
    destruct (add_loop_spec n lo vn 0 lo' carry Hlo_ok Hvn ltac:(lia) Ea) as (Ho & Hl & Hc & Hv).
    rewrite (firstn_all2 lo), (firstn_all2 vn) in Hv by (subst n; lia).
    pose proof (lval_nonneg lo' Ho). pose proof (lval_bound lo' Ho) as Bl'. rewrite Hl in Bl'.
    assert (Hneg : bpow n * top <= - bpow n) by (clear - Hneg0 Bp; nia).
    assert (Hq1 : 0 < q) by (clear - Hneg Hsum Bl Nw Nv Bp Hq; nia).
    assert (Ht : top + carry = 0).
    { apply (top_limb_zero (lval lo') (bpow n) _ (lval vn)); lia. }
    exists (q - 1), (lo' ++ [0]).
    rewrite (u64_small (q - 1)) by lia.
    replace (u64 (u64 top + carry)) with 0.
    2: { unfold u64. rewrite Zplus_mod_idemp_l, Ht. reflexivity. }
    split; [reflexivity|]. rewrite lval_app, length_app. cbn [lval length]. unfold limb.
    repeat split; [lia|lia| |lia|lia|lia].
    apply limbs_ok_app; split; [exact Ho|repeat constructor; unfold limb; lia].
  - assert (Ht : top = 0).
    { apply (top_limb_zero (lval lo) (bpow n) _ (lval vn)); [lia| |lia].
      split; [clear - Hpos0 Nl Bp; nia|lia]. }
    rewrite Ht in *. exists q, (lo ++ [0]). split; [reflexivity|].
    rewrite lval_app, length_app. cbn [lval length]. unfold limb.
    repeat split; [lia|lia| |lia|lia|lia].
    apply limbs_ok_app; split; [exact Hlo_ok|repeat constructor; unfold limb; lia].
Qed.

(** ** The main loop *)

Lemma div_loop_spec vn k un :
  limbs_ok vn -> (2 <= length vn)%nat -> 2 ^ 63 <= nth (length vn - 1) vn 0 ->
  limbs_ok un -> (k + length vn <= length un)%nat -> lval (skipn k un) < lval vn ->
  exists ql un', div_loop vn k un = Some (ql, un') /\
    limbs_ok ql /\ length ql = k /\ limbs_ok un' /\ length un' = length un /\
    lval un = lval ql * lval vn + lval un' /\ lval un' < lval vn.
Proof.
  intros Hvn Hn Htop. revert un. induction k as [|j IH]; intros un Hun Hlen Hinv.
  - exists [], un. cbn [div_loop lval length]. rewrite skipn_O in Hinv.
    repeat split; auto with limbs; lia.
  - cbn [div_loop]. set (n := length vn) in *. set (tail := skipn j un).
    assert (Hltail : (S n <= length tail)%nat) by (subst tail; rewrite length_skipn; lia).
    assert (Htail : limbs_ok tail) by (apply limbs_ok_skipn; exact Hun).
    assert (Hsk : skipn (S n) tail = skipn (j + S n) un)
      by (subst tail; rewrite skipn_skipn; f_equal; lia).
    assert (Hcons : lval tail = nth j un 0 + B64 * lval (skipn (S j) un)).
    { subst tail. rewrite (skipn_cons_nth un j) by lia. reflexivity. }
    pose proof (limbs_ok_nth un j Hun) as Hx. unfold limb in Hx.
    pose proof (lval_bound vn Hvn) as Bv. fold n in Bv.
    rewrite (lval_firstn_skipn (S n) tail Hltail), bpow_S in Hcons.
    pose proof (lval_nonneg _ (limbs_ok_firstn (S n) tail Htail)) as Nw.
    pose proof (lval_nonneg _ (limbs_ok_skipn (S n) tail Htail)) as Nt.
    assert (Hzero : lval (skipn (S n) tail) = 0).
    { clear - Hcons Hinv Bv Nw Nt Hx. pose proof (bpow_pos n). nia. }
    rewrite Hzero in Hcons.
    destruct (div_step_spec vn (firstn (S n) tail)) as (q & w' & E & Hq & Hw' & Hlw & Hval & Hrem);
      auto with limbs; [rewrite length_firstn; subst n; lia|lia|].
    rewrite E. fold n in Hlw.
    destruct (IH (firstn j un ++ w' ++ skipn (j + S n) un)) as (ql & un' & E' & H1 & H2 & H3 & H4 & H5 & H6).
    + repeat rewrite limbs_ok_app. auto with limbs.
    + rewrite !length_app, length_firstn, length_skipn. lia.
    + rewrite skipn_app, length_firstn, Nat.min_l by lia.
      rewrite skipn_all2 by (rewrite length_firstn; lia).
      rewrite Nat.sub_diag. cbn [skipn app]. rewrite lval_app, Hlw, <- Hsk, Hzero. lia.
    + rewrite E'. exists (ql ++ [q]), un'. split; [reflexivity|].
      rewrite !length_app, length_firstn, length_skipn in H4. rewrite !lval_app in H5.
      rewrite length_firstn, Nat.min_l, Hlw, <- Hsk, Hzero in H5 by lia.
      rewrite lval_app, length_app, H2. cbn [lval length].
      repeat split; auto; [apply limbs_ok_app; split; [exact H1|repeat constructor; apply Hq]|lia|lia|].
      rewrite (lval_firstn_skipn j un), <- (firstn_skipn (S n) (skipn j un)) by lia.
      fold tail. rewrite lval_app, Hzero, Hval.
      replace (lval (firstn j un)) with (lval ql * lval vn + lval un' - bpow j * lval w') by lia.
      ring.
Qed.

(** ** The normalising shift *)

(** Bits pushed out of a word by a left shift, and those that stay. *)
Lemma shl_word x s :
  limb x -> 0 < s < 64 ->
  x * 2 ^ s = u64 (Z.shiftl x s) + B64 * Z.shiftr x (64 - s) /\
  u64 (Z.shiftl x s) = Z.shiftl (x mod 2 ^ (64 - s)) s /\
  0 <= Z.shiftr x (64 - s) < 2 ^ s.
Proof.
  intros Hx Hs. unfold limb in Hx.
  assert (E : 2 ^ 64 = 2 ^ (64 - s) * 2 ^ s) by (rewrite <- Z.pow_add_r by lia; f_equal; lia).
  assert (P1 : 0 < 2 ^ (64 - s)) by (apply Z.pow_pos_nonneg; lia).
  assert (P2 : 0 < 2 ^ s) by (apply Z.pow_pos_nonneg; lia).
  assert (Hm : u64 (Z.shiftl x s) = x mod 2 ^ (64 - s) * 2 ^ s).
  { unfold u64. rewrite Z.shiftl_mul_pow2, E by lia. apply Z.mul_mod_distr_r; lia. }
  rewrite Hm, !Z.shiftl_mul_pow2, Z.shiftr_div_pow2 by lia. rewrite <- pow2_64, E.
  split; [|split; [reflexivity|]].
  - pose proof (Z.div_mod x (2 ^ (64 - s)) ltac:(lia)). nia.
  - split; [apply Z.div_pos; lia|apply Z.div_lt_upper_bound; [lia|]]. rewrite <- E, pow2_64. lia.
Qed.

Lemma shl_loop_spec l s carry r c :
  limbs_ok l -> 0 < s < 64 -> 0 <= carry < 2 ^ s -> shl_loop l s carry = (r, c) ->
  limbs_ok r /\ length r = length l /\ 0 <= c < 2 ^ s /\
  lval r + bpow (length l) * c = lval l * 2 ^ s + carry.
Proof.
  intros Hl Hs. revert carry r c. induction l as [|x l IH]; intros carry r c Hc E.
  - injection E as <- <-. cbn [lval length]. rewrite bpow_0. repeat split; auto with limbs; lia.
  - cbn [shl_loop] in E. apply limbs_ok_cons in Hl. destruct Hl as [Hx Hl].
    destruct (shl_word x s Hx Hs) as (Hval & Hlow & Hhi).
    destruct (shl_loop l s _) as [r' c'] eqn:Er. injection E as <- <-.
    destruct (IH Hl _ _ _ Hhi Er) as (Hr & Hlen & Hc' & Hv).
    rewrite Hlow, lor_disjoint_add by lia. rewrite <- Z.shiftl_mul_pow2, <- Hlow by lia.
    cbn [lval length]. rewrite bpow_S.
    assert (Hx' : limb (u64 (Z.shiftl x s) + carry)).
    { assert (E : 2 ^ 64 = 2 ^ (64 - s) * 2 ^ s) by (rewrite <- Z.pow_add_r by lia; f_equal; lia).
      rewrite pow2_64 in E. pose proof (u64_range (Z.shiftl x s)). unfold limb.
      rewrite Hlow, Z.shiftl_mul_pow2 in * by lia.
      pose proof (Z.mod_pos_bound x (2 ^ (64 - s)) ltac:(apply Z.pow_pos_nonneg; lia)).
      clear - E H H0 Hc. nia. }
    repeat split; [constructor; auto|lia|lia|lia|]. lia.
Qed.

Lemma shr_loop_spec l s r c :
  limbs_ok l -> 0 < s < 64 -> shr_loop l s = (r, c) ->
  exists rem, limbs_ok r /\ length r = length l /\ 0 <= rem < 2 ^ s /\
    c = rem * 2 ^ (64 - s) /\ lval l = lval r * 2 ^ s + rem.
Proof.
  intros Hl Hs. assert (P2 : 0 < 2 ^ s) by (apply Z.pow_pos_nonneg; lia).
  assert (E64 : B64 = 2 ^ s * 2 ^ (64 - s))
    by (rewrite <- pow2_64, <- Z.pow_add_r by lia; f_equal; lia).
  revert r c. induction l as [|x l IH]; intros r c E.
  - injection E as <- <-. exists 0. cbn [lval length]. repeat split; auto with limbs; lia.
  - cbn [shr_loop] in E. apply limbs_ok_cons in Hl. destruct Hl as [Hx Hl].
    destruct (shr_loop l s) as [r' c'] eqn:Er.
    apply pair_equal_spec in E. destruct E as [<- <-].
    destruct (IH Hl r' c' eq_refl) as (rem' & Hr & Hlen & Hrem & Hc & Hv).
    destruct (shl_word x (64 - s) Hx ltac:(lia)) as (_ & Hlow & _).
    replace (64 - (64 - s)) with s in Hlow by lia.
    pose proof (Z.mod_pos_bound x (2 ^ s) ltac:(lia)) as Hmb.
    pose proof (Z.div_mod x (2 ^ s) ltac:(lia)) as Hdm.
    unfold limb in Hx. rewrite Z.shiftr_div_pow2 by lia.
    assert (Hq : 0 <= x / 2 ^ s < 2 ^ (64 - s))
      by (split; [apply Z.div_pos; lia|apply Z.div_lt_upper_bound; lia]).
    rewrite Hc, <- (Z.shiftl_mul_pow2 rem'), Z.lor_comm, lor_disjoint_add by lia.
    exists (x mod 2 ^ s). rewrite Hlow, Z.shiftl_mul_pow2 by lia. cbn [lval length].
    repeat split; [constructor; [unfold limb; nia|auto]|lia|lia|lia|].
    rewrite Hv, E64. nia.
Qed.

Lemma normalize_shift_spec d :
  0 < d < B64 ->
  0 <= normalize_shift d < 64 /\
  2 ^ 63 <= d * 2 ^ normalize_shift d /\ (d + 1) * 2 ^ normalize_shift d <= B64.
Proof.
  intros Hd. unfold normalize_shift. case_cmp; [lia|].
  pose proof (Z.log2_spec d ltac:(lia)) as [H1 H2].
  assert (Hl : 0 <= Z.log2 d < 64).
  { split; [apply Z.log2_nonneg|]. apply Z.log2_lt_pow2; [lia|]. rewrite pow2_64. lia. }
  assert (E1 : 2 ^ Z.log2 d * 2 ^ (63 - Z.log2 d) = 2 ^ 63)
    by (rewrite <- Z.pow_add_r by lia; f_equal; lia).
  assert (E2 : 2 ^ Z.succ (Z.log2 d) * 2 ^ (63 - Z.log2 d) = B64)
    by (rewrite <- Z.pow_add_r, <- pow2_64 by lia; f_equal; lia).
  assert (0 < 2 ^ (63 - Z.log2 d)) by (apply Z.pow_pos_nonneg; lia).
  repeat split; [lia|lia|nia|nia].
Qed.

(** Both shifts, whether or not the shift amount is zero. *)
Lemma shift_left_spec l s r c :
  limbs_ok l -> 0 <= s < 64 -> shift_left l s = (r, c) ->
  limbs_ok r /\ length r = length l /\ 0 <= c < 2 ^ s /\
  lval r + bpow (length l) * c = lval l * 2 ^ s.
Proof.
  intros Hl Hs. unfold shift_left. case_cmp; intros E.
  - apply shl_loop_spec in E; try lia; auto. intuition lia.
  - injection E as <- <-. replace s with 0 by lia. repeat split; auto; simpl; lia.
Qed.

Lemma shift_right_exact l s k :
  limbs_ok l -> 0 <= s < 64 -> lval l = k * 2 ^ s ->
  limbs_ok (shift_right l s) /\ length (shift_right l s) = length l /\
  lval (shift_right l s) = k.
Proof.
  intros Hl Hs Hk. unfold shift_right. case_cmp.
  - destruct (shr_loop l s) as [r c] eqn:E.
    destruct (shr_loop_spec l s r c Hl ltac:(lia) E) as (rem & Hr & Hlen & Hrem & _ & Hv).
    cbn [fst]. repeat split; auto. clear - Hv Hk Hrem. nia.
  - replace s with 0 in Hk by lia. repeat split; auto. lia.
Qed.

(** The shifted divisor: its value, and its top limb at least [2^63]. *)
Lemma shifted_divisor_spec lb :
  limbs_ok lb -> (2 <= length lb)%nat -> nth (length lb - 1) lb 0 <> 0 ->
  let s := normalize_shift (nth (length lb - 1) lb 0) in
  let vn := fst (shift_left lb s) in
  0 <= s < 64 /\ limbs_ok vn /\ length vn = length lb /\ lval vn = lval lb * 2 ^ s /\
  2 ^ 63 <= nth (length vn - 1) vn 0.
Proof.
  intros Hb Hn Htop. cbn zeta.
  destruct (length lb) as [|k] eqn:El; [lia|]. replace (S k - 1)%nat with k in * by lia.
  pose proof (lval_top lb k El) as EV. pose proof (limbs_ok_nth lb k Hb) as Hlt. unfold limb in Hlt.
  set (top := nth k lb 0) in *.
  destruct (normalize_shift_spec top ltac:(lia)) as (Hs & Hlo & Hhi).
  set (s := normalize_shift top) in *. destruct (shift_left lb s) as [vn c] eqn:E.
  destruct (shift_left_spec lb s vn c Hb Hs E) as (Hv & Hlen & Hc & Hval). cbn [fst].
  rewrite El, bpow_S in *. pose proof (lval_firstn_bound lb k Hb ltac:(lia)) as B1.
  pose proof (bpow_pos k) as Bk.
  assert (P2 : 0 < 2 ^ s) by (apply Z.pow_pos_nonneg; lia).
  assert (Hub : lval lb * 2 ^ s < B64 * bpow k) by (clear - EV B1 Hhi Bk P2; nia).
  assert (Hlb : 2 ^ 63 * bpow k <= lval lb * 2 ^ s) by (clear - EV B1 Hlo Bk P2; nia).
  pose proof (lval_nonneg vn Hv) as Nv.
  assert (c = 0) by (clear - Hval Hub Nv Hc Bk; nia). subst c.
  rewrite Hlen. replace (S k - 1)%nat with k by lia.
  repeat split; [lia|lia|exact Hv|lia|].
  pose proof (lval_top vn k Hlen) as EW.
  pose proof (lval_firstn_bound vn k Hv ltac:(lia)) as B2.
  assert (H : 2 ^ 63 * bpow k < (nth k vn 0 + 1) * bpow k) by lia. clear - H Bk. nia.
Qed.

(** The top [n] limbs of the shifted dividend are below the shifted divisor. *)
Lemma shifted_dividend_top lo c s k :
  limbs_ok lo -> 0 <= c < 2 ^ s -> 0 <= s < 64 -> (k <= length lo)%nat ->
  lval (skipn (length lo - k) (lo ++ [c])) < 2 ^ 63 * bpow k.
Proof.
  intros Hlo Hc Hs Hk. rewrite skipn_app.
  replace (length lo - k - length lo)%nat with O by lia. cbn [skipn].
  rewrite lval_app, length_skipn. replace (length lo - (length lo - k))%nat with k by lia.
  pose proof (lval_bound _ (limbs_ok_skipn (length lo - k) lo Hlo)) as Hb.
  rewrite length_skipn in Hb. replace (length lo - (length lo - k))%nat with k in Hb by lia.
  cbn [lval]. pose proof (bpow_pos k).
  assert (2 ^ s <= 2 ^ 63) by (apply Z.pow_le_mono_r; lia).
  assert (bpow k * (c + 1) <= bpow k * 2 ^ 63) by (apply Z.mul_le_mono_nonneg_l; lia).
  lia.
Qed.

(** Algorithm D divides: for a divisor of at least two limbs with a nonzero top
    limb and a dividend with at least as many limbs, quotient and remainder
    satisfy the Euclidean equation. *)
Theorem knuth_divmod_spec la lb :
  limbs_ok la -> limbs_ok lb -> (2 <= length lb <= length la)%nat ->
  nth (length lb - 1) lb 0 <> 0 ->
  exists ql rl, knuth_divmod la lb = Some (ql, rl) /\
    limbs_ok ql /\ length ql = S (length la - length lb) /\
    limbs_ok rl /\ length rl = length lb /\
    lval la = lval ql * lval lb + lval rl /\ lval rl < lval lb.
Proof.
  intros Ha Hb Hlen Htop.
  destruct (shifted_divisor_spec lb Hb ltac:(lia) Htop) as (Hs & Hvn & Hlv & Hvv & Hvt).
  unfold knuth_divmod. set (s := normalize_shift _) in *. set (vn := fst (shift_left lb s)) in *.
  destruct (shift_left la s) as [lo c] eqn:Ea.
  destruct (shift_left_spec la s lo c Ha Hs Ea) as (Hlo & Hll & Hc & Hval).
  assert (P2 : 0 < 2 ^ s) by (apply Z.pow_pos_nonneg; lia).
  assert (Hsc : 2 ^ s <= 2 ^ 63) by (apply Z.pow_le_mono_r; lia).
  assert (Hun : limbs_ok (lo ++ [c])).
  { apply limbs_ok_app_intro; [exact Hlo|]. apply limbs_ok_one. unfold limb.
    change (2 ^ 63) with 9223372036854775808 in Hsc. lia. }
  destruct (length lb) as [|k] eqn:El; [lia|].
  destruct (div_loop_spec vn (S (length la - S k)) (lo ++ [c]))
    as (ql & un & E & H1 & H2 & H3 & H4 & H5 & H6); auto; try lia.
  { rewrite length_app. simpl. lia. }
  { pose proof (shifted_dividend_top lo c s k Hlo Hc Hs ltac:(lia)) as Ht.
    replace (S (length la - S k)) with (length lo - k)%nat by lia.
    pose proof (lval_top vn k Hlv) as EW.
    pose proof (lval_nonneg _ (limbs_ok_firstn k vn Hvn)).
    rewrite Hlv in Hvt. replace (S k - 1)%nat with k in Hvt by lia.
    pose proof (bpow_pos k).
    assert (bpow k * 2 ^ 63 <= bpow k * nth k vn 0) by (apply Z.mul_le_mono_nonneg_l; lia).
    lia. }
  rewrite E. exists ql, (shift_right (firstn (S k) un) s).
  rewrite length_app in H4. simpl in H4.
  assert (Hz : lval (firstn (S k) un) = lval un).
  { pose proof (lval_firstn_skipn (S k) un ltac:(lia)) as Esp.
    pose proof (lval_bound vn Hvn) as Bv. rewrite Hlv in Bv.
    pose proof (lval_nonneg _ (limbs_ok_firstn (S k) un H3)) as N1.
    pose proof (lval_nonneg _ (limbs_ok_skipn (S k) un H3)) as N2.
    pose proof (bpow_pos (S k)) as Bp.
    assert (Hz : lval (skipn (S k) un) = 0) by (clear - Esp N1 N2 Bp H6 Bv; nia).
    rewrite Esp, Hz. lia. }
  assert (Hrem : lval un = (lval la - lval ql * lval lb) * 2 ^ s).
  { rewrite lval_app in H5. cbn [lval] in H5. rewrite Hll in H5. rewrite Hvv in H5. lia. }
  destruct (shift_right_exact (firstn (S k) un) s (lval la - lval ql * lval lb))
    as (R1 & R2 & R3); auto with limbs; [lia|].
  rewrite R2, R3, length_firstn. repeat split; auto; [lia|lia|].
  clear - Hrem H6 Hvv P2. nia.
Qed.
