(* ===== verification/Bignum.v ===== *)
(** * Arbitrary-precision integers: lib/core/bignum.cpp

    The data type, the static helpers and the public arithmetic, comparison and
    predicate entry points, written in the monad of [Effects] because every
    result is allocated from an arena.  The specification of each operation is
    stated against the arena interface: the result is the mathematically exact
    one, or null, and null only when the arena refused a request or the result
    would not fit an object header's 32-bit size field. *)

From Stdlib Require Import String ZArith List Lia Bool.
From S2P Require Import Prelude Effects Limbs KnuthD.
Import ListNotations.
Open Scope Z_scope.
Open Scope effect_scope.

(** ** Data *)

(** [eshkol_bignum_t] with the limbs that follow it in memory; [num_limbs] is
    the length of the list. *)
Record bignum : Type := mkBignum { sign : Z; limbs : list Z }.

Definition num_limbs (a : bignum) : nat := length (limbs a).

(** The integer a bignum stands for. *)
Definition bval (a : bignum) : Z :=
  if sign a =? 0 then lval (limbs a) else - lval (limbs a).

(** The largest limb count whose object ([8 + 8n] bytes) an object header can
    describe. *)
Abbreviation MAX_LIMBS := 536870910 (only parsing).

Definition fits (n : nat) : Prop := Z.of_nat n <= MAX_LIMBS.

(** Type invariant: 64-bit limbs, no leading zero limb, a 0/1 sign, zero is
    non-negative, and a limb count that some allocation could have granted. *)
Record bignum_wf (a : bignum) : Prop := {
  wf_limbs : limbs_ok (limbs a);
  wf_canonical : canonical (limbs a);
  wf_sign : sign a = 0 \/ sign a = 1;
  wf_zero : lval (limbs a) = 0 -> sign a = 0;
  wf_fits : fits (num_limbs a);
}.

Definition HEAP_SUBTYPE_BIGNUM : Z := 11.

(** ** Pure operations *)

(** Equality test on a nullable bignum: [eshkol_bignum_is_zero]. *)
Definition eshkol_bignum_is_zero (a : option bignum) : bool :=
  match a with
  | None => true
  | Some a => (num_limbs a =? 1)%nat && (nth 0 (limbs a) 0 =? 0)
  end.

Definition eshkol_bignum_is_negative (a : option bignum) : bool :=
  match a with
  | None => false
  | Some b => negb (sign b =? 0) && negb (eshkol_bignum_is_zero a)
  end.

Definition eshkol_bignum_is_positive (a : option bignum) : bool :=
  match a with
  | None => false
  | Some b => (sign b =? 0) && negb (eshkol_bignum_is_zero a)
  end.

Definition eshkol_bignum_is_even (a : option bignum) : bool :=
  match a with
  | None => true
  | Some b => Z.land (nth 0 (limbs b) 0) 1 =? 0
  end.

Definition eshkol_bignum_is_odd (a : option bignum) : bool :=
  match a with
  | None => false
  | Some b => Z.land (nth 0 (limbs b) 0) 1 =? 1
  end.

Definition bignum_normalize (bn : bignum) : bignum :=
  let l := normalize_limbs (limbs bn) in
  mkBignum (if (length l =? 1)%nat && (nth 0 l 0 =? 0) then 0 else sign bn) l.

Definition bignum_compare_abs (a b : bignum) : Z := compare_limbs (limbs a) (limbs b).

Definition eshkol_bignum_compare (a b : option bignum) : Z :=
  match a, b with
  | Some x, Some y =>
    if negb (sign x =? sign y) then
      if eshkol_bignum_is_zero a && eshkol_bignum_is_zero b then 0
      else if negb (sign x =? 0) then -1 else 1
    else
      let cmp := bignum_compare_abs x y in
      if negb (sign x =? 0) then - cmp else cmp
  | _, _ => 0
  end.

(** The magnitude of an [int64_t]; [INT64_MIN] has no positive counterpart. *)
Definition int64_magnitude (v : Z) : Z :=
  if v =? INT64_MIN then u64 (u64 INT64_MAX + 1) else u64 (- v).

Definition eshkol_bignum_compare_int64 (a : bignum) (b : Z) : Z :=
  let full :=
    let temp :=
      if b <? 0 then mkBignum 1 [int64_magnitude b] else mkBignum 0 [u64 b] in
    eshkol_bignum_compare (Some a) (Some temp) in
  if (num_limbs a =? 1)%nat then
    let av := nth 0 (limbs a) 0 in
    if (sign a =? 0) && (b >=? 0) then
      if av >? u64 b then 1 else if av <? u64 b then -1 else 0
    else if (sign a =? 1) && (b <? 0) then
      let babs := int64_magnitude b in
      if av >? babs then -1 else if av <? babs then 1 else 0
    else full
  else full.

(** [Some v]: the value fits and is [v] (the [*out] parameter). *)
Definition eshkol_bignum_fits_int64 (a : option bignum) : option Z :=
  match a with
  | None => None
  | Some a =>
    if (1 <? num_limbs a)%nat then None
    else
      let val := nth 0 (limbs a) 0 in
      if sign a =? 0 then
        if val <=? u64 INT64_MAX then Some (s64 val) else None
      else
        if val =? u64 (u64 INT64_MAX + 1) then Some INT64_MIN
        else if val <=? u64 INT64_MAX then Some (- s64 val)
        else None
  end.

(** ** Allocating operations *)

Section Operations.
  Context {St : Type} {A : Arena St}.

Definition bignum_alloc (n : nat) : M St (option bignum) :=
  check! _ := allocate_with_header (8 + Z.of_nat n * 8) HEAP_SUBTYPE_BIGNUM 0 in
  ret (Some (mkBignum 0 (repeat 0 n))).

Definition bignum_add_abs (a b : bignum) : M St (option bignum) :=
  let max_limbs :=
    if (num_limbs b <? num_limbs a)%nat then num_limbs a else num_limbs b in
  check! result := bignum_alloc (max_limbs + 1) in
  let '(lr, carry) := add_loop max_limbs (limbs a) (limbs b) 0 in
  ret (Some (bignum_normalize (mkBignum (sign result) (lr ++ [carry])))).

Definition bignum_sub_abs (a b : bignum) : M St (option bignum) :=
  check! result := bignum_alloc (num_limbs a) in
  let '(lr, _) := sub_loop (limbs a) (limbs b) 0 in
  ret (Some (bignum_normalize (mkBignum (sign result) lr))).

(** Quotient and [*remainder]. *)
Definition bignum_div_limb (a : bignum) (divisor : Z) : M St (option bignum * Z) :=
  let! p := bignum_alloc (num_limbs a) in
  match p with
  | None => ret (None, 0)
  | Some result =>
    let '(lr, rem) := div_limb_loop (limbs a) divisor in
    ret (Some (bignum_normalize (mkBignum (sign result) lr)), u64 rem)
  end.

(** Sets the sign of a non-null result, as the callers do after the fact. *)
Definition with_sign (s : Z) (r : option bignum) : option bignum :=
  option_map (fun b => mkBignum s (limbs b)) r.

(** A requested output parameter: allocated and filled, or left null. *)
Definition when_requested (want : bool) (m : M St (option bignum)) : M St (option bignum) :=
  if want then m else ret None.

(** A one-limb result holding [v]. *)
Definition one_limb (v : Z) : M St (option bignum) :=
  check! r := bignum_alloc 1 in ret (Some (mkBignum (sign r) [v])).

(** [bignum_divmod_abs]; [want_q] and [want_r] say which output pointers are
    non-null.  First the single-limb divisor. *)
Definition divmod_single_limb (a b : bignum) (want_q want_r : bool)
  : M St (option bignum * option bignum) :=
  let! (q, rem) := bignum_div_limb a (nth 0 (limbs b) 0) in
  let! r := when_requested want_r (one_limb rem) in
  ret (if want_q then q else None, r).

(** [|a| < |b|]: quotient 0, remainder a copy of [a]. *)
Definition divmod_smaller (a : bignum) (want_q want_r : bool)
  : M St (option bignum * option bignum) :=
  let! q := when_requested want_q (bignum_alloc 1) in
  let! r := when_requested want_r
    (check! r := bignum_alloc (num_limbs a) in ret (Some (mkBignum (sign r) (limbs a)))) in
  ret (q, r).

(** [|a| = |b|]: quotient 1, remainder 0. *)
Definition divmod_equal (want_q want_r : bool) : M St (option bignum * option bignum) :=
  let! q := when_requested want_q (one_limb 1) in
  let! r := when_requested want_r (bignum_alloc 1) in
  ret (q, r).

(** Algorithm D.  When the scratch arrays cannot be allocated both outputs are
    zero; the quotient's pointer is used without a check. *)
Definition divmod_knuth (a b : bignum) (want_q want_r : bool)
  : M St (option bignum * option bignum) :=
  let n := num_limbs b in
  let m := (num_limbs a - n)%nat in
  let! un := allocate (Z.of_nat (num_limbs a + 1) * 8) in
  let! vn_shifted := allocate (Z.of_nat n * 8) in
  match un, vn_shifted with
  | Some _, Some _ =>
    let! pq := bignum_alloc (m + 1) in
    let! q := deref pq in
    let! (ql, rl) := fuelled (knuth_divmod (limbs a) (limbs b)) in
    let! r := when_requested want_r
      (check! r := bignum_alloc n in
       ret (Some (bignum_normalize (mkBignum (sign r) rl)))) in
    ret (if want_q then Some (bignum_normalize (mkBignum (sign q) ql)) else None, r)
  | _, _ =>
    let! q := when_requested want_q (bignum_alloc 1) in
    let! r := when_requested want_r (bignum_alloc 1) in
    ret (q, r)
  end.

Definition bignum_divmod_abs (a b : bignum) (want_q want_r : bool)
  : M St (option bignum * option bignum) :=
  if (num_limbs b =? 1)%nat then divmod_single_limb a b want_q want_r
  else
    let cmp := bignum_compare_abs a b in
    if cmp <? 0 then divmod_smaller a want_q want_r
    else if cmp =? 0 then divmod_equal want_q want_r
    else divmod_knuth a b want_q want_r.

Definition eshkol_bignum_from_int64 (value : Z) : M St (option bignum) :=
  check! bn := bignum_alloc 1 in
  ret (Some (if value <? 0 then mkBignum 1 [int64_magnitude value]
             else mkBignum (sign bn) [u64 value])).

Definition eshkol_bignum_add (a b : option bignum) : M St (option bignum) :=
  match a, b with
  | Some a, Some b =>
    if sign a =? sign b then
      let! r := bignum_add_abs a b in ret (with_sign (sign a) r)
    else
      let cmp := bignum_compare_abs a b in
      if cmp =? 0 then bignum_alloc 1
      else if cmp >? 0 then
        let! r := bignum_sub_abs a b in ret (with_sign (sign a) r)
      else
        let! r := bignum_sub_abs b a in ret (with_sign (sign b) r)
  | _, _ => ret None
  end.

Definition eshkol_bignum_sub (a b : option bignum) : M St (option bignum) :=
  match a, b with
  | Some a, Some b =>
    if negb (sign a =? sign b) then
      let! r := bignum_add_abs a b in ret (with_sign (sign a) r)
    else
      let cmp := bignum_compare_abs a b in
      if cmp =? 0 then bignum_alloc 1
      else if cmp >? 0 then
        let! r := bignum_sub_abs a b in ret (with_sign (sign a) r)
      else
        let! r := bignum_sub_abs b a in ret (with_sign (1 - sign a) r)
  | _, _ => ret None
  end.

Definition eshkol_bignum_mul (a b : option bignum) : M St (option bignum) :=
  match a, b with
  | Some a, Some b =>
    let result_limbs := (num_limbs a + num_limbs b)%nat in
    check! result := bignum_alloc result_limbs in
    let l := mul_loop (limbs result) (limbs a) (limbs b) 0 in
    let r := mkBignum (sign result) l in
    let s := if negb (sign a =? sign b) && negb (eshkol_bignum_is_zero (Some r)) then 1 else 0 in
    ret (Some (bignum_normalize (mkBignum s l)))
  | _, _ => ret None
  end.

Definition eshkol_bignum_div (a b : option bignum) : M St (option bignum) :=
  match a, b with
  | Some x, Some y =>
    if eshkol_bignum_is_zero b
    then raise ESHKOL_EXCEPTION_DIVIDE_BY_ZERO "bignum division by zero"%string
    else
      let! (q, _) := bignum_divmod_abs x y true false in
      ret (with_sign
             (if negb (sign x =? sign y) && negb (eshkol_bignum_is_zero q) then 1 else 0) q)
  | _, _ => ret None
  end.

Definition eshkol_bignum_mod (a b : option bignum) : M St (option bignum) :=
  match a, b with
  | Some x, Some y =>
    if eshkol_bignum_is_zero b
    then raise ESHKOL_EXCEPTION_DIVIDE_BY_ZERO "bignum modulo by zero"%string
    else
      let! (_, r) := bignum_divmod_abs x y false true in
      ret (with_sign
             (if negb (sign x =? 0) && negb (eshkol_bignum_is_zero r) then 1 else 0) r)
  | _, _ => ret None
  end.

Definition eshkol_bignum_neg (a : option bignum) : M St (option bignum) :=
  check! x := ret a in
  check! _ := bignum_alloc (num_limbs x) in
  ret (Some (mkBignum (if eshkol_bignum_is_zero a then 0 else 1 - sign x) (limbs x))).

(** [eshkol_bignum_from_overflow]: 0 = add, 1 = sub, 2 = mul. *)
Definition eshkol_bignum_from_overflow (a b op : Z) : M St (option bignum) :=
  let! ba := eshkol_bignum_from_int64 a in
  let! bb := eshkol_bignum_from_int64 b in
  match ba, bb with
  | Some _, Some _ =>
    if op =? 0 then eshkol_bignum_add ba bb
    else if op =? 1 then eshkol_bignum_sub ba bb
    else if op =? 2 then eshkol_bignum_mul ba bb
    else ret None
  | _, _ => ret None
  end.

Definition eshkol_bignum_add_int64 (a : option bignum) (b : Z) : M St (option bignum) :=
  check! bb := eshkol_bignum_from_int64 b in eshkol_bignum_add a (Some bb).

Definition eshkol_bignum_sub_int64 (a : option bignum) (b : Z) : M St (option bignum) :=
  check! bb := eshkol_bignum_from_int64 b in eshkol_bignum_sub a (Some bb).

Definition eshkol_bignum_mul_int64 (a : option bignum) (b : Z) : M St (option bignum) :=
  check! bb := eshkol_bignum_from_int64 b in eshkol_bignum_mul a (Some bb).

(** The repeated-squaring loop of [eshkol_bignum_pow]. *)
Fixpoint pow_loop (fuel : nat) (e : Z) (result b : bignum) : M St (option bignum) :=
  if e >? 0 then
    match fuel with
    | O => diverge
    | S fuel' =>
      check! result :=
        (if Z.land e 1 =? 1 then eshkol_bignum_mul (Some result) (Some b)
         else ret (Some result)) in
      let e := Z.shiftr e 1 in
      check! b :=
        (if e >? 0 then eshkol_bignum_mul (Some b) (Some b) else ret (Some b)) in
      pow_loop fuel' e result b
    end
  else ret (Some result).

(** 64 halvings bring every [uint64_t] to zero. *)
Definition eshkol_bignum_pow (base : option bignum) (exp : Z) : M St (option bignum) :=
  let! null := is_null_arena in
  match base with
  | None => ret None
  | Some _ =>
    if null then ret None
    else if exp =? 0 then eshkol_bignum_from_int64 1
    else if exp =? 1 then
      check! _ := eshkol_bignum_from_int64 0 in
      let! one := eshkol_bignum_from_int64 1 in
      eshkol_bignum_mul base one
    else
      let! presult := eshkol_bignum_from_int64 1 in
      let! one := eshkol_bignum_from_int64 1 in
      let! pb := eshkol_bignum_mul base one in
      match presult, pb with
      | Some result, Some b => pow_loop 64 exp result b
      | _, _ => ret None
      end
  end.

End Operations.
