(* ===== verification/BignumSpec.v ===== *)
(** * Exactness of the bignum arithmetic

    Every operation of [Bignum] keeps the type invariant and computes the
    integer its name promises, whatever the operands' signs and sizes. *)

From Stdlib Require Import String ZArith List Lia Bool.
From S2P Require Import Prelude Effects Limbs KnuthD Bignum.
Import ListNotations.
Open Scope Z_scope.
Open Scope effect_scope.

(** [r] is a well-formed bignum of value [z]. *)
Definition denotes (z : Z) (r : bignum) : Prop := bignum_wf r /\ bval r = z.

(** [r] is a well-formed non-negative bignum of value [m]. *)
Definition natural (m : Z) (r : bignum) : Prop :=
  bignum_wf r /\ sign r = 0 /\ lval (limbs r) = m.

(** ** The invariant *)

Lemma wf_nonempty a : bignum_wf a -> (1 <= num_limbs a)%nat.
Proof.
  intros W. destruct (wf_canonical _ W) as [Hne _]. unfold num_limbs.
  destruct (limbs a); [contradiction|simpl; lia].
Qed.

Lemma wf_magnitude a : bignum_wf a -> 0 <= lval (limbs a).
Proof. intros W. apply lval_nonneg, W. Qed.

Lemma canonical_zero l :
  limbs_ok l -> canonical l -> (length l =? 1)%nat && (nth 0 l 0 =? 0) = (lval l =? 0).
Proof.
  intros Hl Hc. destruct l as [|x [|y l]]; [destruct Hc; contradiction| |].
  - cbn [length nth lval Nat.eqb andb]. f_equal. lia.
  - cbn [length Nat.eqb andb]. symmetry. apply Z.eqb_neq.
    pose proof (canonical_lower _ Hl Hc ltac:(simpl; lia)) as H.
    pose proof (bpow_pos (length (x :: y :: l) - 1)). lia.
Qed.

Lemma is_zero_spec a : bignum_wf a -> eshkol_bignum_is_zero (Some a) = (bval a =? 0).
Proof.
  intros W. cbn [eshkol_bignum_is_zero]. unfold num_limbs.
  rewrite canonical_zero by apply W. unfold bval.
  destruct (sign a =? 0); repeat case_cmp; lia.
Qed.

Lemma bval_abs a : bignum_wf a -> Z.abs (bval a) = lval (limbs a).
Proof. intros W. pose proof (wf_magnitude a W). unfold bval. case_cmp; lia. Qed.

Lemma bval_sign a : bignum_wf a -> sign a = if bval a <? 0 then 1 else 0.
Proof.
  intros W. pose proof (wf_magnitude a W). pose proof (wf_zero a W).
  unfold bval. destruct (wf_sign a W) as [E|E]; rewrite E in *; simpl; case_cmp; lia.
Qed.

Lemma natural_exact m r : natural m r -> denotes m r.
Proof. intros (W & S0 & V). split; [exact W|]. unfold bval. rewrite S0. exact V. Qed.

(** Setting the sign of a natural result. *)
Lemma with_sign_exact m s r :
  natural m r -> (s = 0 \/ s = 1 /\ m <> 0) ->
  denotes (if s =? 0 then m else - m) (mkBignum s (limbs r)).
Proof.
  intros (W & S0 & V) Hs. split.
  - destruct W. constructor; simpl; auto; [intuition|].
    intros Hz. destruct Hs as [Hs|[_ Hm]]; [exact Hs|congruence].
  - unfold bval. simpl. rewrite V. reflexivity.
Qed.

Lemma normalize_exact s l :
  limbs_ok l -> l <> [] -> fits (length l) -> s = 0 \/ s = 1 ->
  denotes (if s =? 0 then lval l else - lval l) (bignum_normalize (mkBignum s l)).
Proof.
  intros Hl Hne Hf Hs. unfold bignum_normalize. cbn [limbs sign].
  rewrite canonical_zero by auto with limbs. rewrite normalize_value.
  assert (Hf' : fits (length (normalize_limbs l)))
    by (unfold fits in *; pose proof (normalize_length l); lia).
  split.
  - constructor; cbn [limbs sign]; auto with limbs; rewrite ?normalize_value.
    + case_cmp; auto.
    + intros ->. reflexivity.
  - unfold bval. cbn [limbs sign]. rewrite normalize_value.
    destruct (Z.eqb_spec (lval l) 0) as [E|E]; [rewrite E|]; repeat case_cmp; lia.
Qed.

Lemma normalize_natural l :
  limbs_ok l -> l <> [] -> fits (length l) -> natural (lval l) (bignum_normalize (mkBignum 0 l)).
Proof.
  intros Hl Hne Hf. destruct (normalize_exact 0 l Hl Hne Hf ltac:(auto)) as [W V].
  split; [exact W|]. unfold bignum_normalize in *. cbn [limbs sign] in *.
  rewrite normalize_value. destruct (_ && _); auto.
Qed.

Lemma one_limb_natural v : limb v -> natural v (mkBignum 0 [v]).
Proof.
  intros Hv. unfold natural. cbn [limbs sign lval]. repeat split; simpl; auto; try lia.
  - apply limbs_ok_one, Hv.
  - discriminate.
  - unfold fits, num_limbs. simpl. lia.
Qed.

(** ** Comparison *)

Lemma compare_abs_spec a b :
  bignum_wf a -> bignum_wf b ->
  bignum_compare_abs a b = Z.sgn (lval (limbs a) - lval (limbs b)).
Proof. intros Wa Wb. apply compare_limbs_spec; (apply Wa || apply Wb). Qed.

Lemma compare_sgn a b :
  bignum_wf a -> bignum_wf b ->
  eshkol_bignum_compare (Some a) (Some b) = Z.sgn (bval a - bval b).
Proof.
  intros Wa Wb. unfold eshkol_bignum_compare.
  rewrite !is_zero_spec, compare_abs_spec by assumption.
  pose proof (wf_magnitude a Wa). pose proof (wf_magnitude b Wb).
  pose proof (wf_zero a Wa). pose proof (wf_zero b Wb). unfold bval.
  destruct (wf_sign a Wa) as [Ea|Ea], (wf_sign b Wb) as [Eb|Eb]; rewrite Ea, Eb in *; simpl.
  - reflexivity.
  - repeat case_cmp; simpl; lia.
  - repeat case_cmp; simpl; lia.
  - rewrite <- Z.sgn_opp. f_equal. lia.
Qed.

(** ** The allocating operations *)

Section Specs.
  Context {St : Type} {A : Arena St} {L : ArenaLaws St} {G : Granted}.

(** The limb counts that reach [bignum_alloc] come from sums of limb counts of
    existing bignums, so its [size_t] arithmetic does not wrap. *)
Lemma bignum_alloc_spec n :
  Z.of_nat n < 2 ^ 32 ->
  wp (bignum_alloc n)
    (or_null (fits n) (fun r => r = mkBignum 0 (repeat 0 n) /\ fits n)).
Proof.
  intros Hb. change (2 ^ 32) with 4294967296 in Hb. unfold fits.
  eapply wp_check; [apply allocate_with_header_spec; lia|lia|].
  intros p Hp. cbv beta in Hp. apply wp_ret. split; [reflexivity|lia].
Qed.

Lemma one_limb_spec v : limb v -> wp (one_limb v) (or_null True (natural v)).
Proof.
  intros Hv. apply (wp_check _ _ _ _ _ _ (bignum_alloc_spec 1 ltac:(simpl; lia)));
    [unfold fits; simpl; lia|].
  intros r [-> _]. apply wp_ret. cbn [or_null sign]. apply one_limb_natural, Hv.
Qed.

Lemma zero_spec : wp (bignum_alloc 1) (or_null True (natural 0)).
Proof.
  refine (wp_mono _ _ _ _ (bignum_alloc_spec 1 ltac:(simpl; lia))).
  intros r. apply or_null_mono; [unfold fits; simpl; lia|].
  intros x [-> _]. apply one_limb_natural. unfold limb. lia.
Qed.

Lemma from_int64_exact v :
  int64_range v -> wp (eshkol_bignum_from_int64 v) (or_null True (denotes v)).
Proof.
  intros Hv. unfold int64_range in Hv.
  apply (wp_check _ _ _ _ _ _ (bignum_alloc_spec 1 ltac:(simpl; lia)));
    [unfold fits; simpl; lia|].
  intros r [-> _]. apply wp_ret. cbn [or_null sign]. case_cmp.
  - assert (E : int64_magnitude v = - v).
    { unfold int64_magnitude. case_cmp; [subst; reflexivity|apply u64_small; lia]. }
    rewrite E. replace v with (- (- v)) at 1 by lia.
    apply (with_sign_exact (- v) 1 (mkBignum 0 [- v])); [|right; lia].
    apply one_limb_natural. unfold limb. lia.
  - rewrite u64_small by lia. apply natural_exact, one_limb_natural. unfold limb. lia.
Qed.

Lemma add_abs_spec a b :
  bignum_wf a -> bignum_wf b ->
  wp (bignum_add_abs a b)
    (or_null (fits (Nat.max (num_limbs a) (num_limbs b) + 1))
       (natural (lval (limbs a) + lval (limbs b)))).
Proof.
  intros Wa Wb. unfold bignum_add_abs.
  replace (if (num_limbs b <? num_limbs a)%nat then num_limbs a else num_limbs b)
    with (Nat.max (num_limbs a) (num_limbs b))
    by (destruct (Nat.ltb_spec (num_limbs b) (num_limbs a)); lia).
  set (n := Nat.max _ _). pose proof (wf_fits a Wa). pose proof (wf_fits b Wb). unfold fits in *.
  apply (wp_check _ _ _ _ _ _ (bignum_alloc_spec (n + 1) ltac:(simpl; lia))); [auto|].
  intros r [-> Hf]. cbn [sign].
  destruct (add_loop n (limbs a) (limbs b) 0) as [lr carry] eqn:E.
  destruct (add_loop_spec n (limbs a) (limbs b) 0 lr carry) as (Hr & Hl & Hc & Hv);
    [apply Wa|apply Wb|lia|exact E|].
  rewrite !firstn_all2 in Hv by (unfold num_limbs in n; lia).
  apply wp_ret. cbn [or_null].
  replace (lval (limbs a) + lval (limbs b)) with (lval (lr ++ [carry]))
    by (rewrite lval_app, Hl; cbn [lval]; lia).
  apply normalize_natural.
  - apply limbs_ok_app_intro; [exact Hr|]. apply limbs_ok_one. unfold limb. lia.
  - destruct lr; discriminate.
  - rewrite length_app, Hl. exact Hf.
Qed.

Lemma sub_abs_spec a b :
  bignum_wf a -> bignum_wf b -> lval (limbs b) <= lval (limbs a) ->
  wp (bignum_sub_abs a b) (or_null True (natural (lval (limbs a) - lval (limbs b)))).
Proof.
  intros Wa Wb Hle. unfold bignum_sub_abs. pose proof (wf_nonempty a Wa).
  pose proof (wf_fits a Wa) as Fa. unfold fits in Fa.
  apply (wp_check _ _ _ _ _ _ (bignum_alloc_spec (num_limbs a) ltac:(simpl; lia)));
    [auto|].
  intros r [-> Hf]. cbn [sign]. destruct (sub_loop (limbs a) (limbs b) 0) as [lr bo] eqn:E.
  assert (Hlen : (length (limbs b) <= length (limbs a))%nat).
  { destruct (Nat.leb_spec (length (limbs b)) (length (limbs a))); [lia|].
    pose proof (lval_length_lt (limbs a) (limbs b) (wf_limbs _ Wa) (wf_limbs _ Wb)
                  (proj1 (wf_canonical _ Wa)) (wf_canonical _ Wb) ltac:(lia)). lia. }
  destruct (sub_loop_value (limbs a) (limbs b) lr bo) as (Hr & Hl & Hv);
    [apply Wa|apply Wb|exact Hlen|exact Hle|exact E|].
  apply wp_ret. cbn [or_null]. rewrite <- Hv. apply normalize_natural; auto.
  - destruct lr; [|discriminate]. unfold num_limbs in *. simpl in Hl. lia.
  - rewrite Hl. exact Hf.
Qed.

(** A natural result whose sign the caller then sets. *)
Lemma wp_with_sign (m : M St (option bignum)) F mag s z :
  wp m (or_null F (natural mag)) ->
  (s = 0 \/ s = 1 /\ mag <> 0) -> (if s =? 0 then mag else - mag) = z ->
  wp (bind m (fun r => ret (with_sign s r))) (or_null F (denotes z)).
Proof.
  intros Hm Hs <-. apply (wp_call _ _ _ _ Hm). intros [r|] Hr; apply wp_ret; simpl in *.
  - apply with_sign_exact; assumption.
  - exact Hr.
Qed.

(** ** Addition, subtraction, multiplication, negation *)

(** The limb count [add] and [sub] may ask for. *)
Abbreviation sum_limbs a b := (Nat.max (num_limbs a) (num_limbs b) + 1)%nat.

(** Facts the sign analyses need. *)
Ltac bignum_facts a W :=
  pose proof (wf_magnitude a W); pose proof (wf_zero a W);
  pose proof (wf_sign a W).

(** Difference of two magnitudes with the sign the caller chose; it asks for no
    more limbs than the larger operand has. *)
Lemma diff_signed F a b s z :
  bignum_wf a -> bignum_wf b -> lval (limbs b) < lval (limbs a) -> s = 0 \/ s = 1 ->
  (if s =? 0 then lval (limbs a) - lval (limbs b) else lval (limbs b) - lval (limbs a)) = z ->
  wp (let! r := bignum_sub_abs a b in ret (with_sign s r)) (or_null F (denotes z)).
Proof.
  intros Wa Wb Hlt Hs Hz.
  apply (wp_or_null_weaken _ True F (denotes z)); [auto|auto|].
  eapply wp_with_sign; [apply sub_abs_spec; try assumption; lia|lia|].
  rewrite <- Hz. case_cmp; lia.
Qed.

(** The branch on the comparison of magnitudes that [add] and [sub] share. *)
Lemma diff_branch F a b s1 s2 z :
  bignum_wf a -> bignum_wf b -> s1 = 0 \/ s1 = 1 -> s2 = 0 \/ s2 = 1 ->
  (lval (limbs a) = lval (limbs b) -> z = 0) ->
  (if s1 =? 0 then lval (limbs a) - lval (limbs b) else lval (limbs b) - lval (limbs a)) = z ->
  (if s2 =? 0 then lval (limbs b) - lval (limbs a) else lval (limbs a) - lval (limbs b)) = z ->
  wp (if bignum_compare_abs a b =? 0 then bignum_alloc 1
      else if bignum_compare_abs a b >? 0
      then let! r := bignum_sub_abs a b in ret (with_sign s1 r)
      else let! r := bignum_sub_abs b a in ret (with_sign s2 r))
    (or_null F (denotes z)).
Proof.
  intros Wa Wb Hs1 Hs2 H0 H1 H2. rewrite compare_abs_spec by assumption.
  destruct (Z.eqb_spec (Z.sgn (lval (limbs a) - lval (limbs b))) 0) as [Ec|Ec].
  - rewrite H0 by lia.
    exact (wp_or_null_weaken _ _ _ _ _ (fun _ => I) (natural_exact 0) zero_spec).
  - destruct (Z.gtb_spec (Z.sgn (lval (limbs a) - lval (limbs b))) 0);
      (apply diff_signed; [assumption|assumption|lia|assumption|assumption]).
Qed.

Lemma add_exact a b :
  bignum_wf a -> bignum_wf b ->
  wp (eshkol_bignum_add (Some a) (Some b))
    (or_null (fits (sum_limbs a b)) (denotes (bval a + bval b))).
Proof.
  intros Wa Wb. unfold eshkol_bignum_add. bignum_facts a Wa. bignum_facts b Wb. unfold bval.
  destruct (Z.eqb_spec (sign a) (sign b)) as [Es|Es].
  - eapply wp_with_sign; [apply add_abs_spec; assumption|lia|].
    rewrite <- Es. case_cmp; lia.
  - apply diff_branch; auto; repeat case_cmp; lia.
Qed.

Lemma sub_exact a b :
  bignum_wf a -> bignum_wf b ->
  wp (eshkol_bignum_sub (Some a) (Some b))
    (or_null (fits (sum_limbs a b)) (denotes (bval a - bval b))).
Proof.
  intros Wa Wb. unfold eshkol_bignum_sub. bignum_facts a Wa. bignum_facts b Wb. unfold bval.
  destruct (Z.eqb_spec (sign a) (sign b)) as [Es|Es]; cbn [negb].
  - apply diff_branch; auto; try lia; repeat case_cmp; lia.
  - eapply wp_with_sign; [apply add_abs_spec; assumption|lia|].
    repeat case_cmp; lia.
Qed.

Lemma mul_exact a b :
  bignum_wf a -> bignum_wf b ->
  wp (eshkol_bignum_mul (Some a) (Some b))
    (or_null (fits (num_limbs a + num_limbs b)) (denotes (bval a * bval b))).
Proof.
  intros Wa Wb. unfold eshkol_bignum_mul. pose proof (wf_nonempty a Wa). pose proof (wf_nonempty b Wb).
  pose proof (wf_fits a Wa). pose proof (wf_fits b Wb). unfold fits in *.
  apply (wp_check _ _ _ _ _ _
    (bignum_alloc_spec (num_limbs a + num_limbs b) ltac:(simpl; lia))); [auto|].
  intros r [-> Hf]. cbn [limbs sign]. rewrite repeat_app.
  destruct (mul_loop_spec (repeat 0 (num_limbs a)) (limbs a) (limbs b) 0) as (M1 & M2 & M3);
    [auto with limbs|apply Wa|apply Wb|apply repeat_length|].
  rewrite repeat_length, lval_repeat, bpow_0 in *. fold (num_limbs b) in *.
  set (l := mul_loop _ _ _ _) in *.
  apply wp_ret. cbn [or_null].
  set (s := if _ && _ then 1 else 0).
  assert (Hs : s = 0 \/ s = 1) by (subst s; destruct (_ && _); auto).
  destruct (normalize_exact s l M1) as [W V]; auto;
    [intros E; rewrite E in M2; simpl in M2; lia|unfold fits; rewrite M2; exact Hf|].
  split; [exact W|]. rewrite V.
  replace (lval l) with (lval (limbs a) * lval (limbs b)) by lia.
  assert (Hz : s = 1 <-> sign a <> sign b /\ eshkol_bignum_is_zero (Some (mkBignum 0 l)) = false).
  { subst s. destruct (Z.eqb_spec (sign a) (sign b)), (eshkol_bignum_is_zero _); simpl; intuition congruence. }
  assert (Hlen : eshkol_bignum_is_zero (Some (mkBignum 0 l)) = false).
  { cbn [eshkol_bignum_is_zero]. unfold num_limbs. cbn [limbs]. rewrite M2.
    unfold num_limbs in *. destruct (Nat.eqb_spec (length (limbs a) + length (limbs b)) 1); [lia|reflexivity]. }
  rewrite Hlen in Hz. clearbody s. unfold bval.
  destruct (wf_sign a Wa) as [Ea|Ea], (wf_sign b Wb) as [Eb|Eb]; rewrite Ea, Eb in *;
    destruct Hs as [-> | ->]; simpl; lia.
Qed.

Lemma neg_exact a :
  bignum_wf a -> wp (eshkol_bignum_neg (Some a)) (or_null True (denotes (- bval a))).
Proof.
  intros Wa. unfold eshkol_bignum_neg. pose proof (wf_nonempty a Wa).
  pose proof (wf_fits a Wa) as Fa. unfold fits in Fa.
  apply (wp_check _ _ True (eq a)); [apply wp_ret; reflexivity|auto|]. intros x <-.
  apply (wp_check _ _ _ _ _ _ (bignum_alloc_spec (num_limbs a) ltac:(simpl; lia))); [auto|].
  intros r [_ Hf]. apply wp_ret. cbn [or_null].
  rewrite is_zero_spec by assumption. bignum_facts a Wa.
  split.
  - destruct Wa as [W1 W2 W3 W4 W5]. constructor; cbn [limbs sign]; auto.
    + case_cmp; [auto|]. lia.
    + intros Hz. unfold bval. rewrite Hz, W4 by exact Hz. reflexivity.
  - unfold bval. cbn [limbs sign].
    destruct (wf_sign a Wa) as [E|E]; rewrite E in *; simpl;
      [destruct (Z.eqb_spec (lval (limbs a)) 0)|destruct (Z.eqb_spec (- lval (limbs a)) 0)];
      simpl; lia.
Qed.

(** ** Division *)

(** An output parameter after the call: filled when it was requested. *)
Definition requested (want : bool) (P : bignum -> Prop) (r : option bignum) : Prop :=
  if want then exists x, r = Some x /\ P x else r = None.

Lemma when_requested_spec want (m : M St (option bignum)) P :
  granted -> wp m (or_null True P) -> wp (when_requested want m) (requested want P).
Proof.
  intros R Hm. destruct want; [|apply wp_ret; reflexivity].
  refine (wp_mono _ _ _ _ Hm). intros r Hr. exact (or_null_granted True P r R I Hr).
Qed.

Lemma div_limb_any a d :
  bignum_wf a -> 0 < d < B64 ->
  wp (bignum_div_limb a d)
    (fun qr => match fst qr with
               | Some q => natural (lval (limbs a) / d) q /\ snd qr = lval (limbs a) mod d
               | None => granted -> False
               end).
Proof.
  intros Wa Hd. unfold bignum_div_limb. pose proof (wf_nonempty a Wa).
  pose proof (wf_fits a Wa) as Fa. unfold fits in Fa.
  apply (wp_call _ _ _ _ (bignum_alloc_spec (num_limbs a) ltac:(simpl; lia))).
  intros [x|] Hp; [|apply wp_ret; cbn [fst]; cbn [or_null] in Hp; auto].
  destruct Hp as (-> & Hf). cbn [sign].
  destruct (div_limb_loop (limbs a) d) as [lr rem] eqn:E.
  destruct (div_limb_loop_spec (limbs a) d lr rem) as (Hr & Hl & Hv & Hrem);
    [apply Wa|exact Hd|exact E|].
  apply wp_ret. cbn [fst snd].
  rewrite <- (Z.div_unique (lval (limbs a)) d (lval lr) rem) by lia.
  rewrite <- (Z.mod_unique (lval (limbs a)) d (lval lr) rem) by lia.
  split; [|apply u64_small; lia]. apply normalize_natural; auto.
  - destruct lr; [|discriminate]. unfold num_limbs in *. simpl in Hl. lia.
  - rewrite Hl. exact Hf.
Qed.

Lemma div_limb_spec a d :
  granted -> bignum_wf a -> 0 < d < B64 ->
  wp (bignum_div_limb a d)
    (fun qr => exists q, fst qr = Some q /\ natural (lval (limbs a) / d) q /\
               snd qr = lval (limbs a) mod d).
Proof.
  intros R Wa Hd. refine (wp_mono _ _ _ _ (div_limb_any a d Wa Hd)).
  intros [[q|] rem]; cbn [fst snd]; [|intuition]. intros [Hq Hr]. exists q. auto.
Qed.

(** The case [|a| > |b|] with at least two limbs in [b]. *)
Lemma knuth_natural a b :
  bignum_wf a -> bignum_wf b -> (2 <= num_limbs b)%nat -> lval (limbs b) < lval (limbs a) ->
  exists ql rl, knuth_divmod (limbs a) (limbs b) = Some (ql, rl) /\
    natural (lval (limbs a) / lval (limbs b)) (bignum_normalize (mkBignum 0 ql)) /\
    natural (lval (limbs a) mod lval (limbs b)) (bignum_normalize (mkBignum 0 rl)) /\
    (num_limbs b <= num_limbs a)%nat.
Proof.
  intros Wa Wb Hn Hlt. unfold num_limbs in *.
  assert (Hlen : (length (limbs b) <= length (limbs a))%nat).
  { destruct (Nat.leb_spec (length (limbs b)) (length (limbs a))); [lia|].
    pose proof (lval_length_lt (limbs a) (limbs b) (wf_limbs _ Wa) (wf_limbs _ Wb)
                  (proj1 (wf_canonical _ Wa)) (wf_canonical _ Wb) ltac:(lia)). lia. }
  destruct (knuth_divmod_spec (limbs a) (limbs b)) as (ql & rl & E & H1 & H2 & H3 & H4 & H5 & H6);
    [apply Wa|apply Wb|lia| |].
  { destruct (wf_canonical _ Wb) as [Hne Hlast]. rewrite nth_last_eq by exact Hne.
    apply Hlast. lia. }
  exists ql, rl. split; [exact E|].
  pose proof (lval_nonneg rl H3). pose proof (wf_fits a Wa) as Fa. pose proof (wf_fits b Wb) as Fb.
  unfold fits, num_limbs in *.
  rewrite <- (Z.div_unique (lval (limbs a)) (lval (limbs b)) (lval ql) (lval rl)) by lia.
  rewrite <- (Z.mod_unique (lval (limbs a)) (lval (limbs b)) (lval ql) (lval rl)) by lia.
  split; [|split; [|exact Hlen]]; apply normalize_natural; auto.
  - intros ->. discriminate H2.
  - unfold fits. rewrite H2. lia.
  - intros ->. simpl in H4. lia.
  - unfold fits. rewrite H4. lia.
Qed.

(** What [bignum_divmod_abs] leaves in its two output parameters. *)
Definition divmod_post (x y : Z) (wq wr : bool) (qr : option bignum * option bignum) : Prop :=
  requested wq (natural (x / y)) (fst qr) /\ requested wr (natural (x mod y)) (snd qr).

Lemma divmod_single_limb_spec a b wq wr :
  granted -> bignum_wf a -> bignum_wf b -> num_limbs b = 1%nat -> lval (limbs b) <> 0 ->
  wp (divmod_single_limb a b wq wr) (divmod_post (lval (limbs a)) (lval (limbs b)) wq wr).
Proof.
  intros R Wa Wb E1 Hb. unfold divmod_single_limb.
  assert (Eb : lval (limbs b) = nth 0 (limbs b) 0).
  { unfold num_limbs in E1. destruct (limbs b) as [|x [|]]; try discriminate. simpl. lia. }
  pose proof (limbs_ok_nth (limbs b) 0 (wf_limbs b Wb)) as Hd. unfold limb in Hd.
  rewrite Eb in *. set (d := nth 0 (limbs b) 0) in *.
  eapply wp_call; [apply div_limb_spec; [assumption|assumption|lia]|].
  intros [q rem] (x & Eq & Hq & Hrem). cbn [fst snd] in Eq, Hrem. subst q rem.
  pose proof (Z.mod_pos_bound (lval (limbs a)) d ltac:(lia)).
  eapply wp_call; [apply when_requested_spec; [exact R|apply one_limb_spec; unfold limb; lia]|].
  intros r Hr. apply wp_ret. split; [|exact Hr]. destruct wq; simpl; eauto.
Qed.

Lemma divmod_smaller_spec a b wq wr :
  granted -> bignum_wf a -> bignum_wf b -> lval (limbs a) < lval (limbs b) ->
  wp (divmod_smaller a wq wr) (divmod_post (lval (limbs a)) (lval (limbs b)) wq wr).
Proof.
  intros R Wa Wb Hlt. unfold divmod_smaller, divmod_post. pose proof (wf_magnitude a Wa).
  pose proof (wf_nonempty a Wa). pose proof (wf_fits a Wa) as Fa. unfold fits in Fa.
  rewrite Z.div_small, Z.mod_small by lia.
  eapply wp_call; [apply when_requested_spec; [exact R|apply zero_spec]|]. intros q Hq.
  eapply wp_call; [apply when_requested_spec; [exact R|]|].
  2: { intros r Hr. apply wp_ret. exact (conj Hq Hr). }
  apply (wp_check _ _ _ _ _ _ (bignum_alloc_spec (num_limbs a) ltac:(simpl; lia)));
    [auto|].
  intros r [-> Hf]. apply wp_ret. cbn [or_null sign].
  repeat split; cbn [limbs sign]; auto; apply Wa.
Qed.

Lemma divmod_equal_spec x wq wr :
  granted -> 0 < x -> wp (divmod_equal wq wr) (divmod_post x x wq wr).
Proof.
  intros R Hx. unfold divmod_equal, divmod_post. rewrite Z.div_same, Z.mod_same by lia.
  eapply wp_call; [apply when_requested_spec; [exact R|apply one_limb_spec; unfold limb; lia]|].
  intros q Hq.
  eapply wp_call; [apply when_requested_spec; [exact R|apply zero_spec]|]. intros r Hr.
  apply wp_ret. exact (conj Hq Hr).
Qed.

Lemma divmod_knuth_spec a b wq wr :
  granted -> bignum_wf a -> bignum_wf b -> (2 <= num_limbs b)%nat ->
  lval (limbs b) < lval (limbs a) ->
  wp (divmod_knuth a b wq wr) (divmod_post (lval (limbs a)) (lval (limbs b)) wq wr).
Proof.
  intros R Wa Wb Hn Hlt.
  destruct (knuth_natural a b Wa Wb Hn Hlt) as (ql & rl & Ek & Hq & Hr & Hlen).
  pose proof (wf_fits a Wa) as Fa. pose proof (wf_fits b Wb) as Fb. unfold fits in Fa, Fb.
  unfold divmod_knuth. rewrite Ek.
  eapply wp_call; [apply allocate_spec; simpl; lia|]. intros pu Hpu.
  destruct (or_null_granted _ _ pu R I Hpu) as (u & -> & _).
  eapply wp_call; [apply allocate_spec; simpl; lia|]. intros pv Hpv.
  destruct (or_null_granted _ _ pv R I Hpv) as (v & -> & _).
  eapply wp_call; [apply bignum_alloc_spec; simpl; lia|]. intros pq Hpq.
  destruct (or_null_granted (fits (num_limbs a - num_limbs b + 1)) _ pq R
              ltac:(unfold fits; lia) Hpq) as (x & -> & -> & _).
  eapply (wp_call _ _ (fun y => sign y = 0)); [apply wp_deref; reflexivity|]. intros y Hy.
  eapply (wp_call _ _ (fun p => p = (ql, rl))); [apply wp_fuelled; reflexivity|]. intros p ->.
  eapply wp_call; [apply when_requested_spec; [exact R|]|].
  - apply (wp_check _ _ _ _ _ _ (bignum_alloc_spec (num_limbs b) ltac:(simpl; lia)));
      [auto|]. intros r [-> _]. apply wp_ret. exact Hr.
  - intros r Hr'. apply wp_ret. rewrite Hy. split; [destruct wq; simpl; eauto|exact Hr'].
Qed.

Lemma divmod_abs_spec a b wq wr :
  granted -> bignum_wf a -> bignum_wf b -> lval (limbs b) <> 0 ->
  wp (bignum_divmod_abs a b wq wr) (divmod_post (lval (limbs a)) (lval (limbs b)) wq wr).
Proof.
  intros R Wa Wb Hb. unfold bignum_divmod_abs. pose proof (wf_magnitude b Wb).
  pose proof (wf_nonempty b Wb). rewrite compare_abs_spec by assumption.
  destruct (Nat.eqb_spec (num_limbs b) 1) as [E1|E1]; [apply divmod_single_limb_spec; auto|].
  destruct (Z.ltb_spec (Z.sgn (lval (limbs a) - lval (limbs b))) 0);
    [apply divmod_smaller_spec; auto; lia|].
  case_cmp; [replace (lval (limbs a)) with (lval (limbs b)) by lia; apply divmod_equal_spec; auto; lia|].
  apply divmod_knuth_spec; auto; lia.
Qed.

(** Truncating division: [Z.quot] and [Z.rem]. *)
Lemma div_exact a b :
  granted -> bignum_wf a -> bignum_wf b -> bval b <> 0 ->
  wp (eshkol_bignum_div (Some a) (Some b))
    (fun r => exists q, r = Some q /\ denotes (Z.quot (bval a) (bval b)) q).
Proof.
  intros R Wa Wb Hb. unfold eshkol_bignum_div. rewrite is_zero_spec by assumption.
  destruct (Z.eqb_spec (bval b) 0) as [|_]; [contradiction|].
  pose proof (bval_abs a Wa) as Aa. pose proof (bval_abs b Wb) as Ab.
  eapply wp_call; [apply divmod_abs_spec; auto; lia|].
  intros [q r] [(x & Eq & Hx) _]. cbn [fst] in Eq. subst q. apply wp_ret.
  eexists. split; [reflexivity|].
  destruct (natural_exact _ _ Hx) as [Wx Vx]. rewrite is_zero_spec, Vx by exact Wx.
  set (m := lval (limbs a) / lval (limbs b)) in *.
  assert (Hq : Z.quot (bval a) (bval b) = Z.sgn (bval a) * Z.sgn (bval b) * m)
    by (subst m; rewrite Z.quot_div, Aa, Ab by lia; reflexivity).
  assert (Hm0 : bval a = 0 -> m = 0) by (intros E; subst m; rewrite <- Aa, E; reflexivity).
  set (s := if _ && _ then 1 else 0).
  replace (Z.quot (bval a) (bval b)) with (if s =? 0 then m else - m).
  - apply with_sign_exact; [exact Hx|]. subst s.
    destruct (sign a =? sign b), (Z.eqb_spec m 0); simpl; auto.
  - rewrite Hq. subst s. rewrite (bval_sign a Wa), (bval_sign b Wb). clearbody m.
    destruct (Z.eqb_spec m 0) as [->|]; [rewrite andb_false_r; simpl; lia|].
    destruct (Z.ltb_spec (bval a) 0), (Z.ltb_spec (bval b) 0); simpl; nia.
Qed.

Lemma mod_exact a b :
  granted -> bignum_wf a -> bignum_wf b -> bval b <> 0 ->
  wp (eshkol_bignum_mod (Some a) (Some b))
    (fun r => exists m, r = Some m /\ denotes (Z.rem (bval a) (bval b)) m).
Proof.
  intros R Wa Wb Hb. unfold eshkol_bignum_mod. rewrite is_zero_spec by assumption.
  destruct (Z.eqb_spec (bval b) 0) as [|_]; [contradiction|].
  pose proof (bval_abs a Wa) as Aa. pose proof (bval_abs b Wb) as Ab.
  eapply wp_call; [apply divmod_abs_spec; auto; lia|].
  intros [q r] [_ (x & Er & Hx)]. cbn [snd] in Er. subst r. apply wp_ret.
  eexists. split; [reflexivity|].
  destruct (natural_exact _ _ Hx) as [Wx Vx]. rewrite is_zero_spec, Vx by exact Wx.
  set (m := lval (limbs a) mod lval (limbs b)) in *.
  assert (Hr : Z.rem (bval a) (bval b) = Z.sgn (bval a) * m)
    by (subst m; rewrite Z.rem_mod, Aa, Ab by lia; reflexivity).
  assert (Hm0 : bval a = 0 -> m = 0) by (intros E; subst m; rewrite <- Aa, E; reflexivity).
  set (s := if _ && _ then 1 else 0).
  replace (Z.rem (bval a) (bval b)) with (if s =? 0 then m else - m).
  - apply with_sign_exact; [exact Hx|]. subst s.
    destruct (sign a =? 0), (Z.eqb_spec m 0); simpl; auto.
  - rewrite Hr. subst s. rewrite (bval_sign a Wa). clearbody m.
    destruct (Z.eqb_spec m 0) as [->|]; [rewrite andb_false_r; simpl; lia|].
    destruct (Z.ltb_spec (bval a) 0); simpl; nia.
Qed.

(** ** Machine-integer operands *)

Lemma op_int64_exact (op : option bignum -> option bignum -> M St (option bignum)) F P a v :
  int64_range v ->
  (forall b, bignum_wf b -> bval b = v -> wp (op (Some a) (Some b)) (or_null F P)) ->
  wp (check! bb := eshkol_bignum_from_int64 v in op (Some a) (Some bb)) (or_null F P).
Proof.
  intros Hv Hop. apply (wp_check _ _ _ _ _ _ (from_int64_exact v Hv)); [auto|].
  intros b [Wb Vb]. apply Hop; assumption.
Qed.

(** An [int64_t] has one limb. *)
Lemma int64_one_limb b : bignum_wf b -> Z.abs (bval b) < B64 -> num_limbs b = 1%nat.
Proof.
  intros W Hb. rewrite bval_abs in Hb by exact W. pose proof (wf_nonempty b W).
  destruct (Nat.leb_spec (num_limbs b) 1); [lia|exfalso].
  pose proof (canonical_lower _ (wf_limbs b W) (wf_canonical b W) ltac:(unfold num_limbs in *; lia)) as Hl.
  pose proof (bpow_pos (length (limbs b) - 2)) as Hp. unfold num_limbs in *.
  replace (length (limbs b) - 1)%nat with (S (length (limbs b) - 2)) in Hl by lia.
  rewrite bpow_S in Hl. nia.
Qed.

Lemma from_overflow_exact a b op :
  int64_range a -> int64_range b -> 0 <= op <= 2 ->
  wp (eshkol_bignum_from_overflow a b op)
    (or_null True (denotes (if op =? 0 then a + b else if op =? 1 then a - b else a * b))).
Proof.
  intros Ha Hb Hop. unfold eshkol_bignum_from_overflow.
  assert (Hn : forall v x, int64_range v -> denotes v x -> num_limbs x = 1%nat).
  { intros v x Hv [Wx Vx]. apply int64_one_limb; [exact Wx|]. unfold int64_range in Hv. lia. }
  eapply wp_call; [apply from_int64_exact, Ha|]. intros pa Hpa.
  eapply wp_call; [apply from_int64_exact, Hb|]. intros pb Hpb.
  destruct pa as [xa|]; [|apply wp_ret; exact Hpa].
  destruct pb as [xb|]; [|apply wp_ret; exact Hpb]. cbn [or_null] in *.
  pose proof (Hn a xa Ha Hpa) as Na. pose proof (Hn b xb Hb Hpb) as Nb.
  destruct Hpa as [Wa Va], Hpb as [Wb Vb]. subst a b.
  destruct (Z.eqb_spec op 0); [|destruct (Z.eqb_spec op 1); [|destruct (Z.eqb_spec op 2); [|lia]]];
    (eapply wp_or_null_weaken;
      [|intros x Hx; exact Hx|first [apply add_exact|apply sub_exact|apply mul_exact]; assumption]);
    unfold fits; lia.
Qed.

(** ** Powers *)

(** A power of [base] has at most [num_limbs base] limbs per factor. *)
Lemma power_limbs base i x :
  bignum_wf base -> 0 <= i -> denotes (bval base ^ i) x ->
  Z.of_nat (num_limbs x) <= Z.max 1 (Z.of_nat (num_limbs base) * i).
Proof.
  intros Wb Hi [Wx Vx]. pose proof (wf_nonempty x Wx). unfold num_limbs in *.
  destruct (Nat.leb_spec (length (limbs x)) 1); [lia|].
  pose proof (canonical_lower _ (wf_limbs x Wx) (wf_canonical x Wx) ltac:(lia)) as Hlo.
  rewrite <- bval_abs, Vx, Z.abs_pow, bval_abs in Hlo by assumption.
  pose proof (lval_bound _ (wf_limbs base Wb)) as Hb. pose proof (wf_magnitude base Wb).
  assert (Hup : lval (limbs base) ^ i < bpow (length (limbs base)) ^ i \/ i = 0).
  { destruct (Z.eq_dec i 0); [auto|left]. apply Z.pow_lt_mono_l; lia. }
  destruct Hup as [Hup| ->]; [|rewrite Z.pow_0_r in Hlo;
    pose proof (bpow_pos (length (limbs x) - 2)) as Hp;
    replace (length (limbs x) - 1)%nat with (S (length (limbs x) - 2)) in Hlo by lia;
    rewrite bpow_S in Hlo; nia].
  rewrite (bpow_pow2 (length (limbs base))), <- Z.pow_mul_r in Hup by lia.
  rewrite bpow_pow2 in Hlo.
  assert (Hlt : 64 * Z.of_nat (length (limbs x) - 1) < 64 * Z.of_nat (length (limbs base)) * i)
    by (apply (Z.pow_lt_mono_r_iff 2); nia).
  nia.
Qed.

Lemma pow_loop_exact base exp fuel e i j result b :
  bignum_wf base -> 0 <= e < 2 ^ Z.of_nat fuel -> 0 <= i -> 1 <= j -> i + j * e = exp ->
  denotes (bval base ^ i) result -> denotes (bval base ^ j) b ->
  wp (pow_loop fuel e result b)
    (or_null (Z.of_nat (num_limbs base) * exp + 1 <= MAX_LIMBS) (denotes (bval base ^ exp))).
Proof.
  intros Wb. revert e i j result b.
  induction fuel as [|fuel IH]; intros e i j result b He Hi Hj Hexp Hr Hb; cbn [pow_loop];
    destruct (Z.gtb_spec e 0) as [Hpos|Hz];
    try (apply wp_ret; cbn [or_null]; replace exp with i by (replace e with 0 in Hexp by lia; lia); exact Hr).
  - simpl in He. lia.
  - pose proof (wf_nonempty base Wb) as Hnb.
    assert (Hfit : forall x y u v, 0 <= u -> 1 <= v -> u + v <= exp ->
              denotes (bval base ^ u) x -> denotes (bval base ^ v) y ->
              Z.of_nat (num_limbs base) * exp + 1 <= MAX_LIMBS -> fits (num_limbs x + num_limbs y)).
    { intros x y u v Hu Hv Huv Hx Hy HF. pose proof (power_limbs base u x Wb Hu Hx).
      pose proof (power_limbs base v y Wb ltac:(lia) Hy). unfold fits. nia. }
    set (k := if Z.land e 1 =? 1 then 1 else 0).
    assert (Hk : e = 2 * Z.shiftr e 1 + k).
    { subst k. rewrite land_1, Z.shiftr_div_pow2 by lia. change (2 ^ 1) with 2.
      pose proof (Z.div_mod e 2). pose proof (Z.mod_pos_bound e 2). case_cmp; lia. }
    assert (Hsh : 0 <= Z.shiftr e 1) by (apply Z.shiftr_nonneg; lia).
    set (e' := Z.shiftr e 1) in *. clearbody e'.
    assert (Hk01 : 0 <= k <= 1) by (subst k; case_cmp; lia).
    assert (Hjk : i + j * k + 2 * (j * e') = exp) by (rewrite <- Hexp, Hk at 1; ring).
    assert (Hje : 0 < e' -> j <= j * e') by (clear - Hj; nia).
    assert (Hjk0 : 0 <= j * k) by (clear - Hj Hk01; nia).
    eapply (wp_check _ _ (Z.of_nat (num_limbs base) * exp + 1 <= MAX_LIMBS) (denotes (bval base ^ (i + j * k))));
      [|auto|].
    + subst k. destruct (Z.land e 1 =? 1).
      * rewrite Z.mul_1_r, Z.pow_add_r by lia. destruct Hr as [Wr Vr] eqn:?, Hb as [Wx Vx] eqn:?.
        rewrite <- Vr, <- Vx. eapply wp_or_null_weaken; [|intros z Hz; exact Hz|apply mul_exact; assumption].
        apply (Hfit result b i j); auto; nia.
      * rewrite Z.mul_0_r, Z.add_0_r. apply wp_ret. exact Hr.
    + intros result' Hr'. cbv zeta.
      eapply (wp_check _ _ (Z.of_nat (num_limbs base) * exp + 1 <= MAX_LIMBS)
                (fun b' => e' = 0 \/ denotes (bval base ^ (2 * j)) b')); [|auto|].
      * rewrite Z.gtb_ltb. destruct (Z.ltb_spec 0 e').
        -- replace (2 * j) with (j + j) by lia. rewrite Z.pow_add_r by lia.
           pose proof Hb as [Wx Vx]. rewrite <- Vx.
           eapply wp_or_null_weaken; [|intros z Hz; right; exact Hz|apply mul_exact; assumption].
           apply (Hfit b b j j); auto; lia.
        -- apply wp_ret. cbn [or_null]. left. lia.
      * intros b' Hb'. destruct (Z.eq_dec e' 0) as [Ez|Ez].
        -- rewrite Ez in *. destruct fuel; cbn [pow_loop]; cbn [Z.gtb Z.compare];
             apply wp_ret; cbn [or_null]; replace exp with (i + j * k) by lia; exact Hr'.
        -- destruct Hb' as [|Hb']; [contradiction|].
           apply (IH e' (i + j * k) (2 * j)); auto; try lia.
           rewrite Nat2Z.inj_succ, Z.pow_succ_r in He by lia. lia.
Qed.

Lemma pow_exact base exp :
  bignum_wf base -> 0 <= exp <= UINT64_MAX ->
  wp (eshkol_bignum_pow (Some base) exp)
    (or_null (Z.of_nat (num_limbs base) * exp + 1 <= MAX_LIMBS) (denotes (bval base ^ exp))).
Proof.
  intros Wb He. unfold eshkol_bignum_pow. eapply wp_call; [apply wp_is_null_arena|]. intros nl ->.
  assert (Hone : int64_range 1) by (unfold int64_range; lia).
  assert (Hcopy : forall one, denotes 1 one -> 1 <= exp ->
     wp (eshkol_bignum_mul (Some base) (Some one))
       (or_null (Z.of_nat (num_limbs base) * exp + 1 <= MAX_LIMBS) (denotes (bval base)))).
  { intros one [W1 V1] H1. pose proof (int64_one_limb one W1 ltac:(lia)) as N1.
    eapply wp_or_null_weaken; [| |apply mul_exact; assumption].
    - unfold fits. rewrite N1. nia.
    - intros x. rewrite V1, Z.mul_1_r. auto. }
  destruct (Z.eqb_spec exp 0) as [->|H0].
  { eapply wp_or_null_weaken; [| |apply from_int64_exact, Hone]; auto. }
  destruct (Z.eqb_spec exp 1) as [->|H1].
  - apply (wp_check _ _ _ _ _ _ (from_int64_exact 0 ltac:(unfold int64_range; lia))); [auto|]. intros _ _.
    eapply wp_call; [apply from_int64_exact, Hone|]. intros [one|] Hp.
    + rewrite Z.pow_1_r. apply Hcopy; [exact Hp|lia].
    + apply wp_ret. cbn [or_null] in *. auto.
  - eapply wp_call; [apply from_int64_exact, Hone|]. intros pr Hpr.
    eapply wp_call; [apply from_int64_exact, Hone|]. intros [one|] Hpo.
    + eapply wp_call; [apply (Hcopy one Hpo); lia|]. intros pb Hpb.
      destruct pr as [result|]; [|apply wp_ret; cbn [or_null] in *; auto].
      destruct pb as [b|]; [|apply wp_ret; cbn [or_null] in *; auto]. cbn [or_null] in *.
      apply (pow_loop_exact base exp 64 exp 0 1); auto; try lia.
      rewrite Z.pow_1_r. exact Hpb.
    + eapply (wp_call _ _ (fun r => r = None)); [apply wp_ret; reflexivity|]. intros pb ->.
      destruct pr; apply wp_ret; cbn [or_null] in *; auto.
Qed.

End Specs.

(** ** Canonical bignums are determined by their value *)

Lemma lval_inj la lb : limbs_ok la -> limbs_ok lb -> length la = length lb -> lval la = lval lb -> la = lb.
Proof.
  revert lb. induction la as [|x la IH]; intros [|y lb] Ha Hb Hl E; try discriminate; [reflexivity|].
  inversion Ha as [|? ? Hx Ha']; inversion Hb as [|? ? Hy Hb']; subst. unfold limb in Hx, Hy.
  cbn [lval] in E. assert (x = y /\ lval la = lval lb) as [-> E'] by lia.
  f_equal. apply IH; auto.
Qed.

Lemma canonical_length la lb :
  limbs_ok la -> canonical la -> canonical lb -> limbs_ok lb -> lval la = lval lb -> (length la <= length lb)%nat.
Proof.
  intros Ha Ca Cb Hb E. destruct (Nat.leb_spec (length la) (length lb)) as [|Hlt]; [assumption|exfalso].
  pose proof (lval_length_lt lb la Hb Ha (proj1 Cb) Ca Hlt). lia.
Qed.

Lemma bignum_inj a b : bignum_wf a -> bignum_wf b -> bval a = bval b -> a = b.
Proof.
  intros [La Ca Sa Za _] [Lb Cb Sb Zb _] E. unfold bval in E.
  pose proof (lval_nonneg _ La). pose proof (lval_nonneg _ Lb).
  assert (Hm : lval (limbs a) = lval (limbs b)) by (destruct Sa as [Ea|Ea], Sb as [Eb|Eb]; rewrite Ea, Eb in E; cbn in E; lia).
  assert (Hs : sign a = sign b)
    by (destruct (Z.eq_dec (lval (limbs a)) 0); [rewrite Za, Zb; lia|];
        destruct Sa as [Ea|Ea], Sb as [Eb|Eb]; rewrite Ea, Eb in *; cbn in E; lia).
  pose proof (canonical_length _ _ La Ca Cb Lb Hm). pose proof (canonical_length _ _ Lb Cb Ca La (eq_sym Hm)).
  destruct a as [sa la], b as [sb lb]. cbn in *. subst sb. f_equal. apply lval_inj; auto. lia.
Qed.
