(* ===== verification/Arena.v ===== *)
(** * The arena allocator: lib/core/runtime_arena_core.cpp and
      lib/core/runtime_object_alloc.cpp

    A chain of blocks obtained from [malloc], the newest first, a stack of scope
    marks, and bump allocation in the newest block.  Addresses are 64-bit
    numbers; the bytes themselves are not modelled, so neither is the optional
    poisoning of released memory, nor the mutex of thread-safe arenas (one thread
    runs at a time here).  [malloc] and [free] are the C library's: a parameter
    with its documented contract. *)

From Stdlib Require Import ZArith List Lia Bool.
From S2P Require Import Prelude Effects.
Import ListNotations.
Open Scope Z_scope.

(** ** The C library's heap *)

(** Two address ranges do not overlap. *)
Definition disjoint_ranges (p n q m : Z) : Prop := p + n <= q \/ q + m <= p.

Class Malloc (H : Type) : Type := {
  malloc : Z -> H -> option Z * H;
  free : Z -> H -> H;
  (** ranges handed out and not yet freed *)
  live : H -> list (Z * Z);
}.

(** What the C library documents: a range handed out lies in user space (the
    lower half of the address space), does not start at null and overlaps no live
    range; a refused request changes nothing; [free] ends the life of the ranges at
    that address and of no other. *)
Class MallocLaws (H : Type) {HM : Malloc H} : Type := {
  malloc_some : forall n h p h', 0 < n -> malloc n h = (Some p, h') ->
    live h' = (p, n) :: live h /\ 0 < p /\ p + n < 2 ^ 63 /\
    (forall q m, In (q, m) (live h) -> disjoint_ranges p n q m);
  malloc_none : forall n h h', malloc n h = (None, h') -> live h' = live h;
  free_live : forall p h, live (free p h) = filter (fun r => negb (fst r =? p)) (live h);
}.

(** ** Data *)

(** [arena_block_t]; [blk_ptr] is the address of the struct itself, by which
    the source compares blocks.  The [next] links are the order of the list. *)
Record block : Type := mkBlock {
  blk_ptr : Z; blk_memory : Z; blk_size : Z; blk_used : Z;
}.

Definition with_used (b : block) (u : Z) : block :=
  mkBlock (blk_ptr b) (blk_memory b) (blk_size b) u.

(** [arena_scope_t], with its own address; the [parent] links are the order of
    the list. *)
Record scope : Type := mkScope { sc_ptr : Z; sc_block : Z; sc_used : Z }.

(** [arena_t], with its own address. *)
Record arena : Type := mkArena {
  ar_ptr : Z;
  ar_blocks : list block;      (* current_block first *)
  ar_scopes : list scope;      (* current_scope first *)
  ar_default_block_size : Z;
  ar_total_allocated : Z;
  ar_bounded : bool;
}.

Definition DEFAULT_ALIGNMENT : Z := 8.
Abbreviation SIZE_MAX := 18446744073709551615 (only parsing).

(** [sizeof] of the structs the allocator itself requests. *)
Definition sizeof_arena_block : Z := 32.
Definition sizeof_arena_scope : Z := 24.
Definition sizeof_arena : Z := 56.
Definition sizeof_object_header : Z := 8.

(** ** Arithmetic *)

Definition align_mask (alignment : Z) : Z := u64 (Z.lnot (u64 (alignment - 1))).

Definition align_size (size alignment : Z) : Z :=
  Z.land (u64 (u64 (size + alignment) - 1)) (align_mask alignment).

Definition align_block_offset (b : block) (used alignment : Z) : Z :=
  let raw_addr := u64 (blk_memory b + used) in
  let aligned_addr := Z.land (u64 (u64 (raw_addr + alignment) - 1)) (align_mask alignment) in
  u64 (aligned_addr - blk_memory b).

(** ** Operations *)

Section Operations.
  Context {H : Type} {HM : Malloc H}.

Definition create_arena_block (size : Z) (h : H) : option block * H :=
  match malloc sizeof_arena_block h with
  | (None, h1) => (None, h1)
  | (Some bp, h1) =>
    match malloc size h1 with
    | (None, h2) => (None, free bp h2)
    | (Some mem, h2) => (Some (mkBlock bp mem size 0), h2)
    end
  end.

Definition free_arena_block (b : block) (h : H) : H := free (blk_ptr b) (free (blk_memory b) h).

Definition arena_create (default_block_size : Z) (h : H) : option arena * H :=
  let default_block_size := if default_block_size <? 1024 then 1024 else default_block_size in
  match malloc sizeof_arena h with
  | (None, h1) => (None, h1)
  | (Some ap, h1) =>
    match create_arena_block default_block_size h1 with
    | (None, h2) => (None, free ap h2)
    | (Some b, h2) =>
      (Some (mkArena ap [b] [] default_block_size default_block_size false), h2)
    end
  end.

Definition arena_create_bounded (capacity : Z) (h : H) : option arena * H :=
  let capacity := if capacity <? 1024 then 1024 else capacity in
  match arena_create capacity h with
  | (None, h1) => (None, h1)
  | (Some a, h1) =>
    (Some (mkArena (ar_ptr a) (ar_blocks a) (ar_scopes a) (ar_default_block_size a)
                   (ar_total_allocated a) true), h1)
  end.

(** [arena_destroy]: every block, every scope record, then the arena itself. *)
Definition arena_destroy (a : arena) (h : H) : H :=
  let h := fold_left (fun h b => free_arena_block b h) (ar_blocks a) h in
  let h := fold_left (fun h sc => free (sc_ptr sc) h) (ar_scopes a) h in
  free (ar_ptr a) h.

(** The bump at the end of [arena_allocate_aligned], in the newest block. *)
Definition bump (a : arena) (b : block) (older : list block) (total offset aligned_size : Z)
  : option Z * arena :=
  (Some (u64 (blk_memory b + offset)),
   mkArena (ar_ptr a) (with_used b (u64 (offset + aligned_size)) :: older) (ar_scopes a)
           (ar_default_block_size a) total (ar_bounded a)).

Definition arena_allocate_aligned (a : arena) (size alignment : Z) (h : H)
  : option Z * arena * H :=
  if size =? 0 then (None, a, h)
  else
    let alignment := if alignment =? 0 then DEFAULT_ALIGNMENT else alignment in
    if negb (Z.land alignment (u64 (alignment - 1)) =? 0) then (None, a, h)
    else if size >? SIZE_MAX - (alignment - 1) then (None, a, h)
    else
      let aligned_size := align_size size alignment in
      if aligned_size >? SIZE_MAX - (alignment - 1) then (None, a, h)
      else
        match ar_blocks a with
        | [] => (None, a, h)       (* an arena always has a block *)
        | b :: older =>
          let current_used := align_block_offset b (blk_used b) alignment in
          if u64 (current_used + aligned_size) >? blk_size b then
            if ar_bounded a then (None, a, h)
            else
              let min_block_size := u64 (u64 (aligned_size + alignment) - 1) in
              let new_block_size :=
                if min_block_size >? ar_default_block_size a
                then min_block_size else ar_default_block_size a in
              match create_arena_block new_block_size h with
              | (None, h') => (None, a, h')
              | (Some nb, h') =>
                (bump a nb (b :: older) (u64 (ar_total_allocated a + new_block_size))
                      (align_block_offset nb 0 alignment) aligned_size, h')
              end
          else (bump a b older (ar_total_allocated a) current_used aligned_size, h)
        end.

(** Blocks allocated after a mark: those before the marked block in the chain. *)
Fixpoint blocks_from (p : Z) (l : list block) : list block :=
  match l with
  | [] => []
  | b :: l' => if blk_ptr b =? p then l else blocks_from p l'
  end.

(** The release loop of [arena_pop_scope] (and [arena_reset]): frees blocks
    until the one at [p]. *)
Fixpoint release_until (p : Z) (l : list block) (total : Z) (h : H) : Z * H :=
  match l with
  | [] => (total, h)
  | b :: l' =>
    if blk_ptr b =? p then (total, h)
    else release_until p l' (u64 (total - blk_size b)) (free_arena_block b h)
  end.

(** The scope struct is allocated with [malloc]; when that fails no scope is
    pushed. *)
Definition arena_push_scope (a : arena) (h : H) : arena * H :=
  match malloc sizeof_arena_scope h with
  | (None, h') => (a, h')
  | (Some sp, h') =>
    match ar_blocks a with
    | [] => (a, h')            (* an arena always has a block *)
    | b :: _ =>
      (mkArena (ar_ptr a) (ar_blocks a) (mkScope sp (blk_ptr b) (blk_used b) :: ar_scopes a)
               (ar_default_block_size a) (ar_total_allocated a) (ar_bounded a), h')
    end
  end.

(** The chain as [arena_pop_scope] leaves it: the marked block is the current
    one again, filled as far as it was at the mark. *)
Definition rewind (sc : scope) (l : list block) : list block :=
  match blocks_from (sc_block sc) l with
  | b :: older => with_used b (sc_used sc) :: older
  | [] => []
  end.

Definition arena_pop_scope (a : arena) (h : H) : arena * H :=
  match ar_scopes a with
  | [] => (a, h)
  | sc :: parents =>
    let '(total, h') := release_until (sc_block sc) (ar_blocks a) (ar_total_allocated a) h in
    (mkArena (ar_ptr a) (rewind sc (ar_blocks a)) parents (ar_default_block_size a) total
             (ar_bounded a),
     free (sc_ptr sc) h')
  end.

Definition arena_commit_scope (a : arena) (h : H) : arena * H :=
  match ar_scopes a with
  | [] => (a, h)
  | sc :: parents =>
    (mkArena (ar_ptr a) (ar_blocks a) parents (ar_default_block_size a) (ar_total_allocated a)
             (ar_bounded a),
     free (sc_ptr sc) h)
  end.

End Operations.

(** [arena_top_scope_contains]'s loop over the chain. *)
Fixpoint top_scope_scan (sc : scope) (l : list block) (p : Z) : bool :=
  match l with
  | [] => false
  | b :: l' =>
    if blk_ptr b =? sc_block sc then
      (p >=? blk_memory b + sc_used sc) && (p <? blk_memory b + blk_used b)
    else if (p >=? blk_memory b) && (p <? blk_memory b + blk_used b) then true
    else top_scope_scan sc l' p
  end.

Definition arena_top_scope_contains (a : arena) (p : Z) : bool :=
  match ar_scopes a with
  | [] => false
  | sc :: _ => if p =? 0 then false else top_scope_scan sc (ar_blocks a) p
  end.

(** The escape test of [eshkol_arena_iter_scope_end] on (type tag, payload)
    pairs: immediates (tags up to [ESHKOL_VALUE_CHAR] = 4 and the eof tag) carry no
    pointer. *)
Definition value_escapes (a : arena) (v : Z * Z) : bool :=
  let '(t, p) := v in
  if (t <=? 4) || (t =? 255) then false
  else negb (p =? 0) && arena_top_scope_contains a p.

Definition eshkol_arena_iter_scope_end {H} {HM : Malloc H} (a : arena) (vals : list (Z * Z)) (h : H)
  : arena * H :=
  match ar_scopes a with
  | [] => (a, h)
  | _ =>
    if existsb (value_escapes a) vals then arena_commit_scope a h
    else arena_pop_scope a h
  end.

(** [arena_reset]: only the oldest block is kept, empty, and all scopes go.
    [total_allocated] drops by the sizes released. *)
Definition arena_reset {H} {HM : Malloc H} (a : arena) (h : H) : arena * H :=
  match ar_blocks a with
  | [] => (a, h)               (* an arena always has a block *)
  | b :: _ =>
    let first_block := last (ar_blocks a) b in
    let '(total, h') :=
      release_until (blk_ptr first_block) (ar_blocks a) (ar_total_allocated a) h in
    (mkArena (ar_ptr a) [with_used first_block 0] [] (ar_default_block_size a) total
             (ar_bounded a),
     fold_left (fun h sc => free (sc_ptr sc) h) (ar_scopes a) h')
  end.

Definition arena_get_used_memory (a : arena) : Z :=
  fold_left (fun u b => u64 (u + blk_used b)) (ar_blocks a) 0.

Definition arena_get_total_memory (a : arena) : Z := ar_total_allocated a.

Definition arena_get_block_count (a : arena) : Z :=
  fold_left (fun c (_ : block) => u64 (c + 1)) (ar_blocks a) 0.

(** ** Allocation through a nullable arena pointer, and object headers *)

(** [eshkol_object_header_t], the 8 bytes before an object's data. *)
Record object_header : Type := mkHeader {
  hdr_subtype : Z; hdr_flags : Z; hdr_ref_count : Z; hdr_size : Z;
}.

(** The state an allocating call acts on: the arena pointer it was given, the C
    heap, and the headers written so far (newest first) by address. *)
Record runtime (H : Type) : Type := mkRuntime {
  rt_arena : option arena;
  rt_heap : H;
  rt_headers : list (Z * object_header);
}.
Arguments mkRuntime {H}.
Arguments rt_arena {H}.
Arguments rt_heap {H}.
Arguments rt_headers {H}.

(** [ESHKOL_GET_HEADER]: the header of the object whose data is at [p]. *)
Definition get_header {H} (p : Z) (s : runtime H) : option object_header :=
  match find (fun e => fst e =? p - sizeof_object_header) (rt_headers s) with
  | Some (_, hd) => Some hd
  | None => None
  end.

Definition HEAP_SUBTYPE_CONS : Z := 0.
Definition HEAP_SUBTYPE_STRING : Z := 1.
Definition HEAP_SUBTYPE_VECTOR : Z := 2.
Definition HEAP_SUBTYPE_MULTI_VALUE : Z := 4.
Definition HEAP_SUBTYPE_SYMBOL : Z := 10.
Definition sizeof_tagged_value : Z := 16.

Section Objects.
  Context {H : Type} {HM : Malloc H}.

Definition allocate_aligned (size alignment : Z) (s : runtime H) : option Z * runtime H :=
  match rt_arena s with
  | None => (None, s)
  | Some a =>
    let '(p, a', h') := arena_allocate_aligned a size alignment (rt_heap s) in
    (p, mkRuntime (Some a') h' (rt_headers s))
  end.

Definition arena_allocate_raw (size : Z) (s : runtime H) : option Z * runtime H :=
  allocate_aligned size DEFAULT_ALIGNMENT s.

Definition arena_allocate_cons_cell (s : runtime H) : option Z * runtime H :=
  allocate_aligned 16 8 s.

Definition arena_allocate_list_node (element_size count : Z) (s : runtime H)
  : option Z * runtime H :=
  if negb (count =? 0) && (element_size >? SIZE_MAX / count) then (None, s)
  else arena_allocate_raw (u64 (element_size * count)) s.

(** Writes the header at the start of a fresh allocation and returns the
    address of the data after it. *)
Definition put_header (r : option Z * runtime H) (hd : object_header) : option Z * runtime H :=
  match r with
  | (None, s) => (None, s)
  | (Some raw, s) =>
    (Some (u64 (raw + sizeof_object_header)),
     mkRuntime (rt_arena s) (rt_heap s) ((raw, hd) :: rt_headers s))
  end.

(** [(n + k - 1) & ~(k - 1)], as the object allocators round a size. *)
Definition round_up (n k : Z) : Z := Z.land (u64 (n + (k - 1))) (u64 (Z.lnot (k - 1))).

Definition object_with_header (data_size subtype flags : Z) (s : runtime H)
  : option Z * runtime H :=
  match rt_arena s with
  | None => (None, s)
  | Some _ =>
    if data_size =? 0 then (None, s)
    else if data_size >? SIZE_MAX - sizeof_object_header - 8 then (None, s)
    else if data_size >? UINT32_MAX then (None, s)
    else
      let total_size := round_up (u64 (sizeof_object_header + data_size)) 8 in
      put_header (allocate_aligned total_size 8 s) (mkHeader subtype flags 0 (u32 data_size))
  end.

Definition arena_allocate_multi_value (count : Z) (s : runtime H) : option Z * runtime H :=
  if count >? (SIZE_MAX - 8) / sizeof_tagged_value then (None, s)
  else object_with_header (u64 (8 + u64 (count * sizeof_tagged_value))) HEAP_SUBTYPE_MULTI_VALUE 0 s.

Definition arena_allocate_cons_with_header (s : runtime H) : option Z * runtime H :=
  put_header (allocate_aligned (sizeof_object_header + 2 * sizeof_tagged_value) 16 s)
    (mkHeader HEAP_SUBTYPE_CONS 0 0 (2 * sizeof_tagged_value)).

Definition string_with_header (length : Z) (s : runtime H) : option Z * runtime H :=
  match rt_arena s with
  | None => (None, s)
  | Some _ =>
    if length >=? SIZE_MAX - sizeof_object_header - 8 then (None, s)
    else
      let data_size := u64 (length + 1) in
      let total := round_up (u64 (sizeof_object_header + data_size)) 8 in
      put_header (allocate_aligned total 8 s) (mkHeader HEAP_SUBTYPE_STRING 0 0 (u32 data_size))
  end.

Definition arena_allocate_vector_with_header (capacity : Z) (s : runtime H)
  : option Z * runtime H :=
  match rt_arena s with
  | None => (None, s)
  | Some _ =>
    if capacity >? (SIZE_MAX - 8 - sizeof_object_header) / sizeof_tagged_value then (None, s)
    else
      let data_size := u64 (8 + u64 (capacity * sizeof_tagged_value)) in
      let total := round_up (u64 (sizeof_object_header + data_size)) 16 in
      put_header (allocate_aligned total 16 s) (mkHeader HEAP_SUBTYPE_VECTOR 0 0 (u32 data_size))
  end.

(** No overflow guard here: a length close to [SIZE_MAX] wraps. *)
Definition arena_allocate_symbol_with_header (length : Z) (s : runtime H)
  : option Z * runtime H :=
  match rt_arena s with
  | None => (None, s)
  | Some _ =>
    let data_size := u64 (u64 (8 + length) + 1) in
    let total := round_up (u64 (sizeof_object_header + data_size)) 8 in
    put_header (allocate_aligned total 8 s) (mkHeader HEAP_SUBTYPE_SYMBOL 0 0 (u32 data_size))
  end.

#[export] Instance runtime_arena : Arena (runtime H) := {
  arena_is_null := fun s => match rt_arena s with None => true | Some _ => false end;
  arena_allocate := arena_allocate_raw;
  arena_allocate_with_header := object_with_header;
  arena_allocate_string_with_header := string_with_header;
  arena_allocate_cons := arena_allocate_cons_with_header;
}.

End Objects.
