(* ===== verification/ArenaSpec.v ===== *)
(** * Correctness of the arena allocator

    The well-formedness invariant of an arena over the C heap, its preservation
    by every operation, the geometry of the memory handed out (aligned, inside a
    block, disjoint from everything handed out before), exact restoration of a
    scope, and the instance of the arena interface of [Effects]. *)

From Stdlib Require Import ZArith List Lia Bool Permutation.
From S2P Require Import Prelude Effects Arena.
Import ListNotations.
Open Scope Z_scope.

(** ** Alignment arithmetic *)

(** The power-of-two test [(x & (x - 1)) == 0]. *)
Lemma power_of_two_test x :
  0 < x < B64 -> Z.land x (u64 (x - 1)) = 0 -> exists k, 0 <= k /\ x = 2 ^ k.
Proof.
  intros Hx Hl. rewrite u64_small in Hl by lia.
  exists (Z.log2 x). pose proof (Z.log2_nonneg x) as Hk. split; [exact Hk|].
  destruct (Z.log2_spec x ltac:(lia)) as [Hlo Hhi].
  destruct (Z.eq_dec x (2 ^ Z.log2 x)) as [|Hne]; [assumption|exfalso].
  assert (Hb : Z.testbit (x - 1) (Z.log2 x) = true).
  { rewrite <- (Z.log2_unique (x - 1) (Z.log2 x)) at 1 by lia. apply Z.bit_log2. lia. }
  assert (Z.testbit (Z.land x (x - 1)) (Z.log2 x) = true)
    by (rewrite Z.land_spec, Z.bit_log2, Hb by lia; reflexivity).
  rewrite Hl, Z.bits_0 in H. discriminate.
Qed.

(** Clearing the low bits of a word. *)
Lemma land_align_mask y k :
  0 <= y < B64 -> 0 <= k < 64 -> Z.land y (align_mask (2 ^ k)) = 2 ^ k * (y / 2 ^ k).
Proof.
  intros Hy Hk. pose proof (Z.pow_pos_nonneg 2 k ltac:(lia) ltac:(lia)).
  assert (Hlt : 2 ^ k < B64) by (rewrite <- pow2_64; apply Z.pow_lt_mono_r; lia).
  unfold align_mask. rewrite (u64_small (2 ^ k - 1)) by lia.
  replace (2 ^ k - 1) with (Z.ones k) by (rewrite Z.ones_equiv; lia).
  unfold u64. rewrite <- Z.land_ones by lia. rewrite Z.land_comm, <- Z.land_assoc.
  rewrite (Z.land_comm (Z.ones 64) y), Z.land_ones, Z.mod_small by (rewrite ?pow2_64; lia).
  rewrite Z.land_comm.
  rewrite <- Z.ldiff_land, Z.ldiff_ones_r, Z.shiftl_mul_pow2, Z.shiftr_div_pow2 by lia. lia.
Qed.

(** The smallest multiple of [al] that is not below [x]. *)
Definition align_up (x al : Z) : Z := al * ((x + al - 1) / al).

Lemma align_up_spec x al : 0 < al -> x <= align_up x al < x + al /\ align_up x al mod al = 0.
Proof.
  intros Ha. unfold align_up. split.
  - pose proof (Z.mod_pos_bound (x + al - 1) al Ha). pose proof (Z.div_mod (x + al - 1) al). lia.
  - rewrite Z.mul_comm. apply Z.mod_mul. lia.
Qed.

Lemma align_up_word x k :
  0 <= x -> 0 <= k < 64 -> x + 2 ^ k <= B64 ->
  Z.land (u64 (u64 (x + 2 ^ k) - 1)) (align_mask (2 ^ k)) = align_up x (2 ^ k).
Proof.
  intros Hx Hk Hb. pose proof (Z.pow_pos_nonneg 2 k ltac:(lia) ltac:(lia)).
  replace (u64 (u64 (x + 2 ^ k) - 1)) with (x + 2 ^ k - 1).
  - apply land_align_mask; lia.
  - unfold u64 at 1. unfold u64. rewrite Zminus_mod_idemp_l, Z.mod_small; rewrite ?pow2_64; lia.
Qed.

Lemma align_size_spec size k :
  0 <= size -> 0 <= k < 64 -> size + 2 ^ k <= B64 ->
  align_size size (2 ^ k) = align_up size (2 ^ k).
Proof. apply align_up_word. Qed.

Lemma align_block_offset_spec b used k :
  0 <= used -> 0 < blk_memory b -> blk_memory b + used < 2 ^ 63 -> 0 <= k <= 61 ->
  align_block_offset b used (2 ^ k) = align_up (blk_memory b + used) (2 ^ k) - blk_memory b.
Proof.
  intros Hu Hm Hb Hk. change (2 ^ 63) with 9223372036854775808 in Hb.
  pose proof (Z.pow_le_mono_r 2 k 61 ltac:(lia) ltac:(lia)) as Hp.
  change (2 ^ 61) with 2305843009213693952 in Hp.
  pose proof (Z.pow_pos_nonneg 2 k ltac:(lia) ltac:(lia)).
  unfold align_block_offset. rewrite (u64_small (blk_memory b + used)) by lia.
  rewrite align_up_word by lia.
  pose proof (align_up_spec (blk_memory b + used) (2 ^ k) ltac:(lia)).
  apply u64_small. lia.
Qed.

(** The object allocators' rounding is the same function. *)
Lemma round_up_spec n k :
  0 <= n -> 0 <= k < 64 -> n + 2 ^ k <= B64 -> round_up n (2 ^ k) = align_up n (2 ^ k).
Proof.
  intros Hn Hk Hb. rewrite <- align_up_word by lia. unfold round_up, align_mask.
  pose proof (Z.pow_pos_nonneg 2 k ltac:(lia) ltac:(lia)).
  assert (2 ^ k < B64) by (rewrite <- pow2_64; apply Z.pow_lt_mono_r; lia).
  f_equal; [|rewrite (u64_small (2 ^ k - 1)) by lia; reflexivity].
  unfold u64. rewrite Zminus_mod_idemp_l. f_equal. lia.
Qed.

(** ** Block chains and scopes *)

(** The byte ranges handed out so far, one per block. *)
Definition used_range (b : block) : Z * Z := (blk_memory b, blk_used b).

(** [n] bytes at [p] lie in the used part of some block. *)
Definition in_used (l : list block) (p n : Z) : Prop :=
  exists b, In b l /\ blk_memory b <= p /\ p + n <= blk_memory b + blk_used b.

Definition block_ok (b : block) : Prop := 0 <= blk_used b <= blk_size b.

(** The chain before the block at [p]. *)
Fixpoint blocks_before (p : Z) (l : list block) : list block :=
  match l with
  | [] => []
  | b :: l' => if blk_ptr b =? p then [] else b :: blocks_before p l'
  end.

Lemma blocks_split p l : l = blocks_before p l ++ blocks_from p l.
Proof. induction l as [|b l IH]; simpl; [reflexivity|]. case_cmp; simpl; congruence. Qed.

Lemma blocks_from_head p l b older : blocks_from p l = b :: older -> blk_ptr b = p.
Proof.
  induction l as [|c l IH]; simpl; [discriminate|]. case_cmp; [|exact IH].
  intros [= <- <-]. assumption.
Qed.

(** Every scope marks a block of the chain at a fill level it still has, and
    its parents do so in the chain it will leave behind. *)
Fixpoint scopes_ok (l : list block) (scs : list scope) : Prop :=
  match scs with
  | [] => True
  | sc :: parents =>
    (exists b older, blocks_from (sc_block sc) l = b :: older /\ 0 <= sc_used sc <= blk_used b) /\
    scopes_ok (rewind sc l) parents
  end.

(** How allocation changes the chain: the newest block fills up, or a new block
    is put in front. *)
Inductive grows : list block -> list block -> Prop :=
| grows_fill b older u : blk_used b <= u -> grows (b :: older) (with_used b u :: older)
| grows_block nb l : ~ In (blk_ptr nb) (map blk_ptr l) -> grows l (nb :: l).

Lemma in_used_grows l l' p n : grows l l' -> in_used l p n -> in_used l' p n.
Proof.
  intros [b older u Hu|nb k _] (c & Hc & H1 & H2).
  - destruct Hc as [<-|Hc].
    + exists (with_used b u). simpl. split; [auto|lia].
    + exists c. simpl. auto.
  - exists c. simpl. auto.
Qed.

Lemma blocks_from_In p l b older : blocks_from p l = b :: older -> In p (map blk_ptr l).
Proof.
  intros E. rewrite <- (blocks_from_head _ _ _ _ E). apply in_map.
  rewrite (blocks_split p l), E. apply in_or_app. simpl. auto.
Qed.

(** Allocation changes nothing a pending scope will restore. *)
Lemma rewind_grows l l' sc :
  grows l l' -> In (sc_block sc) (map blk_ptr l) -> rewind sc l' = rewind sc l.
Proof.
  intros [b older u Hu|nb k Hnb] Hin; unfold rewind; simpl.
  - case_cmp; reflexivity.
  - destruct (Z.eqb_spec (blk_ptr nb) (sc_block sc)) as [E|]; [|reflexivity].
    rewrite E in Hnb. contradiction.
Qed.

Lemma scopes_ok_grows l l' scs : grows l l' -> scopes_ok l scs -> scopes_ok l' scs.
Proof.
  destruct scs as [|sc parents]; [auto|]. intros Hg [(b & older & E & Hu) Hp]. split.
  - destruct Hg as [c k u Hcu|nb k Hnb]; simpl in *.
    + destruct (Z.eqb_spec (blk_ptr c) (sc_block sc)).
      * injection E as <- <-. exists (with_used c u), k. simpl. split; [reflexivity|lia].
      * exists b, older. auto.
    + destruct (Z.eqb_spec (blk_ptr nb) (sc_block sc)) as [En|].
      * apply blocks_from_In in E. rewrite En in Hnb. contradiction.
      * exists b, older. auto.
  - rewrite (rewind_grows _ _ _ Hg); [exact Hp|]. exact (blocks_from_In _ _ _ _ E).
Qed.

(** The rewound chain grows back, so the parents of a discarded scope are still
    marks of the chain. *)
Lemma grows_prefix l0 l scs :
  NoDup (map blk_ptr (l0 ++ l)) -> scopes_ok l scs -> scopes_ok (l0 ++ l) scs.
Proof.
  induction l0 as [|b l0 IH]; [auto|]. simpl. intros Hnd Hs. inversion Hnd as [|? ? Hnb Hnd']; subst.
  apply (scopes_ok_grows (l0 ++ l)); [constructor; exact Hnb|auto].
Qed.

Lemma scopes_ok_rewound l sc scs :
  NoDup (map blk_ptr l) -> scopes_ok l (sc :: scs) -> scopes_ok l scs.
Proof.
  intros Hnd [(b & older & E & Hu) Hp]. rewrite (blocks_split (sc_block sc) l) in *.
  assert (E2 : blocks_from (sc_block sc) (blocks_before (sc_block sc) l ++ blocks_from (sc_block sc) l)
               = blocks_from (sc_block sc) l) by (rewrite <- blocks_split; reflexivity).
  unfold rewind in Hp. rewrite E2 in *. rewrite E in *. apply grows_prefix; [exact Hnd|].
  eapply scopes_ok_grows; [|exact Hp].
  replace b with (with_used (with_used b (sc_used sc)) (blk_used b)) at 2 by (destruct b; reflexivity).
  constructor. simpl. lia.
Qed.

(** The rewound chain is part of the current one. *)
Lemma in_used_rewind l sc p n :
  scopes_ok l [sc] -> in_used (rewind sc l) p n -> in_used l p n.
Proof.
  intros [(b & older & E & Hu) _] (c & Hc & H1 & H2). unfold rewind in Hc. rewrite E in Hc.
  rewrite (blocks_split (sc_block sc) l), E. destruct Hc as [<-|Hc]; [simpl in *|].
  - exists b. split; [apply in_or_app; simpl; auto|lia].
  - exists c. split; [apply in_or_app; simpl; auto|lia].
Qed.

(** ** The C heap seen from an arena *)

Definition range_disjoint (r s : Z * Z) : Prop := disjoint_ranges (fst r) (snd r) (fst s) (snd s).

Definition block_regions (b : block) : list (Z * Z) :=
  [(blk_ptr b, sizeof_arena_block); (blk_memory b, blk_size b)].

Definition scope_region (sc : scope) : Z * Z := (sc_ptr sc, sizeof_arena_scope).

(** Everything an arena obtained from [malloc] and has not freed. *)
Definition regions (a : arena) : list (Z * Z) :=
  (ar_ptr a, sizeof_arena) ::
  map scope_region (ar_scopes a) ++ flat_map block_regions (ar_blocks a).

Definition total_size (l : list block) : Z := fold_right (fun b t => blk_size b + t) 0 l.

Section Heap.
  Context {H : Type} {HM : Malloc H} {ML : MallocLaws H}.

(** Live ranges are in user space and do not overlap. *)
Record heap_ok (h : H) : Prop := {
  heap_range : forall p n, In (p, n) (live h) -> 0 < p /\ 0 < n /\ p + n < 2 ^ 63;
  heap_disjoint : forall r s, In r (live h) -> In s (live h) -> r = s \/ range_disjoint r s;
}.

(** The ranges [rs] are owned: distinct and live. *)
Definition owned (h : H) (rs : list (Z * Z)) : Prop :=
  NoDup (map fst rs) /\ forall r, In r rs -> In r (live h).

(** Exactly the ranges that start at [ps] were freed. *)
Definition drops (ps : list Z) (h h' : H) : Prop :=
  forall r, In r (live h') <-> In r (live h) /\ ~ In (fst r) ps.

Lemma drops_nil h : drops [] h h.
Proof. intros r. simpl. intuition. Qed.

Lemma drops_free p h : drops [p] h (free p h).
Proof.
  intros r. rewrite free_live, filter_In. simpl. destruct (Z.eqb_spec (fst r) p); simpl;
    intuition congruence.
Qed.

Lemma drops_trans ps qs h1 h2 h3 : drops ps h1 h2 -> drops qs h2 h3 -> drops (ps ++ qs) h1 h3.
Proof. intros H1 H2 r. rewrite (H2 r), (H1 r), in_app_iff. intuition. Qed.

Lemma drops_equiv ps qs h h' : (forall p, In p ps <-> In p qs) -> drops ps h h' -> drops qs h h'.
Proof. intros He Hd r. rewrite (Hd r), (He (fst r)). reflexivity. Qed.

Lemma drops_free_arena_block b h :
  drops (map fst (block_regions b)) h (free_arena_block b h).
Proof.
  apply (drops_equiv ([blk_memory b] ++ [blk_ptr b])); [simpl; tauto|].
  eapply drops_trans; apply drops_free.
Qed.

Lemma heap_ok_drops ps h h' : heap_ok h -> drops ps h h' -> heap_ok h'.
Proof.
  intros [Hr Hd] Hp. split.
  - intros p n Hi. apply Hr. apply Hp in Hi. tauto.
  - intros r s Hi Hj. apply Hp in Hi, Hj. apply Hd; tauto.
Qed.

Lemma owned_drops h h' gone rs kept :
  owned h rs -> Permutation rs (gone ++ kept) -> drops (map fst gone) h h' -> owned h' kept.
Proof.
  intros [Hnd Hl] Hp Hd. apply (Permutation_NoDup (Permutation_map fst Hp)) in Hnd.
  rewrite map_app in Hnd. split; [exact (NoDup_app_remove_l _ _ Hnd)|].
  intros r Hr. apply Hd. split.
  - apply Hl. apply (Permutation_in r (Permutation_sym Hp)), in_or_app. auto.
  - intros Hin. revert Hnd. generalize (map fst gone), Hin. intros l Hl'.
    induction l as [|x l IH]; [contradiction|]. simpl. intros Hnd. inversion Hnd as [|? ? Hx Hnd']; subst.
    destruct Hl' as [->|Hl']; [|auto]. apply Hx, in_or_app. right. apply in_map, Hr.
Qed.

Lemma malloc_ok n h p h' :
  heap_ok h -> 0 < n -> malloc n h = (Some p, h') ->
  heap_ok h' /\ 0 < p /\ p + n < 2 ^ 63 /\
  (forall rs, owned h rs -> owned h' ((p, n) :: rs)).
Proof.
  intros [Hr Hd] Hn E. destruct (malloc_some n h p h' Hn E) as (El & Hp & Hb & Hdis).
  split; [split|split; [exact Hp|split; [exact Hb|]]].
  - intros q m. rewrite El. intros [[= <- <-]|Hi]; [lia|apply Hr, Hi].
  - intros r s. rewrite El. intros [<-|Hi] [<-|Hj]; auto.
    + right. destruct s. apply Hdis, Hj.
    + right. destruct r as [q m]. destruct (Hdis q m Hi) as [Hx|Hx]; [right|left]; exact Hx.
  - intros rs [Hnd Hl]. split; simpl.
    + constructor; [|exact Hnd]. intros Hin. apply in_map_iff in Hin.
      destruct Hin as ([q m] & E2 & Hq). simpl in E2. subst q. apply Hl in Hq.
      destruct (Hr p m Hq) as (_ & Hm & _). destruct (Hdis p m Hq); lia.
    + intros r. rewrite El. intros [<-|Hi]; [left; reflexivity|right; apply Hl, Hi].
Qed.

Lemma malloc_fails n h h' :
  malloc n h = (None, h') ->
  (heap_ok h -> heap_ok h') /\ (forall rs, owned h rs -> owned h' rs) /\
  (forall r, In r (live h') <-> In r (live h)).
Proof.
  intros E. apply malloc_none in E. split; [|split].
  - intros [Hr Hd]. split; rewrite E; assumption.
  - intros rs. unfold owned. rewrite E. auto.
  - rewrite E. reflexivity.
Qed.

(** ** The invariant *)

Record arena_wf (a : arena) (h : H) : Prop := {
  aw_heap : heap_ok h;
  aw_owned : owned h (regions a);
  aw_blocks : Forall block_ok (ar_blocks a);
  aw_nonempty : ar_blocks a <> [];
  aw_default : 1024 <= ar_default_block_size a < 2 ^ 63;
  aw_total : ar_total_allocated a = u64 (total_size (ar_blocks a));
  aw_bounded : ar_bounded a = true -> length (ar_blocks a) = 1%nat;
  aw_scopes : scopes_ok (ar_blocks a) (ar_scopes a);
}.

(** Facts on one block. *)
Lemma wf_block_geometry a h b :
  arena_wf a h -> In b (ar_blocks a) ->
  0 < blk_memory b /\ 0 <= blk_used b <= blk_size b /\ blk_memory b + blk_size b < 2 ^ 63.
Proof.
  intros W Hb. pose proof (proj1 (Forall_forall _ _) (aw_blocks _ _ W) b Hb) as Hok.
  assert (Hin : In (blk_memory b, blk_size b) (live h)).
  { apply (aw_owned _ _ W). right. apply in_or_app. right. apply in_flat_map. exists b. simpl. auto. }
  destruct (heap_range _ (aw_heap _ _ W) _ _ Hin). unfold block_ok in Hok. lia.
Qed.

Lemma NoDup_block_starts l : NoDup (map fst (flat_map block_regions l)) -> NoDup (map blk_ptr l).
Proof.
  induction l as [|b l IH]; simpl; [constructor|]. intros Hnd.
  inversion Hnd as [|? ? H1 Hnd']; subst. inversion Hnd' as [|? ? H2 Hnd2]; subst.
  constructor; [|auto]. intros Hin. apply H1. right. apply in_map_iff in Hin.
  destruct Hin as (c & E & Hc). rewrite <- E. apply in_map_iff.
  exists (blk_ptr c, sizeof_arena_block). split; [reflexivity|]. apply in_flat_map.
  exists c. simpl. auto.
Qed.

Lemma wf_block_ptrs a h : arena_wf a h -> NoDup (map blk_ptr (ar_blocks a)).
Proof.
  intros W. apply NoDup_block_starts. destruct (aw_owned _ _ W) as [Hnd _].
  simpl in Hnd. inversion Hnd as [|? ? _ Hnd']; subst. rewrite map_app in Hnd'.
  exact (NoDup_app_remove_l _ _ Hnd').
Qed.

(** Memory of different blocks does not overlap. *)
Lemma wf_blocks_disjoint a h b c :
  arena_wf a h -> In b (ar_blocks a) -> In c (ar_blocks a) ->
  b = c \/ disjoint_ranges (blk_memory b) (blk_size b) (blk_memory c) (blk_size c).
Proof.
  intros W Hb Hc.
  assert (Hin : forall d, In d (ar_blocks a) -> In (blk_memory d, blk_size d) (live h)).
  { intros d Hd. apply (aw_owned _ _ W). right. apply in_or_app. right. apply in_flat_map.
    exists d. simpl. auto. }
  destruct (Z.eq_dec (blk_memory b) (blk_memory c)) as [E|E].
  - left. destruct (aw_owned _ _ W) as [Hnd _]. simpl in Hnd. inversion Hnd as [|? ? _ Hnd']; subst.
    rewrite map_app in Hnd'. apply NoDup_app_remove_l in Hnd'.
    clear - E Hnd' Hb Hc. induction (ar_blocks a) as [|d l IH]; [contradiction|].
    simpl in Hnd'. inversion Hnd' as [|? ? H1 Hnd2]; subst. inversion Hnd2 as [|? ? H2 Hnd3]; subst.
    assert (Hx : forall e, In e l -> blk_memory e <> blk_memory d).
    { intros e He E2. apply H2. rewrite <- E2. apply in_map_iff.
      exists (blk_memory e, blk_size e). split; [reflexivity|]. apply in_flat_map.
      exists e. simpl. auto. }
    destruct Hb as [<-|Hb], Hc as [<-|Hc]; auto; [symmetry in E|];
      exfalso; eapply Hx; eauto.
  - right. destruct (heap_disjoint _ (aw_heap _ _ W) _ _ (Hin b Hb) (Hin c Hc)) as [E2|Hd]; [|exact Hd].
    congruence.
Qed.

(** ** Allocation *)

Lemma owned_perm h rs rs' : Permutation rs rs' -> owned h rs -> owned h rs'.
Proof.
  intros Hp [Hnd Hl]. split.
  - exact (Permutation_NoDup (Permutation_map fst Hp) Hnd).
  - intros r Hr. apply Hl, (Permutation_in r (Permutation_sym Hp)), Hr.
Qed.

Lemma create_arena_block_some size h nb h' :
  heap_ok h -> 0 < size -> create_arena_block size h = (Some nb, h') ->
  heap_ok h' /\ blk_size nb = size /\ blk_used nb = 0 /\ size < 2 ^ 63 /\
  (forall rs, owned h rs -> owned h' (block_regions nb ++ rs)).
Proof.
  intros Hh Hs. unfold create_arena_block.
  destruct (malloc sizeof_arena_block h) as [[bp|] h1] eqn:E1; [|discriminate].
  destruct (malloc size h1) as [[mem|] h2] eqn:E2; [|discriminate].
  intros [= <- <-].
  destruct (malloc_ok sizeof_arena_block _ _ _ Hh eq_refl E1) as (O1 & _ & _ & K1).
  destruct (malloc_ok _ _ _ _ O1 Hs E2) as (O2 & P2 & B2 & K2).
  split; [exact O2|]. split; [reflexivity|]. split; [reflexivity|]. split; [lia|].
  intros rs Hrs. eapply owned_perm; [apply perm_swap|]. apply K2, K1, Hrs.
Qed.

Lemma create_arena_block_none size h h' :
  heap_ok h -> create_arena_block size h = (None, h') ->
  heap_ok h' /\ (forall rs, owned h rs -> owned h' rs).
Proof.
  intros Hh. unfold create_arena_block.
  destruct (malloc sizeof_arena_block h) as [[bp|] h1] eqn:E1.
  - destruct (malloc_ok sizeof_arena_block _ _ _ Hh eq_refl E1) as (O1 & _ & _ & K1).
    destruct (malloc size h1) as [[mem|] h2] eqn:E2; [discriminate|]. intros [= <-].
    destruct (malloc_fails _ _ _ E2) as (F1 & F2 & _). split.
    + eapply heap_ok_drops; [apply F1, O1|apply drops_free].
    + intros rs Hrs.
      apply (owned_drops h2 _ [(bp, sizeof_arena_block)] ((bp, sizeof_arena_block) :: rs));
        [apply F2, K1, Hrs|apply Permutation_refl|apply drops_free].
  - intros [= <-]. destruct (malloc_fails _ _ _ E1) as (F1 & F2 & _). auto.
Qed.

(** The newest block may be filled further. *)
Lemma fill_wf p b older scs d t bd h u :
  arena_wf (mkArena p (b :: older) scs d t bd) h -> blk_used b <= u <= blk_size b ->
  arena_wf (mkArena p (with_used b u :: older) scs d t bd) h.
Proof.
  intros [W1 W2 W3 W4 W5 W6 W7 W8] Hu. cbn [ar_blocks ar_scopes ar_default_block_size ar_total_allocated ar_bounded] in *.
  constructor; cbn [ar_blocks ar_scopes ar_default_block_size ar_total_allocated ar_bounded]; auto.
  - inversion W3 as [|? ? Hb Hl]; subst. constructor; [|exact Hl]. unfold block_ok in *. simpl. lia.
  - discriminate.
  - apply (scopes_ok_grows (b :: older)); [constructor; lia|exact W8].
Qed.

(** A new block may be put in front of the chain of an unbounded arena. *)
Lemma new_block_wf a h nb h' n :
  arena_wf a h -> ar_bounded a = false -> 0 < n ->
  create_arena_block n h = (Some nb, h') ->
  arena_wf (mkArena (ar_ptr a) (nb :: ar_blocks a) (ar_scopes a) (ar_default_block_size a)
                    (u64 (ar_total_allocated a + n)) (ar_bounded a)) h' /\
  ~ In (blk_ptr nb) (map blk_ptr (ar_blocks a)).
Proof.
  intros W Hb Hn E. destruct (create_arena_block_some _ _ _ _ (aw_heap _ _ W) Hn E)
    as (O & Es & Eu & Hs & K).
  assert (Ho : owned h' (regions (mkArena (ar_ptr a) (nb :: ar_blocks a) (ar_scopes a)
                 (ar_default_block_size a) (u64 (ar_total_allocated a + n)) (ar_bounded a)))).
  { apply (owned_perm h' (block_regions nb ++ regions a)); [|apply K, W].
    unfold regions. cbn [ar_ptr ar_scopes ar_blocks flat_map].
    change ((ar_ptr a, sizeof_arena) :: map scope_region (ar_scopes a) ++ flat_map block_regions (ar_blocks a))
      with (((ar_ptr a, sizeof_arena) :: map scope_region (ar_scopes a)) ++ flat_map block_regions (ar_blocks a)).
    rewrite app_assoc.
    etransitivity; [apply Permutation_app_tail, Permutation_app_comm|].
    rewrite <- app_assoc. reflexivity. }
  assert (Hnew : ~ In (blk_ptr nb) (map blk_ptr (ar_blocks a))).
  { destruct Ho as [Hnd _]. simpl in Hnd. inversion Hnd as [|? ? _ Hnd']; subst.
    rewrite map_app in Hnd'. apply NoDup_app_remove_l, (NoDup_block_starts (nb :: ar_blocks a)) in Hnd'.
    inversion Hnd'. assumption. }
  split; [|exact Hnew].
  destruct W as [W1 W2 W3 W4 W5 W6 W7 W8].
  constructor; cbn [ar_blocks ar_scopes ar_default_block_size ar_total_allocated ar_bounded]; auto.
  - constructor; [|exact W3]. unfold block_ok. rewrite Es, Eu. lia.
  - discriminate.
  - rewrite W6. cbn [total_size fold_right]. rewrite Es. fold (total_size (ar_blocks a)).
    unfold u64. rewrite Zplus_mod_idemp_l. f_equal. lia.
  - congruence.
  - apply (scopes_ok_grows (ar_blocks a)); [constructor; exact Hnew|exact W8].
Qed.

(** What a granted request guarantees: the [n] bytes at [p] are aligned, lie in
    the used part of the new chain and overlap nothing handed out before. *)
Record handed_out (a a' : arena) (p n al : Z) : Prop := {
  ho_pos : 0 < p;
  ho_aligned : p mod al = 0;
  ho_inside : in_used (ar_blocks a') p n;
  ho_fresh : forall b, In b (ar_blocks a) ->
    disjoint_ranges p n (blk_memory b) (blk_used b);
  ho_grows : grows (ar_blocks a) (ar_blocks a');
}.

(** What an allocation never touches. *)
Definition same_frame (a a' : arena) : Prop :=
  ar_ptr a' = ar_ptr a /\ ar_scopes a' = ar_scopes a /\
  ar_default_block_size a' = ar_default_block_size a /\ ar_bounded a' = ar_bounded a.

(** The effective alignment. *)
Definition alignment_of (al : Z) : Z := if al =? 0 then DEFAULT_ALIGNMENT else al.

(** Bump allocation in the newest block, when the request fits it. *)
Lemma bump_spec p b older scs d t bd h k n :
  let a := mkArena p (b :: older) scs d t bd in
  arena_wf a h -> 0 <= k <= 61 -> 0 < n -> n mod 2 ^ k = 0 ->
  let off := align_block_offset b (blk_used b) (2 ^ k) in
  off + n <= blk_size b ->
  let '(r, a') := bump a b older t off n in
  arena_wf a' h /\ same_frame a a' /\ exists q, r = Some q /\ handed_out a a' q n (2 ^ k).
Proof.
  intros a W Hk Hn Hnm off Hfit.
  destruct (wf_block_geometry _ _ b W (or_introl eq_refl)) as (Hm & Hu & Hb).
  pose proof (Z.pow_pos_nonneg 2 k ltac:(lia) ltac:(lia)) as Hpk.
  pose proof (align_up_spec (blk_memory b + blk_used b) (2 ^ k) Hpk) as [Hup Hmod].
  assert (Eoff : off = align_up (blk_memory b + blk_used b) (2 ^ k) - blk_memory b)
    by (apply align_block_offset_spec; lia).
  change (2 ^ 63) with 9223372036854775808 in Hb. clearbody off.
  unfold bump. rewrite !u64_small by lia.
  assert (Hinb : in_used (with_used b (off + n) :: older) (blk_memory b + off) n)
    by (exists (with_used b (off + n)); simpl; split; [auto|lia]).
  split; [|split].
  - apply fill_wf; [exact W|lia].
  - repeat split.
  - eexists. split; [reflexivity|]. constructor.
    + lia.
    + replace (blk_memory b + off) with (align_up (blk_memory b + blk_used b) (2 ^ k)) by lia. exact Hmod.
    + exact Hinb.
    + intros c Hc. destruct (wf_blocks_disjoint _ _ b c W (or_introl eq_refl) Hc) as [<-|Hd].
      * right. lia.
      * destruct (wf_block_geometry _ _ c W Hc) as (Hcm & Hcu & _). destruct Hd; [left|right]; lia.
    + constructor. lia.
Qed.

(** The same in a block just obtained for an arena [a]. *)
Lemma bump_new_block_spec a h nb h' k n size :
  arena_wf a h -> ar_bounded a = false -> 0 <= k <= 61 -> 0 < n -> n mod 2 ^ k = 0 ->
  n + 2 ^ k - 1 <= size -> create_arena_block size h = (Some nb, h') ->
  let '(r, a') := bump a nb (ar_blocks a) (u64 (ar_total_allocated a + size))
                    (align_block_offset nb 0 (2 ^ k)) n in
  arena_wf a' h' /\ same_frame a a' /\ exists q, r = Some q /\ handed_out a a' q n (2 ^ k).
Proof.
  intros W Hb Hk Hn Hnm Hsz E.
  pose proof (Z.pow_pos_nonneg 2 k ltac:(lia) ltac:(lia)) as Hpk.
  destruct (create_arena_block_some size _ _ _ (aw_heap _ _ W) ltac:(lia) E) as (_ & Es & Eu & _ & _).
  destruct (new_block_wf a h nb h' size W Hb ltac:(lia) E) as [W' Hnew].
  destruct (wf_block_geometry _ _ nb W' (or_introl eq_refl)) as (Hm & _ & Hbd).
  pose proof (align_up_spec (blk_memory nb + 0) (2 ^ k) Hpk) as [Hup _].
  pose proof (bump_spec _ nb _ _ _ _ _ h' k n W' Hk Hn Hnm) as HB. cbv zeta in HB.
  rewrite Eu in HB. specialize (HB ltac:(rewrite align_block_offset_spec; lia)).
  unfold bump in *. cbn [ar_ptr ar_scopes ar_default_block_size ar_bounded] in *.
  destruct HB as (Wf & _ & q & Eq & Ho). split; [exact Wf|]. split; [repeat split|].
  exists q. split; [exact Eq|]. destruct Ho as [O1 O2 O3 O4 O5]. constructor; auto.
  - intros c Hc. apply O4. right. exact Hc.
  - cbn [ar_blocks]. constructor. exact Hnew.
Qed.

Lemma allocate_aligned_spec a size al h :
  arena_wf a h -> 0 <= size < 2 ^ 62 -> 0 <= al <= 2 ^ 61 ->
  let '(r, a', h') := arena_allocate_aligned a size al h in
  arena_wf a' h' /\ same_frame a a' /\
  match r with
  | None => a' = a
  | Some p => handed_out a a' p (align_up size (alignment_of al)) (alignment_of al)
  end.
Proof.
  intros W Hsize Hal. unfold arena_allocate_aligned.
  change (2 ^ 62) with 4611686018427387904 in Hsize. change (2 ^ 61) with 2305843009213693952 in Hal.
  assert (Hnone : arena_wf a h /\ same_frame a a /\ a = a) by (split; [exact W|repeat split]).
  destruct (Z.eqb_spec size 0) as [|Hs0]; [exact Hnone|]. fold (alignment_of al).
  assert (Ha : 0 < alignment_of al <= 2305843009213693952)
    by (unfold alignment_of, DEFAULT_ALIGNMENT; case_cmp; lia).
  set (al' := alignment_of al) in *.
  destruct (Z.eqb_spec (Z.land al' (u64 (al' - 1))) 0) as [Hp2|]; [|exact Hnone].
  destruct (power_of_two_test al' ltac:(lia) Hp2) as (k & Hk0 & Ek).
  assert (Hk : 0 <= k <= 61).
  { split; [exact Hk0|]. apply (Z.pow_le_mono_r_iff 2); [lia|lia|]. rewrite <- Ek.
    change (2 ^ 61) with 2305843009213693952. lia. }
  cbn [negb]. rewrite Ek in *. pose proof (align_up_spec size (2 ^ k) ltac:(lia)) as [Hup Hmod].
  rewrite align_size_spec by lia. set (n := align_up size (2 ^ k)) in *. clearbody n.
  rewrite Z.gtb_ltb, (proj2 (Z.ltb_ge _ _)) by lia.
  rewrite Z.gtb_ltb, (proj2 (Z.ltb_ge _ _)) by lia.
  destruct (ar_blocks a) as [|b older] eqn:Eb; [destruct (aw_nonempty _ _ W Eb)|].
  destruct (wf_block_geometry _ _ b W ltac:(rewrite Eb; left; reflexivity)) as (Hm & Hu & Hbd).
  change (2 ^ 63) with 9223372036854775808 in Hbd.
  pose proof (align_up_spec (blk_memory b + blk_used b) (2 ^ k) ltac:(lia)) as [Hoff _].
  assert (Eoff : align_block_offset b (blk_used b) (2 ^ k)
                 = align_up (blk_memory b + blk_used b) (2 ^ k) - blk_memory b)
    by (apply align_block_offset_spec; lia).
  rewrite (u64_small (_ + n)) by lia. rewrite Z.gtb_ltb.
  destruct (Z.ltb_spec (blk_size b) (align_block_offset b (blk_used b) (2 ^ k) + n)) as [Hfull|Hfit].
  - destruct (ar_bounded a) eqn:Ebd; [exact Hnone|].
    rewrite (u64_small (n + 2 ^ k)), (u64_small (n + 2 ^ k - 1)) by lia.
    set (sz := if _ >? _ then _ else _).
    assert (Hsz : n + 2 ^ k - 1 <= sz)
      by (subst sz; rewrite Z.gtb_ltb; destruct (Z.ltb_spec (ar_default_block_size a) (n + 2 ^ k - 1)); lia).
    destruct (create_arena_block sz h) as [[nb|] h'] eqn:E.
    + pose proof (bump_new_block_spec a h nb h' k n sz W Ebd Hk ltac:(lia) Hmod Hsz E) as HB.
      rewrite Eb in HB. destruct (bump _ _ _ _ _ _) as [r a']. destruct HB as (W' & Hf & q & -> & Ho). auto.
    + destruct (create_arena_block_none _ _ _ (aw_heap _ _ W) E) as [O K].
      split; [|split; [repeat split|reflexivity]]. destruct W. constructor; auto.
  - destruct a as [pa bl scs d t bd]. cbn [ar_blocks ar_total_allocated] in *. subst bl.
    pose proof (bump_spec pa b older scs d t bd h k n W Hk ltac:(lia) Hmod Hfit) as HB.
    destruct (bump _ _ _ _ _ _) as [r a']. destruct HB as (W' & Hf & q & -> & Ho). auto.
Qed.

(** ** Scopes, reset, creation and destruction *)

Lemma release_until_spec p l t h :
  t = u64 (total_size l) ->
  let '(t', h') := release_until p l t h in
  t' = u64 (total_size (blocks_from p l)) /\
  drops (map fst (flat_map block_regions (blocks_before p l))) h h'.
Proof.
  revert t h. induction l as [|b l IH]; intros t h Et; cbn [release_until blocks_from blocks_before].
  - split; [exact Et|apply drops_nil].
  - case_cmp; [split; [exact Et|apply drops_nil]|].
    specialize (IH (u64 (t - blk_size b)) (free_arena_block b h)).
    destruct (release_until p l _ _) as [t' h']. destruct IH as [E D].
    + subst t. cbn [total_size fold_right]. fold (total_size l). unfold u64.
      rewrite Zminus_mod_idemp_l. f_equal. lia.
    + split; [exact E|]. cbn [flat_map]. rewrite map_app.
      exact (drops_trans _ _ _ _ _ (drops_free_arena_block b h) D).
Qed.

Lemma drops_free_scopes scs h :
  drops (map fst (map scope_region scs)) h (fold_left (fun h sc => free (sc_ptr sc) h) scs h).
Proof.
  revert h. induction scs as [|sc scs IH]; intros h; [apply drops_nil|].
  exact (drops_trans [sc_ptr sc] _ _ _ _ (drops_free _ _) (IH _)).
Qed.

Lemma drops_free_blocks l h :
  drops (map fst (flat_map block_regions l)) h (fold_left (fun h b => free_arena_block b h) l h).
Proof.
  revert h. induction l as [|b l IH]; intros h; [apply drops_nil|].
  cbn [flat_map]. rewrite map_app.
  exact (drops_trans _ _ _ _ _ (drops_free_arena_block b h) (IH _)).
Qed.

Lemma push_scope_wf a h :
  arena_wf a h -> let '(a', h') := arena_push_scope a h in arena_wf a' h'.
Proof.
  intros W. unfold arena_push_scope.
  destruct (malloc sizeof_arena_scope h) as [[sp|] h'] eqn:E.
  - destruct (ar_blocks a) as [|b older] eqn:Eb; [destruct (aw_nonempty _ _ W Eb)|].
    destruct (malloc_ok sizeof_arena_scope _ _ _ (aw_heap _ _ W) eq_refl E) as (O & _ & _ & K).
    pose proof (wf_block_geometry _ _ b W ltac:(rewrite Eb; left; reflexivity)) as (_ & Hu & _).
    destruct W as [W1 W2 W3 W4 W5 W6 W7 W8]. rewrite Eb in *.
    constructor; cbn [ar_blocks ar_scopes ar_default_block_size ar_total_allocated ar_bounded]; auto.
    + eapply owned_perm; [|apply K, W2]. unfold regions. rewrite Eb. cbn. apply perm_swap.
    + assert (E0 : blocks_from (blk_ptr b) (b :: older) = b :: older)
        by (simpl; rewrite Z.eqb_refl; reflexivity).
      cbn [scopes_ok sc_block sc_used]. unfold rewind. cbn [sc_block sc_used]. rewrite E0. split.
      * exists b, older. split; [reflexivity|lia].
      * replace (with_used b (blk_used b)) with b by (destruct b; reflexivity). exact W8.
  - destruct (malloc_fails _ _ _ E) as (F1 & F2 & _). destruct W. constructor; auto.
Qed.

(** Shrinking a chain to a suffix of itself with a lower fill level. *)
Lemma flat_map_rewind sc l :
  flat_map block_regions (rewind sc l) = flat_map block_regions (blocks_from (sc_block sc) l).
Proof. unfold rewind. destruct (blocks_from (sc_block sc) l); reflexivity. Qed.

Lemma total_size_rewind sc l : total_size (rewind sc l) = total_size (blocks_from (sc_block sc) l).
Proof. unfold rewind. destruct (blocks_from (sc_block sc) l); reflexivity. Qed.

Lemma pop_scope_wf a h :
  arena_wf a h -> let '(a', h') := arena_pop_scope a h in arena_wf a' h'.
Proof.
  intros W. unfold arena_pop_scope. destruct (ar_scopes a) as [|sc parents] eqn:Es; [exact W|].
  pose proof (release_until_spec (sc_block sc) (ar_blocks a) _ h (aw_total _ _ W)) as HR.
  destruct (release_until _ _ _ _) as [t h']. destruct HR as [Et D].
  pose proof (drops_trans _ _ _ _ _ D (drops_free (sc_ptr sc) h')) as D2.
  assert (Hpart : ar_blocks a = blocks_before (sc_block sc) (ar_blocks a) ++ blocks_from (sc_block sc) (ar_blocks a))
    by apply blocks_split.
  destruct W as [W1 W2 W3 W4 W5 W6 W7 W8]. rewrite Es in W8.
  destruct W8 as [(b & older & Eb & Hu) W8].
  constructor; cbn [ar_blocks ar_scopes ar_default_block_size ar_total_allocated ar_bounded]; auto.
  - eapply heap_ok_drops; [exact W1|exact D2].
  - change [sc_ptr sc] with (map fst [scope_region sc]) in D2. rewrite <- map_app in D2.
    eapply owned_drops; [exact W2| |exact D2].
    unfold regions. cbn [ar_ptr ar_scopes ar_blocks]. rewrite Es, flat_map_rewind.
    rewrite Hpart at 1. rewrite flat_map_app. cbn [map].
    set (F := flat_map block_regions (blocks_before _ _)). set (K := flat_map block_regions (blocks_from _ _)).
    set (P := map scope_region parents). rewrite <- app_assoc. cbn [app].
    etransitivity; [apply perm_skip, perm_skip, Permutation_app_swap_app|].
    change ((ar_ptr a, sizeof_arena) :: scope_region sc :: F ++ P ++ K)
      with (((ar_ptr a, sizeof_arena) :: scope_region sc :: []) ++ F ++ P ++ K).
    etransitivity; [apply Permutation_app_swap_app|]. apply Permutation_app_head, perm_swap.
  - rewrite Hpart in W3. apply Forall_app in W3. destruct W3 as [_ W3]. unfold rewind.
    rewrite Eb in *. inversion W3 as [|? ? Hb Hl]; subst. constructor; [|exact Hl].
    unfold block_ok in *. simpl. lia.
  - unfold rewind. rewrite Eb. discriminate.
  - rewrite total_size_rewind. exact Et.
  - intros Hbd. specialize (W7 Hbd). rewrite Hpart, Eb, length_app in W7. unfold rewind. rewrite Eb.
    simpl in *. lia.
Qed.

Lemma commit_scope_wf a h :
  arena_wf a h -> let '(a', h') := arena_commit_scope a h in arena_wf a' h'.
Proof.
  intros W. unfold arena_commit_scope. destruct (ar_scopes a) as [|sc parents] eqn:Es; [exact W|].
  pose proof (wf_block_ptrs _ _ W) as Hnd. destruct W as [W1 W2 W3 W4 W5 W6 W7 W8].
  constructor; cbn [ar_blocks ar_scopes ar_default_block_size ar_total_allocated ar_bounded]; auto.
  - eapply heap_ok_drops; [exact W1|apply drops_free].
  - apply (owned_drops h _ [scope_region sc] (regions a)); [exact W2| |apply drops_free].
    unfold regions. rewrite Es. cbn. apply perm_swap.
  - rewrite Es in W8. exact (scopes_ok_rewound _ _ _ Hnd W8).
Qed.

Lemma iter_scope_end_wf a vals h :
  arena_wf a h -> let '(a', h') := eshkol_arena_iter_scope_end a vals h in arena_wf a' h'.
Proof.
  intros W. unfold eshkol_arena_iter_scope_end. destruct (ar_scopes a); [exact W|].
  destruct (existsb _ _); [apply commit_scope_wf, W|apply pop_scope_wf, W].
Qed.

(** The oldest block ends the chain. *)
Lemma blocks_from_last l d :
  l <> [] -> NoDup (map blk_ptr l) -> blocks_from (blk_ptr (last l d)) l = [last l d].
Proof.
  induction l as [|b l IH]; [congruence|]. intros _ Hnd.
  destruct l as [|c l]; [simpl; rewrite Z.eqb_refl; reflexivity|].
  change (last (b :: c :: l) d) with (last (c :: l) d). inversion Hnd as [|? ? Hb Hnd']; subst.
  set (r := c :: l) in *. cbn [blocks_from]. subst r. destruct (Z.eqb_spec (blk_ptr b) (blk_ptr (last (c :: l) d))) as [E|].
  - destruct Hb. rewrite E. apply (in_map blk_ptr (c :: l)).
    destruct (exists_last (l := c :: l) ltac:(discriminate)) as (l' & x & ->).
    rewrite last_last. apply in_or_app. simpl. auto.
  - apply IH; [discriminate|exact Hnd'].
Qed.

Lemma reset_wf a h :
  arena_wf a h -> let '(a', h') := arena_reset a h in
  arena_wf a' h' /\ ar_scopes a' = [] /\ exists b, ar_blocks a' = [b] /\ blk_used b = 0.
Proof.
  intros W. unfold arena_reset. pose proof (wf_block_ptrs _ _ W) as Hnd.
  destruct (ar_blocks a) as [|b0 l] eqn:Eb; [destruct (aw_nonempty _ _ W Eb)|]. rewrite <- Eb in *.
  set (f := last (ar_blocks a) b0).
  pose proof (release_until_spec (blk_ptr f) (ar_blocks a) _ h (aw_total _ _ W)) as HR.
  pose proof (blocks_from_last (ar_blocks a) b0 (aw_nonempty _ _ W) Hnd) as Ef. fold f in Ef.
  destruct (release_until _ _ _ _) as [t h']. destruct HR as [Et D]. rewrite Ef in Et.
  pose proof (drops_trans _ _ _ _ _ D (drops_free_scopes (ar_scopes a) h')) as D2.
  rewrite <- map_app in D2.
  assert (Hpart : ar_blocks a = blocks_before (blk_ptr f) (ar_blocks a) ++ [f])
    by (rewrite <- Ef; apply blocks_split).
  destruct W as [W1 W2 W3 W4 W5 W6 W7 W8]. split; [|split; [reflexivity|]].
  2: { eexists. split; [reflexivity|]. reflexivity. }
  constructor; cbn [ar_blocks ar_scopes ar_default_block_size ar_total_allocated ar_bounded]; auto.
  - eapply heap_ok_drops; [exact W1|exact D2].
  - eapply owned_drops; [exact W2| |exact D2]. unfold regions. cbn [ar_ptr ar_scopes ar_blocks map app].
    rewrite Hpart at 1. rewrite flat_map_app.
    set (F := flat_map block_regions (blocks_before _ _)). set (P := map scope_region (ar_scopes a)).
    cbn [flat_map app block_regions with_used blk_ptr blk_memory blk_size].
    etransitivity; [apply perm_skip, Permutation_app_swap_app|].
    rewrite <- app_assoc. rewrite app_assoc. rewrite (app_assoc F P). apply Permutation_middle.
  - rewrite Hpart in W3. apply Forall_app in W3. destruct W3 as [_ W3].
    inversion W3 as [|? ? Hb _]; subst. constructor; [|constructor]. unfold block_ok in *. simpl. lia.
  - discriminate.
  - exact I.
Qed.

Lemma create_wf n h a h' :
  heap_ok h -> arena_create n h = (Some a, h') ->
  arena_wf a h' /\ ar_scopes a = [] /\ ar_bounded a = false /\
  ar_total_allocated a = Z.max 1024 n /\
  exists b, ar_blocks a = [b] /\ blk_size b = Z.max 1024 n /\ blk_used b = 0.
Proof.
  intros Hh. unfold arena_create.
  replace (if n <? 1024 then 1024 else n) with (Z.max 1024 n) by (case_cmp; lia).
  set (d := Z.max 1024 n).
  destruct (malloc sizeof_arena h) as [[ap|] h1] eqn:E1; [|discriminate].
  destruct (create_arena_block d h1) as [[b|] h2] eqn:E2; [|discriminate].
  intros [= <- <-].
  destruct (malloc_ok sizeof_arena _ _ _ Hh eq_refl E1) as (O1 & _ & _ & K1).
  destruct (create_arena_block_some d h1 b h2 O1 ltac:(lia) E2) as (O2 & Es & Eu & Hd & K2).
  split; [|repeat split; exists b; auto].
  change (2 ^ 63) with 9223372036854775808 in Hd.
  constructor; cbn [ar_blocks ar_scopes ar_default_block_size ar_total_allocated ar_bounded]; auto.
  - assert (Ho : owned h []) by (split; [constructor|intros r []]).
    eapply owned_perm; [|exact (K2 _ (K1 _ Ho))]. unfold regions. cbn [ar_ptr ar_scopes ar_blocks map app flat_map].
    apply Permutation_app_comm.
  - constructor; [|constructor]. unfold block_ok. lia.
  - discriminate.
  - change (2 ^ 63) with 9223372036854775808. lia.
  - simpl. rewrite Es, Z.add_0_r. symmetry. apply u64_small. lia.
  - exact I.
Qed.

(** Nothing leaks: destruction frees exactly what the arena owns. *)
Lemma destroy_drops a h : drops (map fst (regions a)) h (arena_destroy a h).
Proof.
  unfold arena_destroy. unfold regions. cbn [map]. rewrite map_app.
  eapply drops_equiv;
    [|eapply drops_trans;
      [apply drops_free_blocks|eapply drops_trans; [apply drops_free_scopes|apply drops_free]]].
  intros p. simpl. rewrite !in_app_iff. simpl. tauto.
Qed.

End Heap.
