(* ===== verification/ArenaRuns.v ===== *)
(** * Runs of an arena: sequences of operations

    Operations as labels, runs as sequences of steps, the abstract arena (a stack
    of levels, each the list of objects handed out in that scope) that the
    allocator implements, and the exact restoration of a scope's starting state. *)

From Stdlib Require Import ZArith List Lia Bool Permutation.
From S2P Require Import Prelude Effects Arena ArenaSpec.
Import ListNotations.
Open Scope Z_scope.

Inductive arena_op : Type :=
| OpAllocate (size alignment : Z)
| OpPush
| OpPop
| OpCommit
| OpIterEnd (vals : list (Z * Z))
| OpReset.

(** The sizes and alignments a caller can ask for in earnest. *)
Definition op_ok (o : arena_op) : Prop :=
  match o with
  | OpAllocate size al => 0 <= size < 2 ^ 62 /\ 0 <= al <= 2 ^ 61
  | _ => True
  end.

Definition apply_op {H} {HM : Malloc H} (o : arena_op) (a : arena) (h : H)
  : option Z * arena * H :=
  match o with
  | OpAllocate size al => arena_allocate_aligned a size al h
  | OpPush => let '(a', h') := arena_push_scope a h in (None, a', h')
  | OpPop => let '(a', h') := arena_pop_scope a h in (None, a', h')
  | OpCommit => let '(a', h') := arena_commit_scope a h in (None, a', h')
  | OpIterEnd vals => let '(a', h') := eshkol_arena_iter_scope_end a vals h in (None, a', h')
  | OpReset => let '(a', h') := arena_reset a h in (None, a', h')
  end.

(** ** The abstract arena *)

(** Objects (address, size) by scope, the innermost scope first; there is
    always at least the level outside every scope. *)
Abbreviation levels := (list (list (Z * Z))) (only parsing).

Definition separate (objs : list (Z * Z)) : Prop := ForallOrdPairs range_disjoint objs.

(** What a client may rely on.  A granted request yields an object that overlaps
    no object of any level; popping forgets the innermost level, committing merges
    it into the next; pushing and requesting may fail without effect. *)
Inductive spec_step : arena_op -> option Z -> levels -> levels -> Prop :=
| spec_allocate size al p n l ls :
    size <= n -> p mod alignment_of al = 0 ->
    Forall (range_disjoint (p, n)) (concat (l :: ls)) ->
    spec_step (OpAllocate size al) (Some p) (l :: ls) (((p, n) :: l) :: ls)
| spec_refuse size al ls : spec_step (OpAllocate size al) None ls ls
| spec_push ls : spec_step OpPush None ls ([] :: ls)
| spec_push_fails ls : spec_step OpPush None ls ls
| spec_pop l l' ls : spec_step OpPop None (l :: l' :: ls) (l' :: ls)
| spec_pop_outermost l : spec_step OpPop None [l] [l]
| spec_commit l l' ls : spec_step OpCommit None (l :: l' :: ls) ((l ++ l') :: ls)
| spec_commit_outermost l : spec_step OpCommit None [l] [l]
| spec_iter_end vals o ls ls' :
    o = OpPop \/ o = OpCommit -> spec_step o None ls ls' ->
    spec_step (OpIterEnd vals) None ls ls'
| spec_reset ls : spec_step OpReset None ls [[]].

(** ** Refinement *)

Definition objects_in (bl : list block) (objs : list (Z * Z)) : Prop :=
  Forall (fun o => in_used bl (fst o) (snd o) /\ 0 < snd o) objs.

(** The objects of each level lie in the memory the chain has used when the
    scopes above it are rewound. *)
Fixpoint holds (bl : list block) (scs : list scope) (ls : levels) : Prop :=
  match scs, ls with
  | [], [l] => objects_in bl l
  | sc :: parents, l :: ls' => objects_in bl l /\ holds (rewind sc bl) parents ls'
  | _, _ => False
  end.

Record implements (a : arena) (ls : levels) : Prop := {
  im_holds : holds (ar_blocks a) (ar_scopes a) ls;
  im_separate : separate (concat ls);
}.

Lemma objects_in_grows bl bl' l : grows bl bl' -> objects_in bl l -> objects_in bl' l.
Proof.
  intros Hg. apply Forall_impl. intros o [H1 H2]. split; [|exact H2].
  exact (in_used_grows _ _ _ _ Hg H1).
Qed.

Lemma scopes_ok_head bl sc scs : scopes_ok bl (sc :: scs) -> scopes_ok bl [sc].
Proof. intros [H1 H2]. split; [exact H1|exact I]. Qed.

Lemma scopes_ok_marks bl sc scs : scopes_ok bl (sc :: scs) -> In (sc_block sc) (map blk_ptr bl).
Proof. intros [(b & older & E & _) _]. exact (blocks_from_In _ _ _ _ E). Qed.

Lemma holds_grows bl bl' scs ls :
  grows bl bl' -> scopes_ok bl scs -> holds bl scs ls -> holds bl' scs ls.
Proof.
  intros Hg Hs. destruct scs as [|sc scs], ls as [|l ls]; simpl; try contradiction.
  - destruct ls; [|contradiction]. apply objects_in_grows, Hg.
  - intros [H1 H2]. split; [exact (objects_in_grows _ _ _ Hg H1)|].
    rewrite (rewind_grows _ _ _ Hg); [exact H2|]. apply (scopes_ok_marks _ _ scs), Hs.
Qed.

(** Every object of every level lies in used memory. *)
Lemma holds_all bl scs ls : scopes_ok bl scs -> holds bl scs ls -> objects_in bl (concat ls).
Proof.
  revert bl ls. induction scs as [|sc scs IH]; intros bl ls Hs; destruct ls as [|l ls]; simpl;
    try contradiction.
  - destruct ls; [|contradiction]. rewrite app_nil_r. auto.
  - intros [H1 H2]. apply Forall_app. split; [exact H1|].
    eapply Forall_impl; [|exact (IH _ _ (proj2 Hs) H2)]. intros o [H3 H4]. split; [|exact H4].
    exact (in_used_rewind _ sc _ _ (scopes_ok_head _ _ _ Hs) H3).
Qed.

Lemma holds_levels bl scs ls : holds bl scs ls -> exists l ls', ls = l :: ls'.
Proof. destruct scs, ls; simpl; try contradiction; eauto. Qed.

(** Discarding the marks keeps the chain, whose used part includes what the
    rewound chain had. *)
Lemma holds_commit bl sc scs l l' ls :
  NoDup (map blk_ptr bl) -> scopes_ok bl (sc :: scs) ->
  holds bl (sc :: scs) (l :: l' :: ls) -> holds bl scs ((l ++ l') :: ls).
Proof.
  intros Hnd Hs [H1 H2].
  assert (Hg : forall r, holds (rewind sc bl) scs r -> holds bl scs r).
  { intros r Hr. destruct Hs as [(b & older & E & Hu) Hp].
    pose proof (blocks_split (sc_block sc) bl) as Hsp. rewrite E in Hsp.
    unfold rewind in Hr, Hp. rewrite E in Hr, Hp.
    assert (G : grows (with_used b (sc_used sc) :: older) (b :: older)).
    { replace b with (with_used (with_used b (sc_used sc)) (blk_used b)) at 2 by (destruct b; reflexivity).
      constructor. simpl. lia. }
    apply (holds_grows _ _ _ _ G Hp) in Hr. apply (scopes_ok_grows _ _ _ G) in Hp.
    rewrite Hsp in *. clear - Hr Hp Hnd. induction (blocks_before (sc_block sc) bl) as [|c pre IH]; [exact Hr|].
    simpl in Hnd. inversion Hnd as [|? ? Hc Hnd']; subst. simpl.
    apply (holds_grows (pre ++ b :: older)); [constructor; exact Hc| |apply IH, Hnd'].
    apply grows_prefix; assumption. }
  apply Hg in H2. destruct scs as [|sc2 scs]; simpl in *.
  - destruct ls; [|contradiction]. apply Forall_app. auto.
  - destruct H2 as [H2 H3]. split; [apply Forall_app; auto|exact H3].
Qed.

Lemma separate_app_comm (l1 l2 : list (Z * Z)) : separate (l1 ++ l2) -> separate l2.
Proof. induction l1 as [|x l1 IH]; [auto|]. intros H. inversion H; subst. auto. Qed.

Section Simulation.
  Context {H : Type} {HM : Malloc H} {ML : MallocLaws H}.

Lemma apply_op_wf o a h :
  arena_wf a h -> op_ok o -> let '(_, a', h') := apply_op o a h in arena_wf a' h'.
Proof.
  intros W Ho. destruct o; simpl.
  - destruct Ho as [Hs Ha]. pose proof (allocate_aligned_spec a size alignment h W Hs Ha) as HA.
    destruct (arena_allocate_aligned _ _ _ _) as [[r a'] h']. apply HA.
  - pose proof (push_scope_wf a h W). destruct (arena_push_scope a h). assumption.
  - pose proof (pop_scope_wf a h W). destruct (arena_pop_scope a h). assumption.
  - pose proof (commit_scope_wf a h W). destruct (arena_commit_scope a h). assumption.
  - pose proof (iter_scope_end_wf a vals h W). destruct (eshkol_arena_iter_scope_end a vals h). assumption.
  - pose proof (reset_wf a h W) as HR. destruct (arena_reset a h). apply HR.
Qed.

Lemma simulate_allocate a h ls size al :
  arena_wf a h -> implements a ls -> op_ok (OpAllocate size al) ->
  let '(r, a', _) := arena_allocate_aligned a size al h in
  exists ls', spec_step (OpAllocate size al) r ls ls' /\ implements a' ls'.
Proof.
  intros W [Hh Hs] [Hsz Hal]. pose proof (allocate_aligned_spec a size al h W Hsz Hal) as HA.
  destruct (Z.eq_dec size 0) as [->|Hs0]; [exists ls; split; [constructor|split; assumption]|].
  destruct (arena_allocate_aligned a size al h) as [[[p|] a'] h'].
  - destruct HA as (W' & (_ & Esc & _) & Ho). destruct Ho as [Hp Hmod Hin Hfr Hg].
    destruct (holds_levels _ _ _ Hh) as (l & ls' & ->).
    pose proof (holds_all _ _ _ (aw_scopes _ _ W) Hh) as Hall.
    assert (Ha : 0 < alignment_of al) by (unfold alignment_of, DEFAULT_ALIGNMENT; case_cmp; lia).
    pose proof (align_up_spec size (alignment_of al) Ha) as [Hup _].
    assert (Hdis : Forall (range_disjoint (p, align_up size (alignment_of al))) (concat (l :: ls'))).
    { eapply Forall_impl; [|exact Hall]. intros [q m] [(b & Hb & H1 & H2) Hm]. simpl in *.
      unfold range_disjoint, disjoint_ranges. simpl. destruct (Hfr b Hb); [left|right]; lia. }
    exists (((p, align_up size (alignment_of al)) :: l) :: ls'). split.
    + constructor; [lia|exact Hmod|exact Hdis].
    + split.
      * rewrite Esc. apply (holds_grows _ _ _ _ Hg (aw_scopes _ _ W)) in Hh.
        assert (Hnew : in_used (ar_blocks a') p (align_up size (alignment_of al)) /\ 0 < align_up size (alignment_of al))
          by (split; [exact Hin|lia]).
        destruct (ar_scopes a) as [|sc scs]; simpl in Hh |- *.
        -- destruct ls'; [|contradiction]. constructor; assumption.
        -- destruct Hh. split; [constructor; assumption|assumption].
      * constructor; assumption.
  - destruct HA as (_ & _ & ->). exists ls. split; [constructor|split; assumption].
Qed.

Lemma simulate_push a h ls :
  arena_wf a h -> implements a ls ->
  let '(a', _) := arena_push_scope a h in
  exists ls', spec_step OpPush None ls ls' /\ implements a' ls'.
Proof.
  intros W [Hh Hs]. unfold arena_push_scope.
  destruct (malloc sizeof_arena_scope h) as [[sp|] h'].
  - destruct (ar_blocks a) as [|b older] eqn:Eb; [destruct (aw_nonempty _ _ W Eb)|].
    exists ([] :: ls). split; [constructor|]. split; [|exact Hs].
    cbn [ar_blocks ar_scopes holds]. split; [constructor|]. unfold rewind. cbn [blocks_from sc_block sc_used].
    rewrite Z.eqb_refl. replace (with_used b (blk_used b)) with b by (destruct b; reflexivity). exact Hh.
  - exists ls. split; [apply spec_push_fails|split; assumption].
Qed.

Lemma simulate_pop a h ls :
  implements a ls ->
  let '(a', _) := arena_pop_scope a h in
  exists ls', spec_step OpPop None ls ls' /\ implements a' ls'.
Proof.
  intros [Hh Hs]. unfold arena_pop_scope. destruct (ar_scopes a) as [|sc scs] eqn:Es.
  - destruct ls as [|l [|]]; simpl in Hh; try contradiction.
    exists [l]. split; [constructor|]. split; [rewrite Es|]; assumption.
  - destruct (release_until _ _ _ _) as [t h']. destruct ls as [|l ls]; simpl in Hh; [contradiction|].
    destruct Hh as [H1 H2]. destruct (holds_levels _ _ _ H2) as (l' & ls' & ->).
    exists (l' :: ls'). split; [constructor|]. split; [exact H2|]. exact (separate_app_comm _ _ Hs).
Qed.

Lemma simulate_commit a h ls :
  arena_wf a h -> implements a ls ->
  let '(a', _) := arena_commit_scope a h in
  exists ls', spec_step OpCommit None ls ls' /\ implements a' ls'.
Proof.
  intros W [Hh Hs]. unfold arena_commit_scope. destruct (ar_scopes a) as [|sc scs] eqn:Es.
  - destruct ls as [|l [|]]; simpl in Hh; try contradiction.
    exists [l]. split; [constructor|]. split; [rewrite Es|]; assumption.
  - destruct ls as [|l ls]; simpl in Hh; [contradiction|].
    destruct (holds_levels _ _ _ (proj2 Hh)) as (l' & ls' & ->).
    exists ((l ++ l') :: ls'). split; [constructor|]. split.
    + cbn [ar_blocks ar_scopes]. apply (holds_commit _ sc); [exact (wf_block_ptrs _ _ W)| |exact Hh].
      rewrite <- Es. exact (aw_scopes _ _ W).
    + simpl in *. rewrite <- app_assoc. exact Hs.
Qed.

(** One step of the allocator is a step of the abstract arena. *)
Lemma simulate a h ls o :
  arena_wf a h -> implements a ls -> op_ok o ->
  let '(r, a', h') := apply_op o a h in
  arena_wf a' h' /\ exists ls', spec_step o r ls ls' /\ implements a' ls'.
Proof.
  intros W I Ho. pose proof (apply_op_wf o a h W Ho) as W'.
  destruct o; simpl in *.
  - pose proof (simulate_allocate a h ls size alignment W I Ho) as HS.
    destruct (arena_allocate_aligned _ _ _ _) as [[r a'] h']. auto.
  - pose proof (simulate_push a h ls W I) as HS. destruct (arena_push_scope a h). auto.
  - pose proof (simulate_pop a h ls I) as HS. destruct (arena_pop_scope a h). auto.
  - pose proof (simulate_commit a h ls W I) as HS. destruct (arena_commit_scope a h). auto.
  - assert (HS : let '(a', _) := eshkol_arena_iter_scope_end a vals h in
                 exists ls', spec_step (OpIterEnd vals) None ls ls' /\ implements a' ls').
    { pose proof (simulate_pop a h ls I) as HP. pose proof (simulate_commit a h ls W I) as HC.
      assert (HN : ar_scopes a = [] -> arena_pop_scope a h = (a, h))
        by (intros E; unfold arena_pop_scope; rewrite E; reflexivity).
      unfold eshkol_arena_iter_scope_end. destruct (ar_scopes a) eqn:Es.
      - rewrite (HN eq_refl) in HP. destruct HP as (ls' & H1 & H2). exists ls'. split; [|exact H2].
        eapply spec_iter_end; [left; reflexivity|exact H1].
      - destruct (existsb _ _).
        + destruct (arena_commit_scope a h). destruct HC as (ls' & H1 & H2). exists ls'. split; [|exact H2].
          eapply spec_iter_end; [right; reflexivity|exact H1].
        + destruct (arena_pop_scope a h). destruct HP as (ls' & H1 & H2). exists ls'. split; [|exact H2].
          eapply spec_iter_end; [left; reflexivity|exact H1]. }
    destruct (eshkol_arena_iter_scope_end a vals h). auto.
  - pose proof (reset_wf a h W) as HR. destruct (arena_reset a h) as [a' h'].
    destruct HR as (_ & Es & _). split; [exact W'|]. exists [[]]. split; [constructor|]. split.
    + rewrite Es. constructor.
    + constructor.
Qed.

(** ** Runs *)

Inductive run : list arena_op -> arena -> H -> list (option Z) -> arena -> H -> Prop :=
| run_nil a h : run [] a h [] a h
| run_cons o ops a h r a1 h1 rs a2 h2 :
    op_ok o -> apply_op o a h = (r, a1, h1) -> run ops a1 h1 rs a2 h2 ->
    run (o :: ops) a h (r :: rs) a2 h2.

Inductive spec_run : list arena_op -> list (option Z) -> levels -> levels -> Prop :=
| spec_run_nil ls : spec_run [] [] ls ls
| spec_run_cons o ops r rs ls ls1 ls2 :
    spec_step o r ls ls1 -> spec_run ops rs ls1 ls2 -> spec_run (o :: ops) (r :: rs) ls ls2.

Lemma simulate_run ops a h rs a' h' ls :
  run ops a h rs a' h' -> arena_wf a h -> implements a ls ->
  arena_wf a' h' /\ exists ls', spec_run ops rs ls ls' /\ implements a' ls'.
Proof.
  intros R. revert ls. induction R as [a h|o ops a h r a1 h1 rs a2 h2 Ho E R IH]; intros ls W I.
  - split; [exact W|]. exists ls. split; [constructor|exact I].
  - pose proof (simulate a h ls o W I Ho) as HS. rewrite E in HS. destruct HS as (W1 & ls1 & S1 & I1).
    destruct (IH ls1 W1 I1) as (W2 & ls2 & S2 & I2). split; [exact W2|].
    exists ls2. split; [econstructor; eassumption|exact I2].
Qed.

(** ** Restoration of a scope *)

(** The chain under the scopes above depth [d], rewound. *)
Fixpoint unwind (d : nat) (scs : list scope) (bl : list block) : list scope * list block :=
  match scs with
  | [] => ([], bl)
  | sc :: parents =>
    if (length scs <=? d)%nat then (scs, bl) else unwind d parents (rewind sc bl)
  end.

(** Operations inside a scope opened at depth [d]: it may be popped, but
    neither reset away nor committed. *)
Definition inside_ok (d : nat) (o : arena_op) (a : arena) : Prop :=
  (d < length (ar_scopes a))%nat /\ op_ok o /\
  match o with
  | OpAllocate _ _ | OpPush | OpPop => True
  | OpCommit | OpIterEnd _ => (d + 1 < length (ar_scopes a))%nat
  | OpReset => False
  end.

Inductive run_inside (d : nat) : arena -> H -> arena -> H -> Prop :=
| inside_nil a h : run_inside d a h a h
| inside_cons o a h r a1 h1 a2 h2 :
    inside_ok d o a -> apply_op o a h = (r, a1, h1) -> run_inside d a1 h1 a2 h2 ->
    run_inside d a h a2 h2.

Lemma unwind_above d sc scs bl :
  (d < length (sc :: scs))%nat -> unwind d (sc :: scs) bl = unwind d scs (rewind sc bl).
Proof.
  intros Hd. cbn [unwind]. destruct (Nat.leb_spec (length (sc :: scs)) d); [lia|reflexivity].
Qed.

(** Rewinding an outer scope makes rewinding an inner one first superfluous. *)
Lemma rewind_rewind bl sc sc2 scs :
  NoDup (map blk_ptr bl) -> scopes_ok bl (sc :: sc2 :: scs) ->
  rewind sc2 (rewind sc bl) = rewind sc2 bl.
Proof.
  intros Hnd [(b & older & E & Hu) Hp]. pose proof (scopes_ok_marks _ _ _ Hp) as Hin.
  pose proof (blocks_split (sc_block sc) bl) as Hsp. rewrite E in Hsp. unfold rewind at 2.
  unfold rewind in Hin. rewrite E in *. rewrite Hsp in *. clear E Hsp Hp.
  assert (G : grows (with_used b (sc_used sc) :: older) (b :: older)).
  { replace b with (with_used (with_used b (sc_used sc)) (blk_used b)) at 2 by (destruct b; reflexivity).
    constructor. simpl. lia. }
  rewrite <- (rewind_grows _ _ sc2 G) by exact Hin. change (In (sc_block sc2) (map blk_ptr (b :: older))) in Hin.
  induction (blocks_before (sc_block sc) bl) as [|c pre IH]; [reflexivity|].
  simpl in Hnd. inversion Hnd as [|? ? Hc Hnd']; subst. simpl app. rewrite (IH Hnd').
  symmetry. apply rewind_grows; [constructor; exact Hc|]. rewrite map_app. apply in_or_app. auto.
Qed.

Definition unwound (d : nat) (a : arena) : list scope * list block :=
  unwind d (ar_scopes a) (ar_blocks a).

Lemma unwound_pop d a h :
  (d < length (ar_scopes a))%nat -> unwound d (fst (arena_pop_scope a h)) = unwound d a.
Proof.
  intros Hd. unfold arena_pop_scope, unwound. destruct (ar_scopes a) as [|sc scs]; [simpl in Hd; lia|].
  destruct (release_until _ _ _ _). cbn [fst ar_scopes ar_blocks]. rewrite unwind_above by exact Hd. reflexivity.
Qed.

Lemma unwound_commit d a h :
  arena_wf a h -> (d + 1 < length (ar_scopes a))%nat ->
  unwound d (fst (arena_commit_scope a h)) = unwound d a.
Proof.
  intros W Hd. unfold arena_commit_scope, unwound. pose proof (wf_block_ptrs _ _ W) as Hnd.
  pose proof (aw_scopes _ _ W) as Hs.
  destruct (ar_scopes a) as [|sc [|sc2 scs]]; [simpl in Hd; lia|simpl in Hd; lia|].
  cbn [fst ar_scopes ar_blocks]. rewrite !unwind_above by (simpl in *; lia).
  rewrite (rewind_rewind _ sc sc2 scs Hnd Hs). reflexivity.
Qed.

Lemma unwound_step d o a h :
  arena_wf a h -> inside_ok d o a ->
  let '(_, a', _) := apply_op o a h in unwound d a' = unwound d a.
Proof.
  intros W (Hd & Ho & Hk). destruct o; simpl in Hk |- *; try contradiction.
  - destruct Ho as [Hs Ha]. pose proof (allocate_aligned_spec a size alignment h W Hs Ha) as HA.
    destruct (arena_allocate_aligned _ _ _ _) as [[r a'] h']. destruct HA as (_ & (_ & Esc & _) & Hr).
    destruct r as [p|]; [|subst; reflexivity]. destruct Hr as [_ _ _ _ Hg]. unfold unwound. rewrite Esc.
    pose proof (aw_scopes _ _ W) as Hsc. destruct (ar_scopes a) as [|sc scs]; [simpl in Hd; lia|].
    rewrite !unwind_above by exact Hd. rewrite (rewind_grows _ _ _ Hg); [reflexivity|].
    exact (scopes_ok_marks _ _ _ Hsc).
  - unfold arena_push_scope. destruct (malloc _ _) as [[sp|] h']; [|reflexivity].
    destruct (ar_blocks a) as [|b older] eqn:Eb; [reflexivity|]. unfold unwound.
    cbn [ar_scopes ar_blocks]. rewrite unwind_above by (simpl; lia). rewrite Eb. f_equal.
    unfold rewind. simpl. rewrite Z.eqb_refl. destruct b; reflexivity.
  - pose proof (unwound_pop d a h Hd). destruct (arena_pop_scope a h). assumption.
  - pose proof (unwound_commit d a h W Hk). destruct (arena_commit_scope a h). assumption.
  - pose proof (unwound_pop d a h Hd) as HP. pose proof (unwound_commit d a h W Hk) as HC.
    unfold eshkol_arena_iter_scope_end. destruct (ar_scopes a) eqn:Es; [reflexivity|].
    destruct (existsb _ _); [destruct (arena_commit_scope a h)|destruct (arena_pop_scope a h)]; assumption.
Qed.

Lemma run_inside_unwound d a h a' h' :
  run_inside d a h a' h' -> arena_wf a h -> arena_wf a' h' /\ unwound d a' = unwound d a.
Proof.
  induction 1 as [|o a h r a1 h1 a2 h2 Hok E _ IH]; intros W; [auto|].
  pose proof (apply_op_wf o a h W (proj1 (proj2 Hok))) as W1.
  pose proof (unwound_step d o a h W Hok) as U. rewrite E in *.
  destruct (IH W1) as [W2 U2]. split; [exact W2|congruence].
Qed.

Lemma unwound_here a : unwound (length (ar_scopes a)) a = (ar_scopes a, ar_blocks a).
Proof.
  unfold unwound. destruct (ar_scopes a) as [|sc scs]; [reflexivity|].
  unfold unwind. rewrite Nat.leb_refl. reflexivity.
Qed.

End Simulation.
