(* ===== verification/HostHeap.v ===== *)
(** * A concrete C heap, and the arena as an instance of its interface

    A first-fit model of [malloc] with a limit, which satisfies the contract the
    arena is verified against; the proof that the arena behind a non-null pointer
    fulfils the interface the numeric runtime is verified against. *)

From Stdlib Require Import ZArith List Lia Bool.
From S2P Require Import Prelude Effects Arena ArenaSpec ArenaRuns.
Import ListNotations.
Open Scope Z_scope.

(** ** The heap *)

Record host_heap : Type := mkHost { host_live : list (Z * Z); host_limit : Z }.

(** The first 16-aligned address above every live range. *)
Definition host_top (l : list (Z * Z)) : Z :=
  fold_right (fun r t => Z.max (fst r + snd r) t) 65536 l.

Definition host_next (l : list (Z * Z)) : Z := 16 * ((host_top l + 15) / 16).

Definition host_malloc (n : Z) (h : host_heap) : option Z * host_heap :=
  let p := host_next (host_live h) in
  if (p + n <? 2 ^ 63) && (p + n <=? host_limit h)
  then (Some p, mkHost ((p, n) :: host_live h) (host_limit h))
  else (None, h).

Definition host_free (p : Z) (h : host_heap) : host_heap :=
  mkHost (filter (fun r => negb (fst r =? p)) (host_live h)) (host_limit h).

#[export] Instance host_malloc_inst : Malloc host_heap := {
  malloc := host_malloc; free := host_free; live := host_live;
}.

Lemma host_top_above l p n : In (p, n) l -> p + n <= host_top l.
Proof.
  induction l as [|r l IH]; [contradiction|]. simpl. intros [->|Hin]; simpl; [lia|].
  specialize (IH Hin). lia.
Qed.

Lemma host_top_pos l : 65536 <= host_top l.
Proof. induction l as [|r l IH]; simpl; lia. Qed.

Lemma host_next_above l : host_top l <= host_next l.
Proof. unfold host_next. pose proof (Z.div_mod (host_top l + 15) 16). pose proof (Z.mod_pos_bound (host_top l + 15) 16). lia. Qed.

#[export] Instance host_malloc_laws : MallocLaws host_heap.
Proof.
  split.
  - intros n h p h' Hn. cbn [malloc live host_malloc_inst]. unfold host_malloc.
    destruct (Z.ltb_spec (host_next (host_live h) + n) (2 ^ 63)); [|discriminate].
    destruct (Z.leb_spec (host_next (host_live h) + n) (host_limit h)); [|discriminate].
    intros [= <- <-]. pose proof (host_next_above (host_live h)).
    pose proof (host_top_pos (host_live h)). repeat split; [lia|lia|].
    intros q m Hq. right. pose proof (host_top_above _ _ _ Hq). lia.
  - intros n h h'. cbn [malloc live host_malloc_inst]. unfold host_malloc.
    destruct (_ && _); [discriminate|]. intros [= <-]. reflexivity.
  - reflexivity.
Qed.

Definition host_start (limit : Z) : host_heap := mkHost [] limit.

Lemma host_start_ok limit : heap_ok (host_start limit).
Proof. split; [intros p n []|intros r s []]. Qed.

(** ** The arena interface *)

Section Instance_.
  Context {H : Type} {HM : Malloc H} {ML : MallocLaws H}.

(** A usable runtime: a well-formed arena in which every header written so far
    lies in used memory. *)
Definition runtime_inv (s : runtime H) : Prop :=
  exists a, rt_arena s = Some a /\ arena_wf a (rt_heap s) /\
    Forall (fun e => in_used (ar_blocks a) (fst e) sizeof_object_header) (rt_headers s).

Lemma in_used_weaken bl p n m : in_used bl p n -> m <= n -> in_used bl p m.
Proof. intros (b & Hb & H1 & H2) Hm. exists b. split; [exact Hb|lia]. Qed.

Lemma headers_grow a a' l :
  grows (ar_blocks a) (ar_blocks a') ->
  Forall (fun e : Z * object_header => in_used (ar_blocks a) (fst e) sizeof_object_header) l ->
  Forall (fun e : Z * object_header => in_used (ar_blocks a') (fst e) sizeof_object_header) l.
Proof. intros Hg. apply Forall_impl. intros e. apply in_used_grows, Hg. Qed.

(** What a granted request of the runtime state guarantees. *)
Definition granted_at (s s' : runtime H) (p n al : Z) : Prop :=
  exists a a', rt_arena s = Some a /\ rt_arena s' = Some a' /\ handed_out a a' p n al.

Lemma allocate_aligned_runtime size al s :
  runtime_inv s -> 0 <= size < 2 ^ 62 -> 0 <= al <= 2 ^ 61 ->
  let '(r, s') := allocate_aligned size al s in
  runtime_inv s' /\ rt_headers s' = rt_headers s /\
  match r with
  | Some p => granted_at s s' p (align_up size (alignment_of al)) (alignment_of al)
  | None => rt_arena s' = rt_arena s
  end.
Proof.
  intros (a & Ea & W & Hh) Hs Ha. unfold allocate_aligned. rewrite Ea.
  pose proof (allocate_aligned_spec a size al (rt_heap s) W Hs Ha) as HA.
  destruct (arena_allocate_aligned a size al (rt_heap s)) as [[r a'] h'].
  destruct HA as (W' & _ & Hr). split; [|split; [reflexivity|]].
  - exists a'. split; [reflexivity|]. split; [exact W'|]. destruct r; [|subst; exact Hh].
    exact (headers_grow _ _ _ (ho_grows _ _ _ _ _ Hr) Hh).
  - destruct r; [|subst; reflexivity]. exists a, a'. auto.
Qed.

(** The header is written into the first 8 bytes of the block granted; it is
    read back, and no earlier header is disturbed. *)
Lemma put_header_runtime size al hd s :
  runtime_inv s -> sizeof_object_header <= size < 2 ^ 62 -> 0 <= al <= 2 ^ 61 ->
  let '(r, s') := put_header (allocate_aligned size al s) hd in
  runtime_inv s' /\
  match r with
  | Some p =>
    granted_at s s' (p - sizeof_object_header) (align_up size (alignment_of al)) (alignment_of al) /\
    get_header p s' = Some hd /\
    (forall q, get_header q s <> None -> get_header q s' = get_header q s)
  | None => rt_arena s' = rt_arena s /\ rt_headers s' = rt_headers s
  end.
Proof.
  intros Hi Hs Ha. unfold sizeof_object_header in Hs.
  pose proof (allocate_aligned_runtime size al s Hi ltac:(lia) Ha) as HA.
  destruct (allocate_aligned size al s) as [[raw|] s']; cbn [put_header].
  - destruct HA as ((a' & Ea' & W' & Hh') & Eh & (a & a2 & Ea & Ea2 & Ho)).
    rewrite Ea' in Ea2. injection Ea2 as <-.
    assert (Hal : 0 < alignment_of al) by (unfold alignment_of, DEFAULT_ALIGNMENT; case_cmp; lia).
    pose proof (align_up_spec size (alignment_of al) Hal) as [Hup _].
    destruct (ho_inside _ _ _ _ _ Ho) as (b & Hb & H1 & H2).
    destruct (wf_block_geometry _ _ b W' Hb) as (Hm & Hu & Hbd).
    change (2 ^ 63) with 9223372036854775808 in Hbd.
    unfold sizeof_object_header. rewrite u64_small by lia.
    replace (raw + 8 - 8) with raw by lia. split; [|split; [|split]].
    + exists a'. cbn [rt_arena rt_heap rt_headers]. split; [exact Ea'|]. split; [exact W'|].
      constructor; [|exact Hh']. apply (in_used_weaken _ _ (align_up size (alignment_of al)));
        [exact (ho_inside _ _ _ _ _ Ho)|unfold sizeof_object_header; lia].
    + exists a, a'. auto.
    + unfold get_header. cbn [rt_headers find fst]. unfold sizeof_object_header.
      replace (raw + 8 - 8) with raw by lia. rewrite Z.eqb_refl. reflexivity.
    + intros q Hq. unfold get_header in *. cbn [rt_headers find fst]. rewrite Eh.
      destruct (Z.eqb_spec raw (q - sizeof_object_header)) as [E|]; [|reflexivity].
      exfalso. destruct (find _ (rt_headers s)) as [[q' hd']|] eqn:Ef; [|congruence].
      destruct (find_some _ _ Ef) as [Hin Hqe]. cbn [fst] in Hqe. apply Z.eqb_eq in Hqe. subst q'.
      destruct Hi as (a3 & Ea3 & W & Hh). rewrite Ea in Ea3. injection Ea3 as <-.
      rewrite Forall_forall in Hh. destruct (Hh _ Hin) as (c & Hc & H3 & H4).
      cbn [fst] in *. unfold sizeof_object_header in *. destruct (ho_fresh _ _ _ _ _ Ho c Hc); lia.
  - destruct HA as (Hi' & Eh & Er). auto.
Qed.

Lemma object_total data_size :
  0 < data_size <= 2 ^ 61 ->
  round_up (u64 (sizeof_object_header + data_size)) 8 = align_up (8 + data_size) 8 /\
  sizeof_object_header <= align_up (8 + data_size) 8 < 2 ^ 62 /\
  align_up (align_up (8 + data_size) 8) 8 = align_up (8 + data_size) 8.
Proof.
  intros Hd. change (2 ^ 61) with 2305843009213693952 in Hd. unfold sizeof_object_header.
  rewrite u64_small by lia. pose proof (align_up_spec (8 + data_size) 8 ltac:(lia)) as [H1 H2].
  split; [exact (round_up_spec (8 + data_size) 3 ltac:(lia) ltac:(lia)
             ltac:(change (2 ^ 3) with 8; lia))|].
  split; [change (2 ^ 62) with 4611686018427387904; lia|].
  pose proof (align_up_spec (align_up (8 + data_size) 8) 8 ltac:(lia)) as [H3 H4].
  set (x := align_up (8 + data_size) 8) in *. set (y := align_up x 8) in *. clearbody x y.
  pose proof (Z.div_mod x 8). pose proof (Z.div_mod y 8). lia.
Qed.

(** What an object allocation promises. *)
Definition object_post (s : runtime H) (data_size : Z) (hd : object_header)
    (res : option Z * runtime H) : Prop :=
  let '(r, s') := res in
  runtime_inv s' /\
  match r with
  | Some p =>
    granted_at s s' (p - sizeof_object_header) (align_up (8 + data_size) 8) 8 /\
    get_header p s' = Some hd /\
    (forall q, get_header q s <> None -> get_header q s' = get_header q s)
  | None => rt_arena s' = rt_arena s /\ rt_headers s' = rt_headers s
  end.

Lemma object_runtime data_size hd s :
  runtime_inv s -> 0 < data_size <= 2 ^ 61 ->
  object_post s data_size hd
    (put_header (allocate_aligned (round_up (u64 (sizeof_object_header + data_size)) 8) 8 s) hd).
Proof.
  intros Hi Hd. destruct (object_total data_size Hd) as (E1 & Hb & E2). rewrite E1.
  pose proof (put_header_runtime (align_up (8 + data_size) 8) 8 hd s Hi Hb
                ltac:(change (2 ^ 61) with 2305843009213693952; lia)) as HP.
  change (alignment_of 8) with 8 in HP. rewrite E2 in HP. exact HP.
Qed.

Lemma object_with_header_runtime n st fl s :
  runtime_inv s -> 0 <= n -> object_post s n (mkHeader st fl 0 n) (object_with_header n st fl s).
Proof.
  intros Hi Hn. unfold object_with_header. pose proof Hi as (a & Ea & _). rewrite Ea.
  destruct (Z.eqb_spec n 0); [cbn; auto|]. rewrite !Z.gtb_ltb.
  destruct (Z.ltb_spec (SIZE_MAX - sizeof_object_header - 8) n); [cbn; auto|].
  destruct (Z.ltb_spec UINT32_MAX n); [cbn; auto|].
  replace (u32 n) with n by (unfold u32; symmetry; apply Z.mod_small; change (2 ^ 32) with 4294967296; lia).
  apply object_runtime; [exact Hi|change (2 ^ 61) with 2305843009213693952; lia].
Qed.

Lemma string_with_header_runtime n s :
  runtime_inv s -> 0 <= n < 2 ^ 61 ->
  object_post s (n + 1) (mkHeader HEAP_SUBTYPE_STRING 0 0 (u32 (n + 1))) (string_with_header n s).
Proof.
  intros Hi Hn. change (2 ^ 61) with 2305843009213693952 in Hn.
  unfold string_with_header. pose proof Hi as (a & Ea & _). rewrite Ea. rewrite Z.geb_leb.
  destruct (Z.leb_spec (SIZE_MAX - sizeof_object_header - 8) n); [cbn; auto|].
  rewrite (u64_small (n + 1)) by lia.
  apply object_runtime; [exact Hi|change (2 ^ 61) with 2305843009213693952; lia].
Qed.

#[export] Instance runtime_arena_laws : ArenaLaws (runtime H).
Proof.
  refine {| arena_inv := runtime_inv |}.
  - intros s (a & Ea & _). cbn. rewrite Ea. reflexivity.
  - intros n s Hn Hi. cbn [arena_allocate runtime_arena].
    pose proof (allocate_aligned_runtime n DEFAULT_ALIGNMENT s Hi) as HA. unfold arena_allocate_raw.
    destruct (allocate_aligned n DEFAULT_ALIGNMENT s). apply HA;
      [change (2 ^ 62) with 4611686018427387904; change (2 ^ 61) with 2305843009213693952 in Hn; lia
      |unfold DEFAULT_ALIGNMENT; change (2 ^ 61) with 2305843009213693952; lia].
  - intros n st fl s Hn Hi. cbn [arena_allocate_with_header runtime_arena].
    pose proof (object_with_header_runtime n st fl s Hi Hn) as HO. unfold object_post in HO.
    destruct (object_with_header n st fl s). apply HO.
  - intros n s Hn Hi. cbn [arena_allocate_string_with_header runtime_arena].
    pose proof (string_with_header_runtime n s Hi) as HO. unfold object_post in HO.
    destruct (string_with_header n s). apply HO; lia.
  - intros s Hi. cbn [arena_allocate_cons runtime_arena]. unfold arena_allocate_cons_with_header.
    pose proof (put_header_runtime (sizeof_object_header + 2 * sizeof_tagged_value) 16
      (mkHeader HEAP_SUBTYPE_CONS 0 0 (2 * sizeof_tagged_value)) s Hi
      ltac:(unfold sizeof_object_header, sizeof_tagged_value; change (2 ^ 62) with 4611686018427387904; lia)
      ltac:(change (2 ^ 61) with 2305843009213693952; lia)) as HP.
    destruct (put_header _ _). apply HP.
  - intros n st fl s (a & Ea & _) Hn. cbn [arena_allocate_with_header runtime_arena].
    unfold object_with_header. rewrite Ea. destruct (Z.eqb_spec n 0); [reflexivity|].
    rewrite !Z.gtb_ltb. destruct (Z.ltb_spec (SIZE_MAX - sizeof_object_header - 8) n); [reflexivity|].
    destruct (Z.ltb_spec UINT32_MAX n); [reflexivity|lia].
Defined.

End Instance_.
