(* ===== verification/ArenaTheorems.v ===== *)
(** * What the arena guarantees

    The theorems on the allocator of lib/core/runtime_arena_core.cpp and
    lib/core/runtime_object_alloc.cpp, over every heap that satisfies the contract
    of [malloc], and their instances at the concrete heap of [HostHeap]. *)

From Stdlib Require Import ZArith List Lia Bool.
From S2P Require Import Prelude Effects Arena ArenaSpec ArenaRuns HostHeap.
Import ListNotations.
Open Scope Z_scope.

(** ** Concrete states for the instances *)

Definition demo_heap : host_heap := host_start (2 ^ 40).

Definition demo_create (r : option arena * host_heap) : arena * host_heap :=
  match r with
  | (Some a, h) => (a, h)
  | (None, h) => (mkArena 0 [] [] 0 0 false, h)
  end.

Definition demo : arena * host_heap := Eval vm_compute in demo_create (arena_create 4096 demo_heap).

Lemma demo_wf : arena_wf (fst demo) (snd demo).
Proof.
  assert (E : arena_create 4096 demo_heap = (Some (fst demo), snd demo)) by reflexivity.
  exact (proj1 (create_wf _ _ _ _ (host_start_ok _) E)).
Qed.

(** Why a request is refused. *)
Inductive refusal {H} {HM : Malloc H} (a : arena) (size al : Z) (h : H) : Prop :=
| refused_empty : size = 0 -> refusal a size al h
| refused_alignment : Z.land al (u64 (al - 1)) <> 0 -> refusal a size al h
| refused_bounded b older : ar_bounded a = true -> ar_blocks a = b :: older ->
    blk_size b < align_block_offset b (blk_used b) (alignment_of al) + align_up size (alignment_of al) ->
    refusal a size al h
| refused_by_system n h' : ar_bounded a = false -> create_arena_block n h = (None, h') ->
    refusal a size al h.

Section Allocation.
  Context {H : Type} {HM : Malloc H} {ML : MallocLaws H}.

Lemma allocate_aligned_refusal a size al h a' h' :
  arena_wf a h -> 0 <= size < 2 ^ 62 -> 0 <= al <= 2 ^ 61 ->
  arena_allocate_aligned a size al h = (None, a', h') -> refusal a size al h.
Proof.
  intros W Hsize Hal E. unfold arena_allocate_aligned in E.
  change (2 ^ 62) with 4611686018427387904 in Hsize. change (2 ^ 61) with 2305843009213693952 in Hal.
  destruct (Z.eqb_spec size 0) as [|Hs0]; [apply refused_empty; assumption|].
  fold (alignment_of al) in E.
  destruct (Z.eqb_spec (Z.land (alignment_of al) (u64 (alignment_of al - 1))) 0) as [Hp2|Hp2]; cbn [negb] in E.
  2: { apply refused_alignment. unfold alignment_of in Hp2. revert Hp2. case_cmp; [|auto].
       intros Hf. exfalso. apply Hf. reflexivity. }
  assert (Ha : 0 < alignment_of al <= 2305843009213693952)
    by (unfold alignment_of, DEFAULT_ALIGNMENT; case_cmp; lia).
  set (al' := alignment_of al) in *.
  destruct (power_of_two_test al' ltac:(lia) Hp2) as (k & Hk0 & Ek).
  assert (Hk : 0 <= k <= 61).
  { split; [exact Hk0|]. apply (Z.pow_le_mono_r_iff 2); [lia|lia|]. rewrite <- Ek.
    change (2 ^ 61) with 2305843009213693952. lia. }
  pose proof (align_up_spec size al' ltac:(lia)) as [Hup _].
  assert (Es : align_size size al' = align_up size al')
    by (rewrite Ek; apply align_size_spec; lia).
  rewrite Es in E. rewrite !Z.gtb_ltb in E.
  rewrite !(proj2 (Z.ltb_ge _ _)) in E by lia.
  destruct (ar_blocks a) as [|b older] eqn:Eb; [destruct (aw_nonempty _ _ W Eb)|].
  rewrite (Z.gtb_ltb _ (blk_size b)) in E. destruct (Z.ltb_spec (blk_size b)
              (u64 (align_block_offset b (blk_used b) al' + align_up size al'))) as [Hfull|];
    [|cbv zeta beta delta [bump] in E; discriminate E].
  destruct (ar_bounded a) eqn:Ebd.
  - apply (refused_bounded a size al h b older Ebd Eb). fold al'.
    destruct (wf_block_geometry _ _ b W ltac:(rewrite Eb; left; reflexivity)) as (Hm & Hu & Hbd).
    change (2 ^ 63) with 9223372036854775808 in Hbd.
    pose proof (align_up_spec (blk_memory b + blk_used b) al' ltac:(lia)) as [Hoff _].
    assert (Eo : align_block_offset b (blk_used b) al' = align_up (blk_memory b + blk_used b) al' - blk_memory b)
      by (rewrite Ek; apply align_block_offset_spec; lia).
    rewrite u64_small in Hfull by lia. exact Hfull.
  - match type of E with context [create_arena_block ?n h] =>
      destruct (create_arena_block n h) as [[nb|] h1] eqn:Ec; [cbv zeta beta delta [bump] in E; discriminate E|] end.
    exact (refused_by_system a size al h _ h1 Ebd Ec).
Qed.

End Allocation.

(** C17 The bump allocator: from a well-formed arena a request of any realistic
    size either is granted memory that is aligned as asked, lies inside a block of
    the arena and overlaps no byte handed out before, or is refused with the arena
    unchanged, and then only for one of the four reasons the code tests (empty
    request, alignment not a power of two, bounded arena full, system out of
    memory).  The arena invariant is kept. *)
Theorem arena_allocate_aligned_correct {H} {HM : Malloc H} {ML : MallocLaws H} a size al h r a' h' :
  arena_wf a h -> 0 <= size < 2 ^ 62 -> 0 <= al <= 2 ^ 61 ->
  arena_allocate_aligned a size al h = (r, a', h') ->
  arena_wf a' h' /\ ar_scopes a' = ar_scopes a /\
  match r with
  | Some p =>
    p mod alignment_of al = 0 /\
    (exists b, In b (ar_blocks a') /\ blk_memory b <= p /\ p + size <= blk_memory b + blk_used b) /\
    (forall b, In b (ar_blocks a) -> disjoint_ranges p size (blk_memory b) (blk_used b))
  | None => a' = a /\ refusal a size al h
  end.
Proof.
  intros W Hs Ha E. pose proof (allocate_aligned_spec a size al h W Hs Ha) as HA. rewrite E in HA.
  destruct HA as (W' & (_ & Es & _) & Hr). split; [exact W'|]. split; [exact Es|].
  destruct r as [p|]; [|exact (conj Hr (allocate_aligned_refusal _ _ _ _ _ _ W Hs Ha E))].
  assert (Hal : 0 < alignment_of al) by (unfold alignment_of, DEFAULT_ALIGNMENT; case_cmp; lia).
  pose proof (align_up_spec size (alignment_of al) Hal) as [Hup _].
  destruct Hr as [_ Hm (b & Hb & H1 & H2) Hf _]. split; [exact Hm|]. split.
  - exists b. split; [exact Hb|lia].
  - intros c Hc. destruct (Hf c Hc); [left|right]; lia.
Qed.

Lemma arena_allocate_aligned_correct_witness :
  let '(r, a', h') := arena_allocate_aligned (fst demo) 100 16 (snd demo) in
  r <> None /\ arena_wf a' h'.
Proof.
  destruct (arena_allocate_aligned (fst demo) 100 16 (snd demo)) as [[r a'] h'] eqn:E.
  split; [vm_compute in E; injection E as <- _ _; discriminate|].
  apply (arena_allocate_aligned_correct _ _ _ _ _ _ _ demo_wf) in E; [apply E|lia|lia].
Defined.

(** C2 Refinement: whatever sequence of requests, scope pushes, pops, commits,
    iteration ends and resets is run on a freshly created arena, the allocator
    behaves like the abstract arena (a stack of levels of objects), and at the end
    the objects still alive are pairwise disjoint and lie in used memory of the
    arena's blocks. *)
Theorem arena_refines_levels {H} {HM : Malloc H} {ML : MallocLaws H} n h0 a h ops rs a' h' :
  heap_ok h0 -> arena_create n h0 = (Some a, h) -> run ops a h rs a' h' ->
  arena_wf a' h' /\
  exists ls, spec_run ops rs [[]] ls /\ length ls = S (length (ar_scopes a')) /\
    ForallOrdPairs range_disjoint (concat ls) /\
    Forall (fun o => in_used (ar_blocks a') (fst o) (snd o)) (concat ls).
Proof.
  intros Hh E R. destruct (create_wf _ _ _ _ Hh E) as (W & Es & _).
  assert (I : implements a [[]]) by (split; [rewrite Es|]; constructor).
  destruct (simulate_run _ _ _ _ _ _ _ R W I) as (W' & ls & Sp & [Hho Hse]).
  split; [exact W'|]. exists ls. split; [exact Sp|]. split; [|split; [exact Hse|]].
  - clear - Hho. revert ls Hho. generalize (ar_blocks a'). induction (ar_scopes a') as [|sc scs IH];
      intros bl [|l ls]; simpl; try contradiction.
    + destruct ls; [reflexivity|contradiction].
    + intros [_ Hl]. rewrite (IH _ _ Hl). reflexivity.
  - eapply Forall_impl; [|exact (holds_all _ _ _ (aw_scopes _ _ W') Hho)]. intros o [Ho _]. exact Ho.
Qed.

Definition demo_ops : list arena_op :=
  [OpAllocate 100 8; OpPush; OpAllocate 5000 64; OpAllocate 24 8; OpPush; OpAllocate 8 8;
   OpCommit; OpPop; OpAllocate 16 16].

Lemma arena_refines_levels_witness :
  exists rs a' h', run demo_ops (fst demo) (snd demo) rs a' h' /\ arena_wf a' h'.
Proof.
  assert (Hc : arena_create 4096 demo_heap = (Some (fst demo), snd demo)) by reflexivity.
  assert (R : exists rs a' h', run demo_ops (fst demo) (snd demo) rs a' h').
  { do 3 eexists. unfold demo_ops.
    repeat (eapply run_cons; [cbn; try exact I; split; lia|vm_compute; reflexivity|]). apply run_nil. }
  destruct R as (rs & a' & h' & R). exists rs, a', h'. split; [exact R|].
  exact (proj1 (arena_refines_levels 4096 demo_heap _ _ _ _ _ _ (host_start_ok _) Hc R)).
Defined.

(** A scope restores its starting point exactly: after a successful push, any
    run of requests and nested scopes inside it, and the pop that returns to the
    depth of the push, the arena has the same blocks with the same fill levels,
    the same enclosing scopes and the same total as before the push. *)
Theorem arena_scope_restores {H} {HM : Malloc H} {ML : MallocLaws H} a h a1 h1 a2 h2 :
  arena_wf a h -> arena_push_scope a h = (a1, h1) ->
  length (ar_scopes a1) = S (length (ar_scopes a)) ->
  run_inside (length (ar_scopes a)) a1 h1 a2 h2 ->
  length (ar_scopes a2) = length (ar_scopes a) ->
  ar_blocks a2 = ar_blocks a /\ ar_scopes a2 = ar_scopes a /\
  arena_get_total_memory a2 = arena_get_total_memory a.
Proof.
  intros W E Hd R Hd2. pose proof (push_scope_wf a h W) as W1. rewrite E in W1.
  destruct (run_inside_unwound _ _ _ _ _ R W1) as [W2 U].
  assert (U1 : unwound (length (ar_scopes a)) a1 = (ar_scopes a, ar_blocks a)).
  { unfold arena_push_scope in E. destruct (malloc _ h) as [[sp|] h'].
    - destruct (ar_blocks a) as [|b older] eqn:Eb; [destruct (aw_nonempty _ _ W Eb)|].
      injection E as <- <-. unfold unwound. cbn [ar_scopes ar_blocks].
      rewrite unwind_above by (simpl; lia). unfold rewind. simpl. rewrite Z.eqb_refl.
      replace (with_used b (blk_used b)) with b by (destruct b; reflexivity). rewrite <- Eb.
      apply unwound_here.
    - injection E as <- <-. lia. }
  rewrite U1 in U. rewrite <- Hd2, unwound_here in U. injection U as Us Ub.
  split; [exact Ub|]. split; [exact Us|]. unfold arena_get_total_memory.
  rewrite (aw_total _ _ W2), (aw_total _ _ W), Ub. reflexivity.
Qed.

Lemma arena_scope_restores_witness :
  exists a1 h1 a2 h2, arena_push_scope (fst demo) (snd demo) = (a1, h1) /\
    run_inside 0 a1 h1 a2 h2 /\ ar_blocks a2 = ar_blocks (fst demo).
Proof.
  destruct (arena_push_scope (fst demo) (snd demo)) as [a1 h1] eqn:E1.
  destruct (apply_op (OpAllocate 5000 8) a1 h1) as [[r a2] h2] eqn:E2.
  destruct (apply_op OpPop a2 h2) as [[r' a3] h3] eqn:E3.
  assert (R : run_inside 0 a1 h1 a3 h3).
  { eapply inside_cons; [|exact E2|eapply inside_cons; [|exact E3|apply inside_nil]].
    - vm_compute in E1. injection E1 as <- <-. repeat split; cbn; lia.
    - vm_compute in E1. injection E1 as <- <-. vm_compute in E2. injection E2 as <- <- <-.
      repeat split; cbn; lia. }
  exists a1, h1, a3, h3. split; [reflexivity|]. split; [exact R|].
  apply (arena_scope_restores (fst demo) (snd demo) a1 h1 a3 h3 demo_wf E1); [|exact R|];
    vm_compute in E1; injection E1 as <- <-; [reflexivity|].
  vm_compute in E2. injection E2 as <- <- <-. vm_compute in E3. injection E3 as <- <- <-. reflexivity.
Defined.

(** ** The end of a loop iteration *)

(** The scan of [arena_top_scope_contains] finds every used address that the
    pending pop would release. *)
Lemma top_scope_scan_complete sc l p :
  scopes_ok l [sc] -> in_used l p 1 -> top_scope_scan sc l p = false -> in_used (rewind sc l) p 1.
Proof.
  intros [(b & older & E & Hu) _] Hin. unfold rewind. rewrite E. revert E Hin.
  induction l as [|c l IH]; cbn [blocks_from top_scope_scan]; [discriminate|].
  destruct (Z.eqb_spec (blk_ptr c) (sc_block sc)) as [Ec|Ec].
  - intros [= -> ->] (d & [<-|Hd] & H1 & H2) Hf.
    + exists (with_used b (sc_used sc)). split; [left; reflexivity|]. simpl.
      rewrite Z.geb_leb in Hf. destruct (Z.leb_spec (blk_memory b + sc_used sc) p); [|lia].
      cbn [andb] in Hf. apply Z.ltb_ge in Hf. lia.
    + exists d. split; [right; exact Hd|lia].
  - intros E (d & [<-|Hd] & H1 & H2) Hf.
    + rewrite Z.geb_leb, (proj2 (Z.leb_le _ _)), (proj2 (Z.ltb_lt _ _)) in Hf by lia. discriminate.
    + destruct (_ && _); [discriminate|]. apply IH; auto. exists d. auto.
Qed.

(** C19 The end of a loop iteration never frees memory a surviving value points
    into: any pointer-carrying value handed to [eshkol_arena_iter_scope_end] that
    points into used memory of the arena before the call still does after it,
    whether the iteration's scope was popped or committed. *)
Theorem iter_scope_end_keeps_values {H} {HM : Malloc H} {ML : MallocLaws H} a h vals t p a' h' :
  arena_wf a h -> In (t, p) vals -> 4 < t -> t <> 255 -> p <> 0 ->
  in_used (ar_blocks a) p 1 ->
  eshkol_arena_iter_scope_end a vals h = (a', h') ->
  in_used (ar_blocks a') p 1 /\ arena_wf a' h'.
Proof.
  intros W Hin Ht Ht' Hp Hu E. pose proof (iter_scope_end_wf a vals h W) as W'. rewrite E in W'.
  split; [|exact W']. unfold eshkol_arena_iter_scope_end in E.
  pose proof (aw_scopes _ _ W) as Hs. destruct (ar_scopes a) as [|sc scs] eqn:Es; [congruence|].
  destruct (existsb (value_escapes a) vals) eqn:Ex.
  - unfold arena_commit_scope in E. rewrite Es in E. injection E as <- _. exact Hu.
  - assert (Hv : value_escapes a (t, p) = false).
    { destruct (value_escapes a (t, p)) eqn:Ev; [|reflexivity].
      rewrite <- Ex. symmetry. apply existsb_exists. exists (t, p). auto. }
    unfold value_escapes in Hv. rewrite (proj2 (Z.leb_gt _ _)), (proj2 (Z.eqb_neq _ _)) in Hv by lia.
    cbn [orb] in Hv. unfold arena_top_scope_contains in Hv. rewrite Es in Hv.
    destruct (Z.eqb_spec p 0); [contradiction|]. cbn [negb andb] in Hv.
    unfold arena_pop_scope in E. rewrite Es in E.
    destruct (release_until _ _ _ _) as [tt' h2]. injection E as <- _. cbn [ar_blocks].
    apply top_scope_scan_complete; [exact (scopes_ok_head _ _ _ Hs)|exact Hu|exact Hv].
Qed.

(** A scope with two objects allocated inside it. *)
Definition demo_scope : arena * host_heap :=
  Eval vm_compute in
  let '(a, h) := arena_push_scope (fst demo) (snd demo) in
  let '(_, a, h) := arena_allocate_aligned a 40 8 h in (a, h).

Lemma demo_scope_wf : arena_wf (fst demo_scope) (snd demo_scope).
Proof.
  pose proof (push_scope_wf _ _ demo_wf) as W. destruct (arena_push_scope _ _) as [a h] eqn:E.
  pose proof (allocate_aligned_spec a 40 8 h W ltac:(lia) ltac:(lia)) as HA.
  destruct (arena_allocate_aligned a 40 8 h) as [[r a2] h2] eqn:E2. destruct HA as [W2 _].
  vm_compute in E. injection E as <- <-. vm_compute in E2. injection E2 as <- <- <-. exact W2.
Qed.

Lemma iter_scope_end_keeps_values_witness :
  let p := blk_memory (hd (mkBlock 0 0 0 0) (ar_blocks (fst demo_scope))) in
  let '(a', h') := eshkol_arena_iter_scope_end (fst demo_scope) [(1, 7); (8, p)] (snd demo_scope) in
  in_used (ar_blocks a') p 1 /\ arena_wf a' h'.
Proof.
  cbv zeta. destruct (eshkol_arena_iter_scope_end _ _ _) as [a' h'] eqn:E.
  eapply (iter_scope_end_keeps_values _ _ _ 8 _ _ _ demo_scope_wf); [| | | | |exact E].
  - right. left. reflexivity.
  - lia.
  - lia.
  - vm_compute. discriminate.
  - eexists. split; [left; reflexivity|]. vm_compute. split; discriminate.
Defined.

(** ** Bounded arenas *)

Lemma apply_op_bounded {H} {HM : Malloc H} {ML : MallocLaws H} o a h :
  arena_wf a h -> op_ok o -> let '(_, a', _) := apply_op o a h in ar_bounded a' = ar_bounded a.
Proof.
  intros W Ho. destruct o; simpl.
  - destruct Ho as [Hs Ha]. pose proof (allocate_aligned_spec a size alignment h W Hs Ha) as HA.
    destruct (arena_allocate_aligned _ _ _ _) as [[r a'] h']. apply HA.
  - unfold arena_push_scope. destruct (malloc _ _) as [[?|] ?]; [|reflexivity].
    destruct (ar_blocks a); reflexivity.
  - unfold arena_pop_scope. destruct (ar_scopes a); [reflexivity|].
    destruct (release_until _ _ _ _); reflexivity.
  - unfold arena_commit_scope. destruct (ar_scopes a); reflexivity.
  - unfold eshkol_arena_iter_scope_end, arena_commit_scope, arena_pop_scope.
    destruct (ar_scopes a); [reflexivity|].
    destruct (existsb _ _); [reflexivity|]. destruct (release_until _ _ _ _); reflexivity.
  - unfold arena_reset. destruct (ar_blocks a); [reflexivity|].
    destruct (release_until _ _ _ _); reflexivity.
Qed.

(** A single block keeps its memory: only its fill level changes. *)
Lemma apply_op_single {H} {HM : Malloc H} {ML : MallocLaws H} o a h b :
  arena_wf a h -> op_ok o -> ar_bounded a = true -> ar_blocks a = [b] ->
  let '(_, a', _) := apply_op o a h in
  exists u, ar_blocks a' = [with_used b u].
Proof.
  intros W Ho Hb Eb.
  assert (Hsame : exists u, ar_blocks a = [with_used b u])
    by (exists (blk_used b); rewrite Eb; destruct b; reflexivity).
  assert (Hpop : exists u, ar_blocks (fst (arena_pop_scope a h)) = [with_used b u]).
  { unfold arena_pop_scope. pose proof (aw_scopes _ _ W) as Hs.
    destruct (ar_scopes a) as [|sc scs]; [exact Hsame|]. destruct (release_until _ _ _ _).
    destruct Hs as [(c & older & E & _) _]. rewrite Eb in *. cbn [fst ar_blocks]. unfold rewind. rewrite E.
    simpl in E. destruct (Z.eqb_spec (blk_ptr b) (sc_block sc)); [|discriminate].
    injection E as <- <-. eexists. reflexivity. }
  assert (Hcom : exists u, ar_blocks (fst (arena_commit_scope a h)) = [with_used b u])
    by (unfold arena_commit_scope; destruct (ar_scopes a); exact Hsame).
  pose proof (apply_op_bounded o a h W Ho) as Hbd. pose proof (apply_op_wf o a h W Ho) as W'.
  destruct o; simpl in *.
  - destruct Ho as [Hs Ha]. pose proof (allocate_aligned_spec a size alignment h W Hs Ha) as HA.
    destruct (arena_allocate_aligned _ _ _ _) as [[r a'] h']. destruct HA as (_ & _ & Hr).
    destruct r as [p|]; [|subst; exact Hsame]. destruct Hr as [_ _ _ _ Hg].
    rewrite Hb in Hbd. pose proof (aw_bounded _ _ W' Hbd) as Hl. rewrite Eb in Hg.
    inversion Hg as [c older u Hu E1 E2|nb l Hnb E1 E2].
    + eexists. reflexivity.
    + rewrite <- E2 in Hl. simpl in Hl. discriminate.
  - unfold arena_push_scope. destruct (malloc _ _) as [[?|] ?]; [|exact Hsame].
    rewrite Eb in *. exact Hsame.
  - destruct (arena_pop_scope a h). exact Hpop.
  - destruct (arena_commit_scope a h). exact Hcom.
  - unfold eshkol_arena_iter_scope_end. destruct (ar_scopes a); [exact Hsame|].
    destruct (existsb _ _); [destruct (arena_commit_scope a h)|destruct (arena_pop_scope a h)]; assumption.
  - unfold arena_reset. rewrite Eb in *. destruct (release_until _ _ _ _).
    cbn [ar_blocks]. eexists. reflexivity.
Qed.

Lemma run_single {H} {HM : Malloc H} {ML : MallocLaws H} ops a h rs a' h' b :
  run ops a h rs a' h' -> arena_wf a h -> ar_bounded a = true -> ar_blocks a = [b] ->
  arena_wf a' h' /\ exists u, ar_blocks a' = [with_used b u].
Proof.
  intros R. revert b. induction R as [a h|o ops a h r a1 h1 rs a2 h2 Ho E R IH]; intros b W Hb Eb.
  - split; [exact W|]. exists (blk_used b). rewrite Eb. destruct b; reflexivity.
  - pose proof (apply_op_single o a h b W Ho Hb Eb) as HS. pose proof (apply_op_bounded o a h W Ho) as HB.
    pose proof (apply_op_wf o a h W Ho) as W1. rewrite E in *. destruct HS as [u Hu].
    destruct (IH (with_used b u) W1 ltac:(congruence) Hu) as [W2 [v Hv]].
    split; [exact W2|]. exists v. rewrite Hv. reflexivity.
Qed.

(** A bounded arena is a hard ceiling: whatever is run on an arena made by
    [arena_create_bounded], it keeps its single block of the requested capacity
    (at least 1024 bytes), never takes memory beyond it, and the bytes in use
    never exceed it. *)
Theorem bounded_arena_ceiling {H} {HM : Malloc H} {ML : MallocLaws H} cap h0 a h ops rs a' h' :
  heap_ok h0 -> arena_create_bounded cap h0 = (Some a, h) -> run ops a h rs a' h' ->
  arena_get_block_count a' = 1 /\ arena_get_total_memory a' = Z.max 1024 cap /\
  0 <= arena_get_used_memory a' <= Z.max 1024 cap.
Proof.
  intros Hh E R. unfold arena_create_bounded in E.
  replace (if cap <? 1024 then 1024 else cap) with (Z.max 1024 cap) in E by (case_cmp; lia).
  destruct (arena_create (Z.max 1024 cap) h0) as [[a0|] h1] eqn:Ec; [|discriminate].
  destruct (create_wf _ _ _ _ Hh Ec) as (W & Es & _ & Et & b & Eb & Esz & Eu).
  injection E as <- <-.
  assert (W0 : arena_wf (mkArena (ar_ptr a0) (ar_blocks a0) (ar_scopes a0)
                 (ar_default_block_size a0) (ar_total_allocated a0) true) h1).
  { destruct W. constructor; auto. intros _. cbn [ar_blocks]. rewrite Eb. reflexivity. }
  destruct (run_single _ _ _ _ _ _ b R W0 eq_refl Eb) as [W' [u Hu]].
  pose proof (wf_block_geometry _ _ (with_used b u) W' ltac:(rewrite Hu; left; reflexivity)) as (Hm & Hg & Hbd).
  cbn [blk_used blk_size blk_memory with_used] in Hg, Hm, Hbd.
  change (2 ^ 63) with 9223372036854775808 in Hbd.
  unfold arena_get_block_count, arena_get_total_memory, arena_get_used_memory.
  rewrite (aw_total _ _ W'), Hu. simpl. rewrite Z.add_0_r, !u64_small by lia. lia.
Qed.

Lemma bounded_arena_ceiling_witness :
  exists a h rs a' h', arena_create_bounded 2048 demo_heap = (Some a, h) /\
    run [OpAllocate 2000 8; OpAllocate 100 8] a h rs a' h' /\
    nth 1 rs (Some 0) = None /\ arena_get_total_memory a' = 2048.
Proof.
  destruct (arena_create_bounded 2048 demo_heap) as [[a|] h] eqn:Ec; [|vm_compute in Ec; discriminate].
  assert (R : exists rs a' h', run [OpAllocate 2000 8; OpAllocate 100 8] a h rs a' h' /\ nth 1 rs (Some 0) = None).
  { vm_compute in Ec. injection Ec as <- <-. do 3 eexists. split.
    - do 2 (eapply run_cons; [cbn; split; lia|vm_compute; reflexivity|]). apply run_nil.
    - reflexivity. }
  destruct R as (rs & a' & h' & R & Hn). exists a, h, rs, a', h'.
  split; [reflexivity|]. split; [exact R|]. split; [exact Hn|].
  apply (bounded_arena_ceiling 2048 demo_heap a h _ _ _ _ (host_start_ok _) Ec R).
Defined.

(** ** Destruction *)

(** Destruction returns exactly what the arena owns: a heap range is live
    after [arena_destroy] if and only if it was live before and is neither the
    arena record, a scope record, a block record nor a block's memory. *)
Theorem arena_destroy_exact {H} {HM : Malloc H} {ML : MallocLaws H} a h r :
  arena_wf a h ->
  In r (live (arena_destroy a h)) <-> In r (live h) /\ ~ In r (regions a).
Proof.
  intros W. rewrite (destroy_drops a h r).
  assert (Hst : In r (live h) -> (In (fst r) (map fst (regions a)) <-> In r (regions a))).
  { intros Hr. split; [|apply in_map]. intros Hin. apply in_map_iff in Hin.
    destruct Hin as (s & Es & Hs). pose proof (proj2 (aw_owned _ _ W) s Hs) as Hl.
    destruct (heap_disjoint _ (aw_heap _ _ W) r s Hr Hl) as [->|Hd]; [exact Hs|exfalso].
    destruct r as [p n], s as [q m]. cbn [fst] in Es. subst q.
    destruct (heap_range _ (aw_heap _ _ W) _ _ Hr), (heap_range _ (aw_heap _ _ W) _ _ Hl).
    unfold range_disjoint, disjoint_ranges in Hd. cbn [fst snd] in Hd. lia. }
  intuition.
Qed.

Lemma arena_destroy_exact_witness :
  live (arena_destroy (fst demo_scope) (snd demo_scope)) = [] /\
  forall r, In r (live (arena_destroy (fst demo_scope) (snd demo_scope))) ->
            ~ In r (regions (fst demo_scope)).
Proof.
  split; [vm_compute; reflexivity|]. intros r Hr.
  apply (arena_destroy_exact _ _ r demo_scope_wf) in Hr. apply Hr.
Defined.

(** ** Objects with headers *)

(** Object allocation: from a usable runtime, [arena_allocate_with_header]
    either returns null, leaving the arena and all headers as they were, or the
    address of a fresh object: its header (the 8 bytes before it) records the
    subtype, the flags, a zero reference count and the exact size, header and data
    lie in fresh 8-aligned memory that overlaps nothing handed out before, and the
    header of every earlier object reads as before. *)
Theorem allocate_with_header_correct {H} {HM : Malloc H} {ML : MallocLaws H} n st fl s r s' :
  runtime_inv s -> 0 <= n -> arena_allocate_with_header n st fl s = (r, s') ->
  runtime_inv s' /\
  match r with
  | Some p =>
    get_header p s' = Some (mkHeader st fl 0 n) /\
    (exists a a', rt_arena s = Some a /\ rt_arena s' = Some a' /\
       (p - 8) mod 8 = 0 /\ in_used (ar_blocks a') (p - 8) (8 + n) /\
       forall b, In b (ar_blocks a) -> disjoint_ranges (p - 8) (8 + n) (blk_memory b) (blk_used b)) /\
    (forall q, get_header q s <> None -> get_header q s' = get_header q s)
  | None => rt_arena s' = rt_arena s /\ rt_headers s' = rt_headers s
  end.
Proof.
  intros Hi Hn E. pose proof (object_with_header_runtime n st fl s Hi Hn) as HO.
  change (arena_allocate_with_header n st fl s) with (object_with_header n st fl s) in E.
  rewrite E in HO. destruct HO as [Hi' Hr]. split; [exact Hi'|]. destruct r as [p|]; [|exact Hr].
  destruct Hr as ((a & a' & Ea & Ea' & Ho) & Hh & Hq). split; [exact Hh|]. split; [|exact Hq].
  pose proof (align_up_spec (8 + n) 8 ltac:(lia)) as [Hup _].
  exists a, a'. split; [exact Ea|]. split; [exact Ea'|].
  destruct Ho as [_ Hm (b & Hb & H1 & H2) Hf _]. unfold sizeof_object_header in *.
  split; [exact Hm|]. split; [exists b; split; [exact Hb|lia]|].
  intros c Hc. destruct (Hf c Hc); [left|right]; lia.
Qed.

Definition demo_runtime : runtime host_heap := mkRuntime (Some (fst demo)) (snd demo) [].

Lemma demo_runtime_inv : runtime_inv demo_runtime.
Proof. exists (fst demo). split; [reflexivity|]. split; [exact demo_wf|constructor]. Qed.

Lemma allocate_with_header_correct_witness :
  let '(r, s') := arena_allocate_with_header 24 11 0 demo_runtime in
  match r with Some p => get_header p s' = Some (mkHeader 11 0 0 24) | None => False end /\
  runtime_inv s'.
Proof.
  destruct (arena_allocate_with_header 24 11 0 demo_runtime) as [r s'] eqn:E.
  pose proof (allocate_with_header_correct 24 11 0 demo_runtime r s' demo_runtime_inv ltac:(lia) E) as HT.
  split; [|exact (proj1 HT)].
  destruct r as [p|]; [exact (proj1 (proj2 HT))|vm_compute in E; discriminate].
Defined.

(** ** Behaviour at the edges *)

(** The size check of [arena_allocate_aligned] adds the aligned offset and
    the aligned size without an overflow guard: on a fresh 4096-byte arena with one
    1024-byte object, a request of [2^64 - 1024] bytes is granted (it wraps to an
    empty fill level), and the next request is given the address of the first
    object again. *)
Theorem allocation_size_wraps :
  let '(p, a1, h1) := arena_allocate_aligned (fst demo) 1024 8 (snd demo) in
  let '(q, a2, h2) := arena_allocate_aligned a1 (2 ^ 64 - 1024) 8 h1 in
  let '(p', _, _) := arena_allocate_aligned a2 1024 8 h2 in
  p <> None /\ q <> None /\ p' = p.
Proof. vm_compute. repeat split; discriminate. Qed.

(** A heap with room for the arena, one scope record and nothing more. *)
Definition tight : arena * host_heap :=
  Eval vm_compute in
  let '(a, h) := demo_create (arena_create 4096 (host_start 69760)) in
  let '(a, h) := arena_push_scope a h in
  let '(_, a, h) := arena_allocate_aligned a 40 8 h in (a, h).

(** A push that cannot allocate its scope record is silent, and the matching
    pop then pops the enclosing scope: an object of the enclosing scope that was
    alive before the pair is no longer in used memory after it. *)
Theorem failed_push_pops_parent :
  let '(a1, h1) := arena_push_scope (fst tight) (snd tight) in
  let '(a2, h2) := arena_pop_scope a1 h1 in
  exists p, in_used (ar_blocks (fst tight)) p 40 /\ ~ in_used (ar_blocks a2) p 40 /\
    length (ar_scopes (fst tight)) = 1%nat /\ length (ar_scopes a2) = 0%nat.
Proof.
  destruct (arena_push_scope (fst tight) (snd tight)) as [a1 h1] eqn:E1.
  destruct (arena_pop_scope a1 h1) as [a2 h2] eqn:E2.
  vm_compute in E1. injection E1 as <- <-. vm_compute in E2. injection E2 as <- <-.
  exists (blk_memory (hd (mkBlock 0 0 0 0) (ar_blocks (fst tight)))). repeat split.
  - eexists. split; [left; reflexivity|]. vm_compute. split; discriminate.
  - intros (b & [<-|[]] & H1 & H2). vm_compute in H2. apply H2. reflexivity.
Qed.
