(* ===== verification/BignumTheorems.v ===== *)
(** * What the bignum arithmetic guarantees

    The theorems on lib/core/bignum.cpp: exactness of every operation over any
    arena that satisfies the interface of [Effects], their instances on the real
    arena over a concrete heap, and the behaviour when memory runs out. *)

From Stdlib Require Import String ZArith List Lia Bool.
From S2P Require Import Prelude Effects Limbs KnuthD Bignum BignumSpec Arena ArenaSpec ArenaRuns HostHeap.
Import ListNotations.
Open Scope Z_scope.
Open Scope effect_scope.

(** The call [m] from state [s] returns a well-formed bignum of value [z], or
    null because a request was refused or [F] does not hold.  The arena stays
    usable. *)
Definition yields {St} {A : Arena St} {L : ArenaLaws St}
    (m : M St (option bignum)) (s : St) (F : Prop) (z : Z) : Prop :=
  exists r s' f, m s = (Ret r, s', f) /\ arena_inv s' /\
  match r with
  | Some x => bignum_wf x /\ bval x = z
  | None => f = true \/ ~ F
  end.

Lemma yields_intro {St} {A : Arena St} {L : ArenaLaws St} (m : M St (option bignum)) s F z :
  (forall G : Granted, wp m (or_null F (denotes z))) -> arena_inv s -> yields m s F z.
Proof. intros Hm Hs. exact (wp_run m F (denotes z) s Hm Hs). Qed.

(** ** Concrete operands and runtime *)

Definition big (s : Z) (l : list Z) : bignum := mkBignum s l.

Lemma big_wf s l :
  limbs_ok l -> l <> [] -> last l 0 <> 0 -> (s = 0 \/ s = 1) -> fits (length l) ->
  bignum_wf (big s l).
Proof.
  intros Hl Hne Hlast Hs Hf.
  assert (Hc : canonical l) by (split; [exact Hne|auto]).
  constructor; simpl; auto.
  intros Hz. exfalso. apply Hlast.
  destruct (exists_last Hne) as (l' & x & ->). rewrite last_last.
  rewrite lval_app in Hz. cbn [lval] in Hz.
  apply limbs_ok_app in Hl. destruct Hl as [Hl' Hx].
  pose proof (lval_nonneg l' Hl'). pose proof (bpow_pos (length l')).
  inversion Hx as [|? ? Hxx _]; subst. unfold limb in Hxx. nia.
Qed.

(** [2^64 + 5] and [-(3 * 2^64 + 1)]. *)
Definition big_a : bignum := big 0 [5; 1].
Definition big_b : bignum := big 1 [1; 3].

Ltac solve_big :=
  apply big_wf;
  [repeat constructor; unfold limb; lia|discriminate|simpl; lia|auto|unfold fits; simpl; lia].

Lemma big_a_wf : bignum_wf big_a.
Proof. solve_big. Qed.

Lemma big_b_wf : bignum_wf big_b.
Proof. solve_big. Qed.

Definition bench : runtime host_heap :=
  Eval vm_compute in
  match arena_create 4096 (host_start (2 ^ 40)) with
  | (a, h) => mkRuntime a h []
  end.

Lemma bench_inv : arena_inv bench.
Proof.
  destruct (arena_create 4096 (host_start (2 ^ 40))) as [[a|] h] eqn:E; [|vm_compute in E; discriminate].
  destruct (create_wf _ _ _ _ (host_start_ok _) E) as [W _].
  exists a. vm_compute in E. injection E as <- <-. split; [reflexivity|]. split; [exact W|constructor].
Qed.

(** ** Arithmetic *)

(** C16 Addition, subtraction and negation of bignums are exact for all
    operands: the result is the well-formed bignum of the mathematical sum,
    difference or opposite, with null only when the arena refused a request or the
    sum would need more limbs than an object header can describe; no call crashes
    or corrupts the arena. *)
Theorem bignum_additive_ops_exact {St} {A : Arena St} {L : ArenaLaws St} a b s :
  bignum_wf a -> bignum_wf b -> arena_inv s ->
  let F := Z.of_nat (Nat.max (num_limbs a) (num_limbs b) + 1) <= MAX_LIMBS in
  yields (eshkol_bignum_add (Some a) (Some b)) s F (bval a + bval b) /\
  yields (eshkol_bignum_sub (Some a) (Some b)) s F (bval a - bval b) /\
  yields (eshkol_bignum_neg (Some a)) s True (- bval a).
Proof.
  intros Wa Wb Hs F. repeat split; apply yields_intro; auto; intros G.
  - exact (add_exact a b Wa Wb).
  - exact (sub_exact a b Wa Wb).
  - exact (neg_exact a Wa).
Qed.

Lemma bignum_additive_ops_exact_witness :
  yields (eshkol_bignum_add (Some big_a) (Some big_b)) bench
    (Z.of_nat (Nat.max (num_limbs big_a) (num_limbs big_b) + 1) <= MAX_LIMBS)
    (bval big_a + bval big_b) /\ bval big_a + bval big_b = 4 - 2 ^ 65.
Proof.
  split; [|vm_compute; reflexivity].
  exact (proj1 (bignum_additive_ops_exact big_a big_b bench big_a_wf big_b_wf bench_inv)).
Defined.

(** Multiplication of bignums (schoolbook, limb by limb with 128-bit
    intermediate products) is exact for all operands. *)
Theorem bignum_mul_is_exact {St} {A : Arena St} {L : ArenaLaws St} a b s :
  bignum_wf a -> bignum_wf b -> arena_inv s ->
  yields (eshkol_bignum_mul (Some a) (Some b)) s
    (Z.of_nat (num_limbs a + num_limbs b) <= MAX_LIMBS) (bval a * bval b).
Proof.
  intros Wa Wb Hs. apply yields_intro; [|exact Hs]. intros G. exact (mul_exact a b Wa Wb).
Qed.

Lemma bignum_mul_is_exact_witness :
  yields (eshkol_bignum_mul (Some big_a) (Some big_b)) bench
    (Z.of_nat (num_limbs big_a + num_limbs big_b) <= MAX_LIMBS) (bval big_a * bval big_b).
Proof. exact (bignum_mul_is_exact big_a big_b bench big_a_wf big_b_wf bench_inv). Defined.

(** A run in which every request was granted. *)
Lemma wp_granted_run {St} {A : Arena St} {L : ArenaLaws St} {X} (m : M St X) (Q : X -> Prop) s o s' :
  (forall G : Granted, granted -> wp m Q) -> arena_inv s -> m s = (o, s', false) ->
  arena_inv s' /\ exists x, o = Ret x /\ Q x.
Proof.
  intros Hm Hs E. pose proof (Hm True I s Hs) as H. rewrite E in H.
  destruct (H (fun _ => eq_refl)) as [Hs' Ho]. split; [exact Hs'|].
  destruct o as [x| | |]; try contradiction. eauto.
Qed.

(** C8 Division and remainder (Knuth's algorithm D above one limb) truncate
    toward zero, exactly as [Z.quot] and [Z.rem], for operands of any sizes and
    signs whenever the arena grants the requests; division by zero raises the
    divide-by-zero exception and leaves the arena as it was. *)
Theorem bignum_division_truncates {St} {A : Arena St} {L : ArenaLaws St} a b s :
  bignum_wf a -> bignum_wf b -> arena_inv s ->
  (bval b = 0 ->
     eshkol_bignum_div (Some a) (Some b) s
       = (Raise ESHKOL_EXCEPTION_DIVIDE_BY_ZERO "bignum division by zero"%string, s, false) /\
     eshkol_bignum_mod (Some a) (Some b) s
       = (Raise ESHKOL_EXCEPTION_DIVIDE_BY_ZERO "bignum modulo by zero"%string, s, false)) /\
  (bval b <> 0 ->
     (forall o s', eshkol_bignum_div (Some a) (Some b) s = (o, s', false) ->
        arena_inv s' /\ exists q, o = Ret (Some q) /\ bignum_wf q /\ bval q = Z.quot (bval a) (bval b)) /\
     (forall o s', eshkol_bignum_mod (Some a) (Some b) s = (o, s', false) ->
        arena_inv s' /\ exists r, o = Ret (Some r) /\ bignum_wf r /\ bval r = Z.rem (bval a) (bval b))).
Proof.
  intros Wa Wb Hs. split.
  - intros Hz. unfold eshkol_bignum_div, eshkol_bignum_mod. rewrite is_zero_spec, Hz by exact Wb.
    split; reflexivity.
  - intros Hb. split; intros o s' E.
    + destruct (wp_granted_run _ _ _ _ _ (fun G g => div_exact a b g Wa Wb Hb) Hs E)
        as (Hs' & x & -> & q & -> & Hq). eauto.
    + destruct (wp_granted_run _ _ _ _ _ (fun G g => mod_exact a b g Wa Wb Hb) Hs E)
        as (Hs' & x & -> & q & -> & Hq). eauto.
Qed.

Definition big_c : bignum := big 1 [7; 0; 9; 4].

Lemma big_c_wf : bignum_wf big_c.
Proof. solve_big. Qed.

Lemma bignum_division_truncates_witness :
  exists q s', eshkol_bignum_div (Some big_c) (Some big_b) bench = (Ret (Some q), s', false) /\
    bval q = Z.quot (bval big_c) (bval big_b).
Proof.
  destruct (eshkol_bignum_div (Some big_c) (Some big_b) bench) as [[o s'] f] eqn:E.
  assert (f = false) as ->.
  { pose proof (f_equal snd E) as Ef. cbn [snd] in Ef. rewrite <- Ef. vm_compute. reflexivity. }
  destruct (proj1 (proj2 (bignum_division_truncates big_c big_b bench big_c_wf big_b_wf bench_inv)
              ltac:(vm_compute; discriminate)) o s' E) as (_ & q & -> & _ & Hq).
  exists q, s'. split; [reflexivity|exact Hq].
Defined.

(** Exponentiation by repeated squaring computes the exact power for every
    64-bit exponent; its loop ends after at most 64 rounds. *)
Theorem bignum_pow_is_exact {St} {A : Arena St} {L : ArenaLaws St} base exp s :
  bignum_wf base -> 0 <= exp <= UINT64_MAX -> arena_inv s ->
  yields (eshkol_bignum_pow (Some base) exp) s
    (Z.of_nat (num_limbs base) * exp + 1 <= MAX_LIMBS) (bval base ^ exp).
Proof.
  intros Wb He Hs. apply yields_intro; [|exact Hs]. intros G. exact (pow_exact base exp Wb He).
Qed.

Lemma bignum_pow_is_exact_witness :
  yields (eshkol_bignum_pow (Some big_b) 5) bench
    (Z.of_nat (num_limbs big_b) * 5 + 1 <= MAX_LIMBS) (bval big_b ^ 5).
Proof. exact (bignum_pow_is_exact big_b 5 bench big_b_wf ltac:(lia) bench_inv). Defined.

(** ** Conversion from and to machine integers *)

Lemma one_limb_value a :
  bignum_wf a -> num_limbs a = 1%nat -> lval (limbs a) = nth 0 (limbs a) 0.
Proof.
  intros W E. unfold num_limbs in E. destruct (limbs a) as [|x [|]]; try discriminate. simpl. lia.
Qed.

Lemma two_limbs_large a : bignum_wf a -> num_limbs a <> 1%nat -> B64 <= Z.abs (bval a).
Proof.
  intros W Hn. pose proof (wf_nonempty a W). destruct (Z.leb_spec B64 (Z.abs (bval a))); [lia|].
  destruct Hn. apply int64_one_limb; assumption.
Qed.

Lemma fits_int64_spec a :
  bignum_wf a ->
  eshkol_bignum_fits_int64 (Some a)
  = if (INT64_MIN <=? bval a) && (bval a <=? INT64_MAX) then Some (bval a) else None.
Proof.
  intros W. cbn [eshkol_bignum_fits_int64]. pose proof (wf_nonempty a W).
  change (u64 INT64_MAX) with INT64_MAX. change (u64 (INT64_MAX + 1)) with (INT64_MAX + 1).
  destruct (Nat.ltb_spec 1 (num_limbs a)) as [Hn|Hn].
  - pose proof (two_limbs_large a W ltac:(lia)).
    destruct (Z.leb_spec INT64_MIN (bval a)), (Z.leb_spec (bval a) INT64_MAX); simpl; auto; lia.
  - pose proof (one_limb_value a W ltac:(lia)) as E. pose proof (wf_magnitude a W).
    rewrite <- E. unfold bval. pose proof (wf_zero a W).
    destruct (wf_sign a W) as [Es|Es]; rewrite Es; cbn [Z.eqb].
    + destruct (Z.leb_spec (lval (limbs a)) INT64_MAX), (Z.leb_spec INT64_MIN (lval (limbs a)));
        cbn [andb]; try lia; try reflexivity.
      rewrite s64_small by (unfold int64_range; lia). reflexivity.
    + destruct (Z.eqb_spec (lval (limbs a)) (INT64_MAX + 1)) as [E2|E2].
      * rewrite E2. reflexivity.
      * destruct (Z.leb_spec (lval (limbs a)) INT64_MAX), (Z.leb_spec INT64_MIN (- lval (limbs a))),
          (Z.leb_spec (- lval (limbs a)) INT64_MAX); cbn [andb]; try lia; try reflexivity.
        rewrite s64_small by (unfold int64_range; lia). reflexivity.
Qed.

(** Demotion: [eshkol_bignum_fits_int64] answers yes exactly for the values
    of the [int64_t] range, both ends included, and then delivers the value; and
    every [int64_t] promoted by [eshkol_bignum_from_int64] is demoted to itself. *)
Theorem int64_round_trip {St} {A : Arena St} {L : ArenaLaws St} a v s :
  bignum_wf a -> int64_range v -> arena_inv s ->
  eshkol_bignum_fits_int64 (Some a)
    = (if (INT64_MIN <=? bval a) && (bval a <=? INT64_MAX) then Some (bval a) else None) /\
  yields (eshkol_bignum_from_int64 v) s True v /\
  (forall x s' f, eshkol_bignum_from_int64 v s = (Ret (Some x), s', f) ->
     eshkol_bignum_fits_int64 (Some x) = Some v).
Proof.
  intros Wa Hv Hs. split; [exact (fits_int64_spec a Wa)|].
  assert (Y : yields (eshkol_bignum_from_int64 v) s True v)
    by (apply yields_intro; [intros G; exact (from_int64_exact v Hv)|exact Hs]).
  split; [exact Y|]. intros x s' f E. destruct Y as (r & s2 & f2 & E2 & _ & Hr).
  rewrite E in E2. injection E2 as <- _ _. destruct Hr as [Wx Vx].
  rewrite (fits_int64_spec x Wx), Vx. unfold int64_range in Hv.
  rewrite !(proj2 (Z.leb_le _ _)) by lia. reflexivity.
Qed.

Lemma int64_round_trip_witness :
  eshkol_bignum_fits_int64 (Some big_a) = None /\
  yields (eshkol_bignum_from_int64 INT64_MIN) bench True INT64_MIN.
Proof.
  destruct (int64_round_trip big_a INT64_MIN bench big_a_wf
              ltac:(unfold int64_range; lia) bench_inv) as (H1 & H2 & _).
  split; [rewrite H1; vm_compute; reflexivity|exact H2].
Defined.

(** Promotion on overflow: [eshkol_bignum_from_overflow], called when an
    [int64_t] addition, subtraction or multiplication overflows, returns the exact
    mathematical result of the operation on the original operands. *)
Theorem overflow_promotion_exact {St} {A : Arena St} {L : ArenaLaws St} a b op s :
  int64_range a -> int64_range b -> 0 <= op <= 2 -> arena_inv s ->
  yields (eshkol_bignum_from_overflow a b op) s True
    (if op =? 0 then a + b else if op =? 1 then a - b else a * b).
Proof.
  intros Ha Hb Hop Hs. apply yields_intro; [|exact Hs]. intros G. exact (from_overflow_exact a b op Ha Hb Hop).
Qed.

Lemma overflow_promotion_exact_witness :
  yields (eshkol_bignum_from_overflow INT64_MIN INT64_MIN 2) bench True (2 ^ 126).
Proof.
  exact (overflow_promotion_exact INT64_MIN INT64_MIN 2 bench ltac:(unfold int64_range; lia)
           ltac:(unfold int64_range; lia) ltac:(lia) bench_inv).
Defined.

(** ** Comparison *)

Lemma int64_temp_wf v :
  int64_range v ->
  let t := if v <? 0 then mkBignum 1 [int64_magnitude v] else mkBignum 0 [u64 v] in
  bignum_wf t /\ bval t = v.
Proof.
  intros Hv t. unfold int64_range in Hv. subst t. destruct (Z.ltb_spec v 0).
  - assert (E : int64_magnitude v = - v)
      by (unfold int64_magnitude; case_cmp; [subst; reflexivity|apply u64_small; lia]).
    rewrite E. destruct (with_sign_exact (- v) 1 (mkBignum 0 [- v])) as [W V];
      [apply one_limb_natural; unfold limb; lia|right; lia|].
    cbn [limbs] in *. split; [exact W|]. rewrite V. simpl. lia.
  - rewrite u64_small by lia. apply natural_exact, one_limb_natural. unfold limb. lia.
Qed.

Lemma compare_int64_spec a v :
  bignum_wf a -> int64_range v -> eshkol_bignum_compare_int64 a v = Z.sgn (bval a - v).
Proof.
  intros W Hv. unfold eshkol_bignum_compare_int64.
  destruct (int64_temp_wf v Hv) as [Wt Vt]. pose proof (compare_sgn a _ W Wt) as Hfull. rewrite Vt in Hfull.
  cbv zeta. rewrite Hfull. unfold int64_range in Hv.
  destruct (Nat.eqb_spec (num_limbs a) 1) as [En|]; [|reflexivity].
  rewrite <- (one_limb_value a W En). pose proof (wf_magnitude a W).
  assert (Em : v < 0 -> int64_magnitude v = - v).
  { intros Hn. unfold int64_magnitude. case_cmp; [subst; reflexivity|apply u64_small; lia]. }
  unfold bval. rewrite Z.geb_leb.
  destruct (wf_sign a W) as [Es|Es]; rewrite Es; cbn [Z.eqb andb];
    destruct (Z.leb_spec 0 v), (Z.ltb_spec v 0); try lia; try reflexivity; cbn [Z.eqb andb Pos.eqb].
  - rewrite u64_small by lia. rewrite Z.gtb_ltb. repeat case_cmp; lia.
  - rewrite Em by lia. rewrite Z.gtb_ltb. repeat case_cmp; lia.
Qed.

Lemma parity_spec a :
  bignum_wf a -> Z.land (nth 0 (limbs a) 0) 1 = bval a mod 2.
Proof.
  intros W. rewrite land_1. pose proof (wf_nonempty a W) as Hn. unfold num_limbs in Hn. unfold bval.
  destruct (limbs a) as [|x l]; [simpl in Hn; lia|]. cbn [nth lval].
  replace (x + B64 * lval l) with (x + (9223372036854775808 * lval l) * 2) by lia.
  destruct (wf_sign a W) as [E|E]; rewrite E; cbn [Z.eqb]; [symmetry; apply Z.mod_add; lia|].
  replace (- (x + 9223372036854775808 * lval l * 2))
    with (x + (- x - 9223372036854775808 * lval l) * 2) by lia.
  symmetry. apply Z.mod_add. lia.
Qed.

(** Comparisons and predicates agree with the integers: three-way comparison
    of two bignums and of a bignum with an [int64_t] (fast path and stack
    temporary alike), and the zero, sign and parity tests. *)
Theorem bignum_order_agrees a b v :
  bignum_wf a -> bignum_wf b -> int64_range v ->
  eshkol_bignum_compare (Some a) (Some b) = Z.sgn (bval a - bval b) /\
  eshkol_bignum_compare_int64 a v = Z.sgn (bval a - v) /\
  eshkol_bignum_is_zero (Some a) = (bval a =? 0) /\
  eshkol_bignum_is_negative (Some a) = (bval a <? 0) /\
  eshkol_bignum_is_positive (Some a) = (0 <? bval a) /\
  eshkol_bignum_is_even (Some a) = Z.even (bval a) /\
  eshkol_bignum_is_odd (Some a) = Z.odd (bval a).
Proof.
  intros Wa Wb Hv. split; [exact (compare_sgn a b Wa Wb)|]. split; [exact (compare_int64_spec a v Wa Hv)|].
  pose proof (is_zero_spec a Wa) as Hz. split; [exact Hz|]. pose proof (wf_magnitude a Wa) as Hm.
  pose proof (wf_zero a Wa) as H0.
  cbn [eshkol_bignum_is_negative eshkol_bignum_is_positive eshkol_bignum_is_even eshkol_bignum_is_odd].
  rewrite Hz, !(parity_spec a Wa). rewrite Zmod_even. split; [|split; [|split]].
  - unfold bval. destruct (wf_sign a Wa) as [E|E]; rewrite E in *; cbn [Z.eqb negb andb].
    + symmetry. apply Z.ltb_ge. exact Hm.
    + destruct (Z.eqb_spec (- lval (limbs a)) 0), (Z.ltb_spec (- lval (limbs a)) 0); simpl; lia.
  - unfold bval. destruct (wf_sign a Wa) as [E|E]; rewrite E in *; cbn [Z.eqb negb andb].
    + destruct (Z.eqb_spec (lval (limbs a)) 0), (Z.ltb_spec 0 (lval (limbs a))); simpl; lia.
    + symmetry. apply Z.ltb_ge. lia.
  - destruct (Z.even (bval a)); reflexivity.
  - rewrite <- Z.negb_even. destruct (Z.even (bval a)); reflexivity.
Qed.

Lemma bignum_order_agrees_witness :
  eshkol_bignum_compare (Some big_a) (Some big_b) = 1 /\ eshkol_bignum_compare_int64 big_b INT64_MIN = -1.
Proof.
  destruct (bignum_order_agrees big_a big_b INT64_MIN big_a_wf big_b_wf ltac:(unfold int64_range; lia))
    as (H1 & _).
  destruct (bignum_order_agrees big_b big_a INT64_MIN big_b_wf big_a_wf ltac:(unfold int64_range; lia))
    as (_ & H2 & _).
  split; [rewrite H1|rewrite H2]; vm_compute; reflexivity.
Defined.

(** ** Long division of limbs *)

(** C7 Knuth's algorithm D as coded in [bignum_divmod_abs] (normalisation shift,
    trial quotient refined at most twice, multiply-and-subtract with signed
    128-bit borrow, add-back, unshift) computes quotient and remainder of any two
    limb sequences whose divisor has at least two limbs and a non-zero top limb;
    the refinement loop ends within its fuel. *)
Theorem knuth_division_correct la lb :
  limbs_ok la -> limbs_ok lb -> (2 <= length lb <= length la)%nat ->
  nth (length lb - 1) lb 0 <> 0 ->
  exists ql rl, knuth_divmod la lb = Some (ql, rl) /\
    lval la = lval ql * lval lb + lval rl /\ 0 <= lval rl < lval lb /\
    limbs_ok ql /\ limbs_ok rl.
Proof.
  intros Ha Hb Hl Ht.
  destruct (knuth_divmod_spec la lb Ha Hb Hl Ht) as (ql & rl & E & H1 & H2 & H3 & H4 & H5 & H6).
  exists ql, rl. pose proof (lval_nonneg rl H3). repeat split; auto; lia.
Qed.

Lemma knuth_division_correct_witness :
  exists ql rl, knuth_divmod [7; 0; 9; 4] [1; 3] = Some (ql, rl) /\
    lval [7; 0; 9; 4] = lval ql * lval [1; 3] + lval rl.
Proof.
  destruct (knuth_division_correct [7; 0; 9; 4] [1; 3]) as (ql & rl & E & H1 & _).
  - repeat constructor; unfold limb; lia.
  - repeat constructor; unfold limb; lia.
  - simpl. lia.
  - discriminate.
  - exists ql, rl. auto.
Defined.

(** ** When memory runs out *)

(** A bounded arena with [n] bytes left. *)
Definition nearly_full (n : Z) : runtime host_heap :=
  match arena_create_bounded 1024 (host_start (2 ^ 40)) with
  | (Some a, h) =>
    let '(_, a, h) := arena_allocate_aligned a (1024 - n) 8 h in mkRuntime (Some a) h []
  | (None, h) => mkRuntime None h []
  end.

(** Ten limbs divided by two. *)
Definition ten_limbs : bignum := big 0 [1; 2; 3; 4; 5; 6; 7; 8; 9; 10].

(** Division out of memory: when the scratch array of algorithm D is refused
    but one limb can still be had, [eshkol_bignum_div] returns the bignum zero,
    not null, although the quotient is not zero; and when only the quotient is
    refused its null pointer is dereferenced. *)
Theorem division_out_of_memory :
  (exists q s', eshkol_bignum_div (Some ten_limbs) (Some big_b) (nearly_full 64)
     = (Ret (Some q), s', true) /\ bval q = 0 /\ Z.quot (bval ten_limbs) (bval big_b) <> 0) /\
  (exists s', eshkol_bignum_div (Some ten_limbs) (Some big_b) (nearly_full 112) = (Crash, s', true)).
Proof.
  split.
  - destruct (eshkol_bignum_div (Some ten_limbs) (Some big_b) (nearly_full 64)) as [[o s'] f] eqn:E.
    vm_compute in E. injection E as <- <- <-. do 2 eexists. split; [reflexivity|].
    split; [reflexivity|vm_compute; discriminate].
  - destruct (eshkol_bignum_div (Some ten_limbs) (Some big_b) (nearly_full 112)) as [[o s'] f] eqn:E.
    vm_compute in E. injection E as <- <- <-. eexists. reflexivity.
Qed.
