(* ===== verification/BignumString.v ===== *)
(** * Decimal text of bignums: eshkol_bignum_from_string, _to_string, _display

    Strings are lists of character codes; the reader takes the characters it is
    given (its [len]), the writers produce those before the terminating NUL.  The
    digit buffers have the capacity the code computes, and writing past it is a
    crash, so that termination and memory safety of the digit loops are proved
    together. *)

From Stdlib Require Import String ZArith List Lia Bool.
From S2P Require Import Prelude Effects Limbs KnuthD Bignum BignumSpec.
Import ListNotations.
Open Scope Z_scope.
Open Scope effect_scope.

(** Character codes. *)
Definition chr_0 : Z := 48.
Definition chr_9 : Z := 57.
Definition chr_plus : Z := 43.
Definition chr_minus : Z := 45.

(** ** Operations *)

Section Operations.
  Context {St : Type} {A : Arena St}.

(** The digit loop of [eshkol_bignum_from_string]: multiply by ten and add, with
    a longer copy when a carry is left. *)
Fixpoint from_string_loop (cs : list Z) (result : bignum) : M St (option bignum) :=
  match cs with
  | [] => ret (Some result)
  | c :: cs' =>
    if (c <? chr_0) || (c >? chr_9) then ret None
    else
      let '(l, carry) := muladd_loop (limbs result) 10 (c - chr_0) in
      if carry >? 0 then
        check! grown := bignum_alloc (num_limbs result + 1) in
        from_string_loop cs' (mkBignum (sign grown) (l ++ [carry]))
      else from_string_loop cs' (mkBignum (sign result) l)
  end.

Definition eshkol_bignum_from_string (str : option (list Z)) : M St (option bignum) :=
  match str with
  | None | Some [] => ret None
  | Some (c :: cs) =>
    let sg := if c =? chr_minus then 1 else 0 in
    let digits := if (c =? chr_minus) || (c =? chr_plus) then cs else c :: cs in
    match digits with
    | [] => ret None
    | _ =>
      check! result := bignum_alloc 1 in
      check! r := from_string_loop digits result in
      ret (Some (bignum_normalize (mkBignum sg (limbs r))))
    end
  end.

(** The digit loop of [eshkol_bignum_to_string], least significant digit first;
    [room] is what is left of the buffer.  A refused quotient ends the loop. *)
Fixpoint extract_digits (room : nat) (temp : bignum) : M St (list Z) :=
  if eshkol_bignum_is_zero (Some temp) then ret []
  else
    let! (next, rem) := bignum_div_limb temp 10 in
    match next with
    | None => ret []
    | Some next =>
      match room with
      | O => crash
      | S room' => let! rest := extract_digits room' next in ret (chr_0 + rem :: rest)
      end
    end.

Definition eshkol_bignum_to_string (a : option bignum) : M St (option (list Z)) :=
  match a with
  | None => ret None
  | Some x =>
    if eshkol_bignum_is_zero a then
      check! _ := allocate_string_with_header 1 in ret (Some [chr_0])
    else
      let max_digits := (num_limbs x * 20 + 2)%nat in
      check! _ := allocate (Z.of_nat max_digits) in
      check! temp := bignum_alloc (num_limbs x) in
      let! ds := extract_digits max_digits (mkBignum (sign temp) (limbs x)) in
      let buf := if sign x =? 0 then ds else ds ++ [chr_minus] in
      if (length buf <? max_digits)%nat then
        check! _ := allocate_string_with_header (Z.of_nat (length buf)) in
        ret (Some (rev buf))
      else crash
  end.

End Operations.

(** [printf] with [%llu]: the decimal digits of a 64-bit number. *)
Fixpoint print_digits (fuel : nat) (v : Z) (acc : list Z) : list Z :=
  match fuel with
  | O => acc
  | S fuel' =>
    let acc := (chr_0 + v mod 10) :: acc in
    if v / 10 =? 0 then acc else print_digits fuel' (v / 10) acc
  end.

Definition print_u64 (v : Z) : list Z := print_digits 20 v [].

(** Drops the zero limbs at the top, possibly all. *)
Fixpoint trim_zeros (l : list Z) : list Z :=
  match l with
  | [] => []
  | x :: l' =>
    match trim_zeros l' with
    | [] => if x =? 0 then [] else [x]
    | r => x :: r
    end
  end.

(** The digit loop of [eshkol_bignum_display] on its stack copy of the limbs. *)
Fixpoint display_digits (room : nat) (work : list Z) : option (list Z) :=
  match work with
  | [] => Some []
  | _ =>
    if forallb (fun x => x =? 0) work then Some []
    else
      match room with
      | O => None
      | S room' =>
        let '(q, rem) := div_limb_loop work 10 in
        option_map (fun ds => chr_0 + u64 rem :: ds) (display_digits room' (trim_zeros q))
      end
  end.

(** The characters written to the file; [None] would be a buffer overrun.  For
    more than 12 limbs a placeholder with the limb count is written. *)
Definition eshkol_bignum_display (a : option bignum) : option (list Z) :=
  match a with
  | None => Some []
  | Some x =>
    if eshkol_bignum_is_zero a then Some [chr_0]
    else
      let minus := if sign x =? 0 then [] else [chr_minus] in
      if (num_limbs x =? 1)%nat then Some (minus ++ print_u64 (nth 0 (limbs x) 0))
      else if (num_limbs x * 20 + 2 <=? 256)%nat then
        option_map (fun ds => minus ++ rev ds) (display_digits 256 (limbs x))
      else Some (minus ++ [60; 98; 105; 103; 110; 117; 109; 58] ++ print_u64 (Z.of_nat (num_limbs x))
                 ++ [45; 108; 105; 109; 98; 115; 62])
  end.

(** ** Decimal notation *)

Definition digit (c : Z) : Prop := chr_0 <= c <= chr_9.

(** The number a digit string denotes, after the prefix that denotes [acc]. *)
Fixpoint dec_value (acc : Z) (l : list Z) : Z :=
  match l with
  | [] => acc
  | c :: l' => dec_value (acc * 10 + (c - chr_0)) l'
  end.

(** [s] is the canonical decimal text of [z]: a minus sign exactly for the
    negative numbers, at least one digit, no superfluous leading zero. *)
Definition decimal_text (z : Z) (s : list Z) : Prop :=
  exists ds, s = (if z <? 0 then [chr_minus] else []) ++ ds /\
    Forall digit ds /\ ds <> [] /\ dec_value 0 ds = Z.abs z /\
    (hd 0 ds = chr_0 -> ds = [chr_0]).

Lemma dec_value_app acc l1 l2 : dec_value acc (l1 ++ l2) = dec_value (dec_value acc l1) l2.
Proof. revert acc. induction l1 as [|c l1 IH]; intros acc; simpl; auto. Qed.

Lemma dec_value_snoc l c : dec_value 0 (l ++ [c]) = dec_value 0 l * 10 + (c - chr_0).
Proof. rewrite dec_value_app. reflexivity. Qed.

Lemma dec_value_nonneg acc l : 0 <= acc -> Forall digit l -> 0 <= dec_value acc l.
Proof.
  revert acc. induction l as [|c l IH]; intros acc Ha Hd; simpl; [exact Ha|].
  inversion Hd as [|? ? Hc Hd']; subst. unfold digit, chr_0, chr_9 in *. apply IH; [lia|exact Hd'].
Qed.

(** Characters are either all digits or there is a first that is not. *)
Definition all_digits (l : list Z) : bool := forallb (fun c => (chr_0 <=? c) && (c <=? chr_9)) l.

Lemma all_digits_spec l : all_digits l = true <-> Forall digit l.
Proof.
  unfold all_digits. rewrite forallb_forall, Forall_forall. unfold digit.
  split; intros H c Hc; specialize (H c Hc); [apply andb_true_iff in H|apply andb_true_iff];
    rewrite !Z.leb_le in *; lia.
Qed.

(** ** Reading *)

Section Specs.
  Context {St : Type} {A : Arena St} {L : ArenaLaws St} {G : Granted}.

(** The limb array while reading: non-empty, of value [v]. *)
Definition reading (v : Z) (r : bignum) : Prop :=
  limbs_ok (limbs r) /\ limbs r <> [] /\ lval (limbs r) = v /\ fits (num_limbs r).

(** The value fits some limb count an object can have. *)
Definition value_fits (z : Z) : Prop := exists n, fits n /\ z < bpow n.

Lemma bpow_lt_inv n m : bpow n < bpow m -> (n < m)%nat.
Proof.
  rewrite !bpow_pow2. intros H. destruct (Nat.ltb_spec n m); [lia|].
  pose proof (Z.pow_le_mono_r 2 (64 * Z.of_nat m) (64 * Z.of_nat n) ltac:(lia) ltac:(lia)). lia.
Qed.

Lemma dec_value_above acc l : 0 <= acc -> Forall digit l -> acc <= dec_value acc l.
Proof.
  revert acc. induction l as [|c l IH]; intros acc Ha Hd; simpl; [lia|].
  inversion Hd as [|? ? Hc Hd']; subst. unfold digit, chr_0, chr_9 in *.
  specialize (IH (acc * 10 + (c - 48)) ltac:(lia) Hd'). lia.
Qed.

Lemma from_string_loop_spec cs r v :
  reading v r -> 0 <= v -> Forall digit cs ->
  wp (from_string_loop cs r)
    (or_null (value_fits (dec_value v cs)) (reading (dec_value v cs))).
Proof.
  revert r v. induction cs as [|c cs IH]; intros r v Hr Hv Hd; cbn [from_string_loop dec_value].
  - apply wp_ret. exact Hr.
  - inversion Hd as [|? ? Hc Hd']; subst. unfold digit, chr_0, chr_9 in *. rewrite Z.gtb_ltb.
    rewrite !(proj2 (Z.ltb_ge _ _)) by lia. cbn [orb].
    destruct Hr as (Hl & Hne & Ev & Hf).
    destruct (muladd_loop (limbs r) 10 (c - 48)) as [l carry] eqn:E.
    destruct (muladd_loop_spec (limbs r) 10 (c - 48) l carry Hl ltac:(lia) ltac:(lia) E)
      as (Hl2 & Hlen & Hca & Hval). fold (num_limbs r) in *.
    assert (Hl0 : l <> []) by (intros ->; unfold num_limbs in Hlen; destruct (limbs r); [contradiction|discriminate]).
    rewrite Ev in Hval. set (w := v * 10 + (c - 48)) in *.
    destruct (Z.gtb_spec carry 0) as [Hpos|Hz].
    + assert (Hgrow : reading w (mkBignum 0 (l ++ [carry])) \/ ~ fits (num_limbs r + 1)).
      { unfold fits. destruct (Z.leb_spec (Z.of_nat (num_limbs r + 1)) MAX_LIMBS); [left|right; lia].
        unfold reading, num_limbs. cbn [limbs]. repeat split.
        - apply limbs_ok_app_intro; [exact Hl2|apply limbs_ok_one; unfold limb; lia].
        - destruct l; discriminate.
        - rewrite lval_app, Hlen. cbn [lval]. lia.
        - unfold fits. rewrite length_app, Hlen. simpl length. lia. }
      eapply wp_check; [apply bignum_alloc_spec; unfold fits in Hf; change (2 ^ 32) with 4294967296; lia| |].
      * intros (m & Hm & Hlt). pose proof (dec_value_above w cs ltac:(lia) Hd').
        pose proof (lval_nonneg l Hl2). pose proof (bpow_pos (num_limbs r)).
        assert (Hn : (num_limbs r < m)%nat) by (apply bpow_lt_inv; nia).
        unfold fits in *. lia.
      * intros g [-> Hfg]. cbn [sign]. apply IH; [|lia|exact Hd'].
        destruct Hgrow as [Hg|Hg]; [exact Hg|contradiction].
    + apply IH; [|lia|exact Hd']. unfold reading, num_limbs in *. cbn [limbs].
      replace carry with 0 in Hval by lia. repeat split; auto; [lia|rewrite Hlen; exact Hf].
Qed.

Lemma from_string_loop_rejects cs r :
  all_digits cs = false -> limbs r <> [] ->
  Z.of_nat (num_limbs r + length cs) < 2 ^ 32 ->
  wp (from_string_loop cs r) (fun x => x = None).
Proof.
  change (2 ^ 32) with 4294967296.
  revert r. induction cs as [|c cs IH]; intros r Hd Hne Hb; [discriminate|]. cbn [from_string_loop].
  unfold all_digits in Hd. cbn [forallb] in Hd. fold (all_digits cs) in Hd. unfold chr_0, chr_9 in *.
  destruct (Z.ltb_spec c 48); [apply wp_ret; reflexivity|].
  destruct (Z.gtb_spec c 57); [apply wp_ret; reflexivity|]. cbn [orb].
  rewrite !(proj2 (Z.leb_le _ _)) in Hd by lia. cbn [andb] in Hd.
  assert (Hlen : forall l x d, length (fst (muladd_loop l x d)) = length l).
  { induction l as [|y l IHl]; intros x d; cbn [muladd_loop]; [reflexivity|].
    specialize (IHl x (Z.shiftr (u128 (y * x + d)) 64)). destruct (muladd_loop l x _).
    cbn [fst length] in *. congruence. }
  specialize (Hlen (limbs r) 10 (c - 48)). destruct (muladd_loop (limbs r) 10 (c - 48)) as [l carry].
  cbn [fst length] in *. unfold num_limbs in *.
  destruct (carry >? 0).
  - eapply wp_call; [apply bignum_alloc_spec; change (2 ^ 32) with 4294967296; lia|].
    intros [g|] Hg; [|apply wp_ret; reflexivity].
    apply IH; [exact Hd|cbn [limbs]; destruct l; discriminate|].
    unfold num_limbs. cbn [limbs]. rewrite length_app. simpl length. lia.
  - apply IH; [exact Hd| |unfold num_limbs; cbn [limbs]; lia].
    cbn [limbs]. intros ->. destruct (limbs r); [contradiction|discriminate].
Qed.

(** What the reader makes of a string: sign and digits, when they are digits. *)
Definition parse_decimal (s : list Z) : option Z :=
  match s with
  | [] => None
  | c :: cs =>
    let ds := if (c =? chr_minus) || (c =? chr_plus) then cs else s in
    if (negb (length ds =? 0)%nat) && all_digits ds
    then Some (if c =? chr_minus then - dec_value 0 ds else dec_value 0 ds)
    else None
  end.

Lemma from_string_exact s :
  (parse_decimal s = None -> Z.of_nat (length s) < 2 ^ 31) ->
  wp (eshkol_bignum_from_string (Some s))
    (fun r => match parse_decimal s with
              | Some z => or_null (value_fits (Z.abs z)) (denotes z) r
              | None => r = None
              end).
Proof.
  intros Hb. change (2 ^ 31) with 2147483648 in Hb.
  destruct s as [|c cs]; cbn [parse_decimal] in Hb; cbn [eshkol_bignum_from_string parse_decimal]; [apply wp_ret; reflexivity|].
  set (ds := if _ || _ then cs else c :: cs) in *.
  assert (Hds : (length ds <= length (c :: cs))%nat) by (subst ds; destruct (_ || _); simpl; lia).
  clearbody ds. destruct ds as [|d0 ds0]; [apply wp_ret; reflexivity|]. set (ds := d0 :: ds0) in *.
  change (negb (length ds =? 0)%nat) with true in *. cbn [andb] in *.
  eapply wp_call; [apply (bignum_alloc_spec 1); simpl; lia|]. intros [r|] Hr; cbn [or_null] in Hr.
  2: { apply wp_ret. destruct (all_digits ds); [|reflexivity]. cbn [or_null].
       intros g _. apply (Hr g). unfold fits. simpl. lia. }
  destruct Hr as [-> _]. destruct (all_digits ds) eqn:Ead.
  - apply all_digits_spec in Ead. pose proof (dec_value_nonneg 0 ds ltac:(lia) Ead) as Hnn.
    replace (Z.abs (if c =? chr_minus then - dec_value 0 ds else dec_value 0 ds))
      with (dec_value 0 ds) by (destruct (c =? chr_minus); lia).
    eapply wp_check; [apply (from_string_loop_spec ds _ 0); [|lia|exact Ead]|auto|].
    + unfold reading, fits, num_limbs. simpl. repeat split; try lia; try discriminate.
      apply limbs_ok_one. unfold limb. lia.
    + intros x (H1 & H2 & H3 & H4). apply wp_ret. cbn [or_null]. rewrite <- H3.
      destruct (c =? chr_minus);
        [exact (normalize_exact 1 (limbs x) H1 H2 H4 ltac:(auto))
        |exact (normalize_exact 0 (limbs x) H1 H2 H4 ltac:(auto))].
  - eapply wp_call; [apply from_string_loop_rejects; [exact Ead|discriminate|]|].
    + specialize (Hb eq_refl). change (2 ^ 32) with 4294967296. change (num_limbs (mkBignum 0 (repeat 0 1))) with 1%nat. lia.
    + intros x ->. apply wp_ret. reflexivity.
Qed.

(** ** Writing *)

(** The digits of [v], least significant first, without a leading zero. *)
Definition digits_of (v : Z) (ds : list Z) : Prop :=
  dec_value 0 (rev ds) = v /\ (v <> 0 -> last ds 0 <> chr_0 /\ ds <> []) /\ (v = 0 -> ds = []).

Lemma digits_of_step v ds :
  0 < v -> digits_of (v / 10) ds -> digits_of v (chr_0 + v mod 10 :: ds).
Proof.
  intros Hv (H1 & H2 & H3). pose proof (Z.div_mod v 10 ltac:(lia)) as Hdm.
  pose proof (Z.mod_pos_bound v 10 ltac:(lia)). unfold digits_of. repeat split; try lia; try discriminate.
  - cbn [rev]. rewrite dec_value_snoc, H1. unfold chr_0. lia.
  - destruct (Z.eq_dec (v / 10) 0) as [E|E].
    + rewrite (H3 E). cbn [last]. unfold chr_0. lia.
    + destruct (H2 E) as [Hl Hne]. destruct ds; [contradiction|]. exact Hl.
Qed.

Lemma extract_digits_spec room k temp :
  natural (lval (limbs temp)) temp -> (k <= room)%nat -> lval (limbs temp) < 10 ^ Z.of_nat k ->
  wp (extract_digits room temp)
    (fun ds => (length ds <= k)%nat /\ Forall digit ds /\ (granted -> digits_of (lval (limbs temp)) ds)).
Proof.
  revert k temp. induction room as [|room IH]; intros k temp Ht Hk Hlt; cbn [extract_digits];
    pose proof (natural_exact _ _ Ht) as [Wt Vt]; pose proof (wf_magnitude temp Wt) as Hm;
    rewrite is_zero_spec, Vt by exact Wt; destruct (Z.eqb_spec (lval (limbs temp)) 0) as [E|E];
    try (apply wp_ret; rewrite E; repeat split; simpl; intros; try lia; auto; fail).
  - exfalso. assert (k = 0%nat) as -> by lia. simpl in Hlt. lia.
  - destruct k as [|k]; [simpl in Hlt; lia|].
    eapply wp_call; [apply (div_limb_any temp 10 Wt); lia|]. intros [[next|] rem]; cbn [fst snd].
    + intros [Hn ->]. pose proof (Z.mod_pos_bound (lval (limbs temp)) 10 ltac:(lia)).
      pose proof Hn as (Wn & Sn & Vn).
      eapply wp_call; [apply (IH k next)|].
      * rewrite Vn. exact Hn.
      * lia.
      * rewrite Vn. rewrite Nat2Z.inj_succ, Z.pow_succ_r in Hlt by lia.
        apply Z.div_lt_upper_bound; lia.
      * intros ds (Hlen & Hd & Hv). apply wp_ret. split; [simpl; lia|]. split.
        -- constructor; [unfold digit, chr_0, chr_9; lia|exact Hd].
        -- intros g. apply digits_of_step; [lia|]. rewrite <- Vn. exact (Hv g).
    + intros Hnone. apply wp_ret. split; [simpl; lia|]. split; [constructor|].
      intros g. destruct (Hnone g).
Qed.

(** Twenty decimal digits per limb are enough. *)
Lemma limbs_decimal_bound l : limbs_ok l -> lval l < 10 ^ Z.of_nat (length l * 20).
Proof.
  intros Hl. pose proof (lval_bound l Hl) as Hb. rewrite bpow_pow2 in Hb.
  eapply Z.lt_le_trans; [exact Hb|].
  rewrite Nat2Z.inj_mul, (Z.mul_comm (Z.of_nat (length l))), !Z.pow_mul_r by lia.
  apply Z.pow_le_mono_l. split; [apply Z.pow_nonneg; lia|vm_compute; discriminate].
Qed.

Lemma decimal_text_intro v s ds :
  0 < v -> Forall digit ds -> digits_of v ds -> (s = 0 \/ s = 1) ->
  decimal_text (if s =? 0 then v else - v) (rev (if s =? 0 then ds else ds ++ [chr_minus])).
Proof.
  intros Hv Hd (H1 & H2 & _) Hs. destruct (H2 ltac:(lia)) as [Hl Hne]. exists (rev ds).
  assert (Hhd : hd 0 (rev ds) = last ds 0).
  { destruct (exists_last Hne) as (l & x & ->). rewrite rev_app_distr, last_last. reflexivity. }
  split; [|split; [apply Forall_rev, Hd|split; [|split]]].
  - destruct Hs as [-> | ->]; cbn [Z.eqb].
    + rewrite (proj2 (Z.ltb_ge _ _)) by lia. reflexivity.
    + rewrite (proj2 (Z.ltb_lt _ _)) by lia. rewrite rev_app_distr. reflexivity.
  - intros E. apply Hne. apply (f_equal (@rev Z)) in E. rewrite rev_involutive in E. exact E.
  - rewrite H1. destruct Hs as [-> | ->]; cbn [Z.eqb]; lia.
  - rewrite Hhd. contradiction.
Qed.

Lemma to_string_exact a :
  bignum_wf a ->
  wp (eshkol_bignum_to_string (Some a))
    (or_null True (fun s => granted -> decimal_text (bval a) s)).
Proof.
  intros Wa. cbn [eshkol_bignum_to_string]. rewrite is_zero_spec by exact Wa.
  pose proof (wf_nonempty a Wa) as Hn. pose proof (wf_fits a Wa) as Fa. unfold fits in Fa.
  destruct (Z.eqb_spec (bval a) 0) as [E|E].
  - eapply wp_check; [apply allocate_string_spec; lia|auto|]. intros p _. apply wp_ret. cbn [or_null].
    intros _. rewrite E. exists [chr_0]. repeat split; try discriminate; auto.
    constructor; [unfold digit, chr_0, chr_9; lia|constructor].
  - cbv zeta. change (2 ^ 61) with 2305843009213693952 in *.
    eapply wp_check; [apply allocate_spec; change (2 ^ 61) with 2305843009213693952; lia|auto|]. intros p _.
    eapply wp_check; [apply bignum_alloc_spec; change (2 ^ 32) with 4294967296; lia|auto|].
    intros temp [-> _]. cbn [sign].
    assert (Hnat : natural (lval (limbs a)) (mkBignum 0 (limbs a))).
    { destruct Wa as [W1 W2 W3 W4 W5]. split; [|split; reflexivity]. constructor; auto. }
    eapply wp_call.
    { apply (extract_digits_spec _ (num_limbs a * 20) (mkBignum 0 (limbs a))); [exact Hnat|lia|].
      exact (limbs_decimal_bound _ (wf_limbs a Wa)). }
    intros ds (Hlen & Hd & Hv). cbn [limbs] in Hv.
    set (buf := if sign a =? 0 then ds else ds ++ [chr_minus]).
    assert (Hbuf : (length buf <= num_limbs a * 20 + 1)%nat).
    { subst buf. destruct (sign a =? 0); [lia|]. rewrite length_app. simpl. lia. }
    destruct (Nat.ltb_spec (length buf) (num_limbs a * 20 + 2)); [|lia].
    eapply wp_check; [apply allocate_string_spec; change (2 ^ 61) with 2305843009213693952; lia|auto|].
    intros q _. apply wp_ret. cbn [or_null]. intros g. unfold bval.
    apply decimal_text_intro; auto; [|apply Wa].
    pose proof (wf_magnitude a Wa). unfold bval in E. destruct (sign a =? 0); lia.
Qed.

End Specs.

(** ** Display *)

Lemma trim_zeros_spec l :
  limbs_ok l ->
  limbs_ok (trim_zeros l) /\ lval (trim_zeros l) = lval l /\
  (length (trim_zeros l) <= length l)%nat /\ (lval l = 0 -> trim_zeros l = []).
Proof.
  induction l as [|x l IH]; intros Hl; [repeat split; auto|].
  apply limbs_ok_cons in Hl. destruct Hl as [Hx Hl]. destruct (IH Hl) as (H1 & H2 & H3 & H4).
  unfold limb in Hx. pose proof (lval_nonneg l Hl). cbn [trim_zeros lval length].
  destruct (trim_zeros l) as [|y r] eqn:E.
  - cbn [lval] in H2. case_cmp; cbn [lval length]; repeat split; auto; try lia; try constructor;
      try constructor; unfold limb; lia.
  - repeat split; [apply limbs_ok_cons; split; [unfold limb; lia|exact H1]| | |].
    + change (lval (x :: y :: r)) with (x + B64 * lval (y :: r)). rewrite H2. reflexivity.
    + simpl in *. lia.
    + intros Hz. specialize (H4 ltac:(lia)). discriminate.
Qed.

Lemma all_zero_spec l : limbs_ok l -> forallb (fun x => x =? 0) l = (lval l =? 0).
Proof.
  induction l as [|x l IH]; intros Hl; [reflexivity|].
  apply limbs_ok_cons in Hl. destruct Hl as [Hx Hl]. cbn [forallb lval]. rewrite (IH Hl).
  unfold limb in Hx. pose proof (lval_nonneg l Hl).
  destruct (Z.eqb_spec x 0), (Z.eqb_spec (lval l) 0), (Z.eqb_spec (x + B64 * lval l) 0); simpl; lia.
Qed.

Lemma display_digits_spec room work :
  limbs_ok work -> lval work < 10 ^ Z.of_nat room ->
  exists ds, display_digits room work = Some ds /\ Forall digit ds /\ digits_of (lval work) ds.
Proof.
  revert work. induction room as [|room IH]; intros work Hw Hlt; cbn [display_digits];
    pose proof (lval_nonneg work Hw) as Hm; rewrite (all_zero_spec work Hw).
  - simpl in Hlt. exists []. assert (E : lval work = 0) by lia. rewrite E.
    destruct work; repeat split; auto; lia.
  - destruct (Z.eqb_spec (lval work) 0) as [E|E].
    + exists []. rewrite E. destruct work; repeat split; auto; lia.
    + destruct work as [|x work0]; [simpl in E; lia|]. set (work := x :: work0) in *.
      destruct (div_limb_loop work 10) as [q rem] eqn:Ed.
      destruct (div_limb_loop_spec work 10 q rem Hw ltac:(lia) Ed) as (Hq & Hlq & Hv & Hrem).
      destruct (trim_zeros_spec q Hq) as (T1 & T2 & _ & _).
      assert (Eq : lval q = lval work / 10) by (apply (Z.div_unique _ _ _ rem); lia).
      assert (Er : rem = lval work mod 10) by (apply (Z.mod_unique _ _ (lval q) rem); lia).
      destruct (IH (trim_zeros q) T1) as (ds & Eds & Hd & Hdo).
      { rewrite T2, Eq. rewrite Nat2Z.inj_succ, Z.pow_succ_r in Hlt by lia.
        apply Z.div_lt_upper_bound; lia. }
      rewrite Eds. cbn [option_map]. eexists. split; [reflexivity|].
      rewrite u64_small, Er by lia. rewrite T2, Eq in Hdo. split.
      * constructor; [|exact Hd]. pose proof (Z.mod_pos_bound (lval work) 10 ltac:(lia)).
        unfold digit, chr_0, chr_9. lia.
      * apply digits_of_step; [lia|exact Hdo].
Qed.

Lemma print_digits_spec fuel v acc :
  0 < v < 10 ^ Z.of_nat fuel ->
  exists ds, print_digits fuel v acc = rev ds ++ acc /\ Forall digit ds /\ digits_of v ds.
Proof.
  revert v acc. induction fuel as [|fuel IH]; intros v acc Hv; [simpl in Hv; lia|].
  cbn [print_digits]. pose proof (Z.mod_pos_bound v 10 ltac:(lia)) as Hmod.
  pose proof (Z.div_mod v 10 ltac:(lia)) as Hdm.
  assert (Hc : digit (chr_0 + v mod 10)) by (unfold digit, chr_0, chr_9; lia).
  destruct (Z.eqb_spec (v / 10) 0) as [E|E].
  - exists [chr_0 + v mod 10]. split; [reflexivity|]. split; [auto|].
    apply digits_of_step; [lia|]. rewrite E. repeat split; auto; lia.
  - destruct (IH (v / 10) (chr_0 + v mod 10 :: acc)) as (ds & Eds & Hd & Hdo).
    { rewrite Nat2Z.inj_succ, Z.pow_succ_r in Hv by lia. split; [|apply Z.div_lt_upper_bound; lia].
      pose proof (Z.div_pos v 10). lia. }
    rewrite Eds. exists (chr_0 + v mod 10 :: ds). split; [|split; [auto|apply digits_of_step; [lia|exact Hdo]]].
    cbn [rev]. rewrite <- app_assoc. reflexivity.
Qed.

Lemma decimal_text_signed v s ds :
  0 < v -> Forall digit ds -> digits_of v ds -> (s = 0 \/ s = 1) ->
  decimal_text (if s =? 0 then v else - v) ((if s =? 0 then [] else [chr_minus]) ++ rev ds).
Proof.
  intros Hv Hd Hdo Hs. pose proof (decimal_text_intro v s ds Hv Hd Hdo Hs) as H.
  destruct Hs as [-> | ->]; cbn [Z.eqb] in *; [exact H|]. rewrite rev_app_distr in H. exact H.
Qed.

Lemma display_exact a :
  bignum_wf a -> (num_limbs a <= 12)%nat ->
  exists s, eshkol_bignum_display (Some a) = Some s /\ decimal_text (bval a) s.
Proof.
  intros Wa Hn. cbn [eshkol_bignum_display]. rewrite is_zero_spec by exact Wa.
  pose proof (wf_magnitude a Wa) as Hm.
  destruct (Z.eqb_spec (bval a) 0) as [E|E].
  - exists [chr_0]. split; [reflexivity|]. rewrite E. exists [chr_0]. repeat split; try discriminate; auto.
    constructor; [unfold digit, chr_0, chr_9; lia|constructor].
  - assert (Hpos : 0 < lval (limbs a)) by (unfold bval in E; destruct (sign a =? 0); lia).
    unfold bval. destruct (Nat.eqb_spec (num_limbs a) 1) as [E1|E1].
    + assert (E2 : lval (limbs a) = nth 0 (limbs a) 0).
      { unfold num_limbs in E1. destruct (limbs a) as [|x [|]]; try discriminate. simpl. lia. }
      pose proof (limbs_ok_nth (limbs a) 0 (wf_limbs a Wa)) as Hl. unfold limb in Hl.
      destruct (print_digits_spec 20 (nth 0 (limbs a) 0) []) as (ds & Eds & Hd & Hdo);
        [change (10 ^ Z.of_nat 20) with 100000000000000000000; lia|].
      unfold print_u64. rewrite Eds, app_nil_r. eexists. split; [reflexivity|].
      apply decimal_text_signed; auto; [rewrite E2; exact Hdo|apply Wa].
    + destruct (Nat.leb_spec (num_limbs a * 20 + 2) 256); [|lia].
      destruct (display_digits_spec 256 (limbs a)) as (ds & Eds & Hd & Hdo); [apply Wa| |].
      { eapply Z.lt_le_trans; [apply limbs_decimal_bound, Wa|].
        apply Z.pow_le_mono_r; unfold num_limbs in *; lia. }
      rewrite Eds. cbn [option_map]. eexists. split; [reflexivity|].
      apply decimal_text_signed; auto. apply Wa.
Qed.

(** Canonical text is unique, and reading it gives the number back. *)
Lemma parse_decimal_text z s : decimal_text z s -> parse_decimal s = Some z.
Proof.
  intros (ds & -> & Hd & Hne & Hv & _). pose proof (proj2 (all_digits_spec ds) Hd) as Ha.
  destruct (Z.ltb_spec z 0) as [Hz|Hz]; cbn [app parse_decimal].
  - cbn [Z.eqb orb]. change (chr_minus =? chr_minus) with true. cbn [orb]. rewrite Ha.
    destruct ds; [contradiction|]. cbn [length Nat.eqb negb andb]. f_equal. lia.
  - destruct ds as [|c cs]; [contradiction|]. cbn [parse_decimal].
    inversion Hd as [|? ? Hc _]; subst. unfold digit, chr_0, chr_9 in Hc.
    rewrite !(proj2 (Z.eqb_neq _ _)) by (unfold chr_minus, chr_plus; lia). cbn [orb]. rewrite Ha.
    cbn [length Nat.eqb negb andb]. f_equal. lia.
Qed.
