(* ===== verification/DecimalTheorems.v ===== *)
(** * What reading and writing bignums guarantees *)

From Stdlib Require Import String ZArith List Lia Bool.
From S2P Require Import Prelude Effects Limbs KnuthD Bignum BignumSpec Arena ArenaSpec ArenaRuns HostHeap BignumTheorems BignumString.
Import ListNotations.
Open Scope Z_scope.
Open Scope effect_scope.

Lemma from_string_yields {St} {A : Arena St} {L : ArenaLaws St} txt z s :
  parse_decimal txt = Some z -> arena_inv s ->
  yields (eshkol_bignum_from_string (Some txt)) s (value_fits (Z.abs z)) z.
Proof.
  intros Hp Hs. apply yields_intro; [|exact Hs]. intros G.
  pose proof (from_string_exact txt ltac:(intros E; congruence)) as H. rewrite Hp in H. exact H.
Qed.

Lemma value_fits_wf a : bignum_wf a -> value_fits (Z.abs (bval a)).
Proof.
  intros W. exists (num_limbs a). split; [apply W|]. rewrite bval_abs by exact W.
  apply lval_bound, W.
Qed.

Lemma to_string_granted {St} {A : Arena St} {L : ArenaLaws St} {G : Granted} a :
  bignum_wf a -> granted ->
  wp (eshkol_bignum_to_string (Some a)) (fun r => exists x, r = Some x /\ decimal_text (bval a) x).
Proof.
  intros Wa g. refine (wp_mono _ _ _ _ (to_string_exact a Wa)). intros r Hr.
  destruct (or_null_granted True _ r g I Hr) as (x & -> & Hx). eauto.
Qed.

(** C34 Print and read: whenever memory is granted, [eshkol_bignum_to_string]
    returns the canonical decimal text of the number (minus sign exactly for
    negative numbers, no leading zero), without overrunning its digit buffer of 20
    characters per limb, and [eshkol_bignum_from_string] reads that text back to
    the same number. *)
Theorem decimal_round_trip {St} {A : Arena St} {L : ArenaLaws St} a s o s' :
  bignum_wf a -> arena_inv s -> eshkol_bignum_to_string (Some a) s = (o, s', false) ->
  exists txt, o = Ret (Some txt) /\ decimal_text (bval a) txt /\
    forall s2, arena_inv s2 -> yields (eshkol_bignum_from_string (Some txt)) s2 True (bval a).
Proof.
  intros Wa Hs E.
  destruct (wp_granted_run _ _ _ _ _ (fun G => to_string_granted a Wa) Hs E)
    as (Hs' & r & -> & txt & -> & Ht).
  exists txt. split; [reflexivity|]. split; [exact Ht|].
  intros s2 Hs2. destruct (from_string_yields txt (bval a) s2 (parse_decimal_text _ _ Ht) Hs2)
    as (r & s3 & f & E3 & Hi & Hr).
  exists r, s3, f. split; [exact E3|]. split; [exact Hi|]. destruct r; [exact Hr|].
  destruct Hr as [->|Hn]; [left; reflexivity|]. destruct (Hn (value_fits_wf a Wa)).
Qed.

Lemma decimal_round_trip_witness :
  exists txt s', eshkol_bignum_to_string (Some big_b) bench = (Ret (Some txt), s', false) /\
    decimal_text (bval big_b) txt.
Proof.
  destruct (eshkol_bignum_to_string (Some big_b) bench) as [[o s'] f] eqn:E.
  assert (f = false) as ->.
  { pose proof (f_equal snd E) as Ef. cbn [snd] in Ef. rewrite <- Ef. vm_compute. reflexivity. }
  destruct (decimal_round_trip big_b bench o s' big_b_wf bench_inv E) as (txt & -> & Ht & _).
  exists txt, s'. split; [reflexivity|exact Ht].
Defined.

(** C38 The reader accepts exactly the decimal numerals: an optional sign and one
    or more digits denote their number; every other text (empty, a lone sign, any
    other character) is answered with null, and no text makes it crash. *)
Theorem from_string_decides {St} {A : Arena St} {L : ArenaLaws St} txt s :
  Z.of_nat (length txt) < 2 ^ 31 -> arena_inv s ->
  match parse_decimal txt with
  | Some z => yields (eshkol_bignum_from_string (Some txt)) s (value_fits (Z.abs z)) z
  | None => exists s' f, eshkol_bignum_from_string (Some txt) s = (Ret None, s', f) /\ arena_inv s'
  end.
Proof.
  intros Hl Hs. destruct (parse_decimal txt) as [z|] eqn:E; [exact (from_string_yields txt z s E Hs)|].
  pose proof (@from_string_exact _ _ _ False txt (fun _ => Hl)) as H. rewrite E in H.
  specialize (H s Hs). destruct (eshkol_bignum_from_string (Some txt) s) as [[o s'] f].
  destruct (H (False_ind _)) as [Hs' Ho]. destruct o; try contradiction. subst. eauto.
Qed.

Lemma from_string_decides_witness :
  (exists s' f, eshkol_bignum_from_string (Some [chr_minus; 49; 120]) bench = (Ret None, s', f) /\
    arena_inv s') /\
  yields (eshkol_bignum_from_string (Some [chr_minus; 49; 50])) bench (value_fits 12) (-12).
Proof.
  split; [exact (from_string_decides [chr_minus; 49; 120] bench ltac:(reflexivity) bench_inv)|].
  exact (from_string_decides [chr_minus; 49; 50] bench ltac:(reflexivity) bench_inv).
Defined.

(** Canonical text determines itself. *)
Lemma dec_value_inj n ds es :
  length ds = n -> length es = n -> Forall digit ds -> Forall digit es ->
  forall acc acc', dec_value acc ds = dec_value acc' es -> acc = acc' /\ ds = es.
Proof.
  revert ds es. induction n as [|n IH]; intros ds es L1 L2 D1 D2 acc acc' H.
  - destruct ds, es; try discriminate. simpl in H. auto.
  - destruct ds as [|c ds], es as [|d es]; try discriminate. inversion D1; inversion D2; subst.
    cbn [dec_value] in H. injection L1 as L1. injection L2 as L2.
    destruct (IH ds es L1 L2 ltac:(assumption) ltac:(assumption) _ _ H) as [Ha ->].
    unfold digit, chr_0, chr_9 in *. assert (acc = acc' /\ c = d) as [-> ->] by lia. auto.
Qed.

Lemma dec_value_bounds acc ds :
  0 <= acc -> Forall digit ds ->
  acc * 10 ^ Z.of_nat (length ds) <= dec_value acc ds < (acc + 1) * 10 ^ Z.of_nat (length ds).
Proof.
  revert acc. induction ds as [|c ds IH]; intros acc Ha Hd; [simpl; lia|].
  inversion Hd as [|? ? Hc Hd']; subst. unfold digit, chr_0, chr_9 in Hc. cbn [dec_value length].
  specialize (IH (acc * 10 + (c - 48)) ltac:(lia) Hd'). rewrite Nat2Z.inj_succ, Z.pow_succ_r by lia.
  pose proof (Z.pow_pos_nonneg 10 (Z.of_nat (length ds)) ltac:(lia) ltac:(lia)). unfold chr_0 in *. nia.
Qed.

Lemma canonical_digits_unique ds es :
  Forall digit ds -> Forall digit es -> ds <> [] -> es <> [] ->
  (hd 0 ds = chr_0 -> ds = [chr_0]) -> (hd 0 es = chr_0 -> es = [chr_0]) ->
  dec_value 0 ds = dec_value 0 es -> ds = es.
Proof.
  intros Dd De Nd Ne Cd Ce H.
  assert (Hlow : forall l, Forall digit l -> l <> [] -> (hd 0 l = chr_0 -> l = [chr_0]) ->
            (length l = 1%nat) \/ 10 ^ Z.of_nat (length l - 1) <= dec_value 0 l).
  { intros [|c l] Dl Nl Cl; [contradiction|]. inversion Dl as [|? ? Hc Dl']; subst.
    destruct (Z.eq_dec c chr_0) as [E|E]; [left; rewrite (Cl E); reflexivity|right].
    cbn [dec_value length]. replace (S (length l) - 1)%nat with (length l) by lia.
    unfold digit, chr_0, chr_9 in *.
    pose proof (dec_value_bounds (0 * 10 + (c - 48)) l ltac:(lia) Dl').
    pose proof (Z.pow_pos_nonneg 10 (Z.of_nat (length l)) ltac:(lia) ltac:(lia)). unfold chr_0 in *. nia. }
  pose proof (dec_value_bounds 0 ds ltac:(lia) Dd) as Bd. pose proof (dec_value_bounds 0 es ltac:(lia) De) as Be.
  assert (Hlen : length ds = length es).
  { assert (Hmono : forall n m, (n <= m - 1)%nat -> 10 ^ Z.of_nat n <= 10 ^ Z.of_nat (m - 1))
      by (intros; apply Z.pow_le_mono_r; lia).
    destruct (Nat.lt_trichotomy (length ds) (length es)) as [Hl|[Hl|Hl]]; [|exact Hl|]; exfalso.
    - destruct (Hlow es De Ne Ce) as [H1|H1]; [destruct ds; [contradiction|simpl in *; lia]|].
      specialize (Hmono (length ds) (length es) ltac:(lia)). lia.
    - destruct (Hlow ds Dd Nd Cd) as [H1|H1]; [destruct es; [contradiction|simpl in *; lia]|].
      specialize (Hmono (length es) (length ds) ltac:(lia)). lia. }
  apply (dec_value_inj (length es) ds es Hlen eq_refl Dd De 0 0 H).
Qed.

Lemma decimal_text_unique z s t : decimal_text z s -> decimal_text z t -> s = t.
Proof.
  intros (ds & -> & D1 & N1 & V1 & C1) (es & -> & D2 & N2 & V2 & C2). f_equal.
  apply canonical_digits_unique; auto. congruence.
Qed.

(** Display agrees with printing: for numbers of up to 12 limbs (the stack
    buffer's capacity) [eshkol_bignum_display] writes, without overrunning its
    256-byte buffer, the very characters [eshkol_bignum_to_string] returns. *)
Theorem display_agrees_with_to_string {St} {A : Arena St} {L : ArenaLaws St} a s txt s' :
  bignum_wf a -> (num_limbs a <= 12)%nat -> arena_inv s ->
  eshkol_bignum_to_string (Some a) s = (Ret (Some txt), s', false) ->
  eshkol_bignum_display (Some a) = Some txt.
Proof.
  intros Wa Hn Hs E. destruct (display_exact a Wa Hn) as (d & Ed & Hd). rewrite Ed. f_equal.
  destruct (wp_granted_run _ _ _ _ _ (fun G => to_string_granted a Wa) Hs E)
    as (_ & r & Er & t & -> & Ht). injection Er as <-.
  exact (decimal_text_unique _ _ _ Hd Ht).
Qed.

Lemma display_agrees_with_to_string_witness :
  exists txt, eshkol_bignum_display (Some big_b) = Some txt.
Proof.
  destruct (eshkol_bignum_to_string (Some big_b) bench) as [[o s'] f] eqn:E.
  assert (Ho : exists txt, o = Ret (Some txt) /\ f = false).
  { pose proof (f_equal (fun r => fst (fst r)) E) as Eo. pose proof (f_equal snd E) as Ef.
    cbn [fst snd] in Eo, Ef. rewrite <- Eo, <- Ef. vm_compute. eexists. split; reflexivity. }
  destruct Ho as (txt & -> & ->). exists txt.
  apply (display_agrees_with_to_string big_b bench txt s' big_b_wf ltac:(unfold num_limbs; simpl; lia) bench_inv E).
Defined.

(** Printing out of memory: when a quotient of the digit loop is refused, the
    loop ends early and [eshkol_bignum_to_string] returns, instead of null, a
    string with only the low digits of the number. *)
Theorem to_string_out_of_memory :
  exists txt s', eshkol_bignum_to_string (Some big_a) (nearly_full 200) = (Ret (Some txt), s', true) /\
    parse_decimal txt = Some 1621 /\ bval big_a = 18446744073709551621.
Proof.
  destruct (eshkol_bignum_to_string (Some big_a) (nearly_full 200)) as [[o s'] f] eqn:E.
  vm_compute in E. injection E as <- <- <-. do 2 eexists. split; [reflexivity|].
  split; vm_compute; reflexivity.
Qed.
