(* ===== verification/BignumBits.v ===== *)
(** * Bitwise operations and shifts of bignums

    The end of lib/core/bignum.cpp: and, or, xor on two's-complement copies in
    fixed stack arrays of 128 limbs, not, and the arithmetic shift. *)

From Stdlib Require Import String ZArith List Lia Bool.
From S2P Require Import Prelude Effects Limbs KnuthD Bignum BignumSpec.
Import ListNotations.
Open Scope Z_scope.
Open Scope effect_scope.

(** ** Operations *)

(** Flip all bits and add one: the negation loop of both conversions. *)
Fixpoint negate_loop (l : list Z) (carry : Z) : list Z :=
  match l with
  | [] => []
  | x :: l' =>
    let sum := u128 (u64 (Z.lnot x) + carry) in
    u64 sum :: negate_loop l' (u64 (Z.shiftr sum 64))
  end.

(** The first [n] limbs, zeros beyond the end. *)
Definition pad (n : nat) (l : list Z) : list Z := firstn n (l ++ repeat 0 n).

Definition to_twos_complement (a : bignum) (n : nat) : list Z :=
  let out := pad n (limbs a) in
  if sign a =? 0 then out else negate_loop out 1.

(** [for (i = a->num_limbs; i < n; i++) tc[i] = ext]. *)
Definition sign_extend (a : bignum) (n : nat) (tc : list Z) : list Z :=
  let ext := if sign a =? 0 then 0 else UINT64_MAX in
  firstn (num_limbs a) tc ++ repeat ext (n - num_limbs a).

Section Operations.
  Context {St : Type} {A : Arena St}.

Definition from_twos_complement (tc : list Z) (n : nat) : M St (option bignum) :=
  let negative := negb (Z.shiftr (nth (n - 1) tc 0) 63 =? 0) in
  let work := if negative then negate_loop tc 1 else tc in
  let trimmed := normalize_limbs work in
  check! result := bignum_alloc (length trimmed) in
  ret (Some (mkBignum (if negative then 1 else 0) trimmed)).

(** The body [and], [or] and [xor] share, with the limb operation [f]. *)
Definition bitwise_op (f : Z -> Z -> Z) (a b : option bignum) : M St (option bignum) :=
  let! null := is_null_arena in
  if null then ret None
  else
    match a, b with
    | Some a, Some b =>
      let n := ((if (num_limbs b <? num_limbs a)%nat then num_limbs a else num_limbs b) + 1)%nat in
      let n := if (127 <? n)%nat then 127%nat else n in
      let tc_a := sign_extend a n (to_twos_complement a n) in
      let tc_b := sign_extend b n (to_twos_complement b n) in
      let tc_r := map (fun p => f (fst p) (snd p)) (firstn n (combine tc_a tc_b)) in
      from_twos_complement tc_r n
    | _, _ => ret None
    end.

Definition eshkol_bignum_bitwise_and := bitwise_op Z.land.
Definition eshkol_bignum_bitwise_or := bitwise_op Z.lor.
Definition eshkol_bignum_bitwise_xor := bitwise_op Z.lxor.

Definition eshkol_bignum_bitwise_not (a : option bignum) : M St (option bignum) :=
  let! null := is_null_arena in
  if null then ret None
  else
    match a with
    | None => ret None
    | Some x =>
      let! one := eshkol_bignum_from_int64 1 in
      if negb (sign x =? 0) then
        let! abs_a := eshkol_bignum_neg a in eshkol_bignum_sub abs_a one
      else
        let! a_plus_1 := eshkol_bignum_add a one in eshkol_bignum_neg a_plus_1
    end.

(** [rl[i] |= v]; outside the array it corrupts memory. *)
Definition or_at (rl : list Z) (i : Z) (v : Z) : option (list Z) :=
  if (0 <=? i) && (i <? Z.of_nat (length rl)) then
    let k := Z.to_nat i in
    Some (firstn k rl ++ Z.lor (nth k rl 0) v :: skipn (S k) rl)
  else None.

(** The left-shift loop over the limbs [al] from index [i]; index arithmetic is
    32-bit. *)
Fixpoint shl_limbs_loop (al : list Z) (i word_shift bit_shift new_limbs : Z) (rl : list Z)
  : option (list Z) :=
  match al with
  | [] => Some rl
  | x :: al' =>
    let v := if bit_shift =? 0 then x else u64 (Z.shiftl x bit_shift) in
    match or_at rl (u32 (i + word_shift)) v with
    | None => None
    | Some rl =>
      let next := u32 (u32 (i + word_shift) + 1) in
      if (bit_shift >? 0) && (next <? new_limbs) then
        match or_at rl next (Z.shiftr x (64 - bit_shift)) with
        | None => None
        | Some rl => shl_limbs_loop al' (i + 1) word_shift bit_shift new_limbs rl
        end
      else shl_limbs_loop al' (i + 1) word_shift bit_shift new_limbs rl
    end
  end.

(** The right-shift loop on the limbs from [word_shift] on. *)
Fixpoint shr_limbs_loop (al : list Z) (bit_shift : Z) : list Z :=
  match al with
  | [] => []
  | x :: al' =>
    let v := if bit_shift =? 0 then x else Z.shiftr x bit_shift in
    let v := match al' with
             | y :: _ => if bit_shift >? 0 then Z.lor v (u64 (Z.shiftl y (64 - bit_shift))) else v
             | [] => v
             end in
    v :: shr_limbs_loop al' bit_shift
  end.

Definition eshkol_bignum_shift (a : option bignum) (count : Z) : M St (option bignum) :=
  let! null := is_null_arena in
  if null then ret None
  else
    match a with
    | None => ret None
    | Some x =>
      if eshkol_bignum_is_zero a || (count =? 0) then eshkol_bignum_from_int64 0
      else if count >? 0 then
        let word_shift := u32 (count / 64) in
        let bit_shift := u32 (count mod 64) in
        let new_limbs := u32 (u32 (Z.of_nat (num_limbs x) + word_shift) + 1) in
        check! result := bignum_alloc (Z.to_nat new_limbs) in
        match shl_limbs_loop (limbs x) 0 word_shift bit_shift new_limbs (limbs result) with
        | None => crash
        | Some rl => ret (Some (mkBignum (sign x) (normalize_limbs rl)))
        end
      else
        let rcount := s64 (- count) in
        let word_shift := u32 (Z.quot rcount 64) in
        let bit_shift := u32 (Z.rem rcount 64) in
        if word_shift >=? Z.of_nat (num_limbs x) then
          (if negb (sign x =? 0) then eshkol_bignum_from_int64 (-1) else eshkol_bignum_from_int64 0)
        else
          let new_limbs := (num_limbs x - Z.to_nat word_shift)%nat in
          check! result := bignum_alloc new_limbs in
          let r := mkBignum (sign x)
                     (normalize_limbs (shr_limbs_loop (skipn (Z.to_nat word_shift) (limbs x)) bit_shift)) in
          if negb (sign x =? 0) && eshkol_bignum_is_zero (Some r)
          then eshkol_bignum_from_int64 (-1)
          else ret (Some r)
    end.

End Operations.

(** ** Bit operations in general *)

(** What [and], [or] and [xor] have in common: they act bit by bit, and two
    zero bits give a zero bit. *)
Class BitOp (f : Z -> Z -> Z) : Type := {
  bit_fun : bool -> bool -> bool;
  bit_fun_ff : bit_fun false false = false;
  bit_spec : forall a b i, 0 <= i -> Z.testbit (f a b) i = bit_fun (Z.testbit a i) (Z.testbit b i);
}.

#[export] Instance land_bitop : BitOp Z.land := {
  bit_fun := andb; bit_fun_ff := eq_refl; bit_spec := fun a b i _ => Z.land_spec a b i }.
#[export] Instance lor_bitop : BitOp Z.lor := {
  bit_fun := orb; bit_fun_ff := eq_refl; bit_spec := fun a b i _ => Z.lor_spec a b i }.
#[export] Instance lxor_bitop : BitOp Z.lxor := {
  bit_fun := xorb; bit_fun_ff := eq_refl; bit_spec := fun a b i _ => Z.lxor_spec a b i }.

Section BitOps.
  Context {f : Z -> Z -> Z} {B : BitOp f}.

Lemma bitop_shiftr a b k : 0 <= k -> Z.shiftr (f a b) k = f (Z.shiftr a k) (Z.shiftr b k).
Proof.
  intros Hk. apply Z.bits_inj'. intros i Hi.
  rewrite Z.shiftr_spec, !bit_spec, !Z.shiftr_spec by lia. reflexivity.
Qed.

Lemma bitop_0 : f 0 0 = 0.
Proof. apply Z.bits_inj'. intros i Hi. rewrite bit_spec, !Z.bits_0 by lia. apply bit_fun_ff. Qed.

(** Words give a word. *)
Lemma bitop_word k a b : 0 <= k -> 0 <= a < 2 ^ k -> 0 <= b < 2 ^ k -> 0 <= f a b < 2 ^ k.
Proof.
  intros Hk Ha Hb. pose proof (bitop_shiftr a b k Hk) as H.
  rewrite !Z.shiftr_div_pow2 in H by lia. rewrite (Z.div_small a), (Z.div_small b), bitop_0 in H by lia.
  apply Z.div_small_iff in H; [|apply Z.pow_nonzero; lia].
  pose proof (Z.pow_pos_nonneg 2 k ltac:(lia) Hk). lia.
Qed.

Lemma bitop_mod a b k : 0 <= k -> f (a mod 2 ^ k) (b mod 2 ^ k) = f a b mod 2 ^ k.
Proof.
  intros Hk. apply Z.bits_inj'. intros i Hi. rewrite bit_spec by lia.
  destruct (Z.ltb_spec i k).
  - rewrite !Z.mod_pow2_bits_low, bit_spec by lia. reflexivity.
  - rewrite !Z.mod_pow2_bits_high by lia. apply bit_fun_ff.
Qed.

(** Numbers between [-2^k] and [2^k] give such a number. *)
Lemma bitop_range a b k :
  0 <= k -> - 2 ^ k <= a < 2 ^ k -> - 2 ^ k <= b < 2 ^ k -> - 2 ^ k <= f a b < 2 ^ k.
Proof.
  intros Hk Ha Hb. pose proof (Z.pow_pos_nonneg 2 k ltac:(lia) Hk) as Hp.
  assert (Hs : forall x, - 2 ^ k <= x < 2 ^ k <-> Z.shiftr x k = 0 \/ Z.shiftr x k = -1).
  { intros x. rewrite Z.shiftr_div_pow2 by lia. pose proof (Z.div_mod x (2 ^ k) ltac:(lia)).
    pose proof (Z.mod_pos_bound x (2 ^ k) ltac:(lia)). split; [|intros [E|E]; nia].
    intros Hx. assert (-1 <= x / 2 ^ k <= 0) by nia. lia. }
  apply Hs. rewrite bitop_shiftr by lia. apply Hs in Ha, Hb.
  assert (Hb1 : forall x y, (x = 0 \/ x = -1) -> (y = 0 \/ y = -1) -> f x y = 0 \/ f x y = -1).
  { intros x y Hx Hy. destruct (bit_fun (Z.testbit x 0) (Z.testbit y 0)) eqn:E; [right|left];
      apply Z.bits_inj'; intros i Hi; rewrite bit_spec by lia;
      destruct Hx as [-> | ->], Hy as [-> | ->]; rewrite ?Z.bits_0, ?Z.bits_m1 in *; auto; lia. }
  auto.
Qed.

(** Limb by limb. *)
Definition map2_limbs (la lb : list Z) : list Z := map (fun p => f (fst p) (snd p)) (combine la lb).

Lemma map2_limbs_spec la lb :
  limbs_ok la -> limbs_ok lb -> length la = length lb ->
  limbs_ok (map2_limbs la lb) /\ length (map2_limbs la lb) = length la /\
  lval (map2_limbs la lb) = f (lval la) (lval lb).
Proof.
  revert lb. induction la as [|x la IH]; intros [|y lb] Ha Hb Hl; try discriminate.
  - simpl. rewrite bitop_0. repeat split. constructor.
  - apply limbs_ok_cons in Ha, Hb. destruct Ha as [Hx Ha], Hb as [Hy Hb]. injection Hl as Hl.
    destruct (IH lb Ha Hb Hl) as (H1 & H2 & H3). unfold limb in Hx, Hy.
    pose proof (bitop_word 64 x y ltac:(lia) ltac:(rewrite pow2_64; lia) ltac:(rewrite pow2_64; lia)) as Hw.
    rewrite pow2_64 in Hw.
    unfold map2_limbs in *. cbn [combine map length lval fst snd]. repeat split.
    + apply limbs_ok_cons. split; [unfold limb; lia|exact H1].
    + congruence.
    + rewrite H3. rewrite <- pow2_64. apply Z.bits_inj'. intros i Hi.
      rewrite (bit_spec (f := f) (x + _)), !testbit_split by (rewrite ?pow2_64; lia).
      destruct (Z.ltb_spec i 64); apply bit_spec; lia.
Qed.

End BitOps.

(** ** Two's complement *)

Lemma negate_loop_spec l c :
  limbs_ok l -> c = 0 \/ c = 1 ->
  limbs_ok (negate_loop l c) /\ length (negate_loop l c) = length l /\
  exists c', (c' = 0 \/ c' = 1) /\
    lval (negate_loop l c) + bpow (length l) * c' = bpow (length l) - 1 - lval l + c.
Proof.
  revert c. induction l as [|x l IH]; intros c Hl Hc.
  - repeat split; [constructor|]. exists c. split; [exact Hc|]. cbn [negate_loop length lval].
    rewrite bpow_0. lia.
  - apply limbs_ok_cons in Hl. destruct Hl as [Hx Hl]. unfold limb in Hx. cbn [negate_loop length].
    assert (En : u64 (Z.lnot x) = B64 - 1 - x).
    { unfold Z.lnot, u64. rewrite pow2_64. symmetry. apply (Z.mod_unique _ _ (-1)); lia. }
    rewrite En, u128_small by lia. set (s := B64 - 1 - x + c).
    pose proof (u64_split s) as Hs. pose proof (u64_range s).
    pose proof (shr64_bound s 2 ltac:(subst s; lia)) as Hsh.
    rewrite (u64_small (Z.shiftr s 64)) by lia.
    destruct (IH (Z.shiftr s 64) Hl ltac:(lia)) as (H1 & H2 & c' & Hc' & H3).
    split; [apply limbs_ok_cons; split; [apply limb_u64|exact H1]|]. split; [simpl; congruence|].
    exists c'. split; [exact Hc'|]. cbn [lval]. rewrite bpow_S. subst s. nia.
Qed.

Lemma negate_loop_app l1 l2 c :
  exists c', negate_loop (l1 ++ l2) c = negate_loop l1 c ++ negate_loop l2 c'.
Proof.
  revert c. induction l1 as [|x l1 IH]; intros c; [exists c; reflexivity|].
  cbn [app negate_loop]. destruct (IH (u64 (Z.shiftr (u128 (u64 (Z.lnot x) + c)) 64))) as [c' ->].
  exists c'. reflexivity.
Qed.

Lemma lval_repeat_max n : lval (repeat UINT64_MAX n) = bpow n - 1.
Proof. induction n as [|n IH]; [reflexivity|]. cbn [repeat lval]. rewrite IH, bpow_S. lia. Qed.

Lemma pad_longer n l : (length l <= n)%nat -> pad n l = l ++ repeat 0 (n - length l).
Proof.
  intros Hn. unfold pad. rewrite firstn_app, firstn_all2 by lia. f_equal.
  replace n with ((n - length l) + length l)%nat at 2 by lia.
  rewrite repeat_app, firstn_app, firstn_all2, repeat_length, Nat.sub_diag by (rewrite repeat_length; lia).
  rewrite firstn_O, app_nil_r. reflexivity.
Qed.

(** The two's-complement copy denotes the number modulo [2^(64 n)]. *)
Lemma twos_complement_value a n :
  bignum_wf a -> (num_limbs a <= n)%nat ->
  let tc := sign_extend a n (to_twos_complement a n) in
  limbs_ok tc /\ length tc = n /\ lval tc = bval a mod bpow n.
Proof.
  intros W Hn. unfold sign_extend, to_twos_complement, num_limbs in *. rewrite pad_longer by lia.
  pose proof (wf_limbs a W) as Hl. pose proof (lval_bound _ Hl) as Hb. pose proof (wf_magnitude a W) as Hm.
  pose proof (bpow_pos (length (limbs a))) as Hp. pose proof (bpow_pos (n - length (limbs a))) as Hq.
  assert (Eb : bpow n = bpow (length (limbs a)) * bpow (n - length (limbs a)))
    by (rewrite <- bpow_add; f_equal; lia).
  unfold bval. destruct (wf_sign a W) as [Es|Es]; rewrite Es; cbn [Z.eqb]; cbv zeta.
  - rewrite firstn_app, firstn_all, Nat.sub_diag, firstn_O, app_nil_r.
    split; [apply limbs_ok_app_intro; [exact Hl|apply limbs_ok_repeat]|].
    split; [rewrite length_app, repeat_length; lia|].
    rewrite lval_app, lval_repeat, Z.mod_small; nia.
  - destruct (negate_loop_app (limbs a) (repeat 0 (n - length (limbs a))) 1) as [c' ->].
    destruct (negate_loop_spec (limbs a) 1 Hl ltac:(auto)) as (N1 & N2 & c2 & Hc2 & N3).
    set (r := negate_loop (limbs a) 1) in *. rewrite <- N2, firstn_app, firstn_all, Nat.sub_diag, firstn_O, app_nil_r.
    assert (Hz : lval (limbs a) <> 0) by (intros E; apply (wf_zero a W) in E; lia).
    pose proof (lval_nonneg r N1).
    split; [apply limbs_ok_app_intro; [exact N1|]; apply Forall_forall; intros y Hy;
            apply repeat_spec in Hy; subst; unfold limb; lia|].
    split; [rewrite length_app, repeat_length; lia|].
    rewrite lval_app, N2, lval_repeat_max.
    apply (Z.mod_unique _ _ (-1)); [left; nia|]. destruct Hc2 as [-> | ->]; nia.
Qed.

Section Specs.
  Context {St : Type} {A : Arena St} {L : ArenaLaws St} {G : Granted}.

(** Back from two's complement, for values the limbs can represent. *)
Lemma from_twos_complement_spec tc n v :
  limbs_ok tc -> length tc = n -> (0 < n)%nat -> fits n ->
  lval tc = v mod bpow n -> - bpow n <= 2 * v < bpow n ->
  wp (from_twos_complement tc n) (or_null True (denotes v)).
Proof.
  intros Hl Hlen Hn Hf Hv Hr. unfold from_twos_complement.
  pose proof (bpow_pos (n - 1)) as Hp. pose proof (bpow_pos n) as Hpn.
  assert (Hne : tc <> []) by (intros ->; simpl in Hlen; lia).
  assert (Eb : bpow n = B64 * bpow (n - 1)) by (rewrite <- bpow_S; f_equal; lia).
  assert (Htop : lval tc = lval (firstn (n - 1) tc) + bpow (n - 1) * nth (n - 1) tc 0).
  { rewrite <- lval_firstn_S by lia. rewrite firstn_all2 by lia. reflexivity. }
  pose proof (lval_nonneg _ (limbs_ok_firstn (n - 1) tc Hl)) as Hlo.
  pose proof (lval_bound _ (limbs_ok_firstn (n - 1) tc Hl)) as Hlo2. rewrite length_firstn in Hlo2.
  replace (Nat.min (n - 1) (length tc)) with (n - 1)%nat in Hlo2 by lia.
  pose proof (limbs_ok_nth tc (n - 1) Hl) as Ht. unfold limb in Ht. set (top := nth (n - 1) tc 0) in *.
  assert (Eneg : negb (Z.shiftr top 63 =? 0) = (v <? 0)).
  { rewrite Z.shiftr_div_pow2 by lia. change (2 ^ 63) with 9223372036854775808.
    destruct (Z.ltb_spec v 0) as [Hv0|Hv0].
    - assert (Em : lval tc = v + bpow n) by (rewrite Hv; symmetry; apply (Z.mod_unique _ _ (-1)); lia).
      assert (9223372036854775808 <= top) by nia.
      destruct (Z.eqb_spec (top / 9223372036854775808) 0) as [E|]; [|reflexivity].
      apply Z.div_small_iff in E; lia.
    - rewrite Z.mod_small in Hv by lia. assert (top < 9223372036854775808) by nia.
      rewrite Z.div_small by lia. reflexivity. }
  rewrite Eneg. set (work := if v <? 0 then negate_loop tc 1 else tc).
  assert (Hw : limbs_ok work /\ length work = n /\ lval work = Z.abs v).
  { subst work. destruct (Z.ltb_spec v 0) as [Hv0|Hv0].
    - assert (Em : lval tc = v + bpow n) by (rewrite Hv; symmetry; apply (Z.mod_unique _ _ (-1)); lia).
      destruct (negate_loop_spec tc 1 Hl ltac:(auto)) as (N1 & N2 & c & Hc & N3). rewrite Hlen in *.
      pose proof (lval_nonneg _ N1). pose proof (lval_bound _ N1) as Hb. rewrite N2 in Hb.
      split; [exact N1|]. split; [exact N2|]. destruct Hc as [-> | ->]; lia.
    - rewrite Z.mod_small in Hv by lia. repeat split; auto; lia. }
  destruct Hw as (W1 & W2 & W3). assert (Hwne : work <> []) by (intros E; rewrite E in W2; simpl in W2; lia).
  pose proof (normalize_length work) as Hnl. unfold fits in Hf.
  eapply wp_check; [apply bignum_alloc_spec; change (2 ^ 32) with 4294967296; lia|unfold fits; lia|].
  intros r _. apply wp_ret. cbn [or_null]. clearbody work.
  pose proof (normalize_natural work W1 Hwne ltac:(unfold fits; lia)) as Hnat.
  assert (Hs : denotes (if (if v <? 0 then 1 else 0) =? 0 then lval work else - lval work)
                 (mkBignum (if v <? 0 then 1 else 0) (limbs (bignum_normalize (mkBignum 0 work))))).
  { apply with_sign_exact; [exact Hnat|]. destruct (Z.ltb_spec v 0); [right; lia|left; reflexivity]. }
  unfold bignum_normalize in Hs. cbn [limbs] in Hs. rewrite W3 in Hs.
  replace v with (if (if v <? 0 then 1 else 0) =? 0 then Z.abs v else - Z.abs v) at 1
    by (destruct (Z.ltb_spec v 0); simpl; lia).
  exact Hs.
Qed.

Lemma bitwise_op_exact f {B : BitOp f} a b :
  bignum_wf a -> bignum_wf b -> (num_limbs a <= 126)%nat -> (num_limbs b <= 126)%nat ->
  wp (bitwise_op f (Some a) (Some b)) (or_null True (denotes (f (bval a) (bval b)))).
Proof.
  intros Wa Wb Na Nb. unfold bitwise_op. eapply wp_call; [apply wp_is_null_arena|]. intros nl ->.
  set (n := (_ + 1)%nat).
  assert (En : n = (Nat.max (num_limbs a) (num_limbs b) + 1)%nat)
    by (subst n; destruct (Nat.ltb_spec (num_limbs b) (num_limbs a)); lia).
  clearbody n. destruct (Nat.ltb_spec 127 n); [lia|].
  destruct (twos_complement_value a n Wa ltac:(lia)) as (A1 & A2 & A3).
  destruct (twos_complement_value b n Wb ltac:(lia)) as (B1 & B2 & B3).
  rewrite firstn_all2 by (rewrite length_combine; lia).
  destruct (map2_limbs_spec (f := f) _ _ A1 B1 ltac:(lia)) as (M1 & M2 & M3). unfold map2_limbs in *.
  assert (Hrange : forall x, bignum_wf x -> (num_limbs x <= n - 1)%nat ->
            - 2 ^ (64 * Z.of_nat (n - 1)) <= bval x < 2 ^ (64 * Z.of_nat (n - 1))).
  { intros x Wx Nx. pose proof (lval_bound _ (wf_limbs x Wx)) as Hb. pose proof (bval_abs x Wx) as Hx.
    rewrite bpow_pow2 in Hb. fold (num_limbs x) in Hb.
    pose proof (Z.pow_le_mono_r 2 (64 * Z.of_nat (num_limbs x)) (64 * Z.of_nat (n - 1)) ltac:(lia) ltac:(lia)). lia. }
  pose proof (bitop_range (f := f) (bval a) (bval b) (64 * Z.of_nat (n - 1)) ltac:(lia)
                (Hrange a Wa ltac:(lia)) (Hrange b Wb ltac:(lia))) as Hr.
  rewrite <- bpow_pow2 in Hr.
  apply from_twos_complement_spec.
  - exact M1.
  - rewrite M2. exact A2.
  - lia.
  - unfold fits. lia.
  - rewrite M3, A3, B3, bpow_pow2. apply bitop_mod. lia.
  - replace (bpow n) with (B64 * bpow (n - 1)) by (rewrite <- bpow_S; f_equal; lia).
    pose proof (bpow_pos (n - 1)). lia.
Qed.

Lemma bitwise_not_exact a :
  bignum_wf a ->
  wp (eshkol_bignum_bitwise_not (Some a))
    (or_null (fits (num_limbs a + 1)) (denotes (Z.lnot (bval a)))).
Proof.
  intros Wa. unfold eshkol_bignum_bitwise_not. eapply wp_call; [apply wp_is_null_arena|]. intros nl ->.
  eapply wp_call; [apply (from_int64_exact 1); unfold int64_range; lia|]. intros one Hone.
  pose proof (wf_nonempty a Wa) as Hn. pose proof (wf_fits a Wa) as Fa. unfold fits in Fa.
  replace (Z.lnot (bval a)) with (- (bval a + 1)) by (unfold Z.lnot; lia).
  destruct one as [one|]; cbn [or_null] in Hone.
  2: { destruct (negb (sign a =? 0)).
       - eapply wp_call; [apply neg_exact, Wa|]. intros [x|] _; apply wp_ret; cbn [or_null]; auto.
       - eapply (wp_call _ _ (fun r => r = None)); [apply wp_ret; reflexivity|]. intros x ->.
         eapply (wp_call _ _ (fun r => r = None)); [apply wp_ret; reflexivity|]. intros x ->.
         apply wp_ret. cbn [or_null]. auto. }
  destruct Hone as [W1 V1]. pose proof (int64_one_limb one W1 ltac:(lia)) as N1.
  destruct (wf_sign a Wa) as [Es|Es]; rewrite Es; cbn [Z.eqb negb].
  - eapply wp_call; [apply (add_exact a one Wa W1)|]. intros [x|] Hx; cbn [or_null] in Hx.
    + destruct Hx as [Wx Vx]. rewrite <- V1, <- Vx.
      eapply wp_or_null_weaken; [| |apply neg_exact, Wx]; auto.
    + eapply (wp_call _ _ (fun r => r = None)); [apply wp_ret; reflexivity|]. intros x ->. apply wp_ret.
      cbn [or_null]. intros g F. apply (Hx g). rewrite N1. unfold fits in *. lia.
  - eapply wp_call; [apply (neg_exact a Wa)|]. intros [x|] Hx; cbn [or_null] in Hx.
    + destruct Hx as [Wx Vx].
      assert (Nx : (num_limbs x <= num_limbs a)%nat).
      { destruct (Nat.leb_spec (num_limbs x) (num_limbs a)) as [|Hlt]; [assumption|exfalso].
        pose proof (lval_length_lt (limbs a) (limbs x) (wf_limbs a Wa) (wf_limbs x Wx)
                      (proj1 (wf_canonical a Wa)) (wf_canonical x Wx) Hlt) as Hc.
        pose proof (bval_abs a Wa). pose proof (bval_abs x Wx). lia. }
      replace (- (bval a + 1)) with (bval x - bval one) by lia.
      eapply wp_or_null_weaken; [| |apply (sub_exact x one Wx W1)]; auto.
      rewrite N1. unfold fits. lia.
    + apply wp_ret. cbn [or_null]. auto.
Qed.

(** ** Shifts *)

Lemma or_at_app pre h post v i :
  i = Z.of_nat (length pre) -> or_at (pre ++ h :: post) i v = Some (pre ++ Z.lor h v :: post).
Proof.
  intros ->. unfold or_at. rewrite length_app. cbn [length].
  rewrite (proj2 (Z.leb_le _ _)), (proj2 (Z.ltb_lt _ _)) by lia. cbn [andb].
  rewrite Nat2Z.id, firstn_app, firstn_all, Nat.sub_diag, firstn_O, app_nil_r.
  rewrite app_nth2, Nat.sub_diag by lia. cbn [nth]. f_equal. f_equal. f_equal.
  replace (S (length pre)) with (length (pre ++ [h])) by (rewrite length_app; simpl; lia).
  replace (pre ++ h :: post) with ((pre ++ [h]) ++ post) by (rewrite <- app_assoc; reflexivity).
  rewrite skipn_app, skipn_all, Nat.sub_diag. reflexivity.
Qed.

Lemma shl_limbs_loop_spec al ws bs new i pre h :
  limbs_ok al -> limbs_ok pre -> 0 <= i -> 0 <= ws -> 0 <= bs < 64 -> 0 <= h < 2 ^ bs ->
  Z.of_nat (length pre) = i + ws -> new = i + ws + 1 + Z.of_nat (length al) -> new <= UINT32_MAX ->
  exists rl, shl_limbs_loop al i ws bs new (pre ++ h :: repeat 0 (length al)) = Some rl /\
    limbs_ok rl /\ Z.of_nat (length rl) = new /\
    lval rl = lval pre + bpow (length pre) * (h + lval al * 2 ^ bs).
Proof.
  intros Hal Hpre Hi Hws Hbs. revert i pre h Hi Hpre.
  assert (Hpb : 2 ^ bs <= 2 ^ 63) by (apply Z.pow_le_mono_r; lia).
  assert (Hp0 : 0 < 2 ^ bs) by (apply Z.pow_pos_nonneg; lia).
  change (2 ^ 63) with 9223372036854775808 in Hpb.
  induction al as [|x al IH]; intros i pre h Hi Hpre Hh Hlen Hnew Hmax; cbn [shl_limbs_loop length repeat].
  - eexists. split; [reflexivity|]. split.
    + apply limbs_ok_app_intro; [exact Hpre|apply limbs_ok_one; unfold limb; lia].
    + rewrite length_app, lval_app. cbn [length lval] in *. split; lia.
  - apply limbs_ok_cons in Hal. destruct Hal as [Hx Hal]. cbn [length] in *.
    rewrite (u32_small (i + ws)), (u32_small (i + ws + 1)) by lia. rewrite or_at_app by lia.
    replace (bs >? 0) with (negb (bs =? 0)) by (rewrite Z.gtb_ltb; destruct (Z.eqb_spec bs 0), (Z.ltb_spec 0 bs); lia).
    destruct (Z.eqb_spec bs 0) as [E|E]; cbn [negb andb].
    + assert (h = 0) as -> by (rewrite E in Hh; simpl in Hh; lia). rewrite Z.lor_0_l.
      change (pre ++ x :: 0 :: repeat 0 (length al)) with (pre ++ [x] ++ 0 :: repeat 0 (length al)).
      rewrite app_assoc.
      destruct (IH Hal (i + 1) (pre ++ [x]) 0) as (rl & E1 & E2 & E3 & E4);
        [lia|apply limbs_ok_app_intro; [exact Hpre|apply limbs_ok_one; exact Hx]|lia
        |rewrite length_app; simpl; lia|lia|lia|].
      exists rl. split; [exact E1|]. split; [exact E2|]. split; [exact E3|].
      rewrite E4, lval_app, length_app, bpow_add, E. cbn [lval length]. rewrite (bpow_S 0), bpow_0. lia.
    + rewrite (proj2 (Z.ltb_lt _ _)) by lia.
      change (pre ++ Z.lor h (u64 (Z.shiftl x bs)) :: 0 :: repeat 0 (length al))
        with (pre ++ [Z.lor h (u64 (Z.shiftl x bs))] ++ 0 :: repeat 0 (length al)).
      rewrite app_assoc, or_at_app by (rewrite length_app; simpl; lia).
      destruct (shl_word x bs Hx ltac:(lia)) as (S1 & S2 & S3). pose proof (u64_range (Z.shiftl x bs)) as Hu.
      assert (Elor : Z.lor h (u64 (Z.shiftl x bs)) = h + u64 (Z.shiftl x bs)).
      { rewrite S2, Z.lor_comm, lor_disjoint_add, Z.shiftl_mul_pow2 by lia. lia. }
      assert (Hfit : h + u64 (Z.shiftl x bs) < B64).
      { rewrite S2, Z.shiftl_mul_pow2 by lia.
        pose proof (Z.mod_pos_bound x (2 ^ (64 - bs)) ltac:(apply Z.pow_pos_nonneg; lia)).
        assert (E64 : B64 = 2 ^ bs * 2 ^ (64 - bs)) by (rewrite <- pow2_64, <- Z.pow_add_r by lia; f_equal; lia).
        nia. }
      rewrite Elor, Z.lor_0_l.
      destruct (IH Hal (i + 1) (pre ++ [h + u64 (Z.shiftl x bs)]) (Z.shiftr x (64 - bs)))
        as (rl & E1 & E2 & E3 & E4);
        [lia|apply limbs_ok_app_intro; [exact Hpre|apply limbs_ok_one; unfold limb; lia]|lia
        |rewrite length_app; simpl; lia|lia|lia|].
      exists rl. split; [exact E1|]. split; [exact E2|]. split; [exact E3|].
      rewrite E4, lval_app, length_app, bpow_add. cbn [lval length]. rewrite (bpow_S 0), bpow_0. nia.
Qed.

Lemma shift_left_exact a count :
  bignum_wf a -> 0 < count -> count / 64 + Z.of_nat (num_limbs a) + 1 <= UINT32_MAX ->
  wp (eshkol_bignum_shift (Some a) count)
    (or_null (fits (num_limbs a + Z.to_nat (count / 64) + 1)) (denotes (bval a * 2 ^ count))).
Proof.
  intros Wa Hc Hb. unfold eshkol_bignum_shift. eapply wp_call; [apply wp_is_null_arena|]. intros nl ->.
  rewrite is_zero_spec by exact Wa. rewrite (proj2 (Z.eqb_neq count 0)), orb_false_r by lia.
  destruct (Z.eqb_spec (bval a) 0) as [E|E].
  { rewrite E, Z.mul_0_l. eapply wp_or_null_weaken; [| |apply (from_int64_exact 0)]; auto.
    unfold int64_range. lia. }
  rewrite Z.gtb_ltb, (proj2 (Z.ltb_lt _ _)) by lia. cbv zeta.
  pose proof (Z.div_mod count 64 ltac:(lia)) as Hdm. pose proof (Z.mod_pos_bound count 64 ltac:(lia)) as Hm.
  assert (Hq : 0 <= count / 64) by (apply Z.div_pos; lia).
  rewrite (u32_small (count / 64)), (u32_small (count mod 64)), (u32_small (Z.of_nat (num_limbs a) + count / 64)),
    (u32_small (Z.of_nat (num_limbs a) + count / 64 + 1)) by lia.
  set (new := Z.of_nat (num_limbs a) + count / 64 + 1) in *.
  eapply wp_check; [apply bignum_alloc_spec; change (2 ^ 32) with 4294967296; lia|unfold fits; lia|].
  intros r [-> Hf]. cbn [limbs].
  replace (repeat 0 (Z.to_nat new))
    with (repeat 0 (Z.to_nat (count / 64)) ++ 0 :: repeat 0 (length (limbs a)))
    by (change (0 :: repeat 0 (length (limbs a))) with (repeat 0 (S (length (limbs a))));
        rewrite <- repeat_app; f_equal; unfold num_limbs in *; lia).
  destruct (shl_limbs_loop_spec (limbs a) (count / 64) (count mod 64) new 0
              (repeat 0 (Z.to_nat (count / 64))) 0) as (rl & E1 & E2 & E3 & E4);
    [apply Wa|apply limbs_ok_repeat|lia|lia|lia|split; [lia|apply Z.pow_pos_nonneg; lia]
    |rewrite repeat_length; lia|unfold num_limbs in *; lia|lia|].
  rewrite E1. apply wp_ret. cbn [or_null]. rewrite lval_repeat, repeat_length in E4.
  assert (Hne : rl <> []) by (intros E5; rewrite E5 in E3; simpl in E3; lia).
  pose proof (normalize_natural rl E2 Hne ltac:(unfold fits in *; lia)) as Hnat.
  assert (Ev : lval rl = lval (limbs a) * 2 ^ count).
  { rewrite E4, bpow_pow2, Z2Nat.id by lia. 
    replace (2 ^ count) with (2 ^ (64 * (count / 64)) * 2 ^ (count mod 64))
      by (rewrite <- Z.pow_add_r by lia; f_equal; lia). ring. }
  pose proof (wf_magnitude a Wa). pose proof (Z.pow_pos_nonneg 2 count ltac:(lia) ltac:(lia)).
  replace (bval a * 2 ^ count) with (if sign a =? 0 then lval rl else - lval rl)
    by (unfold bval; rewrite Ev; destruct (sign a =? 0); lia).
  apply (with_sign_exact (lval rl) (sign a) (bignum_normalize (mkBignum 0 rl)) Hnat).
  destruct (wf_sign a Wa) as [Es|Es]; [left; exact Es|right]. split; [exact Es|].
  rewrite Ev. unfold bval in E. rewrite Es in E. cbn [Z.eqb] in E. nia.
Qed.

Lemma shr_limbs_loop_spec al bs :
  limbs_ok al -> 0 <= bs < 64 ->
  limbs_ok (shr_limbs_loop al bs) /\ length (shr_limbs_loop al bs) = length al /\
  lval (shr_limbs_loop al bs) = lval al / 2 ^ bs.
Proof.
  intros Hal Hbs. destruct (Z.eq_dec bs 0) as [->|E].
  - assert (Eq : shr_limbs_loop al 0 = al).
    { clear Hal. induction al as [|x al IH]; [reflexivity|]. cbn [shr_limbs_loop]. rewrite IH.
      cbn [Z.eqb Z.gtb Z.compare]. destruct al; reflexivity. }
    rewrite Eq, Z.pow_0_r, Z.div_1_r. auto.
  - assert (Eq : shr_limbs_loop al bs = fst (shr_loop al bs)).
    { clear Hal. induction al as [|x al IH]; [reflexivity|]. cbn [shr_limbs_loop shr_loop]. rewrite IH.
      rewrite (proj2 (Z.eqb_neq _ _)), Z.gtb_ltb, (proj2 (Z.ltb_lt _ _)) by lia.
      destruct al as [|y al]; [cbn; rewrite Z.lor_0_r; reflexivity|]. cbn [shr_loop].
      destruct (shr_loop al bs). reflexivity. }
    rewrite Eq. destruct (shr_loop al bs) as [r c] eqn:Er. cbn [fst].
    destruct (shr_loop_spec al bs r c Hal ltac:(lia) Er) as (rem & H1 & H2 & H3 & _ & H5).
    split; [exact H1|]. split; [exact H2|]. apply (Z.div_unique _ _ _ rem); lia.
Qed.

(** What the right shift computes: the magnitude is divided, and a negative
    number whose magnitude vanishes becomes -1. *)
Definition shifted_right (z k : Z) : Z :=
  if z <? 0 then (if Z.abs z / 2 ^ k =? 0 then -1 else - (Z.abs z / 2 ^ k)) else z / 2 ^ k.

Lemma shift_right_spec a count :
  bignum_wf a -> INT64_MIN < count < 0 -> - count / 64 <= UINT32_MAX ->
  wp (eshkol_bignum_shift (Some a) count) (or_null True (denotes (shifted_right (bval a) (- count)))).
Proof.
  intros Wa Hc Hb. unfold eshkol_bignum_shift. eapply wp_call; [apply wp_is_null_arena|]. intros nl ->.
  rewrite is_zero_spec by exact Wa. rewrite (proj2 (Z.eqb_neq count 0)), orb_false_r by lia.
  set (k := - count) in *. assert (Hk : 0 < k) by lia.
  assert (Hp : 0 < 2 ^ k) by (apply Z.pow_pos_nonneg; lia).
  assert (Hint : forall v, int64_range v -> forall z, z = v ->
            wp (eshkol_bignum_from_int64 v) (or_null True (denotes z)))
    by (intros v Hv z ->; apply from_int64_exact, Hv).
  pose proof (bval_abs a Wa) as Ha. pose proof (bval_sign a Wa) as Hs. unfold shifted_right.
  destruct (Z.eqb_spec (bval a) 0) as [E|E].
  { apply Hint; [unfold int64_range; lia|]. rewrite E. simpl. apply Z.div_0_l. lia. }
  rewrite Z.gtb_ltb, (proj2 (Z.ltb_ge _ _)) by lia. cbv zeta.
  rewrite (s64_small k) by (unfold int64_range; lia). rewrite Z.quot_div_nonneg, Z.rem_mod_nonneg by lia.
  pose proof (Z.div_mod k 64 ltac:(lia)) as Hdm. pose proof (Z.mod_pos_bound k 64 ltac:(lia)) as Hm.
  assert (Hq : 0 <= k / 64) by (apply Z.div_pos; lia).
  rewrite (u32_small (k / 64)), (u32_small (k mod 64)) by lia. rewrite Z.geb_leb.
  assert (Eneg : negb (sign a =? 0) = (bval a <? 0)) by (rewrite Hs; destruct (bval a <? 0); reflexivity).
  rewrite Eneg.
  destruct (Z.leb_spec (Z.of_nat (num_limbs a)) (k / 64)) as [Hall|Hsome].
  - assert (Hz : lval (limbs a) / 2 ^ k = 0).
    { apply Z.div_small. split; [apply wf_magnitude, Wa|].
      eapply Z.lt_le_trans; [apply lval_bound, Wa|]. rewrite bpow_pow2. apply Z.pow_le_mono_r; unfold num_limbs in *; lia. }
    destruct (Z.ltb_spec (bval a) 0); apply Hint; try (unfold int64_range; lia).
    + rewrite Ha, Hz. reflexivity.
    + rewrite <- (Z.abs_eq (bval a)), Ha by lia. exact Hz.
  - set (w := Z.to_nat (k / 64)). pose proof (wf_fits a Wa) as Fa. unfold fits in Fa.
    eapply wp_check; [apply bignum_alloc_spec; change (2 ^ 32) with 4294967296; lia|unfold fits; lia|].
    intros r _.
    assert (Hsk : limbs_ok (skipn w (limbs a))) by (apply limbs_ok_skipn, Wa).
    destruct (shr_limbs_loop_spec (skipn w (limbs a)) (k mod 64) Hsk Hm) as (H1 & H2 & H3).
    set (rl := shr_limbs_loop _ _) in *. rewrite length_skipn in H2.
    assert (Ev : lval rl = lval (limbs a) / 2 ^ k).
    { rewrite H3. assert (Esk : lval (skipn w (limbs a)) = lval (limbs a) / bpow w).
      { pose proof (lval_firstn_skipn w (limbs a) ltac:(unfold num_limbs in *; lia)) as Hfs.
        pose proof (lval_nonneg _ (limbs_ok_firstn w _ (wf_limbs a Wa))) as Hl0.
        pose proof (lval_bound _ (limbs_ok_firstn w _ (wf_limbs a Wa))) as Hl1. rewrite length_firstn in *.
        replace (Nat.min w (length (limbs a))) with w in * by (unfold num_limbs in *; lia).
        apply (Z.div_unique _ _ _ (lval (firstn w (limbs a)))); lia. }
      rewrite Esk, bpow_pow2, Z.div_div by (try apply Z.pow_pos_nonneg; try apply Z.pow_nonzero; lia).
      rewrite <- Z.pow_add_r by lia. f_equal. f_equal. subst w. lia. }
    assert (Hne : rl <> []) by (intros E5; rewrite E5 in H2; simpl in H2; unfold num_limbs in *; lia).
    pose proof (normalize_natural rl H1 Hne ltac:(unfold fits, num_limbs in *; lia)) as Hnat.
    pose proof Hnat as (Wn & _ & Vn).
    assert (Ez : eshkol_bignum_is_zero (Some (mkBignum (sign a) (normalize_limbs rl))) = (lval rl =? 0)).
    { cbn [eshkol_bignum_is_zero]. unfold num_limbs. cbn [limbs].
      rewrite canonical_zero by auto with limbs. rewrite normalize_value. reflexivity. }
    rewrite Ez, Ha, <- Ev. destruct (Z.ltb_spec (bval a) 0) as [Hneg|Hpos]; cbn [andb].
    + destruct (Z.eqb_spec (lval rl) 0) as [E0|E0]; [apply Hint; [unfold int64_range; lia|reflexivity]|].
      apply wp_ret. cbn [or_null]. rewrite Hs.
      exact (with_sign_exact (lval rl) 1 (bignum_normalize (mkBignum 0 rl)) Hnat ltac:(right; auto)).
    + apply wp_ret. cbn [or_null]. rewrite Hs.
      replace (bval a / 2 ^ k) with (lval rl) by (rewrite Ev, <- Ha, Z.abs_eq by lia; reflexivity).
      exact (with_sign_exact (lval rl) 0 (bignum_normalize (mkBignum 0 rl)) Hnat ltac:(left; auto)).
Qed.

End Specs.
