(* ===== verification/BitsTheorems.v ===== *)
(** * What the bitwise operations and shifts guarantee, and where they stop *)

From Stdlib Require Import String ZArith List Lia Bool.
From S2P Require Import Prelude Effects Limbs KnuthD Bignum BignumSpec Arena ArenaSpec ArenaRuns HostHeap BignumTheorems BignumBits.
Import ListNotations.
Open Scope Z_scope.
Open Scope effect_scope.

(** Bitwise and, or, xor and not of bignums are the infinite two's-complement
    operations on the integers, for operands of up to 126 limbs (8064 bits), the
    capacity of the stack arrays less the sign limb; not has no size limit. *)
Theorem bitwise_ops_exact {St} {A : Arena St} {L : ArenaLaws St} a b s :
  bignum_wf a -> bignum_wf b -> (num_limbs a <= 126)%nat -> (num_limbs b <= 126)%nat -> arena_inv s ->
  yields (eshkol_bignum_bitwise_and (Some a) (Some b)) s True (Z.land (bval a) (bval b)) /\
  yields (eshkol_bignum_bitwise_or (Some a) (Some b)) s True (Z.lor (bval a) (bval b)) /\
  yields (eshkol_bignum_bitwise_xor (Some a) (Some b)) s True (Z.lxor (bval a) (bval b)) /\
  yields (eshkol_bignum_bitwise_not (Some a)) s True (Z.lnot (bval a)).
Proof.
  intros Wa Wb Na Nb Hs. repeat split; apply yields_intro; auto; intros G.
  - exact (bitwise_op_exact Z.land a b Wa Wb Na Nb).
  - exact (bitwise_op_exact Z.lor a b Wa Wb Na Nb).
  - exact (bitwise_op_exact Z.lxor a b Wa Wb Na Nb).
  - eapply wp_or_null_weaken; [| |exact (bitwise_not_exact a Wa)]; auto. unfold fits. lia.
Qed.

Lemma bitwise_ops_exact_witness :
  yields (eshkol_bignum_bitwise_xor (Some big_a) (Some big_b)) bench True
    (Z.lxor (bval big_a) (bval big_b)) /\ Z.lxor (bval big_a) (bval big_b) = -36893488147419103238.
Proof.
  split; [|vm_compute; reflexivity].
  exact (proj1 (proj2 (proj2 (bitwise_ops_exact big_a big_b bench big_a_wf big_b_wf
           ltac:(unfold num_limbs; simpl; lia) ltac:(unfold num_limbs; simpl; lia) bench_inv)))).
Defined.

(** Arithmetic shift: a positive count multiplies by the power of two exactly;
    a negative count divides, rounding down, for every non-negative number and for
    every negative one whose magnitude the shift exhausts or divides evenly. *)
Theorem shift_exact {St} {A : Arena St} {L : ArenaLaws St} a k s :
  bignum_wf a -> 0 < k < 2 ^ 37 -> arena_inv s ->
  yields (eshkol_bignum_shift (Some a) k) s
    (Z.of_nat (num_limbs a + Z.to_nat (k / 64) + 1) <= MAX_LIMBS) (bval a * 2 ^ k) /\
  (0 <= bval a \/ Z.abs (bval a) < 2 ^ k \/ bval a mod 2 ^ k = 0 ->
   yields (eshkol_bignum_shift (Some a) (- k)) s True (bval a / 2 ^ k)).
Proof.
  intros Wa Hk Hs. change (2 ^ 37) with 137438953472 in Hk. pose proof (wf_fits a Wa) as Fa. unfold fits in Fa.
  assert (Hq : 0 <= k / 64 <= 2147483648)
    by (split; [apply Z.div_pos; lia|apply Z.div_le_upper_bound; lia]).
  split; [apply yields_intro; [|exact Hs]; intros G; apply (shift_left_exact a k Wa); lia|].
  intros Hcase. apply yields_intro; [|exact Hs]. intros G.
  pose proof (shift_right_spec a (- k) Wa ltac:(lia) ltac:(rewrite Z.opp_involutive; lia)) as H.
  rewrite Z.opp_involutive in H. replace (bval a / 2 ^ k) with (shifted_right (bval a) k); [exact H|].
  unfold shifted_right. assert (Hp : 0 < 2 ^ k) by (apply Z.pow_pos_nonneg; lia).
  destruct (Z.ltb_spec (bval a) 0) as [Hn|]; [|reflexivity]. rewrite (Z.abs_neq (bval a)) in * by lia.
  destruct Hcase as [|[Hlt|Hdiv]]; [lia| |].
  - rewrite Z.div_small by lia. simpl. apply (Z.div_unique _ _ _ (bval a + 2 ^ k)); lia.
  - rewrite Z.div_opp_l_z by lia. rewrite Z.opp_involutive.
    pose proof (Z.div_mod (bval a) (2 ^ k) ltac:(lia)) as Hdm. rewrite Hdiv in Hdm.
    destruct (Z.eqb_spec (- (bval a / 2 ^ k)) 0); [|reflexivity]. nia.
Qed.

Lemma shift_exact_witness :
  yields (eshkol_bignum_shift (Some big_b) 70) bench
    (Z.of_nat (num_limbs big_b + Z.to_nat (70 / 64) + 1) <= MAX_LIMBS) (bval big_b * 2 ^ 70) /\
  yields (eshkol_bignum_shift (Some big_b) (-70)) bench True (bval big_b / 2 ^ 70).
Proof.
  destruct (shift_exact big_b 70 bench big_b_wf ltac:(lia) bench_inv) as [H1 H2].
  split; [exact H1|apply H2]. right. left. vm_compute. reflexivity.
Defined.

(** The value returned by a call on the bench arena. *)
Definition result_of (m : M (runtime host_heap) (option bignum)) : option Z :=
  match m bench with
  | (Ret (Some x), _, _) => Some (bval x)
  | _ => None
  end.

(** A positive number of 127 limbs whose top bit is set. *)
Definition wide : bignum := big 0 (repeat 0 126 ++ [9223372036854775808]).

(** Where shifts and bitwise operations go wrong: a shift by zero returns
    zero; a right shift of a negative number rounds toward zero although it is
    documented to round toward minus infinity; a left shift by [2^38] bits returns
    the number unshifted; or-ing a 127-limb number with itself changes its sign. *)
Theorem shift_and_bitwise_edge_cases :
  result_of (eshkol_bignum_shift (Some big_a) 0) = Some 0 /\
  result_of (eshkol_bignum_shift (Some big_b) (-1)) = Some (bval big_b / 2 + 1) /\
  result_of (eshkol_bignum_shift (Some big_a) (2 ^ 38)) = Some (bval big_a) /\
  result_of (eshkol_bignum_bitwise_or (Some wide) (Some wide)) = Some (- bval wide).
Proof. repeat split; vm_compute; reflexivity. Qed.
