(* ===== verification/Rational.v ===== *)
(** * Exact rationals: lib/core/rational.cpp

    A rational is a reduced pair of [int64_t], or, when the pair does not fit, a
    reduced pair of bignums.  This file has the data, the constructors, the
    arithmetic, comparison and rounding; the tagged-value dispatch is in
    [Dispatch]. *)

From Stdlib Require Import String ZArith List Lia Bool.
From S2P Require Import Prelude Effects Limbs KnuthD Bignum BignumString.
Import ListNotations.
Open Scope Z_scope.
Open Scope effect_scope.

(** ** Data *)

(** [eshkol_rational_t]; the [reserved] field is always 0. *)
Record rational : Type := mkRational {
  numerator : Z;
  denominator : Z;
  is_big : Z;
  big_num : option bignum;
  big_den : option bignum;
}.

Definition small_rational (n d : Z) : rational := mkRational n d 0 None None.

Definition HEAP_SUBTYPE_RATIONAL : Z := 19.
Definition sizeof_rational : Z := 40.

(** ** Machine-integer helpers *)

(** The Euclidean loop of [gcd] and [gcd128]; [rem] is the C remainder. *)
Fixpoint gcd_loop (fuel : nat) (a b : Z) : option Z :=
  if b =? 0 then Some a
  else
    match fuel with
    | O => None
    | S fuel' => gcd_loop fuel' b (Z.rem a b)
    end.

(** [gcd] on [int64_t]: at most 128 rounds. *)
Definition gcd (a b : Z) : option Z :=
  let a := if a <? 0 then s64 (- a) else a in
  let b := if b <? 0 then s64 (- b) else b in
  if a =? 0 then Some b
  else if b =? 0 then Some a
  else gcd_loop 128 a b.

(** [gcd128] on [__int128_t]: at most 256 rounds. *)
Definition gcd128 (a b : Z) : option Z :=
  let a := if a <? 0 then s128 (- a) else a in
  let b := if b <? 0 then s128 (- b) else b in
  gcd_loop 256 a b.

Definition fits_int64 (v : Z) : bool := (v >=? INT64_MIN) && (v <=? INT64_MAX).

Definition bn_equals_i64 (a : option bignum) (k : Z) : bool :=
  match eshkol_bignum_fits_int64 a with
  | Some v => v =? k
  | None => false
  end.

(** ** Operations *)

Section Operations.
  Context {St : Type} {A : Arena St}.

(** [if (r->sign) r->sign = 0]. *)
Definition magnitude (r : bignum) : bignum :=
  if negb (sign r =? 0) then mkBignum 0 (limbs r) else r.

(** The loop of [bn_gcd]; a refused remainder ends it. *)
Fixpoint bn_gcd_loop (fuel : nat) (x : option bignum) (y : option bignum)
  : M St (option bignum) :=
  if eshkol_bignum_is_zero y then ret x
  else
    match fuel with
    | O => diverge
    | S fuel' =>
      let! r := eshkol_bignum_mod x y in
      match r with
      | None => ret x
      | Some r => bn_gcd_loop fuel' y (Some (magnitude r))
      end
    end.

(** The fuel is two rounds per bit of the second operand. *)
Definition bn_gcd (a b : option bignum) : M St (option bignum) :=
  let! a0 := deref a in
  let! x := (if negb (sign a0 =? 0) then eshkol_bignum_neg a else ret a) in
  let! b0 := deref b in
  let! y := (if negb (sign b0 =? 0) then eshkol_bignum_neg b else ret b) in
  let! g := bn_gcd_loop (128 * num_limbs b0 + 2) x y in
  ret (option_map magnitude g).

(** The result of the allocation is used without a null check. *)
Definition rational_alloc_small (num denom : Z) : M St rational :=
  let! p := allocate_with_header sizeof_rational HEAP_SUBTYPE_RATIONAL 0 in
  let! _ := deref p in
  ret (small_rational num denom).

Definition rat_num_bn (r : rational) : M St (option bignum) :=
  if negb (is_big r =? 0) then ret (big_num r) else eshkol_bignum_from_int64 (numerator r).

Definition rat_den_bn (r : rational) : M St (option bignum) :=
  if negb (is_big r =? 0) then ret (big_den r) else eshkol_bignum_from_int64 (denominator r).

(** [None]: the reduced pair does not fit [int64_t]. *)
Definition rational_create_safe (num denom : Z) : M St (option rational) :=
  let '(num, denom) := if denom =? 0 then (0, 1) else (num, denom) in
  let '(num, denom) := if denom <? 0 then (s128 (- num), s128 (- denom)) else (num, denom) in
  let! g := fuelled (gcd128 num denom) in
  let '(num, denom) := if g >? 1 then (Z.quot num g, Z.quot denom g) else (num, denom) in
  if negb (fits_int64 num) || negb (fits_int64 denom) then ret None
  else
    let! r := rational_alloc_small (s64 num) (s64 denom) in
    ret (Some r).

Definition eshkol_rational_create_bn (num denom : option bignum) : M St rational :=
  match num, denom with
  | Some _, Some d =>
    if eshkol_bignum_is_zero denom then rational_alloc_small 0 1
    else
      let! num := (if negb (sign d =? 0) then eshkol_bignum_neg num else ret num) in
      let! denom := (if negb (sign d =? 0) then eshkol_bignum_neg denom else ret denom) in
      let! g := bn_gcd num denom in
      let reduce := match g with
                    | Some _ => negb (bn_equals_i64 g 1) && negb (eshkol_bignum_is_zero g)
                    | None => false
                    end in
      let! num := (if reduce then eshkol_bignum_div num g else ret num) in
      let! denom := (if reduce then eshkol_bignum_div denom g else ret denom) in
      match eshkol_bignum_fits_int64 num, eshkol_bignum_fits_int64 denom with
      | Some ni, Some di => rational_alloc_small ni di
      | _, _ =>
        let! p := allocate_with_header sizeof_rational HEAP_SUBTYPE_RATIONAL 0 in
        let! _ := deref p in
        ret (mkRational 0 1 1 num denom)
      end
  | _, _ => rational_alloc_small 0 1
  end.

Definition eshkol_rational_create (num denom : Z) : M St rational :=
  let '(num, denom) := if denom =? 0 then (0, 1) else (num, denom) in
  if (denom =? INT64_MIN) || (num =? INT64_MIN) then
    let! bn := eshkol_bignum_from_int64 num in
    let! bd := eshkol_bignum_from_int64 denom in
    eshkol_rational_create_bn bn bd
  else
    let '(num, denom) := if denom <? 0 then (s64 (- num), s64 (- denom)) else (num, denom) in
    let! g := fuelled (gcd num denom) in
    let '(num, denom) := if g >? 1 then (Z.quot num g, Z.quot denom g) else (num, denom) in
    rational_alloc_small num denom.

Definition rat_add_sub_big (ra rb : rational) (subtract : bool) : M St rational :=
  let! an := rat_num_bn ra in
  let! ad := rat_den_bn ra in
  let! bn := rat_num_bn rb in
  let! bd := rat_den_bn rb in
  let! lhs := eshkol_bignum_mul an bd in
  let! rhs := eshkol_bignum_mul bn ad in
  let! num := (if subtract then eshkol_bignum_sub lhs rhs else eshkol_bignum_add lhs rhs) in
  let! den := eshkol_bignum_mul ad bd in
  eshkol_rational_create_bn num den.

Definition rat_mul_big (ra rb : rational) : M St rational :=
  let! an := rat_num_bn ra in
  let! bn := rat_num_bn rb in
  let! num := eshkol_bignum_mul an bn in
  let! ad := rat_den_bn ra in
  let! bd := rat_den_bn rb in
  let! den := eshkol_bignum_mul ad bd in
  eshkol_rational_create_bn num den.

Definition rat_div_big (ra rb : rational) : M St rational :=
  let! an := rat_num_bn ra in
  let! bd := rat_den_bn rb in
  let! num := eshkol_bignum_mul an bd in
  let! ad := rat_den_bn ra in
  let! bn := rat_num_bn rb in
  let! den := eshkol_bignum_mul ad bn in
  eshkol_rational_create_bn num den.

(** Both operands on the [int64_t] path. *)
Definition both_small (a b : rational) : bool := (is_big a =? 0) && (is_big b =? 0).

(** The small path first, the bignum path when it does not apply or overflows. *)
Definition small_or_big (small : bool) (num denom : Z) (big : M St rational) : M St rational :=
  if small then
    let! r := rational_create_safe num denom in
    match r with Some r => ret r | None => big end
  else big.

Definition eshkol_rational_add (a b : rational) : M St rational :=
  small_or_big (both_small a b)
    (s128 (numerator a * denominator b + numerator b * denominator a))
    (s128 (denominator a * denominator b))
    (rat_add_sub_big a b false).

Definition eshkol_rational_sub (a b : rational) : M St rational :=
  small_or_big (both_small a b)
    (s128 (numerator a * denominator b - numerator b * denominator a))
    (s128 (denominator a * denominator b))
    (rat_add_sub_big a b true).

Definition eshkol_rational_mul (a b : rational) : M St rational :=
  small_or_big (both_small a b)
    (s128 (numerator a * numerator b))
    (s128 (denominator a * denominator b))
    (rat_mul_big a b).

Definition eshkol_rational_div (a b : rational) : M St rational :=
  let b_zero := if negb (is_big b =? 0) then eshkol_bignum_is_zero (big_num b)
                else numerator b =? 0 in
  if b_zero then raise ESHKOL_EXCEPTION_DIVIDE_BY_ZERO "rational division by zero"%string
  else
    small_or_big (both_small a b)
      (s128 (numerator a * denominator b))
      (s128 (denominator a * numerator b))
      (rat_div_big a b).

(** Uses the thread-local arena for its temporaries. *)
Definition eshkol_rational_compare (a b : rational) : M St Z :=
  if both_small a b then
    let lhs := s128 (numerator a * denominator b) in
    let rhs := s128 (numerator b * denominator a) in
    ret (if lhs <? rhs then -1 else if lhs >? rhs then 1 else 0)
  else
    let! an := rat_num_bn a in
    let! bd := rat_den_bn b in
    let! lhs := eshkol_bignum_mul an bd in
    let! bn := rat_num_bn b in
    let! ad := rat_den_bn a in
    let! rhs := eshkol_bignum_mul bn ad in
    ret (eshkol_bignum_compare lhs rhs).

End Operations.

Definition eshkol_rational_numerator (r : rational) : Z := numerator r.
Definition eshkol_rational_denominator (r : rational) : Z := denominator r.

Definition eshkol_rational_is_integer (r : rational) : bool :=
  if negb (is_big r =? 0) then bn_equals_i64 (big_den r) 1 else denominator r =? 1.

Definition eshkol_rational_equal (a b : rational) : bool :=
  if both_small a b then (numerator a =? numerator b) && (denominator a =? denominator b)
  else if negb (is_big a =? is_big b) then false
  else (eshkol_bignum_compare (big_num a) (big_num b) =? 0) &&
       (eshkol_bignum_compare (big_den a) (big_den b) =? 0).

(** ** Rounding, on the [int64_t] fields *)

Definition eshkol_rational_floor (r : rational) : Z :=
  let n := numerator r in let d := denominator r in
  if (n >=? 0) || (Z.rem n d =? 0) then Z.quot n d else s64 (Z.quot n d - 1).

Definition eshkol_rational_ceil (r : rational) : Z :=
  let n := numerator r in let d := denominator r in
  if (n <=? 0) || (Z.rem n d =? 0) then Z.quot n d else s64 (Z.quot n d + 1).

Definition eshkol_rational_truncate (r : rational) : Z :=
  Z.quot (numerator r) (denominator r).

(** [2 * rem] is 64-bit. *)
Definition eshkol_rational_round (r : rational) : Z :=
  let n := numerator r in let d := denominator r in
  let q := Z.quot n d in
  let rem := Z.rem n d in
  let rem := if rem <? 0 then s64 (- rem) else rem in
  let twice_rem := s64 (2 * rem) in
  let away := if n >=? 0 then s64 (q + 1) else s64 (q - 1) in
  if twice_rem >? d then away
  else if twice_rem =? d then (if negb (Z.rem q 2 =? 0) then away else q)
  else q.
