(* ===== verification/RationalSpec.v ===== *)
(** * Exactness of rational arithmetic

    The canonical form of rationals, that every constructor and operation
    produces it, and that the values are the field operations on the rationals. *)

From Stdlib Require Import String ZArith QArith Znumtheory List Lia Bool.
From S2P Require Import Prelude Effects Limbs KnuthD Bignum BignumSpec BignumString Rational.
Import ListNotations.
Open Scope Z_scope.
Open Scope effect_scope.

(** ** Greatest common divisors *)

Lemma gcd_rem a b : b <> 0 -> Z.gcd b (Z.rem a b) = Z.gcd a b.
Proof. intros Hb. rewrite Z.gcd_comm, Z.gcd_rem by exact Hb. apply Z.gcd_comm. Qed.

(** A Euclidean step from [x > y] at least halves the product. *)
Lemma euclid_step x y m :
  0 < y < x -> x * y < 2 ^ Z.succ m -> 0 <= m ->
  0 <= Z.rem x y < y /\ y * Z.rem x y < 2 ^ m.
Proof.
  intros Hy Hlt Hm. pose proof (Z.rem_bound_pos x y ltac:(lia) ltac:(lia)) as Hr.
  split; [exact Hr|]. rewrite Z.pow_succ_r in Hlt by lia.
  pose proof (Z.quot_rem x y ltac:(lia)) as E.
  assert (1 <= Z.quot x y) by (apply Z.quot_le_lower_bound; lia).
  assert (2 * Z.rem x y < x) by nia. nia.
Qed.

Lemma gcd_loop_spec fuel x y :
  0 <= y < x -> x * y < 2 ^ Z.of_nat fuel -> gcd_loop fuel x y = Some (Z.gcd x y).
Proof.
  revert x y. induction fuel as [|fuel IH]; intros x y Hy Hlt; cbn [gcd_loop];
    destruct (Z.eqb_spec y 0) as [->|Hne]; try (rewrite Z.gcd_0_r, Z.abs_eq by lia; reflexivity).
  - simpl in Hlt. nia.
  - rewrite Nat2Z.inj_succ in Hlt.
    destruct (euclid_step x y (Z.of_nat fuel) ltac:(lia) Hlt ltac:(lia)) as [H1 H2].
    rewrite IH by lia. f_equal. apply gcd_rem. lia.
Qed.

Lemma gcd_loop_any fuel x y m :
  0 <= x -> 0 <= y < 2 ^ m -> 0 <= m -> 2 * m + 1 <= Z.of_nat fuel ->
  gcd_loop fuel x y = Some (Z.gcd x y).
Proof.
  intros Hx Hy Hm Hf. destruct fuel as [|fuel]; [lia|]. cbn [gcd_loop].
  destruct (Z.eqb_spec y 0) as [->|Hne]; [rewrite Z.gcd_0_r, Z.abs_eq by lia; reflexivity|].
  pose proof (Z.rem_bound_pos x y ltac:(lia) ltac:(lia)) as Hr.
  rewrite gcd_loop_spec; [f_equal; apply gcd_rem; lia|lia|].
  apply Z.lt_le_trans with (2 ^ (m + m)); [rewrite Z.pow_add_r by lia; nia|apply Z.pow_le_mono_r; lia].
Qed.

Lemma gcd_spec a b :
  INT64_MIN < a <= INT64_MAX -> INT64_MIN < b <= INT64_MAX -> gcd a b = Some (Z.gcd a b).
Proof.
  intros Ha Hb. unfold gcd.
  replace (if a <? 0 then s64 (- a) else a) with (Z.abs a)
    by (case_cmp; [rewrite s64_small by (unfold int64_range; lia)|]; lia).
  replace (if b <? 0 then s64 (- b) else b) with (Z.abs b)
    by (case_cmp; [rewrite s64_small by (unfold int64_range; lia)|]; lia).
  destruct (Z.eqb_spec (Z.abs a) 0) as [E|E]; [replace a with 0 by lia; reflexivity|].
  destruct (Z.eqb_spec (Z.abs b) 0) as [E2|E2]; [replace b with 0 by lia; rewrite Z.gcd_0_r; reflexivity|].
  rewrite (gcd_loop_any 128 _ _ 63); [|lia|change (2 ^ 63) with 9223372036854775808; lia|lia|simpl; lia].
  rewrite Z.gcd_abs_l, Z.gcd_abs_r. reflexivity.
Qed.

Lemma gcd128_spec a b :
  - 2 ^ 127 < a < 2 ^ 127 -> - 2 ^ 127 < b < 2 ^ 127 -> gcd128 a b = Some (Z.gcd a b).
Proof.
  intros Ha Hb. unfold gcd128.
  replace (if a <? 0 then s128 (- a) else a) with (Z.abs a) by (case_cmp; [rewrite s128_small|]; lia).
  replace (if b <? 0 then s128 (- b) else b) with (Z.abs b) by (case_cmp; [rewrite s128_small|]; lia).
  rewrite (gcd_loop_any 256 _ _ 127); [|lia|lia|lia|simpl; lia].
  rewrite Z.gcd_abs_l, Z.gcd_abs_r. reflexivity.
Qed.

(** Division by the greatest common divisor. *)
Lemma reduce_spec n d :
  0 < d ->
  let g := Z.gcd n d in
  0 < g /\ Z.gcd (Z.quot n g) (Z.quot d g) = 1 /\ Z.quot n g * d = n * Z.quot d g /\
  0 < Z.quot d g <= d /\ Z.abs (Z.quot n g) <= Z.abs n.
Proof.
  intros Hd g. assert (Hg : 0 < g).
  { pose proof (Z.gcd_nonneg n d). destruct (Z.eq_dec g 0) as [E|]; [|lia].
    apply Z.gcd_eq_0_r in E. lia. }
  destruct (Z.gcd_divide_l n d) as [n' En]. destruct (Z.gcd_divide_r n d) as [d' Ed]. fold g in En, Ed.
  assert (Qn : Z.quot n g = n') by (rewrite En; apply Z.quot_mul; lia).
  assert (Qd : Z.quot d g = d') by (rewrite Ed; apply Z.quot_mul; lia).
  rewrite Qn, Qd. split; [exact Hg|]. split; [|repeat split; nia].
  assert (E1 : n' = n / g) by (rewrite En at 1; symmetry; apply Z.div_mul; lia).
  assert (E2 : d' = d / g) by (rewrite Ed at 1; symmetry; apply Z.div_mul; lia).
  rewrite E1, E2. apply Z.gcd_div_gcd; [lia|reflexivity].
Qed.

(** The code divides only when the divisor exceeds one. *)
Lemma reduce_if n d :
  0 < d ->
  (if Z.gcd n d >? 1 then (Z.quot n (Z.gcd n d), Z.quot d (Z.gcd n d)) else (n, d))
  = (Z.quot n (Z.gcd n d), Z.quot d (Z.gcd n d)).
Proof.
  intros Hd. destruct (reduce_spec n d Hd) as (Hg & _). rewrite Z.gtb_ltb.
  destruct (Z.ltb_spec 1 (Z.gcd n d)); [reflexivity|].
  replace (Z.gcd n d) with 1 by lia. rewrite !Z.quot_1_r. reflexivity.
Qed.

(** ** Canonical form *)

(** The integers a rational's fields denote. *)
Definition rnum (r : rational) : Z :=
  if is_big r =? 0 then numerator r
  else match big_num r with Some b => bval b | None => 0 end.

Definition rden (r : rational) : Z :=
  if is_big r =? 0 then denominator r
  else match big_den r with Some b => bval b | None => 1 end.

(** Type invariant: reduced, positive denominator, and on the bignum path only
    when the pair does not fit [int64_t]. *)
Inductive rational_wf : rational -> Prop :=
| wf_small n d :
    int64_range n -> 0 < d <= INT64_MAX -> Z.gcd n d = 1 -> rational_wf (small_rational n d)
| wf_big bn bd :
    bignum_wf bn -> bignum_wf bd -> 0 < bval bd -> Z.gcd (bval bn) (bval bd) = 1 ->
    ~ (int64_range (bval bn) /\ int64_range (bval bd)) ->
    rational_wf (mkRational 0 1 1 (Some bn) (Some bd)).

Lemma rational_wf_facts r : rational_wf r -> 0 < rden r /\ Z.gcd (rnum r) (rden r) = 1.
Proof. intros [n d Hn Hd Hg|bn bd W1 W2 Hd Hg _]; cbn; auto; lia. Qed.

(** The value as a fraction. *)
Definition rvalue (r : rational) : Q := rnum r # Z.to_pos (rden r).

(** [r] is the canonical rational equal to [n / d]. *)
Definition equals_fraction (n d : Z) (r : rational) : Prop :=
  rational_wf r /\ rnum r * d = n * rden r.

(** The largest limb count among a rational's parts. *)
Definition rat_limbs (r : rational) : nat :=
  if is_big r =? 0 then 1%nat
  else match big_num r, big_den r with
       | Some bn, Some bd => Nat.max (num_limbs bn) (num_limbs bd)
       | _, _ => 1%nat
       end.

Lemma fits_int64_bignum a :
  bignum_wf a ->
  eshkol_bignum_fits_int64 (Some a)
  = if fits_int64 (bval a) then Some (bval a) else None.
Proof.
  intros W. unfold fits_int64. rewrite Z.geb_leb. cbn [eshkol_bignum_fits_int64].
  pose proof (wf_nonempty a W) as Hn. pose proof (wf_magnitude a W) as Hm. pose proof (bval_abs a W) as Ha.
  change (u64 INT64_MAX) with INT64_MAX. change (u64 (INT64_MAX + 1)) with (INT64_MAX + 1).
  destruct (Nat.ltb_spec 1 (num_limbs a)) as [Hn2|Hn1].
  - assert (B64 <= Z.abs (bval a)).
    { destruct (Z.leb_spec B64 (Z.abs (bval a))) as [|Hlt]; [assumption|].
      pose proof (int64_one_limb a W Hlt). lia. }
    destruct (Z.leb_spec INT64_MIN (bval a)), (Z.leb_spec (bval a) INT64_MAX); simpl; auto; lia.
  - assert (E : lval (limbs a) = nth 0 (limbs a) 0).
    { unfold num_limbs in *. destruct (limbs a) as [|x [|]]; simpl in *; lia. }
    rewrite <- E. unfold bval in *. pose proof (wf_zero a W).
    destruct (wf_sign a W) as [Es|Es]; rewrite Es in *; cbn [Z.eqb] in *.
    + destruct (Z.leb_spec (lval (limbs a)) INT64_MAX), (Z.leb_spec INT64_MIN (lval (limbs a)));
        cbn [andb]; try lia; try reflexivity. rewrite s64_small by (unfold int64_range; lia). reflexivity.
    + destruct (Z.eqb_spec (lval (limbs a)) (INT64_MAX + 1)) as [E2|E2]; [rewrite E2; reflexivity|].
      destruct (Z.leb_spec (lval (limbs a)) INT64_MAX), (Z.leb_spec INT64_MIN (- lval (limbs a))),
        (Z.leb_spec (- lval (limbs a)) INT64_MAX); cbn [andb]; try lia; try reflexivity.
      rewrite s64_small by (unfold int64_range; lia). reflexivity.
Qed.

Lemma fits_int64_range v : fits_int64 v = true <-> int64_range v.
Proof. unfold fits_int64, int64_range. rewrite Z.geb_leb, andb_true_iff, !Z.leb_le. lia. Qed.

Lemma limbs_le_of_bound r n : bignum_wf r -> Z.abs (bval r) < bpow n -> (1 <= n)%nat -> (num_limbs r <= n)%nat.
Proof.
  intros W Hb Hn. rewrite bval_abs in Hb by exact W. unfold num_limbs.
  destruct (Nat.leb_spec (length (limbs r)) 1); [lia|].
  pose proof (canonical_lower _ (wf_limbs r W) (wf_canonical r W) ltac:(lia)) as Hl.
  pose proof (bpow_lt_inv (length (limbs r) - 1) n ltac:(lia)). lia.
Qed.

Lemma bval_bpow r : bignum_wf r -> Z.abs (bval r) < bpow (num_limbs r).
Proof. intros W. rewrite bval_abs by exact W. apply lval_bound, W. Qed.

Section Specs.
  Context {St : Type} {A : Arena St} {L : ArenaLaws St} {G : Granted}.
  Context (g : granted).

(** A call that returns a non-null bignum of value [z]. *)
Definition is_bignum (z : Z) (r : option bignum) : Prop := exists x, r = Some x /\ denotes z x.

Lemma wp_bignum (m : M St (option bignum)) (F : Prop) z :
  wp m (or_null F (denotes z)) -> F -> wp m (is_bignum z).
Proof. intros Hm HF. refine (wp_mono _ _ _ _ Hm). intros r. exact (or_null_granted F _ r g HF). Qed.

(** A conditional negation, as the callers normalise signs. *)
Lemma cond_neg_spec (c : bool) x :
  bignum_wf x ->
  wp (if c then eshkol_bignum_neg (Some x) else ret (Some x))
    (is_bignum (if c then - bval x else bval x)).
Proof.
  intros W. destruct c.
  - apply (wp_bignum _ True); [apply neg_exact, W|exact I].
  - apply wp_ret. exists x. split; [reflexivity|split; auto].
Qed.

Lemma magnitude_spec z x : denotes z x -> 0 <= z -> magnitude x = x.
Proof.
  intros [W V] Hz. unfold magnitude. rewrite (bval_sign x W), V.
  rewrite (proj2 (Z.ltb_ge _ _)) by lia. reflexivity.
Qed.

Lemma bn_gcd_step x y :
  denotes (bval x) x -> denotes (bval y) y -> 0 <= bval x -> 0 < bval y ->
  wp (eshkol_bignum_mod (Some x) (Some y))
    (fun r => exists r', r = Some r' /\ denotes (Z.rem (bval x) (bval y)) r' /\ magnitude r' = r').
Proof.
  intros [Wx _] [Wy _] Hx Hy.
  refine (wp_mono _ _ _ _ (mod_exact x y g Wx Wy ltac:(lia))).
  intros r (m & -> & Hm). exists m. split; [reflexivity|]. split; [exact Hm|].
  apply (magnitude_spec _ _ Hm). pose proof (Z.rem_bound_pos (bval x) (bval y)). lia.
Qed.

Lemma bn_gcd_loop_spec fuel x y :
  bignum_wf x -> bignum_wf y -> 0 <= bval y < bval x -> bval x * bval y < 2 ^ Z.of_nat fuel ->
  wp (bn_gcd_loop fuel (Some x) (Some y)) (is_bignum (Z.gcd (bval x) (bval y))).
Proof.
  revert x y. induction fuel as [|fuel IH]; intros x y Wx Wy Hy Hlt; cbn [bn_gcd_loop];
    rewrite is_zero_spec by exact Wy; destruct (Z.eqb_spec (bval y) 0) as [E|E];
    try (apply wp_ret; exists x; split; [reflexivity|]; split; [exact Wx|];
         rewrite E, Z.gcd_0_r, Z.abs_eq by lia; reflexivity).
  - simpl in Hlt. nia.
  - rewrite Nat2Z.inj_succ in Hlt.
    destruct (euclid_step (bval x) (bval y) (Z.of_nat fuel) ltac:(lia) Hlt ltac:(lia)) as [H1 H2].
    eapply wp_call; [apply bn_gcd_step; try split; auto; lia|].
    intros r (r' & -> & [Wr Vr] & ->). rewrite <- gcd_rem, <- Vr by lia.
    apply IH; auto; rewrite Vr; lia.
Qed.

Lemma bn_gcd_spec a b :
  bignum_wf a -> bignum_wf b ->
  wp (bn_gcd (Some a) (Some b)) (is_bignum (Z.gcd (bval a) (bval b))).
Proof.
  intros Wa Wb. unfold bn_gcd.
  assert (Habs : forall x, bignum_wf x ->
            (if negb (sign x =? 0) then - bval x else bval x) = Z.abs (bval x)).
  { intros x Wx. rewrite (bval_sign x Wx). destruct (Z.ltb_spec (bval x) 0); simpl; lia. }
  eapply (wp_call _ _ (eq a)); [apply wp_deref; reflexivity|]. intros a0 <-.
  eapply wp_call; [apply cond_neg_spec, Wa|]. rewrite (Habs a Wa). intros px (x & -> & [Wx Vx]).
  eapply (wp_call _ _ (eq b)); [apply wp_deref; reflexivity|]. intros b0 <-.
  eapply wp_call; [apply cond_neg_spec, Wb|]. rewrite (Habs b Wb). intros py (y & -> & [Wy Vy]).
  eapply (wp_call _ _ (is_bignum (Z.gcd (bval a) (bval b)))).
  - replace (128 * num_limbs b + 2)%nat with (S (128 * num_limbs b + 1)) by lia.
    rewrite <- (Z.gcd_abs_l (bval a)), <- (Z.gcd_abs_r _ (bval b)), <- Vx, <- Vy.
    cbn [bn_gcd_loop]. rewrite is_zero_spec by exact Wy. destruct (Z.eqb_spec (bval y) 0) as [E|E].
    + apply wp_ret. exists x. split; [reflexivity|]. split; [exact Wx|].
      rewrite E, Z.gcd_0_r, Z.abs_eq by lia. reflexivity.
    + eapply wp_call; [apply bn_gcd_step; try split; auto; lia|].
      intros r (r' & -> & [Wr Vr] & ->). rewrite <- gcd_rem, <- Vr by lia.
      pose proof (Z.rem_bound_pos (bval x) (bval y) ltac:(lia) ltac:(lia)) as Hr.
      apply bn_gcd_loop_spec; auto; [lia|]. rewrite Vr.
      pose proof (bval_bpow b Wb) as Hb. rewrite bpow_pow2, <- Vy in Hb.
      apply Z.lt_le_trans with (2 ^ (64 * Z.of_nat (num_limbs b) + 64 * Z.of_nat (num_limbs b))).
      * rewrite Z.pow_add_r by lia. nia.
      * apply Z.pow_le_mono_r; lia.
  - intros r (x' & -> & Hx'). apply wp_ret. cbn [option_map]. exists x'. split; [|exact Hx'].
    f_equal. apply (magnitude_spec _ _ Hx'). apply Z.gcd_nonneg.
Qed.

(** The object's memory is granted, so the unchecked pointer is not null. *)
Lemma alloc_object_spec (r : rational) :
  wp (let! p := allocate_with_header sizeof_rational HEAP_SUBTYPE_RATIONAL 0 in
      let! _ := deref p in ret r) (eq r).
Proof.
  eapply wp_call; [apply allocate_with_header_spec; unfold sizeof_rational; lia|].
  intros p Hp. destruct (or_null_granted (sizeof_rational <= UINT32_MAX) _ p g
                           ltac:(unfold sizeof_rational; lia) Hp) as (q & -> & _).
  eapply (wp_call _ _ (fun _ => True)); [apply wp_deref; exact I|]. intros _ _. apply wp_ret. reflexivity.
Qed.

Lemma rational_alloc_small_spec n d :
  wp (rational_alloc_small n d) (eq (small_rational n d)).
Proof. apply alloc_object_spec. Qed.

(** A conditional exact division by the greatest common divisor. *)
Lemma cond_div_spec (c : bool) x h :
  bignum_wf x -> bignum_wf h -> 0 < bval h -> (c = false -> bval h = 1) ->
  wp (if c then eshkol_bignum_div (Some x) (Some h) else ret (Some x))
    (is_bignum (Z.quot (bval x) (bval h))).
Proof.
  intros Wx Wh Hh Hc. destruct c.
  - exact (div_exact x h g Wx Wh ltac:(lia)).
  - apply wp_ret. exists x. split; [reflexivity|]. rewrite Hc, Z.quot_1_r by reflexivity. split; auto.
Qed.

Lemma create_bn_spec n d :
  bignum_wf n -> bignum_wf d -> bval d <> 0 ->
  wp (eshkol_rational_create_bn (Some n) (Some d)) (equals_fraction (bval n) (bval d)).
Proof.
  intros Wn Wd Hd. cbn [eshkol_rational_create_bn]. rewrite is_zero_spec by exact Wd.
  destruct (Z.eqb_spec (bval d) 0) as [|_]; [contradiction|].
  replace (negb (sign d =? 0)) with (bval d <? 0)
    by (rewrite (bval_sign d Wd); destruct (bval d <? 0); reflexivity).
  set (c := bval d <? 0).
  eapply wp_call; [apply cond_neg_spec, Wn|]. intros pn (n1 & -> & [W1 V1]).
  eapply wp_call; [apply cond_neg_spec, Wd|]. intros pd (d1 & -> & [W2 V2]).
  assert (Hd1 : 0 < bval d1) by (rewrite V2; subst c; destruct (Z.ltb_spec (bval d) 0); lia).
  eapply wp_call; [apply bn_gcd_spec; assumption|]. intros pg (h & -> & [Wh Vh]).
  destruct (reduce_spec (bval n1) (bval d1) Hd1) as (Hg & Hcop & Hcross & Hdq & _).
  rewrite <- Vh in *. set (red := negb (bn_equals_i64 (Some h) 1) && _).
  assert (Hred : red = false -> bval h = 1).
  { subst red. unfold bn_equals_i64. rewrite fits_int64_bignum, is_zero_spec by exact Wh.
    destruct (fits_int64 (bval h)); [|rewrite (proj2 (Z.eqb_neq (bval h) 0)) by lia; discriminate].
    destruct (Z.eqb_spec (bval h) 1); [auto|]. rewrite (proj2 (Z.eqb_neq (bval h) 0)) by lia. discriminate. }
  clearbody red.
  eapply wp_call; [apply cond_div_spec; assumption|]. intros pn (n2 & -> & [W3 V3]).
  eapply wp_call; [apply cond_div_spec; assumption|]. intros pd (d2 & -> & [W4 V4]).
  assert (Hval : bval n2 * bval d = bval n * bval d2).
  { rewrite V3, V4. subst c. destruct (Z.ltb_spec (bval d) 0); nia. }
  rewrite !fits_int64_bignum by assumption.
  assert (Hbig : ~ (int64_range (bval n2) /\ int64_range (bval d2)) ->
    wp (let! p := allocate_with_header sizeof_rational HEAP_SUBTYPE_RATIONAL 0 in
        let! _ := deref p in ret (mkRational 0 1 1 (Some n2) (Some d2)))
      (equals_fraction (bval n) (bval d))).
  { intros Hno. refine (wp_mono _ _ _ _ (alloc_object_spec _)). intros r <-.
    split; [|exact Hval]. apply wf_big; auto; [lia|]. rewrite V3, V4. exact Hcop. }
  destruct (fits_int64 (bval n2)) eqn:F1; [destruct (fits_int64 (bval d2)) eqn:F2|].
  - refine (wp_mono _ _ _ _ (rational_alloc_small_spec _ _)). intros r <-.
    apply fits_int64_range in F1, F2. split; [|exact Hval].
    constructor; [exact F1|unfold int64_range in F2; lia|rewrite V3, V4; exact Hcop].
  - apply Hbig. rewrite <- !fits_int64_range, F2. intuition discriminate.
  - apply Hbig. rewrite <- !fits_int64_range, F1. intuition discriminate.
Qed.

Lemma create_spec n d :
  int64_range n -> int64_range d -> d <> 0 ->
  wp (eshkol_rational_create n d) (equals_fraction n d).
Proof.
  intros Hn Hd Hd0. unfold eshkol_rational_create.
  destruct (Z.eqb_spec d 0) as [|_]; [contradiction|]. unfold int64_range in Hn, Hd.
  destruct ((d =? INT64_MIN) || (n =? INT64_MIN)) eqn:E.
  - eapply wp_call; [apply (wp_bignum _ True); [apply from_int64_exact; unfold int64_range; lia|exact I]|].
    intros pn (bn & -> & [W1 V1]).
    eapply wp_call; [apply (wp_bignum _ True); [apply from_int64_exact; unfold int64_range; lia|exact I]|].
    intros pd (bd & -> & [W2 V2]). rewrite <- V1, <- V2. apply create_bn_spec; auto. lia.
  - apply orb_false_elim in E. destruct E as [E1 E2]. apply Z.eqb_neq in E1, E2.
    set (n1 := if d <? 0 then - n else n). set (d1 := if d <? 0 then - d else d).
    assert (Hd1 : 0 < d1 <= INT64_MAX) by (subst d1; case_cmp; lia).
    assert (Hn1 : INT64_MIN < n1 <= INT64_MAX) by (subst n1; case_cmp; lia).
    replace (if d <? 0 then (s64 (- n), s64 (- d)) else (n, d)) with (n1, d1)
      by (subst n1 d1; destruct (Z.ltb_spec d 0); [rewrite !s64_small by (unfold int64_range; lia)|]; reflexivity).
    rewrite gcd_spec by lia.
    eapply (wp_call _ _ (eq (Z.gcd n1 d1))); [apply wp_fuelled; reflexivity|]. intros h <-.
    rewrite reduce_if by lia.
    destruct (reduce_spec n1 d1 ltac:(lia)) as (Hg & Hcop & Hcross & Hdq & Hnq).
    refine (wp_mono _ _ _ _ (rational_alloc_small_spec _ _)). intros r <-. split.
    + constructor; [unfold int64_range; lia|lia|exact Hcop].
    + change (Z.quot n1 (Z.gcd n1 d1) * d = n * Z.quot d1 (Z.gcd n1 d1)).
      subst n1 d1. destruct (Z.ltb_spec d 0); nia.
Qed.

Lemma create_safe_spec n d :
  - 2 ^ 127 < n < 2 ^ 127 -> - 2 ^ 127 < d < 2 ^ 127 -> d <> 0 ->
  wp (rational_create_safe n d)
    (fun o => match o with Some r => equals_fraction n d r | None => True end).
Proof.
  intros Hn Hd Hd0. unfold rational_create_safe. destruct (Z.eqb_spec d 0) as [|_]; [contradiction|].
  set (n1 := if d <? 0 then - n else n). set (d1 := if d <? 0 then - d else d).
  assert (Hd1 : 0 < d1 < 2 ^ 127) by (subst d1; case_cmp; lia).
  assert (Hn1 : - 2 ^ 127 < n1 < 2 ^ 127) by (subst n1; case_cmp; lia).
  replace (if d <? 0 then (s128 (- n), s128 (- d)) else (n, d)) with (n1, d1)
    by (subst n1 d1; destruct (Z.ltb_spec d 0); [rewrite !s128_small by lia|]; reflexivity).
  rewrite gcd128_spec by lia.
  eapply (wp_call _ _ (eq (Z.gcd n1 d1))); [apply wp_fuelled; reflexivity|]. intros h <-.
  rewrite reduce_if by lia.
  destruct (reduce_spec n1 d1 ltac:(lia)) as (Hg & Hcop & Hcross & Hdq & Hnq).
  set (n2 := Z.quot n1 _) in *. set (d2 := Z.quot d1 _) in *.
  destruct (fits_int64 n2) eqn:F1; [|apply wp_ret; exact I].
  destruct (fits_int64 d2) eqn:F2; [|apply wp_ret; exact I]. cbn [negb orb].
  apply fits_int64_range in F1, F2. rewrite !s64_small by assumption.
  eapply wp_call; [apply rational_alloc_small_spec|]. intros r <-. apply wp_ret. split.
  - constructor; [exact F1|unfold int64_range in F2; lia|exact Hcop].
  - change (n2 * d = n * d2). subst n1 d1. destruct (Z.ltb_spec d 0); nia.
Qed.

(** ** Arithmetic *)

Lemma abs_mul_le x y a b : Z.abs x <= a -> Z.abs y <= b -> Z.abs (x * y) <= a * b.
Proof. intros. rewrite Z.abs_mul. apply Z.mul_le_mono_nonneg; lia. Qed.

(** A bignum of value [z] with at most [k] limbs. *)
Definition bignum_within (z : Z) (k : nat) (r : option bignum) : Prop :=
  exists x, r = Some x /\ denotes z x /\ (num_limbs x <= k)%nat.

Lemma from_int64_within v k :
  int64_range v -> (1 <= k)%nat -> wp (eshkol_bignum_from_int64 v) (bignum_within v k).
Proof.
  intros Hv Hk. eapply wp_mono; [|apply (wp_bignum _ True v); [apply from_int64_exact, Hv|exact I]].
  intros r (x & -> & [W V]). exists x. split; [reflexivity|]. split; [split; assumption|].
  rewrite (int64_one_limb x W) by (rewrite V; unfold int64_range in Hv; lia). exact Hk.
Qed.

Lemma rat_num_bn_spec r :
  rational_wf r -> wp (rat_num_bn r) (bignum_within (rnum r) (rat_limbs r)).
Proof.
  intros [n d Hn Hd Hg|bn bd W1 W2 Hd Hg Hno]; unfold rat_num_bn; cbn.
  - apply from_int64_within; auto.
  - apply wp_ret. exists bn. split; [reflexivity|]. split; [split; auto|]. unfold rat_limbs. cbn. lia.
Qed.

Lemma rat_den_bn_spec r :
  rational_wf r -> wp (rat_den_bn r) (bignum_within (rden r) (rat_limbs r)).
Proof.
  intros [n d Hn Hd Hg|bn bd W1 W2 Hd Hg Hno]; unfold rat_den_bn; cbn.
  - apply from_int64_within; auto. unfold int64_range. lia.
  - apply wp_ret. exists bd. split; [reflexivity|]. split; [split; auto|]. unfold rat_limbs. cbn. lia.
Qed.

Lemma mul_within x y i j :
  bignum_wf x -> bignum_wf y -> (num_limbs x <= i)%nat -> (num_limbs y <= j)%nat -> fits (i + j) ->
  wp (eshkol_bignum_mul (Some x) (Some y)) (bignum_within (bval x * bval y) (i + j)).
Proof.
  intros Wx Wy Hi Hj Hf. eapply wp_mono; [|apply (wp_bignum _ _ _ (mul_exact x y Wx Wy))].
  2: { unfold fits in *. lia. }
  intros r (z & -> & [W V]). exists z. split; [reflexivity|]. split; [split; assumption|].
  pose proof (wf_nonempty x Wx). apply (Nat.le_trans _ (num_limbs x + num_limbs y)); [|lia].
  apply limbs_le_of_bound; [exact W| |lia]. rewrite V, Z.abs_mul, bpow_add.
  pose proof (bval_bpow x Wx). pose proof (bval_bpow y Wy). nia.
Qed.

Lemma add_sub_within (sub : bool) x y k :
  bignum_wf x -> bignum_wf y -> (num_limbs x <= k)%nat -> (num_limbs y <= k)%nat -> fits (k + 1) ->
  wp (if sub then eshkol_bignum_sub (Some x) (Some y) else eshkol_bignum_add (Some x) (Some y))
    (is_bignum (if sub then bval x - bval y else bval x + bval y)).
Proof.
  intros Wx Wy Hx Hy Hf. assert (Hfit : fits (Nat.max (num_limbs x) (num_limbs y) + 1)) by (unfold fits in *; lia).
  destruct sub; [exact (wp_bignum _ _ _ (sub_exact x y Wx Wy) Hfit)|exact (wp_bignum _ _ _ (add_exact x y Wx Wy) Hfit)].
Qed.

(** Both operands' sizes leave room for their products and sums. *)
Definition sizes_ok (a b : rational) : Prop := fits (rat_limbs a + rat_limbs b + 1).

Lemma add_sub_big_spec a b sub :
  rational_wf a -> rational_wf b -> sizes_ok a b ->
  wp (rat_add_sub_big a b sub)
    (equals_fraction (if sub then rnum a * rden b - rnum b * rden a else rnum a * rden b + rnum b * rden a)
                     (rden a * rden b)).
Proof.
  intros Wa Wb Hs. unfold rat_add_sub_big, sizes_ok in *.
  destruct (rational_wf_facts a Wa) as [Da _]. destruct (rational_wf_facts b Wb) as [Db _].
  assert (Hs1 : fits (rat_limbs a + rat_limbs b)) by (unfold fits in *; lia).
  assert (Hs2 : fits (rat_limbs b + rat_limbs a)) by (unfold fits in *; lia).
  eapply wp_call; [apply rat_num_bn_spec, Wa|]. intros p (an & -> & [W1 V1] & L1).
  eapply wp_call; [apply rat_den_bn_spec, Wa|]. intros p (ad & -> & [W2 V2] & L2).
  eapply wp_call; [apply rat_num_bn_spec, Wb|]. intros p (bn & -> & [W3 V3] & L3).
  eapply wp_call; [apply rat_den_bn_spec, Wb|]. intros p (bd & -> & [W4 V4] & L4).
  eapply wp_call; [exact (mul_within an bd _ _ W1 W4 L1 L4 Hs1)|]. intros p (x & -> & [W5 V5] & L5).
  eapply wp_call; [exact (mul_within bn ad _ _ W3 W2 L3 L2 Hs2)|]. intros p (y & -> & [W6 V6] & L6).
  rewrite Nat.add_comm in L6.
  eapply wp_call; [exact (add_sub_within sub x y _ W5 W6 L5 L6 Hs)|]. intros p (n & -> & [W7 V7]).
  eapply wp_call; [exact (mul_within ad bd _ _ W2 W4 L2 L4 Hs1)|]. intros p (d & -> & [W8 V8] & _).
  rewrite <- V1, <- V2, <- V3, <- V4, <- V5, <- V6, <- V7, <- V8. apply create_bn_spec; auto.
  rewrite V8, V2, V4. nia.
Qed.

Lemma mul_big_spec a b :
  rational_wf a -> rational_wf b -> sizes_ok a b ->
  wp (rat_mul_big a b) (equals_fraction (rnum a * rnum b) (rden a * rden b)).
Proof.
  intros Wa Wb Hs. unfold rat_mul_big, sizes_ok in *.
  destruct (rational_wf_facts a Wa) as [Da _]. destruct (rational_wf_facts b Wb) as [Db _].
  assert (Hs1 : fits (rat_limbs a + rat_limbs b)) by (unfold fits in *; lia).
  eapply wp_call; [apply rat_num_bn_spec, Wa|]. intros p (an & -> & [W1 V1] & L1).
  eapply wp_call; [apply rat_num_bn_spec, Wb|]. intros p (bn & -> & [W3 V3] & L3).
  eapply wp_call; [exact (mul_within an bn _ _ W1 W3 L1 L3 Hs1)|]. intros p (x & -> & [W5 V5] & L5).
  eapply wp_call; [apply rat_den_bn_spec, Wa|]. intros p (ad & -> & [W2 V2] & L2).
  eapply wp_call; [apply rat_den_bn_spec, Wb|]. intros p (bd & -> & [W4 V4] & L4).
  eapply wp_call; [exact (mul_within ad bd _ _ W2 W4 L2 L4 Hs1)|]. intros p (y & -> & [W6 V6] & L6).
  rewrite <- V1, <- V2, <- V3, <- V4, <- V5, <- V6. apply create_bn_spec; auto. rewrite V6, V2, V4. nia.
Qed.

Lemma div_big_spec a b :
  rational_wf a -> rational_wf b -> sizes_ok a b -> rnum b <> 0 ->
  wp (rat_div_big a b) (equals_fraction (rnum a * rden b) (rden a * rnum b)).
Proof.
  intros Wa Wb Hs Hb. unfold rat_div_big, sizes_ok in *.
  destruct (rational_wf_facts a Wa) as [Da _]. destruct (rational_wf_facts b Wb) as [Db _].
  assert (Hs1 : fits (rat_limbs a + rat_limbs b)) by (unfold fits in *; lia).
  eapply wp_call; [apply rat_num_bn_spec, Wa|]. intros p (an & -> & [W1 V1] & L1).
  eapply wp_call; [apply rat_den_bn_spec, Wb|]. intros p (bd & -> & [W4 V4] & L4).
  eapply wp_call; [exact (mul_within an bd _ _ W1 W4 L1 L4 Hs1)|]. intros p (x & -> & [W5 V5] & L5).
  eapply wp_call; [apply rat_den_bn_spec, Wa|]. intros p (ad & -> & [W2 V2] & L2).
  eapply wp_call; [apply rat_num_bn_spec, Wb|]. intros p (bn & -> & [W3 V3] & L3).
  eapply wp_call; [exact (mul_within ad bn _ _ W2 W3 L2 L3 Hs1)|]. intros p (y & -> & [W6 V6] & L6).
  rewrite <- V1, <- V2, <- V3, <- V4, <- V5, <- V6. apply create_bn_spec; auto. rewrite V6, V2, V3. nia.
Qed.

(** The two paths agree on what they compute. *)
Lemma small_or_big_spec small n d big n' d' :
  (small = true -> n = n' /\ d = d' /\ - 2 ^ 127 < n < 2 ^ 127 /\ - 2 ^ 127 < d < 2 ^ 127 /\ d <> 0) ->
  wp big (equals_fraction n' d') ->
  wp (small_or_big small n d big) (equals_fraction n' d').
Proof.
  intros Hs Hb. unfold small_or_big. destruct small; [|exact Hb].
  destruct (Hs eq_refl) as (-> & -> & Hn & Hd & Hd0).
  eapply wp_call; [apply create_safe_spec; assumption|]. intros [r|] Hr; [apply wp_ret; exact Hr|exact Hb].
Qed.

Lemma both_small_spec a b :
  rational_wf a -> rational_wf b -> both_small a b = true ->
  numerator a = rnum a /\ denominator a = rden a /\ numerator b = rnum b /\ denominator b = rden b /\
  int64_range (rnum a) /\ int64_range (rnum b) /\ 0 < rden a <= INT64_MAX /\ 0 < rden b <= INT64_MAX.
Proof.
  intros [na da Hna Hda _|? ? ? ? ? ? ?] [nb db Hnb Hdb _|? ? ? ? ? ? ?]; cbn; try discriminate.
  intros _. unfold rnum, rden, int64_range in *. cbn in *. repeat split; try reflexivity; lia.
Qed.

(** Products and sums of [int64_t] fractions stay inside [__int128_t]. *)
Lemma int128_cross x y z w :
  int64_range x -> int64_range y -> 0 < z <= INT64_MAX -> 0 < w <= INT64_MAX ->
  - 2 ^ 127 < x * w + y * z < 2 ^ 127 /\ - 2 ^ 127 < x * w - y * z < 2 ^ 127 /\
  - 2 ^ 127 < x * w < 2 ^ 127 /\ - 2 ^ 127 < z * w < 2 ^ 127 /\ - 2 ^ 127 < z * y < 2 ^ 127 /\
  - 2 ^ 127 < x * y < 2 ^ 127.
Proof.
  unfold int64_range. intros Hx Hy Hz Hw. change (2 ^ 127) with 170141183460469231731687303715884105728.
  pose proof (abs_mul_le x w (2 ^ 63) INT64_MAX ltac:(lia) ltac:(lia)) as H1.
  pose proof (abs_mul_le y z (2 ^ 63) INT64_MAX ltac:(lia) ltac:(lia)) as H2.
  pose proof (abs_mul_le x y (2 ^ 63) (2 ^ 63) ltac:(lia) ltac:(lia)) as H3.
  pose proof (abs_mul_le z w (2 ^ 63) (2 ^ 63) ltac:(lia) ltac:(lia)) as H4.
  rewrite (Z.mul_comm z y).
  change (2 ^ 63 * INT64_MAX) with 85070591730234615856620279821087277056 in *.
  change (2 ^ 63 * 2 ^ 63) with 85070591730234615865843651857942052864 in *. lia.
Qed.

Lemma rational_add_spec a b :
  rational_wf a -> rational_wf b -> sizes_ok a b ->
  wp (eshkol_rational_add a b) (equals_fraction (rnum a * rden b + rnum b * rden a) (rden a * rden b)).
Proof.
  intros Wa Wb Hs. apply small_or_big_spec; [|exact (add_sub_big_spec a b false Wa Wb Hs)].
  intros Hsm. destruct (both_small_spec a b Wa Wb Hsm) as (-> & -> & -> & -> & Na & Nb & Da & Db).
  destruct (int128_cross _ _ _ _ Na Nb Da Db) as (B1 & B2 & B3 & B4 & B5 & B6).
  rewrite !s128_small by lia. repeat split; try lia; nia.
Qed.

Lemma rational_sub_spec a b :
  rational_wf a -> rational_wf b -> sizes_ok a b ->
  wp (eshkol_rational_sub a b) (equals_fraction (rnum a * rden b - rnum b * rden a) (rden a * rden b)).
Proof.
  intros Wa Wb Hs. apply small_or_big_spec; [|exact (add_sub_big_spec a b true Wa Wb Hs)].
  intros Hsm. destruct (both_small_spec a b Wa Wb Hsm) as (-> & -> & -> & -> & Na & Nb & Da & Db).
  destruct (int128_cross _ _ _ _ Na Nb Da Db) as (B1 & B2 & B3 & B4 & B5 & B6).
  rewrite !s128_small by lia. repeat split; try lia; nia.
Qed.

Lemma rational_mul_spec a b :
  rational_wf a -> rational_wf b -> sizes_ok a b ->
  wp (eshkol_rational_mul a b) (equals_fraction (rnum a * rnum b) (rden a * rden b)).
Proof.
  intros Wa Wb Hs. apply small_or_big_spec; [|exact (mul_big_spec a b Wa Wb Hs)].
  intros Hsm. destruct (both_small_spec a b Wa Wb Hsm) as (-> & -> & -> & -> & Na & Nb & Da & Db).
  destruct (int128_cross _ _ _ _ Na Nb Da Db) as (B1 & B2 & B3 & B4 & B5 & B6).
  rewrite !s128_small by lia. repeat split; try lia; nia.
Qed.

Lemma rational_div_spec a b :
  rational_wf a -> rational_wf b -> sizes_ok a b -> rnum b <> 0 ->
  wp (eshkol_rational_div a b) (equals_fraction (rnum a * rden b) (rden a * rnum b)).
Proof.
  intros Wa Wb Hs Hb. unfold eshkol_rational_div.
  replace (if negb (is_big b =? 0) then eshkol_bignum_is_zero (big_num b) else numerator b =? 0) with false.
  - apply small_or_big_spec; [|exact (div_big_spec a b Wa Wb Hs Hb)].
    intros Hsm. destruct (both_small_spec a b Wa Wb Hsm) as (-> & -> & -> & -> & Na & Nb & Da & Db).
    destruct (int128_cross _ _ _ _ Na Nb Da Db) as (B1 & B2 & B3 & B4 & B5 & B6).
    rewrite !s128_small by lia. repeat split; try lia; nia.
  - destruct Wb as [n d Hn Hd Hg|bn bd W1 W2 Hd Hg Hno]; cbn in *.
    + symmetry. apply Z.eqb_neq. exact Hb.
    + pose proof (is_zero_spec bn W1) as Hz. cbn in Hz. rewrite Hz. symmetry. apply Z.eqb_neq. exact Hb.
Qed.

Lemma rational_compare_spec a b :
  rational_wf a -> rational_wf b -> sizes_ok a b ->
  wp (eshkol_rational_compare a b) (eq (Z.sgn (rnum a * rden b - rnum b * rden a))).
Proof.
  intros Wa Wb Hs. unfold eshkol_rational_compare, sizes_ok in *. destruct (both_small a b) eqn:Hsm.
  - destruct (both_small_spec a b Wa Wb Hsm) as (-> & -> & -> & -> & Na & Nb & Da & Db).
    destruct (int128_cross _ _ _ _ Na Nb Da Db) as (_ & _ & B3 & _ & B5 & _).
    apply wp_ret. rewrite !s128_small by lia. rewrite Z.gtb_ltb. repeat case_cmp; lia.
  - assert (Hs1 : fits (rat_limbs a + rat_limbs b)) by (unfold fits in *; lia).
    assert (Hs2 : fits (rat_limbs b + rat_limbs a)) by (unfold fits in *; lia).
    eapply wp_call; [apply rat_num_bn_spec, Wa|]. intros p (an & -> & [W1 V1] & L1).
    eapply wp_call; [apply rat_den_bn_spec, Wb|]. intros p (bd & -> & [W4 V4] & L4).
    eapply wp_call; [exact (mul_within an bd _ _ W1 W4 L1 L4 Hs1)|]. intros p (x & -> & [W5 V5] & L5).
    eapply wp_call; [apply rat_num_bn_spec, Wb|]. intros p (bn & -> & [W3 V3] & L3).
    eapply wp_call; [apply rat_den_bn_spec, Wa|]. intros p (ad & -> & [W2 V2] & L2).
    eapply wp_call; [exact (mul_within bn ad _ _ W3 W2 L3 L2 Hs2)|]. intros p (y & -> & [W6 V6] & L6).
    apply wp_ret. rewrite (compare_sgn x y W5 W6), V5, V6, V1, V2, V3, V4. reflexivity.
Qed.

End Specs.

(** ** Equality and the field operations on [Q] *)

Lemma reduced_unique n d n' d' :
  0 < d -> 0 < d' -> Z.gcd n d = 1 -> Z.gcd n' d' = 1 -> n * d' = n' * d -> n = n' /\ d = d'.
Proof.
  intros Hd Hd' Hg Hg' E.
  assert (H1 : (d | d')).
  { apply (Gauss d n d'); [exists n'; lia|]. apply Zgcd_1_rel_prime. rewrite Z.gcd_comm. exact Hg. }
  assert (H2 : (d' | d)).
  { apply (Gauss d' n' d); [exists n; lia|]. apply Zgcd_1_rel_prime. rewrite Z.gcd_comm. exact Hg'. }
  assert (d = d') by (apply Z.divide_antisym_nonneg; auto; lia). subst. split; [nia|reflexivity].
Qed.

Lemma rational_equal_spec a b :
  rational_wf a -> rational_wf b ->
  eshkol_rational_equal a b = true <-> rnum a = rnum b /\ rden a = rden b.
Proof.
  intros [na da Hna Hda Hga|ba ca W1 W2 Hd Hg Hno] [nb db Hnb Hdb Hgb|bb cb W3 W4 Hd' Hg' Hno'];
    unfold eshkol_rational_equal, rnum, rden;
    cbn -[eshkol_bignum_compare].
  - rewrite andb_true_iff, !Z.eqb_eq. reflexivity.
  - split; [discriminate|]. intros [E1 E2]. destruct Hno'. rewrite <- E1, <- E2.
    split; [exact Hna|unfold int64_range; lia].
  - split; [discriminate|]. intros [E1 E2]. destruct Hno. rewrite E1, E2.
    split; [exact Hnb|unfold int64_range; lia].
  - rewrite andb_true_iff, !Z.eqb_eq.
    rewrite (compare_sgn ba bb W1 W3), (compare_sgn ca cb W2 W4). lia.
Qed.

Lemma equals_fraction_value n d r :
  0 < d -> equals_fraction n d r -> (rvalue r == n # Z.to_pos d)%Q.
Proof.
  intros Hd [W E]. destruct (rational_wf_facts r W) as [Hr _]. unfold rvalue, Qeq. cbn [Qnum Qden].
  rewrite !Z2Pos.id by lia. exact E.
Qed.
