(* ===== verification/RationalTheorems.v ===== *)
(** * What the exact rationals guarantee

    The theorems on lib/core/rational.cpp: the arithmetic is that of the field of
    rationals on canonical representations, comparison and equality are those of
    the rationals, rounding is correct on the [int64_t] path; and what happens on
    the bignum path of the rounding functions and when memory runs out. *)

From Stdlib Require Import String ZArith List Lia Bool QArith Znumtheory.
From S2P Require Import Prelude Effects Limbs KnuthD Bignum BignumSpec Arena ArenaSpec ArenaRuns HostHeap BignumTheorems Rational RationalSpec.
Import ListNotations.
Open Scope Z_scope.
Open Scope effect_scope.

(** Every run of [m] from [s] in which no request was refused returns a value
    satisfying [P] and keeps the arena usable. *)
Definition granted_run {St} {A : Arena St} {L : ArenaLaws St} {X}
    (m : M St X) (s : St) (P : X -> Prop) : Prop :=
  forall o s', m s = (o, s', false) -> arena_inv s' /\ exists r, o = Ret r /\ P r.

Lemma granted_run_intro {St} {A : Arena St} {L : ArenaLaws St} {X} (m : M St X) s (P Q : X -> Prop) :
  (forall G : Granted, granted -> wp m P) -> arena_inv s -> (forall x, P x -> Q x) -> granted_run m s Q.
Proof.
  intros Hm Hs HPQ o s' E. destruct (wp_granted_run _ _ _ _ _ Hm Hs E) as (Hs' & x & -> & Hx). eauto.
Qed.

(** [r] is the canonical representation of the rational [q]. *)
Definition represents (q : Q) (r : rational) : Prop := rational_wf r /\ (rvalue r == q)%Q.

(** A fraction of positive denominator determines the represented rational. *)
Lemma represents_fraction (n d : Z) (q : Q) (r : rational) :
  d <> 0 -> (q == inject_Z n / inject_Z d)%Q -> equals_fraction n d r -> represents q r.
Proof.
  intros Hd Hq [W E]. split; [exact W|]. rewrite Hq. destruct (rational_wf_facts r W) as [Hr _].
  unfold rvalue, Qeq, Qdiv, Qmult, Qinv, inject_Z. cbn [Qnum Qden].
  destruct d as [|p|p]; [contradiction| |]; cbn [Qnum Qden]; rewrite !Pos2Z.inj_mul, Z2Pos.id by lia; nia.
Qed.

Lemma rvalue_fraction r : rational_wf r -> (rvalue r == inject_Z (rnum r) / inject_Z (rden r))%Q.
Proof.
  intros W. destruct (rational_wf_facts r W) as [Hr _].
  unfold rvalue, Qeq, Qdiv, Qmult, Qinv, inject_Z. cbn [Qnum Qden].
  destruct (rden r) as [|p|p] eqn:E; try lia. cbn [Qnum Qden Z.to_pos]. rewrite Pos2Z.inj_mul. lia.
Qed.

Lemma inject_Z_nonzero z : z <> 0 -> ~ (inject_Z z == 0)%Q.
Proof. intros H E. apply H. unfold Qeq, inject_Z in E. cbn in E. lia. Qed.

Lemma inject_Z_minus x y : (inject_Z (x - y) == inject_Z x - inject_Z y)%Q.
Proof. unfold Qeq, inject_Z, Qminus, Qplus, Qopp. cbn. lia. Qed.

Ltac field_of Wa Wb :=
  rewrite (rvalue_fraction _ Wa), (rvalue_fraction _ Wb),
    ?inject_Z_plus, ?inject_Z_minus, ?inject_Z_mult;
  field; repeat split; apply inject_Z_nonzero; lia.

Lemma rnum_zero r : rational_wf r -> rnum r <> 0 <-> ~ (rvalue r == 0)%Q.
Proof. intros _. unfold rvalue, Qeq. cbn. lia. Qed.

(** C18 The arithmetic of rationals is that of the field Q: on canonical operands
    (reduced, positive denominator, bignum parts only when needed) addition,
    subtraction, multiplication and division return the canonical representation
    of the exact result, whether the [int64_t] path, the 128-bit intermediate or
    the bignum path computes it, whenever the arena grants the requests. *)
Theorem rational_field_operations {St} {A : Arena St} {L : ArenaLaws St} a b s :
  rational_wf a -> rational_wf b -> Z.of_nat (rat_limbs a + rat_limbs b + 1) <= MAX_LIMBS -> arena_inv s ->
  granted_run (eshkol_rational_add a b) s (represents (rvalue a + rvalue b)) /\
  granted_run (eshkol_rational_sub a b) s (represents (rvalue a - rvalue b)) /\
  granted_run (eshkol_rational_mul a b) s (represents (rvalue a * rvalue b)) /\
  (~ (rvalue b == 0)%Q -> granted_run (eshkol_rational_div a b) s (represents (rvalue a / rvalue b))).
Proof.
  intros Wa Wb Hsz Hs. change (sizes_ok a b) in Hsz.
  destruct (rational_wf_facts a Wa) as [Da _]. destruct (rational_wf_facts b Wb) as [Db _].
  split; [|split; [|split; [|intros Hb; apply (proj2 (rnum_zero b Wb)) in Hb]]].
  - apply (granted_run_intro _ _ _ _ (fun G g => rational_add_spec g a b Wa Wb Hsz) Hs). intros r.
    apply represents_fraction; [nia|]. field_of Wa Wb.
  - apply (granted_run_intro _ _ _ _ (fun G g => rational_sub_spec g a b Wa Wb Hsz) Hs). intros r.
    apply represents_fraction; [nia|]. field_of Wa Wb.
  - apply (granted_run_intro _ _ _ _ (fun G g => rational_mul_spec g a b Wa Wb Hsz) Hs). intros r.
    apply represents_fraction; [nia|]. field_of Wa Wb.
  - apply (granted_run_intro _ _ _ _ (fun G g => rational_div_spec g a b Wa Wb Hsz Hb) Hs). intros r.
    apply represents_fraction; [nia|]. field_of Wa Wb.
Qed.

(** [(2^64 + 5) / 11] on the bignum path, and [-3/7]. *)
Definition rat_a : rational := mkRational 0 1 1 (Some big_a) (Some (big 0 [11])).
Definition rat_b : rational := small_rational (-3) 7.

Lemma rat_a_wf : rational_wf rat_a.
Proof.
  apply wf_big; [exact big_a_wf|solve_big|reflexivity|vm_compute; reflexivity|].
  intros [H _]. vm_compute in H. destruct H as [_ H]. apply H. reflexivity.
Qed.

Lemma rat_b_wf : rational_wf rat_b.
Proof. apply wf_small; [unfold int64_range; lia|lia|reflexivity]. Qed.

Lemma rational_field_operations_witness :
  granted_run (eshkol_rational_div rat_a rat_b) bench (represents (rvalue rat_a / rvalue rat_b)) /\
  snd (eshkol_rational_div rat_a rat_b bench) = false.
Proof.
  split; [|vm_compute; reflexivity].
  apply (rational_field_operations rat_a rat_b bench rat_a_wf rat_b_wf);
    [vm_compute; discriminate|exact bench_inv|vm_compute; discriminate].
Defined.

(** Construction: from any pair of [int64_t] (the minimum included) or of
    bignums with a non-zero denominator, the canonical representation of the
    quotient; a zero denominator gives zero. *)
Theorem rational_construction {St} {A : Arena St} {L : ArenaLaws St} n d bn bd s :
  int64_range n -> int64_range d -> bignum_wf bn -> bignum_wf bd -> arena_inv s ->
  granted_run (eshkol_rational_create n d) s
    (represents (if d =? 0 then 0 else inject_Z n / inject_Z d)) /\
  granted_run (eshkol_rational_create_bn (Some bn) (Some bd)) s
    (represents (if bval bd =? 0 then 0 else inject_Z (bval bn) / inject_Z (bval bd))).
Proof.
  intros Hn Hd Wn Wd Hs. split.
  - destruct (Z.eqb_spec d 0) as [->|H0].
    + change (eshkol_rational_create n 0) with (eshkol_rational_create (A := A) 0 1).
      refine (granted_run_intro _ _ _ _ (fun G g => create_spec g 0 1 _ _ _) Hs _); [unfold int64_range; lia..|].
      intros r. apply represents_fraction; [lia|reflexivity].
    + apply (granted_run_intro _ _ _ _ (fun G g => create_spec g n d Hn Hd H0) Hs).
      intros r. apply represents_fraction; [exact H0|reflexivity].
  - destruct (Z.eqb_spec (bval bd) 0) as [E|H0].
    + cbn [eshkol_rational_create_bn]. rewrite is_zero_spec, E by exact Wd.
      apply (granted_run_intro _ _ _ _ (fun G g => rational_alloc_small_spec g 0 1) Hs).
      intros r <-. split; [apply wf_small; [unfold int64_range; lia|lia|reflexivity]|reflexivity].
    + apply (granted_run_intro _ _ _ _ (fun G g => create_bn_spec g bn bd Wn Wd H0) Hs).
      intros r. apply represents_fraction; [exact H0|reflexivity].
Qed.

Lemma rational_construction_witness :
  granted_run (eshkol_rational_create INT64_MIN 6) bench (represents (inject_Z INT64_MIN / inject_Z 6)) /\
  snd (eshkol_rational_create INT64_MIN 6 bench) = false.
Proof.
  split; [|vm_compute; reflexivity].
  exact (proj1 (rational_construction INT64_MIN 6 big_a big_b bench
    ltac:(unfold int64_range; lia) ltac:(unfold int64_range; lia) big_a_wf big_b_wf bench_inv)).
Defined.

Lemma sgn_compare x y :
  match x ?= y with Lt => Z.sgn (x - y) = -1 | Eq => Z.sgn (x - y) = 0 | Gt => Z.sgn (x - y) = 1 end.
Proof. destruct (Z.compare_spec x y); lia. Qed.

Lemma rational_is_integer_spec r : rational_wf r -> eshkol_rational_is_integer r = true <-> rden r = 1.
Proof.
  intros [n d Hn Hd Hg|bn bd W1 W2 Hd Hg Hno]; unfold eshkol_rational_is_integer.
  - apply Z.eqb_eq.
  - cbn -[eshkol_bignum_fits_int64]. unfold bn_equals_i64. rewrite fits_int64_bignum by exact W2.
    change (rden _) with (bval bd). destruct (fits_int64 (bval bd)) eqn:E; [apply Z.eqb_eq|].
    split; [discriminate|]. intros E1. rewrite E1 in E. discriminate E.
Qed.

(** Order and equality of rationals are those of Q: comparison returns the
    sign of the difference, structural equality of the representations is equality
    of the values, and the integer test holds exactly of the integers. *)
Theorem rational_order_agrees {St} {A : Arena St} {L : ArenaLaws St} a b s :
  rational_wf a -> rational_wf b -> Z.of_nat (rat_limbs a + rat_limbs b + 1) <= MAX_LIMBS -> arena_inv s ->
  granted_run (eshkol_rational_compare a b) s
    (fun c => match (rvalue a ?= rvalue b)%Q with Lt => c = -1 | Eq => c = 0 | Gt => c = 1 end) /\
  (eshkol_rational_equal a b = true <-> (rvalue a == rvalue b)%Q) /\
  (eshkol_rational_is_integer a = true <-> exists z, (rvalue a == inject_Z z)%Q).
Proof.
  intros Wa Wb Hsz Hs. destruct (rational_wf_facts a Wa) as [Da Ga]. destruct (rational_wf_facts b Wb) as [Db Gb].
  split; [|split].
  - apply (granted_run_intro _ _ _ _ (fun G g => rational_compare_spec g a b Wa Wb Hsz) Hs). intros c <-.
    unfold rvalue, Qcompare. cbn [Qnum Qden]. rewrite !Z2Pos.id by lia. apply sgn_compare.
  - rewrite (rational_equal_spec a b Wa Wb). unfold rvalue, Qeq. cbn [Qnum Qden]. rewrite !Z2Pos.id by lia.
    split; [intros [-> ->]; reflexivity|]. apply reduced_unique; assumption.
  - rewrite (rational_is_integer_spec a Wa). unfold rvalue, Qeq, inject_Z. cbn [Qnum Qden].
    rewrite Z2Pos.id by lia. split; [intros E; exists (rnum a); rewrite E; reflexivity|].
    intros [z E]. rewrite Z.mul_1_r in E. rewrite E, Z.gcd_comm, (Z.mul_comm z), Z.gcd_mul_diag_l in Ga; lia.
Qed.

Lemma rational_order_agrees_witness :
  granted_run (eshkol_rational_compare rat_a rat_b) bench
    (fun c => match (rvalue rat_a ?= rvalue rat_b)%Q with Lt => c = -1 | Eq => c = 0 | Gt => c = 1 end) /\
  snd (eshkol_rational_compare rat_a rat_b bench) = false.
Proof.
  split; [|vm_compute; reflexivity].
  exact (proj1 (rational_order_agrees rat_a rat_b bench rat_a_wf rat_b_wf
                  ltac:(vm_compute; discriminate) bench_inv)).
Defined.

(** ** Rounding *)

(** [q] is an integer nearest to [n / d], the even one when two are equally near. *)
Definition nearest_even (n d q : Z) : Prop :=
  Z.abs (2 * (q * d - n)) <= d /\ (Z.abs (2 * (q * d - n)) = d -> Z.even q = true).

Lemma small_wf_inv n d :
  rational_wf (small_rational n d) -> int64_range n /\ 0 < d <= INT64_MAX /\ Z.gcd n d = 1.
Proof. intros W. inversion W; subst. auto. Qed.

(** The C quotient and remainder, and the bound that keeps [q + 1] and [q - 1]
    inside [int64_t]. *)
Lemma quot_rem_facts n d :
  int64_range n -> 0 < d ->
  n = d * Z.quot n d + Z.rem n d /\ Z.abs (Z.rem n d) < d /\ ((0 <= n -> 0 <= Z.rem n d) /\ (n <= 0 -> Z.rem n d <= 0)) /\
  (Z.rem n d <> 0 -> INT64_MIN < Z.quot n d < INT64_MAX) /\ int64_range (Z.quot n d).
Proof.
  unfold int64_range. intros Hn Hd. pose proof (Z.quot_rem' n d) as E.
  pose proof (Z.rem_bound_abs n d ltac:(lia)) as B. rewrite (Z.abs_eq d) in B by lia.
  split; [exact E|]. split; [exact B|].
  split; [split; intros; [apply Z.rem_nonneg|apply Z.rem_nonpos]; lia|].
  pose proof (Z.mul_quot_le (Z.abs n) d ltac:(lia) ltac:(lia)) as Hq.
  pose proof (Z.quot_abs n d ltac:(lia)) as Ha. rewrite (Z.abs_eq d) in Ha by lia. rewrite Ha in Hq.
  split; [|nia]. intros Hr. assert (2 <= d) by (destruct (Z.eq_dec d 1); [subst; rewrite Z.rem_1_r in Hr|]; lia).
  nia.
Qed.

Lemma floor_spec n d :
  int64_range n -> 0 < d -> eshkol_rational_floor (small_rational n d) = n / d.
Proof.
  intros Hn Hd. destruct (quot_rem_facts n d Hn Hd) as (E & B & S & Hq & Hr).
  unfold eshkol_rational_floor. cbn [numerator denominator small_rational].
  destruct (Z.geb_spec n 0) as [H|H]; [cbn [orb]; apply Z.quot_div_nonneg; lia|]. cbn [orb].
  destruct (Z.eqb_spec (Z.rem n d) 0) as [H0|H0].
  - apply (Z.div_unique _ _ _ 0); lia.
  - rewrite s64_small by (unfold int64_range; specialize (Hq H0); lia).
    apply (Z.div_unique _ _ _ (Z.rem n d + d)); nia.
Qed.

Lemma ceil_spec n d :
  int64_range n -> 0 < d -> eshkol_rational_ceil (small_rational n d) = - (- n / d).
Proof.
  intros Hn Hd. destruct (quot_rem_facts n d Hn Hd) as (E & B & S & Hq & Hr).
  unfold eshkol_rational_ceil. cbn [numerator denominator small_rational].
  assert (G : forall q r, - n = d * q + r -> 0 <= r < d -> - (- n / d) = - q)
    by (intros q r H1 H2; rewrite (Z.div_unique (- n) d q r); auto).
  destruct (Z.leb_spec n 0) as [H|H]; cbn [orb].
  - rewrite (G (- Z.quot n d) (- Z.rem n d)); nia.
  - destruct (Z.eqb_spec (Z.rem n d) 0) as [H0|H0]; [rewrite (G (- Z.quot n d) 0); lia|].
    rewrite s64_small by (unfold int64_range; specialize (Hq H0); lia).
    rewrite (G (- (Z.quot n d + 1)) (d - Z.rem n d)); nia.
Qed.

Lemma rem2_odd q : negb (Z.rem q 2 =? 0) = negb (Z.even q).
Proof.
  f_equal. rewrite Zeven_mod. pose proof (Z.rem_mod q 2 ltac:(lia)) as E. rewrite E.
  change (Z.sgn 2) with 1. change (Z.abs 2) with 2. pose proof (Z.mod_pos_bound (Z.abs q) 2 ltac:(lia)).
  pose proof (Z.div_mod (Z.abs q) 2 ltac:(lia)). pose proof (Z.div_mod q 2 ltac:(lia)).
  pose proof (Z.mod_pos_bound q 2 ltac:(lia)).
  destruct (Z.eqb_spec (q mod 2) 0), (Z.eqb_spec (Z.sgn q * (Z.abs q mod 2)) 0); try reflexivity; lia.
Qed.

Lemma round_spec n d :
  int64_range n -> 0 < d <= INT64_MAX -> d <= 2 ^ 62 ->
  nearest_even n d (eshkol_rational_round (small_rational n d)).
Proof.
  intros Hn [Hd _] Hb. change (2 ^ 62) with 4611686018427387904 in Hb.
  destruct (quot_rem_facts n d Hn Hd) as (E & B & S & Hq & Hr).
  unfold eshkol_rational_round. cbn [numerator denominator small_rational]. rewrite rem2_odd.
  set (q := Z.quot n d) in *. set (r := Z.rem n d) in *.
  replace (if r <? 0 then s64 (- r) else r) with (Z.abs r)
    by (destruct (Z.ltb_spec r 0); [rewrite s64_small by (unfold int64_range; lia)|]; lia).
  rewrite (s64_small (2 * Z.abs r)) by (unfold int64_range; lia).
  assert (Ha : Z.abs (2 * (q * d - n)) = 2 * Z.abs r) by lia.
  rewrite Z.gtb_ltb. destruct (Z.ltb_spec d (2 * Z.abs r)) as [H|H].
  - specialize (Hq ltac:(lia)). unfold nearest_even. rewrite Z.geb_leb.
    destruct (Z.leb_spec 0 n); rewrite s64_small by (unfold int64_range; lia); nia.
  - destruct (Z.eqb_spec (2 * Z.abs r) d) as [Ht|Ht]; [|split; lia].
    specialize (Hq ltac:(lia)). destruct (Z.even q) eqn:Hev; cbn [negb]; [split; [lia|auto]|].
    unfold nearest_even. rewrite Z.geb_leb.
    destruct (Z.leb_spec 0 n); rewrite s64_small by (unfold int64_range; lia);
      rewrite ?Z.even_sub, ?Z.even_add, Hev; split; [nia|reflexivity|nia|reflexivity].
Qed.

(** Rounding of a rational whose parts are [int64_t]: floor rounds down,
    ceiling up, truncation toward zero, and [round] to the nearest integer with
    ties to even, the last for denominators up to [2^62]. *)
Theorem rational_rounding_correct n d :
  rational_wf (small_rational n d) ->
  eshkol_rational_floor (small_rational n d) = n / d /\
  eshkol_rational_ceil (small_rational n d) = - (- n / d) /\
  eshkol_rational_truncate (small_rational n d) = Z.quot n d /\
  (d <= 2 ^ 62 -> nearest_even n d (eshkol_rational_round (small_rational n d))).
Proof.
  intros W. destruct (small_wf_inv n d W) as (Hn & Hd & _).
  split; [apply floor_spec; [exact Hn|lia]|]. split; [apply ceil_spec; [exact Hn|lia]|].
  split; [reflexivity|apply round_spec; assumption].
Qed.

Lemma rational_rounding_correct_witness :
  eshkol_rational_floor (small_rational (-7) 2) = -7 / 2 /\
  nearest_even (-7) 2 (eshkol_rational_round (small_rational (-7) 2)) /\
  eshkol_rational_round (small_rational (-7) 2) = -4.
Proof.
  destruct (rational_rounding_correct (-7) 2
    ltac:(apply wf_small; [unfold int64_range; lia|lia|reflexivity])) as (H1 & _ & _ & H2).
  split; [exact H1|]. split; [apply H2; lia|reflexivity].
Defined.

(** Where the rounding and accessor functions go wrong: on a canonical
    rational with bignum parts they read the unused [int64_t] fields, so
    [(2^64 + 5) / 11] has floor, ceiling, truncation, rounding and numerator 0 and
    denominator 1; and with a denominator above [2^62] the doubled remainder
    overflows, so the nearest integer to [(2^63 - 2) / (2^63 - 1)] comes out 0. *)
Theorem rational_rounding_edge_cases :
  rational_wf rat_a /\ rational_wf (small_rational (INT64_MAX - 1) INT64_MAX) /\
  eshkol_rational_floor rat_a = 0 /\ eshkol_rational_ceil rat_a = 0 /\
  eshkol_rational_truncate rat_a = 0 /\ eshkol_rational_round rat_a = 0 /\
  eshkol_rational_numerator rat_a = 0 /\ eshkol_rational_denominator rat_a = 1 /\
  eshkol_rational_round (small_rational (INT64_MAX - 1) INT64_MAX) = 0.
Proof.
  split; [exact rat_a_wf|].
  split; [apply wf_small; [unfold int64_range; lia|lia|vm_compute; reflexivity]|].
  repeat split; vm_compute; reflexivity.
Qed.

(** ** Errors *)

(** Division by the rational zero raises divide-by-zero and leaves the arena
    alone, whatever the dividend; a refused request for the result object, which
    every constructor and operation makes last, is not checked: the call
    dereferences null.  A refused bignum product instead becomes the rational
    zero. *)
Theorem rational_error_paths {St} {A : Arena St} {L : ArenaLaws St} a b s :
  rational_wf b -> arena_inv s ->
  ((rvalue b == 0)%Q ->
    eshkol_rational_div a b s
      = (Raise ESHKOL_EXCEPTION_DIVIDE_BY_ZERO "rational division by zero"%string, s, false)) /\
  (forall n d s', arena_allocate_with_header sizeof_rational HEAP_SUBTYPE_RATIONAL 0 s = (None, s') ->
    rational_alloc_small n d s = (Crash, s', true)) /\
  (forall d, eshkol_rational_create_bn None d = rational_alloc_small (A := A) 0 1) /\
  (forall n, eshkol_rational_create_bn n None = rational_alloc_small (A := A) 0 1).
Proof.
  intros Wb Hs. split; [|split; [|split]].
  - intros Hb. assert (E : rnum b = 0) by (unfold rvalue, Qeq in Hb; cbn in Hb; lia).
    unfold eshkol_rational_div. destruct Wb as [n d Hn Hd Hg|bn bd W1 W2 Hd Hg Hno].
    + cbn in E |- *. rewrite E. reflexivity.
    + cbn -[eshkol_bignum_is_zero] in E |- *. rewrite is_zero_spec, E by exact W1. reflexivity.
  - intros n d s' E. unfold rational_alloc_small, bind, allocate_with_header. rewrite E. reflexivity.
  - reflexivity.
  - intros [n|]; reflexivity.
Qed.

Lemma rational_error_paths_witness :
  eshkol_rational_div rat_a (small_rational 0 1) bench
    = (Raise ESHKOL_EXCEPTION_DIVIDE_BY_ZERO "rational division by zero"%string, bench, false).
Proof.
  apply (rational_error_paths rat_a (small_rational 0 1) bench);
    [apply wf_small; [unfold int64_range; lia|lia|reflexivity]|exact bench_inv|reflexivity].
Defined.
