(* ===== verification/Doubles.v ===== *)
(** * Double-precision numbers, by their bits

    The runtime stores a double as the 64 bits of a tagged value.  The arithmetic
    is the standard library's executable specification of IEEE 754 (binary64,
    round to nearest even); this file adds the encoding, and conversion of bignums
    to double as lib/core/bignum.cpp does it. *)

From Stdlib Require Import ZArith List Lia Bool.
From Stdlib Require Import SpecFloat.
From S2P Require Import Prelude Effects Limbs KnuthD Bignum.
Import ListNotations.
Open Scope Z_scope.

Definition prec : Z := 53.
Definition emax : Z := 1024.

(** ** Encoding *)

Definition mantissa_bits (b : Z) : Z := Z.land b (2 ^ 52 - 1).
Definition exponent_bits (b : Z) : Z := Z.land (Z.shiftr b 52) 2047.
Definition sign_bit (b : Z) : bool := Z.testbit b 63.

Definition decode_double (b : Z) : spec_float :=
  let s := sign_bit b in
  let m := mantissa_bits b in
  let e := exponent_bits b in
  if e =? 2047 then (if m =? 0 then S754_infinity s else S754_nan)
  else if e =? 0 then
    match m with Z.pos p => S754_finite s p (-1074) | _ => S754_zero s end
  else match m + 2 ^ 52 with Z.pos p => S754_finite s p (e - 1075) | _ => S754_nan end.

Definition sign_part (s : bool) : Z := if s then 2 ^ 63 else 0.

(** Any NaN is encoded as the quiet NaN. *)
Definition encode_double (f : spec_float) : Z :=
  match f with
  | S754_zero s => sign_part s
  | S754_infinity s => sign_part s + 2047 * 2 ^ 52
  | S754_nan => 2047 * 2 ^ 52 + 2 ^ 51
  | S754_finite s m e =>
    sign_part s + (if Z.pos m <? 2 ^ 52 then Z.pos m else (e + 1075) * 2 ^ 52 + (Z.pos m - 2 ^ 52))
  end.

(** ** Operations on bits *)

Definition double_add (a b : Z) : Z := encode_double (SFadd prec emax (decode_double a) (decode_double b)).
Definition double_sub (a b : Z) : Z := encode_double (SFsub prec emax (decode_double a) (decode_double b)).
Definition double_mul (a b : Z) : Z := encode_double (SFmul prec emax (decode_double a) (decode_double b)).
Definition double_div (a b : Z) : Z := encode_double (SFdiv prec emax (decode_double a) (decode_double b)).
Definition double_neg (a : Z) : Z := encode_double (SFopp (decode_double a)).

Definition double_lt (a b : Z) : bool := SFltb (decode_double a) (decode_double b).
Definition double_le (a b : Z) : bool := SFleb (decode_double a) (decode_double b).
Definition double_eq (a b : Z) : bool := SFeqb (decode_double a) (decode_double b).

(** Conversion of an integer. *)
Definition double_of_Z (z : Z) : Z := encode_double (binary_normalize prec emax z 0 false).

Definition double_zero : Z := 0.
Definition double_one : Z := double_of_Z 1.
Definition pow2_64 : Z := double_of_Z (2 ^ 64).

(** ** [eshkol_bignum_to_double] *)

(** The loop over the limbs, least significant first. *)
Fixpoint to_double_loop (ls : list Z) (result base : Z) : Z :=
  match ls with
  | [] => result
  | limb :: ls' =>
    to_double_loop ls' (double_add result (double_mul (double_of_Z limb) base)) (double_mul base pow2_64)
  end.

Definition eshkol_bignum_to_double (a : option bignum) : Z :=
  match a with
  | None => double_zero
  | Some a =>
    let result := to_double_loop (limbs a) double_zero double_one in
    if negb (sign a =? 0) then double_neg result else result
  end.

(** ** The encoding loses nothing *)

Lemma land_ones_range x n : 0 <= n -> 0 <= Z.land x (2 ^ n - 1) < 2 ^ n.
Proof.
  intros Hn.
  replace (2 ^ n - 1) with (Z.ones n) by (rewrite Z.ones_equiv; lia).
  rewrite Z.land_ones by exact Hn. apply Z.mod_pos_bound, Z.pow_pos_nonneg; lia.
Qed.

(** The three fields make up the bits. *)
Lemma double_fields b :
  0 <= b < 2 ^ 64 ->
  b = sign_part (sign_bit b) + exponent_bits b * 2 ^ 52 + mantissa_bits b /\
  0 <= mantissa_bits b < 2 ^ 52 /\ 0 <= exponent_bits b < 2048.
Proof.
  intros Hb. unfold mantissa_bits, exponent_bits, sign_bit.
  split; [|split; [apply (land_ones_range b 52); lia|apply (land_ones_range (Z.shiftr b 52) 11); lia]].
  change (2 ^ 52 - 1) with (Z.ones 52). change 2047 with (Z.ones 11). rewrite !Z.land_ones, Z.shiftr_div_pow2 by lia.
  pose proof (Z.div_mod b (2 ^ 52) ltac:(lia)) as H1. pose proof (Z.div_mod (b / 2 ^ 52) (2 ^ 11) ltac:(lia)) as H2.
  rewrite Z.div_div in H2 by lia. change (2 ^ 52 * 2 ^ 11) with (2 ^ 63) in H2.
  pose proof (Z.testbit_spec' b 63 ltac:(lia)) as H3. unfold sign_part.
  change (2 ^ 64) with 18446744073709551616 in Hb. change (2 ^ 63) with 9223372036854775808 in *.
  change (2 ^ 52) with 4503599627370496 in *. change (2 ^ 11) with 2048 in *.
  assert (0 <= b / 9223372036854775808 < 2) by (split; [apply Z.div_pos|apply Z.div_lt_upper_bound]; lia).
  rewrite (Z.mod_small (b / 9223372036854775808) 2) in H3 by lia.
  destruct (Z.testbit b 63); cbn [Z.b2z] in H3; lia.
Qed.

(** Every double other than a NaN is encoded by its own bits. *)
Lemma encode_decode b :
  0 <= b < 2 ^ 64 -> decode_double b <> S754_nan -> encode_double (decode_double b) = b.
Proof.
  intros Hb. destruct (double_fields b Hb) as (E & Hm & He). unfold decode_double.
  destruct (Z.eqb_spec (exponent_bits b) 2047) as [E1|E1].
  - destruct (Z.eqb_spec (mantissa_bits b) 0) as [E2|E2]; [|congruence]. intros _. cbn [encode_double].
    rewrite E at 2. rewrite E1, E2. lia.
  - destruct (Z.eqb_spec (exponent_bits b) 0) as [E2|E2].
    + intros _. destruct (mantissa_bits b) as [|p|p] eqn:E3; [|..|lia]; cbn [encode_double].
      * rewrite E at 2. rewrite E2. lia.
      * destruct (Z.ltb_spec (Z.pos p) (2 ^ 52)); [|lia]. rewrite E at 2. rewrite E2. lia.
    + destruct (mantissa_bits b + 2 ^ 52) as [|p|p] eqn:E3; try congruence. intros _. cbn [encode_double].
      destruct (Z.ltb_spec (Z.pos p) (2 ^ 52)); [lia|]. rewrite <- E3. rewrite E at 4. replace (exponent_bits b - 1075 + 1075) with (exponent_bits b) by lia. lia.
Qed.
