(* ===== verification/Tagged.v ===== *)
(** * Tagged values and the objects they point to

    The data of inc/eshkol/eshkol.h that the numeric dispatch and the hash tables
    share: [eshkol_tagged_value_t], its type codes, and a store of heap objects
    by the address of their data. *)

From Stdlib Require Import ZArith List Lia Bool.
From stdpp Require Import base gmap list numbers.
From S2P Require Import Prelude Effects Limbs KnuthD Bignum Arena Rational.
Import ListNotations.
Open Scope Z_scope.

(** ** Values *)

(** [eshkol_tagged_value_t]; the union is kept as its 64 raw bits. *)
Record tagged_value : Type := mkTagged {
  vtype : Z;
  vflags : Z;
  vreserved : Z;
  vdata : Z;
}.

Definition ESHKOL_VALUE_NULL : Z := 0.
Definition ESHKOL_VALUE_INT64 : Z := 1.
Definition ESHKOL_VALUE_DOUBLE : Z := 2.
Definition ESHKOL_VALUE_BOOL : Z := 3.
Definition ESHKOL_VALUE_CHAR : Z := 4.
Definition ESHKOL_VALUE_SYMBOL : Z := 5.
Definition ESHKOL_VALUE_COMPLEX : Z := 7.
Definition ESHKOL_VALUE_HEAP_PTR : Z := 8.
Definition ESHKOL_VALUE_LOGIC_VAR : Z := 10.
Definition ESHKOL_VALUE_CONS_PTR : Z := 32.
Definition ESHKOL_VALUE_STRING_PTR : Z := 33.

Definition zero_value : tagged_value := mkTagged 0 0 0 0.

(** [data.int_val] of the raw bits. *)
Definition int_val (v : tagged_value) : Z := s64 (vdata v).

Definition make_int64 (i : Z) : tagged_value := mkTagged ESHKOL_VALUE_INT64 0 0 (u64 i).

(** ** Objects *)

Definition HEAP_SUBTYPE_TENSOR : Z := 3.
Definition HEAP_SUBTYPE_SUBSTITUTION : Z := 12.
Definition HEAP_SUBTYPE_FACT : Z := 13.
Definition HEAP_SUBTYPE_KNOWLEDGE_BASE : Z := 15.

(** What the data behind a heap pointer is, with the header subtype. *)
Inductive object : Type :=
| obj_cons (car cdr : tagged_value)
| obj_string (bytes : list Z)
| obj_vector (elems : list tagged_value)
| obj_bignum (b : bignum)
| obj_rational (r : rational)
| obj_symbol (bytes : list Z)
| obj_tensor (dimensions elements : list Z)
| obj_fact (predicate : Z) (args : list tagged_value)
| obj_complex (real imag : Z)
| obj_other (subtype : Z).

(** [ESHKOL_GET_SUBTYPE]. *)
Definition subtype_of (o : object) : Z :=
  match o with
  | obj_cons _ _ => HEAP_SUBTYPE_CONS
  | obj_string _ => HEAP_SUBTYPE_STRING
  | obj_vector _ => HEAP_SUBTYPE_VECTOR
  | obj_bignum _ => HEAP_SUBTYPE_BIGNUM
  | obj_rational _ => HEAP_SUBTYPE_RATIONAL
  | obj_symbol _ => HEAP_SUBTYPE_SYMBOL
  | obj_tensor _ _ => HEAP_SUBTYPE_TENSOR
  | obj_fact _ _ => HEAP_SUBTYPE_FACT
  | obj_complex _ _ => -1            (* without a header, never behind a HEAP_PTR *)
  | obj_other st => st
  end.

(** Objects by the address of their data. *)
Abbreviation store := (gmap Z object).
