(* ===== verification/HashKeys.v ===== *)
(** * Hashing and equality of hash-table keys: lib/core/runtime_hash_table.cpp

    [hash_tagged_value] and [hash_keys_equal], and the proof that on acyclic keys
    without NaN and negative zero both depend only on what the key means: equality
    is structural equality, and equal keys hash alike. *)

From Stdlib Require Import ZArith List Lia Bool.
From stdpp Require Import base gmap list numbers.
From S2P Require Import Prelude Effects Limbs KnuthD Bignum BignumSpec Arena Rational Tagged.
Import ListNotations.
Open Scope Z_scope.

(** ** FNV-1a *)

Definition FNV_OFFSET_BASIS : Z := 14695981039346656037.
Definition FNV_PRIME : Z := 1099511628211.

(** [hash ^= x; hash *= FNV_PRIME]. *)
Definition fnv_mix (hash x : Z) : Z := u64 (Z.lxor hash x * FNV_PRIME).

(** The bytes up to the terminating NUL. *)
Definition fnv1a_hash_string (str : list Z) : Z := fold_left fnv_mix str FNV_OFFSET_BASIS.

(** [(val >> (i * 8)) & 0xFF]. *)
Definition byte_of (val : Z) (i : nat) : Z := Z.land (Z.shiftr val (Z.of_nat i * 8)) 255.

Definition fnv1a_hash_u64 (val : Z) : Z :=
  fold_left (fun hash i => fnv_mix hash (byte_of val i)) (seq 0 8) FNV_OFFSET_BASIS.

(** ** Hashing a key *)

Definition base_type (full : Z) : Z := if full >=? 8 then full else Z.land full 15.

(** The C string at an address. *)
Definition c_string (h : store) (p : Z) : option (list Z) :=
  match h !! p with
  | Some (obj_string s) => Some s
  | _ => None
  end.

Section Hash.
  Variable h : store.

(** One round of the loop over a vector's elements. *)
Definition mix_with (f : tagged_value -> option Z) (acc : option Z) (v : tagged_value) : option Z :=
  match acc, f v with
  | Some hash, Some x => Some (fnv_mix hash x)
  | _, _ => None
  end.

Definition bignum_hash (hash : Z) (b : bignum) : Z :=
  fold_left (fun hash limb => fnv_mix hash (fnv1a_hash_u64 limb)) (limbs b) (fnv_mix hash (sign b)).

(** The recursion follows the pointers; [None] when the fuel does not reach the
    leaves or a pointer leads nowhere. *)
Fixpoint hash_value (fuel : nat) (value : tagged_value) : option Z :=
  let type := base_type (vtype value) in
  let hash := fnv_mix FNV_OFFSET_BASIS type in
  let p := vdata value in
  if type =? ESHKOL_VALUE_STRING_PTR then
    if negb (p =? 0) then
      match c_string h p with
      | Some s => Some (Z.lxor hash (fnv1a_hash_string s))
      | None => None
      end
    else Some hash
  else if type =? ESHKOL_VALUE_HEAP_PTR then
    if negb (p =? 0) then
      match h !! p with
      | None => None
      | Some (obj_string s) => Some (Z.lxor hash (fnv1a_hash_string s))
      | Some (obj_bignum b) => Some (bignum_hash hash b)
      | Some (obj_cons car cdr) =>
        match fuel with
        | O => None
        | S fuel' => mix_with (hash_value fuel') (mix_with (hash_value fuel') (Some hash) car) cdr
        end
      | Some (obj_vector elems) =>
        match fuel with
        | O => None
        | S fuel' => fold_left (mix_with (hash_value fuel')) elems (Some hash)
        end
      | Some _ => Some (Z.lxor hash (fnv1a_hash_u64 p))
      end
    else Some hash
  else Some (Z.lxor hash (fnv1a_hash_u64 p)).

Definition hash_tagged_value (fuel : nat) (value : option tagged_value) : option Z :=
  match value with
  | None => Some 0
  | Some v => hash_value fuel v
  end.

(** ** Equality of keys *)

(** IEEE equality of the doubles with the given bits: NaN differs from all, the
    two zeros are equal. *)
Definition is_nan_bits (b : Z) : bool :=
  (Z.land (Z.shiftr b 52) 2047 =? 2047) && negb (Z.land b (2 ^ 52 - 1) =? 0).

Definition double_eq_bits (a b : Z) : bool :=
  negb (is_nan_bits a) && negb (is_nan_bits b) &&
  ((a =? b) || ((Z.land a (2 ^ 63 - 1) =? 0) && (Z.land b (2 ^ 63 - 1) =? 0))).

Fixpoint list_eqb (a b : list Z) : bool :=
  match a, b with
  | [], [] => true
  | x :: a', y :: b' => (x =? y) && list_eqb a' b'
  | _, _ => false
  end.

(** Stops at the first difference, in order. *)
Fixpoint all_equal (f : tagged_value -> tagged_value -> option bool) (la lb : list tagged_value)
  : option bool :=
  match la, lb with
  | a :: la', b :: lb' =>
    match f a b with
    | Some true => all_equal f la' lb'
    | r => r
    end
  | _, _ => Some true
  end.

Fixpoint keys_equal_at (fuel : nat) (a b : tagged_value) : option bool :=
  let type_a := base_type (vtype a) in
  let type_b := base_type (vtype b) in
  let pa := vdata a in
  let pb := vdata b in
  if negb (type_a =? type_b) then Some false
  else if type_a =? ESHKOL_VALUE_DOUBLE then Some (double_eq_bits pa pb)
  else if type_a =? ESHKOL_VALUE_STRING_PTR then
    if pa =? pb then Some true
    else if (pa =? 0) || (pb =? 0) then Some false
    else match c_string h pa, c_string h pb with
         | Some sa, Some sb => Some (list_eqb sa sb)
         | _, _ => None
         end
  else if type_a =? ESHKOL_VALUE_NULL then Some true
  else if type_a =? ESHKOL_VALUE_HEAP_PTR then
    if pa =? pb then Some true
    else if (pa =? 0) || (pb =? 0) then Some false
    else
      match h !! pa, h !! pb with
      | Some oa, Some ob =>
        if negb (subtype_of oa =? subtype_of ob) then Some false
        else
          match oa, ob with
          | obj_string sa, obj_string sb => Some (list_eqb sa sb)
          | obj_bignum ba, obj_bignum bb => Some (eshkol_bignum_compare (Some ba) (Some bb) =? 0)
          | obj_cons car_a cdr_a, obj_cons car_b cdr_b =>
            match fuel with
            | O => None
            | S fuel' =>
              match keys_equal_at fuel' car_a car_b with
              | Some true => keys_equal_at fuel' cdr_a cdr_b
              | r => r
              end
            end
          | obj_vector ea, obj_vector eb =>
            match fuel with
            | O => None
            | S fuel' =>
              if negb (Nat.eqb (length ea) (length eb)) then Some false
              else all_equal (keys_equal_at fuel') ea eb
            end
          | _, _ => Some (pa =? pb)
          end
      | _, _ => None
      end
  else Some (pa =? pb).

Definition hash_keys_equal (fuel : nat) (a b : option tagged_value) : option bool :=
  match a, b with
  | Some a, Some b => keys_equal_at fuel a b
  | None, None => Some true
  | _, _ => Some false
  end.

End Hash.

(** ** What a key means *)

(** A key without its addresses: scalars by type and bits, strings by content,
    bignums by value, pairs and vectors by their parts; any other object is its
    address. *)
Inductive key_tree : Type :=
| KScalar (type bits : Z)
| KNoPtr (type : Z)
| KStr (type : Z) (s : list Z)
| KBig (b : bignum)
| KPair (car cdr : key_tree)
| KVec (elems : list key_tree)
| KRef (p : Z).

Definition pointer_type (ty : Z) : Prop := ty = ESHKOL_VALUE_STRING_PTR \/ ty = ESHKOL_VALUE_HEAP_PTR.

(** Bits for which [==] is equality of the bits. *)
Definition plain_bits (ty d : Z) : Prop :=
  0 <= d < 2 ^ 64 /\
  (ty = ESHKOL_VALUE_DOUBLE -> is_nan_bits d = false /\ d <> 2 ^ 63) /\
  (ty = ESHKOL_VALUE_NULL -> d = 0).

(** Objects the code compares by address. *)
Definition opaque_object (o : object) : Prop :=
  match o with
  | obj_rational _ | obj_symbol _ | obj_tensor _ _ | obj_fact _ _ => True
  | obj_other st => ~ In st [HEAP_SUBTYPE_CONS; HEAP_SUBTYPE_STRING; HEAP_SUBTYPE_VECTOR;
                             HEAP_SUBTYPE_BIGNUM; HEAP_SUBTYPE_RATIONAL; HEAP_SUBTYPE_SYMBOL;
                             HEAP_SUBTYPE_TENSOR; HEAP_SUBTYPE_FACT]
  | _ => False
  end.

(** [v] is a key that means [t], nested at most [n] deep; cyclic keys have no
    meaning. *)
Fixpoint means (h : store) (n : nat) (v : tagged_value) (t : key_tree) : Prop :=
  let ty := base_type (vtype v) in
  let p := vdata v in
  let points_to := fun o => ty = ESHKOL_VALUE_HEAP_PTR /\ p <> 0 /\ h !! p = Some o in
  match t with
  | KScalar ty' d => ty' = ty /\ d = p /\ ~ pointer_type ty /\ plain_bits ty p
  | KNoPtr ty' => ty' = ty /\ pointer_type ty /\ p = 0
  | KStr ty' s => ty' = ty /\ pointer_type ty /\ p <> 0 /\ h !! p = Some (obj_string s)
  | KBig b => points_to (obj_bignum b) /\ bignum_wf b
  | KPair tcar tcdr =>
    exists car cdr, points_to (obj_cons car cdr) /\
    match n with
    | O => False
    | S n' => means h n' car tcar /\ means h n' cdr tcdr
    end
  | KVec ts =>
    exists elems, points_to (obj_vector elems) /\
    match n with
    | O => False
    | S n' => Forall2 (means h n') elems ts
    end
  | KRef p' => p' = p /\ exists o, points_to o /\ opaque_object o
  end.

(** The hash of a meaning. *)
Fixpoint hash_tree (t : key_tree) : Z :=
  match t with
  | KScalar ty d => Z.lxor (fnv_mix FNV_OFFSET_BASIS ty) (fnv1a_hash_u64 d)
  | KNoPtr ty => fnv_mix FNV_OFFSET_BASIS ty
  | KStr ty s => Z.lxor (fnv_mix FNV_OFFSET_BASIS ty) (fnv1a_hash_string s)
  | KBig b => bignum_hash (fnv_mix FNV_OFFSET_BASIS ESHKOL_VALUE_HEAP_PTR) b
  | KPair a b => fnv_mix (fnv_mix (fnv_mix FNV_OFFSET_BASIS ESHKOL_VALUE_HEAP_PTR) (hash_tree a)) (hash_tree b)
  | KVec l => fold_left (fun hash t => fnv_mix hash (hash_tree t)) l
                (fnv_mix FNV_OFFSET_BASIS ESHKOL_VALUE_HEAP_PTR)
  | KRef p => Z.lxor (fnv_mix FNV_OFFSET_BASIS ESHKOL_VALUE_HEAP_PTR) (fnv1a_hash_u64 p)
  end.

(** Case analysis on the comparisons of a goal against known facts. *)
Ltac eqb_cases :=
  repeat match goal with
  | |- context [?a =? ?b] => destruct (Z.eqb_spec a b); cbn [negb orb andb]; try congruence
  end.

Lemma mix_vector h n elems ts :
  (forall v t, means h n v t -> hash_value h n v = Some (hash_tree t)) ->
  Forall2 (means h n) elems ts -> forall hash,
  fold_left (mix_with (hash_value h n)) elems (Some hash)
  = Some (fold_left (fun hash t => fnv_mix hash (hash_tree t)) ts hash).
Proof.
  intros IH HF. induction HF as [|v t elems ts Hv _ IHl]; intros hash; [reflexivity|].
  cbn [fold_left]. unfold mix_with at 2. rewrite (IH v t Hv). apply IHl.
Qed.

Lemma heap_not_string : ESHKOL_VALUE_HEAP_PTR =? ESHKOL_VALUE_STRING_PTR = false.
Proof. reflexivity. Qed.

(** The hash depends only on the meaning. *)
Lemma hash_value_means h n v t : means h n v t -> hash_value h n v = Some (hash_tree t).
Proof.
  revert v t. induction n as [|n IH]; intros v t; destruct t as [ty d|ty|ty s|b|ta tb|ts|p]; cbn [means hash_value hash_tree].
  all: try (intros (-> & -> & Hp & _); unfold pointer_type in Hp; eqb_cases; tauto).
  all: try (intros (-> & [E|E] & Hp); rewrite E, Hp; reflexivity).
  all: try (intros (-> & [E|E] & Hp & Hl); rewrite E; unfold c_string; rewrite Hl;
            cbn [Z.eqb]; rewrite (proj2 (Z.eqb_neq _ _) Hp); reflexivity).
  all: try (intros ((E & Hp & Hl) & _); rewrite E, heap_not_string, Z.eqb_refl, Hl, (proj2 (Z.eqb_neq _ _) Hp); reflexivity).
  all: try (intros (-> & o & (E & Hp & Hl) & Ho); rewrite E, heap_not_string, Z.eqb_refl, Hl, (proj2 (Z.eqb_neq _ _) Hp);
            destruct o; try contradiction; reflexivity).
  all: try (intros (? & ? & _ & []); fail). all: try (intros (? & _ & []); fail).
  - intros (car & cdr & (E & Hp & Hl) & H1 & H2).
    rewrite E, heap_not_string, Z.eqb_refl, Hl, (proj2 (Z.eqb_neq _ _) Hp). cbn [negb].
    unfold mix_with. rewrite (IH _ _ H1), (IH _ _ H2). reflexivity.
  - intros (elems & (E & Hp & Hl) & HF).
    rewrite E, heap_not_string, Z.eqb_refl, Hl, (proj2 (Z.eqb_neq _ _) Hp). cbn [negb].
    apply mix_vector; assumption.
Qed.

(** The parts of a meaning that type and bits determine. *)
Lemma means_functional h n m a b ta tb :
  means h n a ta -> means h m b tb ->
  base_type (vtype a) = base_type (vtype b) -> vdata a = vdata b -> ta = tb.
Proof.
  revert m a b ta tb. induction n as [|n IH]; intros m a b ta tb Ha Hb Ht Hd.
  all: destruct ta, tb, m; cbn [means] in Ha, Hb; rewrite <- Ht, <- Hd in Hb; clear Ht Hd;
    unfold pointer_type, ESHKOL_VALUE_STRING_PTR, ESHKOL_VALUE_HEAP_PTR in *.
  all: decompose_all; subst; try contradiction; try congruence; try lia.
  all: repeat match goal with
       | H1 : ?g !! ?p = Some _, H2 : ?g !! ?p = Some _ |- _ => rewrite H1 in H2; simplify_eq
       end; try contradiction; try tauto.
  - f_equal; eapply IH; eauto.
  - f_equal. eapply (Forall2_agree (means h n) (means h m)); eauto.
Qed.

(** ** Equality of keys is equality of meanings *)

Lemma list_eqb_spec a b : list_eqb a b = true <-> a = b.
Proof.
  revert b. induction a as [|x a IH]; intros [|y b]; cbn; try (split; discriminate || reflexivity).
  rewrite andb_true_iff, Z.eqb_eq, IH. split; [intros [-> ->]; reflexivity|intros E; injection E; auto].
Qed.

Lemma land_63_zero d : 0 <= d < 2 ^ 64 -> Z.land d (2 ^ 63 - 1) = 0 -> d = 0 \/ d = 2 ^ 63.
Proof.
  intros Hd E. change (2 ^ 63 - 1) with (Z.ones 63) in E. rewrite Z.land_ones in E by lia.
  change (2 ^ 64) with 18446744073709551616 in Hd. change (2 ^ 63) with 9223372036854775808 in *.
  pose proof (Z.div_mod d 9223372036854775808 ltac:(lia)). lia.
Qed.

Lemma double_eq_plain da db :
  plain_bits ESHKOL_VALUE_DOUBLE da -> plain_bits ESHKOL_VALUE_DOUBLE db ->
  double_eq_bits da db = true <-> da = db.
Proof.
  intros (Ra & Ha & _) (Rb & Hb & _). destruct (Ha eq_refl) as [Na Za]. destruct (Hb eq_refl) as [Nb Zb].
  unfold double_eq_bits. rewrite Na, Nb. cbn [negb andb]. rewrite orb_true_iff, andb_true_iff, !Z.eqb_eq.
  split; [|auto]. intros [E|[E1 E2]]; [exact E|].
  destruct (land_63_zero _ Ra E1), (land_63_zero _ Rb E2); congruence.
Qed.

(** [r] decides whether [ta] and [tb] are the same. *)
Definition decides {T} (r : option bool) (ta tb : T) : Prop :=
  exists v, r = Some v /\ (v = true <-> ta = tb).

Lemma decides_false {T} (ta tb : T) : ta <> tb -> decides (Some false) ta tb.
Proof. intros H. exists false. split; [reflexivity|]. split; [discriminate|contradiction]. Qed.

Lemma decides_true {T} (ta tb : T) : ta = tb -> decides (Some true) ta tb.
Proof. intros H. exists true. tauto. Qed.

Lemma decides_bool {T} b (ta tb : T) : (b = true <-> ta = tb) -> decides (Some b) ta tb.
Proof. intros H. exists b. auto. Qed.

Lemma all_equal_means {T} (R : tagged_value -> T -> Prop) f ea eb ta tb :
  (forall a b ta tb, R a ta -> R b tb -> decides (f a b) ta tb) ->
  Forall2 R ea ta -> Forall2 R eb tb -> length ea = length eb ->
  decides (all_equal f ea eb) ta tb.
Proof.
  intros IH Ha. revert eb tb. induction Ha as [|a t ea ta Hat _ IHl]; intros eb tb Hb Hl.
  - destruct eb; [|discriminate]. inversion Hb; subst. exists true. split; [reflexivity|tauto].
  - destruct eb as [|b eb]; [discriminate|]. inversion Hb as [|? t' ? tb' Hbt Hb']; subst.
    destruct (IH _ _ _ _ Hat Hbt) as (r & E & Hr). cbn [all_equal]. rewrite E. destruct r.
    + destruct (IHl eb tb' Hb' ltac:(simpl in Hl; lia)) as (r' & E' & Hr'). exists r'. split; [exact E'|].
      rewrite Hr'. rewrite (proj1 Hr eq_refl). split; [intros ->; reflexivity|intros X; injection X; auto].
    + exists false. split; [reflexivity|]. split; [discriminate|]. intros X. injection X as X _.
      apply Hr in X. discriminate.
Qed.

(** Two pointers to objects: the verdict of the code when the addresses differ. *)
Lemma keys_equal_heap h n a b oa ob :
  base_type (vtype a) = ESHKOL_VALUE_HEAP_PTR -> base_type (vtype b) = ESHKOL_VALUE_HEAP_PTR ->
  vdata a <> 0 -> vdata b <> 0 -> vdata a <> vdata b ->
  h !! vdata a = Some oa -> h !! vdata b = Some ob -> subtype_of oa <> subtype_of ob ->
  keys_equal_at h n a b = Some false.
Proof.
  intros Ea Eb Na Nb Nab Ha Hb Hs. destruct n; cbn [keys_equal_at];
  rewrite Ea, Eb, Ha, Hb, (proj2 (Z.eqb_neq _ _) Na), (proj2 (Z.eqb_neq _ _) Nb),
    (proj2 (Z.eqb_neq _ _) Nab), (proj2 (Z.eqb_neq _ _) Hs); reflexivity.
Qed.

Definition tree_type (t : key_tree) : Z :=
  match t with
  | KScalar ty _ | KNoPtr ty | KStr ty _ => ty
  | _ => ESHKOL_VALUE_HEAP_PTR
  end.

Lemma means_type h n v t : means h n v t -> base_type (vtype v) = tree_type t.
Proof. destruct n, t; cbn [means tree_type]; intros; decompose_all; auto. Qed.

(** The object behind a non-null pointer, and what it says about the meaning. *)
Definition object_means (h : store) (n : nat) (p : Z) (o : object) (t : key_tree) : Prop :=
  match o with
  | obj_string s => t = KStr ESHKOL_VALUE_HEAP_PTR s
  | obj_bignum b => t = KBig b /\ bignum_wf b
  | obj_cons car cdr =>
    exists m a b, n = S m /\ t = KPair a b /\ means h m car a /\ means h m cdr b
  | obj_vector elems => exists m ts, n = S m /\ t = KVec ts /\ Forall2 (means h m) elems ts
  | _ => t = KRef p /\ opaque_object o
  end.

Lemma means_object h n v t :
  means h n v t -> base_type (vtype v) = ESHKOL_VALUE_HEAP_PTR -> vdata v <> 0 ->
  exists o, h !! vdata v = Some o /\ object_means h n (vdata v) o t.
Proof.
  intros Hm Ht Hp. destruct n as [|n], t; cbn [means] in Hm; unfold pointer_type in Hm.
  all: decompose_all; subst; try contradiction; try tauto.
  all: eexists; split; [eassumption|]; cbn [object_means]; eauto 10; try (rewrite Ht; reflexivity).
  all: match goal with H : opaque_object ?o |- _ => destruct o; cbn in *; try contradiction; auto end.
Qed.

Lemma means_null_pointer h n v t :
  means h n v t -> pointer_type (base_type (vtype v)) -> vdata v = 0 -> t = KNoPtr (base_type (vtype v)).
Proof.
  intros Hm Ht Hp. destruct n, t; cbn [means] in Hm; decompose_all; subst; try contradiction; congruence.
Qed.

Lemma means_string_ptr h n v t :
  means h n v t -> base_type (vtype v) = ESHKOL_VALUE_STRING_PTR -> vdata v <> 0 ->
  exists s, h !! vdata v = Some (obj_string s) /\ t = KStr ESHKOL_VALUE_STRING_PTR s.
Proof.
  intros Hm Ht Hp. destruct n, t; cbn [means] in Hm; unfold pointer_type in Hm; decompose_all; subst;
    try contradiction; try tauto; try (rewrite Ht in *; discriminate).
  all: eexists; split; [eassumption|]; congruence.
Qed.

Lemma means_scalar h n v t :
  means h n v t -> ~ pointer_type (base_type (vtype v)) ->
  t = KScalar (base_type (vtype v)) (vdata v) /\ plain_bits (base_type (vtype v)) (vdata v).
Proof.
  intros Hm Ht. destruct n, t; cbn [means] in Hm; decompose_all; subst; auto; try contradiction;
    destruct Ht; right; assumption.
Qed.

Lemma keys_equal_scalar h n a b :
  base_type (vtype a) = base_type (vtype b) -> ~ pointer_type (base_type (vtype a)) ->
  plain_bits (base_type (vtype a)) (vdata a) -> plain_bits (base_type (vtype b)) (vdata b) ->
  decides (keys_equal_at h n a b) (KScalar (base_type (vtype a)) (vdata a)) (KScalar (base_type (vtype b)) (vdata b)).
Proof.
  intros Et Hp Pa Pb. rewrite <- Et in *.
  assert (E : forall x y, KScalar (base_type (vtype a)) x = KScalar (base_type (vtype a)) y <-> x = y)
    by (split; [intros X; injection X; auto|intros ->; reflexivity]).
  unfold pointer_type in Hp. destruct n; cbn [keys_equal_at]; rewrite <- Et, Z.eqb_refl; cbn [negb].
  all: destruct (Z.eqb_spec (base_type (vtype a)) ESHKOL_VALUE_DOUBLE) as [D|_];
    [rewrite D in Pa, Pb; apply decides_bool; rewrite E; apply double_eq_plain; assumption|].
  all: destruct (Z.eqb_spec (base_type (vtype a)) ESHKOL_VALUE_STRING_PTR) as [D|_]; [tauto|].
  all: destruct (Z.eqb_spec (base_type (vtype a)) ESHKOL_VALUE_NULL) as [D|_];
    [apply decides_true; apply E; rewrite (proj2 (proj2 Pa) D), (proj2 (proj2 Pb) D); reflexivity|].
  all: destruct (Z.eqb_spec (base_type (vtype a)) ESHKOL_VALUE_HEAP_PTR) as [D|_]; [tauto|].
  all: apply decides_bool; rewrite E; apply Z.eqb_eq.
Qed.

Lemma keys_equal_string_ptr h n a b ta tb :
  base_type (vtype a) = ESHKOL_VALUE_STRING_PTR -> base_type (vtype b) = ESHKOL_VALUE_STRING_PTR ->
  means h n a ta -> means h n b tb -> decides (keys_equal_at h n a b) ta tb.
Proof.
  intros Ea Eb Ha Hb.
  assert (Hu : keys_equal_at h n a b =
    if vdata a =? vdata b then Some true
    else if (vdata a =? 0) || (vdata b =? 0) then Some false
    else match c_string h (vdata a), c_string h (vdata b) with
         | Some sa, Some sb => Some (list_eqb sa sb) | _, _ => None end)
    by (destruct n; cbn [keys_equal_at]; rewrite Ea, Eb; reflexivity).
  rewrite Hu. destruct (Z.eqb_spec (vdata a) (vdata b)) as [D|D];
    [apply decides_true; apply (means_functional h n n a b); congruence|].
  destruct (Z.eqb_spec (vdata a) 0) as [Z1|Z1]; cbn [orb].
  { apply decides_false. rewrite (means_null_pointer h n a ta Ha (or_introl Ea) Z1).
    destruct (means_string_ptr h n b tb Hb Eb ltac:(congruence)) as (s & _ & ->). discriminate. }
  destruct (means_string_ptr h n a ta Ha Ea Z1) as (sa & La & ->).
  destruct (Z.eqb_spec (vdata b) 0) as [Z2|Z2].
  { apply decides_false. rewrite (means_null_pointer h n b tb Hb (or_introl Eb) Z2). discriminate. }
  destruct (means_string_ptr h n b tb Hb Eb Z2) as (sb & Lb & ->).
  unfold c_string. rewrite La, Lb. apply decides_bool. rewrite list_eqb_spec.
  split; [intros ->; reflexivity|intros X; injection X; auto].
Qed.

(** Two distinct non-null pointers, by the objects behind them. *)
Lemma keys_equal_objects h n a b oa ob ta tb :
  (forall m a b ta tb, n = S m -> means h m a ta -> means h m b tb -> decides (keys_equal_at h m a b) ta tb) ->
  base_type (vtype a) = ESHKOL_VALUE_HEAP_PTR -> base_type (vtype b) = ESHKOL_VALUE_HEAP_PTR ->
  vdata a <> 0 -> vdata b <> 0 -> vdata a <> vdata b ->
  h !! vdata a = Some oa -> h !! vdata b = Some ob ->
  object_means h n (vdata a) oa ta -> object_means h n (vdata b) ob tb ->
  decides (keys_equal_at h n a b) ta tb.
Proof.
  intros IH Ea Eb Na Nb Nab La Lb Ha Hb.
  destruct (Z.eq_dec (subtype_of oa) (subtype_of ob)) as [Es|Es].
  - assert (Hu : keys_equal_at h n a b =
      match oa, ob with
      | obj_string sa, obj_string sb => Some (list_eqb sa sb)
      | obj_bignum ba, obj_bignum bb => Some (eshkol_bignum_compare (Some ba) (Some bb) =? 0)
      | obj_cons car_a cdr_a, obj_cons car_b cdr_b =>
        match n with O => None | S m =>
          match keys_equal_at h m car_a car_b with Some true => keys_equal_at h m cdr_a cdr_b | r => r end end
      | obj_vector ea, obj_vector eb =>
        match n with O => None | S m =>
          if negb (Nat.eqb (length ea) (length eb)) then Some false else all_equal (keys_equal_at h m) ea eb end
      | _, _ => Some false end).
    { destruct n; cbn [keys_equal_at]; rewrite Ea, Eb, La, Lb, (proj2 (Z.eqb_neq _ _) Na), (proj2 (Z.eqb_neq _ _) Nb),
        (proj2 (Z.eqb_neq _ _) Nab), Es, (Z.eqb_refl (subtype_of ob)); destruct oa, ob; reflexivity. }
    rewrite Hu. clear Hu.
    destruct oa as [car_a cdr_a|sa|ea|ba|ra|ya|da la|pa la|ia ja|sta], ob as [car_b cdr_b|sb|eb|bb|rb|yb|db lb|pb lb|ib jb|stb]; try discriminate Es;
      cbn [object_means opaque_object] in Ha, Hb;
      try (destruct Ha as [-> _], Hb as [-> _]; apply decides_false; congruence);
      try (cbn in Es; exfalso; destruct Ha as [_ Ha], Hb as [_ Hb]; subst; cbn in *; tauto);
      try (cbn in Es; exfalso; destruct Ha as [_ Ha]; subst; cbn in *; tauto);
      try (cbn in Es; exfalso; destruct Hb as [_ Hb]; subst; cbn in *; tauto).
    + destruct Ha as (m & ta1 & ta2 & -> & -> & H1 & H2), Hb as (m' & tb1 & tb2 & E & -> & H3 & H4).
      injection E as <-. destruct (IH m _ _ _ _ eq_refl H1 H3) as ([|] & -> & Hr1).
      * destruct (IH m _ _ _ _ eq_refl H2 H4) as (r & -> & Hr2). apply decides_bool. rewrite Hr2.
        rewrite (proj1 Hr1 eq_refl). split; [intros ->; reflexivity|intros X; injection X; auto].
      * apply decides_false. intros X. injection X as X _. apply Hr1 in X. discriminate.
    + subst. apply decides_bool. rewrite list_eqb_spec. split; [intros ->; reflexivity|intros X; injection X; auto].
    + destruct Ha as (m & ts & -> & -> & H1), Hb as (m' & ts' & E & -> & H2). injection E as <-.
      destruct (Nat.eqb_spec (length ea) (length eb)) as [El|El]; cbn [negb].
      * destruct (all_equal_means (means h m) (keys_equal_at h m) ea eb ts ts' (fun a b ta tb => IH m a b ta tb eq_refl) H1 H2 El) as (r & -> & Hr).
        apply decides_bool. rewrite Hr. split; [intros ->; reflexivity|intros X; injection X; auto].
      * apply decides_false. intros X. injection X as ->. apply El.
        rewrite (Forall2_length H1), (Forall2_length H2). reflexivity.
    + destruct Ha as [-> Wa], Hb as [-> Wb]. apply decides_bool. rewrite (compare_sgn ba bb Wa Wb), Z.eqb_eq.
      split; [intros E; f_equal; apply bignum_inj; auto; lia|intros X; injection X as ->; lia].
  - rewrite (keys_equal_heap h n a b oa ob) by assumption. apply decides_false. intros ->.
    destruct oa, ob; cbn [object_means] in Ha, Hb; decompose_all; subst; try congruence; try discriminate;
      try (apply Es; reflexivity).
Qed.

(** The code's equality decides equality of meanings. *)
Lemma keys_equal_means h n a b ta tb :
  means h n a ta -> means h n b tb -> decides (keys_equal_at h n a b) ta tb.
Proof.
  revert a b ta tb. induction n as [n IH] using lt_wf_ind. intros a b ta tb Ha Hb.
  pose proof (means_type h n a ta Ha) as Ta. pose proof (means_type h n b tb Hb) as Tb.
  destruct (Z.eq_dec (base_type (vtype a)) (base_type (vtype b))) as [Et|Et].
  - destruct (Z.eq_dec (base_type (vtype a)) ESHKOL_VALUE_STRING_PTR) as [Es|Es];
      [apply keys_equal_string_ptr; congruence|].
    destruct (Z.eq_dec (base_type (vtype a)) ESHKOL_VALUE_HEAP_PTR) as [Eh|Eh].
    + assert (Ehb : base_type (vtype b) = ESHKOL_VALUE_HEAP_PTR) by congruence.
      destruct (Z.eq_dec (vdata a) (vdata b)) as [D|D].
      { pose proof (means_functional h n n a b ta tb Ha Hb Et D) as ->.
        destruct n; cbn [keys_equal_at]; rewrite Eh, Ehb, D, (Z.eqb_refl (vdata b)); apply decides_true; reflexivity. }
      destruct (Z.eq_dec (vdata a) 0) as [Z1|Z1]; [|destruct (Z.eq_dec (vdata b) 0) as [Z2|Z2]].
      * pose proof (means_null_pointer h n a ta Ha (or_intror Eh) Z1) as ->.
        destruct (means_object h n b tb Hb Ehb ltac:(congruence)) as (ob & Lb & Ob).
        destruct n; cbn [keys_equal_at]; rewrite Eh, Ehb, (proj2 (Z.eqb_neq _ _) D), Z1; cbn;
          apply decides_false; destruct ob; cbn in Ob; decompose_all; subst; discriminate.
      * pose proof (means_null_pointer h n b tb Hb (or_intror Ehb) Z2) as ->.
        destruct (means_object h n a ta Ha Eh Z1) as (oa & La & Oa).
        destruct n; cbn [keys_equal_at]; rewrite Eh, Ehb, (proj2 (Z.eqb_neq _ _) D), Z2, (proj2 (Z.eqb_neq _ _) Z1); cbn;
          apply decides_false; destruct oa; cbn in Oa; decompose_all; subst; discriminate.
      * destruct (means_object h n a ta Ha Eh Z1) as (oa & La & Oa).
        destruct (means_object h n b tb Hb Ehb Z2) as (ob & Lb & Ob).
        apply (keys_equal_objects h n a b oa ob); auto. intros m ? ? ? ? ->. apply IH. lia.
    + assert (Np : ~ pointer_type (base_type (vtype a))) by (unfold pointer_type; tauto).
      destruct (means_scalar h n a ta Ha Np) as [-> Pa]. rewrite Et in Np.
      destruct (means_scalar h n b tb Hb Np) as [-> Pb]. apply keys_equal_scalar; congruence.
  - destruct n; cbn [keys_equal_at]; rewrite (proj2 (Z.eqb_neq _ _) Et); apply decides_false; congruence.
Qed.
