(* ===== verification/HashTable.v ===== *)
(** * Hash tables: lib/core/runtime_hash_table.cpp

    Open addressing with linear probing and tombstones.  The table sees its keys
    through the interface [HashKey]; [HashKeys] provides the implementation. *)

From Stdlib Require Import ZArith List Lia Bool.
From stdpp Require Import base list numbers.
From S2P Require Import Prelude Effects.
Import ListNotations.
Open Scope Z_scope.
Open Scope effect_scope.

(** What the table needs of its keys: a 64-bit hash and an equality. *)
Class HashKey (K : Type) : Type := {
  hash_of : K -> Z;
  keys_equal : K -> K -> bool;
}.

(** On valid keys the equality is an equivalence that the hash respects. *)
Class HashKeyLaws (K : Type) {HK : HashKey K} : Type := {
  key_valid : K -> Prop;
  hash_nonneg : forall k, key_valid k -> 0 <= hash_of k;
  keys_equal_refl : forall k, key_valid k -> keys_equal k k = true;
  keys_equal_sym : forall k1 k2, key_valid k1 -> key_valid k2 -> keys_equal k1 k2 = keys_equal k2 k1;
  keys_equal_trans : forall k1 k2 k3, key_valid k1 -> key_valid k2 -> key_valid k3 ->
    keys_equal k1 k2 = true -> keys_equal k2 k3 = keys_equal k1 k3;
  keys_equal_hash : forall k1 k2, key_valid k1 -> key_valid k2 ->
    keys_equal k1 k2 = true -> hash_of k1 = hash_of k2;
}.

(** ** Data *)

(** [eshkol_hash_table_t]; [home_arena] is the arena of the state the operations
    act on. *)
Record hash_table (K V : Type) : Type := mkTable {
  capacity : Z;
  size : Z;
  tombstones : Z;
  keys : list K;
  values : list V;
  status : list Z;
}.
Arguments mkTable {K V}.
Arguments capacity {K V}.
Arguments size {K V}.
Arguments tombstones {K V}.
Arguments keys {K V}.
Arguments values {K V}.
Arguments status {K V}.

Definition HASH_ENTRY_EMPTY : Z := 0.
Definition HASH_ENTRY_OCCUPIED : Z := 1.
Definition HASH_ENTRY_DELETED : Z := 2.
Definition HASH_TABLE_INITIAL_CAPACITY : Z := 16.
Definition HEAP_SUBTYPE_HASH : Z := 5.
Definition sizeof_hash_table : Z := 56.
Definition sizeof_value : Z := 16.

(** [load > HASH_TABLE_LOAD_FACTOR], the quotient of the two counts in [double]
    against 0.75; up to [2^52] slots the rounding of the quotient does not change
    the verdict. *)
Definition overloaded (used capacity : Z) : bool := 4 * used >? 3 * capacity.

(** ** Probing *)

Section Table.
  Context {K V : Type} {HK : HashKey K} (zero_key : K) (zero_val : V).
  Context {St : Type} {A : Arena St}.

Definition status_at (st : list Z) (i : Z) : Z := nth (Z.to_nat i) st HASH_ENTRY_EMPTY.
Definition key_at (ks : list K) (i : Z) : K := nth (Z.to_nat i) ks zero_key.
Definition value_at (vs : list V) (i : Z) : V := nth (Z.to_nat i) vs zero_val.

(** The loop of [find_slot], [left] probes before the end of the array; returns
    the slot and the first tombstone, [-1] for none. *)
Fixpoint find_slot_loop (t : hash_table K V) (key : K) (index : Z) (left : nat) (i : Z)
    (first_tombstone : Z) : Z * Z :=
  match left with
  | O => (-1, first_tombstone)
  | S left' =>
    let probe_index := (index + i) mod capacity t in
    let st := status_at (status t) probe_index in
    if st =? HASH_ENTRY_EMPTY then (-1, first_tombstone)
    else if st =? HASH_ENTRY_DELETED then
      find_slot_loop t key index left' (i + 1)
        (if first_tombstone =? -1 then probe_index else first_tombstone)
    else if keys_equal (key_at (keys t) probe_index) key then (probe_index, -1)
    else find_slot_loop t key index left' (i + 1) first_tombstone
  end.

Definition find_slot (t : hash_table K V) (key : K) : Z * Z :=
  find_slot_loop t key (hash_of key mod capacity t) (Z.to_nat (capacity t)) 0 (-1).

(** [while (status[index] != HASH_ENTRY_EMPTY) index = (index + 1) % capacity]:
    after [capacity] steps every slot was seen, and the loop never ends. *)
Fixpoint probe_empty (fuel : nat) (st : list Z) (cap index : Z) : option Z :=
  if status_at st index =? HASH_ENTRY_EMPTY then Some index
  else
    match fuel with
    | O => None
    | S fuel' => probe_empty fuel' st cap ((index + 1) mod cap)
    end.

(** ** Growing *)

(** The three arrays of a table. *)
Definition arrays : Type := (list K * list V * list Z)%type.

Definition store_entry (a : arrays) (i : Z) (k : K) (v : V) : arrays :=
  let '(ks, vs, st) := a in
  (<[Z.to_nat i := k]> ks, <[Z.to_nat i := v]> vs, <[Z.to_nat i := HASH_ENTRY_OCCUPIED]> st).

Fixpoint rehash (ks : list K) (vs : list V) (st : list Z) (new_capacity : Z) (a : arrays)
  : option arrays :=
  match ks, vs, st with
  | k :: ks', v :: vs', s :: st' =>
    if s =? HASH_ENTRY_OCCUPIED then
      match probe_empty (Z.to_nat new_capacity) (snd a) new_capacity (hash_of k mod new_capacity) with
      | Some index => rehash ks' vs' st' new_capacity (store_entry a index k v)
      | None => None
      end
    else rehash ks' vs' st' new_capacity a
  | _, _, _ => Some a
  end.

Definition zeroed_arrays (n : nat) : arrays :=
  (repeat zero_key n, repeat zero_val n, repeat HASH_ENTRY_EMPTY n).

(** [arena_allocate_zeroed] for keys, values and status; whether all succeeded. *)
Definition allocate_arrays (n : Z) : M St bool :=
  let! pk := allocate (u64 (sizeof_value * n)) in
  let! pv := allocate (u64 (sizeof_value * n)) in
  let! ps := allocate (u64 n) in
  ret (match pk, pv, ps with Some _, Some _, Some _ => true | _, _, _ => false end).

(** Whether it succeeded, and the table after it. *)
Definition hash_table_resize (t : hash_table K V) (new_capacity : Z) : M St (bool * hash_table K V) :=
  let! ok := allocate_arrays new_capacity in
  if negb ok then ret (false, t)
  else
    let! a := fuelled (rehash (keys t) (values t) (status t) new_capacity
                         (zeroed_arrays (Z.to_nat new_capacity))) in
    let '(ks, vs, st) := a in
    ret (true, mkTable new_capacity (size t) 0 ks vs st).

(** ** Creation *)

Definition empty_table (n : Z) : hash_table K V :=
  let '(ks, vs, st) := zeroed_arrays (Z.to_nat n) in mkTable n 0 0 ks vs st.

Definition arena_allocate_hash_table (initial_capacity : Z) : M St (option (hash_table K V)) :=
  let! null := is_null_arena in
  if null || (initial_capacity =? 0) then ret None
  else
    check! _ := allocate sizeof_hash_table in
    let! ok := allocate_arrays initial_capacity in
    ret (if ok then Some (empty_table initial_capacity) else None).

Definition arena_hash_table_create : M St (option (hash_table K V)) :=
  arena_allocate_hash_table HASH_TABLE_INITIAL_CAPACITY.

(** The header is written by hand; header and struct take the same 64 bytes as
    in [arena_allocate_with_header]. *)
Definition arena_hash_table_create_with_header : M St (option (hash_table K V)) :=
  let! null := is_null_arena in
  if null then ret None
  else
    check! _ := allocate_with_header sizeof_hash_table HEAP_SUBTYPE_HASH 0 in
    let! ok := allocate_arrays HASH_TABLE_INITIAL_CAPACITY in
    ret (if ok then Some (empty_table HASH_TABLE_INITIAL_CAPACITY) else None).

(** ** Operations *)

Definition hash_table_set (t : hash_table K V) (key : K) (value : V) : M St (bool * hash_table K V) :=
  let! null := is_null_arena in
  if null then ret (false, t)
  else
    let! r := (if overloaded (u64 (size t + tombstones t)) (capacity t)
               then hash_table_resize t (u64 (capacity t * 2)) else ret (true, t)) in
    let '(ok, t) := r in
    if negb ok then ret (false, t)
    else
      let '(slot, tombstone_slot) := find_slot t key in
      if slot >=? 0 then
        ret (true, mkTable (capacity t) (size t) (tombstones t) (keys t)
                     (<[Z.to_nat slot := value]> (values t)) (status t))
      else
        let! it := (if tombstone_slot >=? 0 then ret (tombstone_slot, u64 (tombstones t - 1))
                    else
                      let! i := fuelled (probe_empty (Z.to_nat (capacity t)) (status t) (capacity t)
                                           (hash_of key mod capacity t)) in
                      ret (i, tombstones t)) in
        let '(insert_index, tombs) := it in
        let '(ks, vs, st) := store_entry (keys t, values t, status t) insert_index key value in
        ret (true, mkTable (capacity t) (u64 (size t + 1)) tombs ks vs st).

Definition hash_table_get (t : hash_table K V) (key : K) : option V :=
  let '(slot, _) := find_slot t key in
  if slot <? 0 then None else Some (value_at (values t) slot).

Definition hash_table_has_key (t : hash_table K V) (key : K) : bool := fst (find_slot t key) >=? 0.

Definition hash_table_remove (t : hash_table K V) (key : K) : bool * hash_table K V :=
  let '(slot, _) := find_slot t key in
  if slot <? 0 then (false, t)
  else (true, mkTable (capacity t) (u64 (size t - 1)) (u64 (tombstones t + 1)) (keys t) (values t)
                (<[Z.to_nat slot := HASH_ENTRY_DELETED]> (status t))).

Definition hash_table_clear (t : hash_table K V) : hash_table K V :=
  mkTable (capacity t) 0 0 (keys t) (values t)
    (repeat HASH_ENTRY_EMPTY (Z.to_nat (capacity t))).

Definition hash_table_count (t : hash_table K V) : Z := size t.

(** The list [hash_table_keys] and [hash_table_values] build: one cell per
    occupied slot, appended at the tail; a refused cell ends it. *)
Fixpoint collect {X} (xs : list X) (st : list Z) : M St (list X) :=
  match xs, st with
  | x :: xs', s :: st' =>
    if s =? HASH_ENTRY_OCCUPIED then
      let! cell := allocate_cons in
      match cell with
      | None => ret []
      | Some _ => let! rest := collect xs' st' in ret (x :: rest)
      end
    else collect xs' st'
  | _, _ => ret []
  end.

Definition hash_table_keys (t : hash_table K V) : M St (list K) :=
  let! null := is_null_arena in
  if null || (size t =? 0) then ret [] else collect (keys t) (status t).

Definition hash_table_values (t : hash_table K V) : M St (list V) :=
  let! null := is_null_arena in
  if null || (size t =? 0) then ret [] else collect (values t) (status t).

End Table.
