(* ===== verification/HashTableSpec.v ===== *)
(** * Proofs about hash tables

    The slots of a table as one array of cells, the invariant on it (every entry
    is reachable by probing, keys are distinct, the counters are right), and the
    specification of every operation as an update of the cells. *)

From Stdlib Require Import ZArith List Lia Bool.
From stdpp Require Import base list numbers sorting.
From S2P Require Import Prelude Effects HashTable.
Import ListNotations.
Open Scope Z_scope.
Open Scope effect_scope.

(** ** Cells *)

Inductive cell (K V : Type) : Type :=
| Empty
| Deleted
| Full (k : K) (v : V).
Arguments Empty {K V}.
Arguments Deleted {K V}.
Arguments Full {K V} k v.

Section Cells.
  Context {K V : Type}.

Definition decode (s : Z) (kv : K * V) : cell K V :=
  if s =? HASH_ENTRY_EMPTY then Empty
  else if s =? HASH_ENTRY_DELETED then Deleted
  else Full (fst kv) (snd kv).

Definition cells_of (ks : list K) (vs : list V) (st : list Z) : list (cell K V) :=
  zip_with decode st (zip ks vs).

Definition cells (t : hash_table K V) : list (cell K V) := cells_of (keys t) (values t) (status t).

Definition entry (c : cell K V) : option (K * V) :=
  match c with Full k v => Some (k, v) | _ => None end.

(** The entries in slot order. *)
Definition entries (c : list (cell K V)) : list (K * V) := omap entry c.

Definition is_deleted (c : cell K V) : bool := match c with Deleted => true | _ => false end.
Definition is_empty (c : cell K V) : bool := match c with Empty => true | _ => false end.

Definition count (f : cell K V -> bool) (c : list (cell K V)) : nat := length (List.filter f c).

Lemma length_cells_of ks vs st :
  length vs = length ks -> length st = length ks -> length (cells_of ks vs st) = length ks.
Proof. intros H1 H2. unfold cells_of. rewrite length_zip_with, length_zip_with. lia. Qed.

Lemma cells_of_lookup ks vs st i :
  cells_of ks vs st !! i =
    match st !! i, ks !! i, vs !! i with
    | Some s, Some k, Some v => Some (decode s (k, v))
    | _, _, _ => None
    end.
Proof.
  unfold cells_of. rewrite lookup_zip_with, lookup_zip_with.
  destruct (st !! i), (ks !! i), (vs !! i); reflexivity.
Qed.

(** ** Updates of the arrays are updates of the cells *)

Lemma cells_store ks vs st i k v :
  cells_of (<[i:=k]> ks) (<[i:=v]> vs) (<[i:=HASH_ENTRY_OCCUPIED]> st)
  = <[i := Full k v]> (cells_of ks vs st).
Proof. unfold cells_of. change (Full k v) with (decode HASH_ENTRY_OCCUPIED (k, v)). rewrite !insert_zip_with. reflexivity. Qed.

Lemma cells_delete ks vs st i :
  length vs = length ks -> length st = length ks ->
  cells_of ks vs (<[i:=HASH_ENTRY_DELETED]> st) = <[i := Deleted]> (cells_of ks vs st).
Proof.
  intros H1 H2. apply list_eq. intros j.
  rewrite !list_lookup_insert, !cells_of_lookup, !list_lookup_insert. rewrite length_cells_of, H2 by assumption.
  case_decide as E; [destruct E as [<- Hi]|reflexivity].
  destruct (lookup_lt_is_Some_2 ks i Hi) as [k ->].
  destruct (lookup_lt_is_Some_2 vs i ltac:(lia)) as [v ->]. reflexivity.
Qed.

Lemma cells_value ks vs st i k v w :
  cells_of ks vs st !! i = Some (Full k w) ->
  cells_of ks (<[i:=v]> vs) st = <[i := Full k v]> (cells_of ks vs st).
Proof.
  intros Hc. apply list_eq. intros j. rewrite !list_lookup_insert, !cells_of_lookup, list_lookup_insert.
  pose proof (lookup_lt_Some _ _ _ Hc) as Hi. rewrite cells_of_lookup in Hc.
  destruct (st !! i) as [s|] eqn:Es; [|discriminate]. destruct (ks !! i) as [k'|] eqn:Ek; [|discriminate].
  destruct (vs !! i) as [w'|] eqn:Ev; [|discriminate].
  pose proof (lookup_lt_Some _ _ _ Ev). case_decide as E; [destruct E as [<- _]|].
  - rewrite Es, Ek, decide_True by auto. unfold decode in *. destruct (s =? _); [discriminate|].
    destruct (s =? _); [discriminate|]. cbn in *. congruence.
  - case_decide as E2; [destruct E2 as [<- _]; tauto|reflexivity].
Qed.

(** ** Entries and counters *)

Lemma split_at (c : list (cell K V)) i x :
  c !! i = Some x -> exists l r, c = l ++ x :: r /\ length l = i.
Proof.
  intros H. exists (take i c), (drop (S i) c). split; [symmetry; apply take_drop_middle, H|].
  apply length_take_le. pose proof (lookup_lt_Some _ _ _ H). lia.
Qed.

Lemma entries_insert c i x y :
  c !! i = Some x -> entry x = None ->
  entries (<[i:=y]> c) ≡ₚ (match entry y with Some e => [e] | None => [] end) ++ entries c.
Proof.
  intros H Hx. destruct (split_at c i x H) as (l & r & -> & <-).
  rewrite insert_app_r_alt, Nat.sub_diag by lia. cbn. unfold entries. rewrite !omap_app. cbn. rewrite Hx.
  destruct (entry y); cbn; [|reflexivity]. symmetry. apply Permutation_middle.
Qed.

Lemma count_insert f c i x y :
  c !! i = Some x ->
  (count f (<[i:=y]> c) + (if f x then 1 else 0) = count f c + (if f y then 1 else 0))%nat.
Proof.
  intros H. destruct (split_at c i x H) as (l & r & -> & <-).
  rewrite insert_app_r_alt, Nat.sub_diag by lia. cbn. unfold count. rewrite !List.filter_app, !length_app. cbn.
  destruct (f x), (f y); cbn; lia.
Qed.

(** Every slot is empty, deleted or an entry. *)
Lemma cells_partition c :
  (count is_empty c + count is_deleted c + length (entries c) = length c)%nat.
Proof.
  unfold count, entries. induction c as [|[| |k v] c IH]; csimpl; [reflexivity|lia..].
Qed.

Lemma entries_elem c k v : (k, v) ∈ entries c <-> exists i, c !! i = Some (Full k v).
Proof.
  unfold entries. rewrite list_elem_of_omap. split.
  - intros (x & Hx & He). destruct x; try discriminate. cbn in He. injection He as -> ->.
    apply list_elem_of_lookup in Hx. exact Hx.
  - intros [i Hi]. exists (Full k v). split; [|reflexivity]. apply list_elem_of_lookup. eauto.
Qed.

End Cells.

(** ** The invariant *)

Section Invariant.
  Context {K V : Type} {HK : HashKey K} {KL : HashKeyLaws K} (zero_key : K) (zero_val : V).

(** The [d]-th slot a probe for [k] looks at. *)
Definition probe (cap : Z) (k : K) (d : Z) : Z := (hash_of k mod cap + d) mod cap.

Definition cell_at (c : list (cell K V)) (i : Z) : option (cell K V) := c !! Z.to_nat i.

(** Every entry is reached by probing for its key without meeting an empty slot,
    no two entries have equal keys, and all keys are valid. *)
Record cells_inv (c : list (cell K V)) : Prop := {
  ci_probe : forall i k v, c !! i = Some (Full k v) ->
    exists d, 0 <= d < Z.of_nat (length c) /\ i = Z.to_nat (probe (Z.of_nat (length c)) k d) /\
    forall e, 0 <= e < d -> cell_at c (probe (Z.of_nat (length c)) k e) <> Some Empty;
  ci_distinct : forall i j k v k' v', c !! i = Some (Full k v) -> c !! j = Some (Full k' v') ->
    keys_equal k k' = true -> i = j;
  ci_valid : forall i k v, c !! i = Some (Full k v) -> key_valid k;
}.

Definition MAX_CAPACITY : Z := 2 ^ 50.

Record table_inv (t : hash_table K V) : Prop := {
  ti_capacity : 0 < capacity t <= MAX_CAPACITY;
  ti_keys : Z.of_nat (length (keys t)) = capacity t;
  ti_values : length (values t) = length (keys t);
  ti_status : length (status t) = length (keys t);
  ti_cells : cells_inv (cells t);
  ti_size : size t = Z.of_nat (length (entries (cells t)));
  ti_tombstones : tombstones t = Z.of_nat (count is_deleted (cells t));
  ti_statuses : Forall (fun s => s = HASH_ENTRY_EMPTY \/ s = HASH_ENTRY_OCCUPIED \/ s = HASH_ENTRY_DELETED) (status t);
}.

Lemma probe_range cap k d : 0 < cap -> 0 <= probe cap k d < cap.
Proof. intros. apply Z.mod_pos_bound. lia. Qed.

Lemma probe_step cap k d : 0 < cap -> probe cap k (d + 1) = (probe cap k d + 1) mod cap.
Proof. intros Hc. unfold probe. rewrite Z.add_assoc, Zplus_mod_idemp_l. reflexivity. Qed.

(** Every slot is on every probe sequence. *)
Lemma probe_covers cap k i : 0 <= i < cap -> exists d, 0 <= d < cap /\ probe cap k d = i.
Proof.
  intros Hi. exists ((i - hash_of k mod cap) mod cap). split; [apply Z.mod_pos_bound; lia|].
  unfold probe. rewrite Zplus_mod_idemp_r. replace (hash_of k mod cap + (i - hash_of k mod cap)) with i by lia.
  apply Z.mod_small. lia.
Qed.

Lemma lookup_nth {X} (l : list X) i d : (i < length l)%nat -> l !! i = Some (nth i l d).
Proof.
  revert i. induction l as [|x l IH]; intros [|i] H; cbn in *; try lia; [reflexivity|].
  apply IH. lia.
Qed.

(** A slot's cell is its three array elements. *)
Lemma cell_at_spec ks vs st i :
  length vs = length ks -> length st = length ks -> 0 <= i < Z.of_nat (length ks) ->
  cell_at (cells_of ks vs st) i
  = Some (decode (status_at st i) (key_at zero_key ks i, value_at zero_val vs i)).
Proof.
  intros H1 H2 Hi. unfold cell_at, status_at, key_at, value_at. rewrite cells_of_lookup.
  rewrite (lookup_nth st _ HASH_ENTRY_EMPTY), (lookup_nth ks _ zero_key), (lookup_nth vs _ zero_val) by lia.
  reflexivity.
Qed.

Lemma length_cells t : table_inv t -> Z.of_nat (length (cells t)) = capacity t.
Proof. intros [? Hk Hv Hs ? ? ? ?]. unfold cells. rewrite length_cells_of; assumption. Qed.

(** What a search for [key] returns. *)
Inductive search_result (t : hash_table K V) (key : K) : Z * Z -> Prop :=
| search_found d k v :
    0 <= d < capacity t -> cell_at (cells t) (probe (capacity t) key d) = Some (Full k v) ->
    keys_equal k key = true -> search_result t key (probe (capacity t) key d, -1)
| search_missing stop tomb :
    0 <= stop <= capacity t ->
    (stop = capacity t \/ cell_at (cells t) (probe (capacity t) key stop) = Some Empty) ->
    (forall d, 0 <= d < stop -> exists c, cell_at (cells t) (probe (capacity t) key d) = Some c /\
       c <> Empty /\ forall k v, c = Full k v -> keys_equal k key = false) ->
    (tomb = -1 \/ exists d, 0 <= d < stop /\ tomb = probe (capacity t) key d /\
       cell_at (cells t) tomb = Some Deleted) ->
    search_result t key (-1, tomb).

Lemma find_slot_loop_spec t key left i first :
  table_inv t -> Z.of_nat left + i = capacity t -> 0 <= i ->
  (forall d, 0 <= d < i -> exists c, cell_at (cells t) (probe (capacity t) key d) = Some c /\
     c <> Empty /\ forall k v, c = Full k v -> keys_equal k key = false) ->
  (first = -1 \/ exists d, 0 <= d < i /\ first = probe (capacity t) key d /\
     cell_at (cells t) first = Some Deleted) ->
  search_result t key (find_slot_loop zero_key t key (hash_of key mod capacity t) left i first).
Proof.
  intros Ht. pose proof (ti_capacity t Ht) as Hcap. revert i first.
  induction left as [|left IH]; intros i first Hi Hi0 Hpre Hfirst; cbn [find_slot_loop].
  - apply (search_missing t key i first); auto; lia.
  - change ((hash_of key mod capacity t + i) mod capacity t) with (probe (capacity t) key i).
    pose proof (probe_range (capacity t) key i ltac:(lia)) as Hr.
    pose proof (cell_at_spec (keys t) (values t) (status t) (probe (capacity t) key i)
      (ti_values t Ht) (ti_status t Ht) ltac:(rewrite (ti_keys t Ht); exact Hr)) as Hc.
    change (cells_of _ _ _) with (cells t) in Hc. unfold decode in Hc. cbn [fst snd] in Hc.
    destruct (status_at (status t) (probe (capacity t) key i) =? HASH_ENTRY_EMPTY).
    { apply (search_missing t key i first); auto; lia. }
    assert (Hext : forall c, cell_at (cells t) (probe (capacity t) key i) = Some c -> c <> Empty ->
              (forall k v, c = Full k v -> keys_equal k key = false) ->
              forall d, 0 <= d < i + 1 -> exists c, cell_at (cells t) (probe (capacity t) key d) = Some c /\
                c <> Empty /\ forall k v, c = Full k v -> keys_equal k key = false).
    { intros c H1 H2 H3 d Hd. destruct (Z.eq_dec d i) as [->|]; [eauto|apply Hpre; lia]. }
    destruct (status_at (status t) (probe (capacity t) key i) =? HASH_ENTRY_DELETED).
    + apply IH; [lia|lia|apply (Hext Deleted); auto; discriminate|].
      destruct (Z.eqb_spec first (-1)) as [->|Hf].
      * right. exists i. split; [lia|]. auto.
      * right. destruct Hfirst as [|(d & Hd & Hrest)]; [contradiction|]. exists d. split; [lia|exact Hrest].
    + destruct (keys_equal _ key) eqn:Ek.
      * apply (search_found t key i _ _ ltac:(lia) Hc Ek).
      * apply IH; [lia|lia| |].
        -- eapply Hext; [exact Hc|discriminate|]. intros k v E. injection E as <- <-. exact Ek.
        -- destruct Hfirst as [|(d & Hd & Hrest)]; [auto|]. right. exists d. split; [lia|exact Hrest].
Qed.

Lemma find_slot_spec t key : table_inv t -> search_result t key (find_slot zero_key t key).
Proof.
  intros Ht. pose proof (ti_capacity t Ht). apply find_slot_loop_spec; auto; [lia|lia|].
  intros d Hd. lia.
Qed.

(** A search finds every entry with an equal key. *)
Lemma search_complete t key i k v r :
  table_inv t -> key_valid key -> search_result t key r ->
  cells t !! i = Some (Full k v) -> keys_equal k key = true -> r = (Z.of_nat i, -1).
Proof.
  intros Ht Hk Hr Hi Heq. pose proof (ti_capacity t Ht) as Hcap. pose proof (length_cells t Ht) as Hlen.
  destruct (ti_cells t Ht) as [Hp Hd Hv]. pose proof (Hv _ _ _ Hi) as Hvk.
  destruct (Hp i k v Hi) as (d & Hdr & Ei & Hpre). rewrite Hlen in *.
  assert (Eprobe : forall e, probe (capacity t) k e = probe (capacity t) key e)
    by (intros e; unfold probe; rewrite (keys_equal_hash k key Hvk Hk Heq); reflexivity).
  rewrite Eprobe in Ei. pose proof (probe_range (capacity t) key d ltac:(lia)) as Hpr.
  inversion Hr as [d' k' v' Hd' Hc' He' E|stop tomb Hs Hstop Hseen Htomb E]; subst r.
  - pose proof (Hv _ _ _ Hc') as Hvk'. f_equal.
    assert (E2 : keys_equal k k' = true).
    { assert (H1 : keys_equal key k' = true) by (rewrite keys_equal_sym; auto).
      rewrite (keys_equal_sym k k'), (keys_equal_trans key k' k), keys_equal_sym by auto. exact Heq. }
    pose proof (Hd _ _ _ _ _ _ Hi Hc' E2) as ->. pose proof (probe_range (capacity t) key d' ltac:(lia)). lia.
  - exfalso. destruct (Z.ltb_spec d stop) as [Hlt|Hge].
    + destruct (Hseen d ltac:(lia)) as (c & Hc & _ & Hne). unfold cell_at in Hc. rewrite <- Ei, Hi in Hc.
      injection Hc as <-. rewrite (Hne k v eq_refl) in Heq. discriminate.
    + destruct Hstop as [|He]; [lia|]. destruct (Z.eq_dec stop d) as [->|].
      * unfold cell_at in He. rewrite <- Ei, Hi in He. discriminate.
      * apply (Hpre stop ltac:(lia)). rewrite Eprobe. exact He.
Qed.

(** ** Updates that keep the invariant *)

Lemma cell_at_insert c p y i :
  y <> Empty -> cell_at c i <> Some Empty -> cell_at (<[p:=y]> c) i <> Some Empty.
Proof.
  unfold cell_at. rewrite list_lookup_insert. intros Hy Hc. case_decide; [congruence|exact Hc].
Qed.

(** Writing a tombstone, or a value for the key already there. *)
Lemma cells_inv_update c p k w y :
  cells_inv c -> c !! p = Some (Full k w) -> y = Deleted \/ (exists v, y = Full k v) ->
  cells_inv (<[p:=y]> c).
Proof.
  intros [Hp Hd Hv] Hc Hy. assert (Hne : y <> Empty) by (destruct Hy as [->|[v ->]]; discriminate).
  assert (Hold : forall i k' v', <[p:=y]> c !! i = Some (Full k' v') -> exists w', c !! i = Some (Full k' w')).
  { intros i k' v'. rewrite list_lookup_insert. case_decide as E; [|eauto]. destruct E as [<- _].
    intros E. injection E as ->. destruct Hy as [|[v E]]; [discriminate|]. injection E as -> ->. eauto. }
  constructor; rewrite ?length_insert.
  - intros i k' v' H. destruct (Hold _ _ _ H) as [w' H']. destruct (Hp _ _ _ H') as (d & Hdr & Ei & Hpre).
    exists d. split; [exact Hdr|]. split; [exact Ei|]. intros e He. apply cell_at_insert; auto.
  - intros i j k1 v1 k2 v2 H1 H2 E. destruct (Hold _ _ _ H1) as [w1 H1'], (Hold _ _ _ H2) as [w2 H2']. eauto.
  - intros i k1 v1 H1. destruct (Hold _ _ _ H1) as [w1 H1']. eauto.
Qed.

(** Adding an entry for a new key at the end of a probe. *)
Lemma cells_inv_add c key v d x :
  let n := Z.of_nat (length c) in
  cells_inv c -> key_valid key -> 0 <= d < n ->
  (forall e, 0 <= e < d -> cell_at c (probe n key e) <> Some Empty) ->
  cell_at c (probe n key d) = Some x -> entry x = None ->
  (forall i k' v', c !! i = Some (Full k' v') -> keys_equal k' key = false) ->
  cells_inv (<[Z.to_nat (probe n key d) := Full key v]> c).
Proof.
  intros n [Hp Hd Hv] Hk Hdr Hpre Hx Hent Hnew. subst n. set (n := Z.of_nat (length c)) in *.
  set (p := Z.to_nat (probe n key d)). assert (Hp1 : (p < length c)%nat) by exact (lookup_lt_Some _ _ _ Hx).
  assert (Hcase : forall i k' v', <[p:=Full key v]> c !! i = Some (Full k' v') ->
            (i = p /\ k' = key) \/ c !! i = Some (Full k' v')).
  { intros i k' v'. rewrite list_lookup_insert. case_decide as E; [|auto]. destruct E as [<- _].
    intros E. injection E as <- <-. auto. }
  constructor; rewrite ?length_insert; fold n.
  - intros i k' v' H. destruct (Hcase _ _ _ H) as [[-> ->]|H'].
    + exists d. split; [exact Hdr|]. split; [reflexivity|]. intros e He. apply cell_at_insert; [discriminate|auto].
    + destruct (Hp _ _ _ H') as (d' & Hdr' & Ei & Hpre'). exists d'. split; [exact Hdr'|]. split; [exact Ei|].
      intros e He. apply cell_at_insert; [discriminate|auto].
  - intros i j k1 v1 k2 v2 H1 H2 E. destruct (Hcase _ _ _ H1) as [[-> ->]|H1'], (Hcase _ _ _ H2) as [[-> ->]|H2'].
    + reflexivity.
    + rewrite keys_equal_sym in E by eauto. rewrite (Hnew _ _ _ H2') in E. discriminate.
    + rewrite (Hnew _ _ _ H1') in E. discriminate.
    + eauto.
  - intros i k1 v1 H1. destruct (Hcase _ _ _ H1) as [[-> ->]|H1']; [exact Hk|eauto].
Qed.

(** ** The insertion loop *)

Lemma probe_empty_spec fuel st ks vs cap key d :
  Z.of_nat (length ks) = cap -> length vs = length ks -> length st = length ks -> 0 < cap ->
  0 <= d -> d + Z.of_nat fuel = cap ->
  (forall e, 0 <= e < d -> cell_at (cells_of ks vs st) (probe cap key e) <> Some Empty) ->
  (exists i, (i < length ks)%nat /\ cells_of ks vs st !! i = Some Empty) ->
  exists d', d <= d' < cap /\ probe_empty fuel st cap (probe cap key d) = Some (probe cap key d') /\
    cell_at (cells_of ks vs st) (probe cap key d') = Some Empty /\
    forall e, 0 <= e < d' -> cell_at (cells_of ks vs st) (probe cap key e) <> Some Empty.
Proof.
  intros Hcap Hv Hs Hc0. revert d. induction fuel as [|fuel IH]; intros d Hd Hf Hpre Hex.
  - exfalso. destruct Hex as (i & Hi & Hc). destruct (probe_covers cap key (Z.of_nat i) ltac:(lia)) as (e & He & Ee).
    apply (Hpre e ltac:(lia)). rewrite Ee. unfold cell_at. rewrite Nat2Z.id. exact Hc.
  - cbn [probe_empty]. pose proof (probe_range cap key d Hc0) as Hr.
    pose proof (cell_at_spec ks vs st (probe cap key d) Hv Hs ltac:(lia)) as Hc. unfold decode in Hc. cbn [fst snd] in Hc.
    destruct (status_at st (probe cap key d) =? HASH_ENTRY_EMPTY) eqn:E.
    + exists d. split; [lia|]. auto.
    + rewrite <- probe_step by exact Hc0. destruct (IH (d + 1)) as (d' & Hd' & Hrest); auto; try lia.
      * intros e He. destruct (Z.eq_dec e d) as [->|]; [|apply Hpre; lia]. rewrite Hc. destruct (status_at _ _ =? HASH_ENTRY_DELETED); discriminate.
      * exists d'. split; [lia|exact Hrest].
Qed.

(** ** Lists of entries with distinct keys *)

Definition apart (e e' : K * V) : Prop :=
  keys_equal (fst e) (fst e') = false /\ keys_equal (fst e') (fst e) = false.

Definition distinct (l : list (K * V)) : Prop := ForallOrdPairs apart l.

#[global] Instance distinct_proper : Proper (Permutation ==> iff) distinct.
Proof.
  assert (H : forall l l', Permutation l l' -> distinct l -> distinct l').
  { unfold distinct. induction 1 as [|x l l' Hp IH|x y l|l1 l2 l3 _ IH1 _ IH2]; intros Hd; auto.
    - inversion Hd; subst. constructor; [|auto]. eapply Permutation_Forall; eauto.
    - inversion Hd as [|? ? Hy Hd']; subst. inversion Hd' as [|? ? Hx Hd'']; subst. inversion Hy as [|? ? Hyx Hy']; subst.
      repeat constructor; auto; unfold apart in *; tauto. }
  intros l l' Hp. split; apply H; [exact Hp|symmetry; exact Hp].
Qed.

Lemma entries_distinct c : cells_inv c -> distinct (entries c).
Proof.
  intros [_ Hd Hv]. induction c as [|x c IH]; [constructor|].
  assert (IHd : distinct (entries c)).
  { apply IH.
    - intros i j k v k' v' H1 H2 E. assert (S i = S j) by exact (Hd (S i) (S j) k v k' v' H1 H2 E). lia.
    - intros i k v H. exact (Hv (S i) k v H). }
  destruct x as [| |k v]; [exact IHd..|]. constructor; [|exact IHd].
  apply List.Forall_forall. intros [k' v'] Hin. apply list_elem_of_In, entries_elem in Hin. destruct Hin as [j Hj].
  assert (Hf : keys_equal k k' = false).
  { destruct (keys_equal k k') eqn:E; [|reflexivity]. discriminate (Hd 0%nat (S j) k v k' v' eq_refl Hj E). }
  split; cbn [fst]; [exact Hf|]. rewrite keys_equal_sym; [exact Hf| |]; [exact (Hv (S j) _ _ Hj)|exact (Hv 0%nat _ _ eq_refl)].
Qed.

Lemma exists_empty (c : list (cell K V)) :
  (0 < count is_empty c)%nat -> exists i, (i < length c)%nat /\ c !! i = Some Empty.
Proof.
  unfold count. induction c as [|x c IH]; cbn; [lia|]. destruct x; cbn; intros H.
  - exists 0%nat. split; [lia|reflexivity].
  - destruct (IH H) as (i & Hi & E). exists (S i). split; [lia|exact E].
  - destruct (IH H) as (i & Hi & E). exists (S i). split; [lia|exact E].
Qed.

(** ** Rehashing *)

(** Arrays of capacity [cap] that hold the entries [es] and no tombstone. *)
Record fresh_arrays (cap : Z) (a : list K * list V * list Z) (es : list (K * V)) : Prop := {
  fa_keys : Z.of_nat (length (fst (fst a))) = cap;
  fa_values : length (snd (fst a)) = length (fst (fst a));
  fa_status : length (snd a) = length (fst (fst a));
  fa_cells : cells_inv (cells_of (fst (fst a)) (snd (fst a)) (snd a));
  fa_entries : entries (cells_of (fst (fst a)) (snd (fst a)) (snd a)) ≡ₚ es;
  fa_deleted : count is_deleted (cells_of (fst (fst a)) (snd (fst a)) (snd a)) = 0%nat;
  fa_statuses : Forall (fun s => s = HASH_ENTRY_EMPTY \/ s = HASH_ENTRY_OCCUPIED \/ s = HASH_ENTRY_DELETED) (snd a);
}.

Lemma fresh_store cap a es k v :
  0 < cap -> fresh_arrays cap a es -> key_valid k -> distinct ((k, v) :: es) -> Z.of_nat (length es) < cap ->
  exists index, probe_empty (Z.to_nat cap) (snd a) cap (hash_of k mod cap) = Some index /\
    fresh_arrays cap (store_entry a index k v) ((k, v) :: es).
Proof.
  intros Hc Ha Hk Hdis Hlen. destruct a as [[ks vs] st]. destruct Ha as [Hks Hvs Hst Hci Hes Hde Hss]. cbn [fst snd] in *.
  set (c := cells_of ks vs st) in *. assert (Hlc : length c = length ks) by (apply length_cells_of; assumption).
  pose proof (cells_partition c) as Hpart. pose proof (Permutation_length Hes) as Hel.
  destruct (exists_empty c ltac:(lia)) as (i & Hi & Ei).
  destruct (probe_empty_spec (Z.to_nat cap) st ks vs cap k 0 Hks Hvs Hst Hc ltac:(lia) ltac:(lia) ltac:(intros; lia))
    as (d & Hd & Ep & Ec & Hpre); [exists i; split; [lia|exact Ei]|].
  replace (probe cap k 0) with (hash_of k mod cap) in Ep
    by (unfold probe; rewrite Z.add_0_r, Z.mod_mod; lia).
  exists (probe cap k d). split; [exact Ep|]. fold c in Ec, Hpre.
  assert (Hn : Z.of_nat (length c) = cap) by lia.
  assert (Hnew : forall i k' v', c !! i = Some (Full k' v') -> keys_equal k' k = false).
  { intros j k' v' Hj. inversion Hdis as [|? ? Hall _]; subst. rewrite List.Forall_forall in Hall.
    assert (Hin : In (k', v') es).
    { apply list_elem_of_In. rewrite <- Hes. apply entries_elem. eauto. }
    exact (proj2 (Hall _ Hin)). }
  constructor; cbn [store_entry fst snd]; rewrite ?length_insert; auto; rewrite ?cells_store; fold c.
  - pose proof (cells_inv_add c k v d Empty Hci Hk) as Hadd. rewrite Hn in Hadd. apply Hadd; auto; lia.
  - rewrite (entries_insert c _ Empty (Full k v) Ec eq_refl). cbn. constructor. exact Hes.
  - pose proof (count_insert is_deleted c _ Empty (Full k v) Ec) as Hcnt. cbn in Hcnt. lia.
  - apply Forall_insert; [exact Hss|tauto].
Qed.

Lemma rehash_spec cap ks vs st a es :
  0 < cap -> length vs = length ks -> length st = length ks -> fresh_arrays cap a es ->
  Forall (fun s => s = HASH_ENTRY_EMPTY \/ s = HASH_ENTRY_OCCUPIED \/ s = HASH_ENTRY_DELETED) st ->
  Forall (fun e => key_valid (fst e)) (entries (cells_of ks vs st)) ->
  distinct (es ++ entries (cells_of ks vs st)) ->
  Z.of_nat (length es + length (entries (cells_of ks vs st))) <= cap ->
  exists a', rehash ks vs st cap a = Some a' /\ fresh_arrays cap a' (es ++ entries (cells_of ks vs st)).
Proof.
  intros Hc. revert vs st a es. induction ks as [|k ks IH]; intros [|v vs] [|s st] a es Hv Hs Ha Hss Hval Hdis Hlen;
    try discriminate.
  - exists a. split; [reflexivity|]. cbn. rewrite app_nil_r. exact Ha.
  - inversion Hss as [|? ? Hs1 Hss']; subst. cbn [rehash].
    change (cells_of (k :: ks) (v :: vs) (s :: st)) with (decode s (k, v) :: cells_of ks vs st) in *.
    destruct (Z.eqb_spec s HASH_ENTRY_OCCUPIED) as [->|Hne].
    + change (entries (decode HASH_ENTRY_OCCUPIED (k, v) :: cells_of ks vs st))
        with ((k, v) :: entries (cells_of ks vs st)) in *.
      inversion Hval as [|? ? Hk Hval']; subst. cbn [fst] in Hk. cbn [length] in Hlen.
      rewrite <- Permutation_middle in Hdis.
      assert (Hd1 : distinct ((k, v) :: es)).
      { inversion Hdis as [|? ? H1 H2]; subst. apply Forall_app in H1. destruct H1 as [H1 _]. constructor; [exact H1|].
        clear -H2. induction es as [|e es IH]; [constructor|]. inversion H2 as [|? ? H3 H4]; subst.
        apply Forall_app in H3. constructor; [apply H3|apply IH, H4]. }
      destruct (fresh_store cap a es k v Hc Ha Hk Hd1 ltac:(lia)) as (index & -> & Ha').
      destruct (IH vs st _ ((k, v) :: es) ltac:(cbn in Hv; lia) ltac:(cbn in Hs; lia) Ha' Hss' Hval' Hdis
        ltac:(cbn [length]; lia)) as (a' & -> & Hfin).
      exists a'. split; [reflexivity|]. destruct Hfin as [? ? ? ? He ? ?]. constructor; auto.
      rewrite He. cbn [app]. apply Permutation_middle.
    + assert (E : entries (decode s (k, v) :: cells_of ks vs st) = entries (cells_of ks vs st))
        by (destruct Hs1 as [->|[->| ->]]; [reflexivity|contradiction|reflexivity]).
      rewrite E in *. apply IH; auto; cbn in *; lia.
Qed.

(** ** Searching *)

Definition matches (key : K) (e : K * V) : bool := keys_equal (fst e) key.

(** What [find_slot] returns, in terms of the entries. *)
Inductive slot_case (t : hash_table K V) (key : K) : Prop :=
| slot_present i k v :
    find_slot zero_key t key = (Z.of_nat i, -1) -> cells t !! i = Some (Full k v) ->
    keys_equal k key = true -> slot_case t key
| slot_absent tomb :
    find_slot zero_key t key = (-1, tomb) ->
    (forall i k v, cells t !! i = Some (Full k v) -> keys_equal k key = false) ->
    (tomb = -1 \/ exists d, 0 <= d < capacity t /\ tomb = probe (capacity t) key d /\
       cell_at (cells t) tomb = Some Deleted /\
       forall e, 0 <= e < d -> cell_at (cells t) (probe (capacity t) key e) <> Some Empty) ->
    slot_case t key.

Lemma find_slot_cases t key : table_inv t -> key_valid key -> slot_case t key.
Proof.
  intros Ht Hk. pose proof (find_slot_spec t key Ht) as Hr. pose proof (ti_capacity t Ht).
  inversion Hr as [d k v Hd Hc He E|stop tomb Hs Hstop Hseen Htomb E]; symmetry in E.
  - apply (slot_present t key (Z.to_nat (probe (capacity t) key d)) k v); auto.
    rewrite Z2Nat.id by (apply probe_range; lia). exact E.
  - apply (slot_absent t key tomb E).
    + intros i k v Hi. destruct (keys_equal k key) eqn:Ek; [|reflexivity]. exfalso.
      rewrite E in Hr. pose proof (search_complete t key i k v _ Ht Hk Hr Hi Ek) as X. injection X as X _. lia.
    + destruct Htomb as [|(d & Hd & Et & Hc)]; [auto|]. right. exists d. split; [lia|]. split; [exact Et|].
      split; [exact Hc|]. intros e He. destruct (Hseen e ltac:(lia)) as (c & Ec & Hne & _). congruence.
Qed.

Lemma absent_entries c key :
  (forall i k v, c !! i = Some (Full k v) -> keys_equal k key = false) ->
  Forall (fun e => matches key e = false) (entries c).
Proof.
  intros H. apply List.Forall_forall. intros [k v] Hin. apply list_elem_of_In, entries_elem in Hin.
  destruct Hin as [i Hi]. exact (H i k v Hi).
Qed.

(** The only matching entry is the one found. *)
Lemma present_entries c key i k v :
  cells_inv c -> key_valid key -> c !! i = Some (Full k v) -> keys_equal k key = true ->
  exists l r, entries c = l ++ (k, v) :: r /\
    (forall y, entries (<[i:=y]> c) = l ++ (match entry y with Some e => [e] | None => [] end) ++ r) /\
    Forall (fun e => matches key e = false) l /\ Forall (fun e => matches key e = false) r.
Proof.
  intros Hi Hk Hc He. destruct (split_at c i _ Hc) as (l & r & -> & <-).
  exists (entries l), (entries r). unfold entries.
  split; [rewrite omap_app; reflexivity|]. split.
  { intros y. rewrite insert_app_r_alt, Nat.sub_diag by lia. rewrite omap_app. cbn. destruct (entry y); reflexivity. }
  assert (Hother : forall j k' v', j <> length l -> (l ++ Full k v :: r) !! j = Some (Full k' v') -> keys_equal k' key = false).
  { intros j k' v' Hj Hl. destruct (keys_equal k' key) eqn:E; [exfalso|reflexivity]. apply Hj.
    destruct Hi as [_ Hd Hv]. pose proof (Hv _ _ _ Hc) as Vk. pose proof (Hv _ _ _ Hl) as Vk'.
    apply (Hd _ _ _ _ _ _ Hl Hc). assert (E1 : keys_equal key k' = true) by (rewrite keys_equal_sym; auto).
    rewrite (keys_equal_trans key k' k), keys_equal_sym by auto. exact He. }
  split; apply absent_entries; intros j k' v' Hj.
  - apply (Hother j k' v'); [pose proof (lookup_lt_Some _ _ _ Hj); lia|]. rewrite lookup_app_l; [exact Hj|].
    exact (lookup_lt_Some _ _ _ Hj).
  - apply (Hother (S (length l) + j)%nat k' v'); [lia|]. rewrite lookup_app_r by lia.
    replace (S (length l) + j - length l)%nat with (S j) by lia. exact Hj.
Qed.

(** ** The operations on entries *)

Definition spec_get (m : list (K * V)) (key : K) : option V := option_map snd (List.find (matches key) m).

Definition spec_set (m : list (K * V)) (key : K) (v : V) : list (K * V) :=
  if existsb (matches key) m then map (fun e => if matches key e then (fst e, v) else e) m
  else (key, v) :: m.

Definition spec_remove (m : list (K * V)) (key : K) : list (K * V) :=
  List.filter (fun e => negb (matches key e)) m.

Lemma existsb_absent key (m : list (K * V)) :
  Forall (fun e => matches key e = false) m -> existsb (matches key) m = false.
Proof. induction 1 as [|e m He _ IH]; [reflexivity|]. cbn. rewrite He. exact IH. Qed.

Lemma map_absent key v (m : list (K * V)) :
  Forall (fun e => matches key e = false) m ->
  map (fun e => if matches key e then (fst e, v) else e) m = m.
Proof. induction 1 as [|e m He _ IH]; [reflexivity|]. cbn. rewrite He, IH. reflexivity. Qed.

Lemma filter_absent key (m : list (K * V)) :
  Forall (fun e => matches key e = false) m -> List.filter (fun e => negb (matches key e)) m = m.
Proof. induction 1 as [|e m He _ IH]; [reflexivity|]. cbn. rewrite He. cbn. rewrite IH. reflexivity. Qed.

Lemma find_absent key (m m' : list (K * V)) :
  Forall (fun e => matches key e = false) m -> List.find (matches key) (m ++ m') = List.find (matches key) m'.
Proof. induction 1 as [|e m He _ IH]; [reflexivity|]. cbn. rewrite He. exact IH. Qed.

End Invariant.
