(* ===== verification/HashTableRuns.v ===== *)
(** * Hash-table operations refine a finite map

    Every operation of the table as an operation on its entries, then whole
    sequences of operations against the association-list specification. *)

From Stdlib Require Import ZArith List Lia Bool.
From stdpp Require Import base list numbers sorting.
From S2P Require Import Prelude Effects HashTable HashTableSpec.
Import ListNotations.
Open Scope Z_scope.
Open Scope effect_scope.

Section Ops.
  Context {K V : Type} {HK : HashKey K} {KL : HashKeyLaws K} (zero_key : K) (zero_val : V).

(** The counters never leave [size_t]. *)
Lemma counters_bounded (t : hash_table K V) :
  table_inv t -> 0 <= size t /\ 0 <= tombstones t /\ size t + tombstones t <= capacity t.
Proof.
  intros Ht. pose proof (cells_partition (cells t)). pose proof (length_cells t Ht).
  rewrite (ti_size t Ht), (ti_tombstones t Ht). lia.
Qed.

(** ** Lookup *)

Lemma get_spec (t : hash_table K V) key :
  table_inv t -> key_valid key ->
  hash_table_get zero_key zero_val t key = spec_get (entries (cells t)) key /\
  hash_table_has_key zero_key t key = existsb (matches key) (entries (cells t)).
Proof.
  intros Ht Hk. unfold hash_table_get, hash_table_has_key, spec_get.
  destruct (find_slot_cases zero_key zero_val t key Ht Hk) as [i k v Hf Hc He|tomb Hf Habs _]; rewrite Hf.
  - destruct (present_entries (cells t) key i k v (ti_cells t Ht) Hk Hc He) as (l & r & -> & _ & Hl & Hr).
    assert (Em : matches key (k, v) = true) by exact He.
    rewrite find_absent by exact Hl. rewrite existsb_app. cbn [List.find existsb].
    rewrite Em. cbn [orb]. rewrite orb_true_r. cbn [fst option_map snd].
    destruct (Z.ltb_spec (Z.of_nat i) 0); [lia|]. split; [|apply Z.geb_le; lia]. f_equal.
    unfold value_at. rewrite Nat2Z.id. unfold cells in Hc. rewrite cells_of_lookup in Hc.
    destruct (status t !! i) as [s|]; [|discriminate]. destruct (keys t !! i); [|discriminate].
    destruct (values t !! i) as [w|] eqn:Ev; [|discriminate]. unfold decode in Hc.
    destruct (s =? _); [discriminate|]. destruct (s =? _); [discriminate|]. injection Hc as _ <-.
    pose proof (lookup_lt_Some _ _ _ Ev) as Hi. rewrite (lookup_nth _ _ zero_val Hi) in Ev. congruence.
  - pose proof (absent_entries _ key Habs) as Ha. rewrite existsb_absent by exact Ha.
    rewrite <- (app_nil_r (entries (cells t))), find_absent by exact Ha. auto.
Qed.

(** ** The specification respects the order of entries *)

Lemma existsb_permutation (f : K * V -> bool) m m' : m ≡ₚ m' -> existsb f m = existsb f m'.
Proof.
  intros Hp. apply eq_true_iff_eq. rewrite !existsb_exists.
  split; intros (e & He & Hf); exists e; (split; [|exact Hf]); [rewrite <- Hp|rewrite Hp]; exact He.
Qed.

#[global] Instance spec_set_proper : Proper (Permutation ==> eq ==> eq ==> Permutation) (spec_set (K := K) (V := V)).
Proof.
  intros m m' Hp k ? <- v ? <-. unfold spec_set. rewrite (existsb_permutation _ m m' Hp).
  destruct (existsb _ m'); [apply Permutation_map, Hp|constructor; exact Hp].
Qed.

#[global] Instance spec_remove_proper : Proper (Permutation ==> eq ==> Permutation) (spec_remove (K := K) (V := V)).
Proof.
  intros m m' Hp k ? <-. unfold spec_remove. induction Hp as [|x l l' _ IH|x y l|l1 l2 l3 _ IH1 _ IH2]; cbn.
  - reflexivity.
  - destruct (negb _); [constructor|]; exact IH.
  - destruct (negb _), (negb _); try reflexivity. constructor.
  - etransitivity; eassumption.
Qed.

(** ** Removal and clearing *)

Lemma remove_spec (t : hash_table K V) key :
  table_inv t -> key_valid key ->
  let '(found, t') := hash_table_remove zero_key t key in
  found = existsb (matches key) (entries (cells t)) /\ table_inv t' /\
  entries (cells t') = spec_remove (entries (cells t)) key /\
  capacity t' = capacity t /\ size t' + tombstones t' = size t + tombstones t.
Proof.
  intros Ht Hk. pose proof (counters_bounded t Ht) as Hb. pose proof (ti_capacity t Ht) as Hcap.
  unfold MAX_CAPACITY in Hcap. change (2 ^ 50) with 1125899906842624 in Hcap. unfold hash_table_remove.
  destruct (find_slot_cases zero_key zero_val t key Ht Hk) as [i k v Hf Hc He|tomb Hf Habs _]; rewrite Hf.
  - destruct (Z.ltb_spec (Z.of_nat i) 0); [lia|]. rewrite Nat2Z.id.
    destruct (present_entries (cells t) key i k v (ti_cells t Ht) Hk Hc He) as (l & r & El & Hup & Hl & Hr).
    assert (Em : matches key (k, v) = true) by exact He.
    assert (Hsz : size t = Z.of_nat (length l + S (length r)))
      by (rewrite (ti_size t Ht), El, length_app; reflexivity).
    split; [rewrite El, existsb_app; cbn [existsb]; rewrite Em; cbn [orb]; rewrite orb_true_r; reflexivity|].
    pose proof (cells_delete (keys t) (values t) (status t) i (ti_values t Ht) (ti_status t Ht)) as Ecells.
    assert (Ee : entries (<[i:=Deleted]> (cells t)) = l ++ r) by exact (Hup Deleted).
    split; [|split; [|cbn; rewrite !u64_small by lia; split; [reflexivity|lia]]].
    + constructor; cbn [capacity size tombstones keys values status]; rewrite ?length_insert;
        try apply Ht; unfold cells; cbn [capacity size tombstones keys values status]; rewrite ?Ecells.
      * exact (cells_inv_update _ i k v Deleted (ti_cells t Ht) Hc (or_introl eq_refl)).
      * change (cells_of _ _ _) with (cells t). rewrite Ee, length_app, u64_small by lia. lia.
      * change (cells_of _ _ _) with (cells t). rewrite u64_small by lia.
        pose proof (count_insert is_deleted (cells t) i _ Deleted Hc) as Hcnt. cbn in Hcnt.
        rewrite (ti_tombstones t Ht). lia.
      * apply Forall_insert; [apply Ht|tauto].
    + unfold cells; cbn [keys values status]. rewrite Ecells. change (cells_of _ _ _) with (cells t).
      rewrite Ee, El. unfold spec_remove. rewrite List.filter_app. cbn [List.filter]. rewrite Em. cbn [negb].
      rewrite !filter_absent by assumption. reflexivity.
  - cbn [Z.ltb Z.compare]. pose proof (absent_entries _ key Habs) as Ha. rewrite existsb_absent by exact Ha.
    unfold spec_remove. rewrite filter_absent by exact Ha. auto.
Qed.

Lemma cells_all_empty ks vs n :
  length ks = n -> length vs = n -> cells_of (K := K) (V := V) ks vs (repeat HASH_ENTRY_EMPTY n) = repeat Empty n.
Proof.
  revert ks vs. induction n as [|n IH]; intros [|k ks] [|v vs] Hk Hv; try discriminate; [reflexivity|].
  cbn [repeat]. change (cells_of (k :: ks) (v :: vs) (HASH_ENTRY_EMPTY :: repeat HASH_ENTRY_EMPTY n))
    with (Empty :: cells_of ks vs (repeat HASH_ENTRY_EMPTY n)). f_equal. apply IH; cbn in *; lia.
Qed.

Lemma empty_cells_facts n :
  cells_inv (repeat (Empty (K := K) (V := V)) n) /\ entries (repeat (Empty (K := K) (V := V)) n) = [] /\
  count is_deleted (repeat (Empty (K := K) (V := V)) n) = 0%nat.
Proof.
  assert (H : forall i k v, repeat (Empty (K := K) (V := V)) n !! i <> Some (Full k v)).
  { intros i k v E. apply list_elem_of_lookup_2, list_elem_of_In, repeat_spec in E. discriminate. }
  split; [constructor; intros; exfalso; eapply H; eauto|].
  split; induction n; cbn; auto; apply IHn; intros i; exact (H (S i)).
Qed.

Lemma all_empty_statuses n :
  Forall (fun s => s = HASH_ENTRY_EMPTY \/ s = HASH_ENTRY_OCCUPIED \/ s = HASH_ENTRY_DELETED)
    (repeat HASH_ENTRY_EMPTY n).
Proof. induction n; constructor; auto. Qed.

Lemma clear_spec (t : hash_table K V) :
  table_inv t -> table_inv (hash_table_clear t) /\ entries (cells (hash_table_clear t)) = [].
Proof.
  intros Ht. pose proof (ti_keys t Ht). pose proof (ti_values t Ht).
  assert (E : cells (hash_table_clear t) = repeat Empty (Z.to_nat (capacity t)))
    by (apply cells_all_empty; cbn; lia).
  destruct (empty_cells_facts (Z.to_nat (capacity t))) as (H1 & H2 & H3).
  split; [|rewrite E; exact H2]. constructor; cbn [hash_table_clear capacity size tombstones keys values status];
    try apply Ht; rewrite ?repeat_length; try lia; try (rewrite E; auto; rewrite ?H2, ?H3; reflexivity).
  apply all_empty_statuses.
Qed.

(** ** Allocation, growth and insertion *)

  Context {St : Type} {A : Arena St} {L : ArenaLaws St} {G : Granted}.

Lemma allocate_arrays_spec n :
  0 <= n <= 2 * MAX_CAPACITY -> wp (allocate_arrays n) (fun ok => ok = false -> granted -> False).
Proof.
  unfold MAX_CAPACITY. change (2 * 2 ^ 50) with 2251799813685248. intros Hn.
  unfold allocate_arrays, sizeof_value. rewrite !u64_small by lia.
  assert (Ha : forall m, 0 <= m <= 16 * 2251799813685248 -> wp (allocate m) (or_null True (fun _ => True)))
    by (intros m Hm; apply allocate_spec; change (2 ^ 61) with 2305843009213693952; lia).
  eapply wp_call; [apply Ha; lia|]. intros pk Hk. eapply wp_call; [apply Ha; lia|]. intros pv Hv.
  eapply wp_call; [apply Ha; lia|]. intros ps Hs. apply wp_ret. intros Hok g.
  destruct pk; [|exact (Hk g I)]. destruct pv; [|exact (Hv g I)]. destruct ps; [discriminate|exact (Hs g I)].
Qed.

Lemma fresh_zeroed cap :
  0 < cap -> fresh_arrays cap (zeroed_arrays zero_key zero_val (Z.to_nat cap)) [].
Proof.
  intros Hc. destruct (empty_cells_facts (Z.to_nat cap)) as (H1 & H2 & H3).
  assert (E : cells_of (repeat zero_key (Z.to_nat cap)) (repeat zero_val (Z.to_nat cap))
                (repeat HASH_ENTRY_EMPTY (Z.to_nat cap)) = repeat Empty (Z.to_nat cap))
    by (apply cells_all_empty; apply repeat_length).
  constructor; cbn [zeroed_arrays fst snd]; rewrite ?repeat_length, ?E; auto; [lia|rewrite H2; reflexivity|].
  apply all_empty_statuses.
Qed.

(** What a fresh set of arrays makes of a table. *)
Lemma fresh_table cap (ks : list K) (vs : list V) st es :
  0 < cap <= MAX_CAPACITY -> fresh_arrays cap (ks, vs, st) es ->
  let t := mkTable cap (Z.of_nat (length es)) 0 ks vs st in table_inv t /\ entries (cells t) ≡ₚ es.
Proof.
  intros Hc [Hk Hv Hs Hci He Hd Hss] t. cbn [fst snd] in *. split; [|exact He].
  constructor; auto; cbn [t size tombstones]; [|change (cells t) with (cells_of ks vs st); rewrite Hd; reflexivity].
  change (cells t) with (cells_of ks vs st). rewrite (Permutation_length He). reflexivity.
Qed.

Lemma resize_spec (t : hash_table K V) new :
  table_inv t -> capacity t <= new <= MAX_CAPACITY ->
  wp (hash_table_resize zero_key zero_val t new) (fun r =>
    if fst r then table_inv (snd r) /\ entries (cells (snd r)) ≡ₚ entries (cells t) /\
                  capacity (snd r) = new /\ size (snd r) = size t /\ tombstones (snd r) = 0
    else snd r = t /\ (granted -> False)).
Proof.
  intros Ht Hn. pose proof (ti_capacity t Ht) as Hcap. pose proof (counters_bounded t Ht) as Hb.
  unfold hash_table_resize. eapply wp_call; [apply allocate_arrays_spec; lia|]. intros ok Hok.
  destruct ok; cbn [negb]; [|apply wp_ret; cbn; auto].
  destruct (rehash_spec zero_key zero_val new (keys t) (values t) (status t) _ [] ltac:(lia) (ti_values t Ht) (ti_status t Ht)
    (fresh_zeroed new ltac:(lia)) (ti_statuses t Ht)) as ([[ks vs] st] & E & Hf).
  - apply List.Forall_forall. intros [k v] Hin. apply list_elem_of_In, entries_elem in Hin.
    destruct Hin as [i Hi]. exact (ci_valid _ (ti_cells t Ht) _ _ _ Hi).
  - exact (entries_distinct _ (ti_cells t Ht)).
  - change (cells_of _ _ _) with (cells t). cbn [length Nat.add]. rewrite <- (ti_size t Ht). lia.
  - rewrite E. eapply (wp_call _ _ (eq (ks, vs, st))); [apply wp_fuelled; reflexivity|]. intros a <-.
    apply wp_ret. cbn [fst snd]. change (cells_of _ _ _) with (cells t) in Hf. cbn [app] in Hf.
    destruct (fresh_table new ks vs st _ ltac:(lia) Hf) as [H1 H2].
    rewrite <- (ti_size t Ht) in H1, H2. auto.
Qed.

(** Overwriting the value of a key that is present. *)
Lemma set_present (t : hash_table K V) key v i k w :
  table_inv t -> key_valid key -> cells t !! i = Some (Full k w) -> keys_equal k key = true ->
  let t' := mkTable (capacity t) (size t) (tombstones t) (keys t) (<[i:=v]> (values t)) (status t) in
  table_inv t' /\ entries (cells t') = spec_set (entries (cells t)) key v.
Proof.
  intros Ht Hk Hc He t'.
  destruct (present_entries (cells t) key i k w (ti_cells t Ht) Hk Hc He) as (l & r & El & Hup & Hl & Hr).
  assert (Em : matches key (k, w) = true) by exact He.
  assert (Ec : cells t' = <[i := Full k v]> (cells t)) by exact (cells_value _ _ _ i k v w Hc).
  assert (Ee : entries (cells t') = l ++ (k, v) :: r) by (rewrite Ec, Hup; reflexivity).
  split.
  - constructor; cbn [t' capacity size tombstones keys values status]; rewrite ?length_insert; try apply Ht.
    + rewrite Ec. exact (cells_inv_update _ i k w _ (ti_cells t Ht) Hc (or_intror (ex_intro _ v eq_refl))).
    + rewrite Ee, (ti_size t Ht), El, !length_app. reflexivity.
    + rewrite Ec. pose proof (count_insert is_deleted (cells t) i _ (Full k v) Hc) as Hcnt. cbn in Hcnt.
      rewrite (ti_tombstones t Ht). lia.
  - rewrite Ee, El. unfold spec_set. rewrite existsb_app. cbn [existsb]. rewrite Em. cbn [orb]. rewrite orb_true_r.
    rewrite map_app. cbn [map]. rewrite Em, !map_absent by assumption. reflexivity.
Qed.

(** Adding a new key at the end of its probe. *)
Lemma set_absent (t : hash_table K V) key v d x tombs :
  table_inv t -> key_valid key -> 0 <= d < capacity t ->
  (forall i k w, cells t !! i = Some (Full k w) -> keys_equal k key = false) ->
  cell_at (cells t) (probe (capacity t) key d) = Some x -> entry x = None ->
  (forall e, 0 <= e < d -> cell_at (cells t) (probe (capacity t) key e) <> Some Empty) ->
  tombs = tombstones t - (if is_deleted x then 1 else 0) ->
  let i := Z.to_nat (probe (capacity t) key d) in
  let t' := mkTable (capacity t) (size t + 1) tombs (<[i:=key]> (keys t)) (<[i:=v]> (values t))
              (<[i:=HASH_ENTRY_OCCUPIED]> (status t)) in
  table_inv t' /\ entries (cells t') ≡ₚ spec_set (entries (cells t)) key v.
Proof.
  intros Ht Hk Hd Habs Hx Hent Hpre -> i t'. pose proof (length_cells t Ht) as Hlen.
  assert (Ec : cells t' = <[i := Full key v]> (cells t)) by exact (cells_store _ _ _ i key v).
  assert (Ee : entries (cells t') ≡ₚ (key, v) :: entries (cells t))
    by (rewrite Ec; exact (entries_insert (cells t) i x (Full key v) Hx Hent)).
  split.
  - constructor; cbn [t' capacity size tombstones keys values status]; rewrite ?length_insert; try apply Ht.
    + rewrite Ec. pose proof (cells_inv_add (cells t) key v d x (ti_cells t Ht) Hk) as Hadd. rewrite Hlen in Hadd.
      apply Hadd; auto.
    + rewrite (Permutation_length Ee), (ti_size t Ht). cbn [length]. lia.
    + rewrite Ec. pose proof (count_insert is_deleted (cells t) i x (Full key v) Hx) as Hcnt. cbn [is_deleted] in Hcnt.
      rewrite (ti_tombstones t Ht). destruct (is_deleted x); lia.
    + apply Forall_insert; [apply Ht|tauto].
  - rewrite Ee. unfold spec_set. rewrite (existsb_absent key _ (absent_entries _ _ Habs)). reflexivity.
Qed.

(** How much one insertion can grow a table. *)
Definition grows_to (t t' : hash_table K V) : Prop :=
  size t' + tombstones t' <= size t + tombstones t + 1 /\
  (capacity t' = capacity t \/
   capacity t' = 2 * capacity t /\ 3 * capacity t < 4 * (size t + tombstones t)).

(** The second half of [hash_table_set], on a table with an empty slot. *)
Lemma insert_spec (t : hash_table K V) key v :
  table_inv t -> key_valid key -> size t + tombstones t < capacity t ->
  wp (let '(slot, tombstone_slot) := find_slot zero_key t key in
      if slot >=? 0 then
        ret (true, mkTable (capacity t) (size t) (tombstones t) (keys t)
                     (<[Z.to_nat slot := v]> (values t)) (status t))
      else
        let! it := (if tombstone_slot >=? 0 then ret (tombstone_slot, u64 (tombstones t - 1))
                    else
                      let! i := fuelled (probe_empty (Z.to_nat (capacity t)) (status t) (capacity t)
                                           (hash_of key mod capacity t)) in
                      ret (i, tombstones t)) in
        let '(insert_index, tombs) := it in
        let '(ks, vs, st) := store_entry (keys t, values t, status t) insert_index key v in
        ret (true, mkTable (capacity t) (u64 (size t + 1)) tombs ks vs st))
    (fun r => fst r = true /\ table_inv (snd r) /\
       entries (cells (snd r)) ≡ₚ spec_set (entries (cells t)) key v /\
       capacity (snd r) = capacity t /\
       size (snd r) + tombstones (snd r) <= size t + tombstones t + 1).
Proof.
  intros Ht Hk Hroom. pose proof (counters_bounded t Ht) as Hb. pose proof (ti_capacity t Ht) as Hcap.
  unfold MAX_CAPACITY in Hcap. change (2 ^ 50) with 1125899906842624 in Hcap.
  destruct (find_slot_cases zero_key zero_val t key Ht Hk) as [i k w Hf Hc He|tomb Hf Habs Htomb]; rewrite Hf.
  - replace (Z.of_nat i >=? 0) with true by (symmetry; apply Z.geb_le; lia). rewrite Nat2Z.id.
    destruct (set_present t key v i k w Ht Hk Hc He) as [H1 H2].
    apply wp_ret. cbn [fst snd capacity size tombstones]. split; [reflexivity|]. split; [exact H1|].
    split; [rewrite H2; reflexivity|]. split; [reflexivity|lia].
  - change (-1 >=? 0) with false. cbn iota. destruct Htomb as [->|(d & Hd & -> & Hx & Hpre)].
    + pose proof (cells_partition (cells t)) as Hpart. pose proof (length_cells t Ht) as Hlen.
      rewrite (ti_size t Ht), (ti_tombstones t Ht) in Hroom.
      destruct (exists_empty (cells t) ltac:(lia)) as (j & Hj & Ej).
      destruct (probe_empty_spec zero_key zero_val (Z.to_nat (capacity t)) (status t) (keys t) (values t) (capacity t) key 0
        (ti_keys t Ht) (ti_values t Ht) (ti_status t Ht) ltac:(lia) ltac:(lia) ltac:(lia) ltac:(intros; lia))
        as (d & Hd & Ep & Ec & Hpre); [exists j; split; [pose proof (ti_keys t Ht); lia|exact Ej]|].
      replace (probe (capacity t) key 0) with (hash_of key mod capacity t) in Ep
        by (unfold probe; rewrite Z.add_0_r, Z.mod_mod; lia).
      rewrite Ep. change (-1 >=? 0) with false. cbn iota.
      eapply (wp_call _ _ (eq (probe (capacity t) key d, tombstones t)));
        [eapply (wp_call _ _ (eq (probe (capacity t) key d))); [apply wp_fuelled; reflexivity|];
         intros ? <-; apply wp_ret; reflexivity|].
      intros it <-. cbn [store_entry]. apply wp_ret. cbn [fst snd]. rewrite u64_small by lia.
      destruct (set_absent t key v d Empty (tombstones t) Ht Hk ltac:(lia) Habs Ec eq_refl Hpre ltac:(cbn; lia)) as [H1 H2].
      split; [reflexivity|]. split; [exact H1|]. split; [exact H2|]. split; [reflexivity|cbn; lia].
    + pose proof (probe_range (capacity t) key d ltac:(lia)) as Hr.
      replace (probe (capacity t) key d >=? 0) with true by (symmetry; apply Z.geb_le; lia).
      assert (Hpos : 0 < tombstones t).
      { rewrite (ti_tombstones t Ht). pose proof (count_insert is_deleted (cells t) _ Deleted Empty Hx) as Hcnt.
        cbn in Hcnt. lia. }
      eapply (wp_call _ _ (eq (probe (capacity t) key d, tombstones t - 1)));
        [apply wp_ret; rewrite u64_small by lia; reflexivity|].
      intros it <-. cbn [store_entry]. apply wp_ret. cbn [fst snd]. rewrite u64_small by lia.
      destruct (set_absent t key v d Deleted (tombstones t - 1) Ht Hk Hd Habs Hx eq_refl Hpre eq_refl) as [H1 H2].
      split; [reflexivity|]. split; [exact H1|]. split; [exact H2|]. split; [reflexivity|cbn; lia].
Qed.

Lemma set_spec (t : hash_table K V) key v :
  table_inv t -> key_valid key -> 2 * capacity t <= MAX_CAPACITY ->
  wp (hash_table_set zero_key zero_val t key v) (fun r =>
    if fst r then table_inv (snd r) /\ entries (cells (snd r)) ≡ₚ spec_set (entries (cells t)) key v /\
                  grows_to t (snd r)
    else snd r = t /\ (granted -> False)).
Proof.
  intros Ht Hk Hmax. pose proof (counters_bounded t Ht) as Hb. pose proof (ti_capacity t Ht) as Hcap.
  unfold MAX_CAPACITY in *. change (2 ^ 50) with 1125899906842624 in *.
  unfold hash_table_set. eapply wp_call; [apply wp_is_null_arena|]. intros ? ->.
  rewrite !u64_small by lia. unfold overloaded. rewrite Z.gtb_ltb.
  destruct (Z.ltb_spec (3 * capacity t) (4 * (size t + tombstones t))) as [Hover|Hover].
  - eapply wp_call; [apply resize_spec; [exact Ht|unfold MAX_CAPACITY; change (2 ^ 50) with 1125899906842624; lia]|].
    intros [[|] t1]; cbn [fst snd negb]; [|intros [-> Hg]; apply wp_ret; cbn; auto].
    intros (H1 & H2 & H3 & H4 & H5).
    eapply wp_mono; [|apply (insert_spec t1 key v H1 Hk); lia].
    intros [ok t2] (-> & H6 & H7 & H8 & H9). cbn [fst snd] in *. split; [exact H6|].
    split; [rewrite H7, H2; reflexivity|]. split; [lia|]. right. split; [lia|exact Hover].
  - eapply (wp_call _ _ (eq (true, t))); [apply wp_ret; reflexivity|]. intros r <-. cbn [negb].
    eapply wp_mono; [|apply (insert_spec t key v Ht Hk); lia].
    intros [ok t2] (-> & H6 & H7 & H8 & H9). cbn [fst snd] in *. split; [exact H6|].
    split; [exact H7|]. split; [lia|]. left. exact H8.
Qed.

(** ** Creation *)

Lemma empty_table_inv n :
  0 < n <= MAX_CAPACITY ->
  table_inv (empty_table zero_key zero_val n) /\ entries (cells (empty_table zero_key zero_val n)) = [].
Proof.
  intros Hn. destruct (fresh_table n _ _ _ [] Hn (fresh_zeroed n ltac:(lia))) as [H1 H2].
  split; [exact H1|]. apply Permutation_nil. symmetry. exact H2.
Qed.

Lemma table_create_spec n :
  0 < n <= MAX_CAPACITY ->
  wp (arena_allocate_hash_table zero_key zero_val n)
    (or_null True (fun t => t = empty_table zero_key zero_val n)).
Proof.
  intros Hn. unfold arena_allocate_hash_table. eapply wp_call; [apply wp_is_null_arena|]. intros ? ->.
  destruct (Z.eqb_spec n 0); [lia|]. cbn [orb].
  apply (wp_check _ _ _ _ _ _ (allocate_spec sizeof_hash_table ltac:(unfold sizeof_hash_table; lia))); [auto|].
  intros _ _. eapply wp_call; [apply allocate_arrays_spec; lia|]. intros ok Hok.
  apply wp_ret. destruct ok; cbn; auto.
Qed.

Lemma create_with_header_spec :
  wp (arena_hash_table_create_with_header zero_key zero_val)
    (or_null True (fun t => t = empty_table zero_key zero_val HASH_TABLE_INITIAL_CAPACITY)).
Proof.
  unfold arena_hash_table_create_with_header. eapply wp_call; [apply wp_is_null_arena|]. intros ? ->.
  apply (wp_check _ _ _ _ _ _ (allocate_with_header_spec sizeof_hash_table HEAP_SUBTYPE_HASH 0
    ltac:(unfold sizeof_hash_table; lia))); [unfold sizeof_hash_table; lia|].
  intros _ _. eapply wp_call; [apply allocate_arrays_spec; unfold HASH_TABLE_INITIAL_CAPACITY, MAX_CAPACITY; lia|].
  intros ok Hok. apply wp_ret. destruct ok; cbn; auto.
Qed.

(** ** Listing *)

(** The list built is a prefix, the whole of it when every cell was granted. *)
Lemma collect_spec {X} (f : K * V -> X) (ks : list K) (vs : list V) st (xs : list X) :
  length vs = length ks -> length st = length ks ->
  Forall (fun s => s = HASH_ENTRY_EMPTY \/ s = HASH_ENTRY_OCCUPIED \/ s = HASH_ENTRY_DELETED) st ->
  xs = map f (zip ks vs) ->
  wp (collect xs st) (fun l => exists rest, map f (entries (cells_of ks vs st)) = l ++ rest /\
                               (granted -> rest = [])).
Proof.
  intros Hv Hs Hst ->. revert vs st Hv Hs Hst. induction ks as [|k ks IH]; intros [|v vs] [|s st] Hv Hs Hst; try discriminate.
  - apply wp_ret. exists []. auto.
  - inversion Hst as [|? ? Hs1 Hst']; subst. specialize (IH vs st ltac:(cbn in Hv; lia) ltac:(cbn in Hs; lia) Hst').
    change (cells_of (k :: ks) (v :: vs) (s :: st)) with (decode s (k, v) :: cells_of ks vs st).
    change (map f (zip (k :: ks) (v :: vs))) with (f (k, v) :: map f (zip ks vs)). cbn [collect].
    destruct (Z.eqb_spec s HASH_ENTRY_OCCUPIED) as [->|Hne].
    + change (entries (decode HASH_ENTRY_OCCUPIED (k, v) :: cells_of ks vs st))
        with ((k, v) :: entries (cells_of ks vs st)). cbn [map].
      eapply wp_call; [apply allocate_cons_spec|]. intros [p|] Hp.
      * eapply wp_call; [exact IH|]. intros l (rest & El & Hg). apply wp_ret. exists rest. rewrite El. auto.
      * apply wp_ret. eexists. split; [reflexivity|]. intros g. destruct (Hp g I).
    + assert (E : entries (decode s (k, v) :: cells_of ks vs st) = entries (cells_of ks vs st))
        by (destruct Hs1 as [->|[->| ->]]; [reflexivity|contradiction|reflexivity]).
      rewrite E. exact IH.
Qed.

Lemma map_fst_zip_eq (ks : list K) (vs : list V) : length vs = length ks -> ks = map fst (zip ks vs).
Proof. revert vs. induction ks as [|k ks IH]; intros [|v vs] H; cbn in *; try lia; auto. f_equal. apply IH. lia. Qed.

Lemma map_snd_zip_eq (ks : list K) (vs : list V) : length vs = length ks -> vs = map snd (zip ks vs).
Proof. revert vs. induction ks as [|k ks IH]; intros [|v vs] H; cbn in *; try lia; auto. f_equal. apply IH. lia. Qed.

Lemma listing_spec (t : hash_table K V) :
  table_inv t ->
  wp (hash_table_keys t) (fun l => exists rest, map fst (entries (cells t)) = l ++ rest /\ (granted -> rest = [])) /\
  wp (hash_table_values t) (fun l => exists rest, map snd (entries (cells t)) = l ++ rest /\ (granted -> rest = [])).
Proof.
  intros Ht. unfold hash_table_keys, hash_table_values.
  split; (eapply wp_call; [apply wp_is_null_arena|]); intros ? ->; cbn [orb];
    (destruct (Z.eqb_spec (size t) 0) as [E|_];
      [apply wp_ret; exists []; rewrite (ti_size t Ht) in E;
       destruct (entries (cells t)); [auto|discriminate]|]);
    apply collect_spec; try apply Ht.
  - apply map_fst_zip_eq, Ht.
  - apply map_snd_zip_eq, Ht.
Qed.

End Ops.

(** ** Sequences of operations *)

Inductive table_op (K V : Type) : Type :=
| OpSet (k : K) (v : V)
| OpGet (k : K)
| OpHas (k : K)
| OpRemove (k : K)
| OpClear
| OpCount
| OpKeys
| OpValues.
Arguments OpSet {K V}. Arguments OpGet {K V}. Arguments OpHas {K V}. Arguments OpRemove {K V}.
Arguments OpClear {K V}. Arguments OpCount {K V}. Arguments OpKeys {K V}. Arguments OpValues {K V}.

Inductive table_answer (K V : Type) : Type :=
| AnsBool (b : bool)
| AnsValue (v : option V)
| AnsDone
| AnsCount (n : Z)
| AnsKeys (l : list K)
| AnsValues (l : list V).
Arguments AnsBool {K V}. Arguments AnsValue {K V}. Arguments AnsDone {K V}. Arguments AnsCount {K V}.
Arguments AnsKeys {K V}. Arguments AnsValues {K V}.

Definition op_key {K V} (op : table_op K V) : option K :=
  match op with
  | OpSet k _ | OpGet k | OpHas k | OpRemove k => Some k
  | _ => None
  end.

Section Runs.
  Context {K V : Type} {HK : HashKey K} {KL : HashKeyLaws K} (zero_key : K) (zero_val : V).
  Context {St : Type} {A : Arena St} {L : ArenaLaws St}.

Definition apply_op (t : hash_table K V) (op : table_op K V) : M St (table_answer K V * hash_table K V) :=
  match op with
  | OpSet k v => let! r := hash_table_set zero_key zero_val t k v in ret (AnsBool (fst r), snd r)
  | OpGet k => ret (AnsValue (hash_table_get zero_key zero_val t k), t)
  | OpHas k => ret (AnsBool (hash_table_has_key zero_key t k), t)
  | OpRemove k => let '(b, t') := hash_table_remove zero_key t k in ret (AnsBool b, t')
  | OpClear => ret (AnsDone, hash_table_clear t)
  | OpCount => ret (AnsCount (hash_table_count t), t)
  | OpKeys => let! l := hash_table_keys t in ret (AnsKeys l, t)
  | OpValues => let! l := hash_table_values t in ret (AnsValues l, t)
  end.

Fixpoint run_ops (t : hash_table K V) (ops : list (table_op K V))
  : M St (list (table_answer K V) * hash_table K V) :=
  match ops with
  | [] => ret ([], t)
  | op :: ops' =>
    let! r := apply_op t op in
    let! rs := run_ops (snd r) ops' in
    ret (fst r :: fst rs, snd rs)
  end.

(** What an association list answers; [g] says that no memory was refused, and
    only without it may an insertion fail or a listing be cut short. *)
Inductive spec_step (g : Prop) (m : list (K * V)) : table_op K V -> table_answer K V -> list (K * V) -> Prop :=
| step_set k v : spec_step g m (OpSet k v) (AnsBool true) (spec_set m k v)
| step_set_refused k v : ~ g -> spec_step g m (OpSet k v) (AnsBool false) m
| step_get k : spec_step g m (OpGet k) (AnsValue (spec_get m k)) m
| step_has k : spec_step g m (OpHas k) (AnsBool (existsb (matches k) m)) m
| step_remove k : spec_step g m (OpRemove k) (AnsBool (existsb (matches k) m)) (spec_remove m k)
| step_clear : spec_step g m OpClear AnsDone []
| step_count : spec_step g m OpCount (AnsCount (Z.of_nat (length m))) m
| step_keys l rest : map fst m ≡ₚ l ++ rest -> (g -> rest = []) -> spec_step g m OpKeys (AnsKeys l) m
| step_values l rest : map snd m ≡ₚ l ++ rest -> (g -> rest = []) -> spec_step g m OpValues (AnsValues l) m.

Inductive spec_run (g : Prop) : list (K * V) -> list (table_op K V) -> list (table_answer K V) -> list (K * V) -> Prop :=
| spec_run_nil m : spec_run g m [] [] m
| spec_run_cons m op ans m1 ops anss m2 :
    spec_step g m op ans m1 -> spec_run g m1 ops anss m2 -> spec_run g m (op :: ops) (ans :: anss) m2.

(** The table [t] holds the map [m] after at most [n] operations. *)
Definition holds (n : Z) (t : hash_table K V) (m : list (K * V)) : Prop :=
  table_inv t /\ entries (cells t) ≡ₚ m /\
  size t + tombstones t <= n /\ capacity t <= HASH_TABLE_INITIAL_CAPACITY + 3 * n.

Definition op_ok (op : table_op K V) : Prop := match op_key op with Some k => key_valid k | None => True end.

(** Looking up does not depend on the order of the entries. *)
Lemma spec_get_permutation (m m' : list (K * V)) k :
  distinct m -> Forall (fun e => key_valid (fst e)) m -> key_valid k -> m ≡ₚ m' -> spec_get m k = spec_get m' k.
Proof.
  intros Hd Hv Hk Hp. unfold spec_get. f_equal. revert Hd Hv.
  induction Hp as [|x l l' Hp IH|x y l|l1 l2 l3 Hp1 IH1 Hp2 IH2]; intros Hd Hv; [reflexivity| | |].
  - inversion Hd; inversion Hv; subst. cbn. destruct (matches k x); [reflexivity|auto].
  - inversion Hd as [|? ? Hx _]; subst. inversion Hx as [|? ? [H1 H2] _]; subst.
    inversion Hv as [|? ? Vy Hv']; subst. inversion Hv' as [|? ? Vx _]; subst. cbn. unfold matches.
    destruct (keys_equal (fst x) k) eqn:E1, (keys_equal (fst y) k) eqn:E2; try reflexivity. exfalso.
    assert (E3 : keys_equal k (fst x) = true) by (rewrite keys_equal_sym; auto).
    rewrite (keys_equal_trans k (fst x) (fst y)), keys_equal_sym, E2 in H2 by auto. discriminate.
  - rewrite IH1 by assumption. apply IH2; [rewrite <- Hp1; exact Hd|rewrite <- Hp1; exact Hv].
Qed.

Lemma entries_valid c : cells_inv c -> Forall (fun e : K * V => key_valid (fst e)) (entries c).
Proof.
  intros Hc. apply List.Forall_forall. intros [k v] Hin. apply list_elem_of_In, entries_elem in Hin.
  destruct Hin as [i Hi]. exact (ci_valid _ Hc _ _ _ Hi).
Qed.


Section Simulation.
  Context {G : Granted}.

(** One operation. *)
Lemma apply_op_spec n t m op :
  holds n t m -> 0 <= n <= 2 ^ 40 -> op_ok op ->
  wp (apply_op t op) (fun r => exists m', spec_step granted m op (fst r) m' /\ holds (n + 1) (snd r) m').
Proof.
  intros (Ht & He & Hn & Hc) Hb Hok. change (2 ^ 40) with 1099511627776 in Hb.
  assert (Hm : 2 * capacity t <= MAX_CAPACITY)
    by (unfold MAX_CAPACITY, HASH_TABLE_INITIAL_CAPACITY in *; change (2 ^ 50) with 1125899906842624; lia).
  assert (Hkeep : holds (n + 1) t m) by (split; [exact Ht|split; [exact He|lia]]).
  pose proof (counters_bounded t Ht) as Hcnt. unfold op_ok in Hok.
  destruct op as [k v|k|k|k| | | |]; cbn [op_key] in Hok; cbn [apply_op].
  - eapply wp_call; [apply set_spec; assumption|]. intros [[|] t']; cbn [fst snd].
    + intros (H1 & H2 & H3 & H4). apply wp_ret. exists (spec_set m k v). split; [constructor|].
      split; [exact H1|]. split; [cbn [snd]; rewrite H2, He; reflexivity|]. cbn [snd]. unfold HASH_TABLE_INITIAL_CAPACITY in *. lia.
    + intros [-> Hg]. apply wp_ret. exists m. split; [constructor; exact Hg|exact Hkeep].
  - apply wp_ret. exists m. split; [|exact Hkeep]. cbn [fst]. rewrite (proj1 (get_spec zero_key zero_val t k Ht Hok)).
    rewrite (spec_get_permutation _ m k (entries_distinct _ (ti_cells t Ht)) (entries_valid _ (ti_cells t Ht)) Hok He).
    constructor.
  - apply wp_ret. exists m. split; [|exact Hkeep]. cbn [fst]. rewrite (proj2 (get_spec zero_key zero_val t k Ht Hok)).
    rewrite (existsb_permutation _ _ _ He). constructor.
  - pose proof (remove_spec zero_key zero_val t k Ht Hok) as Hr. destruct (hash_table_remove zero_key t k) as [b t'].
    destruct Hr as (-> & H1 & H2 & H3 & H4). apply wp_ret. exists (spec_remove m k). cbn [fst snd].
    rewrite (existsb_permutation _ _ _ He). split; [constructor|]. split; [exact H1|].
    split; [rewrite H2, He; reflexivity|lia].
  - destruct (clear_spec t Ht) as [H1 H2]. apply wp_ret. exists []. split; [constructor|].
    split; [exact H1|]. split; [cbn [snd]; rewrite H2; reflexivity|]. cbn. lia.
  - apply wp_ret. exists m. split; [|exact Hkeep]. cbn [fst]. unfold hash_table_count.
    rewrite (ti_size t Ht), (Permutation_length He). constructor.
  - eapply wp_call; [apply listing_spec, Ht|]. intros l (rest & El & Hg). apply wp_ret. exists m.
    split; [|exact Hkeep]. apply (step_keys _ _ _ rest); [|exact Hg]. rewrite <- El, He. reflexivity.
  - eapply wp_call; [apply listing_spec, Ht|]. intros l (rest & El & Hg). apply wp_ret. exists m.
    split; [|exact Hkeep]. apply (step_values _ _ _ rest); [|exact Hg]. rewrite <- El, He. reflexivity.
Qed.

Lemma run_ops_spec n t m ops :
  holds n t m -> 0 <= n -> n + Z.of_nat (length ops) <= 2 ^ 40 -> Forall op_ok ops ->
  wp (run_ops t ops) (fun r => exists m', spec_run granted m ops (fst r) m' /\
                               holds (n + Z.of_nat (length ops)) (snd r) m').
Proof.
  revert n t m. induction ops as [|op ops IH]; intros n t m Hh Hn Hb Hok.
  - apply wp_ret. exists m. split; [constructor|]. cbn [length snd]. rewrite Z.add_0_r. exact Hh.
  - inversion Hok as [|? ? Hop Hops]; subst. cbn [length] in Hb. cbn [run_ops].
    eapply wp_call; [apply (apply_op_spec n t m op Hh ltac:(lia) Hop)|]. intros [ans t1] (m1 & Hs & Hh1).
    cbn [fst snd] in *. eapply wp_call; [apply (IH (n + 1) t1 m1 Hh1 ltac:(lia) ltac:(lia) Hops)|].
    intros [anss t2] (m2 & Hs2 & Hh2). apply wp_ret. exists m2. cbn [fst snd] in *.
    split; [econstructor; eassumption|]. cbn [length]. replace (n + Z.of_nat (S (length ops))) with (n + 1 + Z.of_nat (length ops)) by lia.
    exact Hh2.
Qed.

End Simulation.

Lemma created_holds :
  holds 0 (empty_table zero_key zero_val HASH_TABLE_INITIAL_CAPACITY) [].
Proof.
  destruct (empty_table_inv zero_key zero_val HASH_TABLE_INITIAL_CAPACITY ltac:(unfold HASH_TABLE_INITIAL_CAPACITY, MAX_CAPACITY; lia))
    as [H1 H2].
  split; [exact H1|]. split; [rewrite H2; reflexivity|]. cbn. unfold HASH_TABLE_INITIAL_CAPACITY. lia.
Qed.

End Runs.
