(* ===== verification/HashTableTheorems.v ===== *)
(** * What the hash tables guarantee

    Tagged values satisfy the key interface (on keys without NaN, negative zero
    and cycles), and a table over any such keys behaves as a finite map through
    every sequence of operations; and the two keys the code treats wrongly. *)

From Stdlib Require Import ZArith List Lia Bool.
From stdpp Require Import base gmap list numbers sorting.
From S2P Require Import Prelude Effects Limbs KnuthD Bignum BignumSpec Arena ArenaSpec ArenaRuns HostHeap BignumTheorems.
From S2P Require Import Rational Tagged HashKeys HashTable HashTableSpec HashTableRuns.
Import ListNotations.
Open Scope Z_scope.
Open Scope effect_scope.

(** ** Tagged values as keys *)

(** Keys of a heap [h], nested at most [n] pairs or vectors deep. *)
Definition tagged_key (h : store) (n : nat) : HashKey tagged_value := {|
  hash_of := fun v => default 0 (hash_value h n v);
  keys_equal := fun a b => default false (keys_equal_at h n a b);
|}.

Lemma fnv_mix_nonneg hash x : 0 <= fnv_mix hash x.
Proof. unfold fnv_mix, u64. apply Z.mod_pos_bound. reflexivity. Qed.

Lemma fnv_fold_nonneg {X} (f : X -> Z) l hash : 0 <= hash -> 0 <= fold_left (fun hash x => fnv_mix hash (f x)) l hash.
Proof. revert hash. induction l as [|x l IH]; intros hash H; [exact H|]. apply IH, fnv_mix_nonneg. Qed.

Lemma hash_tree_nonneg t : 0 <= hash_tree t.
Proof.
  assert (Hu : forall d, 0 <= fnv1a_hash_u64 d) by (intros; apply fnv_fold_nonneg; unfold FNV_OFFSET_BASIS; lia).
  assert (Hl : forall ty d, 0 <= d -> 0 <= Z.lxor (fnv_mix FNV_OFFSET_BASIS ty) d)
    by (intros; apply Z.lxor_nonneg; split; intros; [assumption|apply fnv_mix_nonneg]).
  destruct t as [ty d|ty|ty s|b|t1 t2|l|p]; cbn [hash_tree].
  - apply Hl, Hu.
  - apply fnv_mix_nonneg.
  - apply Hl. apply (fnv_fold_nonneg (fun x => x)). unfold FNV_OFFSET_BASIS; lia.
  - apply fnv_fold_nonneg, fnv_mix_nonneg.
  - apply fnv_mix_nonneg.
  - apply fnv_fold_nonneg, fnv_mix_nonneg.
  - apply Hl, Hu.
Qed.

(** The equality of two keys with known meanings. *)
Lemma keys_equal_iff h n a b ta tb :
  means h n a ta -> means h n b tb ->
  default false (keys_equal_at h n a b) = true <-> ta = tb.
Proof. intros Ha Hb. destruct (keys_equal_means h n a b ta tb Ha Hb) as (r & -> & Hr). exact Hr. Qed.

#[export] Instance tagged_key_laws h n : HashKeyLaws tagged_value (HK := tagged_key h n).
Proof.
  refine {| key_valid := fun v => exists t, means h n v t |}; cbn [hash_of keys_equal tagged_key].
  - intros k [t Hm]. rewrite (hash_value_means h n k t Hm). apply hash_tree_nonneg.
  - intros k [t Hm]. apply (keys_equal_iff h n k k t t Hm Hm). reflexivity.
  - intros a b [ta Ha] [tb Hb]. apply eq_true_iff_eq.
    rewrite (keys_equal_iff h n a b ta tb Ha Hb), (keys_equal_iff h n b a tb ta Hb Ha). split; congruence.
  - intros a b c [ta Ha] [tb Hb] [tc Hc] E. apply (keys_equal_iff h n a b ta tb Ha Hb) in E. subst tb.
    apply eq_true_iff_eq. rewrite (keys_equal_iff h n b c ta tc Hb Hc), (keys_equal_iff h n a c ta tc Ha Hc). reflexivity.
  - intros a b [ta Ha] [tb Hb] E. apply (keys_equal_iff h n a b ta tb Ha Hb) in E. subst tb.
    rewrite (hash_value_means h n a ta Ha), (hash_value_means h n b ta Hb). reflexivity.
Defined.

(** C25 Hashing and equality of keys are consistent and structural: for acyclic
    keys without NaN and negative zero, [hash_keys_equal] returns and holds exactly
    when the keys mean the same (same scalar, same text, same integer, pairs and
    vectors part by part), and keys that mean the same have the same hash. *)
Theorem key_equality_is_structural h n a b ta tb :
  means h n a ta -> means h n b tb ->
  (exists r, hash_keys_equal h n (Some a) (Some b) = Some r /\ (r = true <-> ta = tb)) /\
  (exists x, hash_tagged_value h n (Some a) = Some x /\
    (ta = tb -> hash_tagged_value h n (Some b) = Some x)).
Proof.
  intros Ha Hb. split; [exact (keys_equal_means h n a b ta tb Ha Hb)|].
  exists (hash_tree ta). cbn [hash_tagged_value].
  split; [exact (hash_value_means h n a ta Ha)|]. intros ->. exact (hash_value_means h n b tb Hb).
Qed.

(** A heap with two copies of the list [("op" . 7)]. *)
Definition pair_heap : store :=
  <[1000 := obj_string [111; 112]]> (<[2000 := obj_string [111; 112]]>
  (<[3000 := obj_cons (mkTagged 8 0 0 1000) (make_int64 7)]>
  (<[4000 := obj_cons (mkTagged 8 0 0 2000) (make_int64 7)]> ∅))).

Definition op_key_tree : key_tree := KPair (KStr 8 [111; 112]) (KScalar 1 7).

Lemma pair_means p q :
  pair_heap !! p = Some (obj_cons (mkTagged 8 0 0 q) (make_int64 7)) -> p <> 0 ->
  pair_heap !! q = Some (obj_string [111; 112]) -> q <> 0 ->
  means pair_heap 2 (mkTagged 8 0 0 p) op_key_tree.
Proof.
  intros Hp Np Hq Nq. cbn [means op_key_tree]. exists (mkTagged 8 0 0 q), (make_int64 7).
  split; [split; [reflexivity|split; [exact Np|exact Hp]]|]. split.
  - split; [reflexivity|]. split; [right; reflexivity|]. split; [exact Nq|exact Hq].
  - split; [reflexivity|]. split; [reflexivity|]. split; [intros [E|E]; discriminate E|].
    split; [split; [vm_compute; discriminate|reflexivity]|]. split; intros E; discriminate E.
Qed.

Lemma key_equality_is_structural_witness :
  exists x, hash_tagged_value pair_heap 2 (Some (mkTagged 8 0 0 3000)) = Some x /\
    hash_tagged_value pair_heap 2 (Some (mkTagged 8 0 0 4000)) = Some x.
Proof.
  destruct (key_equality_is_structural pair_heap 2 (mkTagged 8 0 0 3000) (mkTagged 8 0 0 4000) op_key_tree op_key_tree
    (pair_means 3000 1000 ltac:(reflexivity) ltac:(lia) ltac:(reflexivity) ltac:(lia))
    (pair_means 4000 2000 ltac:(reflexivity) ltac:(lia) ltac:(reflexivity) ltac:(lia))) as [_ (x & H1 & H2)].
  exists x. split; [exact H1|exact (H2 eq_refl)].
Defined.

(** ** Tables *)

(** C3 A hash table is a finite map: from a table created empty, every sequence
    of insertions, lookups, membership tests, removals, clears, counts and
    listings (up to [2^40] of them, with valid keys) returns, and its answers are
    those of an association list with one entry per key, growth and tombstones
    unseen; when no memory is refused every insertion succeeds and every listing is
    complete, and a refused insertion leaves the table as it was. *)
Theorem hash_table_refines_map {K V} {HK : HashKey K} {KL : HashKeyLaws K} (zk : K) (zv : V)
    {St} {A : Arena St} {L : ArenaLaws St} (ops : list (table_op K V)) (s : St) :
  arena_inv s -> Z.of_nat (length ops) <= 2 ^ 40 ->
  Forall (fun op => match op_key op with Some k => key_valid k | None => True end) ops ->
  exists t0 s0 f0, arena_hash_table_create zk zv s = (Ret t0, s0, f0) /\ arena_inv s0 /\
  match t0 with
  | None => f0 = true
  | Some t0 => exists anss t s' f m,
      run_ops zk zv t0 ops s0 = (Ret (anss, t), s', f) /\ arena_inv s' /\
      spec_run (f = false) [] ops anss m /\ Permutation (entries (cells t)) m
  end.
Proof.
  intros Hs Hlen Hops.
  destruct (wp_run _ _ _ s (fun G => table_create_spec zk zv HASH_TABLE_INITIAL_CAPACITY
    ltac:(unfold HASH_TABLE_INITIAL_CAPACITY, MAX_CAPACITY; lia)) Hs) as (t0 & s0 & f0 & E0 & Hs0 & Ht0).
  exists t0, s0, f0. split; [exact E0|]. split; [exact Hs0|]. destruct t0 as [t0|]; [|tauto]. subst t0.
  destruct (run_ops zk zv (empty_table zk zv HASH_TABLE_INITIAL_CAPACITY) ops s0) as [[o s'] f] eqn:E.
  pose proof (@run_ops_spec K V HK KL zk zv St A L (f = false) 0 _ [] ops (created_holds zk zv)
    ltac:(lia) ltac:(lia) Hops s0 Hs0) as Hr.
  rewrite E in Hr. destruct (Hr (fun H => H)) as [Hs' Ho]. destruct o as [[anss t]| | |]; try contradiction.
  destruct Ho as (m & Hspec & Hh). exists anss, t, s', f, m. split; [reflexivity|]. split; [exact Hs'|].
  split; [exact Hspec|exact (proj1 (proj2 Hh))].
Qed.

(** ** A concrete table *)

Definition int_key (i : Z) : tagged_value := make_int64 i.

Lemma int_key_valid i : 0 <= i < 2 ^ 63 -> key_valid (HashKeyLaws := tagged_key_laws pair_heap 2) (int_key i).
Proof.
  intros Hi. exists (KScalar 1 i). change (2 ^ 63) with 9223372036854775808 in Hi. cbn [means].
  assert (E : vdata (int_key i) = i) by (apply u64_small; lia).
  split; [reflexivity|]. split; [symmetry; exact E|]. split; [intros [X|X]; discriminate X|].
  rewrite E. split; [change (2 ^ 64) with 18446744073709551616; lia|]. split; intros X; discriminate X.
Qed.

(** Thirteen insertions (the table grows at the fourteenth), a removal, an
    overwrite, and lookups. *)
Definition sample_ops : list (table_op tagged_value tagged_value) :=
  map (fun i => OpSet (int_key (Z.of_nat i)) (make_int64 (Z.of_nat i * 10))) (seq 0 14) ++
  [OpRemove (int_key 3); OpSet (int_key 5) (make_int64 99); OpGet (int_key 5); OpGet (int_key 3);
   OpSet (mkTagged 8 0 0 3000) (make_int64 1); OpGet (mkTagged 8 0 0 4000); OpCount].

Lemma hash_table_refines_map_witness :
  exists t0 s0 f0,
    arena_hash_table_create (K := tagged_value) (V := tagged_value) zero_value zero_value bench = (Ret (Some t0), s0, f0) /\
    exists anss t s' f m,
      run_ops (HK := tagged_key pair_heap 2) zero_value zero_value t0 sample_ops s0 = (Ret (anss, t), s', f) /\
      spec_run (HK := tagged_key pair_heap 2) (f = false) [] sample_ops anss m.
Proof.
  destruct (hash_table_refines_map (HK := tagged_key pair_heap 2) zero_value zero_value sample_ops bench bench_inv
    ltac:(vm_compute; discriminate)) as (t0 & s0 & f0 & E0 & _ & H).
  - apply Forall_app. split.
    + apply Forall_map, Forall_seq. intros i Hi. apply int_key_valid. lia.
    + repeat constructor; try (apply int_key_valid; lia); exists op_key_tree;
        [apply (pair_means 3000 1000)|apply (pair_means 4000 2000)]; reflexivity || lia.
  - destruct t0 as [t0|].
    + exists t0, s0, f0. split; [exact E0|]. destruct H as (anss & t & s' & f & m & H1 & _ & H2 & _).
      exists anss, t, s', f, m. split; [exact H1|exact H2].
    + exfalso. vm_compute in E0. discriminate E0.
Defined.

(** ** Two keys that break the contract *)

Definition plus_zero : tagged_value := mkTagged ESHKOL_VALUE_DOUBLE 0 0 0.
Definition minus_zero : tagged_value := mkTagged ESHKOL_VALUE_DOUBLE 0 0 (2 ^ 63).
Definition nan_key : tagged_value := mkTagged ESHKOL_VALUE_DOUBLE 0 0 9221120237041090560.

(** The answers of a run on an empty table of the given capacity. *)
Definition answers_of (capacity : Z) (ops : list (table_op tagged_value tagged_value)) : list (table_answer tagged_value tagged_value) :=
  match run_ops (HK := tagged_key ∅ 0) zero_value zero_value
          (empty_table zero_value zero_value capacity) ops bench with
  | (Ret (anss, _), _, _) => anss
  | _ => []
  end.

(** Two floating-point keys break the contract between hash and equality: the
    two zeros are equal keys whose hashes differ from bit 7 up, so in a table of
    256 slots what is stored under [0.0] is not found under [-0.0] and both can be
    present (in one of 16 slots they share a slot); a NaN key is not equal to
    itself, so it is stored again at every insertion and never found. *)
Theorem float_keys_break_lookup :
  hash_keys_equal ∅ 0 (Some plus_zero) (Some minus_zero) = Some true /\
  hash_tagged_value ∅ 0 (Some plus_zero) <> hash_tagged_value ∅ 0 (Some minus_zero) /\
  answers_of 256 [OpSet plus_zero (make_int64 1); OpGet minus_zero; OpSet minus_zero (make_int64 2); OpCount]
    = [AnsBool true; AnsValue None; AnsBool true; AnsCount 2] /\
  answers_of 16 [OpSet plus_zero (make_int64 1); OpGet minus_zero; OpSet minus_zero (make_int64 2); OpCount]
    = [AnsBool true; AnsValue (Some (make_int64 1)); AnsBool true; AnsCount 1] /\
  answers_of 16 [OpSet nan_key (make_int64 1); OpGet nan_key; OpSet nan_key (make_int64 2); OpCount]
    = [AnsBool true; AnsValue None; AnsBool true; AnsCount 2].
Proof.
  split; [vm_compute; reflexivity|]. split; [vm_compute; discriminate|].
  repeat split; vm_compute; reflexivity.
Qed.
