(* ===== verification/DeepEqual.v ===== *)
(** * Deep structural equality: lib/core/runtime_deep_equal.cpp

    [eshkol_deep_equal], which [equal?] and unification use, over a store of heap
    objects, and the proof that on acyclic values it decides equality of what the
    values mean: integers by value across both representations, strings and
    symbols by content, rationals by value, pairs and vectors by their parts. *)

From Stdlib Require Import ZArith List Lia Bool.
From Stdlib Require Import SpecFloat.
From stdpp Require Import base gmap list numbers.
From S2P Require Import Prelude Effects Limbs KnuthD Bignum BignumSpec Arena Rational RationalSpec.
From S2P Require Import BignumTheorems Doubles Tagged HashKeys.
Import ListNotations.
Open Scope Z_scope.

(** ** The code *)

Section DeepEqual.
  Variable h : store.

(** The header behind a non-null heap pointer has the given subtype. *)
Definition heap_subtype_is (type : Z) (val : tagged_value) (subtype : Z) : bool :=
  if (type =? ESHKOL_VALUE_HEAP_PTR) && negb (vdata val =? 0) then
    match h !! vdata val with
    | Some o => subtype_of o =? subtype
    | None => false
    end
  else false.

(** Reading that header is defined. *)
Definition header_readable (type : Z) (val : tagged_value) : bool :=
  if (type =? ESHKOL_VALUE_HEAP_PTR) && negb (vdata val =? 0) then
    match h !! vdata val with Some _ => true | None => false end
  else true.

Definition is_cons (type : Z) (val : tagged_value) : bool :=
  (type =? ESHKOL_VALUE_CONS_PTR) || heap_subtype_is type val HEAP_SUBTYPE_CONS.

Definition is_empty_list (type : Z) (val : tagged_value) : bool :=
  (type =? ESHKOL_VALUE_NULL) ||
  (type =? ESHKOL_VALUE_CONS_PTR) && (vdata val =? 0) ||
  (type =? ESHKOL_VALUE_HEAP_PTR) && (vdata val =? 0).

Definition is_string (type : Z) (val : tagged_value) : bool :=
  (type =? ESHKOL_VALUE_STRING_PTR) || heap_subtype_is type val HEAP_SUBTYPE_STRING.

Definition is_symbol (type : Z) (val : tagged_value) : bool :=
  heap_subtype_is type val HEAP_SUBTYPE_SYMBOL.

(** The bytes [strcmp] reads at an address. *)
Definition c_bytes (p : Z) : option (list Z) :=
  match h !! p with
  | Some (obj_string s) | Some (obj_symbol s) => Some s
  | _ => None
  end.

(** Same pointer, or two non-null pointers to the same bytes. *)
Definition same_c_string (p1 p2 : Z) : option bool :=
  if p1 =? p2 then Some true
  else if (p1 =? 0) || (p2 =? 0) then Some false
  else match c_bytes p1, c_bytes p2 with
       | Some s1, Some s2 => Some (list_eqb s1 s2)
       | _, _ => None
       end.

(** An INT64 or DOUBLE operand of a mixed comparison. *)
Definition mixed_double (type : Z) (val : tagged_value) : Z :=
  if type =? ESHKOL_VALUE_DOUBLE then vdata val else double_of_Z (int_val val).

Definition same_tensor (p1 p2 : Z) : option bool :=
  if p1 =? p2 then Some true
  else match h !! p1, h !! p2 with
       | Some (obj_tensor d1 e1), Some (obj_tensor d2 e2) =>
         Some (Nat.eqb (length d1) (length d2) && Nat.eqb (length e1) (length e2) &&
               list_eqb d1 d2 && forallb (fun p => double_eq (fst p) (snd p)) (combine e1 e2))
       | _, _ => None
       end.

Definition same_complex (p1 p2 : Z) : option bool :=
  if p1 =? p2 then Some true
  else if (p1 =? 0) || (p2 =? 0) then Some false
  else match h !! p1, h !! p2 with
       | Some (obj_complex r1 i1), Some (obj_complex r2 i2) =>
         Some (double_eq r1 r2 && double_eq i1 i2)
       | _, _ => None
       end.

Definition bignum_at (p : Z) (f : bignum -> option bool) : option bool :=
  match h !! p with Some (obj_bignum b) => f b | _ => None end.

(** The recursion follows the pointers; [None] when the fuel does not reach the
    leaves or a pointer leads nowhere. *)
Fixpoint deep_equal (fuel : nat) (val1 val2 : tagged_value) : option bool :=
  let type1 := base_type (vtype val1) in
  let type2 := base_type (vtype val2) in
  let p1 := vdata val1 in
  let p2 := vdata val2 in
  let empty1 := is_empty_list type1 val1 in
  let empty2 := is_empty_list type2 val2 in
  if empty1 && empty2 then Some true
  else if empty1 || empty2 then Some false
  else if negb (header_readable type1 val1 && header_readable type2 val2) then None
  else if is_cons type1 val1 && is_cons type2 val2 then
    match fuel, h !! p1, h !! p2 with
    | S fuel', Some (obj_cons car1 cdr1), Some (obj_cons car2 cdr2) =>
      match deep_equal fuel' car1 car2 with
      | Some true => deep_equal fuel' cdr1 cdr2
      | r => r
      end
    | _, _, _ => None
    end
  else if is_string type1 val1 && is_string type2 val2 then same_c_string p1 p2
  else if is_symbol type1 val1 && is_symbol type2 val2 then same_c_string p1 p2
  else if ((type1 =? ESHKOL_VALUE_INT64) && (type2 =? ESHKOL_VALUE_DOUBLE)) ||
          ((type1 =? ESHKOL_VALUE_DOUBLE) && (type2 =? ESHKOL_VALUE_INT64)) then
    Some (double_eq (mixed_double type1 val1) (mixed_double type2 val2))
  else
    let is_bn1 := heap_subtype_is type1 val1 HEAP_SUBTYPE_BIGNUM in
    let is_bn2 := heap_subtype_is type2 val2 HEAP_SUBTYPE_BIGNUM in
    if is_bn1 && is_bn2 then
      bignum_at p1 (fun b1 => bignum_at p2 (fun b2 =>
        Some (eshkol_bignum_compare (Some b1) (Some b2) =? 0)))
    else if is_bn1 && (type2 =? ESHKOL_VALUE_INT64) then
      bignum_at p1 (fun b1 => Some (eshkol_bignum_compare_int64 b1 (int_val val2) =? 0))
    else if (type1 =? ESHKOL_VALUE_INT64) && is_bn2 then
      bignum_at p2 (fun b2 => Some (eshkol_bignum_compare_int64 b2 (int_val val1) =? 0))
    else if heap_subtype_is type1 val1 HEAP_SUBTYPE_TENSOR &&
            heap_subtype_is type2 val2 HEAP_SUBTYPE_TENSOR then same_tensor p1 p2
    else if heap_subtype_is type1 val1 HEAP_SUBTYPE_VECTOR &&
            heap_subtype_is type2 val2 HEAP_SUBTYPE_VECTOR then
      if p1 =? p2 then Some true
      else match fuel, h !! p1, h !! p2 with
           | S fuel', Some (obj_vector elems1), Some (obj_vector elems2) =>
             if negb (Nat.eqb (length elems1) (length elems2)) then Some false
             else all_equal (deep_equal fuel') elems1 elems2
           | _, _, _ => None
           end
    else if heap_subtype_is type1 val1 HEAP_SUBTYPE_RATIONAL &&
            heap_subtype_is type2 val2 HEAP_SUBTYPE_RATIONAL then
      match h !! p1, h !! p2 with
      | Some (obj_rational r1), Some (obj_rational r2) => Some (eshkol_rational_equal r1 r2)
      | _, _ => None
      end
    else if (type1 =? ESHKOL_VALUE_COMPLEX) && (type2 =? ESHKOL_VALUE_COMPLEX) then
      same_complex p1 p2
    else if negb (type1 =? type2) then Some false
    else if type1 =? ESHKOL_VALUE_DOUBLE then Some (double_eq p1 p2)
    else Some (int_val val1 =? int_val val2).

(** Null arguments: equal only to each other. *)
Definition eshkol_deep_equal (fuel : nat) (val1 val2 : option tagged_value) : option bool :=
  match val1, val2 with
  | Some v1, Some v2 => deep_equal fuel v1 v2
  | None, None => Some true
  | _, _ => Some false
  end.

End DeepEqual.

(** ** What a value means *)

Inductive datum : Type :=
| DNil
| DInt (z : Z)
| DDouble (bits : Z)
| DScalar (type bits : Z)
| DStr (s : list Z)
| DSym (s : list Z)
| DRat (num den : Z)
| DPair (car cdr : datum)
| DVec (elems : list datum)
| DRef (p : Z).

(** Type codes whose payload the code compares as it is. *)
Definition plain_type (ty : Z) : Prop :=
  ~ In ty [ESHKOL_VALUE_NULL; ESHKOL_VALUE_INT64; ESHKOL_VALUE_DOUBLE; ESHKOL_VALUE_COMPLEX;
           ESHKOL_VALUE_HEAP_PTR; ESHKOL_VALUE_CONS_PTR; ESHKOL_VALUE_STRING_PTR].

(** Objects the code compares by address: facts, closures, tables and the like. *)
Definition by_address (o : object) : Prop :=
  match o with
  | obj_fact _ _ => True
  | obj_other st => ~ In st [HEAP_SUBTYPE_CONS; HEAP_SUBTYPE_STRING; HEAP_SUBTYPE_VECTOR;
                             HEAP_SUBTYPE_BIGNUM; HEAP_SUBTYPE_RATIONAL; HEAP_SUBTYPE_SYMBOL;
                             HEAP_SUBTYPE_TENSOR; HEAP_SUBTYPE_FACT]
  | _ => False
  end.

(** A double that is a number and equals no [int64_t]: a double that does equal
    one is [equal?] to it, which is not a transitive relation. *)
Definition proper_double (d : Z) : Prop :=
  double_eq d d = true /\ forall i, int64_range i -> double_eq (double_of_Z i) d = false.

(** [v] means [t], nested at most [n] deep. *)
Fixpoint denotes (h : store) (n : nat) (v : tagged_value) (t : datum) : Prop :=
  let ty := base_type (vtype v) in
  let p := vdata v in
  let points_to := fun o => ty = ESHKOL_VALUE_HEAP_PTR /\ p <> 0 /\ h !! p = Some o in
  0 <= p < 2 ^ 64 /\
  match t with
  | DNil => ty = ESHKOL_VALUE_NULL \/ (ty = ESHKOL_VALUE_CONS_PTR \/ ty = ESHKOL_VALUE_HEAP_PTR) /\ p = 0
  | DInt z =>
    (ty = ESHKOL_VALUE_INT64 /\ z = int_val v) \/
    (exists b, points_to (obj_bignum b) /\ bignum_wf b /\ z = bval b)
  | DDouble d => ty = ESHKOL_VALUE_DOUBLE /\ d = p /\ proper_double p
  | DScalar ty' d => ty' = ty /\ d = p /\ plain_type ty
  | DStr s =>
    (ty = ESHKOL_VALUE_STRING_PTR \/ ty = ESHKOL_VALUE_HEAP_PTR) /\ p <> 0 /\ h !! p = Some (obj_string s)
  | DSym s => points_to (obj_symbol s)
  | DRat num den => exists r, points_to (obj_rational r) /\ rational_wf r /\ num = rnum r /\ den = rden r
  | DPair tcar tcdr =>
    exists car cdr, (ty = ESHKOL_VALUE_CONS_PTR \/ ty = ESHKOL_VALUE_HEAP_PTR) /\ p <> 0 /\
    h !! p = Some (obj_cons car cdr) /\
    match n with
    | O => False
    | S n' => denotes h n' car tcar /\ denotes h n' cdr tcdr
    end
  | DVec ts =>
    exists elems, points_to (obj_vector elems) /\
    match n with
    | O => False
    | S n' => Forall2 (denotes h n') elems ts
    end
  | DRef p' => p' = p /\ exists o, points_to o /\ by_address o
  end.

(** ** Deep equality decides equality of meanings *)

Section Decides.
  Variable h : store.

Definition datum_empty (t : datum) : bool := match t with DNil => true | _ => false end.
Definition datum_pair (t : datum) : bool := match t with DPair _ _ => true | _ => false end.
Definition datum_str (t : datum) : bool := match t with DStr _ => true | _ => false end.
Definition datum_sym (t : datum) : bool := match t with DSym _ => true | _ => false end.
Definition datum_vec (t : datum) : bool := match t with DVec _ => true | _ => false end.
Definition datum_rat (t : datum) : bool := match t with DRat _ _ => true | _ => false end.

(** The tests of the code, as the meaning of the value settles them. *)
Record classified (v : tagged_value) (t : datum) : Prop := {
  cl_readable : header_readable h (base_type (vtype v)) v = true;
  cl_empty : is_empty_list (base_type (vtype v)) v = datum_empty t;
  cl_cons : datum_empty t = false -> is_cons h (base_type (vtype v)) v = datum_pair t;
  cl_string : is_string h (base_type (vtype v)) v = datum_str t;
  cl_symbol : is_symbol h (base_type (vtype v)) v = datum_sym t;
  cl_tensor : heap_subtype_is h (base_type (vtype v)) v HEAP_SUBTYPE_TENSOR = false;
  cl_vector : heap_subtype_is h (base_type (vtype v)) v HEAP_SUBTYPE_VECTOR = datum_vec t;
  cl_rational : heap_subtype_is h (base_type (vtype v)) v HEAP_SUBTYPE_RATIONAL = datum_rat t;
  cl_bignum : heap_subtype_is h (base_type (vtype v)) v HEAP_SUBTYPE_BIGNUM =
    match t with DInt _ => negb (base_type (vtype v) =? ESHKOL_VALUE_INT64) | _ => false end;
  cl_int : base_type (vtype v) =? ESHKOL_VALUE_INT64 =
    match t with DInt _ => base_type (vtype v) =? ESHKOL_VALUE_INT64 | _ => false end;
  cl_double : base_type (vtype v) =? ESHKOL_VALUE_DOUBLE = match t with DDouble _ => true | _ => false end;
  cl_complex : base_type (vtype v) =? ESHKOL_VALUE_COMPLEX = false;
}.

Ltac open_tests :=
  unfold header_readable, is_empty_list, is_cons, is_string, is_symbol, heap_subtype_is.

Ltac settle :=
  repeat match goal with
  | H : ?x = _ |- context [?x] => rewrite H
  end; cbn [datum_empty datum_pair datum_str datum_sym datum_vec datum_rat].

Lemma by_address_subtype o st :
  by_address o -> In st [HEAP_SUBTYPE_CONS; HEAP_SUBTYPE_STRING; HEAP_SUBTYPE_VECTOR;
    HEAP_SUBTYPE_BIGNUM; HEAP_SUBTYPE_RATIONAL; HEAP_SUBTYPE_SYMBOL; HEAP_SUBTYPE_TENSOR] ->
  subtype_of o =? st = false.
Proof.
  intros Ho Hst. apply Z.eqb_neq. intros E. destruct o; cbn [by_address subtype_of] in *; try contradiction.
  - subst. cbn in Hst. intuition discriminate.
  - subst. apply Ho. cbn in Hst |- *. tauto.
Qed.

Lemma plain_type_tests ty : plain_type ty ->
  (ty =? ESHKOL_VALUE_NULL) = false /\ (ty =? ESHKOL_VALUE_INT64) = false /\
  (ty =? ESHKOL_VALUE_DOUBLE) = false /\ (ty =? ESHKOL_VALUE_COMPLEX) = false /\
  (ty =? ESHKOL_VALUE_HEAP_PTR) = false /\ (ty =? ESHKOL_VALUE_CONS_PTR) = false /\
  (ty =? ESHKOL_VALUE_STRING_PTR) = false.
Proof.
  unfold plain_type. intros H. repeat split; apply Z.eqb_neq; intros ->; apply H; cbn; tauto.
Qed.

Lemma denotes_classified n v t : denotes h n v t -> classified v t.
Proof.
  intros H. destruct v as [ty0 fl rs p]. cbn [vtype vdata].
  destruct n as [|n], t; cbn [denotes vtype vdata] in H; decompose_all;
    try match goal with H : _ \/ _ |- _ => destruct H as [?|?]; decompose_all end;
    try match goal with H : _ \/ _ |- _ => destruct H as [?|?]; decompose_all end;
    try contradiction.
  all: try match goal with H : plain_type _ |- _ => destruct (plain_type_tests _ H) as (?&?&?&?&?&?&?) end.
  all: try match goal with H : ?q <> 0 |- _ => apply Z.eqb_neq in H as Hn end.
  all: constructor; cbn [vtype]; open_tests; cbn [vdata]; try discriminate; try intros _;
    repeat match goal with
    | H : base_type _ = _ |- _ => rewrite H
    | H : (?p =? 0) = false |- _ => rewrite H
    | H : (base_type _ =? _) = _ |- _ => rewrite H
    | H : _ = 0 |- _ => rewrite H
    | H : h !! _ = Some _ |- _ => rewrite H
    end; try reflexivity.
  all: try (cbn -[Z.eqb subtype_of]; try rewrite !orb_false_r;
            repeat match goal with
            | H : by_address _ |- _ => rewrite (fun st => by_address_subtype _ st H) by (cbn; tauto)
            end; reflexivity).
Qed.

(** ** Doubles *)

Lemma SFeqb_same x y :
  SFeqb x y = true -> x = y \/ exists s s', x = S754_zero s /\ y = S754_zero s'.
Proof.
  unfold SFeqb. destruct x as [s|s| |s m e], y as [s'|s'| |s' m' e']; cbn; eauto;
    try (destruct s; discriminate); try (destruct s'; discriminate); try (intros; discriminate).
  - destruct s, s'; auto; discriminate.
  - change (Pos.compare_cont Eq m m') with (Pos.compare m m').
    destruct s, s'; try discriminate; destruct (Z.compare_spec e e') as [->| |]; try discriminate;
      destruct (Pos.compare_spec m m') as [->| |]; try discriminate; auto.
Qed.

Lemma proper_double_eq p q :
  0 <= p < 2 ^ 64 -> 0 <= q < 2 ^ 64 -> proper_double p -> proper_double q ->
  double_eq p q = true <-> p = q.
Proof.
  intros Rp Rq [Pp Zp] [Pq _]. split; [|intros ->; exact Pq]. unfold double_eq. intros E.
  assert (Hnan : forall x, double_eq x x = true -> decode_double x <> S754_nan)
    by (unfold double_eq; intros x Hx N; rewrite N in Hx; discriminate).
  destruct (SFeqb_same _ _ E) as [E'|(s & s' & E1 & _)].
  - rewrite <- (encode_decode p Rp (Hnan p Pp)), <- (encode_decode q Rq (Hnan q Pq)), E'. reflexivity.
  - specialize (Zp 0 ltac:(unfold int64_range; lia)). unfold double_eq in Zp. rewrite E1 in Zp.
    vm_compute in Zp. destruct s; discriminate.
Qed.

Ltac type_codes :=
  unfold ESHKOL_VALUE_NULL, ESHKOL_VALUE_INT64, ESHKOL_VALUE_DOUBLE, ESHKOL_VALUE_COMPLEX,
    ESHKOL_VALUE_HEAP_PTR, ESHKOL_VALUE_CONS_PTR, ESHKOL_VALUE_STRING_PTR in *.

Lemma double_eq_sym p q : double_eq p q = double_eq q p.
Proof.
  assert (H : forall x y, SFeqb x y = true -> SFeqb y x = true).
  { intros x y E. destruct (SFeqb_same _ _ E) as [->|(s & s' & -> & ->)]; [exact E|reflexivity]. }
  apply eq_true_iff_eq. unfold double_eq. split; apply H.
Qed.

(** ** Meanings are determined by type and payload *)

Lemma denotes_functional n a b ta tb :
  denotes h n a ta -> denotes h n b tb ->
  base_type (vtype a) = base_type (vtype b) -> vdata a = vdata b -> ta = tb.
Proof.
  revert a b ta tb. induction n as [|n IH]; intros a b ta tb Ha Hb Et Ed.
  all: destruct ta, tb; cbn [denotes] in Ha, Hb; rewrite <- Et, <- Ed in Hb;
    unfold int_val in *; try rewrite <- Ed in Hb; type_codes.
  all: decompose_all; repeat match goal with H : _ \/ _ |- _ => destruct H; decompose_all end; subst;
    try contradiction; try congruence.
  all: repeat match goal with
    | H1 : h !! ?p = Some _, H2 : h !! ?p = Some _ |- _ => rewrite H1 in H2; simplify_eq
    end; try contradiction; try congruence.
  all: try (match goal with H : plain_type ?t, E : ?t = _ |- _ =>
              exfalso; rewrite E in H; apply H; cbn; tauto end).
  1-2: f_equal; eapply IH; eauto.
  - f_equal. eapply (Forall2_agree (denotes h n) (denotes h n)); eauto.
Qed.

(** ** The verdict on two values *)

Lemma same_c_string_spec p1 p2 s1 s2 :
  p1 <> 0 -> p2 <> 0 -> c_bytes h p1 = Some s1 -> c_bytes h p2 = Some s2 ->
  decides (same_c_string h p1 p2) s1 s2.
Proof.
  intros N1 N2 E1 E2. unfold same_c_string. destruct (Z.eqb_spec p1 p2) as [->|D].
  - apply decides_true. congruence.
  - rewrite (proj2 (Z.eqb_neq _ _) N1), (proj2 (Z.eqb_neq _ _) N2), E1, E2. cbn [orb].
    apply decides_bool, list_eqb_spec.
Qed.

Lemma decides_inj {T T'} (f : T -> T') r ta tb :
  (forall x y, f x = f y -> x = y) -> decides r ta tb -> decides r (f ta) (f tb).
Proof. intros Hf (v & -> & Hv). exists v. split; [reflexivity|]. rewrite Hv. split; [intros ->; auto|auto]. Qed.

Lemma decides_pair r1 r2 (a1 a2 b1 b2 : datum) :
  decides r1 a1 b1 -> decides r2 a2 b2 ->
  decides (match r1 with Some true => r2 | r => r end) (DPair a1 a2) (DPair b1 b2).
Proof.
  intros ([|] & -> & H1) H2.
  - rewrite (proj1 H1 eq_refl). apply decides_inj; [congruence|exact H2].
  - apply decides_false. intros X. injection X as X _. apply H1 in X. discriminate.
Qed.

(** Integers in either representation. *)
Definition int_at (v : tagged_value) (z : Z) : Prop :=
  0 <= vdata v < 2 ^ 64 /\
  ((base_type (vtype v) = ESHKOL_VALUE_INT64 /\ z = int_val v) \/
   exists b, (base_type (vtype v) = ESHKOL_VALUE_HEAP_PTR /\ vdata v <> 0 /\ h !! vdata v = Some (obj_bignum b)) /\
     bignum_wf b /\ z = bval b).

Lemma int_val_range v : int64_range (int_val v).
Proof. unfold int_val, int64_range. apply s64_range. Qed.

Definition int_verdict (a b : tagged_value) : option bool :=
  let ia := base_type (vtype a) =? ESHKOL_VALUE_INT64 in
  let ib := base_type (vtype b) =? ESHKOL_VALUE_INT64 in
  if negb ia && negb ib then
    bignum_at h (vdata a) (fun b1 => bignum_at h (vdata b) (fun b2 =>
      Some (eshkol_bignum_compare (Some b1) (Some b2) =? 0)))
  else if negb ia && ib then
    bignum_at h (vdata a) (fun b1 => Some (eshkol_bignum_compare_int64 b1 (int_val b) =? 0))
  else if ia && negb ib then
    bignum_at h (vdata b) (fun b2 => Some (eshkol_bignum_compare_int64 b2 (int_val a) =? 0))
  else if negb (base_type (vtype a) =? base_type (vtype b)) then Some false
  else Some (int_val a =? int_val b).

Lemma int_verdict_spec a b z1 z2 : int_at a z1 -> int_at b z2 -> decides (int_verdict a b) z1 z2.
Proof.
  unfold int_verdict, bignum_at.
  intros [_ [[Ea ->]|(x & (Ea & _ & La) & Wx & ->)]] [_ [[Eb ->]|(y & (Eb & _ & Lb) & Wy & ->)]]; rewrite Ea, Eb;
    cbn [negb andb Z.eqb Pos.eqb]; try rewrite La; try rewrite Lb; apply decides_bool; rewrite Z.eqb_eq.
  - reflexivity.
  - rewrite compare_int64_spec by auto using int_val_range. lia.
  - rewrite compare_int64_spec by auto using int_val_range. lia.
  - rewrite compare_sgn by assumption. lia.
Qed.

Lemma int_val_inj a b :
  0 <= vdata a < 2 ^ 64 -> 0 <= vdata b < 2 ^ 64 -> int_val a = int_val b -> vdata a = vdata b.
Proof.
  unfold int_val, s64. intros Ha Hb E. change (2 ^ 64) with 18446744073709551616 in *.
  change (2 ^ 63) with 9223372036854775808 in *.
  pose proof (Z.div_mod (vdata a + 9223372036854775808) 18446744073709551616 ltac:(lia)).
  pose proof (Z.div_mod (vdata b + 9223372036854775808) 18446744073709551616 ltac:(lia)). lia.
Qed.

Lemma denotes_payload n v t : denotes h n v t -> 0 <= vdata v < 2 ^ 64.
Proof. destruct n, t; cbn [denotes]; tauto. Qed.

(** The comparison of type and payload at the end of the function. *)
Lemma payload_verdict n a b ta tb :
  denotes h n a ta -> denotes h n b tb ->
  (ta = tb -> base_type (vtype a) = base_type (vtype b) /\ vdata a = vdata b) ->
  decides (if negb (base_type (vtype a) =? base_type (vtype b)) then Some false
           else Some (int_val a =? int_val b)) ta tb.
Proof.
  intros Ha Hb Hd. destruct (Z.eqb_spec (base_type (vtype a)) (base_type (vtype b))) as [E|E]; cbn [negb].
  - apply decides_bool. rewrite Z.eqb_eq. split.
    + intros Ei. apply (denotes_functional n a b); auto.
      apply int_val_inj; eauto using denotes_payload.
    + intros Et. destruct (Hd Et) as [_ D]. unfold int_val. congruence.
  - apply decides_false. intros Et. apply E, Hd, Et.
Qed.

(** A double and a value of another type. *)
Lemma double_verdict n a b d t :
  denotes h n a (DDouble d) -> denotes h n b t -> (forall d', t <> DDouble d') ->
  decides (if base_type (vtype b) =? ESHKOL_VALUE_INT64
           then Some (double_eq (mixed_double (base_type (vtype a)) a) (mixed_double (base_type (vtype b)) b))
           else if negb (base_type (vtype a) =? base_type (vtype b)) then Some false
           else Some (double_eq (vdata a) (vdata b))) (DDouble d) t.
Proof.
  intros Ha Hb Ht. pose proof (cl_double _ _ (denotes_classified n b t Hb)) as Db.
  assert (Ea : base_type (vtype a) = ESHKOL_VALUE_DOUBLE /\ proper_double (vdata a))
    by (destruct n; cbn [denotes] in Ha; tauto).
  destruct Ea as [Ea [_ Pa]]. rewrite Ea. unfold mixed_double.
  destruct (Z.eqb_spec (base_type (vtype b)) ESHKOL_VALUE_INT64) as [Eb|Eb].
  - rewrite Eb. cbn [Z.eqb Pos.eqb]. rewrite double_eq_sym.
    change (ESHKOL_VALUE_DOUBLE =? ESHKOL_VALUE_DOUBLE) with true.
    change (ESHKOL_VALUE_INT64 =? ESHKOL_VALUE_DOUBLE) with false. cbv iota.
    rewrite (Pa (int_val b) (int_val_range b)). apply decides_false. congruence.
  - destruct (Z.eqb_spec ESHKOL_VALUE_DOUBLE (base_type (vtype b))) as [E|E]; cbn [negb].
    + rewrite <- E in Db. destruct t; discriminate || (destruct (Ht _ eq_refl)).
    + apply decides_false. congruence.
Qed.

Lemma double_verdict_sym n a b d t :
  denotes h n a t -> denotes h n b (DDouble d) -> (forall d', t <> DDouble d') ->
  decides (if base_type (vtype a) =? ESHKOL_VALUE_INT64
           then Some (double_eq (mixed_double (base_type (vtype a)) a) (mixed_double (base_type (vtype b)) b))
           else if negb (base_type (vtype a) =? base_type (vtype b)) then Some false
           else Some (int_val a =? int_val b)) t (DDouble d).
Proof.
  intros Ha Hb Ht. destruct (double_verdict n b a d t Hb Ha Ht) as (v & E & Hv).
  exists v. split; [|rewrite Hv; split; congruence]. rewrite <- E.
  rewrite double_eq_sym, (Z.eqb_sym (base_type (vtype b)) (base_type (vtype a))).
  destruct (Z.eqb_spec (base_type (vtype a)) ESHKOL_VALUE_INT64); [reflexivity|].
  destruct (Z.eqb_spec (base_type (vtype a)) (base_type (vtype b))) as [Et|]; [|reflexivity].
  pose proof (cl_double _ _ (denotes_classified n a t Ha)) as Da.
  pose proof (cl_double _ _ (denotes_classified n b _ Hb)) as Db. rewrite Et, Db in Da.
  destruct t; discriminate || (destruct (Ht _ eq_refl)).
Qed.

(** One call, given the verdicts of the calls it makes. *)
Lemma deep_equal_step n a b ta tb :
  (forall m a b ta tb, n = S m -> denotes h m a ta -> denotes h m b tb -> decides (deep_equal h m a b) ta tb) ->
  denotes h n a ta -> denotes h n b tb -> decides (deep_equal h n a b) ta tb.
Proof.
  intros IH Ha Hb.
  destruct (denotes_classified n a ta Ha) as [Ra Ea Ca Sa Ya Na Va Qa Ba Ia Da Xa].
  destruct (denotes_classified n b tb Hb) as [Rb Eb Cb Sb Yb Nb Vb Qb Bb Ib Db Xb].
  pose proof (double_verdict n a b) as HD. pose proof (double_verdict_sym n a b) as HE.
  destruct n as [|n]; cbn [deep_equal]; rewrite Ea, Eb, Ra, Rb.
  all: destruct (datum_empty ta) eqn:Fa, (datum_empty tb) eqn:Fb; cbn [andb orb negb].
  all: try (apply decides_true; destruct ta, tb; discriminate || reflexivity);
       try (apply decides_false; destruct ta, tb; discriminate || congruence).
  all: rewrite (Ca eq_refl), (Cb eq_refl), Sa, Sb, Ya, Yb, Na, Nb, Va, Vb, Qa, Qb, Ba, Bb, Xa, Xb, Da, Db;
    clear Ca Cb Sa Sb Ya Yb Na Nb Va Vb Qa Qb Ba Bb Xa Xb Ra Rb Ea Eb.
  all: destruct ta, tb; try discriminate Fa; try discriminate Fb; clear Fa Fb; try rewrite Ia; try rewrite Ib;
    cbn [datum_pair datum_str datum_sym datum_vec datum_rat andb orb negb].
  all: rewrite ?andb_false_r, ?andb_true_r, ?orb_false_r; cbn [andb orb negb].
  all: try (eapply payload_verdict; eauto; congruence).
  all: try (eapply payload_verdict; [exact Ha|exact Hb|]; cbn [denotes] in Ha, Hb; decompose_all; subst;
            intros X; inversion X; split; congruence).
  all: try (apply HE; [exact Ha|exact Hb|congruence]).
  all: try (specialize (HD _ _ Ha Hb ltac:(congruence)); rewrite Ib in HD; exact HD).
  all: try (specialize (HD _ _ Ha Hb ltac:(congruence)); exact HD).
  all: clear HD HE.
  all: try (apply (decides_inj DInt); [congruence|]; apply int_verdict_spec; exact Ha || exact Hb).
  all: try (cbn [denotes] in Ha, Hb; decompose_all; contradiction).
  all: cbn [denotes] in Ha, Hb; destruct Ha as [Ra Ha], Hb as [Rb Hb].
  all: try (destruct Ha as (_ & Na & La), Hb as (_ & Nb & Lb);
            apply decides_inj; [congruence|]; apply same_c_string_spec; auto; unfold c_bytes;
            rewrite ?La, ?Lb; reflexivity).
  all: try (destruct Ha as (ra & (_ & _ & La) & Wa & -> & ->), Hb as (rb & (_ & _ & Lb) & Wb & -> & ->);
            rewrite La, Lb; apply decides_bool; rewrite rational_equal_spec by assumption;
            split; [intros [-> ->]; reflexivity|intros X; injection X; auto]).
  all: try (destruct Ha as (Ea & -> & Pa), Hb as (Eb & -> & Pb); rewrite Ea, Eb; cbn [Z.eqb Pos.eqb];
            apply (decides_inj DDouble); [congruence|]; apply decides_bool, proper_double_eq; assumption).
  - destruct Ha as (car & cdr & _ & _ & La & H1 & H2), Hb as (car' & cdr' & _ & _ & Lb & H3 & H4).
    rewrite La, Lb. pose proof (decides_pair _ _ _ _ _ _ (IH n _ _ _ _ eq_refl H1 H3) (IH n _ _ _ _ eq_refl H2 H4)) as D.
    destruct (deep_equal h n car car') as [[|]|]; exact D.
  - destruct Ha as (l & (Ea & Za & La) & HF), Hb as (l' & (Eb & Zb & Lb) & HF').
    destruct (Z.eqb_spec (vdata a) (vdata b)) as [Ep|Ep].
    + apply decides_true. apply (denotes_functional (S n) a b); try congruence; cbn [denotes]; eauto 10.
    + rewrite La, Lb. apply decides_inj; [congruence|].
      destruct (Nat.eqb_spec (length l) (length l')) as [El|El]; cbn [negb].
      * apply (all_equal_means (denotes h n)); auto.
      * apply decides_false. intros ->. apply El. rewrite (Forall2_length HF), (Forall2_length HF'). reflexivity.
Qed.

(** Deep equality decides equality of meanings. *)
Lemma deep_equal_denotes n a b ta tb :
  denotes h n a ta -> denotes h n b tb -> decides (deep_equal h n a b) ta tb.
Proof.
  revert a b ta tb. induction n as [n IH] using lt_wf_ind. intros a b ta tb.
  apply deep_equal_step. intros m a' b' ta' tb' ->. apply IH. lia.
Qed.

Lemma denotes_weaken n m v t : (n <= m)%nat -> denotes h n v t -> denotes h m v t.
Proof.
  revert m v t. induction n as [|n IH]; intros m v t Hm H; destruct t, m as [|m]; cbn [denotes] in *; try exact H;
    try lia.
  - destruct H as (_ & ? & ? & _ & _ & _ & []).
  - destruct H as (_ & ? & _ & []).
  - destruct H as (R & car & cdr & T & N & L & H1 & H2). split; [exact R|]. exists car, cdr.
    repeat split; auto; apply IH; auto; lia.
  - destruct H as (R & l & P & HF). split; [exact R|]. exists l. split; [exact P|].
    eapply Forall2_impl; [|exact HF]. intros; apply IH; [lia|assumption].
Qed.

End Decides.
