(* ===== verification/Unification.v ===== *)
(** * First-order terms and triangular substitutions

    The abstract side of the logic engine: finite terms, substitutions as ordered
    lists of bindings whose right-hand sides are not yet resolved, the full image
    of a term, and the facts about extending a substitution that make unification
    compute most general unifiers. *)

From Stdlib Require Import ZArith List Lia Bool Arith.
From stdpp Require Import base list option numbers.
From S2P Require Import Prelude DeepEqual.
Import ListNotations.
Open Scope Z_scope.

(** ** Terms *)

(** A variable by its id, a datum, or a fact: a predicate name (none when unset)
    and its arguments. *)
Inductive term : Type :=
| TVar (x : Z)
| TAtom (d : datum)
| TFact (pred : option (list Z)) (args : list term).

Section TermInd.
  Variable P : term -> Prop.
  Hypothesis HVar : forall x, P (TVar x).
  Hypothesis HAtom : forall d, P (TAtom d).
  Hypothesis HFact : forall p args, Forall P args -> P (TFact p args).

Fixpoint term_induction (t : term) : P t :=
  match t with
  | TVar x => HVar x
  | TAtom d => HAtom d
  | TFact p args =>
    HFact p args ((fix go l : Forall P l :=
      match l with
      | [] => Forall_nil_2 P
      | a :: l' => Forall_cons_2 P a l' (term_induction a) (go l')
      end) args)
  end.

End TermInd.

(** Nesting of facts, and number of nodes. *)
Fixpoint height (t : term) : nat :=
  match t with
  | TFact _ args => S (list_max (map height args))
  | _ => 0
  end.

Fixpoint nodes (t : term) : nat :=
  match t with
  | TFact _ args => S (list_sum (map nodes args))
  | _ => 1
  end.

Fixpoint vars (t : term) : list Z :=
  match t with
  | TVar x => [x]
  | TAtom _ => []
  | TFact _ args => flat_map vars args
  end.

(** A total assignment of terms to variables, applied to a term. *)
Fixpoint instance (theta : Z -> term) (t : term) : term :=
  match t with
  | TVar x => theta x
  | TAtom d => TAtom d
  | TFact p args => TFact p (map (instance theta) args)
  end.

(** ** Substitutions *)

Abbreviation bindings := (list (Z * term)).

Fixpoint binding (s : bindings) (x : Z) : option term :=
  match s with
  | [] => None
  | (y, t) :: s' => if y =? x then Some t else binding s' x
  end.

(** [theta] makes both sides of every binding the same. *)
Definition solves (theta : Z -> term) (s : bindings) : Prop :=
  forall x t, binding s x = Some t -> theta x = instance theta t.

(** The term with all bound variables replaced, as far as [n] steps reach. *)
Fixpoint image (s : bindings) (n : nat) (t : term) : option term :=
  match n with
  | O => None
  | S n' =>
    match t with
    | TVar x => match binding s x with None => Some (TVar x) | Some u => image s n' u end
    | TAtom d => Some (TAtom d)
    | TFact p args => TFact p <$> mapM (image s n') args
    end
  end.

Definition has_image (s : bindings) (t t' : term) : Prop := exists n, image s n t = Some t'.

(** No variable leads back to itself. *)
Definition acyclic (s : bindings) : Prop := forall t, exists t', has_image s t t'.

(** [s'] is a most general way to extend [s] so that [t1] and [t2] agree: its
    solutions are exactly the solutions of [s] that unify them. *)
Definition most_general (s : bindings) (t1 t2 : term) (s' : bindings) : Prop :=
  acyclic s' /\
  forall theta, solves theta s' <-> solves theta s /\ instance theta t1 = instance theta t2.

Definition no_unifier (s : bindings) (t1 t2 : term) : Prop :=
  forall theta, solves theta s -> instance theta t1 <> instance theta t2.

(** ** Images *)

Section Images.
  Variable s : bindings.

Lemma image_mono n m t t' : (n <= m)%nat -> image s n t = Some t' -> image s m t = Some t'.
Proof.
  revert m t t'. induction n as [|n IH]; intros m t t' Hm; [discriminate|].
  destruct m as [|m]; [lia|]. cbn [image]. destruct t as [x|d|p args].
  - destruct (binding s x); [|auto]. apply IH. lia.
  - auto.
  - rewrite !fmap_Some. intros (l & Hl & ->). exists l. split; [|reflexivity].
    apply mapM_Some in Hl. apply mapM_Some. eapply Forall2_impl; [|exact Hl].
    intros; apply IH; [lia|assumption].
Qed.

Lemma has_image_det t t1 t2 : has_image s t t1 -> has_image s t t2 -> t1 = t2.
Proof.
  intros [n Hn] [m Hm]. apply (image_mono n (n + m)) in Hn; [|lia]. apply (image_mono m (n + m)) in Hm; [|lia].
  congruence.
Qed.

Lemma image_free x : binding s x = None -> has_image s (TVar x) (TVar x).
Proof. intros E. exists 1%nat. cbn [image]. rewrite E. reflexivity. Qed.

Lemma image_bound x u t : binding s x = Some u -> has_image s u t <-> has_image s (TVar x) t.
Proof.
  intros E. split; intros [n Hn].
  - exists (S n). cbn [image]. rewrite E. exact Hn.
  - destruct n as [|n]; [discriminate|]. cbn [image] in Hn. rewrite E in Hn. exists n. exact Hn.
Qed.

Lemma image_atom d : has_image s (TAtom d) (TAtom d).
Proof. exists 1%nat. reflexivity. Qed.

(** The arguments of a fact have a common bound. *)
Lemma images_common args l :
  Forall2 (has_image s) args l -> exists n, Forall2 (fun a b => image s n a = Some b) args l.
Proof.
  induction 1 as [|a b args l [n Hn] _ [m Hm]]; [exists 0%nat; constructor|].
  exists (n + m)%nat. constructor; [apply (image_mono n); auto; lia|].
  eapply Forall2_impl; [|exact Hm]. intros; apply (image_mono m); auto; lia.
Qed.

Lemma image_fact p args l : Forall2 (has_image s) args l -> has_image s (TFact p args) (TFact p l).
Proof.
  intros H. destruct (images_common args l H) as [n Hn]. exists (S n). cbn [image].
  apply mapM_Some in Hn. rewrite Hn. reflexivity.
Qed.

Lemma image_fact_inv p args t :
  has_image s (TFact p args) t -> exists l, t = TFact p l /\ Forall2 (has_image s) args l.
Proof.
  intros [n Hn]. destruct n as [|n]; [discriminate|]. cbn [image] in Hn. apply fmap_Some in Hn.
  destruct Hn as (l & Hl & ->). exists l. split; [reflexivity|]. apply mapM_Some in Hl.
  eapply Forall2_impl; [|exact Hl]. intros; exists n; assumption.
Qed.

(** Only free variables are left. *)
Lemma image_vars_free n t t' x : image s n t = Some t' -> In x (vars t') -> binding s x = None.
Proof.
  revert t t'. induction n as [|n IH]; intros t t'; [discriminate|]. cbn [image].
  destruct t as [y|d|p args].
  - destruct (binding s y) eqn:E; [apply IH|]. intros [= <-] [<-|[]]. exact E.
  - intros [= <-] [].
  - rewrite fmap_Some. intros (l & Hl & ->). apply mapM_Some in Hl. cbn [vars]. rewrite in_flat_map.
    intros (b & Hb & Hx). apply list_elem_of_In, list_elem_of_lookup in Hb. destruct Hb as [i Hi].
    destruct (Forall2_lookup_r _ _ _ _ _ Hl Hi) as (a & _ & Ha). eapply IH; eauto.
Qed.

(** Solutions do not see the difference between a term and its image. *)
Lemma solves_image theta n t t' :
  solves theta s -> image s n t = Some t' -> instance theta t' = instance theta t.
Proof.
  intros Hs. revert t t'. induction n as [|n IH]; intros t t'; [discriminate|]. cbn [image].
  destruct t as [y|d|p args].
  - destruct (binding s y) as [u|] eqn:E; [|intros [= <-]; reflexivity].
    intros H. rewrite (IH _ _ H). symmetry. exact (Hs _ _ E).
  - intros [= <-]. reflexivity.
  - rewrite fmap_Some. intros (l & Hl & ->). apply mapM_Some in Hl. cbn [instance]. f_equal.
    induction Hl as [|a b args l Hab _ IHl]; [reflexivity|]. cbn. f_equal; [apply IH, Hab|exact IHl].
Qed.

End Images.

(** ** Assignments *)

(** The assignment that replaces one variable. *)
Definition replace (x : Z) (t : term) (y : Z) : term := if y =? x then t else TVar y.

Lemma instance_ext f g t : (forall x, In x (vars t) -> f x = g x) -> instance f t = instance g t.
Proof.
  induction t as [x|d|p args IH] using term_induction; cbn [vars instance]; intros H; auto.
  - apply H. left. reflexivity.
  - f_equal. induction IH as [|a args Ha _ IHl]; [reflexivity|]. cbn in *. f_equal.
    + apply Ha. intros; apply H, in_or_app; auto.
    + apply IHl. intros; apply H, in_or_app; auto.
Qed.

Lemma instance_id t : instance TVar t = t.
Proof.
  induction t as [x|d|p args IH] using term_induction; cbn [instance]; auto. f_equal.
  induction IH as [|a args Ha _ IHl]; [reflexivity|]. cbn. f_equal; assumption.
Qed.

Lemma replace_absent x u t : ~ In x (vars t) -> instance (replace x u) t = t.
Proof.
  intros H. rewrite <- (instance_id t) at 2. apply instance_ext. intros y Hy. unfold replace.
  destruct (Z.eqb_spec y x) as [->|]; [contradiction|reflexivity].
Qed.

Lemma nodes_pos t : (0 < nodes t)%nat.
Proof. destruct t; cbn; lia. Qed.

(** An instance of a term contains the instances of its variables. *)
Lemma instance_nodes theta x t :
  In x (vars t) -> t = TVar x \/ (nodes (theta x) < nodes (instance theta t))%nat.
Proof.
  induction t as [y|d|p args IH] using term_induction; cbn [vars instance nodes].
  - intros [->|[]]. auto.
  - intros [].
  - rewrite in_flat_map. intros (a & Ha & Hx). right. rewrite Forall_forall in IH.
    specialize (IH a Ha Hx).
    assert (Hle : (nodes (instance theta a) <= list_sum (map nodes (map (instance theta) args)))%nat).
    { clear -Ha. unfold list_sum. induction args as [|b args IHl]; [destruct Ha|]. cbn.
      destruct Ha as [->|Ha]; [lia|specialize (IHl Ha); lia]. }
    destruct IH as [->|IH]; cbn [instance] in *; lia.
Qed.

(** Occurs check: a variable never equals a term that properly contains it. *)
Lemma occurs_no_solution theta x t : In x (vars t) -> t <> TVar x -> theta x <> instance theta t.
Proof.
  intros Hx Ht E. destruct (instance_nodes theta x t Hx) as [|Hlt]; [contradiction|].
  rewrite <- E in Hlt. lia.
Qed.

(** ** Extending a substitution *)

Lemma binding_app s s' x :
  binding (s ++ s') x = match binding s x with Some t => Some t | None => binding s' x end.
Proof. induction s as [|[y t] s IH]; [reflexivity|]. cbn. destruct (y =? x); auto. Qed.

Lemma binding_last s x t y :
  binding (s ++ [(x, t)]) y = match binding s y with Some u => Some u | None => if x =? y then Some t else None end.
Proof. apply binding_app. Qed.

Lemma binding_in s x t : binding s x = Some t -> In (x, t) s.
Proof.
  induction s as [|[y u] s IH]; [discriminate|]. cbn. destruct (Z.eqb_spec y x) as [->|]; [|auto].
  intros [= ->]. auto.
Qed.

Lemma binding_none s x : binding s x = None <-> ~ In x (map fst s).
Proof.
  induction s as [|[y u] s IH]; cbn; [tauto|]. destruct (Z.eqb_spec y x) as [->|]; [split; [discriminate|tauto]|].
  rewrite IH. tauto.
Qed.

Section Extend.
  Variables (s : bindings) (x : Z) (t t' : term).
  Hypothesis Hx : binding s x = None.
  Hypothesis Ht : has_image s t t'.
  Hypothesis Hocc : ~ In x (vars t').
  Abbreviation s' := (s ++ [(x, t)]).

(** Terms that do not reach [x] keep their image. *)
Lemma extend_keeps u u' : has_image s u u' -> ~ In x (vars u') -> has_image s' u u'.
Proof.
  intros [n Hn] Hu. exists n. revert u u' Hn Hu. induction n as [|n IH]; intros u u'; [discriminate|].
  cbn [image]. destruct u as [y|d|p args].
  - rewrite binding_last. destruct (binding s y); [apply IH|]. intros [= <-] Hy. cbn in Hy.
    destruct (Z.eqb_spec x y) as [->|]; [tauto|reflexivity].
  - auto.
  - rewrite !fmap_Some. intros (l & Hl & ->) Hu. exists l. split; [|reflexivity].
    apply mapM_Some in Hl. apply mapM_Some. cbn [vars] in Hu.
    induction Hl as [|a b args l Hab _ IHl]; constructor.
    + apply (IH _ _ Hab). intros Hb. apply Hu. cbn. apply in_or_app. auto.
    + apply IHl. intros Hb. apply Hu. cbn. apply in_or_app. auto.
Qed.

(** The others have the image of [t] put in for [x]. *)
Lemma extend_image u u' : has_image s u u' -> has_image s' u (instance (replace x t') u').
Proof.
  intros [n Hn]. revert u u' Hn. induction n as [|n IH]; intros u u'; [discriminate|].
  cbn [image]. destruct u as [y|d|p args].
  - destruct (binding s y) as [v|] eqn:E.
    + intros H. apply (image_bound s' y v); [rewrite binding_last, E; reflexivity|]. apply IH, H.
    + intros [= <-]. cbn [instance]. unfold replace. destruct (Z.eqb_spec y x) as [->|D].
      * apply (image_bound s' x t); [rewrite binding_last, Hx, Z.eqb_refl; reflexivity|].
        apply extend_keeps; assumption.
      * apply image_free. rewrite binding_last, E. destruct (Z.eqb_spec x y); congruence.
  - intros [= <-]. apply image_atom.
  - rewrite fmap_Some. intros (l & Hl & ->). apply mapM_Some in Hl. cbn [instance]. apply image_fact.
    induction Hl as [|a b args l Hab _ IHl]; constructor; [apply IH, Hab|exact IHl].
Qed.

Lemma extend_acyclic : acyclic s -> acyclic s'.
Proof. intros Ha u. destruct (Ha u) as [u' Hu]. eexists. apply extend_image, Hu. Qed.

(** The new solutions. *)
Lemma extend_solves theta : solves theta s' <-> solves theta s /\ theta x = instance theta t.
Proof.
  split.
  - intros H. split; [|apply H; rewrite binding_last, Hx, Z.eqb_refl; reflexivity].
    intros y u E. apply H. rewrite binding_last, E. reflexivity.
  - intros [H1 H2] y u. rewrite binding_last. destruct (binding s y) as [v|] eqn:E.
    + intros [= <-]. apply H1, E.
    + destruct (Z.eqb_spec x y) as [<-|]; [|discriminate]. intros [= <-]. exact H2.
Qed.

End Extend.

(** ** Solutions exist *)

(** A substitution without cycles is solved by the images of the variables, and
    that solution is the most general one. *)
Lemma acyclic_solution s :
  acyclic s -> exists theta, solves theta s /\ (forall t t', has_image s t t' -> instance theta t = t').
Proof.
  intros Ha.
  assert (Hn : exists n, forall x, exists t', image s (S n) (TVar x) = Some t').
  { assert (Hd : exists n, forall x, In x (map fst s) -> exists t', image s (S n) (TVar x) = Some t').
    { induction (map fst s) as [|y l [n IH]]; [exists 0%nat; intros ? []|].
      destruct (Ha (TVar y)) as (y' & m & Hm). exists (n + m)%nat. intros x [<-|Hx].
      - exists y'. apply (image_mono s m); [lia|exact Hm].
      - destruct (IH x Hx) as [t' H]. exists t'. apply (image_mono s (S n)); [lia|exact H]. }
    destruct Hd as [n Hd]. exists n. intros x. destruct (in_dec Z.eq_dec x (map fst s)) as [Hi|Hi]; [auto|].
    apply binding_none in Hi. exists (TVar x). cbn [image]. rewrite Hi. reflexivity. }
  destruct Hn as [n Hn].
  set (theta := fun x => default (TVar x) (image s (S n) (TVar x))).
  assert (Hth : forall x, has_image s (TVar x) (theta x)).
  { intros x. destruct (Hn x) as [t' H]. exists (S n). unfold theta. rewrite H. reflexivity. }
  assert (Hinst : forall m t t', image s m t = Some t' -> instance theta t = t').
  { induction m as [|m IH]; intros t t' H; [discriminate|].
    destruct t as [x|d|p args]; cbn [instance].
    - apply (has_image_det s (TVar x)); [apply Hth|exists (S m); exact H].
    - cbn in H. congruence.
    - cbn [image] in H. apply fmap_Some in H. destruct H as (l & Hl & ->). apply mapM_Some in Hl. f_equal.
      induction Hl as [|a b args l Hab _ IHl]; [reflexivity|]. cbn. f_equal; [apply IH, Hab|exact IHl]. }
  exists theta. split.
  - intros x t E. symmetry. destruct (proj2 (image_bound s x t (theta x) E) (Hth x)) as [m Hm].
    apply (Hinst m _ _ Hm).
  - intros t t' [m Hm]. apply (Hinst m _ _ Hm).
Qed.

(** After a most general extension both terms have the same image. *)
Lemma most_general_same_image s t1 t2 s' t1' t2' :
  most_general s t1 t2 s' -> has_image s' t1 t1' -> has_image s' t2 t2' -> t1' = t2'.
Proof.
  intros [Ha Hm] H1 H2. destruct (acyclic_solution s' Ha) as (theta & Hs & Hi).
  rewrite <- (Hi _ _ H1), <- (Hi _ _ H2). apply Hm, Hs.
Qed.

(** ** Reachability *)

(** The bound variables met while the image of a term is built. *)
Inductive reaches (s : bindings) : term -> Z -> Prop :=
| reach_here x u : binding s x = Some u -> reaches s (TVar x) x
| reach_there x u y : binding s x = Some u -> reaches s u y -> reaches s (TVar x) y
| reach_arg p args a y : In a args -> reaches s a y -> reaches s (TFact p args) y.

#[export] Hint Constructors reaches : core.

Lemma reaches_image s t y n t' :
  reaches s t y -> image s n t = Some t' -> exists m y', (m <= n)%nat /\ image s m (TVar y) = Some y'.
Proof.
  intros H. revert n t'. induction H as [x u E|x u y E _ IH|p args a y Ha _ IH]; intros n t' Hn.
  - eauto.
  - destruct n as [|n]; [discriminate|]. cbn [image] in Hn. rewrite E in Hn.
    destruct (IH _ _ Hn) as (m & y' & Hm & Hy). exists m, y'. split; [lia|exact Hy].
  - destruct n as [|n]; [discriminate|]. cbn [image] in Hn. apply fmap_Some in Hn.
    destruct Hn as (l & Hl & _). apply mapM_Some in Hl.
    apply list_elem_of_In, list_elem_of_lookup in Ha. destruct Ha as [i Hi].
    destruct (Forall2_lookup_l _ _ _ _ _ Hl Hi) as (b & _ & Hb).
    destruct (IH _ _ Hb) as (m & y' & Hm & Hy). exists m, y'. split; [lia|exact Hy].
Qed.

Lemma acyclic_no_loop s y u : acyclic s -> binding s y = Some u -> ~ reaches s u y.
Proof.
  intros Ha E Hr. destruct (Ha (TVar y)) as (y' & n & Hn). revert y' Hn.
  induction n as [n IH] using lt_wf_ind. intros y' Hn. destruct n as [|n]; [discriminate|].
  cbn [image] in Hn. rewrite E in Hn. destruct (reaches_image s u y n y' Hr Hn) as (m & z & Hm & Hz).
  apply (IH m ltac:(lia) z Hz).
Qed.

Lemma reaches_bound s t y : reaches s t y -> In y (map fst s).
Proof.
  induction 1 as [x u E| |]; auto. apply binding_in in E. apply in_map_iff. exists (x, u). auto.
Qed.

(** What an unfolded variable still reaches. *)
Lemma reaches_remove s x u l :
  acyclic s -> binding s x = Some u -> (forall y, reaches s (TVar x) y -> In y l) ->
  (forall y, reaches s u y -> In y (remove Z.eq_dec x l)) /\ (length (remove Z.eq_dec x l) < length l)%nat.
Proof.
  intros Ha E Hl. split.
  - intros y Hy. apply in_in_remove; [|apply Hl; eauto]. intros ->. exact (acyclic_no_loop s x u Ha E Hy).
  - apply remove_length_lt, Hl. eauto.
Qed.

Lemma list_max_step a l : list_max (a :: l) = Nat.max a (list_max l).
Proof. reflexivity. Qed.

(** Every path from a term uses a binding at most once. *)
Lemma image_height s h :
  acyclic s -> (forall x u, binding s x = Some u -> (height u <= h)%nat) ->
  forall k l t t', (length l <= k)%nat -> (forall y, reaches s t y -> In y l) ->
  has_image s t t' -> (height t' <= height t + h * k)%nat.
Proof.
  intros Ha Hh. induction k as [k IHk] using lt_wf_ind. intros l t. revert l.
  induction t as [x|d|p args IH] using term_induction; intros l t' Hk Hl Ht.
  - destruct (binding s x) as [u|] eqn:E.
    + destruct (reaches_remove s x u l Ha E Hl) as [Hr Hlen]. destruct k as [|k]; [lia|].
      apply (image_bound s x u t' E) in Ht.
      pose proof (IHk k ltac:(lia) (remove Z.eq_dec x l) u t' ltac:(lia) Hr Ht). specialize (Hh x u E). rewrite Nat.mul_succ_r. lia.
    + rewrite (has_image_det s _ _ _ Ht (image_free s x E)). cbn. lia.
  - rewrite (has_image_det s _ _ _ Ht (image_atom s d)). cbn. lia.
  - destruct (image_fact_inv s p args t' Ht) as (ts & -> & HF). cbn [height].
    enough (list_max (map height ts) <= list_max (map height args) + h * k)%nat by lia.
    assert (Hl' : forall a y, In a args -> reaches s a y -> In y l) by eauto. clear Hl Ht.
    induction HF as [|a b args ts Hab _ IHF]; [cbn; lia|]. cbn [map]. rewrite !list_max_step.
    inversion IH as [|? ? Pa Pargs]; subst.
    assert (height b <= height a + h * k)%nat by (apply (Pa l); auto; intros; apply (Hl' a); [left|]; auto).
    assert (list_max (map height ts) <= list_max (map height args) + h * k)%nat
      by (apply IHF; auto; intros; apply (Hl' a0); [right|]; auto). lia.
Qed.

(** ** Walking *)

(** Follow the bindings of a variable, at most [n] of them. *)
Fixpoint follow (s : bindings) (n : nat) (t : term) : option term :=
  match t with
  | TVar x =>
    match binding s x with
    | None => Some t
    | Some u => match n with O => None | S n' => follow s n' u end
    end
  | _ => Some t
  end.

Lemma follow_total s n l t :
  acyclic s -> (length l <= n)%nat -> (forall y, reaches s t y -> In y l) -> exists w, follow s n t = Some w.
Proof.
  intros Ha. revert l t. induction n as [|n IH]; intros l t Hn Hl; destruct t as [x|d|p args]; cbn [follow]; eauto.
  - destruct (binding s x) as [u|] eqn:E; [|eauto]. destruct l; [|cbn in Hn; lia]. destruct (Hl x). eauto.
  - destruct (binding s x) as [u|] eqn:E; [|eauto].
    destruct (reaches_remove s x u l Ha E Hl) as [Hr Hlen]. apply (IH (remove Z.eq_dec x l) u ltac:(lia) Hr).
Qed.

(** What the walk ends at: an unbound variable, a datum or a fact, which is the
    term itself or the right-hand side of a binding, and stands for the same. *)
Record walked (s : bindings) (t w : term) : Prop := {
  wk_stuck : forall x, w = TVar x -> binding s x = None;
  wk_from : w = t \/ exists x, In (x, w) s;
  wk_image : forall t', has_image s t t' <-> has_image s w t';
  wk_instance : forall theta, solves theta s -> instance theta w = instance theta t;
}.

Lemma walked_refl s t : (forall x, t = TVar x -> binding s x = None) -> walked s t t.
Proof. intros H. constructor; auto. Qed.

Lemma follow_walked s n t w : follow s n t = Some w -> walked s t w.
Proof.
  revert t. induction n as [|n IH]; intros t; destruct t as [x|d|p args]; cbn [follow];
    try (intros [= <-]; apply walked_refl; congruence).
  all: destruct (binding s x) as [u|] eqn:E; try discriminate;
    try (intros [= <-]; apply walked_refl; congruence).
  intros H. destruct (IH u H) as [H1 H2 H3 H4]. constructor; auto.
  - right. destruct H2 as [->|[y Hy]]; [|eauto]. exists x. apply binding_in, E.
  - intros t'. rewrite <- (image_bound s x u t' E). apply H3.
  - intros theta Hs. rewrite (H4 theta Hs). symmetry. exact (Hs x u E).
Qed.

(** ** The cases of unification *)

Section Cases.
  Variables (s : bindings) (t1 t2 w1 w2 : term).
  Hypothesis Ha : acyclic s.
  Hypothesis W1 : walked s t1 w1.
  Hypothesis W2 : walked s t2 w2.

Lemma same_most_general : w1 = w2 -> most_general s t1 t2 s.
Proof.
  intros E. split; [exact Ha|]. intros theta. split; [|tauto]. intros Hs. split; [exact Hs|].
  rewrite <- (wk_instance _ _ _ W1 theta Hs), <- (wk_instance _ _ _ W2 theta Hs), E. reflexivity.
Qed.

(** The walked terms decide. *)
Lemma no_unifier_walked : no_unifier s w1 w2 -> no_unifier s t1 t2.
Proof.
  intros H theta Hs E. apply (H theta Hs).
  rewrite (wk_instance _ _ _ W1 theta Hs), (wk_instance _ _ _ W2 theta Hs). exact E.
Qed.

Lemma most_general_walked s' : most_general s w1 w2 s' -> most_general s t1 t2 s'.
Proof.
  intros [Ha' H]. split; [exact Ha'|]. intros theta. rewrite H. split; intros [Hs E]; (split; [exact Hs|]).
  - rewrite <- (wk_instance _ _ _ W1 theta Hs), <- (wk_instance _ _ _ W2 theta Hs). exact E.
  - rewrite (wk_instance _ _ _ W1 theta Hs), (wk_instance _ _ _ W2 theta Hs). exact E.
Qed.

End Cases.

Lemma bind_most_general s x t t' :
  acyclic s -> binding s x = None -> has_image s t t' -> ~ In x (vars t') ->
  most_general s (TVar x) t (s ++ [(x, t)]).
Proof.
  intros Ha Hx Ht Hocc. split; [apply (extend_acyclic s x t t'); assumption|].
  intros theta. cbn [instance]. apply extend_solves, Hx.
Qed.

Lemma occurs_no_unifier s x t t' :
  has_image s t t' -> t' <> TVar x -> In x (vars t') -> no_unifier s (TVar x) t.
Proof.
  intros [n Ht] Hne Hocc theta Hs. cbn [instance].
  rewrite <- (solves_image s theta n t t' Hs Ht). apply occurs_no_solution; assumption.
Qed.

Lemma most_general_sym s t1 t2 s' : most_general s t1 t2 s' -> most_general s t2 t1 s'.
Proof. intros [Ha H]. split; [exact Ha|]. intros theta. rewrite H. intuition. Qed.

Lemma no_unifier_sym s t1 t2 : no_unifier s t1 t2 -> no_unifier s t2 t1.
Proof. intros H theta Hs E. apply (H theta Hs). auto. Qed.

(** Lists of arguments, unified from left to right. *)
Definition most_general_args (s : bindings) (l1 l2 : list term) (s' : bindings) : Prop :=
  acyclic s' /\
  forall theta, solves theta s' <-> solves theta s /\ map (instance theta) l1 = map (instance theta) l2.

Definition no_unifier_args (s : bindings) (l1 l2 : list term) : Prop :=
  forall theta, solves theta s -> map (instance theta) l1 <> map (instance theta) l2.

Lemma args_nil s : acyclic s -> most_general_args s [] [] s.
Proof. intros Ha. split; [exact Ha|]. cbn. tauto. Qed.

Lemma args_cons s s1 s2 a b l1 l2 :
  most_general s a b s1 -> most_general_args s1 l1 l2 s2 -> most_general_args s (a :: l1) (b :: l2) s2.
Proof.
  intros [_ H1] [Ha H2]. split; [exact Ha|]. intros theta. rewrite H2, H1. cbn [map].
  split; [intros [[Hs ->] ->]; auto|intros [Hs [= -> ->]]; auto].
Qed.

Lemma args_head_clash s a b l1 l2 : no_unifier s a b -> no_unifier_args s (a :: l1) (b :: l2).
Proof. intros H theta Hs [= E _]. exact (H theta Hs E). Qed.

Lemma args_tail_clash s s1 a b l1 l2 :
  most_general s a b s1 -> no_unifier_args s1 l1 l2 -> no_unifier_args s (a :: l1) (b :: l2).
Proof. intros [_ H1] H theta Hs [= E El]. apply (H theta); [apply H1; auto|exact El]. Qed.

Lemma args_length_clash s l1 l2 : length l1 <> length l2 -> no_unifier_args s l1 l2.
Proof. intros H theta _ E. apply H. rewrite <- (length_map (instance theta) l1), E, length_map. reflexivity. Qed.

Lemma fact_most_general s p l1 l2 s' :
  most_general_args s l1 l2 s' -> most_general s (TFact p l1) (TFact p l2) s'.
Proof.
  intros [Ha H]. split; [exact Ha|]. intros theta. rewrite H. cbn [instance].
  split; [intros [Hs ->]; auto|intros [Hs [= ->]]; auto].
Qed.

Lemma fact_no_unifier s p q l1 l2 :
  p <> q \/ no_unifier_args s l1 l2 -> no_unifier s (TFact p l1) (TFact q l2).
Proof. intros H theta Hs [= E1 E2]. destruct H as [H|H]; [auto|exact (H theta Hs E2)]. Qed.
