(* ===== verification/Logic.v ===== *)
(** * The logic engine: lib/core/logic.cpp and kb-retract! of logic_builtins.cpp

    Substitutions, walking, the occurs check, unification, facts and the knowledge
    base.  Facts are objects of the store, read by address; a substitution and a
    knowledge base are values, a null pointer to one is [None].  The registries of
    variable names and predicates are in [LogicRegistry]. *)

From Stdlib Require Import ZArith List Lia Bool.
From stdpp Require Import base gmap list numbers.
From S2P Require Import Prelude Effects Arena Tagged HashKeys DeepEqual.
Import ListNotations.
Open Scope Z_scope.
Open Scope effect_scope.

(** ** Data *)

(** [eshkol_substitution_t]: the two arrays have [sub_capacity] slots, of which
    the first [num_bindings] are in use. *)
Record substitution : Type := mkSubst {
  sub_capacity : Z;
  sub_bindings : list (Z * tagged_value);
}.

Definition num_bindings (s : substitution) : Z := Z.of_nat (length (sub_bindings s)).

(** [eshkol_knowledge_base_t]: an array of [kb_capacity] fact pointers, the first
    [num_facts] in use. *)
Record knowledge_base : Type := mkKB {
  kb_capacity : Z;
  kb_facts : list Z;
}.

Definition num_facts (kb : knowledge_base) : Z := Z.of_nat (length (kb_facts kb)).

Definition sizeof_substitution : Z := 8.
Definition sizeof_fact : Z := 16.
Definition sizeof_kb : Z := 16.
Definition sizeof_tagged : Z := 16.
Definition KB_INITIAL_CAPACITY : Z := 16.
Definition WALK_DEEP_MAX_DEPTH : nat := 10000.
Definition OCCURS_CHECK_MAX_DEPTH : nat := 1000.

Definition eshkol_is_logic_var (tv : option tagged_value) : bool :=
  match tv with
  | None => false
  | Some v => vtype v =? ESHKOL_VALUE_LOGIC_VAR
  end.

(** ** Lookup and walk *)

(** The scan over the bindings in use. *)
Fixpoint lookup_loop (l : list (Z * tagged_value)) (var_id : Z) : option tagged_value :=
  match l with
  | [] => None
  | (id, term) :: l' => if id =? var_id then Some term else lookup_loop l' var_id
  end.

Definition eshkol_subst_lookup (s : option substitution) (var_id : Z) : option tagged_value :=
  match s with
  | None => None
  | Some s => lookup_loop (sub_bindings s) var_id
  end.

(** The loop that follows variable chains, at most [n] links of it. *)
Fixpoint walk_loop (n : nat) (current : tagged_value) (s : substitution) : option tagged_value :=
  if vtype current =? ESHKOL_VALUE_LOGIC_VAR then
    match eshkol_subst_lookup (Some s) (vdata current) with
    | None => Some current
    | Some bound => match n with O => None | S n' => walk_loop n' bound s end
    end
  else Some current.

(** [eshkol_walk] of a non-null term.  A chain without a cycle has no more links
    than there are bindings; [None] is a chain that never ends. *)
Definition walk (term : tagged_value) (subst : option substitution) : option tagged_value :=
  match subst with
  | None => Some term
  | Some s => walk_loop (length (sub_bindings s)) term s
  end.

Definition eshkol_walk (term : option tagged_value) (subst : option substitution) : option tagged_value :=
  match term with
  | None => Some zero_value
  | Some t => walk t subst
  end.

Section Logic.
  Context {St : Type} {A : Arena St}.
  Variable h : store.

(** ** Allocation *)

Definition alloc_substitution (capacity : Z) : M St (option substitution) :=
  let data_size := u64 (sizeof_substitution + capacity * 8 + capacity * sizeof_tagged) in
  check! _ := allocate_with_header data_size HEAP_SUBTYPE_SUBSTITUTION 0 in
  ret (Some (mkSubst capacity [])).

(** The address of a new fact. *)
Definition alloc_fact (arity : Z) : M St (option Z) :=
  allocate_with_header (u64 (sizeof_fact + arity * sizeof_tagged)) HEAP_SUBTYPE_FACT 0.

Definition alloc_kb : M St (option Z) := allocate_with_header sizeof_kb HEAP_SUBTYPE_KNOWLEDGE_BASE 0.

Definition eshkol_make_substitution (capacity : Z) : M St (option substitution) :=
  let! null := is_null_arena in
  if null then ret None
  else alloc_substitution (if capacity =? 0 then 8 else capacity).

(** The new capacity: the old one if the binding fits, at least double otherwise. *)
Definition extended_capacity (s : option substitution) : Z :=
  let old_bindings := match s with Some s => num_bindings s | None => 0 end in
  let new_capacity := u32 (old_bindings + 1) in
  match s with
  | Some s =>
    if new_capacity <=? sub_capacity s then sub_capacity s
    else let min_cap := u32 (sub_capacity s * 2) in
         if new_capacity <? min_cap then min_cap else new_capacity
  | None => if new_capacity <? 8 then 8 else new_capacity
  end.

(** A store past the end of the new arrays is the outcome [Crash]. *)
Definition eshkol_extend_subst (s : option substitution) (var_id : Z) (term : option tagged_value)
  : M St (option substitution) :=
  let! null := is_null_arena in
  match term with
  | None => ret None
  | Some term =>
    if null then ret None
    else
      let old := match s with Some s => sub_bindings s | None => [] end in
      check! new_s := alloc_substitution (extended_capacity s) in
      if Z.of_nat (length old) <? sub_capacity new_s
      then ret (Some (mkSubst (sub_capacity new_s) (old ++ [(var_id, term)])))
      else crash
  end.

(** ** Facts *)

Definition heap_pointer (v : tagged_value) : bool :=
  (vtype v =? ESHKOL_VALUE_HEAP_PTR) && negb (vdata v =? 0).

(** The fact a value points to; [None] when its pointer leads nowhere. *)
Definition fact_of (v : tagged_value) : option (option (Z * list tagged_value)) :=
  if heap_pointer v then
    match h !! vdata v with
    | None => None
    | Some (obj_fact predicate args) => Some (Some (predicate, args))
    | Some _ => Some None
    end
  else Some None.

(** The fact at an address the caller knows to hold one. *)
Definition fact_at (p : Z) : M St (Z * list tagged_value) :=
  match h !! p with
  | Some (obj_fact predicate args) => ret (predicate, args)
  | _ => crash
  end.

(** [eshkol_make_fact]: the address of the new fact and its contents, the
    [arity] values of [args]. *)
Definition eshkol_make_fact (predicate : Z) (args : list tagged_value) : M St (option (Z * object)) :=
  let! null := is_null_arena in
  if null then ret None
  else
    check! p := alloc_fact (Z.of_nat (length args)) in
    ret (Some (p, obj_fact predicate args)).

(** ** Deep walk *)

(** The result of a deep walk: a value as it was, or a new fact at an address. *)
Inductive resolved : Type :=
| Same (v : tagged_value)
| Fresh (p predicate : Z) (args : list resolved).

(** A loop of calls, from left to right. *)
Fixpoint each {X Y} (f : X -> M St Y) (l : list X) : M St (list Y) :=
  match l with
  | [] => ret []
  | x :: l' => let! y := f x in let! ys := each f l' in ret (y :: ys)
  end.

(** [walk_deep_impl]; [n] is [WALK_DEEP_MAX_DEPTH + 1 - depth]. *)
Fixpoint walk_deep_impl (n : nat) (term : tagged_value) (subst : option substitution) : M St resolved :=
  let! null := is_null_arena in
  if null then ret (Same zero_value)
  else
    match n with
    | O => ret (Same term)
    | S n' =>
      let! walked := fuelled (walk term subst) in
      let! fact := deref (fact_of walked) in
      match fact with
      | None => ret (Same walked)
      | Some (predicate, args) =>
        let! new_fact := alloc_fact (Z.of_nat (length args)) in
        match new_fact with
        | None => ret (Same walked)
        | Some p =>
          let! new_args := each (fun a => walk_deep_impl n' a subst) args in
          ret (Fresh p predicate new_args)
        end
      end
    end.

Definition eshkol_walk_deep (term : option tagged_value) (subst : option substitution) : M St resolved :=
  match term with
  | None => ret (Same zero_value)
  | Some t => walk_deep_impl (S WALK_DEEP_MAX_DEPTH) t subst
  end.

(** ** Occurs check *)

(** Stops at the first argument with an occurrence. *)
Fixpoint any_arg (f : tagged_value -> option bool) (args : list tagged_value) : option bool :=
  match args with
  | [] => Some false
  | a :: args' =>
    match f a with
    | Some false => any_arg f args'
    | r => r
    end
  end.

(** [occurs_impl]; [n] is [OCCURS_CHECK_MAX_DEPTH + 1 - depth]. *)
Fixpoint occurs_impl (n : nat) (var_id : Z) (term : tagged_value) (subst : option substitution)
  : option bool :=
  match n with
  | O => Some false
  | S n' =>
    match walk term subst with
    | None => None
    | Some walked =>
      if vtype walked =? ESHKOL_VALUE_LOGIC_VAR then Some (int_val walked =? s64 var_id)
      else
        match fact_of walked with
        | None => None
        | Some None => Some false
        | Some (Some (_, args)) => any_arg (fun a => occurs_impl n' var_id a subst) args
        end
    end
  end.

Definition occurs (var_id : Z) (term : tagged_value) (subst : option substitution) : option bool :=
  occurs_impl (S OCCURS_CHECK_MAX_DEPTH) var_id term subst.

(** ** Unification *)

(** The nesting of data [eshkol_deep_equal] may recurse into. *)
  Variable eq_fuel : nat.

Definition tagged_values_equal (a b : tagged_value) : option bool :=
  if (vtype a =? ESHKOL_VALUE_LOGIC_VAR) && (vtype b =? ESHKOL_VALUE_LOGIC_VAR)
  then Some (int_val a =? int_val b)
  else deep_equal h eq_fuel a b.

(** Same interned pointer, or two non-null pointers to the same text. *)
Definition same_predicate (p1 p2 : Z) : option bool := same_c_string h p1 p2.

(** The loop over the argument pairs, with the substitution threaded through. *)
Fixpoint unify_args (f : tagged_value -> tagged_value -> option substitution -> M St (option substitution))
    (args1 args2 : list tagged_value) (current : option substitution) : M St (option substitution) :=
  match args1, args2 with
  | a1 :: args1', a2 :: args2' =>
    check! next := f a1 a2 current in unify_args f args1' args2' (Some next)
  | _, _ => ret current
  end.

Fixpoint unify (fuel : nat) (t1 t2 : tagged_value) (subst : option substitution)
  : M St (option substitution) :=
  match fuel with
  | O => diverge
  | S fuel' =>
    let! null := is_null_arena in
    if null then ret None
    else
      let! w1 := fuelled (walk t1 subst) in
      let! w2 := fuelled (walk t2 subst) in
      let! equal := fuelled (tagged_values_equal w1 w2) in
      if equal : bool then ret subst
      else if vtype w1 =? ESHKOL_VALUE_LOGIC_VAR then
        let! circular := fuelled (occurs (vdata w1) w2 subst) in
        if circular : bool then ret None else eshkol_extend_subst subst (vdata w1) (Some w2)
      else if vtype w2 =? ESHKOL_VALUE_LOGIC_VAR then
        let! circular := fuelled (occurs (vdata w2) w1 subst) in
        if circular : bool then ret None else eshkol_extend_subst subst (vdata w2) (Some w1)
      else if negb (heap_pointer w1 && heap_pointer w2) then ret None
      else
        let! f1 := deref (fact_of w1) in
        let! f2 := deref (fact_of w2) in
        match f1, f2 with
        | Some (pred1, args1), Some (pred2, args2) =>
          let! same := deref (same_predicate pred1 pred2) in
          if negb same then ret None
          else if negb (Nat.eqb (length args1) (length args2)) then ret None
          else unify_args (unify fuel') args1 args2 subst
        | _, _ => ret None
        end
  end.

Definition eshkol_unify (fuel : nat) (t1 t2 : option tagged_value) (subst : option substitution)
  : M St (option substitution) :=
  match t1, t2 with
  | Some t1, Some t2 => unify fuel t1 t2 subst
  | _, _ => ret None
  end.

(** ** Knowledge base *)

Definition eshkol_make_kb : M St (option knowledge_base) :=
  let! null := is_null_arena in
  if null then ret None
  else
    check! _ := alloc_kb in
    check! _ := allocate (KB_INITIAL_CAPACITY * 8) in
    ret (Some (mkKB KB_INITIAL_CAPACITY [])).

(** The knowledge base after the call; a refused array leaves it as it was. *)
Definition eshkol_kb_assert (kb : knowledge_base) (fact : Z) : M St knowledge_base :=
  let! null := is_null_arena in
  if null || (fact =? 0) then ret kb
  else if num_facts kb >=? kb_capacity kb then
    let new_capacity := u32 (kb_capacity kb * 2) in
    let! new_facts := allocate (new_capacity * 8) in
    match new_facts with
    | None => ret kb
    | Some _ =>
      if num_facts kb <? new_capacity
      then ret (mkKB new_capacity (kb_facts kb ++ [fact]))
      else crash
    end
  else ret (mkKB (kb_capacity kb) (kb_facts kb ++ [fact])).

(** The fact is skipped by its predicate. *)
Definition predicate_differs (pattern fact : Z) : bool :=
  negb (pattern =? 0) && negb (fact =? 0) && negb (pattern =? fact).

(** The loop over the facts; each match is put in front of the results. *)
Fixpoint query_loop (fuel : nat) (skip : nat -> nat -> bool) (facts : list Z)
    (pat : Z) (base_subst : option substitution)
    (result_list : list substitution) : M St (list substitution) :=
  match facts with
  | [] => ret result_list
  | p :: facts' =>
    let! pattern := fact_at pat in
    let! fact := fact_at p in
    if predicate_differs (fst pattern) (fst fact) then
      query_loop fuel skip facts' pat base_subst result_list
    else if skip (length (snd pattern)) (length (snd fact)) then
      query_loop fuel skip facts' pat base_subst result_list
    else
      let! subst := unify_args (unify fuel) (snd pattern) (snd fact) base_subst in
      match subst with
      | None => query_loop fuel skip facts' pat base_subst result_list
      | Some s =>
        let! cell := allocate_with_header (2 * sizeof_tagged) HEAP_SUBTYPE_CONS 0 in
        query_loop fuel skip facts' pat base_subst
          (match cell with Some _ => s :: result_list | None => result_list end)
      end
  end.

Definition query_from (fuel : nat) (skip : nat -> nat -> bool) (kb : option knowledge_base)
    (pattern : option Z) (initial_subst : option substitution) : M St (list substitution) :=
  let! null := is_null_arena in
  match kb, pattern with
  | Some kb, Some p =>
    if null then ret []
    else
      let! base_subst :=
        match initial_subst with
        | Some s => ret (Some s)
        | None => eshkol_make_substitution 8
        end in
      query_loop fuel skip (kb_facts kb) p base_subst []
  | _, _ => ret []
  end.

(** Arities must be the same. *)
Definition eshkol_kb_query (fuel : nat) := query_from fuel (fun pat fact => negb (Nat.eqb pat fact)).

(** The pattern must not be longer than the fact. *)
Definition eshkol_kb_query_prefix (fuel : nat) := query_from fuel (fun pat fact => Nat.ltb fact pat).

End Logic.

(** [eshkol_kb_retract_tagged] once both pointers are known: the first slot with
    the pointer is closed by moving the later ones down. *)
Fixpoint retract_loop (fact : Z) (facts : list Z) : bool * list Z :=
  match facts with
  | [] => (false, [])
  | p :: facts' =>
    if p =? fact then (true, facts')
    else let '(found, rest) := retract_loop fact facts' in (found, p :: rest)
  end.

Definition eshkol_kb_retract_tagged (kb : option knowledge_base) (fact : option Z)
  : bool * option knowledge_base :=
  match kb, fact with
  | Some kb, Some fact =>
    let '(found, facts) := retract_loop fact (kb_facts kb) in
    (found, Some (mkKB (kb_capacity kb) facts))
  | _, _ => (false, kb)
  end.
