(* ===== verification/LogicSpec.v ===== *)
(** * What the logic engine's operations promise

    The relation between values and the terms of [Unification], and the proofs that
    walking, the occurs check and unification as coded compute walks, occurrences
    and most general unifiers of those terms. *)

From Stdlib Require Import ZArith List Lia Bool Arith.
From stdpp Require Import base gmap list numbers.
From S2P Require Import Prelude Effects Arena Tagged HashKeys DeepEqual Unification Logic.
Import ListNotations.
Open Scope Z_scope.
Open Scope effect_scope.

(** ** Values as terms *)

Section Meaning.
  Variables (h : store) (eq_fuel : nat).

(** The text of a predicate pointer. *)
Definition pred_name (p : Z) (name : option (list Z)) : Prop :=
  match name with
  | None => p = 0
  | Some s => p <> 0 /\ c_bytes h p = Some s
  end.

(** [v] stands for [t], with facts nested at most [n] deep. *)
Fixpoint term_at (n : nat) (v : tagged_value) (t : term) : Prop :=
  0 <= vtype v < 256 /\ 0 <= vdata v < 2 ^ 64 /\
  match t with
  | TVar x => vtype v = ESHKOL_VALUE_LOGIC_VAR /\ x = vdata v
  | TAtom d => vtype v <> ESHKOL_VALUE_LOGIC_VAR /\ fact_of h v = Some None /\ denotes h eq_fuel v d
  | TFact name ts =>
    exists pred args, vtype v = ESHKOL_VALUE_HEAP_PTR /\ vdata v <> 0 /\
    h !! vdata v = Some (obj_fact pred args) /\ pred_name pred name /\
    match n with O => False | S n' => Forall2 (term_at n') args ts end
  end.

Definition is_term (v : tagged_value) (t : term) : Prop := exists n, term_at n v t.

Lemma term_at_mono n m v t : (n <= m)%nat -> term_at n v t -> term_at m v t.
Proof.
  revert m v t. induction n as [|n IH]; intros m v t Hm; destruct t as [x|d|p ts], m as [|m]; cbn [term_at];
    try tauto; try lia.
  - intros (_ & _ & ? & ? & _ & _ & _ & _ & []).
  - intros (R1 & R2 & pred & args & E & N & L & P & HF). split; [exact R1|]. split; [exact R2|].
    exists pred, args. repeat split; auto. eapply Forall2_impl; [|exact HF]. intros; apply IH; [lia|assumption].
Qed.

Lemma is_term_args args ts n : Forall2 (term_at n) args ts -> Forall2 is_term args ts.
Proof. intros H. eapply Forall2_impl; [|exact H]. intros a b Hab. exists n. exact Hab. Qed.

Lemma base_type_byte ty : 0 <= ty < 256 -> base_type ty = ty.
Proof.
  intros H. unfold base_type. destruct (Z.geb_spec ty 8); [reflexivity|].
  change 15 with (Z.ones 4). rewrite Z.land_ones by lia. apply Z.mod_small. lia.
Qed.

Lemma term_at_range n v t : term_at n v t -> 0 <= vtype v < 256 /\ 0 <= vdata v < 2 ^ 64.
Proof. destruct n, t; cbn [term_at]; tauto. Qed.

(** Every value of a term has a meaning for [eshkol_deep_equal]. *)
Definition datum_of (v : tagged_value) (t : term) (d : datum) : Prop :=
  match t with
  | TVar x => d = DScalar ESHKOL_VALUE_LOGIC_VAR x
  | TAtom d' => d = d'
  | TFact _ _ => d = DRef (vdata v)
  end.

Lemma term_denotes n v t : term_at n v t -> exists d, datum_of v t d /\ denotes h eq_fuel v d.
Proof.
  intros H. pose proof (term_at_range n v t H) as [R1 R2].
  destruct t as [x|d|p ts]; cbn [datum_of].
  - eexists. split; [reflexivity|]. assert (E : vtype v = ESHKOL_VALUE_LOGIC_VAR /\ x = vdata v) by (destruct n; cbn [term_at] in H; tauto).
    destruct E as [E ->]. destruct eq_fuel; cbn [denotes]; rewrite base_type_byte, E by exact R1;
      (split; [exact R2|]); repeat split; unfold plain_type; cbn; intuition discriminate.
  - exists d. split; [reflexivity|]. destruct n; cbn [term_at] in H; tauto.
  - eexists. split; [reflexivity|].
    assert (E : exists pred args, vtype v = ESHKOL_VALUE_HEAP_PTR /\ vdata v <> 0 /\ h !! vdata v = Some (obj_fact pred args))
      by (destruct n; cbn [term_at] in H; decompose_all; eauto 10).
    destruct E as (pred & args & E & N & L).
    destruct eq_fuel; cbn [denotes]; rewrite base_type_byte, E by exact R1; (split; [exact R2|]);
      (split; [reflexivity|]); exists (obj_fact pred args); cbn; auto.
Qed.

Lemma pred_name_det p n1 n2 : pred_name p n1 -> pred_name p n2 -> n1 = n2.
Proof. destruct n1, n2; cbn; intuition congruence. Qed.

Lemma fact_of_fact v pred args :
  vtype v = ESHKOL_VALUE_HEAP_PTR -> vdata v <> 0 -> h !! vdata v = Some (obj_fact pred args) ->
  fact_of h v = Some (Some (pred, args)).
Proof.
  intros E N L. unfold fact_of, heap_pointer. rewrite E, L, (proj2 (Z.eqb_neq _ _) N). reflexivity.
Qed.

(** Type and payload determine the term. *)
Lemma term_at_functional n m v w t1 t2 :
  term_at n v t1 -> term_at m w t2 -> vtype v = vtype w -> vdata v = vdata w -> t1 = t2.
Proof.
  assert (NC : ESHKOL_VALUE_LOGIC_VAR <> ESHKOL_VALUE_HEAP_PTR) by discriminate.
  revert m v w t1 t2. induction n as [|n IH]; intros m v w t1 t2 H1 H2 ET ED;
    destruct t1 as [x|d|p ts], t2 as [y|d'|q us]; destruct m as [|m]; cbn [term_at] in H1, H2; decompose_all;
    try congruence; try contradiction.
  all: try (f_equal; apply (denotes_functional h eq_fuel v w); auto; congruence).
  all: repeat match goal with
    | E : vtype ?u = ESHKOL_VALUE_HEAP_PTR, N : vdata ?u <> 0, L : h !! vdata ?u = Some (obj_fact _ _) |- _ =>
      pose proof (fact_of_fact u _ _ E N L); clear L
    end; unfold fact_of, heap_pointer in *; rewrite <- ?ET, <- ?ED in *; try congruence.
  match goal with L1 : ?x = Some (Some _), L2 : ?x = Some (Some _) |- _ => rewrite L1 in L2; injection L2 as <- <- end.
  f_equal; [eauto using pred_name_det|].
  eapply (Forall2_agree (term_at n) (term_at m)); eauto.
Qed.

(** ** The equality test of unification *)

Lemma data_eq_int v w x :
  0 <= vdata v < 2 ^ 64 -> 0 <= x < 2 ^ 64 -> w = mkTagged 0 0 0 x -> (int_val v =? int_val w) = (vdata v =? x).
Proof.
  intros Hv Hx ->. apply eq_true_iff_eq. rewrite !Z.eqb_eq. split.
  - intros E. apply (int_val_inj v (mkTagged 0 0 0 x)); auto.
  - intros E. unfold int_val. cbn. congruence.
Qed.

Lemma atom_not_fact m w p d :
  term_at m w (TAtom d) -> d = DRef p -> (exists pred args, h !! p = Some (obj_fact pred args)) -> False.
Proof.
  intros H -> (pred & args & L). pose proof (term_at_range m w _ H) as [T _].
  assert (F : fact_of h w = Some None /\ denotes h eq_fuel w (DRef p)) by (destruct m; cbn [term_at] in H; tauto).
  destruct F as [F D].
  assert (E : p = vdata w /\ vtype w = ESHKOL_VALUE_HEAP_PTR /\ vdata w <> 0)
    by (destruct eq_fuel; cbn [denotes] in D; rewrite base_type_byte in D by exact T; decompose_all; auto).
  destruct E as (-> & E & N). rewrite (fact_of_fact w pred args E N L) in F. discriminate.
Qed.

(** Two values other than variables with the same meaning are the same term. *)
Lemma same_datum n m v w t u d :
  term_at n v t -> term_at m w u ->
  vtype v <> ESHKOL_VALUE_LOGIC_VAR -> vtype w <> ESHKOL_VALUE_LOGIC_VAR ->
  datum_of v t d -> datum_of w u d -> t = u.
Proof.
  intros Hv Hw Nv Nw Dv Dw.
  assert (Hfact : forall n v p ts, term_at n v (TFact p ts) ->
    vtype v = ESHKOL_VALUE_HEAP_PTR /\ exists pred args, h !! vdata v = Some (obj_fact pred args))
    by (intros [|k] ? ? ?; cbn [term_at]; intros; decompose_all; eauto).
  destruct t as [x|d1|p ts]; [destruct n; cbn [term_at] in Hv; tauto| |];
    (destruct u as [y|d2|q us]; [destruct m; cbn [term_at] in Hw; tauto| |]); cbn [datum_of] in Dv, Dw; subst.
  - reflexivity.
  - exfalso. destruct (Hfact _ _ _ _ Hw) as [_ Hf]. exact (atom_not_fact _ _ _ _ Hv eq_refl Hf).
  - exfalso. destruct (Hfact _ _ _ _ Hv) as [_ Hf]. exact (atom_not_fact _ _ _ _ Hw eq_refl Hf).
  - injection Dw as Dw. destruct (Hfact _ _ _ _ Hv) as [Ev _]. destruct (Hfact _ _ _ _ Hw) as [Ew _].
    apply (term_at_functional n m v w); congruence.
Qed.

Lemma term_var n v t : term_at n v t -> vtype v = ESHKOL_VALUE_LOGIC_VAR -> t = TVar (vdata v).
Proof.
  intros H E. destruct n, t; cbn [term_at] in H; decompose_all; subst; try congruence; rewrite E in *; discriminate.
Qed.

Lemma term_not_var n v t x : term_at n v t -> vtype v <> ESHKOL_VALUE_LOGIC_VAR -> t <> TVar x.
Proof. intros H E ->. destruct n; cbn [term_at] in H; tauto. Qed.

Lemma denotes_variable v x :
  0 <= vtype v < 256 -> denotes h eq_fuel v (DScalar ESHKOL_VALUE_LOGIC_VAR x) -> vtype v = ESHKOL_VALUE_LOGIC_VAR.
Proof.
  intros T H. destruct eq_fuel; cbn [denotes] in H; rewrite base_type_byte in H by exact T; destruct H as (_ & E & _); congruence.
Qed.

(** It answers, and its answer is equality of terms, except that two facts at
    different addresses are left to structural unification. *)
Lemma equal_spec n m v w t u :
  term_at n v t -> term_at m w u ->
  exists b, tagged_values_equal h eq_fuel v w = Some b /\
    (b = true -> t = u) /\
    (b = false -> t <> u \/ exists p l q k, t = TFact p l /\ u = TFact q k).
Proof.
  intros Hv Hw. destruct (term_at_range n v t Hv) as [Tv Rv]. destruct (term_at_range m w u Hw) as [Tw Rw].
  destruct (term_denotes n v t Hv) as (d & Dd & Hd). destruct (term_denotes m w u Hw) as (d' & Dd' & Hd').
  destruct (deep_equal_denotes h eq_fuel v w d d' Hd Hd') as (b & Eb & Hb). unfold tagged_values_equal.
  destruct (Z.eqb_spec (vtype v) ESHKOL_VALUE_LOGIC_VAR) as [Ev|Ev];
    destruct (Z.eqb_spec (vtype w) ESHKOL_VALUE_LOGIC_VAR) as [Ew|Ew]; cbn [andb];
    try (rewrite (term_var n v t Hv Ev) in * ); try (rewrite (term_var m w u Hw Ew) in * ).
  - eexists. split; [reflexivity|]. rewrite Z.eqb_eq, Z.eqb_neq.
    split; [intros E; rewrite (int_val_inj v w Rv Rw E); reflexivity|].
    intros E. left. intros X. injection X as X. apply E. unfold int_val. congruence.
  - exists b. split; [exact Eb|]. split.
    + intros ->. pose proof (proj1 Hb eq_refl) as <-. cbn [datum_of] in Dd. subst d.
      destruct (Ew (denotes_variable w _ Tw Hd')).
    + intros _. left. intros X. exact (term_not_var m w u (vdata v) Hw Ew (eq_sym X)).
  - exists b. split; [exact Eb|]. split.
    + intros ->. pose proof (proj1 Hb eq_refl) as ->. cbn [datum_of] in Dd'. subst d'.
      destruct (Ev (denotes_variable v _ Tv Hd)).
    + intros _. left. exact (term_not_var n v t (vdata w) Hv Ev).
  - exists b. split; [exact Eb|]. split.
    + intros ->. pose proof (proj1 Hb eq_refl) as <-. exact (same_datum n m v w t u d Hv Hw Ev Ew Dd Dd').
    + intros ->. destruct t as [x|dt|p l], u as [y|du|q k]; eauto 10; left; try discriminate.
      * intros _. exact (term_not_var n v _ x Hv Ev eq_refl).
      * intros [= ->]. cbn in Dd, Dd'. subst. discriminate (proj2 Hb eq_refl).
Qed.

(** ** Substitutions *)

(** The variables [V] of a problem, and a bound on the nesting of the facts that
    occur in it as they stand. *)
  Variables (V : list Z) (nesting : nat).

Definition good_term (t : term) : Prop := incl (vars t) V /\ (height t <= nesting)%nat.

Record good_subst (s : bindings) : Prop := {
  gs_acyclic : acyclic s;
  gs_nodup : List.NoDup (map fst s);
  gs_vars : incl (map fst s) V;
  gs_terms : forall x t, In (x, t) s -> good_term t;
}.

(** A substitution and the bindings it holds; its arrays are not smaller than
    that and not larger than a power of two no run comes near. *)
Record represents (s : substitution) (b : bindings) : Prop := {
  rp_bindings : Forall2 (fun p q => fst p = fst q /\ is_term (snd p) (snd q)) (sub_bindings s) b;
  rp_room : num_bindings s <= sub_capacity s;
  rp_small : sub_capacity s <= 2 ^ 24;
}.

(** How deep images can be nested. *)
Definition depth_bound : nat := nesting + nesting * length V.

Lemma good_image s t t' : good_subst s -> good_term t -> has_image s t t' -> (height t' <= depth_bound)%nat.
Proof.
  intros G [_ Ht] Hi. unfold depth_bound.
  assert (Hlen : (length (map fst s) <= length V)%nat)
    by (apply NoDup_incl_length; [apply (gs_nodup s G)|apply (gs_vars s G)]).
  assert (Hs : forall x u, binding s x = Some u -> (height u <= nesting)%nat)
    by (intros x u E; apply (gs_terms s G x u), binding_in, E).
  pose proof (image_height s nesting (gs_acyclic s G) Hs (length V) (map fst s) t t' Hlen (reaches_bound s t) Hi). lia.
Qed.

Lemma lookup_spec l b x :
  Forall2 (fun p q => fst p = fst q /\ is_term (snd p) (snd q)) l b ->
  match lookup_loop l x, binding b x with
  | Some v, Some t => is_term v t
  | None, None => True
  | _, _ => False
  end.
Proof.
  induction 1 as [|[id v] [y t] l b [E H] _ IH]; [exact I|]. cbn in E, H |- *. subst y.
  destruct (id =? x); [exact H|exact IH].
Qed.

Lemma walk_loop_spec s b n v t w :
  represents s b -> is_term v t -> follow b n t = Some w ->
  exists v', walk_loop n v s = Some v' /\ is_term v' w.
Proof.
  intros R. revert v t. induction n as [|n IH]; intros v t [k Hk] Hf.
  all: cbn [walk_loop]; destruct (Z.eqb_spec (vtype v) ESHKOL_VALUE_LOGIC_VAR) as [E|E].
  all: try (exists v; split; [reflexivity|];
            replace w with t by (destruct t; try (injection Hf; auto); destruct (term_not_var k v _ x Hk E eq_refl));
            exists k; exact Hk).
  all: pose proof (term_var k v t Hk E) as ->; cbn [follow] in Hf;
    pose proof (lookup_spec _ _ (vdata v) (rp_bindings s b R)) as Hl; cbn [eshkol_subst_lookup];
    destruct (lookup_loop (sub_bindings s) (vdata v)) as [u|], (binding b (vdata v)) as [tu|]; try contradiction;
    try discriminate; try (injection Hf as <-; exists v; split; [reflexivity|exists k; exact Hk]).
  apply (IH u tu Hl Hf).
Qed.

(** The walk ends, at a value of the walked term. *)
Lemma walk_spec s b v t :
  represents s b -> good_subst b -> is_term v t ->
  exists v' w, walk v (Some s) = Some v' /\ is_term v' w /\ walked b t w.
Proof.
  intros R G Hv.
  destruct (follow_total b (length b) (map fst b) t (gs_acyclic b G)) as [w Hw].
  - rewrite length_map. lia.
  - apply reaches_bound.
  - destruct (walk_loop_spec s b (length b) v t w R Hv Hw) as (v' & E & Hv').
    exists v', w. cbn [walk]. rewrite (Forall2_length (rp_bindings s b R)).
    repeat split; try assumption; apply (follow_walked b _ _ _ Hw).
Qed.

Lemma walked_good b t w : good_subst b -> good_term t -> walked b t w -> good_term w.
Proof. intros G Ht W. destruct (wk_from _ _ _ W) as [->|[x Hx]]; [exact Ht|exact (gs_terms b G x w Hx)]. Qed.

(** The three kinds of values. *)
Lemma fact_of_spec v t :
  is_term v t ->
  (exists x, t = TVar x /\ vtype v = ESHKOL_VALUE_LOGIC_VAR /\ vdata v = x) \/
  (exists d, t = TAtom d /\ vtype v <> ESHKOL_VALUE_LOGIC_VAR /\ fact_of h v = Some None) \/
  (exists name ts pred args, t = TFact name ts /\ vtype v <> ESHKOL_VALUE_LOGIC_VAR /\ heap_pointer v = true /\
     fact_of h v = Some (Some (pred, args)) /\ pred_name pred name /\ Forall2 is_term args ts).
Proof.
  intros [n H]. destruct t as [x|d|name ts].
  - left. exists x. destruct n; cbn [term_at] in H; intuition.
  - right; left. exists d. destruct n; cbn [term_at] in H; tauto.
  - right; right. destruct n as [|n]; cbn [term_at] in H; destruct H as (_ & _ & pred & args & E & N & L & P & HF);
      [destruct HF|].
    exists name, ts, pred, args. repeat split; auto.
    + rewrite E. discriminate.
    + unfold heap_pointer. rewrite E, (proj2 (Z.eqb_neq _ _) N). reflexivity.
    + apply fact_of_fact; assumption.
    + apply (is_term_args _ _ n), HF.
Qed.

(** ** The occurs check *)

Lemma is_term_range v t : is_term v t -> 0 <= vdata v < 2 ^ 64.
Proof. intros [n H]. apply (term_at_range n v t H). Qed.

Lemma var_ids_equal v x : 0 <= vdata v < 2 ^ 64 -> 0 <= x < 2 ^ 64 -> (int_val v =? s64 x) = (vdata v =? x).
Proof. intros Hv Hx. apply (data_eq_int v (mkTagged 0 0 0 x) x); auto. Qed.

(** Up to its depth limit the check decides whether the variable occurs in the
    image of the term. *)
Lemma occurs_spec s b x n v t t' :
  represents s b -> good_subst b -> is_term v t -> 0 <= x < 2 ^ 64 ->
  has_image b t t' -> (height t' <= n)%nat ->
  exists r, occurs_impl h (S n) x v (Some s) = Some r /\ (r = true <-> In x (vars t')).
Proof.
  intros R G. revert v t t'. induction n as [n IH] using lt_wf_ind. intros v t t' Hv Rx Hi Hh.
  destruct (walk_spec s b v t R G Hv) as (v' & w & Ew & Hv' & W). cbn [occurs_impl]. rewrite Ew.
  apply (wk_image _ _ _ W) in Hi.
  destruct (fact_of_spec v' w Hv') as [(y & -> & E & Ey)|[(d & -> & E & F)|(p & ts & pred & args & -> & E & _ & F & _ & HF)]].
  - rewrite E, Z.eqb_refl. eexists. split; [reflexivity|].
    rewrite (has_image_det b _ _ _ Hi (image_free b y (wk_stuck _ _ _ W y eq_refl))).
    rewrite var_ids_equal by eauto using is_term_range. rewrite Z.eqb_eq. cbn. intuition congruence.
  - rewrite (proj2 (Z.eqb_neq _ _) E), F. exists false. split; [reflexivity|].
    rewrite (has_image_det b _ _ _ Hi (image_atom b d)). cbn. intuition discriminate.
  - rewrite (proj2 (Z.eqb_neq _ _) E), F.
    destruct (image_fact_inv b p ts t' Hi) as (us & -> & HU). cbn [height] in Hh. cbn [vars].
    destruct n as [|n]; [lia|]. assert (Hus : (list_max (map height us) <= n)%nat) by lia. clear Hh Hi.
    assert (HA : forall args ts us, Forall2 is_term args ts -> Forall2 (has_image b) ts us ->
      (list_max (map height us) <= n)%nat ->
      exists r, any_arg (fun a => occurs_impl h (S n) x a (Some s)) args = Some r /\ (r = true <-> In x (flat_map vars us))).
    { clear -IH Rx. induction args as [|a args IHa]; intros ts us HF HU Hm; inversion HF; subst; inversion HU; subst.
      - exists false. cbn. intuition discriminate.
      - cbn [map] in Hm. rewrite list_max_step in Hm. cbn [any_arg flat_map].
        destruct (IH n ltac:(lia) a _ _ ltac:(eassumption) Rx ltac:(eassumption) ltac:(lia)) as ([|] & -> & Hr).
        + exists true. split; [reflexivity|]. split; [|reflexivity]. intros _. apply in_or_app. left. apply Hr. reflexivity.
        + destruct (IHa _ _ ltac:(eassumption) ltac:(eassumption) ltac:(lia)) as (r & -> & Hr'). exists r. split; [reflexivity|].
          rewrite Hr', in_app_iff. rewrite <- Hr. intuition discriminate. }
    exact (HA args ts us HF HU Hus).
Qed.

(** ** Extension *)

Lemma NoDup_snoc {X} (x : X) l : ~ In x l -> List.NoDup l -> List.NoDup (l ++ [x]).
Proof.
  intros Hx Hl. apply (Permutation.Permutation_NoDup (l := x :: l)); [|constructor; assumption].
  apply Permutation.Permutation_cons_append.
Qed.

Lemma good_extend b x t t' :
  good_subst b -> binding b x = None -> In x V -> good_term t -> has_image b t t' -> ~ In x (vars t') ->
  good_subst (b ++ [(x, t)]).
Proof.
  intros [Ha Hn Hv Ht] Hx Hin Gt Hi Ho. constructor.
  - apply (extend_acyclic b x t t'); assumption.
  - rewrite map_app. cbn. apply NoDup_snoc; [apply binding_none, Hx|exact Hn].
  - rewrite map_app. cbn. apply incl_app; [exact Hv|]. intros y [<-|[]]. exact Hin.
  - intros y u Hy. apply in_app_or in Hy. destruct Hy as [Hy|[[= -> ->]|[]]]; [exact (Ht y u Hy)|exact Gt].
Qed.

  Context {St : Type} {A : Arena St} {L : ArenaLaws St} {G : Granted}.
  Hypothesis few_vars : Z.of_nat (length V) <= 65536.

Lemma good_length b : good_subst b -> (length b <= length V)%nat.
Proof.
  intros Gb. rewrite <- (length_map fst b). apply NoDup_incl_length; [apply (gs_nodup b Gb)|apply (gs_vars b Gb)].
Qed.

(** Room for one more binding, and still a small object. *)
Lemma extended_capacity_spec s :
  num_bindings s <= 65536 -> num_bindings s <= sub_capacity s -> sub_capacity s <= 2 ^ 24 ->
  num_bindings s + 1 <= extended_capacity (Some s) <= 2 ^ 24.
Proof.
  intros Hn Hr Hs. unfold extended_capacity. assert (0 <= num_bindings s) by (unfold num_bindings; lia).
  change (2 ^ 24) with 16777216 in *. unfold u32. change (2 ^ 32) with 4294967296.
  rewrite !Z.mod_small by lia.
  destruct (Z.leb_spec (num_bindings s + 1) (sub_capacity s)); [lia|].
  destruct (Z.ltb_spec (num_bindings s + 1) (sub_capacity s * 2)); lia.
Qed.

Lemma alloc_substitution_spec c :
  0 <= c <= 2 ^ 24 -> wp (alloc_substitution c) (or_null True (fun s => s = mkSubst c [])).
Proof.
  intros Hc. change (2 ^ 24) with 16777216 in Hc. unfold alloc_substitution, sizeof_substitution, sizeof_tagged.
  rewrite u64_small by lia.
  eapply wp_check; [apply allocate_with_header_spec; lia|lia|].
  intros p _. apply wp_ret. reflexivity.
Qed.

Lemma extend_subst_spec s b x v t t' :
  represents s b -> good_subst b -> binding b x = None -> In x V -> good_term t -> is_term v t ->
  has_image b t t' -> ~ In x (vars t') ->
  wp (eshkol_extend_subst (Some s) x (Some v))
     (or_null True (fun s' => represents s' (b ++ [(x, t)]) /\ good_subst (b ++ [(x, t)]))).
Proof.
  intros R Gb Hx Hin Gt Hv Hi Ho. unfold eshkol_extend_subst.
  apply (wp_call _ _ _ _ wp_is_null_arena). intros null ->.
  pose proof (good_length b Gb) as Hlen. pose proof (Forall2_length (rp_bindings s b R)) as Hb.
  destruct (extended_capacity_spec s) as [H1 H2];
    [unfold num_bindings; lia|apply (rp_room s b R)|apply (rp_small s b R)|].
  assert (0 <= num_bindings s) by (unfold num_bindings; lia).
  eapply wp_check; [apply alloc_substitution_spec; lia|auto|].
 intros new ->. cbn [sub_capacity]. unfold num_bindings in *.
  destruct (Z.ltb_spec (Z.of_nat (length (sub_bindings s))) (extended_capacity (Some s))); [|lia].
  apply wp_ret. split.
  - constructor; cbn [sub_bindings sub_capacity]; unfold num_bindings; cbn [sub_bindings];
      [|rewrite length_app; cbn [length]; lia|exact H2].
    apply Forall2_app; [apply (rp_bindings s b R)|]. repeat constructor. exact Hv.
  - apply (good_extend b x t t'); assumption.
Qed.

(** ** Unification *)

  Hypothesis shallow : (depth_bound <= OCCURS_CHECK_MAX_DEPTH)%nat.

(** What a call with the substitution [b] returns: a most general extension of it,
    or null, and then nothing unifies the terms unless a request was refused. *)
Definition unified (b : bindings) (t1 t2 : term) (r : option substitution) : Prop :=
  match r with
  | Some s' => exists d, represents s' (b ++ d) /\ good_subst (b ++ d) /\ most_general b t1 t2 (b ++ d)
  | None => granted -> no_unifier b t1 t2
  end.

Definition unified_args (b : bindings) (l1 l2 : list term) (r : option substitution) : Prop :=
  match r with
  | Some s' => exists d, represents s' (b ++ d) /\ good_subst (b ++ d) /\ most_general_args b l1 l2 (b ++ d)
  | None => granted -> no_unifier_args b l1 l2
  end.

Lemma image_not_var b t w w' x :
  walked b t w -> w <> TVar x -> has_image b w w' -> w' <> TVar x.
Proof.
  intros W Hw Hi ->. destruct w as [y|d|p l].
  - rewrite (has_image_det b _ _ _ Hi (image_free b y (wk_stuck _ _ _ W y eq_refl))) in Hw. contradiction.
  - discriminate (has_image_det b _ _ _ Hi (image_atom b d)).
  - destruct (image_fact_inv b p l _ Hi) as (? & ? & _). discriminate.
Qed.

(** An unbound variable against another walked term. *)
Lemma bind_spec s b x v t w :
  represents s b -> good_subst b -> binding b x = None -> In x V -> 0 <= x < 2 ^ 64 ->
  is_term v w -> good_term w -> walked b t w -> w <> TVar x ->
  wp (let! circular := fuelled (occurs h x v (Some s)) in
      if circular : bool then ret None else eshkol_extend_subst (Some s) x (Some v))
     (unified b (TVar x) w).
Proof.
  intros R Gb Hx Hin Rx Hv Gw W Hne. destruct (gs_acyclic b Gb w) as [w' Hw].
  pose proof (good_image b w w' Gb Gw Hw) as Hd.
  destruct (occurs_spec s b x OCCURS_CHECK_MAX_DEPTH v w w' R Gb Hv Rx Hw ltac:(lia)) as (r & E & Hr).
  unfold occurs. rewrite E. apply (wp_call _ _ (fun c => c = r) _ (wp_fuelled r _ eq_refl)). intros c ->. destruct r.
  - apply wp_ret. intros _. apply (occurs_no_unifier b x w w' Hw); [apply (image_not_var b t w); assumption|apply Hr; reflexivity].
  - assert (Ho : ~ In x (vars w')) by (intros Hc; apply Hr in Hc; discriminate).
    eapply wp_mono; [|apply (extend_subst_spec s b x v w w'); assumption].
    intros [s'|] Hs; cbn in Hs |- *; [|intros g; destruct (Hs g I)].
    exists [(x, w)]. destruct Hs as [Rs Gs]. split; [exact Rs|split; [exact Gs|]].
    exact (bind_most_general b x w w' (gs_acyclic b Gb) Hx Hw Ho).
Qed.

Lemma unified_sym b t1 t2 r : unified b t1 t2 r -> unified b t2 t1 r.
Proof.
  destruct r as [s'|]; cbn; [intros (d & H1 & H2 & H3); exists d; auto using most_general_sym|].
  intros H g. apply no_unifier_sym, H, g.
Qed.

Lemma unified_walked b t1 t2 w1 w2 r : walked b t1 w1 -> walked b t2 w2 -> unified b w1 w2 r -> unified b t1 t2 r.
Proof.
  intros W1 W2. destruct r as [s'|]; cbn.
  - intros (d & H1 & H2 & H3). exists d. split; [exact H1|split; [exact H2|]].
    exact (most_general_walked b t1 t2 w1 w2 W1 W2 _ H3).
  - intros H g. apply (no_unifier_walked b t1 t2 w1 w2 W1 W2), H, g.
Qed.

(** Rounds that suffice: each new binding may expose terms as deep as any image. *)
Definition fuel_for (b : bindings) (t' : term) : nat :=
  (length V - length b) * S depth_bound + height t' + 1.

Definition unify_within (fuel : nat) (f : tagged_value -> tagged_value -> option substitution -> M St (option substitution)) : Prop :=
  forall b s v1 v2 t1 t2 t1',
  represents s b -> good_subst b -> is_term v1 t1 -> is_term v2 t2 -> good_term t1 -> good_term t2 ->
  has_image b t1 t1' -> (fuel_for b t1' <= fuel)%nat ->
  wp (f v1 v2 (Some s)) (unified b t1 t2).

(** A longer substitution needs less. *)
Lemma fuel_for_extended b d t t' u u' :
  good_subst b -> good_subst (b ++ d) -> good_term t -> has_image (b ++ d) t t' -> has_image b u u' ->
  d <> [] -> (fuel_for (b ++ d) t' <= fuel_for b u')%nat.
Proof.
  intros Gb Gd Gt Hi Hu Hd. pose proof (good_image _ t t' Gd Gt Hi). pose proof (good_length _ Gd) as Hl.
  rewrite length_app in Hl. unfold fuel_for. rewrite length_app. destruct d as [|p d]; [contradiction|]. cbn [length] in *.
  replace (length V - length b)%nat with (S (length V - (length b + S (length d)) + length d)) by lia.
  nia.
Qed.

Lemma unify_args_spec fuel f : unify_within fuel f ->
  forall args1 args2 l1 l2 b s,
  represents s b -> good_subst b -> Forall2 is_term args1 l1 -> Forall2 is_term args2 l2 ->
  Forall good_term l1 -> Forall good_term l2 -> length l1 = length l2 ->
  (forall t t', In t l1 -> has_image b t t' -> (fuel_for b t' <= fuel)%nat) ->
  wp (unify_args f args1 args2 (Some s)) (unified_args b l1 l2).
Proof.
  intros Hf. induction args1 as [|a1 args1 IH]; intros args2 l1 l2 b s R Gb H1 H2 G1 G2 Hlen Hfuel.
  - inversion H1; subst. destruct l2; [|discriminate]. apply wp_ret. exists []. rewrite app_nil_r.
    split; [exact R|split; [exact Gb|]]. apply args_nil, (gs_acyclic b Gb).
  - inversion H1 as [|? t1 ? l1' Ha1 Hr1]; subst. destruct l2 as [|t2 l2]; [discriminate|].
    inversion H2 as [|a2 ? args2' ? Ha2 Hr2]; subst. inversion G1; subst. inversion G2; subst.
    destruct (gs_acyclic b Gb t1) as [t1' Ht1]. cbn [unify_args].
    eapply wp_call; [apply (Hf b s a1 a2 t1 t2 t1'); auto; apply (Hfuel t1); [left|]; auto|].
    intros [s'|] Hr; [|apply wp_ret; intros g; apply args_head_clash, Hr, g].
    destruct Hr as (d & R' & Gd & Hm).
    eapply wp_mono; [|apply (IH args2' l1' l2 (b ++ d) s'); auto].
    + intros [s2|] H; cbn in H |- *.
      * destruct H as (d' & R2 & G3 & Hm'). exists (d ++ d'). rewrite app_assoc.
        split; [exact R2|split; [exact G3|]]. exact (args_cons b (b ++ d) _ t1 t2 l1' l2 Hm Hm').
      * intros g. apply (args_tail_clash b (b ++ d) t1 t2 l1' l2 Hm), H, g.
    + intros t t' Hin Hi. destruct d as [|p d].
      * rewrite app_nil_r in Hi |- *. apply (Hfuel t t'); [right|]; assumption.
      * pose proof (Hfuel t1 t1' (or_introl eq_refl) Ht1).
        enough (fuel_for (b ++ p :: d) t' <= fuel_for b t1')%nat by lia.
        apply (fuel_for_extended b (p :: d) t t' t1 t1'); auto.
        match goal with H : Forall good_term l1' |- _ => rewrite List.Forall_forall in H; apply H, Hin end.
Qed.

Lemma same_predicate_spec p1 p2 n1 n2 :
  pred_name p1 n1 -> pred_name p2 n2 -> decides (same_predicate h p1 p2) n1 n2.
Proof.
  unfold same_predicate, same_c_string. destruct n1 as [s1|], n2 as [s2|]; cbn [pred_name].
  - intros [N1 E1] [N2 E2]. apply decides_inj; [congruence|]. apply same_c_string_spec; assumption.
  - intros [N1 E1] ->. rewrite (proj2 (Z.eqb_neq p1 0) N1). cbn. apply decides_false. discriminate.
  - intros -> [N2 E2]. rewrite (Z.eqb_sym 0 p2), (proj2 (Z.eqb_neq p2 0) N2). cbn. apply decides_false. discriminate.
  - intros -> ->. apply decides_true. reflexivity.
Qed.

(** Two walked terms that are not equal, neither of them a variable. *)
Definition structural (fuel : nat) (w1 w2 : tagged_value) (subst : option substitution) : M St (option substitution) :=
  if negb (heap_pointer w1 && heap_pointer w2) then ret None
  else
    let! f1 := deref (fact_of h w1) in
    let! f2 := deref (fact_of h w2) in
    match f1, f2 with
    | Some (pred1, args1), Some (pred2, args2) =>
      let! same := deref (same_predicate h pred1 pred2) in
      if negb same then ret None
      else if negb (Nat.eqb (length args1) (length args2)) then ret None
      else unify_args (unify h eq_fuel fuel) args1 args2 subst
    | _, _ => ret None
    end.

Lemma good_args name ts : good_term (TFact name ts) -> Forall good_term ts.
Proof.
  intros [Hv Hh]. cbn [vars height] in *. apply List.Forall_forall. intros t Ht. split.
  - intros x Hx. apply Hv, in_flat_map. eauto.
  - enough (height t <= list_max (map height ts))%nat by lia.
    apply (proj1 (List.Forall_forall _ _) (proj1 (list_max_le (map height ts) _) (le_n _))), in_map, Ht.
Qed.

Lemma structural_spec fuel b s v1 v2 w1 w2 w1' :
  unify_within fuel (unify h eq_fuel fuel) ->
  represents s b -> good_subst b -> is_term v1 w1 -> is_term v2 w2 -> good_term w1 -> good_term w2 ->
  (forall x, w1 <> TVar x) -> (forall x, w2 <> TVar x) ->
  w1 <> w2 \/ (exists p l q k, w1 = TFact p l /\ w2 = TFact q k) ->
  has_image b w1 w1' -> (fuel_for b w1' <= S fuel)%nat ->
  wp (structural fuel v1 v2 (Some s)) (unified b w1 w2).
Proof.
  intros Hf R Gb H1 H2 G1 G2 N1 N2 Hne Hi Hfuel. unfold structural.
  destruct (fact_of_spec v1 w1 H1) as [(x & -> & _)|[(d1 & -> & _ & F1)|(p & ts & pred1 & args1 & -> & _ & P1 & F1 & Np & A1)]];
    [destruct (N1 x eq_refl)| |];
    (destruct (fact_of_spec v2 w2 H2) as [(y & -> & _)|[(d2 & -> & _ & F2)|(q & us & pred2 & args2 & -> & _ & P2 & F2 & Nq & A2)]];
    [destruct (N2 y eq_refl)| |]).
  1-3: assert (Hno : forall t u, t <> u -> (forall theta, instance theta t = t) -> (forall theta, instance theta u = u) \/
        (exists q us, u = TFact q us) /\ (exists d, t = TAtom d) -> no_unifier b t u); [|].
  1,3,5: intros t u Htu Ht Hu theta _ E; rewrite Ht in E; destruct Hu as [Hu|((q' & us' & ->) & d & ->)]; [rewrite Hu in E; auto|discriminate E].
  - destruct (negb _); [apply wp_ret; intros _|]; [|rewrite F1, F2; apply wp_ret; intros _].
    all: apply Hno; auto; destruct Hne as [|(? & ? & ? & ? & ? & _)]; [assumption|discriminate].
  - destruct (negb _); [apply wp_ret; intros _|rewrite F1, F2; apply wp_ret; intros _].
    all: apply Hno; auto; try discriminate; right; eauto.
  - destruct (negb _); [apply wp_ret; intros _|rewrite F1, F2; apply wp_ret; intros _].
    all: apply no_unifier_sym, Hno; auto; try discriminate; right; eauto.
  - rewrite P1, P2, F1, F2. cbn [negb andb].
    destruct (same_predicate_spec _ _ _ _ Np Nq) as (same & Es & Hs).
    apply (wp_call _ _ _ _ (wp_deref _ (fun f => f = Some (pred1, args1)) eq_refl)). intros f1 ->.
    apply (wp_call _ _ _ _ (wp_deref _ (fun f => f = Some (pred2, args2)) eq_refl)). intros f2 ->.
    rewrite Es. apply (wp_call _ _ _ _ (wp_deref _ (fun f => f = same) eq_refl)). intros c ->.
    destruct same; cbn [negb]; [|apply wp_ret; intros _; apply fact_no_unifier; left; intros E; discriminate (proj2 Hs E)].
    rewrite <- (proj1 Hs eq_refl). pose proof (Forall2_length A1) as L1. pose proof (Forall2_length A2) as L2.
    destruct (Nat.eqb_spec (length args1) (length args2)) as [El|El]; cbn [negb];
      [|apply wp_ret; intros _; apply fact_no_unifier; right; apply args_length_clash; lia].
    destruct (image_fact_inv b p ts w1' Hi) as (ts' & -> & HI).
    eapply wp_mono; [|apply (unify_args_spec fuel _ Hf args1 args2 ts us b s R Gb A1 A2 (good_args _ _ G1) (good_args _ _ G2) ltac:(lia))].
    + intros [s'|]; cbn; [|intros H g; apply fact_no_unifier; right; apply H, g].
      intros (d & R' & G' & Hm). exists d. auto using fact_most_general.
    + intros t t' Ht Hi'. apply list_elem_of_In, list_elem_of_lookup in Ht. destruct Ht as [i Ht].
      destruct (Forall2_lookup_l _ _ _ _ _ HI Ht) as (t'' & Ht'' & Hi'').
      rewrite (has_image_det b _ _ _ Hi' Hi''). unfold fuel_for in *. cbn [height] in Hfuel.
      enough (height t'' <= list_max (map height ts'))%nat by lia.
      apply (proj1 (List.Forall_forall _ _) (proj1 (list_max_le (map height ts') _) (le_n _))), in_map.
      apply list_elem_of_In, list_elem_of_lookup. eauto.
Qed.

(** Within its fuel unification returns, and what it returns is right. *)
Lemma unify_spec fuel : unify_within fuel (unify h eq_fuel fuel).
Proof.
  induction fuel as [|fuel IH]; intros b s v1 v2 t1 t2 t1' R Gb H1 H2 G1 G2 Hi Hfuel; [unfold fuel_for in Hfuel; lia|].
  cbn [unify]. apply (wp_call _ _ _ _ wp_is_null_arena). intros null ->.
  destruct (walk_spec s b v1 t1 R Gb H1) as (u1 & w1 & -> & U1 & W1).
  destruct (walk_spec s b v2 t2 R Gb H2) as (u2 & w2 & -> & U2 & W2).
  apply (wp_call _ _ _ _ (wp_fuelled _ (fun u => u = u1) eq_refl)). intros x1 ->.
  apply (wp_call _ _ _ _ (wp_fuelled _ (fun u => u = u2) eq_refl)). intros x2 ->.
  assert (E : exists r, tagged_values_equal h eq_fuel u1 u2 = Some r /\ (r = true -> w1 = w2) /\
    (r = false -> w1 <> w2 \/ exists p l q k, w1 = TFact p l /\ w2 = TFact q k)).
  { destruct U1 as [n1 U1], U2 as [n2 U2]. apply (equal_spec n1 n2 u1 u2 w1 w2 U1 U2). }
  destruct E as (r & -> & Ht & Hf).
  apply (wp_call _ _ _ _ (wp_fuelled _ (fun e => e = r) eq_refl)). intros e ->. destruct r.
  - apply wp_ret. exists []. rewrite app_nil_r. split; [exact R|split; [exact Gb|]].
    exact (same_most_general b t1 t2 w1 w2 (gs_acyclic b Gb) W1 W2 (Ht eq_refl)).
  - specialize (Hf eq_refl). clear Ht.
    eapply wp_mono; [intros y; apply (unified_walked b t1 t2 w1 w2 y W1 W2)|].
    pose proof (walked_good b t1 w1 Gb G1 W1) as Gw1. pose proof (walked_good b t2 w2 Gb G2 W2) as Gw2.
    destruct (Z.eqb_spec (vtype u1) ESHKOL_VALUE_LOGIC_VAR) as [E1|E1].
    + destruct U1 as [n1 U1]. pose proof (term_var n1 u1 w1 U1 E1) as ->.
      apply (bind_spec s b _ u2 t2 w2); auto.
      * apply (wk_stuck _ _ _ W1). reflexivity.
      * apply Gw1. left. reflexivity.
      * apply (is_term_range u1 (TVar (vdata u1))). exists n1. exact U1.
      * destruct Hf as [Hf|(? & ? & ? & ? & ? & _)]; [congruence|discriminate].
    + destruct (Z.eqb_spec (vtype u2) ESHKOL_VALUE_LOGIC_VAR) as [E2|E2].
      * destruct U2 as [n2 U2]. pose proof (term_var n2 u2 w2 U2 E2) as ->.
        eapply wp_mono; [intros y; apply unified_sym|].
        apply (bind_spec s b _ u1 t1 w1); auto.
        -- apply (wk_stuck _ _ _ W2). reflexivity.
        -- apply Gw2. left. reflexivity.
        -- apply (is_term_range u2 (TVar (vdata u2))). exists n2. exact U2.
        -- destruct U1 as [n1 U1]. exact (term_not_var n1 u1 w1 _ U1 E1).
      * change (wp (structural fuel u1 u2 (Some s)) (unified b w1 w2)).
        apply (structural_spec fuel b s u1 u2 w1 w2 t1' IH R Gb U1 U2 Gw1 Gw2); auto.
        -- destruct U1 as [n1 U1]. intros x. exact (term_not_var n1 u1 w1 x U1 E1).
        -- destruct U2 as [n2 U2]. intros x. exact (term_not_var n2 u2 w2 x U2 E2).
        -- apply (wk_image _ _ _ W1), Hi.
Qed.

End Meaning.
