(* ===== verification/LogicQuery.v ===== *)
(** * Deep walk and knowledge-base queries

    On top of [LogicSpec]: the deep walk returns the full image of a term, and a
    query returns, newest fact first, one most general substitution for each fact
    that unifies with the pattern, and none for the others. *)

From Stdlib Require Import ZArith List Lia Bool Arith.
From stdpp Require Import base gmap list numbers.
From S2P Require Import Prelude Effects Arena Tagged HashKeys DeepEqual Unification Logic LogicSpec.
Import ListNotations.
Open Scope Z_scope.
Open Scope effect_scope.

Lemma empty_good V nesting : LogicSpec.good_subst V nesting [].
Proof.
  constructor; cbn; [|constructor|intros x []|intros x t []].
  intros t. exists t. induction t as [x|d|q args IH] using term_induction.
  - apply image_free. reflexivity.
  - apply image_atom.
  - apply image_fact. induction IH; constructor; assumption.
Qed.

Section Query.
  Variables (h : store) (eq_fuel : nat) (V : list Z) (nesting : nat).
  Context {St : Type} {A : Arena St} {L : ArenaLaws St} {G : Granted}.

Abbreviation good_term := (good_term V nesting).
Abbreviation good_subst := (good_subst V nesting).
Abbreviation represents := (represents h eq_fuel).
Abbreviation is_term := (is_term h eq_fuel).

(** ** Deep walk *)

(** Arities an object header can describe; no larger fact can be allocated. *)
Definition small_facts : Prop :=
  forall p pred args, h !! p = Some (obj_fact pred args) -> Z.of_nat (length args) <= 2 ^ 27.

(** A result stands for a term. *)
Fixpoint resolved_as (r : resolved) (t : term) : Prop :=
  match r, t with
  | Same v, _ => is_term v t
  | Fresh _ pred args, TFact name ts =>
    pred_name h pred name /\
    (fix all (l : list resolved) (k : list term) : Prop :=
      match l, k with
      | [], [] => True
      | a :: l', b :: k' => resolved_as a b /\ all l' k'
      | _, _ => False
      end) args ts
  | _, _ => False
  end.

Lemma resolved_fact p pred args name ts :
  pred_name h pred name -> Forall2 resolved_as args ts -> resolved_as (Fresh p pred args) (TFact name ts).
Proof. intros Hp HF. split; [exact Hp|]. induction HF; [exact I|split; assumption]. Qed.

Lemma each_spec {X Y Z} (f : X -> M St Y) (R : X -> Z -> Prop) (Q : Y -> Z -> Prop) l k :
  (forall x z, R x z -> wp (f x) (fun y => granted -> Q y z)) ->
  Forall2 R l k -> wp (each f l) (fun ys => granted -> Forall2 Q ys k).
Proof.
  intros Hf. induction 1 as [|x z l k Hx _ IH]; cbn [each]; [apply wp_ret; constructor|].
  apply (wp_call _ _ _ _ (Hf x z Hx)). intros y Hy. apply (wp_call _ _ _ _ IH). intros ys Hys.
  apply wp_ret. intros g. constructor; auto.
Qed.

Lemma Forall2_and {X Y} (R Q : X -> Y -> Prop) l k : Forall2 R l k -> Forall2 Q l k -> Forall2 (fun x y => R x y /\ Q x y) l k.
Proof. intros H1 H2. induction H1; inversion H2; subst; constructor; auto. Qed.

(** The values under a fact with the images of what they stand for. *)
Definition with_image (b : bindings) (n : nat) (v : tagged_value) (t' : term) : Prop :=
  exists t, is_term v t /\ has_image b t t' /\ (height t' <= n)%nat.

Lemma with_image_args b n args ts ts' :
  Forall2 is_term args ts -> Forall2 (has_image b) ts ts' -> (list_max (map height ts') <= n)%nat ->
  Forall2 (with_image b n) args ts'.
Proof.
  intros H1. revert ts'. induction H1 as [|a t args ts Ha _ IH]; intros ts' H2 Hn; inversion H2; subst; constructor.
  - cbn [map] in Hn. rewrite list_max_step in Hn. exists t. repeat split; auto. lia.
  - cbn [map] in Hn. rewrite list_max_step in Hn. apply IH; auto. lia.
Qed.

Lemma walk_deep_spec s b n v t' :
  small_facts -> represents s b -> good_subst b -> with_image b n v t' ->
  wp (walk_deep_impl h (S n) v (Some s)) (fun r => granted -> resolved_as r t').
Proof.
  intros Hsmall R Gb. revert v t'. induction n as [n IH] using lt_wf_ind. intros v t' (t & Hv & Hi & Hn).
  cbn [walk_deep_impl]. apply (wp_call _ _ _ _ wp_is_null_arena). intros null ->.
  destruct (walk_spec h eq_fuel V nesting s b v t R Gb Hv) as (u & w & -> & Hu & W).
  apply (wp_call _ _ _ _ (wp_fuelled _ (fun x => x = u) eq_refl)). intros x ->.
  apply (wk_image _ _ _ W) in Hi.
  destruct (fact_of_spec h eq_fuel u w Hu) as [(y & -> & E & Ey)|[(d & -> & E & F)|(name & ts & pred & args & -> & E & P & F & Np & HF)]].
  - assert (F : fact_of h u = Some None).
    { unfold fact_of, heap_pointer. rewrite E. reflexivity. }
    rewrite F. apply (wp_call _ _ _ _ (wp_deref _ (fun f => f = None) eq_refl)). intros f ->. apply wp_ret. intros _.
    rewrite (has_image_det b _ _ _ Hi (image_free b y (wk_stuck _ _ _ W y eq_refl))). exact Hu.
  - rewrite F. apply (wp_call _ _ _ _ (wp_deref _ (fun f => f = None) eq_refl)). intros f ->. apply wp_ret. intros _.
    rewrite (has_image_det b _ _ _ Hi (image_atom b d)). exact Hu.
  - rewrite F. apply (wp_call _ _ _ _ (wp_deref _ (fun f => f = Some (pred, args)) eq_refl)). intros f ->.
    assert (Hargs : Z.of_nat (length args) <= 2 ^ 27).
    { unfold fact_of in F. rewrite P in F. destruct (h !! vdata u) as [[]|] eqn:Eu; try discriminate.
      injection F as -> ->. exact (Hsmall _ _ _ Eu). }
    change (2 ^ 27) with 134217728 in Hargs. unfold alloc_fact, sizeof_fact, sizeof_tagged. rewrite u64_small by lia.
    eapply wp_call; [apply allocate_with_header_spec; lia|].
    intros [p|] Hp; [|apply wp_ret; intros g; destruct (Hp g ltac:(lia))]. clear Hp.
    destruct (image_fact_inv b name ts t' Hi) as (ts' & -> & HI). cbn [height] in Hn. destruct n as [|n]; [lia|].
    eapply wp_call.
    + apply (each_spec _ (with_image b n) resolved_as args ts').
      * intros a a' Ha. apply (IH n ltac:(lia) a a' Ha).
      * apply (with_image_args b n args ts ts' HF HI). lia.
    + intros rs Hrs. apply wp_ret. intros g. apply resolved_fact; auto.
Qed.

(** ** Queries *)

(** Enough fuel for any unification of the problem. *)
Definition unify_fuel : nat := S (length V) * S (depth_bound V nesting).

Lemma fuel_enough b t t' fuel :
  good_subst b -> good_term t -> has_image b t t' -> (unify_fuel <= fuel)%nat -> (fuel_for V nesting b t' <= fuel)%nat.
Proof.
  intros Gb Gt Hi Hf. pose proof (good_image V nesting b t t' Gb Gt Hi) as Hh. unfold unify_fuel, fuel_for in *. nia.
Qed.

(** Only as many arguments as the pattern has are looked at. *)
Lemma unify_args_prefix f (args1 args2 : list tagged_value) c (x : St) :
  unify_args f args1 args2 c x = unify_args f args1 (firstn (length args1) args2) c x.
Proof.
  revert args2 c x. induction args1 as [|a1 args1 IH]; intros [|a2 args2] c x; try reflexivity.
  cbn [unify_args length firstn]. unfold bind.
  destruct (f a1 a2 c x) as [[[[r|]| | |] x'] g]; try reflexivity. rewrite IH. reflexivity.
Qed.

Lemma wp_pointwise {X} (m m' : M St X) Q : (forall x, m x = m' x) -> wp m' Q -> wp m Q.
Proof. intros E H x Hx. rewrite E. apply H, Hx. Qed.

(** The fact at an address: its predicate pointer and the terms of its arguments. *)
Definition fact_terms (p : Z) (fact : Z * list term) : Prop :=
  exists args, h !! p = Some (obj_fact (fst fact) args) /\ Forall2 is_term args (snd fact) /\
    Forall good_term (snd fact).

(** What a query owes for one fact: nothing when predicate or arity rule it out,
    and otherwise the result of unifying the arguments. *)
Definition answers (skip : nat -> nat -> bool) (b : bindings) (pattern fact : Z * list term)
    (r : option substitution) : Prop :=
  if predicate_differs (fst pattern) (fst fact) || skip (length (snd pattern)) (length (snd fact))
  then r = None
  else unified_args h eq_fuel V nesting b (snd pattern) (firstn (length (snd pattern)) (snd fact)) r.

Fixpoint somes {X} (l : list (option X)) : list X :=
  match l with
  | [] => []
  | Some x :: l' => x :: somes l'
  | None :: l' => somes l'
  end.

(** The results for a list of facts: every one comes from its fact, and when no
    request was refused none is missing; the last fact's comes first. *)
Definition query_results (skip : nat -> nat -> bool) (b : bindings) (pattern : Z * list term)
    (facts : list (Z * list term)) (acc result : list substitution) : Prop :=
  exists rs, Forall2 (answers skip b pattern) facts rs /\
    (forall s, In s result -> In (Some s) rs \/ In s acc) /\
    (granted -> result = rev (somes rs) ++ acc).

Lemma fact_at_spec p fact :
  fact_terms p fact ->
  wp (fact_at h p) (fun f => fst f = fst fact /\ Forall2 is_term (snd f) (snd fact) /\ Forall good_term (snd fact)).
Proof. intros (args & E & HF & HG). unfold fact_at. rewrite E. apply wp_ret. auto. Qed.

Lemma query_skip skip b pattern fact facts acc result :
  predicate_differs (fst pattern) (fst fact) || skip (length (snd pattern)) (length (snd fact)) = true ->
  query_results skip b pattern facts acc result -> query_results skip b pattern (fact :: facts) acc result.
Proof.
  intros Hs (rs & H1 & H2 & H3). exists (None :: rs). split; [|split].
  - constructor; [unfold answers; rewrite Hs; reflexivity|exact H1].
  - intros s Hs'. destruct (H2 s Hs') as [|]; cbn; auto.
  - exact H3.
Qed.

Lemma query_answer skip b pattern fact facts acc acc' result r :
  answers skip b pattern fact r ->
  (forall s, In s acc' -> r = Some s \/ In s acc) -> (granted -> acc' = somes [r] ++ acc) ->
  query_results skip b pattern facts acc' result -> query_results skip b pattern (fact :: facts) acc result.
Proof.
  intros Hr Hin Hg (rs & H1 & H2 & H3). exists (r :: rs). split; [constructor; assumption|split].
  - intros s Hs. destruct (H2 s Hs) as [|Ha]; [cbn; auto|]. destruct (Hin s Ha) as [->|]; cbn; auto.
  - intros g. rewrite (H3 g), (Hg g). destruct r; cbn; [rewrite <- app_assoc|]; reflexivity.
Qed.

  Hypothesis few_vars : Z.of_nat (length V) <= 65536.
  Hypothesis shallow : (depth_bound V nesting <= OCCURS_CHECK_MAX_DEPTH)%nat.

Lemma query_loop_spec fuel skip pat pattern s b facts fts acc :
  (unify_fuel <= fuel)%nat -> (forall n m, skip n m = false -> (n <= m)%nat) ->
  represents s b -> good_subst b -> fact_terms pat pattern -> Forall2 fact_terms facts fts ->
  wp (query_loop h eq_fuel fuel skip facts pat (Some s) acc) (query_results skip b pattern fts acc).
Proof.
  intros Hfuel Hskip R Gb Hpat HF. revert acc. induction HF as [|p fact facts fts Hp _ IH]; intros acc.
  - apply wp_ret. exists []. split; [constructor|]. cbn. auto.
  - cbn [query_loop]. apply (wp_call _ _ _ _ (fact_at_spec _ _ Hpat)). intros pf (E1 & F1 & G1).
    apply (wp_call _ _ _ _ (fact_at_spec _ _ Hp)). intros ff (E2 & F2 & G2). rewrite E1, E2.
    destruct (predicate_differs (fst pattern) (fst fact)) eqn:Epred.
    { eapply wp_mono; [|apply IH]. intros r. apply query_skip. rewrite Epred. reflexivity. }
    rewrite (Forall2_length F1), (Forall2_length F2).
    destruct (skip (length (snd pattern)) (length (snd fact))) eqn:Eskip.
    { eapply wp_mono; [|apply IH]. intros r. apply query_skip. rewrite Epred, Eskip. reflexivity. }
    pose proof (Hskip _ _ Eskip) as Hlen.
    pose proof (Forall2_length F1) as L1.
    eapply wp_call.
    + eapply wp_pointwise; [intros x; apply unify_args_prefix|].
      apply (unify_args_spec h eq_fuel V nesting few_vars shallow fuel _ (unify_spec h eq_fuel V nesting few_vars shallow fuel)
        (snd pf) _ (snd pattern) (firstn (length (snd pattern)) (snd fact)) b s R Gb F1).
      * rewrite L1. apply Forall2_take, F2.
      * exact G1.
      * apply Forall_take, G2.
      * rewrite length_firstn. lia.
      * intros t t' Ht Hi. apply (fuel_enough b t t'); auto. apply (proj1 (List.Forall_forall _ _) G1), Ht.
    + assert (Hans : forall r, unified_args h eq_fuel V nesting b (snd pattern) (firstn (length (snd pattern)) (snd fact)) r ->
        answers skip b pattern fact r) by (intros r Hr; unfold answers; rewrite Epred, Eskip; exact Hr).
      intros [s'|] Hr; apply Hans in Hr.
      * eapply wp_call; [apply allocate_with_header_spec; cbv; split; congruence|].
        intros cell Hcell. eapply wp_mono; [|apply IH]. intros res.
        apply (query_answer skip b pattern fact fts acc _ res (Some s') Hr).
        -- destruct cell; cbn; [intros x [->|]; auto|auto].
        -- destruct cell; cbn in Hcell |- *; [reflexivity|]. intros g. destruct (Hcell g). cbv. discriminate.
      * eapply wp_mono; [|apply IH]. intros res. apply (query_answer skip b pattern fact fts acc _ res None Hr); auto.
Qed.

Lemma query_from_spec fuel skip kb pat pattern s b fts :
  (unify_fuel <= fuel)%nat -> (forall n m, skip n m = false -> (n <= m)%nat) ->
  represents s b -> good_subst b -> fact_terms pat pattern -> Forall2 fact_terms (kb_facts kb) fts ->
  wp (query_from h eq_fuel fuel skip (Some kb) (Some pat) (Some s)) (query_results skip b pattern fts []).
Proof.
  intros Hfuel Hskip R Gb Hpat HF. unfold query_from.
  apply (wp_call _ _ _ _ wp_is_null_arena). intros null ->.
  apply (wp_call _ _ _ _ (wp_ret _ (fun x => x = Some s) eq_refl)). intros base ->.
  apply query_loop_spec; assumption.
Qed.

(** Without a substitution to start from the query makes an empty one. *)
Lemma query_from_empty fuel skip kb pat pattern fts :
  granted -> (unify_fuel <= fuel)%nat -> (forall n m, skip n m = false -> (n <= m)%nat) ->
  fact_terms pat pattern -> Forall2 fact_terms (kb_facts kb) fts ->
  wp (query_from h eq_fuel fuel skip (Some kb) (Some pat) None) (query_results skip [] pattern fts []).
Proof.
  intros g Hfuel Hskip Hpat HF. unfold query_from.
  apply (wp_call _ _ _ _ wp_is_null_arena). intros null ->.
  eapply wp_call.
  { unfold eshkol_make_substitution. apply (wp_call _ _ _ _ wp_is_null_arena). intros null ->.
    eapply alloc_substitution_spec; try eassumption. cbv. split; discriminate. }
  intros [s|] Hs; [|destruct (Hs g I)]. cbn in Hs. subst s.
  apply query_loop_spec; auto.
  - constructor; cbn; [constructor|unfold num_bindings; cbn; lia|lia].
  - apply empty_good.
Qed.

End Query.

(** ** The knowledge base *)

Section KB.
  Context {St : Type} {A : Arena St} {L : ArenaLaws St} {G : Granted}.

Record kb_ok (kb : knowledge_base) : Prop := {
  kb_room : num_facts kb <= kb_capacity kb;
  kb_slots : 0 < kb_capacity kb < 2 ^ 31;
}.

Lemma make_kb_spec : wp eshkol_make_kb (or_null True (fun kb => kb_ok kb /\ kb_facts kb = [] /\ kb_capacity kb = 16)).
Proof.
  unfold eshkol_make_kb. apply (wp_call _ _ _ _ wp_is_null_arena). intros null ->.
  unfold alloc_kb, sizeof_kb, KB_INITIAL_CAPACITY.
  eapply wp_check; [apply allocate_with_header_spec; lia|lia|]. intros p _.
  eapply wp_check; [apply allocate_spec; lia|auto|]. intros q _. apply wp_ret.
  repeat split; cbn; unfold num_facts; cbn; lia.
Qed.

(** The fact is appended, in an array of at least double the size when the old one
    is full; a refused array loses the fact. *)
Lemma kb_assert_spec kb fact :
  kb_ok kb -> fact <> 0 -> num_facts kb < 2 ^ 30 ->
  wp (eshkol_kb_assert kb fact) (fun kb' =>
    kb_capacity kb' <= Z.max (kb_capacity kb) (2 * num_facts kb) /\
    (kb_ok kb' /\ kb_facts kb' = kb_facts kb ++ [fact] \/ kb' = kb /\ ~ granted)).
Proof.
  intros [Hr Hs] Hf Hn. unfold eshkol_kb_assert. change (2 ^ 31) with 2147483648 in *. change (2 ^ 30) with 1073741824 in *.
  apply (wp_call _ _ _ _ wp_is_null_arena). intros null ->.
  rewrite (proj2 (Z.eqb_neq _ _) Hf). cbn [orb].
  assert (Hlen : forall c, num_facts (mkKB c (kb_facts kb ++ [fact])) = num_facts kb + 1)
    by (intros c; unfold num_facts; cbn; rewrite length_app; cbn; lia).
  destruct (Z.geb_spec (num_facts kb) (kb_capacity kb)) as [Hge|Hlt].
  - unfold u32. rewrite Z.mod_small by (change (2 ^ 32) with 4294967296; lia).
    eapply wp_call; [apply allocate_spec; lia|]. intros [p|] Hp.
    + destruct (Z.ltb_spec (num_facts kb) (kb_capacity kb * 2)); [|lia]. apply wp_ret. cbn [kb_capacity kb_facts].
      split; [lia|left]. split; [|reflexivity]. constructor; [rewrite Hlen|]; cbn [kb_capacity]; lia.
    + apply wp_ret. split; [lia|right]. split; [reflexivity|]. intros g. exact (Hp g I).
  - apply wp_ret. cbn [kb_capacity kb_facts]. split; [lia|left]. split; [|reflexivity].
    constructor; [rewrite Hlen|]; cbn [kb_capacity]; lia.
Qed.

(** The first occurrence is removed. *)
Fixpoint remove_first (x : Z) (l : list Z) : list Z :=
  match l with
  | [] => []
  | y :: l' => if y =? x then l' else y :: remove_first x l'
  end.

Lemma retract_loop_spec x l : retract_loop x l = (existsb (Z.eqb x) l, remove_first x l).
Proof.
  induction l as [|y l IH]; [reflexivity|]. cbn. rewrite IH, (Z.eqb_sym x y). destruct (y =? x); reflexivity.
Qed.

Lemma remove_first_length x l : (length (remove_first x l) <= length l)%nat.
Proof. induction l as [|y l IH]; cbn; [lia|]. destruct (y =? x); cbn; lia. Qed.

(** A knowledge base is a list of facts: asserting appends, retracting removes the
    first occurrence and tells whether there was one. *)
Inductive kb_op : Type :=
| Assert (fact : Z)
| Retract (fact : Z).

Definition kb_apply (op : kb_op) (kb : knowledge_base) : M St (bool * knowledge_base) :=
  match op with
  | Assert fact => let! kb' := eshkol_kb_assert kb fact in ret (true, kb')
  | Retract fact =>
    let '(found, kb') := eshkol_kb_retract_tagged (Some kb) (Some fact) in
    ret (found, default kb kb')
  end.

Fixpoint kb_run (ops : list kb_op) (kb : knowledge_base) : M St (list bool * knowledge_base) :=
  match ops with
  | [] => ret ([], kb)
  | op :: ops' =>
    let! (r, kb') := kb_apply op kb in
    let! (rs, kb'') := kb_run ops' kb' in
    ret (r :: rs, kb'')
  end.

Definition list_apply (op : kb_op) (l : list Z) : bool * list Z :=
  match op with
  | Assert fact => (true, l ++ [fact])
  | Retract fact => (existsb (Z.eqb fact) l, remove_first fact l)
  end.

Fixpoint list_run (ops : list kb_op) (l : list Z) : list bool * list Z :=
  match ops with
  | [] => ([], l)
  | op :: ops' =>
    let '(r, l') := list_apply op l in
    let '(rs, l'') := list_run ops' l' in
    (r :: rs, l'')
  end.

Definition op_ok (op : kb_op) : Prop := match op with Assert fact => fact <> 0 | Retract _ => True end.

Lemma kb_apply_spec op kb :
  kb_ok kb -> op_ok op -> num_facts kb < 2 ^ 30 ->
  wp (kb_apply op kb) (fun '(r, kb') => kb_ok kb' /\ num_facts kb' <= num_facts kb + 1 /\
    (granted -> (r, kb_facts kb') = list_apply op (kb_facts kb))).
Proof.
  intros Hok Hop Hn. destruct op as [fact|fact]; cbn [kb_apply list_apply op_ok] in *.
  - eapply wp_call; [apply kb_assert_spec; assumption|]. intros kb' (_ & [[Hok' E]|[-> Hg]]); apply wp_ret.
    + split; [exact Hok'|]. unfold num_facts. rewrite E, length_app. cbn. split; [lia|reflexivity].
    + split; [exact Hok|]. split; [lia|]. intros g. destruct (Hg g).
  - unfold eshkol_kb_retract_tagged. rewrite retract_loop_spec. apply wp_ret. cbn [default from_option kb_facts].
    pose proof (remove_first_length fact (kb_facts kb)). destruct Hok as [Hr Hs].
    split; [constructor; unfold num_facts in *; cbn; lia|]. unfold num_facts. cbn. split; [lia|reflexivity].
Qed.

Lemma kb_run_spec ops kb :
  kb_ok kb -> Forall op_ok ops -> num_facts kb + Z.of_nat (length ops) <= 2 ^ 30 ->
  wp (kb_run ops kb) (fun '(rs, kb') => kb_ok kb' /\ (granted -> (rs, kb_facts kb') = list_run ops (kb_facts kb))).
Proof.
  revert kb. induction ops as [|op ops IH]; intros kb Hok Hops Hn; cbn [kb_run list_run].
  - apply wp_ret. auto.
  - inversion Hops; subst. cbn [length] in Hn.
    eapply wp_call; [apply kb_apply_spec; auto; lia|]. intros [r kb'] (Hok' & Hn' & E).
    eapply wp_call; [apply IH; auto; lia|]. intros [rs kb''] (Hok'' & E').
    apply wp_ret. split; [exact Hok''|]. intros g. rewrite <- (E g). rewrite <- (E' g). reflexivity.
Qed.

End KB.
