(* ===== verification/LogicRegistry.v ===== *)
(** * Names of logic variables and predicates: the registries of lib/core/logic.cpp

    The global tables as a record, [eshkol_make_logic_var],
    [eshkol_logic_var_name], [eshkol_intern_predicate] and the reset, with the
    invariant that makes ids and interned pointers stand for names. *)

From Stdlib Require Import ZArith List Lia Bool Arith.
From stdpp Require Import base list numbers.
From S2P Require Import Prelude HashKeys.
Import ListNotations.
Open Scope Z_scope.

(** ** The code *)

Definition LOGIC_VAR_MAX : Z := 65536.
Definition sizeof_var_name_pool : Z := LOGIC_VAR_MAX * 64.
Definition PRED_POOL_SIZE : Z := 64 * 1024.
Definition PRED_TABLE_SIZE : Z := 1024.

(** [g_var_names] up to [g_var_count], the used part of [g_var_name_pool], the
    offsets and strings of [g_pred_table] up to [g_pred_count], and the used part
    of [g_pred_pool].  A string is the list of its bytes before the NUL. *)
Record registry : Type := mkRegistry {
  var_names : list (list Z);
  var_name_pool_offset : Z;
  pred_table : list (Z * list Z);
  pred_pool_offset : Z;
}.

Definition empty_registry : registry := mkRegistry [] 0 [] 0.

(** [g_var_name_pool_offset] and the contents of the pools stay. *)
Definition eshkol_logic_registry_reset (r : registry) : registry :=
  mkRegistry [] (var_name_pool_offset r) [] 0.

(** The index of the first equal name, [UINT64_MAX] if there is none. *)
Fixpoint find_name (l : list (list Z)) (i : Z) (name : list Z) : Z :=
  match l with
  | [] => UINT64_MAX
  | n :: l' => if list_eqb n name then i else find_name l' (i + 1) name
  end.

Definition find_var_by_name (r : registry) (name : list Z) : Z := find_name (var_names r) 0 name.

(** The bytes of "<pool-exhausted>". *)
Definition pool_exhausted : list Z :=
  [60; 112; 111; 111; 108; 45; 101; 120; 104; 97; 117; 115; 116; 101; 100; 62].

(** The stored name and the new offset. *)
Definition intern_var_name (offset : Z) (name : list Z) : list Z * Z :=
  let len := if Z.of_nat (length name) >=? 63 then 63 else Z.of_nat (length name) in
  let needed := len + 1 in
  if offset + needed >? sizeof_var_name_pool then (pool_exhausted, offset)
  else (firstn (Z.to_nat len) name, offset + needed).

Definition eshkol_make_logic_var (name : option (list Z)) (r : registry) : Z * registry :=
  match name with
  | None => (UINT64_MAX, r)
  | Some name =>
    let existing := find_var_by_name r name in
    if negb (existing =? UINT64_MAX) then (existing, r)
    else
      let count := Z.of_nat (length (var_names r)) in
      if count >=? LOGIC_VAR_MAX then (UINT64_MAX, r)
      else
        let '(stored, offset) := intern_var_name (var_name_pool_offset r) name in
        (count, mkRegistry (var_names r ++ [stored]) offset (pred_table r) (pred_pool_offset r))
  end.

Definition eshkol_logic_var_name (r : registry) (var_id : Z) : option (list Z) :=
  if var_id >=? Z.of_nat (length (var_names r)) then None
  else nth_error (var_names r) (Z.to_nat var_id).

Section Predicates.
  Variable g_pred_pool : Z.       (* the address of the pool *)

Fixpoint find_pred (table : list (Z * list Z)) (name : list Z) : option Z :=
  match table with
  | [] => None
  | (offset, s) :: table' => if list_eqb s name then Some offset else find_pred table' name
  end.

(** A string is given by its address and its bytes; the result is an address. *)
Definition eshkol_intern_predicate (name : option (Z * list Z)) (r : registry) : option Z * registry :=
  match name with
  | None => (None, r)
  | Some (p, s) =>
    match find_pred (pred_table r) s with
    | Some offset => (Some (g_pred_pool + offset), r)
    | None =>
      if Z.of_nat (length (pred_table r)) >=? PRED_TABLE_SIZE then (Some p, r)
      else
        let needed := Z.of_nat (length s) + 1 in
        let offset := pred_pool_offset r in
        if offset + needed >? PRED_POOL_SIZE then (Some p, r)
        else
          (Some (g_pred_pool + offset),
           mkRegistry (var_names r) (var_name_pool_offset r) (pred_table r ++ [(offset, s)]) (offset + needed))
    end
  end.

End Predicates.

(** ** Variables *)

(** No name is stored twice, none is longer than 63 bytes, and the pool has used
    at most one slot of 64 bytes per name. *)
Record vars_ok (r : registry) : Prop := {
  vo_distinct : List.NoDup (var_names r);
  vo_short : forall n, In n (var_names r) -> (length n <= 63)%nat;
  vo_count : Z.of_nat (length (var_names r)) <= LOGIC_VAR_MAX;
  vo_pool : 0 <= var_name_pool_offset r <= 64 * Z.of_nat (length (var_names r));
}.

Lemma empty_vars_ok : vars_ok empty_registry.
Proof. constructor; cbn; [constructor|intros n []|unfold LOGIC_VAR_MAX; lia|lia]. Qed.

Lemma find_name_found l i name k :
  nth_error l k = Some name -> List.NoDup l -> find_name l i name = i + Z.of_nat k.
Proof.
  revert i k. induction l as [|n l IH]; intros i k Hk Hn; [destruct k; discriminate|].
  inversion Hn as [|? ? Hni Hnd]; subst. destruct k as [|k]; cbn in Hk |- *.
  - injection Hk as ->. rewrite (proj2 (list_eqb_spec name name) eq_refl). lia.
  - destruct (list_eqb n name) eqn:E.
    + apply list_eqb_spec in E. subst. destruct Hni. eapply nth_error_In, Hk.
    + rewrite (IH (i + 1) k Hk Hnd). lia.
Qed.

Lemma find_name_missing l i name : ~ In name l -> find_name l i name = UINT64_MAX.
Proof.
  revert i. induction l as [|n l IH]; intros i H; [reflexivity|]. cbn in H |- *.
  destruct (list_eqb n name) eqn:E; [apply list_eqb_spec in E; tauto|]. apply IH. tauto.
Qed.

Lemma find_name_inv l i name :
  0 <= i -> i + Z.of_nat (length l) <= LOGIC_VAR_MAX ->
  find_name l i name <> UINT64_MAX -> exists k, nth_error l k = Some name /\ find_name l i name = i + Z.of_nat k.
Proof.
  revert i. induction l as [|n l IH]; intros i Hi Hl H; [contradiction|]. cbn in *.
  destruct (list_eqb n name) eqn:E.
  - apply list_eqb_spec in E. subst. exists 0%nat. split; [reflexivity|lia].
  - destruct (IH (i + 1) ltac:(lia) ltac:(lia) H) as (k & Hk & E'). exists (S k). split; [exact Hk|lia].
Qed.

Lemma var_name_at r id name :
  vars_ok r -> eshkol_logic_var_name r id = Some name ->  0 <= id ->
  find_var_by_name r name = id /\ id < LOGIC_VAR_MAX.
Proof.
  intros [Hn _ Hc _] H Hid. unfold eshkol_logic_var_name in H. destruct (Z.geb_spec id (Z.of_nat (length (var_names r)))); [discriminate|].
  unfold find_var_by_name. rewrite (find_name_found _ 0 _ _ H Hn). lia.
Qed.

(** Names of at most 63 bytes: one id per name, one name per id, ids stay. *)
Lemma make_logic_var_spec r name :
  vars_ok r -> (length name <= 63)%nat ->
  let '(id, r') := eshkol_make_logic_var (Some name) r in
  vars_ok r' /\
  (forall i n, 0 <= i -> eshkol_logic_var_name r i = Some n -> eshkol_logic_var_name r' i = Some n) /\
  (0 <= id < LOGIC_VAR_MAX /\ eshkol_logic_var_name r' id = Some name \/
   id = UINT64_MAX /\ r' = r /\ Z.of_nat (length (var_names r)) = LOGIC_VAR_MAX /\ ~ In name (var_names r)).
Proof.
  intros Hok Hlen. pose proof Hok as [Hn Hs Hc Hp]. unfold eshkol_make_logic_var.
  destruct (in_dec (list_eq_dec Z.eq_dec) name (var_names r)) as [Hin|Hin].
  - apply In_nth_error in Hin. destruct Hin as [k Hk]. pose proof (find_name_found _ 0 _ _ Hk Hn) as E.
    assert (Hk' : (k < length (var_names r))%nat) by (apply nth_error_Some; congruence). unfold LOGIC_VAR_MAX in *.
    unfold find_var_by_name. rewrite E. destruct (Z.eqb_spec (0 + Z.of_nat k) UINT64_MAX); [lia|]. cbn [negb].
    split; [exact Hok|]. split; [auto|]. left. split; [lia|]. unfold eshkol_logic_var_name.
    destruct (Z.geb_spec (0 + Z.of_nat k) (Z.of_nat (length (var_names r)))); [lia|].
    replace (Z.to_nat (0 + Z.of_nat k)) with k by lia. exact Hk.
  - unfold find_var_by_name. rewrite (find_name_missing _ 0 _ Hin).
    rewrite Z.eqb_refl. cbn [negb].
    destruct (Z.geb_spec (Z.of_nat (length (var_names r))) LOGIC_VAR_MAX) as [Hmax|Hmax].
    { split; [exact Hok|]. split; [auto|]. right. repeat split; auto. lia. }
    assert (Hst : exists off, intern_var_name (var_name_pool_offset r) name = (name, off) /\
      0 <= off <= 64 * (Z.of_nat (length (var_names r)) + 1)).
    { unfold intern_var_name, sizeof_var_name_pool. unfold LOGIC_VAR_MAX in *.
      assert (El : (if Z.of_nat (length name) >=? 63 then 63 else Z.of_nat (length name)) = Z.of_nat (length name))
        by (destruct (Z.geb_spec (Z.of_nat (length name)) 63); lia).
      rewrite El, Nat2Z.id, firstn_all.
      destruct (Z.gtb_spec (var_name_pool_offset r + (Z.of_nat (length name) + 1)) (65536 * 64)); [lia|].
      eexists. split; [reflexivity|]. lia. }
    destruct Hst as (off & -> & Hoff). split; [|split].
    + constructor; cbn [var_names var_name_pool_offset].
      * apply (Permutation.Permutation_NoDup (l := name :: var_names r));
          [apply Permutation.Permutation_cons_append|constructor; assumption].
      * intros n Hn'. apply in_app_or in Hn'. destruct Hn' as [|[<-|[]]]; auto.
      * rewrite length_app. cbn [length]. lia.
      * rewrite length_app. cbn [length]. lia.
    + intros i n Hi. unfold eshkol_logic_var_name. cbn [var_names]. rewrite length_app. cbn [length].
      destruct (Z.geb_spec i (Z.of_nat (length (var_names r)))); [discriminate|].
      destruct (Z.geb_spec i (Z.of_nat (length (var_names r) + 1))); [lia|]. rewrite nth_error_app1 by lia. auto.
    + left. unfold eshkol_logic_var_name. cbn [var_names]. rewrite length_app. cbn [length]. split; [lia|].
      destruct (Z.geb_spec (Z.of_nat (length (var_names r))) (Z.of_nat (length (var_names r) + 1))); [lia|].
      rewrite Nat2Z.id, nth_error_app2, Nat.sub_diag by lia. reflexivity.
Qed.

(** ** Predicates *)

(** Entries lie side by side in the used part of the pool; no string twice. *)
Record preds_ok (r : registry) : Prop := {
  po_distinct : List.NoDup (map snd (pred_table r));
  po_offsets : forall o s, In (o, s) (pred_table r) -> 0 <= o /\ o + Z.of_nat (length s) + 1 <= pred_pool_offset r;
  po_apart : forall o s o' s', In (o, s) (pred_table r) -> In (o', s') (pred_table r) -> o = o' -> s = s';
  po_pool : 0 <= pred_pool_offset r <= PRED_POOL_SIZE;
}.

Lemma empty_preds_ok : preds_ok empty_registry.
Proof. constructor; cbn; [constructor|intros ? ? []|intros ? ? ? ? []|unfold PRED_POOL_SIZE; lia]. Qed.

Lemma find_pred_some table s o : find_pred table s = Some o -> In (o, s) table.
Proof.
  induction table as [|[o' s'] table IH]; [discriminate|]. cbn. destruct (list_eqb s' s) eqn:E; [|auto].
  apply list_eqb_spec in E. intros [= ->]. subst. auto.
Qed.

Lemma find_pred_none table s : find_pred table s = None -> ~ In s (map snd table).
Proof.
  induction table as [|[o' s'] table IH]; [auto|]. cbn. destruct (list_eqb s' s) eqn:E; [discriminate|].
  intros H [->|Hin]; [|exact (IH H Hin)]. rewrite (proj2 (list_eqb_spec s s) eq_refl) in E. discriminate.
Qed.

Lemma find_pred_in table s o : List.NoDup (map snd table) -> In (o, s) table -> find_pred table s = Some o.
Proof.
  induction table as [|[o' s'] table IH]; [intros _ []|]. cbn. intros Hn Hin. inversion Hn; subst.
  destruct Hin as [[= -> ->]|Hin]; [rewrite (proj2 (list_eqb_spec s s) eq_refl); reflexivity|].
  destruct (list_eqb s' s) eqn:E; [|auto]. apply list_eqb_spec in E. subst.
  match goal with H : ~ In s _ |- _ => destruct H end. apply in_map_iff. exists (o, s). auto.
Qed.

(** The predicate was put in the pool, at an offset that stands for its text. *)
Definition interned (pool : Z) (r : registry) (p : Z) (s : list Z) : Prop := In (p - pool, s) (pred_table r).

Lemma intern_spec pool r p s :
  preds_ok r ->
  exists q r', eshkol_intern_predicate pool (Some (p, s)) r = (Some q, r') /\ preds_ok r' /\
  (forall q' s', interned pool r q' s' -> interned pool r' q' s') /\
  (interned pool r' q s \/
   q = p /\ r' = r /\ ~ In s (map snd (pred_table r)) /\
     (PRED_TABLE_SIZE <= Z.of_nat (length (pred_table r)) \/ PRED_POOL_SIZE < pred_pool_offset r + Z.of_nat (length s) + 1)).
Proof.
  intros Hok. pose proof Hok as [Hn Ho Ha Hp]. unfold eshkol_intern_predicate, interned.
  destruct (find_pred (pred_table r) s) as [o|] eqn:E.
  - exists (pool + o), r. split; [reflexivity|split; [exact Hok|split; [auto|]]]. left. replace (pool + o - pool) with o by lia. apply find_pred_some, E.
  - apply find_pred_none in E as Hs.
    destruct (Z.geb_spec (Z.of_nat (length (pred_table r))) PRED_TABLE_SIZE) as [Hfull|_];
      [exists p, r; split; [reflexivity|split; [exact Hok|split; [auto|]]]; right; auto|].
    destruct (Z.gtb_spec (pred_pool_offset r + (Z.of_nat (length s) + 1)) PRED_POOL_SIZE) as [Hfull|Hfits];
      [exists p, r; split; [reflexivity|split; [exact Hok|split; [auto|]]]; right;
       split; [reflexivity|split; [reflexivity|split; [exact Hs|right; lia]]]|].
    eexists _, _. split; [reflexivity|]. split; [|split].
    + constructor; cbn [pred_table pred_pool_offset].
      * rewrite map_app. cbn. apply (Permutation.Permutation_NoDup (l := s :: map snd (pred_table r)));
          [apply Permutation.Permutation_cons_append|constructor; assumption].
      * intros o s' Hin. apply in_app_or in Hin. destruct Hin as [Hin|[[= <- <-]|[]]]; [|lia].
        destruct (Ho _ _ Hin). lia.
      * intros o1 s1 o2 s2 H1 H2 Eo. apply in_app_or in H1, H2.
        destruct H1 as [H1|[[= <- <-]|[]]], H2 as [H2|[[= <- <-]|[]]]; auto.
        -- apply (Ha o1 s1 o2 s2); assumption.
        -- destruct (Ho _ _ H1). lia.
        -- destruct (Ho _ _ H2). lia.
      * lia.
    + intros q' s' Hin. cbn [pred_table]. apply in_or_app. auto.
    + left. cbn [pred_table]. apply in_or_app. right. left. f_equal. lia.
Qed.

(** With room for it a string is interned, at the price of one entry. *)
Lemma intern_room pool r p s :
  preds_ok r -> Z.of_nat (length (pred_table r)) < PRED_TABLE_SIZE ->
  pred_pool_offset r + Z.of_nat (length s) + 1 <= PRED_POOL_SIZE ->
  exists q r', eshkol_intern_predicate pool (Some (p, s)) r = (Some q, r') /\ preds_ok r' /\
  (forall q' s', interned pool r q' s' -> interned pool r' q' s') /\ interned pool r' q s /\
  Z.of_nat (length (pred_table r')) <= Z.of_nat (length (pred_table r)) + 1 /\
  pred_pool_offset r' <= pred_pool_offset r + Z.of_nat (length s) + 1.
Proof.
  intros Hok Ht Hp. destruct (intern_spec pool r p s Hok) as (q & r' & E & Hok' & K & [I|(_ & _ & _ & [F|F])]); [|lia|lia].
  exists q, r'. repeat (split; [assumption|]).
  unfold eshkol_intern_predicate in E. destruct (find_pred (pred_table r) s); [injection E as _ <-; lia|].
  destruct (Z.geb_spec (Z.of_nat (length (pred_table r))) PRED_TABLE_SIZE); [lia|].
  destruct (Z.gtb_spec (pred_pool_offset r + (Z.of_nat (length s) + 1)) PRED_POOL_SIZE); [lia|].
  injection E as _ <-. cbn [pred_table pred_pool_offset]. rewrite length_app. cbn [length]. lia.
Qed.

(** Interned pointers are equal exactly when the strings are. *)
Lemma interned_injective pool r p s q t :
  preds_ok r -> interned pool r p s -> interned pool r q t -> (p = q <-> s = t).
Proof.
  intros [Hn _ Ha _] H1 H2. unfold interned in *. split.
  - intros ->. exact (Ha _ _ _ _ H1 H2 eq_refl).
  - intros ->. apply (find_pred_in _ _ _ Hn) in H1, H2. rewrite H1 in H2. injection H2. lia.
Qed.
