(* ===== verification/LogicTheorems.v ===== *)
(** * The theorems of the logic engine

    Unification, walking, knowledge bases, name registries and deep equality, over
    every arena that keeps [ArenaLaws]; and the inputs on which the code does not
    do what it documents. *)

From Stdlib Require Import ZArith List Lia Bool Arith.
From stdpp Require Import base gmap list numbers.
From S2P Require Import Prelude Effects Limbs KnuthD Bignum BignumSpec Arena ArenaSpec ArenaRuns HostHeap.
From S2P Require Import ArenaTheorems BignumTheorems Doubles Tagged HashKeys DeepEqual Unification Logic.
From S2P Require Import LogicSpec LogicQuery LogicRegistry.
Import ListNotations.
Open Scope Z_scope.
Open Scope effect_scope.

(** ** Unification *)

(** C6 Unification computes most general unifiers.  For terms over at most 65536
    variables whose facts nest so little that no image is deeper than the limit of
    the occurs check, and any acyclic substitution to start from: the call returns
    (the given fuel is enough), and either extends the substitution, keeping it
    acyclic, so that its solutions are exactly the solutions of the old one that
    make the two terms equal and both terms resolve to the same term, or returns
    null, and then no solution makes the terms equal unless a request for memory
    was refused. *)
Theorem unify_most_general {St} {A : Arena St} {L : ArenaLaws St} h eq_fuel V nesting fuel s b v1 v2 t1 t2 st :
  arena_inv st -> Z.of_nat (length V) <= 65536 ->
  (depth_bound V nesting <= OCCURS_CHECK_MAX_DEPTH)%nat -> (unify_fuel V nesting <= fuel)%nat ->
  represents h eq_fuel s b -> good_subst V nesting b ->
  is_term h eq_fuel v1 t1 -> is_term h eq_fuel v2 t2 -> good_term V nesting t1 -> good_term V nesting t2 ->
  exists r st' refused,
    eshkol_unify h eq_fuel fuel (Some v1) (Some v2) (Some s) st = (Ret r, st', refused) /\ arena_inv st' /\
    match r with
    | Some s' => exists d, represents h eq_fuel s' (b ++ d) /\ good_subst V nesting (b ++ d) /\
        most_general b t1 t2 (b ++ d) /\
        exists t', has_image (b ++ d) t1 t' /\ has_image (b ++ d) t2 t'
    | None => refused = true \/ no_unifier b t1 t2
    end.
Proof.
  intros Hst HV Hd Hfuel R Gb H1 H2 G1 G2. destruct (gs_acyclic _ _ b Gb t1) as [t1' Hi].
  destruct (wp_readings (eshkol_unify h eq_fuel fuel (Some v1) (Some v2) (Some s))
    (fun g => @unified h eq_fuel V nesting g b t1 t2) st) as (r & st' & f & E & Hst' & Hr & Hg); [|exact Hst|].
  { intros G. apply (unify_spec h eq_fuel V nesting HV Hd fuel b s v1 v2 t1 t2 t1'); auto.
    eapply (fuel_enough V nesting) with (t := t1); eassumption. }
  exists r, st', f. split; [exact E|]. split; [exact Hst'|]. destruct r as [s'|].
  - destruct Hr as (d & R' & G' & Hm). exists d. split; [exact R'|]. split; [exact G'|]. split; [exact Hm|].
    destruct (gs_acyclic _ _ _ G' t1) as [u1 U1]. destruct (gs_acyclic _ _ _ G' t2) as [u2 U2].
    exists u1. split; [exact U1|]. rewrite (most_general_same_image b t1 t2 (b ++ d) u1 u2 Hm U1 U2). exact U2.
  - destruct f; [auto|]. right. exact (Hg eq_refl I).
Qed.

(** *** A concrete problem *)

Definition lvar (x : Z) : tagged_value := mkTagged ESHKOL_VALUE_LOGIC_VAR 0 0 x.
Definition fact_ptr (p : Z) : tagged_value := mkTagged ESHKOL_VALUE_HEAP_PTR 0 0 p.

Section Terms.
  Variables (h : store) (eq_fuel : nat).

Lemma lvar_term x : 0 <= x < 2 ^ 64 -> is_term h eq_fuel (lvar x) (TVar x).
Proof. intros Hx. exists 0%nat. cbn. change (2 ^ 64) with 18446744073709551616 in Hx. unfold ESHKOL_VALUE_LOGIC_VAR. lia. Qed.

Lemma int_term i : 0 <= i < 2 ^ 63 -> is_term h eq_fuel (make_int64 i) (TAtom (DInt i)).
Proof.
  intros Hi. change (2 ^ 63) with 9223372036854775808 in Hi. exists 0%nat.
  assert (E : vdata (make_int64 i) = i) by (apply u64_small; lia).
  assert (E' : int_val (make_int64 i) = i) by (unfold int_val; rewrite E; apply s64_small; unfold int64_range; lia).
  assert (R : 0 <= vdata (make_int64 i) < 2 ^ 64) by (rewrite E; change (2 ^ 64) with 18446744073709551616; lia).
  assert (D : denotes h eq_fuel (make_int64 i) (DInt i)).
  { destruct eq_fuel; cbn [denotes]; (split; [exact R|]); left; (split; [reflexivity|]); symmetry; exact E'. }
  cbn [term_at]. split; [cbn; unfold ESHKOL_VALUE_INT64; lia|]. split; [exact R|].
  split; [discriminate|]. split; [reflexivity|exact D].
Qed.

Lemma args_term_at args ts : Forall2 (is_term h eq_fuel) args ts -> exists n, Forall2 (term_at h eq_fuel n) args ts.
Proof.
  induction 1 as [|a t args ts [n Hn] _ [m Hm]]; [exists 0%nat; constructor|].
  exists (n + m)%nat. constructor; [apply (term_at_mono h eq_fuel n); auto; lia|].
  eapply Forall2_impl; [|exact Hm]. intros; apply (term_at_mono h eq_fuel m); auto; lia.
Qed.

Lemma fact_term p pred args name ts :
  0 < p < 2 ^ 64 -> h !! p = Some (obj_fact pred args) -> pred_name h pred name ->
  Forall2 (is_term h eq_fuel) args ts -> is_term h eq_fuel (fact_ptr p) (TFact name ts).
Proof.
  intros Hp L N HF. destruct (args_term_at args ts HF) as [n Hn]. exists (S n). cbn [term_at fact_ptr vtype vdata].
  split; [unfold ESHKOL_VALUE_HEAP_PTR; lia|]. split; [lia|]. exists pred, args. repeat split; auto. lia.
Qed.

End Terms.

(** p(?0, 2, p(?1)) and p(1, ?1, p(2)), and a fact q(1). *)
Definition logic_heap : store :=
  <[500 := obj_string [112]]> (<[600 := obj_string [113]]>
  (<[1000 := obj_fact 500 [lvar 0; make_int64 2; fact_ptr 1100]]>
  (<[1100 := obj_fact 500 [lvar 1]]>
  (<[2000 := obj_fact 500 [make_int64 1; lvar 1; fact_ptr 2100]]>
  (<[2100 := obj_fact 500 [make_int64 2]]>
  (<[3000 := obj_fact 600 [make_int64 1]]> ∅)))))).

Definition pattern_term : term :=
  TFact (Some [112]) [TVar 0; TAtom (DInt 2); TFact (Some [112]) [TVar 1]].
Definition ground_term : term :=
  TFact (Some [112]) [TAtom (DInt 1); TVar 1; TFact (Some [112]) [TAtom (DInt 2)]].

Lemma pattern_is_term : is_term logic_heap 1 (fact_ptr 1000) pattern_term.
Proof.
  apply (fact_term _ _ 1000 500 [lvar 0; make_int64 2; fact_ptr 1100]); [lia|reflexivity|split; [lia|reflexivity]|].
  repeat constructor; [apply lvar_term; lia|apply int_term; lia|].
  apply (fact_term _ _ 1100 500 [lvar 1]); [lia|reflexivity|split; [lia|reflexivity]|].
  repeat constructor. apply lvar_term. lia.
Qed.

Lemma ground_is_term : is_term logic_heap 1 (fact_ptr 2000) ground_term.
Proof.
  apply (fact_term _ _ 2000 500 [make_int64 1; lvar 1; fact_ptr 2100]); [lia|reflexivity|split; [lia|reflexivity]|].
  repeat constructor; [apply int_term; lia|apply lvar_term; lia|].
  apply (fact_term _ _ 2100 500 [make_int64 2]); [lia|reflexivity|split; [lia|reflexivity]|].
  repeat constructor. apply int_term. lia.
Qed.

Lemma good_term_check V nesting t :
  forallb (fun x => existsb (Z.eqb x) V) (vars t) = true -> (height t <=? nesting)%nat = true -> good_term V nesting t.
Proof.
  intros Hv Hh. split; [|apply Nat.leb_le, Hh]. intros x Hx.
  pose proof (proj1 (forallb_forall _ _) Hv x Hx) as He. apply existsb_exists in He.
  destruct He as (y & Hy & E). apply Z.eqb_eq in E. subst. exact Hy.
Qed.

Lemma good_terms_check V nesting ts :
  forallb (fun t => forallb (fun x => existsb (Z.eqb x) V) (vars t) && (height t <=? nesting)%nat) ts = true ->
  Forall (good_term V nesting) ts.
Proof.
  intros H. apply List.Forall_forall. intros t Ht. pose proof (proj1 (forallb_forall _ _) H t Ht) as E.
  apply andb_true_iff in E. destruct E. apply good_term_check; assumption.
Qed.

Definition empty_subst : substitution := mkSubst 8 [].

Lemma empty_represents h eq_fuel : represents h eq_fuel empty_subst [].
Proof. constructor; cbn; [constructor|unfold num_bindings; cbn; lia|lia]. Qed.

Lemma unify_most_general_witness :
  exists r st' refused,
    eshkol_unify logic_heap 1 100 (Some (fact_ptr 1000)) (Some (fact_ptr 2000)) (Some empty_subst) bench
      = (Ret (Some r), st', refused) /\
    exists d, represents logic_heap 1 r d /\ most_general [] pattern_term ground_term d.
Proof.
  destruct (unify_most_general logic_heap 1 [0; 1] 2 100 empty_subst [] (fact_ptr 1000) (fact_ptr 2000)
    pattern_term ground_term bench bench_inv ltac:(cbn; lia)
    ltac:(apply Nat.leb_le; reflexivity) ltac:(apply Nat.leb_le; reflexivity) (empty_represents _ _) (empty_good _ _)
    pattern_is_term ground_is_term ltac:(apply good_term_check; reflexivity) ltac:(apply good_term_check; reflexivity))
    as (r & st' & f & E & _ & H).
  destruct r as [s'|].
  - exists s', st', f. split; [exact E|]. destruct H as (d & R & _ & M & _). exists d. auto.
  - exfalso. vm_compute in E. discriminate E.
Defined.

(** ** Walking *)

(** C22 Walking terminates and resolves: under an acyclic substitution the walk of
    any term ends within one step per binding, at an unbound variable or a
    non-variable that stands for the same term; and the deep walk of a term whose
    image is no deeper than its limit returns, when memory is granted, a value that
    is the full image, every bound variable at every depth replaced. *)
Theorem walks_resolve {St} {A : Arena St} {L : ArenaLaws St} h eq_fuel V nesting s b v t st :
  arena_inv st -> small_facts h -> (depth_bound V nesting <= WALK_DEEP_MAX_DEPTH)%nat ->
  represents h eq_fuel s b -> good_subst V nesting b -> is_term h eq_fuel v t -> good_term V nesting t ->
  (exists v' t', eshkol_walk (Some v) (Some s) = Some v' /\ is_term h eq_fuel v' t' /\
     (forall x, t' = TVar x -> binding b x = None) /\ (forall u, has_image b t u <-> has_image b t' u)) /\
  (exists r st' refused t',
     eshkol_walk_deep h (Some v) (Some s) st = (Ret r, st', refused) /\ arena_inv st' /\
     has_image b t t' /\ (refused = false -> resolved_as h eq_fuel r t')).
Proof.
  intros Hst Hsmall Hd R Gb Hv Gt. split.
  - destruct (walk_spec h eq_fuel V nesting s b v t R Gb Hv) as (v' & w & E & Hw & W).
    exists v', w. split; [exact E|]. split; [exact Hw|]. split; [apply (wk_stuck _ _ _ W)|apply (wk_image _ _ _ W)].
  - destruct (gs_acyclic _ _ b Gb t) as [t' Hi]. pose proof (good_image V nesting b t t' Gb Gt Hi) as Hh.
    destruct (wp_readings (eshkol_walk_deep h (Some v) (Some s)) (fun g r => g -> resolved_as h eq_fuel r t') st)
      as (r & st' & f & E & Hst' & _ & Hg); [|exact Hst|].
    + intros G. apply (walk_deep_spec h eq_fuel V nesting s b WALK_DEEP_MAX_DEPTH v t' Hsmall R Gb).
      exists t. split; [exact Hv|]. split; [exact Hi|]. lia.
    + exists r, st', f, t'. split; [exact E|]. split; [exact Hst'|]. split; [exact Hi|]. intros Hf. exact (Hg Hf I).
Qed.

(** {?0 -> p(?1), ?1 -> 2} *)
Definition chain_subst : substitution := mkSubst 8 [(0, fact_ptr 1100); (1, make_int64 2)].
Definition chain_bindings : bindings := [(0, TFact (Some [112]) [TVar 1]); (1, TAtom (DInt 2))].

Lemma fact_1100_term : is_term logic_heap 1 (fact_ptr 1100) (TFact (Some [112]) [TVar 1]).
Proof.
  apply (fact_term _ _ 1100 500 [lvar 1]); [lia|reflexivity|split; [lia|reflexivity]|].
  repeat constructor. apply lvar_term. lia.
Qed.

Lemma chain_represents : represents logic_heap 1 chain_subst chain_bindings.
Proof.
  constructor; cbn; [|unfold num_bindings; cbn; lia|lia].
  repeat constructor; cbn; [apply fact_1100_term|apply int_term; lia].
Qed.

Lemma chain_good : good_subst [0; 1] 1 chain_bindings.
Proof.
  apply (good_extend [0; 1] 1 [(0, TFact (Some [112]) [TVar 1])] 1 (TAtom (DInt 2)) (TAtom (DInt 2)));
    [|reflexivity|cbn; tauto|apply good_term_check; reflexivity|apply image_atom|cbn; tauto].
  apply (good_extend [0; 1] 1 [] 0 (TFact (Some [112]) [TVar 1]) (TFact (Some [112]) [TVar 1]));
    [apply empty_good|reflexivity|cbn; tauto|apply good_term_check; reflexivity| |cbn; intuition discriminate].
  apply image_fact. repeat constructor. apply image_free. reflexivity.
Qed.

Lemma logic_heap_small : small_facts logic_heap.
Proof.
  intros p pred args H. unfold logic_heap in H.
  repeat (rewrite lookup_insert_Some in H; destruct H as [[_ H]|[_ H]];
          [try discriminate H; injection H as _ <-; vm_compute; discriminate|]).
  rewrite lookup_empty in H. discriminate.
Qed.

Lemma walks_resolve_witness :
  exists r st' refused t', eshkol_walk_deep logic_heap (Some (lvar 0)) (Some chain_subst) bench = (Ret r, st', refused) /\
    has_image chain_bindings (TVar 0) t' /\ resolved_as logic_heap 1 r t'.
Proof.
  destruct (proj2 (walks_resolve logic_heap 1 [0; 1] 1 chain_subst chain_bindings (lvar 0) (TVar 0) bench bench_inv
    logic_heap_small ltac:(apply Nat.leb_le; reflexivity) chain_represents chain_good
    (lvar_term _ _ 0 ltac:(lia)) ltac:(apply good_term_check; reflexivity))) as (r & st' & f & t' & E & _ & Hi & Hr).
  exists r, st', f, t'. split; [exact E|]. split; [exact Hi|]. apply Hr.
  assert (Hs : snd (eshkol_walk_deep logic_heap (Some (lvar 0)) (Some chain_subst) bench) = false) by (vm_compute; reflexivity).
  rewrite E in Hs. exact Hs.
Defined.

(** ** Queries *)

(** The fact is not passed over for its predicate or its arity. *)
Definition considered (skip : nat -> nat -> bool) (pattern fact : Z * list term) : bool :=
  negb (predicate_differs (fst pattern) (fst fact) || skip (length (snd pattern)) (length (snd fact))).

(** The arguments of the fact that the pattern's are matched with. *)
Definition prefix_of (pattern fact : Z * list term) : list term := firstn (length (snd pattern)) (snd fact).

Definition query_correct {St} {A : Arena St} {L : ArenaLaws St} h eq_fuel (skip : nat -> nat -> bool)
    (b : bindings) (pattern : Z * list term) (facts : list (Z * list term))
    (call : M St (list substitution)) (st : St) : Prop :=
  exists result st' refused, call st = (Ret result, st', refused) /\ arena_inv st' /\
  (forall s', In s' result -> exists fact d, In fact facts /\ considered skip pattern fact = true /\
     represents h eq_fuel s' (b ++ d) /\ most_general_args b (snd pattern) (prefix_of pattern fact) (b ++ d)) /\
  (refused = false -> exists rs, result = rev (somes rs) /\
     Forall2 (fun fact r => match r with
       | Some s' => considered skip pattern fact = true /\
           exists d, represents h eq_fuel s' (b ++ d) /\ most_general_args b (snd pattern) (prefix_of pattern fact) (b ++ d)
       | None => considered skip pattern fact = false \/ no_unifier_args b (snd pattern) (prefix_of pattern fact)
       end) facts rs).

Lemma query_readings {St} {A : Arena St} {L : ArenaLaws St} h eq_fuel V nesting skip b pattern facts
    (call : M St (list substitution)) st :
  arena_inv st ->
  (forall G : Granted, wp call (query_results h eq_fuel V nesting skip b pattern facts [])) ->
  query_correct h eq_fuel skip b pattern facts call st.
Proof.
  intros Hst Hcall.
  destruct (wp_readings call (fun g => @query_results h eq_fuel V nesting g skip b pattern facts []) st Hcall Hst)
    as (result & st' & f & E & Hst' & (rs & HF & Hin & _) & Hg).
  exists result, st', f. split; [exact E|]. split; [exact Hst'|]. split.
  - intros s' Hs. destruct (Hin s' Hs) as [Hr|[]].
    apply list_elem_of_In, list_elem_of_lookup in Hr. destruct Hr as [i Hi].
    destruct (Forall2_lookup_r _ _ _ _ _ HF Hi) as (fact & Hfact & Ha). unfold answers in Ha.
    destruct (predicate_differs _ _ || _) eqn:Es; [discriminate Ha|]. destruct Ha as (d & R & _ & Hm).
    exists fact, d. split; [apply list_elem_of_In, list_elem_of_lookup; eauto|]. unfold considered. rewrite Es. auto.
  - intros Hf. destruct (Hg Hf) as (rs' & HF' & _ & Hr'). exists rs'. rewrite (Hr' I), app_nil_r. split; [reflexivity|].
    eapply Forall2_impl; [|exact HF']. intros fact r Ha. unfold answers, considered in *.
    destruct (predicate_differs _ _ || _); [subst r; auto|]. destruct r as [s'|].
    + destruct Ha as (d & R & _ & Hm). split; [reflexivity|]. exists d. auto.
    + right. exact (Ha I).
Qed.

(** C9 Knowledge-base queries are sound and complete.  A query, exact or by prefix,
    returns a list in which every substitution is a most general one matching the
    pattern's arguments with those of some fact that predicate and arity admit; and
    when no memory is refused, there is exactly one for each admitted fact that has
    a unifier and none for any other, those of later facts first. *)
Theorem kb_query_sound_complete {St} {A : Arena St} {L : ArenaLaws St} h eq_fuel V nesting fuel kb pat pattern facts s b st :
  arena_inv st -> Z.of_nat (length V) <= 65536 ->
  (depth_bound V nesting <= OCCURS_CHECK_MAX_DEPTH)%nat -> (unify_fuel V nesting <= fuel)%nat ->
  represents h eq_fuel s b -> good_subst V nesting b ->
  fact_terms h eq_fuel V nesting pat pattern -> Forall2 (fact_terms h eq_fuel V nesting) (kb_facts kb) facts ->
  query_correct h eq_fuel (fun n m => negb (Nat.eqb n m)) b pattern facts
    (eshkol_kb_query h eq_fuel fuel (Some kb) (Some pat) (Some s)) st /\
  query_correct h eq_fuel (fun n m => Nat.ltb m n) b pattern facts
    (eshkol_kb_query_prefix h eq_fuel fuel (Some kb) (Some pat) (Some s)) st.
Proof.
  intros Hst HV Hd Hfuel R Gb Hpat HF.
  split; apply (query_readings h eq_fuel V nesting); try exact Hst; intros G;
    apply (query_from_spec h eq_fuel V nesting HV Hd); try assumption; intros n m E.
  - destruct (Nat.eqb_spec n m); [lia|discriminate].
  - destruct (Nat.ltb_spec m n); [discriminate|lia].
Qed.

Lemma fact_args_terms h eq_fuel V nesting p pred args ts :
  h !! p = Some (obj_fact pred args) -> Forall2 (is_term h eq_fuel) args ts -> Forall (good_term V nesting) ts ->
  fact_terms h eq_fuel V nesting p (pred, ts).
Proof. intros E H1 H2. exists args. auto. Qed.

(** The knowledge base p(1, ?1, p(2)), q(1), p(2), and the pattern p(?0, 2, p(?1)). *)
Definition sample_kb : knowledge_base := mkKB 16 [2000; 3000; 2100].

Lemma kb_query_sound_complete_witness :
  exists result st' refused,
    eshkol_kb_query logic_heap 1 100 (Some sample_kb) (Some 1000) (Some empty_subst) bench = (Ret result, st', refused) /\
    length result = 1%nat /\
    query_correct logic_heap 1 (fun n m => negb (Nat.eqb n m)) []
      (500, [TVar 0; TAtom (DInt 2); TFact (Some [112]) [TVar 1]])
      [(500, [TAtom (DInt 1); TVar 1; TFact (Some [112]) [TAtom (DInt 2)]]); (600, [TAtom (DInt 1)]); (500, [TAtom (DInt 2)])]
      (eshkol_kb_query logic_heap 1 100 (Some sample_kb) (Some 1000) (Some empty_subst)) bench.
Proof.
  assert (E : exists result st' refused,
    eshkol_kb_query logic_heap 1 100 (Some sample_kb) (Some 1000) (Some empty_subst) bench = (Ret result, st', refused) /\
    length result = 1%nat) by (vm_compute; eauto 10).
  destruct E as (result & st' & f & E & El). exists result, st', f. split; [exact E|]. split; [exact El|].
  apply (kb_query_sound_complete logic_heap 1 [0; 1] 2 100 sample_kb 1000 _ _ empty_subst [] bench bench_inv
    ltac:(cbn; lia) ltac:(apply Nat.leb_le; reflexivity) ltac:(apply Nat.leb_le; reflexivity)
    (empty_represents _ _) (empty_good _ _)).
  - apply (fact_args_terms _ _ _ _ _ _ [lvar 0; make_int64 2; fact_ptr 1100]); [reflexivity| |apply good_terms_check; reflexivity].
    repeat constructor; [apply lvar_term; lia|apply int_term; lia|apply fact_1100_term].
  - repeat constructor.
    + apply (fact_args_terms _ _ _ _ _ _ [make_int64 1; lvar 1; fact_ptr 2100]); [reflexivity| |apply good_terms_check; reflexivity].
      repeat constructor; [apply int_term; lia|apply lvar_term; lia|].
      apply (fact_term _ _ 2100 500 [make_int64 2]); [lia|reflexivity|split; [lia|reflexivity]|].
      repeat constructor. apply int_term. lia.
    + apply (fact_args_terms _ _ _ _ _ _ [make_int64 1]); [reflexivity| |apply good_terms_check; reflexivity].
      repeat constructor. apply int_term. lia.
    + apply (fact_args_terms _ _ _ _ _ _ [make_int64 2]); [reflexivity| |apply good_terms_check; reflexivity].
      repeat constructor. apply int_term. lia.
Defined.

(** C27 A knowledge base is a list of facts.  From a new one, any sequence of up to
    [2^30] assertions and retractions returns and keeps the array within its
    capacity; when no memory is refused its facts and the answers are those of the
    list operations: asserting appends, retracting removes the first occurrence of
    the pointer and tells whether there was one. *)
Theorem knowledge_base_refines_list {St} {A : Arena St} {L : ArenaLaws St} ops (st : St) :
  arena_inv st -> Forall op_ok ops -> Z.of_nat (length ops) <= 2 ^ 30 ->
  exists r st1 f1, eshkol_make_kb st = (Ret r, st1, f1) /\ arena_inv st1 /\
  match r with
  | None => f1 = true
  | Some kb => exists answers kb' st2 f2,
      kb_run ops kb st1 = (Ret (answers, kb'), st2, f2) /\ arena_inv st2 /\
      num_facts kb' <= kb_capacity kb' /\
      (f2 = false -> (answers, kb_facts kb') = list_run ops [])
  end.
Proof.
  intros Hst Hops Hlen.
  destruct (wp_run eshkol_make_kb True (fun kb => kb_ok kb /\ kb_facts kb = [] /\ kb_capacity kb = 16) st
    (fun G => make_kb_spec) Hst) as (r & st1 & f1 & E & Hst1 & Hr).
  exists r, st1, f1. split; [exact E|]. split; [exact Hst1|]. destruct r as [kb|]; [|tauto].
  destruct Hr as (Hok & Hnil & _).
  destruct (wp_readings (kb_run ops kb)
    (fun (g : Prop) '(rs, kb') => kb_ok kb' /\ (g -> (rs, kb_facts kb') = list_run ops (kb_facts kb))) st1)
    as ([rs kb'] & st2 & f2 & E2 & Hst2 & (Hok' & _) & Hg); [|exact Hst1|].
  - intros G. apply kb_run_spec; auto. unfold num_facts. rewrite Hnil. cbn. lia.
  - exists rs, kb', st2, f2. split; [exact E2|]. split; [exact Hst2|]. split; [apply (kb_room _ Hok')|].
    intros Hf. rewrite <- Hnil. apply (Hg Hf). exact I.
Qed.

(** Twenty assertions (the array grows at the seventeenth) and two retractions. *)
Definition sample_kb_ops : list kb_op :=
  map (fun i => Assert (1000 + 16 * Z.of_nat i)) (seq 0 20) ++ [Retract 1032; Retract 7].

Lemma knowledge_base_refines_list_witness :
  exists kb st1 f1, eshkol_make_kb bench = (Ret (Some kb), st1, f1) /\
  exists answers kb' st2 f2, kb_run sample_kb_ops kb st1 = (Ret (answers, kb'), st2, f2) /\
    num_facts kb' <= kb_capacity kb' /\ (f2 = false -> (answers, kb_facts kb') = list_run sample_kb_ops []).
Proof.
  destruct (knowledge_base_refines_list sample_kb_ops bench bench_inv) as (r & st1 & f1 & E & _ & H).
  - apply Forall_app. split; [apply Forall_map, Forall_seq; intros i _; cbn; lia|repeat constructor].
  - vm_compute. discriminate.
  - destruct r as [kb|]; [|exfalso; vm_compute in E; discriminate E].
    exists kb, st1, f1. split; [exact E|]. destruct H as (answers & kb' & st2 & f2 & E2 & _ & Hc & Hg).
    exists answers, kb', st2, f2. auto.
Defined.

(** ** Names *)

(** Registrations, with their answers. *)
Inductive registration : Type :=
| Register_var (name : list Z)
| Intern (address : Z) (text : list Z).

Fixpoint serve (pool : Z) (ops : list registration) (r : registry) : list (registration * Z) * registry :=
  match ops with
  | [] => ([], r)
  | op :: ops =>
    let '(answer, r1) :=
      match op with
      | Register_var name => eshkol_make_logic_var (Some name) r
      | Intern p s => match eshkol_intern_predicate pool (Some (p, s)) r with (Some q, r1) => (q, r1) | (None, r1) => (0, r1) end
      end in
    let '(answers, r2) := serve pool ops r1 in ((op, answer) :: answers, r2)
  end.

Definition interns (ops : list registration) : Z := Z.of_nat (length (List.filter (fun op => match op with Intern _ _ => true | _ => false end) ops)).
Definition interned_bytes (ops : list registration) : Z := fold_right (fun op n => match op with Intern _ s => Z.of_nat (length s) + 1 + n | _ => n end) 0 ops.

Lemma make_var_preds name r : pred_table (snd (eshkol_make_logic_var name r)) = pred_table r /\ pred_pool_offset (snd (eshkol_make_logic_var name r)) = pred_pool_offset r.
Proof.
  destruct name as [n|]; [|auto]. cbn [eshkol_make_logic_var]. destruct (negb _); [auto|]. destruct (_ >=? _); [auto|]. destruct (intern_var_name _ _). auto.
Qed.

Lemma intern_vars pool name r : var_names (snd (eshkol_intern_predicate pool name r)) = var_names r /\ var_name_pool_offset (snd (eshkol_intern_predicate pool name r)) = var_name_pool_offset r.
Proof.
  destruct name as [[p s]|]; [|auto]. cbn [eshkol_intern_predicate]. destruct (find_pred _ _); [auto|]. destruct (_ >=? _); [auto|]. destruct (_ >? _); auto.
Qed.

Lemma vars_ok_same r r' : var_names r' = var_names r -> var_name_pool_offset r' = var_name_pool_offset r -> vars_ok r -> vars_ok r'.
Proof. intros E1 E2 [H1 H2 H3 H4]. constructor; rewrite ?E1, ?E2; assumption. Qed.

Lemma preds_ok_same r r' : pred_table r' = pred_table r -> pred_pool_offset r' = pred_pool_offset r -> preds_ok r -> preds_ok r'.
Proof. intros E1 E2 [H1 H2 H3 H4]. constructor; rewrite ?E1, ?E2; assumption. Qed.

(** A name has its id, or the table is full of other names. *)
Definition named (r : registry) (n : list Z) (i : Z) : Prop :=
  0 <= i < LOGIC_VAR_MAX /\ eshkol_logic_var_name r i = Some n \/
  i = UINT64_MAX /\ Z.of_nat (length (var_names r)) = LOGIC_VAR_MAX /\ ~ In n (var_names r).

Definition var_names_kept (r r' : registry) : Prop :=
  (forall i n, 0 <= i -> eshkol_logic_var_name r i = Some n -> eshkol_logic_var_name r' i = Some n) /\
  (Z.of_nat (length (var_names r)) = LOGIC_VAR_MAX -> var_names r' = var_names r).

Lemma named_kept r r' n i : var_names_kept r r' -> named r n i -> named r' n i.
Proof. intros [K F] [[Hi Hn]|(-> & Hl & Hn)]; [left; split; [exact Hi|apply K; [lia|exact Hn]]|right; rewrite (F Hl); auto]. Qed.

Lemma make_var_keeps r n : vars_ok r -> (length n <= 63)%nat ->
  let '(i, r') := eshkol_make_logic_var (Some n) r in vars_ok r' /\ var_names_kept r r' /\ named r' n i.
Proof.
  intros Hv Hn. pose proof (make_logic_var_spec r n Hv Hn) as H. assert (F : Z.of_nat (length (var_names r)) = LOGIC_VAR_MAX -> var_names (snd (eshkol_make_logic_var (Some n) r)) = var_names r).
  { intros Hl. cbn [eshkol_make_logic_var]. destruct (negb _); [reflexivity|]. rewrite Hl. reflexivity. }
  destruct (eshkol_make_logic_var (Some n) r) as [i r']. destruct H as (Hv' & K & H). split; [exact Hv'|]. split; [split; [exact K|exact F]|]. destruct H as [H|(-> & -> & Hl & Hi)]; [left; exact H|right; auto].
Qed.

Lemma serve_vars pool ops : forall r, vars_ok r -> (forall n, In (Register_var n) ops -> (length n <= 63)%nat) ->
  let '(answers, r') := serve pool ops r in vars_ok r' /\ var_names_kept r r' /\ forall n i, In (Register_var n, i) answers -> named r' n i.
Proof.
  induction ops as [|op ops IH]; intros r Hv Hn; cbn [serve]; [split; [exact Hv|]; split; [split; auto|intros n i []]|].
  assert (S : let '(i, r1) := match op with Register_var name => eshkol_make_logic_var (Some name) r | Intern p s => match eshkol_intern_predicate pool (Some (p, s)) r with (Some q, r1) => (q, r1) | (None, r1) => (0, r1) end end in
    vars_ok r1 /\ var_names_kept r r1 /\ forall n, op = Register_var n -> named r1 n i).
  { destruct op as [name|p s].
    - pose proof (make_var_keeps r name Hv (Hn name (or_introl eq_refl))) as H. destruct (eshkol_make_logic_var (Some name) r) as [i r1]. destruct H as (H1 & H2 & H3). split; [exact H1|]. split; [exact H2|]. intros n [= <-]. exact H3.
    - destruct (intern_vars pool (Some (p, s)) r) as [E1 E2]. destruct (eshkol_intern_predicate pool (Some (p, s)) r) as [[q|] r1]; cbn [snd] in *; (split; [exact (vars_ok_same _ _ E1 E2 Hv)|]; split; [|discriminate]);
        (split; [unfold eshkol_logic_var_name; rewrite E1; auto|auto]). }
  destruct (match op with Register_var name => _ | Intern p s => _ end) as [i r1]. destruct S as (Hv1 & K1 & N1). specialize (IH r1 Hv1 (fun n Hin => Hn n (or_intror Hin))). destruct (serve pool ops r1) as [answers r2].
  destruct IH as (Hv2 & K2 & N2). split; [exact Hv2|]. split.
  - destruct K1 as [K1 F1], K2 as [K2 F2]. split; [auto|]. intros Hl. rewrite F2 by (rewrite (F1 Hl); exact Hl). exact (F1 Hl).
  - intros n j [[= -> ->]|Hin]; [exact (named_kept _ _ _ _ K2 (N1 n eq_refl))|exact (N2 n j Hin)].
Qed.

Lemma serve_preds pool ops : forall r, preds_ok r -> Z.of_nat (length (pred_table r)) + interns ops <= PRED_TABLE_SIZE -> pred_pool_offset r + interned_bytes ops <= PRED_POOL_SIZE ->
  let '(answers, r') := serve pool ops r in preds_ok r' /\ (forall q s, interned pool r q s -> interned pool r' q s) /\ forall p s q, In (Intern p s, q) answers -> interned pool r' q s.
Proof.
  induction ops as [|op ops IH]; intros r Hp Ht Hb; cbn [serve]; [split; [exact Hp|]; split; [auto|intros p s q []]|]. unfold interns in Ht. destruct op as [name|p s]; cbn [List.filter interned_bytes fold_right length] in *.
  - destruct (make_var_preds (Some name) r) as [E1 E2]. destruct (eshkol_make_logic_var (Some name) r) as [i r1]. cbn [snd] in *. rewrite <- E1 in Ht. rewrite <- E2 in Hb. specialize (IH r1 (preds_ok_same _ _ E1 E2 Hp) Ht Hb).
    destruct (serve pool ops r1) as [answers r2]. destruct IH as (H1 & H2 & H3). split; [exact H1|]. split; [intros q s Hq; apply H2; unfold interned; rewrite E1; exact Hq|]. intros p s q [[=]|Hin]. exact (H3 p s q Hin).
  - assert (HB : 0 <= interned_bytes ops) by (clear; induction ops as [|[n|p s] ops IHo]; cbn; [lia|exact IHo|unfold interned_bytes in IHo; lia]). change (fold_right _ 0 ops) with (interned_bytes ops) in Hb. fold (interns ops) in Ht.
    destruct (intern_room pool r p s Hp) as (q & r1 & E & Hp1 & K1 & I1 & L1 & O1); [lia|lia|]. rewrite E. specialize (IH r1 Hp1). unfold interns in IH.
    destruct (serve pool ops r1) as [answers r2]. destruct IH as (H1 & H2 & H3); [lia|lia|]. split; [exact H1|]. split; [auto|]. intros p' s' q' [[= <- <- <-]|Hin]; [exact (H2 _ _ I1)|exact (H3 _ _ _ Hin)].
Qed.

(** C32 Variable ids and predicate pointers stand for names.  Whatever is registered from
    the start of the process, in any order, without a reset of the registry and with
    variable names of at most 63 bytes: two names got the same id exactly when they are
    equal, each id looks up its name in the end, and only a table full of other names
    refuses.  When all the texts that are interned find room in the table and the pool, two
    of them got the same pointer exactly when they are equal, so unification may compare
    pointers. *)
Theorem names_are_identities pool ops :
  (forall n, In (Register_var n) ops -> (length n <= 63)%nat) ->
  let '(answers, r) := serve pool ops empty_registry in
  (forall n i, In (Register_var n, i) answers ->
     (i <> UINT64_MAX /\ eshkol_logic_var_name r i = Some n) \/
     (i = UINT64_MAX /\ Z.of_nat (length (var_names r)) = LOGIC_VAR_MAX /\ ~ In n (var_names r))) /\
  (forall n1 i n2 j, In (Register_var n1, i) answers -> In (Register_var n2, j) answers -> i <> UINT64_MAX -> j <> UINT64_MAX -> (i = j <-> n1 = n2)) /\
  (interns ops <= PRED_TABLE_SIZE -> interned_bytes ops <= PRED_POOL_SIZE ->
   forall p1 s1 q1 p2 s2 q2, In (Intern p1 s1, q1) answers -> In (Intern p2 s2, q2) answers -> (q1 = q2 <-> s1 = s2)).
Proof.
  intros Hn. pose proof (serve_vars pool ops empty_registry empty_vars_ok Hn) as HV. pose proof (serve_preds pool ops empty_registry empty_preds_ok) as HP.
  destruct (serve pool ops empty_registry) as [answers r]. destruct HV as (Hv & _ & HN). unfold LOGIC_VAR_MAX in *. split; [|split].
  - intros n i Hin. destruct (HN n i Hin) as [[Hi Hr]|H]; [left|right; exact H]. split; [unfold LOGIC_VAR_MAX in *; lia|exact Hr].
  - intros n1 i n2 j H1 H2 Ni Nj. destruct (HN _ _ H1) as [[R1 E1]|[? _]]; [|contradiction]. destruct (HN _ _ H2) as [[R2 E2]|[? _]]; [|contradiction]. split; [congruence|intros ->].
    rewrite <- (proj1 (var_name_at r i n2 Hv E1 ltac:(lia))). apply (var_name_at r j n2 Hv E2). lia.
  - intros Ht Hb p1 s1 q1 p2 s2 q2 H1 H2. destruct HP as (Hp & _ & HI); [exact Ht|exact Hb|]. exact (interned_injective pool r _ _ _ _ Hp (HI _ _ _ H1) (HI _ _ _ H2)).
Qed.

Definition name_x : list Z := [63; 120].
Definition name_y : list Z := [63; 121].

Definition registrations : list registration := [Register_var name_x; Intern 10 [112]; Register_var name_y; Intern 20 [113]; Register_var name_x; Intern 30 [112]].

Lemma names_are_identities_witness :
  fst (serve 5000 registrations empty_registry) =
    [(Register_var name_x, 0); (Intern 10 [112], 5000); (Register_var name_y, 1); (Intern 20 [113], 5002); (Register_var name_x, 0); (Intern 30 [112], 5000)] /\
  (0 = 1 <-> name_x = name_y) /\ (5000 = 5002 <-> [112] = [113]).
Proof.
  assert (Hn : forall n, In (Register_var n) registrations -> (length n <= 63)%nat) by (intros n; cbn; intuition (match goal with H : _ = Register_var _ |- _ => injection H as <- end || discriminate; cbn; lia)).
  pose proof (names_are_identities 5000 registrations Hn) as H. split; [reflexivity|]. destruct H as (_ & HV & HP). split.
  - apply (HV name_x 0 name_y 1); [left; reflexivity|do 2 right; left; reflexivity|discriminate|discriminate].
  - apply (HP ltac:(vm_compute; discriminate) ltac:(vm_compute; discriminate) 10 [112] 5000 20 [113] 5002); [right; left; reflexivity|do 3 right; left; reflexivity].
Defined.

(** ** Deep equality *)

(** C20 [eshkol_deep_equal] decides equality of meanings: for acyclic values whose
    doubles are neither NaN nor equal to a 64-bit integer, the answer comes and is
    true exactly when both mean the same datum, integers compared by value across
    int64 and bignum, strings and symbols by content, rationals by value, pairs and
    vectors by their parts, and other objects by address. *)
Theorem deep_equal_is_structural h n v w t u :
  denotes h n v t -> denotes h n w u ->
  exists r, eshkol_deep_equal h n (Some v) (Some w) = Some r /\ (r = true <-> t = u).
Proof. intros Hv Hw. exact (deep_equal_denotes h n v w t u Hv Hw). Qed.

(** A pair of the bignum 7 and a string, and a pair of the integer 7 and an equal
    string elsewhere. *)
Definition equal_heap : store :=
  <[100 := obj_bignum (mkBignum 0 [7])]> (<[200 := obj_string [104; 105]]> (<[300 := obj_string [104; 105]]>
  (<[400 := obj_cons (fact_ptr 100) (fact_ptr 200)]> (<[500 := obj_cons (make_int64 7) (fact_ptr 300)]> ∅)))).

Lemma seven_wf : bignum_wf (mkBignum 0 [7]).
Proof. solve_big. Qed.

Lemma equal_heap_bignum : denotes equal_heap 0 (fact_ptr 100) (DInt 7).
Proof.
  cbn. split; [lia|]. right. exists (mkBignum 0 [7]). split; [|split; [apply seven_wf|reflexivity]].
  split; [reflexivity|]. split; [lia|reflexivity].
Qed.

Lemma equal_heap_string p : p = 200 \/ p = 300 -> denotes equal_heap 0 (fact_ptr p) (DStr [104; 105]).
Proof.
  intros [-> | ->]; cbn; (split; [lia|]); (split; [right; reflexivity|]); (split; [lia|reflexivity]).
Qed.

Lemma equal_heap_pair p car cdr :
  0 < p < 2 ^ 64 -> equal_heap !! p = Some (obj_cons car cdr) ->
  denotes equal_heap 0 car (DInt 7) -> denotes equal_heap 0 cdr (DStr [104; 105]) ->
  denotes equal_heap 1 (fact_ptr p) (DPair (DInt 7) (DStr [104; 105])).
Proof.
  intros Hp L H1 H2. cbn [denotes fact_ptr vdata vtype]. split; [lia|]. exists car, cdr.
  split; [right; reflexivity|]. split; [lia|]. split; [exact L|]. split; assumption.
Qed.

Lemma equal_heap_pairs :
  denotes equal_heap 1 (fact_ptr 400) (DPair (DInt 7) (DStr [104; 105])) /\
  denotes equal_heap 1 (fact_ptr 500) (DPair (DInt 7) (DStr [104; 105])).
Proof.
  split.
  - apply (equal_heap_pair 400 (fact_ptr 100) (fact_ptr 200)); [lia|reflexivity|apply equal_heap_bignum|].
    apply equal_heap_string. auto.
  - apply (equal_heap_pair 500 (make_int64 7) (fact_ptr 300)); [lia|reflexivity| |apply equal_heap_string; auto].
    cbn [denotes]. split; [change (0 <= 7 < 2 ^ 64); lia|]. left. split; reflexivity.
Qed.

Lemma deep_equal_is_structural_witness :
  eshkol_deep_equal equal_heap 1 (Some (fact_ptr 400)) (Some (fact_ptr 500)) = Some true.
Proof.
  destruct (deep_equal_is_structural equal_heap 1 (fact_ptr 400) (fact_ptr 500) _ _
    (proj1 equal_heap_pairs) (proj2 equal_heap_pairs)) as (r & E & Hr).
  rewrite E. rewrite (proj2 Hr eq_refl). reflexivity.
Defined.

(** On numbers of both exactness kinds deep equality is no equivalence: two
    distinct integers are equal to the same double, and a NaN is not equal to
    itself. *)
Theorem deep_equal_not_an_equivalence :
  let d := mkTagged ESHKOL_VALUE_DOUBLE 0 0 (double_of_Z (2 ^ 53)) in
  let nan := mkTagged ESHKOL_VALUE_DOUBLE 0 0 9221120237041090560 in
  eshkol_deep_equal ∅ 0 (Some (make_int64 (2 ^ 53))) (Some d) = Some true /\
  eshkol_deep_equal ∅ 0 (Some d) (Some (make_int64 (2 ^ 53 + 1))) = Some true /\
  eshkol_deep_equal ∅ 0 (Some (make_int64 (2 ^ 53))) (Some (make_int64 (2 ^ 53 + 1))) = Some false /\
  eshkol_deep_equal ∅ 0 (Some nan) (Some nan) = Some false.
Proof. repeat split; vm_compute; reflexivity. Qed.

(** ** Where unification breaks its contract *)

(** The fact at [1000 + k] is p(p(... p(?0))) with [k + 1] facts around the variable. *)
Fixpoint tower_heap (n : nat) : store :=
  match n with
  | O => <[500 := obj_string [112]]> (<[1000 := obj_fact 500 [lvar 0]]> ∅)
  | S n' => <[1000 + Z.of_nat n := obj_fact 500 [fact_ptr (1000 + Z.of_nat n')]]> (tower_heap n')
  end.

Fixpoint tower (n : nat) : term :=
  match n with
  | O => TVar 0
  | S n' => TFact (Some [112]) [tower n']
  end.

Lemma tower_lookup n k : (k <= n)%nat ->
  tower_heap n !! (1000 + Z.of_nat k) =
  Some (obj_fact 500 [match k with O => lvar 0 | S k' => fact_ptr (1000 + Z.of_nat k') end]).
Proof.
  induction n as [|n IH]; intros Hk; [replace k with 0%nat by lia; reflexivity|]. cbn [tower_heap].
  destruct (Nat.eq_dec k (S n)) as [->|D]; [apply lookup_insert_eq|].
  rewrite lookup_insert_ne by lia. apply IH. lia.
Qed.

Lemma tower_name n : tower_heap n !! 500 = Some (obj_string [112]).
Proof. induction n as [|n IH]; [reflexivity|]. cbn [tower_heap]. rewrite lookup_insert_ne by lia. exact IH. Qed.

Lemma tower_is_term n k : (k <= n)%nat -> Z.of_nat n < 2 ^ 32 ->
  is_term (tower_heap n) 1 (fact_ptr (1000 + Z.of_nat k)) (tower (S k)).
Proof.
  intros Hk Hn. change (2 ^ 32) with 4294967296 in Hn.
  assert (Hp : pred_name (tower_heap n) 500 (Some [112])).
  { split; [lia|]. unfold c_bytes. rewrite tower_name. reflexivity. }
  induction k as [|k IH]; cbn [tower].
  - apply (fact_term _ _ _ 500 [lvar 0]); [lia|apply (tower_lookup n 0); lia|exact Hp|].
    repeat constructor. apply lvar_term. lia.
  - apply (fact_term _ _ _ 500 [fact_ptr (1000 + Z.of_nat k)]);
      [change (2 ^ 64) with 18446744073709551616; lia|apply (tower_lookup n (S k) Hk)|exact Hp|].
    constructor; [|constructor]. apply IH. lia.
Qed.

Lemma tower_reaches n t : reaches [(0, t)] (tower n) 0.
Proof. induction n as [|n IH]; cbn [tower]; [apply (reach_here _ 0 t); reflexivity|]. eapply reach_arg; [left; reflexivity|exact IH]. Qed.

Lemma tower_represents n : Z.of_nat n < 2 ^ 32 ->
  represents (tower_heap n) 1 (mkSubst 8 [(0, fact_ptr (1000 + Z.of_nat n))]) [(0, tower (S n))].
Proof.
  intros Hn. constructor; cbn [sub_bindings sub_capacity]; [|unfold num_bindings; cbn; lia|lia].
  constructor; [|constructor]. split; [reflexivity|]. apply (tower_is_term n n); [lia|exact Hn].
Qed.

Lemma tower_unsolvable n : ~ exists theta, solves theta [(0, tower (S n))].
Proof.
  intros [theta Hs]. specialize (Hs 0 (tower (S n)) eq_refl). revert Hs. apply occurs_no_solution; [|discriminate].
  induction n as [|n IH]; [left; reflexivity|]. change (tower (S (S n))) with (TFact (Some [112]) [tower (S n)]).
  cbn [vars flat_map]. apply in_or_app. left. exact IH.
Qed.

Definition unify_result (h : store) (t1 t2 : tagged_value) (s : option substitution) : outcome (option substitution) :=
  fst (fst (eshkol_unify h 1 10 (Some t1) (Some t2) s bench)).

(** Two inputs on which unification does not do what it documents.  Under the
    null substitution, documented as the empty one, unifying equal terms returns
    null, which means failure, where the empty substitution object is returned
    unchanged.  And the occurs check gives up past depth 1000: a variable under
    1000 facts is found, under 1001 it is not, and the variable is bound to a term
    that contains it, so the result is cyclic and has no solution. *)
Theorem unify_edge_cases :
  unify_result ∅ (make_int64 1) (make_int64 1) (Some empty_subst) = Ret (Some empty_subst) /\
  unify_result ∅ (make_int64 1) (make_int64 1) None = Ret None /\
  unify_result (tower_heap 999) (lvar 0) (fact_ptr 1999) (Some empty_subst) = Ret None /\
  exists s b, unify_result (tower_heap 1000) (lvar 0) (fact_ptr 2000) (Some empty_subst) = Ret (Some s) /\
    represents (tower_heap 1000) 1 s b /\ ~ acyclic b /\ ~ exists theta, solves theta b.
Proof.
  split; [vm_compute; reflexivity|]. split; [vm_compute; reflexivity|]. split; [vm_compute; reflexivity|].
  exists (mkSubst 8 [(0, fact_ptr (1000 + Z.of_nat 1000))]), [(0, tower 1001)].
  split; [vm_compute; reflexivity|]. split; [apply (tower_represents 1000); reflexivity|].
  split; [|apply tower_unsolvable].
  intros Ha. exact (acyclic_no_loop _ 0 (tower 1001) Ha eq_refl (tower_reaches 1001 _)).
Qed.

(** A name of 64 bytes is stored without its last byte, so it is never found again:
    each registration gives a new id.  The reset keeps the offset of the name pool,
    so after 65536 sessions with one name of 63 bytes every new name is stored as
    the same placeholder and gets a new id at every registration. *)
Fixpoint sessions (n : nat) (r : registry) : registry :=
  match n with
  | O => r
  | S n' => sessions n' (eshkol_logic_registry_reset (snd (eshkol_make_logic_var (Some (repeat 97 63)) r)))
  end.

Lemma sessions_leak n o : 0 <= o -> o + 64 * Z.of_nat n <= sizeof_var_name_pool ->
  sessions n (mkRegistry [] o [] 0) = mkRegistry [] (o + 64 * Z.of_nat n) [] 0.
Proof.
  revert o. induction n as [|n IH]; intros o Ho Hn; cbn [sessions]; [f_equal; lia|].
  assert (E : eshkol_logic_registry_reset (snd (eshkol_make_logic_var (Some (repeat 97 63)) (mkRegistry [] o [] 0)))
    = mkRegistry [] (o + 64) [] 0).
  { unfold eshkol_make_logic_var, find_var_by_name. cbn [find_name var_names]. rewrite Z.eqb_refl. cbn [negb].
    change (Z.of_nat (length [])) with 0. unfold intern_var_name. cbn [var_name_pool_offset].
    change (Z.of_nat (length (repeat 97 63))) with 63. change (63 >=? 63) with true. cbv iota.
    destruct (Z.gtb_spec (o + (63 + 1)) sizeof_var_name_pool); [lia|]. reflexivity. }
  rewrite E, IH by lia. f_equal. lia.
Qed.

Theorem registry_edge_cases n :
  (let long := Some (repeat 97 64) in
   let '(i, r1) := eshkol_make_logic_var long empty_registry in
   let '(j, _) := eshkol_make_logic_var long r1 in i = 0 /\ j = 1) /\
  (Z.of_nat n = 65536 ->
   let '(i, r1) := eshkol_make_logic_var (Some name_x) (sessions n empty_registry) in
   let '(j, r2) := eshkol_make_logic_var (Some name_x) r1 in
   i = 0 /\ j = 1 /\ eshkol_logic_var_name r2 0 = Some pool_exhausted).
Proof.
  split; [vm_compute; auto|]. intros Hn. unfold empty_registry.
  rewrite sessions_leak, Hn by (rewrite ?Hn; unfold sizeof_var_name_pool, LOGIC_VAR_MAX; lia). vm_compute. auto.
Qed.
