(* ===== verification/OrderedMap.v ===== *)
(** * Ordered maps: what the code uses of [std::map] and [std::set]

    A map is the list of its entries in the order of iteration, ascending by key.
    [find] is [std::map::find], [insert] is [operator[]=] (or [std::set::insert]),
    and iterating is iterating over the list. *)

From Stdlib Require Import String Ascii ZArith NArith List Lia Bool Sorted.
From S2P Require Import Prelude.
Import ListNotations.

(** ** Keys *)

(** The comparison a map is ordered by ([std::less] of the key type), and its laws. *)
Class KeyOrder (K : Type) := kcmp : K -> K -> comparison.

Class KeyLaws (K : Type) {O : KeyOrder K} : Prop := {
  kcmp_eq : forall a b : K, kcmp a b = Eq <-> a = b;
  kcmp_flip : forall a b : K, kcmp b a = CompOpp (kcmp a b);
  kcmp_trans : forall a b c : K, kcmp a b = Lt -> kcmp b c = Lt -> kcmp a c = Lt
}.

Lemma kcmp_refl {K} `{KeyLaws K} (a : K) : kcmp a a = Eq.
Proof. apply kcmp_eq. reflexivity. Qed.

#[export] Instance Z_order : KeyOrder Z := Z.compare.

#[export] Instance Z_laws : KeyLaws Z.
Proof.
  constructor; unfold kcmp, Z_order.
  - apply Z.compare_eq_iff.
  - intros a b. apply Z.compare_antisym.
  - intros a b c. rewrite !Z.compare_lt_iff. lia.
Qed.

(** Names compare byte by byte. *)
#[export] Instance string_order : KeyOrder string := String.compare.

Lemma ascii_compare_trans a b c : Ascii.compare a b = Lt -> Ascii.compare b c = Lt -> Ascii.compare a c = Lt.
Proof. unfold Ascii.compare. rewrite !N.compare_lt_iff. lia. Qed.

#[export] Instance string_laws : KeyLaws string.
Proof.
  constructor; unfold kcmp, string_order.
  - intros a b. split; [apply String.compare_eq_iff|]. intros ->.
    pose proof (String.compare_antisym b b) as E. destruct (b ?= b)%string; [reflexivity|discriminate E..].
  - intros a b. apply String.compare_antisym.
  - induction a as [|x a IH]; intros [|y b] [|z c]; cbn; try congruence.
    destruct (Ascii.compare x y) eqn:E1; destruct (Ascii.compare y z) eqn:E2; try congruence; intros H1 H2.
    + apply Ascii.compare_eq_iff in E1, E2. subst. unfold Ascii.compare. rewrite N.compare_refl. eauto.
    + apply Ascii.compare_eq_iff in E1. subst. rewrite E2. reflexivity.
    + apply Ascii.compare_eq_iff in E2. subst. rewrite E1. reflexivity.
    + rewrite (ascii_compare_trans x y z E1 E2). reflexivity.
Qed.

(** Pairs and sequences compare lexicographically. *)
Definition pair_compare {A B} `{KeyOrder A} `{KeyOrder B} (p q : A * B) : comparison :=
  match kcmp (fst p) (fst q) with Eq => kcmp (snd p) (snd q) | c => c end.

#[export] Instance pair_order {A B} `{KeyOrder A} `{KeyOrder B} : KeyOrder (A * B) := pair_compare.

#[export] Instance pair_laws {A B} `{KeyLaws A} `{KeyLaws B} : KeyLaws (A * B).
Proof.
  constructor; change (@kcmp (A * B) _) with (@pair_compare A B _ _); unfold pair_compare.
  - intros [a b] [a' b']; cbn [fst snd]. destruct (kcmp a a') eqn:E.
    + apply kcmp_eq in E. subst. rewrite kcmp_eq. split; congruence.
    + split; [discriminate|]. intros [= -> ->]. rewrite kcmp_refl in E. discriminate.
    + split; [discriminate|]. intros [= -> ->]. rewrite kcmp_refl in E. discriminate.
  - intros [a b] [a' b']; cbn [fst snd]. rewrite (kcmp_flip a a').
    destruct (kcmp a a'); cbn; [apply kcmp_flip|reflexivity..].
  - intros [a b] [a' b'] [a'' b'']; cbn [fst snd].
    destruct (kcmp a a') eqn:E1; destruct (kcmp a' a'') eqn:E2; try congruence; intros H3 H4.
    + apply kcmp_eq in E1, E2. subst. rewrite kcmp_refl. eapply kcmp_trans; eassumption.
    + apply kcmp_eq in E1. subst. rewrite E2. reflexivity.
    + apply kcmp_eq in E2. subst. rewrite E1. reflexivity.
    + rewrite (kcmp_trans a a' a'' E1 E2). reflexivity.
Qed.

Fixpoint list_compare {A} `{KeyOrder A} (l1 l2 : list A) : comparison :=
  match l1, l2 with
  | [], [] => Eq
  | [], _ => Lt
  | _, [] => Gt
  | a :: l1', b :: l2' => match kcmp a b with Eq => list_compare l1' l2' | c => c end
  end.

#[export] Instance list_order {A} `{KeyOrder A} : KeyOrder (list A) := list_compare.

#[export] Instance list_laws {A} `{KeyLaws A} : KeyLaws (list A).
Proof.
  constructor; change (@kcmp (list A) _) with (@list_compare A _).
  - induction a as [|x a IH]; intros [|y b]; cbn; try (split; congruence).
    destruct (kcmp x y) eqn:E.
    + apply kcmp_eq in E. subst. rewrite IH. split; congruence.
    + split; [discriminate|]. intros [= -> ->]. rewrite kcmp_refl in E. discriminate.
    + split; [discriminate|]. intros [= -> ->]. rewrite kcmp_refl in E. discriminate.
  - induction a as [|x a IH]; intros [|y b]; cbn; try reflexivity.
    rewrite (kcmp_flip x y). destruct (kcmp x y); cbn; [apply IH|reflexivity..].
  - induction a as [|x a IH]; intros [|y b] [|z c]; cbn; try congruence.
    destruct (kcmp x y) eqn:E1; destruct (kcmp y z) eqn:E2; try congruence; intros H1 H2.
    + apply kcmp_eq in E1, E2. subst. rewrite kcmp_refl. eauto.
    + apply kcmp_eq in E1. subst. rewrite E2. reflexivity.
    + apply kcmp_eq in E2. subst. rewrite E1. reflexivity.
    + rewrite (kcmp_trans x y z E1 E2). reflexivity.
Qed.

(** ** Maps *)

Section Map.
  Context {K V : Type} `{KeyLaws K}.

Definition omap : Type := list (K * V).

Fixpoint find (k : K) (m : omap) : option V :=
  match m with
  | [] => None
  | (k', v) :: m' => match kcmp k k' with Eq => Some v | _ => find k m' end
  end.

Fixpoint insert (k : K) (v : V) (m : omap) : omap :=
  match m with
  | [] => [(k, v)]
  | (k', v') :: m' =>
    match kcmp k k' with
    | Lt => (k, v) :: m
    | Eq => (k, v) :: m'
    | Gt => (k', v') :: insert k v m'
    end
  end.

(** [erase] by key. *)
Definition erase (k : K) (m : omap) : omap :=
  filter (fun e => match kcmp k (fst e) with Eq => false | _ => true end) m.

Definition mem (k : K) (m : omap) : bool := match find k m with Some _ => true | None => false end.

(** Ascending keys. *)
Definition ordered (m : omap) : Prop := StronglySorted (fun a b => kcmp (fst a) (fst b) = Lt) m.

Lemma find_insert_eq k v m : find k (insert k v m) = Some v.
Proof.
  induction m as [|[k' v'] m IH]; cbn; [rewrite kcmp_refl; reflexivity|].
  destruct (kcmp k k') eqn:E; cbn; rewrite ?kcmp_refl, ?E; auto.
Qed.

Lemma kcmp_ne k k' : k <> k' -> kcmp k k' <> Eq.
Proof. intros N E. apply N, kcmp_eq, E. Qed.

Lemma find_cons_ne k k' v m : k <> k' -> find k ((k', v) :: m) = find k m.
Proof. intros N. cbn. destruct (kcmp k k') eqn:E; [exfalso; exact (kcmp_ne _ _ N E)|reflexivity..]. Qed.

Lemma find_insert_ne k k' v m : k <> k' -> find k (insert k' v m) = find k m.
Proof.
  intros N. induction m as [|[k2 v2] m IH]; cbn [insert].
  - apply find_cons_ne, N.
  - destruct (kcmp k' k2) eqn:E.
    + apply kcmp_eq in E. subst. rewrite !find_cons_ne by exact N. reflexivity.
    + apply find_cons_ne, N.
    + cbn [find]. rewrite IH. reflexivity.
Qed.

Lemma find_In k v m : find k m = Some v -> In (k, v) m.
Proof.
  induction m as [|[k' v'] m IH]; cbn; [discriminate|]. destruct (kcmp k k') eqn:E; [|auto..].
  intros [= ->]. apply kcmp_eq in E. subst. left. reflexivity.
Qed.

Lemma insert_In k v m e : In e (insert k v m) -> e = (k, v) \/ In e m.
Proof.
  induction m as [|[k' v'] m IH]; cbn; [intuition|].
  destruct (kcmp k k'); cbn; [intuition|intuition|]. intros [<-|Hi]; [auto|]. destruct (IH Hi); auto.
Qed.

Lemma insert_ordered k v m : ordered m -> ordered (insert k v m).
Proof.
  unfold ordered. induction m as [|[k' v'] m IH]; intros Hs; cbn; [repeat constructor|].
  inversion Hs as [|? ? Hs' HF]; subst. destruct (kcmp k k') eqn:E.
  - apply kcmp_eq in E. subst. constructor; assumption.
  - constructor; [exact Hs|]. constructor; [exact E|].
    eapply Forall_impl; [|exact HF]. intros a Ha. cbn in *. eapply kcmp_trans; eassumption.
  - constructor; [apply IH, Hs'|]. apply Forall_forall. intros a Ha.
    apply insert_In in Ha. destruct Ha as [->|Ha].
    + cbn. rewrite kcmp_flip, E. reflexivity.
    + rewrite Forall_forall in HF. apply HF, Ha.
Qed.

Lemma In_find k v m : ordered m -> In (k, v) m -> find k m = Some v.
Proof.
  induction m as [|[k' v'] m IH]; intros Hs; [intros []|]. inversion Hs as [|? ? Hs' HF]; subst.
  intros [[= -> ->]|Hi]; cbn; [rewrite kcmp_refl; reflexivity|].
  destruct (kcmp k k') eqn:E; [|apply IH; assumption..].
  apply kcmp_eq in E. subst. rewrite Forall_forall in HF. specialize (HF _ Hi). cbn in HF.
  rewrite kcmp_refl in HF. discriminate.
Qed.

Lemma find_erase k k' m : find k (erase k' m) = match kcmp k k' with Eq => None | _ => find k m end.
Proof.
  unfold erase. induction m as [|[k2 v2] m IH]; cbn [filter fst]; [destruct (kcmp k k'); reflexivity|].
  destruct (kcmp k' k2) eqn:E.
  - apply kcmp_eq in E. subst k2. rewrite IH. cbn [find]. destruct (kcmp k k') eqn:E; reflexivity.
  - cbn [find]. rewrite IH. destruct (kcmp k k2) eqn:E2; [|reflexivity..]. apply kcmp_eq in E2. subst k2.
    rewrite (kcmp_flip k' k), E. reflexivity.
  - cbn [find]. rewrite IH. destruct (kcmp k k2) eqn:E2; [|reflexivity..]. apply kcmp_eq in E2. subst k2.
    rewrite (kcmp_flip k' k), E. reflexivity.
Qed.

Lemma mem_find k m : mem k m = true <-> exists v, find k m = Some v.
Proof. unfold mem. destruct (find k m); split; intros Hm; eauto; [discriminate|destruct Hm; discriminate]. Qed.

Lemma mem_false k m : mem k m = false <-> find k m = None.
Proof. unfold mem. destruct (find k m); split; congruence. Qed.

Lemma ordered_nil : ordered [].
Proof. constructor. Qed.

End Map.

Arguments omap : clear implicits.

#[export] Hint Resolve insert_ordered ordered_nil : core.
