(* ===== verification/TypeEnv.v ===== *)
(** * The type environment: lib/types/hott_types.cpp

    The graph of types with its caches: registration, lookup, subtyping, least common
    supertypes, arithmetic promotion, the mapping to runtime tags, parameterized,
    function and pair types.  The maps are ordered maps, the environment is passed
    through explicitly because the [const] methods write to the [mutable] caches. *)

From Stdlib Require Import String Ascii ZArith List Bool Lia.
From S2P Require Import Prelude OrderedMap Tagged.
Import ListNotations.
Open Scope Z_scope.

(** ** Types and nodes *)

(** [Universe] is an [enum class : uint8_t]: any byte is a value of it. *)
Definition U0 : Z := 0.
Definition U1 : Z := 1.
Definition U2 : Z := 2.
Definition UOmega : Z := 255.

Definition TYPE_FLAG_EXACT : Z := 1.
Definition TYPE_FLAG_LINEAR : Z := 2.
Definition TYPE_FLAG_PROOF : Z := 4.
Definition TYPE_FLAG_ABSTRACT : Z := 8.

Inductive RuntimeRep : Type :=
| RInt8 | RInt16 | RInt32 | RInt64 | RUInt8 | RUInt16 | RUInt32 | RUInt64
| RFloat32 | RFloat64 | RPointer | RTaggedValue | RStruct | RErased.

Record TypeId : Type := mkTypeId { tid : Z; level : Z; tflags : Z }.

(** [operator==] compares the numeric ids only. *)
Definition type_eqb (a b : TypeId) : bool := tid a =? tid b.

Definition isExact (t : TypeId) : bool := negb (Z.land (tflags t) TYPE_FLAG_EXACT =? 0).
Definition isLinear_flag (t : TypeId) : bool := negb (Z.land (tflags t) TYPE_FLAG_LINEAR =? 0).
Definition isProof (t : TypeId) : bool := negb (Z.land (tflags t) TYPE_FLAG_PROOF =? 0).
Definition isAbstract (t : TypeId) : bool := negb (Z.land (tflags t) TYPE_FLAG_ABSTRACT =? 0).

(** Bits 0-15 the id, 16-23 the universe, 24-31 the flags. *)
Definition pack (t : TypeId) : Z :=
  Z.lor (Z.lor (tid t) (u32 (Z.shiftl (level t) 16))) (u32 (Z.shiftl (tflags t) 24)).

Definition unpack (packed : Z) : TypeId :=
  mkTypeId (Z.land packed 65535) (Z.land (Z.shiftr packed 16) 255) (Z.land (Z.shiftr packed 24) 255).

Inductive type_origin : Type := Builtin | UserDefined.

Record TypeNode : Type := mkNode {
  node_id : TypeId;
  node_name : string;
  supertype : option TypeId;
  subtypes : list TypeId;
  param_names : list string;
  runtime_rep : RuntimeRep;
  is_type_family : bool;
  origin : type_origin
}.

Module BuiltinTypes.
Definition Invalid := mkTypeId 0 U0 0.
Definition TypeU0 := mkTypeId 1 U0 0.
Definition TypeU1 := mkTypeId 2 U1 0.
Definition TypeU2 := mkTypeId 3 U2 0.
Definition Value := mkTypeId 10 U0 0.
Definition Number := mkTypeId 11 U0 0.
Definition Integer := mkTypeId 12 U0 TYPE_FLAG_EXACT.
Definition Int64 := mkTypeId 13 U0 TYPE_FLAG_EXACT.
Definition Natural := mkTypeId 14 U0 TYPE_FLAG_EXACT.
Definition BigInt := mkTypeId 24 U0 TYPE_FLAG_EXACT.
Definition Int8 := mkTypeId 28 U0 TYPE_FLAG_EXACT.
Definition Int16 := mkTypeId 29 U0 TYPE_FLAG_EXACT.
Definition Int32 := mkTypeId 30 U0 TYPE_FLAG_EXACT.
Definition ISize := mkTypeId 31 U0 TYPE_FLAG_EXACT.
Definition UInt8 := mkTypeId 32 U0 TYPE_FLAG_EXACT.
Definition UInt16 := mkTypeId 33 U0 TYPE_FLAG_EXACT.
Definition UInt32 := mkTypeId 34 U0 TYPE_FLAG_EXACT.
Definition UInt64 := mkTypeId 35 U0 TYPE_FLAG_EXACT.
Definition USize := mkTypeId 36 U0 TYPE_FLAG_EXACT.
Definition Real := mkTypeId 15 U0 0.
Definition Float64 := mkTypeId 16 U0 0.
Definition Float32 := mkTypeId 17 U0 0.
Definition Complex := mkTypeId 18 U0 0.
Definition Complex64 := mkTypeId 19 U0 0.
Definition Complex128 := mkTypeId 23 U0 0.
Definition Text := mkTypeId 20 U0 0.
Definition String := mkTypeId 21 U0 0.
Definition Char := mkTypeId 22 U0 TYPE_FLAG_EXACT.
Definition Boolean := mkTypeId 25 U0 TYPE_FLAG_EXACT.
Definition Null := mkTypeId 26 U0 0.
Definition Symbol := mkTypeId 27 U0 0.
Definition List := mkTypeId 100 U1 0.
Definition Vector := mkTypeId 101 U1 0.
Definition Pair := mkTypeId 102 U1 0.
Definition Function_ := mkTypeId 103 U1 0.
Definition Tensor := mkTypeId 104 U1 0.
Definition Closure := mkTypeId 105 U1 0.
Definition Pointer := mkTypeId 109 U1 0.
Definition DualNumber := mkTypeId 106 U1 0.
Definition ADNode := mkTypeId 107 U1 0.
Definition HashTable := mkTypeId 108 U1 0.
Definition Handle := mkTypeId 110 U1 TYPE_FLAG_LINEAR.
Definition Buffer := mkTypeId 111 U1 0.
Definition Stream := mkTypeId 112 U1 TYPE_FLAG_LINEAR.
Definition Eq := mkTypeId 200 U2 TYPE_FLAG_PROOF.
Definition LessThan := mkTypeId 201 U2 TYPE_FLAG_PROOF.
Definition Bounded := mkTypeId 202 U2 TYPE_FLAG_PROOF.
Definition Subtype := mkTypeId 203 U2 TYPE_FLAG_PROOF.
End BuiltinTypes.

(** A compile-time dimension: [Some n] is the kind Nat, [None] Unknown. *)
Definition CTValueSimple : Type := option Z.

Record ParameterizedType : Type := mkParameterized {
  base_type : TypeId;
  type_args : list TypeId;
  value_args : list CTValueSimple
}.

Definition isParameterized (p : ParameterizedType) : bool := match type_args p with [] => false | _ => true end.
Definition hasDimensions (p : ParameterizedType) : bool := match value_args p with [] => false | _ => true end.

Definition elementType (p : ParameterizedType) : TypeId :=
  match type_args p with [] => BuiltinTypes.Value | t :: _ => t end.

Definition getDimension (p : ParameterizedType) (idx : nat) : option Z :=
  match nth_error (value_args p) idx with Some d => d | None => None end.

Record PiParameter : Type := mkParam { param_name : string; param_type : TypeId; is_value_param : bool }.

Record PiType : Type := mkPi {
  params : list PiParameter;
  return_type : TypeId;
  is_dependent : bool;
  is_variadic : bool
}.

(** ** The environment *)

(** What [operator<] of [ParameterizedType] compares: the ids, then kind and value of
    the dimensions (Nat is 0, Unknown is 1). *)
Definition dim_key (d : CTValueSimple) : Z * Z := match d with Some n => (0, n) | None => (1, 0) end.
Definition ptype_key (p : ParameterizedType) : Z * (list Z * list (Z * Z)) :=
  (tid (base_type p), (map tid (type_args p), map dim_key (value_args p))).

Record TypeEnvironment : Type := mkEnv {
  types_ : omap Z TypeNode;
  name_to_id_ : omap string TypeId;
  next_user_id_ : Z;
  subtype_cache_ : omap (Z * Z) bool;
  parameterized_cache_ : omap (Z * (list Z * list (Z * Z))) TypeId;
  dimension_cache_ : omap Z (list CTValueSimple);
  function_type_cache_ : omap Z PiType;
  next_function_type_id_ : Z;
  pair_element_cache_ : omap Z (TypeId * TypeId);
  next_pair_type_id_ : Z
}.

Definition with_types (e : TypeEnvironment) t n :=
  mkEnv t n (next_user_id_ e) (subtype_cache_ e) (parameterized_cache_ e) (dimension_cache_ e)
    (function_type_cache_ e) (next_function_type_id_ e) (pair_element_cache_ e) (next_pair_type_id_ e).
Definition with_user_id (e : TypeEnvironment) i :=
  mkEnv (types_ e) (name_to_id_ e) i (subtype_cache_ e) (parameterized_cache_ e) (dimension_cache_ e)
    (function_type_cache_ e) (next_function_type_id_ e) (pair_element_cache_ e) (next_pair_type_id_ e).
Definition with_subtype_cache (e : TypeEnvironment) c :=
  mkEnv (types_ e) (name_to_id_ e) (next_user_id_ e) c (parameterized_cache_ e) (dimension_cache_ e)
    (function_type_cache_ e) (next_function_type_id_ e) (pair_element_cache_ e) (next_pair_type_id_ e).
Definition with_parameterized (e : TypeEnvironment) c :=
  mkEnv (types_ e) (name_to_id_ e) (next_user_id_ e) (subtype_cache_ e) c (dimension_cache_ e)
    (function_type_cache_ e) (next_function_type_id_ e) (pair_element_cache_ e) (next_pair_type_id_ e).
Definition with_dimensions (e : TypeEnvironment) c :=
  mkEnv (types_ e) (name_to_id_ e) (next_user_id_ e) (subtype_cache_ e) (parameterized_cache_ e) c
    (function_type_cache_ e) (next_function_type_id_ e) (pair_element_cache_ e) (next_pair_type_id_ e).
Definition with_functions (e : TypeEnvironment) c i :=
  mkEnv (types_ e) (name_to_id_ e) (next_user_id_ e) (subtype_cache_ e) (parameterized_cache_ e) (dimension_cache_ e)
    c i (pair_element_cache_ e) (next_pair_type_id_ e).
Definition with_pairs (e : TypeEnvironment) c i :=
  mkEnv (types_ e) (name_to_id_ e) (next_user_id_ e) (subtype_cache_ e) (parameterized_cache_ e) (dimension_cache_ e)
    (function_type_cache_ e) (next_function_type_id_ e) c i.

(** The counters are [uint16_t]. *)
Definition u16 (x : Z) : Z := x mod 2 ^ 16.

(** ** Registration *)

(** Nothing happens when the supertype is not registered. *)
Definition addSubtype (e : TypeEnvironment) (super subtype : TypeId) : TypeEnvironment :=
  match find (tid super) (types_ e) with
  | None => e
  | Some n =>
    with_types e
      (insert (tid super)
        (mkNode (node_id n) (node_name n) (supertype n) (subtypes n ++ [subtype]) (param_names n) (runtime_rep n)
           (is_type_family n) (origin n)) (types_ e))
      (name_to_id_ e)
  end.

Definition add_node (e : TypeEnvironment) (n : TypeNode) : TypeEnvironment :=
  with_types e (insert (tid (node_id n)) n (types_ e)) (insert (node_name n) (node_id n) (name_to_id_ e)).

Definition add_below (e : TypeEnvironment) (super : option TypeId) (t : TypeId) : TypeEnvironment :=
  match super with Some s => addSubtype e s t | None => e end.

Definition registerBuiltinType (id : Z) (name : string) (lvl flags : Z) (rep : RuntimeRep)
    (super : option TypeId) (e : TypeEnvironment) : TypeId * TypeEnvironment :=
  let t := mkTypeId id lvl flags in
  (t, add_below (add_node e (mkNode t name super [] [] rep false Builtin)) super t).

Definition registerTypeFamily (id : Z) (name : string) (lvl : Z) (names : list string) (rep : RuntimeRep)
    (e : TypeEnvironment) : TypeId * TypeEnvironment :=
  let t := mkTypeId id lvl 0 in
  (t, add_node e (mkNode t name None [] names rep true Builtin)).

Definition registerUserType (name : string) (lvl flags : Z) (super : option TypeId) (e : TypeEnvironment)
  : TypeId * TypeEnvironment :=
  let t := mkTypeId (next_user_id_ e) lvl flags in
  let e1 := with_user_id e (u16 (next_user_id_ e + 1)) in
  (t, add_below (add_node e1 (mkNode t name super [] [] RTaggedValue false UserDefined)) super t).

(** [types_[id].id.flags |= TYPE_FLAG_LINEAR] *)
Definition mark_linear (id : Z) (e : TypeEnvironment) : TypeEnvironment :=
  match find id (types_ e) with
  | None => e
  | Some n =>
    let t := node_id n in
    with_types e
      (insert id (mkNode (mkTypeId (tid t) (level t) (Z.lor (tflags t) TYPE_FLAG_LINEAR)) (node_name n) (supertype n)
         (subtypes n) (param_names n) (runtime_rep n) (is_type_family n) (origin n)) (types_ e))
      (name_to_id_ e)
  end.

Inductive registration : Type :=
| RegBuiltin (t : TypeId) (name : string) (lvl flags : Z) (rep : RuntimeRep) (super : option TypeId)
| RegFamily (t : TypeId) (name : string) (lvl : Z) (names : list string) (rep : RuntimeRep)
| MarkLinear (t : TypeId).

Definition register (e : TypeEnvironment) (r : registration) : TypeEnvironment :=
  match r with
  | RegBuiltin t name lvl flags rep super => snd (registerBuiltinType (tid t) name lvl flags rep super e)
  | RegFamily t name lvl names rep => snd (registerTypeFamily (tid t) name lvl names rep e)
  | MarkLinear t => mark_linear (tid t) e
  end.

Section Init.
  Import BuiltinTypes.
  Local Open Scope string_scope.

(** The calls of [initializeBuiltinTypes], in order. *)
Definition builtin_registrations : list registration := [
  RegBuiltin TypeU0 "Type0" U1 0 RErased None;
  RegBuiltin TypeU1 "Type1" U2 0 RErased None;
  RegBuiltin TypeU2 "Type2" UOmega 0 RErased None;
  RegBuiltin Value "Value" U0 0 RTaggedValue None;
  RegBuiltin Number "Number" U0 0 RTaggedValue (Some Value);
  RegBuiltin Integer "Integer" U0 TYPE_FLAG_EXACT RInt64 (Some Number);
  RegBuiltin Int8 "Int8" U0 TYPE_FLAG_EXACT RInt8 (Some Integer);
  RegBuiltin Int16 "Int16" U0 TYPE_FLAG_EXACT RInt16 (Some Integer);
  RegBuiltin Int32 "Int32" U0 TYPE_FLAG_EXACT RInt32 (Some Integer);
  RegBuiltin Int64 "Int64" U0 TYPE_FLAG_EXACT RInt64 (Some Integer);
  RegBuiltin ISize "ISize" U0 TYPE_FLAG_EXACT RInt64 (Some Integer);
  RegBuiltin Natural "Natural" U0 TYPE_FLAG_EXACT RUInt64 (Some Integer);
  RegBuiltin UInt8 "UInt8" U0 TYPE_FLAG_EXACT RUInt8 (Some Integer);
  RegBuiltin UInt16 "UInt16" U0 TYPE_FLAG_EXACT RUInt16 (Some Integer);
  RegBuiltin UInt32 "UInt32" U0 TYPE_FLAG_EXACT RUInt32 (Some Integer);
  RegBuiltin UInt64 "UInt64" U0 TYPE_FLAG_EXACT RUInt64 (Some Integer);
  RegBuiltin USize "USize" U0 TYPE_FLAG_EXACT RUInt64 (Some Integer);
  RegBuiltin BigInt "BigInt" U0 TYPE_FLAG_EXACT RPointer (Some Integer);
  RegBuiltin Real "Real" U0 0 RFloat64 (Some Number);
  RegBuiltin Float64 "Float64" U0 0 RFloat64 (Some Real);
  RegBuiltin Float32 "Float32" U0 0 RFloat64 (Some Real);
  RegBuiltin Complex "Complex" U0 0 RStruct (Some Number);
  RegBuiltin Complex64 "Complex64" U0 0 RStruct (Some Complex);
  RegBuiltin Complex128 "Complex128" U0 0 RStruct (Some Complex);
  RegBuiltin Text "Text" U0 0 RPointer (Some Value);
  RegBuiltin BuiltinTypes.String "String" U0 0 RPointer (Some Text);
  RegBuiltin Char "Char" U0 TYPE_FLAG_EXACT RInt64 (Some Text);
  RegBuiltin Boolean "Boolean" U0 TYPE_FLAG_EXACT RInt64 (Some Value);
  RegBuiltin Null "Null" U0 0 RInt64 (Some Value);
  RegBuiltin Symbol "Symbol" U0 0 RPointer (Some Value);
  RegFamily List "List" U1 ["a"] RPointer;
  RegFamily Vector "Vector" U1 ["a"] RPointer;
  RegFamily Pair "Pair" U1 ["a"; "b"] RPointer;
  RegFamily Function_ "->" U1 ["a"; "b"] RPointer;
  RegFamily Tensor "Tensor" U1 ["a"; "shape"] RPointer;
  RegFamily Pointer "Ptr" U1 ["a"] RPointer;
  RegFamily Closure "Closure" U1 ["a"; "b"] RPointer;
  RegFamily DualNumber "Dual" U1 ["a"] RStruct;
  RegFamily ADNode "ADNode" U1 ["a"] RPointer;
  RegFamily HashTable "HashTable" U1 ["k"; "v"] RPointer;
  RegFamily Handle "Handle" U1 ["k"] RPointer;
  MarkLinear Handle;
  RegFamily Buffer "Buffer" U1 ["a"; "n"] RPointer;
  RegFamily Stream "Stream" U1 ["a"] RPointer;
  MarkLinear Stream;
  RegBuiltin Eq "Eq" U2 TYPE_FLAG_PROOF RErased None;
  RegBuiltin LessThan "<" U2 TYPE_FLAG_PROOF RErased None;
  RegBuiltin Bounded "Bounded" U2 TYPE_FLAG_PROOF RErased None;
  RegBuiltin Subtype "<:" U2 TYPE_FLAG_PROOF RErased None ].

Definition builtin_aliases : list (string * TypeId) := [
  ("int", Int64); ("i8", Int8); ("int8", Int8); ("i16", Int16); ("int16", Int16); ("i32", Int32); ("int32", Int32);
  ("i64", Int64); ("int64", Int64); ("integer", Int64); ("isize", ISize); ("u8", UInt8); ("uint8", UInt8);
  ("u16", UInt16); ("uint16", UInt16); ("u32", UInt32); ("uint32", UInt32); ("u64", UInt64); ("uint64", UInt64);
  ("usize", USize); ("float", Float64); ("float64", Float64); ("double", Float64); ("float32", Float32);
  ("string", BuiltinTypes.String); ("str", BuiltinTypes.String); ("bool", Boolean); ("boolean", Boolean);
  ("char", Char); ("number", Number); ("natural", Natural); ("nat", Natural); ("real", Real); ("list", List);
  ("vector", Vector); ("tensor", Tensor); ("ptr", Pointer); ("pointer", Pointer); ("null", Null); ("nil", Null);
  ("symbol", Symbol); ("dual", DualNumber); ("dual-number", DualNumber); ("ad-node", ADNode); ("adnode", ADNode) ].

End Init.

Definition empty_env : TypeEnvironment := mkEnv [] [] 1000 [] [] [] [] 500 [] 300.

Definition initializeBuiltinTypes (e : TypeEnvironment) : TypeEnvironment :=
  let e1 := fold_left register builtin_registrations e in
  with_types e1 (types_ e1) (fold_left (fun m a => insert (fst a) (snd a) m) builtin_aliases (name_to_id_ e1)).

(** The constructor. *)
Definition new_env : TypeEnvironment := initializeBuiltinTypes empty_env.

(** ** Lookup *)

(** ASCII [tolower]. *)
Definition tolower (c : ascii) : ascii :=
  let n := N_of_ascii c in
  if (65 <=? n)%N && (n <=? 90)%N then ascii_of_N (n + 32) else c.

Fixpoint lowercase (s : string) : string :=
  match s with
  | EmptyString => EmptyString
  | String.String c s' => String.String (tolower c) (lowercase s')
  end.

Definition lookupType (name : string) (e : TypeEnvironment) : option TypeId :=
  match find name (name_to_id_ e) with
  | Some t => Some t
  | None => find (lowercase name) (name_to_id_ e)
  end.

Definition getTypeNode (t : TypeId) (e : TypeEnvironment) : option TypeNode := find (tid t) (types_ e).

Definition getPairElementTypes (t : TypeId) (e : TypeEnvironment) : option (TypeId * TypeId) :=
  find (tid t) (pair_element_cache_ e).

Definition isTrackedPairType (t : TypeId) (e : TypeEnvironment) : bool := mem (tid t) (pair_element_cache_ e).

(** [None]: the recursion does not end within the fuel. *)
Fixpoint getTypeName (fuel : nat) (t : TypeId) (e : TypeEnvironment) : option string :=
  match fuel with
  | O => None
  | S fuel' =>
    match getPairElementTypes t e with
    | Some (car, cdr) =>
      match getTypeName fuel' car e, getTypeName fuel' cdr e with
      | Some a, Some b => Some ("Pair<" ++ a ++ ", " ++ b ++ ">")%string
      | _, _ => None
      end
    | None => Some (match getTypeNode t e with Some n => node_name n | None => "unknown"%string end)
    end
  end.

(** ** Subtyping *)

(** Computations over the environment; [None] when a loop does not end within the
    fuel. *)
Definition E (A : Type) : Type := TypeEnvironment -> option (A * TypeEnvironment).

Definition e_ret {A} (a : A) : E A := fun e => Some (a, e).
Definition e_bind {A B} (m : E A) (k : A -> E B) : E B :=
  fun e => match m e with Some (a, e') => k a e' | None => None end.
(** A query that writes to no cache. *)
Definition e_query {A} (q : TypeEnvironment -> option A) : E A :=
  fun e => match q e with Some a => Some (a, e) | None => None end.

Declare Scope env_scope.
Notation "'let*' x ':=' m 'in' k" := (e_bind m (fun x => k)) (at level 200, x name, k at level 200) : env_scope.
Open Scope env_scope.

(** [||] and [&&] do not evaluate their second operand when the first decides. *)
Definition e_or (a b : E bool) : E bool := let* x := a in if x : bool then e_ret true else b.
Definition e_and (a b : E bool) : E bool := let* x := a in if x : bool then b else e_ret false.

(** The loop of [isSubtypeUncached] up the supertypes. *)
Fixpoint walk_supertypes (fuel : nat) (node : TypeNode) (super : TypeId) (e : TypeEnvironment) : option bool :=
  match fuel with
  | O => None
  | S fuel' =>
    match supertype node with
    | None => Some false
    | Some s =>
      if type_eqb s super then Some true
      else match getTypeNode s e with
           | None => Some false
           | Some n => walk_supertypes fuel' n super e
           end
    end
  end.

(** [rec] is [isSubtype]. *)
Definition isSubtypeUncached (rec : TypeId -> TypeId -> E bool) (fuel : nat) (sub super : TypeId) : E bool :=
  fun e =>
  if type_eqb sub super then Some (true, e)
  else if isTrackedPairType sub e then
    if type_eqb super BuiltinTypes.Pair then Some (true, e) else rec BuiltinTypes.Pair super e
  else match getTypeNode sub e with
       | None => Some (false, e)
       | Some node => e_query (walk_supertypes fuel node super) e
       end.

Fixpoint isSubtype (fuel : nat) (sub super : TypeId) : E bool :=
  fun e =>
  match find (tid sub, tid super) (subtype_cache_ e) with
  | Some r => Some (r, e)
  | None =>
    match fuel with
    | O => None
    | S fuel' =>
      match isSubtypeUncached (isSubtype fuel') fuel' sub super e with
      | None => None
      | Some (r, e') => Some (r, with_subtype_cache e' (insert (tid sub, tid super) r (subtype_cache_ e')))
      end
    end
  end.

(** The loop of [getSupertypeChain]. *)
Fixpoint chain_above (fuel : nat) (node : option TypeNode) (e : TypeEnvironment) : option (list TypeId) :=
  match fuel with
  | O => None
  | S fuel' =>
    match node with
    | None => Some []
    | Some n =>
      match supertype n with
      | None => Some []
      | Some s =>
        match chain_above fuel' (getTypeNode s e) e with
        | Some chain => Some (s :: chain)
        | None => None
        end
      end
    end
  end.

Fixpoint getSupertypeChain (fuel : nat) (t : TypeId) (e : TypeEnvironment) : option (list TypeId) :=
  match fuel with
  | O => None
  | S fuel' =>
    match (if isTrackedPairType t e then getSupertypeChain fuel' BuiltinTypes.Pair e
           else chain_above fuel' (getTypeNode t e) e) with
    | Some chain => Some (t :: chain)
    | None => None
    end
  end.

(** The first type of one chain that is in the other. *)
Definition first_common (chain_a chain_b : list TypeId) : option TypeId :=
  List.find (fun t => existsb (type_eqb t) chain_b) chain_a.

Definition leastCommonSupertype (fuel : nat) (a b : TypeId) (e : TypeEnvironment) : option (option TypeId) :=
  if type_eqb a b then Some (Some a)
  else match getSupertypeChain fuel a e, getSupertypeChain fuel b e with
       | Some chain_a, Some chain_b => Some (first_common chain_a chain_b)
       | _, _ => None
       end.

Definition areEquivalent (a b : TypeId) : bool := type_eqb a b.

(** [isSubtype(id, Number)] *)
Definition isNumericType (fuel : nat) (t : TypeId) : E bool := isSubtype fuel t BuiltinTypes.Number.

Definition isCollectionType (fuel : nat) (t : TypeId) : E bool :=
  e_or (isSubtype fuel t BuiltinTypes.List)
    (e_or (isSubtype fuel t BuiltinTypes.Vector) (isSubtype fuel t BuiltinTypes.Tensor)).

(** ** Arithmetic promotion *)

Definition is_complex (t : TypeId) : bool :=
  type_eqb t BuiltinTypes.Complex || type_eqb t BuiltinTypes.Complex64 || type_eqb t BuiltinTypes.Complex128.

Definition promoteForArithmetic (fuel : nat) (a b : TypeId) : E TypeId :=
  let sub x y := isSubtype fuel x y in
  let Integer := BuiltinTypes.Integer in let Real := BuiltinTypes.Real in
  let Number := BuiltinTypes.Number in let BigInt := BuiltinTypes.BigInt in
  if type_eqb a b then e_ret a
  else if type_eqb a BuiltinTypes.Value then e_ret b
  else if type_eqb b BuiltinTypes.Value then e_ret a
  else
    let* t := e_and (e_ret (type_eqb a Number)) (e_or (sub b Integer) (sub b Real)) in
    if t : bool then e_ret b else
    let* t := e_and (e_ret (type_eqb b Number)) (e_or (sub a Integer) (sub a Real)) in
    if t : bool then e_ret a else
    if is_complex a || is_complex b then e_ret BuiltinTypes.Complex else
    let* t := e_or (e_and (e_ret (type_eqb a BigInt)) (sub b Integer))
                   (e_and (e_ret (type_eqb b BigInt)) (sub a Integer)) in
    if t : bool then e_ret BigInt else
    let* t := e_or (e_and (e_ret (type_eqb a BigInt)) (sub b Real))
                   (e_and (e_ret (type_eqb b BigInt)) (sub a Real)) in
    if t : bool then e_ret BuiltinTypes.Float64 else
    let* t := e_or (e_and (sub a Integer) (sub b Real)) (e_and (sub a Real) (sub b Integer)) in
    if t : bool then e_ret BuiltinTypes.Float64 else
    let* t := e_and (sub a Integer) (sub b Integer) in
    if t : bool then e_ret BuiltinTypes.Int64 else
    let* t := e_and (sub a Real) (sub b Real) in
    if t : bool then e_ret BuiltinTypes.Float64 else
    let* lcs := e_query (leastCommonSupertype fuel a b) in
    e_ret (match lcs with Some t => t | None => Number end).

(** ** Runtime representation *)

Definition getRuntimeRep (t : TypeId) (e : TypeEnvironment) : RuntimeRep :=
  match getTypeNode t e with Some n => runtime_rep n | None => RTaggedValue end.

Definition isTypeFamily (t : TypeId) (e : TypeEnvironment) : bool :=
  match getTypeNode t e with Some n => is_type_family n | None => false end.

Definition ESHKOL_VALUE_DUAL_NUMBER : Z := 6.
Definition ESHKOL_VALUE_VECTOR_PTR : Z := 34.
Definition ESHKOL_VALUE_TENSOR_PTR : Z := 35.
Definition ESHKOL_VALUE_HASH_PTR : Z := 36.
Definition ESHKOL_VALUE_CLOSURE_PTR : Z := 38.
Definition ESHKOL_VALUE_AD_NODE_PTR : Z := 40.

(** The tags with a type of their own: the cases of the switch of [fromRuntimeType]. *)
Definition runtime_types : list (Z * TypeId) := [
  (ESHKOL_VALUE_NULL, BuiltinTypes.Null); (ESHKOL_VALUE_INT64, BuiltinTypes.Int64);
  (ESHKOL_VALUE_DOUBLE, BuiltinTypes.Float64); (ESHKOL_VALUE_CHAR, BuiltinTypes.Char);
  (ESHKOL_VALUE_BOOL, BuiltinTypes.Boolean); (ESHKOL_VALUE_SYMBOL, BuiltinTypes.Symbol);
  (ESHKOL_VALUE_DUAL_NUMBER, BuiltinTypes.DualNumber);
  (ESHKOL_VALUE_CONS_PTR, BuiltinTypes.List); (ESHKOL_VALUE_STRING_PTR, BuiltinTypes.String);
  (ESHKOL_VALUE_VECTOR_PTR, BuiltinTypes.Vector); (ESHKOL_VALUE_TENSOR_PTR, BuiltinTypes.Tensor);
  (ESHKOL_VALUE_HASH_PTR, BuiltinTypes.HashTable); (ESHKOL_VALUE_CLOSURE_PTR, BuiltinTypes.Closure);
  (ESHKOL_VALUE_AD_NODE_PTR, BuiltinTypes.ADNode) ].

Definition fromRuntimeType (runtime_type : Z) : TypeId :=
  let base_type := if runtime_type >=? 8 then runtime_type else Z.land runtime_type 15 in
  match List.find (fun p => fst p =? base_type) runtime_types with
  | Some (_, t) => t
  | None => BuiltinTypes.Value
  end.

Definition is_one_of (t : TypeId) (ts : list TypeId) : bool := existsb (type_eqb t) ts.

Definition toRuntimeType (t : TypeId) : Z :=
  if type_eqb t BuiltinTypes.Null then ESHKOL_VALUE_NULL
  else if is_one_of t [BuiltinTypes.Int8; BuiltinTypes.Int16; BuiltinTypes.Int32; BuiltinTypes.Int64;
                       BuiltinTypes.ISize; BuiltinTypes.Integer; BuiltinTypes.Natural; BuiltinTypes.UInt8;
                       BuiltinTypes.UInt16; BuiltinTypes.UInt32; BuiltinTypes.UInt64; BuiltinTypes.USize]
  then ESHKOL_VALUE_INT64
  else if is_one_of t [BuiltinTypes.Float64; BuiltinTypes.Real] then ESHKOL_VALUE_DOUBLE
  else if type_eqb t BuiltinTypes.List then ESHKOL_VALUE_CONS_PTR
  else if type_eqb t BuiltinTypes.String then ESHKOL_VALUE_STRING_PTR
  else if type_eqb t BuiltinTypes.Char then ESHKOL_VALUE_CHAR
  else if type_eqb t BuiltinTypes.Boolean then ESHKOL_VALUE_BOOL
  else if type_eqb t BuiltinTypes.Vector then ESHKOL_VALUE_VECTOR_PTR
  else if type_eqb t BuiltinTypes.Tensor then ESHKOL_VALUE_TENSOR_PTR
  else if type_eqb t BuiltinTypes.Symbol then ESHKOL_VALUE_SYMBOL
  else if is_one_of t [BuiltinTypes.Closure; BuiltinTypes.Function_] then ESHKOL_VALUE_CLOSURE_PTR
  else if type_eqb t BuiltinTypes.DualNumber then ESHKOL_VALUE_DUAL_NUMBER
  else if type_eqb t BuiltinTypes.ADNode then ESHKOL_VALUE_AD_NODE_PTR
  else if type_eqb t BuiltinTypes.HashTable then ESHKOL_VALUE_HASH_PTR
  else ESHKOL_VALUE_NULL.

(** ** Parameterized types *)

Definition cache_instance (p : ParameterizedType) (t : TypeId) (e : TypeEnvironment) : TypeEnvironment :=
  with_parameterized e (insert (ptype_key p) t (parameterized_cache_ e)).

Definition instantiateType (base : TypeId) (args : list TypeId) (e : TypeEnvironment)
  : ParameterizedType * TypeEnvironment :=
  let p := mkParameterized base args [] in (p, cache_instance p base e).

Definition makeListType (t : TypeId) := instantiateType BuiltinTypes.List [t].
Definition makeVectorType (t : TypeId) := instantiateType BuiltinTypes.Vector [t].
Definition makePointerType (t : TypeId) := instantiateType BuiltinTypes.Pointer [t].
Definition makeHashTableType (k v : TypeId) := instantiateType BuiltinTypes.HashTable [k; v].

Definition getElementType (p : ParameterizedType) : TypeId := elementType p.

(** The loop of [inferListElementType]; it returns from the middle when two types have
    no common supertype. *)
Fixpoint widen (fuel : nat) (common : TypeId) (ts : list TypeId) (e : TypeEnvironment) : option TypeId :=
  match ts with
  | [] => Some common
  | t :: ts' =>
    if type_eqb t common then widen fuel common ts' e
    else match leastCommonSupertype fuel common t e with
         | None => None
         | Some (Some lcs) => widen fuel lcs ts' e
         | Some None => Some BuiltinTypes.Value
         end
  end.

Definition inferListElementType (fuel : nat) (ts : list TypeId) (e : TypeEnvironment) : option TypeId :=
  match ts with
  | [] => Some BuiltinTypes.Value
  | t :: ts' => widen fuel t ts' e
  end.

Definition makeVectorTypeWithDim (t : TypeId) (dimension : Z) (e : TypeEnvironment)
  : ParameterizedType * TypeEnvironment :=
  let p := mkParameterized BuiltinTypes.Vector [t] [Some dimension] in (p, cache_instance p BuiltinTypes.Vector e).

Definition makeTensorTypeWithDims (t : TypeId) (dimensions : list Z) (e : TypeEnvironment)
  : ParameterizedType * TypeEnvironment :=
  let p := mkParameterized BuiltinTypes.Tensor [t] (map Some dimensions) in (p, cache_instance p BuiltinTypes.Tensor e).

Definition storeDimensionInfo (t : TypeId) (dims : list CTValueSimple) (e : TypeEnvironment) : TypeEnvironment :=
  with_dimensions e (insert (tid t) dims (dimension_cache_ e)).

Definition getDimensionInfo (t : TypeId) (e : TypeEnvironment) : option (list CTValueSimple) :=
  find (tid t) (dimension_cache_ e).

(** ** Function types *)

(** The inner loop over the parameters, whose numbers are equal. *)
Fixpoint same_params (ps : list PiParameter) (ts : list TypeId) : bool :=
  match ps, ts with
  | p :: ps', t :: ts' => type_eqb (param_type p) t && same_params ps' ts'
  | _, _ => true
  end.

Definition same_signature (pi : PiType) (ts : list TypeId) (ret : TypeId) (variadic : bool) : bool :=
  type_eqb (return_type pi) ret && Nat.eqb (length (params pi)) (length ts) && Bool.eqb (is_variadic pi) variadic &&
  same_params (params pi) ts.

Definition makeFunctionType (ts : list TypeId) (ret : TypeId) (variadic : bool) (e : TypeEnvironment)
  : TypeId * TypeEnvironment :=
  match List.find (fun entry => same_signature (snd entry) ts ret variadic) (function_type_cache_ e) with
  | Some (id, _) => (mkTypeId id U0 0, e)
  | None =>
    let pi := mkPi (map (fun t => mkParam EmptyString t false) ts) ret false variadic in
    let id := next_function_type_id_ e in
    (mkTypeId id U0 0, with_functions e (insert id pi (function_type_cache_ e)) (u16 (id + 1)))
  end.

Definition makeSimpleFunctionType (input output : TypeId) := makeFunctionType [input] output false.

Definition getFunctionType (t : TypeId) (e : TypeEnvironment) : option PiType := find (tid t) (function_type_cache_ e).

Definition isFunctionType (t : TypeId) (e : TypeEnvironment) : bool :=
  type_eqb t BuiltinTypes.Function_ || mem (tid t) (function_type_cache_ e).

Definition getFunctionReturnType (t : TypeId) (e : TypeEnvironment) : TypeId :=
  match getFunctionType t e with Some pi => return_type pi | None => BuiltinTypes.Value end.

Definition getFunctionParamTypes (t : TypeId) (e : TypeEnvironment) : list TypeId :=
  match getFunctionType t e with Some pi => map param_type (params pi) | None => [] end.

Fixpoint comma_names (fuel : nat) (ps : list PiParameter) (e : TypeEnvironment) : option string :=
  match ps with
  | [] => Some EmptyString
  | p :: ps' =>
    match getTypeName fuel (param_type p) e, comma_names fuel ps' e with
    | Some a, Some b => Some (match ps' with [] => a | _ => (a ++ ", " ++ b)%string end)
    | _, _ => None
    end
  end.

Definition getFunctionTypeName (fuel : nat) (t : TypeId) (e : TypeEnvironment) : option string :=
  match getFunctionType t e with
  | None => Some "Function"%string
  | Some pi =>
    match (match params pi with
           | [p] => getTypeName fuel (param_type p) e
           | ps => match comma_names fuel ps e with Some s => Some ("(" ++ s ++ ")")%string | None => None end
           end), getTypeName fuel (return_type pi) e with
    | Some a, Some b => Some (a ++ " -> " ++ b)%string
    | _, _ => None
    end
  end.

(** ** Pair types *)

Definition makePairType (car cdr : TypeId) (e : TypeEnvironment) : TypeId * TypeEnvironment :=
  match List.find (fun entry => type_eqb (fst (snd entry)) car && type_eqb (snd (snd entry)) cdr)
          (pair_element_cache_ e) with
  | Some (id, _) => (mkTypeId id U1 0, e)
  | None =>
    let id := next_pair_type_id_ e in
    (mkTypeId id U1 0, with_pairs e (insert id (car, cdr) (pair_element_cache_ e)) (u16 (id + 1)))
  end.
