(* ===== verification/TypeEnvSpec.v ===== *)
(** * The hierarchy a type environment stands for

    The supertype links make a forest.  [parent] is a link, [below] its reflexive and
    transitive closure, [env_ok] the invariant of environments (ranges of ids,
    descending links, sound cache, interned function and pair types), [reachable] the
    environments a program can build within the id ranges. *)

From Stdlib Require Import String ZArith List Bool Lia.
From S2P Require Import Prelude OrderedMap Tagged TypeEnv.
Import ListNotations.
Open Scope Z_scope.

(** ** Links *)

(** The supertype field of a registered type. *)
Definition sup (e : TypeEnvironment) (i : Z) : option (option TypeId) := option_map supertype (find i (types_ e)).

Definition registered (e : TypeEnvironment) (i : Z) : Prop := sup e i <> None.
Definition tracked (e : TypeEnvironment) (i : Z) : Prop := mem i (pair_element_cache_ e) = true.
Definition function_id (e : TypeEnvironment) (i : Z) : Prop := mem i (function_type_cache_ e) = true.

(** Ids the environment has handed out. *)
Definition known (e : TypeEnvironment) (i : Z) : Prop := registered e i \/ tracked e i \/ function_id e i.

Definition parent (e : TypeEnvironment) (i : Z) : option Z :=
  if mem i (pair_element_cache_ e) then Some (tid BuiltinTypes.Pair)
  else match sup e i with Some (Some s) => Some (tid s) | _ => None end.

Inductive below (e : TypeEnvironment) : Z -> Z -> Prop :=
| below_refl i : below e i i
| below_up i j k : parent e i = Some j -> below e j k -> below e i k.

Lemma below_trans e i j k : below e i j -> below e j k -> below e i k.
Proof. induction 1; [auto|]. intros. eapply below_up; eauto. Qed.

Lemma below_inv e i k : below e i k -> i = k \/ exists j, parent e i = Some j /\ below e j k.
Proof. intros H. destruct H; eauto. Qed.

(** Two types above the same type are comparable. *)
Lemma below_linear e i j k : below e i j -> below e i k -> below e j k \/ below e k j.
Proof.
  intros H. revert k. induction H as [i|i j l P H IH]; intros k Hk; [auto|].
  apply below_inv in Hk. destruct Hk as [<-|(j' & P' & Hk)].
  - right. eapply below_up; eauto.
  - rewrite P in P'. injection P' as <-. auto.
Qed.

(** ** The invariant *)

Definition pair_elems (e : TypeEnvironment) (i : Z) := find i (pair_element_cache_ e).
Definition function_sig (e : TypeEnvironment) (i : Z) := find i (function_type_cache_ e).

(** What identifies a function type. *)
Definition signature (pi : PiType) : list Z * Z * bool :=
  (map (fun p => tid (param_type p)) (params pi), tid (return_type pi), is_variadic pi).

(** An element of the pair type [i]: a known type, and an earlier pair if it is one. *)
Definition elem_ok (e : TypeEnvironment) (i : Z) (t : TypeId) : Prop := known e (tid t) /\ (tracked e (tid t) -> tid t < i).

Record graph_ok (e : TypeEnvironment) : Prop := {
  ok_user : 1000 <= next_user_id_ e <= 65535;
  ok_pair_next : 300 <= next_pair_type_id_ e <= 500;
  ok_function_next : 500 <= next_function_type_id_ e <= 1000;
  ok_types : forall i, registered e i -> 0 <= i < 300 \/ 1000 <= i < next_user_id_ e;
  ok_pairs : forall i, tracked e i <-> 300 <= i < next_pair_type_id_ e;
  ok_functions : forall i, function_id e i <-> 500 <= i < next_function_type_id_ e;
  ok_links : forall i s, sup e i = Some (Some s) -> registered e (tid s) /\ tid s < i;
  ok_pair : sup e (tid BuiltinTypes.Pair) = Some None;
  ok_pairs_ordered : ordered (pair_element_cache_ e);
  ok_functions_ordered : ordered (function_type_cache_ e);
  ok_pairs_unique : forall i j a b a' b', pair_elems e i = Some (a, b) -> pair_elems e j = Some (a', b') ->
    tid a = tid a' -> tid b = tid b' -> i = j;
  ok_functions_unique : forall i j p q, function_sig e i = Some p -> function_sig e j = Some q ->
    signature p = signature q -> i = j;
  ok_elems : forall i a b, pair_elems e i = Some (a, b) -> elem_ok e i a /\ elem_ok e i b
}.

Definition cache_ok (e : TypeEnvironment) : Prop :=
  forall i j r, find (i, j) (subtype_cache_ e) = Some r -> known e i /\ (r = true <-> below e i j).

Record env_ok (e : TypeEnvironment) : Prop := {
  ok_graph : graph_ok e;
  ok_cache : cache_ok e
}.

Lemma known_range e i : graph_ok e -> known e i -> 0 <= i < 65536.
Proof.
  intros G [H|[H|H]].
  - pose proof (ok_types e G i H). pose proof (ok_user e G). lia.
  - apply (ok_pairs e G) in H. pose proof (ok_pair_next e G). lia.
  - apply (ok_functions e G) in H. pose proof (ok_function_next e G). lia.
Qed.

(** The three kinds of ids are disjoint. *)
Lemma registered_untracked e i : graph_ok e -> registered e i -> mem i (pair_element_cache_ e) = false.
Proof.
  intros G H. destruct (mem i _) eqn:M; [|reflexivity]. apply (ok_pairs e G) in M.
  pose proof (ok_types e G i H). pose proof (ok_pair_next e G). lia.
Qed.

Lemma registered_no_function e i : graph_ok e -> registered e i -> mem i (function_type_cache_ e) = false.
Proof.
  intros G H. destruct (mem i (function_type_cache_ e)) eqn:M; [|reflexivity]. apply (ok_functions e G) in M.
  pose proof (ok_types e G i H). pose proof (ok_function_next e G). lia.
Qed.

Lemma tracked_no_function e i : graph_ok e -> tracked e i -> mem i (function_type_cache_ e) = false.
Proof.
  intros G H. destruct (mem i (function_type_cache_ e)) eqn:M; [|reflexivity]. apply (ok_functions e G) in M.
  apply (ok_pairs e G) in H. pose proof (ok_pair_next e G). lia.
Qed.

Lemma unregistered_sup e i : ~ registered e i -> sup e i = None.
Proof. unfold registered. destruct (sup e i); [|reflexivity]. intros N. exfalso. apply N. discriminate. Qed.

Lemma pair_registered e : graph_ok e -> registered e (tid BuiltinTypes.Pair).
Proof. intros G. unfold registered. rewrite (ok_pair e G). discriminate. Qed.

(** Links lead to registered types with smaller ids. *)
Lemma parent_down e i j : graph_ok e -> parent e i = Some j -> registered e j /\ j < i.
Proof.
  intros G. unfold parent. destruct (mem i _) eqn:M.
  - intros [= <-]. split; [apply (pair_registered e G)|]. apply (ok_pairs e G) in M. cbn. lia.
  - destruct (sup e i) as [[s|]|] eqn:S; try discriminate. intros [= <-]. exact (ok_links e G i s S).
Qed.

Lemma below_down e i j : graph_ok e -> below e i j -> j <= i.
Proof. intros G. induction 1 as [|i j k P H IH]; [lia|]. pose proof (parent_down e i j G P). lia. Qed.

Lemma below_antisym e i j : graph_ok e -> below e i j -> below e j i -> i = j.
Proof. intros G H1 H2. apply (below_down e) in H1, H2; auto. lia. Qed.

Lemma below_known e i j : graph_ok e -> known e i -> below e i j -> known e j.
Proof.
  intros G H B. revert H. induction B as [|i j k P B IH]; intros H; [exact H|].
  apply IH. left. exact (proj1 (parent_down e i j G P)).
Qed.

(** ** Growth: the links of known types stay *)

Record grows (e e' : TypeEnvironment) : Prop := {
  grow_known : forall i, known e i -> known e' i;
  grow_parent : forall i, known e i -> parent e' i = parent e i;
  grow_pairs : forall i p, pair_elems e i = Some p -> pair_elems e' i = Some p;
  grow_functions : forall i p, function_sig e i = Some p -> function_sig e' i = Some p
}.

Lemma grows_refl e : grows e e.
Proof. constructor; auto. Qed.

Lemma grows_trans e1 e2 e3 : grows e1 e2 -> grows e2 e3 -> grows e1 e3.
Proof.
  intros [K1 P1 A1 F1] [K2 P2 A2 F2]. constructor; auto.
  intros i H. rewrite (P2 i (K1 i H)). apply P1, H.
Qed.

Lemma grows_below e e' i j : graph_ok e -> grows e e' -> known e i -> (below e i j <-> below e' i j).
Proof.
  intros G Gr. split; intros B.
  - revert H. induction B as [i|i j k P B IH]; intros H; [constructor|].
    eapply below_up; [rewrite (grow_parent e e' Gr i H); exact P|].
    apply IH. left. exact (proj1 (parent_down e i j G P)).
  - revert H. induction B as [i|i j k P B IH]; intros H; [constructor|].
    rewrite (grow_parent e e' Gr i H) in P. eapply below_up; [exact P|].
    apply IH. left. exact (proj1 (parent_down e i j G P)).
Qed.

Lemma cache_grows e e' : graph_ok e -> cache_ok e -> grows e e' -> subtype_cache_ e' = subtype_cache_ e -> cache_ok e'.
Proof.
  intros G C Gr E i j r H. rewrite E in H. destruct (C i j r H) as [Hi Hr].
  split; [apply (grow_known e e' Gr i Hi)|]. rewrite <- (grows_below e e' i j G Gr Hi). exact Hr.
Qed.

(** Writing to the caches that hold no links. *)
Record same_graph (e e' : TypeEnvironment) : Prop := {
  same_types : types_ e' = types_ e;
  same_user : next_user_id_ e' = next_user_id_ e;
  same_functions : function_type_cache_ e' = function_type_cache_ e;
  same_function_next : next_function_type_id_ e' = next_function_type_id_ e;
  same_pairs : pair_element_cache_ e' = pair_element_cache_ e;
  same_pair_next : next_pair_type_id_ e' = next_pair_type_id_ e
}.

Lemma same_graph_refl e : same_graph e e.
Proof. constructor; reflexivity. Qed.

Lemma same_graph_trans e1 e2 e3 : same_graph e1 e2 -> same_graph e2 e3 -> same_graph e1 e3.
Proof. intros [A B C D E F] [A' B' C' D' E' F']. constructor; congruence. Qed.

Lemma same_graph_below e e' i j : same_graph e e' -> below e i j -> below e' i j.
Proof.
  intros [A B C D E F]. induction 1 as [i|i j k P H IH]; [constructor|].
  eapply below_up; [|exact IH]. unfold parent, sup in *. rewrite A, E. exact P.
Qed.

Lemma same_graph_sym e e' : same_graph e e' -> same_graph e' e.
Proof. intros [A B C D E F]. constructor; congruence. Qed.

Lemma same_graph_below_iff e e' i j : same_graph e e' -> (below e i j <-> below e' i j).
Proof. intros S. split; apply same_graph_below; [exact S|apply same_graph_sym, S]. Qed.

Lemma same_graph_grows e e' : same_graph e e' -> grows e e'.
Proof.
  intros [A B C D E F].
  constructor; unfold known, registered, tracked, function_id, parent, sup, pair_elems, function_sig; rewrite ?A, ?C, ?E; auto.
Qed.

Lemma same_graph_ok e e' : same_graph e e' -> graph_ok e -> graph_ok e'.
Proof.
  intros [A B C D E F] [].
  constructor; unfold elem_ok, known, registered, tracked, function_id, sup, pair_elems, function_sig in *;
    rewrite ?A, ?B, ?C, ?D, ?E, ?F; assumption.
Qed.

#[export] Hint Resolve same_graph_refl grows_refl below_refl same_graph_grows : types.

(** ** The subtype check decides [below] *)

(** Enough for any chain: ids are below [2^16] and links descend. *)
Definition type_fuel : nat := Z.to_nat 65540.

Lemma type_fuel_Z fuel : (type_fuel <= fuel)%nat -> 65540 <= Z.of_nat fuel.
Proof. unfold type_fuel. lia. Qed.

Lemma type_eqb_eq a b : type_eqb a b = true <-> tid a = tid b.
Proof. apply Z.eqb_eq. Qed.

Lemma type_eqb_ne a b : type_eqb a b = false <-> tid a <> tid b.
Proof. apply Z.eqb_neq. Qed.

Lemma sup_node e i n : find i (types_ e) = Some n -> sup e i = Some (supertype n).
Proof. intros F. unfold sup. rewrite F. reflexivity. Qed.

Lemma node_of_sup e i s : sup e i = Some s -> exists n, find i (types_ e) = Some n /\ supertype n = s.
Proof. unfold sup. destruct (find i _) as [n|]; [|discriminate]. intros [= <-]. eauto. Qed.

Lemma parent_registered e i n : graph_ok e -> find i (types_ e) = Some n -> parent e i = option_map tid (supertype n).
Proof.
  intros G F. pose proof (sup_node e i n F) as S. unfold parent.
  rewrite (registered_untracked e i G) by (unfold registered; rewrite S; discriminate).
  rewrite S. destruct (supertype n); reflexivity.
Qed.

Lemma registered_node e i : registered e i -> exists n, find i (types_ e) = Some n.
Proof. unfold registered, sup. destruct (find i _) as [n|]; [eauto|]. intros H. exfalso. apply H. reflexivity. Qed.

(** What is above a type is itself or above its parent. *)
Lemma below_step e i j k : parent e i = Some j -> (below e i k <-> i = k \/ below e j k).
Proof.
  intros P. split.
  - intros B. apply below_inv in B. destruct B as [?|(l & Pl & B)]; [auto|]. right. congruence.
  - intros [->|B]; [constructor|]. eapply below_up; eassumption.
Qed.

Lemma below_root e i k : parent e i = None -> (below e i k <-> i = k).
Proof.
  intros P. split; [|intros ->; constructor]. intros B. apply below_inv in B.
  destruct B as [?|(l & Pl & B)]; [assumption|congruence].
Qed.

Lemma walk_supertypes_spec e super : graph_ok e -> forall fuel i node,
  find i (types_ e) = Some node -> i < Z.of_nat fuel -> 0 <= i ->
  exists r, walk_supertypes fuel node super e = Some r /\
    (r = true <-> exists j, parent e i = Some j /\ below e j (tid super)).
Proof.
  intros G. induction fuel as [|fuel IH]; intros i node F Hf Hi; [lia|]. cbn [walk_supertypes].
  pose proof (parent_registered e i node G F) as P.
  destruct (supertype node) as [s|] eqn:S; cbn in P; rewrite P.
  - pose proof (sup_node e i node F) as Hs. rewrite S in Hs.
    destruct (ok_links e G i s Hs) as [Rs Ds]. pose proof (ok_types e G _ Rs) as Rg.
    destruct (type_eqb s super) eqn:E.
    + apply type_eqb_eq in E. exists true. split; [reflexivity|]. split; [intros _|reflexivity].
      exists (tid s). rewrite E. split; [reflexivity|constructor].
    + apply type_eqb_ne in E. destruct (registered_node e _ Rs) as [n Fn]. unfold getTypeNode. rewrite Fn.
      destruct (IH (tid s) n Fn ltac:(lia) ltac:(lia)) as (r & W & Hr). exists r. split; [exact W|]. rewrite Hr. split.
      * intros (j & Pj & B). exists (tid s). split; [reflexivity|]. eapply below_up; eassumption.
      * intros (j & [= <-] & B). apply below_inv in B. destruct B as [?|B]; [contradiction|exact B].
  - exists false. split; [reflexivity|]. split; [discriminate|]. intros (j & Hj & _). discriminate.
Qed.

Lemma cache_insert e i j r : env_ok e -> known e i -> (r = true <-> below e i j) ->
  env_ok (with_subtype_cache e (insert (i, j) r (subtype_cache_ e))) /\
  same_graph e (with_subtype_cache e (insert (i, j) r (subtype_cache_ e))).
Proof.
  intros [G C] K Hr. set (e' := with_subtype_cache _ _). assert (S : same_graph e e') by (constructor; reflexivity).
  split; [|exact S]. split; [exact (same_graph_ok _ _ S G)|]. intros i' j' r' F.
  rewrite <- (same_graph_below_iff e e' i' j' S). unfold e' in F. cbn in F.
  assert (D : (i', j') = (i, j) \/ (i', j') <> (i, j)) by (destruct (Z.eq_dec i' i), (Z.eq_dec j' j); subst; auto; right; congruence).
  destruct D as [D|D].
  - injection D as -> ->. rewrite find_insert_eq in F. injection F as <-. split; [exact K|exact Hr].
  - rewrite find_insert_ne in F by exact D. exact (C i' j' r' F).
Qed.

(** A check returns, decides [below], and changes nothing but the cache. *)
Definition decides (m : E bool) (P : Prop) (e : TypeEnvironment) : Prop :=
  exists r e', m e = Some (r, e') /\ (r = true <-> P) /\ env_ok e' /\ same_graph e e'.

Lemma cached_decides e i j r : env_ok e -> find (i, j) (subtype_cache_ e) = Some r -> (r = true <-> below e i j).
Proof. intros [_ C] F. exact (proj2 (C i j r F)). Qed.

Lemma uncached_registered rec e fuel sub super : env_ok e -> registered e (tid sub) -> tid sub < Z.of_nat fuel ->
  exists r, isSubtypeUncached rec fuel sub super e = Some (r, e) /\ (r = true <-> below e (tid sub) (tid super)).
Proof.
  intros [G C] R Hf. unfold isSubtypeUncached. destruct (type_eqb sub super) eqn:E.
  - apply type_eqb_eq in E. exists true. rewrite E. split; [reflexivity|]. split; [constructor|reflexivity].
  - apply type_eqb_ne in E. unfold isTrackedPairType. rewrite (registered_untracked e _ G R).
    destruct (registered_node e _ R) as [n F]. unfold getTypeNode. rewrite F. unfold e_query.
    pose proof (ok_types e G _ R) as Rg.
    destruct (walk_supertypes_spec e super G fuel (tid sub) n F Hf ltac:(lia)) as (r & -> & Hr).
    exists r. split; [reflexivity|]. rewrite Hr. split.
    + intros (j & P & B). eapply below_up; eassumption.
    + intros B. apply below_inv in B. destruct B as [?|B]; [contradiction|exact B].
Qed.

Lemma isSubtype_registered e fuel sub super : env_ok e -> registered e (tid sub) -> tid sub + 1 < Z.of_nat fuel ->
  decides (isSubtype fuel sub super) (below e (tid sub) (tid super)) e.
Proof.
  intros W R Hf. destruct fuel as [|fuel]; [pose proof (ok_types e (ok_graph e W) _ R); lia|]. unfold decides. cbn [isSubtype].
  destruct (find _ (subtype_cache_ e)) as [r|] eqn:F.
  - exists r, e. split; [reflexivity|]. split; [exact (cached_decides e _ _ r W F)|]. auto with types.
  - destruct (uncached_registered (isSubtype fuel) e fuel sub super W R ltac:(lia)) as (r & -> & Hr).
    destruct (cache_insert e (tid sub) (tid super) r W (or_introl R) Hr) as [W' S'].
    exists r, (with_subtype_cache e (insert (tid sub, tid super) r (subtype_cache_ e))). auto.
Qed.

Lemma isSubtype_spec e fuel sub super : env_ok e -> known e (tid sub) -> (type_fuel <= fuel)%nat ->
  decides (isSubtype fuel sub super) (below e (tid sub) (tid super)) e.
Proof.
  intros W K Hf. apply type_fuel_Z in Hf. pose proof (known_range e _ (ok_graph e W) K) as Rg.
  destruct K as [R|K]; [apply isSubtype_registered; auto; lia|].
  destruct fuel as [|fuel]; [lia|]. unfold decides. cbn [isSubtype].
  destruct (find _ (subtype_cache_ e)) as [r|] eqn:F.
  { exists r, e. split; [reflexivity|]. split; [exact (cached_decides e _ _ r W F)|]. auto with types. }
  pose proof (ok_graph e W) as G.
  assert (U : decides (isSubtypeUncached (isSubtype fuel) fuel sub super) (below e (tid sub) (tid super)) e).
  { unfold decides, isSubtypeUncached. destruct (type_eqb sub super) eqn:Es.
    { apply type_eqb_eq in Es. exists true, e. rewrite Es. intuition (auto with types). }
    apply type_eqb_ne in Es. unfold isTrackedPairType. destruct (mem (tid sub) (pair_element_cache_ e)) eqn:M.
    - assert (P : parent e (tid sub) = Some (tid BuiltinTypes.Pair)) by (unfold parent; rewrite M; reflexivity).
      destruct (type_eqb super BuiltinTypes.Pair) eqn:Ep.
      + apply type_eqb_eq in Ep. exists true, e. split; [reflexivity|]. rewrite Ep.
        split; [split; [intros _; eapply below_up; [exact P|constructor]|reflexivity]|]. auto with types.
      + destruct (isSubtype_registered e fuel BuiltinTypes.Pair super W (pair_registered e G) ltac:(cbn; lia))
          as (r & e' & E & Hr & W' & S'). exists r, e'. rewrite E. split; [reflexivity|]. split; [|auto].
        rewrite Hr, (below_step e (tid sub) _ _ P). intuition.
    - destruct K as [K|K]; [unfold tracked in K; congruence|].
      assert (N : find (tid sub) (types_ e) = None).
      { destruct (find (tid sub) (types_ e)) as [n|] eqn:Fn; [|reflexivity]. exfalso.
        assert (R : registered e (tid sub)) by (unfold registered; rewrite (sup_node e _ n Fn); discriminate).
        unfold function_id in K. rewrite (registered_no_function e _ G R) in K. discriminate. }
      unfold getTypeNode. rewrite N. exists false, e. split; [reflexivity|]. split; [|auto with types].
      assert (P : parent e (tid sub) = None) by (unfold parent, sup; rewrite M, N; reflexivity).
      rewrite (below_root e _ _ P). split; [discriminate|contradiction]. }
  destruct U as (r & e' & -> & Hr & W' & S').
  assert (Hr' : r = true <-> below e' (tid sub) (tid super)).
  { rewrite Hr. apply same_graph_below_iff, S'. }
  destruct (cache_insert e' (tid sub) (tid super) r W' (grow_known _ _ (same_graph_grows _ _ S') _ (or_intror K)) Hr') as [W2 S2].
  eexists r, _. split; [reflexivity|]. split; [exact Hr|]. split; [exact W2|]. exact (same_graph_trans _ _ _ S' S2).
Qed.

(** ** Chains and least common supertypes *)

(** The ids above [i], nearest first. *)
Fixpoint is_chain (e : TypeEnvironment) (i : Z) (l : list Z) : Prop :=
  match l with
  | [] => parent e i = None
  | j :: l' => parent e i = Some j /\ is_chain e j l'
  end.

Lemma chain_In e l : forall i j, is_chain e i l -> (In j (i :: l) <-> below e i j).
Proof.
  induction l as [|k l IH]; intros i j H.
  - rewrite (below_root e i j H). cbn. intuition.
  - destruct H as [P H]. rewrite (below_step e i k j P), <- (IH k j H). reflexivity.
Qed.

Lemma chain_above_spec e : graph_ok e -> forall fuel i, 0 <= i < Z.of_nat fuel -> ~ tracked e i ->
  exists chain, chain_above fuel (find i (types_ e)) e = Some chain /\ is_chain e i (map tid chain).
Proof.
  intros G. induction fuel as [|fuel IH]; intros i Hf T; [lia|]. cbn [chain_above].
  apply Bool.not_true_iff_false in T.
  destruct (find i (types_ e)) as [n|] eqn:F.
  - pose proof (parent_registered e i n G F) as P. destruct (supertype n) as [s|] eqn:S; cbn in P.
    + pose proof (sup_node e i n F) as Hs. rewrite S in Hs. destruct (ok_links e G i s Hs) as [Rs Ds].
      pose proof (ok_types e G _ Rs). unfold getTypeNode.
      destruct (IH (tid s) ltac:(lia)) as (chain & -> & Hc).
      { unfold tracked. rewrite (registered_untracked e _ G Rs). discriminate. }
      exists (s :: chain). split; [reflexivity|]. split; assumption.
    + exists []. split; [reflexivity|exact P].
  - exists []. split; [reflexivity|]. cbn. unfold parent, sup. rewrite T, F. reflexivity.
Qed.

Lemma supertype_chain_spec e fuel t : graph_ok e -> known e (tid t) -> (type_fuel <= fuel)%nat ->
  exists chain, getSupertypeChain fuel t e = Some (t :: chain) /\ is_chain e (tid t) (map tid chain).
Proof.
  intros G K Hf. apply type_fuel_Z in Hf. pose proof (known_range e _ G K) as Rg.
  destruct fuel as [|[|fuel]]; [lia..|]. cbn [getSupertypeChain]. unfold isTrackedPairType.
  destruct (mem (tid t) (pair_element_cache_ e)) eqn:M.
  - rewrite (registered_untracked e _ G (pair_registered e G)).
    destruct (chain_above_spec e G fuel (tid BuiltinTypes.Pair) ltac:(cbn; lia)) as (chain & E & Hc).
    { unfold tracked. rewrite (registered_untracked e _ G (pair_registered e G)). discriminate. }
    unfold getTypeNode. rewrite E. exists (BuiltinTypes.Pair :: chain). split; [reflexivity|]. split; [|exact Hc].
    unfold parent. rewrite M. reflexivity.
  - destruct (chain_above_spec e G (S fuel) (tid t) ltac:(lia)) as (chain & E & Hc).
    { unfold tracked. rewrite M. discriminate. }
    unfold getTypeNode. rewrite E. exists chain. split; [reflexivity|exact Hc].
Qed.

Lemma existsb_chain t chain : existsb (type_eqb t) chain = true <-> In (tid t) (map tid chain).
Proof.
  rewrite existsb_exists, in_map_iff. split; intros (x & H1 & H2); exists x; [|split; [|]].
  - split; [symmetry; apply type_eqb_eq, H2|exact H1].
  - exact H2.
  - apply type_eqb_eq. auto.
Qed.

(** The first hit on a chain is below all others. *)
Lemma first_hit e (p : TypeId -> bool) : forall chain t c d,
  is_chain e (tid t) (map tid chain) -> List.find p (t :: chain) = Some c ->
  In d (t :: chain) -> p d = true -> below e (tid c) (tid d).
Proof.
  induction chain as [|s chain IH]; intros t c d Hc F Hd Hp.
  - cbn in F, Hd. destruct Hd as [<-|[]]. rewrite Hp in F. injection F as <-. constructor.
  - cbn [List.find] in F. destruct (p t) eqn:Pt.
    + injection F as <-. apply (chain_In e _ _ (tid d) Hc). exact (in_map tid (t :: s :: chain) d Hd).
    + destruct Hd as [<-|Hd]; [congruence|]. destruct Hc as [_ Hc]. exact (IH s c d Hc F Hd Hp).
Qed.

Definition least_above (e : TypeEnvironment) (a b : Z) (r : option Z) : Prop :=
  match r with
  | Some c => below e a c /\ below e b c /\ forall d, below e a d -> below e b d -> below e c d
  | None => forall d, below e a d -> ~ below e b d
  end.

Lemma lcs_spec e fuel a b : graph_ok e -> known e (tid a) -> known e (tid b) -> (type_fuel <= fuel)%nat ->
  exists r, leastCommonSupertype fuel a b e = Some r /\ least_above e (tid a) (tid b) (option_map tid r).
Proof.
  intros G Ka Kb Hf. unfold leastCommonSupertype. destruct (type_eqb a b) eqn:E.
  - apply type_eqb_eq in E. exists (Some a). split; [reflexivity|]. cbn. rewrite <- E. auto with types.
  - destruct (supertype_chain_spec e fuel a G Ka Hf) as (ca & -> & Ha).
    destruct (supertype_chain_spec e fuel b G Kb Hf) as (cb & -> & Hb).
    eexists. split; [reflexivity|]. unfold first_common.
    set (p := fun t => existsb (type_eqb t) (b :: cb)).
    assert (Pb : forall t, p t = true <-> below e (tid b) (tid t)).
    { intros t. unfold p. rewrite existsb_chain. exact (chain_In e _ _ (tid t) Hb). }
    assert (Pa : forall d, below e (tid a) d -> exists t, In t (a :: ca) /\ tid t = d).
    { intros d Hd. apply (chain_In e _ _ d Ha) in Hd. change (In d (map tid (a :: ca))) in Hd.
      apply in_map_iff in Hd. destruct Hd as (t & Et & Ht). eauto. }
    destruct (List.find p (a :: ca)) as [c|] eqn:F; cbn [option_map least_above].
    + pose proof (List.find_some _ _ F) as [Ic Pc]. split; [|split].
      * apply (chain_In e _ _ (tid c) Ha). exact (in_map tid (a :: ca) c Ic).
      * apply Pb, Pc.
      * intros d Hd1 Hd2. destruct (Pa d Hd1) as (t & It & <-). apply (first_hit e p ca a c t Ha F It). apply Pb, Hd2.
    + intros d Hd1 Hd2. destruct (Pa d Hd1) as (t & It & <-).
      pose proof (List.find_none _ _ F t It) as N. rewrite (proj2 (Pb t) Hd2) in N. discriminate.
Qed.

(** Least supertypes are unique, so their order does not matter. *)
Lemma least_above_unique e a b r1 r2 : graph_ok e -> least_above e a b r1 -> least_above e b a r2 -> r1 = r2.
Proof.
  intros G. destruct r1 as [c|], r2 as [d|]; cbn.
  - intros (A1 & A2 & A3) (B1 & B2 & B3). f_equal. apply (below_antisym e c d G); auto.
  - intros (A1 & A2 & A3) B. exfalso. exact (B c A2 A1).
  - intros A (B1 & B2 & B3). exfalso. exact (A d B2 B1).
  - reflexivity.
Qed.

(** ** Promotion *)

(** [m] returns a result with property [Q] and changes nothing but the cache. *)
Definition runs {A} (m : E A) (Q : A -> Prop) (e : TypeEnvironment) : Prop :=
  exists a e', m e = Some (a, e') /\ Q a /\ env_ok e' /\ same_graph e e'.

Lemma runs_ret {A} (a : A) (Q : A -> Prop) e : env_ok e -> Q a -> runs (e_ret a) Q e.
Proof. intros W H. exists a, e. auto with types. Qed.

Lemma runs_bind {A B} (m : E A) (k : A -> E B) (Q : A -> Prop) (R : B -> Prop) e :
  runs m Q e -> (forall a e', Q a -> env_ok e' -> same_graph e e' -> runs (k a) R e') -> runs (e_bind m k) R e.
Proof.
  intros (a & e1 & E1 & Ha & W1 & S1) Hk. destruct (Hk a e1 Ha W1 S1) as (b & e2 & E2 & Hb & W2 & S2).
  exists b, e2. unfold e_bind. rewrite E1. eauto using same_graph_trans.
Qed.

(** In every environment with the links of [e], the check [m] answers [r]. *)
Definition answers (e : TypeEnvironment) (m : E bool) (r : bool) : Prop :=
  forall e', env_ok e' -> same_graph e e' -> runs m (fun x => x = r) e'.

Lemma answers_pure e r : answers e (e_ret r) r.
Proof. intros e' W S. apply runs_ret; auto. Qed.

Lemma answers_later e e' m r : same_graph e e' -> answers e m r -> answers e' m r.
Proof. intros S H e2 W S2. apply H; [exact W|]. eapply same_graph_trans; eassumption. Qed.

Lemma answers_or e a b x y : answers e a x -> answers e b y -> answers e (e_or a b) (x || y).
Proof.
  intros Ha Hb e' W S. eapply runs_bind; [apply Ha; assumption|]. intros r e2 -> W2 S2.
  destruct x; [apply runs_ret; auto|]. apply Hb; [exact W2|]. eapply same_graph_trans; eassumption.
Qed.

Lemma answers_and e a b x y : answers e a x -> answers e b y -> answers e (e_and a b) (x && y).
Proof.
  intros Ha Hb e' W S. eapply runs_bind; [apply Ha; assumption|]. intros r e2 -> W2 S2.
  destruct x; [|apply runs_ret; auto]. apply Hb; [exact W2|]. eapply same_graph_trans; eassumption.
Qed.

Lemma answers_subtype e fuel x y r : known e (tid x) -> (type_fuel <= fuel)%nat ->
  (r = true <-> below e (tid x) (tid y)) -> answers e (isSubtype fuel x y) r.
Proof.
  intros K Hf Hr e' W S. destruct (isSubtype_spec e' fuel x y W (grow_known _ _ (same_graph_grows _ _ S) _ K) Hf)
    as (r' & e2 & E & Hr' & W2 & S2).
  exists r', e2. split; [exact E|]. split; [|auto].
  rewrite <- (same_graph_below_iff e e' _ _ S), <- Hr in Hr'. destruct r, r'; intuition congruence.
Qed.

#[local] Hint Resolve answers_pure answers_or answers_and : types.

(** A test that answers [r], then one of two branches. *)
Lemma runs_test {A} e (m : E bool) r (k1 k2 : E A) (Q : A -> Prop) :
  env_ok e -> answers e m r ->
  (forall e', env_ok e' -> same_graph e e' -> runs (if r then k1 else k2) Q e') ->
  runs (e_bind m (fun t => if t : bool then k1 else k2)) Q e.
Proof.
  intros W Hm Hk. eapply runs_bind; [apply Hm; auto with types|]. intros t e' -> W' S'. apply Hk; assumption.
Qed.

Definition complex_id (i : Z) : bool := (i =? 18) || (i =? 19) || (i =? 23).

(** The promotion table: [ia], [ra] say whether [a] is an integer or a real type, and
    [lcs] is the least common supertype. *)
Definition promotion (ia ra ib rb : bool) (a b : Z) (lcs : option Z) : Z :=
  let Number := 11 in let Int64 := 13 in let Float64 := 16 in let Complex := 18 in let BigInt := 24 in
  if a =? b then a
  else if a =? 10 then b
  else if b =? 10 then a
  else if (a =? Number) && (ib || rb) then b
  else if (b =? Number) && (ia || ra) then a
  else if complex_id a || complex_id b then Complex
  else if ((a =? BigInt) && ib) || ((b =? BigInt) && ia) then BigInt
  else if ((a =? BigInt) && rb) || ((b =? BigInt) && ra) then Float64
  else if (ia && rb) || (ra && ib) then Float64
  else if ia && ib then Int64
  else if ra && rb then Float64
  else match lcs with Some c => c | None => Number end.

Lemma promote_spec e fuel a b ia ra ib rb lcs :
  env_ok e -> known e (tid a) -> known e (tid b) -> (type_fuel <= fuel)%nat ->
  (ia = true <-> below e (tid a) 12) -> (ra = true <-> below e (tid a) 15) ->
  (ib = true <-> below e (tid b) 12) -> (rb = true <-> below e (tid b) 15) ->
  least_above e (tid a) (tid b) lcs ->
  runs (promoteForArithmetic fuel a b) (fun t => tid t = promotion ia ra ib rb (tid a) (tid b) lcs) e.
Proof.
  intros W Ka Kb Hf Hia Hra Hib Hrb Hl. unfold promoteForArithmetic, promotion.
  change (complex_id (tid a)) with (is_complex a). change (complex_id (tid b)) with (is_complex b).
  change (tid a =? tid b) with (type_eqb a b).
  change (tid a =? 10) with (type_eqb a BuiltinTypes.Value). change (tid b =? 10) with (type_eqb b BuiltinTypes.Value).
  change (tid a =? 11) with (type_eqb a BuiltinTypes.Number). change (tid b =? 11) with (type_eqb b BuiltinTypes.Number).
  change (tid a =? 24) with (type_eqb a BuiltinTypes.BigInt). change (tid b =? 24) with (type_eqb b BuiltinTypes.BigInt).
  assert (Aia := answers_subtype e fuel a BuiltinTypes.Integer ia Ka Hf Hia).
  assert (Ara := answers_subtype e fuel a BuiltinTypes.Real ra Ka Hf Hra).
  assert (Aib := answers_subtype e fuel b BuiltinTypes.Integer ib Kb Hf Hib).
  assert (Arb := answers_subtype e fuel b BuiltinTypes.Real rb Kb Hf Hrb).
  destruct (type_eqb a b); [apply runs_ret; auto|].
  destruct (type_eqb a BuiltinTypes.Value); [apply runs_ret; auto|].
  destruct (type_eqb b BuiltinTypes.Value); [apply runs_ret; auto|].
  assert (HL : forall e', same_graph e e' -> env_ok e' ->
    runs (e_bind (e_query (leastCommonSupertype fuel a b)) (fun l => e_ret (match l with Some t => t | None => BuiltinTypes.Number end)))
      (fun t => tid t = match lcs with Some c => c | None => 11 end) e').
  { intros e' S W'. pose proof (same_graph_grows _ _ S) as Gr.
    destruct (lcs_spec e' fuel a b (ok_graph _ W') (grow_known _ _ Gr _ Ka) (grow_known _ _ Gr _ Kb) Hf) as (r & E & Hr).
    unfold runs, e_bind, e_query, e_ret. rewrite E. eexists _, e'. split; [reflexivity|]. split; [|auto with types].
    enough (option_map tid r = lcs) as <- by (destruct r; reflexivity).
    apply (least_above_unique e' (tid a) (tid b)); [apply W'| |].
    - exact Hr.
    - destruct lcs as [c|]; cbn in Hl |- *; setoid_rewrite <- (same_graph_below_iff e e' _ _ S); intuition eauto. }
  match goal with |- runs ?m ?Q e =>
    enough (HH : forall e0, same_graph e e0 -> env_ok e0 -> runs m Q e0) by auto with types
  end.
  intros e0 S0 W0.
  repeat match goal with
  | |- runs (e_bind _ _) _ _ =>
    eapply (runs_test _ _ _ _ _ _ W0); [apply (answers_later e); [exact S0|eauto with types]|];
    let e1 := fresh "e" in let W1 := fresh "W" in let S1 := fresh "S" in
    intros e1 W1 S1; apply (same_graph_trans _ _ _ S0) in S1; clear S0 W0; rename S1 into S0; rename W1 into W0;
    match goal with |- runs (if ?c then _ else _) _ _ => destruct c; [apply runs_ret; auto|] end
  | |- runs (if ?c then _ else _) _ _ => destruct c; [apply runs_ret; auto|]
  end.
  apply HL; assumption.
Qed.
