(* ===== verification/TypeEnvRuns.v ===== *)
(** * The environments a program builds

    Each way the compiler changes a type environment is a step; the invariant holds
    at the start and is kept by every step, and no step changes what is known about
    earlier types. *)

From Stdlib Require Import String ZArith List Bool Lia.
From S2P Require Import Prelude OrderedMap Tagged TypeEnv TypeEnvSpec.
Import ListNotations.
Open Scope Z_scope.

(** A registered supertype, the ids of [types_] and those of the caches stay in their
    ranges: 300-499 pairs, 500-999 functions, 1000-65534 user types. *)
Inductive step (e : TypeEnvironment) : TypeEnvironment -> Prop :=
| step_user name lvl flags super :
    (forall s, super = Some s -> registered e (tid s)) -> next_user_id_ e < 65535 ->
    step e (snd (registerUserType name lvl flags super e))
| step_pair a b : known e (tid a) -> known e (tid b) -> next_pair_type_id_ e < 500 ->
    step e (snd (makePairType a b e))
| step_function ts ret variadic : next_function_type_id_ e < 1000 ->
    step e (snd (makeFunctionType ts ret variadic e))
| step_subtype fuel sub super r e' : known e (tid sub) -> (type_fuel <= fuel)%nat ->
    isSubtype fuel sub super e = Some (r, e') -> step e e'
| step_promote fuel a b t e' : known e (tid a) -> known e (tid b) -> (type_fuel <= fuel)%nat ->
    promoteForArithmetic fuel a b e = Some (t, e') -> step e e'
| step_instance p t : step e (cache_instance p t e)
| step_dimensions t dims : step e (storeDimensionInfo t dims e).

Inductive steps (e : TypeEnvironment) : TypeEnvironment -> Prop :=
| steps_nil : steps e e
| steps_snoc e' e'' : steps e e' -> step e' e'' -> steps e e''.

Definition reachable (e : TypeEnvironment) : Prop := steps new_env e.

(** ** The start *)

Lemma forall_entries {K V} `{KeyLaws K} (f : K -> V -> bool) (m : omap K V) :
  forallb (fun p => f (fst p) (snd p)) m = true -> forall k v, find k m = Some v -> f k v = true.
Proof.
  intros Hf k v Hk. apply find_In in Hk. pose proof (proj1 (forallb_forall _ _) Hf _ Hk) as Hb. exact Hb.
Qed.

Definition builtin_link_ok (i : Z) (n : TypeNode) : bool :=
  match supertype n with
  | None => true
  | Some s => (tid s <? i) && mem (tid s) (types_ new_env)
  end.

Lemma new_env_graph : graph_ok new_env.
Proof.
  assert (Hr : forall i, registered new_env i -> 0 <= i < 300).
  { intros i R. apply registered_node in R. destruct R as [n F].
    pose proof (forall_entries (fun i _ => (0 <=? i) && (i <? 300)) (types_ new_env) ltac:(vm_compute; reflexivity) _ _ F) as B.
    cbn beta in B. lia. }
  assert (Hl : forall i s, sup new_env i = Some (Some s) -> registered new_env (tid s) /\ tid s < i).
  { intros i s S. apply node_of_sup in S. destruct S as (n & F & S).
    pose proof (forall_entries builtin_link_ok (types_ new_env) ltac:(vm_compute; reflexivity) _ _ F) as B.
    unfold builtin_link_ok in B. rewrite S in B. apply andb_true_iff in B. destruct B as [B M].
    apply mem_find in M. destruct M as [n' F']. split; [|lia].
    unfold registered. rewrite (sup_node _ _ _ F'). discriminate. }
  assert (HP : sup new_env (tid BuiltinTypes.Pair) = Some None) by (vm_compute; reflexivity).
  assert (Hnil : next_user_id_ new_env = 1000 /\ next_pair_type_id_ new_env = 300 /\ next_function_type_id_ new_env = 500 /\
    pair_element_cache_ new_env = [] /\ function_type_cache_ new_env = []) by (vm_compute; auto).
  revert Hr Hl HP Hnil. generalize new_env. intros e Hr Hl HP (Hu & Hpn & Hfn & Hp & Hf).
  constructor; unfold tracked, function_id, pair_elems, function_sig; rewrite ?Hu, ?Hp, ?Hf, ?Hpn, ?Hfn; cbn [mem find];
    try discriminate; try lia; auto using ordered_nil.
  all: intros i; split; [discriminate|lia].
Qed.

Lemma new_env_ok : env_ok new_env.
Proof.
  assert (E : subtype_cache_ new_env = []) by (vm_compute; reflexivity).
  split; [apply new_env_graph|]. intros i j r F. rewrite E in F. discriminate F.
Qed.

(** ** The steps *)

Lemma sup_addSubtype e s t i : sup (addSubtype e s t) i = sup e i.
Proof.
  unfold addSubtype. destruct (find (tid s) (types_ e)) as [n|] eqn:F; [|reflexivity]. unfold sup. cbn [with_types types_].
  destruct (Z.eq_dec i (tid s)) as [->|D]; [rewrite find_insert_eq, F; reflexivity|].
  rewrite find_insert_ne by exact D. reflexivity.
Qed.

Lemma sup_add_node e n i : sup (add_node e n) i = if i =? tid (node_id n) then Some (supertype n) else sup e i.
Proof.
  unfold sup, add_node. cbn [with_types types_]. destruct (Z.eqb_spec i (tid (node_id n))) as [->|D].
  - rewrite find_insert_eq. reflexivity.
  - rewrite find_insert_ne by exact D. reflexivity.
Qed.

(** A new user type: everything but its own entry is as before. *)
Lemma registerUserType_fields name lvl flags super e :
  let e' := snd (registerUserType name lvl flags super e) in
  (forall i, sup e' i = if i =? next_user_id_ e then Some super else sup e i) /\
  next_user_id_ e' = u16 (next_user_id_ e + 1) /\ subtype_cache_ e' = subtype_cache_ e /\
  function_type_cache_ e' = function_type_cache_ e /\ next_function_type_id_ e' = next_function_type_id_ e /\
  pair_element_cache_ e' = pair_element_cache_ e /\ next_pair_type_id_ e' = next_pair_type_id_ e.
Proof.
  unfold registerUserType, add_below. cbn zeta. cbn [snd].
  set (e1 := add_node _ _).
  assert (H : forall i, sup e1 i = if i =? next_user_id_ e then Some super else sup e i).
  { intros i. unfold e1. rewrite sup_add_node. reflexivity. }
  destruct super as [s|]; [|auto 10]. split; [intros i; rewrite sup_addSubtype; apply H|].
  unfold addSubtype. destruct (find _ _); cbn; auto 10.
Qed.

Lemma u16_small x : 0 <= x < 65536 -> u16 x = x.
Proof. intros H. unfold u16. apply Z.mod_small. exact H. Qed.

Lemma user_grows e e' : graph_ok e ->
  (forall i, sup e' i = sup e i \/ i = next_user_id_ e) ->
  function_type_cache_ e' = function_type_cache_ e -> pair_element_cache_ e' = pair_element_cache_ e -> grows e e'.
Proof.
  intros G Hs Hf Hp.
  assert (Hnew : ~ known e (next_user_id_ e)).
  { pose proof (ok_user e G). intros [K|[K|K]].
    - apply (ok_types e G) in K. lia.
    - apply (ok_pairs e G) in K. pose proof (ok_pair_next e G). lia.
    - apply (ok_functions e G) in K. pose proof (ok_function_next e G). lia. }
  constructor; unfold pair_elems, function_sig; rewrite ?Hf, ?Hp; auto.
  - intros i [K|[K|K]]; unfold known, tracked, function_id; rewrite Hf, Hp; [|auto..]. left. unfold registered.
    destruct (Hs i) as [->| ->]; [exact K|]. exfalso. apply Hnew. left. exact K.
  - intros i K. unfold parent. rewrite Hp. destruct (Hs i) as [->| ->]; [reflexivity|contradiction].
Qed.

Lemma step_user_ok name lvl flags super e : env_ok e ->
  (forall s, super = Some s -> registered e (tid s)) -> next_user_id_ e < 65535 ->
  let e' := snd (registerUserType name lvl flags super e) in env_ok e' /\ grows e e'.
Proof.
  intros [G C] Hsup Hroom. cbn zeta.
  destruct (registerUserType_fields name lvl flags super e) as (Hs & Hu & Hc & Hf & Hfn & Hp & Hpn). cbn zeta in *.
  set (e' := snd (registerUserType name lvl flags super e)) in *.
  pose proof (ok_user e G) as Ru. rewrite u16_small in Hu by lia.
  assert (Gr : grows e e').
  { apply (user_grows e e' G); [|assumption..]. intros i. rewrite Hs. destruct (Z.eqb_spec i (next_user_id_ e)); auto. }
  assert (Rg : forall i, registered e i -> registered e' i).
  { intros i R. unfold registered. rewrite Hs. destruct (i =? _); [discriminate|exact R]. }
  split; [|exact Gr]. split; [|apply (cache_grows e e' G C Gr Hc)].
  pose proof (ok_types e G) as Ht.
  constructor; unfold tracked, function_id, pair_elems, function_sig; rewrite ?Hu, ?Hf, ?Hfn, ?Hp, ?Hpn;
    try apply G; try lia.
  - intros i R. unfold registered in R. rewrite Hs in R. destruct (Z.eqb_spec i (next_user_id_ e)); [lia|].
    specialize (Ht i R). lia.
  - intros i s E. rewrite Hs in E. destruct (Z.eqb_spec i (next_user_id_ e)) as [->|D].
    + injection E as ->. pose proof (Hsup s eq_refl) as R. split; [apply Rg, R|].
      specialize (Ht _ R). lia.
    + destruct (ok_links e G i s E). auto.
  - rewrite Hs. destruct (Z.eqb_spec (tid BuiltinTypes.Pair) (next_user_id_ e)) as [E|D]; [|apply (ok_pair e G)].
    exfalso. cbn in E. lia.
  - intros i a b F. destruct (ok_elems e G i a b F) as [[K1 T1] [K2 T2]].
    split; split; try (apply (grow_known e e' Gr); assumption); unfold tracked; rewrite Hp; assumption.
Qed.

Lemma mem_insert {K V} `{KeyLaws K} (i j : K) (v : V) m : mem i (insert j v m) = true <-> i = j \/ mem i m = true.
Proof.
  unfold mem. destruct (kcmp i j) eqn:E.
  - apply kcmp_eq in E. subst. rewrite find_insert_eq. intuition.
  - rewrite find_insert_ne; [|intros ->; rewrite kcmp_refl in E; discriminate]. intuition. subst.
    rewrite kcmp_refl in E. discriminate.
  - rewrite find_insert_ne; [|intros ->; rewrite kcmp_refl in E; discriminate]. intuition. subst.
    rewrite kcmp_refl in E. discriminate.
Qed.

Lemma mem_insert_false {K V} `{KeyLaws K} (i j : K) (v : V) m : i <> j -> mem i (insert j v m) = mem i m.
Proof. intros D. unfold mem. rewrite find_insert_ne by exact D. reflexivity. Qed.

(** A search of a cache by contents. *)
Lemma entry_found {K V} `{KeyLaws K} (p : K * V -> bool) (m : omap K V) i v :
  ordered m -> List.find p m = Some (i, v) -> find i m = Some v /\ p (i, v) = true.
Proof. intros O F. apply List.find_some in F. destruct F. split; [apply In_find; assumption|assumption]. Qed.

Lemma entry_missing {K V} `{KeyLaws K} (p : K * V -> bool) (m : omap K V) i v :
  List.find p m = None -> find i m = Some v -> p (i, v) = false.
Proof. intros N F. exact (List.find_none _ _ N _ (find_In _ _ _ F)). Qed.

(** What a new pair id changes. *)
Lemma pair_step_ok e a b : env_ok e -> known e (tid a) -> known e (tid b) -> next_pair_type_id_ e < 500 ->
  (forall i a' b', pair_elems e i = Some (a', b') -> tid a' = tid a -> tid b' <> tid b) ->
  let i := next_pair_type_id_ e in
  let e' := with_pairs e (insert i (a, b) (pair_element_cache_ e)) (u16 (i + 1)) in
  env_ok e' /\ grows e e' /\ pair_elems e' i = Some (a, b).
Proof.
  intros [G C] Ka Kb Hroom Hnew i e'.
  pose proof (ok_pair_next e G) as Rn. fold i in Rn, Hroom.
  assert (Hn : next_pair_type_id_ e' = i + 1) by (unfold e'; cbn; apply u16_small; lia).
  assert (Hi : mem i (pair_element_cache_ e) = false).
  { destruct (mem i _) eqn:M; [|reflexivity]. apply (ok_pairs e G) in M. fold i in M. lia. }
  assert (Hk : ~ known e i).
  { intros [K|[K|K]].
    - apply (ok_types e G) in K. lia.
    - unfold tracked in K. congruence.
    - apply (ok_functions e G) in K. lia. }
  assert (Ht : forall j, tracked e' j <-> j = i \/ tracked e j) by (intros j; apply mem_insert).
  assert (Hf : forall j, pair_elems e' j = if j =? i then Some (a, b) else pair_elems e j).
  { intros j. unfold pair_elems, e'. cbn. destruct (Z.eqb_spec j i) as [->|D];
      [apply find_insert_eq|apply find_insert_ne, D]. }
  assert (Gr : grows e e').
  { constructor; auto.
    - intros j [K|[K|K]]; [left; exact K|right; left; apply Ht; auto|right; right; exact K].
    - intros j K. unfold parent. unfold e' at 1. cbn. rewrite mem_insert_false; [reflexivity|]. intros ->. contradiction.
    - intros j p F. rewrite Hf. destruct (Z.eqb_spec j i) as [->|D]; [|exact F].
      unfold pair_elems in F. apply mem_false in Hi. congruence. }
  split; [|split; [exact Gr|rewrite Hf, Z.eqb_refl; reflexivity]].
  split; [|apply (cache_grows e e' G C Gr); reflexivity].
  pose proof (ok_pairs e G) as Hpairs. fold i in Hpairs.
  apply (Build_graph_ok e' (ok_user e G)); try apply G; try exact (ok_types e G).
  - lia.
  - intros j. rewrite Ht, Hn, Hpairs. lia.
  - apply insert_ordered, G.
  - intros j k x y x' y' F1 F2 E1 E2. rewrite Hf in F1, F2.
    destruct (Z.eqb_spec j i) as [->|D1]; destruct (Z.eqb_spec k i) as [->|D2].
    + reflexivity.
    + injection F1 as <- <-. exfalso. apply (Hnew k x' y' F2); congruence.
    + injection F2 as <- <-. exfalso. apply (Hnew j x y F1); congruence.
    + exact (ok_pairs_unique e G j k x y x' y' F1 F2 E1 E2).
  - assert (Hold : forall j t, (known e (tid t) /\ (tracked e (tid t) -> tid t < j)) -> elem_ok e' j t).
    { intros j t [K T]. split; [apply (grow_known e e' Gr), K|]. intros T'. apply Ht in T'.
      destruct T' as [E|T']; [|auto]. exfalso. apply Hk. rewrite <- E. exact K. }
    assert (Hlow : forall t, tracked e (tid t) -> tid t < i) by (intros t T; apply Hpairs in T; lia).
    intros j x y F. rewrite Hf in F. destruct (Z.eqb_spec j i) as [->|D].
    + injection F as <- <-. split; apply Hold; auto.
    + destruct (ok_elems e G j x y F). split; apply Hold; assumption.
Qed.

Lemma makePairType_spec e a b : env_ok e -> known e (tid a) -> known e (tid b) -> next_pair_type_id_ e < 500 ->
  let '(t, e') := makePairType a b e in
  env_ok e' /\ grows e e' /\
  exists a' b', pair_elems e' (tid t) = Some (a', b') /\ tid a' = tid a /\ tid b' = tid b.
Proof.
  intros W Ka Kb Hroom. unfold makePairType.
  destruct (List.find _ _) as [[i [a' b']]|] eqn:F.
  - destruct (entry_found _ _ _ _ (ok_pairs_ordered e (ok_graph e W)) F) as [Fi P]. cbn in P.
    apply andb_true_iff in P. destruct P as [P1 P2]. apply type_eqb_eq in P1, P2.
    split; [exact W|]. split; [apply grows_refl|]. exists a', b'. auto.
  - destruct (pair_step_ok e a b W Ka Kb Hroom) as (W' & Gr & Fi).
    { intros i a' b' Fi E1 E2. pose proof (entry_missing _ _ _ _ F Fi) as N. cbn in N.
      apply andb_false_iff in N. rewrite !type_eqb_ne in N. destruct N; contradiction. }
    split; [exact W'|]. split; [exact Gr|]. exists a, b. auto.
Qed.

(** What a new function id changes. *)
Lemma function_step_ok e pi : env_ok e -> next_function_type_id_ e < 1000 ->
  (forall i q, function_sig e i = Some q -> signature q <> signature pi) ->
  let i := next_function_type_id_ e in
  let e' := with_functions e (insert i pi (function_type_cache_ e)) (u16 (i + 1)) in
  env_ok e' /\ grows e e' /\ function_sig e' i = Some pi.
Proof.
  intros [G C] Hroom Hnew i e'.
  pose proof (ok_function_next e G) as Rn. fold i in Rn, Hroom.
  pose proof (ok_functions e G) as Hfuns. fold i in Hfuns.
  assert (Hn : next_function_type_id_ e' = i + 1) by (unfold e'; cbn; apply u16_small; lia).
  assert (Hi : mem i (function_type_cache_ e) = false).
  { destruct (mem i _) eqn:M; [|reflexivity]. apply Hfuns in M. lia. }
  assert (Ht : forall j, function_id e' j <-> j = i \/ function_id e j) by (intros j; apply mem_insert).
  assert (Hf : forall j, function_sig e' j = if j =? i then Some pi else function_sig e j).
  { intros j. unfold function_sig, e'. cbn. destruct (Z.eqb_spec j i) as [->|D];
      [apply find_insert_eq|apply find_insert_ne, D]. }
  assert (Gr : grows e e').
  { constructor; auto.
    - intros j [K|[K|K]]; [left; exact K|right; left; exact K|right; right; apply Ht; auto].
    - intros j p F. rewrite Hf. destruct (Z.eqb_spec j i) as [->|D]; [|exact F].
      unfold function_sig in F. apply mem_false in Hi. congruence. }
  split; [|split; [exact Gr|rewrite Hf, Z.eqb_refl; reflexivity]].
  split; [|apply (cache_grows e e' G C Gr); reflexivity].
  apply (Build_graph_ok e' (ok_user e G)); try apply G; try exact (ok_types e G).
  - lia.
  - intros j. rewrite Ht, Hn, Hfuns. lia.
  - apply insert_ordered, G.
  - intros j k p q F1 F2 E. rewrite Hf in F1, F2.
    destruct (Z.eqb_spec j i) as [->|D1]; destruct (Z.eqb_spec k i) as [->|D2].
    + reflexivity.
    + injection F1 as <-. exfalso. apply (Hnew k q F2). congruence.
    + injection F2 as <-. exfalso. apply (Hnew j p F1). congruence.
    + exact (ok_functions_unique e G j k p q F1 F2 E).
  - intros j x y F. destruct (ok_elems e G j x y F) as [[K1 T1] [K2 T2]].
    split; split; try (apply (grow_known e e' Gr); assumption); assumption.
Qed.

Lemma same_params_spec ps : forall ts, length ps = length ts ->
  (same_params ps ts = true <-> map (fun p => tid (param_type p)) ps = map tid ts).
Proof.
  induction ps as [|p ps IH]; intros [|t ts] L; cbn in L; try discriminate; [cbn; tauto|].
  cbn [same_params map]. rewrite andb_true_iff, type_eqb_eq, IH by congruence. split; [intros []; congruence|].
  intros E. injection E as -> E. auto.
Qed.

Lemma same_signature_spec pi ts ret variadic :
  same_signature pi ts ret variadic = true <-> signature pi = (map tid ts, tid ret, variadic).
Proof.
  unfold same_signature, signature. rewrite !andb_true_iff, type_eqb_eq, Nat.eqb_eq, Bool.eqb_true_iff.
  split.
  - intros (((E1 & L) & E2) & S). apply same_params_spec in S; [|exact L]. congruence.
  - intros E. injection E as E1 E2 E3.
    assert (L : length (params pi) = length ts) by (rewrite <- (length_map (fun p => tid (param_type p))), E1, length_map; reflexivity).
    repeat split; auto. apply same_params_spec; assumption.
Qed.

Definition new_pi (ts : list TypeId) (ret : TypeId) (variadic : bool) : PiType :=
  mkPi (map (fun t => mkParam EmptyString t false) ts) ret false variadic.

Lemma new_pi_signature ts ret variadic : signature (new_pi ts ret variadic) = (map tid ts, tid ret, variadic).
Proof. unfold signature, new_pi. cbn. rewrite map_map. reflexivity. Qed.

Lemma makeFunctionType_spec e ts ret variadic : env_ok e -> next_function_type_id_ e < 1000 ->
  let '(t, e') := makeFunctionType ts ret variadic e in
  env_ok e' /\ grows e e' /\
  exists pi, function_sig e' (tid t) = Some pi /\ signature pi = (map tid ts, tid ret, variadic).
Proof.
  intros W Hroom. unfold makeFunctionType.
  destruct (List.find _ _) as [[i pi]|] eqn:F.
  - destruct (entry_found _ _ _ _ (ok_functions_ordered e (ok_graph e W)) F) as [Fi P]. cbn in P.
    apply same_signature_spec in P. split; [exact W|]. split; [apply grows_refl|]. exists pi. auto.
  - fold (new_pi ts ret variadic).
    destruct (function_step_ok e (new_pi ts ret variadic) W Hroom) as (W' & Gr & Fi).
    { intros i q Fi E. rewrite new_pi_signature in E. apply same_signature_spec in E.
      pose proof (entry_missing _ _ _ _ F Fi) as N. cbn in N. congruence. }
    split; [exact W'|]. split; [exact Gr|]. exists (new_pi ts ret variadic). split; [exact Fi|apply new_pi_signature].
Qed.

Lemma runs_outcome {A} (m : E A) (Q : A -> Prop) e a e' : runs m Q e -> m e = Some (a, e') -> Q a /\ env_ok e' /\ same_graph e e'.
Proof. intros (b & e2 & E1 & H) E2. rewrite E1 in E2. injection E2 as <- <-. exact H. Qed.

(** Whether a known type is below another is decided. *)
Lemma below_dec e i j : env_ok e -> known e i -> exists r : bool, r = true <-> below e i j.
Proof.
  intros W K. destruct (isSubtype_spec e type_fuel (mkTypeId i 0 0) (mkTypeId j 0 0) W K (le_n _)) as (r & e' & _ & Hr & _).
  exists r. exact Hr.
Qed.

(** Promotion in terms of the table, for some truthful reading of the hierarchy. *)
Lemma promote_runs e fuel a b : env_ok e -> known e (tid a) -> known e (tid b) -> (type_fuel <= fuel)%nat ->
  exists ia ra ib rb lcs, (ia = true <-> below e (tid a) 12) /\ (ra = true <-> below e (tid a) 15) /\
    (ib = true <-> below e (tid b) 12) /\ (rb = true <-> below e (tid b) 15) /\ least_above e (tid a) (tid b) lcs /\
    runs (promoteForArithmetic fuel a b) (fun t => tid t = promotion ia ra ib rb (tid a) (tid b) lcs) e.
Proof.
  intros W Ka Kb Hf. destruct (below_dec e (tid a) 12 W Ka) as [ia Hia]. destruct (below_dec e (tid a) 15 W Ka) as [ra Hra].
  destruct (below_dec e (tid b) 12 W Kb) as [ib Hib]. destruct (below_dec e (tid b) 15 W Kb) as [rb Hrb].
  destruct (lcs_spec e fuel a b (ok_graph e W) Ka Kb Hf) as (r & _ & Hr).
  exists ia, ra, ib, rb, (option_map tid r). repeat (split; [assumption|]). apply promote_spec; assumption.
Qed.

Lemma step_ok e e' : env_ok e -> step e e' -> env_ok e' /\ grows e e'.
Proof.
  intros W S. destruct S as [name lvl flags super Hs Hr|a b Ka Kb Hr|ts ret v Hr|fuel sub super r e' K Hf E
    |fuel a b t e' Ka Kb Hf E|p t|t dims].
  - exact (step_user_ok name lvl flags super e W Hs Hr).
  - pose proof (makePairType_spec e a b W Ka Kb Hr) as H. destruct (makePairType a b e). tauto.
  - pose proof (makeFunctionType_spec e ts ret v W Hr) as H. destruct (makeFunctionType ts ret v e). tauto.
  - destruct (isSubtype_spec e fuel sub super W K Hf) as (r' & e2 & E2 & _ & W2 & S2).
    rewrite E in E2. injection E2 as <- <-. auto with types.
  - destruct (promote_runs e fuel a b W Ka Kb Hf) as (ia & ra & ib & rb & lcs & _ & _ & _ & _ & _ & R).
    destruct (runs_outcome _ _ _ _ _ R E) as (_ & W2 & S2). auto with types.
  - assert (S : same_graph e (cache_instance p t e)) by (constructor; reflexivity).
    split; [|auto with types]. split; [exact (same_graph_ok _ _ S (ok_graph e W))|].
    apply (cache_grows e _ (ok_graph e W) (ok_cache e W)); auto with types.
  - assert (S : same_graph e (storeDimensionInfo t dims e)) by (constructor; reflexivity).
    split; [|auto with types]. split; [exact (same_graph_ok _ _ S (ok_graph e W))|].
    apply (cache_grows e _ (ok_graph e W) (ok_cache e W)); auto with types.
Qed.

Lemma steps_ok e e' : env_ok e -> steps e e' -> env_ok e' /\ grows e e'.
Proof.
  intros W. induction 1 as [|e1 e2 _ [W1 G1] S]; [auto with types|].
  destruct (step_ok e1 e2 W1 S) as [W2 G2]. split; [exact W2|exact (grows_trans _ _ _ G1 G2)].
Qed.

Lemma reachable_ok e : reachable e -> env_ok e.
Proof. intros R. exact (proj1 (steps_ok new_env e new_env_ok R)). Qed.

Lemma reachable_grows e : reachable e -> grows new_env e.
Proof. intros R. exact (proj2 (steps_ok new_env e new_env_ok R)). Qed.

Lemma steps_trans e1 e2 e3 : steps e1 e2 -> steps e2 e3 -> steps e1 e3.
Proof. intros H. induction 1; [exact H|]. eapply steps_snoc; eassumption. Qed.
