(* ===== verification/TypeTheorems.v ===== *)
(** * The theorems of the type environment

    Subtyping, least common supertypes, promotion, interned types and their codes, for
    every environment a program can build; and what happens beyond the id ranges. *)

From Stdlib Require Import String ZArith List Bool Lia.
From S2P Require Import Prelude OrderedMap Tagged TypeEnv TypeEnvSpec TypeEnvRuns.
Import ListNotations.
Open Scope Z_scope.

(** ** Subtyping *)

(** C21 The cached subtype check decides the hierarchy.  In every reachable environment
    the check of a known type terminates and answers whether the other is among its
    ancestors; the answer is the same after any further steps, so the cache is never
    stale; and being below is a partial order on ids. *)
Theorem subtype_is_ancestry e fuel sub super :
  reachable e -> known e (tid sub) -> (type_fuel <= fuel)%nat ->
  (exists r e', isSubtype fuel sub super e = Some (r, e') /\ reachable e' /\ (r = true <-> below e (tid sub) (tid super))) /\
  (forall later, steps e later -> exists r e', isSubtype fuel sub super later = Some (r, e') /\
     (r = true <-> below e (tid sub) (tid super))) /\
  (forall i, below e i i) /\ (forall i j k, below e i j -> below e j k -> below e i k) /\
  (forall i j, below e i j -> below e j i -> i = j).
Proof.
  intros R K Hf. pose proof (reachable_ok e R) as W.
  split; [|split; [|split; [apply below_refl|split; [apply below_trans|intros i j; apply below_antisym, W]]]].
  - destruct (isSubtype_spec e fuel sub super W K Hf) as (r & e' & E & Hr & _). exists r, e'. split; [exact E|].
    split; [|exact Hr]. eapply steps_snoc; [exact R|]. eapply step_subtype; eassumption.
  - intros later S. destruct (steps_ok e later W S) as [W' Gr].
    destruct (isSubtype_spec later fuel sub super W' (grow_known _ _ Gr _ K) Hf) as (r & e' & E & Hr & _).
    exists r, e'. split; [exact E|]. rewrite Hr. symmetry. apply (grows_below e later _ _ (ok_graph e W) Gr K).
Qed.

Lemma new_reachable : reachable new_env.
Proof. apply steps_nil. Qed.

Lemma builtin_known i : mem i (types_ new_env) = true -> known new_env i.
Proof.
  intros M. left. apply mem_find in M. destruct M as [n F]. unfold registered. rewrite (sup_node _ _ _ F). discriminate.
Qed.

(** Types of the fresh environment and what is above them, in any later one. *)
Lemma builtin_below e i l j : reachable e -> mem i (types_ new_env) = true -> is_chain new_env i l ->
  (below e i j <-> In j (i :: l)).
Proof.
  intros R M Hc. rewrite <- (grows_below new_env e i j new_env_graph (reachable_grows e R) (builtin_known i M)).
  symmetry. apply chain_In, Hc.
Qed.

Ltac chain := repeat split; vm_compute; reflexivity.

Lemma subtype_is_ancestry_witness :
  exists r e', isSubtype type_fuel BuiltinTypes.UInt8 BuiltinTypes.Number new_env = Some (r, e') /\ r = true.
Proof.
  destruct (proj1 (subtype_is_ancestry new_env type_fuel BuiltinTypes.UInt8 BuiltinTypes.Number new_reachable
    (builtin_known 32 ltac:(vm_compute; reflexivity)) (le_n _))) as (r & e' & E & _ & Hr).
  exists r, e'. split; [exact E|]. apply Hr.
  apply (builtin_below new_env 32 [12; 11; 10] 11 new_reachable); [vm_compute; reflexivity|chain|cbn; auto].
Defined.

(** ** Least common supertypes *)

Definition above_all (e : TypeEnvironment) (ts : list TypeId) (d : Z) : Prop := forall t, In t ts -> below e (tid t) d.

Lemma widen_spec e fuel : graph_ok e -> (type_fuel <= fuel)%nat -> forall ts seen common,
  known e (tid common) -> (forall t, In t ts -> known e (tid t)) ->
  (forall d, above_all e seen d <-> below e (tid common) d) ->
  exists t, widen fuel common ts e = Some t /\
    ((forall d, above_all e (seen ++ ts) d <-> below e (tid t) d) \/
     (tid t = tid BuiltinTypes.Value /\ forall d, ~ above_all e (seen ++ ts) d)).
Proof.
  intros G Hf. induction ts as [|t ts IH]; intros seen common Kc Kt Hc.
  - exists common. rewrite app_nil_r. auto.
  - cbn [widen].
    assert (Hsplit : forall d, above_all e (seen ++ t :: ts) d <-> above_all e ((seen ++ [t]) ++ ts) d)
      by (intros d; rewrite <- app_assoc; reflexivity).
    assert (Hadd : forall d, above_all e (seen ++ [t]) d <-> below e (tid common) d /\ below e (tid t) d).
    { intros d. rewrite <- Hc. unfold above_all. setoid_rewrite in_app_iff. cbn [In]. intuition. subst. assumption. }
    setoid_rewrite Hsplit. destruct (type_eqb t common) eqn:E.
    + apply type_eqb_eq in E. apply (IH (seen ++ [t]) common Kc (fun x Hx => Kt x (or_intror Hx))).
      intros d. rewrite Hadd, E. tauto.
    + destruct (lcs_spec e fuel common t G Kc (Kt t (or_introl eq_refl)) Hf) as ([c|] & -> & Hl); cbn in Hl.
      * destruct Hl as (L1 & L2 & L3).
        apply (IH (seen ++ [t]) c (below_known e _ _ G Kc L1) (fun x Hx => Kt x (or_intror Hx))).
        intros d. rewrite Hadd. split; [intros []; auto|]. intros B. split; eapply below_trans; eassumption.
      * exists BuiltinTypes.Value. split; [reflexivity|]. right. split; [reflexivity|]. intros d Hd.
        assert (Ha : above_all e (seen ++ [t]) d) by (intros x Hx; apply Hd, in_or_app; auto).
        apply Hadd in Ha. destruct Ha. apply (Hl d); assumption.
Qed.

(** C28 The least common supertype is the least upper bound.  For known types of a
    reachable environment the search terminates, returns a common supertype that is
    below all others, or nothing exactly when there is none, in either order of the
    arguments; and the inferred element type of a list is the least type above all
    its elements, or Value when there is none. *)
Theorem lcs_is_least e fuel a b ts :
  reachable e -> known e (tid a) -> known e (tid b) -> (forall t, In t ts -> known e (tid t)) ->
  (type_fuel <= fuel)%nat ->
  (exists r r', leastCommonSupertype fuel a b e = Some r /\ leastCommonSupertype fuel b a e = Some r' /\
     least_above e (tid a) (tid b) (option_map tid r) /\ option_map tid r = option_map tid r') /\
  (exists t, inferListElementType fuel ts e = Some t /\
     ((ts <> [] /\ forall d, above_all e ts d <-> below e (tid t) d) \/
      (tid t = tid BuiltinTypes.Value /\ (ts = [] \/ forall d, ~ above_all e ts d)))).
Proof.
  intros R Ka Kb Kt Hf. pose proof (ok_graph e (reachable_ok e R)) as G. split.
  - destruct (lcs_spec e fuel a b G Ka Kb Hf) as (r & E & H). destruct (lcs_spec e fuel b a G Kb Ka Hf) as (r' & E' & H').
    exists r, r'. repeat (split; [assumption|]). exact (least_above_unique e _ _ _ _ G H H').
  - destruct ts as [|t ts]; [exists BuiltinTypes.Value; cbn; auto|]. cbn [inferListElementType].
    destruct (widen_spec e fuel G Hf ts [t] t (Kt t (or_introl eq_refl)) (fun x Hx => Kt x (or_intror Hx)))
      as (c & E & H).
    { intros d. unfold above_all. cbn. split; [auto|]. intros B x [<-|[]]. exact B. }
    exists c. split; [exact E|]. destruct H as [H|[H1 H2]]; [left; split; [discriminate|exact H]|auto].
Qed.

Lemma lcs_is_least_witness :
  exists r r', leastCommonSupertype type_fuel BuiltinTypes.Int64 BuiltinTypes.Char new_env = Some r /\
    leastCommonSupertype type_fuel BuiltinTypes.Char BuiltinTypes.Int64 new_env = Some r' /\
    least_above new_env 13 22 (option_map tid r).
Proof.
  destruct (proj1 (lcs_is_least new_env type_fuel BuiltinTypes.Int64 BuiltinTypes.Char [] new_reachable
    (builtin_known 13 ltac:(vm_compute; reflexivity)) (builtin_known 22 ltac:(vm_compute; reflexivity))
    (fun t H => match H with end) (le_n _))) as (r & r' & E1 & E2 & H & _).
  exists r, r'. auto.
Defined.

(** ** Promotion *)

Section Numeric.
  Variable e : TypeEnvironment.
  Hypothesis R : reachable e.

Lemma integer_chain j : below e 12 j <-> In j [12; 11; 10].
Proof. apply builtin_below; [exact R|vm_compute; reflexivity|chain]. Qed.
Lemma real_chain j : below e 15 j <-> In j [15; 11; 10].
Proof. apply builtin_below; [exact R|vm_compute; reflexivity|chain]. Qed.
Lemma number_chain j : below e 11 j <-> In j [11; 10].
Proof. apply builtin_below; [exact R|vm_compute; reflexivity|chain]. Qed.
Lemma value_chain j : below e 10 j <-> In j [10].
Proof. apply builtin_below; [exact R|vm_compute; reflexivity|chain]. Qed.
Lemma int64_chain j : below e 13 j <-> In j [13; 12; 11; 10].
Proof. apply builtin_below; [exact R|vm_compute; reflexivity|chain]. Qed.
Lemma bigint_chain j : below e 24 j <-> In j [24; 12; 11; 10].
Proof. apply builtin_below; [exact R|vm_compute; reflexivity|chain]. Qed.
Lemma float64_chain j : below e 16 j <-> In j [16; 15; 11; 10].
Proof. apply builtin_below; [exact R|vm_compute; reflexivity|chain]. Qed.
Lemma complex_chain j : below e 18 j <-> In j [18; 11; 10].
Proof. apply builtin_below; [exact R|vm_compute; reflexivity|chain]. Qed.
Lemma complex64_chain j : below e 19 j <-> In j [19; 18; 11; 10].
Proof. apply builtin_below; [exact R|vm_compute; reflexivity|chain]. Qed.
Lemma complex128_chain j : below e 23 j <-> In j [23; 18; 11; 10].
Proof. apply builtin_below; [exact R|vm_compute; reflexivity|chain]. Qed.

Lemma integer_number i : below e i 12 -> below e i 11.
Proof. intros H. eapply below_trans; [exact H|]. apply integer_chain. cbn. auto. Qed.
Lemma real_number i : below e i 15 -> below e i 11.
Proof. intros H. eapply below_trans; [exact H|]. apply real_chain. cbn. auto. Qed.

(** No type is both an integer and a real. *)
Lemma integer_not_real i : below e i 12 -> below e i 15 -> False.
Proof.
  intros H1 H2. destruct (below_linear e i 12 15 H1 H2) as [H|H].
  - apply integer_chain in H. cbn in H. lia.
  - apply real_chain in H. cbn in H. lia.
Qed.

(** Exact or real types are not among the special cases. *)
Lemma below_leaf i j : below e i j -> j = 12 \/ j = 15 -> i <> 10 /\ i <> 11 /\ complex_id i = false.
Proof.
  intros H Hj. unfold complex_id.
  assert (N : ~ In i [10; 11; 18; 19; 23]).
  { cbn. intros [<-|[<-|[<-|[<-|[<-|[]]]]]];
      [apply value_chain in H|apply number_chain in H|apply complex_chain in H|apply complex64_chain in H
      |apply complex128_chain in H]; cbn in H; lia. }
  cbn in N. repeat match goal with |- context [?x =? ?y] => destruct (Z.eqb_spec x y) end; cbn; intuition congruence.
Qed.

End Numeric.

(** The order of the operands does not matter. *)
Lemma promotion_comm ia ra ib rb a b lcs : promotion ib rb ia ra b a lcs = promotion ia ra ib rb a b lcs.
Proof.
  unfold promotion. rewrite (Z.eqb_sym b a), (orb_comm (complex_id b)), (orb_comm ((b =? 24) && ia)),
    (orb_comm ((b =? 24) && ra)), (andb_comm ib ra), (andb_comm rb ia), (orb_comm (ra && ib)), (andb_comm ib ia), (andb_comm rb ra).
  destruct (Z.eqb_spec a b) as [->|N]; [reflexivity|].
  destruct (Z.eqb_spec a 10), (Z.eqb_spec b 10), (Z.eqb_spec a 11), (Z.eqb_spec b 11); subst; try congruence; cbn [andb];
    repeat match goal with |- context [if ?c then _ else _] => destruct c; [reflexivity|] end; reflexivity.
Qed.

Section Table.
  Variables (e : TypeEnvironment) (ia ra ib rb : bool) (a b : Z) (lcs : option Z).
  Hypothesis R : reachable e.
  Hypothesis Hia : ia = true <-> below e a 12.
  Hypothesis Hra : ra = true <-> below e a 15.
  Hypothesis Hib : ib = true <-> below e b 12.
  Hypothesis Hrb : rb = true <-> below e b 15.
  Hypothesis Hl : least_above e a b lcs.

(** A type that is an integer or a real, and the two answers about it. *)
Lemma leaf_facts i (is_int is_real : bool) :
  (is_int = true <-> below e i 12) -> (is_real = true <-> below e i 15) -> is_int || is_real = true ->
  i <> 10 /\ i <> 11 /\ complex_id i = false /\ is_int = negb is_real /\ (is_real = true -> i <> 24).
Proof.
  intros H1 H2 H. assert (B : exists j, below e i j /\ (j = 12 \/ j = 15)).
  { apply orb_true_iff in H. destruct H as [H|H]; [exists 12; rewrite <- H1|exists 15; rewrite <- H2]; auto. }
  destruct B as (j & B & Hj). destruct (below_leaf e R i j B Hj) as (N1 & N2 & N3). repeat (split; [assumption|]).
  split.
  - destruct is_int, is_real; try reflexivity; [|discriminate H].
    exfalso. apply (integer_not_real e R i); intuition.
  - intros Hr ->. apply H2, (bigint_chain e R) in Hr. cbn in Hr. lia.
Qed.

Ltac tests := repeat match goal with |- context [?x =? ?y] => destruct (Z.eqb_spec x y); [try contradiction|] end.

Lemma promotion_number : below e a 11 -> below e b 11 -> below e (promotion ia ra ib rb a b lcs) 11.
Proof.
  intros A B. assert (C : below e 18 11) by (apply complex_chain; cbn; auto).
  assert (I : below e 24 11) by (apply bigint_chain; cbn; auto).
  assert (F : below e 16 11) by (apply float64_chain; cbn; auto).
  assert (I64 : below e 13 11) by (apply int64_chain; cbn; auto).
  unfold promotion. repeat match goal with |- context [if ?c then _ else _] => destruct c; [assumption|] end.
  destruct lcs as [c|]; [apply Hl; assumption|constructor].
Qed.

Lemma promotion_integer : below e a 12 -> below e b 12 -> below e (promotion ia ra ib rb a b lcs) 12.
Proof.
  intros A B. apply Hia in A. apply Hib in B.
  destruct (leaf_facts a ia ra Hia Hra ltac:(rewrite A; reflexivity)) as (A1 & A2 & A3 & A4 & _).
  destruct (leaf_facts b ib rb Hib Hrb ltac:(rewrite B; reflexivity)) as (B1 & B2 & B3 & B4 & _).
  assert (I : below e 24 12) by (apply bigint_chain; cbn; auto).
  assert (I64 : below e 13 12) by (apply int64_chain; cbn; auto).
  apply (f_equal negb) in A4, B4. rewrite negb_involutive in A4, B4. subst ra rb.
  unfold promotion. rewrite A3, B3, A, B. cbn [orb andb negb]. rewrite !andb_true_r, !andb_false_r. cbn [orb].
  destruct (Z.eqb_spec a b); [apply Hia, A|].
  destruct (Z.eqb_spec a 10); [contradiction|]. destruct (Z.eqb_spec b 10); [contradiction|].
  destruct (Z.eqb_spec a 11); [contradiction|]. destruct (Z.eqb_spec b 11); [contradiction|].
  destruct ((a =? 24) || (b =? 24)); assumption.
Qed.

(** Inexactness is contagious. *)
Lemma promotion_real : below e a 15 -> below e b 12 \/ below e b 15 -> below e (promotion ia ra ib rb a b lcs) 15.
Proof.
  intros A B. apply Hra in A. rewrite <- Hib, <- Hrb in B.
  destruct (leaf_facts a ia ra Hia Hra ltac:(rewrite A; apply orb_true_r)) as (A1 & A2 & A3 & A4 & A5).
  destruct (leaf_facts b ib rb Hib Hrb ltac:(apply orb_true_iff; exact B)) as (B1 & B2 & B3 & B4 & B5).
  assert (F : below e 16 15) by (apply float64_chain; cbn; auto). specialize (A5 A).
  rewrite A in A4. cbn in A4. subst ia ib. unfold promotion. rewrite A3, B3, A. cbn [orb andb negb].
  rewrite !andb_false_r. cbn [orb].
  destruct (Z.eqb_spec a b); [apply Hra, A|].
  destruct (Z.eqb_spec a 10); [contradiction|]. destruct (Z.eqb_spec b 10); [contradiction|].
  destruct (Z.eqb_spec a 11); [contradiction|]. destruct (Z.eqb_spec b 11); [contradiction|].
  destruct (Z.eqb_spec a 24); [contradiction|]. destruct (Z.eqb_spec b 24); destruct rb; cbn; exact F.
Qed.

Lemma promotion_complex : complex_id a = true -> below e b 11 -> a <> b -> promotion ia ra ib rb a b lcs = 18.
Proof.
  intros A B N. assert (C10 : a <> 10 /\ a <> 11).
  { unfold complex_id in A. split; intros ->; discriminate A. }
  assert (B10 : b <> 10) by (intros ->; apply (value_chain e R) in B; cbn in B; lia).
  assert (Ha : ia || ra = false).
  { destruct (ia || ra) eqn:H; [|reflexivity]. destruct (leaf_facts a ia ra Hia Hra H) as (_ & _ & H' & _). congruence. }
  unfold promotion. rewrite Ha, A, andb_false_r. cbn [orb].
  destruct (Z.eqb_spec a b); [contradiction|]. destruct (Z.eqb_spec a 10); [tauto|].
  destruct (Z.eqb_spec b 10); [contradiction|]. destruct (Z.eqb_spec a 11); [tauto|]. reflexivity.
Qed.

End Table.

(** Promotion follows the numeric tower.  For known types of a reachable environment
    it returns: numeric types promote to a numeric type, integers to an integer type,
    a real with an integer or a real to a real (inexactness is contagious), a complex
    type with another numeric type to Complex; equal types and Value are neutral; and
    the order of the operands does not matter. *)
Theorem promotion_follows_tower e fuel a b :
  reachable e -> known e (tid a) -> known e (tid b) -> (type_fuel <= fuel)%nat ->
  exists t e', promoteForArithmetic fuel a b e = Some (t, e') /\ reachable e' /\
    (below e (tid a) 11 -> below e (tid b) 11 -> below e (tid t) 11) /\
    (below e (tid a) 12 -> below e (tid b) 12 -> below e (tid t) 12) /\
    (below e (tid a) 15 -> below e (tid b) 12 \/ below e (tid b) 15 -> below e (tid t) 15) /\
    (is_complex a = true -> below e (tid b) 11 -> tid a <> tid b -> tid t = tid BuiltinTypes.Complex) /\
    (tid a = tid b \/ tid a = tid BuiltinTypes.Value -> tid t = tid b) /\
    exists t' e'', promoteForArithmetic fuel b a e' = Some (t', e'') /\ tid t' = tid t.
Proof.
  intros R Ka Kb Hf.
  destruct (promote_runs e fuel a b (reachable_ok e R) Ka Kb Hf)
    as (ia & ra & ib & rb & lcs & Hia & Hra & Hib & Hrb & Hl & t & e' & E & Ht & W' & S').
  assert (Hab : forall x y, below e x y <-> below e' x y) by (intros; apply same_graph_below_iff, S').
  assert (Hl' : least_above e' (tid b) (tid a) lcs).
  { destruct lcs as [c|]; cbn in Hl |- *; setoid_rewrite <- Hab; [intuition|]. intros d Hd1 Hd2. exact (Hl d Hd2 Hd1). }
  pose proof (same_graph_grows _ _ S') as Gr.
  destruct (promote_spec e' fuel b a ib rb ia ra lcs W' (grow_known _ _ Gr _ Kb) (grow_known _ _ Gr _ Ka) Hf)
    as (t' & e'' & E' & Ht' & _ & _); try (rewrite <- Hab; assumption); [exact Hl'|].
  exists t, e'. split; [exact E|]. split; [eapply steps_snoc; [exact R|exact (step_promote e fuel a b t e' Ka Kb Hf E)]|]. rewrite Ht.
  split; [apply promotion_number; assumption|]. split; [apply promotion_integer; assumption|].
  split; [apply promotion_real; assumption|].
  split; [intros; apply (promotion_complex e); assumption|].
  split.
  - unfold promotion. cbn [tid BuiltinTypes.Value]. destruct (Z.eqb_spec (tid a) (tid b)) as [->|N]; [reflexivity|].
    intros [H|H]; [contradiction|]. rewrite H. reflexivity.
  - exists t', e''. split; [exact E'|]. rewrite Ht'. apply promotion_comm.
Qed.

Lemma promotion_follows_tower_witness :
  exists t e', promoteForArithmetic type_fuel BuiltinTypes.Float32 BuiltinTypes.BigInt new_env = Some (t, e') /\
    below new_env (tid t) 15.
Proof.
  destruct (promotion_follows_tower new_env type_fuel BuiltinTypes.Float32 BuiltinTypes.BigInt new_reachable
    (builtin_known 17 ltac:(vm_compute; reflexivity)) (builtin_known 24 ltac:(vm_compute; reflexivity)) (le_n _))
    as (t & e' & E & _ & _ & _ & Hr & _).
  exists t, e'. split; [exact E|]. apply Hr.
  - apply (builtin_below new_env 17 [15; 11; 10] 15 new_reachable); [vm_compute; reflexivity|chain|cbn; auto].
  - left. apply (builtin_below new_env 24 [12; 11; 10] 12 new_reachable); [vm_compute; reflexivity|chain|cbn; auto].
Defined.

(** ** Function and pair types *)

Lemma function_getters e t pi : function_sig e (tid t) = Some pi ->
  map tid (getFunctionParamTypes t e) = fst (fst (signature pi)) /\
  tid (getFunctionReturnType t e) = snd (fst (signature pi)) /\ isFunctionType t e = true.
Proof.
  unfold getFunctionParamTypes, getFunctionReturnType, getFunctionType, isFunctionType, mem, function_sig.
  intros ->. cbn. rewrite map_map, orb_true_r. auto.
Qed.

(** Function and pair types are interned.  In a reachable environment with room for
    two more ids, two function types made one after the other have the same id exactly
    when their parameters, results and variadic flags agree, and two pair types
    exactly when their elements agree; whatever steps follow, the getters return what
    the type was made from, and no id is both a function and a pair. *)
Theorem function_and_pair_types_interned e ts ret v ts' ret' v' a b a' b' :
  reachable e -> next_function_type_id_ e < 999 -> next_pair_type_id_ e < 499 ->
  known e (tid a) -> known e (tid b) -> known e (tid a') -> known e (tid b') ->
  (let '(f, e1) := makeFunctionType ts ret v e in
   let '(g, e2) := makeFunctionType ts' ret' v' e1 in
   (tid f = tid g <-> map tid ts = map tid ts' /\ tid ret = tid ret' /\ v = v') /\
   forall later, steps e2 later ->
     map tid (getFunctionParamTypes f later) = map tid ts /\ tid (getFunctionReturnType f later) = tid ret /\
     isFunctionType f later = true /\ isTrackedPairType f later = false) /\
  (let '(p, e1) := makePairType a b e in
   let '(q, e2) := makePairType a' b' e1 in
   (tid p = tid q <-> tid a = tid a' /\ tid b = tid b') /\
   forall later, steps e2 later ->
     option_map (fun x => (tid (fst x), tid (snd x))) (getPairElementTypes p later) = Some (tid a, tid b) /\
     below later (tid p) (tid BuiltinTypes.Pair) /\ isFunctionType p later = false).
Proof.
  intros R Rf Rp Ka Kb Ka' Kb'. pose proof (reachable_ok e R) as W. split.
  - pose proof (makeFunctionType_spec e ts ret v W ltac:(lia)) as H1.
    destruct (makeFunctionType ts ret v e) as [f e1] eqn:E1. destruct H1 as (W1 & G1 & pi & F1 & S1).
    assert (Rf1 : next_function_type_id_ e1 < 1000).
    { unfold makeFunctionType in E1. destruct (List.find _ _) as [[i q]|]; injection E1 as <- <-; cbn; [lia|].
      pose proof (ok_function_next e (ok_graph e W)). rewrite u16_small; lia. }
    pose proof (makeFunctionType_spec e1 ts' ret' v' W1 Rf1) as H2.
    destruct (makeFunctionType ts' ret' v' e1) as [g e2]. destruct H2 as (W2 & G2 & pi' & F2 & S2).
    apply (grow_functions _ _ G2) in F1. split.
    + split.
      * intros E. rewrite E, F2 in F1. injection F1 as ->. rewrite S1 in S2. injection S2 as -> -> ->. auto.
      * intros (A & B & ->). apply (ok_functions_unique e2 (ok_graph e2 W2) _ _ pi pi' F1 F2). congruence.
    + intros later S. destruct (steps_ok e2 later W2 S) as [W3 G3]. apply (grow_functions _ _ G3) in F1.
      destruct (function_getters later f pi F1) as (A & B & C). rewrite A, B, S1. repeat (split; [auto|]).
      unfold isTrackedPairType. destruct (mem (tid f) (pair_element_cache_ later)) eqn:M; [|reflexivity].
      pose proof (tracked_no_function later _ (ok_graph _ W3) M) as N. unfold mem in N. unfold function_sig in F1.
      rewrite F1 in N. discriminate.
  - pose proof (makePairType_spec e a b W Ka Kb ltac:(lia)) as H1.
    destruct (makePairType a b e) as [p e1] eqn:E1. destruct H1 as (W1 & G1 & x & y & F1 & Ex & Ey).
    assert (Rp1 : next_pair_type_id_ e1 < 500).
    { unfold makePairType in E1. destruct (List.find _ _) as [[i q]|]; injection E1 as <- <-; cbn; [lia|].
      pose proof (ok_pair_next e (ok_graph e W)). rewrite u16_small; lia. }
    pose proof (makePairType_spec e1 a' b' W1 (grow_known _ _ G1 _ Ka') (grow_known _ _ G1 _ Kb') Rp1) as H2.
    destruct (makePairType a' b' e1) as [q e2]. destruct H2 as (W2 & G2 & x' & y' & F2 & Ex' & Ey').
    apply (grow_pairs _ _ G2) in F1. split.
    + split.
      * intros E. rewrite E, F2 in F1. injection F1 as -> ->. split; congruence.
      * intros (A & B). apply (ok_pairs_unique e2 (ok_graph e2 W2) _ _ x y x' y' F1 F2); congruence.
    + intros later S. destruct (steps_ok e2 later W2 S) as [W3 G3]. apply (grow_pairs _ _ G3) in F1.
      assert (T : tracked later (tid p)) by (apply mem_find; eauto).
      split; [unfold getPairElementTypes; unfold pair_elems in F1; rewrite F1; cbn; congruence|]. split.
      * eapply below_up; [unfold parent; rewrite T; reflexivity|constructor].
      * unfold isFunctionType. rewrite (tracked_no_function later _ (ok_graph _ W3) T), orb_false_r.
        apply (ok_pairs _ (ok_graph _ W3)) in T. apply type_eqb_ne. cbn. lia.
Qed.

Lemma function_and_pair_types_interned_witness :
  let '(f, e1) := makeFunctionType [BuiltinTypes.Int64] BuiltinTypes.Boolean false new_env in
  let '(g, _) := makeFunctionType [BuiltinTypes.Int64] BuiltinTypes.Boolean true e1 in
  (tid f = tid g <-> map tid [BuiltinTypes.Int64] = map tid [BuiltinTypes.Int64] /\
     tid BuiltinTypes.Boolean = tid BuiltinTypes.Boolean /\ false = true).
Proof.
  assert (Hf : next_function_type_id_ new_env < 999) by (vm_compute; reflexivity).
  assert (Hp : next_pair_type_id_ new_env < 499) by (vm_compute; reflexivity).
  assert (K13 : known new_env 13) by (apply builtin_known; vm_compute; reflexivity).
  pose proof (function_and_pair_types_interned new_env [BuiltinTypes.Int64] BuiltinTypes.Boolean false
    [BuiltinTypes.Int64] BuiltinTypes.Boolean true BuiltinTypes.Int64 BuiltinTypes.Int64 BuiltinTypes.Int64
    BuiltinTypes.Int64 new_reachable Hf Hp K13 K13 K13 K13) as H.
  apply proj1 in H.
  destruct (makeFunctionType _ _ false new_env) as [f e1]. destruct (makeFunctionType _ _ true e1) as [g e2].
  exact (proj1 H).
Defined.

(** ** Codes *)

(** The tag is recovered, or it has no type of its own. *)
Definition tag_ok (tag : Z) : bool :=
  if existsb (Z.eqb tag) (map fst runtime_types) then toRuntimeType (fromRuntimeType tag) =? tag
  else tid (fromRuntimeType tag) =? tid BuiltinTypes.Value.

Lemma all_tags : forallb tag_ok (map Z.of_nat (seq 0 256)) = true.
Proof. vm_compute. reflexivity. Qed.

Lemma pack_sum i l f : 0 <= i < 2 ^ 16 -> 0 <= l < 2 ^ 8 -> 0 <= f < 2 ^ 8 ->
  pack (mkTypeId i l f) = f * 2 ^ 24 + (l * 2 ^ 16 + i).
Proof.
  intros Hi Hl Hf. unfold pack. cbn [tid level tflags].
  assert (El : u32 (Z.shiftl l 16) = Z.shiftl l 16).
  { unfold u32. rewrite Z.shiftl_mul_pow2 by lia. apply Z.mod_small. lia. }
  assert (Ef : u32 (Z.shiftl f 24) = Z.shiftl f 24).
  { unfold u32. rewrite Z.shiftl_mul_pow2 by lia. apply Z.mod_small. lia. }
  rewrite El, Ef, (Z.lor_comm i), lor_disjoint_add by lia.
  rewrite Z.lor_comm, lor_disjoint_add by lia. reflexivity.
Qed.

Lemma unpack_sum i l f : 0 <= i < 2 ^ 16 -> 0 <= l < 2 ^ 8 -> 0 <= f < 2 ^ 8 ->
  unpack (f * 2 ^ 24 + (l * 2 ^ 16 + i)) = mkTypeId i l f.
Proof.
  intros Hi Hl Hf. unfold unpack.
  change 65535 with (Z.ones 16). change 255 with (Z.ones 8).
  rewrite !Z.land_ones, !Z.shiftr_div_pow2 by lia.
  change (2 ^ 24) with 16777216 in *. change (2 ^ 16) with 65536 in *. change (2 ^ 8) with 256 in *.
  f_equal; Z.div_mod_to_equations; lia.
Qed.

(** Codes of types.  Packing an id of 16 bits, a level and flags of 8 bits into 32 bits
    and unpacking gives the type back; a runtime tag either has a type of its own, from
    which it is recovered, or is typed as Value. *)
Theorem type_codes_round_trip t tag :
  0 <= tid t < 2 ^ 16 -> 0 <= level t < 2 ^ 8 -> 0 <= tflags t < 2 ^ 8 -> 0 <= tag < 256 ->
  unpack (pack t) = t /\ 0 <= pack t < 2 ^ 32 /\
  (In tag (map fst runtime_types) -> toRuntimeType (fromRuntimeType tag) = tag) /\
  (~ In tag (map fst runtime_types) -> tid (fromRuntimeType tag) = tid BuiltinTypes.Value).
Proof.
  intros Hi Hl Hf Ht. destruct t as [i l f]. cbn [tid level tflags] in Hi, Hl, Hf.
  rewrite pack_sum, unpack_sum by assumption. split; [reflexivity|]. split; [lia|].
  assert (T : tag_ok tag = true).
  { apply (proj1 (forallb_forall _ _) all_tags). apply in_map_iff. exists (Z.to_nat tag).
    split; [lia|]. apply in_seq. lia. }
  unfold tag_ok in T. destruct (existsb _ _) eqn:X.
  - apply Z.eqb_eq in T. split; [auto|]. intros N. exfalso. apply N. apply existsb_exists in X.
    destruct X as (x & Hx & E). apply Z.eqb_eq in E. subst. exact Hx.
  - apply Z.eqb_eq in T. split; [|auto]. intros I. exfalso.
    assert (Y : existsb (Z.eqb tag) (map fst runtime_types) = true).
    { apply existsb_exists. exists tag. split; [exact I|apply Z.eqb_refl]. }
    congruence.
Qed.

Lemma type_codes_round_trip_witness :
  unpack (pack BuiltinTypes.Handle) = BuiltinTypes.Handle /\
  toRuntimeType (fromRuntimeType ESHKOL_VALUE_HASH_PTR) = ESHKOL_VALUE_HASH_PTR.
Proof.
  destruct (type_codes_round_trip BuiltinTypes.Handle ESHKOL_VALUE_HASH_PTR) as (H1 & _ & H2 & _);
    [split; vm_compute; [discriminate|reflexivity]..|]. split; [exact H1|]. apply H2. cbn. auto 20.
Defined.

(** ** Beyond the id ranges *)

(** The types of a list built by [n] nested [cons] of integers, as the checker makes
    them. *)
Fixpoint nested_pairs (n : nat) (t : TypeId) (e : TypeEnvironment) : TypeId * TypeEnvironment :=
  match n with
  | O => (t, e)
  | S n' => let '(t', e') := makePairType BuiltinTypes.Int64 t e in nested_pairs n' t' e'
  end.

(** The types of thunks that return thunks, [n] deep. *)
Fixpoint nested_thunks (n : nat) (t : TypeId) (e : TypeEnvironment) : TypeId * TypeEnvironment :=
  match n with
  | O => (t, e)
  | S n' => let '(t', e') := makeFunctionType [] t false e in nested_thunks n' t' e'
  end.

(** Type ids collide.  The ranges of ids are not checked: after 200 pair types the
    next one gets the id 500 of the first function type, so the function is a subtype
    of Pair and the pair counts as a function; after 500 function types the next one
    gets the id of the first user type; and a user type declared below a tracked pair
    type is below it but not below Pair, so subtyping is not transitive. *)
Theorem type_ids_collide :
  (let '(p, e1) := nested_pairs 201 BuiltinTypes.Null new_env in
   let '(f, e2) := makeFunctionType [] BuiltinTypes.Int64 false e1 in
   type_eqb p f = true /\ isFunctionType p e2 = true /\
   option_map fst (isSubtype 1000 f BuiltinTypes.Pair e2) = Some true) /\
  (let '(f, e2) := nested_thunks 501 BuiltinTypes.Null new_env in
   let '(u, _) := registerUserType "point" U0 0 None e2 in type_eqb f u = true) /\
  (let '(p, e1) := makePairType BuiltinTypes.Int64 BuiltinTypes.Null new_env in
   let '(u, e2) := registerUserType "point" U0 0 (Some p) e1 in
   option_map fst (isSubtype 1000 u p e2) = Some true /\
   option_map fst (isSubtype 1000 p BuiltinTypes.Pair e2) = Some true /\
   option_map fst (isSubtype 1000 u BuiltinTypes.Pair e2) = Some false).
Proof. split; [|split]; vm_compute; auto. Qed.

(** A non-numeric operand of a complex type promotes to Complex; type families are not
    below Value, the documented root; and a legacy integer tag with exactness bits,
    which the code says it strips, is typed as Value. *)
Theorem type_edge_cases :
  option_map fst (promoteForArithmetic 1000 BuiltinTypes.Complex BuiltinTypes.String new_env) = Some BuiltinTypes.Complex /\
  option_map fst (isSubtype 1000 BuiltinTypes.List BuiltinTypes.Value new_env) = Some false /\
  leastCommonSupertype 1000 BuiltinTypes.List BuiltinTypes.Int64 new_env = Some None /\
  fromRuntimeType (Z.lor ESHKOL_VALUE_INT64 16) = BuiltinTypes.Value.
Proof. repeat split; vm_compute; reflexivity. Qed.
