(* ===== verification/Dependent.v ===== *)
(** * Compile-time values and dependent types: lib/types/dependent.cpp

    Constant folding of dimension expressions, compile-time values, types indexed by
    them and the dimension checks.  A C++ operation whose behaviour is undefined
    (signed overflow, the quotient of the least integer by -1, a conversion of a double
    that does not fit) makes the result [None]. *)

From Stdlib Require Import String ZArith List Bool Lia.
From Stdlib Require Import SpecFloat DecimalString.
From S2P Require Import Prelude Doubles OrderedMap Tagged TypeEnv TypeEnvSpec TypeEnvRuns.
Import ListNotations.
Open Scope Z_scope.

(** ** Constant expressions *)

Inductive const_op : Type := ESHKOL_ADD_OP | ESHKOL_SUB_OP | ESHKOL_MUL_OP | ESHKOL_DIV_OP | OTHER_OP.

(** The syntax trees that folding looks into; all other nodes are [AST_OTHER]. *)
Inductive const_ast : Type :=
| ESHKOL_INT64 (v : Z) | ESHKOL_INT32 (v : Z) | ESHKOL_INT16 (v : Z) | ESHKOL_INT8 (v : Z)
| ESHKOL_UINT64 (v : Z) | ESHKOL_UINT32 (v : Z) | ESHKOL_UINT16 (v : Z) | ESHKOL_UINT8 (v : Z)
| ESHKOL_DOUBLE (bits : Z)
| ESHKOL_OP (op : const_op) (variables : list const_ast)
| AST_OTHER.

Inductive const_kind : Type := KInteger | KFloat | KNone.

Record ConstValue : Type := mkConst { ckind : const_kind; c_int : Z; c_float : Z }.

(** Truncation of a finite double. *)
Definition float_trunc (f : spec_float) : option Z :=
  match f with
  | S754_zero _ => Some 0
  | S754_finite s m e =>
    let v := if 0 <=? e then Z.pos m * 2 ^ e else Z.pos m / 2 ^ (- e) in
    Some (if s then - v else v)
  | _ => None
  end.

(** [static_cast<int64_t>(v)] and [static_cast<uint64_t>(v)]. *)
Definition cast_int64 (bits : Z) : option Z :=
  match float_trunc (decode_double bits) with
  | Some z => if (INT64_MIN <=? z) && (z <=? INT64_MAX) then Some z else None
  | None => None
  end.

Definition cast_uint64 (bits : Z) : option Z :=
  match float_trunc (decode_double bits) with
  | Some z => if (0 <=? z) && (z <=? UINT64_MAX) then Some z else None
  | None => None
  end.

Definition makeInt (v : Z) : ConstValue := mkConst KInteger v (double_of_Z v).

Definition makeFloat (bits : Z) : option ConstValue :=
  match cast_int64 bits with Some i => Some (mkConst KFloat i bits) | None => None end.

Definition const_none : ConstValue := mkConst KNone 0 0.

Definition isValid (c : ConstValue) : bool := match ckind c with KNone => false | _ => true end.
Definition isInt (c : ConstValue) : bool := match ckind c with KInteger => true | _ => false end.
Definition isFloat (c : ConstValue) : bool := match ckind c with KFloat => true | _ => false end.

(** A signed operation: undefined when its result does not fit. *)
Definition signed_int64 (z : Z) : option ConstValue :=
  if (INT64_MIN <=? z) && (z <=? INT64_MAX) then Some (makeInt z) else None.

Definition const_arith (fop : Z -> Z -> Z) (iop : Z -> Z -> Z) (a b : ConstValue) : option ConstValue :=
  if negb (isValid a) || negb (isValid b) then Some const_none
  else if isFloat a || isFloat b then makeFloat (fop (c_float a) (c_float b))
  else signed_int64 (iop (c_int a) (c_int b)).

Definition const_add := const_arith double_add Z.add.
Definition const_sub := const_arith double_sub Z.sub.
Definition const_mul := const_arith double_mul Z.mul.

Definition const_div (a b : ConstValue) : option ConstValue :=
  if negb (isValid a) || negb (isValid b) then Some const_none
  else if isFloat b && double_eq (c_float b) double_zero then Some const_none
  else if isInt b && (c_int b =? 0) then Some const_none
  else const_arith double_div Z.quot a b.

Definition const_fold (op : const_op) : option (ConstValue -> ConstValue -> option ConstValue) :=
  match op with
  | ESHKOL_ADD_OP => Some const_add
  | ESHKOL_SUB_OP => Some const_sub
  | ESHKOL_MUL_OP => Some const_mul
  | ESHKOL_DIV_OP => Some const_div
  | OTHER_OP => None
  end.

Section Fold.
  Variable eval : const_ast -> option ConstValue.
  Variable f : ConstValue -> ConstValue -> option ConstValue.

(** The loop over the operands after the first; it stops at an invalid one, and
    division at an invalid result (the other operations have none). *)
Fixpoint operand_loop (rest : list const_ast) (result : ConstValue) : option ConstValue :=
  match rest with
  | [] => Some result
  | x :: rest' =>
    match eval x with
    | None => None
    | Some operand =>
      if negb (isValid operand) then Some const_none
      else match f result operand with
           | None => None
           | Some r => if isValid r then operand_loop rest' r else Some const_none
           end
    end
  end.

End Fold.

Fixpoint evaluateConstExpr (e : const_ast) : option ConstValue :=
  match e with
  | ESHKOL_INT64 v | ESHKOL_INT32 v | ESHKOL_INT16 v | ESHKOL_INT8 v => Some (makeInt v)
  | ESHKOL_UINT64 v => Some (makeInt (s64 v))
  | ESHKOL_UINT32 v | ESHKOL_UINT16 v | ESHKOL_UINT8 v => Some (makeInt v)
  | ESHKOL_DOUBLE bits => makeFloat bits
  | ESHKOL_OP op variables =>
    match const_fold op, variables with
    | Some f, first :: ((_ :: _) as rest) =>
      match evaluateConstExpr first with
      | None => None
      | Some result => if isValid result then operand_loop evaluateConstExpr f rest result else Some const_none
      end
    | _, _ => Some const_none
    end
  | AST_OTHER => Some const_none
  end.

(** ** Compile-time values *)

Inductive CTValue : Type :=
| CTNat (n : Z)
| CTBool (b : bool)
| CTExpr (e : option const_ast)
| CTUnknown.

Definition evaluate_ptr (e : option const_ast) : option ConstValue :=
  match e with None => Some const_none | Some e => evaluateConstExpr e end.

(** The outer option is definedness, the inner one the [std::optional]. *)
Definition tryEvalNat (v : CTValue) : option (option Z) :=
  match v with
  | CTNat n => Some (Some n)
  | CTExpr e =>
    match evaluate_ptr e with
    | None => None
    | Some c =>
      if isValid c then
        if isInt c && (c_int c >=? 0) then Some (Some (u64 (c_int c)))
        else if isFloat c then
          if double_le double_zero (c_float c) then
            match cast_uint64 (c_float c) with
            | None => None
            | Some n => if double_eq (c_float c) (double_of_Z n) then Some (Some n) else Some None
            end
          else Some None
        else Some None
      else Some None
    end
  | _ => Some None
  end.

Definition tryEvalFloat (v : CTValue) : option (option Z) :=
  match v with
  | CTNat n => Some (Some (double_of_Z n))
  | CTExpr e =>
    match evaluate_ptr e with
    | None => None
    | Some c => Some (if isValid c then Some (c_float c) else None)
    end
  | _ => Some None
  end.

Definition tryEvalBool (v : CTValue) : option bool := match v with CTBool b => Some b | _ => None end.

Inductive CompareResult : Type := CTrue | CFalse | CUnknown.

Definition compare_of (b : bool) : CompareResult := if b then CTrue else CFalse.

(** Two evaluations, the second only when the first is defined. *)
Definition both_nats {A} (a b : CTValue) (k : option Z -> option Z -> A) : option A :=
  match tryEvalNat a with
  | None => None
  | Some x => match tryEvalNat b with None => None | Some y => Some (k x y) end
  end.

Definition lessThan (a b : CTValue) : option CompareResult :=
  both_nats a b (fun x y => match x, y with Some m, Some n => compare_of (m <? n) | _, _ => CUnknown end).

Definition ct_equals (a b : CTValue) : CompareResult :=
  match a, b with
  | CTNat m, CTNat n => compare_of (m =? n)
  | CTBool x, CTBool y => compare_of (Bool.eqb x y)
  | _, _ => CUnknown
  end.

Definition ct_add (a b : CTValue) : option CTValue :=
  both_nats a b (fun x y => match x, y with Some m, Some n => CTNat (u64 (m + n)) | _, _ => CTUnknown end).

Definition ct_mul (a b : CTValue) : option CTValue :=
  both_nats a b (fun x y => match x, y with Some m, Some n => CTNat (u64 (m * n)) | _, _ => CTUnknown end).

(** [std::to_string] of an unsigned number. *)
Definition decimal (n : Z) : string := NilZero.string_of_uint (N.to_uint (Z.to_N n)).

Definition ct_toString (v : CTValue) : string :=
  match v with
  | CTNat n => decimal n
  | CTBool b => if b then "#t" else "#f"
  | CTExpr _ => "<expr>"
  | CTUnknown => "?"
  end.

(** ** Dependent types *)

Record DependentType : Type := mkDependent {
  dep_base : TypeId;
  type_indices : list TypeId;
  value_indices : list CTValue
}.

Definition is_true (c : CompareResult) : bool := match c with CTrue => true | _ => false end.

(** The loops over indices of equal number. *)
Fixpoint all_pairs {A} (f : A -> A -> bool) (l1 l2 : list A) : bool :=
  match l1, l2 with
  | a :: l1', b :: l2' => f a b && all_pairs f l1' l2'
  | _, _ => true
  end.

Definition same_number {A} (l1 l2 : list A) : bool := Nat.eqb (length l1) (length l2).

Definition same_values (v1 v2 : list CTValue) : bool :=
  same_number v1 v2 && all_pairs (fun a b => is_true (ct_equals a b)) v1 v2.

Definition dep_equals (a b : DependentType) : bool :=
  type_eqb (dep_base a) (dep_base b) &&
  same_number (type_indices a) (type_indices b) && all_pairs type_eqb (type_indices a) (type_indices b) &&
  same_values (value_indices a) (value_indices b).

(** The loop over the type indices of [isSubtypeOf]. *)
Fixpoint indices_below (fuel : nat) (ts us : list TypeId) : E bool :=
  match ts, us with
  | t :: ts', u :: us' =>
    e_and (if type_eqb t u then e_ret true else isSubtype fuel t u) (indices_below fuel ts' us')
  | _, _ => e_ret true
  end.

Definition isSubtypeOf (fuel : nat) (a b : DependentType) : E bool :=
  e_and (isSubtype fuel (dep_base a) (dep_base b))
    (e_and (e_ret (same_number (type_indices a) (type_indices b)))
      (e_and (indices_below fuel (type_indices a) (type_indices b))
        (e_ret (same_values (value_indices a) (value_indices b))))).

Definition dep_getDimension (t : DependentType) (idx : nat) : option (option Z) :=
  match nth_error (value_indices t) idx with Some v => tryEvalNat v | None => Some None end.

(** ** Dimension checks *)

Record check_result : Type := mkResult { valid : bool; error_message : string }.
Definition success : check_result := mkResult true EmptyString.
Definition failure (msg : string) : check_result := mkResult false msg.

Definition in_context (context : string) : string :=
  match context with EmptyString => EmptyString | _ => " in " ++ context end.

Definition checkBounds (idx bound : CTValue) (context : string) : option check_result :=
  both_nats idx bound (fun idx_val bound_val =>
    match idx_val, bound_val with
    | Some i, Some n =>
      if i >=? n then failure ("Index " ++ decimal i ++ " out of bounds (< " ++ decimal n ++ ")" ++ in_context context)
      else success
    | Some i, None =>
      failure ("Cannot statically verify index " ++ decimal i ++ " against unknown bound" ++ in_context context)
    | None, _ => failure ("Cannot statically verify index bound" ++ in_context context ++ " (proof required)")
    end)%string.

Definition checkDimensionsEqual (dim1 dim2 : CTValue) (context : string) : check_result :=
  match ct_equals dim1 dim2 with
  | CTrue => success
  | CFalse => failure ("Dimension mismatch: " ++ ct_toString dim1 ++ " != " ++ ct_toString dim2 ++ in_context context)
  | CUnknown =>
    failure ("Cannot statically verify dimension equality: " ++ ct_toString dim1 ++ " =? " ++ ct_toString dim2 ++
             in_context context ++ " (proof required)")
  end%string.

Definition or_default (context default : string) : string := match context with EmptyString => default | _ => context end.

Definition checkMatMulDimensions (left right : DependentType) (context : string) : check_result :=
  match value_indices left, value_indices right with
  | _ :: left_cols :: _, right_rows :: _ :: _ =>
    checkDimensionsEqual left_cols right_rows (or_default context "matrix multiplication")
  | _, _ => failure "Matrix multiplication requires 2D matrices"
  end.

Definition checkDotProductDimensions (left right : DependentType) (context : string) : check_result :=
  match value_indices left, value_indices right with
  | left_dim :: _, right_dim :: _ => checkDimensionsEqual left_dim right_dim (or_default context "dot product")
  | _, _ => failure "Dot product requires vectors with known dimensions"
  end.
