(* ===== verification/DependentTheorems.v ===== *)
(** * The theorems of compile-time values and dependent types

    Folding of integer dimension expressions against a semantics over the integers,
    what a passed dimension check guarantees, and subtyping of indexed types. *)

From Stdlib Require Import String ZArith List Bool Lia.
From S2P Require Import Prelude Doubles OrderedMap Tagged TypeEnv TypeEnvSpec TypeEnvRuns TypeTheorems Dependent.
Import ListNotations.
Open Scope Z_scope.

(** ** What an integer expression means *)

(** An integer literal, and whether it is in the range of its type. *)
Definition literal (e : const_ast) : option (Z * bool) :=
  match e with
  | ESHKOL_INT64 v => Some (v, (INT64_MIN <=? v) && (v <=? INT64_MAX))
  | ESHKOL_INT32 v => Some (v, (- 2 ^ 31 <=? v) && (v <? 2 ^ 31))
  | ESHKOL_INT16 v => Some (v, (- 2 ^ 15 <=? v) && (v <? 2 ^ 15))
  | ESHKOL_INT8 v => Some (v, (- 2 ^ 7 <=? v) && (v <? 2 ^ 7))
  | ESHKOL_UINT64 v => Some (v, (0 <=? v) && (v <=? INT64_MAX))
  | ESHKOL_UINT32 v => Some (v, (0 <=? v) && (v <? 2 ^ 32))
  | ESHKOL_UINT16 v => Some (v, (0 <=? v) && (v <? 2 ^ 16))
  | ESHKOL_UINT8 v => Some (v, (0 <=? v) && (v <? 2 ^ 8))
  | _ => None
  end.

(** Only integer literals of their type's range (of int64's for uint64) and operations. *)
Inductive integer_expr : const_ast -> Prop :=
| ie_literal e v : literal e = Some (v, true) -> integer_expr e
| ie_op op es : Forall integer_expr es -> integer_expr (ESHKOL_OP op es)
| ie_other : integer_expr AST_OTHER.

(** The operations over the integers; division truncates. *)
Definition exact_step (op : const_op) (a b : Z) : option Z :=
  match op with
  | ESHKOL_ADD_OP => Some (a + b)
  | ESHKOL_SUB_OP => Some (a - b)
  | ESHKOL_MUL_OP => Some (a * b)
  | ESHKOL_DIV_OP => if b =? 0 then None else Some (Z.quot a b)
  | OTHER_OP => None
  end.

(** [means e z]: the value of [e]; an operation has two operands or more and associates
    to the left. *)
Inductive means : const_ast -> Z -> Prop :=
| means_literal e v r : literal e = Some (v, r) -> means e v
| means_op op first rest a z : rest <> [] -> means first a -> folds op a rest z -> means (ESHKOL_OP op (first :: rest)) z
with folds : const_op -> Z -> list const_ast -> Z -> Prop :=
| folds_nil op a : folds op a [] a
| folds_cons op a x rest b c z : means x b -> exact_step op a b = Some c -> folds op c rest z -> folds op a (x :: rest) z.

(** A nested induction over the operands. *)
Section AstInd.
  Variable P : const_ast -> Prop.
  Hypothesis Hop : forall op es, Forall P es -> P (ESHKOL_OP op es).
  Hypothesis Hleaf : forall e, (forall op es, e <> ESHKOL_OP op es) -> P e.

Lemma const_ast_ind' : forall e, P e.
Proof.
  fix IH 1. intros [v|v|v|v|v|v|v|v|bits|op es|]; try (apply Hleaf; intros; discriminate).
  apply Hop. induction es as [|x es IHes]; constructor; [apply IH|exact IHes].
Qed.

End AstInd.

Lemma integer_op op es : integer_expr (ESHKOL_OP op es) -> Forall integer_expr es.
Proof. intros H. inversion H; subst; [discriminate|assumption]. Qed.

Lemma integer_leaf e : integer_expr e -> (forall op es, e <> ESHKOL_OP op es) ->
  (exists v, literal e = Some (v, true)) \/ e = AST_OTHER.
Proof. intros H N. destruct H as [e v L|op es|]; [eauto|exfalso; eapply N; reflexivity|auto]. Qed.

Lemma signed_range z : (INT64_MIN <=? z) && (z <=? INT64_MAX) = true <-> int64_range z.
Proof. unfold int64_range. rewrite andb_true_iff, !Z.leb_le. tauto. Qed.

Lemma literal_eval e v : literal e = Some (v, true) -> evaluateConstExpr e = Some (makeInt v) /\ int64_range v.
Proof.
  destruct e; cbn [literal]; try discriminate; intros [= <- H]; cbn [evaluateConstExpr];
    apply andb_true_iff in H; rewrite ?Z.leb_le, ?Z.ltb_lt in H; unfold int64_range;
    try (split; [reflexivity|lia]).
  split; [|lia]. rewrite s64_small; [reflexivity|]. unfold int64_range. lia.
Qed.

(** One step of folding against one exact step. *)
Lemma const_step op f a b : const_fold op = Some f ->
  f (makeInt a) (makeInt b) =
  match exact_step op a b with
  | None => Some const_none
  | Some c => if (INT64_MIN <=? c) && (c <=? INT64_MAX) then Some (makeInt c) else None
  end.
Proof.
  destruct op; cbn [const_fold]; intros [= <-]; try reflexivity.
  unfold const_div, exact_step. cbn. destruct (b =? 0); reflexivity.
Qed.

(** What folding an expression may give. *)
Definition folded (e : const_ast) (r : option ConstValue) : Prop :=
  match r with
  | Some c => (exists z, c = makeInt z /\ means e z /\ int64_range z) \/ (c = const_none /\ forall z, ~ means e z)
  | None => exists op es z, means (ESHKOL_OP op es) z /\ ~ int64_range z
  end.

Definition folded_loop (op : const_op) (a : Z) (rest : list const_ast) (r : option ConstValue) : Prop :=
  match r with
  | Some c => (exists z, c = makeInt z /\ folds op a rest z /\ int64_range z) \/ (c = const_none /\ forall z, ~ folds op a rest z)
  | None => (exists op es z, means (ESHKOL_OP op es) z /\ ~ int64_range z) \/
      exists pre post z, rest = pre ++ post /\ pre <> [] /\ folds op a pre z /\ ~ int64_range z
  end.

Scheme means_mut := Induction for means Sort Prop
  with folds_mut := Induction for folds Sort Prop.

(** Meanings are unique. *)
Lemma means_unique e z : means e z -> forall z', means e z' -> z = z'.
Proof.
  intros H. revert H. apply (means_mut
    (fun e z _ => forall z', means e z' -> z = z') (fun op a rest z _ => forall z', folds op a rest z' -> z = z')); clear e z.
  - intros e v r L z' H. inversion H as [? ? ? L'|]; subst; [congruence|discriminate L].
  - intros op first rest a z N _ IH1 _ IH2 z' H. inversion H as [? ? ? L|? ? ? a' ? N' H1 H2]; subst; [discriminate L|].
    rewrite <- (IH1 a' H1) in H2. exact (IH2 z' H2).
  - intros op a z' H. inversion H. reflexivity.
  - intros op a x rest b c z _ IH1 E _ IH2 z' H. inversion H as [|? ? ? ? b' c' ? H1 E' H2]; subst.
    rewrite <- (IH1 b' H1) in E'. rewrite E in E'. injection E' as <-. exact (IH2 z' H2).
Qed.

Lemma loop_spec op f rest : const_fold op = Some f -> Forall integer_expr rest ->
  Forall (fun x => integer_expr x -> folded x (evaluateConstExpr x)) rest ->
  forall a, int64_range a -> folded_loop op a rest (operand_loop evaluateConstExpr f rest (makeInt a)).
Proof.
  intros Ef. induction rest as [|x rest IH]; intros Hi HF a Ha; inversion HF as [|? ? Hx HF']; subst; inversion Hi as [|? ? Ix Hi']; subst.
  - left. exists a. repeat split; try apply Ha. constructor.
  - cbn [operand_loop]. specialize (Hx Ix). destruct (evaluateConstExpr x) as [c|] eqn:Ec; cbn [folded] in Hx; [|left; exact Hx].
    destruct Hx as [(b & -> & Mb & Rb)|(-> & Nb)].
    + cbn [isValid makeInt ckind negb]. rewrite (const_step op f a b Ef).
      destruct (exact_step op a b) as [c|] eqn:Es.
      * destruct (_ && _) eqn:Rc.
        -- cbn [isValid makeInt ckind]. apply signed_range in Rc. specialize (IH Hi' HF' c Rc).
           destruct (operand_loop _ _ _ _) as [r|]; cbn [folded_loop] in *.
           ++ destruct IH as [(z & -> & Fz & Rz)|(-> & N)].
              ** left. exists z. split; [reflexivity|]. split; [econstructor; eassumption|exact Rz].
              ** right. split; [reflexivity|]. intros z Fz. inversion Fz as [|? ? ? ? b' c' ? M' E' F']; subst.
                 rewrite <- (means_unique x b Mb b' M'), Es in E'. injection E' as <-. exact (N z F').
           ++ destruct IH as [H|(pre & post & z & -> & Hne & Fz & Rz)]; [auto|]. right.
              exists (x :: pre), post, z. split; [reflexivity|]. split; [discriminate|].
              split; [econstructor; eassumption|exact Rz].
        -- right. exists [x], rest, c. split; [reflexivity|]. split; [discriminate|].
           split; [econstructor; [exact Mb|exact Es|constructor]|]. rewrite <- signed_range, Rc. discriminate.
      * right. split; [reflexivity|]. intros z Fz. inversion Fz as [|? ? ? ? b' c' ? M' E' F']; subst.
        rewrite <- (means_unique x b Mb b' M'), Es in E'. discriminate.
    + right. split; [reflexivity|]. intros z Fz. inversion Fz as [|? ? ? ? b' c' ? M' E' F']; subst. exact (Nb b' M').
Qed.

Lemma fold_spec e : integer_expr e -> folded e (evaluateConstExpr e).
Proof.
  induction e as [op es IH|e N] using const_ast_ind'; intros Hi.
  - apply integer_op in Hi. cbn [evaluateConstExpr].
    assert (Hbad : (exists f, const_fold op = Some f) /\ (2 <= length es)%nat \/ (forall z, ~ means (ESHKOL_OP op es) z) /\
      ((forall f, const_fold op <> Some f) \/ (length es < 2)%nat)).
    { destruct (const_fold op) as [f|] eqn:Ef.
      - destruct (Nat.le_gt_cases 2 (length es)); [left; eauto|]. right. split; [|auto]. intros z M.
        inversion M as [? ? ? L|? ? ? ? ? Nr]; subst; [discriminate L|]. destruct rest; [contradiction|cbn in *; lia].
      - right. split; [|left; congruence]. intros z M. destruct op; try discriminate.
        inversion M as [? ? ? L|? ? ? ? ? Nr _ F]; subst; [discriminate L|]. inversion F; subst; [contradiction|discriminate]. }
    destruct Hbad as [[[f Ef] Len]|[Nm Hb]].
    + rewrite Ef. destruct es as [|first [|x rest]]; cbn in Len; try lia.
      inversion IH as [|? ? I1 I2]; subst. inversion Hi as [|? ? H1 H2]; subst. specialize (I1 H1).
      destruct (evaluateConstExpr first) as [c|] eqn:Ec; cbn [folded] in I1; [|exact I1].
      destruct I1 as [(a & -> & Ma & Ra)|(-> & Na)].
      * cbn [isValid makeInt ckind]. pose proof (loop_spec op f (x :: rest) Ef H2 I2 a Ra) as L.
        destruct (operand_loop _ _ _ _) as [r|]; cbn [folded_loop folded] in *.
        -- destruct L as [(z & -> & Fz & Rz)|(-> & Nz)].
           ++ left. exists z. split; [reflexivity|]. split; [|exact Rz]. econstructor; [discriminate|exact Ma|exact Fz].
           ++ right. split; [reflexivity|]. intros z M. inversion M as [? ? ? L|? ? ? a' ? _ Ma' Fz]; subst; [discriminate L|].
              rewrite <- (means_unique first a Ma a' Ma') in Fz. exact (Nz z Fz).
        -- destruct L as [L|(pre & post & z & E & Hne & Fz & Rz)]; [exact L|].
           exists op, (first :: pre), z. split; [econstructor; [exact Hne|exact Ma|exact Fz]|exact Rz].
      * right. split; [reflexivity|]. intros z M. inversion M as [? ? ? L|? ? ? a' ? _ Ma' Fz]; subst; [discriminate L|].
        exact (Na a' Ma').
    + assert (E : match const_fold op, es with
        | Some f, first :: ((_ :: _) as rest) =>
          match evaluateConstExpr first with
          | None => None
          | Some result => if isValid result then operand_loop evaluateConstExpr f rest result else Some const_none
          end
        | _, _ => Some const_none end = Some const_none).
      { destruct (const_fold op) as [f|] eqn:Ef; [|reflexivity]. destruct Hb as [Hb|Hb]; [exfalso; exact (Hb f eq_refl)|].
        destruct es as [|? [|? ?]]; cbn in Hb; try reflexivity; lia. }
      rewrite E. right. auto.
  - destruct (integer_leaf e Hi N) as [[v L]| ->].
    + destruct (literal_eval e v L) as [-> R]. left. exists v. split; [reflexivity|]. split; [econstructor; exact L|exact R].
    + right. split; [reflexivity|]. intros z M. inversion M as [? ? ? L|]; subst. discriminate L.
Qed.

(** ** Constant folding and dimension checks *)

(** Constant folding is exact.  For an expression of integer literals and operations,
    folding gives the integer the expression means, within int64; or no value, when it
    means nothing (an operand is not constant, a divisor is zero, an operation has one
    operand); or its behaviour is undefined, and then some operation in it has a
    result that does not fit. *)
Theorem constant_folding_exact e :
  integer_expr e ->
  match evaluateConstExpr e with
  | Some c => (exists z, c = makeInt z /\ means e z /\ int64_range z) \/ (c = const_none /\ forall z, ~ means e z)
  | None => exists op es z, means (ESHKOL_OP op es) z /\ ~ int64_range z
  end /\ forall z z', means e z -> means e z' -> z = z'.
Proof. intros Hi. split; [exact (fold_spec e Hi)|]. intros z z' H H'. exact (means_unique e z H z' H'). Qed.

(** 3 * 4 - 7 / 2 - 1 *)
Definition sample_expr : const_ast :=
  ESHKOL_OP ESHKOL_SUB_OP [ESHKOL_OP ESHKOL_MUL_OP [ESHKOL_INT64 3; ESHKOL_UINT8 4];
    ESHKOL_OP ESHKOL_DIV_OP [ESHKOL_INT64 7; ESHKOL_INT32 2]; ESHKOL_INT64 1].

Lemma sample_integer : integer_expr sample_expr.
Proof.
  repeat (apply ie_op; repeat constructor); eapply ie_literal; reflexivity.
Qed.

Lemma constant_folding_exact_witness : evaluateConstExpr sample_expr = Some (makeInt 8) /\ means sample_expr 8.
Proof.
  assert (E : evaluateConstExpr sample_expr = Some (makeInt 8)) by reflexivity. split; [exact E|].
  assert (H : (exists z, makeInt 8 = makeInt z /\ means sample_expr z /\ int64_range z) \/
    (makeInt 8 = const_none /\ forall z, ~ means sample_expr z))
    by exact (proj1 (constant_folding_exact sample_expr sample_integer)).
  destruct H as [(z & Ez & M & _)|(N & _)]; [|discriminate N]. apply (f_equal c_int) in Ez. cbn in Ez. subst z. exact M.
Defined.

(** Compile-time values without doubles, what they mean, and overflow in them. *)
Definition ct_integer (v : CTValue) : Prop :=
  match v with CTNat n => 0 <= n < 2 ^ 64 | CTExpr (Some e) => integer_expr e | _ => True end.

Definition ct_value (v : CTValue) (z : Z) : Prop :=
  match v with CTNat n => z = n | CTExpr (Some e) => means e z | _ => False end.

Definition ct_overflow (v : CTValue) : Prop :=
  match v with
  | CTExpr (Some e) => evaluateConstExpr e = None /\ exists op es z, means (ESHKOL_OP op es) z /\ ~ int64_range z
  | _ => False
  end.

Lemma try_nat_spec v : ct_integer v ->
  match tryEvalNat v with
  | Some (Some n) => ct_value v n /\ 0 <= n
  | Some None => forall z, ct_value v z -> z < 0
  | None => ct_overflow v
  end.
Proof.
  destruct v as [n|b|[e|]|]; cbn [tryEvalNat ct_integer ct_value ct_overflow evaluate_ptr]; intros Hi.
  - split; [reflexivity|lia].
  - intros z [].
  - pose proof (fold_spec e Hi) as H. destruct (evaluateConstExpr e) as [c|] eqn:E; cbn [folded] in H; [|auto].
    destruct H as [(z & -> & M & R)|(-> & N)].
    + cbn. destruct (Z.geb_spec z 0).
      * unfold int64_range in R. rewrite u64_small by lia. auto.
      * intros z' M'. rewrite <- (means_unique e z M z' M'). lia.
    + cbn. intros z M. exfalso. exact (N z M).
  - cbn. intros z [].
  - intros z [].
Qed.

Lemma ct_value_unique v a b : ct_value v a -> ct_value v b -> a = b.
Proof.
  destruct v as [n|x|[e|]|]; cbn; try tauto; [congruence|]. intros H H'. exact (means_unique e a H b H').
Qed.

Lemma ct_equals_spec a b : ct_equals a b = CTrue <->
  (exists n, a = CTNat n /\ b = CTNat n) \/ (exists x, a = CTBool x /\ b = CTBool x).
Proof.
  destruct a as [m|x|e|], b as [n|y|e'|]; cbn; try (split; [discriminate|intros [(k & A & B)|(k & A & B)]; discriminate]).
  - unfold compare_of. destruct (Z.eqb_spec m n) as [->|D].
    + split; eauto.
    + split; [discriminate|]. intros [(k & A & B)|(k & A & B)]; [congruence|discriminate].
  - unfold compare_of. destruct x, y; cbn; split; try discriminate; eauto; intros [(k & A & B)|(k & A & B)]; congruence.
Qed.

Lemma equal_check_spec a b context : valid (checkDimensionsEqual a b context) = true <-> ct_equals a b = CTrue.
Proof. unfold checkDimensionsEqual. destruct (ct_equals a b); cbn; split; congruence. Qed.

(** The same known number, or the same known flag. *)
Definition same_known (a b : CTValue) : Prop := (exists n, a = CTNat n /\ b = CTNat n) \/ (exists x, a = CTBool x /\ b = CTBool x).

(** C35 A dimension check passes only when it is right.  The bounds check of an index and a
    bound that are numbers below 2^64, integer expressions, flags or unknown (no doubles)
    returns, unless an operation in an expression overflows, and passes exactly when both
    mean integers with 0 <= index < bound.  The equality check passes exactly when both
    sides are the same known number or the same known flag: an expression never equals
    anything, whatever it folds to.  A product of matrices or of vectors passes exactly when
    the inner dimensions are there and pass the equality check. *)
Theorem dimension_checks_sound idx bound context left right :
  (ct_integer idx -> ct_integer bound ->
  match checkBounds idx bound context with
  | Some r => valid r = true <-> exists i n, ct_value idx i /\ ct_value bound n /\ 0 <= i < n
  | None => ct_overflow idx \/ ct_overflow bound
  end) /\
  (valid (checkDimensionsEqual idx bound context) = true <-> same_known idx bound) /\
  (valid (checkMatMulDimensions left right context) = true <->
     exists m n n' p ls rs, value_indices left = m :: n :: ls /\ value_indices right = n' :: p :: rs /\ same_known n n') /\
  (valid (checkDotProductDimensions left right context) = true <->
     exists n n' ls rs, value_indices left = n :: ls /\ value_indices right = n' :: rs /\ same_known n n').
Proof.
  unfold same_known. split; [intros Hi Hb|split; [|split]].
  - unfold checkBounds, both_nats. pose proof (try_nat_spec idx Hi) as Si. pose proof (try_nat_spec bound Hb) as Sb.
    destruct (tryEvalNat idx) as [[i|]|]; [| |auto]; (destruct (tryEvalNat bound) as [[n|]|]; [| |auto]); cbn.
    + destruct Si as [Vi Ri], Sb as [Vn Rn]. destruct (Z.geb_spec i n); cbn.
      * split; [discriminate|]. intros (i' & n' & Vi' & Vn' & R).
        rewrite <- (ct_value_unique _ _ _ Vi Vi'), <- (ct_value_unique _ _ _ Vn Vn') in R. lia.
      * split; [|reflexivity]. intros _. exists i, n. repeat split; auto; lia.
    + split; [discriminate|]. intros (i' & n' & _ & Vn & R). specialize (Sb n' Vn). lia.
    + split; [discriminate|]. intros (i' & n' & Vi & _ & R). specialize (Si i' Vi). lia.
    + split; [discriminate|]. intros (i' & n' & Vi & _ & R). specialize (Si i' Vi). lia.
  - rewrite equal_check_spec. apply ct_equals_spec.
  - unfold checkMatMulDimensions.
    destruct (value_indices left) as [|m [|n ls]]; [..|destruct (value_indices right) as [|n' [|p rs]]];
      try (cbn; split; [discriminate|intros (? & ? & ? & ? & ? & ? & A & B & _); discriminate]).
    rewrite equal_check_spec, ct_equals_spec. split; [intros H; exists m, n, n', p, ls, rs; auto|]. intros (? & ? & ? & ? & ? & ? & [= <- <- <-] & [= <- <- <-] & H). exact H.
  - unfold checkDotProductDimensions.
    destruct (value_indices left) as [|n ls]; [|destruct (value_indices right) as [|n' rs]];
      try (cbn; split; [discriminate|intros (? & ? & ? & ? & A & B & _); discriminate]).
    rewrite equal_check_spec, ct_equals_spec. split; [intros H; exists n, n', ls, rs; auto|]. intros (? & ? & ? & ? & [= <- <-] & [= <- <-] & H). exact H.
Qed.

Lemma dimension_checks_sound_witness :
  option_map valid (checkBounds (CTExpr (Some sample_expr)) (CTNat 9) EmptyString) = Some true /\
  exists i n, ct_value (CTExpr (Some sample_expr)) i /\ ct_value (CTNat 9) n /\ 0 <= i < n.
Proof.
  split; [reflexivity|].
  assert (H : valid success = true <-> exists i n, ct_value (CTExpr (Some sample_expr)) i /\ ct_value (CTNat 9) n /\ 0 <= i < n)
    by exact (proj1 (dimension_checks_sound (CTExpr (Some sample_expr)) (CTNat 9) EmptyString
      (mkDependent BuiltinTypes.Tensor [] []) (mkDependent BuiltinTypes.Tensor [] [])) sample_integer ltac:(cbn; lia)).
  apply H. reflexivity.
Defined.

(** ** Subtyping of dependent types *)

Record dep_below (e : TypeEnvironment) (a b : DependentType) : Prop := {
  db_base : below e (tid (dep_base a)) (tid (dep_base b));
  db_types : Forall2 (fun t u => below e (tid t) (tid u)) (type_indices a) (type_indices b);
  db_values : Forall2 (fun v w => ct_equals v w = CTrue) (value_indices a) (value_indices b)
}.

Definition dep_known (e : TypeEnvironment) (a : DependentType) : Prop :=
  known e (tid (dep_base a)) /\ Forall (fun t => known e (tid t)) (type_indices a).

Lemma all_pairs_Forall2 {A} (f : A -> A -> bool) l1 : forall l2,
  same_number l1 l2 && all_pairs f l1 l2 = true <-> Forall2 (fun a b => f a b = true) l1 l2.
Proof.
  unfold same_number. induction l1 as [|a l1 IH]; intros [|b l2]; cbn.
  - split; [constructor|reflexivity].
  - split; [discriminate|intros H; inversion H].
  - split; [discriminate|intros H; inversion H].
  - specialize (IH l2). rewrite !andb_true_iff in *. split.
    + intros (L & F & P). constructor; [exact F|]. apply IH. auto.
    + intros H. inversion H; subst. destruct (proj2 IH ltac:(assumption)). auto.
Qed.

Lemma same_values_spec v w : same_values v w = true <-> Forall2 (fun a b => ct_equals a b = CTrue) v w.
Proof.
  unfold same_values. rewrite all_pairs_Forall2. split; intros H; (eapply Forall2_impl; [|exact H]); intros a b;
    cbn; destruct (ct_equals a b); cbn; congruence.
Qed.

Lemma indices_answer e fuel ts : (type_fuel <= fuel)%nat -> Forall (fun t => known e (tid t)) ts -> env_ok e ->
  forall us, length ts = length us ->
  exists r, (r = true <-> Forall2 (fun t u => below e (tid t) (tid u)) ts us) /\ answers e (indices_below fuel ts us) r.
Proof.
  intros Hf Hk W. induction Hk as [|t ts Kt Hk IH]; intros [|u us] L; cbn in L; try discriminate.
  - exists true. split; [split; [constructor|reflexivity]|]. apply answers_pure.
  - destruct (IH us ltac:(congruence)) as (r & Hr & A). destruct (below_dec e (tid t) (tid u) W Kt) as [x Hx].
    exists (x && r). split.
    + rewrite andb_true_iff, Hx, Hr. split; [intros []; constructor; assumption|]. intros H. inversion H; auto.
    + cbn [indices_below]. apply answers_and; [|exact A]. destruct (type_eqb t u) eqn:E.
      * apply type_eqb_eq in E. assert (x = true) as -> by (apply Hx; rewrite E; constructor). apply answers_pure.
      * apply answers_subtype; assumption.
Qed.

Lemma Forall2_trans {A} (R : A -> A -> Prop) : (forall a b c, R a b -> R b c -> R a c) ->
  forall l1 l2 l3, Forall2 R l1 l2 -> Forall2 R l2 l3 -> Forall2 R l1 l3.
Proof.
  intros T l1 l2 l3 H. revert l3. induction H as [|a b l1 l2 Hab _ IH]; intros l3 H3; inversion H3; subst; constructor; eauto.
Qed.

(** Subtyping of dependent types.  For types over known types of a reachable
    environment the check returns and says yes exactly when the base types are in
    order, as many type indices are pairwise in order, and as many value indices are
    the same known values; the relation is transitive, equal types are below each
    other, and a type is below itself exactly when all its value indices are known
    numbers or flags. *)
Theorem dependent_subtyping e fuel a b :
  reachable e -> dep_known e a -> dep_known e b -> (type_fuel <= fuel)%nat ->
  (exists r e', isSubtypeOf fuel a b e = Some (r, e') /\ same_graph e e' /\ (r = true <-> dep_below e a b)) /\
  (forall c, dep_below e a b -> dep_below e b c -> dep_below e a c) /\
  (dep_equals a b = true -> dep_below e a b /\ dep_below e b a) /\
  (dep_below e a a <-> Forall (fun v => (exists n, v = CTNat n) \/ exists x, v = CTBool x) (value_indices a)).
Proof.
  intros R [Ka Kta] [Kb Ktb] Hf. pose proof (reachable_ok e R) as W. split; [|split; [|split]].
  - destruct (below_dec e _ (tid (dep_base b)) W Ka) as [x Hx].
    assert (A : exists r, answers e (isSubtypeOf fuel a b) r /\ (r = true <-> dep_below e a b)).
    { destruct (same_number (type_indices a) (type_indices b)) eqn:N.
      - apply Nat.eqb_eq in N. destruct (indices_answer e fuel _ Hf Kta W _ N) as (y & Hy & A).
        exists (x && (true && (y && same_values (value_indices a) (value_indices b)))). split.
        + unfold isSubtypeOf. apply answers_and; [apply answers_subtype; assumption|].
          apply answers_and; [unfold same_number; rewrite N, Nat.eqb_refl; apply answers_pure|].
          apply answers_and; [exact A|apply answers_pure].
        + rewrite !andb_true_iff, Hx, Hy, same_values_spec. split; [intros (A1 & _ & A2 & A3); constructor; assumption|].
          intros []. auto.
      - exists (x && false). split.
        + unfold isSubtypeOf. apply answers_and; [apply answers_subtype; assumption|]. rewrite N.
          intros e' W' S'. apply runs_bind with (Q := fun r => r = false); [apply runs_ret; auto|].
          intros r e2 -> W2 S2. apply runs_ret; auto.
        + rewrite andb_false_r. split; [discriminate|]. intros [_ H _]. apply Forall2_length in H.
          unfold same_number in N. rewrite H, Nat.eqb_refl in N. discriminate. }
    destruct A as (r & A & Hr). destruct (A e W (same_graph_refl e)) as (r' & e' & E & -> & _ & S).
    exists r, e'. auto.
  - intros c [A1 A2 A3] [B1 B2 B3]. constructor.
    + eapply below_trans; eassumption.
    + eapply Forall2_trans; [|exact A2|exact B2]. intros x y z. apply below_trans.
    + eapply Forall2_trans; [|exact A3|exact B3]. intros x y z. rewrite !ct_equals_spec.
      intros [(n & -> & ->)|(n & -> & ->)] [(m & E & ->)|(m & E & ->)]; try discriminate; injection E as <-; eauto.
  - unfold dep_equals. rewrite !andb_true_iff, type_eqb_eq. intros [[[E1 E2] E3] E4].
    apply same_values_spec in E4. pose proof (proj1 (all_pairs_Forall2 type_eqb _ _) (proj2 (andb_true_iff _ _) (conj E2 E3))) as H.
    split; constructor.
    + rewrite E1. constructor.
    + eapply Forall2_impl; [|exact H]. intros x y Hxy. apply type_eqb_eq in Hxy. rewrite Hxy. constructor.
    + exact E4.
    + rewrite E1. constructor.
    + apply Forall2_flip. eapply Forall2_impl; [|exact H]. intros x y Hxy. apply type_eqb_eq in Hxy. rewrite Hxy. constructor.
    + apply Forall2_flip. eapply Forall2_impl; [|exact E4]. intros x y Hxy. rewrite ct_equals_spec in Hxy |- *.
      destruct Hxy as [(n & -> & ->)|(n & -> & ->)]; eauto.
  - split.
    + intros [_ _ H]. induction (value_indices a) as [|v vs IH]; constructor; inversion H; subst; auto.
      apply ct_equals_spec in H3. destruct H3 as [(n & E & _)|(n & E & _)]; eauto.
    + intros H. constructor; [constructor| |].
      * induction (type_indices a); constructor; auto. constructor. inversion Kta; auto.
      * induction H as [|v vs Hv _ IH]; constructor; [|exact IH]. apply ct_equals_spec.
        destruct Hv as [[n ->]|[n ->]]; eauto.
Qed.

Definition vec3 (t : TypeId) : DependentType := mkDependent BuiltinTypes.Vector [t] [CTNat 3].

Lemma vec3_known t : known new_env (tid t) -> dep_known new_env (vec3 t).
Proof. intros K. split; [apply builtin_known; vm_compute; reflexivity|]. constructor; [exact K|constructor]. Qed.

Lemma dependent_subtyping_witness :
  exists r e', isSubtypeOf type_fuel (vec3 BuiltinTypes.Int64) (vec3 BuiltinTypes.Number) new_env = Some (r, e') /\ r = true.
Proof.
  assert (K13 : known new_env 13) by (apply builtin_known; vm_compute; reflexivity).
  assert (K11 : known new_env 11) by (apply builtin_known; vm_compute; reflexivity).
  destruct (proj1 (dependent_subtyping new_env type_fuel (vec3 BuiltinTypes.Int64) (vec3 BuiltinTypes.Number) new_reachable
    (vec3_known BuiltinTypes.Int64 K13) (vec3_known BuiltinTypes.Number K11) (le_n _))) as (r & e' & E & _ & Hr).
  exists r, e'. split; [exact E|]. apply Hr. constructor.
  - constructor.
  - constructor; [|constructor]. apply (int64_chain new_env new_reachable). cbn. auto.
  - repeat constructor.
Defined.

(** Overflow in a dimension is undefined behaviour, and so is the quotient of the least
    integer by -1, which traps on common processors; and an expression is never the
    same dimension as the number it evaluates to. *)
Theorem folding_edge_cases :
  evaluateConstExpr (ESHKOL_OP ESHKOL_ADD_OP [ESHKOL_INT64 INT64_MAX; ESHKOL_INT64 1]) = None /\
  evaluateConstExpr (ESHKOL_OP ESHKOL_DIV_OP [ESHKOL_INT64 INT64_MIN; ESHKOL_INT64 (-1)]) = None /\
  ct_equals (CTExpr (Some (ESHKOL_INT64 3))) (CTNat 3) = CUnknown /\
  ct_equals (CTExpr (Some (ESHKOL_INT64 3))) (CTExpr (Some (ESHKOL_INT64 3))) = CUnknown.
Proof. repeat split. Qed.
