(* ===== verification/Annotations.v ===== *)
(** * Type annotations: lib/core/ast.cpp, lib/types/type_checker.cpp

    Type expressions as the parser builds them, their copies and printed form, type
    aliases with parameters, and the resolution of an annotation to a type.  Type
    expressions come from the global arena, which is taken to have room; [TNone] is
    the null pointer. *)

From Stdlib Require Import String Ascii ZArith List Bool Lia.
From S2P Require Import Prelude OrderedMap TypeEnv TypeEnvSpec TypeEnvRuns Dependent.
Import ListNotations.
Open Scope Z_scope.

(** ** Type expressions *)

Inductive prim_kind : Type :=
| HOTT_TYPE_INVALID | HOTT_TYPE_INTEGER | HOTT_TYPE_REAL | HOTT_TYPE_NUMBER | HOTT_TYPE_BOOLEAN | HOTT_TYPE_STRING | HOTT_TYPE_CHAR
| HOTT_TYPE_SYMBOL | HOTT_TYPE_NULL | HOTT_TYPE_ANY | HOTT_TYPE_NOTHING | HOTT_TYPE_DEPENDENT | HOTT_TYPE_PATH.

Inductive container_kind : Type := HOTT_TYPE_LIST | HOTT_TYPE_VECTOR | HOTT_TYPE_TENSOR | HOTT_TYPE_POINTER.
Inductive pair_kind : Type := HOTT_TYPE_PAIR | HOTT_TYPE_PRODUCT | HOTT_TYPE_SUM.

(** [hott_type_expr_t*]. *)
Inductive type_expr : Type :=
| TNone
| TPrim (k : prim_kind)
| TName (name : option string)
| TArrow (param_types : list type_expr) (result : type_expr)
| TForall (type_vars : list string) (body : type_expr)
| TContainer (k : container_kind) (element : type_expr)
| TPair (k : pair_kind) (left right : type_expr)
| TUniverse (lvl : Z).

(** The constructors copy their arguments deeply. *)
Fixpoint hott_copy_type_expr (t : type_expr) : type_expr :=
  match t with
  | TArrow ps r => TArrow (map hott_copy_type_expr ps) (hott_copy_type_expr r)
  | TForall vs b => TForall vs (hott_copy_type_expr b)
  | TContainer k x => TContainer k (hott_copy_type_expr x)
  | TPair k l r => TPair k (hott_copy_type_expr l) (hott_copy_type_expr r)
  | t => t
  end.

Definition hott_make_type_var (name : string) : type_expr := TName (Some name).
Definition hott_make_arrow_type (ps : list type_expr) (r : type_expr) : type_expr :=
  TArrow (map hott_copy_type_expr ps) (hott_copy_type_expr r).
Definition hott_make_forall_type (vs : list string) (b : type_expr) : type_expr := TForall vs (hott_copy_type_expr b).
Definition hott_make_list_type (t : type_expr) := TContainer HOTT_TYPE_LIST (hott_copy_type_expr t).
Definition hott_make_vector_type (t : type_expr) := TContainer HOTT_TYPE_VECTOR (hott_copy_type_expr t).
Definition hott_make_tensor_type (t : type_expr) := TContainer HOTT_TYPE_TENSOR (hott_copy_type_expr t).
Definition hott_make_pointer_type (t : type_expr) := TContainer HOTT_TYPE_POINTER (hott_copy_type_expr t).
Definition hott_make_pair_type (l r : type_expr) := TPair HOTT_TYPE_PAIR (hott_copy_type_expr l) (hott_copy_type_expr r).
Definition hott_make_product_type (l r : type_expr) := TPair HOTT_TYPE_PRODUCT (hott_copy_type_expr l) (hott_copy_type_expr r).
Definition hott_make_sum_type (l r : type_expr) := TPair HOTT_TYPE_SUM (hott_copy_type_expr l) (hott_copy_type_expr r).

(** ** Printing *)

(** The 1024-byte buffer: its text, and whether [off] has reached the capacity. *)
Definition text_buffer : Type := string * bool.
Definition buffer_size : nat := 1024.

(** [BUF_APPEND]: a text that does not fit is cut and ends in dots, and later appends do
    nothing. *)
Definition buf_append (b : text_buffer) (text : string) : text_buffer :=
  if snd b then b
  else
    let whole := (fst b ++ text)%string in
    if (String.length whole <? buffer_size)%nat then (whole, false)
    else ((String.substring 0 (buffer_size - 4) whole ++ "...")%string, true).

Definition buf_appends (b : text_buffer) (texts : list string) : text_buffer := fold_left buf_append texts b.

Definition render (texts : list string) : string := fst (buf_appends (EmptyString, false) texts).

Definition prim_name (k : prim_kind) : string :=
  match k with
  | HOTT_TYPE_INVALID => "invalid" | HOTT_TYPE_INTEGER => "integer" | HOTT_TYPE_REAL => "real" | HOTT_TYPE_NUMBER => "unknown"
  | HOTT_TYPE_BOOLEAN => "boolean" | HOTT_TYPE_STRING => "string" | HOTT_TYPE_CHAR => "char"
  | HOTT_TYPE_SYMBOL => "symbol" | HOTT_TYPE_NULL => "null" | HOTT_TYPE_ANY => "any" | HOTT_TYPE_NOTHING => "nothing"
  | HOTT_TYPE_DEPENDENT => "(Pi ...)" | HOTT_TYPE_PATH => "(Path ...)"
  end.

Definition container_name (k : container_kind) : string :=
  match k with
  | HOTT_TYPE_LIST => "(list " | HOTT_TYPE_VECTOR => "(vector " | HOTT_TYPE_TENSOR => "(tensor " | HOTT_TYPE_POINTER => "(ptr "
  end.

(** Strings that open and close comments here are split. *)
Definition pair_name (k : pair_kind) : string :=
  match k with HOTT_TYPE_PAIR => "(pair " | HOTT_TYPE_PRODUCT => "(" ++ "* " | HOTT_TYPE_SUM => "(+ " end.

(** The names of the quantified variables, separated by spaces. *)
Fixpoint spaced (vs : list string) : list string :=
  match vs with
  | [] => []
  | [v] => [v]
  | v :: vs' => v :: " "%string :: spaced vs'
  end.

Fixpoint hott_type_to_string (t : type_expr) : string :=
  match t with
  | TNone => "null"
  | TPrim k => prim_name k
  | TName (Some n) => n
  | TName None => "?"
  | TArrow ps r => render ("(-> " :: map (fun p => hott_type_to_string p ++ " ") ps ++ [hott_type_to_string r ++ ")"])
  | TForall vs b => render ("(forall (" :: spaced vs ++ [") "; hott_type_to_string b ++ ")"])
  | TContainer k x => render [container_name k; hott_type_to_string x ++ ")"]
  | TPair k l r => render [pair_name k; hott_type_to_string l ++ " " ++ hott_type_to_string r ++ ")"]
  | TUniverse lvl => "Type" ++ decimal lvl
  end%string.

(** ** Aliases *)

(** The part of [Context] about type aliases. *)
Record alias_table : Type := mkAliases {
  type_aliases_ : omap string type_expr;
  type_alias_params_ : omap string (list string)
}.

Definition no_aliases : alias_table := mkAliases [] [].

Definition defineTypeAlias (name : string) (t : type_expr) (ps : list string) (c : alias_table) : alias_table :=
  mkAliases (insert name t (type_aliases_ c))
    (match ps with [] => type_alias_params_ c | _ => insert name ps (type_alias_params_ c) end).

Definition hasTypeAliasParams (name : string) (c : alias_table) : bool := mem name (type_alias_params_ c).

Definition getTypeAliasParams (name : string) (c : alias_table) : list string :=
  match find name (type_alias_params_ c) with Some ps => ps | None => [] end.

Definition lookupTypeAlias (name : string) (c : alias_table) : option type_expr := find name (type_aliases_ c).

Fixpoint substituteTypeVars (t : type_expr) (substitutions : omap string type_expr) : type_expr :=
  match t with
  | TNone => TNone
  | TName (Some n) =>
    match find n substitutions with
    | Some r => hott_copy_type_expr r
    | None => hott_copy_type_expr t
    end
  | TArrow ps r => TArrow (map (fun p => substituteTypeVars p substitutions) ps) (substituteTypeVars r substitutions)
  | TForall vs b =>
    TForall vs (substituteTypeVars b (fold_left (fun m v => erase v m) vs substitutions))
  | TContainer k x => TContainer k (substituteTypeVars x substitutions)
  | TPair k l r => TPair k (substituteTypeVars l substitutions) (substituteTypeVars r substitutions)
  | TName None | TPrim _ | TUniverse _ => t
  end.

(** The parameters are bound in order, the last of a repeated one counts. *)
Definition bind_params (ps : list string) (args : list type_expr) : omap string type_expr :=
  fold_left (fun m p => insert (fst p) (snd p) m) (combine ps args) [].

(** [TNone] when there is no such alias. *)
Definition instantiateTypeAlias (name : string) (args : list type_expr) (c : alias_table) : type_expr :=
  match find name (type_aliases_ c) with
  | None => TNone
  | Some t =>
    match find name (type_alias_params_ c) with
    | None => hott_copy_type_expr t
    | Some ps => substituteTypeVars t (bind_params ps args)
    end
  end.

(** ** Resolution *)

Definition prim_type (k : prim_kind) : TypeId :=
  match k with
  | HOTT_TYPE_INTEGER => BuiltinTypes.Int64
  | HOTT_TYPE_REAL => BuiltinTypes.Float64
  | HOTT_TYPE_STRING => BuiltinTypes.String
  | HOTT_TYPE_BOOLEAN => BuiltinTypes.Boolean
  | HOTT_TYPE_CHAR => BuiltinTypes.Char
  | HOTT_TYPE_NULL => BuiltinTypes.Null
  | HOTT_TYPE_SYMBOL => BuiltinTypes.Symbol
  | _ => BuiltinTypes.Value
  end.

Definition container_type (k : container_kind) : TypeId :=
  match k with
  | HOTT_TYPE_LIST => BuiltinTypes.List
  | HOTT_TYPE_VECTOR => BuiltinTypes.Vector
  | HOTT_TYPE_TENSOR => BuiltinTypes.Tensor
  | HOTT_TYPE_POINTER => BuiltinTypes.Pointer
  end.

(** The parameters of an arrow, in order. *)
Fixpoint e_map {A B} (f : A -> E B) (l : list A) : E (list B) :=
  match l with
  | [] => e_ret []
  | a :: l' => let* b := f a in let* bs := e_map f l' in e_ret (b :: bs)
  end.

Definition e_lift {A} (f : TypeEnvironment -> A * TypeEnvironment) : E A := fun e => Some (f e).

(** [None] when the recursion does not end within the fuel. *)
Fixpoint resolveType (fuel : nat) (c : alias_table) (t : type_expr) : E TypeId :=
  match fuel with
  | O => fun _ => None
  | S fuel' =>
    match t with
    | TNone | TUniverse _ => e_ret BuiltinTypes.Value
    | TPrim k => e_ret (prim_type k)
    | TName None => e_ret BuiltinTypes.Value
    | TName (Some n) =>
      match lookupTypeAlias n c with
      | Some a => resolveType fuel' c a
      | None => fun e => Some (match lookupType n e with Some b => b | None => BuiltinTypes.Value end, e)
      end
    | TArrow ps r =>
      let* ts := e_map (resolveType fuel' c) ps in
      let* rt := resolveType fuel' c r in
      e_lift (makeFunctionType ts rt false)
    | TContainer k _ => e_ret (container_type k)
    | TPair _ _ _ => e_ret BuiltinTypes.Pair
    | TForall _ b => resolveType fuel' c b
    end
  end.
