(* ===== verification/AnnotationTheorems.v ===== *)
(** * Type annotations: what resolution, substitution and printing do

    Resolution of names ends exactly when no alias leads back to itself; substitution
    means what binding the parameters means; printed types are exact up to the size
    of the buffer. *)

From Stdlib Require Import String Ascii ZArith List Bool Lia.
From S2P Require Import Prelude OrderedMap TypeEnv TypeEnvSpec TypeEnvRuns Dependent Annotations.
Import ListNotations.
Open Scope Z_scope.

(** ** Type expressions *)

Section Induction.
  Variable P : type_expr -> Prop.
  Hypothesis Pnone : P TNone.
  Hypothesis Pprim : forall k, P (TPrim k).
  Hypothesis Pname : forall n, P (TName n).
  Hypothesis Parrow : forall ps r, Forall P ps -> P r -> P (TArrow ps r).
  Hypothesis Pforall : forall vs b, P b -> P (TForall vs b).
  Hypothesis Pcontainer : forall k x, P x -> P (TContainer k x).
  Hypothesis Ppair : forall k l r, P l -> P r -> P (TPair k l r).
  Hypothesis Puniverse : forall lvl, P (TUniverse lvl).

(** Induction with the parameters of arrows. *)
Fixpoint type_expr_induction (t : type_expr) : P t :=
  match t with
  | TNone => Pnone
  | TPrim k => Pprim k
  | TName n => Pname n
  | TArrow ps r =>
    Parrow ps r
      ((fix go l : Forall P l :=
          match l with [] => Forall_nil P | x :: l' => @Forall_cons _ P x l' (type_expr_induction x) (go l') end) ps)
      (type_expr_induction r)
  | TForall vs b => Pforall vs b (type_expr_induction b)
  | TContainer k x => Pcontainer k x (type_expr_induction x)
  | TPair k l r => Ppair k l r (type_expr_induction l) (type_expr_induction r)
  | TUniverse lvl => Puniverse lvl
  end.
End Induction.

Lemma map_ext_Forall {A B} (f g : A -> B) l : Forall (fun x => f x = g x) l -> map f l = map g l.
Proof. induction 1; cbn; congruence. Qed.

Lemma copy_identity t : hott_copy_type_expr t = t.
Proof.
  induction t as [| | |ps r F IH| | | |] using type_expr_induction; cbn [hott_copy_type_expr]; try congruence.
  rewrite (map_ext_Forall _ (fun x => x) ps F), map_id. congruence.
Qed.

(** ** Termination of resolution *)

(** The names that resolution looks up. *)
Fixpoint mentions (t : type_expr) : list string :=
  match t with
  | TName (Some n) => [n]
  | TArrow ps r => flat_map mentions ps ++ mentions r
  | TForall _ b => mentions b
  | _ => []
  end.

Fixpoint depth (t : type_expr) : nat :=
  match t with
  | TArrow ps r => S (Nat.max (list_max (map depth ps)) (depth r))
  | TForall _ b => S (depth b)
  | _ => 1
  end.

(** Every alias that [t] mentions has a rank under [k]. *)
Definition ranked_under (c : alias_table) (rank : string -> nat) (k : nat) (t : type_expr) : Prop :=
  forall m a, In m (mentions t) -> lookupTypeAlias m c = Some a -> (rank m < k)%nat.

(** The aliases an alias mentions have a smaller rank, and bodies are at most [d] deep. *)
Definition ranked (c : alias_table) (rank : string -> nat) (d : nat) : Prop :=
  forall n a, lookupTypeAlias n c = Some a -> ranked_under c rank (rank n) a /\ (depth a <= d)%nat.

(** A set of aliases each of which leads to another. *)
Definition circular (c : alias_table) (loop : string -> Prop) : Prop :=
  forall n, loop n -> exists a m, lookupTypeAlias n c = Some a /\ In m (mentions a) /\ loop m.

Definition settles (fuel : nat) (c : alias_table) (t : type_expr) (e : TypeEnvironment) (out : TypeId * TypeEnvironment) : Prop :=
  forall fuel', (fuel <= fuel')%nat -> resolveType fuel' c t e = Some out.

Lemma e_map_settles {A B} (f : nat -> A -> E B) (l : list A) fuel :
  (forall a, In a l -> forall e, exists out, forall fuel', (fuel <= fuel')%nat -> f fuel' a e = Some out) ->
  forall e, exists out, forall fuel', (fuel <= fuel')%nat -> e_map (f fuel') l e = Some out.
Proof.
  induction l as [|a l IH]; intros H e; [exists ([], e); reflexivity|].
  destruct (H a (or_introl eq_refl) e) as [[b e1] H1].
  destruct (IH (fun x Hx => H x (or_intror Hx)) e1) as [[bs e2] H2].
  exists (b :: bs, e2). intros fuel' Hf. cbn. unfold e_bind. rewrite (H1 _ Hf), (H2 _ Hf). reflexivity.
Qed.

Lemma list_max_In l x : In x l -> (x <= list_max l)%nat.
Proof. intros I. exact (proj1 (Forall_forall _ _) (proj1 (list_max_le l (list_max l)) (le_n _)) x I). Qed.

Lemma resolution_settles c rank d : ranked c rank d -> forall k t, ranked_under c rank k t ->
  forall e, exists out, settles (depth t + k * d) c t e out.
Proof.
  intros R k. induction k as [k IHk] using lt_wf_ind.
  intros t. induction t as [|p|n|ps r F IHr|vs b IHb|p x _|p x y _ _|lvl] using type_expr_induction; intros U e;
    cbn [depth].
  - exists (BuiltinTypes.Value, e). intros [|f] Hf; [lia|reflexivity].
  - exists (prim_type p, e). intros [|f] Hf; [lia|reflexivity].
  - destruct n as [n|]; [|exists (BuiltinTypes.Value, e); intros [|f] Hf; [lia|reflexivity]].
    destruct (lookupTypeAlias n c) as [a|] eqn:L.
    + pose proof (U n a (or_introl eq_refl) L) as Hk. destruct (R n a L) as [Ra Da].
      destruct (IHk (rank n) Hk a Ra e) as [out Ho]. exists out. intros [|f] Hf; [lia|].
      cbn [resolveType]. rewrite L. apply Ho. nia.
    + eexists. intros [|f] Hf; [lia|]. cbn [resolveType]. rewrite L. reflexivity.
  - assert (Hps : forall p, In p ps -> (depth p <= list_max (map depth ps))%nat).
    { intros p I. apply list_max_In. apply in_map. exact I. }
    set (w := Nat.max (list_max (map depth ps)) (depth r)).
    destruct (e_map_settles (fun f => resolveType f c) ps (w + k * d)) with (e := e) as [[ts e1] H1].
    { intros p I e'. pose proof (proj1 (Forall_forall _ _) F p I) as Hp. cbn beta in Hp.
      destruct (Hp) with (e := e') as [out Ho].
      - intros m a Im. apply U. cbn. apply in_or_app. left. apply in_flat_map. eauto.
      - exists out. intros f Hf. apply Ho. specialize (Hps p I). lia. }
    destruct IHr with (e := e1) as [[rt e2] H2].
    { intros m a Im. apply U. cbn. apply in_or_app. auto. }
    exists (makeFunctionType ts rt false e2). intros [|f] Hf; [lia|]. cbn [resolveType]. unfold e_bind, e_lift.
    rewrite (H1 f) by lia. rewrite (H2 f) by lia. reflexivity.
  - destruct (IHb U e) as [out Ho]. exists out. intros [|f] Hf; [lia|]. apply Ho. lia.
  - exists (container_type p, e). intros [|f] Hf; [lia|reflexivity].
  - exists (BuiltinTypes.Pair, e). intros [|f] Hf; [lia|reflexivity].
  - exists (BuiltinTypes.Value, e). intros [|f] Hf; [lia|reflexivity].
Qed.

Lemma e_map_stuck {A B} (f : A -> E B) l a : In a l -> (forall e, f a e = None) -> forall e, e_map f l e = None.
Proof.
  intros I H. induction l as [|x l IH]; [destruct I|]. intros e. cbn. unfold e_bind.
  destruct I as [->|I]; [rewrite H; reflexivity|]. destruct (f x e) as [[b e']|]; [|reflexivity]. rewrite IH by exact I.
  reflexivity.
Qed.

Lemma resolution_stuck c loop : circular c loop -> forall fuel t n, In n (mentions t) -> loop n ->
  forall e, resolveType fuel c t e = None.
Proof.
  intros C fuel. induction fuel as [|fuel IH]; [reflexivity|]. intros t n I L e.
  destruct t as [| |[m|]|ps r|vs b| | |]; cbn [mentions] in I; try destruct I as [<-|[]]; try destruct I; cbn [resolveType].
  - destruct (C m L) as (a & n' & La & In' & L'). rewrite La. exact (IH a n' In' L' e).
  - unfold e_bind. apply in_app_or in I. destruct I as [I|I].
    + apply in_flat_map in I. destruct I as (p & Ip & I). rewrite (e_map_stuck _ _ p Ip); [reflexivity|]. exact (IH p n I L).
    + destruct (e_map _ _ e) as [[ts e']|]; [|reflexivity]. rewrite (IH r n I L). reflexivity.
  - exact (IH b n I L e).
Qed.

(** C26 Resolving an annotation ends, with the same result for every larger fuel, when the
    aliases can be ranked so that each mentions only smaller ones, within its depth plus
    the depth of an alias for each rank; and when an annotation reaches a circle of
    aliases, as after (define-type A A), it never ends, whatever the fuel. *)
Theorem alias_resolution_terminates c t :
  (forall rank d k e, ranked c rank d -> ranked_under c rank k t ->
     exists out, settles (depth t + k * d) c t e out) /\
  (forall loop n fuel e, circular c loop -> In n (mentions t) -> loop n -> resolveType fuel c t e = None).
Proof.
  split.
  - intros rank d k e R U. exact (resolution_settles c rank d R k t U e).
  - intros loop n fuel e C I L. exact (resolution_stuck c loop C fuel t n I L e).
Qed.

Definition sample_aliases : alias_table :=
  defineTypeAlias "Count" (TPrim HOTT_TYPE_INTEGER) []
    (defineTypeAlias "Step" (TArrow [TName (Some "Count"); TName (Some "string")] (TName (Some "Count"))) [] no_aliases)%string.

Definition sample_rank (n : string) : nat := if String.eqb n "Step" then 1 else 0.

Definition self_alias : alias_table := defineTypeAlias "A" (hott_make_type_var "A") [] no_aliases.

Lemma alias_resolution_terminates_witness :
  (exists out, settles 5 sample_aliases (TName (Some "Step"%string)) new_env out) /\
  (forall fuel, resolveType fuel self_alias (TArrow [] (TName (Some "A"%string))) new_env = None).
Proof.
  split.
  - apply (proj1 (alias_resolution_terminates sample_aliases (TName (Some "Step"%string))) sample_rank 2%nat 2%nat new_env).
    + intros n a L. apply find_In in L. vm_compute in L. destruct L as [E|[E|[]]]; injection E as <- <-; (split; [|cbn; lia]).
      * intros m b [].
      * intros m b I L'. cbn in I. destruct I as [<-|[<-|[<-|[]]]]; vm_compute; auto; vm_compute in L'; discriminate L'.
    + intros m b I _. unfold sample_rank. destruct (String.eqb m "Step"); lia.
  - intros fuel. apply (proj2 (alias_resolution_terminates self_alias (TArrow [] (TName (Some "A"%string)))) (fun n => n = "A"%string) "A"%string).
    + intros n ->. exists (TName (Some "A"%string)), "A"%string. repeat split; left; reflexivity.
    + left. reflexivity.
    + reflexivity.
Defined.

(** ** Substitution *)

(** The map without the names [vs]. *)
Definition without (vs : list string) (m : omap string type_expr) : omap string type_expr :=
  fold_left (fun m v => erase v m) vs m.

Lemma find_without vs : forall m x, find x (without vs m) = if in_dec string_dec x vs then None else find x m.
Proof.
  induction vs as [|v vs IH]; intros m x; [reflexivity|]. unfold without in *. cbn [fold_left]. rewrite IH, find_erase.
  assert (Hc : (kcmp x v = Eq <-> x = v)) by (split; [apply kcmp_eq|intros ->; apply kcmp_refl]).
  destruct (in_dec string_dec x vs) as [I|O], (in_dec string_dec x (v :: vs)) as [I'|O']; cbn in *; try tauto.
  - destruct I' as [->|I']; [|contradiction]. rewrite kcmp_refl. reflexivity.
  - destruct (kcmp x v); try reflexivity. destruct O'. left. symmetry. apply Hc. reflexivity.
Qed.

Fixpoint free_in (x : string) (t : type_expr) : Prop :=
  match t with
  | TName (Some n) => x = n
  | TArrow ps r => (exists p, In p (map (free_in x) ps) /\ p) \/ free_in x r
  | TForall vs b => ~ In x vs /\ free_in x b
  | TContainer _ y => free_in x y
  | TPair _ l r => free_in x l \/ free_in x r
  | _ => False
  end.

(** No image that substitution puts under a quantifier mentions its variables. *)
Fixpoint no_capture (m : omap string type_expr) (t : type_expr) : Prop :=
  match t with
  | TArrow ps r => Forall (fun P : Prop => P) (map (no_capture m) ps) /\ no_capture m r
  | TForall vs b =>
    no_capture (without vs m) b /\
    forall x r, free_in x b -> find x (without vs m) = Some r -> forall v, In v vs -> ~ free_in v r
  | TContainer _ y => no_capture m y
  | TPair _ l r => no_capture m l /\ no_capture m r
  | _ => True
  end.

(** What a type expression means, in any reading of its constructors: [all_ n f] is the
    meaning of a quantifier over [n] variables, [f] that of its body for their values. *)
Section Meaning.
  Context {D : Type} (default : D) (prim : prim_kind -> D) (arrow : list D -> D -> D) (all_ : nat -> (list D -> D) -> D).
  Context (container : container_kind -> D -> D) (pair_ : pair_kind -> D -> D -> D) (universe : Z -> D).

Fixpoint bind_values (vs : list string) (ds : list D) (rho : string -> D) : string -> D :=
  match vs with
  | [] => rho
  | v :: vs' => bind_values vs' (tl ds) (fun x => if string_dec x v then hd default ds else rho x)
  end.

Fixpoint meaning (t : type_expr) (rho : string -> D) : D :=
  match t with
  | TNone | TName None => default
  | TPrim k => prim k
  | TName (Some n) => rho n
  | TArrow ps r => arrow (map (fun p => meaning p rho) ps) (meaning r rho)
  | TForall vs b => all_ (length vs) (fun ds => meaning b (bind_values vs ds rho))
  | TContainer k x => container k (meaning x rho)
  | TPair k l r => pair_ k (meaning l rho) (meaning r rho)
  | TUniverse lvl => universe lvl
  end.

(** The values of the parameters, the last of a repeated one. *)
Definition bind_arguments (ps : list string) (ds : list D) (rho : string -> D) : string -> D :=
  fold_left (fun f p x => if string_dec x (fst p) then snd p else f x) (combine ps ds) rho.

Definition image (m : omap string type_expr) (rho : string -> D) (x : string) : D :=
  match find x m with Some r => meaning r rho | None => rho x end.

  Hypothesis all_pointwise : forall n f g, (forall ds, f ds = g ds) -> all_ n f = all_ n g.

Lemma bind_values_ext x vs : forall ds rho rho', (~ In x vs -> rho x = rho' x) -> bind_values vs ds rho x = bind_values vs ds rho' x.
Proof.
  induction vs as [|v vs IH]; intros ds rho rho' H; [apply H; intros []|]. apply IH. intros N.
  destruct (string_dec x v) as [->|D']; [reflexivity|]. apply H. cbn. intuition.
Qed.

Lemma bind_values_other x vs : ~ In x vs -> forall ds rho, bind_values vs ds rho x = rho x.
Proof.
  induction vs as [|v vs IH]; intros N ds rho; [reflexivity|]. cbn in N. cbn [bind_values]. rewrite IH by tauto.
  destruct (string_dec x v) as [->|]; [tauto|reflexivity].
Qed.

Lemma meaning_free t : forall rho rho', (forall x, free_in x t -> rho x = rho' x) -> meaning t rho = meaning t rho'.
Proof.
  induction t as [|p|[n|]|ps r F IHr|vs b IHb|k x IHx|k l r IHl IHr|lvl] using type_expr_induction; intros rho rho' H;
    cbn [meaning]; try reflexivity.
  - apply H. reflexivity.
  - f_equal; [|apply IHr; intros x Fx; apply H; right; exact Fx].
    assert (H' : forall p, In p ps -> forall x, free_in x p -> rho x = rho' x).
    { intros p I x Fx. apply H. left. exists (free_in x p). split; [apply in_map; exact I|exact Fx]. }
    clear H. induction F as [|p ps Fp F IH]; [reflexivity|]. cbn. f_equal.
    + apply Fp, H'. left. reflexivity.
    + apply IH. intros q Iq. apply H'. right. exact Iq.
  - apply all_pointwise. intros ds. apply IHb. intros x Fx. apply bind_values_ext. intros N. apply H. split; assumption.
  - f_equal. apply IHx, H.
  - f_equal; [apply IHl|apply IHr]; intros x Fx; apply H; [left|right]; exact Fx.
Qed.

Lemma substitution_meaning t : forall m rho, no_capture m t ->
  meaning (substituteTypeVars t m) rho = meaning t (image m rho).
Proof.
  induction t as [|p|[n|]|ps r F IHr|vs b IHb|k x IHx|k l r IHl IHr|lvl] using type_expr_induction; intros m rho N;
    cbn [substituteTypeVars meaning]; try reflexivity.
  - unfold image. destruct (find n m) as [r|]; [rewrite copy_identity; reflexivity|reflexivity].
  - cbn [no_capture] in N. destruct N as [Nps Nr]. f_equal; [|apply IHr; exact Nr].
    rewrite map_map. induction F as [|p ps Fp F IH]; [reflexivity|]. inversion Nps; subst.
    cbn. f_equal; [apply Fp; assumption|apply IH; assumption].
  - cbn [no_capture] in N. destruct N as [Nb Nc]. fold (without vs m). apply all_pointwise. intros ds.
    rewrite IHb by exact Nb. apply meaning_free. intros x Fx. specialize (Nc x). unfold image at 1.
    rewrite find_without in *. destruct (in_dec string_dec x vs) as [I|O].
    + apply bind_values_ext. contradiction.
    + rewrite (bind_values_other x vs O ds (image m rho)). unfold image. destruct (find x m) as [r|].
      * apply meaning_free. intros y Fy. apply bind_values_other. intros Iy. exact (Nc r Fx eq_refl y Iy Fy).
      * apply bind_values_other, O.
  - f_equal. apply IHx, N.
  - destruct N as [Nl Nr]. f_equal; [apply IHl, Nl|apply IHr, Nr].
Qed.

Lemma bind_params_image ps args rho x :
  image (bind_params ps args) rho x = bind_arguments ps (map (fun a => meaning a rho) args) rho x.
Proof.
  unfold bind_params, bind_arguments.
  assert (H : forall m (f : string -> D), (forall y, image m rho y = f y) ->
    image (fold_left (fun m p => insert (fst p) (snd p) m) (combine ps args) m) rho x =
    fold_left (fun f p y => if string_dec y (fst p) then snd p else f y) (combine ps (map (fun a => meaning a rho) args)) f x).
  { revert args. induction ps as [|v ps IH]; intros [|a args] m f Hf; cbn; try apply Hf. apply IH. intros y. unfold image.
    destruct (string_dec y v) as [->|Dv]; [rewrite find_insert_eq; reflexivity|]. rewrite find_insert_ne by exact Dv. apply Hf. }
  apply H. reflexivity.
Qed.
End Meaning.

(** A parameterised alias applied to arguments means its body with each parameter
    standing for the meaning of its argument (the last of a repeated parameter, missing
    arguments leaving the parameter free), in every reading of type expressions and
    every assignment of the other names, also when the alias table has since got other
    aliases, provided no argument is put under a quantifier over one of its own
    names; and an alias without parameters is returned as it is. *)
Theorem alias_application_meaning {D : Type} default prim (arrow : list D -> D -> D) all_ container pair_ universe
  (all_pointwise : forall n f g, (forall ds, f ds = g ds) -> all_ n f = all_ n g)
  name t ps args c rho other t' ps' :
  no_capture (bind_params ps args) t -> other <> name ->
  let mean := meaning default prim arrow all_ container pair_ universe in
  let c' := defineTypeAlias other t' ps' (defineTypeAlias name t ps c) in
  (ps <> [] -> mean (instantiateTypeAlias name args c') rho =
     mean t (bind_arguments ps (map (fun a => mean a rho) args) rho)) /\
  (ps = [] -> hasTypeAliasParams name c = false -> instantiateTypeAlias name args c' = t).
Proof.
  intros N O mean c'.
  assert (Ha : find name (type_aliases_ c') = Some t).
  { unfold c'. cbn. rewrite find_insert_ne by congruence. apply find_insert_eq. }
  assert (Hp : find name (type_alias_params_ c') = match ps with [] => find name (type_alias_params_ c) | _ => Some ps end).
  { unfold c'. cbn [defineTypeAlias type_alias_params_]. destruct ps' as [|v' ps'].
    - destruct ps; [reflexivity|apply find_insert_eq].
    - rewrite find_insert_ne by congruence. destruct ps; [reflexivity|apply find_insert_eq]. }
  unfold instantiateTypeAlias. rewrite Ha, Hp. split.
  - intros Hps. destruct ps as [|v ps]; [contradiction|]. unfold mean.
    rewrite substitution_meaning by assumption. apply meaning_free; [assumption|]. intros x _. apply bind_params_image.
  - intros -> F. apply mem_false in F. rewrite F. apply copy_identity.
Qed.

(** Reading types as their number of constructors. *)
Definition count_all (n : nat) (f : list nat -> nat) : nat := S (f (repeat 1%nat n)).

Lemma alias_application_meaning_witness :
  let mean := meaning 0%nat (fun _ => 1%nat) (fun ds d => S (list_sum ds + d)) count_all (fun _ d => S d) (fun _ d1 d2 => S (d1 + d2)) (fun _ => 1%nat) in
  let t := TForall ["b"%string] (TArrow [TName (Some "a"%string)] (TName (Some "b"%string))) in
  let c := defineTypeAlias "U" TNone [] (defineTypeAlias "F" t ["a"%string] no_aliases) in
  mean (instantiateTypeAlias "F" [TContainer HOTT_TYPE_LIST (TName (Some "c"%string))] c) (fun _ => 1%nat) =
  mean t (bind_arguments ["a"%string] [2%nat] (fun _ => 1%nat)) /\
  mean t (bind_arguments ["a"%string] [2%nat] (fun _ => 1%nat)) = 5%nat.
Proof.
  intros mean t c. split; [|reflexivity].
  refine (proj1 (alias_application_meaning 0%nat (fun _ => 1%nat) (fun ds d => S (list_sum ds + d)) count_all (fun _ d => S d)
    (fun _ d1 d2 => S (d1 + d2))%nat (fun _ => 1%nat) _ "F" t ["a"%string] [TContainer HOTT_TYPE_LIST (TName (Some "c"%string))]
    no_aliases (fun _ => 1%nat) "U" TNone [] _ _) _).
  - intros n f g H. unfold count_all. rewrite H. reflexivity.
  - cbn. repeat split; auto. intros x r Fx F v I Fv. destruct I as [<-|[]]. apply find_In in F. vm_compute in F.
    destruct F as [E|[]]. injection E as <- <-. vm_compute in Fv. discriminate Fv.
  - discriminate.
  - discriminate.
Defined.

(** ** Printing *)

(** The text without a bound on its length. *)
Fixpoint full_text (t : type_expr) : string :=
  match t with
  | TNone => "null"
  | TPrim k => prim_name k
  | TName (Some n) => n
  | TName None => "?"
  | TArrow ps r => String.concat EmptyString ("(-> " :: map (fun p => full_text p ++ " ") ps ++ [full_text r ++ ")"])
  | TForall vs b => String.concat EmptyString ("(forall (" :: spaced vs ++ [") "; full_text b ++ ")"])
  | TContainer k x => String.concat EmptyString [container_name k; full_text x ++ ")"]
  | TPair k l r => String.concat EmptyString [pair_name k; full_text l ++ " " ++ full_text r ++ ")"]
  | TUniverse lvl => "Type" ++ decimal lvl
  end%string.

Definition compound (t : type_expr) : bool :=
  match t with TArrow _ _ | TForall _ _ | TContainer _ _ | TPair _ _ _ => true | _ => false end.

Notation take n s := (String.substring 0 n s).

Lemma take_nil n : take n EmptyString = EmptyString.
Proof. destruct n; reflexivity. Qed.

Lemma append_cons a s t : (String a s ++ t)%string = String a (s ++ t).
Proof. reflexivity. Qed.

Lemma append_nil s : (s ++ EmptyString)%string = s.
Proof. induction s as [|a s IH]; [reflexivity|]. rewrite append_cons, IH. reflexivity. Qed.

Lemma append_assoc r s t : ((r ++ s) ++ t)%string = (r ++ (s ++ t))%string.
Proof. induction r as [|a r IH]; [reflexivity|]. rewrite !append_cons, IH. reflexivity. Qed.

Lemma length_append s t : String.length (s ++ t) = (String.length s + String.length t)%nat.
Proof. induction s as [|a s IH]; [reflexivity|]. rewrite append_cons. cbn. rewrite IH. reflexivity. Qed.

Lemma take_zero s : take 0 s = EmptyString.
Proof. destruct s; reflexivity. Qed.

Lemma take_append s t : forall n, take n (s ++ t) = (take n s ++ take (n - String.length s) t)%string.
Proof.
  induction s as [|a s IH]; intros n; [rewrite take_nil, Nat.sub_0_r; reflexivity|].
  destruct n as [|n]; [cbn [Nat.sub]; rewrite !take_zero; reflexivity|].
  rewrite append_cons. cbn [substring String.length Nat.sub]. rewrite IH. reflexivity.
Qed.

Lemma take_take s : forall m n, (m <= n)%nat -> take m (take n s) = take m s.
Proof.
  induction s as [|a s IH]; intros m n H; [rewrite !take_nil; reflexivity|]. destruct m as [|m]; [rewrite !take_zero; reflexivity|].
  destruct n as [|n]; [lia|]. cbn. rewrite IH by lia. reflexivity.
Qed.

Lemma take_length s : forall n, (n <= String.length s)%nat -> String.length (take n s) = n.
Proof.
  induction s as [|a s IH]; intros [|n] H; cbn in *; try lia; try reflexivity. rewrite IH by lia. reflexivity.
Qed.

(** [s] is printed for [f]: exactly, or both overflow the buffer and start alike. *)
Definition stands_for (s f : string) : Prop :=
  s = f \/ (1024 <= String.length s /\ 1024 <= String.length f /\ take 1020 s = take 1020 f)%nat.

Definition holds_text (b : text_buffer) (f : string) : Prop :=
  if snd b then (1024 <= String.length f)%nat /\ fst b = (take 1020 f ++ "...")%string
  else fst b = f /\ (String.length f < 1024)%nat.

Lemma take_grows f g : (1024 <= String.length f)%nat -> take 1020 (f ++ g) = take 1020 f.
Proof.
  intros H. rewrite take_append. replace (1020 - String.length f)%nat with 0%nat by lia. rewrite take_zero. apply append_nil.
Qed.

Lemma append_holds b f p fp : holds_text b f -> stands_for p fp -> holds_text (buf_append b p) (f ++ fp)%string.
Proof.
  unfold holds_text, buf_append. intros H S. destruct b as [s []]; cbn [fst snd] in *.
  - destruct H as [L ->]. rewrite length_append, take_grows by exact L. split; [lia|reflexivity].
  - destruct H as [-> L]. change buffer_size with 1024%nat.
    assert (T : take 1020 (f ++ p) = take 1020 (f ++ fp)).
    { destruct S as [->|(_ & _ & S)]; [reflexivity|]. rewrite !take_append. f_equal.
      rewrite <- (take_take p _ 1020), <- (take_take fp _ 1020) by lia. rewrite S. reflexivity. }
    destruct (Nat.ltb_spec (String.length (f ++ p)) 1024) as [Lt|Ge]; cbn [fst snd]; rewrite length_append in *.
    + destruct S as [->|(S & _)]; [split; [reflexivity|lia]|lia].
    + split; [destruct S as [->|(_ & S & _)]; lia|]. change (1024 - 4)%nat with 1020%nat. rewrite T. reflexivity.
Qed.

Lemma concat_cons s l : String.concat EmptyString (s :: l) = (s ++ String.concat EmptyString l)%string.
Proof. destruct l; cbn; [symmetry; apply append_nil|reflexivity]. Qed.

Lemma appends_hold ps fs : Forall2 stands_for ps fs -> forall b f, holds_text b f ->
  holds_text (buf_appends b ps) (f ++ String.concat EmptyString fs)%string.
Proof.
  unfold buf_appends. induction 1 as [|p fp ps fs S F IH]; intros b f H; cbn [fold_left].
  - cbn. rewrite append_nil. exact H.
  - rewrite concat_cons, <- append_assoc. apply IH, append_holds; assumption.
Qed.

(** The printed text of a compound expression against its full text. *)
Definition printed (s f : string) : Prop :=
  if (String.length f <? 1024)%nat then s = f else s = (take 1020 f ++ "...")%string.

Lemma render_printed ps fs : Forall2 stands_for ps fs -> printed (render ps) (String.concat EmptyString fs).
Proof.
  intros F. assert (H0 : holds_text (EmptyString, false) EmptyString) by (split; [reflexivity|cbn; lia]).
  pose proof (appends_hold ps fs F _ _ H0) as H. clear H0. change (EmptyString ++ ?f)%string with f in H.
  unfold render, printed, holds_text in *. destruct (buf_appends _ ps) as [text []]; cbn [fst snd] in *; destruct H as [H1 H2];
    destruct (Nat.ltb_spec (String.length (String.concat EmptyString fs)) 1024); [lia|exact H2|exact H1|lia].
Qed.

(** A printed part followed by a character. *)
Lemma part_stands s f t : s = f \/ printed s f -> (1 <= String.length t)%nat -> stands_for (s ++ t)%string (f ++ t)%string.
Proof.
  unfold printed. intros [->|P] T; [left; reflexivity|].
  destruct (Nat.ltb_spec (String.length f) 1024) as [L|G]; [subst; left; reflexivity|]. subst. right.
  rewrite !length_append, take_length by lia. cbn [String.length]. split; [lia|]. split; [lia|].
  rewrite (take_grows f t) by lia. rewrite append_assoc, take_append, take_take, take_length by lia.
  replace (1020 - 1020)%nat with 0%nat by lia. rewrite take_zero, append_nil. reflexivity.
Qed.

Lemma exact_stands l : Forall2 stands_for l l.
Proof. induction l; constructor; [left; reflexivity|assumption]. Qed.

Lemma arrow_parts ps fps : Forall2 (fun s f => s = f \/ printed s f) ps fps ->
  Forall2 stands_for (map (fun s => s ++ " ") ps)%string (map (fun f => f ++ " ") fps)%string.
Proof. induction 1; cbn [map]; constructor; [apply part_stands; [assumption|cbn; lia]|assumption]. Qed.

Lemma stands_for_append s1 f1 s2 f2 : stands_for s1 f1 -> stands_for s2 f2 -> stands_for (s1 ++ s2)%string (f1 ++ f2)%string.
Proof.
  unfold stands_for. rewrite !length_append, !take_append. intros [->|(A & B & T)] [->|(A' & B' & T')].
  - left. reflexivity.
  - right. split; [lia|]. split; [lia|]. f_equal.
    rewrite <- (take_take s2 _ 1020), <- (take_take f2 _ 1020) by lia. rewrite T'. reflexivity.
  - right. split; [lia|]. split; [lia|]. rewrite T. f_equal.
    replace (1020 - String.length s1)%nat with 0%nat by lia. replace (1020 - String.length f1)%nat with 0%nat by lia. reflexivity.
  - right. split; [lia|]. split; [lia|]. rewrite T. f_equal.
    replace (1020 - String.length s1)%nat with 0%nat by lia. replace (1020 - String.length f1)%nat with 0%nat by lia. rewrite !take_zero. reflexivity.
Qed.

Lemma type_text_parts t : (hott_type_to_string t = full_text t \/ printed (hott_type_to_string t) (full_text t)) /\
  (compound t = true -> printed (hott_type_to_string t) (full_text t)).
Proof.
  assert (W : forall s f, printed s f -> (s = f \/ printed s f) /\ (true = true -> printed s f)) by auto.
  induction t as [|p|[n|]|ps r F IHr|vs b IHb|k x IHx|k l r IHl IHr|lvl] using type_expr_induction; cbn [hott_type_to_string full_text];
    try (split; [left; reflexivity|discriminate]); apply W, render_printed.
  - constructor; [left; reflexivity|]. apply Forall2_app; [|constructor; [apply part_stands; [apply IHr|cbn; lia]|constructor]].
    rewrite <- (map_map hott_type_to_string (fun s => s ++ " ")%string), <- (map_map full_text (fun s => s ++ " ")%string).
    apply arrow_parts. clear -F. induction F as [|p ps [H _] F IH]; constructor; assumption.
  - constructor; [left; reflexivity|]. apply Forall2_app; [apply exact_stands|]. constructor; [left; reflexivity|].
    constructor; [apply part_stands; [apply IHb|cbn; lia]|constructor].
  - constructor; [left; reflexivity|]. constructor; [apply part_stands; [apply IHx|cbn; lia]|constructor].
  - constructor; [left; reflexivity|]. constructor; [|constructor].
    assert (Hl : stands_for (hott_type_to_string l ++ " ")%string (full_text l ++ " ")%string) by (apply part_stands; [apply IHl|cbn; lia]).
    assert (Hr : stands_for (hott_type_to_string r ++ ")")%string (full_text r ++ ")")%string) by (apply part_stands; [apply IHr|cbn; lia]).
    rewrite <- (append_assoc (hott_type_to_string l)), <- (append_assoc (full_text l)). apply stands_for_append; assumption.
Qed.

(** C40 The printed form of a type is its full text when that has fewer than 1024
    characters, which is when it fits the 1024-byte buffer; a longer compound type is
    cut to the first 1020 characters and three dots, so at most 1023 characters and the
    terminator are written, however the parts were cut themselves. *)
Theorem type_printing_bounded t :
  let s := hott_type_to_string t in
  let f := full_text t in
  ((String.length f < buffer_size)%nat -> s = f) /\
  (compound t = true -> (buffer_size <= String.length f)%nat ->
     s = (String.substring 0 (buffer_size - 4) f ++ "...")%string /\ String.length s = (buffer_size - 1)%nat) /\
  (compound t = true -> (String.length s < buffer_size)%nat).
Proof.
  intros s f. change buffer_size with 1024%nat. subst s f.
  destruct (type_text_parts t) as [H C]. unfold printed in *.
  destruct (Nat.ltb_spec (String.length (full_text t)) 1024) as [L|G].
  - assert (E : hott_type_to_string t = full_text t) by (destruct H; assumption). rewrite E. repeat split; intros; try lia.
  - assert (E : compound t = true -> hott_type_to_string t = (take 1020 (full_text t) ++ "...")%string) by (intros K; apply C, K).
    assert (E3 : String.length (take 1020 (full_text t) ++ "...") = 1023%nat) by (rewrite length_append, take_length by lia; reflexivity).
    split; [lia|]. split; [intros K _; rewrite (E K); split; [reflexivity|exact E3]|intros K; rewrite (E K), E3; lia].
Qed.

Definition long_name : string := String.concat EmptyString (repeat "abcdefgh"%string 130).

Lemma type_printing_bounded_witness :
  hott_type_to_string (TContainer HOTT_TYPE_LIST (TPrim HOTT_TYPE_REAL)) = "(list real)"%string /\
  String.length (hott_type_to_string (TPair HOTT_TYPE_SUM (TContainer HOTT_TYPE_LIST (TName (Some long_name))) (TPrim HOTT_TYPE_REAL))) = 1023%nat.
Proof.
  split.
  - apply (proj1 (type_printing_bounded (TContainer HOTT_TYPE_LIST (TPrim HOTT_TYPE_REAL)))). vm_compute. repeat constructor.
  - apply (proj1 (proj2 (type_printing_bounded (TPair HOTT_TYPE_SUM (TContainer HOTT_TYPE_LIST (TName (Some long_name))) (TPrim HOTT_TYPE_REAL)))));
      [reflexivity|]. apply Nat.leb_le. vm_compute. reflexivity.
Defined.

(** Redefining a parameterised alias without parameters keeps the old parameters, which
    are then substituted in the new body; and an argument that mentions a name the body
    quantifies over is captured. *)
Lemma alias_edge_cases :
  ((let c := defineTypeAlias "F" (TName (Some "a")) [] (defineTypeAlias "F" TNone ["a"] no_aliases) in
   hasTypeAliasParams "F" c = true /\
   instantiateTypeAlias "F" [TPrim HOTT_TYPE_REAL] c = TPrim HOTT_TYPE_REAL) /\
  (let body := TForall ["b"] (TArrow [TName (Some "a")] (TName (Some "b"))) in
   let c := defineTypeAlias "G" body ["a"] no_aliases in
   instantiateTypeAlias "G" [TName (Some "b")] c = TForall ["b"] (TArrow [TName (Some "b")] (TName (Some "b")))))%string.
Proof. vm_compute. auto. Qed.
