(* ===== verification/Ownership.v ===== *)
(** * Ownership and linearity: lib/types/type_checker.cpp

    The typing context with its scopes and linear variables, the linear usage tracker,
    the borrow checker, and the type checker's dimension and linearity checks.  A C++
    member function is a function of the object's record; one that changes the object
    returns it.  Scopes are listed innermost first. *)

From Stdlib Require Import String ZArith List Bool Lia.
From S2P Require Import Prelude OrderedMap TypeEnv Dependent Annotations.
Import ListNotations.
Open Scope Z_scope.

(** A [std::set] of names. *)
Definition name_set : Type := omap string unit.
Definition add_name (n : string) (s : name_set) : name_set := insert n tt s.

(** The names of a set, in order, that satisfy a test. *)
Definition names_where (p : string -> bool) (s : name_set) : list string := filter p (map fst s).

(** ** LinearContext *)

Inductive Usage : Type := Unused | UsedOnce | UsedMultiple.

Record LinearContext : Type := mkLinear { usage_ : omap string Usage; linear_vars_ : name_set }.

Definition new_linear : LinearContext := mkLinear [] [].

Definition declareLinear (n : string) (l : LinearContext) : LinearContext :=
  mkLinear (insert n Unused (usage_ l)) (add_name n (linear_vars_ l)).

(** [usage_[name]] makes a missing entry [Unused]. *)
Definition use (n : string) (l : LinearContext) : LinearContext :=
  if mem n (linear_vars_ l) then
    mkLinear (insert n (match find n (usage_ l) with None | Some Unused => UsedOnce | Some _ => UsedMultiple end) (usage_ l))
      (linear_vars_ l)
  else l.

Definition consume (n : string) (l : LinearContext) : LinearContext := use n l.

Definition checkAllUsedOnce (l : LinearContext) : bool :=
  forallb (fun n => match find n (usage_ l) with Some UsedOnce => true | _ => false end) (map fst (linear_vars_ l)).

Definition getUnused (l : LinearContext) : list string :=
  names_where (fun n => match find n (usage_ l) with None | Some Unused => true | _ => false end) (linear_vars_ l).

Definition getOverused (l : LinearContext) : list string :=
  names_where (fun n => match find n (usage_ l) with Some UsedMultiple => true | _ => false end) (linear_vars_ l).

Definition getUsage (n : string) (l : LinearContext) : Usage :=
  match find n (usage_ l) with Some u => u | None => Unused end.

Definition tracks_linear (n : string) (l : LinearContext) : bool := mem n (linear_vars_ l).

(** ** BorrowChecker *)

Inductive BorrowState : Type := Owned | Moved | BorrowedShared | BorrowedMut | Dropped.

Record BorrowInfo : Type := mkInfo {
  state : BorrowState;
  borrow_count : Z;
  has_mutable_borrow : bool;
  scope_depth : Z
}.

Inductive ErrorKind : Type :=
| UseAfterMove | UseAfterDrop | MoveWhileBorrowed | DoubleMutableBorrow | MutableBorrowWhileShared | BorrowOutlivesValue.

Record BorrowError : Type := mkError { kind : ErrorKind; variable : string; message : string }.

Record BorrowChecker : Type := mkChecker {
  values_ : omap string BorrowInfo;
  borrow_errors_ : list BorrowError;
  current_scope_ : Z
}.

Definition new_borrow : BorrowChecker := mkChecker [] [] 0.

Definition add_borrow_error (k : ErrorKind) (n msg : string) (c : BorrowChecker) : BorrowChecker :=
  mkChecker (values_ c) (borrow_errors_ c ++ [mkError k n msg]) (current_scope_ c).

Definition set_value (n : string) (i : BorrowInfo) (c : BorrowChecker) : BorrowChecker :=
  mkChecker (insert n i (values_ c)) (borrow_errors_ c) (current_scope_ c).

Definition is_borrowed (i : BorrowInfo) : bool := (0 <? borrow_count i) || has_mutable_borrow i.

Definition borrow_pushScope (c : BorrowChecker) : BorrowChecker :=
  mkChecker (values_ c) (borrow_errors_ c) (u64 (current_scope_ c + 1)).

Definition borrow_popScope (c : BorrowChecker) : BorrowChecker :=
  if 0 <? current_scope_ c then
    let c' := fold_left (fun c' (p : string * BorrowInfo) =>
        if (scope_depth (snd p) =? current_scope_ c) && is_borrowed (snd p) then
          add_borrow_error BorrowOutlivesValue (fst p) ("Borrow of '" ++ fst p ++ "' outlives its scope") c'
        else c') (values_ c) c in
    mkChecker (values_ c') (borrow_errors_ c') (current_scope_ c - 1)
  else c.

Definition declareOwned (n : string) (c : BorrowChecker) : BorrowChecker :=
  set_value n (mkInfo Owned 0 false (current_scope_ c)) c.

(** A refusal records an error. *)
Definition refuse (k : ErrorKind) (n msg : string) (c : BorrowChecker) : bool * BorrowChecker :=
  (false, add_borrow_error k n msg c).

Definition move (n : string) (c : BorrowChecker) : bool * BorrowChecker :=
  match find n (values_ c) with
  | None => (false, c)
  | Some info =>
    match state info with
    | Moved => refuse UseAfterMove n ("Cannot move '" ++ n ++ "': already moved") c
    | Dropped => refuse UseAfterDrop n ("Cannot move '" ++ n ++ "': already dropped") c
    | _ =>
      if is_borrowed info then refuse MoveWhileBorrowed n ("Cannot move '" ++ n ++ "': currently borrowed") c
      else (true, set_value n (mkInfo Moved (borrow_count info) (has_mutable_borrow info) (scope_depth info)) c)
    end
  end.

Definition drop (n : string) (c : BorrowChecker) : bool * BorrowChecker :=
  match find n (values_ c) with
  | None => (false, c)
  | Some info =>
    match state info with
    | Moved | Dropped => (false, c)
    | _ =>
      if is_borrowed info then refuse MoveWhileBorrowed n ("Cannot drop '" ++ n ++ "': currently borrowed") c
      else (true, set_value n (mkInfo Dropped (borrow_count info) (has_mutable_borrow info) (scope_depth info)) c)
    end
  end.

Definition borrowShared (n : string) (c : BorrowChecker) : bool * BorrowChecker :=
  match find n (values_ c) with
  | None => (false, c)
  | Some info =>
    match state info with
    | Moved => refuse UseAfterMove n ("Cannot borrow '" ++ n ++ "': already moved") c
    | Dropped => refuse UseAfterDrop n ("Cannot borrow '" ++ n ++ "': already dropped") c
    | s =>
      if has_mutable_borrow info then
        refuse MutableBorrowWhileShared n ("Cannot create shared borrow of '" ++ n ++ "': mutable borrow active") c
      else
        (true, set_value n (mkInfo (match s with Owned => BorrowedShared | _ => s end)
                              (u64 (borrow_count info + 1)) false (scope_depth info)) c)
    end
  end.

Definition borrowMut (n : string) (c : BorrowChecker) : bool * BorrowChecker :=
  match find n (values_ c) with
  | None => (false, c)
  | Some info =>
    match state info with
    | Moved => refuse UseAfterMove n ("Cannot borrow '" ++ n ++ "': already moved") c
    | Dropped => refuse UseAfterDrop n ("Cannot borrow '" ++ n ++ "': already dropped") c
    | _ =>
      if 0 <? borrow_count info then
        refuse MutableBorrowWhileShared n ("Cannot create mutable borrow of '" ++ n ++ "': shared borrows active") c
      else if has_mutable_borrow info then
        refuse DoubleMutableBorrow n ("Cannot create mutable borrow of '" ++ n ++ "': already mutably borrowed") c
      else (true, set_value n (mkInfo BorrowedMut (borrow_count info) true (scope_depth info)) c)
    end
  end.

Definition returnBorrow (n : string) (c : BorrowChecker) : BorrowChecker :=
  match find n (values_ c) with
  | None => c
  | Some info =>
    let count := if has_mutable_borrow info then borrow_count info
                 else if 0 <? borrow_count info then borrow_count info - 1 else borrow_count info in
    let s := if count =? 0 then
               match state info with BorrowedShared | BorrowedMut => Owned | s => s end
             else state info in
    set_value n (mkInfo s count false (scope_depth info)) c
  end.

Definition getState (n : string) (c : BorrowChecker) : BorrowState :=
  match find n (values_ c) with Some i => state i | None => Owned end.

Definition canUse (n : string) (c : BorrowChecker) : bool :=
  match find n (values_ c) with
  | None => true
  | Some i => match state i with Moved | Dropped => false | _ => true end
  end.

Definition unborrowed (i : BorrowInfo) : bool :=
  match state i with Owned => (borrow_count i =? 0) && negb (has_mutable_borrow i) | _ => false end.

Definition canMove (n : string) (c : BorrowChecker) : bool :=
  match find n (values_ c) with None => true | Some i => unborrowed i end.

Definition canBorrowShared (n : string) (c : BorrowChecker) : bool :=
  match find n (values_ c) with
  | None => true
  | Some i => match state i with Owned | BorrowedShared => negb (has_mutable_borrow i) | _ => false end
  end.

Definition canBorrowMut (n : string) (c : BorrowChecker) : bool :=
  match find n (values_ c) with None => true | Some i => unborrowed i end.

Definition hasErrors (c : BorrowChecker) : bool := match borrow_errors_ c with [] => false | _ => true end.
Definition clearErrors (c : BorrowChecker) : BorrowChecker := mkChecker (values_ c) [] (current_scope_ c).

(** ** Context *)

Record Context : Type := mkContext {
  scopes_ : list (omap string TypeId);
  aliases : alias_table;
  ctx_linear_vars_ : name_set;
  linear_usage_count_ : omap string Z
}.

Definition new_context : Context := mkContext [[]] no_aliases [] [].

Definition with_scopes (s : list (omap string TypeId)) (c : Context) : Context :=
  mkContext s (aliases c) (ctx_linear_vars_ c) (linear_usage_count_ c).

Definition ctx_pushScope (c : Context) : Context := with_scopes ([] :: scopes_ c) c.

Definition ctx_popScope (c : Context) : Context :=
  match scopes_ c with
  | _ :: ((_ :: _) as rest) => with_scopes rest c
  | _ => c
  end.

Definition ctx_bind (n : string) (t : TypeId) (c : Context) : Context :=
  match scopes_ c with
  | [] => c
  | s :: rest => with_scopes (insert n t s :: rest) c
  end.

Fixpoint lookup_scopes (n : string) (ss : list (omap string TypeId)) : option TypeId :=
  match ss with
  | [] => None
  | s :: ss' => match find n s with Some t => Some t | None => lookup_scopes n ss' end
  end.

Definition lookup (n : string) (c : Context) : option TypeId := lookup_scopes n (scopes_ c).

Definition with_linear (vars : name_set) (counts : omap string Z) (c : Context) : Context :=
  mkContext (scopes_ c) (aliases c) vars counts.

Definition bindLinear (n : string) (t : TypeId) (c : Context) : Context :=
  let c := ctx_bind n t c in
  with_linear (add_name n (ctx_linear_vars_ c)) (insert n 0 (linear_usage_count_ c)) c.

Definition count_of (n : string) (c : Context) : Z :=
  match find n (linear_usage_count_ c) with Some k => k | None => 0 end.

(** The counter is an [int]: it stays exact below 2^31 uses. *)
Definition useLinear (n : string) (c : Context) : Context :=
  if mem n (ctx_linear_vars_ c) then
    with_linear (ctx_linear_vars_ c) (insert n (count_of n c + 1) (linear_usage_count_ c)) c
  else c.

Definition consumeLinear (n : string) (c : Context) : Context := useLinear n c.

Definition isLinear (n : string) (c : Context) : bool := mem n (ctx_linear_vars_ c).

Definition isLinearUsed (n : string) (c : Context) : bool :=
  match find n (linear_usage_count_ c) with Some k => 0 <? k | None => false end.

Definition getUnusedLinear (c : Context) : list string :=
  names_where (fun n => match find n (linear_usage_count_ c) with Some k => k =? 0 | None => true end) (ctx_linear_vars_ c).

Definition getOverusedLinear (c : Context) : list string :=
  names_where (fun n => match find n (linear_usage_count_ c) with Some k => 1 <? k | None => false end) (ctx_linear_vars_ c).

Definition checkLinearConstraints (c : Context) : bool :=
  forallb (fun n => match find n (linear_usage_count_ c) with Some k => k =? 1 | None => false end) (map fst (ctx_linear_vars_ c)).

(** ** The checks of [TypeChecker] *)

(** The parts of [TypeCheckResult] these checks set; the position is always unknown. *)
Inductive TypeCheckResult : Type := TypeOk (t : TypeId) | TypeError (msg : string).

Record TypeChecker : Type := mkTypeChecker { ctx_ : Context; unsafe_depth_ : Z; errors_ : list TypeCheckResult }.

Definition new_checker : TypeChecker := mkTypeChecker new_context 0 [].

Definition addError (msg : string) (k : TypeChecker) : TypeChecker :=
  mkTypeChecker (ctx_ k) (unsafe_depth_ k) (errors_ k ++ [TypeError msg]).

Definition with_ctx (c : Context) (k : TypeChecker) : TypeChecker := mkTypeChecker c (unsafe_depth_ k) (errors_ k).

(** The result of a dimension check. *)
Definition report (r : check_result) (t : TypeId) (k : TypeChecker) : TypeCheckResult * TypeChecker :=
  if valid r then (TypeOk t, k) else (TypeError (error_message r), addError (error_message r) k).

(** [None]: the evaluation of an index is undefined. *)
Definition checkVectorBounds (idx bound : CTValue) (context : string) (k : TypeChecker) : option (TypeCheckResult * TypeChecker) :=
  option_map (fun r => report r BuiltinTypes.Boolean k) (checkBounds idx bound context).

Definition tc_checkDotProductDimensions (left right : DependentType) (k : TypeChecker) : TypeCheckResult * TypeChecker :=
  report (checkDotProductDimensions left right "dot product") BuiltinTypes.Float64 k.

Definition checkMatrixMultiplyDimensions (left right : DependentType) (k : TypeChecker) : TypeCheckResult * TypeChecker :=
  report (checkMatMulDimensions left right "matrix multiply") BuiltinTypes.Tensor k.

(** The natural number at [idx] of a list of dimensions. *)
Definition nat_dimension (dims : option (list CTValueSimple)) (idx : nat) : option Z :=
  match dims with
  | Some ds => match nth_error ds idx with Some (Some n) => Some n | _ => None end
  | None => None
  end.

Definition extractDimension (t : TypeId) (idx : nat) (e : TypeEnvironment) : option Z :=
  match nat_dimension (getDimensionInfo t e) idx with
  | Some n => Some n
  | None =>
    if type_eqb t BuiltinTypes.Tensor then nat_dimension (getDimensionInfo BuiltinTypes.Tensor e) idx
    else if type_eqb t BuiltinTypes.Vector then nat_dimension (getDimensionInfo BuiltinTypes.Vector e) idx
    else None
  end.

Definition isLinearType (t : TypeId) (e : TypeEnvironment) : bool :=
  isLinear_flag t || match getTypeNode t e with Some n => isLinear_flag (node_id n) | None => false end.

Definition unused_text (n : string) : string := ("Linear variable '" ++ n ++ "' was never used (must be used exactly once)")%string.
Definition overused_text (n : string) : string := ("Linear variable '" ++ n ++ "' was used more than once (must be used exactly once)")%string.

Definition checkLinearUsage (k : TypeChecker) : TypeChecker :=
  let k1 := fold_left (fun k n => addError (unused_text n) k) (getUnusedLinear (ctx_ k)) k in
  fold_left (fun k n => addError (overused_text n) k) (getOverusedLinear (ctx_ k1)) k1.

Definition enterUnsafe (k : TypeChecker) : TypeChecker := mkTypeChecker (ctx_ k) (u64 (unsafe_depth_ k + 1)) (errors_ k).

Definition exitUnsafe (k : TypeChecker) : TypeChecker :=
  mkTypeChecker (ctx_ k) (if 0 <? unsafe_depth_ k then unsafe_depth_ k - 1 else unsafe_depth_ k) (errors_ k).

Definition isUnsafe (k : TypeChecker) : bool := 0 <? unsafe_depth_ k.

Definition typed (o : option TypeId) (otherwise : string) : TypeCheckResult :=
  match o with Some t => TypeOk t | None => TypeError otherwise end.

Definition checkLinearVariable (n : string) (k : TypeChecker) : TypeCheckResult * TypeChecker :=
  if negb (isLinear n (ctx_ k)) then (typed (lookup n (ctx_ k)) ("Undefined variable: " ++ n)%string, k)
  else
    let used := with_ctx (useLinear n (ctx_ k)) k in
    if isLinearUsed n (ctx_ k) then
      let again := ("Linear variable '" ++ n ++ "' was already used (cannot use more than once)")%string in
      if isUnsafe k then (typed (lookup n (ctx_ used)) again, used) else (TypeError again, k)
    else (typed (lookup n (ctx_ used)) ("Undefined linear variable: " ++ n)%string, used).

Definition quoted (n : string) : string := ("'" ++ n ++ "'")%string.

Definition not_consumed_text (ns : list string) : string :=
  ("Linear variable(s) not consumed: " ++ String.concat ", " (map quoted ns) ++ " (linear types must be used exactly once)")%string.

Definition checkLinearLet (bindings : list string) (k : TypeChecker) : TypeCheckResult * TypeChecker :=
  if isUnsafe k then (TypeOk BuiltinTypes.Null, k)
  else
    match filter (fun n => isLinear n (ctx_ k) && negb (isLinearUsed n (ctx_ k))) bindings with
    | [] => (TypeOk BuiltinTypes.Null, k)
    | unused => (TypeError (not_consumed_text unused), addError (not_consumed_text unused) k)
    end.

(** ** Lambdas *)

(** The part of [synthesizeLambda] that binds one parameter of the resolved type [t]. *)
Definition bind_parameter (n : string) (t : TypeId) (c : Context) : Context :=
  if isLinear_flag t then bindLinear n t c else ctx_bind n t c.

(** The issues [synthesizeLambda] reports when the body is done. *)
Definition lambda_issues (c : Context) : list string :=
  if checkLinearConstraints c then []
  else map (fun n => "linear variable '" ++ n ++ "' was not consumed")%string (getUnusedLinear c) ++
       map (fun n => "linear variable '" ++ n ++ "' was consumed more than once")%string (getOverusedLinear c).
