(* ===== verification/OwnershipSpec.v ===== *)
(** * The ownership discipline

    Each value is free with some readers, lent to one writer, or gone.  The borrow
    checker implements this machine: its record of a value is the image of the value's
    status, and any sequence of calls answers and reports as the machine does. *)

From Stdlib Require Import String ZArith List Bool Lia.
From S2P Require Import Prelude OrderedMap TypeEnv Dependent Annotations Ownership.
Import ListNotations.
Open Scope Z_scope.

(** ** The machine *)

Inductive ownership : Type := Free (readers : Z) | Lent | Gone (dropped : bool).
Inductive access : Type := ToMove | ToDrop | ToRead | ToWrite.

(** The new status, or the violation (dropping a value that is gone is none). *)
Definition attempt (a : access) (o : ownership) : ownership + option ErrorKind :=
  match o, a with
  | Gone _, ToDrop => inr None
  | Gone true, _ => inr (Some UseAfterDrop)
  | Gone false, _ => inr (Some UseAfterMove)
  | Lent, ToRead => inr (Some MutableBorrowWhileShared)
  | Lent, ToWrite => inr (Some DoubleMutableBorrow)
  | Lent, _ => inr (Some MoveWhileBorrowed)
  | Free r, ToRead => inl (Free (r + 1))
  | Free r, ToMove => if r =? 0 then inl (Gone false) else inr (Some MoveWhileBorrowed)
  | Free r, ToDrop => if r =? 0 then inl (Gone true) else inr (Some MoveWhileBorrowed)
  | Free r, ToWrite => if r =? 0 then inl Lent else inr (Some MutableBorrowWhileShared)
  end.

Definition give_back (o : ownership) : ownership :=
  match o with
  | Free r => Free (Z.max 0 (r - 1))
  | Lent => Free 0
  | Gone d => Gone d
  end.

(** Borrowed: the value may not leave its scope. *)
Definition lent_out (o : ownership) : bool := match o with Free r => 0 <? r | Lent => true | Gone _ => false end.

Inductive borrow_op : Type :=
| OpPush | OpPop | OpDeclare (n : string) | OpAccess (a : access) (n : string) | OpReturn (n : string).

Record discipline : Type := mkDiscipline {
  statuses : omap string (ownership * Z);
  faults : list (ErrorKind * string);
  nesting : Z
}.

Definition no_values : discipline := mkDiscipline [] [] 0.

Definition set_status (n : string) (o : ownership) (d : Z) (s : discipline) : discipline :=
  mkDiscipline (insert n (o, d) (statuses s)) (faults s) (nesting s).

(** The values of the innermost scope that are still lent out, in name order. *)
Definition outliving (s : discipline) : list (ErrorKind * string) :=
  map (fun p => (BorrowOutlivesValue, fst p))
    (filter (fun p : string * (ownership * Z) => (snd (snd p) =? nesting s) && lent_out (fst (snd p))) (statuses s)).

(** The answer of a move, drop or borrow; other calls answer nothing. *)
Definition obey (op : borrow_op) (s : discipline) : option bool * discipline :=
  match op with
  | OpPush => (None, mkDiscipline (statuses s) (faults s) (nesting s + 1))
  | OpPop =>
    (None, if 0 <? nesting s then mkDiscipline (statuses s) (faults s ++ outliving s) (nesting s - 1) else s)
  | OpDeclare n => (None, set_status n (Free 0) (nesting s) s)
  | OpReturn n =>
    (None, match find n (statuses s) with Some (o, d) => set_status n (give_back o) d s | None => s end)
  | OpAccess a n =>
    match find n (statuses s) with
    | None => (Some false, s)
    | Some (o, d) =>
      match attempt a o with
      | inl o' => (Some true, set_status n o' d s)
      | inr f => (Some false, mkDiscipline (statuses s) (faults s ++ match f with Some k => [(k, n)] | None => [] end) (nesting s))
      end
    end
  end.

(** The same calls on the borrow checker. *)
Definition call (op : borrow_op) (c : BorrowChecker) : option bool * BorrowChecker :=
  let answer (r : bool * BorrowChecker) := (Some (fst r), snd r) in
  match op with
  | OpPush => (None, borrow_pushScope c)
  | OpPop => (None, borrow_popScope c)
  | OpDeclare n => (None, declareOwned n c)
  | OpReturn n => (None, returnBorrow n c)
  | OpAccess ToMove n => answer (move n c)
  | OpAccess ToDrop n => answer (drop n c)
  | OpAccess ToRead n => answer (borrowShared n c)
  | OpAccess ToWrite n => answer (borrowMut n c)
  end.

(** A sequence of calls, with the answers in order. *)
Fixpoint trace {S} (f : borrow_op -> S -> option bool * S) (ops : list borrow_op) (s : S) : list (option bool) * S :=
  match ops with
  | [] => ([], s)
  | op :: ops' => let '(r, s1) := f op s in let '(rs, s2) := trace f ops' s1 in (r :: rs, s2)
  end.

Definition after (ops : list borrow_op) : BorrowChecker := snd (trace call ops new_borrow).

(** ** Maps with mapped values *)

Section MapValues.
  Context {K V W : Type} `{KeyLaws K} (f : V -> W).

Definition map_values (m : omap K V) : omap K W := map (fun p => (fst p, f (snd p))) m.

Lemma find_map_values k m : find k (map_values m) = option_map f (find k m).
Proof. induction m as [|[k' v] m IH]; [reflexivity|]. cbn. destruct (kcmp k k'); cbn; auto. Qed.

Lemma insert_map_values k v m : insert k (f v) (map_values m) = map_values (insert k v m).
Proof. induction m as [|[k' v'] m IH]; [reflexivity|]. unfold map_values in *. cbn. destruct (kcmp k k'); cbn; rewrite ?IH; reflexivity. Qed.
End MapValues.

(** ** The refinement *)

(** The record of a value of this status, declared at this depth. *)
Definition record_of (p : ownership * Z) : BorrowInfo :=
  match fst p with
  | Free r => mkInfo (if r =? 0 then Owned else BorrowedShared) r false (snd p)
  | Lent => mkInfo BorrowedMut 0 true (snd p)
  | Gone false => mkInfo Moved 0 false (snd p)
  | Gone true => mkInfo Dropped 0 false (snd p)
  end.

(** [n] calls were made. *)
Record implements (k : Z) (c : BorrowChecker) (s : discipline) : Prop := {
  impl_values : values_ c = map_values record_of (statuses s);
  impl_errors : map (fun e => (kind e, variable e)) (borrow_errors_ c) = faults s;
  impl_depth : current_scope_ c = nesting s;
  impl_depth_bound : 0 <= nesting s <= k;
  impl_readers : forall n r d, In (n, (Free r, d)) (statuses s) -> 0 <= r <= k
}.

Lemma implements_new : implements 0 new_borrow no_values.
Proof. constructor; cbn; auto; try lia; contradiction. Qed.

Lemma is_borrowed_record o d : (forall r, o = Free r -> 0 <= r) -> is_borrowed (record_of (o, d)) = lent_out o.
Proof.
  intros R. destruct o as [r| |[]]; try reflexivity. cbn. specialize (R r eq_refl). apply orb_false_r.
Qed.

Section Step.
  Context {k : Z} {c : BorrowChecker} {s : discipline} (I : implements k c s).

Lemma find_record n : find n (values_ c) = option_map record_of (find n (statuses s)).
Proof. rewrite (impl_values _ _ _ I). apply find_map_values. Qed.

Lemma implements_later : implements (k + 1) c s.
Proof.
  destruct I as [V E D B R]. constructor; auto; [lia|]. intros n r d F. specialize (R n r d F). lia.
Qed.

Lemma implements_set n o d : (forall r, o = Free r -> 0 <= r <= k + 1) ->
  implements (k + 1) (set_value n (record_of (o, d)) c) (set_status n o d s).
Proof.
  intros Ro. destruct implements_later as [V E D B R]. constructor; cbn; auto.
  - rewrite V. apply insert_map_values.
  - intros m r d' F. apply insert_In in F. destruct F as [F|F]; [|eauto]. injection F as _ F _. symmetry in F. auto.
Qed.

Lemma implements_fault n f msg : implements (k + 1) (add_borrow_error f n msg c) (mkDiscipline (statuses s) (faults s ++ [(f, n)]) (nesting s)).
Proof.
  destruct implements_later as [V E D B R]. constructor; cbn; auto. rewrite map_app, E. reflexivity.
Qed.

Lemma pop_errors vs d c0 : (forall n r e, In (n, (Free r, e)) vs -> 0 <= r) ->
  let c' := fold_left (fun c' (p : string * BorrowInfo) =>
      if (scope_depth (snd p) =? d) && is_borrowed (snd p) then
        add_borrow_error BorrowOutlivesValue (fst p) ("Borrow of '" ++ fst p ++ "' outlives its scope") c'
      else c') (map_values record_of vs) c0 in
  values_ c' = values_ c0 /\
  map (fun e => (kind e, variable e)) (borrow_errors_ c') = map (fun e => (kind e, variable e)) (borrow_errors_ c0) ++
    map (fun p => (BorrowOutlivesValue, fst p))
      (filter (fun p : string * (ownership * Z) => (snd (snd p) =? d) && lent_out (fst (snd p))) vs).
Proof.
  revert c0. induction vs as [|[n [o e]] vs IH]; intros c0 R; cbn [map_values map fold_left filter fst snd].
  - rewrite app_nil_r. auto.
  - assert (Hd : scope_depth (record_of (o, e)) = e) by (destruct o as [r| |[]]; reflexivity).
    rewrite Hd, is_borrowed_record by (intros r ->; apply (R n r e); left; reflexivity).
    assert (R' : forall n0 r e0, In (n0, (Free r, e0)) vs -> 0 <= r) by (intros; eapply R; right; eassumption).
    destruct ((e =? d) && lent_out o).
    + match goal with |- context [fold_left _ _ ?c1] => destruct (IH c1 R') as [H1 H2] end.
      split; [exact H1|]. etransitivity; [exact H2|]. cbn [add_borrow_error borrow_errors_]. rewrite map_app, <- app_assoc. reflexivity.
    + apply IH, R'.
Qed.
End Step.

(** Unfolding one call on a value of a known status. *)
Ltac on_value I n E :=
  cbv beta iota zeta delta [call obey move drop borrowShared borrowMut returnBorrow fst snd];
  rewrite (find_record I n), E; cbn [option_map].

Lemma implements_keep k c s : implements k c s -> implements (k + 1) c (mkDiscipline (statuses s) (faults s ++ []) (nesting s)).
Proof. intros I. rewrite app_nil_r. destruct s. exact (implements_later I). Qed.

Lemma access_refines k c s a n : 0 <= k < 2 ^ 64 - 1 -> implements k c s ->
  fst (call (OpAccess a n) c) = fst (obey (OpAccess a n) s) /\
  implements (k + 1) (snd (call (OpAccess a n) c)) (snd (obey (OpAccess a n) s)).
Proof.
  intros Hk I. destruct (find n (statuses s)) as [[o d]|] eqn:E.
  - pose proof (impl_readers _ _ _ I n) as R. unfold obey. rewrite E.
    assert (Hset : forall o', (forall r, o' = Free r -> 0 <= r <= k + 1) ->
      implements (k + 1) (set_value n (record_of (o', d)) c) (set_status n o' d s)) by (intros; apply implements_set; assumption).
    destruct o as [r| |[]]; [specialize (R r d (find_In _ _ _ E))|..]; destruct a; on_value I n E; unfold record_of, is_borrowed; cbn;
      rewrite ?Z.ltb_irrefl; cbn;
      try (split; [reflexivity|]; (apply implements_fault; exact I) || (apply implements_keep; exact I)).
    1-4: destruct (Z.eqb_spec r 0) as [->|D]; cbn; [|replace (0 <? r) with true by lia; cbn].
    all: try (split; [reflexivity|]; apply implements_fault; exact I).
    + split; [reflexivity|]. apply (Hset (Gone false)). discriminate.
    + split; [reflexivity|]. apply (Hset (Gone true)). discriminate.
    + split; [reflexivity|]. apply (Hset (Free 1)). intros r E'. injection E' as <-. lia.
    + split; [reflexivity|]. replace (u64 (r + 1)) with (r + 1) by (unfold u64; symmetry; apply Z.mod_small; lia).
      specialize (Hset (Free (r + 1))). unfold record_of in Hset. cbn in Hset. replace (r + 1 =? 0) with false in Hset by lia.
      apply Hset. intros r' E'. injection E' as <-. lia.
    + split; [reflexivity|]. apply (Hset Lent). discriminate.
  - unfold obey. rewrite E. destruct a; on_value I n E; (split; [reflexivity|exact (implements_later I)]).
Qed.

Lemma return_refines k c s n : implements k c s ->
  implements (k + 1) (snd (call (OpReturn n) c)) (snd (obey (OpReturn n) s)).
Proof.
  intros I. cbn [call obey snd]. unfold returnBorrow. rewrite (find_record I n).
  destruct (find n (statuses s)) as [[o d]|] eqn:E; cbn [option_map]; [|exact (implements_later I)].
  pose proof (impl_readers _ _ _ I n) as R.
  assert (Hset : forall i o', i = record_of (o', d) -> (forall r, o' = Free r -> 0 <= r <= k + 1) ->
    implements (k + 1) (set_value n i c) (set_status n o' d s)) by (intros i o' ->; apply implements_set; exact I).
  apply Hset.
  - destruct o as [r| |[]]; try reflexivity. specialize (R r d (find_In _ _ _ E)). unfold record_of. cbn.
    destruct (Z.ltb_spec 0 r).
    + replace (Z.max 0 (r - 1)) with (r - 1) by lia. replace (r =? 0) with false by lia. destruct (r - 1 =? 0) eqn:E1; reflexivity.
    + replace r with 0 by lia. reflexivity.
  - pose proof (impl_depth_bound _ _ _ I). intros r' E'. destruct o as [r| |]; try discriminate E'; injection E' as <-; [|lia].
    specialize (R r d (find_In _ _ _ E)). lia.
Qed.

Lemma pop_refines k c s : implements k c s -> implements (k + 1) (borrow_popScope c) (snd (obey OpPop s)).
Proof.
  intros I. unfold borrow_popScope. cbn [obey snd]. rewrite (impl_depth _ _ _ I).
  destruct (Z.ltb_spec 0 (nesting s)) as [P|P]; [|exact (implements_later I)].
  rewrite (impl_values _ _ _ I).
  pose proof (pop_errors (statuses s) (nesting s) c) as H. cbn zeta in H. destruct H as [H1 H2]; [intros n r e F; apply (impl_readers _ _ _ I n r e F)|].
  destruct (implements_later I) as [V E D B R]. constructor; cbn; auto; try lia.
  - rewrite H1. exact V.
  - rewrite H2. unfold outliving. rewrite E. reflexivity.
Qed.

(** One call answers and reports as the machine does. *)
Lemma call_refines op k c s : 0 <= k < 2 ^ 64 - 1 -> implements k c s ->
  fst (call op c) = fst (obey op s) /\ implements (k + 1) (snd (call op c)) (snd (obey op s)).
Proof.
  intros Hk I. destruct op as [| |n|a n|n].
  - split; [reflexivity|]. destruct I as [V E D B R]. constructor; cbn; auto; try lia.
    + rewrite D. unfold u64. apply Z.mod_small. lia.
    + intros n r d F. specialize (R n r d F). lia.
  - split; [reflexivity|]. apply pop_refines, I.
  - split; [reflexivity|]. cbn. unfold declareOwned. rewrite (impl_depth _ _ _ I).
    apply (implements_set I n (Free 0)). intros r E. injection E as <-. lia.
  - apply access_refines; assumption.
  - split; [reflexivity|]. apply return_refines, I.
Qed.

Lemma trace_refines ops : forall k c s, 0 <= k -> k + Z.of_nat (length ops) < 2 ^ 64 -> implements k c s ->
  fst (trace call ops c) = fst (trace obey ops s) /\
  implements (k + Z.of_nat (length ops)) (snd (trace call ops c)) (snd (trace obey ops s)).
Proof.
  induction ops as [|op ops IH]; intros k c s Hk L I.
  - cbn. rewrite Z.add_0_r. auto.
  - cbn [length] in *. destruct (call_refines op k c s) as [Hr Hs]; [lia|exact I|]. cbn [trace].
    destruct (call op c) as [r c1], (obey op s) as [r' s1]. cbn [fst snd] in *.
    destruct (IH (k + 1) c1 s1) as [Hr' Hs']; [lia|lia|exact Hs|].
    destruct (trace call ops c1) as [rs c2], (trace obey ops s1) as [rs' s2]. cbn [fst snd] in *.
    replace (k + Z.of_nat (S (length ops))) with (k + 1 + Z.of_nat (length ops)) by lia. split; [congruence|exact Hs'].
Qed.
