(* ===== verification/OwnershipTheorems.v ===== *)
(** * What the ownership and linearity checks enforce *)

From Stdlib Require Import String ZArith List Bool Lia Sorted.
From S2P Require Import Prelude OrderedMap TypeEnv TypeEnvRuns Dependent Annotations Ownership OwnershipSpec.
Import ListNotations.
Open Scope Z_scope.

(** ** The borrow checker *)

Lemma after_implements ops : Z.of_nat (length ops) < 2 ^ 64 ->
  fst (trace call ops new_borrow) = fst (trace obey ops no_values) /\
  implements (Z.of_nat (length ops)) (after ops) (snd (trace obey ops no_values)).
Proof.
  intros L. destruct (trace_refines ops 0 new_borrow no_values) as [Hr Hi]; [lia|lia|exact implements_new|]. auto.
Qed.

(** C24 The borrow checker implements the ownership machine (free with readers, lent to a
    writer, moved, dropped): any sequence of fewer than 2^64 calls on a new checker gets
    the machine's answers in order, records the machine's violations in order, and leaves
    for every name the record that stands for its status. *)
Theorem borrow_checker_refines_ownership ops : Z.of_nat (length ops) < 2 ^ 64 ->
  let '(answers, c) := trace call ops new_borrow in
  let '(answers', s) := trace obey ops no_values in
  answers = answers' /\
  map (fun e => (kind e, variable e)) (borrow_errors_ c) = faults s /\
  current_scope_ c = nesting s /\
  forall n, find n (values_ c) = option_map record_of (find n (statuses s)).
Proof.
  intros L. destruct (after_implements ops L) as [Hr I]. unfold after in I.
  destruct (trace call ops new_borrow) as [rs c], (trace obey ops no_values) as [rs' s]. cbn [fst snd] in *.
  repeat split; [exact Hr|apply I|apply I|apply (find_record I)].
Qed.

Definition sample_calls : list borrow_op :=
  [OpDeclare "a"; OpAccess ToRead "a"; OpAccess ToRead "a"; OpAccess ToWrite "a"; OpReturn "a"; OpReturn "a"; OpAccess ToMove "a";
   OpAccess ToRead "a"; OpPush; OpDeclare "b"; OpAccess ToWrite "b"; OpPop]%string.

Lemma borrow_checker_refines_ownership_witness :
  fst (trace call sample_calls new_borrow) =
    [None; Some true; Some true; Some false; None; None; Some true; Some false; None; None; Some true; None] /\
  map (fun e => (kind e, variable e)) (borrow_errors_ (after sample_calls)) =
    [(MutableBorrowWhileShared, "a"); (UseAfterMove, "a"); (BorrowOutlivesValue, "b")]%string.
Proof.
  pose proof (borrow_checker_refines_ownership sample_calls ltac:(reflexivity)) as H.
  unfold after. destruct (trace call sample_calls new_borrow) as [rs c].
  assert (E : trace obey sample_calls no_values =
    (fst (trace obey sample_calls no_values), snd (trace obey sample_calls no_values))) by reflexivity.
  rewrite E in H. clear E. destruct H as (H1 & H2 & _). cbn [fst snd] in *. rewrite H1, H2. vm_compute. auto.
Defined.

Lemma trace_app {S} (f : borrow_op -> S -> option bool * S) ops1 : forall ops2 s,
  snd (trace f (ops1 ++ ops2) s) = snd (trace f ops2 (snd (trace f ops1 s))).
Proof.
  induction ops1 as [|op ops1 IH]; intros ops2 s; [reflexivity|]. cbn [app trace]. destruct (f op s) as [r s1].
  specialize (IH ops2 s1). destruct (trace f (ops1 ++ ops2) s1), (trace f ops1 s1). cbn [snd] in *. exact IH.
Qed.

(** The value [n] has a status that satisfies [P]. *)
Definition status_is (P : ownership -> Prop) (n : string) (s : discipline) : Prop :=
  exists o d, find n (statuses s) = Some (o, d) /\ P o.

Section Stable.
  Context (P : ownership -> Prop) (n : string) (returns : bool).
  Hypothesis on_attempt : forall a o o', P o -> attempt a o = inl o' -> P o'.
  Hypothesis on_return : returns = true -> forall o, P o -> P (give_back o).

Definition keeps (op : borrow_op) : Prop := op <> OpDeclare n /\ (returns = false -> op <> OpReturn n).

Lemma status_set m o d s : (n = m -> P o) -> status_is P n s -> status_is P n (set_status m o d s).
Proof.
  intros Po (o' & d' & F & H). unfold status_is. cbn. destruct (string_dec n m) as [->|D].
  - exists o, d. split; [apply find_insert_eq|auto].
  - exists o', d'. rewrite find_insert_ne by exact D. auto.
Qed.

Lemma status_kept op s : keeps op -> status_is P n s -> status_is P n (snd (obey op s)).
Proof.
  intros [K1 K2] H. pose proof H as (o & d & F & Po). destruct op as [| |m|a m|m]; cbn [obey snd].
  - exact H.
  - destruct (0 <? nesting s); exact H.
  - apply status_set; [intros <-; contradiction|exact H].
  - destruct (find m (statuses s)) as [[o1 d1]|] eqn:E; [|exact H]. destruct (attempt a o1) as [o2|f] eqn:A; cbn [snd]; [|exact H].
    apply status_set; [|exact H]. intros <-. rewrite F in E. injection E as -> ->. exact (on_attempt _ _ _ Po A).
  - destruct (find m (statuses s)) as [[o1 d1]|] eqn:E; [|exact H]. apply status_set; [|exact H].
    intros <-. rewrite F in E. injection E as -> ->. destruct returns; [auto|]. exfalso. exact (K2 eq_refl eq_refl).
Qed.

Lemma status_through ops : forall s, Forall keeps ops -> status_is P n s -> status_is P n (snd (trace obey ops s)).
Proof.
  induction ops as [|op ops IH]; intros s F H; [exact H|]. inversion F; subst. cbn [trace].
  pose proof (status_kept op s ltac:(assumption) H) as H'. destruct (obey op s) as [r s1]. cbn [snd] in H'.
  specialize (IH s1 ltac:(assumption) H'). destruct (trace obey ops s1). exact IH.
Qed.
End Stable.

(** The answer to a call after a sequence of calls. *)
Definition answer_after (ops : list borrow_op) (op : borrow_op) : option bool := fst (call op (after ops)).

Lemma answer_of_machine ops op : Z.of_nat (length ops) < 2 ^ 64 - 1 ->
  answer_after ops op = fst (obey op (snd (trace obey ops no_values))).
Proof.
  intros L. destruct (after_implements ops) as [_ I]; [lia|]. apply (call_refines op (Z.of_nat (length ops))); [lia|exact I].
Qed.

(** What a granted access leaves behind. *)
Lemma granted_status a n s : fst (obey (OpAccess a n) s) = Some true ->
  exists o o', status_is (fun x => x = o) n s /\ attempt a o = inl o' /\ status_is (fun x => x = o') n (snd (obey (OpAccess a n) s)).
Proof.
  cbn. destruct (find n (statuses s)) as [[o d]|] eqn:F; [|discriminate]. destruct (attempt a o) as [o'|] eqn:A; [|discriminate].
  intros _. exists o, o'. split; [exists o, d; auto|]. split; [exact A|]. exists o', d. split; [apply find_insert_eq|reflexivity].
Qed.

Lemma answer_by_status (P : ownership -> Prop) b a n s : (forall o, P o -> match attempt a o with inl _ => true | inr _ => false end = b) ->
  status_is P n s -> fst (obey (OpAccess a n) s) = Some b.
Proof.
  intros H (o & d & F & Po). cbn. rewrite F. specialize (H o Po). destruct (attempt a o); cbn; congruence.
Qed.

(** From a granted access, through calls that keep what it left, to a last access. *)
Lemma after_granted (P : ownership -> Prop) returns b a a' n ops1 ops2 :
  (forall a o o', P o -> attempt a o = inl o' -> P o') -> (returns = true -> forall o, P o -> P (give_back o)) ->
  (forall o o', attempt a o = inl o' -> (forall r, o = Free r -> 0 <= r) -> P o') ->
  (forall o, P o -> match attempt a' o with inl _ => true | inr _ => false end = b) ->
  Z.of_nat (length ops1 + length ops2) < 2 ^ 64 - 2 -> answer_after ops1 (OpAccess a n) = Some true -> Forall (keeps n returns) ops2 ->
  answer_after (ops1 ++ OpAccess a n :: ops2) (OpAccess a' n) = Some b.
Proof.
  intros Ha Hr Hp Hb L G K.
  assert (L1 : Z.of_nat (length ops1) < 2 ^ 64 - 1) by lia.
  rewrite answer_of_machine in G by exact L1. rewrite answer_of_machine by (rewrite length_app; cbn [length]; lia).
  rewrite trace_app. set (s := snd (trace obey ops1 no_values)) in *. cbn [trace].
  apply granted_status in G. destruct G as (o & o' & (oo & d & Fo & ->) & A & S').
  destruct (obey (OpAccess a n) s) as [r s1]. cbn [snd] in S'.
  assert (S1 : status_is P n s1).
  { destruct S' as (x & d' & F & ->). exists o', d'. split; [exact F|]. apply (Hp o o' A).
    intros r' E. destruct (after_implements ops1 ltac:(lia)) as [_ I]. fold s in I. rewrite E in Fo.
    exact (proj1 (impl_readers _ _ _ I n _ d (find_In _ _ _ Fo))). }
  pose proof (status_through P n returns Ha Hr ops2 s1 K S1) as S2.
  destruct (trace obey ops2 s1) as [rs s2]. cbn [snd] in *. exact (answer_by_status P b a' n s2 Hb S2).
Qed.

Definition is_gone (o : ownership) : Prop := match o with Gone _ => True | _ => False end.
Definition is_lent (o : ownership) : Prop := o = Lent.
Definition is_read (o : ownership) : Prop := match o with Free r => 0 < r | _ => False end.

(** C33 After a granted move or drop every later access is refused until the name is
    declared again, whatever is returned; after a granted mutable borrow every access is
    refused until a borrow of it is returned; after a granted shared borrow only further
    shared borrows are granted until one is returned. *)
Theorem ownership_rules_enforced ops1 ops2 n a a' :
  Z.of_nat (length ops1 + length ops2) < 2 ^ 64 - 2 ->
  answer_after ops1 (OpAccess a n) = Some true ->
  Forall (fun op => op <> OpDeclare n) ops2 ->
  let later := answer_after (ops1 ++ OpAccess a n :: ops2) (OpAccess a' n) in
  (a = ToMove \/ a = ToDrop -> later = Some false) /\
  (Forall (fun op => op <> OpReturn n) ops2 ->
     (a = ToWrite -> later = Some false) /\
     (a = ToRead -> later = Some (match a' with ToRead => true | _ => false end))).
Proof.
  intros L G D later.
  assert (K1 : Forall (keeps n true) ops2) by (eapply Forall_impl; [|exact D]; intros op H; split; [exact H|discriminate]).
  assert (K2 : Forall (fun op => op <> OpReturn n) ops2 -> Forall (keeps n false) ops2).
  { intros R. rewrite Forall_forall in *. intros op I. split; auto. }
  assert (Gone_stays : forall a1 o o', is_gone o -> attempt a1 o = inl o' -> is_gone o').
  { intros [] [r| |[]] o'; cbn; intros H A; try contradiction; discriminate A. }
  assert (Lent_stays : forall a1 o o', is_lent o -> attempt a1 o = inl o' -> is_lent o').
  { intros a1 o o' -> A. destruct a1; discriminate A. }
  assert (Read_stays : forall a1 o o', is_read o -> attempt a1 o = inl o' -> is_read o').
  { intros a1 [r| |] o' H A; try contradiction. cbn in H, A. destruct a1; [..|injection A as <-; cbn; lia|];
      destruct (Z.eqb_spec r 0); try lia; discriminate A. }
  split; [intros Ha|intros R; split; intros ->].
  - apply (after_granted is_gone true false a a' n ops1 ops2); auto.
    + intros _ [] H; cbn in *; auto.
    + intros o o' A _. destruct Ha as [-> | ->]; destruct o as [r| |[]]; cbn in A; try discriminate A; destruct (r =? 0);
        try discriminate A; injection A as <-; exact I.
    + intros [r| |[]] H; try contradiction; destruct a'; reflexivity.
  - apply (after_granted is_lent false false ToWrite a' n ops1 ops2); auto; try discriminate.
    + intros o o' A _. destruct o as [r| |[]]; cbn in A; try discriminate A. destruct (r =? 0); [|discriminate A]. injection A as <-. reflexivity.
    + intros o ->. destruct a'; reflexivity.
  - apply (after_granted is_read false _ ToRead a' n ops1 ops2); auto; try discriminate.
    + intros o o' A H. destruct o as [r| |[]]; cbn in A; try discriminate A. injection A as <-. specialize (H r eq_refl). cbn. lia.
    + intros [r| |[]] H; try contradiction. cbn in H. replace (attempt a' (Free r)) with (match a' with ToRead => inl (Free (r + 1))
        | ToWrite => inr (Some MutableBorrowWhileShared) | _ => inr (Some MoveWhileBorrowed) end).
      * destruct a'; reflexivity.
      * cbn. destruct (Z.eqb_spec r 0); [lia|]. destruct a'; reflexivity.
Qed.

Lemma ownership_rules_enforced_witness :
  let calls := [OpDeclare "a"; OpDeclare "b"; OpDeclare "c"]%string in
  let between := [OpPush; OpAccess ToRead "z"; OpPop]%string in
  answer_after (calls ++ OpAccess ToMove "a" :: between) (OpAccess ToRead "a") = Some false /\
  answer_after (calls ++ OpAccess ToWrite "b" :: between) (OpAccess ToRead "b") = Some false /\
  answer_after (calls ++ OpAccess ToRead "c" :: between) (OpAccess ToRead "c") = Some true.
Proof.
  intros calls between.
  assert (D : forall n, n <> EmptyString -> Forall (fun op => op <> OpDeclare n) between /\ Forall (fun op => op <> OpReturn n) between)
    by (intros n _; split; repeat constructor; discriminate).
  split; [|split].
  - refine (proj1 (ownership_rules_enforced calls between "a" ToMove ToRead _ _ _) _);
      [reflexivity|vm_compute; reflexivity|apply D; discriminate|left; reflexivity].
  - refine (proj1 (proj2 (ownership_rules_enforced calls between "b" ToWrite ToRead _ _ _) _) _);
      [reflexivity|vm_compute; reflexivity|apply D; discriminate|apply D; discriminate|reflexivity].
  - refine (proj2 (proj2 (ownership_rules_enforced calls between "c" ToRead ToRead _ _ _) _) _);
      [reflexivity|vm_compute; reflexivity|apply D; discriminate|apply D; discriminate|reflexivity].
Defined.

(** What a call that answers [ok] does to the table and the errors. *)
Definition call_effect (silent : bool) (n : string) (c : BorrowChecker) (r : bool * BorrowChecker) : Prop :=
  if fst r then borrow_errors_ (snd r) = borrow_errors_ c
  else values_ (snd r) = values_ c /\
       (silent = false -> exists e, variable e = n /\ borrow_errors_ (snd r) = borrow_errors_ c ++ [e]).

(** For a declared name, after any sequence of calls, the predicates canMove,
    canBorrowShared and canBorrowMut answer exactly what move (and drop), borrowShared and
    borrowMut would; a granted call reports nothing, a refused one leaves all values as
    they were and reports one violation against the name, except dropping a value that
    is already gone, which reports none.  A name that was never declared is refused by
    every call, without report, although the predicates allow it. *)
Theorem predicates_decide_calls ops n : Z.of_nat (length ops) < 2 ^ 64 - 1 ->
  let c := after ops in
  (mem n (values_ c) = true ->
     (canMove n c = fst (move n c) /\ canMove n c = fst (drop n c)) /\
     canBorrowShared n c = fst (borrowShared n c) /\
     canBorrowMut n c = fst (borrowMut n c) /\
     call_effect false n c (move n c) /\ call_effect (negb (canUse n c)) n c (drop n c) /\
     call_effect false n c (borrowShared n c) /\ call_effect false n c (borrowMut n c)) /\
  (mem n (values_ c) = false ->
     (canMove n c && canBorrowShared n c && canBorrowMut n c && canUse n c = true) /\
     [move n c; drop n c; borrowShared n c; borrowMut n c] = repeat (false, c) 4).
Proof.
  intros L c. destruct (after_implements ops) as [_ I]; [lia|]. fold c in I. clearbody c. split; intros M.
  - apply mem_find in M. destruct M as [i F]. rewrite (find_record I n) in F.
    destruct (find n (statuses _)) as [[o d]|] eqn:E; [|discriminate F]. injection F as <-.
    pose proof (find_record I n) as F. rewrite E in F. cbn [option_map] in F.
    assert (R : forall r, o = Free r -> 0 <= r) by (intros r ->; exact (proj1 (impl_readers _ _ _ I n r d (find_In _ _ _ E)))).
    unfold canMove, canBorrowShared, canBorrowMut, canUse, move, drop, borrowShared, borrowMut, unborrowed, is_borrowed, call_effect.
    rewrite F. destruct o as [r| |[]]; [specialize (R r eq_refl)|..]; unfold record_of; cbn [state borrow_count has_mutable_borrow fst snd].
    1: destruct (Z.eqb_spec r 0) as [->|D]; [|replace (0 <? r) with true by lia; replace (r =? 0) with false by lia].
    all: repeat apply conj; try reflexivity; try discriminate; intros _; eexists; (split; [|reflexivity]); reflexivity.
  - apply mem_false in M. unfold canMove, canBorrowShared, canBorrowMut, canUse, move, drop, borrowShared, borrowMut.
    rewrite M. split; reflexivity.
Qed.

Lemma predicates_decide_calls_witness :
  canMove "a" (after sample_calls) = fst (move "a" (after sample_calls)) /\
  move "z" (after sample_calls) = (false, after sample_calls).
Proof.
  assert (L : Z.of_nat (length sample_calls) < 2 ^ 64 - 1) by reflexivity.
  assert (Ea : mem "a"%string (values_ (after sample_calls)) = true) by (vm_compute; reflexivity).
  assert (Ez : mem "z"%string (values_ (after sample_calls)) = false) by (vm_compute; reflexivity).
  pose proof (proj1 (predicates_decide_calls sample_calls "a"%string L) Ea) as Ha.
  pose proof (proj2 (predicates_decide_calls sample_calls "z"%string L) Ez) as Hz.
  generalize dependent (after sample_calls). intros c _ _ Ha Hz. destruct Ha as [[Ha _] _]. destruct Hz as [_ Hz].
  cbn [repeat] in Hz. injection Hz as Hz _ _ _. split; assumption.
Defined.

(** ** Linear variables *)

Inductive linear_event : Type := DeclareLinear (n : string) (t : TypeId) | UseOf (n : string).

Definition on_tracker (ev : linear_event) (l : LinearContext) : LinearContext :=
  match ev with DeclareLinear n _ => declareLinear n l | UseOf n => use n l end.

Definition on_context (ev : linear_event) (c : Context) : Context :=
  match ev with DeclareLinear n t => bindLinear n t c | UseOf n => useLinear n c end.

(** The uses of [n] since it was last declared, or [None] when it never was. *)
Fixpoint uses_of (n : string) (evs : list linear_event) (k : option nat) : option nat :=
  match evs with
  | [] => k
  | DeclareLinear m _ :: evs' => uses_of n evs' (if string_dec n m then Some 0%nat else k)
  | UseOf m :: evs' => uses_of n evs' (if string_dec n m then option_map S k else k)
  end.

Definition usage_class (k : nat) : Usage := match k with O => Unused | 1%nat => UsedOnce | _ => UsedMultiple end.

(** The tracker and the context after events with these uses. *)
Record counted (uses : string -> option nat) (l : LinearContext) (c : Context) : Prop := {
  same_names : ctx_linear_vars_ c = linear_vars_ l;
  names_ordered : ordered (linear_vars_ l);
  names_declared : forall n, mem n (linear_vars_ l) = match uses n with Some _ => true | None => false end;
  tracker_classes : forall n, find n (usage_ l) = option_map usage_class (uses n);
  context_counts : forall n, find n (linear_usage_count_ c) = option_map Z.of_nat (uses n)
}.

Lemma usage_next k : (match usage_class k with Unused => UsedOnce | _ => UsedMultiple end) = usage_class (S k).
Proof. destruct k as [|[|k]]; reflexivity. Qed.

Lemma counted_event uses l c ev : counted uses l c ->
  counted (fun n => uses_of n [ev] (uses n)) (on_tracker ev l) (on_context ev c).
Proof.
  intros [S O D T C]. destruct ev as [m t|m]; cbn [on_tracker on_context uses_of].
  - assert (B : forall x, ctx_linear_vars_ (ctx_bind m t x) = ctx_linear_vars_ x /\ linear_usage_count_ (ctx_bind m t x) = linear_usage_count_ x).
    { intros x. unfold ctx_bind. destruct (scopes_ x); split; reflexivity. }
    destruct (B c) as [B1 B2]. unfold declareLinear, bindLinear. constructor; cbn; rewrite ?B1, ?B2.
    + rewrite S. reflexivity.
    + apply insert_ordered, O.
    + intros n. unfold add_name. destruct (string_dec n m) as [->|N]; unfold mem; [rewrite find_insert_eq; reflexivity|].
      rewrite find_insert_ne by exact N. apply D.
    + intros n. destruct (string_dec n m) as [->|N]; [apply find_insert_eq|]. rewrite find_insert_ne by exact N. apply T.
    + intros n. destruct (string_dec n m) as [->|N]; [apply find_insert_eq|]. rewrite find_insert_ne by exact N. apply C.
  - unfold use, useLinear. rewrite S. pose proof (D m) as Dm. destruct (uses m) as [k|] eqn:U; rewrite Dm.
    + constructor; cbn; auto.
      * intros n. rewrite D. destruct (string_dec n m) as [->|N]; [rewrite U|]; reflexivity.
      * intros n. destruct (string_dec n m) as [->|N]; [|rewrite find_insert_ne by exact N; apply T].
        rewrite find_insert_eq, T, U. cbn [option_map]. rewrite <- usage_next. destruct (usage_class k); reflexivity.
      * intros n. destruct (string_dec n m) as [->|N]; [|rewrite find_insert_ne by exact N; apply C].
        rewrite find_insert_eq. unfold count_of. rewrite C, U. cbn [option_map]. f_equal. lia.
    + constructor; auto; intros n; destruct (string_dec n m) as [->|N]; rewrite ?U; cbn; auto.
      * rewrite T, U. reflexivity.
      * rewrite C, U. reflexivity.
Qed.

Lemma counted_ext uses uses' l c : (forall n, uses n = uses' n) -> counted uses l c -> counted uses' l c.
Proof. intros E [S O D T C]. constructor; auto; intros n; rewrite <- E; auto. Qed.

Lemma counted_events evs : forall uses l c, counted uses l c ->
  counted (fun n => uses_of n evs (uses n)) (fold_left (fun l ev => on_tracker ev l) evs l) (fold_left (fun c ev => on_context ev c) evs c).
Proof.
  induction evs as [|ev evs IH]; intros uses l c H; [exact H|]. cbn [fold_left].
  eapply counted_ext; [|apply IH, counted_event, H]. intros n. destruct ev; reflexivity.
Qed.

Lemma In_names (s : name_set) n : ordered s -> In n (map fst s) <-> mem n s = true.
Proof.
  intros O. rewrite mem_find. rewrite in_map_iff. split.
  - intros ([m []] & <- & I). exists tt. apply In_find; assumption.
  - intros [[] F]. exists (n, tt). split; [reflexivity|apply find_In, F].
Qed.

Lemma filter_same {A} (p q : A -> bool) l : (forall a, In a l -> p a = q a) -> filter p l = filter q l.
Proof.
  induction l as [|a l IH]; intros H; [reflexivity|]. cbn. rewrite (H a) by (left; reflexivity).
  rewrite IH by (intros b I; apply H; right; exact I). reflexivity.
Qed.

Lemma forallb_same {A} (p q : A -> bool) l : (forall a, In a l -> p a = q a) -> forallb p l = forallb q l.
Proof.
  induction l as [|a l IH]; intros H; [reflexivity|]. cbn. rewrite (H a) by (left; reflexivity).
  rewrite IH by (intros b I; apply H; right; exact I). reflexivity.
Qed.

Definition tracker_after (evs : list linear_event) : LinearContext := fold_left (fun l ev => on_tracker ev l) evs new_linear.
Definition context_after (evs : list linear_event) : Context := fold_left (fun c ev => on_context ev c) evs new_context.

Lemma counted_after evs : counted (fun n => uses_of n evs None) (tracker_after evs) (context_after evs).
Proof. apply (counted_events evs (fun _ => None)). constructor; cbn; auto using ordered_nil. Qed.

(** After any sequence of fewer than 2^31 declarations and uses, both linear trackers (LinearContext
    and the type checker's Context) tell for every name how often it was used since its
    last declaration: they list the same unused and the same overused names, those with
    no use and with two or more, and both check succeed exactly when every declared name
    was used exactly once. *)
Theorem linear_usage_exact evs : Z.of_nat (length evs) < 2 ^ 31 ->
  let l := tracker_after evs in
  let c := context_after evs in
  let uses n := uses_of n evs None in
  (forall n, isLinear n c = tracks_linear n l /\ (isLinear n c = true <-> uses n <> None) /\
     getUsage n l = match uses n with Some k => usage_class k | None => Unused end /\
     isLinearUsed n c = match uses n with Some k => (0 <? k)%nat | None => false end) /\
  (getUnusedLinear c = getUnused l /\ forall n, In n (getUnused l) <-> uses n = Some 0%nat) /\
  (getOverusedLinear c = getOverused l /\ forall n, In n (getOverused l) <-> exists k, uses n = Some k /\ (2 <= k)%nat) /\
  (checkLinearConstraints c = checkAllUsedOnce l /\
   (checkAllUsedOnce l = true <-> forall n k, uses n = Some k -> k = 1%nat)).
Proof.
  intros _ l c uses. assert (K : counted uses l c) by exact (counted_after evs). clearbody uses l c.
  destruct K as [Ev Or Dn Tn Cn].
  assert (D' : forall n, In n (map fst (linear_vars_ l)) <-> uses n <> None).
  { intros n. rewrite In_names, Dn by exact Or. destruct (uses n); split; intros; congruence. }
  unfold isLinear, tracks_linear, getUsage, isLinearUsed, getUnusedLinear, getUnused, getOverusedLinear, getOverused,
    checkLinearConstraints, checkAllUsedOnce, names_where. rewrite Ev.
  split; [|split; [|split]].
  - intros n. rewrite Tn, Cn, Dn. destruct (uses n) as [[|k]|]; cbn; repeat split; congruence.
  - split.
    + apply filter_same. intros n _. rewrite Tn, Cn. destruct (uses n) as [[|[|k]]|]; cbn [option_map usage_class]; try reflexivity; lia.
    + intros n. rewrite filter_In, D', Tn. destruct (uses n) as [[|[|k]]|]; cbn; intuition congruence.
  - split.
    + apply filter_same. intros n _. rewrite Tn, Cn. destruct (uses n) as [[|[|k]]|]; cbn [option_map usage_class]; try reflexivity. apply Z.ltb_lt. rewrite !Nat2Z.inj_succ. lia.
    + intros n. rewrite filter_In, D', Tn. split.
      * destruct (uses n) as [[|[|k]]|]; cbn; intros [H1 H2]; try discriminate H2. exists (S (S k)). split; [reflexivity|lia].
      * intros (k & -> & H). destruct k as [|[|k]]; cbn; [lia|lia|]. split; congruence.
  - split.
    + apply forallb_same. intros n _. rewrite Tn, Cn. destruct (uses n) as [[|[|k]]|]; cbn [option_map usage_class]; try reflexivity. apply Z.eqb_neq. lia.
    + rewrite forallb_forall. split.
      * intros H n k E. specialize (H n (proj2 (D' n) ltac:(congruence))). rewrite Tn, E in H. destruct k as [|[|k]]; cbn in H; congruence.
      * intros H n I. rewrite Tn. apply D' in I. destruct (uses n) as [k|] eqn:E; [|contradiction]. rewrite (H n k E). reflexivity.
Qed.

Definition sample_events : list linear_event :=
  [DeclareLinear "h" BuiltinTypes.Handle; DeclareLinear "q" BuiltinTypes.Stream; UseOf "h"; UseOf "q"; UseOf "q"; UseOf "z"; DeclareLinear "r" BuiltinTypes.Stream]%string.

Lemma linear_usage_exact_witness :
  getUnusedLinear (context_after sample_events) = getUnused (tracker_after sample_events) /\
  getUnused (tracker_after sample_events) = ["r"]%string /\ getOverused (tracker_after sample_events) = ["q"]%string /\
  In "r"%string (getUnused (tracker_after sample_events)).
Proof.
  assert (L : Z.of_nat (length sample_events) < 2 ^ 31) by reflexivity.
  destruct (linear_usage_exact sample_events L) as (_ & (H1 & H2) & _).
  split; [exact H1|]. split; [vm_compute; reflexivity|]. split; [vm_compute; reflexivity|]. apply H2. reflexivity.
Defined.

(** ** Uses checked at their site *)

Inductive checked_event : Type := LetLinear (n : string) (t : TypeId) | Variable_ (n : string).

(** What [synthesizeLambda] and [checkLinearVariable] do to the checker. *)
Definition on_checker (ev : checked_event) (k : TypeChecker) : TypeChecker :=
  match ev with
  | LetLinear n t => with_ctx (bindLinear n t (ctx_ k)) k
  | Variable_ n => snd (checkLinearVariable n k)
  end.

Definition checker_after (evs : list checked_event) : TypeChecker := fold_left (fun k ev => on_checker ev k) evs new_checker.

(** The type of [n] and whether it was mentioned since its last declaration. *)
Definition linear_status (n : string) (ev : checked_event) (st : option (TypeId * bool)) : option (TypeId * bool) :=
  match ev with
  | LetLinear m t => if string_dec n m then Some (t, false) else st
  | Variable_ m => if string_dec n m then option_map (fun p => (fst p, true)) st else st
  end.

Definition status_after (n : string) (evs : list checked_event) : option (TypeId * bool) :=
  fold_left (fun st ev => linear_status n ev st) evs None.

Definition not_mentioned (st : option (TypeId * bool)) : bool := match st with Some (_, false) => true | _ => false end.

Record tracks (st : string -> option (TypeId * bool)) (k : TypeChecker) : Prop := {
  tracks_safe : unsafe_depth_ k = 0;
  tracks_scope : exists s, scopes_ (ctx_ k) = [s] /\ forall n, find n s = option_map fst (st n);
  tracks_ordered : ordered (ctx_linear_vars_ (ctx_ k));
  tracks_names : forall n, isLinear n (ctx_ k) = match st n with Some _ => true | None => false end;
  tracks_counts : forall n, find n (linear_usage_count_ (ctx_ k)) = option_map (fun p : TypeId * bool => if snd p then 1 else 0) (st n);
  tracks_errors : errors_ k = []
}.

Lemma tracks_lookup st k n : tracks st k -> lookup n (ctx_ k) = option_map fst (st n).
Proof. intros T. destruct (tracks_scope _ _ T) as (s & E & F). unfold lookup. rewrite E. cbn. rewrite F. destruct (st n); reflexivity. Qed.

Lemma tracks_used st k n : tracks st k -> isLinearUsed n (ctx_ k) = match st n with Some (_, b) => b | None => false end.
Proof. intros T. unfold isLinearUsed. rewrite (tracks_counts _ _ T). destruct (st n) as [[t []]|]; reflexivity. Qed.

(** The outcome of a use, by status. *)
Lemma checked_use st k n : tracks st k ->
  checkLinearVariable n k =
    match st n with
    | None => (TypeError ("Undefined variable: " ++ n), k)
    | Some (t, true) => (TypeError ("Linear variable '" ++ n ++ "' was already used (cannot use more than once)"), k)
    | Some (t, false) => (TypeOk t, with_ctx (useLinear n (ctx_ k)) k)
    end%string.
Proof.
  intros T. unfold checkLinearVariable, isUnsafe. rewrite (tracks_names _ _ T), (tracks_used _ _ n T), (tracks_lookup _ _ n T), (tracks_safe _ _ T).
  destruct (st n) as [[t []]|] eqn:E; cbn [negb option_map typed fst Z.ltb Z.compare]; try reflexivity.
  assert (Hl : lookup n (ctx_ (with_ctx (useLinear n (ctx_ k)) k)) = lookup n (ctx_ k)).
  { cbn [with_ctx ctx_]. unfold useLinear. destruct (mem _ _); reflexivity. }
  rewrite Hl, (tracks_lookup _ _ n T), E. reflexivity.
Qed.

Lemma tracks_ext st st' k : (forall n, st n = st' n) -> tracks st k -> tracks st' k.
Proof.
  intros E [U (s & Es & F) O N C Er]. constructor; auto; [exists s; split; [exact Es|]|..]; intros n; rewrite <- E; auto.
Qed.

Lemma tracks_event st k ev : tracks st k -> tracks (fun n => linear_status n ev (st n)) (on_checker ev k).
Proof.
  intros T. destruct ev as [m t|m]; cbn [on_checker linear_status].
  - destruct T as [U (s & Es & F) O N C Er]. unfold bindLinear, ctx_bind. rewrite Es. constructor; cbn; auto.
    + exists (insert m t s). split; [reflexivity|]. intros n.
      destruct (string_dec n m) as [->|D]; [apply find_insert_eq|rewrite find_insert_ne by exact D; apply F].
    + apply insert_ordered, O.
    + intros n. unfold isLinear, add_name, mem in *. cbn.
      destruct (string_dec n m) as [->|D]; [rewrite find_insert_eq; reflexivity|rewrite find_insert_ne by exact D; apply N].
    + intros n. destruct (string_dec n m) as [->|D]; [apply find_insert_eq|rewrite find_insert_ne by exact D; apply C].
  - rewrite (checked_use st k m T). pose proof T as [U (s & Es & F) O N C Er].
    assert (Keep : (forall p, st m = Some p -> snd p = true) -> forall n, linear_status n (Variable_ m) (st n) = st n).
    { intros H n. cbn. destruct (string_dec n m) as [->|]; [|reflexivity]. destruct (st m) as [[t b]|]; [|reflexivity].
      specialize (H _ eq_refl). cbn in *. subst. reflexivity. }
    destruct (st m) as [[t []]|] eqn:E; cbn [snd].
    + apply (tracks_ext st); [|exact T]. intros n. symmetry. apply (Keep ltac:(intros p H; injection H as <-; reflexivity)).
    + unfold useLinear. pose proof (N m) as Nm. unfold isLinear in Nm. rewrite Nm, E. constructor; cbn; auto.
      * exists s. split; [exact Es|]. intros n. rewrite F. destruct (string_dec n m) as [->|]; [rewrite E|]; reflexivity.
      * intros n. unfold isLinear in *. cbn. rewrite N. destruct (string_dec n m) as [->|]; [rewrite E|]; reflexivity.
      * intros n. destruct (string_dec n m) as [->|D]; [|rewrite find_insert_ne by exact D; apply C].
        rewrite find_insert_eq. unfold count_of. rewrite C, E. reflexivity.
    + apply (tracks_ext st); [|exact T]. intros n. symmetry. apply (Keep ltac:(discriminate)).
Qed.

Lemma tracks_after evs : tracks (fun n => status_after n evs) (checker_after evs).
Proof.
  unfold status_after, checker_after.
  assert (H : forall st k, tracks st k -> tracks (fun n => fold_left (fun st ev => linear_status n ev st) evs (st n)) (fold_left (fun k ev => on_checker ev k) evs k)).
  { induction evs as [|ev evs IH]; intros st k T; [exact T|]. cbn [fold_left]. apply (IH (fun n => linear_status n ev (st n))), tracks_event, T. }
  apply (H (fun _ => None)). constructor; cbn; auto using ordered_nil. exists []. auto.
Qed.

Lemma tracks_unused st k n : tracks st k ->
  isLinear n (ctx_ k) && negb (isLinearUsed n (ctx_ k)) = not_mentioned (st n).
Proof. intros T. rewrite (tracks_names _ _ T), (tracks_used _ _ n T). destruct (st n) as [[t []]|]; reflexivity. Qed.

Lemma tracks_not_overused st k : tracks st k -> getOverusedLinear (ctx_ k) = [].
Proof.
  intros T. unfold getOverusedLinear, names_where. apply incl_l_nil. intros n I. apply filter_In in I. destruct I as [_ B].
  rewrite (tracks_counts _ _ T) in B. destruct (st n) as [[t []]|]; discriminate B.
Qed.

Lemma tracks_let st k bindings : tracks st k ->
  checkLinearLet bindings k =
    match filter (fun n => not_mentioned (st n)) bindings with
    | [] => (TypeOk BuiltinTypes.Null, k)
    | ms => (TypeError (not_consumed_text ms), addError (not_consumed_text ms) k)
    end.
Proof.
  intros T. unfold checkLinearLet, isUnsafe. rewrite (tracks_safe _ _ T). cbn [Z.ltb Z.compare].
  rewrite (filter_same _ (fun n => not_mentioned (st n)) bindings); [reflexivity|]. intros n _. apply tracks_unused, T.
Qed.

Lemma filter_nil {A} (p : A -> bool) l : filter p l = [] <-> forall a, In a l -> p a = false.
Proof.
  split.
  - intros E a I. destruct (p a) eqn:P; [|reflexivity]. exfalso. apply (@in_nil A a). rewrite <- E. apply filter_In. auto.
  - intros H. apply incl_l_nil. intros a I. apply filter_In in I. destruct I as [I P]. rewrite (H a I) in P. discriminate P.
Qed.

(** Outside unsafe blocks, uses checked at their site are granted once: after any
    sequence of linear bindings and checked mentions, mentioning a name succeeds with its
    type exactly when it is bound and was not mentioned since, so no variable is ever
    counted twice, and the end of a let reports exactly the bound names of the let that
    were never mentioned, in their order, and succeeds when there are none. *)
Theorem checked_linear_uses evs n bindings : Z.of_nat (length evs) < 2 ^ 31 ->
  let k := checker_after evs in
  let fresh m := not_mentioned (status_after m evs) in
  (match fst (checkLinearVariable n k) with
   | TypeOk t => status_after n evs = Some (t, false)
   | TypeError _ => fresh n = false
   end) /\
  getOverusedLinear (ctx_ k) = [] /\
  checkLinearLet bindings k =
    match filter fresh bindings with
    | [] => (TypeOk BuiltinTypes.Null, k)
    | ms => (TypeError (not_consumed_text ms), addError (not_consumed_text ms) k)
    end /\
  (fst (checkLinearLet bindings k) = TypeOk BuiltinTypes.Null <-> forall m, In m bindings -> fresh m = false).
Proof.
  intros _ k fresh. pose proof (tracks_after evs) as T. fold k in T. clearbody k.
  pose proof (tracks_let _ k bindings T) as L. cbv beta in L. change (fun n => not_mentioned (status_after n evs)) with fresh in L.
  split; [|split; [exact (tracks_not_overused _ _ T)|split; [exact L|]]].
  - rewrite (checked_use _ k n T). unfold fresh. destruct (status_after n evs) as [[t []]|]; reflexivity.
  - rewrite L, <- (filter_nil fresh bindings). destruct (filter fresh bindings) as [|m ms]; cbn [fst]; split; intros H; (reflexivity || discriminate H).
Qed.

Definition sample_checked : list checked_event :=
  [LetLinear "h" BuiltinTypes.Handle; LetLinear "s" BuiltinTypes.Stream; Variable_ "h"; Variable_ "h"]%string.

Lemma checked_linear_uses_witness :
  getOverusedLinear (ctx_ (checker_after sample_checked)) = [] /\
  fst (checkLinearVariable "s" (checker_after sample_checked)) = TypeOk BuiltinTypes.Stream /\
  fst (checkLinearLet ["h"; "s"]%string (checker_after sample_checked)) = TypeError (not_consumed_text ["s"%string]) /\
  fst (checkLinearLet ["h"]%string (checker_after sample_checked)) = TypeOk BuiltinTypes.Null.
Proof.
  assert (L : Z.of_nat (length sample_checked) < 2 ^ 31) by reflexivity.
  destruct (checked_linear_uses sample_checked "s" ["h"; "s"]%string L) as (_ & H2 & H3 & _).
  destruct (checked_linear_uses sample_checked "h" ["h"]%string L) as (_ & _ & _ & H4).
  split; [exact H2|]. split; [vm_compute; reflexivity|]. split.
  - rewrite H3. vm_compute. reflexivity.
  - apply H4. intros m [<-|[]]. vm_compute. reflexivity.
Defined.

(** ** Edge cases *)

(** Linearity and ownership go by name.  An annotation names the type of a resource
    without its linear flag, so a parameter annotated with it is bound as an ordinary
    one; a linear variable that nobody consumed makes every lambda that follows report;
    binding a name again forgets that it was used; a value left in a table outlives its
    scope and is reported again by a later scope of the same depth; and declaring a name
    in an inner scope forgets that the outer value was moved. *)
Lemma ownership_edge_cases :
  (exists t, resolveType 1 no_aliases (TName (Some "Handle"%string)) new_env = Some (t, new_env) /\
     isLinearType t new_env = true /\ bind_parameter "h" t new_context = ctx_bind "h" t new_context) /\
  (let outer := ctx_popScope (bindLinear "h" BuiltinTypes.Handle (ctx_pushScope new_context)) in
   lookup "h" outer = None /\
   lambda_issues (ctx_pushScope outer) = ["linear variable 'h' was not consumed"%string]) /\
  (let c := useLinear "h" (useLinear "h" (bindLinear "h" BuiltinTypes.Handle new_context)) in
   checkLinearConstraints c = false /\ checkLinearConstraints (useLinear "h" (bindLinear "h" BuiltinTypes.Handle c)) = true) /\
  map variable (borrow_errors_ (after [OpPush; OpDeclare "x"; OpAccess ToRead "x"; OpPop; OpPush; OpPop]%string)) = ["x"; "x"]%string /\
  answer_after [OpDeclare "x"; OpAccess ToMove "x"; OpPush; OpDeclare "x"; OpPop]%string (OpAccess ToMove "x"%string) = Some true.
Proof.
  split; [|vm_compute; auto 10]. eexists. split; [vm_compute; reflexivity|]. split; vm_compute; reflexivity.
Qed.
