(* ===== verification/MacroExpander.v ===== *)
(** * The macro expander: lib/frontend/macro_expander.cpp

    Syntax trees, [syntax-rules] patterns and templates, matching, template
    instantiation and the expansion of programs.  Copying a node copies the pointer to
    the clauses of a match expression, which expansion and substitution overwrite in
    place; so these arrays live in a store, by address, and everything else is a value. *)

From Stdlib Require Import String ZArith List Bool Lia.
From S2P Require Import Prelude OrderedMap.
Import ListNotations.

(** ** Syntax trees *)

(** The operations laid out as a call. *)
Inductive call_kind : Type :=
| ESHKOL_CALL_OP | ESHKOL_COND_OP | ESHKOL_CASE_OP | ESHKOL_WHEN_OP | ESHKOL_UNLESS_OP | ESHKOL_DO_OP
| ESHKOL_QUASIQUOTE_OP | ESHKOL_UNQUOTE_OP | ESHKOL_UNQUOTE_SPLICING_OP | ESHKOL_QUOTE_OP.

Inductive seq_kind : Type := ESHKOL_SEQUENCE_OP | ESHKOL_AND_OP | ESHKOL_OR_OP | ESHKOL_VALUES_OP.
Inductive let_kind : Type := ESHKOL_LET_OP | ESHKOL_LET_STAR_OP | ESHKOL_LETREC_OP | ESHKOL_LETREC_STAR_OP.

(** [eshkol_ast_t].  A pointer that may be null is an [option], an array a list; macro
    definitions and arrays of match clauses are given by their addresses.  [AData] is a
    constant by its text; [AOther] an operation the expander does not look into. *)
Inductive ast : Type :=
| AInvalid
| ANull
| AData (text : string)
| AVar (id : option string)
| ACons (car cdr : option ast)
| ACall (k : call_kind) (func : option ast) (variables : list ast)
| ASeq (k : seq_kind) (expressions : list ast)
| ADefine (name : string) (value : option ast)
| ALambda (parameters : list string) (body : option ast)
| ALet (k : let_kind) (bindings : list ast) (body : option ast)
| AMatch (expr : option ast) (clauses : nat)
| ASet (name : string) (value : option ast)
| AGuard (var_name : string) (clauses body : list ast)
| ARaise (exception : option ast)
| ACallCC (proc : option ast)
| ADynamicWind (before thunk after : option ast)
| ADefineSyntax (macro : option nat)
| ALetSyntax (macros : list (option nat)) (body : ast)
| AOther (op : string) (operands : list ast).

(** [eshkol_match_clause_t]; the pattern and the guard are never looked at. *)
Record match_clause : Type := mkClause { clause_pattern : string; clause_guard : option ast; clause_body : option ast }.

(** The copy has its own strings. *)
Definition copyAst (a : ast) : ast := a.

(** A symbol by name: a null name is no symbol. *)
Definition isSymbol (a : ast) (name : string) : bool :=
  match a with AVar (Some id) => String.eqb id name | _ => false end.

Definition isEllipsisSymbol (a : ast) : bool := isSymbol a "...".

(** ** Patterns and templates *)

(** [eshkol_macro_pattern_t*]; a null identifier reads as the empty name. *)
Inductive pattern : Type :=
| PNull
| PVariable (identifier : string) (followed_by_ellipsis : bool)
| PLiteral (identifier : string) (followed_by_ellipsis : bool)
| PList (elements : list pattern) (followed_by_ellipsis : bool)
| POther (followed_by_ellipsis : bool).

Definition followed_by_ellipsis (p : pattern) : bool :=
  match p with PNull => false | PVariable _ e | PLiteral _ e | PList _ e | POther e => e end.

Inductive template : Type :=
| TplNull
| TplLiteral (literal : option ast)
| TplVariable (variable_name : option string)
| TplList (elements : list template)
| TplEllipsis.

Record macro_def : Type := mkMacro { macro_name : option string; rules : list (pattern * template) }.

(** ** Matches *)

(** [MatchTree]. *)
Inductive match_tree : Type := Tree (depth : nat) (scalar : ast) (elements : list match_tree).

Definition tree_depth (t : match_tree) : nat := match t with Tree d _ _ => d end.
Definition tree_elements (t : match_tree) : list match_tree := match t with Tree _ _ es => es end.

Definition scalar_tree (a : ast) : match_tree := Tree 0 a [].

(** [Bindings]. *)
Definition bindings : Type := omap string match_tree.

Definition matchTreeHasValue (t : match_tree) : bool :=
  match t with Tree O _ _ => true | Tree _ _ [] => false | Tree _ _ (_ :: _) => true end.

(** [None]: the first element of an empty vector is taken. *)
Fixpoint matchTreeFirstScalar (t : match_tree) : option ast :=
  match t with
  | Tree O a _ => Some a
  | Tree (S _) _ [] => None
  | Tree (S _) _ (t' :: _) => matchTreeFirstScalar t'
  end.

(** ** Matching *)

(** The variables that an element can bind, with their depths. *)
Fixpoint collectPatternVarDepths (p : pattern) (depth : nat) (out : omap string nat) : omap string nat :=
  match p with
  | PVariable name _ =>
    if String.eqb name EmptyString || String.eqb name "_" then out else insert name depth out
  | PList elements _ =>
    fold_left (fun out child => collectPatternVarDepths child (if followed_by_ellipsis child then S depth else depth) out)
      elements out
  | _ => out
  end.

Section Sequence.
  (** [matchPattern] *)
  Variable matchPattern : pattern -> ast -> bindings -> option bindings.

(** One repetition of an element per argument, each from no bindings. *)
Fixpoint match_repetitions (elem : pattern) (args : list ast) : option (list bindings) :=
  match args with
  | [] => Some []
  | a :: args' =>
    match matchPattern elem a [] with
    | None => None
    | Some sub => option_map (cons sub) (match_repetitions elem args')
    end
  end.

(** The merged tree of one variable. *)
Definition merge_tree (name : string) (child_depth : nat) (subs : list bindings) : match_tree :=
  Tree (S child_depth) AInvalid
    (map (fun sub => match find name sub with Some t => t | None => Tree child_depth AInvalid [] end) subs).

Definition merge_repetitions (elem : pattern) (subs : list bindings) (b : bindings) : bindings :=
  fold_left (fun b (ld : string * nat) => insert (fst ld) (merge_tree (fst ld) (snd ld) subs) b)
    (collectPatternVarDepths elem 0 []) b.

Fixpoint match_sequence (elements : list pattern) (args : list ast) (b : bindings) : option bindings :=
  match elements with
  | [] => match args with [] => Some b | _ => None end
  | elem :: elements' =>
    if followed_by_ellipsis elem then
      match match_repetitions elem args with
      | None => None
      | Some subs => match_sequence elements' [] (merge_repetitions elem subs b)
      end
    else
      match elem, args with
      | PNull, _ | _, [] => None
      | _, a :: args' =>
        match matchPattern elem a b with
        | None => None
        | Some b' => match_sequence elements' args' b'
        end
      end
  end.
End Sequence.

(** The bindings after a match, [None] when there is none.  The literals of the macro
    are passed around but not used: the parser has marked them in the pattern. *)
Fixpoint matchPattern (p : pattern) (a : ast) (b : bindings) : option bindings :=
  match p with
  | PVariable name _ => if String.eqb name "_" then Some b else Some (insert name (scalar_tree a) b)
  | PLiteral name _ => if isSymbol a name then Some b else None
  | PList elements _ =>
    match a with
    | ACall ESHKOL_CALL_OP (Some func) variables => match_sequence matchPattern elements (func :: variables) b
    | _ => None
    end
  | PNull | POther _ => None
  end.

Definition matchPatternSeq (elements : list pattern) (args : list ast) (b : bindings) : option bindings :=
  match_sequence matchPattern elements args b.

(** ** State *)

Inductive expand_error : Type :=
| DepthLimit | CircularExpansion (name : string) | NoMatchingPattern (name : string) | MisplacedEllipsis.

Record expander : Type := mkExpander {
  clause_store : list (list match_clause);
  scope_stack_ : list (omap string nat);
  errors : list expand_error
}.

Definition new_expander : expander := mkExpander [] [[]] [].

(** [Diverge]: the recursion did not end within the fuel; [Crash]: undefined. *)
Inductive expansion (A : Type) : Type := Done (a : A) (s : expander) | Diverge | Crash.
Arguments Done {A}. Arguments Diverge {A}. Arguments Crash {A}.

Definition X (A : Type) : Type := expander -> expansion A.
Definition x_ret {A} (a : A) : X A := fun s => Done a s.
Definition x_bind {A B} (m : X A) (k : A -> X B) : X B :=
  fun s => match m s with Done a s' => k a s' | Diverge => Diverge | Crash => Crash end.
Definition x_get {A} (f : expander -> A) : X A := fun s => Done (f s) s.
Definition x_modify (f : expander -> expander) : X unit := fun s => Done tt (f s).

Declare Scope expander_scope.
Delimit Scope expander_scope with expander.
Notation "'do*' x ':=' m 'in' k" := (x_bind m (fun x => k)) (at level 10, x name, k at level 200) : expander_scope.
Open Scope expander_scope.

Definition eshkol_error (e : expand_error) : X unit :=
  x_modify (fun s => mkExpander (clause_store s) (scope_stack_ s) (errors s ++ [e])).

Fixpoint x_map {A B} (f : A -> X B) (l : list A) : X (list B) :=
  match l with
  | [] => x_ret []
  | a :: l' => do* b := f a in do* bs := x_map f l' in x_ret (b :: bs)
  end.

Definition x_option {A B} (f : A -> X B) (o : option A) : X (option B) :=
  match o with Some a => do* b := f a in x_ret (Some b) | None => x_ret None end.

(** Clause [i] of the array at [loc]. *)
Definition clause_at (s : expander) (loc i : nat) : option match_clause :=
  match nth_error (clause_store s) loc with Some cs => nth_error cs i | None => None end.

Fixpoint update {A} (i : nat) (f : A -> A) (l : list A) : list A :=
  match l, i with
  | [], _ => []
  | x :: l', O => f x :: l'
  | x :: l', S i' => x :: update i' f l'
  end.

Definition set_clause_body (loc i : nat) (body : ast) : X unit :=
  x_modify (fun s => mkExpander
    (update loc (update i (fun c => mkClause (clause_pattern c) (clause_guard c) (Some body))) (clause_store s))
    (scope_stack_ s) (errors s)).

Definition num_clauses (loc : nat) (s : expander) : nat :=
  match nth_error (clause_store s) loc with Some cs => length cs | None => O end.

(** The loop over the clauses of a match expression: each body is read when its turn
    comes and overwritten with the result. *)
Fixpoint rewrite_clauses (f : ast -> X ast) (loc : nat) (idxs : list nat) : X unit :=
  match idxs with
  | [] => x_ret tt
  | i :: idxs' =>
    do* c := x_get (fun s => clause_at s loc i) in
    do* u := (match c with
              | Some (mkClause _ _ (Some body)) => do* body' := f body in set_clause_body loc i body'
              | _ => x_ret tt
              end) in
    rewrite_clauses f loc idxs'
  end.

Definition on_clauses (f : ast -> X ast) (loc : nat) : X unit :=
  do* n := x_get (num_clauses loc) in rewrite_clauses f loc (seq 0 n).

(** ** Ellipses in templates *)

(** The bindings of one repetition; an index past the end takes the last element. *)
Definition peel_tree (idx : nat) (t : match_tree) : match_tree :=
  match t with
  | Tree O _ _ => t
  | Tree (S d) _ [] => Tree d AInvalid []
  | Tree (S d) _ es => nth (Nat.min idx (length es - 1)) es (Tree d AInvalid [])
  end.

Definition peelBindingsAtIndex (b : bindings) (idx : nat) : bindings :=
  map (fun p => (fst p, peel_tree idx (snd p))) b.

(** The first answer in a list, in order. *)
Fixpoint first_of {A} (f : A -> X (option string)) (l : list A) : X (option string) :=
  match l with
  | [] => x_ret None
  | a :: l' => do* r := f a in match r with Some d => x_ret (Some d) | None => first_of f l' end
  end.

Definition option_list {A} (o : option A) : list A := match o with Some a => [a] | None => [] end.

(** The sub-expressions searched for a driver, in order; those of a match expression are
    its subject and then its bodies. *)
Definition searched (s : expander) (a : ast) : list ast :=
  match a with
  | ACons car cdr => option_list car ++ option_list cdr
  | ACall _ func variables => option_list func ++ variables
  | ASeq _ es => es
  | ADefine _ v | ASet _ v => option_list v
  | ALambda _ b => option_list b
  | ALet _ bs b => bs ++ option_list b
  | AMatch e loc =>
    option_list e ++
    flat_map (fun c => option_list (clause_body c)) (match nth_error (clause_store s) loc with Some cs => cs | None => [] end)
  | AGuard _ cs body => cs ++ body
  | ARaise e => option_list e
  | ACallCC p => option_list p
  | ADynamicWind x y z => option_list x ++ option_list y ++ option_list z
  | AInvalid | ANull | AData _ | AVar _ | ADefineSyntax _ | ALetSyntax _ _ | AOther _ _ => []
  end.

Fixpoint findEllipsisDriver (fuel : nat) (a : ast) (b : bindings) : X (option string) :=
  match fuel with
  | O => fun _ => Diverge
  | S fuel' =>
    match a with
    | AVar (Some name) =>
      x_ret (match find name b with Some t => if (1 <=? tree_depth t)%nat then Some name else None | None => None end)
    | AVar None => x_ret None
    | _ => do* l := x_get (fun s => searched s a) in first_of (fun x => findEllipsisDriver fuel' x b) l
    end
  end.

(** [ellipsis_count] dots follow the element: one repetition per match of the driver. *)
Fixpoint expandEllipsisElementN (fuel : nat) (substitute : bindings -> X ast) (a : ast) (b : bindings) (ellipsis_count : nat)
  : X (list ast) :=
  do* drive := findEllipsisDriver fuel a b in
  match drive with
  | None => do* u := eshkol_error MisplacedEllipsis in do* x := substitute b in x_ret [x]
  | Some name =>
    let n := match find name b with Some t => length (tree_elements t) | None => O end in
    match ellipsis_count with
    | S (S _ as count') =>
      do* parts := x_map (fun i => expandEllipsisElementN fuel substitute a (peelBindingsAtIndex b i) count') (seq 0 n) in
      x_ret (concat parts)
    | _ => x_map (fun i => substitute (peelBindingsAtIndex b i)) (seq 0 n)
    end
  end.

(** The dots at the front of a list. *)
Fixpoint leading_ellipses (items : list ast) : nat :=
  match items with
  | x :: items' => if isEllipsisSymbol x then S (leading_ellipses items') else O
  | [] => O
  end.

(** [skip] items have been consumed as the dots of an earlier element. *)
Fixpoint substitute_list (fuel : nat) (substitute : ast -> bindings -> X ast) (skip : nat) (items : list ast) (b : bindings)
  : X (list ast) :=
  match items with
  | [] => x_ret []
  | x :: items' =>
    match skip with
    | S skip' => substitute_list fuel substitute skip' items' b
    | O =>
      match leading_ellipses items' with
      | S n =>
        do* xs := expandEllipsisElementN fuel (substitute x) x b (S n) in
        do* rest := substitute_list fuel substitute (S n) items' b in x_ret (xs ++ rest)
      | O =>
        if isEllipsisSymbol x then
          do* u := eshkol_error MisplacedEllipsis in substitute_list fuel substitute O items' b
        else
          do* x' := substitute x b in
          do* rest := substitute_list fuel substitute O items' b in x_ret (x' :: rest)
      end
    end
  end.

(** The value of a template variable that has one. *)
Definition bound_value (name : string) (b : bindings) (otherwise : ast) : X ast :=
  match find name b with
  | Some t =>
    if matchTreeHasValue t then
      match matchTreeFirstScalar t with Some a => x_ret (copyAst a) | None => fun _ => Crash end
    else x_ret otherwise
  | None => x_ret otherwise
  end.

Fixpoint substituteBindings (fuel : nat) (a : ast) (b : bindings) : X ast :=
  match fuel with
  | O => fun _ => Diverge
  | S fuel' =>
    let sub x := substituteBindings fuel' x b in
    let in_list l := substitute_list fuel' (substituteBindings fuel') O l b in
    let child o := match o with Some x => sub x | None => x_ret AInvalid end in
    match a with
    | AVar (Some name) => bound_value name b (copyAst a)
    | ACons car cdr => do* x := child car in do* y := child cdr in x_ret (ACons (Some x) (Some y))
    | ACall k func variables =>
      do* f := x_option sub func in do* vs := in_list variables in x_ret (ACall k f vs)
    | ASeq k es => do* es' := in_list es in x_ret (ASeq k es')
    | ADefine name v => do* v' := x_option sub v in x_ret (ADefine name v')
    | ALambda ps body => do* body' := x_option sub body in x_ret (ALambda ps body')
    | ALet k bs body => do* bs' := x_map sub bs in do* body' := x_option sub body in x_ret (ALet k bs' body')
    | AMatch e loc => do* e' := x_option sub e in do* u := on_clauses sub loc in x_ret (AMatch e' loc)
    | ASet name v => do* v' := x_option sub v in x_ret (ASet name v')
    | AGuard v cs body => do* cs' := x_map sub cs in do* body' := in_list body in x_ret (AGuard v cs' body')
    | ARaise e => do* e' := x_option sub e in x_ret (ARaise e')
    | ACallCC p => do* p' := x_option sub p in x_ret (ACallCC p')
    | ADynamicWind x y z =>
      do* x' := x_option sub x in do* y' := x_option sub y in do* z' := x_option sub z in x_ret (ADynamicWind x' y' z')
    | AInvalid | ANull | AData _ | AVar None | ADefineSyntax _ | ALetSyntax _ _ | AOther _ _ => x_ret (copyAst a)
    end
  end.

Definition substituteBindingsInList (fuel : nat) (items : list ast) (b : bindings) : X (list ast) :=
  substitute_list fuel (substituteBindings fuel) O items b.

Fixpoint instantiateTemplate (fuel : nat) (t : template) (b : bindings) : X ast :=
  match t with
  | TplNull | TplEllipsis | TplLiteral None | TplVariable None => x_ret ANull
  | TplLiteral (Some a) => substituteBindings fuel a b
  | TplVariable (Some name) => bound_value name b (AVar (Some name))
  | TplList elements =>
    do* expanded := x_map (fun e => instantiateTemplate fuel e b) elements in
    x_ret (match expanded with [] => ANull | f :: vs => ACall ESHKOL_CALL_OP (Some f) vs end)
  end.

(** ** Macros in scope *)

Definition with_scopes_ (ss : list (omap string nat)) (s : expander) : expander := mkExpander (clause_store s) ss (errors s).

Definition pushScope : X unit := x_modify (fun s => with_scopes_ ([] :: scope_stack_ s) s).

Definition popScope : X unit :=
  x_modify (fun s => match scope_stack_ s with _ :: ((_ :: _) as rest) => with_scopes_ rest s | _ => s end).

Fixpoint lookup_macro (name : string) (ss : list (omap string nat)) : option nat :=
  match ss with
  | [] => None
  | m :: ss' => match find name m with Some p => Some p | None => lookup_macro name ss' end
  end.

Definition lookupMacro (name : string) (s : expander) : option nat := lookup_macro name (scope_stack_ s).

Definition isMacro (name : string) (s : expander) : bool := match lookupMacro name s with Some _ => true | None => false end.

(** How many macros are defined, in all scopes. *)
Definition macroCount (s : expander) : nat := list_sum (map (@length _) (scope_stack_ s)).

Section Program.
  (** The macro definitions, by address; they are never changed. *)
  Context (macro_at : nat -> macro_def).

Definition registerMacro (macro : option nat) : X unit :=
  x_modify (fun s =>
    match macro, scope_stack_ s with
    | Some p, m :: rest =>
      match macro_name (macro_at p) with
      | Some name => with_scopes_ (insert name p m :: rest) s
      | None => s
      end
    | _, _ => s
    end).

(** The first rule whose pattern matches, with its bindings. *)
Fixpoint matching_rule (rs : list (pattern * template)) (args : list ast) : option (template * bindings) :=
  match rs with
  | [] => None
  | (PList elements _, t) :: rs' =>
    match t with
    | TplNull => matching_rule rs' args
    | _ =>
      match matchPatternSeq (tl elements) args [] with
      | Some b => Some (t, b)
      | None => matching_rule rs' args
      end
    end
  | _ :: rs' => matching_rule rs' args
  end.

(** The call of [macro_name]. *)
Definition tryExpandMacroCall (fuel : nat) (name : string) (args : list ast) (call : ast) : X ast :=
  do* m := x_get (lookupMacro name) in
  match m with
  | None => x_ret call
  | Some p =>
    match matching_rule (rules (macro_at p)) args with
    | Some (t, b) => instantiateTemplate fuel t b
    | None => do* u := eshkol_error (NoMatchingPattern name) in x_ret call
    end
  end.

(** How the loop over macro calls ends. *)
Inductive loop_result : Type :=
| Definition_ (macro : option nat)
| LocalMacros (macros : list (option nat)) (body : ast)
| Circular (a : ast)
| Descend (a : ast).

Fixpoint expansion_loop (rounds fuel : nat) (current : ast) (chain : list string) : X loop_result :=
  match rounds with
  | O => fun _ => Diverge
  | S rounds' =>
    match current with
    | ADefineSyntax m => x_ret (Definition_ m)
    | ALetSyntax ms body => x_ret (LocalMacros ms body)
    | ACall ESHKOL_CALL_OP (Some (AVar (Some name))) args =>
      do* is_macro := x_get (isMacro name) in
      if is_macro : bool then
        if existsb (String.eqb name) chain then
          do* u := eshkol_error (CircularExpansion name) in x_ret (Circular current)
        else
          do* next := tryExpandMacroCall fuel name args current in expansion_loop rounds' fuel next (name :: chain)
      else x_ret (Descend current)
    | _ => x_ret (Descend current)
    end
  end.

(** A let binding: only the value is expanded. *)
Definition expand_binding (f : ast -> X ast) (a : ast) : X ast :=
  match a with
  | ACons car (Some cdr) => do* cdr' := f cdr in x_ret (ACons car (Some cdr'))
  | a => x_ret a
  end.

(** The sub-expressions of a node, by [f]; quoted data is left alone. *)
Definition expand_children (f : ast -> X ast) (a : ast) : X ast :=
  match a with
  | ACall ESHKOL_QUOTE_OP _ _ => x_ret a
  | ACall k func variables => do* g := x_option f func in do* vs := x_map f variables in x_ret (ACall k g vs)
  | ASeq k es => do* es' := x_map f es in x_ret (ASeq k es')
  | ADefine name v => do* v' := x_option f v in x_ret (ADefine name v')
  | ALambda ps body => do* body' := x_option f body in x_ret (ALambda ps body')
  | ALet k bs body => do* bs' := x_map (expand_binding f) bs in do* body' := x_option f body in x_ret (ALet k bs' body')
  | AMatch e loc => do* e' := x_option f e in do* u := on_clauses f loc in x_ret (AMatch e' loc)
  | ASet name v => do* v' := x_option f v in x_ret (ASet name v')
  | AGuard v cs body => do* cs' := x_map f cs in do* body' := x_map f body in x_ret (AGuard v cs' body')
  | ARaise e => do* e' := x_option f e in x_ret (ARaise e')
  | ACallCC p => do* p' := x_option f p in x_ret (ACallCC p')
  | ADynamicWind x y z =>
    do* x' := x_option f x in do* y' := x_option f y in do* z' := x_option f z in x_ret (ADynamicWind x' y' z')
  | AInvalid | ANull | AData _ | AVar _ | ACons _ _ | ADefineSyntax _ | ALetSyntax _ _ | AOther _ _ => x_ret a
  end.

Fixpoint register_all (ms : list (option nat)) : X unit :=
  match ms with
  | [] => x_ret tt
  | m :: ms' => do* u := registerMacro m in register_all ms'
  end.

(** [levels] is what the depth guard leaves: 1000 at the top of a program. *)
Fixpoint expandNode (levels rounds fuel : nat) (a : ast) : X ast :=
  match levels with
  | O => do* u := eshkol_error DepthLimit in x_ret a
  | S levels' =>
    do* r := expansion_loop rounds fuel a [] in
    match r with
    | Definition_ m => do* u := registerMacro m in x_ret ANull
    | LocalMacros ms body =>
      do* u := pushScope in
      do* v := register_all ms in
      do* body' := expandNode levels' rounds fuel body in
      do* w := popScope in x_ret body'
    | Circular a' => x_ret a'
    | Descend a' => expand_children (expandNode levels' rounds fuel) (copyAst a')
    end
  end.

Definition max_depth : nat := 1000.

Definition expand (rounds fuel : nat) (a : ast) : X ast := expandNode max_depth rounds fuel a.

Definition is_definition (a : ast) : bool := match a with ADefineSyntax _ => true | _ => false end.

(** Definitions first, then the other forms in order. *)
Definition expandAll (rounds fuel : nat) (asts : list ast) : X (list ast) :=
  do* u := register_all (flat_map (fun a => match a with ADefineSyntax m => [m] | _ => [] end) asts) in
  x_map (expand rounds fuel) (filter (fun a => negb (is_definition a)) asts).
End Program.
