(* ===== verification/MacroSpec.v ===== *)
(** * Patterns, matches and templates: what matching and substitution promise

    A reference reading of patterns ([matches]), a pattern read as a template
    ([template_of]), and the relation [rep] between bindings and the form they stand
    for, through which a match is followed by a substitution. *)

From Stdlib Require Import String List Bool Lia Arith.
From S2P Require Import Prelude OrderedMap MacroExpander.
Import ListNotations.
Local Open Scope string_scope.
Local Open Scope list_scope.

(** ** Reading a pattern *)

(** Induction on patterns, through the elements of a list. *)
Lemma pattern_ind' (P : pattern -> Prop) :
  P PNull -> (forall x e, P (PVariable x e)) -> (forall x e, P (PLiteral x e)) ->
  (forall es e, Forall P es -> P (PList es e)) -> (forall e, P (POther e)) -> forall p, P p.
Proof.
  intros Hn Hv Hl Hs Ho. fix IH 1. intros [|x e|x e|es e|e]; [exact Hn|apply Hv|apply Hl| |apply Ho].
  apply Hs. induction es as [|p es IHes]; constructor; [apply IH|exact IHes].
Qed.

Fixpoint pattern_vars (p : pattern) : list string :=
  match p with PVariable x _ => [x] | PList es _ => flat_map pattern_vars es | _ => [] end.

Fixpoint pattern_literals (p : pattern) : list string :=
  match p with PLiteral x _ => [x] | PList es _ => flat_map pattern_literals es | _ => [] end.

Fixpoint pattern_depth (p : pattern) : nat :=
  match p with PList es _ => S (list_max (map pattern_depth es)) | _ => 1 end.

(** Dots close a list and follow an element with a variable. *)
Fixpoint dots_last (es : list pattern) : bool :=
  match es with
  | [] => true
  | [e] => implb (followed_by_ellipsis e) (negb (Nat.eqb (length (pattern_vars e)) 0))
  | e :: es' => negb (followed_by_ellipsis e) && dots_last es'
  end.

(** A pattern of R7RS: no dots as a name, no wildcard, nothing before the first element
    of a nested list. *)
Fixpoint well_formed (p : pattern) : bool :=
  match p with
  | PVariable x _ => negb (String.eqb x EmptyString) && negb (String.eqb x "_") && negb (String.eqb x "...")
  | PLiteral x _ => negb (String.eqb x "...")
  | PList (h :: es) _ =>
    negb (followed_by_ellipsis h) && dots_last (h :: es) && well_formed h && forallb well_formed es
  | _ => false
  end.

(** Which forms a pattern is for: a variable takes anything, a list one form for each
    element, and any number of them for one with dots. *)
Fixpoint matches_seq (matches : pattern -> ast -> bool) (es : list pattern) (args : list ast) : bool :=
  match es with
  | [] => match args with [] => true | _ => false end
  | e :: es' =>
    if followed_by_ellipsis e then forallb (matches e) args && matches_seq matches es' []
    else match args with [] => false | a :: args' => matches e a && matches_seq matches es' args' end
  end.

Fixpoint matches (p : pattern) (a : ast) : bool :=
  match p with
  | PVariable _ _ => true
  | PLiteral x _ => isSymbol a x
  | PList es _ =>
    match a with ACall ESHKOL_CALL_OP (Some func) variables => matches_seq matches es (func :: variables) | _ => false end
  | PNull | POther _ => false
  end.

Definition dots : ast := AVar (Some "...").

(** The pattern as a template. *)
Fixpoint template_of (p : pattern) : ast :=
  match p with
  | PVariable x _ | PLiteral x _ => AVar (Some x)
  | PList (h :: es) _ =>
    ACall ESHKOL_CALL_OP (Some (template_of h))
      (flat_map (fun e => template_of e :: if followed_by_ellipsis e then [dots] else []) es)
  | _ => AInvalid
  end.

Definition templates (es : list pattern) : list ast :=
  flat_map (fun e => template_of e :: if followed_by_ellipsis e then [dots] else []) es.

(** ** Matching succeeds on the forms of the pattern *)

Definition is_some {A} (o : option A) : bool := match o with Some _ => true | None => false end.

Lemma repetitions_some p args :
  (forall a b, is_some (matchPattern p a b) = matches p a) ->
  is_some (match_repetitions matchPattern p args) = forallb (matches p) args.
Proof.
  intros Hp. induction args as [|a args IH]; [reflexivity|]. cbn [match_repetitions forallb].
  rewrite <- (Hp a []), <- IH. destruct (matchPattern p a []); [|reflexivity].
  destruct (match_repetitions matchPattern p args); reflexivity.
Qed.

Lemma sequence_some es :
  Forall (fun p => forall a b, is_some (matchPattern p a b) = matches p a) es ->
  forall args b, is_some (match_sequence matchPattern es args b) = matches_seq matches es args.
Proof.
  induction 1 as [|p es Hp _ IH]; intros args b; [destruct args; reflexivity|].
  cbn [match_sequence matches_seq]. destruct (followed_by_ellipsis p) eqn:E.
  - rewrite <- (repetitions_some p args Hp).
    destruct (match_repetitions matchPattern p args); [apply IH|reflexivity].
  - destruct args as [|a args]; [destruct p; reflexivity|].
    assert (Hc : is_some (match matchPattern p a b with
                          | None => None
                          | Some b' => match_sequence matchPattern es args b' end)
                 = matches p a && matches_seq matches es args).
    { rewrite <- (Hp a b). destruct (matchPattern p a b); [apply IH|reflexivity]. }
    destruct p; [reflexivity|exact Hc..].
Qed.

Lemma match_some p : forall a b, is_some (matchPattern p a b) = matches p a.
Proof.
  induction p as [|x e|x e|es e IH|e] using pattern_ind'; intros a b; cbn [matchPattern matches]; try reflexivity.
  - destruct (String.eqb x "_"); reflexivity.
  - destruct (isSymbol a x); reflexivity.
  - destruct a as [| | | | |[] [f|] vs| | | | | | | | | | | | |]; try reflexivity.
    exact (sequence_some es IH (f :: vs) b).
Qed.

Lemma match_sequence_some es args b : is_some (matchPatternSeq es args b) = matches_seq matches es args.
Proof. apply sequence_some, Forall_forall. intros p _. apply match_some. Qed.

(** ** Bindings that stand for a form *)

Lemma find_peel x b i : find x (peelBindingsAtIndex b i) = option_map (peel_tree i) (find x b).
Proof.
  unfold peelBindingsAtIndex. induction b as [|[y t] b IH]; [reflexivity|]. cbn.
  destruct (kcmp x y); [reflexivity|exact IH..].
Qed.

(** Every variable of [e] has one tree for each of the [n] repetitions. *)
Definition repeated (e : pattern) (b : bindings) (n : nat) : Prop :=
  forall x, In x (pattern_vars e) -> exists d t ts, find x b = Some (Tree (S d) t ts) /\ length ts = n.

Section RepSequence.
  Variable rep : pattern -> bindings -> ast -> Prop.

Fixpoint rep_seq (es : list pattern) (b : bindings) (args : list ast) : Prop :=
  match es with
  | [] => args = []
  | e :: es' =>
    if followed_by_ellipsis e then
      es' = [] /\ repeated e b (length args) /\
      (forall i a, nth_error args i = Some a -> rep e (peelBindingsAtIndex b i) a)
    else match args with a :: args' => rep e b a /\ rep_seq es' b args' | [] => False end
  end.
End RepSequence.

Fixpoint rep (p : pattern) (b : bindings) (a : ast) : Prop :=
  match p with
  | PVariable x _ => find x b = Some (scalar_tree a)
  | PLiteral x _ => a = AVar (Some x) /\ find x b = None
  | PList es _ =>
    match a with ACall ESHKOL_CALL_OP (Some func) variables => rep_seq rep es b (func :: variables) | _ => False end
  | PNull | POther _ => False
  end.

(** The names a pattern looks at. *)
Definition pattern_names (p : pattern) : list string := pattern_vars p ++ pattern_literals p.

Definition agree (names : list string) (b b' : bindings) : Prop := forall x, In x names -> find x b = find x b'.

Lemma agree_peel names b b' i : agree names b b' -> agree names (peelBindingsAtIndex b i) (peelBindingsAtIndex b' i).
Proof. intros Ha x Hx. rewrite !find_peel, (Ha x Hx). reflexivity. Qed.

Lemma agree_incl names names' b b' : incl names' names -> agree names b b' -> agree names' b b'.
Proof. intros Hi Ha x Hx. apply Ha, Hi, Hx. Qed.

Lemma names_element e es e' : In e es -> incl (pattern_names e) (pattern_names (PList es e')).
Proof.
  intros He x Hx. unfold pattern_names in *. cbn. rewrite in_app_iff, !in_flat_map in *.
  destruct Hx as [Hx|Hx]; [left|right]; exists e; auto.
Qed.

Lemma repeated_agree e b b' n : agree (pattern_names e) b b' -> repeated e b n -> repeated e b' n.
Proof.
  intros Ha Hr x Hx. rewrite <- Ha; [exact (Hr x Hx)|]. apply in_or_app. left. exact Hx.
Qed.

Lemma rep_seq_agree es :
  Forall (fun p => forall b b' a, agree (pattern_names p) b b' -> rep p b a -> rep p b' a) es ->
  forall b b' args, (forall e, In e es -> agree (pattern_names e) b b') -> rep_seq rep es b args -> rep_seq rep es b' args.
Proof.
  induction 1 as [|p es Hp _ IH]; intros b b' args Ha; [exact id|]. cbn [rep_seq].
  destruct (followed_by_ellipsis p).
  - intros (-> & Hr & Hi). split; [reflexivity|]. split; [apply (repeated_agree p b); [apply Ha; left; reflexivity|exact Hr]|].
    intros i a Hn. refine (Hp _ _ _ _ (Hi i a Hn)). apply agree_peel, Ha. left. reflexivity.
  - destruct args as [|a args]; [exact id|]. intros [Hr Hs]. split.
    + refine (Hp _ _ _ _ Hr). apply Ha. left. reflexivity.
    + refine (IH _ _ _ _ Hs). intros e He. apply Ha. right. exact He.
Qed.

Lemma rep_agree p : forall b b' a, agree (pattern_names p) b b' -> rep p b a -> rep p b' a.
Proof.
  induction p as [|x e|x e|es e IH|e] using pattern_ind'; intros b b' a Ha; cbn [rep]; try exact id.
  - rewrite (Ha x); [exact id|]. left. reflexivity.
  - rewrite (Ha x); [exact id|]. left. reflexivity.
  - destruct a as [| | | | |[] [f|] vs| | | | | | | | | | | | |]; try tauto.
    apply rep_seq_agree; [exact IH|]. intros e' He. eapply agree_incl; [apply (names_element e' es e He)|exact Ha].
Qed.

(** Bindings that stand for a form bind the variables. *)
Lemma rep_binds p : forall b a x, rep p b a -> In x (pattern_vars p) -> exists t, find x b = Some t.
Proof.
  induction p as [|y e|y e|es e IH|e] using pattern_ind'; intros b a x; cbn [rep pattern_vars]; try solve [intros _ []].
  - intros Hf [<-|[]]. eauto.
  - destruct a as [| | | | |[] [f|] vs| | | | | | | | | | | | |]; try solve [intros []].
    generalize (f :: vs). clear e. induction IH as [|p es Hp _ IH]; [intros ? _ []|].
    intros args. cbn [rep_seq flat_map]. rewrite in_app_iff. destruct (followed_by_ellipsis p).
    + intros (-> & Hr & _) [Hx|[]]. destruct (Hr x Hx) as (d & t & ts & -> & _). eauto.
    + destruct args as [|a args]; [intros []|]. intros [Hr Hs] [Hx|Hx]; [exact (Hp _ _ _ Hr Hx)|exact (IH _ Hs Hx)].
Qed.

(** ** What merging the repetitions binds *)

Lemma find_fold_insert {V} (g : string -> nat -> V) (l : omap string nat) x : ordered l ->
  forall b, find x (fold_left (fun b (ld : string * nat) => insert (fst ld) (g (fst ld) (snd ld)) b) l b) =
            match find x l with Some d => Some (g x d) | None => find x b end.
Proof.
  induction l as [|[y d] l IH]; intros Ho b; [reflexivity|]. cbn [fold_left fst snd].
  inversion Ho as [|? ? Ho' HF]; subst. rewrite (IH Ho'). destruct (string_dec x y) as [->|N].
  - cbn [find]. rewrite (kcmp_refl y), find_insert_eq.
    destruct (find y l) eqn:E; [|reflexivity]. apply find_In in E. rewrite Forall_forall in HF. specialize (HF _ E).
    cbn in HF. rewrite (kcmp_refl y) in HF. discriminate.
  - rewrite (find_cons_ne x y d l N), find_insert_ne by exact N. reflexivity.
Qed.

Lemma collect_ordered p : forall d out, ordered out -> ordered (collectPatternVarDepths p d out).
Proof.
  induction p as [|x e|x e|es e IH|e] using pattern_ind'; intros d out Ho; cbn [collectPatternVarDepths]; auto.
  - destruct (_ || _); [exact Ho|apply insert_ordered, Ho].
  - revert out Ho. induction IH as [|p es Hp _ IH]; intros out Ho; [exact Ho|]. cbn [fold_left].
    apply IH, Hp, Ho.
Qed.

(** Exactly the variables are collected. *)
Lemma collect_vars p : well_formed p = true -> forall d out x,
  mem x (collectPatternVarDepths p d out) = true <-> In x (pattern_vars p) \/ mem x out = true.
Proof.
  assert (Hins : forall (x y : string) (d : nat) out, mem x (insert y d out) = true <-> x = y \/ mem x out = true).
  { intros x y d out. unfold mem. destruct (string_dec x y) as [->|N]; [rewrite find_insert_eq; tauto|].
    rewrite find_insert_ne by exact N. tauto. }
  induction p as [|y e|y e|es e IH|e] using pattern_ind'; intros Hw d out x; cbn [collectPatternVarDepths pattern_vars] in *;
    try (cbn; tauto).
  - cbn in Hw. destruct (String.eqb y EmptyString); [discriminate|]. destruct (String.eqb y "_"); [discriminate|].
    cbn [orb]. rewrite Hins. cbn. intuition.
  - assert (Hw' : forallb well_formed es = true).
    { cbn [well_formed] in Hw. destruct es as [|h es]; [discriminate|]. cbn [forallb].
      apply andb_true_iff in Hw as [Hw Hw2]. apply andb_true_iff in Hw as [_ ->]. exact Hw2. }
    clear Hw. revert out. induction IH as [|p es Hp _ IH]; intros out; [cbn; tauto|].
    cbn [fold_left flat_map forallb] in *. apply andb_true_iff in Hw' as [W1 W2].
    rewrite (IH W2), (Hp W1), in_app_iff. tauto.
Qed.

Lemma merge_in e subs b x : well_formed e = true -> In x (pattern_vars e) ->
  exists d, find x (merge_repetitions e subs b) = Some (merge_tree x d subs).
Proof.
  intros Hw Hx. unfold merge_repetitions.
  rewrite (find_fold_insert (fun y d => merge_tree y d subs)) by apply collect_ordered, ordered_nil.
  assert (Hm : mem x (collectPatternVarDepths e 0 []) = true) by (apply (collect_vars e Hw); auto).
  apply mem_find in Hm as [d ->]. eauto.
Qed.

Lemma merge_out e subs b x : well_formed e = true -> ~ In x (pattern_vars e) ->
  find x (merge_repetitions e subs b) = find x b.
Proof.
  intros Hw Hx. unfold merge_repetitions.
  rewrite (find_fold_insert (fun y d => merge_tree y d subs)) by apply collect_ordered, ordered_nil.
  destruct (find x (collectPatternVarDepths e 0 [])) eqn:E; [|reflexivity].
  assert (Hm : mem x (collectPatternVarDepths e 0 []) = true) by (unfold mem; rewrite E; reflexivity).
  apply (collect_vars e Hw) in Hm as [Hm|Hm]; [contradiction|discriminate].
Qed.

(** ** A match stands for the form *)

Lemma repetitions_each e args subs : match_repetitions matchPattern e args = Some subs ->
  Forall2 (fun a sub => matchPattern e a [] = Some sub) args subs.
Proof.
  revert subs. induction args as [|a args IH]; intros subs; cbn [match_repetitions]; [intros [= <-]; constructor|].
  destruct (matchPattern e a []) eqn:E; [|discriminate].
  destruct (match_repetitions matchPattern e args) eqn:E2; [|discriminate]. intros [= <-]. constructor; auto.
Qed.

Lemma list_well_formed es e : well_formed (PList es e) = true -> dots_last es = true /\ forallb well_formed es = true.
Proof.
  cbn [well_formed]. destruct es as [|h es]; [discriminate|]. cbn [forallb]. rewrite !andb_true_iff. tauto.
Qed.

(** Matching leaves the other names alone. *)
Lemma sequence_frame es :
  Forall (fun p => well_formed p = true -> forall a b b' x,
            matchPattern p a b = Some b' -> ~ In x (pattern_vars p) -> find x b' = find x b) es ->
  forallb well_formed es = true -> forall args b b' x,
  match_sequence matchPattern es args b = Some b' -> ~ In x (flat_map pattern_vars es) -> find x b' = find x b.
Proof.
  induction 1 as [|p es Hp _ IH]; intros Hw args b b' x.
  - destruct args; [intros [= <-]; reflexivity|discriminate].
  - cbn [forallb] in Hw. apply andb_true_iff in Hw as [W1 W2]. cbn [match_sequence flat_map]. rewrite in_app_iff.
    destruct (followed_by_ellipsis p).
    + destruct (match_repetitions matchPattern p args) as [subs|]; [|discriminate]. intros Hm Hx.
      rewrite (IH W2 _ _ _ _ Hm) by tauto. apply merge_out; tauto.
    + destruct args as [|a args]; [destruct p; discriminate|].
      destruct (matchPattern p a b) as [b1|] eqn:E; [|destruct p; discriminate].
      assert (Hd : p <> PNull) by (intros ->; discriminate W1).
      intros Hm Hx. rewrite <- (Hp W1 _ _ _ x E) by tauto.
      apply (IH W2 args b1); [destruct p; [contradiction|exact Hm..]|tauto].
Qed.

Lemma match_frame p : well_formed p = true -> forall a b b' x,
  matchPattern p a b = Some b' -> ~ In x (pattern_vars p) -> find x b' = find x b.
Proof.
  induction p as [|y e|y e|es e IH|e] using pattern_ind'; intros Hw a b b' x; cbn [matchPattern]; try discriminate.
  - destruct (String.eqb y "_"); intros [= <-] Hx; [reflexivity|]. apply find_insert_ne. cbn in Hx. intuition congruence.
  - destruct (isSymbol a y); [intros [= <-]; reflexivity|discriminate].
  - destruct a as [| | | | |[] [f|] vs| | | | | | | | | | | | |]; try discriminate.
    apply list_well_formed in Hw as [_ Hw]. apply sequence_frame; assumption.
Qed.

Definition disjoint_names (vars literals : list string) : Prop := forall x, In x vars -> ~ In x literals.

(** The tree of repetition [i], when there is one. *)
Lemma peel_merged x d subs i sub t : nth_error subs i = Some sub -> find x sub = Some t ->
  peel_tree i (merge_tree x d subs) = t.
Proof.
  intros Hn Hf. unfold merge_tree. set (g := fun sub => _). set (l := map g subs).
  assert (Hl : nth_error l i = Some t) by (unfold l; rewrite nth_error_map, Hn; cbn; unfold g; rewrite Hf; reflexivity).
  assert (Hi : (i < length l)%nat) by (apply nth_error_Some; congruence).
  cbn [peel_tree]. destruct l as [|t0 l0] eqn:E; [cbn in Hi; lia|].
  rewrite Nat.min_l by lia. apply nth_error_nth, Hl.
Qed.

Lemma repetitions_rep e args subs b :
  well_formed e = true -> disjoint_names (pattern_vars e) (pattern_literals e) ->
  (forall a sub, matchPattern e a [] = Some sub -> rep e sub a) ->
  (forall l, In l (pattern_literals e) -> find l b = None) ->
  match_repetitions matchPattern e args = Some subs ->
  repeated e (merge_repetitions e subs b) (length args) /\
  forall i a, nth_error args i = Some a -> rep e (peelBindingsAtIndex (merge_repetitions e subs b) i) a.
Proof.
  intros Hw Hd IH Hl Hm. pose proof (repetitions_each _ _ _ Hm) as HF. split.
  - intros x Hx. destruct (merge_in e subs b x Hw Hx) as [d ->]. unfold merge_tree.
    do 3 eexists. split; [reflexivity|]. rewrite length_map. symmetry. exact (Forall2_length HF).
  - intros i a Hn. destruct (nth_error subs i) as [sub|] eqn:Es.
    2:{ apply nth_error_None in Es. rewrite <- (Forall2_length HF) in Es.
        assert (i < length args)%nat by (apply nth_error_Some; congruence). lia. }
    assert (Ea : matchPattern e a [] = Some sub).
    { clear - HF Hn Es. revert i Hn Es. induction HF as [|a' sub' args subs H _ IH]; intros [|i]; cbn; try discriminate.
      - intros [= ->] [= ->]. exact H.
      - apply IH. }
    apply (rep_agree e sub); [|exact (IH _ _ Ea)]. intros x Hx. rewrite find_peel.
    apply in_app_or in Hx as [Hx|Hx].
    + destruct (rep_binds _ _ _ _ (IH _ _ Ea) Hx) as [t Ht]. destruct (merge_in e subs b x Hw Hx) as [d ->].
      rewrite Ht. cbn [option_map]. rewrite (peel_merged _ _ _ _ _ _ Es Ht). reflexivity.
    + assert (Hv : ~ In x (pattern_vars e)) by (intros Hv; exact (Hd x Hv Hx)).
      rewrite (merge_out e subs b x Hw Hv), (Hl x Hx), (match_frame e Hw _ _ _ x Ea Hv). reflexivity.
Qed.

(** The conditions on a list of patterns: distinct variables, none of them a literal. *)
Definition separate (es : list pattern) : Prop :=
  NoDup (flat_map pattern_vars es) /\ disjoint_names (flat_map pattern_vars es) (flat_map pattern_literals es).

Lemma NoDup_app_split {A} (l l' : list A) : NoDup (l ++ l') ->
  NoDup l /\ NoDup l' /\ forall x, In x l -> ~ In x l'.
Proof.
  intros Hn. split; [exact (NoDup_app_remove_r _ _ Hn)|]. split; [exact (NoDup_app_remove_l _ _ Hn)|].
  induction l as [|y l IH]; intros x []; inversion Hn as [|? ? Hy Hn']; subst; [|apply IH; assumption].
  intros Hx. apply Hy, in_or_app. right. exact Hx.
Qed.

Lemma separate_cons e es : separate (e :: es) ->
  NoDup (pattern_vars e) /\ disjoint_names (pattern_vars e) (pattern_literals e) /\ separate es /\
  (forall x, In x (pattern_names e) -> ~ In x (flat_map pattern_vars es)) /\
  (forall x, In x (flat_map pattern_literals es) -> ~ In x (pattern_vars e)).
Proof.
  intros [Hn Hd]. cbn [flat_map] in Hn, Hd. unfold disjoint_names in *. setoid_rewrite in_app_iff in Hd.
  apply NoDup_app_split in Hn as (N1 & N2 & N3).
  split; [exact N1|]. split; [intros x Hx Hl; apply (Hd x); auto|].
  split; [split; [exact N2|intros x Hx Hl; apply (Hd x); auto]|].
  split; intros x Hx Hv.
  - apply in_app_or in Hx as [Hx|Hx]; [exact (N3 x Hx Hv)|apply (Hd x); auto].
  - apply (Hd x); auto.
Qed.

Definition reconstructs (p : pattern) : Prop :=
  well_formed p = true -> NoDup (pattern_vars p) -> disjoint_names (pattern_vars p) (pattern_literals p) ->
  forall a b b', (forall l, In l (pattern_literals p) -> find l b = None) ->
  matchPattern p a b = Some b' -> rep p b' a.

Lemma dots_last_cons e es : dots_last (e :: es) = true -> followed_by_ellipsis e = true ->
  es = [] /\ pattern_vars e <> [].
Proof.
  intros Hd He. cbn [dots_last] in Hd. destruct es as [|e' es].
  - rewrite He in Hd. cbn in Hd. split; [reflexivity|]. destruct (pattern_vars e); discriminate.
  - rewrite He in Hd. discriminate.
Qed.

Lemma dots_last_tail e es : dots_last (e :: es) = true -> dots_last es = true.
Proof. destruct es as [|e' es]; [reflexivity|]. cbn [dots_last]. intros H. apply andb_true_iff in H. apply H. Qed.

Lemma sequence_rep es : Forall reconstructs es -> dots_last es = true -> forallb well_formed es = true -> separate es ->
  forall args b b', (forall l, In l (flat_map pattern_literals es) -> find l b = None) ->
  match_sequence matchPattern es args b = Some b' -> rep_seq rep es b' args.
Proof.
  induction 1 as [|p es Hp _ IH]; intros Hd Hw Hs args b b' Hl.
  - cbn. destruct args; [reflexivity|discriminate].
  - cbn [forallb] in Hw. apply andb_true_iff in Hw as [W1 W2]. apply separate_cons in Hs as (S1 & S2 & S3 & S4 & S5).
    cbn [flat_map] in Hl. setoid_rewrite in_app_iff in Hl. cbn [match_sequence rep_seq].
    destruct (followed_by_ellipsis p) eqn:E.
    + destruct (dots_last_cons _ _ Hd E) as [-> _]. intros Hm. split; [reflexivity|].
      destruct (match_repetitions matchPattern p args) as [subs|] eqn:Em; [|discriminate].
      cbn [match_sequence] in Hm. injection Hm as <-. apply repetitions_rep; auto.
      intros a sub Ha. apply (Hp W1 S1 S2 a [] sub); auto.
    + destruct args as [|a args]; [destruct p; discriminate|].
      destruct (matchPattern p a b) as [b1|] eqn:E1; [|destruct p; discriminate].
      intros Hm. assert (Hm' : match_sequence matchPattern es args b1 = Some b') by (destruct p; [discriminate W1|exact Hm..]).
      assert (Hf : forall x, ~ In x (flat_map pattern_vars es) -> find x b' = find x b1).
      { intros x. apply (sequence_frame es) with (args := args); [|exact W2|exact Hm'].
        apply Forall_forall. intros q _. apply match_frame. }
      split.
      * apply (rep_agree p b1); [intros x Hx; symmetry; apply Hf, S4, Hx|]. apply (Hp W1 S1 S2 a b b1); auto.
      * apply (IH (dots_last_tail _ _ Hd) W2 S3 args b1 b'); [|exact Hm'].
        intros l Hx. rewrite (match_frame p W1 _ _ _ l E1) by (apply S5, Hx). apply Hl. auto.
Qed.

Lemma match_rep p : reconstructs p.
Proof.
  induction p as [|x e|x e|es e IH|e] using pattern_ind'; intros Hw Hn Hd a b b' Hl; cbn [matchPattern rep]; try discriminate.
  - cbn in Hw. destruct (String.eqb x "_"); [destruct (String.eqb x EmptyString); discriminate|].
    intros [= <-]. apply find_insert_eq.
  - destruct (isSymbol a x) eqn:E; [|discriminate]. intros [= <-]. split; [|apply Hl; left; reflexivity].
    destruct a as [| | |[y|]| | | | | | | | | | | | | | |]; try discriminate E. apply String.eqb_eq in E. congruence.
  - destruct a as [| | | | |[] [f|] vs| | | | | | | | | | | | |]; try discriminate.
    apply list_well_formed in Hw as [W1 W2]. apply (sequence_rep es IH W1 W2); [split; assumption|exact Hl].
Qed.

(** ** Running the monad *)

Lemma bind_done {A B} (m : X A) (k : A -> X B) s a s' : m s = Done a s' -> x_bind m k s = k a s'.
Proof. unfold x_bind. intros ->. reflexivity. Qed.

Lemma x_map_done {A B} (f : A -> X B) s l l' : Forall2 (fun a b => f a s = Done b s) l l' -> x_map f l s = Done l' s.
Proof.
  induction 1 as [|a b l l' Hf _ IH]; [reflexivity|]. cbn [x_map].
  rewrite (bind_done _ _ _ _ _ Hf), (bind_done _ _ _ _ _ IH). reflexivity.
Qed.

(** One result for each index. *)
Lemma x_map_seq {B} (f : nat -> X B) s (l : list B) : forall k,
  (forall i b, nth_error l i = Some b -> f (k + i)%nat s = Done b s) -> x_map f (seq k (length l)) s = Done l s.
Proof.
  induction l as [|b l IH]; intros k Hf; [reflexivity|]. cbn [length seq x_map].
  rewrite (bind_done _ _ _ b s); [|rewrite <- (Nat.add_0_r k); apply Hf; reflexivity].
  rewrite (bind_done _ _ _ l s); [reflexivity|]. apply IH. intros i b' Hn.
  rewrite Nat.add_succ_comm. apply Hf, Hn.
Qed.

(** ** The driver of an ellipsis *)

Lemma template_of_list h es e : template_of (PList (h :: es) e) = ACall ESHKOL_CALL_OP (Some (template_of h)) (templates es).
Proof. reflexivity. Qed.

Lemma template_not_dots p : well_formed p = true -> isEllipsisSymbol (template_of p) = false.
Proof.
  destruct p as [|x e|x e|[|h es] e|e]; cbn [well_formed]; try discriminate; try reflexivity; intros Hw;
    unfold isEllipsisSymbol; cbn [template_of isSymbol].
  - destruct (String.eqb x "..."); [|reflexivity]. rewrite andb_false_r in Hw. discriminate.
  - apply negb_true_iff, Hw.
Qed.

(** Which variable drives: one of the pattern, when there is one. *)
Definition drives (vars : list string) (r : option string) : Prop :=
  match r with Some x => In x vars | None => vars = [] end.

Definition deep (e : pattern) (b : bindings) : Prop :=
  forall x, In x (pattern_vars e) -> exists d t ts, find x b = Some (Tree (S d) t ts).

Definition unbound (names : list string) (b : bindings) : Prop := forall x, In x names -> find x b = None.

Definition has_driver (e : pattern) : Prop :=
  well_formed e = true -> forall fuel b s, (pattern_depth e <= fuel)%nat -> unbound ("..." :: pattern_literals e) b ->
  deep e b -> exists r, findEllipsisDriver fuel (template_of e) b s = Done r s /\ drives (pattern_vars e) r.

Lemma pattern_depth_pos p : (1 <= pattern_depth p)%nat.
Proof. destruct p; cbn; lia. Qed.

Lemma driver_list fuel b s es : Forall has_driver es -> forallb well_formed es = true ->
  (list_max (map pattern_depth es) <= fuel)%nat -> unbound ("..." :: flat_map pattern_literals es) b ->
  (forall e, In e es -> deep e b) ->
  exists r, first_of (fun x => findEllipsisDriver fuel x b) (templates es) s = Done r s /\
            drives (flat_map pattern_vars es) r.
Proof.
  induction 1 as [|p es Hp _ IH]; intros Hw Hf Hu Hd; [exists None; split; reflexivity|].
  cbn [forallb] in Hw. apply andb_true_iff in Hw as [W1 W2]. cbn [map] in Hf.
  change (list_max (pattern_depth p :: map pattern_depth es)) with (Nat.max (pattern_depth p) (list_max (map pattern_depth es))) in Hf.
  destruct (Hp W1 fuel b s) as [r [Er Hr]]; [lia| |apply Hd; left; reflexivity|].
  { intros x [<-|Hx]; apply Hu; [left; reflexivity|]. right. cbn. apply in_or_app. left. exact Hx. }
  destruct IH as [r' [Er' Hr']]; [exact W2|lia| |intros e He; apply Hd; right; exact He|].
  { intros x [<-|Hx]; apply Hu; [left; reflexivity|]. right. cbn. apply in_or_app. right. exact Hx. }
  unfold templates in *. cbn [flat_map app first_of]. rewrite (bind_done _ _ _ _ _ Er).
  destruct r as [x|]; [exists (Some x); split; [reflexivity|]; cbn; apply in_or_app; left; exact Hr|].
  cbn in Hr. rewrite Hr. cbn [app]. exists r'. split; [|exact Hr'].
  destruct (followed_by_ellipsis p); [|exact Er']. cbn [app first_of]. rewrite (bind_done _ _ _ None s); [exact Er'|].
  destruct fuel as [|fuel]; [pose proof (pattern_depth_pos p); lia|].
  cbn [findEllipsisDriver dots]. rewrite (Hu "..." (or_introl eq_refl)). reflexivity.
Qed.

Lemma driver_found e : has_driver e.
Proof.
  induction e as [|x e|x e|es e IH|e] using pattern_ind'; intros Hw fuel b s Hf Hu Hd; try discriminate Hw;
    (destruct fuel as [|fuel]; [cbn in Hf; lia|]); cbn [template_of findEllipsisDriver].
  - destruct (Hd x (or_introl eq_refl)) as (d & t & ts & ->). exists (Some x). split; [reflexivity|left; reflexivity].
  - rewrite (Hu x) by (right; left; reflexivity). exists None. split; reflexivity.
  - pose proof (list_well_formed _ _ Hw) as [_ Hw'].
    destruct es as [|h es]; [discriminate Hw|]. cbn [well_formed] in Hw.
    assert (Eh : followed_by_ellipsis h = false).
    { destruct (followed_by_ellipsis h); [discriminate Hw|reflexivity]. }
    destruct (driver_list fuel b s (h :: es) IH Hw') as [r [Er Hr]].
    + cbn [pattern_depth] in Hf. lia.
    + exact Hu.
    + intros e' He x Hx. apply Hd. cbn [pattern_vars]. apply in_flat_map. eauto.
    + exists r. split; [|exact Hr]. rewrite <- Er. unfold templates. cbn [flat_map]. rewrite Eh. reflexivity.
Qed.

(** ** Substitution gives the form back *)

Lemma unbound_peel names b i : unbound names b -> unbound names (peelBindingsAtIndex b i).
Proof. intros Hu x Hx. rewrite find_peel, (Hu x Hx). reflexivity. Qed.

Lemma unbound_incl names names' b : incl names' names -> unbound names b -> unbound names' b.
Proof. intros Hi Hu x Hx. apply Hu, Hi, Hx. Qed.

Definition gives_back (p : pattern) : Prop :=
  well_formed p = true -> forall fuel b a s, (pattern_depth p <= fuel)%nat -> unbound ("..." :: pattern_literals p) b ->
  rep p b a -> substituteBindings fuel (template_of p) b s = Done a s.

Lemma no_leading_dots es : forallb well_formed es = true -> leading_ellipses (templates es) = O.
Proof.
  destruct es as [|e es]; [reflexivity|]. cbn [forallb]. intros Hw. apply andb_true_iff in Hw as [Hw _].
  unfold templates. cbn [flat_map app leading_ellipses]. rewrite (template_not_dots e Hw). reflexivity.
Qed.

Lemma repeated_deep e b n : repeated e b n -> deep e b.
Proof. intros Hr x Hx. destruct (Hr x Hx) as (d & t & ts & Hf & _). eauto. Qed.

(** The last element, with its dots: one result for each repetition. *)
Lemma substitute_repeated e fuel b args s : gives_back e -> well_formed e = true -> pattern_vars e <> [] ->
  (pattern_depth e <= fuel)%nat -> unbound ("..." :: pattern_literals e) b -> repeated e b (length args) ->
  (forall i a, nth_error args i = Some a -> rep e (peelBindingsAtIndex b i) a) ->
  substitute_list fuel (substituteBindings fuel) 0 [template_of e; dots] b s = Done args s.
Proof.
  intros Hg Hw Hv Hf Hu Hr Hi. cbn [substitute_list leading_ellipses isEllipsisSymbol isSymbol dots].
  change (String.eqb "..." "...") with true. cbv iota.
  destruct (driver_found e Hw fuel b s Hf Hu (repeated_deep _ _ _ Hr)) as [[x|] [Ed Hx]]; [|contradiction].
  destruct (Hr x Hx) as (d & t & ts & Et & Hl).
  rewrite (bind_done _ _ _ args s); [cbn; rewrite app_nil_r; reflexivity|].
  cbn [expandEllipsisElementN]. rewrite (bind_done _ _ _ _ _ Ed), Et. cbn [tree_elements]. rewrite Hl.
  apply x_map_seq. intros i a Hn. apply (Hg Hw); [exact Hf|apply unbound_peel, Hu|apply Hi, Hn].
Qed.

Lemma substitute_sequence es fuel b s : Forall gives_back es -> forallb well_formed es = true -> dots_last es = true ->
  (list_max (map pattern_depth es) <= fuel)%nat -> unbound ("..." :: flat_map pattern_literals es) b ->
  forall args, rep_seq rep es b args ->
  substitute_list fuel (substituteBindings fuel) 0 (templates es) b s = Done args s.
Proof.
  induction 1 as [|p es Hp _ IH]; intros Hw Hd Hf Hu args; [intros ->; reflexivity|].
  cbn [forallb] in Hw. apply andb_true_iff in Hw as [W1 W2]. cbn [map] in Hf.
  change (list_max (pattern_depth p :: map pattern_depth es)) with (Nat.max (pattern_depth p) (list_max (map pattern_depth es))) in Hf.
  assert (Hup : unbound ("..." :: pattern_literals p) b).
  { eapply unbound_incl; [|exact Hu]. intros x [<-|Hx]; [left; reflexivity|]. right. apply in_or_app. left. exact Hx. }
  cbn [rep_seq]. destruct (followed_by_ellipsis p) eqn:E.
  - destruct (dots_last_cons _ _ Hd E) as [-> Hv]. intros (_ & Hr & Hi).
    unfold templates. cbn [flat_map]. rewrite E. cbn [app]. apply substitute_repeated; auto. lia.
  - destruct args as [|a args]; [intros []|]. intros [Hr Hs].
    unfold templates. cbn [flat_map]. rewrite E. cbn [app]. change (flat_map _ es) with (templates es).
    cbn [substitute_list]. rewrite (no_leading_dots es W2), (template_not_dots p W1).
    rewrite (bind_done _ _ _ a s); [|apply (Hp W1); [lia|exact Hup|exact Hr]].
    rewrite (bind_done _ _ _ args s); [reflexivity|]. apply IH; [exact W2|exact (dots_last_tail _ _ Hd)|lia| |exact Hs].
    eapply unbound_incl; [|exact Hu]. intros x [<-|Hx]; [left; reflexivity|]. right. apply in_or_app. right. exact Hx.
Qed.

Lemma rep_subst p : gives_back p.
Proof.
  induction p as [|x e|x e|es e IH|e] using pattern_ind'; intros Hw fuel b a s Hf Hu; try discriminate Hw;
    (destruct fuel as [|fuel]; [cbn [pattern_depth] in Hf; lia|]); cbn [rep].
  - intros Hr. cbn [template_of substituteBindings]. unfold bound_value. rewrite Hr. reflexivity.
  - intros [-> Hr]. cbn [template_of substituteBindings]. unfold bound_value. rewrite Hr. reflexivity.
  - destruct a as [| | | | |[] [f|] vs| | | | | | | | | | | | |]; try solve [intros []].
    destruct es as [|h es]; [discriminate Hw|]. pose proof (list_well_formed _ _ Hw) as [Wd W].
    cbn [well_formed] in Hw. cbn [forallb] in W. apply andb_true_iff in W as [W1 W2].
    assert (Eh : followed_by_ellipsis h = false) by (destruct (followed_by_ellipsis h); [discriminate Hw|reflexivity]).
    inversion IH as [|? ? Hh Hes]; subst. cbn [rep_seq]. rewrite Eh. intros [Rh Rs].
    rewrite template_of_list. cbn [substituteBindings x_option].
    cbn [pattern_depth map] in Hf.
    change (list_max (pattern_depth h :: map pattern_depth es)) with (Nat.max (pattern_depth h) (list_max (map pattern_depth es))) in Hf.
    rewrite (bind_done _ _ _ (Some f) s).
    2:{ rewrite (bind_done _ _ _ f s); [reflexivity|]. apply (Hh W1); [lia| |exact Rh].
        eapply unbound_incl; [|exact Hu]. intros x [<-|Hx]; [left; reflexivity|]. right. apply in_or_app. left. exact Hx. }
    rewrite (bind_done _ _ _ vs s); [reflexivity|].
    apply substitute_sequence; [exact Hes|exact W2|exact (dots_last_tail _ _ Wd)|lia| |exact Rs].
    eapply unbound_incl; [|exact Hu]. intros x [<-|Hx]; [left; reflexivity|]. right. apply in_or_app. right. exact Hx.
Qed.

(** The arguments of a call, by the patterns of a rule, put back through their templates. *)
Lemma arguments_given_back es args b fuel s :
  dots_last es = true -> forallb well_formed es = true -> separate es -> (list_max (map pattern_depth es) <= fuel)%nat ->
  matchPatternSeq es args [] = Some b ->
  (forall x, ~ In x (flat_map pattern_vars es) -> find x b = None) /\
  substituteBindingsInList fuel (templates es) b s = Done args s.
Proof.
  intros Hd Hw Hs Hf Hm.
  assert (Hn : forall x, ~ In x (flat_map pattern_vars es) -> find x b = None).
  { intros x Hx. rewrite (sequence_frame es) with (args := args) (b := []) (b' := b); auto.
    apply Forall_forall. intros p _. apply match_frame. }
  assert (Hdots : ~ In "..." (flat_map pattern_vars es)).
  { intros Hi. apply in_flat_map in Hi as (p & Hp & Hi). rewrite forallb_forall in Hw. specialize (Hw p Hp).
    clear - Hw Hi. induction p as [|x e|x e|es e IH|e] using pattern_ind'; cbn [pattern_vars] in Hi; try (destruct Hi; fail).
    - destruct Hi as [->|[]]. discriminate Hw.
    - apply in_flat_map in Hi as (p & Hp & Hi). apply list_well_formed in Hw as [_ Hw].
      rewrite forallb_forall in Hw. rewrite Forall_forall in IH. exact (IH p Hp (Hw p Hp) Hi). }
  split; [exact Hn|]. apply substitute_sequence; auto.
  - apply Forall_forall. intros p _. apply rep_subst.
  - intros x [<-|Hx]; apply Hn; [exact Hdots|]. intros Hv. exact (proj2 Hs x Hv Hx).
  - apply (sequence_rep es) with (b := []); auto. apply Forall_forall. intros p _. apply match_rep.
Qed.
