(* ===== verification/MacroRuns.v ===== *)
(** * Runs of the expander

    What holds of every run of a computation of the expander, once it holds of its
    steps ([Closed]); then two such facts: the scopes and the errors that a run leaves
    ([steps]), and that a run ends ([total]). *)

From Stdlib Require Import String List Bool Lia Arith.
From S2P Require Import Prelude OrderedMap MacroExpander MacroSpec.
Import ListNotations.

(** ** Facts about runs *)

(** A fact about computations that sequencing preserves. *)
Class Closed (P : forall A, X A -> Prop) : Prop := {
  closed_ret : forall A (a : A), P A (x_ret a);
  closed_bind : forall A B (m : X A) (k : A -> X B), P A m -> (forall a, P B (k a)) -> P B (x_bind m k);
  closed_read : forall A B (f : expander -> A) (k : A -> X B), (forall s, P B (k (f s))) -> P B (x_bind (x_get f) k);
  closed_error : forall e, P unit (eshkol_error e)
}.

(** One that also holds of overwriting the body of a clause. *)
Class ClosedClauses (P : forall A, X A -> Prop) : Prop := {
  clauses_closed :: Closed P;
  closed_clause : forall loc i body, P unit (set_clause_body loc i body)
}.

(** Through the binds of a computation. *)
Ltac closed :=
  repeat first [apply closed_ret | apply closed_error | apply closed_clause | solve [auto] | apply closed_read; intros ? | apply closed_bind; [|intros ?] | intros ?].

Section Closure.
  Context {P : forall A, X A -> Prop} `{HP : Closed P}.

Lemma closed_x_map {A B} (f : A -> X B) l : (forall a, In a l -> P B (f a)) -> P (list B) (x_map f l).
Proof.
  induction l as [|a l IH]; intros Hf; cbn [x_map]; [apply closed_ret|].
  apply closed_bind; [apply Hf; left; reflexivity|]. intros b.
  apply closed_bind; [apply IH; intros a' Ha; apply Hf; right; exact Ha|]. intros bs. apply closed_ret.
Qed.

Lemma closed_x_option {A B} (f : A -> X B) o : (forall a, o = Some a -> P B (f a)) -> P (option B) (x_option f o).
Proof. destruct o as [a|]; intros Hf; cbn [x_option]; [|apply closed_ret]. closed. Qed.

Lemma closed_first_of {A} (f : A -> X (option string)) l :
  (forall a, In a l -> P _ (f a)) -> P _ (first_of f l).
Proof.
  induction l as [|a l IH]; intros Hf; cbn [first_of]; [apply closed_ret|].
  apply closed_bind; [apply Hf; left; reflexivity|]. intros [d|]; [apply closed_ret|].
  apply IH. intros a' Ha. apply Hf. right. exact Ha.
Qed.

(** *** Substitution

    [ok n a]: [n] is fuel enough for [a]; [good b]: the trees of [b] have the values
    that a template asks for. *)
  Context (ok : nat -> ast -> Prop) (good : bindings -> Prop).
  Hypothesis Hfuel : forall A a, ok O a -> P A (fun _ => Diverge).
  Hypothesis Hsub : forall n a s x, ok (S n) a -> In x (searched s a) -> ok n x.
  Hypothesis Hmatch : forall n e loc f, ok (S n) (AMatch e loc) -> (forall x, ok n x -> P _ (f x)) -> P _ (on_clauses f loc).
  Hypothesis Hbound : forall name b a, good b -> P _ (bound_value name b a).
  Hypothesis Hpeel : forall b i, good b -> good (peelBindingsAtIndex b i).

Lemma closed_driver fuel : forall a b, ok fuel a -> P _ (findEllipsisDriver fuel a b).
Proof.
  induction fuel as [|fuel IH]; intros a b Ha; cbn [findEllipsisDriver]; [exact (Hfuel _ _ Ha)|].
  assert (Hl : P _ (do* l := x_get (fun s => searched s a) in first_of (fun x => findEllipsisDriver fuel x b) l)).
  { apply closed_read. intros s. apply closed_first_of. intros x Hx. apply IH, (Hsub _ _ s _ Ha Hx). }
  destruct a as [| | |[name|]| | | | | | | | | | | | | | |]; first [exact Hl|apply closed_ret].
Qed.

Lemma closed_ellipsis fuel subst a count : forall b, good b -> ok fuel a ->
  (forall b, good b -> P _ (subst b)) -> P _ (expandEllipsisElementN fuel subst a b count).
Proof.
  induction count as [|count IH]; intros b Hb Ha Hs; cbn [expandEllipsisElementN];
    (apply closed_bind; [apply closed_driver, Ha|]; intros [name|]; [|closed]).
  - apply closed_x_map. auto.
  - destruct count as [|count]; [apply closed_x_map; auto|].
    apply closed_bind; [apply closed_x_map; intros i _; apply IH; auto|]. intros parts. apply closed_ret.
Qed.

Lemma closed_substitute_list fuel subst items : forall skip b, good b ->
  (forall x, In x items -> ok fuel x) -> (forall x b, In x items -> good b -> P _ (subst x b)) ->
  P _ (substitute_list fuel subst skip items b).
Proof.
  induction items as [|x items IH]; intros skip b Hb Ho Hs; cbn [substitute_list]; [apply closed_ret|].
  assert (IH' : forall skip, P _ (substitute_list fuel subst skip items b)).
  { intros skip'. apply IH; [exact Hb|intros y Hy; apply Ho; right; exact Hy|intros y b' Hy; apply Hs; right; exact Hy]. }
  destruct skip as [|skip]; [|apply IH'].
  assert (Hx : forall b, good b -> P _ (subst x b)) by (intros b' Hb'; apply Hs; [left; reflexivity|exact Hb']).
  destruct (leading_ellipses items) as [|n].
  - destruct (isEllipsisSymbol x); closed.
  - apply closed_bind; [apply closed_ellipsis; auto; apply Ho; left; reflexivity|]. intros xs. closed.
Qed.

Lemma closed_substitute fuel : forall a b, ok fuel a -> good b -> P _ (substituteBindings fuel a b).
Proof.
  induction fuel as [|fuel IH]; intros a b Ha Hb; cbn [substituteBindings]; [exact (Hfuel _ _ Ha)|].
  pose proof (fun x => Hsub _ _ new_expander x Ha) as Hx.
  assert (Ho : forall o, (forall x, In x (option_list o) -> In x (searched new_expander a)) ->
                 P _ (x_option (fun x => substituteBindings fuel x b) o)).
  { intros o Hin. apply closed_x_option. intros x ->. apply IH; [apply Hx, Hin; left; reflexivity|exact Hb]. }
  assert (Hc : forall o, (forall x, In x (option_list o) -> In x (searched new_expander a)) ->
                 P _ (match o with Some x => substituteBindings fuel x b | None => x_ret AInvalid end)).
  { intros [x|] Hin; [|apply closed_ret]. apply IH; [apply Hx, Hin; left; reflexivity|exact Hb]. }
  assert (Hl : forall l, (forall x, In x l -> In x (searched new_expander a)) ->
                 P _ (substitute_list fuel (substituteBindings fuel) 0 l b)).
  { intros l Hin. apply closed_substitute_list; [exact Hb|intros x Hi; apply Hx, Hin, Hi|].
    intros x b' Hi Hb'. apply IH; [apply Hx, Hin, Hi|exact Hb']. }
  assert (Hm : forall l, (forall x, In x l -> In x (searched new_expander a)) ->
                 P _ (x_map (fun x => substituteBindings fuel x b) l)).
  { intros l Hin. apply closed_x_map. intros x Hi. apply IH; [apply Hx, Hin, Hi|exact Hb]. }
  destruct a as [| | |[name|]|car cdr|k f vs|k es|nm v|ps body|k bs body|e loc|nm v|vn cs body|e|pr|x y z|m|ms body|op os];
    cbn [searched] in *;
    repeat first [apply closed_ret | eapply Hmatch; [exact Ha|]; intros ? ?; apply IH; [assumption|exact Hb]
                 | apply closed_bind; [|intros ?] | apply Ho | apply Hc | apply Hl | apply Hm | apply Hbound, Hb
                 | progress (intros ? ?; rewrite ?in_app_iff; tauto)].
Qed.

(** *** Instantiation *)

(** The literal parts of a template. *)
Fixpoint literal_parts (t : template) : list ast :=
  match t with TplLiteral (Some a) => [a] | TplList es => flat_map literal_parts es | _ => [] end.

Lemma closed_instantiate fuel t b : (forall a, In a (literal_parts t) -> ok fuel a) -> good b ->
  P _ (instantiateTemplate fuel t b).
Proof.
  intros Ht Hb. revert t Ht. fix IH 1. intros t Ht.
  destruct t as [|[a|]|[name|]|es|]; cbn [instantiateTemplate]; try apply closed_ret.
  - apply closed_substitute; [apply Ht; left; reflexivity|exact Hb].
  - apply Hbound, Hb.
  - apply closed_bind; [|intros [|f vs]; apply closed_ret].
    cbn [literal_parts] in Ht. induction es as [|e es IHes]; cbn [x_map]; [apply closed_ret|].
    cbn [flat_map] in Ht. apply closed_bind; [apply IH; intros a Ha; apply Ht, in_or_app; left; exact Ha|].
    intros e'. apply closed_bind; [apply IHes; intros a Ha; apply Ht, in_or_app; right; exact Ha|]. intros. apply closed_ret.
Qed.

Lemma closed_try macro_at fuel name args call :
  (forall p t b, matching_rule (rules (macro_at p)) args = Some (t, b) ->
     (forall a, In a (literal_parts t) -> ok fuel a) /\ good b) ->
  P _ (tryExpandMacroCall macro_at fuel name args call).
Proof.
  intros Hr. unfold tryExpandMacroCall. apply closed_read. intros s. destruct (lookupMacro name s) as [p|]; [|apply closed_ret].
  destruct (matching_rule (rules (macro_at p)) args) as [[t b]|] eqn:E; [|closed].
  destruct (Hr p t b E). apply closed_instantiate; assumption.
Qed.

End Closure.

Lemma closed_on_clauses {P : forall A, X A -> Prop} `{HP : ClosedClauses P} f loc : (forall a, P _ (f a)) -> P _ (on_clauses f loc).
Proof.
  intros Hf. unfold on_clauses. apply closed_read. intros s. generalize (num_clauses loc s). intros n. generalize (seq 0 n). intros l.
  induction l as [|i l IH]; cbn [rewrite_clauses]; [apply closed_ret|].
  apply closed_read. intros s'. generalize (clause_at s' loc i). intros c.
  apply closed_bind; [|intros _; exact IH]. destruct c as [[pt g [body|]]|]; [|apply closed_ret..]. apply closed_bind; [apply Hf|]. intros body'. apply closed_clause.
Qed.

Lemma closed_children {P : forall A, X A -> Prop} `{HP : ClosedClauses P} (f : ast -> X ast) a :
  (forall x, P _ (f x)) -> P _ (expand_children f a).
Proof.
  intros Hf.
  assert (Ho : forall o, P _ (x_option f o)) by (intros o; apply closed_x_option; auto).
  assert (Hm : forall l, P _ (x_map f l)) by (intros l; apply closed_x_map; auto).
  assert (Hb : forall l, P _ (x_map (expand_binding f) l)).
  { intros l. apply closed_x_map. intros [| | | |car [cdr|]| | | | | | | | | | | | | |] _; closed. }
  destruct a; cbn [expand_children]; try (destruct k);
    repeat first [apply closed_ret | apply closed_on_clauses, Hf | apply closed_bind; [|intros ?] | apply Ho | apply Hm | apply Hb].
Qed.

(** ** Scopes and errors *)

(** Scopes opened are closed again; errors are only added. *)
Definition after (s s' : expander) : Prop :=
  scope_stack_ s' <> [] /\ tl (scope_stack_ s') = tl (scope_stack_ s) /\ exists l, errors s' = errors s ++ l.

Definition steps (A : Type) (m : X A) : Prop :=
  forall s a s', scope_stack_ s <> [] -> m s = Done a s' -> after s s'.

Lemma after_refl s : scope_stack_ s <> [] -> after s s.
Proof. intros Hs. split; [exact Hs|]. split; [reflexivity|]. exists []. rewrite app_nil_r. reflexivity. Qed.

Lemma after_trans s1 s2 s3 : after s1 s2 -> after s2 s3 -> after s1 s3.
Proof.
  intros (_ & H1 & l1 & E1) (H2 & H3 & l2 & E2). split; [exact H2|]. split; [congruence|].
  exists (l1 ++ l2). rewrite E2, E1, app_assoc. reflexivity.
Qed.

Lemma bind_inv {A B} (m : X A) (k : A -> X B) s b s' : x_bind m k s = Done b s' ->
  exists a s1, m s = Done a s1 /\ k a s1 = Done b s'.
Proof. unfold x_bind. destruct (m s) as [a s1| |]; [eauto|discriminate..]. Qed.

#[export] Instance steps_closed : ClosedClauses steps.
Proof.
  constructor; [constructor|]; unfold steps.
  - intros A a s a' s' Hs [= <- <-]. apply after_refl, Hs.
  - intros A B m k Hm Hk s b s' Hs Hb. apply bind_inv in Hb as (a & s1 & H1 & H2).
    pose proof (Hm _ _ _ Hs H1) as Ha. apply (after_trans _ _ _ Ha), (Hk a s1 b); [apply Ha|exact H2].
  - intros A B f k Hk s b s' Hs Hb. exact (Hk s s b s' Hs Hb).
  - intros e s a s' Hs [= _ <-]. split; [exact Hs|]. split; [reflexivity|]. exists [e]. reflexivity.
  - intros loc i body s a s' Hs [= _ <-]. split; [exact Hs|]. split; [reflexivity|]. exists []. cbn. rewrite app_nil_r. reflexivity.
Qed.

Lemma steps_nothing A (m : X A) : (forall s a s', m s <> Done a s') -> steps A m.
Proof. intros Hm s a s' _ He. destruct (Hm s a s' He). Qed.

Lemma steps_bound name b a : steps _ (bound_value name b a).
Proof.
  unfold bound_value. destruct (find name b) as [t|]; [|apply closed_ret].
  destruct (matchTreeHasValue t); [|apply closed_ret].
  destruct (matchTreeFirstScalar t); [apply closed_ret|]. apply steps_nothing. discriminate.
Qed.

Lemma steps_try macro_at fuel name args call : steps _ (tryExpandMacroCall macro_at fuel name args call).
Proof.
  apply (closed_try (fun _ _ => True) (fun _ => True)); auto using steps_bound.
  - intros A _ _. apply steps_nothing. discriminate.
  - intros _ _ loc f _ Hf. apply closed_on_clauses. auto.
Qed.

Section Steps.
  Context (macro_at : nat -> macro_def).

Lemma register_tail m s : scope_stack_ s <> [] -> after s (match registerMacro macro_at m s with Done _ s' => s' | _ => s end).
Proof.
  intros Hs. unfold registerMacro, x_modify. destruct m as [p|]; [|apply after_refl, Hs].
  destruct (scope_stack_ s) as [|sc rest] eqn:E; [contradiction|].
  destruct (macro_name (macro_at p)); [|apply after_refl; congruence].
  split; [discriminate|]. split; [rewrite E; reflexivity|]. exists []. cbn. rewrite app_nil_r. reflexivity.
Qed.

Lemma steps_register m : steps _ (registerMacro macro_at m).
Proof.
  intros s a s' Hs He. pose proof (register_tail m s Hs) as Ha. rewrite He in Ha. exact Ha.
Qed.

Lemma steps_register_all ms : steps _ (register_all macro_at ms).
Proof. induction ms as [|m ms IH]; cbn [register_all]; [apply closed_ret|]. apply closed_bind; [apply steps_register|auto]. Qed.

Lemma steps_loop rounds fuel : forall a chain, steps _ (expansion_loop macro_at rounds fuel a chain).
Proof.
  induction rounds as [|rounds IH]; intros a chain; cbn [expansion_loop]; [apply steps_nothing; discriminate|].
  assert (Hc : forall name args,
    steps _ (do* is_macro := x_get (isMacro name) in
             if is_macro : bool then
               if existsb (String.eqb name) chain then
                 do* u := eshkol_error (CircularExpansion name) in x_ret (Circular a)
               else
                 do* next := tryExpandMacroCall macro_at fuel name args a in expansion_loop macro_at rounds fuel next (name :: chain)
             else x_ret (Descend a))).
  { intros name args. apply closed_read. intros s. destruct (isMacro name s); [|apply closed_ret].
    destruct (existsb _ chain); [closed|]. apply closed_bind; [apply steps_try|intros next; apply IH]. }
  destruct a as [| | | | |[] [[| | |[name|]| | | | | | | | | | | | | | |]|] args| | | | | | | | | | | | |];
    first [apply closed_ret|apply Hc].
Qed.

(** A scope for the local macros, dropped after the body. *)
Lemma steps_scoped ms (m : X ast) : steps _ m ->
  steps _ (do* u := pushScope in do* v := register_all macro_at ms in do* body := m in do* w := popScope in x_ret body).
Proof.
  intros Hm s a s' Hs He.
  apply bind_inv in He as (u & s1 & H1 & He). injection H1 as _ <-.
  apply bind_inv in He as (v & s2 & H2 & He). apply bind_inv in He as (body & s3 & H3 & He).
  apply bind_inv in He as (w & s4 & H4 & He). injection H4 as _ <-. injection He as _ <-.
  assert (Ha : after (with_scopes_ ([] :: scope_stack_ s) s) s3).
  { assert (N0 : scope_stack_ (with_scopes_ ([] :: scope_stack_ s) s) <> []) by discriminate.
    pose proof (steps_register_all ms _ _ _ N0 H2) as A2.
    apply (after_trans _ _ _ A2), (Hm _ _ _ (proj1 A2) H3). }
  destruct Ha as (N & T & l & E). cbn in T, E. destruct (scope_stack_ s3) as [|sc rest]; [contradiction|].
  cbn in T. subst rest. destruct (scope_stack_ s) as [|sc0 rest0] eqn:E0; [contradiction|].
  split; [discriminate|]. cbn. rewrite E0. split; [reflexivity|]. eauto.
Qed.

Lemma steps_expandNode levels : forall rounds fuel a, steps _ (expandNode macro_at levels rounds fuel a).
Proof.
  induction levels as [|levels IH]; intros rounds fuel a; cbn [expandNode]; [closed|].
  apply closed_bind; [apply steps_loop|]. intros [m|ms body|a'|a'].
  - apply closed_bind; [apply steps_register|closed].
  - apply steps_scoped, IH.
  - apply closed_ret.
  - apply closed_children, IH.
Qed.
End Steps.

(** ** Results of a run without errors *)

Definition leaves {A} (Q : A -> Prop) (m : X A) : Prop :=
  forall s a s', scope_stack_ s <> [] -> m s = Done a s' -> errors s' = errors s -> Q a.

Lemma after_quiet s1 s2 s3 : after s1 s2 -> after s2 s3 -> errors s3 = errors s1 -> errors s2 = errors s1 /\ errors s3 = errors s2.
Proof.
  intros (_ & _ & l1 & E1) (_ & _ & l2 & E2) E. rewrite E2, E1, <- app_assoc in E.
  rewrite <- (app_nil_r (errors s1)) in E at 2. apply app_inv_head, app_eq_nil in E as [-> ->].
  rewrite app_nil_r in *. auto.
Qed.

Lemma leaves_ret {A} (Q : A -> Prop) a : Q a -> leaves Q (x_ret a).
Proof. intros Ha s a' s' _ [= <- _] _. exact Ha. Qed.

Lemma leaves_bind {A B} (R : A -> Prop) (Q : B -> Prop) (m : X A) (k : A -> X B) :
  steps _ m -> leaves R m -> (forall a, steps _ (k a)) -> (forall a, R a -> leaves Q (k a)) -> leaves Q (x_bind m k).
Proof.
  intros Hm Rm Hk Qk s b s' Hs Hb He. apply bind_inv in Hb as (a & s1 & H1 & H2).
  pose proof (Hm _ _ _ Hs H1) as A1. pose proof (Hk a _ _ _ (proj1 A1) H2) as A2.
  destruct (after_quiet _ _ _ A1 A2 He) as [E1 E2].
  exact (Qk a (Rm _ _ _ Hs H1 E1) _ _ _ (proj1 A1) H2 E2).
Qed.

Lemma leaves_read {A B} (f : expander -> A) (Q : B -> Prop) (k : A -> X B) :
  (forall s, leaves Q (k (f s))) -> leaves Q (x_bind (x_get f) k).
Proof. intros Hk s b s' Hs Hb He. exact (Hk s s b s' Hs Hb He). Qed.

Lemma leaves_true {A} (m : X A) : leaves (fun _ => True) m.
Proof. intros s a s' _ _ _. exact I. Qed.

Lemma leaves_error {A} (Q : A -> Prop) e (k : unit -> X A) :
  (forall u, steps _ (k u)) -> leaves Q (x_bind (eshkol_error e) k).
Proof.
  intros Hk. apply (leaves_bind (fun _ => False)); [apply closed_error| |exact Hk|intros _ []].
  intros s a s' _ [= _ <-] E. cbn in E. rewrite <- (app_nil_r (errors s)) in E at 2. apply app_inv_head in E. discriminate.
Qed.

Lemma leaves_map {A B} (Q : B -> Prop) (f : A -> X B) l :
  (forall a, steps _ (f a)) -> (forall a, leaves Q (f a)) -> leaves (Forall Q) (x_map f l).
Proof.
  intros Hs Hf. induction l as [|a l IH]; cbn [x_map]; [apply leaves_ret; constructor|].
  apply (leaves_bind Q); [apply Hs|apply Hf|intros b; apply closed_bind; [apply closed_x_map; auto|intros; apply closed_ret]|].
  intros b Hb.
  apply (leaves_bind (Forall Q)); [apply closed_x_map; auto|exact IH|intros; apply closed_ret|].
  intros bs Hbs. apply leaves_ret. constructor; assumption.
Qed.

Lemma leaves_option {A B} (Q : B -> Prop) (f : A -> X B) o :
  (forall a, steps _ (f a)) -> (forall a, leaves Q (f a)) -> leaves (fun o => Forall Q (option_list o)) (x_option f o).
Proof.
  intros Hs Hf. destruct o as [a|]; cbn [x_option]; [|apply leaves_ret; constructor].
  apply (leaves_bind Q); [apply Hs|apply Hf|intros; apply closed_ret|]. intros b Hb. apply leaves_ret. repeat constructor. exact Hb.
Qed.

(** *** What is left in the result *)

Definition binding_value (a : ast) : list ast := match a with ACons _ cdr => option_list cdr | _ => [] end.

(** The sub-expressions that are expanded, but for the bodies of a match expression, which
    are in the store. *)
Definition subtrees (a : ast) : list ast :=
  match a with
  | ACall ESHKOL_QUOTE_OP _ _ => []
  | ACall _ func variables => option_list func ++ variables
  | ASeq _ es => es
  | ADefine _ v | ASet _ v => option_list v
  | ALambda _ b => option_list b
  | ALet _ bs b => flat_map binding_value bs ++ option_list b
  | AMatch e _ => option_list e
  | AGuard _ cs body => cs ++ body
  | ARaise e => option_list e
  | ACallCC p => option_list p
  | ADynamicWind x y z => option_list x ++ option_list y ++ option_list z
  | AInvalid | ANull | AData _ | AVar _ | ACons _ _ | ADefineSyntax _ | ALetSyntax _ _ | AOther _ _ => []
  end.

(** The bodies of a match expression. *)
Definition clause_bodies (s : expander) (a : ast) : list ast :=
  match a with
  | AMatch _ loc => flat_map (fun c => option_list (clause_body c)) (match nth_error (clause_store s) loc with Some cs => cs | None => [] end)
  | _ => []
  end.

(** What expansion visits from a node. *)
Definition visited (s : expander) (a : ast) : list ast := subtrees a ++ clause_bodies s a.

Inductive reachable (s : expander) : ast -> ast -> Prop :=
| reachable_refl a : reachable s a a
| reachable_step a b c : In b (visited s a) -> reachable s b c -> reachable s a c.

(** No [bad] node in the tree itself at the positions that are expanded, which are at most
    [n] deep. *)
Fixpoint free_of (bad : ast -> bool) (n : nat) (a : ast) : bool :=
  match n with
  | O => false
  | S n' => negb (bad a) && forallb (free_of bad n') (subtrees a)
  end.

Definition introduces_macros (a : ast) : bool := match a with ADefineSyntax _ | ALetSyntax _ _ => true | _ => false end.

Lemma Forall_binding_values (Q : ast -> Prop) bs :
  Forall (fun b => Forall Q (binding_value b)) bs -> Forall Q (flat_map binding_value bs).
Proof. induction 1; cbn; [constructor|]. apply Forall_app. auto. Qed.

Section Leaves.
  Context (Q : ast -> Prop) (f : ast -> X ast).
  Hypothesis Hsteps : forall a, steps _ (f a).
  Hypothesis Hleaves : forall a, leaves Q (f a).

Lemma leaves_binding a : leaves (fun b => Forall Q (binding_value b)) (expand_binding f a).
Proof.
  destruct a as [| | | |car [cdr|]| | | | | | | | | | | | | |]; cbn [expand_binding]; try (apply leaves_ret; constructor).
  apply (leaves_bind Q); [apply Hsteps|apply Hleaves|intros; apply closed_ret|].
  intros a Ha. apply leaves_ret. repeat constructor. exact Ha.
Qed.

Lemma steps_binding a : steps _ (expand_binding f a).
Proof.
  destruct a as [| | | |car [cdr|]| | | | | | | | | | | | | |]; cbn [expand_binding]; try apply closed_ret.
  apply closed_bind; [apply Hsteps|intros; apply closed_ret].
Qed.

Ltac run_steps :=
  repeat first [apply closed_ret | apply Hsteps | apply steps_binding | apply closed_on_clauses; intros ?
               | apply closed_x_option; intros ? _ | apply closed_x_map; intros ? _ | apply closed_bind; [|intros ?]].

Ltac run_leaves :=
  first [apply leaves_ret
        | eapply leaves_bind;
          [run_steps
          |first [apply (leaves_option Q f) | apply (leaves_map Q f) | apply leaves_map; [apply steps_binding|apply leaves_binding] | apply leaves_true];
           assumption
          |intros ?; run_steps
          |intros ? ?; run_leaves]].

Lemma leaves_children a : introduces_macros a = false ->
  leaves (fun r => introduces_macros r = false /\ Forall Q (subtrees r)) (expand_children f a).
Proof.
  intros Ha. destruct a; cbn [expand_children]; try discriminate Ha; try (destruct k);
    run_leaves; (split; [reflexivity|]); cbn [subtrees]; rewrite ?Forall_app; auto using Forall_binding_values.
Qed.
End Leaves.

Lemma leaves_loop macro_at rounds fuel : forall a chain,
  leaves (fun r => match r with Definition_ m => True | LocalMacros _ _ => True | Circular _ => False
                   | Descend a' => introduces_macros a' = false end) (expansion_loop macro_at rounds fuel a chain).
Proof.
  induction rounds as [|rounds IH]; intros a chain; cbn [expansion_loop]; [intros s r s' _; discriminate|].
  destruct a as [| | | | |[] [[| | |[name|]| | | | | | | | | | | | | | |]|] args| | | | | | | | | | | | |];
    try (apply leaves_ret; first [exact I|reflexivity]).
  apply leaves_read. intros s. destruct (isMacro name s); [|apply leaves_ret; reflexivity].
  destruct (existsb _ chain); [apply leaves_error; intros; apply closed_ret|].
  apply (leaves_bind (fun _ => True)); [apply steps_try|apply leaves_true|intros; apply steps_loop|intros; apply IH].
Qed.

Lemma leaves_scoped macro_at (Q : ast -> Prop) ms (m : X ast) : steps _ m -> leaves Q m ->
  leaves Q (do* u := pushScope in do* v := register_all macro_at ms in do* body := m in do* w := popScope in x_ret body).
Proof.
  intros Hm HQ s a s' Hs He E.
  apply bind_inv in He as (u & s1 & H1 & He). injection H1 as _ <-.
  apply bind_inv in He as (v & s2 & H2 & He). apply bind_inv in He as (body & s3 & H3 & He).
  apply bind_inv in He as (w & s4 & H4 & He). injection H4 as _ <-. injection He as <- <-.
  assert (N0 : scope_stack_ (with_scopes_ ([] :: scope_stack_ s) s) <> []) by discriminate.
  pose proof (steps_register_all macro_at ms _ _ _ N0 H2) as A2. pose proof (Hm _ _ _ (proj1 A2) H3) as A3.
  assert (E3 : errors s3 = errors s) by (destruct (scope_stack_ s3) as [|? [|]]; exact E).
  exact (HQ _ _ _ (proj1 A2) H3 (proj2 (after_quiet _ _ _ A2 A3 E3))).
Qed.

Lemma free_of_S bad n : forall a, free_of bad n a = true -> free_of bad (S n) a = true.
Proof.
  induction n as [|n IH]; intros a Hf; [discriminate|]. cbn [free_of] in Hf. apply andb_true_iff in Hf as [H1 H2].
  change (free_of bad (S (S n)) a) with (negb (bad a) && forallb (free_of bad (S n)) (subtrees a)).
  rewrite H1. apply forallb_forall. intros x Hx. apply IH. rewrite forallb_forall in H2. apply H2, Hx.
Qed.

Lemma leaves_weaken {A} (R Q : A -> Prop) (m : X A) : (forall a, R a -> Q a) -> leaves R m -> leaves Q m.
Proof. intros Hi Hm s a s' Hs He E. exact (Hi a (Hm s a s' Hs He E)). Qed.

Lemma leaves_expandNode macro_at levels : forall rounds fuel a,
  leaves (fun r => free_of introduces_macros levels r = true) (expandNode macro_at levels rounds fuel a).
Proof.
  induction levels as [|levels IH]; intros rounds fuel a; cbn [expandNode]; [apply leaves_error; intros; apply closed_ret|].
  pose proof (fun a => steps_expandNode macro_at levels rounds fuel a) as St.
  eapply leaves_bind; [apply steps_loop|apply leaves_loop| |].
  - intros [m|ms body|a'|a']; [|apply steps_scoped, St|apply closed_ret|apply closed_children, St].
    apply closed_bind; [apply steps_register|intros; apply closed_ret].
  - intros [m|ms body|a'|a'] Hr; [| |contradiction|].
    + apply (leaves_bind (fun _ => True)); [apply steps_register|apply leaves_true|intros; apply closed_ret|].
      intros u _. apply leaves_ret. reflexivity.
    + apply leaves_scoped; [apply St|]. eapply leaves_weaken; [|apply IH]. apply free_of_S.
    + eapply leaves_weaken; [|apply (leaves_children _ _ St (IH rounds fuel)), Hr].
      intros r [H1 H2]. cbn [free_of]. rewrite H1. apply forallb_forall, Forall_forall, H2.
Qed.

(** ** Every run ends *)

(** *** Patterns without dots under dots bind scalars and lists of scalars *)

Fixpoint has_dots (p : pattern) : bool :=
  match p with PList es _ => existsb (fun e => followed_by_ellipsis e || has_dots e) es | _ => false end.

Fixpoint dots_once (p : pattern) : bool :=
  match p with
  | PList es _ => forallb (fun e => if followed_by_ellipsis e then negb (has_dots e) else dots_once e) es
  | _ => true
  end.

Definition scalar (t : match_tree) : Prop := tree_depth t = O.

(** A tree with a value wherever a template asks for one. *)
Definition flat (t : match_tree) : Prop :=
  match t with Tree O _ _ => True | Tree 1 _ ts => Forall scalar ts | Tree (S (S _)) _ _ => False end.

Definition binds_to (Q : match_tree -> Prop) (b : bindings) : Prop := forall x t, find x b = Some t -> Q t.

Lemma scalar_flat t : scalar t -> flat t.
Proof. destruct t as [[|d] a ts]; [exact (fun _ => I)|discriminate]. Qed.

Lemma binds_insert Q x t b : Q t -> binds_to Q b -> binds_to Q (insert x t b).
Proof.
  intros Ht Hb y t' Hf. destruct (string_dec y x) as [->|N].
  - rewrite find_insert_eq in Hf. injection Hf as <-. exact Ht.
  - rewrite find_insert_ne in Hf by exact N. exact (Hb y t' Hf).
Qed.

Lemma collect_flat p : has_dots p = false -> forall out, Forall (fun e : string * nat => snd e = O) out ->
  Forall (fun e : string * nat => snd e = O) (collectPatternVarDepths p 0 out).
Proof.
  assert (Hins : forall (x : string) out, Forall (fun e : string * nat => snd e = O) out ->
                   Forall (fun e : string * nat => snd e = O) (insert x O out)).
  { intros x out Ho. apply Forall_forall. intros e He. apply insert_In in He as [->|He]; [reflexivity|].
    rewrite Forall_forall in Ho. exact (Ho e He). }
  revert p. fix IH 1. intros [|x e|x e|es e|e] Hp out Ho; cbn [collectPatternVarDepths]; try exact Ho.
  - destruct (_ || _); [exact Ho|apply Hins, Ho].
  - cbn [has_dots] in Hp. revert out Ho. induction es as [|p es IHes]; intros out Ho; [exact Ho|].
    cbn [existsb] in Hp. apply orb_false_iff in Hp as [Hp Hes]. apply orb_false_iff in Hp as [E Hp].
    cbn [fold_left]. rewrite E. apply (IHes Hes). apply IH; assumption.
Qed.

Lemma merge_flat e subs b : has_dots e = false -> Forall (binds_to scalar) subs -> binds_to flat b ->
  binds_to flat (merge_repetitions e subs b).
Proof.
  intros He Hs. unfold merge_repetitions.
  pose proof (collect_flat e He [] (Forall_nil _)) as HF. revert b. induction HF as [|[x d] l Hd _ IH]; intros b Hb; [exact Hb|].
  cbn [fold_left fst snd] in *. subst d. apply IH, binds_insert; [|exact Hb]. cbn.
  apply Forall_map. eapply Forall_impl; [|exact Hs]. intros sub Hsub. destruct (find x sub) eqn:E; [exact (Hsub x _ E)|reflexivity].
Qed.

(** A fact about bindings that matching one element, and merging, preserve. *)
Lemma sequence_binds (Q : match_tree -> Prop) (ok : pattern -> Prop) es :
  Forall (fun p => ok p -> followed_by_ellipsis p = false -> forall a b b',
            binds_to Q b -> matchPattern p a b = Some b' -> binds_to Q b') es ->
  (forall p args subs b, In p es -> ok p -> followed_by_ellipsis p = true ->
     match_repetitions matchPattern p args = Some subs -> binds_to Q b -> binds_to Q (merge_repetitions p subs b)) ->
  Forall ok es -> forall args b b', binds_to Q b -> match_sequence matchPattern es args b = Some b' -> binds_to Q b'.
Proof.
  intros HF HM Hok. induction HF as [|p es Hp HF IH]; intros args b b' Hb; cbn [match_sequence].
  - destruct args; [intros [= <-]; exact Hb|discriminate].
  - inversion Hok as [|? ? Op Oes]; subst.
    assert (HM' : forall p args subs b, In p es -> ok p -> followed_by_ellipsis p = true ->
      match_repetitions matchPattern p args = Some subs -> binds_to Q b -> binds_to Q (merge_repetitions p subs b)).
    { intros q args' subs b1 Hq. apply HM. right. exact Hq. }
    specialize (IH HM' Oes). destruct (followed_by_ellipsis p) eqn:E.
    + destruct (match_repetitions matchPattern p args) as [subs|] eqn:Em; [|discriminate].
      apply IH, (HM p args subs b); auto. left. reflexivity.
    + destruct args as [|a args]; [destruct p; discriminate|].
      destruct (matchPattern p a b) as [b1|] eqn:E1; [|destruct p; discriminate].
      destruct p; try discriminate; apply IH, (Hp Op eq_refl a b b1); assumption.
Qed.

Lemma match_scalars p : has_dots p = false -> forall a b b',
  binds_to scalar b -> matchPattern p a b = Some b' -> binds_to scalar b'.
Proof.
  induction p as [|x e|x e|es e IH|e] using pattern_ind'; intros Hp a b b' Hb; cbn [matchPattern]; try discriminate.
  - destruct (String.eqb x "_"); intros [= <-]; [exact Hb|]. apply binds_insert; [reflexivity|exact Hb].
  - destruct (isSymbol a x); [intros [= <-]; exact Hb|discriminate].
  - destruct a as [| | | | |[] [f|] vs| | | | | | | | | | | | |]; try discriminate.
    apply (sequence_binds scalar (fun e => followed_by_ellipsis e = false /\ has_dots e = false)); [| | |exact Hb].
    + eapply Forall_impl; [|exact IH]. intros q Hq [_ Hd] _. exact (Hq Hd).
    + intros q args subs b1 _ [E _] E'. congruence.
    + apply Forall_forall. intros q Hq. apply orb_false_iff. cbn [has_dots] in Hp.
      destruct (followed_by_ellipsis q || has_dots q) eqn:E; [|reflexivity].
      rewrite <- Hp. symmetry. apply existsb_exists. eauto.
Qed.

Definition once (e : pattern) : bool := if followed_by_ellipsis e then negb (has_dots e) else dots_once e.

Lemma sequence_flats es :
  Forall (fun p => dots_once p = true -> forall a b b', binds_to flat b -> matchPattern p a b = Some b' -> binds_to flat b') es ->
  forallb once es = true -> forall args b b',
  binds_to flat b -> match_sequence matchPattern es args b = Some b' -> binds_to flat b'.
Proof.
  intros HF Ho. apply (sequence_binds flat (fun e => once e = true)).
  - eapply Forall_impl; [|exact HF]. intros q Hq Oq E. unfold once in Oq. rewrite E in Oq. exact (Hq Oq).
  - intros q args subs b _ Oq E Hm. unfold once in Oq. rewrite E in Oq. apply negb_true_iff in Oq.
    apply merge_flat; [exact Oq|]. apply repetitions_each in Hm. clear - Hm Oq.
    induction Hm as [|a sub args subs Ha _ IH]; constructor; [|exact IH].
    refine (match_scalars q Oq a [] sub _ Ha). intros x t Hx. discriminate Hx.
  - apply Forall_forall, forallb_forall, Ho.
Qed.

Lemma match_flats p : dots_once p = true -> forall a b b',
  binds_to flat b -> matchPattern p a b = Some b' -> binds_to flat b'.
Proof.
  induction p as [|x e|x e|es e IH|e] using pattern_ind'; intros Hp a b b' Hb; cbn [matchPattern]; try discriminate.
  - destruct (String.eqb x "_"); intros [= <-]; [exact Hb|]. apply binds_insert; [exact I|exact Hb].
  - destruct (isSymbol a x); [intros [= <-]; exact Hb|discriminate].
  - destruct a as [| | | | |[] [f|] vs| | | | | | | | | | | | |]; try discriminate.
    apply (sequence_flats es); assumption.
Qed.

Lemma arguments_flat es args b : forallb once es = true -> matchPatternSeq es args [] = Some b -> binds_to flat b.
Proof.
  intros Ho. apply (sequence_flats es); [|exact Ho|intros x t Hx; discriminate Hx].
  apply Forall_forall. intros p _. apply match_flats.
Qed.

Lemma flat_peel b i : binds_to flat b -> binds_to flat (peelBindingsAtIndex b i).
Proof.
  intros Hb x t Hf. rewrite find_peel in Hf. destruct (find x b) as [t0|] eqn:E; [|discriminate].
  specialize (Hb x t0 E). injection Hf as <-.
  destruct t0 as [[|[|d]] a ts]; [exact I| |destruct Hb]. destruct ts as [|t1 ts]; [exact I|].
  change (Forall scalar (t1 :: ts)) in Hb. apply scalar_flat. cbn [peel_tree]. rewrite Forall_forall in Hb.
  destruct (nth_in_or_default (Nat.min i (length (t1 :: ts) - 1)) (t1 :: ts) (Tree 0 AInvalid [])) as [Hi| ->]; [apply Hb, Hi|reflexivity].
Qed.

(** *** Templates without match expressions, at most [n] deep *)

Definition is_match (a : ast) : bool := match a with AMatch _ _ => true | _ => false end.

Fixpoint shallow (n : nat) (a : ast) : bool :=
  match n with O => false | S n' => negb (is_match a) && forallb (shallow n') (searched new_expander a) end.

Lemma searched_no_match a s : is_match a = false -> searched s a = searched new_expander a.
Proof. destruct a; cbn; congruence. Qed.

(** The names of the macros in scope. *)
Definition scopes_in (names : list string) (s : expander) : Prop :=
  forall m x p, In m (scope_stack_ s) -> find x m = Some p -> In x names.

Definition total (names : list string) (A : Type) (m : X A) : Prop :=
  forall s, scopes_in names s -> exists a s', m s = Done a s' /\ scopes_in names s'.

#[export] Instance total_closed names : ClosedClauses (total names).
Proof.
  constructor; [constructor|]; unfold total.
  - intros A a s Hs. exists a, s. auto.
  - intros A B m k Hm Hk s Hs. destruct (Hm s Hs) as (a & s1 & H1 & Hs1). destruct (Hk a s1 Hs1) as (b & s2 & H2 & Hs2).
    exists b, s2. rewrite (bind_done _ _ _ _ _ H1). auto.
  - intros A B f k Hk s Hs. exact (Hk s s Hs).
  - intros e s Hs. do 2 eexists. split; [reflexivity|]. exact Hs.
  - intros loc i body s Hs. do 2 eexists. split; [reflexivity|]. exact Hs.
Qed.

Lemma total_bound names name b a : binds_to flat b -> total names _ (bound_value name b a).
Proof.
  intros Hb. unfold bound_value. destruct (find name b) as [t|] eqn:E; [|apply closed_ret]. specialize (Hb name t E).
  destruct t as [[|[|d]] c [|t1 ts]]; cbn [matchTreeHasValue matchTreeFirstScalar]; try apply closed_ret; [|destruct Hb..].
  inversion Hb as [|? ? Ht _]; subst. destruct t1 as [[|d] c' ts']; [apply closed_ret|discriminate Ht].
Qed.

Section Total.
  Context (macro_at : nat -> macro_def) (names : list string) (fuel : nat).

  (** The macros: named in [names], no dots under dots in a pattern, templates that the
      fuel is enough for. *)
Definition rule_ok (r : pattern * template) : bool :=
  match fst r with PList es _ => forallb once (tl es) | _ => true end &&
  forallb (shallow fuel) (literal_parts (snd r)).

Definition macro_ok (m : macro_def) : Prop :=
  (forall x, macro_name m = Some x -> In x names) /\ forallb rule_ok (rules m) = true.

  Hypothesis Hmacros : forall p, macro_ok (macro_at p).

Lemma matching_rule_ok rs args t b : forallb rule_ok rs = true -> matching_rule rs args = Some (t, b) ->
  (forall a, In a (literal_parts t) -> shallow fuel a = true) /\ binds_to flat b.
Proof.
  induction rs as [|[p t'] rs IH]; cbn [matching_rule forallb]; [discriminate|].
  intros Hr. apply andb_true_iff in Hr as [Hr Hrs]. destruct p as [| | |es e|]; auto. unfold rule_ok in Hr. cbn [fst snd] in Hr.
  apply andb_true_iff in Hr as [Hp Ht].
  destruct (matchPatternSeq (tl es) args []) as [b'|] eqn:Em; [|destruct t'; auto].
  destruct t' as [| | | |]; auto; intros [= <- <-]; (split; [apply forallb_forall, Ht|exact (arguments_flat _ _ _ Hp Em)]).
Qed.

Lemma total_try name args call : total names _ (tryExpandMacroCall macro_at fuel name args call).
Proof.
  apply (closed_try (fun n a => shallow n a = true) (binds_to flat)).
  - discriminate.
  - cbn [shallow]. intros n a s x Ha Hx. apply andb_true_iff in Ha as [Hm Ha]. apply negb_true_iff in Hm.
    rewrite (searched_no_match a s Hm) in Hx. rewrite forallb_forall in Ha. exact (Ha x Hx).
  - discriminate.
  - intros name' b a. apply total_bound.
  - intros b i. apply flat_peel.
  - intros p t b Hr. apply (matching_rule_ok (rules (macro_at p)) args); [apply Hmacros|exact Hr].
Qed.

Lemma total_register m : total names _ (registerMacro macro_at m).
Proof.
  intros s Hs. do 2 eexists. split; [reflexivity|]. destruct m as [p|]; [|exact Hs].
  destruct (scope_stack_ s) as [|sc rest] eqn:E; [exact Hs|]. destruct (macro_name (macro_at p)) as [name|] eqn:En; [|exact Hs].
  intros m x q [<-|Hm] Hf.
  - destruct (string_dec x name) as [->|N]; [apply (Hmacros p), En|]. rewrite find_insert_ne in Hf by exact N.
    apply (Hs sc x q); [rewrite E; left; reflexivity|exact Hf].
  - apply (Hs m x q); [rewrite E; right; exact Hm|exact Hf].
Qed.

Lemma total_register_all ms : total names _ (register_all macro_at ms).
Proof. induction ms as [|m ms IH]; cbn [register_all]; [apply closed_ret|]. apply closed_bind; [apply total_register|auto]. Qed.

Lemma total_push : total names _ pushScope.
Proof. intros s Hs. do 2 eexists. split; [reflexivity|]. intros m x p [<-|Hm]; [discriminate|apply Hs, Hm]. Qed.

Lemma total_pop : total names _ popScope.
Proof.
  intros s Hs. do 2 eexists. split; [reflexivity|]. destruct (scope_stack_ s) as [|sc [|sc2 rest]] eqn:E; try exact Hs.
  intros m x p Hm. apply Hs. rewrite E. right. exact Hm.
Qed.

Lemma macro_name_in name s : scopes_in names s -> isMacro name s = true -> In name names.
Proof.
  unfold isMacro, lookupMacro, scopes_in. induction (scope_stack_ s) as [|m ss IH]; cbn [lookup_macro]; [discriminate|].
  intros Hs. destruct (find name m) as [p|] eqn:E; [intros _; apply (Hs m name p); [left; reflexivity|exact E]|].
  apply IH. intros m' x p Hm. apply Hs. right. exact Hm.
Qed.

(** The names of the chain are distinct macros, so it is no longer than [names]. *)
Lemma total_loop rounds : forall a chain, NoDup chain -> incl chain names -> (length names < rounds + length chain)%nat ->
  total names _ (expansion_loop macro_at rounds fuel a chain).
Proof.
  induction rounds as [|rounds IH]; intros a chain Hn Hi Hl.
  - pose proof (NoDup_incl_length Hn Hi). lia.
  - cbn [expansion_loop].
    destruct a as [| | | | |[] [[| | |[name|]| | | | | | | | | | | | | | |]|] args| | | | | | | | | | | | |];
      try apply closed_ret.
    intros s Hs. change (x_bind (x_get ?f) ?k s) with (k (f s) s). cbv beta.
    destruct (isMacro name s) eqn:Em; [|exists (Descend (ACall ESHKOL_CALL_OP (Some (AVar (Some name))) args)), s; auto].
    pose proof (macro_name_in _ _ Hs Em) as Hin. revert s Hs Em.
    destruct (existsb (String.eqb name) chain) eqn:Ec.
    + intros s Hs _. refine (closed_bind _ _ _ _ _ _ s Hs); [apply closed_error|intros; apply closed_ret].
    + intros s Hs _. refine (closed_bind _ _ _ _ _ _ s Hs); [apply total_try|]. intros next. apply IH.
      * constructor; [|exact Hn]. intros Hc. rewrite <- not_true_iff_false in Ec. apply Ec, existsb_exists.
        exists name. split; [exact Hc|apply String.eqb_refl].
      * intros x [<-|Hx]; [exact Hin|exact (Hi x Hx)].
      * cbn [length]. lia.
Qed.

Lemma total_expandNode levels rounds : (length names < rounds)%nat -> forall a,
  total names _ (expandNode macro_at levels rounds fuel a).
Proof.
  intros Hr. induction levels as [|levels IH]; intros a; cbn [expandNode].
  - apply closed_bind; [apply closed_error|intros; apply closed_ret].
  - apply closed_bind; [apply total_loop; [constructor|intros x []|cbn; lia]|]. intros [m|ms body|a'|a'].
    + apply closed_bind; [apply total_register|intros; apply closed_ret].
    + apply closed_bind; [apply total_push|intros _]. apply closed_bind; [apply total_register_all|intros _].
      apply closed_bind; [apply IH|intros r]. apply closed_bind; [apply total_pop|intros; apply closed_ret].
    + apply closed_ret.
    + apply closed_children, IH.
Qed.
End Total.

(** ** The bodies of match expressions

    They are overwritten in place, by instantiation and by expansion.  When no template has
    a match expression only expansion does, and no definition can be reached from a
    result any more, through the store that is left. *)

(** No definition is reached. *)
Definition clean (s : expander) (a : ast) : Prop := forall b, reachable s a b -> introduces_macros b = false.

Lemma clean_iff s a : clean s a <-> introduces_macros a = false /\ Forall (clean s) (visited s a).
Proof.
  split.
  - intros Ha. split; [apply Ha; constructor|]. apply Forall_forall. intros b Hb c Hc. apply Ha. exact (reachable_step _ _ _ _ Hb Hc).
  - intros [H0 HF] b Hb. destruct Hb as [a|a b c Hab Hbc]; [exact H0|]. rewrite Forall_forall in HF. exact (HF b Hab c Hbc).
Qed.

Definition body_at (s : expander) (loc i : nat) : option ast := match clause_at s loc i with Some c => clause_body c | None => None end.

Lemma clause_bodies_at s e loc b : In b (clause_bodies s (AMatch e loc)) <-> exists i, body_at s loc i = Some b.
Proof.
  unfold body_at, clause_at. cbn [clause_bodies]. destruct (nth_error (clause_store s) loc) as [cs|]; [|split; [intros []|intros (i & [=])]]. rewrite in_flat_map. split.
  - intros (c & Hc & Hb). apply In_nth_error in Hc as (i & Hi). exists i. rewrite Hi. destruct (clause_body c); [destruct Hb as [->|[]]; reflexivity|destruct Hb].
  - intros (i & Hi). destruct (nth_error cs i) as [c|] eqn:E; [|discriminate]. exists c. split; [eapply nth_error_In, E|]. rewrite Hi. left. reflexivity.
Qed.

(** The bodies are as before, or clean. *)
Definition settles (s s' : expander) : Prop := forall loc i b, body_at s' loc i = Some b -> body_at s loc i = Some b \/ clean s' b.

Lemma settles_clean s s' a : settles s s' -> clean s a -> clean s' a.
Proof.
  intros Hs Ha b Hr. assert (H : clean s a \/ clean s' a) by auto. clear Ha. induction Hr as [a|a b c Hab Hbc IH]; [destruct H as [H|H]; apply H; constructor|].
  apply IH. destruct H as [H|H]; apply clean_iff in H as [_ H]; rewrite Forall_forall in H; [|right; exact (H b Hab)].
  unfold visited in *. apply in_app_or in Hab as [Hab|Hab]; [left; apply H, in_or_app; left; exact Hab|]. destruct a as [| | | | | | | | | |e loc| | | | | | | |]; try destruct Hab.
  apply clause_bodies_at in Hab as (i & Hi). destruct (Hs loc i b Hi) as [Ho|Hc]; [|right; exact Hc]. left. apply H, in_or_app. right. apply clause_bodies_at. eauto.
Qed.

Lemma settles_same s s' : clause_store s' = clause_store s -> settles s s'.
Proof. intros E loc i b. unfold body_at, clause_at. rewrite E. auto. Qed.

Lemma settles_trans s1 s2 s3 : settles s1 s2 -> settles s2 s3 -> settles s1 s3.
Proof. intros H1 H2 loc i b Hb. destruct (H2 _ _ _ Hb) as [Hb2|Hc]; [|auto]. destruct (H1 _ _ _ Hb2) as [Hb1|Hc]; [auto|right; exact (settles_clean _ _ _ H2 Hc)]. Qed.

Definition body_clean (s : expander) (loc i : nat) : Prop := forall b, body_at s loc i = Some b -> clean s b.

Lemma body_clean_settles s s' loc i : settles s s' -> body_clean s loc i -> body_clean s' loc i.
Proof. intros Hs Hb b Hi. destruct (Hs _ _ _ Hi) as [Ho|Hc]; [exact (settles_clean _ _ _ Hs (Hb b Ho))|exact Hc]. Qed.

Lemma nth_error_update {A} (f : A -> A) i l j : nth_error (update i f l) j = if Nat.eqb j i then option_map f (nth_error l j) else nth_error l j.
Proof.
  revert i j. induction l as [|x l IH]; intros i j; cbn [update]; [destruct j, i; cbn; try reflexivity; destruct (Nat.eqb _ _); reflexivity|].
  destruct i as [|i], j as [|j]; cbn; try reflexivity. apply IH.
Qed.

Lemma body_at_set s loc i body s' : set_clause_body loc i body s = Done tt s' -> forall l j b, body_at s' l j = Some b -> body_at s l j = Some b \/ (l = loc /\ j = i /\ b = body).
Proof.
  intros [= <-] l j b. unfold body_at, clause_at. cbn [clause_store]. rewrite nth_error_update. destruct (Nat.eqb_spec l loc) as [->|]; [|auto].
  destruct (nth_error (clause_store s) loc) as [cs|]; cbn [option_map]; [|discriminate]. rewrite nth_error_update. destruct (Nat.eqb_spec j i) as [->|]; [|auto].
  destruct (nth_error cs i); cbn; [|discriminate]. intros [= <-]. auto.
Qed.

(** A clean body may be written. *)
Lemma settles_set s loc i body s' : clean s body -> set_clause_body loc i body s = Done tt s' -> settles s s' /\ clean s' body.
Proof.
  intros Hc He. pose proof (body_at_set _ _ _ _ _ He) as Hb.
  assert (HC : forall a, clean s a -> clean s' a).
  { intros a Ha b Hr. induction Hr as [a|a b c Hab Hbc IH]; [apply Ha; constructor|]. apply IH. apply clean_iff in Ha as [_ Ha]. rewrite Forall_forall in Ha. unfold visited in *.
    apply in_app_or in Hab as [Hab|Hab]; [apply Ha, in_or_app; left; exact Hab|]. destruct a as [| | | | | | | | | |e loc'| | | | | | | |]; try destruct Hab.
    apply clause_bodies_at in Hab as (j & Hj). destruct (Hb _ _ _ Hj) as [Ho|(-> & -> & ->)]; [|exact Hc]. apply Ha, in_or_app. right. apply clause_bodies_at. eauto. }
  split; [|exact (HC _ Hc)]. intros l j b Hj. destruct (Hb _ _ _ Hj) as [Ho|(_ & _ & ->)]; [auto|right; exact (HC _ Hc)].
Qed.

(** *** Runs that settle the store *)

(** From a state with [F], without errors. *)
Definition settling {A} (F : expander -> Prop) (m : X A) (Q : expander -> A -> Prop) : Prop :=
  forall s a s', scope_stack_ s <> [] -> F s -> m s = Done a s' -> errors s' = errors s -> settles s s' /\ Q s' a.

Definition always : expander -> Prop := fun _ => True.

Lemma settling_ret {A} F (Q : expander -> A -> Prop) a : (forall s, F s -> Q s a) -> settling F (x_ret a) Q.
Proof. intros HQ s a' s' _ HF [= <- <-] _. split; [apply settles_same; reflexivity|exact (HQ s HF)]. Qed.

Lemma settling_bind {A B} F R Q (m : X A) (k : A -> X B) : steps _ m -> settling F m R -> (forall a, steps _ (k a)) ->
  (forall a, settling (fun s => R s a) (k a) Q) -> settling F (x_bind m k) Q.
Proof.
  intros Hm Rm Hk Qk s b s' Hs HF Hb He. apply bind_inv in Hb as (a & s1 & H1 & H2). pose proof (Hm _ _ _ Hs H1) as A1. pose proof (Hk a _ _ _ (proj1 A1) H2) as A2.
  destruct (after_quiet _ _ _ A1 A2 He) as [E1 E2]. destruct (Rm _ _ _ Hs HF H1 E1) as [S1 HR]. destruct (Qk a _ _ _ (proj1 A1) HR H2 E2) as [S2 HQ].
  split; [exact (settles_trans _ _ _ S1 S2)|exact HQ].
Qed.

Lemma settling_read {A B} F (g : expander -> A) Q (k : A -> X B) : (forall s0, settling (fun s => F s /\ s = s0) (k (g s0)) Q) -> settling F (x_bind (x_get g) k) Q.
Proof. intros Hk s b s' Hs HF Hb He. exact (Hk s s b s' Hs (conj HF eq_refl) Hb He). Qed.

Lemma settling_weaken {A} (F F' : expander -> Prop) (Q Q' : expander -> A -> Prop) m : (forall s, F' s -> F s) -> (forall s a, Q s a -> Q' s a) -> settling F m Q -> settling F' m Q'.
Proof. intros H1 H2 Hm s a s' Hs HF He E. destruct (Hm s a s' Hs (H1 s HF) He E). auto. Qed.

(** What clean states keep. *)
Definition stable (F : expander -> Prop) : Prop := forall s s', settles s s' -> F s -> F s'.

Lemma settling_frame {A} (F G : expander -> Prop) Q (m : X A) : stable G -> settling F m Q -> settling (fun s => G s /\ F s) m (fun s a => G s /\ Q s a).
Proof. intros HG Hm s a s' Hs [H1 H2] He E. destruct (Hm s a s' Hs H2 He E) as [S HQ]. split; [exact S|]. split; [exact (HG _ _ S H1)|exact HQ]. Qed.

Lemma stable_clean l : stable (fun s => Forall (clean s) l).
Proof. intros s s' Hs. apply Forall_impl. intros a. apply settles_clean, Hs. Qed.

(** The store is not written. *)
Definition stores (A : Type) (m : X A) : Prop := forall s a s', m s = Done a s' -> clause_store s' = clause_store s.

#[export] Instance stores_closed : Closed stores.
Proof.
  constructor; unfold stores.
  - intros A a s a' s' [= _ <-]. reflexivity.
  - intros A B m k Hm Hk s b s' Hb. apply bind_inv in Hb as (a & s1 & H1 & H2). rewrite (Hk _ _ _ _ H2). exact (Hm _ _ _ H1).
  - intros A B f k Hk s b s' Hb. exact (Hk s s b s' Hb).
  - intros e s a s' [= _ <-]. reflexivity.
Qed.

Lemma settling_stores {A} F Q (m : X A) : stores _ m -> leaves Q m -> settling F m (fun _ => Q).
Proof. intros H1 H2 s a s' Hs _ He E. split; [apply settles_same, (H1 _ _ _ He)|exact (H2 _ _ _ Hs He E)]. Qed.


Lemma stores_nothing A (m : X A) : (forall s a s', m s <> Done a s') -> stores A m.
Proof. intros Hm s a s' He. destruct (Hm s a s' He). Qed.

Lemma stores_bound name b a : stores _ (bound_value name b a).
Proof.
  unfold bound_value. destruct (find name b) as [t|]; [|apply closed_ret]. destruct (matchTreeHasValue t); [|apply closed_ret].
  destruct (matchTreeFirstScalar t); [apply closed_ret|]. apply stores_nothing. discriminate.
Qed.

Lemma settling_option {A B} (Q : expander -> B -> Prop) (f : A -> X B) o : (forall a, steps _ (f a)) -> (forall a, settling always (f a) Q) ->
  settling always (x_option f o) (fun s o => Forall (Q s) (option_list o)).
Proof.
  intros Hs Hf. destruct o as [a|]; cbn [x_option]; [|apply settling_ret; constructor]. eapply settling_bind; [apply Hs|apply Hf|intros; apply closed_ret|]. intros b. apply settling_ret. repeat constructor. assumption.
Qed.

Lemma settling_map {A B} (Q : expander -> B -> Prop) (f : A -> X B) l : (forall b, stable (fun s => Q s b)) -> (forall a, steps _ (f a)) -> (forall a, settling always (f a) Q) ->
  settling always (x_map f l) (fun s => Forall (Q s)).
Proof.
  intros HQ Hs Hf. induction l as [|a l IH]; cbn [x_map]; [apply settling_ret; constructor|].
  eapply settling_bind; [apply Hs|apply Hf|intros; apply closed_bind; [apply closed_x_map; auto|intros; apply closed_ret]|]. intros b.
  apply (settling_weaken (fun s => Q s b /\ always s) _ (fun s bs => Forall (Q s) bs) _); [unfold always; auto|auto|].
  eapply settling_bind; [apply closed_x_map; auto|apply settling_frame; [apply HQ|exact IH]|intros; apply closed_ret|]. intros bs. apply settling_ret. intros s [H1 H2]. constructor; assumption.
Qed.

Section Children.
  Context (f : ast -> X ast) (Hsteps : forall a, steps _ (f a)) (Hclean : forall a, settling always (f a) clean).

Lemma settling_binding a : settling always (expand_binding f a) (fun s b => Forall (clean s) (binding_value b)).
Proof.
  destruct a as [| | | |car [cdr|]| | | | | | | | | | | | | |]; cbn [expand_binding]; try (apply settling_ret; constructor).
  eapply settling_bind; [apply Hsteps|apply Hclean|intros; apply closed_ret|]. intros b. apply settling_ret. repeat constructor. assumption.
Qed.

Lemma body_at_here s loc i body s' b : set_clause_body loc i body s = Done tt s' -> body_at s' loc i = Some b -> b = body.
Proof.
  intros [= <-]. unfold body_at, clause_at. cbn [clause_store]. rewrite nth_error_update, Nat.eqb_refl. destruct (nth_error (clause_store s) loc) as [cs|]; [|discriminate].
  cbn [option_map]. rewrite nth_error_update, Nat.eqb_refl. destruct (nth_error cs i); cbn; [congruence|discriminate].
Qed.

Lemma stable_bodies loc (J : nat -> Prop) : stable (fun s => forall i, J i -> body_clean s loc i).
Proof. intros s s' Hs HF i Hi. exact (body_clean_settles _ _ _ _ Hs (HF i Hi)). Qed.

Lemma steps_rewrite loc l : steps _ (rewrite_clauses f loc l).
Proof.
  induction l as [|i l IHl]; cbn [rewrite_clauses]; [apply closed_ret|]. apply closed_read. intros s. generalize (clause_at s loc i). intros c. apply closed_bind; [|intros _; exact IHl].
  destruct c as [[pt g [body|]]|]; [|apply closed_ret..]. apply closed_bind; [apply Hsteps|]. intros body'. apply closed_clause.
Qed.

(** After the loop over the clauses every body is clean. *)
Lemma settling_rewrite loc l : settling (fun s => forall i, ~ In i l -> body_clean s loc i) (rewrite_clauses f loc l) (fun s _ => forall i, body_clean s loc i).
Proof.
  induction l as [|i l IHl]; cbn [rewrite_clauses]; [apply settling_ret; intros s HF i; apply HF; intros []|]. apply settling_read. intros s0.
  assert (Hset : steps _ (match clause_at s0 loc i with Some (mkClause _ _ (Some body)) => do* body' := f body in set_clause_body loc i body' | _ => x_ret tt end)).
  { destruct (clause_at s0 loc i) as [[pt g [body|]]|]; [|apply closed_ret..]. apply closed_bind; [apply Hsteps|intros; apply closed_clause]. }
  eapply settling_bind; [exact Hset|apply settling_frame; [apply (stable_bodies loc (fun j => ~ In j (i :: l)))|]|intros _; apply steps_rewrite|].
  - instantiate (1 := fun s _ => body_clean s loc i). destruct (clause_at s0 loc i) as [[pt g [body|]]|] eqn:Ec.
    + eapply (settling_weaken always); [intros; exact I|intros s a Hq; exact Hq|]. eapply settling_bind; [apply Hsteps|apply Hclean|intros; apply closed_clause|]. intros body' s [] s' _ Hc He _.
      destruct (settles_set _ _ _ _ _ Hc He) as [Hs' Hc']. split; [exact Hs'|]. intros b Hb. rewrite (body_at_here _ _ _ _ _ _ He Hb). exact Hc'.
    + apply settling_ret. intros s -> b. unfold body_at. rewrite Ec. discriminate.
    + apply settling_ret. intros s -> b. unfold body_at. rewrite Ec. discriminate.
  - intros u. eapply settling_weaken; [|intros s a Hq; exact Hq|exact IHl]. intros s [HG Hi] j Hj. destruct (Nat.eq_dec j i) as [E|N]; [rewrite E; exact Hi|]. apply HG. intros [E|Hin]; [exact (N (eq_sym E))|exact (Hj Hin)].
Qed.

Lemma settling_clauses loc : settling always (on_clauses f loc) (fun s _ => forall i, body_clean s loc i).
Proof.
  unfold on_clauses. apply settling_read. intros s0. eapply settling_weaken; [|intros s a Hq; exact Hq|apply settling_rewrite]. intros s [_ E0] i Hi b. subst s. unfold body_at, clause_at, num_clauses in *.
  destruct (nth_error (clause_store s0) loc) as [cs|]; [|discriminate]. destruct (nth_error cs i) eqn:E; [|discriminate]. exfalso. apply Hi, in_seq. assert (i < length cs) by (apply nth_error_Some; congruence). lia.
Qed.

(** One part of a node after another. *)
Lemma settling_one {A B} (Q : expander -> A -> Prop) (m : X A) (C : A -> B) : steps _ m -> settling always m Q ->
  settling always (do* a := m in x_ret (C a)) (fun s r => exists a, r = C a /\ Q s a).
Proof. intros Hm HQ. eapply settling_bind; [exact Hm|exact HQ|intros; apply closed_ret|]. intros a. apply settling_ret. eauto. Qed.

Lemma settling_then {A B D} (Q1 : expander -> A -> Prop) (Q2 : A -> expander -> B -> Prop) (Q : expander -> D -> Prop) (m1 : X A) (m2 : A -> X B) (C : A -> B -> D) :
  (forall a, stable (fun s => Q1 s a)) -> steps _ m1 -> settling always m1 Q1 -> (forall a, steps _ (m2 a)) -> (forall a, settling always (m2 a) (Q2 a)) ->
  (forall s a b, Q1 s a -> Q2 a s b -> Q s (C a b)) -> settling always (do* a := m1 in do* b := m2 a in x_ret (C a b)) Q.
Proof.
  intros Ht S1 H1 S2 H2 HQ. eapply settling_bind; [exact S1|exact H1|intros a; apply closed_bind; [apply S2|intros; apply closed_ret]|]. intros a.
  apply (settling_weaken (fun s => Q1 s a /\ always s) _ Q _); [unfold always; auto|auto|]. eapply settling_bind; [apply S2|apply settling_frame; [apply Ht|apply H2]|intros; apply closed_ret|].
  intros b. apply settling_ret. intros s [HA HB]. exact (HQ s a b HA HB).
Qed.

(** The node is clean when its parts are. *)
Lemma settling_children a : introduces_macros a = false -> settling always (expand_children f a) clean.
Proof.
  assert (SO : forall o, steps _ (x_option f o)) by (intros; apply closed_x_option; auto). assert (SM : forall l, steps _ (x_map f l)) by (intros; apply closed_x_map; auto).
  assert (SB : forall l, steps _ (x_map (expand_binding f) l)) by (intros; apply closed_x_map; intros; apply steps_binding, Hsteps).
  assert (TC : forall b, stable (fun s => clean s b)) by (intros b s s' Hs; apply settles_clean, Hs).
  assert (TL : forall l, stable (fun s => Forall (clean s) l)) by (intros; apply stable_clean).
  assert (YO : forall o, settling always (x_option f o) (fun s o => Forall (clean s) (option_list o))) by (intros; apply settling_option; assumption).
  assert (YM : forall l, settling always (x_map f l) (fun s => Forall (clean s))) by (intros; apply settling_map; assumption).
  assert (YB : forall l, settling always (x_map (expand_binding f) l) (fun s bs => Forall (clean s) (flat_map binding_value bs))).
  { intros l. eapply settling_weaken; [intros s Hs; exact Hs| |apply (settling_map (fun s b => Forall (clean s) (binding_value b))); [intros b; apply stable_clean|intros; apply steps_binding, Hsteps|apply settling_binding]].
    intros s bs. apply Forall_binding_values. }
  intros Ha. destruct a; try discriminate Ha; cbn [expand_children]; try (destruct k).
  all: try (apply settling_ret; intros s _; apply clean_iff; split; [reflexivity|constructor]; fail).
  all: try (eapply settling_weaken; [intros s Hs; exact Hs| |apply settling_one; [first [apply SO|apply SM]|first [apply YO|apply YM]]];
    intros s r (x & -> & Hx); apply clean_iff; (split; [reflexivity|]); unfold visited; cbn [subtrees clause_bodies]; rewrite app_nil_r; exact Hx).
  all: try (eapply settling_then; [intros ?; apply stable_clean| | |intros ?|intros ?|]; [first [apply SO|apply SM|apply SB]|first [apply YO|apply YM|apply YB]|first [apply SO|apply SM]|first [apply YO|apply YM]|];
    intros s x y Hx Hy; apply clean_iff; (split; [reflexivity|]); unfold visited; cbn [subtrees clause_bodies]; rewrite app_nil_r; apply Forall_app; split; assumption).
  - eapply (settling_then _ (fun _ s _ => forall i, body_clean s clauses i) _ _ _ (fun e _ => AMatch e clauses)); [intros e; apply stable_clean|apply SO|apply YO|intros e; apply closed_on_clauses, Hsteps|intros e; apply settling_clauses|].
    intros s e _ He Hb. apply clean_iff. split; [reflexivity|]. unfold visited. cbn [subtrees]. apply Forall_app. split; [exact He|]. apply Forall_forall. intros b Hin. apply clause_bodies_at in Hin as (i & Hi). exact (Hb i b Hi).
  - eapply settling_bind; [apply SO|apply YO|intros x; apply closed_bind; [apply SO|intros y; apply closed_bind; [apply SO|intros; apply closed_ret]]|]. intros x.
    eapply (settling_weaken (fun s => Forall (clean s) (option_list x) /\ always s)); [unfold always; auto| |apply settling_frame; [apply stable_clean|]].
    + intros s r [Hx Hr]. exact (Hr Hx).
    + eapply (settling_then _ (fun y s z => Forall (clean s) (option_list z)) (fun s r => Forall (clean s) (option_list x) -> clean s r)); [intros y; apply stable_clean|apply SO|apply YO|intros y; apply SO|intros y; apply YO|].
      intros s y z Hy Hz Hx. apply clean_iff. split; [reflexivity|]. unfold visited. cbn [subtrees clause_bodies]. rewrite app_nil_r, !Forall_app. auto.
Qed.
End Children.

(** *** Programs *)

Section Clean.
  Context (macro_at : nat -> macro_def) (fuel : nat).
  (** No template has a match expression where it is substituted. *)
  Hypothesis Hmacros : forall p, forallb (fun r => forallb (shallow fuel) (literal_parts (snd r))) (rules (macro_at p)) = true.

Lemma matching_rule_in rs args t b : matching_rule rs args = Some (t, b) -> exists p, In (p, t) rs.
Proof.
  induction rs as [|[p t'] rs IH]; cbn [matching_rule]; [discriminate|]. intros H. assert (Hr : matching_rule rs args = Some (t, b) -> exists q, In (q, t) ((p, t') :: rs)) by (intros E; destruct (IH E) as (q & Hq); exists q; right; exact Hq).
  destruct p as [| | |es e|]; auto. destruct t'; auto; (destruct (matchPatternSeq _ _ _); [|auto]); injection H as <- _; eexists; left; reflexivity.
Qed.

Lemma stores_try name args call : stores _ (tryExpandMacroCall macro_at fuel name args call).
Proof.
  apply (closed_try (fun n a => shallow n a = true) (fun _ => True)); auto using stores_bound.
  - discriminate.
  - cbn [shallow]. intros n a s x Ha Hx. apply andb_true_iff in Ha as [Hm Ha]. apply negb_true_iff in Hm. rewrite (searched_no_match a s Hm) in Hx. rewrite forallb_forall in Ha. exact (Ha x Hx).
  - discriminate.
  - intros p t b Hr. split; [|exact I]. apply matching_rule_in in Hr as (q & Hq). intros a Ha. pose proof (Hmacros p) as Hp. rewrite forallb_forall in Hp. specialize (Hp _ Hq). cbn [snd] in Hp. rewrite forallb_forall in Hp. exact (Hp a Ha).
Qed.

Lemma stores_loop rounds : forall a chain, stores _ (expansion_loop macro_at rounds fuel a chain).
Proof.
  induction rounds as [|rounds IH]; intros a chain; cbn [expansion_loop]; [apply stores_nothing; discriminate|].
  destruct a as [| | | | |[] [[| | |[name|]| | | | | | | | | | | | | | |]|] args| | | | | | | | | | | | |]; try apply closed_ret.
  apply closed_read. intros s. destruct (isMacro name s); [|apply closed_ret]. destruct (existsb _ chain); [closed|]. apply closed_bind; [apply stores_try|intros next; apply IH].
Qed.

Lemma stores_register m : stores _ (registerMacro macro_at m).
Proof.
  intros s a s' [= _ <-]. destruct m as [p|]; [|reflexivity]. destruct (scope_stack_ s); [reflexivity|]. destruct (macro_name _); reflexivity.
Qed.

Lemma stores_register_all ms : stores _ (register_all macro_at ms).
Proof. induction ms as [|m ms IH]; cbn [register_all]; [apply closed_ret|]. apply closed_bind; [apply stores_register|auto]. Qed.

Lemma clean_same s s' a : clause_store s' = clause_store s -> clean s a -> clean s' a.
Proof. intros E. apply settles_clean, settles_same, E. Qed.

Lemma settling_scoped ms (m : X ast) : steps _ m -> settling always m clean ->
  settling always (do* u := pushScope in do* v := register_all macro_at ms in do* body := m in do* w := popScope in x_ret body) clean.
Proof.
  intros Hm HQ s a s' Hs _ He E. apply bind_inv in He as (u & s1 & H1 & He). injection H1 as _ <-. apply bind_inv in He as (v & s2 & H2 & He). apply bind_inv in He as (body & s3 & H3 & He).
  apply bind_inv in He as (w & s4 & H4 & He). injection H4 as _ <-. injection He as <- <-.
  assert (N0 : scope_stack_ (with_scopes_ ([] :: scope_stack_ s) s) <> []) by discriminate. pose proof (steps_register_all macro_at ms _ _ _ N0 H2) as A2. pose proof (Hm _ _ _ (proj1 A2) H3) as A3.
  assert (E3 : errors s3 = errors s) by (destruct (scope_stack_ s3) as [|? [|]]; exact E). pose proof (stores_register_all ms _ _ _ H2) as E2.
  destruct (HQ _ _ _ (proj1 A2) I H3 (proj2 (after_quiet _ _ _ A2 A3 E3))) as [S3 C3].
  match goal with |- settles s ?s4 /\ _ => assert (E4 : clause_store s4 = clause_store s3) by (destruct (scope_stack_ s3) as [|? [|]]; reflexivity) end. split; [|exact (clean_same _ _ _ E4 C3)].
  refine (settles_trans _ _ _ (settles_same s s2 _) (settles_trans _ _ _ S3 (settles_same _ _ E4))). rewrite E2. reflexivity.
Qed.

Lemma settling_expandNode levels rounds : forall a, settling always (expandNode macro_at levels rounds fuel a) clean.
Proof.
  induction levels as [|levels IH]; intros a; cbn [expandNode].
  - intros s r s' Hs _ He E. exfalso. refine (leaves_error (fun _ => False) DepthLimit (fun _ => x_ret a) _ s r s' Hs He E). intros. apply closed_ret.
  - pose proof (fun a => steps_expandNode macro_at levels rounds fuel a) as St. eapply settling_bind; [apply steps_loop|apply settling_stores; [apply stores_loop|apply leaves_loop]| |].
    + intros [m|ms body|a'|a']; [|apply steps_scoped, St|apply closed_ret|apply closed_children, St]. apply closed_bind; [apply steps_register|intros; apply closed_ret].
    + intros [m|ms body|a'|a'].
      * eapply settling_weaken; [intros s _; exact I|intros s r Hr; exact Hr|]. eapply settling_bind; [apply steps_register|apply (settling_stores _ (fun _ => True)); [apply stores_register|apply leaves_true]|intros; apply closed_ret|].
        intros u. apply settling_ret. intros s _. apply clean_iff. split; [reflexivity|constructor].
      * eapply settling_weaken; [intros s _; exact I|intros s r Hr; exact Hr|]. apply settling_scoped; [apply St|apply IH].
      * intros s r s' _ [].
      * intros s r s' Hs Ha He E. exact (settling_children _ St IH a' Ha s r s' Hs I He E).
Qed.

Lemma settling_all rounds asts : settling always (expandAll macro_at rounds fuel asts) (fun s => Forall (clean s)).
Proof.
  unfold expandAll. eapply settling_bind; [apply steps_register_all|apply (settling_stores _ (fun _ => True)); [apply stores_register_all|apply leaves_true]|intros; apply closed_x_map; intros; apply steps_expandNode|].
  intros u. eapply settling_weaken; [intros s _; exact I|intros s r Hr; exact Hr|]. apply settling_map; [intros b s s' Hs; apply settles_clean, Hs|intros; apply steps_expandNode|intros; apply settling_expandNode].
Qed.
End Clean.
