(* ===== verification/MacroTheorems.v ===== *)
(** * What the macro expander does: the theorems

    Arguments are matched and put back exactly; expansion ends; no definition is left
    in an expanded program; code without macros is untouched; and cases at the edge. *)

From Stdlib Require Import String List Bool Lia Arith.
From S2P Require Import Prelude OrderedMap MacroExpander MacroSpec MacroRuns.
Import ListNotations.
Local Open Scope string_scope.
Local Open Scope list_scope.

(** ** Code without macros *)

(** A use of a macro in scope, a definition of one, or a match expression. *)
Definition concerns_macros (s : expander) (a : ast) : bool :=
  introduces_macros a || is_match a ||
  match a with ACall ESHKOL_CALL_OP (Some (AVar (Some name))) _ => isMacro name s | _ => false end.

Lemma loop_untouched macro_at rounds fuel a chain s : concerns_macros s a = false ->
  expansion_loop macro_at (S rounds) fuel a chain s = Done (Descend a) s.
Proof.
  unfold concerns_macros. intros Ha. cbn [expansion_loop].
  destruct a as [| | | | |[] [[| | |[name|]| | | | | | | | | | | | | | |]|] args| | | | | | | | | | | | |];
    try discriminate Ha; try reflexivity.
  cbn in Ha. unfold x_bind, x_get. rewrite Ha. reflexivity.
Qed.

Section Untouched.
  Context (f : ast -> X ast) (s : expander).

Lemma map_untouched l : Forall (fun x => f x s = Done x s) l -> x_map f l s = Done l s.
Proof. intros HF. apply x_map_done. induction HF; constructor; assumption. Qed.

Lemma option_untouched o : Forall (fun x => f x s = Done x s) (option_list o) -> x_option f o s = Done o s.
Proof.
  destruct o as [a|]; [|reflexivity]. intros HF. inversion HF as [|? ? Ha _]; subst. cbn [x_option].
  rewrite (bind_done _ _ _ _ _ Ha). reflexivity.
Qed.

Lemma bindings_untouched bs : Forall (fun x => f x s = Done x s) (flat_map binding_value bs) ->
  x_map (expand_binding f) bs s = Done bs s.
Proof.
  intros HF. apply x_map_done. induction bs as [|b bs IH]; [constructor|]. cbn [flat_map] in HF.
  apply Forall_app in HF as [H1 H2]. constructor; [|exact (IH H2)].
  destruct b as [| | | |car [cdr|]| | | | | | | | | | | | | |]; try reflexivity.
  inversion H1 as [|? ? Ha _]; subst. cbn [expand_binding]. rewrite (bind_done _ _ _ _ _ Ha). reflexivity.
Qed.

Lemma children_untouched a : introduces_macros a = false -> is_match a = false ->
  Forall (fun x => f x s = Done x s) (subtrees a) -> expand_children f a s = Done a s.
Proof.
  intros Hi Hm. destruct a; try discriminate; cbn [expand_children subtrees]; try (destruct k);
    rewrite ?Forall_app; intros HF; decompose_all;
    repeat match goal with
           | H : Forall _ (option_list ?o) |- context [x_option f ?o] => rewrite (bind_done _ _ _ _ _ (option_untouched o H))
           | H : Forall _ ?l |- context [x_map f ?l] => rewrite (bind_done _ _ _ _ _ (map_untouched l H))
           | H : Forall _ _ |- context [x_map (expand_binding f) ?l] => rewrite (bind_done _ _ _ _ _ (bindings_untouched l H))
           end; reflexivity.
Qed.
End Untouched.

(** Expansion leaves code without macros alone: a tree at most [n] levels deep with no
    use of a macro in scope, no definition of one and no match expression, at the
    positions that are expanded, is returned as it is, and the expander's state too. *)
Theorem plain_code_unchanged macro_at n levels rounds fuel a s :
  free_of (concerns_macros s) n a = true -> (n <= levels)%nat -> (0 < rounds)%nat ->
  expandNode macro_at levels rounds fuel a s = Done a s.
Proof.
  intros Ha Hn Hr. destruct rounds as [|rounds]; [lia|]. clear Hr.
  revert levels a Ha Hn. induction n as [|n IH]; intros [|levels] a Ha Hn; try discriminate; [lia|].
  cbn [free_of] in Ha. apply andb_true_iff in Ha as [Ha Hv]. apply negb_true_iff in Ha.
  cbn [expandNode]. rewrite (bind_done _ _ _ _ _ (loop_untouched _ _ _ _ _ _ Ha)). unfold copyAst.
  unfold concerns_macros in Ha. apply orb_false_iff in Ha as [Ha _]. apply orb_false_iff in Ha as [H1 H2].
  apply children_untouched; auto. apply Forall_forall. intros x Hx. apply IH; [|lia].
  rewrite forallb_forall in Hv. apply Hv, Hx.
Qed.

(** ** Arguments are matched and put back *)

(** C29 Matching and instantiation are inverse to each other.  A macro whose only rule is
    [((_ p ...) (k f p ...))], for patterns with distinct variables, dots only after the
    last element of a list and not after its head, rewrites a call whose arguments have
    the forms of the patterns into [(k f args)] with exactly these arguments, whatever
    they are, and leaves the expander as it was; any other call is returned and reported.
    Fuel above the depth of the patterns is enough. *)
Theorem macro_passes_arguments macro_at name p e es e' k f fuel args call s :
  lookupMacro name s = Some p ->
  rules (macro_at p) = [(PList (e :: es) e', TplLiteral (Some (ACall k (Some (AVar (Some f))) (templates es))))] ->
  dots_last es = true -> forallb well_formed es = true -> separate es -> ~ In f (flat_map pattern_vars es) ->
  (S (list_max (map pattern_depth es)) < fuel)%nat ->
  tryExpandMacroCall macro_at fuel name args call s =
  if matches_seq matches es args then Done (ACall k (Some (AVar (Some f))) args) s
  else Done call (mkExpander (clause_store s) (scope_stack_ s) (errors s ++ [NoMatchingPattern name])).
Proof.
  intros Hl Hr Hd Hw Hs Hf Hn. unfold tryExpandMacroCall, x_bind at 1, x_get. rewrite Hl, Hr.
  cbn [matching_rule tl]. rewrite <- (match_sequence_some es args []).
  destruct (matchPatternSeq es args []) as [b|] eqn:E; cbn [is_some]; [|reflexivity].
  destruct fuel as [|fuel]; [lia|].
  destruct (arguments_given_back es args b fuel s Hd Hw Hs) as [Hb Ha]; [lia|exact E|].
  cbn [instantiateTemplate substituteBindings x_option].
  rewrite (bind_done _ _ _ (Some (AVar (Some f))) s).
  - unfold substituteBindingsInList in Ha. rewrite (bind_done _ _ _ _ _ Ha). reflexivity.
  - destruct fuel as [|fuel]; [lia|]. cbn [substituteBindings]. unfold bound_value. rewrite (Hb f Hf). reflexivity.
Qed.

(** ** Expansion ends *)

Lemma x_map_length {A B} (f : A -> X B) l : forall s r s', x_map f l s = Done r s' -> length r = length l.
Proof.
  induction l as [|a l IH]; intros s r s' He; [injection He as <- _; reflexivity|].
  cbn [x_map] in He. apply bind_inv in He as (b & s1 & _ & He). apply bind_inv in He as (bs & s2 & H2 & He).
  injection He as <- _. cbn. f_equal. exact (IH _ _ _ H2).
Qed.

(** C30 Every program is expanded: with more rounds of the loop over macro calls than there
    are names of macros, and fuel for the templates, expansion returns one form for each
    form that is not a definition.  Recursive and mutually recursive macros included: the
    loop stops at a name it has seen, and the descent at a depth of 1000.  The rules have no
    dots under dots, and no match expression in a template. *)
Theorem expansion_total macro_at names rounds fuel asts s :
  (forall p, macro_ok names fuel (macro_at p)) -> (length names < rounds)%nat -> scopes_in names s ->
  exists r s', expandAll macro_at rounds fuel asts s = Done r s' /\
               length r = length (filter (fun a => negb (is_definition a)) asts).
Proof.
  intros Hm Hr Hs. unfold expandAll.
  destruct (total_register_all macro_at names fuel Hm (flat_map (fun a => match a with ADefineSyntax m => [m] | _ => [] end) asts) s Hs)
    as (u & s1 & H1 & Hs1).
  rewrite (bind_done _ _ _ _ _ H1).
  assert (Ht : total names _ (x_map (expand macro_at rounds fuel) (filter (fun a => negb (is_definition a)) asts))).
  { apply closed_x_map. intros a _. apply total_expandNode; assumption. }
  destruct (Ht s1 Hs1) as (r & s2 & H2 & _). exists r, s2. split; [exact H2|exact (x_map_length _ _ _ _ _ H2)].
Qed.

(** ** No definition is left *)

Lemma leaves_all macro_at rounds fuel asts :
  leaves (Forall (fun r => free_of introduces_macros max_depth r = true)) (expandAll macro_at rounds fuel asts).
Proof.
  unfold expandAll. apply (leaves_bind (fun _ => True)); [apply steps_register_all|apply leaves_true| |].
  - intros _. apply closed_x_map. intros a _. apply steps_expandNode.
  - intros _ _. apply leaves_map; intros a; [apply steps_expandNode|apply leaves_expandNode].
Qed.

Lemma steps_all macro_at rounds fuel asts : steps _ (expandAll macro_at rounds fuel asts).
Proof.
  apply closed_bind; [apply steps_register_all|intros _]. apply closed_x_map. intros a _. apply steps_expandNode.
Qed.

(** C31 Expansion opens scopes and closes them: the scopes around the innermost one are
    those it began with, and errors are only added.  When none is, the trees of the result
    have no [define-syntax], [let-syntax] or [letrec-syntax] at any position that expansion
    visits and are at most 1000 levels deep there; and when no template has a match
    expression, none can be reached through the clause bodies in the store that is left
    either.  (The clauses of a template's match expression are overwritten by its next use.) *)
Theorem definitions_expanded_away macro_at rounds fuel asts s r s' :
  scope_stack_ s <> [] -> expandAll macro_at rounds fuel asts s = Done r s' ->
  tl (scope_stack_ s') = tl (scope_stack_ s) /\ (exists l, errors s' = errors s ++ l) /\
  (errors s' = errors s -> forall a, In a r -> free_of introduces_macros max_depth a = true /\
     ((forall p, forallb (fun r => forallb (shallow fuel) (literal_parts (snd r))) (rules (macro_at p)) = true) ->
      forall b, reachable s' a b -> introduces_macros b = false)).
Proof.
  intros Hs He. destruct (steps_all _ _ _ _ _ _ _ Hs He) as (_ & Ht & Hl). split; [exact Ht|]. split; [exact Hl|].
  intros Hq a Ha. split; [exact (proj1 (Forall_forall _ _) (leaves_all _ _ _ _ _ _ _ Hs He Hq) a Ha)|]. intros Hm.
  destruct (settling_all macro_at fuel Hm rounds asts s r s' Hs I He Hq) as [_ Hc]. exact (proj1 (Forall_forall _ _) Hc a Ha).
Qed.

(** ** Cases at the edge *)

(** Small programs: the macro [m] by its rules, and then some forms.  The clause array at
    0 has one clause, with body [x]. *)
Definition var (x : string) : ast := AVar (Some x).
Definition call (f : string) (args : list ast) : ast := ACall ESHKOL_CALL_OP (Some (var f)) args.
Definition arg (x : string) : pattern := PVariable x false.
Definition args_of (x : string) : pattern := PVariable x true.
Definition rule (ps : list pattern) (t : ast) : pattern * template := (PList (arg "_" :: ps) false, TplLiteral (Some t)).

Definition with_macro (rs : list (pattern * template)) (p : nat) : macro_def :=
  match p with O => mkMacro (Some "m") rs | S _ => mkMacro None [] end.

Definition clauses_of (body : ast) : list (list match_clause) := [[mkClause "x" None (Some body)]].
Definition start : expander := mkExpander (clauses_of (var "x")) [[]] [].

Definition run (rs : list (pattern * template)) (forms : list ast) : expansion (list ast) :=
  expandAll (with_macro rs) 3 20 (ADefineSyntax (Some 0) :: forms) start.

(** The result, the clause body and the errors of a run. *)
Definition outcome_is (rs : list (pattern * template)) (forms r : list ast) (body : ast) (errs : list expand_error) : Prop :=
  run rs forms = Done r (mkExpander (clauses_of body) [[("m", 0)]] errs).

Definition one : ast := AData "1".
Definition two : ast := AData "2".

(** What the expander makes of rules at the edge of [syntax-rules]. *)
Theorem macro_edge_cases :
  (* A template's match expression is overwritten by its first use: the second has its argument. *)
  outcome_is [rule [arg "x"] (AMatch (Some (var "x")) 0)] [call "m" [one]; call "m" [two]]
    [AMatch (Some one) 0; AMatch (Some two) 0] one [] /\
  (* A call that no rule matches is reported as circular too. *)
  outcome_is [rule [arg "x"] (var "x")] [call "m" [one; two]] [call "m" [one; two]] (var "x")
    [NoMatchingPattern "m"; CircularExpansion "m"] /\
  (* A macro that expands to a smaller use of itself is circular, *)
  outcome_is [rule [arg "x"] (var "x"); rule [arg "x"; arg "y"] (call "m" [var "y"])] [call "m" [one; two]]
    [call "m" [two]] (var "x") [CircularExpansion "m"] /\
  (* but not when the use is inside a form. *)
  outcome_is [rule [arg "x"] (var "x"); rule [arg "x"; arg "y"] (call "f" [call "m" [var "y"]])] [call "m" [one; two]]
    [call "f" [two]] (var "x") [] /\
  (* An element after the dots is never matched. *)
  outcome_is [rule [args_of "x"; arg "y"] (var "y")] [call "m" [one; two]] [call "m" [one; two]] (var "x")
    [NoMatchingPattern "m"; CircularExpansion "m"] /\
  (* Dots after the head of a template list are refused. *)
  outcome_is [rule [args_of "f"] (ACall ESHKOL_CALL_OP (Some (var "f")) [dots])] [call "m" [var "g"; one]]
    [call "g" []] (var "x") [MisplacedEllipsis] /\
  (* The parameters of a lambda expression are not substituted, *)
  outcome_is [rule [arg "v"; arg "b"] (ALambda ["v"] (Some (var "b")))] [call "m" [var "y"; var "y"]]
    [ALambda ["v"] (Some (var "y"))] (var "x") [] /\
  (* and a binding of the template captures a variable of the argument. *)
  outcome_is [rule [arg "b"] (ALet ESHKOL_LET_OP [ACons (Some (var "t")) (Some one)] (Some (call "f" [var "t"; var "b"])))]
    [call "m" [var "t"]]
    [ALet ESHKOL_LET_OP [ACons (Some (var "t")) (Some one)] (Some (call "f" [var "t"; var "t"]))] (var "x") [] /\
  (* A macro name that a head expands to is not expanded again. *)
  outcome_is [rule [] (var "m")] [ACall ESHKOL_CALL_OP (Some (call "m" [])) [one]] [call "m" [one]] (var "x") [] /\
  (* A variable under two dots with no inner repetition reads the front of an empty vector. *)
  run [rule [PList [arg "a"; args_of "b"] true] (var "b")] [call "m" [call "f" []]] = Crash.
Proof. repeat split. Qed.

(** ** The theorems at concrete programs *)

(** [(_ a (=> b ...) c ...)] *)
Definition sample_patterns : list pattern := [arg "a"; PList [PLiteral "=>" false; args_of "b"] false; args_of "c"].
Definition sample_arguments : list ast := [one; call "=>" [two; one]; two; call "g" []].

Definition in_scope : expander := mkExpander [] [[("m", 0)]] [].

Lemma macro_passes_arguments_witness :
  tryExpandMacroCall (with_macro [rule sample_patterns (call "f" (templates sample_patterns))]) 20 "m"
    sample_arguments ANull in_scope
  = Done (call "f" sample_arguments) in_scope.
Proof.
  refine (macro_passes_arguments (with_macro [rule sample_patterns (call "f" (templates sample_patterns))]) "m" 0 (arg "_")
    sample_patterns false ESHKOL_CALL_OP "f" 20 sample_arguments ANull in_scope eq_refl eq_refl eq_refl eq_refl _ _ _).
  - split; [repeat constructor; cbn; intuition discriminate|]. intros x. cbn. intuition (subst; discriminate).
  - cbn. intuition discriminate.
  - cbn. lia.
Defined.

(** [(m x)] is [x], [(m x y)] is [(f (m y))]. *)
Definition recursive_rules : list (pattern * template) :=
  [rule [arg "x"] (var "x"); rule [arg "x"; arg "y"] (call "f" [call "m" [var "y"]])].

Lemma expansion_total_witness :
  exists r s', expandAll (with_macro recursive_rules) 2 20 [ADefineSyntax (Some 0); call "m" [one; two]] new_expander = Done r s'
               /\ length r = 1.
Proof.
  apply (expansion_total (with_macro recursive_rules) ["m"] 2 20 [ADefineSyntax (Some 0); call "m" [one; two]] new_expander).
  - intros [|p]; (split; [intros x; cbn; intros [= <-]; left; reflexivity|reflexivity]).
  - cbn. lia.
  - intros m x p [<-|[]]. discriminate.
Defined.

(** A match expression whose clause has local macros. *)
Definition with_clause (body : ast) : expander := mkExpander (clauses_of body) [[]] [].

Definition with_local_macro : list ast := [ALetSyntax [Some 0] (AMatch (Some (call "m" [one; two])) 0)].
Definition without_macros : ast := AMatch (Some (call "f" [two])) 0.

Lemma definitions_expanded_away_witness :
  expandAll (with_macro recursive_rules) 2 20 with_local_macro (with_clause (ALetSyntax [] (call "m" [one]))) = Done [without_macros] (with_clause one) /\
  (forall b, reachable (with_clause one) without_macros b -> introduces_macros b = false).
Proof.
  split; [reflexivity|].
  refine (proj2 (proj2 (proj2 (definitions_expanded_away (with_macro recursive_rules) 2 20 with_local_macro (with_clause (ALetSyntax [] (call "m" [one])))
    [without_macros] (with_clause one) _ _)) _ _ _) _).
  - discriminate.
  - reflexivity.
  - reflexivity.
  - left. reflexivity.
  - intros [|p]; reflexivity.
Defined.

Lemma plain_code_unchanged_witness :
  expandNode (with_macro recursive_rules) 5 1 0 (ADefine "y" (Some (call "f" [var "m"; one]))) in_scope
  = Done (ADefine "y" (Some (call "f" [var "m"; one]))) in_scope.
Proof. apply (plain_code_unchanged (with_macro recursive_rules) 4); [reflexivity|lia|lia]. Defined.
