(* ===== verification/WorkStealing.v ===== *)
(** * Work stealing: inc/eshkol/backend/work_stealing_deque.h

    The deque of Chase and Lev and the epoch manager, as a machine whose steps are the
    accesses to shared memory.  One thread owns the deque and pushes and pops at the
    bottom; any number of thieves steal at the top.  Every load and store of an index, of
    the array pointer, of a slot and of the safe epoch is a step of its own, the copying
    loop of [grow] and the loop of [reclaimRetired] included; so is a [delete].  What only
    the owner sees (a new array before it is stored, the list of retired arrays) goes with
    the access before or after it.  Accesses are interleaved sequentially: the weaker
    orderings the code asks for are not modelled.  The call of an epoch manager's method,
    other than the loads by the deque, is one step. *)

From Stdlib Require Import ZArith List Lia Bool.
From stdpp Require Import base list numbers.
From S2P Require Import Prelude.
Import ListNotations.
Open Scope Z_scope.

(** ** The epoch manager *)

Record EpochManager : Type := mkEpochs { global_epoch_ : Z; retire_epoch_ : Z; thread_epochs_ : list Z }.

Definition MAX_THREADS : nat := 256.
Definition EPOCH_INACTIVE : Z := UINT64_MAX.

Definition new_epochs : EpochManager := mkEpochs 0 0 (replicate MAX_THREADS EPOCH_INACTIVE).

Definition set_slot (slot : nat) (e : Z) (m : EpochManager) : EpochManager :=
  mkEpochs (global_epoch_ m) (retire_epoch_ m) (<[slot := e]> (thread_epochs_ m)).

(** The first slot that holds [EPOCH_INACTIVE]. *)
Fixpoint free_slot (es : list Z) : nat :=
  match es with [] => O | e :: es' => if e =? EPOCH_INACTIVE then O else S (free_slot es') end.

Definition registerThread (m : EpochManager) : nat * EpochManager :=
  let i := free_slot (thread_epochs_ m) in
  if Nat.ltb i (length (thread_epochs_ m)) then (i, set_slot i (global_epoch_ m) m) else (MAX_THREADS, m).

Definition unregisterThread (slot : nat) (m : EpochManager) : EpochManager :=
  if Nat.ltb slot MAX_THREADS then set_slot slot EPOCH_INACTIVE m else m.

Definition enterCritical (slot : nat) (m : EpochManager) : EpochManager :=
  if Nat.ltb slot MAX_THREADS then set_slot slot (global_epoch_ m) m else m.

Definition exitCritical (slot : nat) (m : EpochManager) : EpochManager :=
  if Nat.ltb slot MAX_THREADS then set_slot slot EPOCH_INACTIVE m else m.

(** The least epoch of the active slots, [current] when there is none. *)
Definition min_epoch (current : Z) (es : list Z) : Z :=
  fold_left (fun m te => if negb (te =? EPOCH_INACTIVE) && (te <? m) then te else m) es current.

Definition tryAdvanceEpoch (m : EpochManager) : EpochManager :=
  let least := min_epoch (global_epoch_ m) (thread_epochs_ m) in
  mkEpochs (u64 (global_epoch_ m + 1))
    (if least >? u64 (retire_epoch_ m + 2) then least - 2 else retire_epoch_ m) (thread_epochs_ m).

Definition currentEpoch (m : EpochManager) : Z := global_epoch_ m.
Definition safeToReclaimEpoch (m : EpochManager) : Z := retire_epoch_ m.

(** ** Circular arrays *)

(** A task by its address. *)
Definition task : Type := nat.

Record CircularArray : Type := mkArray { log_size_ : Z; retireEpoch : Z; buffer_ : list (option task) }.

Definition array_capacity (a : CircularArray) : Z := 2 ^ log_size_ a.
Definition mask_ (a : CircularArray) : Z := array_capacity a - 1.

Definition new_array (log_size epoch : Z) : CircularArray :=
  mkArray log_size epoch (replicate (Z.to_nat (2 ^ log_size)) None).

Definition slot_of (a : CircularArray) (i : Z) : nat := Z.to_nat (Z.land (u64 i) (mask_ a)).

Definition get (a : CircularArray) (i : Z) : option task :=
  match buffer_ a !! slot_of a i with Some v => v | None => None end.

Definition put (a : CircularArray) (i : Z) (x : option task) : CircularArray :=
  mkArray (log_size_ a) (retireEpoch a) (<[slot_of a i := x]> (buffer_ a)).

(** The array that [grow] makes, before its loop has copied anything. *)
Definition grow (a : CircularArray) (epoch : Z) : CircularArray := new_array (log_size_ a + 1) epoch.

(** ** The deque *)

(** [memory] is the arrays made so far by address, with [false] once they are deleted: what
    they held is then only a record. *)
Record WorkStealingDeque : Type := mkDeque {
  top_ : Z; bottom_ : Z; array_ : nat; retired_arrays_ : list nat; memory : list (CircularArray * bool)
}.

Definition new_deque (log_initial_size : Z) : WorkStealingDeque :=
  mkDeque 0 0 0 [] [(new_array log_initial_size 0, true)].

Definition deref_array (d : WorkStealingDeque) (a : nat) : option CircularArray :=
  match memory d !! a with Some (arr, true) => Some arr | _ => None end.

Definition empty (d : WorkStealingDeque) : bool := bottom_ d <=? top_ d.
Definition deque_size (d : WorkStealingDeque) : Z := if bottom_ d - top_ d >? 0 then bottom_ d - top_ d else 0.

Definition set_top (t : Z) (d : WorkStealingDeque) : WorkStealingDeque :=
  mkDeque t (bottom_ d) (array_ d) (retired_arrays_ d) (memory d).
Definition set_bottom (b : Z) (d : WorkStealingDeque) : WorkStealingDeque :=
  mkDeque (top_ d) b (array_ d) (retired_arrays_ d) (memory d).
Definition set_array (a : nat) (d : WorkStealingDeque) : WorkStealingDeque :=
  mkDeque (top_ d) (bottom_ d) a (retired_arrays_ d) (memory d).
Definition with_memory (r : list nat) (m : list (CircularArray * bool)) (d : WorkStealingDeque) : WorkStealingDeque :=
  mkDeque (top_ d) (bottom_ d) (array_ d) r m.

(** Writes over the array at an address; makes one at the end; deletes one. *)
Definition store_array (a : nat) (arr : CircularArray) (d : WorkStealingDeque) : WorkStealingDeque :=
  with_memory (retired_arrays_ d) (<[a := (arr, true)]> (memory d)) d.
Definition allocate (arr : CircularArray) (d : WorkStealingDeque) : WorkStealingDeque :=
  with_memory (retired_arrays_ d) (memory d ++ [(arr, true)]) d.
Definition delete_array (a : nat) (d : WorkStealingDeque) : WorkStealingDeque :=
  with_memory (retired_arrays_ d) (alter (fun c => (fst c, false)) a (memory d)) d.

(** The list of retired arrays, after an array is added or the one at [it] erased. *)
Definition retired_push (a : nat) (d : WorkStealingDeque) : WorkStealingDeque :=
  with_memory (retired_arrays_ d ++ [a]) (memory d) d.
Definition retired_erase (it : nat) (d : WorkStealingDeque) : WorkStealingDeque :=
  with_memory (delete it (retired_arrays_ d)) (memory d) d.

(** ** Threads *)

(** Where the owner is: between the accesses of [push], [pop] and [reclaimRetired].  That
    is called by [push] ([Some] of what the push goes on with) or from outside ([None]). *)
Inductive owner_pc : Type :=
| Idle
| Push_start (x : task)
| Push_bottom (x : task) (b : Z)
| Push_top (x : task) (b t : Z)
| Push_array (x : task) (b t : Z) (a : nat)
| Push_full (x : task) (b t : Z) (a : nat)
| Push_copy (x : task) (b : Z) (old new : nat) (i : Z)
| Push_slot (x : task) (b : Z) (old new : nat) (i : Z) (item : option task)
| Push_swapped (x : task) (b : Z) (old new : nat)
| Reclaim_start (k : option (task * Z * nat))
| Reclaim_scan (k : option (task * Z * nat)) (safe_epoch : Z) (it : nat)
| Push_ready (x : task) (b : Z) (a : nat)
| Push_put (x : task) (b : Z)
| Pop_start
| Pop_bottom (b : Z)
| Pop_array (b : Z) (a : nat)
| Pop_stored (b : Z) (a : nat)
| Pop_top (b : Z) (a : nat) (t : Z)
| Pop_last (b : Z) (item : option task)
| Pop_restore (b : Z) (item : option task)
| Pop_return (item : option task).

(** Where a thief is in [steal]. *)
Inductive thief_pc : Type :=
| Outside
| Steal_start
| Steal_top (t : Z)
| Steal_bottom (t : Z)
| Steal_array (t : Z) (a : nat)
| Steal_item (t : Z) (item : option task)
| Steal_return (item : option task).

Record system : Type := mkSystem {
  deque : WorkStealingDeque; owner : owner_pc; thieves : list thief_pc; epochs : EpochManager
}.

Definition new_system (log_initial_size : Z) (num_thieves : nat) : system :=
  mkSystem (new_deque log_initial_size) Idle (replicate num_thieves Outside) new_epochs.

(** What a step shows: the calls of the operations on the list, and what they return. *)
Inductive event : Type :=
| Silent
| PushCall (x : task) | PopCall | StealCall (thief : nat)
| Pushed (x : task) | Popped (item : option task) | Stolen (thief : nat) (item : option task).

(** [Undefined]: an array that was deleted is accessed. *)
Inductive result : Type := Next (s : system) (e : event) | Undefined | Disabled.

Definition owner_shows (e : event) (d : WorkStealingDeque) (pc : owner_pc) (s : system) : result :=
  Next (mkSystem d pc (thieves s) (epochs s)) e.

Definition owner_at : WorkStealingDeque -> owner_pc -> system -> result := owner_shows Silent.

Definition owner_returns (d : WorkStealingDeque) (e : event) (s : system) : result := owner_shows e d Idle s.

(** With the array at an address, if it has not been deleted. *)
Definition with_array (d : WorkStealingDeque) (a : nat) (f : CircularArray -> result) : result :=
  match deref_array d a with Some arr => f arr | None => Undefined end.

(** The loop of [grow] over [[top, bottom)]: a turn loads a slot of the old array and then
    stores it to the new one; after the last turn [push] makes the new array current. *)
Definition copy_turn (x : task) (b : Z) (old new : nat) (i : Z) (s : system) : result :=
  let d := deque s in
  if i <? b then with_array d old (fun arr => owner_at d (Push_slot x b old new i (get arr i)) s)
  else owner_at (set_array new d) (Push_swapped x b old new) s.

Definition copy_store (x : task) (b : Z) (old new : nat) (i : Z) (item : option task) (s : system) : result :=
  let d := deque s in
  with_array d new (fun arr => owner_at (store_array new (put arr i item) d) (Push_copy x b old new (i + 1)) s).

(** [retireArray]: the array is added to the list, which is cleaned up from time to time. *)
Definition retireArray (x : task) (b : Z) (old new : nat) (s : system) : result :=
  let d := retired_push old (deque s) in
  owner_at d (if (8 <? length (retired_arrays_ d))%nat then Reclaim_start (Some (x, b, new)) else Push_ready x b new) s.

(** A turn of the loop of [reclaimRetired], which deletes at most one array. *)
Definition reclaimRetired (k : option (task * Z * nat)) (safe_epoch : Z) (it : nat) (s : system) : result :=
  let d := deque s in
  match retired_arrays_ d !! it with
  | Some a =>
    with_array d a (fun arr =>
      if retireEpoch arr <? safe_epoch then owner_at (retired_erase it (delete_array a d)) (Reclaim_scan k safe_epoch it) s
      else owner_at d (Reclaim_scan k safe_epoch (S it)) s)
  | None => owner_at d (match k with Some (x, b, a) => Push_ready x b a | None => Idle end) s
  end.

(** The next access of [push], [pop] or [reclaimRetired]. *)
Definition owner_step (s : system) : result :=
  let d := deque s in
  match owner s with
  | Idle => Disabled
  (* push *)
  | Push_start x => owner_at d (Push_bottom x (bottom_ d)) s
  | Push_bottom x b => owner_at d (Push_top x b (top_ d)) s
  | Push_top x b t => owner_at d (Push_array x b t (array_ d)) s
  | Push_array x b t a =>
    with_array d a (fun arr => owner_at d (if b - t >=? array_capacity arr - 1 then Push_full x b t a else Push_ready x b a) s)
  | Push_full x b t a =>
    with_array d a (fun arr => owner_at (allocate (grow arr (currentEpoch (epochs s))) d) (Push_copy x b a (length (memory d)) t) s)
  | Push_copy x b old new i => copy_turn x b old new i s
  | Push_slot x b old new i item => copy_store x b old new i item s
  | Push_swapped x b old new => retireArray x b old new s
  | Push_ready x b a => with_array d a (fun arr => owner_at (store_array a (put arr b (Some x)) d) (Push_put x b) s)
  | Push_put x b => owner_returns (set_bottom (b + 1) d) (Pushed x) s
  (* reclaimRetired *)
  | Reclaim_start k => owner_at d (Reclaim_scan k (safeToReclaimEpoch (epochs s)) 0) s
  | Reclaim_scan k safe_epoch it => reclaimRetired k safe_epoch it s
  (* pop *)
  | Pop_start => owner_at d (Pop_bottom (bottom_ d - 1)) s
  | Pop_bottom b => owner_at d (Pop_array b (array_ d)) s
  | Pop_array b a => owner_at (set_bottom b d) (Pop_stored b a) s
  | Pop_stored b a => owner_at d (Pop_top b a (top_ d)) s
  | Pop_top b a t =>
    if t <=? b then
      with_array d a (fun arr => owner_at d (if t =? b then Pop_last b (get arr b) else Pop_return (get arr b)) s)
    else owner_at (set_bottom (b + 1) d) (Pop_return None) s
  | Pop_last b item =>
    if top_ d =? b then owner_at (set_top (b + 1) d) (Pop_restore b item) s
    else owner_at d (Pop_restore b None) s
  | Pop_restore b item => owner_at (set_bottom (b + 1) d) (Pop_return item) s
  | Pop_return item => owner_returns d (Popped item) s
  end.

Definition thief_at (i : nat) (pc : thief_pc) (d : WorkStealingDeque) (e : event) (s : system) : result :=
  Next (mkSystem d (owner s) (<[i := pc]> (thieves s)) (epochs s)) e.

(** The next access of [steal] by thief [i]. *)
Definition thief_step (i : nat) (s : system) : result :=
  let d := deque s in
  match thieves s !! i with
  | None | Some Outside => Disabled
  | Some Steal_start => thief_at i (Steal_top (top_ d)) d Silent s
  | Some (Steal_top t) => thief_at i (if t <? bottom_ d then Steal_bottom t else Steal_return None) d Silent s
  | Some (Steal_bottom t) => thief_at i (Steal_array t (array_ d)) d Silent s
  | Some (Steal_array t a) =>
    with_array d a (fun arr => thief_at i (Steal_item t (get arr t)) d Silent s)
  | Some (Steal_item t item) =>
    if top_ d =? t then thief_at i (Steal_return item) (set_top (t + 1) d) Silent s
    else thief_at i (Steal_return None) d Silent s
  | Some (Steal_return item) => thief_at i Outside d (Stolen i item) s
  end.

(** What may happen next: a call, an access of a thread that is in one, or a call of the
    epoch manager by anyone. *)
Inductive action : Type :=
| CallPush (x : task) | CallPop | CallReclaim | StepOwner
| CallSteal (i : nat) | StepThief (i : nat)
| RegisterThread | UnregisterThread (slot : nat) | EnterCritical (slot : nat) | ExitCritical (slot : nat) | TryAdvanceEpoch.

Definition with_epochs (m : EpochManager) (s : system) : result := Next (mkSystem (deque s) (owner s) (thieves s) m) Silent.

Definition step (s : system) (a : action) : result :=
  match a with
  | CallPush x => match owner s with Idle => owner_shows (PushCall x) (deque s) (Push_start x) s | _ => Disabled end
  | CallPop => match owner s with Idle => owner_shows PopCall (deque s) Pop_start s | _ => Disabled end
  | CallReclaim => match owner s with Idle => owner_at (deque s) (Reclaim_start None) s | _ => Disabled end
  | StepOwner => owner_step s
  | CallSteal i => match thieves s !! i with Some Outside => thief_at i Steal_start (deque s) (StealCall i) s | _ => Disabled end
  | StepThief i => thief_step i s
  | RegisterThread => with_epochs (snd (registerThread (epochs s))) s
  | UnregisterThread slot => with_epochs (unregisterThread slot (epochs s)) s
  | EnterCritical slot => with_epochs (enterCritical slot (epochs s)) s
  | ExitCritical slot => with_epochs (exitCritical slot (epochs s)) s
  | TryAdvanceEpoch => with_epochs (tryAdvanceEpoch (epochs s)) s
  end.

(** How a schedule ends: all of it is done, or the next access is undefined, or the next
    action is not possible. *)
Inductive ending : Type := Completed | Undefined_at (a : action) | Disabled_at (a : action).

(** What a schedule does up to its ending: the last state and the events. *)
Fixpoint run (s : system) (acts : list action) : system * list event * ending :=
  match acts with
  | [] => (s, [], Completed)
  | a :: acts' =>
    match step s a with
    | Next s' e =>
      let '(s'', es, en) := run s' acts' in
      (s'', match e with Silent => es | _ => e :: es end, en)
    | Undefined => (s, [], Undefined_at a)
    | Disabled => (s, [], Disabled_at a)
    end
  end.
