(* ===== verification/WorkStealingSpec.v ===== *)
(** * The work-stealing deque as a list

    The abstract deque is the list of the tasks from top to bottom: the owner appends and
    removes at the end, a thief removes at the front.  Here are the object that does each
    operation in one atomic step between its call and its return, the invariant that ties
    the machine of [WorkStealing] to it, and the simulation of every step. *)

From Stdlib Require Import ZArith List Lia Bool Permutation.
From stdpp Require Import base list numbers.
From S2P Require Import Prelude WorkStealing.
Import ListNotations.
Open Scope Z_scope.

(** ** Circular arrays *)

Definition array_wf (a : CircularArray) : Prop :=
  0 <= log_size_ a <= 63 /\ length (buffer_ a) = Z.to_nat (array_capacity a).

Lemma capacity_pos a : array_wf a -> 0 < array_capacity a.
Proof. intros [H _]. apply Z.pow_pos_nonneg; lia. Qed.

Lemma slot_mod a i : array_wf a -> slot_of a i = Z.to_nat (i mod array_capacity a).
Proof.
  intros [H _]. unfold slot_of, mask_, array_capacity, u64. f_equal.
  replace (2 ^ log_size_ a - 1) with (Z.ones (log_size_ a)) by (rewrite Z.ones_equiv; lia).
  rewrite Z.land_ones by lia. symmetry. apply Znumtheory.Zmod_div_mod; [apply Z.pow_pos_nonneg; lia..|].
  exists (2 ^ (64 - log_size_ a)). rewrite <- Z.pow_add_r by lia. f_equal. lia.
Qed.

Lemma mod_distinct i j c : 0 < c -> i < j < i + c -> i mod c <> j mod c.
Proof.
  intros Hc Hij E. pose proof (Z.div_mod i c ltac:(lia)). pose proof (Z.div_mod j c ltac:(lia)).
  assert (j - i = c * (j / c - i / c)) by lia. assert (0 < j / c - i / c < 1) by nia. lia.
Qed.

Lemma put_wf a i x : array_wf a -> array_wf (put a i x).
Proof. intros [H1 H2]. split; [exact H1|]. cbn [put buffer_]. rewrite length_insert. exact H2. Qed.

Lemma get_put_eq a i x : array_wf a -> get (put a i x) i = x.
Proof.
  intros Hw. unfold get. rewrite (slot_mod (put a i x)) by apply put_wf, Hw.
  change (array_capacity (put a i x)) with (array_capacity a). cbn [put buffer_]. rewrite (slot_mod a i Hw), list_lookup_insert_eq; [reflexivity|].
  rewrite (proj2 Hw). pose proof (Z.mod_pos_bound i _ (capacity_pos a Hw)). lia.
Qed.

Lemma get_put_ne a i j x : array_wf a -> i mod array_capacity a <> j mod array_capacity a -> get (put a i x) j = get a j.
Proof.
  intros Hw Hn. unfold get. rewrite (slot_mod (put a i x)) by apply put_wf, Hw.
  change (array_capacity (put a i x)) with (array_capacity a). cbn [put buffer_].
  rewrite (slot_mod a i Hw), (slot_mod a j Hw), list_lookup_insert_ne; [reflexivity|].
  pose proof (Z.mod_pos_bound i _ (capacity_pos a Hw)). pose proof (Z.mod_pos_bound j _ (capacity_pos a Hw)). lia.
Qed.

Lemma get_put_near a i j x : array_wf a -> i < j < i + array_capacity a \/ j < i < j + array_capacity a ->
  get (put a i x) j = get a j.
Proof.
  intros Hw Hij. apply get_put_ne; [exact Hw|]. pose proof (capacity_pos a Hw).
  destruct Hij; [apply mod_distinct; lia|]. intros E. symmetry in E. revert E. apply mod_distinct; lia.
Qed.

Lemma new_array_wf k e : 0 <= k <= 63 -> array_wf (new_array k e).
Proof. intros Hk. split; [exact Hk|]. cbn. apply length_replicate. Qed.

Lemma grow_capacity a e : array_wf a -> array_capacity (grow a e) = 2 * array_capacity a.
Proof. intros [Hw _]. unfold array_capacity. cbn [grow new_array log_size_]. rewrite Z.pow_add_r by lia. lia. Qed.

Lemma grow_wf a e : array_wf a -> log_size_ a <= 62 -> array_wf (grow a e).
Proof. intros [H _] Hl. apply new_array_wf. lia. Qed.

(** ** The atomic object *)

(** The owner and each thief, outside of calls, in a call that has not taken effect, and
    in one that has.  A thief knows whether the front has been taken since its call. *)
Inductive owner_status : Type := No_call | Pushing (x : task) | Push_done (x : task) | Popping | Pop_done (item : option task).
Inductive thief_status : Type := No_steal | Stealing (raced : bool) | Steal_done (item : option task).

Record atomic_deque : Type := mkAtomic { items : list task; owner_call : owner_status; thief_calls : list thief_status }.

Definition empty_deque (n : nat) : atomic_deque := mkAtomic [] No_call (replicate n No_steal).

Definition front_taken (c : thief_status) : thief_status := match c with Stealing _ => Stealing true | _ => c end.

(** An operation takes effect.  A pop that finds nothing needs an empty list.  A steal that
    finds nothing needs an empty list, or that the front was taken by another thread after
    the steal was called, or that the owner is popping the only item. *)
Inductive takes_effect : atomic_deque -> atomic_deque -> Prop :=
| push_effect l x ts : takes_effect (mkAtomic l (Pushing x) ts) (mkAtomic (l ++ [x]) (Push_done x) ts)
| pop_effect l x ts : l <> [] -> takes_effect (mkAtomic (l ++ [x]) Popping ts) (mkAtomic l (Pop_done (Some x)) ts)
| pop_last_effect x ts : takes_effect (mkAtomic [x] Popping ts) (mkAtomic [] (Pop_done (Some x)) (front_taken <$> ts))
| pop_empty ts : takes_effect (mkAtomic [] Popping ts) (mkAtomic [] (Pop_done None) ts)
| steal_effect x l c ts i raced : ts !! i = Some (Stealing raced) ->
    takes_effect (mkAtomic (x :: l) c ts) (mkAtomic l c (<[i := Steal_done (Some x)]> (front_taken <$> ts)))
| steal_nothing l c ts i raced : ts !! i = Some (Stealing raced) -> raced = true \/ l = [] \/ (c = Popping /\ length l = 1%nat) ->
    takes_effect (mkAtomic l c ts) (mkAtomic l c (<[i := Steal_done None]> ts)).

(** A call begins, or returns what it did. *)
Inductive shows : atomic_deque -> event -> atomic_deque -> Prop :=
| push_called l x ts : shows (mkAtomic l No_call ts) (PushCall x) (mkAtomic l (Pushing x) ts)
| pop_called l ts : shows (mkAtomic l No_call ts) PopCall (mkAtomic l Popping ts)
| steal_called l c ts i : ts !! i = Some No_steal -> shows (mkAtomic l c ts) (StealCall i) (mkAtomic l c (<[i := Stealing false]> ts))
| push_returns l x ts : shows (mkAtomic l (Push_done x) ts) (Pushed x) (mkAtomic l No_call ts)
| pop_returned l item ts : shows (mkAtomic l (Pop_done item) ts) (Popped item) (mkAtomic l No_call ts)
| steal_returned l c ts i item : ts !! i = Some (Steal_done item) ->
    shows (mkAtomic l c ts) (Stolen i item) (mkAtomic l c (<[i := No_steal]> ts)).

(** The histories of the atomic object: its calls and returns, in their order. *)
Inductive history : atomic_deque -> list event -> atomic_deque -> Prop :=
| history_nil A : history A [] A
| history_effect A A1 es A' : takes_effect A A1 -> history A1 es A' -> history A es A'
| history_event A e A1 es A' : shows A e A1 -> history A1 es A' -> history A (e :: es) A'.

Lemma history_app A es1 A1 es2 A2 : history A es1 A1 -> history A1 es2 A2 -> history A (es1 ++ es2) A2.
Proof. intros H1 H2. induction H1; [exact H2|eapply history_effect; eauto|eapply history_event; eauto]. Qed.

Lemma one_effect A A' : takes_effect A A' -> history A [] A'.
Proof. intros H. eapply history_effect; [exact H|constructor]. Qed.

Lemma one_event A e A' : shows A e A' -> history A [e] A'.
Proof. intros H. eapply history_event; [exact H|constructor]. Qed.

(** ** The invariant *)

(** Where the list ends: an item that the owner has reserved by lowering [bottom_] is
    still in the deque until it is taken. *)
Definition bottom_of (s : system) : Z :=
  match owner s with
  | Pop_stored b _ | Pop_last b _ | Pop_restore b _ => b + 1
  | Pop_top b _ t => if t <? b then b else b + 1
  | _ => bottom_ (deque s)
  end.

(** The current array [arr] holds the tasks [l], and the owner's next push has room.  The
    retired arrays are other ones that are not deleted yet. *)
Record holds (s : system) (arr : CircularArray) (l : list task) : Prop := {
  h_array : deref_array (deque s) (array_ (deque s)) = Some arr;
  h_wf : array_wf arr;
  h_top : 0 <= top_ (deque s);
  h_length : bottom_of s = top_ (deque s) + Z.of_nat (length l);
  h_room : Z.of_nat (length l) < array_capacity arr;
  h_items : forall k x, l !! k = Some x -> get arr (top_ (deque s) + Z.of_nat k) = Some x;
  h_retired : forall a, a ∈ retired_arrays_ (deque s) -> a <> array_ (deque s) /\ is_Some (deref_array (deque s) a);
  h_distinct : NoDup (retired_arrays_ (deque s))
}.

(** The new array of a push that has copied the indices below [i]. *)
Definition copied (d : WorkStealingDeque) (arr : CircularArray) (b : Z) (old new : nat) (i : Z) : Prop :=
  b = bottom_ d /\ old = array_ d /\ new <> old /\ ~ new ∈ retired_arrays_ d /\
  exists arr', deref_array d new = Some arr' /\ array_wf arr' /\ b - top_ d < array_capacity arr' - 1 /\ b - i < array_capacity arr' /\
               forall j, top_ d <= j < i -> j < b -> get arr' j = get arr j.

(** What the owner knows, at each place. *)
Definition owner_ok (s : system) (arr : CircularArray) : Prop :=
  let d := deque s in
  let tight b := b = bottom_ d /\ b - top_ d < array_capacity arr - 1 in
  let next k := match k with Some (_, b, a) => tight b /\ a = array_ d | None => True end in
  match owner s with
  | Idle | Push_start _ | Pop_start | Pop_return _ => True
  | Push_bottom _ b => b = bottom_ d
  | Push_top _ b t => b = bottom_ d /\ 0 <= t <= top_ d /\ b - t < array_capacity arr
  | Push_array _ b t a => b = bottom_ d /\ 0 <= t <= top_ d /\ b - t < array_capacity arr /\ a = array_ d
  | Push_full _ b t a => b = bottom_ d /\ 0 <= t <= top_ d /\ array_capacity arr - 1 <= b - t < array_capacity arr /\ a = array_ d
  | Push_copy _ b old new i => copied d arr b old new i
  | Push_slot _ b old new i item => copied d arr b old new i /\ i < b /\ item = get arr i
  | Push_swapped _ b old new =>
    tight b /\ new = array_ d /\ old <> new /\ ~ old ∈ retired_arrays_ d /\ is_Some (deref_array d old)
  | Reclaim_start k | Reclaim_scan k _ _ => next k
  | Push_ready _ b a => tight b /\ a = array_ d
  | Push_put x b => tight b /\ get arr b = Some x
  | Pop_bottom b => b = bottom_ d - 1
  | Pop_array b a => b = bottom_ d - 1 /\ a = array_ d
  | Pop_stored b a => b = bottom_ d /\ a = array_ d
  | Pop_top b a t => b = bottom_ d /\ a = array_ d /\ t <= top_ d /\ (t < b -> exists x, get arr b = Some x)
  | Pop_last b item => b = bottom_ d /\ b <= top_ d /\ (top_ d = b -> item = get arr b)
  | Pop_restore b _ => b = bottom_ d /\ top_ d = b + 1
  end.

(** How far its call is. *)
Definition call_of (s : system) : owner_status :=
  match owner s with
  | Idle | Reclaim_start None | Reclaim_scan None _ _ => No_call
  | Push_start x | Push_bottom x _ | Push_top x _ _ | Push_array x _ _ _ | Push_full x _ _ _ | Push_copy x _ _ _ _
  | Push_slot x _ _ _ _ _ | Push_swapped x _ _ _ | Reclaim_start (Some (x, _, _)) | Reclaim_scan (Some (x, _, _)) _ _
  | Push_ready x _ _ | Push_put x _ => Pushing x
  | Pop_start | Pop_bottom _ | Pop_array _ _ | Pop_stored _ _ | Pop_last _ _ => Popping
  | Pop_top b a t =>
    if t <? b then Pop_done (match deref_array (deque s) a with Some arr => get arr b | None => None end) else Popping
  | Pop_restore _ item | Pop_return item => Pop_done item
  end.

(** What a thief knows: the front has been taken since it read [top_], or it is still there
    and the thief's item is the first. *)
Definition thief_ok (s : system) (l : list task) (pc : thief_pc) (c : thief_status) : Prop :=
  let d := deque s in
  let since t raced := t <= top_ d /\ (t < top_ d -> raced = true) in
  match pc, c with
  | Outside, No_steal => True
  | Steal_start, Stealing _ => True
  | Steal_top t, Stealing raced => since t raced
  | Steal_bottom t, Stealing raced => since t raced /\ (t = top_ d -> l <> [])
  | Steal_array t a, Stealing raced =>
    since t raced /\ (a < length (memory d))%nat /\
    (t = top_ d -> exists x l', l = x :: l' /\ forall arr, deref_array d a = Some arr -> get arr t = Some x)
  | Steal_item t item, Stealing raced => since t raced /\ (t = top_ d -> exists x l', l = x :: l' /\ item = Some x)
  | Steal_return item, Steal_done item' => item = item'
  | _, _ => False
  end.

(** The machine in state [s] behaves as the atomic object in state [A]. *)
Record inv (s : system) (A : atomic_deque) : Prop := {
  i_owner : exists arr, holds s arr (items A) /\ owner_ok s arr;
  i_call : owner_call A = call_of s;
  i_thieves : Forall2 (thief_ok s (items A)) (thieves s) (thief_calls A)
}.

(** A bound on the indices: the end of the list, and one more in a push. *)
Definition limit (s : system) : Z := bottom_of s + match call_of s with Pushing _ => 1 | _ => 0 end.

Definition is_push (a : action) : Z := match a with CallPush _ => 1 | _ => 0 end.

Definition shown (e : event) : list event := match e with Silent => [] | _ => [e] end.

(** The step [a] from [s] to [s'] that shows [e] is one of the atomic object, or none. *)
Definition simulated (s : system) (A : atomic_deque) (a : action) (s' : system) (e : event) : Prop :=
  exists A', history A (shown e) A' /\ inv s' A' /\ limit s' <= limit s + is_push a.

(** ** What thieves know survives *)

(** The first item and the arrays it is in, as far as they exist; it may be written to others. *)
Record keeps (d d' : WorkStealingDeque) (l l' : list task) : Prop := {
  k_top : top_ d' = top_ d;
  k_first : forall x l0, l = x :: l0 -> exists l0', l' = x :: l0';
  k_grows : (length (memory d) <= length (memory d'))%nat;
  k_arrays : forall a arr', (a < length (memory d))%nat -> deref_array d' a = Some arr' ->
    exists arr, deref_array d a = Some arr /\ (l <> [] -> get arr' (top_ d) = get arr (top_ d) \/ get arr' (top_ d) = head l)
}.

Lemma thief_keeps s s' l l' pc c : keeps (deque s) (deque s') l l' -> thief_ok s l pc c -> thief_ok s' l' pc c.
Proof.
  intros [Kt Kf Kg Ka]. destruct pc as [| |t|t|t a|t item|], c; cbn [thief_ok]; rewrite ?Kt; try tauto.
  - intros [H1 H2]. split; [exact H1|]. intros E. specialize (H2 E). destruct l as [|x l0]; [congruence|].
    destruct (Kf x l0 eq_refl) as [l0' ->]. discriminate.
  - intros (H1 & H2 & H3). split; [exact H1|]. split; [lia|]. intros E. destruct (H3 E) as (x & l0 & -> & Hg).
    destruct (Kf x l0 eq_refl) as [l0' ->]. exists x, l0'. split; [reflexivity|]. intros arr' Hd.
    destruct (Ka a arr' H2 Hd) as (arr & Hd' & Hg'). subst t. destruct (Hg' ltac:(discriminate)) as [->| ->]; [apply Hg, Hd'|reflexivity].
  - intros [H1 H2]. split; [exact H1|]. intros E. destruct (H2 E) as (x & l0 & -> & ->).
    destruct (Kf x l0 eq_refl) as [l0' ->]. eauto.
Qed.

(** After the front is taken. *)
Lemma thief_moved s s' l l' pc c : top_ (deque s) < top_ (deque s') -> (length (memory (deque s)) <= length (memory (deque s')))%nat ->
  thief_ok s l pc c -> thief_ok s' l' pc (front_taken c).
Proof.
  intros Ht Hm. destruct pc as [| |t|t|t a|t item|], c; cbn [thief_ok front_taken]; try tauto;
    intros H; repeat match goal with H : _ /\ _ |- _ => destruct H end; repeat split; try lia; intros; lia.
Qed.

Lemma thieves_keep s s' l l' cs : keeps (deque s) (deque s') l l' -> Forall2 (thief_ok s l) (thieves s) cs -> Forall2 (thief_ok s' l') (thieves s) cs.
Proof. intros Hk. apply Forall2_impl. intros pc c. apply thief_keeps, Hk. Qed.

Lemma thieves_moved s s' l l' cs : top_ (deque s) < top_ (deque s') -> (length (memory (deque s)) <= length (memory (deque s')))%nat ->
  Forall2 (thief_ok s l) (thieves s) cs -> Forall2 (thief_ok s' l') (thieves s) (front_taken <$> cs).
Proof. intros Ht Hm H. apply Forall2_fmap_r. eapply Forall2_impl; [|exact H]. intros pc c. apply thief_moved; assumption. Qed.

Lemma keeps_memory d d' l l' : top_ d' = top_ d -> memory d' = memory d -> (forall x l0, l = x :: l0 -> exists l0', l' = x :: l0') -> keeps d d' l l'.
Proof. intros E1 E2 Hf. split; unfold deref_array; rewrite ?E1, ?E2; eauto. Qed.

Lemma keeps_same d l : keeps d d l l.
Proof. apply keeps_memory; eauto. Qed.

Lemma first_app (l : list task) y : forall x l0, l = x :: l0 -> exists l0', l ++ [y] = x :: l0'.
Proof. intros x l0 ->. eexists. reflexivity. Qed.

(** ** Memory *)

Lemma deref_lt d a arr : deref_array d a = Some arr -> (a < length (memory d))%nat.
Proof. unfold deref_array. destruct (memory d !! a) eqn:E; [|discriminate]. intros _. apply lookup_lt_Some in E. exact E. Qed.

Lemma deref_store d a arr : (a < length (memory d))%nat -> deref_array (store_array a arr d) a = Some arr.
Proof. intros Ha. unfold deref_array. cbn. rewrite list_lookup_insert_eq by exact Ha. reflexivity. Qed.

Lemma deref_store_ne d a arr a' : a' <> a -> deref_array (store_array a arr d) a' = deref_array d a'.
Proof. intros Ha. unfold deref_array. cbn. rewrite list_lookup_insert_ne by congruence. reflexivity. Qed.

Lemma deref_allocate d arr a : (a < length (memory d))%nat -> deref_array (allocate arr d) a = deref_array d a.
Proof. intros Ha. unfold deref_array. cbn. rewrite lookup_app_l by exact Ha. reflexivity. Qed.

Lemma deref_new d arr : deref_array (allocate arr d) (length (memory d)) = Some arr.
Proof. unfold deref_array. cbn. rewrite lookup_app_r, Nat.sub_diag by lia. reflexivity. Qed.

Lemma deref_delete_ne d it a a' : a' <> a -> deref_array (retired_erase it (delete_array a d)) a' = deref_array d a'.
Proof. intros Ha. unfold deref_array. cbn. rewrite list_lookup_alter_ne by congruence. reflexivity. Qed.

Lemma deref_delete d it a : deref_array (retired_erase it (delete_array a d)) a = None.
Proof. unfold deref_array. cbn. rewrite list_lookup_alter_eq. destruct (memory d !! a) as [[]|]; reflexivity. Qed.

Lemma store_lt d a arr a' : is_Some (deref_array d a') -> is_Some (deref_array (store_array a arr d) a').
Proof.
  intros [arr' E]. destruct (Nat.eq_dec a' a) as [->|N]; [rewrite deref_store by (eapply deref_lt, E); eauto|rewrite deref_store_ne by exact N; eauto].
Qed.

Lemma allocate_lt d arr a' : is_Some (deref_array d a') -> is_Some (deref_array (allocate arr d) a').
Proof. intros [arr' E]. rewrite deref_allocate by (eapply deref_lt, E). eauto. Qed.

Lemma keeps_allocate d arr l : keeps d (allocate arr d) l l.
Proof.
  split; cbn [top_ allocate with_memory memory]; [reflexivity|eauto|rewrite length_app; lia|].
  intros a arr' Ha Hd. rewrite deref_allocate in Hd by exact Ha. eauto.
Qed.

Lemma keeps_delete d it a l : keeps d (retired_erase it (delete_array a d)) l l.
Proof.
  split; [reflexivity|eauto|cbn; rewrite length_alter; lia|]. intros a' arr' _ Hd.
  destruct (Nat.eq_dec a' a) as [->|N]; [rewrite deref_delete in Hd; discriminate|rewrite deref_delete_ne in Hd by exact N; eauto].
Qed.

(** A slot is written that is not the first item's. *)
Lemma keeps_store d a arr arr' l : deref_array d a = Some arr -> (l <> [] -> get arr' (top_ d) = get arr (top_ d) \/ get arr' (top_ d) = head l) -> keeps d (store_array a arr' d) l l.
Proof.
  intros Ha Hg. split; [reflexivity|eauto|cbn; rewrite length_insert; lia|]. intros a0 arr0 _ Hd.
  destruct (Nat.eq_dec a0 a) as [->|N]; [rewrite deref_store in Hd by (eapply deref_lt, Ha); injection Hd as <-; eauto|rewrite deref_store_ne in Hd by exact N; eauto].
Qed.

(** ** The owner's steps *)

(** A step of the owner that has no effect on the list. *)
Lemma owner_silent s A a d' pc' arr' : inv s A -> is_push a = 0 ->
  let s' := mkSystem d' pc' (thieves s) (epochs s) in
  bottom_of s' = bottom_of s -> call_of s' = call_of s -> keeps (deque s) d' (items A) (items A) ->
  holds s' arr' (items A) -> owner_ok s' arr' -> simulated s A a s' Silent.
Proof.
  intros [_ Hc Ht] Ha s' Hb Ec Hk Hh Ho. exists A. split; [constructor|]. split; [|unfold limit; rewrite Hb, Ec; lia].
  split; [exists arr'; auto|congruence|]. exact (thieves_keep s s' _ _ _ Hk Ht).
Qed.

(** The same deque. *)
Lemma holds_pc s arr l pc' : holds s arr l ->
  bottom_of (mkSystem (deque s) pc' (thieves s) (epochs s)) = bottom_of s ->
  holds (mkSystem (deque s) pc' (thieves s) (epochs s)) arr l.
Proof. intros [? ? ? Hl ? ? ? ?] E. split; auto. rewrite E. exact Hl. Qed.

Lemma owner_reads s A arr a pc' : inv s A -> is_push a = 0 -> holds s arr (items A) ->
  let s' := mkSystem (deque s) pc' (thieves s) (epochs s) in
  bottom_of s' = bottom_of s -> call_of s' = call_of s -> owner_ok s' arr -> simulated s A a s' Silent.
Proof. intros Hi Ha Hh s' Hb Hc Ho. apply (owner_silent s A a (deque s) pc' arr); auto; [apply keeps_same|apply holds_pc; assumption]. Qed.

(** The same indices, current array and retired arrays, over another memory. *)
Lemma holds_memory s arr l d' pc' : holds s arr l ->
  let s' := mkSystem d' pc' (thieves s) (epochs s) in
  top_ d' = top_ (deque s) -> array_ d' = array_ (deque s) -> bottom_of s' = bottom_of s -> retired_arrays_ d' = retired_arrays_ (deque s) ->
  (forall a, is_Some (deref_array (deque s) a) -> is_Some (deref_array d' a)) ->
  deref_array d' (array_ (deque s)) = Some arr -> holds s' arr l.
Proof.
  intros Hh s' E1 E2 E3 E4 Hd E5. split; cbn; rewrite ?E1, ?E2, ?E4; try apply Hh; auto.
  - rewrite E3. apply Hh.
  - intros a Ha. destruct (h_retired _ _ _ Hh a Ha) as [H1 H2]. auto.
Qed.

Lemma holds_last s arr l x : holds s arr (l ++ [x]) -> get arr (bottom_of s - 1) = Some x.
Proof.
  intros Hh. rewrite (h_length _ _ _ Hh), length_app. cbn [length].
  replace (top_ (deque s) + Z.of_nat (length l + 1) - 1) with (top_ (deque s) + Z.of_nat (length l)) by lia.
  apply (h_items _ _ _ Hh), list_lookup_middle. reflexivity.
Qed.

(** The first item. *)
Lemma holds_first s arr x l : holds s arr (x :: l) -> get arr (top_ (deque s)) = Some x.
Proof. intros Hh. rewrite <- (h_items _ _ _ Hh O x eq_refl). f_equal. lia. Qed.

(** Fewer items. *)
Lemma holds_less s arr l l' d' pc' t : holds s arr l -> d' = set_top t (deque s) -> 0 <= t ->
  let s' := mkSystem d' pc' (thieves s) (epochs s) in
  bottom_of s' = t + Z.of_nat (length l') -> (length l' <= length l)%nat ->
  (forall k x, l' !! k = Some x -> get arr (t + Z.of_nat k) = Some x) -> holds s' arr l'.
Proof.
  intros Hh -> Ht s' Hb Hl Hx. split; cbn; auto; try apply Hh. pose proof (h_room _ _ _ Hh). lia.
Qed.

Ltac at_pc Hpc := unfold bottom_of, call_of; rewrite Hpc; cbn; try reflexivity.

(** What is known at a step of the owner, and what the step is. *)
Ltac owner_case Hi Hpc He arr Hh Ho HL :=
  destruct (i_owner _ _ Hi) as (arr & Hh & Ho); pose proof (h_length _ _ _ Hh) as HL; unfold owner_ok in Ho; unfold bottom_of in HL;
  unfold owner_step in He; rewrite Hpc in Ho, He, HL.

(** *** Push *)

Lemma push_fits s A x b t a : inv s A -> owner s = Push_array x b t a ->
  forall s' e, owner_step s = Next s' e -> simulated s A StepOwner s' e.
Proof.
  intros Hi Hpc s' e He. owner_case Hi Hpc He arr Hh Ho HL. destruct Ho as (-> & Ht & Hc & ->).
  unfold with_array in He. rewrite (h_array _ _ _ Hh) in He. injection He as <- <-.
  destruct (Z.geb_spec (bottom_ (deque s) - t) (array_capacity arr - 1)); (apply (owner_reads s A arr); auto; [at_pc Hpc|at_pc Hpc|]); cbn; intuition lia.
Qed.

Lemma push_grows s A x b t a : inv s A -> owner s = Push_full x b t a -> limit s <= 2 ^ 62 ->
  forall s' e, owner_step s = Next s' e -> simulated s A StepOwner s' e.
Proof.
  intros Hi Hpc Hn s' e He. owner_case Hi Hpc He arr Hh Ho HL. destruct Ho as (-> & Ht & Hc & ->).
  unfold limit, call_of, bottom_of in Hn. rewrite Hpc in Hn.
  unfold with_array in He. rewrite (h_array _ _ _ Hh) in He. injection He as <- <-.
  pose proof (h_room _ _ _ Hh) as HR. pose proof (h_wf _ _ _ Hh) as HW. pose proof (h_array _ _ _ Hh) as HA. pose proof (deref_lt _ _ _ HA) as HA'.
  set (arr' := grow arr _).
  assert (Hlog : log_size_ arr <= 62).
  { destruct (Z_le_gt_dec (log_size_ arr) 62) as [|G]; [assumption|].
    assert (2 ^ 63 <= array_capacity arr) by (apply Z.pow_le_mono_r; lia). lia. }
  assert (Hc' : array_capacity arr' = 2 * array_capacity arr) by (apply grow_capacity, HW).
  pose proof (capacity_pos arr HW) as Hp.
  apply (owner_silent s A _ _ _ arr); auto; [at_pc Hpc|at_pc Hpc|apply keeps_allocate| |].
  - apply holds_memory; auto; [at_pc Hpc|apply allocate_lt|rewrite deref_allocate by exact HA'; exact HA].
  - cbn. split; [reflexivity|]. split; [reflexivity|]. split; [cbn; lia|].
    split; [intros Hr; destruct (h_retired _ _ _ Hh _ Hr) as [_ [? E]]; apply deref_lt in E; lia|].
    exists arr'. rewrite deref_new. split; [reflexivity|]. split; [apply grow_wf; assumption|]. cbn. split; [lia|]. split; [lia|]. intros j Hj. lia.
Qed.

(** A turn of the copying loop. *)
Lemma push_copies s A x b old new i : inv s A -> owner s = Push_copy x b old new i ->
  forall s' e, owner_step s = Next s' e -> simulated s A StepOwner s' e.
Proof.
  intros Hi Hpc s' e He. owner_case Hi Hpc He arr Hh Ho HL. unfold copy_turn in He. destruct (Z.ltb_spec i b) as [Hlt|Hge].
  - unfold with_array in He. pose proof Ho as (_ & -> & _). rewrite (h_array _ _ _ Hh) in He. injection He as <- <-.
    apply (owner_reads s A arr); auto; [at_pc Hpc|at_pc Hpc|]. cbn. auto.
  - injection He as <- <-. destruct Ho as (-> & -> & Hne & Hnr & arr' & Hd & Hw & Hr & Hn & Hg).
    apply (owner_silent s A _ _ _ arr'); auto; [at_pc Hpc|at_pc Hpc|apply keeps_memory; [reflexivity..|eauto]| |].
    + split; cbn; auto; try apply Hh.
      * lia.
      * intros k y Hk. pose proof (lookup_lt_Some _ _ _ Hk). rewrite Hg by lia. apply (h_items _ _ _ Hh), Hk.
      * intros a Ha. destruct (h_retired _ _ _ Hh a Ha). split; [congruence|assumption].
    + cbn. split; [split; [reflexivity|exact Hr]|]. split; [reflexivity|]. split; [congruence|].
      split; [intros Hx; destruct (h_retired _ _ _ Hh _ Hx); congruence|]. exact (mk_is_Some _ _ (h_array _ _ _ Hh)).
Qed.

Lemma push_stores s A x b old new i item : inv s A -> owner s = Push_slot x b old new i item ->
  forall s' e, owner_step s = Next s' e -> simulated s A StepOwner s' e.
Proof.
  intros Hi Hpc s' e He. owner_case Hi Hpc He arr Hh Ho HL.
  destruct Ho as ((-> & -> & Hne & Hnr & arr' & Hd & Hw & Hr & Hn & Hg) & Hib & ->).
  unfold copy_store, with_array in He. rewrite Hd in He. injection He as <- <-. pose proof (deref_lt _ _ _ Hd) as Hlt.
  pose proof (h_array _ _ _ Hh) as HA.
  apply (owner_silent s A _ _ _ arr); auto; [at_pc Hpc|at_pc Hpc| | |].
  - apply (keeps_store _ _ arr'); [exact Hd|]. intros Hl. destruct (items A) as [|y l0] eqn:El; [congruence|].
    destruct (Z.eq_dec i (top_ (deque s))) as [->|N]; [right; rewrite get_put_eq by exact Hw; apply (holds_first _ _ _ _ Hh)|left].
    apply get_put_near; [exact Hw|]. cbn [length] in HL. lia.
  - apply holds_memory; auto; [at_pc Hpc|apply store_lt|rewrite deref_store_ne by congruence; exact HA].
  - cbn. split; [reflexivity|]. split; [reflexivity|]. split; [exact Hne|]. split; [exact Hnr|].
    exists (put arr' i (get arr i)). rewrite deref_store by exact Hlt. split; [reflexivity|]. split; [apply put_wf, Hw|]. split; [exact Hr|].
    change (array_capacity (put arr' i (get arr i))) with (array_capacity arr'). split; [cbn; lia|]. cbn [top_ bottom_ store_array with_memory]. intros j Hj Hjb. destruct (Z.eq_dec j i) as [->|N]; [apply get_put_eq, Hw|].
    rewrite get_put_near; [apply Hg; lia|exact Hw|]. right. lia.
Qed.

Lemma push_retires s A x b old new : inv s A -> owner s = Push_swapped x b old new ->
  forall s' e, owner_step s = Next s' e -> simulated s A StepOwner s' e.
Proof.
  intros Hi Hpc s' e He. owner_case Hi Hpc He arr Hh Ho HL. destruct Ho as ((-> & Ht) & -> & Hne & Hnr & Hd).
  assert (Hh' : forall pc', bottom_of (mkSystem (retired_push old (deque s)) pc' (thieves s) (epochs s)) = bottom_ (deque s) ->
    holds (mkSystem (retired_push old (deque s)) pc' (thieves s) (epochs s)) arr (items A)).
  { intros pc' Hb. split; cbn; try apply Hh.
    - rewrite Hb. exact HL.
    - intros a Ha. apply elem_of_app in Ha as [Ha|Ha]; [apply (h_retired _ _ _ Hh a Ha)|].
      apply list_elem_of_singleton in Ha. subst a. auto.
    - apply list.NoDup_app. split; [apply Hh|]. split; [|apply NoDup_singleton]. intros a Ha Ha'. apply list_elem_of_singleton in Ha'. congruence. }
  unfold retireArray in He. destruct (8 <? _)%nat; injection He as <- <-;
    (apply (owner_silent s A _ _ _ arr); auto; [at_pc Hpc|at_pc Hpc|apply keeps_memory; [reflexivity..|eauto]|]); cbn; auto.
Qed.

(** The slot that is written is past the items. *)
Lemma push_puts s A x b a : inv s A -> owner s = Push_ready x b a ->
  forall s' e, owner_step s = Next s' e -> simulated s A StepOwner s' e.
Proof.
  intros Hi Hpc s' e He. owner_case Hi Hpc He arr Hh Ho HL. destruct Ho as ((-> & Ht) & ->).
  unfold with_array in He. rewrite (h_array _ _ _ Hh) in He. injection He as <- <-.
  pose proof (h_wf _ _ _ Hh) as HW. pose proof (h_array _ _ _ Hh) as HA. pose proof (deref_lt _ _ _ HA) as HA'.
  set (arr' := put arr (bottom_ (deque s)) (Some x)).
  assert (Hg : forall j, top_ (deque s) <= j < bottom_ (deque s) -> get arr' j = get arr j).
  { intros j Hj. apply get_put_near; [exact HW|]. right. lia. }
  apply (owner_silent s A _ _ _ arr'); auto; [at_pc Hpc|at_pc Hpc| | |].
  - apply (keeps_store _ _ arr); [exact HA|]. intros Hl. left. apply Hg. destruct (items A); [congruence|]. cbn [length] in HL. lia.
  - split; cbn; try apply Hh.
    + apply deref_store, HA'.
    + apply put_wf, HW.
    + exact HL.
    + intros k y Hk. rewrite Hg; [apply (h_items _ _ _ Hh), Hk|]. apply lookup_lt_Some in Hk. lia.
    + intros a Ha. destruct (h_retired _ _ _ Hh a Ha) as [H1 H2]. split; [exact H1|apply store_lt, H2].
  - split; [split; [reflexivity|exact Ht]|]. apply get_put_eq, HW.
Qed.

(** The push takes effect, and returns. *)
Lemma push_commits s A x b : inv s A -> owner s = Push_put x b ->
  forall s' e, owner_step s = Next s' e -> simulated s A StepOwner s' e.
Proof.
  intros Hi Hpc s' e He. owner_case Hi Hpc He arr Hh Ho HL. destruct Ho as ((-> & Ht) & Hg). injection He as <- <-.
  pose proof (i_call _ _ Hi) as Hc. pose proof (i_thieves _ _ Hi) as Hts. unfold call_of in Hc. rewrite Hpc in Hc. destruct A as [l c ts]. cbn in *. subst c.
  exists (mkAtomic (l ++ [x]) No_call ts). split; [eapply history_effect; [apply push_effect|apply one_event, push_returns]|]. split.
  - split; [|reflexivity|]; cbn [items thief_calls].
    + exists arr. split; [|exact I]. split; cbn; try apply Hh.
      * rewrite length_app. cbn. lia.
      * rewrite length_app. cbn. lia.
      * intros k y Hk. apply lookup_app_Some in Hk as [Hk|[Hk1 Hk2]]; [apply (h_items _ _ _ Hh), Hk|].
        destruct (k - length l)%nat eqn:E; [|discriminate]. injection Hk2 as <-.
        replace (top_ (deque s) + Z.of_nat k) with (bottom_ (deque s)) by lia. exact Hg.
    + eapply thieves_keep; [|exact Hts]. apply keeps_memory; [reflexivity..|apply first_app].
  - unfold limit; at_pc Hpc; lia.
Qed.

(** *** Reclaiming *)

Lemma reclaims s A k safe it : inv s A -> owner s = Reclaim_scan k safe it ->
  forall s' e, owner_step s = Next s' e -> simulated s A StepOwner s' e.
Proof.
  intros Hi Hpc s' e He. owner_case Hi Hpc He arr Hh Ho HL. unfold reclaimRetired in He.
  destruct (retired_arrays_ (deque s) !! it) as [a|] eqn:Ea.
  - unfold with_array in He. destruct (h_retired _ _ _ Hh a (list_elem_of_lookup_2 _ _ _ Ea)) as [Hne [arr0 Hd]]. rewrite Hd in He.
    destruct (retireEpoch arr0 <? safe); injection He as <- <-; [|apply (owner_reads s A arr); auto; at_pc Hpc].
    pose proof (h_distinct _ _ _ Hh) as HD. pose proof (list_elem_of_split_length _ _ _ Ea) as (r1 & r2 & Er & Hlen).
    assert (Edel : delete it (retired_arrays_ (deque s)) = r1 ++ r2) by (rewrite Er, Hlen; apply delete_middle).
    assert (Hin : forall a', a' ∈ r1 ++ r2 -> a' ∈ retired_arrays_ (deque s) /\ a' <> a).
    { intros a' Ha'. rewrite Er in HD |- *. apply list.NoDup_app in HD as (_ & H2 & H3). apply list.NoDup_cons in H3 as [H3 _].
      apply elem_of_app in Ha' as [Ha'|Ha']; split; try (apply elem_of_app; rewrite elem_of_cons; tauto); intros ->; [|tauto].
      apply (H2 a Ha'). apply elem_of_cons. tauto. }
    apply (owner_silent s A _ _ _ arr); auto; [at_pc Hpc|at_pc Hpc|apply keeps_delete|].
    split; cbn -[delete deref_array]; try apply Hh.
    + rewrite deref_delete_ne by congruence. apply Hh.
    + exact HL.
    + rewrite Edel. intros a' Ha'. destruct (Hin a' Ha') as [H1 H2]. rewrite deref_delete_ne by exact H2. apply (h_retired _ _ _ Hh a' H1).
    + rewrite Edel. rewrite Er, <- Permutation_middle in HD. apply list.NoDup_cons in HD as [_ HD]. exact HD.
  - injection He as <- <-. destruct k as [[[x b] a]|]; (apply (owner_reads s A arr); auto; at_pc Hpc).
Qed.

(** *** Pop *)

Lemma pop_lowers s A b a : inv s A -> owner s = Pop_array b a ->
  forall s' e, owner_step s = Next s' e -> simulated s A StepOwner s' e.
Proof.
  intros Hi Hpc s' e He. owner_case Hi Hpc He arr Hh Ho HL. destruct Ho as (-> & ->). injection He as <- <-.
  apply (owner_silent s A _ _ _ arr); auto; [at_pc Hpc; lia|at_pc Hpc|apply keeps_memory; [reflexivity..|eauto]| |cbn; auto].
  apply holds_memory; auto; [at_pc Hpc; lia|exact (h_array _ _ _ Hh)].
Qed.

(** The owner takes the last of several items as soon as it has seen [top_]. *)
Lemma pop_takes s A b a : inv s A -> owner s = Pop_stored b a ->
  forall s' e, owner_step s = Next s' e -> simulated s A StepOwner s' e.
Proof.
  intros Hi Hpc s' e He. owner_case Hi Hpc He arr Hh Ho HL. destruct Ho as (-> & ->). injection He as <- <-.
  destruct (Z.ltb_spec (top_ (deque s)) (bottom_ (deque s))) as [Hlt|Hge].
  2: { assert (Hf : (top_ (deque s) <? bottom_ (deque s)) = false) by (apply Z.ltb_ge; lia).
    apply (owner_reads s A arr); auto; [at_pc Hpc; rewrite Hf; reflexivity|at_pc Hpc; rewrite Hf; reflexivity|]. cbn. repeat split; lia. }
  assert (Hb : (top_ (deque s) <? bottom_ (deque s)) = true) by (apply Z.ltb_lt, Hlt).
  pose proof (i_call _ _ Hi) as Hc. pose proof (i_thieves _ _ Hi) as Hts. unfold call_of in Hc. rewrite Hpc in Hc.
  destruct A as [l c ts]. cbn in *. subst c. destruct l as [|y l0 _] using rev_ind; [cbn in HL; lia|]. rewrite length_app in HL. cbn in HL.
  assert (Hy : get arr (bottom_ (deque s)) = Some y).
  { pose proof (holds_last _ _ _ _ Hh) as Hg. unfold bottom_of in Hg. rewrite Hpc in Hg. rewrite <- Hg. f_equal. lia. }
  exists (mkAtomic l0 (Pop_done (Some y)) ts). split; [apply one_effect, pop_effect; intros ->; cbn in HL; lia|]. split.
  - split; cbn [items owner_call thief_calls].
    + exists arr. split; [|cbn; eauto with lia]. apply (holds_less s arr (l0 ++ [y]) l0 _ _ (top_ (deque s)) Hh); [destruct (deque s); reflexivity|apply Hh|unfold bottom_of; cbn; rewrite Hb; lia|rewrite length_app; lia|].
      intros k x Hk. apply (h_items _ _ _ Hh), lookup_app_l_Some, Hk.
    + unfold call_of. cbn. rewrite Hb, (h_array _ _ _ Hh), Hy. reflexivity.
    + eapply thieves_keep; [|exact Hts]. apply keeps_memory; [reflexivity..|]. intros z l1 E. destruct l0 as [|z' l2]; [cbn in HL; lia|]. injection E as -> _. eauto.
  - unfold limit; at_pc Hpc; rewrite Hb; lia.
Qed.

Lemma pop_decides s A b a t : inv s A -> owner s = Pop_top b a t ->
  forall s' e, owner_step s = Next s' e -> simulated s A StepOwner s' e.
Proof.
  intros Hi Hpc s' e He. owner_case Hi Hpc He arr Hh Ho HL. destruct Ho as (-> & -> & Ht & Hg).
  pose proof (h_array _ _ _ Hh) as HA. destruct (Z.leb_spec t (bottom_ (deque s))) as [Hle|Hgt].
  - unfold with_array in He. rewrite HA in He. destruct (Z.eqb_spec t (bottom_ (deque s))) as [->|N]; injection He as <- <-.
    + apply (owner_reads s A arr); auto; [at_pc Hpc; rewrite Z.ltb_irrefl; reflexivity|at_pc Hpc; rewrite Z.ltb_irrefl; reflexivity|cbn; auto].
    + assert (Hlt : (t <? bottom_ (deque s)) = true) by (apply Z.ltb_lt; lia).
      apply (owner_reads s A arr); auto; [at_pc Hpc; rewrite Hlt; reflexivity|at_pc Hpc; rewrite Hlt, HA; reflexivity|exact I].
  - injection He as <- <-. assert (Hf : (t <? bottom_ (deque s)) = false) by (apply Z.ltb_ge; lia). rewrite Hf in HL.
    pose proof (i_call _ _ Hi) as Hc. pose proof (i_thieves _ _ Hi) as Hts. unfold call_of in Hc. rewrite Hpc, Hf in Hc.
    destruct A as [l c ts]. cbn in *. subst c. destruct l as [|y l0]; [|cbn in HL; lia].
    exists (mkAtomic [] (Pop_done None) ts). split; [apply one_effect, pop_empty|]. split; [|unfold limit; at_pc Hpc; rewrite Hf; lia].
    split; cbn [items owner_call thief_calls]; [|reflexivity|].
    + exists arr. split; [|exact I]. apply holds_memory; auto. at_pc Hpc. rewrite Hf. reflexivity.
    + eapply thieves_keep; [|exact Hts]. apply keeps_memory; [reflexivity..|eauto].
Qed.

(** For the last item the owner competes with the thieves. *)
Lemma pop_competes s A b item : inv s A -> owner s = Pop_last b item ->
  forall s' e, owner_step s = Next s' e -> simulated s A StepOwner s' e.
Proof.
  intros Hi Hpc s' e He. owner_case Hi Hpc He arr Hh Ho HL. destruct Ho as (-> & Ht & Hit).
  pose proof (i_call _ _ Hi) as Hc. pose proof (i_thieves _ _ Hi) as Hts. unfold call_of in Hc. rewrite Hpc in Hc.
  destruct A as [l c ts]. cbn in *. subst c. pose proof (h_top _ _ _ Hh) as H0.
  destruct (Z.eqb_spec (top_ (deque s)) (bottom_ (deque s))) as [E|N]; injection He as <- <-.
  - destruct l as [|x [|y l0]]; [cbn in HL; lia| |cbn in HL; lia].
    rewrite (Hit E), <- E, (holds_first _ _ _ _ Hh), E.
    exists (mkAtomic [] (Pop_done (Some x)) (front_taken <$> ts)). split; [apply one_effect, pop_last_effect|]. split; [|unfold limit; at_pc Hpc; lia].
    split; cbn [items owner_call thief_calls]; [|reflexivity|].
    + exists arr. split; [|cbn; auto]. apply (holds_less s arr [x] [] _ _ (bottom_ (deque s) + 1) Hh); [reflexivity|lia|unfold bottom_of; cbn; lia|cbn; lia|].
      intros k y Hk. rewrite lookup_nil in Hk. discriminate.
    + apply (thieves_moved s _ [x]); [cbn; lia|cbn; lia|exact Hts].
  - destruct l as [|x l0]; [|cbn in HL; lia].
    exists (mkAtomic [] (Pop_done None) ts). split; [apply one_effect, pop_empty|]. split; [|unfold limit; at_pc Hpc; lia].
    split; cbn [items owner_call thief_calls]; [|reflexivity|].
    + exists arr. split; [|cbn; cbn in HL; split; lia]. apply holds_pc; [exact Hh|]. at_pc Hpc.
    + eapply thieves_keep; [|exact Hts]. apply keeps_same.
Qed.

Lemma pop_restores s A b item : inv s A -> owner s = Pop_restore b item ->
  forall s' e, owner_step s = Next s' e -> simulated s A StepOwner s' e.
Proof.
  intros Hi Hpc s' e He. owner_case Hi Hpc He arr Hh Ho HL. destruct Ho as (-> & Ht). injection He as <- <-.
  apply (owner_silent s A _ _ _ arr); auto; [at_pc Hpc|at_pc Hpc|apply keeps_memory; [reflexivity..|eauto]| |exact I].
  apply holds_memory; auto; [at_pc Hpc|exact (h_array _ _ _ Hh)].
Qed.

Lemma pop_returns s A item : inv s A -> owner s = Pop_return item ->
  forall s' e, owner_step s = Next s' e -> simulated s A StepOwner s' e.
Proof.
  intros Hi Hpc s' e He. owner_case Hi Hpc He arr Hh Ho HL. injection He as <- <-.
  pose proof (i_call _ _ Hi) as Hc. pose proof (i_thieves _ _ Hi) as Hts. unfold call_of in Hc. rewrite Hpc in Hc.
  destruct A as [l c ts]. cbn in *. subst c. exists (mkAtomic l No_call ts). split; [apply one_event, pop_returned|].
  split; [|unfold limit; at_pc Hpc; lia]. split; [|reflexivity|exact Hts].
  exists arr. split; [|exact I]. apply holds_pc; [exact Hh|]. at_pc Hpc.
Qed.

Lemma owner_simulated s A : inv s A -> limit s <= 2 ^ 62 ->
  forall s' e, owner_step s = Next s' e -> simulated s A StepOwner s' e.
Proof.
  intros Hi Hn s' e He. destruct (owner s) eqn:Hpc; eauto using push_fits, push_grows, push_copies, push_stores, push_retires, reclaims,
    push_puts, push_commits, pop_takes, pop_decides, pop_competes, pop_restores, pop_lowers, pop_returns;
    owner_case Hi Hpc He arr Hh Ho HL; try discriminate; injection He as <- <-; pose proof (h_room _ _ _ Hh); pose proof (h_top _ _ _ Hh);
    (apply (owner_reads s A arr); auto; [at_pc Hpc|at_pc Hpc|..]); cbn; intuition (auto; lia).
Qed.

(** ** The thieves' steps *)

Lemma holds_thieves s arr l ts m : holds s arr l -> holds (mkSystem (deque s) (owner s) ts m) arr l.
Proof. intros []. split; auto. Qed.

Lemma thieves_at s s' l ts cs i pc c : Forall2 (thief_ok s l) ts cs -> deque s' = deque s -> thief_ok s l pc c ->
  Forall2 (thief_ok s' l) (<[i := pc]> ts) (<[i := c]> cs).
Proof.
  intros H E Hc. assert (Hd : forall pc c, thief_ok s l pc c -> thief_ok s' l pc c) by (intros pc' c'; unfold thief_ok; rewrite E; exact id).
  apply Forall2_insert; [|exact (Hd _ _ Hc)]. eapply Forall2_impl; [exact Hd|exact H].
Qed.

(** A step of a thief that has no effect on the list. *)
Lemma thief_reads s A a i pc c : inv s A -> is_push a = 0 -> thief_calls A !! i = Some c -> thief_ok s (items A) pc c ->
  simulated s A a (mkSystem (deque s) (owner s) (<[i := pc]> (thieves s)) (epochs s)) Silent.
Proof.
  intros [(arr & Hh & Ho) Hc Hts] Ha Ec Hok. exists A. split; [constructor|]. split; [|unfold limit, bottom_of, call_of; cbn; lia].
  split; [exists arr; split; [apply holds_thieves, Hh|exact Ho]|exact Hc|]. cbn [thieves]. rewrite <- (list_insert_id _ _ _ Ec).
  apply (thieves_at s); [exact Hts|reflexivity|exact Hok].
Qed.

(** A step of a thief that changes only its own status. *)
Lemma thief_status_changes s A a i pc c e : inv s A -> is_push a = 0 -> thief_ok s (items A) pc c ->
  history A (shown e) (mkAtomic (items A) (owner_call A) (<[i := c]> (thief_calls A))) ->
  simulated s A a (mkSystem (deque s) (owner s) (<[i := pc]> (thieves s)) (epochs s)) e.
Proof.
  intros [(arr & Hh & Ho) Hc Hts] Ha Hok HH. eexists. split; [exact HH|]. split; [|unfold limit, bottom_of, call_of; cbn; lia].
  split; [exists arr; split; [apply holds_thieves, Hh|exact Ho]|exact Hc|]. apply (thieves_at s); [exact Hts|reflexivity|exact Hok].
Qed.

(** When [bottom_] is below the end of the list, a pop is under way or nothing is left. *)
Lemma bottom_cases s A arr : inv s A -> holds s arr (items A) -> owner_ok s arr ->
  bottom_of s = bottom_ (deque s) \/ (bottom_of s = bottom_ (deque s) + 1 /\ (owner_call A = Popping \/ items A = [])).
Proof.
  intros Hi Hh Ho. rewrite (i_call _ _ Hi). pose proof (h_length _ _ _ Hh) as HL. unfold owner_ok, bottom_of, call_of in *.
  destruct (owner s); auto; try (destruct k as [[[? ?] ?]|]; auto); destruct Ho as (-> & Ho); auto.
  - destruct (_ <? _); auto.
  - right. split; [reflexivity|]. right. destruct (items A); [reflexivity|]. cbn in HL. lia.
Qed.

(** The thief finds nothing. *)
Lemma steal_misses s A i t : inv s A -> thieves s !! i = Some (Steal_top t) -> bottom_ (deque s) <= t ->
  simulated s A (StepThief i) (mkSystem (deque s) (owner s) (<[i := Steal_return None]> (thieves s)) (epochs s)) Silent.
Proof.
  intros Hi Hpc Hb. destruct (i_owner _ _ Hi) as (arr & Hh & Ho). pose proof (bottom_cases s A arr Hi Hh Ho) as HB. pose proof (h_length _ _ _ Hh) as HL.
  destruct (Forall2_lookup_l _ _ _ _ _ (i_thieves _ _ Hi) Hpc) as (c & Ec & Hc). destruct c as [|raced|]; try contradiction. destruct Hc as [Ht Hr].
  apply (thief_status_changes s A _ i _ (Steal_done None)); [exact Hi|reflexivity|reflexivity|]. destruct A as [l c ts]. cbn in *.
  apply one_effect. eapply steal_nothing; [exact Ec|]. destruct (Z.lt_ge_cases t (top_ (deque s))) as [Hlt|Hge]; [left; exact (Hr Hlt)|right].
  destruct l as [|x [|y l0]]; [left; reflexivity|right|cbn in HL; lia]. split; [|reflexivity]. cbn in HL. destruct HB as [HB|(HB & [HB'|HB'])]; [lia|exact HB'|discriminate].
Qed.

(** The thief takes the first item. *)
Lemma steal_takes s A i t item : inv s A -> thieves s !! i = Some (Steal_item t item) -> top_ (deque s) = t ->
  simulated s A (StepThief i) (mkSystem (set_top (t + 1) (deque s)) (owner s) (<[i := Steal_return item]> (thieves s)) (epochs s)) Silent.
Proof.
  intros Hi Hpc <-. destruct (i_owner _ _ Hi) as (arr & Hh & Ho).
  destruct (Forall2_lookup_l _ _ _ _ _ (i_thieves _ _ Hi) Hpc) as (c & Ec & Hc). destruct c as [|raced|]; try contradiction.
  destruct Hc as [_ Hx]. destruct (Hx eq_refl) as (x & l & El & ->). pose proof (i_call _ _ Hi) as Hcall. pose proof (i_thieves _ _ Hi) as Hts.
  destruct A as [l0 c ts]. cbn in *. subst l0. pose proof (h_length _ _ _ Hh) as HL. pose proof (h_top _ _ _ Hh) as H0. cbn [length] in HL.
  eexists. split; [eapply one_effect, steal_effect, Ec|]. split; [|change (limit s <= limit s + 0); lia].
  split; cbn [items owner_call thief_calls].
  - exists arr. split.
    + split; cbn; try apply Hh; [lia| | |].
      * change (bottom_of _) with (bottom_of s). lia.
      * pose proof (h_room _ _ _ Hh) as HR. cbn [length] in HR. lia.
      * intros k y Hk. rewrite <- (h_items _ _ _ Hh (S k) y Hk). f_equal. lia.
    + unfold bottom_of in HL. unfold owner_ok, copied in *. cbn [owner deque top_ set_top bottom_ array_ retired_arrays_ memory] in *.
      destruct (owner s) as [| | | | | |? ? ? ? ?|? ? ? ? ? ?| |[[[? ?] ?]|]|[[[? ?] ?]|] ? ?| | | | | | | | | |]; try tauto; try (intuition lia).
      * destruct Ho as (H1 & H2 & H3 & H4 & arr' & H5 & H6 & H7 & H8 & H9). repeat (split; [assumption|]). exists arr'.
        split; [exact H5|]. split; [exact H6|]. split; [lia|]. split; [exact H8|]. intros j Hj. apply H9. lia.
      * destruct Ho as ((H1 & H2 & H3 & H4 & arr' & H5 & H6 & H7 & H8 & H9) & Ho). split; [|exact Ho]. repeat (split; [assumption|]). exists arr'.
        split; [exact H5|]. split; [exact H6|]. split; [lia|]. split; [exact H8|]. intros j Hj. apply H9. lia.
  - exact Hcall.
  - apply Forall2_insert; [|reflexivity]. apply (thieves_moved s _ (x :: l)); [cbn; lia|cbn; lia|exact Hts].
Qed.

Lemma thief_simulated s A i : inv s A -> forall s' e, thief_step i s = Next s' e -> simulated s A (StepThief i) s' e.
Proof.
  intros Hi s' e He. destruct (i_owner _ _ Hi) as (arr & Hh & Ho). pose proof (h_length _ _ _ Hh) as HL. unfold thief_step in He.
  destruct (thieves s !! i) as [pc|] eqn:Hpc; [|discriminate].
  destruct (Forall2_lookup_l _ _ _ _ _ (i_thieves _ _ Hi) Hpc) as (c & Ec & Hc).
  destruct pc as [| |t|t|t a|t item|item]; try discriminate; destruct c as [|raced|item']; try contradiction; cbn [thief_ok] in Hc.
  - injection He as <- <-. eapply thief_reads; eauto. cbn. lia.
  - destruct (Z.ltb_spec t (bottom_ (deque s))) as [Hlt|Hge]; injection He as <- <-; [|apply steal_misses with t; assumption].
    eapply thief_reads; eauto. cbn. split; [exact Hc|]. intros -> E. rewrite E in HL. cbn in HL.
    destruct (bottom_cases s A arr Hi Hh Ho) as [HB|[HB _]]; lia.
  - injection He as <- <-. eapply thief_reads; eauto. cbn. destruct Hc as [H1 H2]. split; [exact H1|].
    split; [exact (deref_lt _ _ _ (h_array _ _ _ Hh))|]. intros E. specialize (H2 E). destruct (items A) as [|x l0]; [congruence|].
    exists x, l0. split; [reflexivity|]. intros arr' Hd. rewrite (h_array _ _ _ Hh) in Hd. injection Hd as <-.
    subst t. apply (holds_first _ _ _ _ Hh).
  - unfold with_array in He. destruct (deref_array (deque s) a) as [arr'|] eqn:Ed; [|discriminate]. injection He as <- <-.
    eapply thief_reads; eauto. cbn. destruct Hc as (H1 & _ & H2). split; [exact H1|]. intros E.
    destruct (H2 E) as (x & l0 & -> & Hg). eauto.
  - destruct (Z.eqb_spec (top_ (deque s)) t) as [E|N]; injection He as <- <-; [apply steal_takes; assumption|].
    destruct Hc as [[H1 H2] _]. apply (thief_status_changes s A _ i _ (Steal_done None)); [exact Hi|reflexivity|reflexivity|].
    destruct A as [l c ts]. cbn in *. apply one_effect. eapply steal_nothing; [exact Ec|]. left. apply H2. lia.
  - injection He as <- <-. subst item'. apply (thief_status_changes s A _ i _ No_steal); [exact Hi|reflexivity|exact I|].
    destruct A as [l c ts]. cbn in *. apply one_event, steal_returned, Ec.
Qed.

(** ** Every step *)

(** A call of the owner. *)
Lemma owner_called s A a pc' c' e : inv s A -> owner s = Idle -> (forall arr, owner_ok (mkSystem (deque s) pc' (thieves s) (epochs s)) arr) ->
  let s' := mkSystem (deque s) pc' (thieves s) (epochs s) in
  bottom_of s' = bottom_ (deque s) -> call_of s' = c' -> limit s' <= limit s + is_push a ->
  history A (shown e) (mkAtomic (items A) c' (thief_calls A)) -> simulated s A a s' e.
Proof.
  intros [(arr & Hh & _) Hc Hts] Hpc Ho s' Hb Ec Hl HH. eexists. split; [exact HH|]. split; [|exact Hl]. split; [|symmetry; exact Ec|].
  - exists arr. split; [|apply Ho]. apply holds_pc; [exact Hh|]. unfold s' in Hb. rewrite Hb. unfold bottom_of. rewrite Hpc. reflexivity.
  - exact (thieves_keep s _ _ _ _ (keeps_same _ _) Hts).
Qed.

Lemma epochs_simulated s A a m : inv s A -> is_push a = 0 -> simulated s A a (mkSystem (deque s) (owner s) (thieves s) m) Silent.
Proof.
  intros [(arr & Hh & Ho) Hc Hts] Ha. exists A. split; [constructor|]. split; [|unfold limit, bottom_of, call_of; cbn; lia].
  split; [|exact Hc|exact Hts]. exists arr. split; [apply holds_thieves, Hh|exact Ho].
Qed.

Theorem step_simulated s A a : inv s A -> limit s <= 2 ^ 62 -> forall s' e, step s a = Next s' e -> simulated s A a s' e.
Proof.
  intros Hi Hn s' e He. pose proof (i_call _ _ Hi) as Hc. unfold call_of in Hc. destruct a; cbn [step] in He.
  1-3: destruct (owner s) eqn:Hpc; try discriminate; injection He as <- <-; (eapply owner_called; [exact Hi|exact Hpc|intros; exact I|reflexivity|reflexivity| |]);
    [unfold limit; at_pc Hpc; lia|destruct A as [l c ts]; cbn in *; subst c; first [apply one_event; constructor|constructor]].
  - apply owner_simulated; assumption.
  - destruct (thieves s !! i) as [[| | | | | |]|] eqn:Hpc; try discriminate. injection He as <- <-.
    destruct (Forall2_lookup_l _ _ _ _ _ (i_thieves _ _ Hi) Hpc) as (c & Ec & Hok). destruct c as [|raced|]; try contradiction.
    apply (thief_status_changes s A _ i _ (Stealing false)); [exact Hi|reflexivity|exact I|]. destruct A as [l c ts]. cbn in *. apply one_event, steal_called, Ec.
  - apply thief_simulated; assumption.
  - injection He as <- <-. apply epochs_simulated; auto.
  - injection He as <- <-. apply epochs_simulated; auto.
  - injection He as <- <-. apply epochs_simulated; auto.
  - injection He as <- <-. apply epochs_simulated; auto.
  - injection He as <- <-. apply epochs_simulated; auto.
Qed.

(** Only a thief can access an array that was deleted: the owner's accesses are defined. *)
Lemma step_defined s A a : inv s A -> step s a = Undefined ->
  exists i t p, a = StepThief i /\ thieves s !! i = Some (Steal_array t p) /\ deref_array (deque s) p = None /\ p <> array_ (deque s) /\
                ~ p ∈ retired_arrays_ (deque s) /\ (p < length (memory (deque s)))%nat.
Proof.
  intros Hi Hu. destruct (i_owner _ _ Hi) as (arr & Hh & Ho). pose proof (h_array _ _ _ Hh) as HA. unfold owner_ok in Ho.
  destruct a; cbn [step] in Hu; unfold owner_at, owner_shows, with_epochs in Hu; try (repeat case_match; discriminate).
  - unfold owner_step, copy_turn, copy_store, retireArray, reclaimRetired, with_array, owner_returns, owner_at, owner_shows in Hu.
    destruct (owner s); try discriminate.
    + destruct Ho as (_ & _ & _ & ->). rewrite HA in Hu. discriminate.
    + destruct Ho as (_ & _ & _ & ->). rewrite HA in Hu. discriminate.
    + destruct Ho as (_ & -> & _). rewrite HA in Hu. destruct (_ <? _); discriminate.
    + destruct Ho as ((_ & _ & _ & _ & arr' & Hd & _) & _). rewrite Hd in Hu. discriminate.
    + destruct (retired_arrays_ (deque s) !! it) as [p|] eqn:Ep; [|discriminate].
      destruct (h_retired _ _ _ Hh p (list_elem_of_lookup_2 _ _ _ Ep)) as [_ [arr' Hd]]. rewrite Hd in Hu. destruct (_ <? _); discriminate.
    + destruct Ho as (_ & ->). rewrite HA in Hu. discriminate.
    + destruct Ho as (_ & -> & _). rewrite HA in Hu. destruct (_ <=? _); discriminate.
    + destruct (_ =? _); discriminate.
  - unfold thief_step, with_array, thief_at in Hu. destruct (thieves s !! i) as [pc|] eqn:E; [|discriminate].
    destruct pc as [| |t|t|t p|t item|item]; try discriminate; [|destruct (_ =? _); discriminate].
    destruct (deref_array (deque s) p) eqn:Ed; [discriminate|]. exists i, t, p. split; [reflexivity|]. split; [exact E|]. split; [exact Ed|].
    destruct (Forall2_lookup_l _ _ _ _ _ (i_thieves _ _ Hi) E) as (c & _ & Hc). destruct c; try contradiction. destruct Hc as (_ & Hlt & _).
    split; [intros ->; congruence|]. split; [|exact Hlt]. intros Hp. destruct (h_retired _ _ _ Hh p Hp) as [_ [? Hd]]. congruence.
Qed.

(** The new deque. *)
Lemma new_inv k n : 0 <= k <= 62 -> inv (new_system k n) (empty_deque n) /\ limit (new_system k n) = 0.
Proof.
  intros Hk. assert (Hw : array_wf (new_array k 0)) by (apply new_array_wf; lia). split; [|reflexivity]. split; [|reflexivity|].
  - exists (new_array k 0). split; [|exact I]. split; cbn; try lia; auto; [apply (capacity_pos _ Hw)| | |constructor].
    + intros j x Hj. rewrite lookup_nil in Hj. discriminate.
    + intros a Ha. apply elem_of_nil in Ha as [].
  - cbn. apply Forall2_replicate. exact I.
Qed.
