(* ===== verification/WorkStealingTheorems.v ===== *)
(** * What the work-stealing deque guarantees: the theorems *)

From Stdlib Require Import ZArith List Lia Bool Permutation.
From stdpp Require Import base list numbers.
From S2P Require Import Prelude WorkStealing WorkStealingSpec.
Import ListNotations.
Open Scope Z_scope.

(** ** Runs *)

Definition pushes (acts : list action) : Z := fold_right (fun a n => is_push a + n) 0 acts.

Lemma pushes_nonneg acts : 0 <= pushes acts.
Proof. induction acts as [|a acts IH]; [reflexivity|]. change (pushes (a :: acts)) with (is_push a + pushes acts). destruct a; cbn [is_push]; lia. Qed.


Lemma run_simulated acts : forall s A, inv s A -> limit s + pushes acts <= 2 ^ 62 ->
  let '(s', es, en) := run s acts in
  exists A', history A es A' /\ inv s' A' /\ limit s' <= limit s + pushes acts /\
    forall a, en = Undefined_at a -> step s' a = Undefined.
Proof.
  induction acts as [|a acts IH]; intros s A Hi Hn; cbn [run].
  - exists A. split; [constructor|]. split; [exact Hi|]. split; [cbn; lia|discriminate].
  - change (pushes (a :: acts)) with (is_push a + pushes acts) in *. pose proof (pushes_nonneg acts) as Hp.
    assert (Ha : 0 <= is_push a) by (destruct a; cbn; lia). destruct (step s a) as [s1 e| |] eqn:He.
    + destruct (step_simulated s A a Hi ltac:(lia) s1 e He) as (A1 & H1 & Hi1 & Hl1). specialize (IH s1 A1 Hi1 ltac:(lia)).
      destruct (run s1 acts) as [[s' es] en]. destruct IH as (A' & H2 & H3 & H4 & H5). exists A'.
      pose proof (history_app _ _ _ _ _ H1 H2) as HH. split; [destruct e; exact HH|]. split; [exact H3|]. split; [lia|exact H5].
    + exists A. split; [constructor|]. split; [exact Hi|]. split; [lia|]. intros b [= <-]. exact He.
    + exists A. split; [constructor|]. split; [exact Hi|]. split; [lia|discriminate].
Qed.

Lemma run_from_new k n acts : 0 <= k <= 62 -> pushes acts <= 2 ^ 62 ->
  let '(s, es, en) := run (new_system k n) acts in
  exists A, history (empty_deque n) es A /\ inv s A /\ limit s <= pushes acts /\ forall a, en = Undefined_at a -> step s a = Undefined.
Proof.
  intros Hk Hn. destruct (new_inv k n Hk) as [Hi Hl]. pose proof (run_simulated acts _ _ Hi ltac:(lia)) as HR.
  rewrite Hl in HR. exact HR.
Qed.

(** ** Refinement *)

(** The item at index [i] of the current array. *)
Definition item_at (s : system) (i : Z) : option task :=
  match deref_array (deque s) (array_ (deque s)) with Some arr => get arr i | None => None end.

(** C4 The deque is linearisable.  Whatever one owner, any number of thieves and the users
    of the epoch manager do, in any interleaving of their accesses and up to the first
    access that is undefined, the calls and returns are a history of the atomic deque: each
    operation takes effect once, between its call and its return, on one list, in which the
    owner appends and removes at the end and thieves remove at the front.  A pop returns
    nothing only when the list is empty at that moment; a steal only when it is empty, or
    another thread took the front after the steal was called, or the list has one item that
    the owner is popping.  The list is what the array holds from [top_] to the bottom, and
    the indices stay below the number of pushes, at most [2^62]. *)
Theorem deque_refines_list k n acts :
  0 <= k <= 62 -> pushes acts <= 2 ^ 62 ->
  let '(s, es, _) := run (new_system k n) acts in
  exists A, history (empty_deque n) es A /\
    0 <= top_ (deque s) /\ bottom_of s = top_ (deque s) + Z.of_nat (length (items A)) /\ bottom_of s <= pushes acts /\
    forall j x, items A !! j = Some x -> item_at s (top_ (deque s) + Z.of_nat j) = Some x.
Proof.
  intros Hk Hn. pose proof (run_from_new k n acts Hk Hn) as HR. destruct (run (new_system k n) acts) as [[s es] en].
  destruct HR as (A & HH & Hi & Hl & _). destruct (i_owner _ _ Hi) as (arr & Hh & _). exists A. split; [exact HH|].
  split; [apply Hh|]. split; [apply Hh|]. split; [unfold limit in Hl; destruct (call_of s); lia|].
  intros j x Hj. unfold item_at. rewrite (h_array _ _ _ Hh). apply (h_items _ _ _ Hh), Hj.
Qed.

(** ** Every task once *)

(** The tasks whose push returned, and those that a pop or a steal returned. *)
Definition pushed (es : list event) : list task := flat_map (fun e => match e with Pushed x => [x] | _ => [] end) es.
Definition taken (es : list event) : list task :=
  flat_map (fun e => match e with Popped (Some x) | Stolen _ (Some x) => [x] | _ => [] end) es.

(** The tasks that have been taken by calls that have not returned. *)
Definition popping (c : owner_status) : list task := match c with Pop_done (Some x) => [x] | _ => [] end.
Definition stealing (pc : thief_pc) : list task := match pc with Steal_return (Some x) => [x] | _ => [] end.
Definition in_flight (s : system) : list task := popping (call_of s) ++ flat_map stealing (thieves s).

Definition stolen (c : thief_status) : list task := match c with Steal_done (Some x) => [x] | _ => [] end.
Definition pushing (c : owner_status) : list task := match c with Push_done x => [x] | _ => [] end.
Definition out_of (A : atomic_deque) : list task := popping (owner_call A) ++ flat_map stolen (thief_calls A).

(** Bags of tasks, compared by counting. *)
Ltac count_tasks y :=
  repeat match goal with H : Permutation _ _ |- _ => apply (Permutation_count_occ Nat.eq_dec) with (x := y) in H end;
  unfold task in *; repeat (progress (rewrite ?count_occ_app in *; cbn [count_occ] in *)); repeat destruct (Nat.eq_dec _ _).

Ltac bags := apply (Permutation_count_occ Nat.eq_dec); let y := fresh "y" in intros y; count_tasks y; lia.

Lemma stolen_front ts : flat_map stolen (front_taken <$> ts) = flat_map stolen ts.
Proof. induction ts as [|c ts IH]; [reflexivity|]. cbn. rewrite IH. destruct c; reflexivity. Qed.

Lemma stolen_insert ts i c c' : ts !! i = Some c ->
  Permutation (stolen c ++ flat_map stolen (<[i := c']> ts)) (stolen c' ++ flat_map stolen ts).
Proof.
  revert i. induction ts as [|c0 ts IH]; intros [|i] E; cbn in E; try discriminate.
  - injection E as ->. cbn. bags.
  - specialize (IH i E). change (<[S i := c']> (c0 :: ts)) with (c0 :: <[i := c']> ts). cbn [flat_map]. bags.
Qed.

(** Tasks neither appear nor vanish when an operation takes effect, or in a call or return. *)
Lemma effect_bag A A' : takes_effect A A' ->
  Permutation (items A ++ out_of A ++ pushing (owner_call A')) (items A' ++ out_of A' ++ pushing (owner_call A)).
Proof.
  unfold out_of. intros H. destruct H as [l x ts|l x ts _|x ts|ts|x l c ts i raced E|l c ts i raced E _]; cbn [items owner_call thief_calls popping pushing app].
  - bags.
  - bags.
  - rewrite stolen_front. bags.
  - bags.
  - assert (E' : (front_taken <$> ts) !! i = Some (Stealing true)) by (rewrite list_lookup_fmap, E; reflexivity).
    pose proof (stolen_insert _ _ _ (Steal_done (Some x)) E') as HP. rewrite stolen_front in HP. cbn [stolen] in HP. bags.
  - pose proof (stolen_insert _ _ _ (Steal_done None) E) as HP. cbn [stolen] in HP. bags.
Qed.

Lemma event_bag A e A' : shows A e A' ->
  Permutation (items A ++ out_of A ++ pushed [e] ++ pushing (owner_call A')) (taken [e] ++ items A' ++ out_of A' ++ pushing (owner_call A)).
Proof.
  unfold out_of, pushed, taken. intros H. destruct H as [l x ts|l ts|l c ts i E|l x ts|l item ts|l c ts i item E]; cbn [items owner_call thief_calls popping pushing flat_map].
  - bags.
  - bags.
  - pose proof (stolen_insert _ _ _ (Stealing false) E) as HP. cbn [stolen] in HP. bags.
  - bags.
  - destruct item; bags.
  - pose proof (stolen_insert _ _ _ No_steal E) as HP. destruct item; cbn [stolen] in HP; bags.
Qed.

Lemma history_bag A es A' : history A es A' ->
  Permutation (items A ++ out_of A ++ pushed es ++ pushing (owner_call A')) (taken es ++ items A' ++ out_of A' ++ pushing (owner_call A)).
Proof.
  intros H. induction H as [A|A A1 es A' H1 _ IH|A e A1 es A' H1 _ IH].
  - unfold pushed, taken. cbn. bags.
  - pose proof (effect_bag _ _ H1) as HP. bags.
  - pose proof (event_bag _ _ _ H1) as HP. unfold pushed, taken in *. cbn [flat_map] in *. bags.
Qed.

(** The calls of the machine have taken what those of the atomic deque have. *)
Lemma out_of_flight s A : inv s A -> out_of A = in_flight s.
Proof.
  intros [_ Hc Hts]. unfold out_of, in_flight. rewrite Hc. f_equal. induction Hts as [|pc c pcs cs H _ IH]; [reflexivity|]. cbn. rewrite IH. f_equal.
  destruct pc, c; cbn in H; try contradiction; try reflexivity. subst. reflexivity.
Qed.

Lemma never_pushing s : pushing (call_of s) = [].
Proof. unfold call_of. destruct (owner s); try reflexivity; try (destruct k as [[[? ?] ?]|]; reflexivity). destruct (_ <? _); reflexivity. Qed.

(** C13 Every task is taken exactly once: the tasks whose push returned are, as a multiset,
    those that returned from a pop or a steal, those that a call has taken but not yet
    returned, and those still in the deque.  So no task is lost or handed to two workers,
    in every interleaving up to its first undefined access (the read by a thief of an array
    that was deleted, which the epoch manager does not exclude). *)
Theorem tasks_taken_once k n acts :
  0 <= k <= 62 -> pushes acts <= 2 ^ 62 ->
  let '(s, es, _) := run (new_system k n) acts in
  exists l, Permutation (pushed es) (taken es ++ in_flight s ++ l) /\
    bottom_of s = top_ (deque s) + Z.of_nat (length l) /\
    forall j x, l !! j = Some x -> item_at s (top_ (deque s) + Z.of_nat j) = Some x.
Proof.
  intros Hk Hn. pose proof (run_from_new k n acts Hk Hn) as HR. destruct (run (new_system k n) acts) as [[s es] en].
  destruct HR as (A & HH & Hi & _). destruct (i_owner _ _ Hi) as (arr & Hh & _). exists (items A). split; [|split; [apply Hh|]].
  - pose proof (history_bag _ _ _ HH) as HP. rewrite (out_of_flight _ _ Hi), (i_call _ _ Hi), never_pushing in HP.
    unfold empty_deque, out_of in HP. cbn [items owner_call thief_calls popping pushing] in HP.
    assert (E : flat_map stolen (replicate n No_steal) = []) by (clear; induction n; [reflexivity|assumption]). rewrite E in HP. bags.
  - intros j x Hj. unfold item_at. rewrite (h_array _ _ _ Hh). apply (h_items _ _ _ Hh), Hj.
Qed.

(** ** Coming back with nothing *)

(** C39 A call comes back with nothing only when there is a reason: when a pop gives up the
    deque is empty; when a steal does, either another thread took an item since it began,
    or the deque is empty but for an item that the owner is popping. *)
Theorem misses_are_justified k n acts s es en :
  0 <= k <= 62 -> pushes acts <= 2 ^ 62 -> run (new_system k n) acts = (s, es, en) ->
  (forall s' e, step s StepOwner = Next s' e -> owner s' = Pop_return None \/ (exists b, owner s' = Pop_restore b None) ->
     bottom_of s = top_ (deque s)) /\
  (forall i s' e, step s (StepThief i) = Next s' e -> thieves s' !! i = Some (Steal_return None) ->
     (exists t item, thieves s !! i = Some (Steal_item t item) /\ t < top_ (deque s)) \/
     (bottom_ (deque s) <= top_ (deque s) /\ bottom_of s <= top_ (deque s) + 1)).
Proof.
  intros Hk Hn Hr. pose proof (run_from_new k n acts Hk Hn) as HR. rewrite Hr in HR. destruct HR as (A & _ & Hi & _).
  destruct (i_owner _ _ Hi) as (arr & Hh & Ho). pose proof (h_length _ _ _ Hh) as HL. split.
  - intros s' e He Hw. cbn [step] in He. unfold owner_step, copy_turn, copy_store, retireArray, reclaimRetired, with_array, owner_at, owner_returns, owner_shows in He.
    unfold owner_ok in Ho. unfold bottom_of in *.
    destruct (owner s) as [| | | | | | | |k0|k0| | | | | | | |b a t|b item|b item|item] eqn:Eo; try discriminate;
      try (repeat case_match; try discriminate; injection He as <- <-; cbn in Hw; destruct Hw as [Hw|[b' Hw]]; discriminate Hw).
    + destruct Ho as (-> & -> & Ht & Hg). rewrite (h_array _ _ _ Hh) in He.
      destruct (Z.leb_spec t (bottom_ (deque s))).
      * destruct (Z.eqb_spec t (bottom_ (deque s))) as [E|N]; injection He as <- <-; cbn in Hw;
          [destruct Hw as [Hw|[b' Hw]]; discriminate Hw|].
        destruct (Hg ltac:(lia)) as [x Hx]. rewrite Hx in Hw. destruct Hw as [Hw|[b' Hw]]; discriminate Hw.
      * destruct (Z.ltb_spec t (bottom_ (deque s))); lia.
    + destruct Ho as (-> & Ht & Hit). destruct (Z.eqb_spec (top_ (deque s)) (bottom_ (deque s))) as [E|N]; [|lia].
      destruct (items A) as [|x l0] eqn:El; [cbn in HL; lia|]. pose proof (holds_first _ _ _ _ Hh) as Hx. rewrite E in Hx.
      injection He as <- <-. rewrite (Hit E), Hx in Hw. cbn in Hw. destruct Hw as [Hw|[b' Hw]]; discriminate Hw.
    + lia.
  - intros i s' e He Hw. cbn [step] in He. unfold thief_step, with_array, thief_at in He.
    destruct (thieves s !! i) as [pc|] eqn:E; [|discriminate]. pose proof (lookup_lt_Some _ _ _ E) as Hlt.
    destruct (Forall2_lookup_l _ _ _ _ _ (i_thieves _ _ Hi) E) as (c & Ec & Hc).
    assert (Hw' : forall d pc e', Next (mkSystem d (owner s) (<[i := pc]> (thieves s)) (epochs s)) e' = Next s' e -> pc = Steal_return None).
    { intros d pc' e' [= <- _]. cbn in Hw. rewrite list_lookup_insert_eq in Hw by exact Hlt. congruence. }
    destruct pc as [| |t|t|t a|t item|item], c as [|raced|item']; cbn [thief_ok] in Hc; try contradiction; try discriminate.
    + apply Hw' in He. discriminate.
    + right. apply Hw' in He. destruct (Z.ltb_spec t (bottom_ (deque s))); [discriminate|].
      destruct (bottom_cases s A arr Hi Hh Ho) as [HB|[HB _]]; lia.
    + apply Hw' in He. discriminate.
    + destruct (deref_array (deque s) a); [|discriminate]. apply Hw' in He. discriminate.
    + left. exists t, item. split; [reflexivity|]. destruct Hc as [[Ht _] Hx].
      destruct (Z.eqb_spec (top_ (deque s)) t) as [Et|N]; [|lia].
      destruct (Hx (eq_sym Et)) as (x & l0 & _ & ->). apply Hw' in He. discriminate.
    + apply Hw' in He. discriminate.
Qed.

(** ** Deleted arrays *)














(** ** What the code gets wrong *)

(** Three calls of [tryAdvanceEpoch] first; then, while a thief inside a critical section is
    about to read the array, the owner grows it and reclaims it. *)
Definition premature : list action :=
  repeat TryAdvanceEpoch 3 ++ [RegisterThread] ++ CallPush 1%nat :: repeat StepOwner 6 ++
  [EnterCritical 0%nat; CallSteal 0%nat] ++ repeat (StepThief 0%nat) 3 ++ CallPush 2%nat :: repeat StepOwner 11 ++
  [TryAdvanceEpoch; CallReclaim; StepOwner; StepOwner; StepOwner].

(** One access of another thread that is in [push], as a second owner. *)
Definition step_as (pc : owner_pc) (s : system) : option (owner_pc * system) :=
  match owner_step (mkSystem (deque s) pc (thieves s) (epochs s)) with
  | Next s' _ => Some (owner s', mkSystem (deque s') (owner s) (thieves s') (epochs s'))
  | _ => None
  end.

Fixpoint steps_as (n : nat) (pc : owner_pc) (s : system) : option system :=
  match n with O => Some s | S n' => match step_as pc s with Some (pc', s') => steps_as n' pc' s' | None => None end end.

(** [grow] stamps the epoch on the new array, so an array is retired with the epoch of its
    creation: the one a thief holds is deleted, although the thief entered its critical
    section before the array was retired and has not left it, and the thief then reads it.
    A thread that left a critical section looks like a free slot, so the next thread to
    register gets the slot of one that is still registered.  And the scheduler's [submit]
    pushes to the deque of a worker from other threads: when such a push runs between two
    accesses of the owner's, the deque holds one task where two were pushed. *)
Lemma deque_edge_cases :
  (let '(s, _, en) := run (new_system 1 1) premature in
   en = Completed /\ thieves s = [Steal_array 0 0%nat] /\ thread_epochs_ (epochs s) !! 0%nat = Some 3 /\ deref_array (deque s) 0%nat = None /\
   snd (run s [StepThief 0%nat]) = Undefined_at (StepThief 0%nat)) /\
  (let '(i, m) := registerThread new_epochs in let '(j, _) := registerThread (exitCritical i (enterCritical i m)) in (i, j) = (0%nat, 0%nat)) /\
  (let '(s1, _, _) := run (new_system 1 0) [CallPush 10%nat; StepOwner] in
   match steps_as 6 (Push_start 11%nat) s1 with
   | Some s2 => let '(s3, es, en) := run s2 (repeat StepOwner 5) in en = Completed /\ es = [Pushed 10%nat] /\ deque_size (deque s3) = 1
   | None => False
   end).
Proof.
  split; [vm_compute; repeat split|]. split; [vm_compute; reflexivity|]. vm_compute. repeat split.
Qed.

(** ** Witnesses *)

(** Three pushes, the second of which grows the array; a thief steals the first task, the
    owner pops the last one, another thief loses the race for the first task and a third
    finds nothing to read. *)
Definition schedule : list action :=
  CallPush 10%nat :: repeat StepOwner 6 ++ CallPush 11%nat :: repeat StepOwner 11 ++ CallPush 12%nat :: repeat StepOwner 6 ++
  [CallSteal 0%nat; CallSteal 1%nat] ++ repeat (StepThief 1%nat) 4 ++ repeat (StepThief 0%nat) 6 ++ repeat (StepThief 1%nat) 2 ++
  CallPop :: repeat StepOwner 6.

Definition after (s : system) (acts : list action) : system := fst (fst (run s acts)).
Definition returned (s : system) (acts : list action) : list event := snd (fst (run s acts)).
Definition ended (s : system) (acts : list action) : ending := snd (run s acts).

Lemma run_parts s acts : run s acts = (after s acts, returned s acts, ended s acts).
Proof. unfold after, returned, ended. destruct (run s acts) as [[? ?] ?]. reflexivity. Qed.

Lemma small_capacity : 0 <= 1 <= 62.
Proof. lia. Qed.

Lemma few_pushes acts : (pushes acts <=? 2 ^ 62) = true -> pushes acts <= 2 ^ 62.
Proof. apply Z.leb_le. Qed.

Lemma deque_refines_list_witness :
  returned (new_system 1 2) schedule = [PushCall 10%nat; Pushed 10%nat; PushCall 11%nat; Pushed 11%nat; PushCall 12%nat; Pushed 12%nat; StealCall 0; StealCall 1;
                                        Stolen 0 (Some 10%nat); Stolen 1 None; PopCall; Popped (Some 12%nat)] /\
  exists A, history (empty_deque 2) (returned (new_system 1 2) schedule) A /\ length (items A) = 1%nat.
Proof.
  split; [vm_compute; reflexivity|].
  pose proof (deque_refines_list 1 2 schedule small_capacity (few_pushes schedule eq_refl)) as H. rewrite run_parts in H.
  assert (E1 : bottom_of (after (new_system 1 2) schedule) = 2) by (vm_compute; reflexivity).
  assert (E2 : top_ (deque (after (new_system 1 2) schedule)) = 1) by (vm_compute; reflexivity). destruct H as (A & H1 & _ & H2 & _). exists A. split; [exact H1|lia].
Defined.

Lemma tasks_taken_once_witness :
  exists l, Permutation (pushed (returned (new_system 1 2) schedule))
    (taken (returned (new_system 1 2) schedule) ++ in_flight (after (new_system 1 2) schedule) ++ l) /\ length l = 1%nat.
Proof.
  pose proof (tasks_taken_once 1 2 schedule small_capacity (few_pushes schedule eq_refl)) as H. rewrite run_parts in H.
  assert (E1 : bottom_of (after (new_system 1 2) schedule) = 2) by (vm_compute; reflexivity).
  assert (E2 : top_ (deque (after (new_system 1 2) schedule)) = 1) by (vm_compute; reflexivity). destruct H as (l & H1 & H2 & _). exists l. split; [exact H1|lia].
Defined.

(** The thief that lost the race is about to give up. *)
Definition lost_race : list action := firstn 38 schedule.

Lemma misses_are_justified_witness :
  let s := after (new_system 1 2) lost_race in
  exists s' e, step s (StepThief 1) = Next s' e /\ thieves s' !! 1%nat = Some (Steal_return None) /\
    ((exists t item, thieves s !! 1%nat = Some (Steal_item t item) /\ t < top_ (deque s)) \/
     (bottom_ (deque s) <= top_ (deque s) /\ bottom_of s <= top_ (deque s) + 1)).
Proof.
  intros s. eexists _, _. split; [vm_compute; reflexivity|]. split; [reflexivity|].
  refine (proj2 (misses_are_justified 1 2 lost_race s (returned (new_system 1 2) lost_race) Completed small_capacity (few_pushes lost_race eq_refl) _) 1%nat _ _ _ _);
    [vm_compute; reflexivity|vm_compute; reflexivity|reflexivity].
Defined.


