(* ===== verification/Dispatch.v ===== *)
(** * Numeric dispatch on tagged values

    The entry points generated code calls for arithmetic beyond machine integers:
    the tagged-value parts of lib/core/rational.cpp and lib/core/bignum.cpp.  They
    inspect the type codes of their operands, promote them, compute, and demote
    the result to its smallest representation. *)

From Stdlib Require Import String ZArith List Lia Bool.
From S2P Require Import Prelude Effects Limbs KnuthD Bignum BignumString BignumBits Arena Rational Tagged Doubles.
Import ListNotations.
Open Scope Z_scope.
Open Scope effect_scope.

(** ** Operands *)

(** The 64-bit payload of a tagged value: raw bits, or a pointer, kept as the
    object it points to; numeric objects are immutable once returned, so their
    address is not observable here. *)
Inductive payload : Type :=
| Bits (raw : Z)
| Ref (o : option object).

(** A tagged value with the pointed-to object in place of its address. *)
Record number : Type := mkNumber {
  ntype : Z;
  nflags : Z;
  ndata : payload;
}.

Definition ESHKOL_VALUE_EXACT_FLAG : Z := 16.
Definition ESHKOL_VALUE_INEXACT_FLAG : Z := 32.

Definition eshkol_make_int64 (val : Z) (exact : bool) : number :=
  mkNumber ESHKOL_VALUE_INT64 (if exact then ESHKOL_VALUE_EXACT_FLAG else 0) (Bits (u64 val)).

Definition eshkol_make_double (bits : Z) : number :=
  mkNumber ESHKOL_VALUE_DOUBLE ESHKOL_VALUE_INEXACT_FLAG (Bits bits).

Definition heap_ref (flags : Z) (o : option object) : number :=
  mkNumber ESHKOL_VALUE_HEAP_PTR flags (Ref o).

(** [data.int_val] of a value that is not a pointer; a null pointer reads 0. *)
Definition int_of (v : number) : Z :=
  match ndata v with Bits raw => s64 raw | Ref _ => 0 end.

(** [data.double_val]. *)
Definition double_of (v : number) : Z :=
  match ndata v with Bits raw => raw | Ref _ => 0 end.

(** [data.ptr_val != 0]. *)
Definition ptr_nonnull (v : number) : bool :=
  match ndata v with
  | Bits raw => negb (raw =? 0)
  | Ref (Some _) => true
  | Ref None => false
  end.

Definition is_heap (v : number) : bool := ntype v =? ESHKOL_VALUE_HEAP_PTR.
Definition is_int64 (v : number) : bool := ntype v =? ESHKOL_VALUE_INT64.
Definition is_double (v : number) : bool := ntype v =? ESHKOL_VALUE_DOUBLE.

Section Dispatch.
  Context {St : Type} {A : Arena St}.

(** Read of the object behind the pointer. *)
Definition pointee (v : number) : M St object :=
  match ndata v with
  | Ref (Some o) => ret o
  | _ => crash
  end.

(** The pointer cast to [eshkol_bignum_t*]; an object of another kind is misread. *)
Definition as_bignum (v : number) : M St (option bignum) :=
  match ndata v with
  | Ref None => ret None
  | Ref (Some (obj_bignum b)) => ret (Some b)
  | _ => crash
  end.

(** ** Rationals (rational.cpp) *)

(** The header byte before the data is read without a null check. *)
Definition eshkol_is_rational_tagged (v : number) : M St bool :=
  if negb (is_heap v) then ret false
  else
    let! o := pointee v in
    ret (subtype_of o =? HEAP_SUBTYPE_RATIONAL).

(** [0xFF] when there is no object. *)
Definition tagged_heap_subtype (v : number) : M St Z :=
  if negb (is_heap v) || negb (ptr_nonnull v) then ret 255
  else
    let! o := pointee v in
    ret (subtype_of o).

Definition eshkol_rational_to_double (r : rational) : Z :=
  if negb (is_big r =? 0) then
    double_div (eshkol_bignum_to_double (big_num r)) (eshkol_bignum_to_double (big_den r))
  else double_div (double_of_Z (numerator r)) (double_of_Z (denominator r)).

Definition tagged_exact_to_rational (v : number) : M St (option rational) :=
  if is_int64 v then
    let! r := eshkol_rational_create (int_of v) 1 in ret (Some r)
  else if is_heap v && ptr_nonnull v then
    let! o := pointee v in
    match o with
    | obj_rational r => ret (Some r)
    | obj_bignum b =>
      let! one := eshkol_bignum_from_int64 1 in
      let! r := eshkol_rational_create_bn (Some b) one in
      ret (Some r)
    | _ => ret None
    end
  else ret None.

Definition rational_result_to_tagged (rat : rational) : number :=
  if negb (is_big rat =? 0) then
    heap_ref ESHKOL_VALUE_EXACT_FLAG
      (if bn_equals_i64 (big_den rat) 1 then option_map obj_bignum (big_num rat)
       else Some (obj_rational rat))
  else if denominator rat =? 1 then mkNumber ESHKOL_VALUE_INT64 0 (Bits (u64 (numerator rat)))
  else heap_ref 0 (Some (obj_rational rat)).

Definition tagged_any_to_double (v : number) : M St Z :=
  if is_int64 v then ret (double_of_Z (int_of v))
  else if is_double v then ret (double_of v)
  else
    let! subtype := tagged_heap_subtype v in
    if subtype =? HEAP_SUBTYPE_RATIONAL then
      let! o := pointee v in
      match o with obj_rational r => ret (eshkol_rational_to_double r) | _ => crash end
    else if subtype =? HEAP_SUBTYPE_BIGNUM then
      let! b := as_bignum v in ret (eshkol_bignum_to_double b)
    else ret double_zero.

(** op: 0 add, 1 sub, 2 mul, 3 div. *)
Definition eshkol_rational_binary_tagged (a b : number) (op : Z) : M St number :=
  if is_double a || is_double b then
    let! da := tagged_any_to_double a in
    let! db := tagged_any_to_double b in
    ret (mkNumber ESHKOL_VALUE_DOUBLE 0 (Bits
      (if op =? 0 then double_add da db
       else if op =? 1 then double_sub da db
       else if op =? 2 then double_mul da db
       else if op =? 3 then double_div da db
       else double_zero)))
  else
    let! ra := tagged_exact_to_rational a in
    let! rb := tagged_exact_to_rational b in
    match ra, rb with
    | Some ra, Some rb =>
      let! rr := (if op =? 0 then eshkol_rational_add ra rb
                  else if op =? 1 then eshkol_rational_sub ra rb
                  else if op =? 2 then eshkol_rational_mul ra rb
                  else if op =? 3 then eshkol_rational_div ra rb
                  else eshkol_rational_create 0 1) in
      ret (rational_result_to_tagged rr)
    | _, _ => ret (mkNumber ESHKOL_VALUE_INT64 0 (Bits 0))
    end.

Definition eshkol_rational_from_bignums_tagged (num denom : option bignum) : M St number :=
  let! rr := eshkol_rational_create_bn num denom in
  ret (rational_result_to_tagged rr).

Definition make_operand_bignum (v : number) : M St (option bignum) :=
  if is_int64 v then eshkol_bignum_from_int64 (int_of v)
  else
    let! subtype := tagged_heap_subtype v in
    if subtype =? HEAP_SUBTYPE_BIGNUM then as_bignum v else eshkol_bignum_from_int64 0.

Definition eshkol_rational_make_tagged (num den : number) : M St number :=
  let! bn := make_operand_bignum num in
  let! bd := make_operand_bignum den in
  eshkol_rational_from_bignums_tagged bn bd.

(** The verdict of a comparison; op: 0 lt, 1 gt, 2 eq, 3 le, 4 ge. *)
Definition compare_verdict (op cmp : Z) : bool :=
  if op =? 0 then cmp <? 0
  else if op =? 1 then cmp >? 0
  else if op =? 2 then cmp =? 0
  else if op =? 3 then cmp <=? 0
  else if op =? 4 then cmp >=? 0
  else false.

Definition double_verdict (op a b : Z) : bool :=
  if op =? 0 then double_lt a b
  else if op =? 1 then double_lt b a
  else if op =? 2 then double_eq a b
  else if op =? 3 then double_le a b
  else if op =? 4 then double_le b a
  else false.

Definition make_bool (flags : Z) (b : bool) : number :=
  mkNumber ESHKOL_VALUE_BOOL flags (Bits (if b then 1 else 0)).

Definition eshkol_rational_compare_tagged_ptr (a b : number) (op : Z) : M St number :=
  if is_double a || is_double b then
    let! da := tagged_any_to_double a in
    let! db := tagged_any_to_double b in
    ret (make_bool 0 (double_verdict op da db))
  else
    let! ra := tagged_exact_to_rational a in
    let! rb := tagged_exact_to_rational b in
    match ra, rb with
    | Some ra, Some rb =>
      let! cmp := eshkol_rational_compare ra rb in
      ret (make_bool 0 (compare_verdict op cmp))
    | _, _ => ret (make_bool 0 false)
    end.

Definition bignum_to_tagged_int (b : option bignum) : number :=
  match eshkol_bignum_fits_int64 b with
  | Some v => mkNumber ESHKOL_VALUE_INT64 0 (Bits (u64 v))
  | None => heap_ref ESHKOL_VALUE_EXACT_FLAG (option_map obj_bignum b)
  end.

Definition eshkol_rational_numerator_tagged (v : number) : M St number :=
  if is_heap v && ptr_nonnull v then
    let! o := pointee v in
    match o with
    | obj_rational r =>
      ret (if negb (is_big r =? 0) then bignum_to_tagged_int (big_num r)
           else mkNumber ESHKOL_VALUE_INT64 0 (Bits (u64 (numerator r))))
    | _ => ret v
    end
  else ret v.

Definition eshkol_rational_denominator_tagged (v : number) : M St number :=
  let one := mkNumber ESHKOL_VALUE_INT64 0 (Bits 1) in
  if is_heap v && ptr_nonnull v then
    let! o := pointee v in
    match o with
    | obj_rational r =>
      ret (if negb (is_big r =? 0) then bignum_to_tagged_int (big_den r)
           else mkNumber ESHKOL_VALUE_INT64 0 (Bits (u64 (denominator r))))
    | _ => ret one
    end
  else ret one.

(** Printing a rational: "n/d", or "n" for an integer. *)
Definition print_s64 (v : Z) : list Z :=
  if v <? 0 then chr_minus :: print_u64 (u64 (- v)) else print_u64 v.

Definition chr_slash : Z := 47.

Definition eshkol_rational_to_string (rat : rational) : M St (option (list Z)) :=
  if negb (is_big rat =? 0) then
    let! num_s := eshkol_bignum_to_string (big_num rat) in
    if bn_equals_i64 (big_den rat) 1 then ret num_s
    else
      let! den_s := eshkol_bignum_to_string (big_den rat) in
      let n := match num_s with Some t => t | None => [] end in
      let d := match den_s with Some t => t | None => [] end in
      let text := n ++ chr_slash :: d in
      check! _ := allocate_string_with_header (Z.of_nat (length text)) in
      ret (Some text)
  else
    let text := if denominator rat =? 1 then print_s64 (numerator rat)
                else print_s64 (numerator rat) ++ chr_slash :: print_s64 (denominator rat) in
    check! _ := allocate_string_with_header (Z.of_nat (length text)) in
    ret (Some text).

(** The characters written to the file. *)
Definition eshkol_rational_display (rat : rational) : option (list Z) :=
  if negb (is_big rat =? 0) then
    match eshkol_bignum_display (big_num rat), eshkol_bignum_display (big_den rat) with
    | Some n, Some d => Some (if bn_equals_i64 (big_den rat) 1 then n else n ++ chr_slash :: d)
    | _, _ => None
    end
  else
    Some (if denominator rat =? 1 then print_s64 (numerator rat)
          else print_s64 (numerator rat) ++ chr_slash :: print_s64 (denominator rat)).

(** ** Integers (bignum.cpp) *)

(** [ESHKOL_IS_BIGNUM]. *)
Definition eshkol_is_bignum_tagged (v : number) : M St bool :=
  if is_heap v && ptr_nonnull v then
    let! o := pointee v in
    ret (subtype_of o =? HEAP_SUBTYPE_BIGNUM)
  else ret false.

(** Any heap pointer is taken for a bignum. *)
Definition tagged_to_bignum (v : number) : M St (option bignum) :=
  if is_heap v && ptr_nonnull v then as_bignum v
  else if is_int64 v then eshkol_bignum_from_int64 (int_of v)
  else ret None.

Definition zero_result : number := eshkol_make_int64 0 true.

(** The result as [int64_t] when it fits, as a bignum otherwise. *)
Definition demote (r : bignum) : number :=
  match eshkol_bignum_fits_int64 (Some r) with
  | Some v => eshkol_make_int64 v true
  | None => heap_ref ESHKOL_VALUE_EXACT_FLAG (Some (obj_bignum r))
  end.

Definition demote_or_zero (r : option bignum) : number :=
  match r with Some r => demote r | None => zero_result end.

(** A double operand, or another operand converted. *)
Definition operand_double (v : number) : M St Z :=
  if is_double v then ret (double_of v)
  else if is_heap v && ptr_nonnull v then
    let! b := as_bignum v in ret (eshkol_bignum_to_double b)
  else ret (double_of_Z (int_of v)).

(** Floor modulo from the truncated remainder. *)
Definition modulo_bignum (a b : bignum) : M St (option bignum) :=
  let! m := eshkol_bignum_mod (Some a) (Some b) in
  match m with
  | Some x =>
    if negb (eshkol_bignum_is_zero m) && negb (sign x =? sign b) then eshkol_bignum_add m (Some b)
    else ret m
  | None => ret None
  end.

(** op: 0 add, 1 sub, 2 mul, 3 div, 4 modulo, 5 quotient, 6 remainder, 7 neg. *)
Definition eshkol_bignum_binary_tagged (left right : number) (op : Z) : M St number :=
  let! left_rat := eshkol_is_rational_tagged left in
  let! right_rat := eshkol_is_rational_tagged right in
  if left_rat || right_rat then
    if (op >=? 0) && (op <=? 3) then eshkol_rational_binary_tagged left right op
    else if op =? 7 then eshkol_rational_binary_tagged zero_result left 1
    else ret zero_result
  else if op =? 7 then
    let! a := tagged_to_bignum left in
    match a with
    | None => ret zero_result
    | Some _ =>
      let! r := eshkol_bignum_neg a in
      ret (heap_ref ESHKOL_VALUE_EXACT_FLAG (option_map obj_bignum r))
    end
  else if is_double left || is_double right then
    let! ld := operand_double left in
    let! rd := operand_double right in
    ret (eshkol_make_double
      (if op =? 0 then double_add ld rd
       else if op =? 1 then double_sub ld rd
       else if op =? 2 then double_mul ld rd
       else if op =? 3 then (if negb (double_eq rd double_zero) then double_div ld rd else double_zero)
       else double_zero))
  else
    let! a := tagged_to_bignum left in
    let! b := tagged_to_bignum right in
    match a, b with
    | Some x, Some y =>
      if op =? 0 then let! r := eshkol_bignum_add a b in ret (demote_or_zero r)
      else if op =? 1 then let! r := eshkol_bignum_sub a b in ret (demote_or_zero r)
      else if op =? 2 then let! r := eshkol_bignum_mul a b in ret (demote_or_zero r)
      else if op =? 3 then
        if eshkol_bignum_is_zero b
        then raise ESHKOL_EXCEPTION_DIVIDE_BY_ZERO "bignum division by zero"%string
        else eshkol_rational_from_bignums_tagged a b
      else if op =? 4 then let! r := modulo_bignum x y in ret (demote_or_zero r)
      else if op =? 5 then let! r := eshkol_bignum_div a b in ret (demote_or_zero r)
      else if op =? 6 then let! r := eshkol_bignum_mod a b in ret (demote_or_zero r)
      else ret zero_result
    | _, _ => ret zero_result
    end.

(** The Euclidean loop of [eshkol_gcd_tagged]. *)
Fixpoint gcd_tagged_loop (fuel : nat) (x y : bignum) : M St bignum :=
  if eshkol_bignum_is_zero (Some y) then ret x
  else
    match fuel with
    | O => diverge
    | S fuel' =>
      let! rem := eshkol_bignum_mod (Some x) (Some y) in
      match rem with
      | None => ret y
      | Some r => gcd_tagged_loop fuel' y (magnitude r)
      end
    end.

(** The fuel is two rounds per bit of the second operand. *)
Definition eshkol_gcd_tagged (left right : number) : M St number :=
  let! a := tagged_to_bignum left in
  let! b := tagged_to_bignum right in
  match a, b with
  | Some x, Some y =>
    let! ga := (if negb (sign x =? 0) then eshkol_bignum_neg a else ret a) in
    let! gb := (if negb (sign y =? 0) then eshkol_bignum_neg b else ret b) in
    match ga, gb with
    | Some ga, Some gb =>
      let! g := gcd_tagged_loop (128 * num_limbs gb + 2) ga gb in
      ret (demote (magnitude g))
    | _, _ => ret zero_result
    end
  | _, _ => ret zero_result
  end.

(** The comparison uses no arena, except on rationals. *)
Definition eshkol_bignum_compare_tagged (left right : number) (op : Z) : M St number :=
  let! left_rat := eshkol_is_rational_tagged left in
  let! rat := (if left_rat then ret true else eshkol_is_rational_tagged right) in
  if rat then eshkol_rational_compare_tagged_ptr left right op
  else if is_double left || is_double right then
    let to_double := fun v =>
      if is_double v then ret (double_of v)
      else if is_heap v then let! b := as_bignum v in ret (eshkol_bignum_to_double b)
      else ret (double_of_Z (int_of v)) in
    let! ld := to_double left in
    let! rd := to_double right in
    ret (make_bool ESHKOL_VALUE_EXACT_FLAG (double_verdict op ld rd))
  else
    let! cmp := (if is_heap left && is_heap right then
                   let! x := as_bignum left in
                   let! y := as_bignum right in
                   ret (eshkol_bignum_compare x y)
                 else if is_heap left then
                   let! x := as_bignum left in
                   let! x := deref x in
                   ret (eshkol_bignum_compare_int64 x (int_of right))
                 else
                   let! y := as_bignum right in
                   let! y := deref y in
                   ret (- eshkol_bignum_compare_int64 y (int_of left))) in
    ret (make_bool ESHKOL_VALUE_EXACT_FLAG (compare_verdict op cmp)).

(** [pow] of the C library, on bits. *)
  Variable pow : Z -> Z -> Z.

Definition pow_fallback (base exponent : number) : M St number :=
  let! bd := operand_double base in
  let ed := if is_double exponent then double_of exponent else double_of_Z (int_of exponent) in
  ret (eshkol_make_double (pow bd ed)).

Definition eshkol_bignum_pow_tagged (base exponent : number) : M St number :=
  let! null := is_null_arena in
  if null then ret zero_result
  else
    let! base_is_bignum := eshkol_is_bignum_tagged base in
    if (is_int64 base || base_is_bignum) && is_int64 exponent then
      let! bn_base := (if base_is_bignum then as_bignum base
                       else eshkol_bignum_from_int64 (int_of base)) in
      if int_of exponent >=? 0 then
        match bn_base with
        | None => ret zero_result
        | Some _ => let! r := eshkol_bignum_pow bn_base (u64 (int_of exponent)) in ret (demote_or_zero r)
        end
      else
        let mag := u64 (0 - u64 (int_of exponent)) in
        match bn_base with
        | None => pow_fallback base exponent
        | Some _ =>
          let! p := eshkol_bignum_pow bn_base mag in
          match eshkol_bignum_fits_int64 p with
          | Some denom =>
            if denom =? 0
            then raise ESHKOL_EXCEPTION_DIVIDE_BY_ZERO "expt: 0 raised to a negative power"%string
            else
              let! rat := eshkol_rational_create 1 denom in
              ret (heap_ref ESHKOL_VALUE_EXACT_FLAG (Some (obj_rational rat)))
          | None => pow_fallback base exponent
          end
        end
    else pow_fallback base exponent.

(** The local [to_bignum] of [eshkol_bignum_bitwise_tagged]. *)
Definition bitwise_operand (v : number) : M St (option bignum) :=
  let! big := eshkol_is_bignum_tagged v in
  if big then as_bignum v
  else if is_int64 v then eshkol_bignum_from_int64 (int_of v)
  else ret None.

(** op: 0 and, 1 or, 2 xor, 3 not, 4 arithmetic shift; the flags are cleared. *)
Definition eshkol_bignum_bitwise_tagged (left right : number) (op : Z) : M St number :=
  let! a := bitwise_operand left in
  let binary := fun f : option bignum -> option bignum -> M St (option bignum) =>
    let! b := bitwise_operand right in
    match a, b with Some _, Some _ => f a b | _, _ => ret None end in
  let! res := (if op =? 0 then binary eshkol_bignum_bitwise_and
               else if op =? 1 then binary eshkol_bignum_bitwise_or
               else if op =? 2 then binary eshkol_bignum_bitwise_xor
               else if op =? 3 then
                 match a with Some _ => eshkol_bignum_bitwise_not a | None => ret None end
               else if op =? 4 then
                 let shift_count := if is_int64 right then int_of right else 0 in
                 match a with Some _ => eshkol_bignum_shift a shift_count | None => ret None end
               else ret None) in
  ret (match res with
       | Some r =>
         match eshkol_bignum_fits_int64 res with
         | Some v => mkNumber ESHKOL_VALUE_INT64 0 (Bits (u64 v))
         | None => heap_ref 0 (Some (obj_bignum r))
         end
       | None => mkNumber ESHKOL_VALUE_INT64 0 (Bits 0)
       end).

End Dispatch.

(** ** Reading numbers (bignum.cpp) *)

(** *** [strtoll] of the C library *)

Definition is_space (c : Z) : bool := (c =? 32) || ((9 <=? c) && (c <=? 13)).

(** The value of a character as a digit in the given base. *)
Definition digit_value (base c : Z) : option Z :=
  let d := if (48 <=? c) && (c <=? 57) then c - 48
           else if (97 <=? c) && (c <=? 122) then c - 87
           else if (65 <=? c) && (c <=? 90) then c - 55
           else 99 in
  if d <? base then Some d else None.

(** Value and number of the leading digits. *)
Fixpoint read_digits (base : Z) (s : list Z) (acc : Z) (n : nat) : Z * nat :=
  match s with
  | c :: s' =>
    match digit_value base c with
    | Some d => read_digits base s' (acc * base + d) (S n)
    | None => (acc, n)
    end
  | [] => (acc, n)
  end.

Fixpoint skip_space (s : list Z) : nat :=
  match s with
  | c :: s' => if is_space c then S (skip_space s') else O
  | [] => O
  end.

(** An optional [0x] before hexadecimal digits. *)
Definition hex_prefix (base : Z) (s : list Z) : nat :=
  match s with
  | zero :: x :: c :: _ =>
    if (zero =? chr_0) && (base =? 16) && ((x =? 120) || (x =? 88)) &&
       match digit_value 16 c with Some _ => true | None => false end then 2%nat else 0%nat
  | _ => 0%nat
  end.

(** Value, characters consumed, and whether the value was out of range. *)
Definition strtoll (base : Z) (s : list Z) : Z * nat * bool :=
  let n0 := skip_space s in
  let s1 := skipn n0 s in
  let '(neg, n1) := match s1 with
                    | c :: _ => if c =? chr_minus then (true, 1%nat)
                                else if c =? chr_plus then (false, 1%nat) else (false, 0%nat)
                    | [] => (false, 0%nat)
                    end in
  let s2 := skipn n1 s1 in
  let n2 := hex_prefix base s2 in
  let '(v, n3) := read_digits base (skipn n2 s2) 0 0 in
  if (n3 =? 0)%nat then (0, 0%nat, false)
  else
    let v := if neg then - v else v in
    let used := (n0 + n1 + n2 + n3)%nat in
    if v <? INT64_MIN then (INT64_MIN, used, true)
    else if v >? INT64_MAX then (INT64_MAX, used, true)
    else (v, used, false).

(** *** [string->number] *)

Definition chr_dot : Z := 46.
Definition chr_hash : Z := 35.
Definition is_exp (c : Z) : bool := (c =? 101) || (c =? 69).
Definition is_blank (c : Z) : bool := (c =? 32) || (c =? 9).
Definition is_digit (c : Z) : bool := (chr_0 <=? c) && (c <=? chr_9).

Fixpoint skip_blank (s : list Z) : list Z :=
  match s with
  | c :: s' => if is_blank c then skip_blank s' else s
  | [] => []
  end.

Definition false_val : number := mkNumber ESHKOL_VALUE_BOOL 0 (Bits 0).

(** What the scan for syntax markers finds. *)
Inductive numeral_kind : Type :=
| KInteger
| KFloat
| KRational (slash : nat)
| KMalformed.

Fixpoint scan_numeral (s : list Z) (pos : nat) : numeral_kind :=
  match s with
  | [] => KInteger
  | c :: s' =>
    if c =? chr_slash then KRational pos
    else if (c =? chr_dot) || is_exp c then KFloat
    else if is_digit c then scan_numeral s' (S pos)
    else KMalformed
  end.

Definition numeral_kind_of (s : list Z) : numeral_kind :=
  let signed := match s with c :: _ => (c =? chr_minus) || (c =? chr_plus) | [] => false end in
  let body := if signed then skipn 1 s else s in
  match body with
  | c :: _ => if is_digit c || (c =? chr_dot) then scan_numeral body (if signed then 1 else 0) else KMalformed
  | [] => KMalformed
  end.

Section Reading.
  Context {St : Type} {A : Arena St}.

(** [strtod] of the C library: bits of the value and characters consumed. *)
  Variable strtod : list Z -> Z * nat.

Definition exact_rational (num denom : Z) : M St number :=
  let! rat := eshkol_rational_create num denom in
  ret (heap_ref ESHKOL_VALUE_EXACT_FLAG (Some (obj_rational rat))).

Definition eshkol_s2n_decimal (start : list Z) : M St number :=
  match numeral_kind_of start with
  | KMalformed => ret false_val
  | KRational slash_pos =>
    let '(num, used, erange) := strtoll 10 start in
    if (used =? slash_pos)%nat && negb erange then
      let rest := skipn (S slash_pos) start in
      let '(denom, used, erange) := strtoll 10 rest in
      if (used =? length rest)%nat && negb erange && negb (denom =? 0) then exact_rational num denom
      else ret false_val
    else ret false_val
  | KFloat =>
    let '(val, used) := strtod start in
    match skip_blank (skipn used start) with
    | [] => if (used =? 0)%nat then ret false_val else ret (eshkol_make_double val)
    | _ => ret false_val
    end
  | KInteger =>
    let '(val, used, erange) := strtoll 10 start in
    let at_end := match skip_blank (skipn used start) with [] => true | _ => false end in
    if negb erange && negb (used =? 0)%nat && at_end then ret (eshkol_make_int64 val true)
    else if erange then
      let! bn := eshkol_bignum_from_string (Some start) in
      ret (match bn with
           | Some b => heap_ref ESHKOL_VALUE_EXACT_FLAG (Some (obj_bignum b))
           | None => false_val
           end)
    else ret false_val
  end.

(** The position of the first slash. *)
Fixpoint find_slash (s : list Z) : option nat :=
  match s with
  | [] => None
  | c :: s' => if c =? chr_slash then Some 0%nat else option_map S (find_slash s')
  end.

Definition eshkol_s2n_radix_int (start : list Z) (radix : Z) : M St number :=
  match find_slash start with
  | Some slash =>
    let '(num, used, erange) := strtoll radix start in
    if negb (used =? slash)%nat || (used =? 0)%nat || erange then ret false_val
    else
      let rest := skipn (S slash) start in
      let '(denom, used, erange) := strtoll radix rest in
      match skip_blank (skipn used rest) with
      | [] => if (used =? 0)%nat || erange || (denom =? 0) then ret false_val else exact_rational num denom
      | _ => ret false_val
      end
  | None =>
    let '(val, used, erange) := strtoll radix start in
    match skip_blank (skipn used start) with
    | [] => if (used =? 0)%nat || erange then ret false_val else ret (eshkol_make_int64 val true)
    | _ => ret false_val
    end
  end.

(** The radix a prefix [#b], [#o], [#d] or [#x] asks for. *)
Definition prefix_radix (c : Z) : option Z :=
  let c := Z.lor c 32 in
  if c =? 98 then Some 2
  else if c =? 111 then Some 8
  else if c =? 100 then Some 10
  else if c =? 120 then Some 16
  else None.

Definition s2n_dispatch (start : list Z) (radix : Z) : M St number :=
  if (radix <? 2) || (radix >? 36) then ret false_val
  else if radix =? 10 then eshkol_s2n_decimal start
  else eshkol_s2n_radix_int start radix.

Definition eshkol_string_to_number_radix_tagged (str : option (list Z)) (radix : Z) : M St number :=
  match str with
  | None => ret false_val
  | Some str =>
    match skip_blank str with
    | [] => ret false_val
    | c1 :: c2 :: rest =>
      if c1 =? chr_hash then
        match prefix_radix c2 with
        | None => ret false_val
        | Some radix =>
          match rest with
          | [] => ret false_val
          | _ => s2n_dispatch rest radix
          end
        end
      else s2n_dispatch (c1 :: c2 :: rest) radix
    | start => s2n_dispatch start radix
    end
  end.

Definition eshkol_string_to_number_tagged (str : option (list Z)) : M St number :=
  eshkol_string_to_number_radix_tagged str 10.

End Reading.
