(* ===== verification/DispatchSpec.v ===== *)
(** * Proofs about the numeric dispatch

    What a tagged number denotes, when it is in canonical form, and the
    specification of promotion, demotion and every exact operation. *)

From Stdlib Require Import String ZArith List Lia Bool QArith Znumtheory.
From S2P Require Import Prelude Effects Limbs KnuthD Bignum BignumSpec BignumString BignumBits Arena ArenaSpec ArenaRuns HostHeap BignumTheorems.
From S2P Require Import Rational RationalSpec RationalTheorems Tagged Doubles Dispatch.
Import ListNotations.
Open Scope Z_scope.
Open Scope effect_scope.

(** ** Exact numbers *)

(** An exact tagged number: an [int64_t], a bignum or a rational. *)
Inductive exact_number : number -> Prop :=
| en_int f i : int64_range i -> exact_number (mkNumber ESHKOL_VALUE_INT64 f (Bits (u64 i)))
| en_big f b : bignum_wf b -> exact_number (heap_ref f (Some (obj_bignum b)))
| en_rat f r : rational_wf r -> exact_number (heap_ref f (Some (obj_rational r))).

(** The rational number it denotes. *)
Definition qvalue (v : number) : Q :=
  match ndata v with
  | Bits raw => inject_Z (s64 raw)
  | Ref (Some (obj_bignum b)) => inject_Z (bval b)
  | Ref (Some (obj_rational r)) => rvalue r
  | Ref _ => 0
  end.

(** The smallest representation: a bignum only beyond [int64_t], a rational only
    for what is not an integer. *)
Definition canonical_number (v : number) : Prop :=
  match ndata v with
  | Bits _ => True
  | Ref (Some (obj_bignum b)) => ~ int64_range (bval b)
  | Ref (Some (obj_rational r)) => rden r <> 1
  | Ref _ => False
  end.

(** [v] is the canonical exact number [q]. *)
Definition is_exactly (q : Q) (v : number) : Prop :=
  exact_number v /\ canonical_number v /\ (qvalue v == q)%Q.

(** Limbs of the largest part. *)
Definition nlimbs (v : number) : nat :=
  match ndata v with
  | Ref (Some (obj_bignum b)) => num_limbs b
  | Ref (Some (obj_rational r)) => rat_limbs r
  | _ => 1%nat
  end.

Definition is_rational_number (v : number) : bool :=
  match ndata v with Ref (Some (obj_rational _)) => true | _ => false end.

Lemma s64_u64 i : int64_range i -> s64 (u64 i) = i.
Proof.
  intros Hi. rewrite <- (s64_small i Hi) at 2. unfold s64, u64. rewrite Zplus_mod_idemp_l. reflexivity.
Qed.

(** ** Demotion *)

Lemma demoted_int f i : int64_range i -> is_exactly (inject_Z i) (mkNumber ESHKOL_VALUE_INT64 f (Bits (u64 i))).
Proof.
  intros Hi. split; [constructor; exact Hi|]. split; [exact I|]. unfold qvalue. cbn [ndata].
  rewrite s64_u64 by exact Hi. reflexivity.
Qed.

Lemma demote_spec b : bignum_wf b -> is_exactly (inject_Z (bval b)) (demote b).
Proof.
  intros W. unfold demote. rewrite fits_int64_bignum by exact W.
  destruct (fits_int64 (bval b)) eqn:E; [apply fits_int64_range in E; apply demoted_int, E|].
  split; [constructor; exact W|]. split; [|reflexivity]. cbn. intros H. apply fits_int64_range in H. congruence.
Qed.

Lemma rational_result_spec r : rational_wf r -> is_exactly (rvalue r) (rational_result_to_tagged r).
Proof.
  intros W. destruct W as [n d Hn Hd Hg|bn bd W1 W2 Hd Hg Hno]; unfold rational_result_to_tagged.
  - cbn [is_big small_rational Z.eqb negb denominator numerator]. destruct (Z.eqb_spec d 1) as [->|Hne].
    + destruct (demoted_int 0 n Hn) as (H1 & H2 & H3). split; [exact H1|]. split; [exact H2|]. rewrite H3. reflexivity.
    + split; [constructor; constructor; assumption|]. split; [exact Hne|reflexivity].
  - cbn [is_big Z.eqb negb big_den big_num option_map]. unfold bn_equals_i64.
    rewrite fits_int64_bignum by exact W2.
    assert (Hr : bval bd <> 1 -> is_exactly (rvalue (mkRational 0 1 1 (Some bn) (Some bd)))
              (heap_ref ESHKOL_VALUE_EXACT_FLAG (Some (obj_rational (mkRational 0 1 1 (Some bn) (Some bd)))))).
    { intros Hne. split; [constructor; constructor; assumption|]. split; [exact Hne|reflexivity]. }
    destruct (fits_int64 (bval bd)) eqn:E.
    + destruct (Z.eqb_spec (bval bd) 1) as [E1|E1]; [|apply Hr, E1].
      split; [constructor; exact W1|]. apply fits_int64_range in E. split; [cbn; tauto|].
      unfold qvalue, rvalue, Qeq, inject_Z. cbn. rewrite E1. cbn. lia.
    + apply Hr. intros E1. rewrite E1 in E. discriminate E.
Qed.

(** ** Inspecting and promoting operands *)

Lemma int_of_int f i : int64_range i -> int_of (mkNumber ESHKOL_VALUE_INT64 f (Bits (u64 i))) = i.
Proof. exact (s64_u64 i). Qed.

Section Operands.
  Context {St : Type} {A : Arena St} {L : ArenaLaws St} {G : Granted} (g : granted).

Lemma is_rational_spec v :
  exact_number v -> wp (eshkol_is_rational_tagged v) (eq (is_rational_number v)).
Proof.
  intros [f i Hi|f b W|f r W]; unfold eshkol_is_rational_tagged; cbn [is_heap ntype heap_ref].
  - apply wp_ret. reflexivity.
  - eapply (wp_call _ _ (eq (obj_bignum b))); [apply wp_ret; reflexivity|]. intros o <-. apply wp_ret. reflexivity.
  - eapply (wp_call _ _ (eq (obj_rational r))); [apply wp_ret; reflexivity|]. intros o <-. apply wp_ret. reflexivity.
Qed.

(** A reduced fraction over one is the integer itself. *)
Lemma fraction_over_one n r :
  equals_fraction n 1 r -> (rvalue r == inject_Z n)%Q /\ rnum r = n /\ rden r = 1.
Proof.
  intros [W E]. destruct (rational_wf_facts r W) as [Hd Hg]. rewrite Z.mul_1_r in E.
  assert (Hden : rden r = 1).
  { rewrite E, Z.gcd_comm, (Z.mul_comm n), Z.gcd_mul_diag_l in Hg by lia. exact Hg. }
  split; [|split; [rewrite E, Hden; lia|exact Hden]]. unfold rvalue, Qeq, inject_Z. cbn. rewrite Hden. cbn. nia.
Qed.

(** The limbs of the rational made of an integer. *)
Lemma rat_limbs_integer b r :
  rational_wf r -> bignum_wf b -> rnum r = bval b -> rden r = 1 -> (rat_limbs r <= num_limbs b)%nat.
Proof.
  intros [n d Hn Hd Hg|bn bd W1 W2 Hd Hg Hno] Wb En Ed; [exact (wf_nonempty b Wb)|].
  cbn in En, Ed. unfold rat_limbs. cbn [is_big Z.eqb big_num big_den].
  pose proof (int64_one_limb bd W2 ltac:(rewrite Ed; reflexivity)). pose proof (wf_nonempty b Wb).
  rewrite (bignum_inj bn b W1 Wb En). lia.
Qed.

Lemma to_rational_spec v :
  exact_number v ->
  wp (tagged_exact_to_rational v) (fun o => exists r, o = Some r /\ rational_wf r /\
    (rvalue r == qvalue v)%Q /\ (rat_limbs r <= nlimbs v)%nat).
Proof.
  intros [f i Hi|f b W|f r W]; unfold tagged_exact_to_rational; cbn [is_int64 is_heap ntype heap_ref].
  - change (ESHKOL_VALUE_INT64 =? ESHKOL_VALUE_INT64) with true. cbn iota. rewrite int_of_int by exact Hi.
    eapply wp_call; [apply (create_spec g i 1 Hi); unfold int64_range; lia|]. intros r Hr.
    destruct (fraction_over_one i r Hr) as (Hv & En & Ed). apply wp_ret. exists r. split; [reflexivity|].
    split; [apply Hr|]. split; [rewrite Hv; unfold qvalue; cbn [ndata]; rewrite s64_u64 by exact Hi; reflexivity|].
    destruct Hr as [Wr _]. destruct Wr as [n d Hn Hd Hg|bn bd W1 W2 Hd Hg Hno]; [reflexivity|].
    exfalso. apply Hno. cbn in En, Ed. rewrite En, Ed. split; [exact Hi|unfold int64_range; lia].
  - eapply (wp_call _ _ (eq (obj_bignum b))); [apply wp_ret; reflexivity|]. intros o <-.
    eapply wp_call; [apply (wp_bignum g _ True); [apply from_int64_exact; unfold int64_range; lia|exact I]|].
    intros p (one & -> & [W1 V1]).
    eapply wp_call; [apply (create_bn_spec g b one W W1); lia|]. rewrite V1. intros r Hr.
    destruct (fraction_over_one (bval b) r Hr) as (Hv & En & Ed). apply wp_ret. exists r. split; [reflexivity|].
    split; [apply Hr|]. split; [exact Hv|]. exact (rat_limbs_integer b r (proj1 Hr) W En Ed).
  - eapply (wp_call _ _ (eq (obj_rational r))); [apply wp_ret; reflexivity|]. intros o <-.
    apply wp_ret. exists r. split; [reflexivity|]. split; [exact W|]. split; [reflexivity|]. cbn. lia.
Qed.

(** The integer behind an exact number that is not a rational. *)
Definition zvalue (v : number) : Z :=
  match ndata v with
  | Bits raw => s64 raw
  | Ref (Some (obj_bignum b)) => bval b
  | _ => 0
  end.

Lemma qvalue_integer v : exact_number v -> is_rational_number v = false -> qvalue v = inject_Z (zvalue v).
Proof. intros [f i Hi|f b W|f r W] Hr; try reflexivity. discriminate Hr. Qed.

Lemma to_bignum_spec v :
  exact_number v -> is_rational_number v = false ->
  wp (tagged_to_bignum v) (bignum_within (zvalue v) (nlimbs v)).
Proof.
  intros [f i Hi|f b W|f r W] Hr; [| |discriminate]; unfold tagged_to_bignum; cbn [is_int64 is_heap ntype heap_ref].
  - cbn [andb Z.eqb Pos.eqb ESHKOL_VALUE_INT64 ESHKOL_VALUE_HEAP_PTR]. rewrite int_of_int by exact Hi.
    unfold zvalue. cbn [ndata]. rewrite s64_u64 by exact Hi. exact (from_int64_within g i 1 Hi (le_n 1)).
  - apply wp_ret. exists b. split; [reflexivity|]. split; [split; [exact W|reflexivity]|]. apply le_n.
Qed.

Lemma demote_or_zero_spec z (m : M St (option bignum)) :
  wp m (is_bignum z) -> wp (let! r := m in ret (demote_or_zero r)) (is_exactly (inject_Z z)).
Proof.
  intros Hm. eapply wp_call; [exact Hm|]. intros r (b & -> & [W V]). apply wp_ret. rewrite <- V. exact (demote_spec b W).
Qed.

End Operands.

(** ** Arithmetic *)

Lemma is_exactly_eq p q v : (p == q)%Q -> is_exactly p v -> is_exactly q v.
Proof. intros E (H1 & H2 & H3). split; [exact H1|]. split; [exact H2|]. rewrite H3. exact E. Qed.

Lemma exact_not_double v : exact_number v -> is_double v = false.
Proof. intros [f i Hi|f b W|f r W]; reflexivity. Qed.

(** The field operation an operation code selects. *)
Definition qop (op : Z) (x y : Q) : Q :=
  if op =? 0 then x + y else if op =? 1 then x - y else if op =? 2 then x * y else x / y.

Definition room_for (a b : number) : Prop := Z.of_nat (nlimbs a + nlimbs b + 1) <= MAX_LIMBS.

Section Arithmetic.
  Context {St : Type} {A : Arena St} {L : ArenaLaws St} {G : Granted} (g : granted).

(** The four operations on rationals, as one. *)
Lemma rational_op_spec ra rb op :
  rational_wf ra -> rational_wf rb -> sizes_ok ra rb -> 0 <= op <= 3 ->
  (op = 3 -> ~ (rvalue rb == 0)%Q) ->
  wp (if op =? 0 then eshkol_rational_add ra rb
      else if op =? 1 then eshkol_rational_sub ra rb
      else if op =? 2 then eshkol_rational_mul ra rb
      else if op =? 3 then eshkol_rational_div ra rb
      else eshkol_rational_create 0 1)
    (represents (qop op (rvalue ra) (rvalue rb))).
Proof.
  intros Wa Wb Hs Hop Hz. unfold qop.
  destruct (rational_wf_facts ra Wa) as [Da _]. destruct (rational_wf_facts rb Wb) as [Db _].
  destruct (Z.eqb_spec op 0); [|destruct (Z.eqb_spec op 1); [|destruct (Z.eqb_spec op 2); [|destruct (Z.eqb_spec op 3); [|lia]]]].
  - refine (wp_mono _ _ _ _ (rational_add_spec g ra rb Wa Wb Hs)). intros r. apply represents_fraction; [nia|]. field_of Wa Wb.
  - refine (wp_mono _ _ _ _ (rational_sub_spec g ra rb Wa Wb Hs)). intros r. apply represents_fraction; [nia|]. field_of Wa Wb.
  - refine (wp_mono _ _ _ _ (rational_mul_spec g ra rb Wa Wb Hs)). intros r. apply represents_fraction; [nia|]. field_of Wa Wb.
  - assert (Hb : rnum rb <> 0) by (apply (proj2 (rnum_zero rb Wb)); auto).
    refine (wp_mono _ _ _ _ (rational_div_spec g ra rb Wa Wb Hs Hb)). intros r.
    apply represents_fraction; [nia|]. field_of Wa Wb.
Qed.

#[global] Instance qop_proper op : Proper (Qeq ==> Qeq ==> Qeq) (qop op).
Proof. intros x x' Hx y y' Hy. unfold qop. repeat destruct (_ =? _); rewrite Hx, Hy; reflexivity. Qed.

Lemma rational_binary_spec a b op :
  exact_number a -> exact_number b -> room_for a b -> 0 <= op <= 3 -> (op = 3 -> ~ (qvalue b == 0)%Q) ->
  wp (eshkol_rational_binary_tagged a b op) (is_exactly (qop op (qvalue a) (qvalue b))).
Proof.
  intros Ea Eb Hs Hop Hz. unfold eshkol_rational_binary_tagged.
  rewrite (exact_not_double a Ea), (exact_not_double b Eb). cbn [orb].
  eapply wp_call; [apply (to_rational_spec g a Ea)|]. intros oa (ra & -> & Wa & Va & La).
  eapply wp_call; [apply (to_rational_spec g b Eb)|]. intros ob (rb & -> & Wb & Vb & Lb).
  eapply wp_call; [apply (rational_op_spec ra rb op Wa Wb); auto|].
  - unfold sizes_ok, fits, room_for in *. lia.
  - intros E. rewrite Vb. auto.
  - intros rr [Wr Vr]. apply wp_ret. apply (is_exactly_eq (rvalue rr)); [|exact (rational_result_spec rr Wr)].
    rewrite Vr. apply qop_proper; assumption.
Qed.

(** Integer operands: the bignum path, quotients through the exact fraction. *)
Lemma integer_binary_spec x y op :
  bignum_wf x -> bignum_wf y -> fits (num_limbs x + num_limbs y + 1) -> 0 <= op <= 3 -> (op = 3 -> bval y <> 0) ->
  wp (if op =? 0 then let! r := eshkol_bignum_add (Some x) (Some y) in ret (demote_or_zero r)
      else if op =? 1 then let! r := eshkol_bignum_sub (Some x) (Some y) in ret (demote_or_zero r)
      else if op =? 2 then let! r := eshkol_bignum_mul (Some x) (Some y) in ret (demote_or_zero r)
      else if op =? 3 then
        if eshkol_bignum_is_zero (Some y)
        then raise ESHKOL_EXCEPTION_DIVIDE_BY_ZERO "bignum division by zero"%string
        else eshkol_rational_from_bignums_tagged (Some x) (Some y)
      else if op =? 4 then let! r := modulo_bignum x y in ret (demote_or_zero r)
      else if op =? 5 then let! r := eshkol_bignum_div (Some x) (Some y) in ret (demote_or_zero r)
      else if op =? 6 then let! r := eshkol_bignum_mod (Some x) (Some y) in ret (demote_or_zero r)
      else ret zero_result)
    (is_exactly (qop op (inject_Z (bval x)) (inject_Z (bval y)))).
Proof.
  intros Wx Wy Hf Hop Hz. unfold qop. pose proof (wf_nonempty x Wx). pose proof (wf_nonempty y Wy). unfold fits in *.
  destruct (Z.eqb_spec op 0); [|destruct (Z.eqb_spec op 1); [|destruct (Z.eqb_spec op 2); [|destruct (Z.eqb_spec op 3); [|lia]]]].
  - refine (wp_mono _ _ _ (fun v => is_exactly_eq _ _ v _) (demote_or_zero_spec _ _ (wp_bignum g _ _ _ (add_exact x y Wx Wy) _))).
    + rewrite inject_Z_plus. reflexivity.
    + unfold fits. lia.
  - refine (wp_mono _ _ _ (fun v => is_exactly_eq _ _ v _) (demote_or_zero_spec _ _ (wp_bignum g _ _ _ (sub_exact x y Wx Wy) _))).
    + apply inject_Z_minus.
    + unfold fits. lia.
  - refine (wp_mono _ _ _ (fun v => is_exactly_eq _ _ v _) (demote_or_zero_spec _ _ (wp_bignum g _ _ _ (mul_exact x y Wx Wy) _))).
    + rewrite inject_Z_mult. reflexivity.
    + unfold fits. lia.
  - subst op. specialize (Hz eq_refl). rewrite is_zero_spec, (proj2 (Z.eqb_neq _ _) Hz) by exact Wy.
    unfold eshkol_rational_from_bignums_tagged.
    eapply wp_call; [apply (create_bn_spec g x y Wx Wy Hz)|]. intros r Hr. apply wp_ret.
    destruct (represents_fraction _ _ (inject_Z (bval x) / inject_Z (bval y)) r Hz ltac:(reflexivity) Hr) as [Wr Vr].
    exact (is_exactly_eq _ _ _ Vr (rational_result_spec r Wr)).
Qed.

Lemma binary_tagged_spec a b op :
  exact_number a -> exact_number b -> room_for a b -> 0 <= op <= 3 -> (op = 3 -> ~ (qvalue b == 0)%Q) ->
  wp (eshkol_bignum_binary_tagged a b op) (is_exactly (qop op (qvalue a) (qvalue b))).
Proof.
  intros Ea Eb Hs Hop Hz. unfold eshkol_bignum_binary_tagged.
  eapply wp_call; [apply (is_rational_spec a Ea)|]. intros ? <-.
  eapply wp_call; [apply (is_rational_spec b Eb)|]. intros ? <-.
  destruct (is_rational_number a || is_rational_number b) eqn:Er.
  - replace ((op >=? 0) && (op <=? 3)) with true by (symmetry; apply andb_true_intro; split; [apply Z.geb_le|apply Z.leb_le]; lia).
    apply rational_binary_spec; assumption.
  - apply orb_false_elim in Er. destruct Er as [Ra Rb]. destruct (Z.eqb_spec op 7); [lia|].
    rewrite (exact_not_double a Ea), (exact_not_double b Eb). cbn [orb].
    eapply wp_call; [apply (to_bignum_spec g a Ea Ra)|]. intros pa (x & -> & [Wx Vx] & Lx).
    eapply wp_call; [apply (to_bignum_spec g b Eb Rb)|]. intros pb (y & -> & [Wy Vy] & Ly).
    rewrite (qvalue_integer a Ea Ra), (qvalue_integer b Eb Rb), <- Vx, <- Vy.
    apply integer_binary_spec; auto; [unfold fits, room_for in *; lia|].
    intros E Hy. apply (Hz E). rewrite (qvalue_integer b Eb Rb), <- Vy, Hy. reflexivity.
Qed.

End Arithmetic.

(** ** Integer division, gcd, powers, comparison *)

(** The integer operation of codes 4 to 6: floor modulo, quotient, remainder. *)
Definition zdivop (op x y : Z) : Z :=
  if op =? 4 then x mod y else if op =? 5 then Z.quot x y else Z.rem x y.

Lemma floor_mod_from_rem x y :
  y <> 0 ->
  x mod y = (if negb (Z.rem x y =? 0) && negb (Bool.eqb (Z.rem x y <? 0) (y <? 0)) then Z.rem x y + y else Z.rem x y).
Proof.
  intros Hy. pose proof (Z.quot_rem' x y) as E. pose proof (Z.rem_bound_abs x y Hy) as B.
  destruct (Z.eqb_spec (Z.rem x y) 0) as [E0|E0]; cbn [negb andb].
  - rewrite E0 in *. symmetry. apply (Z.mod_unique _ _ (Z.quot x y)); lia.
  - destruct (Z.ltb_spec (Z.rem x y) 0), (Z.ltb_spec y 0); cbn [Bool.eqb negb]; symmetry.
    + apply (Z.mod_unique _ _ (Z.quot x y)); lia.
    + apply (Z.mod_unique _ _ (Z.quot x y - 1)); lia.
    + apply (Z.mod_unique _ _ (Z.quot x y - 1)); lia.
    + apply (Z.mod_unique _ _ (Z.quot x y)); lia.
Qed.

Section Integers.
  Context {St : Type} {A : Arena St} {L : ArenaLaws St} {G : Granted} (g : granted).

Lemma modulo_spec x y :
  bignum_wf x -> bignum_wf y -> bval y <> 0 -> fits (num_limbs y + 1) ->
  wp (modulo_bignum x y) (is_bignum (bval x mod bval y)).
Proof.
  intros Wx Wy Hy Hf. unfold modulo_bignum.
  eapply wp_call; [exact (mod_exact x y g Wx Wy Hy)|]. intros p (m & -> & [Wm Vm]).
  rewrite (floor_mod_from_rem (bval x) (bval y) Hy), <- Vm.
  rewrite is_zero_spec by exact Wm.
  assert (Es : (sign m =? sign y) = Bool.eqb (bval m <? 0) (bval y <? 0))
    by (rewrite (bval_sign m Wm), (bval_sign y Wy); destruct (bval m <? 0), (bval y <? 0); reflexivity).
  rewrite Es. destruct (negb (bval m =? 0) && negb (Bool.eqb (bval m <? 0) (bval y <? 0))).
  - apply (wp_bignum g _ _ _ (add_exact m y Wm Wy)).
    assert (Hb : (num_limbs m <= num_limbs y)%nat).
    { apply limbs_le_of_bound; [exact Wm| |exact (wf_nonempty y Wy)].
      pose proof (bval_bpow y Wy). pose proof (Z.rem_bound_abs (bval x) (bval y) Hy). rewrite Vm. lia. }
    unfold fits in *. lia.
  - apply wp_ret. exists m. split; [reflexivity|split; auto].
Qed.

Lemma integer_division_spec a b op :
  exact_number a -> exact_number b -> is_rational_number a = false -> is_rational_number b = false ->
  room_for a b -> 4 <= op <= 6 -> zvalue b <> 0 ->
  wp (eshkol_bignum_binary_tagged a b op) (is_exactly (inject_Z (zdivop op (zvalue a) (zvalue b)))).
Proof.
  intros Ea Eb Ra Rb Hs Hop Hz. unfold eshkol_bignum_binary_tagged.
  eapply wp_call; [apply (is_rational_spec a Ea)|]. intros ? <-.
  eapply wp_call; [apply (is_rational_spec b Eb)|]. intros ? <-. rewrite Ra, Rb. cbn [orb].
  destruct (Z.eqb_spec op 7); [lia|]. rewrite (exact_not_double a Ea), (exact_not_double b Eb). cbn [orb].
  eapply wp_call; [apply (to_bignum_spec g a Ea Ra)|]. intros pa (x & -> & [Wx Vx] & Lx).
  eapply wp_call; [apply (to_bignum_spec g b Eb Rb)|]. intros pb (y & -> & [Wy Vy] & Ly).
  rewrite <- Vx, <- Vy in *. unfold zdivop, room_for in *.
  destruct (Z.eqb_spec op 0); [lia|]. destruct (Z.eqb_spec op 1); [lia|]. destruct (Z.eqb_spec op 2); [lia|].
  destruct (Z.eqb_spec op 3); [lia|]. destruct (Z.eqb_spec op 4); [|destruct (Z.eqb_spec op 5); [|destruct (Z.eqb_spec op 6); [|lia]]].
  - apply demote_or_zero_spec, modulo_spec; auto. unfold fits. lia.
  - apply demote_or_zero_spec. exact (div_exact x y g Wx Wy Hz).
  - apply demote_or_zero_spec. exact (mod_exact x y g Wx Wy Hz).
Qed.

(** *** Greatest common divisor *)

Lemma gcd_tagged_loop_spec fuel x y :
  bignum_wf x -> bignum_wf y -> 0 <= bval y < bval x -> bval x * bval y < 2 ^ Z.of_nat fuel ->
  wp (gcd_tagged_loop fuel x y) (denotes (Z.gcd (bval x) (bval y))).
Proof.
  revert x y. induction fuel as [|fuel IH]; intros x y Wx Wy Hy Hlt; cbn [gcd_tagged_loop];
    rewrite is_zero_spec by exact Wy; destruct (Z.eqb_spec (bval y) 0) as [E|E];
    try (apply wp_ret; split; [exact Wx|]; rewrite E, Z.gcd_0_r, Z.abs_eq by lia; reflexivity).
  - cbn in Hlt. nia.
  - rewrite Nat2Z.inj_succ in Hlt.
    destruct (euclid_step (bval x) (bval y) (Z.of_nat fuel) ltac:(lia) Hlt ltac:(lia)) as [H1 H2].
    eapply wp_call; [apply (bn_gcd_step g); try split; auto; lia|].
    intros r (r' & -> & [Wr Vr] & ->). rewrite <- gcd_rem, <- Vr by lia. apply IH; auto; rewrite Vr; lia.
Qed.

Lemma gcd_start_spec x y :
  bignum_wf x -> bignum_wf y -> 0 <= bval x -> 0 <= bval y ->
  wp (gcd_tagged_loop (128 * num_limbs y + 2) x y) (denotes (Z.gcd (bval x) (bval y))).
Proof.
  intros Wx Wy Hx Hy. replace (128 * num_limbs y + 2)%nat with (S (128 * num_limbs y + 1)) by lia.
  cbn [gcd_tagged_loop]. rewrite is_zero_spec by exact Wy. destruct (Z.eqb_spec (bval y) 0) as [E|E].
  - apply wp_ret. split; [exact Wx|]. rewrite E, Z.gcd_0_r, Z.abs_eq by lia. reflexivity.
  - eapply wp_call; [apply (bn_gcd_step g); try split; auto; lia|].
    intros r (r' & -> & [Wr Vr] & ->). rewrite <- gcd_rem, <- Vr by lia.
    pose proof (Z.rem_bound_pos (bval x) (bval y) ltac:(lia) ltac:(lia)) as Hr.
    apply gcd_tagged_loop_spec; auto; [lia|]. rewrite Vr.
    pose proof (bval_bpow y Wy) as Hb. rewrite bpow_pow2 in Hb.
    apply Z.lt_le_trans with (2 ^ (64 * Z.of_nat (num_limbs y) + 64 * Z.of_nat (num_limbs y))).
    + rewrite Z.pow_add_r by lia. nia.
    + apply Z.pow_le_mono_r; lia.
Qed.

Lemma abs_of_sign x : bignum_wf x -> (if negb (sign x =? 0) then - bval x else bval x) = Z.abs (bval x).
Proof. intros Wx. rewrite (bval_sign x Wx). destruct (Z.ltb_spec (bval x) 0); cbn; lia. Qed.

Lemma gcd_tagged_spec a b :
  exact_number a -> exact_number b -> is_rational_number a = false -> is_rational_number b = false ->
  wp (eshkol_gcd_tagged a b) (is_exactly (inject_Z (Z.gcd (zvalue a) (zvalue b)))).
Proof.
  intros Ea Eb Ra Rb. unfold eshkol_gcd_tagged.
  eapply wp_call; [apply (to_bignum_spec g a Ea Ra)|]. intros pa (x & -> & [Wx Vx] & _).
  eapply wp_call; [apply (to_bignum_spec g b Eb Rb)|]. intros pb (y & -> & [Wy Vy] & _).
  eapply wp_call; [apply (cond_neg_spec g), Wx|]. rewrite (abs_of_sign x Wx). intros p (ga & -> & [W1 V1]).
  eapply wp_call; [apply (cond_neg_spec g), Wy|]. rewrite (abs_of_sign y Wy). intros p (gb & -> & [W2 V2]).
  eapply wp_call; [apply gcd_start_spec; auto; lia|]. intros r [Wr Vr]. apply wp_ret.
  rewrite (magnitude_spec (Z.gcd (bval ga) (bval gb)) r (conj Wr Vr) (Z.gcd_nonneg _ _)).
  rewrite <- (Z.gcd_abs_l (zvalue a)), <- (Z.gcd_abs_r _ (zvalue b)), <- Vx, <- Vy, <- V1, <- V2, <- Vr.
  exact (demote_spec r Wr).
Qed.

End Integers.

(** *** Comparison *)

(** The three-way result of a comparison in Q. *)
Definition qcmp (x y : Q) : Z :=
  match (x ?= y)%Q with Lt => -1 | Eq => 0 | Gt => 1 end.

#[global] Instance qcmp_proper : Proper (Qeq ==> Qeq ==> eq) qcmp.
Proof. intros x x' Hx y y' Hy. unfold qcmp. rewrite Hx, Hy. reflexivity. Qed.

Lemma qcmp_integers x y : qcmp (inject_Z x) (inject_Z y) = Z.sgn (x - y).
Proof.
  unfold qcmp, Qcompare, inject_Z. cbn [Qnum Qden]. rewrite !Z.mul_1_r. pose proof (sgn_compare x y) as H.
  destruct (x ?= y); auto.
Qed.

Lemma qcmp_rationals a b :
  rational_wf a -> rational_wf b -> qcmp (rvalue a) (rvalue b) = Z.sgn (rnum a * rden b - rnum b * rden a).
Proof.
  intros Wa Wb. destruct (rational_wf_facts a Wa) as [Da _]. destruct (rational_wf_facts b Wb) as [Db _].
  unfold qcmp, Qcompare, rvalue. cbn [Qnum Qden]. rewrite !Z2Pos.id by lia.
  pose proof (sgn_compare (rnum a * rden b) (rnum b * rden a)) as H. destruct (_ ?= _); auto.
Qed.

Section Comparison.
  Context {St : Type} {A : Arena St} {L : ArenaLaws St} {G : Granted} (g : granted).

Definition bool_result (b : bool) (v : number) : Prop := exists f, v = make_bool f b.

Lemma rational_compare_tagged_spec a b op :
  exact_number a -> exact_number b -> room_for a b ->
  wp (eshkol_rational_compare_tagged_ptr a b op) (bool_result (compare_verdict op (qcmp (qvalue a) (qvalue b)))).
Proof.
  intros Ea Eb Hs. unfold eshkol_rational_compare_tagged_ptr.
  rewrite (exact_not_double a Ea), (exact_not_double b Eb). cbn [orb].
  eapply wp_call; [apply (to_rational_spec g a Ea)|]. intros oa (ra & -> & Wa & Va & La).
  eapply wp_call; [apply (to_rational_spec g b Eb)|]. intros ob (rb & -> & Wb & Vb & Lb).
  eapply wp_call; [apply (rational_compare_spec g ra rb Wa Wb); unfold sizes_ok, fits, room_for in *; lia|].
  intros c <-. apply wp_ret. exists 0. rewrite <- (qcmp_rationals ra rb Wa Wb), Va, Vb. reflexivity.
Qed.

Lemma compare_tagged_spec a b op :
  exact_number a -> exact_number b -> is_heap a || is_heap b = true -> room_for a b ->
  wp (eshkol_bignum_compare_tagged a b op) (bool_result (compare_verdict op (qcmp (qvalue a) (qvalue b)))).
Proof.
  intros Ea Eb Hh Hs. unfold eshkol_bignum_compare_tagged.
  eapply wp_call; [apply (is_rational_spec a Ea)|]. intros ? <-.
  eapply (wp_call _ _ (eq (is_rational_number a || is_rational_number b))).
  { destruct (is_rational_number a); [apply wp_ret; reflexivity|]. exact (is_rational_spec b Eb). }
  intros ? <-. destruct (is_rational_number a || is_rational_number b) eqn:Er;
    [apply rational_compare_tagged_spec; assumption|]. apply orb_false_elim in Er. destruct Er as [Ra Rb].
  rewrite (exact_not_double a Ea), (exact_not_double b Eb). cbn [orb].
  rewrite (qvalue_integer a Ea Ra), (qvalue_integer b Eb Rb), qcmp_integers.
  eapply (wp_call _ _ (eq (Z.sgn (zvalue a - zvalue b))));
    [|intros c <-; apply wp_ret; eexists; reflexivity].
  destruct Ea as [f i Hi|f x Wx|f r W]; [| |discriminate Ra]; destruct Eb as [f' i' Hi'|f' y Wy|f' r' W']; try discriminate Rb;
    try discriminate Hh; cbn [is_heap ntype heap_ref].
  - eapply (wp_call _ _ (eq (Some y))); [apply wp_ret; reflexivity|]. intros ? <-.
    eapply (wp_call _ _ (eq y)); [apply wp_deref; reflexivity|]. intros ? <-. apply wp_ret.
    rewrite int_of_int by exact Hi. rewrite (compare_int64_spec y i Wy Hi). unfold zvalue. cbn [ndata heap_ref].
    rewrite s64_u64 by exact Hi. lia.
  - eapply (wp_call _ _ (eq (Some x))); [apply wp_ret; reflexivity|]. intros ? <-.
    eapply (wp_call _ _ (eq x)); [apply wp_deref; reflexivity|]. intros ? <-. apply wp_ret.
    rewrite int_of_int by exact Hi'. rewrite (compare_int64_spec x i' Wx Hi'). unfold zvalue. cbn [ndata heap_ref].
    rewrite s64_u64 by exact Hi'. reflexivity.
  - eapply (wp_call _ _ (eq (Some x))); [apply wp_ret; reflexivity|]. intros ? <-.
    eapply (wp_call _ _ (eq (Some y))); [apply wp_ret; reflexivity|]. intros ? <-. apply wp_ret.
    symmetry. exact (compare_sgn x y Wx Wy).
Qed.

(** *** Powers *)

Lemma is_bignum_tagged_spec v :
  exact_number v -> is_rational_number v = false -> wp (eshkol_is_bignum_tagged v) (eq (is_heap v)).
Proof.
  intros [f i Hi|f b W|f r W] Hr; [| |discriminate]; unfold eshkol_is_bignum_tagged; cbn [is_heap ntype heap_ref].
  - apply wp_ret. reflexivity.
  - eapply (wp_call _ _ (eq (obj_bignum b))); [apply wp_ret; reflexivity|]. intros o <-. apply wp_ret. reflexivity.
Qed.

(** The base as the code obtains it. *)
Lemma base_spec a :
  exact_number a -> is_rational_number a = false ->
  wp (if is_heap a then as_bignum a else eshkol_bignum_from_int64 (int_of a)) (bignum_within (zvalue a) (nlimbs a)) /\
  is_int64 a || is_heap a = true.
Proof.
  intros Ea Hr. pose proof (to_bignum_spec g a Ea Hr) as H. destruct Ea as [f i Hi|f b W|f r W]; [| |discriminate].
  - split; [exact H|reflexivity].
  - split; [exact H|reflexivity].
Qed.

Lemma pow_tagged_spec pow a f e :
  exact_number a -> is_rational_number a = false -> int64_range e ->
  Z.of_nat (nlimbs a) * Z.abs e + 1 <= MAX_LIMBS ->
  let x := zvalue a in
  let m := eshkol_bignum_pow_tagged pow a (mkNumber ESHKOL_VALUE_INT64 f (Bits (u64 e))) in
  (0 <= e -> wp m (is_exactly (inject_Z (x ^ e)))) /\
  (e < 0 -> x <> 0 -> int64_range (x ^ (- e)) ->
     wp m (fun v => exact_number v /\ (qvalue v == 1 / inject_Z (x ^ (- e)))%Q)).
Proof.
  intros Ea Hr He Hroom x m. subst x m. destruct (base_spec a Ea Hr) as [Hb Hi].
  assert (Hex : forall Q,
    (forall b, bignum_wf b -> bval b = zvalue a -> (num_limbs b <= nlimbs a)%nat ->
     wp (if e >=? 0 then let! r := eshkol_bignum_pow (Some b) (u64 e) in ret (demote_or_zero r)
         else
           let! p := eshkol_bignum_pow (Some b) (u64 (0 - u64 e)) in
           match eshkol_bignum_fits_int64 p with
           | Some denom =>
             if denom =? 0 then raise ESHKOL_EXCEPTION_DIVIDE_BY_ZERO "expt: 0 raised to a negative power"%string
             else let! rat := eshkol_rational_create 1 denom in
                  ret (heap_ref ESHKOL_VALUE_EXACT_FLAG (Some (obj_rational rat)))
           | None => pow_fallback pow a (mkNumber ESHKOL_VALUE_INT64 f (Bits (u64 e)))
           end) Q) ->
    wp (eshkol_bignum_pow_tagged pow a (mkNumber ESHKOL_VALUE_INT64 f (Bits (u64 e)))) Q).
  { intros Q HQ. unfold eshkol_bignum_pow_tagged. eapply wp_call; [apply wp_is_null_arena|]. intros ? ->.
    eapply wp_call; [apply (is_bignum_tagged_spec a Ea Hr)|]. intros ? <-. rewrite Hi.
    change (is_int64 (mkNumber ESHKOL_VALUE_INT64 f (Bits (u64 e)))) with true. cbn [andb].
    eapply wp_call; [exact Hb|]. intros p (b & -> & [W V] & Lb). rewrite int_of_int by exact He.
    specialize (HQ b W V Lb). destruct (e >=? 0); exact HQ. }
  unfold int64_range in He. split.
  - intros He0. apply Hex. intros b W V Lb. replace (e >=? 0) with true by (symmetry; apply Z.geb_le; lia).
    rewrite u64_small by lia. apply demote_or_zero_spec. rewrite <- V.
    apply (wp_bignum g _ _ _ (pow_exact b e W ltac:(lia))). nia.
  - intros He0 Hx Hfit. apply Hex. intros b W V Lb.
    replace (e >=? 0) with false by (symmetry; rewrite Z.geb_leb; apply Z.leb_gt; lia).
    assert (Emag : u64 (0 - u64 e) = - e).
    { unfold u64. rewrite Zminus_mod_idemp_r. change (0 - e) with (- e). apply Z.mod_small. lia. }
    rewrite Emag. eapply wp_call; [apply (wp_bignum g _ _ _ (pow_exact b (- e) W ltac:(lia))); nia|].
    rewrite V. intros p (d & -> & [Wd Vd]). rewrite fits_int64_bignum, Vd by exact Wd.
    rewrite (proj2 (fits_int64_range _) Hfit).
    assert (Hd0 : zvalue a ^ (- e) <> 0) by (apply Z.pow_nonzero; lia).
    rewrite (proj2 (Z.eqb_neq _ _) Hd0).
    eapply wp_call; [apply (create_spec g 1 _ ltac:(unfold int64_range; lia) Hfit Hd0)|]. intros r Hr'. apply wp_ret.
    destruct (represents_fraction 1 _ (1 / inject_Z (zvalue a ^ (- e))) r Hd0 ltac:(reflexivity) Hr') as [Wr Vr].
    split; [constructor; exact Wr|exact Vr].
Qed.

End Comparison.

(** ** Reading integers *)

Lemma digit_value_10 c : is_digit c = true -> digit_value 10 c = Some (c - chr_0).
Proof.
  unfold is_digit, digit_value, chr_0, chr_9. intros H. rewrite H. apply andb_prop in H.
  destruct H as [H1 H2]. apply Z.leb_le in H1, H2. destruct (Z.ltb_spec (c - 48) 10); [reflexivity|lia].
Qed.

Lemma read_all_digits ds acc n :
  all_digits ds = true -> read_digits 10 ds acc n = (dec_value acc ds, (n + length ds)%nat).
Proof.
  revert acc n. induction ds as [|c ds IH]; intros acc n H; cbn [read_digits dec_value length]; [f_equal; lia|].
  cbn in H. apply andb_prop in H. destruct H as [Hc Hd]. rewrite (digit_value_10 c Hc), IH by exact Hd. f_equal. lia.
Qed.

Lemma scan_all_digits ds pos : all_digits ds = true -> scan_numeral ds pos = KInteger.
Proof.
  revert pos. induction ds as [|c ds IH]; intros pos H; cbn [scan_numeral]; [reflexivity|].
  cbn in H. apply andb_prop in H. destruct H as [Hc Hd]. unfold is_digit, is_exp, chr_slash, chr_dot, chr_0, chr_9 in *.
  rewrite Hc. apply andb_prop in Hc. destruct Hc as [H1 H2]. apply Z.leb_le in H1, H2.
  replace (c =? 47) with false by (symmetry; apply Z.eqb_neq; lia).
  replace (c =? 46) with false by (symmetry; apply Z.eqb_neq; lia).
  replace (c =? 101) with false by (symmetry; apply Z.eqb_neq; lia).
  replace (c =? 69) with false by (symmetry; apply Z.eqb_neq; lia). cbn [orb]. apply IH, Hd.
Qed.

(** The shape of a decimal integer: sign characters, then digits. *)
Lemma parse_decimal_shape txt z :
  parse_decimal txt = Some z ->
  exists sg d ds, txt = sg ++ d :: ds /\ all_digits (d :: ds) = true /\
    ((sg = [] /\ d <> chr_minus /\ d <> chr_plus /\ z = dec_value 0 (d :: ds)) \/
     (sg = [chr_minus] /\ z = - dec_value 0 (d :: ds)) \/ (sg = [chr_plus] /\ z = dec_value 0 (d :: ds))).
Proof.
  destruct txt as [|c cs]; [discriminate|]. cbn [parse_decimal].
  destruct (Z.eqb_spec c chr_minus) as [->|N1]; [|destruct (Z.eqb_spec c chr_plus) as [->|N2]]; cbn [orb].
  - destruct cs as [|d ds]; [discriminate|]. cbn [length Nat.eqb negb andb]. destruct (all_digits (d :: ds)) eqn:E; [|discriminate].
    intros X. injection X as <-. exists [chr_minus], d, ds. split; [reflexivity|]. split; [exact E|]. auto.
  - destruct cs as [|d ds]; [discriminate|]. cbn [length Nat.eqb negb andb]. destruct (all_digits (d :: ds)) eqn:E; [|discriminate].
    intros X. injection X as <-. exists [chr_plus], d, ds. split; [reflexivity|]. split; [exact E|]. auto.
  - cbn [length Nat.eqb negb andb]. destruct (all_digits (c :: cs)) eqn:E; [|discriminate].
    intros X. injection X as <-. exists [], c, cs. split; [reflexivity|]. split; [exact E|]. auto.
Qed.

(** A digit is neither space, nor sign, nor prefix. *)
Lemma digit_facts c : is_digit c = true ->
  is_space c = false /\ is_blank c = false /\ c =? chr_minus = false /\ c =? chr_plus = false /\ c =? chr_hash = false.
Proof.
  unfold is_digit, is_space, is_blank, chr_0, chr_9, chr_minus, chr_plus, chr_hash. intros H.
  apply andb_prop in H. destruct H as [H1 H2]. apply Z.leb_le in H1, H2.
  repeat split; repeat match goal with |- context [?a =? ?b] => replace (a =? b) with false by (symmetry; apply Z.eqb_neq; lia) end;
    try reflexivity. cbn [orb]. apply andb_false_intro2. apply Z.leb_gt. lia.
Qed.

Lemma hex_prefix_10 s : hex_prefix 10 s = 0%nat.
Proof.
  destruct s as [|a [|b [|c s]]]; try reflexivity. cbn [hex_prefix].
  change (10 =? 16) with false. rewrite andb_false_r. reflexivity.
Qed.

Lemma strtoll_decimal txt z :
  parse_decimal txt = Some z ->
  strtoll 10 txt = (if z <? INT64_MIN then (INT64_MIN, length txt, true)
                    else if z >? INT64_MAX then (INT64_MAX, length txt, true)
                    else (z, length txt, false)).
Proof.
  intros Hp. destruct (parse_decimal_shape txt z Hp) as (sg & d & ds & -> & Hd & Hcase).
  assert (Hd0 : is_digit d = true) by (cbn in Hd; apply andb_prop in Hd; apply Hd).
  destruct (digit_facts d Hd0) as (F1 & F2 & F3 & F4 & F5).
  unfold strtoll. destruct Hcase as [(-> & N1 & N2 & ->)|[(-> & ->)|(-> & ->)]]; cbn [app skip_space].
  - rewrite F1. cbn [skipn]. rewrite F3, F4. cbn [skipn]. rewrite hex_prefix_10. cbn [skipn].
    rewrite read_all_digits by exact Hd. reflexivity.
  - change (is_space chr_minus) with false. cbn [skipn]. change (chr_minus =? chr_minus) with true. cbn [skipn].
    rewrite hex_prefix_10. cbn [skipn]. rewrite read_all_digits by exact Hd. reflexivity.
  - change (is_space chr_plus) with false. cbn [skipn]. change (chr_plus =? chr_minus) with false.
    change (chr_plus =? chr_plus) with true. cbn [skipn]. rewrite hex_prefix_10. cbn [skipn].
    rewrite read_all_digits by exact Hd. reflexivity.
Qed.

Lemma integer_kind txt z : parse_decimal txt = Some z -> numeral_kind_of txt = KInteger.
Proof.
  intros Hp. destruct (parse_decimal_shape txt z Hp) as (sg & d & ds & -> & Hd & Hcase).
  assert (Hd0 : is_digit d = true) by (cbn in Hd; apply andb_prop in Hd; apply Hd).
  destruct (digit_facts d Hd0) as (F1 & F2 & F3 & F4 & F5). unfold numeral_kind_of.
  destruct Hcase as [(-> & N1 & N2 & _)|[(-> & _)|(-> & _)]]; cbn [app].
  - rewrite F3, F4. cbn [orb]. rewrite Hd0. cbn [orb]. apply scan_all_digits, Hd.
  - change ((chr_minus =? chr_minus) || _) with true. cbn [skipn]. rewrite Hd0. cbn [orb]. apply scan_all_digits, Hd.
  - change (chr_plus =? chr_minus) with false. change (chr_plus =? chr_plus) with true. cbn [orb skipn].
    rewrite Hd0. cbn [orb]. apply scan_all_digits, Hd.
Qed.

(** The text reaches the decimal reader unchanged. *)
Lemma decimal_reaches_reader {St} {A : Arena St} strtod txt z :
  parse_decimal txt = Some z ->
  eshkol_string_to_number_tagged strtod (Some txt) = eshkol_s2n_decimal strtod txt :> M St number.
Proof.
  intros Hp. destruct (parse_decimal_shape txt z Hp) as (sg & d & ds & -> & Hd & Hcase).
  assert (Hd0 : is_digit d = true) by (cbn in Hd; apply andb_prop in Hd; apply Hd).
  destruct (digit_facts d Hd0) as (F1 & F2 & F3 & F4 & F5).
  unfold eshkol_string_to_number_tagged, eshkol_string_to_number_radix_tagged.
  destruct Hcase as [(-> & N1 & N2 & _)|[(-> & _)|(-> & _)]]; cbn [app skip_blank].
  - rewrite F2. destruct ds as [|d' ds]; [reflexivity|]. rewrite F5. reflexivity.
  - reflexivity.
  - reflexivity.
Qed.

Lemma string_to_number_spec {St} {A : Arena St} {L : ArenaLaws St} {G : Granted} (g : granted) strtod txt z :
  parse_decimal txt = Some z -> value_fits (Z.abs z) ->
  wp (eshkol_string_to_number_tagged strtod (Some txt)) (is_exactly (inject_Z z)).
Proof.
  intros Hp Hf. rewrite (decimal_reaches_reader strtod txt z Hp). unfold eshkol_s2n_decimal.
  rewrite (integer_kind txt z Hp), (strtoll_decimal txt z Hp).
  assert (Hlen : (length txt =? 0)%nat = false) by (destruct txt; [discriminate Hp|reflexivity]).
  assert (Hbig : ~ int64_range z ->
    wp (let! bn := eshkol_bignum_from_string (Some txt) in
        ret (match bn with Some b => heap_ref ESHKOL_VALUE_EXACT_FLAG (Some (obj_bignum b)) | None => false_val end))
      (is_exactly (inject_Z z))).
  { intros Hno. pose proof (from_string_exact txt ltac:(intros E; congruence)) as H. rewrite Hp in H.
    eapply wp_call; [exact H|]. intros r Hr. destruct (or_null_granted _ _ r g Hf Hr) as (b & -> & [W V]).
    apply wp_ret. split; [constructor; exact W|]. split; [cbn; rewrite V; exact Hno|]. cbn. rewrite V. reflexivity. }
  destruct (Z.ltb_spec z INT64_MIN) as [H1|H1]; cbn [negb andb]; [apply Hbig; unfold int64_range; lia|].
  rewrite Z.gtb_ltb. destruct (Z.ltb_spec INT64_MAX z) as [H2|H2]; cbn [negb andb]; [apply Hbig; unfold int64_range; lia|].
  rewrite Hlen, skipn_all. cbn [negb andb skip_blank]. apply wp_ret. apply demoted_int. unfold int64_range. lia.
Qed.
