(* ===== verification/DispatchTheorems.v ===== *)
(** * What the numeric dispatch guarantees

    The numeric tower seen by generated code: arithmetic, integer division,
    comparison, powers and reading on exact tagged numbers are exact and return
    canonical numbers; and the places where the dispatch leaves that contract. *)

From Stdlib Require Import String ZArith List Lia Bool QArith Znumtheory.
From S2P Require Import Prelude Effects Limbs KnuthD Bignum BignumSpec BignumString BignumBits Arena ArenaSpec ArenaRuns HostHeap BignumTheorems DecimalTheorems.
From S2P Require Import Rational RationalSpec RationalTheorems Tagged Doubles Dispatch DispatchSpec.
Import ListNotations.
Open Scope Z_scope.
Open Scope effect_scope.

(** ** Sample operands *)

Definition int_number (i : Z) : number := eshkol_make_int64 i true.
Definition num_a : number := heap_ref ESHKOL_VALUE_EXACT_FLAG (Some (obj_bignum big_a)).
Definition num_r : number := heap_ref 0 (Some (obj_rational rat_b)).

Lemma int_number_exact i : int64_range i -> exact_number (int_number i).
Proof. apply en_int. Qed.

Lemma num_a_exact : exact_number num_a.
Proof. constructor. exact big_a_wf. Qed.

Lemma num_r_exact : exact_number num_r.
Proof. constructor. exact rat_b_wf. Qed.

(** ** The numeric tower *)

(** C1 The numeric tower is exact: addition, subtraction, multiplication and
    division of any exact operands ([int64_t], bignum, rational, in any mix)
    dispatched on their tags return the exact result in its smallest
    representation (an [int64_t] whenever it fits, a bignum for larger integers, a
    reduced rational otherwise), whenever memory is granted. *)
Theorem numeric_tower_exact {St} {A : Arena St} {L : ArenaLaws St} a b op s :
  exact_number a -> exact_number b -> room_for a b -> 0 <= op <= 3 -> (op = 3 -> ~ (qvalue b == 0)%Q) ->
  arena_inv s ->
  granted_run (eshkol_bignum_binary_tagged a b op) s (is_exactly (qop op (qvalue a) (qvalue b))).
Proof.
  intros Ea Eb Hr Hop Hz Hs.
  apply (granted_run_intro _ _ _ _ (fun G g => binary_tagged_spec g a b op Ea Eb Hr Hop Hz) Hs). auto.
Qed.

Lemma numeric_tower_exact_witness :
  granted_run (eshkol_bignum_binary_tagged num_a num_r 3) bench
    (is_exactly (qop 3 (qvalue num_a) (qvalue num_r))) /\
  snd (eshkol_bignum_binary_tagged num_a num_r 3 bench) = false.
Proof.
  split; [|vm_compute; reflexivity].
  apply (numeric_tower_exact num_a num_r 3 bench num_a_exact num_r_exact);
    [vm_compute; discriminate|lia|intros _; vm_compute; discriminate|exact bench_inv].
Defined.

(** A zero divisor, in every division operation. *)
Lemma zero_divisor_spec {St} {A : Arena St} {L : ArenaLaws St} {G : Granted} (g : granted) a b op :
  exact_number a -> exact_number b -> is_rational_number a = false -> is_rational_number b = false ->
  3 <= op <= 6 -> zvalue b = 0 ->
  wpx (eshkol_bignum_binary_tagged a b op) (fun _ => False) (fun e => e = ESHKOL_EXCEPTION_DIVIDE_BY_ZERO).
Proof.
  intros Ea Eb Ra Rb Hop Hz. unfold eshkol_bignum_binary_tagged.
  eapply wpx_call; [apply (is_rational_spec a Ea)|]. intros ? <-.
  eapply wpx_call; [apply (is_rational_spec b Eb)|]. intros ? <-. rewrite Ra, Rb. cbn [orb].
  destruct (Z.eqb_spec op 7); [lia|]. rewrite (exact_not_double a Ea), (exact_not_double b Eb). cbn [orb].
  eapply wpx_call; [apply (to_bignum_spec g a Ea Ra)|]. intros pa (x & -> & [Wx Vx] & _).
  eapply wpx_call; [apply (to_bignum_spec g b Eb Rb)|]. intros pb (y & -> & [Wy Vy] & _). rewrite Hz in Vy.
  assert (Ez : eshkol_bignum_is_zero (Some y) = true) by (rewrite is_zero_spec, Vy by exact Wy; reflexivity).
  destruct (Z.eqb_spec op 0); [lia|]. destruct (Z.eqb_spec op 1); [lia|]. destruct (Z.eqb_spec op 2); [lia|].
  destruct (Z.eqb_spec op 3); [rewrite Ez; apply wpx_raise; reflexivity|].
  destruct (Z.eqb_spec op 4); [|destruct (Z.eqb_spec op 5); [|destruct (Z.eqb_spec op 6); [|lia]]]; apply wpx_bind.
  - apply wpx_bind. unfold eshkol_bignum_mod. rewrite Ez. apply wpx_raise. reflexivity.
  - unfold eshkol_bignum_div. rewrite Ez. apply wpx_raise. reflexivity.
  - unfold eshkol_bignum_mod. rewrite Ez. apply wpx_raise. reflexivity.
Qed.

(** Integer division on tagged integers: modulo takes the sign of the divisor
    (floor), quotient and remainder truncate, each result in its smallest
    representation; a zero divisor raises divide-by-zero in all of them and in
    exact division. *)
Theorem integer_division_dispatch {St} {A : Arena St} {L : ArenaLaws St} a b op s :
  exact_number a -> exact_number b -> is_rational_number a = false -> is_rational_number b = false ->
  room_for a b -> arena_inv s ->
  (4 <= op <= 6 -> zvalue b <> 0 ->
     granted_run (eshkol_bignum_binary_tagged a b op) s (is_exactly (inject_Z (zdivop op (zvalue a) (zvalue b))))) /\
  (3 <= op <= 6 -> zvalue b = 0 ->
     forall o s', eshkol_bignum_binary_tagged a b op s = (o, s', false) ->
     exists msg, o = Raise ESHKOL_EXCEPTION_DIVIDE_BY_ZERO msg).
Proof.
  intros Ea Eb Ra Rb Hr Hs. split.
  - intros Hop Hz.
    apply (granted_run_intro _ _ _ _ (fun G g => integer_division_spec g a b op Ea Eb Ra Rb Hr Hop Hz) Hs). auto.
  - intros Hop Hz o s' E. 
    pose proof (@zero_divisor_spec _ _ _ True I a b op Ea Eb Ra Rb Hop Hz s Hs) as H. rewrite E in H.
    destruct (H (fun _ => eq_refl)) as [_ Ho]. destruct o as [v|e msg| |]; try contradiction. subst e. eauto.
Qed.

Lemma integer_division_dispatch_witness :
  granted_run (eshkol_bignum_binary_tagged num_a (int_number (-7)) 4) bench
    (is_exactly (inject_Z (zdivop 4 (zvalue num_a) (zvalue (int_number (-7)))))) /\
  zdivop 4 (zvalue num_a) (zvalue (int_number (-7))) = 0.
Proof.
  split; [|vm_compute; reflexivity].
  apply (integer_division_dispatch num_a (int_number (-7)) 4 bench num_a_exact);
    [apply int_number_exact; unfold int64_range; lia|reflexivity|reflexivity|vm_compute; discriminate|exact bench_inv|lia|].
  vm_compute. discriminate.
Defined.

(** Comparison of tagged numbers is the order of Q: for exact operands of any
    kinds (at least one beyond [int64_t], the case generated code sends here) each
    of the five operators returns the boolean the rationals give. *)
Theorem comparison_dispatch_exact {St} {A : Arena St} {L : ArenaLaws St} a b op s :
  exact_number a -> exact_number b -> is_heap a || is_heap b = true -> room_for a b -> arena_inv s ->
  granted_run (eshkol_bignum_compare_tagged a b op) s
    (fun v => exists f, v = make_bool f (compare_verdict op (qcmp (qvalue a) (qvalue b)))).
Proof.
  intros Ea Eb Hh Hr Hs.
  apply (granted_run_intro _ _ _ _ (fun G g => compare_tagged_spec g a b op Ea Eb Hh Hr) Hs). auto.
Qed.

Lemma comparison_dispatch_exact_witness :
  granted_run (eshkol_bignum_compare_tagged num_r num_a 0) bench
    (fun v => exists f, v = make_bool f (compare_verdict 0 (qcmp (qvalue num_r) (qvalue num_a)))) /\
  compare_verdict 0 (qcmp (qvalue num_r) (qvalue num_a)) = true.
Proof.
  split; [|vm_compute; reflexivity].
  apply (comparison_dispatch_exact num_r num_a 0 bench num_r_exact num_a_exact);
    [reflexivity|vm_compute; discriminate|exact bench_inv].
Defined.

(** Greatest common divisor and powers on tagged integers are exact: the gcd is
    non-negative and terminates, a non-negative power is the integer power in its
    smallest representation, and a negative power of a non-zero integer is the
    exact reciprocal when the power fits [int64_t]. *)
Theorem gcd_and_power_exact {St} {A : Arena St} {L : ArenaLaws St} pow a b f e s :
  exact_number a -> exact_number b -> is_rational_number a = false -> is_rational_number b = false ->
  int64_range e -> Z.of_nat (nlimbs a) * Z.abs e + 1 <= MAX_LIMBS -> arena_inv s ->
  let power := eshkol_bignum_pow_tagged pow a (mkNumber ESHKOL_VALUE_INT64 f (Bits (u64 e))) in
  granted_run (eshkol_gcd_tagged a b) s (is_exactly (inject_Z (Z.gcd (zvalue a) (zvalue b)))) /\
  (0 <= e -> granted_run power s (is_exactly (inject_Z (zvalue a ^ e)))) /\
  (e < 0 -> zvalue a <> 0 -> int64_range (zvalue a ^ (- e)) ->
     granted_run power s (fun v => exact_number v /\ (qvalue v == 1 / inject_Z (zvalue a ^ (- e)))%Q)).
Proof.
  intros Ea Eb Ra Rb He Hr Hs power. split; [|split].
  - apply (granted_run_intro _ _ _ _ (fun G g => gcd_tagged_spec g a b Ea Eb Ra Rb) Hs). auto.
  - intros H0. apply (granted_run_intro _ _ _ _ (fun G g => proj1 (pow_tagged_spec g pow a f e Ea Ra He Hr) H0) Hs). auto.
  - intros H0 Hx Hf.
    apply (granted_run_intro _ _ _ _ (fun G g => proj2 (pow_tagged_spec g pow a f e Ea Ra He Hr) H0 Hx Hf) Hs). auto.
Qed.

Lemma gcd_and_power_exact_witness :
  let power := eshkol_bignum_pow_tagged (fun _ _ => 0) (int_number (-2)) (mkNumber ESHKOL_VALUE_INT64 0 (Bits (u64 (-3)))) in
  granted_run power bench
    (fun v => exact_number v /\ (qvalue v == 1 / inject_Z (zvalue (int_number (-2)) ^ (- (-3))))%Q) /\
  snd (power bench) = false.
Proof.
  split; [|vm_compute; reflexivity].
  apply (gcd_and_power_exact (fun _ _ => 0) (int_number (-2)) num_a 0 (-3) bench);
    [apply int_number_exact; unfold int64_range; lia|exact num_a_exact|reflexivity|reflexivity|unfold int64_range; lia
    |vm_compute; discriminate|exact bench_inv|lia|vm_compute; discriminate|vm_compute; split; discriminate].
Defined.

(** Reading integers: [string->number] on an optional sign and decimal digits
    returns that integer in its smallest representation, [int64_t] or bignum, so
    reading back what [eshkol_bignum_to_string] printed gives the same number. *)
Theorem string_to_number_integers {St} {A : Arena St} {L : ArenaLaws St} strtod txt z s :
  parse_decimal txt = Some z -> value_fits (Z.abs z) -> arena_inv s ->
  granted_run (eshkol_string_to_number_tagged strtod (Some txt)) s (is_exactly (inject_Z z)) /\
  (forall a s1 o s2, bignum_wf a -> arena_inv s1 -> eshkol_bignum_to_string (Some a) s1 = (o, s2, false) ->
     exists printed, o = Ret (Some printed) /\
     granted_run (eshkol_string_to_number_tagged strtod (Some printed)) s2 (is_exactly (inject_Z (bval a)))).
Proof.
  intros Hp Hf Hs. split.
  - apply (granted_run_intro _ _ _ _ (fun G g => string_to_number_spec g strtod txt z Hp Hf) Hs). auto.
  - intros a s1 o s2 Wa Hs1 E.
    destruct (wp_granted_run _ _ _ _ _ (fun G => to_string_granted a Wa) Hs1 E) as (Hs2 & r & -> & t & -> & Ht).
    exists t. split; [reflexivity|].
    apply (granted_run_intro _ _ _ _ (fun G g =>
      string_to_number_spec g strtod t (bval a) (parse_decimal_text _ _ Ht) (value_fits_wf a Wa)) Hs2). auto.
Qed.

Definition big_text : list Z := [chr_minus; 49; 56; 52; 52; 54; 55; 52; 52; 48; 55; 51; 55; 48; 57; 53; 53; 49; 54; 49; 54].

Lemma string_to_number_integers_witness :
  granted_run (eshkol_string_to_number_tagged (fun _ => (0, 0%nat)) (Some big_text)) bench
    (is_exactly (inject_Z (-18446744073709551616))) /\
  snd (eshkol_string_to_number_tagged (fun _ => (0, 0%nat)) (Some big_text) bench) = false.
Proof.
  split; [|vm_compute; reflexivity].
  apply (string_to_number_integers (fun _ => (0, 0%nat)) big_text (-18446744073709551616) bench);
    [vm_compute; reflexivity| |exact bench_inv].
  exists 2%nat. split; [unfold fits; cbn; lia|vm_compute; reflexivity].
Defined.

(** ** Where the dispatch leaves its contract *)

(** [2^63] and [2^1088]. *)
Definition big_63 : bignum := big 0 [9223372036854775808].
Definition big_1088 : bignum := big 0 (repeat 0 17 ++ [1]).

Definition returned (m : M (runtime host_heap) number) (s : runtime host_heap) : option number :=
  match m s with (Ret v, _, _) => Some v | _ => None end.

(** Where the dispatch leaves its contract: negation does not demote, so
    [- 2^63] stays a bignum although it fits [int64_t]; a negative power and a
    fraction that is read can be the rational [1/1] or [2/1] instead of an integer;
    out of memory a sum of large numbers comes out as the exact integer zero; a
    null heap pointer is dereferenced; and the double nearest to [2^1088] comes out
    NaN, since infinity is multiplied by a zero limb. *)
Theorem dispatch_edge_cases :
  returned (eshkol_bignum_binary_tagged (heap_ref 16 (Some (obj_bignum big_63))) (int_number 0) 7) bench
    = Some (heap_ref 16 (Some (obj_bignum (big 1 [9223372036854775808])))) /\
  returned (eshkol_bignum_pow_tagged (fun _ _ => 0) (int_number 1) (int_number (-1))) bench
    = Some (heap_ref 16 (Some (obj_rational (small_rational 1 1)))) /\
  returned (eshkol_string_to_number_tagged (fun _ => (0, 0%nat)) (Some [52; chr_slash; 50])) bench
    = Some (heap_ref 16 (Some (obj_rational (small_rational 2 1)))) /\
  returned (eshkol_bignum_binary_tagged num_a num_a 0) (nearly_full 16) = Some (int_number 0) /\
  (forall s, eshkol_bignum_binary_tagged (heap_ref 16 None) (int_number 0) 0 s
     = (Crash, s, false) :> outcome number * runtime host_heap * bool) /\
  decode_double (eshkol_bignum_to_double (Some big_1088)) = SpecFloat.S754_nan.
Proof.
  split; [vm_compute; reflexivity|]. split; [vm_compute; reflexivity|]. split; [vm_compute; reflexivity|].
  split; [vm_compute; reflexivity|]. split; [reflexivity|vm_compute; reflexivity].
Qed.
