(* ===== verification/Regions.v ===== *)
(** * Regions: lib/core/runtime_regions.cpp

    The arenas a thread allocates from and its stack of lexical regions: creating,
    entering, leaving and destroying regions, and the slot of the current arena that
    [with-region] redirects.  Memory is kept as nodes, the objects and raw buffers that
    live in the arenas, by address. *)

From Stdlib Require Import String ZArith List Lia Bool.
From stdpp Require Import base gmap list numbers.
From S2P Require Import Prelude Effects Arena Tagged.
Import ListNotations.
Open Scope Z_scope.
Open Scope effect_scope.

(** ** Memory *)

(** What a node is made of, in the order of the C structs: machine words of some bytes,
    tagged values, pointers to data, pointers to arenas. *)
Inductive slot : Type :=
| Word (bytes w : Z)
| Tagged (v : tagged_value)
| Pointer (p : Z)
| ArenaRef (a : Z).

Definition slot_bytes (s : slot) : Z :=
  match s with Word n _ => n | Tagged _ => 16 | Pointer _ => 8 | ArenaRef _ => 8 end.

(** An object has a header before its data, a raw buffer has none. *)
Record node : Type := mkNode { node_header : option object_header; node_slots : list slot }.

(** The first [n] bytes; [None] when they end inside a slot or after the last one. *)
Fixpoint take_bytes (n : Z) (ss : list slot) : option (list slot) :=
  if n =? 0 then Some []
  else match ss with
       | [] => None
       | s :: ss' => if slot_bytes s <=? n then option_map (cons s) (take_bytes (n - slot_bytes s) ss') else None
       end.

(** ** State *)

(** [eshkol_region_t], with its own address; [parent] is the address of a region and the
    arenas are named by their addresses. *)
Record region : Type := mkRegion {
  rg_ptr : Z;
  rg_arena : Z;
  rg_name : option Z;                 (* the address of the copy *)
  rg_parent : Z;
  rg_size_hint : Z;
  rg_escape_count : Z;
  rg_is_active : bool;
  rg_escape_base : Z;
  rg_fwd_map : option (gmap Z Z);
  rg_fwd_target : Z;
}.

Definition MAX_REGION_DEPTH : nat := 64.
Definition sizeof_region : Z := 72.

(** The process and one of its threads: the C heap, the arenas and the nodes by address,
    the region stack (innermost first), and the variables of runtime_regions.cpp.  Null
    pointers are 0. *)
Record world (H : Type) : Type := mkWorld {
  w_heap : H;
  w_arenas : gmap Z arena;
  w_mem : gmap Z node;
  region_stack : list region;
  global_arena : Z;                   (* __global_arena *)
  global_ready : bool;                (* eshkol_arena_global_once has run *)
  thread_local_arena : Z;             (* __thread_local_arena *)
  allocation_domain : Z;              (* t_memctx.allocation_domain *)
  shared_root_arena : Z;
  parallel_depth : Z;
  saved_arena_at_parallel : Z;
  is_worker : bool;                   (* arena_is_worker_thread *)
}.
Arguments mkWorld {H}.
Arguments w_heap {H}.
Arguments w_arenas {H}.
Arguments w_mem {H}.
Arguments region_stack {H}.
Arguments global_arena {H}.
Arguments global_ready {H}.
Arguments thread_local_arena {H}.
Arguments allocation_domain {H}.
Arguments shared_root_arena {H}.
Arguments parallel_depth {H}.
Arguments saved_arena_at_parallel {H}.
Arguments is_worker {H}.

Section Regions.
  Context {H : Type} {HM : Malloc H}.

Definition with_memory (h : H) (ars : gmap Z arena) (m : gmap Z node) (w : world H) : world H :=
  mkWorld h ars m (region_stack w) (global_arena w) (global_ready w) (thread_local_arena w) (allocation_domain w)
    (shared_root_arena w) (parallel_depth w) (saved_arena_at_parallel w) (is_worker w).

Definition with_stack (st : list region) (w : world H) : world H :=
  mkWorld (w_heap w) (w_arenas w) (w_mem w) st (global_arena w) (global_ready w) (thread_local_arena w) (allocation_domain w)
    (shared_root_arena w) (parallel_depth w) (saved_arena_at_parallel w) (is_worker w).

Definition set_global_arena (a : Z) (w : world H) : world H :=
  mkWorld (w_heap w) (w_arenas w) (w_mem w) (region_stack w) a (global_ready w) (thread_local_arena w) (allocation_domain w)
    (shared_root_arena w) (parallel_depth w) (saved_arena_at_parallel w) (is_worker w).

Definition set_thread_local_arena (a : Z) (w : world H) : world H :=
  mkWorld (w_heap w) (w_arenas w) (w_mem w) (region_stack w) (global_arena w) (global_ready w) a (allocation_domain w)
    (shared_root_arena w) (parallel_depth w) (saved_arena_at_parallel w) (is_worker w).

Definition set_allocation_domain (a : Z) (w : world H) : world H :=
  mkWorld (w_heap w) (w_arenas w) (w_mem w) (region_stack w) (global_arena w) (global_ready w) (thread_local_arena w) a
    (shared_root_arena w) (parallel_depth w) (saved_arena_at_parallel w) (is_worker w).

Definition set_parallel (depth saved : Z) (w : world H) : world H :=
  mkWorld (w_heap w) (w_arenas w) (w_mem w) (region_stack w) (global_arena w) (global_ready w) (thread_local_arena w)
    (allocation_domain w) (shared_root_arena w) depth saved (is_worker w).

(** ** Arenas *)

(** [arena_create], with the new arena entered by its address; [None] is null. *)
Definition create_arena (size : Z) (w : world H) : option Z * world H :=
  match arena_create size (w_heap w) with
  | (Some a, h) => (Some (ar_ptr a), with_memory h (<[ar_ptr a := a]> (w_arenas w)) (w_mem w) w)
  | (None, h) => (None, with_memory h (w_arenas w) (w_mem w) w)
  end.

(** [arena_contains_ptr]. *)
Definition arena_contains_ptr (a : arena) (p : Z) : bool :=
  negb (p =? 0) && existsb (fun b => (blk_memory b <=? p) && (p <? blk_memory b + blk_used b)) (ar_blocks a).

(** [arena_destroy]: what lived in the arena is gone with it. *)
Definition destroy_arena (ap : Z) (w : world H) : world H :=
  match w_arenas w !! ap with
  | None => w
  | Some a =>
    with_memory (arena_destroy a (w_heap w)) (delete ap (w_arenas w))
      (filter (fun e => arena_contains_ptr a (fst e) = false) (w_mem w)) w
  end.

(** [arena_allocate_aligned] in the arena at [ap]; an arena that is gone is a crash. *)
Definition allocate_in (ap size alignment : Z) : M (world H) (option Z) := fun w =>
  if ap =? 0 then (Ret None, w, false)
  else match w_arenas w !! ap with
       | None => (Crash, w, false)
       | Some a =>
         let '(p, a', h) := arena_allocate_aligned a size alignment (w_heap w) in
         (Ret p, with_memory h (<[ap := a']> (w_arenas w)) (w_mem w) w, refused p true)
       end.

(** ** The current arena *)

(** [eshkol_arena_global_once(init_global_arena_internal)]. *)
Definition global_once (w : world H) : world H :=
  if global_ready w then w
  else
    let '(p, w1) := create_arena 65536 w in
    let g := default 0 p in
    mkWorld (w_heap w1) (w_arenas w1) (w_mem w1) (region_stack w1) g true (thread_local_arena w1) (allocation_domain w1)
      g (parallel_depth w1) (saved_arena_at_parallel w1) (is_worker w1).

Definition get_global_arena (w : world H) : Z * world H :=
  let w1 := global_once w in
  (if negb (thread_local_arena w1 =? 0) then thread_local_arena w1 else global_arena w1, w1).

Definition get_global_arena_shared (w : world H) : Z * world H :=
  let w1 := global_once w in (global_arena w1, w1).

(** [eshkol_current_arena]. *)
Definition eshkol_current_arena (w : world H) : Z * world H :=
  let w1 := global_once w in
  (if negb (parallel_depth w1 =? 0) then global_arena w1
   else if negb (allocation_domain w1 =? 0) then allocation_domain w1 else global_arena w1, w1).

Definition arena_get_thread_local (w : world H) : Z * world H :=
  if negb (thread_local_arena w =? 0) then (thread_local_arena w, w) else get_global_arena w.

Definition arena_create_thread_local (size_hint : Z) (w : world H) : Z * world H :=
  if negb (thread_local_arena w =? 0) then (thread_local_arena w, w)
  else
    let '(p, w1) := create_arena (if size_hint >? 0 then size_hint else 1024 * 1024) w in
    (default 0 p, set_thread_local_arena (default 0 p) w1).

(** The region stack of a worker starts empty; the stacks of automatic differentiation are
    not modelled. *)
Definition eshkol_thread_init_worker (arena_size_hint : Z) (w : world H) : world H :=
  snd (arena_create_thread_local arena_size_hint (with_stack [] w)).

Definition eshkol_thread_shutdown_worker (w : world H) : world H :=
  with_stack [] (if negb (thread_local_arena w =? 0)
                 then set_thread_local_arena 0 (destroy_arena (thread_local_arena w) w) else w).

(** The blocks of [src] go to the end of the chain of [dest]. *)
Definition arena_merge_to_parent (dest src : Z) (w : world H) : world H :=
  if (dest =? 0) || (src =? 0) || (dest =? src) then w
  else match w_arenas w !! dest, w_arenas w !! src with
       | Some d, Some s =>
         match ar_blocks s with
         | [] => w
         | _ =>
           let d' := mkArena (ar_ptr d) (ar_blocks d ++ ar_blocks s) (ar_scopes d) (ar_default_block_size d)
                       (u64 (ar_total_allocated d + ar_total_allocated s)) (ar_bounded d) in
           let s' := mkArena (ar_ptr s) [] (ar_scopes s) (ar_default_block_size s) 0 (ar_bounded s) in
           with_memory (w_heap w) (<[src := s']> (<[dest := d']> (w_arenas w))) (w_mem w) w
         end
       | _, _ => w
       end.

(** ** Regions *)

Definition region_current (w : world H) : option region := head (region_stack w).

Definition region_get_depth (w : world H) : Z := Z.of_nat (length (region_stack w)).

(** [region_create]; the bytes of the name are its length. *)
Definition region_create (name_len : option Z) (size_hint : Z) (w : world H) : option region * world H :=
  match malloc sizeof_region (w_heap w) with
  | (None, h) => (None, with_memory h (w_arenas w) (w_mem w) w)
  | (Some rp, h) =>
    let w1 := with_memory h (w_arenas w) (w_mem w) w in
    let arena_size := if size_hint >? 0 then size_hint else 8192 in
    match create_arena (if arena_size <? 1024 then 1024 else arena_size) w1 with
    | (None, w2) => (None, with_memory (free rp (w_heap w2)) (w_arenas w2) (w_mem w2) w2)
    | (Some ap, w2) =>
      let '(name, h3) := match name_len with None => (None, w_heap w2) | Some n => malloc (n + 1) (w_heap w2) end in
      (Some (mkRegion rp ap name 0 size_hint 0 false 0 None 0), with_memory h3 (w_arenas w2) (w_mem w2) w2)
    end
  end.

Definition activate (r : region) (parent escape_base : Z) : region :=
  mkRegion (rg_ptr r) (rg_arena r) (rg_name r) parent (rg_size_hint r) (rg_escape_count r) true escape_base (rg_fwd_map r) (rg_fwd_target r).

(** A null region and a full stack are refused with a message only. *)
Definition region_push (region : option region) (w : world H) : world H :=
  match region with
  | None => w
  | Some r =>
    if Nat.leb MAX_REGION_DEPTH (length (region_stack w)) then w
    else
      match region_stack w with
      | parent :: _ =>
        if negb (rg_arena parent =? 0) then with_stack (activate r (rg_ptr parent) (rg_arena parent) :: region_stack w) w
        else let '(g, w1) := get_global_arena w in with_stack (activate r (rg_ptr parent) g :: region_stack w1) w1
      | [] => let '(g, w1) := get_global_arena w in with_stack [activate r 0 g] w1
      end
  end.

(** [region_destroy] of a region that is not on the stack any more. *)
Definition region_destroy (r : region) (w : world H) : world H :=
  let w1 := if rg_arena r =? 0 then w else destroy_arena (rg_arena r) w in
  let h1 := match rg_name r with Some n => free n (w_heap w1) | None => w_heap w1 end in
  with_memory (free (rg_ptr r) h1) (w_arenas w1) (w_mem w1) w1.

Definition region_pop (w : world H) : world H :=
  match region_stack w with
  | [] => w
  | r :: outer => region_destroy r (with_stack outer w)
  end.

(** The sentinel of [eshkol_region_enter]. *)
Definition REGION_NO_HIJACK : Z := 1.

Definition eshkol_region_enter (region : option region) (w : world H) : Z * world H :=
  match region with
  | None => (REGION_NO_HIJACK, w)
  | Some r =>
    if (rg_arena r =? 0) || negb (parallel_depth w =? 0) || is_worker w then (REGION_NO_HIJACK, w)
    else (global_arena w, set_allocation_domain (rg_arena r) (set_global_arena (rg_arena r) w))
  end.

Definition eshkol_region_leave (saved : Z) (w : world H) : world H :=
  if saved =? REGION_NO_HIJACK then w else set_allocation_domain saved (set_global_arena saved w).

Definition eshkol_parallel_scope_begin (w : world H) : world H :=
  if parallel_depth w =? 0 then
    let '(root, w1) := if negb (shared_root_arena w =? 0) then (shared_root_arena w, w) else get_global_arena_shared w in
    let w2 := set_parallel (parallel_depth w + 1) (global_arena w1) w1 in
    if negb (root =? 0) then set_global_arena root w2 else w2
  else set_parallel (parallel_depth w + 1) (saved_arena_at_parallel w) w.

Definition eshkol_parallel_scope_end (w : world H) : world H :=
  if parallel_depth w =? 1 then set_parallel 0 0 (set_global_arena (saved_arena_at_parallel w) w)
  else set_parallel (parallel_depth w - 1) (saved_arena_at_parallel w) w.

(** [region_allocate_aligned]; [region_allocate] is its case of the default alignment. *)
Definition region_allocate_aligned (size alignment : Z) : M (world H) (option Z) := fun w =>
  match region_current w with
  | Some r =>
    if negb (rg_arena r =? 0) then allocate_in (rg_arena r) size alignment w
    else let '(g, w1) := get_global_arena w in allocate_in g size alignment w1
  | None => let '(g, w1) := get_global_arena w in allocate_in g size alignment w1
  end.

Definition region_allocate (size : Z) : M (world H) (option Z) := region_allocate_aligned size DEFAULT_ALIGNMENT.

Definition region_get_name (r : option region) : option Z := match r with None => None | Some r => rg_name r end.

Definition region_get_used_memory (r : option region) (w : world H) : Z :=
  match r with
  | None => 0
  | Some r => match w_arenas w !! rg_arena r with Some a => arena_get_used_memory a | None => 0 end
  end.

Definition region_get_total_memory (r : option region) (w : world H) : Z :=
  match r with
  | None => 0
  | Some r => match w_arenas w !! rg_arena r with Some a => arena_get_total_memory a | None => 0 end
  end.

(** [region_escape_target]. *)
Definition region_escape_target (current : region) (w : world H) : Z * world H :=
  if negb (rg_escape_base current =? 0) then (rg_escape_base current, w)
  else match region_stack w with
       | _ :: parent :: _ =>
         if negb (rg_parent current =? 0) && negb (rg_arena parent =? 0) then (rg_arena parent, w) else get_global_arena w
       | _ => get_global_arena w
       end.

(** [current->escape_count++]. *)
Definition count_escape (w : world H) : world H :=
  match region_stack w with
  | [] => w
  | r :: outer =>
    with_stack (mkRegion (rg_ptr r) (rg_arena r) (rg_name r) (rg_parent r) (rg_size_hint r) (u64 (rg_escape_count r + 1)) (rg_is_active r)
                  (rg_escape_base r) (rg_fwd_map r) (rg_fwd_target r) :: outer) w
  end.

(** [region_escape] of the first [size] bytes of a node: a shallow copy. *)
Definition region_escape (p size : Z) : M (world H) (option Z) := fun w =>
  if (p =? 0) || (size =? 0) then (Ret None, w, false)
  else match region_current w with
       | None => (Ret (Some p), w, false)
       | Some current =>
         let '(target, w1) := region_escape_target current w in
         bind (allocate_in target size 8) (fun copy w2 =>
           match copy with
           | None => (Ret None, w2, false)
           | Some c =>
             match w_mem w2 !! p with
             | Some n =>
               match take_bytes size (node_slots n) with
               | Some ss => (Ret (Some c), count_escape (with_memory (w_heap w2) (w_arenas w2) (<[c := mkNode None ss]> (w_mem w2)) w2), false)
               | None => (Crash, w2, false)
               end
             | None => (Crash, w2, false)
             end
           end) w1
       end.

(** [region_index_owning]: the index from the bottom of the innermost active region whose
    arena holds the address, -1 when there is none. *)
Fixpoint owning_index (ars : gmap Z arena) (stack : list region) (p : Z) : Z :=
  match stack with
  | [] => -1
  | r :: outer =>
    match ars !! rg_arena r with
    | Some a => if arena_contains_ptr a p then Z.of_nat (length outer) else owning_index ars outer p
    | None => owning_index ars outer p
    end
  end.

Definition region_index_owning (w : world H) (p : Z) : Z := owning_index (w_arenas w) (region_stack w) p.

End Regions.
