(* ===== verification/Evacuation.v ===== *)
(** * Evacuation: the deep escape of lib/core/runtime_regions.cpp

    A value that leaves a region takes along everything it reaches in the regions that
    are about to die: a copying collector with a forwarding map and a worklist. *)

From Stdlib Require Import String ZArith List Lia Bool.
From stdpp Require Import base gmap list numbers.
From S2P Require Import Prelude Effects Arena Tagged Regions.
Import ListNotations.
Open Scope Z_scope.
Open Scope effect_scope.

(** ** Tags *)

Definition ESHKOL_VALUE_CALLABLE : Z := 9.
Definition ESHKOL_PORT_ANY_FLAG : Z := 80.
Definition CALLABLE_SUBTYPE_CLOSURE : Z := 0.

Definition is_any_heap_type (t : Z) : bool := existsb (Z.eqb t) [8; 32; 33; 34; 35; 36; 37].
Definition is_any_callable_type (t : Z) : bool := existsb (Z.eqb t) [9; 38; 39; 40].
Definition is_any_ptr_type (t : Z) : bool := is_any_heap_type t || is_any_callable_type t.

Definition is_port_type (t : Z) : bool :=
  negb (Z.land t ESHKOL_PORT_ANY_FLAG =? 0) && (Z.land t ESHKOL_VALUE_HEAP_PTR =? ESHKOL_VALUE_HEAP_PTR).

Definition is_heap_value (v : tagged_value) : bool := is_any_ptr_type (vtype v) || is_port_type (vtype v).

Definition with_data (v : tagged_value) (p : Z) : tagged_value := mkTagged (vtype v) (vflags v) (vreserved v) p.

(** How an object is traversed. *)
Inductive EvacKind : Type :=
| EVAC_LEAF | EVAC_CONS | EVAC_VECTOR | EVAC_MULTIVALUE | EVAC_HASH | EVAC_TENSOR | EVAC_EXCEPTION | EVAC_CLOSURE
| EVAC_SUBSTITUTION | EVAC_FACT | EVAC_KNOWLEDGE_BASE | EVAC_FACTOR_GRAPH | EVAC_WORKSPACE | EVAC_PROMISE | EVAC_RATIONAL.

(** By the type of the value and the subtype in the header. *)
Definition evac_kind_for (type sub : Z) : EvacKind :=
  if is_port_type type then EVAC_LEAF
  else if is_any_callable_type type then (if sub =? CALLABLE_SUBTYPE_CLOSURE then EVAC_CLOSURE else EVAC_LEAF)
  else match sub with
       | 0 => EVAC_CONS
       | 2 => EVAC_VECTOR
       | 7 => EVAC_VECTOR              (* records *)
       | 4 => EVAC_MULTIVALUE
       | 5 => EVAC_HASH
       | 3 => EVAC_TENSOR
       | 6 => EVAC_EXCEPTION
       | 12 => EVAC_SUBSTITUTION
       | 13 => EVAC_FACT
       | 15 => EVAC_KNOWLEDGE_BASE
       | 16 => EVAC_FACTOR_GRAPH
       | 17 => EVAC_WORKSPACE
       | 18 => EVAC_PROMISE
       | 19 => EVAC_RATIONAL
       | _ => EVAC_LEAF
       end.

(** ** The state of an evacuation *)

(** [EvacState] with the world it acts on; [target] and [boundary_idx] do not change. *)
Record evac (H : Type) : Type := mkEvac {
  ev_world : world H; ev_fwd : gmap Z Z; ev_worklist : list (Z * EvacKind); ev_copies : Z
}.
Arguments mkEvac {H}.
Arguments ev_world {H}.
Arguments ev_fwd {H}.
Arguments ev_worklist {H}.
Arguments ev_copies {H}.

Section Evacuation.
  Context {H : Type} {HM : Malloc H}.
  Variables (target : Z) (boundary_idx : Z).

Abbreviation E := (M (evac H)).

(** ** Access to nodes: what is not there, or not of the type expected, is a crash *)

Definition read_node (p : Z) : E node := fun s =>
  match w_mem (ev_world s) !! p with Some n => (Ret n, s, false) | None => (Crash, s, false) end.

Definition write_node (p : Z) (n : node) : E unit := fun s =>
  let w := ev_world s in
  (Ret tt, mkEvac (with_memory (w_heap w) (w_arenas w) (<[p := n]> (w_mem w)) w) (ev_fwd s) (ev_worklist s) (ev_copies s), false).

Definition read_slot (p : Z) (i : nat) : E slot := let! n := read_node p in deref (node_slots n !! i).

Definition write_slot (p : Z) (i : nat) (x : slot) : E unit :=
  let! n := read_node p in write_node p (mkNode (node_header n) (<[i := x]> (node_slots n))).

Definition word_at (p : Z) (i : nat) : E Z := let! x := read_slot p i in match x with Word _ w => ret w | _ => crash end.
Definition pointer_at (p : Z) (i : nat) : E Z := let! x := read_slot p i in match x with Pointer q => ret q | _ => crash end.
Definition tagged_at (p : Z) (i : nat) : E tagged_value := let! x := read_slot p i in match x with Tagged v => ret v | _ => crash end.

(** [for (i = from; n rounds; ++i)]. *)
Fixpoint for_range (from n : nat) (body : nat -> E unit) : E unit :=
  match n with O => ret tt | S n' => let! _ := body from in for_range (S from) n' body end.

(** [strlen]. *)
Fixpoint strlen (ss : list slot) : option Z :=
  match ss with
  | Word 1 0 :: _ => Some 0
  | Word 1 _ :: ss' => option_map Z.succ (strlen ss')
  | _ => None
  end.

(** ** Copying *)

(** [region_index_owning(p) > st.boundary_idx]. *)
Definition dying (p : Z) : E bool := fun s => (Ret (region_index_owning (ev_world s) p >? boundary_idx), s, false).

Definition forwarded (p : Z) : E (option Z) := fun s => (Ret (ev_fwd s !! p), s, false).

Definition allocate_target (size : Z) : E (option Z) := fun s =>
  let '(r, w, f) := allocate_in target size 16 (ev_world s) in (r, mkEvac w (ev_fwd s) (ev_worklist s) (ev_copies s), f).

(** The copy is entered in the map and counted. *)
Definition forward (old new : Z) (n : node) : E unit :=
  let! _ := write_node new n in
  fun s => (Ret tt, mkEvac (ev_world s) (<[old := new]> (ev_fwd s)) (ev_worklist s) (ev_copies s + 1), false).

Definition enqueue (p : Z) (k : EvacKind) : E unit := fun s =>
  (Ret tt, mkEvac (ev_world s) (ev_fwd s) ((p, k) :: ev_worklist s) (ev_copies s), false).

Definition evac_raw (old size : Z) : E Z :=
  if (old =? 0) || (size =? 0) then ret old
  else
    let! f := forwarded old in
    match f with
    | Some new => ret new
    | None =>
      let! raw := allocate_target size in
      match raw with
      | None => ret old
      | Some raw =>
        let! n := read_node old in
        let! ss := deref (take_bytes size (node_slots n)) in
        let! _ := forward old raw (mkNode None ss) in ret raw
      end
    end.

Definition evac_object (old_data type : Z) : E Z :=
  let! f := forwarded old_data in
  match f with
  | Some new => ret new
  | None =>
    let! n := read_node old_data in
    let! h := deref (node_header n) in
    let total := sizeof_object_header + hdr_size h in
    if hdr_size h =? 0 then ret old_data
    else if hdr_size h >? 268435456 then ret old_data
    else
      let! raw := allocate_target total in
      match raw with
      | None => ret old_data
      | Some raw =>
        let! ss := deref (take_bytes (hdr_size h) (node_slots n)) in
        let new_data := raw + sizeof_object_header in
        let! _ := forward old_data new_data (mkNode (Some h) ss) in
        match evac_kind_for type (hdr_subtype h) with
        | EVAC_LEAF => ret new_data
        | k => let! _ := enqueue new_data k in ret new_data
        end
      end
  end.

Definition evac_value (v : tagged_value) : E tagged_value :=
  if negb (is_heap_value v) then ret v
  else if vdata v =? 0 then ret v
  else
    let! d := dying (vdata v) in
    if negb d then ret v
    else let! np := evac_object (vdata v) (vtype v) in ret (with_data v np).

Definition evac_object_ptr (p : Z) : E Z :=
  if p =? 0 then ret p
  else
    let! d := dying p in
    if negb d then ret p else evac_object p ESHKOL_VALUE_HEAP_PTR.

(** ** Fields *)

(** [x = evac_value(st, x)]. *)
Definition fix_tagged (p : Z) (i : nat) : E unit :=
  let! v := tagged_at p i in let! v' := evac_value v in write_slot p i (Tagged v').

(** [if (x && region_index_owning(x) > st.boundary_idx) x = evac_raw(st, x, size)]. *)
Definition fix_raw (p : Z) (i : nat) (size : E Z) : E unit :=
  let! q := pointer_at p i in
  if q =? 0 then ret tt
  else
    let! d := dying q in
    if negb d then ret tt
    else let! n := size in let! q' := evac_raw q n in write_slot p i (Pointer q').

(** [strlen(x) + 1] of the string at a pointer field. *)
Definition string_size (p : Z) (i : nat) : E Z :=
  let! q := pointer_at p i in let! n := read_node q in let! l := deref (strlen (node_slots n)) in ret (l + 1).

Definition size_of (count : E Z) (bytes : Z) : E Z := let! n := count in ret (n * bytes).

Definition fix_object_ptr (p : Z) (i : nat) : E unit :=
  let! q := pointer_at p i in let! q' := evac_object_ptr q in write_slot p i (Pointer q').

Definition nat_at (p : Z) (i : nat) : E nat := let! n := word_at p i in ret (Z.to_nat n).

(** ** The cases of the traversal *)

Definition evac_cons (nd : Z) : E unit := let! _ := fix_tagged nd 0 in fix_tagged nd 1.

(** The length is signed. *)
Definition evac_vector (nd : Z) : E unit :=
  let! len := word_at nd 0 in for_range 1 (Z.to_nat (s64 len)) (fix_tagged nd).

Definition evac_multivalue (nd : Z) : E unit := let! count := nat_at nd 0 in for_range 1 count (fix_tagged nd).

Definition evac_exception (nd : Z) : E unit :=
  let! _ := fix_raw nd 2 (string_size nd 2) in
  let! _ := fix_raw nd 8 (string_size nd 8) in
  let! n := nat_at nd 4 in
  let! _ := (if Nat.eqb n 0 then ret tt else fix_raw nd 3 (ret (Z.of_nat n * 16))) in
  let! irritants := pointer_at nd 3 in
  if irritants =? 0 then ret tt else for_range 0 n (fix_tagged irritants).

Definition evac_tensor (nd : Z) : E unit :=
  let! _ := fix_raw nd 0 (size_of (word_at nd 1) 8) in fix_raw nd 2 (size_of (word_at nd 3) 8).

Definition evac_hash (nd : Z) : E unit :=
  let! cap := nat_at nd 0 in
  let! _ := fix_raw nd 3 (ret (Z.of_nat cap * 16)) in
  let! _ := fix_raw nd 4 (ret (Z.of_nat cap * 16)) in
  let! _ := fix_raw nd 5 (ret (Z.of_nat cap)) in
  let! keys := pointer_at nd 3 in
  let! values := pointer_at nd 4 in
  let! status := pointer_at nd 5 in
  let! _ := (if (keys =? 0) || (values =? 0) || (status =? 0) then ret tt
             else for_range 0 cap (fun i =>
                    let! st := word_at status i in
                    if st =? 1 then let! _ := fix_tagged keys i in fix_tagged values i else ret tt)) in
  write_slot nd 6 (ArenaRef target).

(** A capture is an integer that is the address of a cell, or a value. *)
Definition evac_capture (env : Z) (i : nat) : E unit :=
  let! cap := tagged_at env i in
  let! cell := (if (vtype cap =? ESHKOL_VALUE_INT64) && negb (vdata cap =? 0) then dying (vdata cap) else ret false) in
  if cell then
    let! nc := evac_raw (vdata cap) 16 in
    if nc =? vdata cap then ret tt
    else let! _ := fix_tagged nc 0 in write_slot env i (Tagged (with_data cap nc))
  else fix_tagged env i.

Definition evac_closure (nd : Z) : E unit :=
  let! env := pointer_at nd 1 in
  let! d := (if env =? 0 then ret false else dying env) in
  let! _ := (if d then
               let! packed := word_at env 0 in
               let ncap := Z.land packed 65535 in
               let! ne := evac_raw env (8 + ncap * 16) in
               let! _ := write_slot nd 1 (Pointer ne) in
               for_range 1 (Z.to_nat ncap) (evac_capture ne)
             else ret tt) in
  fix_raw nd 3 (string_size nd 3).

Definition evac_substitution (nd : Z) : E unit :=
  let! cap := nat_at nd 1 in let! n := nat_at nd 0 in for_range (2 + cap) n (fix_tagged nd).

Definition evac_fact (nd : Z) : E unit :=
  let! arity := nat_at nd 1 in
  let! _ := for_range 3 arity (fix_tagged nd) in fix_raw nd 0 (string_size nd 0).

Definition evac_knowledge_base (nd : Z) : E unit :=
  let! _ := fix_raw nd 2 (size_of (word_at nd 1) 8) in
  let! facts := pointer_at nd 2 in
  if facts =? 0 then ret tt
  else let! n := nat_at nd 0 in for_range 0 n (fix_object_ptr facts).

(** Each module is a name, a closure and a score. *)
Definition evac_workspace (nd : Z) : E unit :=
  let! _ := fix_raw nd 4 (size_of (word_at nd 2) 8) in
  let! n := nat_at nd 0 in
  for_range 0 n (fun i =>
    let! _ := fix_raw nd (5 + 3 * i) (string_size nd (5 + 3 * i)) in fix_tagged nd (6 + 3 * i)).

Definition evac_promise (nd : Z) : E unit := let! _ := fix_tagged nd 1 in fix_tagged nd 2.

Definition evac_rational (nd : Z) : E unit :=
  let! is_big := word_at nd 2 in
  if is_big =? 0 then ret tt
  else let! _ := fix_object_ptr nd 4 in fix_object_ptr nd 5.

(** A factor: its counts, two buffers and the indices of its variables. *)
Definition evac_factor (factors : Z) (fi : nat) : E unit :=
  let! f0 := pointer_at factors fi in
  if f0 =? 0 then ret tt
  else
    let! _ := fix_raw factors fi (let! n := word_at f0 0 in ret (24 + n * 4)) in
    let! f := pointer_at factors fi in
    let! _ := fix_raw f 2 (size_of (word_at f 1) 8) in
    fix_raw f 3 (size_of (word_at f 0) 4).

(** The messages of one factor, from edge [k] on; the edges used so far are returned. *)
Fixpoint evac_factor_messages (arr f var_dims nvars total : Z) (vi n : nat) (k : Z) : E Z :=
  match n with
  | O => ret k
  | S n' =>
    if k <? total then
      let! var_id := word_at f (4 + vi) in
      let! dim := (if negb (var_dims =? 0) && (var_id <? nvars) then word_at var_dims (Z.to_nat var_id) else ret 0) in
      let! _ := (if dim =? 0 then ret tt else fix_raw arr (Z.to_nat k) (ret (dim * 8))) in
      evac_factor_messages arr f var_dims nvars total (S vi) n' (k + 1)
    else ret k
  end.

Fixpoint evac_messages (arr factors var_dims nvars total : Z) (fi n : nat) (k : Z) : E unit :=
  match n with
  | O => ret tt
  | S n' =>
    if k <? total then
      let! f := (if factors =? 0 then ret 0 else pointer_at factors fi) in
      let! k' := (if f =? 0 then ret k
                  else let! nv := nat_at f 0 in evac_factor_messages arr f var_dims nvars total 0 nv k) in
      evac_messages arr factors var_dims nvars total (S fi) n' k'
    else ret tt
  end.

(** [evac_msg_array] of the array at a field of the graph. *)
Definition evac_msg_array (nd : Z) (i : nat) : E unit :=
  let! arr0 := pointer_at nd i in
  if arr0 =? 0 then ret tt
  else
    let! _ := fix_raw nd i (size_of (word_at nd 9) 8) in
    let! arr := pointer_at nd i in
    let! total := word_at nd 9 in
    let! nfactors := nat_at nd 1 in
    let! factors := pointer_at nd 6 in
    let! var_dims := pointer_at nd 5 in
    let! nvars := word_at nd 0 in
    evac_messages arr factors var_dims nvars total 0 nfactors 0.

Definition evac_factor_graph (nd : Z) : E unit :=
  let! nvars := nat_at nd 0 in
  let! _ := fix_raw nd 5 (ret (Z.of_nat nvars * 4)) in
  let! _ := fix_raw nd 4 (ret (Z.of_nat nvars * 8)) in
  let! beliefs := pointer_at nd 4 in
  let! var_dims := pointer_at nd 5 in
  let! _ := (if (beliefs =? 0) || (var_dims =? 0) then ret tt
             else for_range 0 nvars (fun i => fix_raw beliefs i (size_of (word_at var_dims i) 8))) in
  let! _ := fix_raw nd 11 (ret (Z.of_nat nvars)) in
  let! _ := fix_raw nd 6 (size_of (word_at nd 2) 8) in
  let! factors := pointer_at nd 6 in
  let! nfactors := nat_at nd 1 in
  let! _ := (if factors =? 0 then ret tt else for_range 0 nfactors (evac_factor factors)) in
  let! _ := evac_msg_array nd 7 in evac_msg_array nd 8.

(** ** The traversal *)

Definition evac_item (nd : Z) (k : EvacKind) : E unit :=
  match k with
  | EVAC_LEAF => ret tt
  | EVAC_CONS => evac_cons nd
  | EVAC_VECTOR => evac_vector nd
  | EVAC_MULTIVALUE => evac_multivalue nd
  | EVAC_HASH => evac_hash nd
  | EVAC_TENSOR => evac_tensor nd
  | EVAC_EXCEPTION => evac_exception nd
  | EVAC_CLOSURE => evac_closure nd
  | EVAC_SUBSTITUTION => evac_substitution nd
  | EVAC_FACT => evac_fact nd
  | EVAC_KNOWLEDGE_BASE => evac_knowledge_base nd
  | EVAC_FACTOR_GRAPH => evac_factor_graph nd
  | EVAC_WORKSPACE => evac_workspace nd
  | EVAC_PROMISE => evac_promise nd
  | EVAC_RATIONAL => evac_rational nd
  end.

(** [while (!st.worklist.empty())], the last entry first. *)
Fixpoint drain (fuel : nat) : E unit := fun s =>
  match ev_worklist s with
  | [] => ret tt s
  | (nd, k) :: rest =>
    match fuel with
    | O => diverge s
    | S fuel' =>
      bind (evac_item nd k) (fun _ => drain fuel') (mkEvac (ev_world s) (ev_fwd s) rest (ev_copies s))
    end
  end.

Definition evacuate (fuel : nat) (v : tagged_value) : E tagged_value :=
  let! root := evac_value v in let! _ := drain fuel in ret root.

End Evacuation.

Section Entry.
  Context {H : Type} {HM : Malloc H}.

(** ** Entry points *)

Definition set_fwd (r : region) (m : option (gmap Z Z)) (t : Z) (copies : Z) : region :=
  mkRegion (rg_ptr r) (rg_arena r) (rg_name r) (rg_parent r) (rg_size_hint r) (u64 (rg_escape_count r + copies)) (rg_is_active r)
    (rg_escape_base r) m t.

(** The map of the innermost region; it is emptied when the target is another one. *)
Definition forwarding_map (r : region) (target : Z) : gmap Z Z :=
  match rg_fwd_map r with
  | Some m => if rg_fwd_target r =? target then m else ∅
  | None => ∅
  end.

(** [region_evacuate_value]; every round of the loop takes an object copied once, so the
    number of nodes is fuel enough. *)
Definition region_evacuate_value (v : tagged_value) (target boundary_idx : Z) : M (world H) tagged_value := fun w =>
  if target =? 0 then (Ret v, w, false)
  else
    let fwd := match region_current w with Some r => forwarding_map r target | None => ∅ end in
    let '(o, s, f) := evacuate target boundary_idx (size (w_mem w)) v (mkEvac w fwd [] 0) in
    let w' := ev_world s in
    (o, match region_stack w' with
        | r :: outer => with_stack (set_fwd r (Some (ev_fwd s)) target (ev_copies s) :: outer) w'
        | [] => w'
        end, f).

(** [region_escape_tagged_value_impl]. *)
Definition region_escape_tagged_value (v : tagged_value) : M (world H) tagged_value := fun w =>
  if negb (is_heap_value v) then (Ret v, w, false)
  else match region_current w with
       | None => (Ret v, w, false)
       | Some current =>
         if vdata v =? 0 then (Ret v, w, false)
         else
           let '(target, w1) := region_escape_target current w in
           region_evacuate_value v target (Z.of_nat (length (region_stack w1)) - 2) w1
       end.

(** [region_escape_tagged_value_into], with [None] for a null pointer. *)
Definition region_escape_tagged_value_into (v : option tagged_value) : M (world H) tagged_value :=
  match v with None => ret zero_value | Some v => region_escape_tagged_value v end.

(** [eshkol_region_write_barrier_into]: what is stored in the object at [dst]. *)
Definition eshkol_region_write_barrier (dst : Z) (value : option tagged_value) : M (world H) tagged_value := fun w =>
  match value with
  | None => (Ret zero_value, w, false)
  | Some v =>
    if Nat.eqb (length (region_stack w)) 0 then (Ret v, w, false)
    else if negb (is_heap_value v) then (Ret v, w, false)
    else if vdata v =? 0 then (Ret v, w, false)
    else
      let val_idx := region_index_owning w (vdata v) in
      if val_idx <? 0 then (Ret v, w, false)
      else
        let dst_idx := region_index_owning w dst in
        if val_idx <=? dst_idx then (Ret v, w, false)
        else
          let target := if dst_idx >=? 0
                        then match region_stack w !! (length (region_stack w) - 1 - Z.to_nat dst_idx)%nat with Some r => rg_arena r | None => 0 end
                        else match region_stack w !! (length (region_stack w) - 1)%nat with Some r => rg_escape_base r | None => 0 end in
          let '(target, w1) := if target =? 0 then get_global_arena w else (target, w) in
          region_evacuate_value v target dst_idx w1
  end.

(** A store of the program through the barrier. *)
Definition store_tagged (dst : Z) (i : nat) (v : tagged_value) : M (world H) unit := fun w =>
  bind (eshkol_region_write_barrier dst (Some v)) (fun v' w1 =>
    match w_mem w1 !! dst with
    | Some n =>
      match node_slots n !! i with
      | Some (Tagged _) =>
        (Ret tt, with_memory (w_heap w1) (w_arenas w1) (<[dst := mkNode (node_header n) (<[i := Tagged v']> (node_slots n))]> (w_mem w1)) w1, false)
      | _ => (Crash, w1, false)
      end
    | None => (Crash, w1, false)
    end) w.

(** [eshkol_region_write_barrier_range] of [n] slots of the object at [obj], from slot [i]. *)
Fixpoint eshkol_region_write_barrier_range (dst obj : Z) (i n : nat) : M (world H) unit :=
  match n with
  | O => ret tt
  | S n' => fun w =>
    if Nat.eqb (length (region_stack w)) 0 then (Ret tt, w, false)
    else match w_mem w !! obj with
         | Some nd =>
           match node_slots nd !! i with
           | Some (Tagged v) =>
             bind (eshkol_region_write_barrier dst (Some v)) (fun v' w1 =>
               match w_mem w1 !! obj with
               | Some nd1 =>
                 eshkol_region_write_barrier_range dst obj (S i) n'
                   (with_memory (w_heap w1) (w_arenas w1)
                      (<[obj := mkNode (node_header nd1) (<[i := Tagged v']> (node_slots nd1))]> (w_mem w1)) w1)
               | None => (Crash, w1, false)
               end) w
           | _ => (Crash, w, false)
           end
         | None => (Crash, w, false)
         end
  end.

End Entry.
