(* ===== verification/RegionsSpec.v ===== *)
(** * Regions: arenas that share one heap, and which region owns an address *)

From Stdlib Require Import ZArith List Lia Bool Permutation.
From stdpp Require Import base gmap list numbers.
From S2P Require Import Prelude Effects Arena ArenaSpec ArenaRuns Tagged Regions.
Import ListNotations.
Open Scope Z_scope.

Lemma NoDup_app_clash {A} (l l' : list A) x : List.NoDup (l ++ l') -> In x l -> In x l' -> False.
Proof.
  induction l as [|y l IH]; [intros _ []|]. cbn. intros Hnd. inversion Hnd as [|? ? Hy Hnd']; subst.
  intros [->|Hx] Hx'; [|auto]. apply Hy, in_or_app. right. exact Hx'.
Qed.

(** ** The address space *)

(** What the platform promises about addresses: some integers are never inside of an
    allocation, those of the first page for one.  [good] heaps are those with nothing
    allocated there; the sentinel of [eshkol_region_enter] is such an integer. *)
Class AddressSpace (H : Type) {HM : Malloc H} : Type := {
  plain_integer : Z -> Prop;
  good : H -> Prop;
  good_malloc : forall n h r h', good h -> malloc n h = (r, h') -> good h';
  good_free : forall p h, good h -> good (free p h);
  good_live : forall h p n x, good h -> In (p, n) (live h) -> p <= x < p + n -> ~ plain_integer x;
  sentinel_plain : plain_integer REGION_NO_HIJACK;
}.

Section Pool.
  Context {H : Type} {HM : Malloc H} {ML : MallocLaws H} {AS : AddressSpace H}.

Lemma good_block n h r h' : good h -> create_arena_block n h = (r, h') -> good h'.
Proof.
  intros Hg. unfold create_arena_block. destruct (malloc sizeof_arena_block h) as [[bp|] h1] eqn:E1; [|intros [= _ <-]; exact (good_malloc _ _ _ _ Hg E1)].
  pose proof (good_malloc _ _ _ _ Hg E1) as H1. destruct (malloc n h1) as [[m|] h2] eqn:E2; intros [= _ <-]; [|apply good_free]; exact (good_malloc _ _ _ _ H1 E2).
Qed.

Lemma good_create n h r h' : good h -> arena_create n h = (r, h') -> good h'.
Proof.
  intros Hg. unfold arena_create. destruct (malloc sizeof_arena h) as [[ap|] h1] eqn:E1; [|intros [= _ <-]; exact (good_malloc _ _ _ _ Hg E1)].
  pose proof (good_malloc _ _ _ _ Hg E1) as H1. destruct (create_arena_block _ h1) as [[b|] h2] eqn:E2; intros [= _ <-]; [|apply good_free]; exact (good_block _ _ _ _ H1 E2).
Qed.

Lemma good_allocate a n al h r a' h' : good h -> arena_allocate_aligned a n al h = (r, a', h') -> good h'.
Proof.
  intros Hg. unfold arena_allocate_aligned. destruct (n =? 0); [intros [= _ _ <-]; exact Hg|].
  destruct (negb _); [intros [= _ _ <-]; exact Hg|]. destruct (n >? _); [intros [= _ _ <-]; exact Hg|].
  destruct (_ >? _); [intros [= _ _ <-]; exact Hg|]. destruct (ar_blocks a); [intros [= _ _ <-]; exact Hg|].
  destruct (_ >? _); [|intros [= _ _ <-]; exact Hg]. destruct (ar_bounded a); [intros [= _ _ <-]; exact Hg|].
  match goal with |- context [create_arena_block ?k h] => destruct (create_arena_block k h) as [[nb|] h1] eqn:E end; intros [= _ _ <-]; exact (good_block _ _ _ _ Hg E).
Qed.

Lemma good_fold {B} (f : B -> H -> H) l : (forall b h, good h -> good (f b h)) -> forall h, good h -> good (fold_left (fun h b => f b h) l h).
Proof. intros Hf. induction l as [|b l IH]; [auto|]. intros h Hg. apply IH, Hf, Hg. Qed.

Lemma good_destroy a h : good h -> good (arena_destroy a h).
Proof.
  intros Hg. apply good_free. apply (good_fold (fun sc h => free (sc_ptr sc) h)); [intros sc h' Hg'; apply good_free, Hg'|].
  apply (good_fold free_arena_block); [|exact Hg]. intros b h' Hg'. apply good_free, good_free, Hg'.
Qed.

(** ** Arenas over one heap *)

(** What an arena is by itself: the invariant without the heap. *)
Record arena_shape (a : arena) : Prop := {
  as_blocks : Forall block_ok (ar_blocks a);
  as_nonempty : ar_blocks a <> [];
  as_default : 1024 <= ar_default_block_size a < 2 ^ 63;
  as_total : ar_total_allocated a = u64 (total_size (ar_blocks a));
  as_bounded : ar_bounded a = true -> length (ar_blocks a) = 1%nat;
  as_scopes : scopes_ok (ar_blocks a) (ar_scopes a);
}.

Lemma wf_shape a h : arena_wf a h -> arena_shape a.
Proof. intros [W1 W2 W3 W4 W5 W6 W7 W8]. constructor; assumption. Qed.

Lemma shape_wf a h : heap_ok h -> owned h (regions a) -> arena_shape a -> arena_wf a h.
Proof. intros Hh Ho [W3 W4 W5 W6 W7 W8]. constructor; assumption. Qed.

(** Everything the arenas obtained from [malloc], and [others]. *)
Definition pool_regions (ars : gmap Z arena) : list (Z * Z) := flat_map (fun e => regions (snd e)) (map_to_list ars).

Record pool_ok (others : list (Z * Z)) (h : H) (ars : gmap Z arena) : Prop := {
  po_heap : heap_ok h;
  po_good : good h;
  po_owned : owned h (pool_regions ars ++ others);
  po_arenas : forall ap a, ars !! ap = Some a -> ar_ptr a = ap /\ arena_shape a;
}.

Lemma pool_regions_split ars ap a : ars !! ap = Some a ->
  Permutation (pool_regions ars) (regions a ++ pool_regions (delete ap ars)).
Proof.
  intros E. unfold pool_regions. rewrite <- (flat_map_permutation _ _ _ (map_to_list_delete ars ap a E)). reflexivity.
Qed.

Lemma owned_app_l h rs rs' : owned h (rs ++ rs') -> owned h rs.
Proof.
  intros [Hnd Hl]. split; [rewrite map_app in Hnd; exact (NoDup_app_remove_r _ _ Hnd)|].
  intros r Hr. apply Hl, in_or_app. left. exact Hr.
Qed.

Lemma owned_app_r h rs rs' : owned h (rs ++ rs') -> owned h rs'.
Proof.
  intros [Hnd Hl]. split; [rewrite map_app in Hnd; exact (NoDup_app_remove_l _ _ Hnd)|].
  intros r Hr. apply Hl, in_or_app. right. exact Hr.
Qed.

Lemma pool_split others h ars ap a : pool_ok others h ars -> ars !! ap = Some a ->
  owned h (regions a ++ pool_regions (delete ap ars) ++ others).
Proof.
  intros P E. apply (owned_perm h (pool_regions ars ++ others)); [|apply P].
  rewrite (pool_regions_split ars ap a E), app_assoc. reflexivity.
Qed.

Lemma pool_wf others h ars ap a : pool_ok others h ars -> ars !! ap = Some a -> arena_wf a h.
Proof.
  intros P E. apply shape_wf; [apply P| |apply (po_arenas _ _ _ P ap a E)].
  eapply owned_app_l, pool_split; eassumption.
Qed.

(** ** Allocation in one of them *)

Lemma bump_regions a b older t off n : ar_blocks a = b :: older -> regions (snd (bump a b older t off n)) = regions a.
Proof. intros E. unfold regions, bump. cbn. rewrite E. reflexivity. Qed.

Lemma allocate_frame a size al h r a' h' rs :
  arena_wf a h -> arena_allocate_aligned a size al h = (r, a', h') -> owned h (regions a ++ rs) -> owned h' (regions a' ++ rs).
Proof.
  intros W. unfold arena_allocate_aligned.
  destruct (size =? 0); [intros [= <- <- <-]; auto|].
  set (al' := if al =? 0 then _ else _). destruct (negb _); [intros [= <- <- <-]; auto|].
  destruct (size >? _); [intros [= <- <- <-]; auto|]. set (n := align_size size al').
  destruct (n >? _); [intros [= <- <- <-]; auto|].
  destruct (ar_blocks a) as [|b older] eqn:Eb; [intros [= <- <- <-]; auto|].
  destruct (_ >? blk_size b).
  - destruct (ar_bounded a); [intros [= <- <- <-]; auto|]. set (sz := if _ >? _ then _ else _).
    pose proof (aw_default _ _ W) as Hd.
    assert (Hs : 0 < sz) by (unfold sz; destruct (Z.gtb_spec (u64 (u64 (n + al') - 1)) (ar_default_block_size a)); lia).
    destruct (create_arena_block sz h) as [[nb|] h1] eqn:E.
    + intros [= <- <- <-] Ho. destruct (create_arena_block_some _ _ _ _ (aw_heap _ _ W) Hs E) as (_ & _ & _ & _ & K).
      eapply owned_perm; [|exact (K _ Ho)]. unfold regions. cbn. rewrite Eb. cbn [flat_map block_regions].
      rewrite <- !app_assoc. cbn [app].
      change ((ar_ptr a, sizeof_arena) :: map scope_region (ar_scopes a) ++ (blk_ptr nb, sizeof_arena_block) :: (blk_memory nb, blk_size nb) :: ?x)
        with (((ar_ptr a, sizeof_arena) :: map scope_region (ar_scopes a)) ++ [(blk_ptr nb, sizeof_arena_block); (blk_memory nb, blk_size nb)] ++ x).
      etransitivity; [|apply Permutation_app_swap_app]. reflexivity.
    + intros [= <- <- <-] Ho. apply (create_arena_block_none _ _ _ (aw_heap _ _ W) E), Ho.
  - intros [= <- <- <-]. rewrite <- (bump_regions a b older (ar_total_allocated a)
      (align_block_offset b (blk_used b) al') n Eb). auto.
Qed.

(** ** Which arena holds an address *)

(** The address lies in the used part of some block. *)
Definition holds (a : arena) (x : Z) : Prop := exists b, In b (ar_blocks a) /\ blk_memory b <= x < blk_memory b + blk_used b.

Lemma holds_spec a x : 0 < x -> arena_contains_ptr a x = true <-> holds a x.
Proof.
  intros Hx. unfold arena_contains_ptr. rewrite (proj2 (Z.eqb_neq x 0)) by lia. cbn [negb andb].
  rewrite existsb_exists. unfold holds. split; intros (b & Hb & E); exists b; (split; [exact Hb|]).
  - apply andb_true_iff in E as [E1 E2]. apply Z.leb_le in E1. apply Z.ltb_lt in E2. lia.
  - apply andb_true_iff. split; [apply Z.leb_le|apply Z.ltb_lt]; lia.
Qed.

Lemma holds_pos a h x : arena_wf a h -> holds a x -> 0 < x.
Proof. intros W (b & Hb & Hx). destruct (wf_block_geometry _ _ b W Hb) as (? & ? & ?). lia. Qed.

Lemma contains_holds a h x : arena_wf a h -> arena_contains_ptr a x = true <-> holds a x.
Proof.
  intros W. split.
  - intros E. destruct (Z.lt_decidable 0 x) as [Hx|Hx]; [apply holds_spec; assumption|].
    unfold arena_contains_ptr in E. apply andb_true_iff in E as [_ E]. apply existsb_exists in E as (b & Hb & E).
    apply andb_true_iff in E as [E _]. apply Z.leb_le in E. destruct (wf_block_geometry _ _ b W Hb) as (? & ? & ?). lia.
  - intros Hh. apply holds_spec; [exact (holds_pos _ _ _ W Hh)|exact Hh].
Qed.

(** Blocks of two arenas of a pool do not overlap. *)
Lemma pool_disjoint others h ars ap a bp b x : pool_ok others h ars -> ars !! ap = Some a -> ars !! bp = Some b ->
  holds a x -> holds b x -> ap = bp.
Proof.
  intros P Ea Eb (c & Hc & Hxc) (d & Hd & Hxd). destruct (Z.eq_dec ap bp) as [|N]; [assumption|exfalso].
  pose proof (pool_split _ _ _ _ _ P Ea) as Ho.
  assert (Ed : delete ap ars !! bp = Some b) by (rewrite lookup_delete_ne; assumption).
  assert (Ho' : owned h (regions a ++ regions b ++ pool_regions (delete bp (delete ap ars)) ++ others)).
  { eapply owned_perm; [|exact Ho]. apply Permutation_app_head. rewrite app_assoc. apply Permutation_app_tail, pool_regions_split, Ed. }
  pose proof (pool_wf _ _ _ _ _ P Ea) as Wa. pose proof (pool_wf _ _ _ _ _ P Eb) as Wb.
  destruct (wf_block_geometry _ _ c Wa Hc) as (? & ? & ?). destruct (wf_block_geometry _ _ d Wb Hd) as (? & ? & ?).
  assert (Ic : In (blk_memory c, blk_size c) (regions a)).
  { right. apply in_or_app. right. apply in_flat_map. exists c. simpl. auto. }
  assert (Id : In (blk_memory d, blk_size d) (regions b)).
  { right. apply in_or_app. right. apply in_flat_map. exists d. simpl. auto. }
  destruct Ho' as [Hnd Hl].
  destruct (heap_disjoint _ (po_heap _ _ _ P) (blk_memory c, blk_size c) (blk_memory d, blk_size d)) as [E|D].
  - apply Hl, in_or_app. left. exact Ic.
  - apply Hl, in_or_app. right. apply in_or_app. left. exact Id.
  - injection E as E _. rewrite map_app in Hnd. apply (NoDup_app_clash _ _ (blk_memory d) Hnd).
    + rewrite <- E. exact (in_map fst _ _ Ic).
    + rewrite map_app. apply in_or_app. left. exact (in_map fst _ _ Id).
  - unfold range_disjoint, disjoint_ranges in D. cbn in D. lia.
Qed.

(** What an allocation in the arena at [ap] leaves. *)
Record allocated (others : list (Z * Z)) (ars ars' : gmap Z arena) (ap p n : Z) (h' : H) : Prop := {
  al_pool : pool_ok others h' ars';
  al_other : forall bp, bp <> ap -> ars' !! bp = ars !! bp;
  al_grows : forall a a' x, ars !! ap = Some a -> ars' !! ap = Some a' -> holds a x -> holds a' x;
  al_dom : forall bp, is_Some (ars' !! bp) <-> is_Some (ars !! bp);
  al_pos : 0 < p;
  al_held : forall x, p <= x < p + n -> exists a', ars' !! ap = Some a' /\ holds a' x;
  al_fresh : forall bp b x, ars !! bp = Some b -> p <= x < p + n -> ~ holds b x;
}.

Lemma pool_insert others h ars ap a a' h' : pool_ok others h ars -> ars !! ap = Some a -> heap_ok h' -> good h' -> arena_shape a' -> ar_ptr a' = ar_ptr a ->
  (forall rs, owned h (regions a ++ rs) -> owned h' (regions a' ++ rs)) -> pool_ok others h' (<[ap := a']> ars).
Proof.
  intros P E Hh Hg Hs Hp Hf. split; [exact Hh|exact Hg| |].
  - eapply owned_perm; [|exact (Hf _ (pool_split _ _ _ _ _ P E))].
    rewrite app_assoc. apply Permutation_app_tail. symmetry.
    rewrite (pool_regions_split (<[ap := a']> ars) ap a') by apply lookup_insert_eq. rewrite delete_insert_eq. reflexivity.
  - intros bp b. destruct (Z.eq_dec bp ap) as [->|N].
    + rewrite lookup_insert_eq. intros [= <-]. split; [|exact Hs]. rewrite Hp. apply (po_arenas _ _ _ P ap a E).
    + rewrite lookup_insert_ne by congruence. apply (po_arenas _ _ _ P).
Qed.

Lemma allocate_pool others h ars ap a size r a' h' : pool_ok others h ars -> ars !! ap = Some a -> 0 < size < 2 ^ 62 ->
  arena_allocate_aligned a size 16 h = (r, a', h') ->
  match r with
  | None => a' = a /\ pool_ok others h' (<[ap := a']> ars)
  | Some p => allocated others ars (<[ap := a']> ars) ap p size h'
  end.
Proof.
  intros P E Hsz Ha. pose proof (pool_wf _ _ _ _ _ P E) as W.
  pose proof (allocate_aligned_spec a size 16 h W ltac:(lia) ltac:(lia)) as HS. rewrite Ha in HS.
  destruct HS as (W' & (F1 & F2 & F3 & F4) & HR).
  assert (P' : pool_ok others h' (<[ap := a']> ars)).
  { apply (pool_insert others h ars ap a a' h' P E); [apply W'|exact (good_allocate _ _ _ _ _ _ _ (po_good _ _ _ P) Ha)|apply (wf_shape _ _ W')|exact F1|].
    intros rs. apply (allocate_frame a size 16 h r a' h' rs W Ha). }
  destruct r as [p|]; [|split; assumption].
  change (alignment_of 16) with 16 in HR. pose proof (align_up_spec size 16 ltac:(lia)) as [Hup _].
  destruct HR as [Hp _ Hi Hf Hg].
  assert (Hheld : forall x, p <= x < p + size -> holds a' x).
  { intros x Hx. destruct Hi as (b & Hb & H1 & H2). exists b. split; [exact Hb|lia]. }
  split; [exact P'| | | |exact Hp| |].
  - intros bp Hb. apply lookup_insert_ne. congruence.
  - intros a0 a1 x E0 E1 (b & Hb & Hx). rewrite lookup_insert_eq in E1. injection E1 as <-. rewrite E in E0. injection E0 as <-.
    destruct (in_used_grows _ _ x 1 Hg) as (c & Hc & Hcx); [exists b; split; [exact Hb|lia]|]. exists c. split; [exact Hc|lia].
  - intros bp. destruct (Z.eq_dec bp ap) as [->|N]; [rewrite lookup_insert_eq, E; split; eauto|rewrite lookup_insert_ne by congruence; reflexivity].
  - intros x Hx. exists a'. rewrite lookup_insert_eq. auto.
  - intros bp b x Eb Hx Hh. destruct (Z.eq_dec bp ap) as [->|N].
    + rewrite E in Eb. injection Eb as <-. destruct Hh as (c & Hc & Hxc). specialize (Hf c Hc). unfold disjoint_ranges in Hf. lia.
    + apply N. symmetry. eapply (pool_disjoint others h' (<[ap := a']> ars) ap a' bp b x P'); [apply lookup_insert_eq| |exact (Hheld x Hx)|exact Hh].
      rewrite lookup_insert_ne by congruence. exact Eb.
Qed.

(** ** Destruction *)

Lemma destroy_pool others h ars ap a : pool_ok others h ars -> ars !! ap = Some a ->
  pool_ok others (arena_destroy a h) (delete ap ars).
Proof.
  intros P E. pose proof (destroy_drops a h) as D. split.
  - eapply heap_ok_drops; [apply P|exact D].
  - apply good_destroy, P.
  - eapply owned_drops; [exact (pool_split _ _ _ _ _ P E)|reflexivity|exact D].
  - intros bp b Hb. apply lookup_delete_Some in Hb as [_ Hb]. apply (po_arenas _ _ _ P _ _ Hb).
Qed.

Lemma pool_free others h ars p n : pool_ok ((p, n) :: others) h ars -> pool_ok others (free p h) ars.
Proof.
  intros [P1 PG P2 P3]. split; [eapply heap_ok_drops; [exact P1|apply drops_free]|exact (good_free _ _ PG)| |exact P3].
  apply (owned_drops h _ [(p, n)] (pool_regions ars ++ (p, n) :: others)); [exact P2| |apply drops_free].
  cbn [app]. symmetry. apply Permutation_middle.
Qed.

Lemma pool_malloc others h ars n p h' : pool_ok others h ars -> 0 < n -> malloc n h = (Some p, h') -> pool_ok ((p, n) :: others) h' ars.
Proof.
  intros [P1 PG P2 P3] Hn E. destruct (malloc_ok n h p h' P1 Hn E) as (O & _ & _ & K). split; [exact O|exact (good_malloc _ _ _ _ PG E)| |exact P3].
  eapply owned_perm; [|exact (K _ P2)]. apply Permutation_middle.
Qed.

Lemma pool_no_malloc others h ars n h' : pool_ok others h ars -> malloc n h = (None, h') -> pool_ok others h' ars.
Proof. intros [P1 PG P2 P3] E. destruct (malloc_fails _ _ _ E) as (F1 & F2 & _). split; auto. exact (good_malloc _ _ _ _ PG E). Qed.

Lemma pool_create others h ars n a h' : pool_ok others h ars -> arena_create n h = (Some a, h') ->
  ars !! ar_ptr a = None /\ pool_ok others h' (<[ar_ptr a := a]> ars) /\ (forall x, ~ holds a x).
Proof.
  intros P E. destruct (create_wf n h a h' (po_heap _ _ _ P) E) as (W & Hs & _ & _ & b & Eb & Hsz & Hu).
  assert (Ho : owned h' (regions a ++ pool_regions ars ++ others)).
  { revert E. unfold arena_create. set (d := if n <? 1024 then 1024 else n).
    destruct (malloc sizeof_arena h) as [[p|] h1] eqn:E1; [|discriminate].
    destruct (create_arena_block d h1) as [[c|] h2] eqn:E2; [|discriminate]. intros [= <- <-].
    destruct (malloc_ok sizeof_arena _ _ _ (po_heap _ _ _ P) eq_refl E1) as (O1 & _ & _ & K1).
    assert (Hd : 0 < d) by (unfold d; destruct (Z.ltb_spec n 1024); lia).
    destruct (create_arena_block_some d h1 c h2 O1 Hd E2) as (_ & _ & _ & _ & K2).
    eapply owned_perm; [|exact (K2 _ (K1 _ (po_owned _ _ _ P)))]. unfold regions. cbn.
    apply (Permutation_app_tail _ (Permutation_app_comm [_; _] [_])). }
  assert (Hn : ars !! ar_ptr a = None).
  { destruct (ars !! ar_ptr a) as [c|] eqn:Ec; [exfalso|reflexivity].
    destruct Ho as [Hnd _]. rewrite map_app in Hnd. apply (NoDup_app_clash _ _ (ar_ptr a) Hnd); [left; reflexivity|].
    rewrite map_app. apply in_or_app. left. destruct (po_arenas _ _ _ P _ _ Ec) as [Ep _]. rewrite <- Ep.
    apply (Permutation_in _ (Permutation_map fst (Permutation_sym (pool_regions_split ars (ar_ptr a) c Ec)))).
    rewrite map_app. apply in_or_app. left. left. reflexivity. }
  split; [exact Hn|]. split.
  - split; [apply W|exact (good_create _ _ _ _ (po_good _ _ _ P) E)| |].
    + eapply owned_perm; [|exact Ho]. rewrite app_assoc. apply Permutation_app_tail. symmetry.
      rewrite (pool_regions_split _ (ar_ptr a) a) by apply lookup_insert_eq. rewrite delete_insert_id by exact Hn. reflexivity.
    + intros bp c. destruct (Z.eq_dec bp (ar_ptr a)) as [->|N].
      * rewrite lookup_insert_eq. intros [= <-]. split; [reflexivity|apply (wf_shape _ _ W)].
      * rewrite lookup_insert_ne by congruence. apply (po_arenas _ _ _ P).
  - intros x (c & Hc & Hx). rewrite Eb in Hc. destruct Hc as [<-|[]]. lia.
Qed.

(** ** Which region owns an address *)

Lemma owning_range ars stack p : -1 <= owning_index ars stack p < Z.of_nat (length stack) \/ (stack = [] /\ owning_index ars stack p = -1).
Proof.
  induction stack as [|r stack IH]; [right; auto|]. left. cbn [owning_index length].
  destruct (ars !! rg_arena r) as [a|]; [destruct (arena_contains_ptr a p)|]; try lia; (destruct IH as [IH|[-> IH]]; [|rewrite IH; cbn]; lia).
Qed.

Definition region_holds (ars : gmap Z arena) (p : Z) (r : region) : bool :=
  match ars !! rg_arena r with Some a => arena_contains_ptr a p | None => false end.

Lemma owning_cons ars r stack p : owning_index ars (r :: stack) p = if region_holds ars p r then Z.of_nat (length stack) else owning_index ars stack p.
Proof. unfold region_holds. cbn. destruct (ars !! rg_arena r); reflexivity. Qed.

(** The regions above a boundary are those [inner] of it. *)
Lemma owning_above ars inner outer p :
  (owning_index ars (inner ++ outer) p >? Z.of_nat (length outer) - 1) = existsb (region_holds ars p) inner.
Proof.
  induction inner as [|r inner IH].
  - cbn [app existsb]. destruct (owning_range ars outer p) as [Hr|[-> ->]]; [|reflexivity]. rewrite Z.gtb_ltb. apply Z.ltb_ge. lia.
  - cbn [app existsb]. rewrite owning_cons. destruct (region_holds ars p r); cbn [orb]; [|exact IH].
    rewrite length_app, Z.gtb_ltb. apply Z.ltb_lt. lia.
Qed.

Lemma owning_outer ars inner outer p : existsb (region_holds ars p) inner = false ->
  owning_index ars (inner ++ outer) p = owning_index ars outer p.
Proof.
  induction inner as [|r inner IH]; [reflexivity|]. cbn [app existsb]. rewrite owning_cons. intros Hb.
  apply orb_false_iff in Hb as [-> Hb]. apply IH, Hb.
Qed.

(** The regions of the stack have arenas of their own. *)
Definition stack_arenas (ars : gmap Z arena) (stack : list region) : Prop :=
  NoDup (map rg_arena stack) /\ Forall (fun r => is_Some (ars !! rg_arena r)) stack.

Lemma owning_of others h ars stack inner r outer a p : pool_ok others h ars -> stack = inner ++ r :: outer -> NoDup (map rg_arena stack) ->
  ars !! rg_arena r = Some a -> holds a p -> owning_index ars stack p = Z.of_nat (length outer).
Proof.
  intros P -> Hnd Ea Hh. rewrite owning_outer.
  - rewrite owning_cons. unfold region_holds. rewrite Ea, (proj2 (contains_holds a h p (pool_wf _ _ _ _ _ P Ea)) Hh). reflexivity.
  - apply not_true_is_false. intros Hb. apply existsb_exists in Hb as (r' & Hr' & Hb). unfold region_holds in Hb.
    destruct (ars !! rg_arena r') as [b|] eqn:Eb; [|discriminate]. apply (contains_holds b h p (pool_wf _ _ _ _ _ P Eb)) in Hb.
    pose proof (pool_disjoint _ _ _ _ _ _ _ p P Ea Eb Hh Hb) as E.
    rewrite map_app in Hnd. apply NoDup_ListNoDup in Hnd. apply (NoDup_app_clash _ _ (rg_arena r') Hnd).
    + apply in_map, Hr'.
    + rewrite <- E. left. reflexivity.
Qed.

Lemma owning_none others h ars stack p : pool_ok others h ars -> (forall r a, r ∈ stack -> ars !! rg_arena r = Some a -> ~ holds a p) ->
  owning_index ars stack p = -1.
Proof.
  intros P. induction stack as [|r stack IH]; [reflexivity|]. intros Hn. rewrite owning_cons. unfold region_holds.
  destruct (ars !! rg_arena r) as [a|] eqn:Ea.
  - destruct (arena_contains_ptr a p) eqn:Ec.
    + apply (contains_holds a h p (pool_wf _ _ _ _ _ P Ea)) in Ec. destruct (Hn r a); [left|exact Ea|exact Ec].
    + apply IH. intros r' a' Hr'. apply Hn. right. exact Hr'.
  - apply IH. intros r' a' Hr'. apply Hn. right. exact Hr'.
Qed.

End Pool.
