(* ===== verification/HeapTyping.v ===== *)
(** * Heap typing: what the nodes of memory are, for evacuation

    Every node has a type: an object of some kind, or a raw buffer.  A well-typed node
    refers to nodes of the right types that live at least as long as itself. *)

From Stdlib Require Import ZArith List Lia Bool.
From stdpp Require Import base gmap list numbers.
From S2P Require Import Prelude Effects Arena Tagged Regions Evacuation.
Import ListNotations.
Open Scope Z_scope.

(** ** Types *)

(** [Buffer o i] is the buffer that belongs to the field [i] of the object at [o], and to
    no other; strings, arrays of words and the cells of captured variables may be shared. *)
Inductive ty : Type :=
| Obj (k : EvacKind) (sub : Z)
| RString
| RWords (bytes n : Z)
| RCell
| Buffer (o : Z) (i : nat).

Definition total_bytes (ss : list slot) : Z := fold_right (fun s n => slot_bytes s + n) 0 ss.

Definition is_word (s : slot) : Prop := exists b w, s = Word b w.

Section Typing.
  (** [loc] is the index of the region that owns an address, -1 outside of all regions;
      [plain] are the integers that are no addresses. *)
  Variables (plain : Z -> Prop) (loc : Z -> Z).

Section References.
  Variables (G : gmap Z ty) (bound : Z).

(** A value that refers to an object of a region up to [bound]. *)
Definition vok (v : tagged_value) : Prop :=
  is_heap_value v = true -> vdata v <> 0 ->
  exists sub, G !! vdata v = Some (Obj (evac_kind_for (vtype v) sub) sub) /\ loc (vdata v) <= bound.

(** A captured variable: a value, or an integer that is a cell or no address at all. *)
Definition cok (v : tagged_value) : Prop :=
  vok v /\ (vtype v = ESHKOL_VALUE_INT64 -> vdata v <> 0 -> (G !! vdata v = Some RCell /\ loc (vdata v) <= bound) \/ plain (vdata v)).

(** A pointer to a shared buffer, or null. *)
Definition pok (t : ty) (q : Z) : Prop := q = 0 \/ (G !! q = Some t /\ loc q <= bound).

Definition wordsok (b n q : Z) : Prop := q = 0 \/ (G !! q = Some (RWords b n) /\ loc q <= bound).

(** A pointer to an object, or null. *)
Definition objok (q : Z) : Prop := q = 0 \/ exists sub, G !! q = Some (Obj (evac_kind_for ESHKOL_VALUE_HEAP_PTR sub) sub) /\ loc q <= bound.

End References.

(** The buffer of a field of [p], with its contents. *)
Definition bok (G : gmap Z ty) (m : gmap Z node) (p : Z) (i : nat) (q : Z) (ss : list slot) : Prop :=
  G !! q = Some (Buffer p i) /\ loc q = loc p /\ m !! q = Some (mkNode None ss).

Definition ws_module : Type := Z * tagged_value * Z.
Definition module_slots (x : ws_module) : list slot := let '(name, f, s) := x in [Pointer name; Tagged f; Word 8 s].

(** The slots of an object, by its kind. *)
Definition kind_ok (G : gmap Z ty) (m : gmap Z node) (p : Z) (k : EvacKind) (ss : list slot) : Prop :=
  let v_ok := vok G (loc p) in
  match k with
  | EVAC_LEAF => Forall is_word ss
  | EVAC_CONS => exists a d, ss = [Tagged a; Tagged d] /\ v_ok a /\ v_ok d
  | EVAC_VECTOR => exists len vs, ss = Word 8 len :: map Tagged vs /\ s64 len = Z.of_nat (length vs) /\ Forall v_ok vs
  | EVAC_MULTIVALUE => exists vs, ss = Word 8 (Z.of_nat (length vs)) :: map Tagged vs /\ Forall v_ok vs
  | EVAC_PROMISE => exists f a d, ss = [Word 8 f; Tagged a; Tagged d] /\ v_ok a /\ v_ok d
  | EVAC_RATIONAL =>
    exists n d big r bn bd, ss = [Word 8 n; Word 8 d; Word 4 big; Word 4 r; Pointer bn; Pointer bd] /\
      (big <> 0 -> objok G (loc p) bn /\ objok G (loc p) bd)
  | EVAC_TENSOR =>
    exists d nd e te dt, ss = [Pointer d; Word 8 nd; Pointer e; Word 8 te; Word 8 dt] /\ wordsok G (loc p) 8 nd d /\ wordsok G (loc p) 8 te e
  | EVAC_FACT =>
    exists pr pad args, ss = Pointer pr :: Word 4 (Z.of_nat (length args)) :: Word 4 pad :: map Tagged args /\
      pok G (loc p) RString pr /\ Forall v_ok args
  | EVAC_SUBSTITUTION =>
    exists n ids ts, ss = Word 4 (Z.of_nat n) :: Word 4 (Z.of_nat (length ts)) :: map (Word 8) ids ++ map Tagged ts /\
      length ids = length ts /\ (n <= length ts)%nat /\ Forall v_ok (firstn n ts)
  | EVAC_EXCEPTION =>
    exists t x1 msg irr n line col x2 file,
      ss = [Word 4 t; Word 4 x1; Pointer msg; Pointer irr; Word 4 (Z.of_nat n); Word 4 line; Word 4 col; Word 4 x2; Pointer file] /\
      pok G (loc p) RString msg /\ pok G (loc p) RString file /\
      (n = O \/ irr = 0 \/ exists vs, bok G m p 3 irr (map Tagged vs) /\ length vs = n /\ Forall v_ok vs)
  | EVAC_HASH =>
    exists size tombs keys values status home ks vs st,
      ss = [Word 8 (Z.of_nat (length st)); Word 8 size; Word 8 tombs; Pointer keys; Pointer values; Pointer status; ArenaRef home] /\
      st <> [] /\ length ks = length st /\ length vs = length st /\
      bok G m p 3 keys (map Tagged ks) /\ bok G m p 4 values (map Tagged vs) /\ bok G m p 5 status (map (Word 1) st) /\
      keys <> 0 /\ values <> 0 /\ status <> 0 /\
      forall i x y, st !! i = Some 1 -> ks !! i = Some x -> vs !! i = Some y -> v_ok x /\ v_ok y
  | EVAC_CLOSURE =>
    exists f env sx name rest, ss = Word 8 f :: Pointer env :: Word 8 sx :: Pointer name :: rest /\ Forall is_word rest /\
      pok G (loc p) RString name /\
      (env = 0 \/ exists packed vs, bok G m p 1 env (Word 8 packed :: map Tagged vs) /\
                   Z.land packed 65535 = Z.of_nat (length vs) /\ Forall (cok G (loc p)) vs)
  | EVAC_KNOWLEDGE_BASE =>
    exists n cap facts, ss = [Word 4 (Z.of_nat n); Word 4 (Z.of_nat cap); Pointer facts] /\
      (facts = 0 \/ exists ps, bok G m p 2 facts (map Pointer ps) /\ length ps = cap /\ (0 < cap)%nat /\ (n <= cap)%nat /\
                               Forall (objok G (loc p)) (firstn n ps))
  | EVAC_WORKSPACE =>
    exists n mx dim step content mods,
      ss = Word 4 (Z.of_nat n) :: Word 4 mx :: Word 4 dim :: Word 4 step :: Pointer content :: flat_map module_slots mods /\
      (n <= length mods)%nat /\ wordsok G (loc p) 8 dim content /\
      Forall (fun x => pok G (loc p) RString (fst (fst x)) /\ v_ok (snd (fst x))) (firstn n mods)
  | EVAC_FACTOR_GRAPH => False
  end.

Definition node_ok (G : gmap Z ty) (m : gmap Z node) (p : Z) (t : ty) (n : node) : Prop :=
  0 < total_bytes (node_slots n) < 2 ^ 61 /\ Forall (fun s => 0 < slot_bytes s) (node_slots n) /\
  match t with
  | Obj k sub =>
    exists h, node_header n = Some h /\ hdr_subtype h = sub /\ hdr_size h = total_bytes (node_slots n) /\
      hdr_size h <= 268435456 /\ kind_ok G m p k (node_slots n)
  | RString => node_header n = None /\ exists cs, node_slots n = map (Word 1) cs ++ [Word 1 0] /\ Forall (fun c => c <> 0) cs
  | RWords b c => node_header n = None /\ exists ws, node_slots n = map (Word b) ws /\ Z.of_nat (length ws) = c
  | RCell => node_header n = None /\ exists v, node_slots n = [Tagged v] /\ vok G (loc p) v
  | Buffer _ _ => node_header n = None
  end.

(** ** Growing memory *)

Lemma vok_mono G G' b b' v : G ⊆ G' -> b <= b' -> vok G b v -> vok G' b' v.
Proof.
  intros HG Hb Hv H1 H2. destruct (Hv H1 H2) as (sub & E & Hl). exists sub. split; [|lia].
  eapply lookup_weaken; eassumption.
Qed.

Lemma cok_mono G G' b b' v : G ⊆ G' -> b <= b' -> cok G b v -> cok G' b' v.
Proof.
  intros HG Hb [Hv Hc]. split; [exact (vok_mono _ _ _ _ _ HG Hb Hv)|]. intros H1 H2.
  destruct (Hc H1 H2) as [[E Hl]|Hp]; [left|right; exact Hp]. split; [eapply lookup_weaken; eassumption|lia].
Qed.

Lemma pok_mono G G' b b' t q : G ⊆ G' -> b <= b' -> pok G b t q -> pok G' b' t q.
Proof. intros HG Hb [->|[E Hl]]; [left; reflexivity|right]. split; [eapply lookup_weaken; eassumption|lia]. Qed.

Lemma wordsok_mono G G' b b' n c q : G ⊆ G' -> b <= b' -> wordsok G b n c q -> wordsok G' b' n c q.
Proof. intros HG Hb [->|[E Hl]]; [left; reflexivity|right]. split; [eapply lookup_weaken; eassumption|lia]. Qed.

Lemma objok_mono G G' b b' q : G ⊆ G' -> b <= b' -> objok G b q -> objok G' b' q.
Proof.
  intros HG Hb [->|(sub & E & Hl)]; [left; reflexivity|right]. exists sub. split; [eapply lookup_weaken; eassumption|lia].
Qed.

(** The buffers of [p] are the same in two memories. *)
Definition same_buffers (G : gmap Z ty) (m m' : gmap Z node) (p : Z) : Prop :=
  forall q i n, G !! q = Some (Buffer p i) -> m !! q = Some n -> m' !! q = Some n.

Lemma bok_mono G G' m m' p i q ss : G ⊆ G' -> same_buffers G m m' p -> bok G m p i q ss -> bok G' m' p i q ss.
Proof. intros HG Hs (E & Hl & Em). split; [eapply lookup_weaken; eassumption|]. split; [exact Hl|]. exact (Hs q i _ E Em). Qed.

Lemma Forall_mono {A} (P Q : A -> Prop) l : (forall x, P x -> Q x) -> Forall P l -> Forall Q l.
Proof. intros Hi Hl. eapply Forall_impl; [|exact Hl]. exact Hi. Qed.

End Typing.

(** ** From one typing of memory to another *)

(** References from [p] that are right in one typing are right in the other. *)
Record carries (plain : Z -> Prop) (loc loc' : Z -> Z) (G G' : gmap Z ty) (m m' : gmap Z node) (p : Z) : Prop := {
  ca_value : forall v, vok loc G (loc p) v -> vok loc' G' (loc' p) v;
  ca_capture : forall v, cok plain loc G (loc p) v -> cok plain loc' G' (loc' p) v;
  ca_pointer : forall t q, pok loc G (loc p) t q -> pok loc' G' (loc' p) t q;
  ca_words : forall b n q, wordsok loc G (loc p) b n q -> wordsok loc' G' (loc' p) b n q;
  ca_object : forall q, objok loc G (loc p) q -> objok loc' G' (loc' p) q;
  ca_buffer : forall i q ss, bok loc G m p i q ss -> bok loc' G' m' p i q ss;
}.

Lemma kind_ok_carries plain loc loc' G G' m m' p k ss : carries plain loc loc' G G' m m' p ->
  kind_ok plain loc G m p k ss -> kind_ok plain loc' G' m' p k ss.
Proof.
  intros [Hv Hc Hp Hw Ho Hb]. pose proof (fun l => Forall_mono _ _ l Hv) as Hl. destruct k; cbn [kind_ok].
  - auto.
  - intros (a & d & -> & H1 & H2). eauto 10.
  - intros (len & vs & -> & H1 & H2). eauto 10.
  - intros (vs & -> & H1). eauto.
  - intros (sz & tb & ks & vs & st & hm & lk & lv & ls & -> & H1 & H2 & H3 & H4 & H5 & H6 & H7 & H8 & H9 & H10).
    exists sz, tb, ks, vs, st, hm, lk, lv, ls. split; [reflexivity|]. repeat (split; [first [assumption|apply Hb; assumption]|]).
    intros i x y E1 E2 E3. destruct (H10 i x y E1 E2 E3). auto.
  - intros (d & nd & e & te & dt & -> & H1 & H2). do 5 eexists. split; [reflexivity|]. auto.
  - intros (t & x1 & msg & irr & n & line & col & x2 & file & -> & H1 & H2 & H3).
    do 9 eexists. split; [reflexivity|]. split; [auto|]. split; [auto|].
    destruct H3 as [->|[->|(vs & H4 & H5 & H6)]]; [auto|auto|]. right; right. exists vs. auto.
  - intros (f & env & sx & nm & rest & -> & H1 & H2 & H3). do 5 eexists. split; [reflexivity|]. split; [exact H1|]. split; [auto|].
    destruct H3 as [->|(pk & vs & H4 & H5 & H6)]; [auto|]. right. exists pk, vs. split; [auto|]. split; [exact H5|]. exact (Forall_mono _ _ _ Hc H6).
  - intros (n & ids & ts & -> & H1 & H2 & H3). do 3 eexists. split; [reflexivity|]. auto.
  - intros (pr & pad & args & -> & H1 & H2). do 3 eexists. split; [reflexivity|]. auto.
  - intros (n & cap & facts & -> & H1). do 3 eexists. split; [reflexivity|]. destruct H1 as [->|(ps & H2 & H3 & H4 & H5 & H6)]; [auto|].
    right. exists ps. split; [auto|]. repeat (split; [assumption|]). exact (Forall_mono _ _ _ Ho H6).
  - auto.
  - intros (n & mx & dim & st & c & mods & -> & H1 & H2 & H3). do 6 eexists. split; [reflexivity|]. split; [exact H1|]. split; [auto|].
    eapply Forall_mono; [|exact H3]. intros x [Hx1 Hx2]. auto.
  - intros (f & a & d & -> & H1 & H2). eauto 10.
  - intros (n & d & big & r & bn & bd & -> & H1). do 6 eexists. split; [reflexivity|]. intros E. destruct (H1 E). auto.
Qed.

Lemma node_ok_carries plain loc loc' G G' m m' p t n : carries plain loc loc' G G' m m' p -> node_ok plain loc G m p t n -> node_ok plain loc' G' m' p t n.
Proof.
  intros Hc (Hb & Hw & Ht). split; [exact Hb|]. split; [exact Hw|]. destruct t; try exact Ht.
  - destruct Ht as (h & H1 & H2 & H3 & H4 & H5). exists h. repeat (split; [assumption|]). exact (kind_ok_carries _ _ _ _ _ _ _ _ _ _ Hc H5).
  - destruct Ht as (H1 & v & H2 & H3). split; [exact H1|]. exists v. split; [exact H2|]. exact (ca_value _ _ _ _ _ _ _ _ Hc v H3).
Qed.

(** What is referred to keeps its type, and is not moved out of reach. *)
Lemma carries_typed plain loc loc' (G G' : gmap Z ty) m m' p :
  (forall q t, G !! q = Some t -> loc q <= loc p -> G' !! q = Some t /\ loc' q <= loc' p) ->
  (forall q i n, G !! q = Some (Buffer p i) -> loc q = loc p -> m !! q = Some n -> m' !! q = Some n /\ loc' q = loc' p) ->
  carries plain loc loc' G G' m m' p.
Proof.
  intros Ht Hb.
  assert (Hv : forall v, vok loc G (loc p) v -> vok loc' G' (loc' p) v).
  { intros v Hv H1 H2. destruct (Hv H1 H2) as (sub & E & Hl). exists sub. exact (Ht _ _ E Hl). }
  assert (Hp : forall t q, pok loc G (loc p) t q -> pok loc' G' (loc' p) t q).
  { intros t q [->|[E Hl]]; [left; reflexivity|right]. exact (Ht _ _ E Hl). }
  split; [exact Hv| |exact Hp| | |].
  - intros v [H1 H2]. split; [exact (Hv v H1)|]. intros E1 E2. destruct (H2 E1 E2) as [[E Hl]|Hpl]; [left|right; exact Hpl]. exact (Ht _ _ E Hl).
  - intros b n q. apply (Hp (RWords b n)).
  - intros q [->|(sub & E & Hl)]; [left; reflexivity|right]. exists sub. exact (Ht _ _ E Hl).
  - intros i q ss (E & El & Em). destruct (Ht q _ E ltac:(lia)) as [E' _]. destruct (Hb q i _ E El Em) as [Em' El']. repeat split; assumption.
Qed.

Lemma node_ok_mono plain loc G G' m m' p t n : G ⊆ G' -> same_buffers G m m' p -> node_ok plain loc G m p t n -> node_ok plain loc G' m' p t n.
Proof.
  intros HG Hs. apply node_ok_carries, carries_typed.
  - intros q t' E Hl. split; [eapply lookup_weaken; eassumption|exact Hl].
  - intros q i n' E El Em. split; [exact (Hs q i n' E Em)|exact El].
Qed.

(** ** Bytes *)

Lemma slot_bytes_pos ss : Forall (fun s => 0 < slot_bytes s) ss -> 0 <= total_bytes ss.
Proof. induction 1; cbn; [lia|]. fold (total_bytes l) in *. unfold total_bytes in *. lia. Qed.

Lemma total_bytes_app ss ss' : total_bytes (ss ++ ss') = total_bytes ss + total_bytes ss'.
Proof. induction ss as [|s ss IH]; [reflexivity|]. cbn [app total_bytes fold_right]. fold (total_bytes (ss ++ ss')) (total_bytes ss). lia. Qed.

Lemma take_bytes_all ss : Forall (fun s => 0 < slot_bytes s) ss -> take_bytes (total_bytes ss) ss = Some ss.
Proof.
  induction 1 as [|s ss Hs Hss IH]; [reflexivity|]. cbn [take_bytes total_bytes fold_right]. fold (total_bytes ss).
  pose proof (slot_bytes_pos ss Hss). destruct (Z.eqb_spec (slot_bytes s + total_bytes ss) 0); [lia|].
  destruct (Z.leb_spec (slot_bytes s) (slot_bytes s + total_bytes ss)); [|lia].
  replace (slot_bytes s + total_bytes ss - slot_bytes s) with (total_bytes ss) by lia. rewrite IH. reflexivity.
Qed.

Lemma total_bytes_map {A} (f : A -> slot) b l : (forall x, slot_bytes (f x) = b) -> total_bytes (map f l) = b * Z.of_nat (length l).
Proof.
  intros Hf. induction l as [|x l IH]; [cbn; lia|]. cbn [map total_bytes fold_right length]. fold (total_bytes (map f l)).
  rewrite Hf, IH. lia.
Qed.

Lemma strlen_string cs : Forall (fun c => c <> 0) cs -> strlen (map (Word 1) cs ++ [Word 1 0]) = Some (Z.of_nat (length cs)).
Proof.
  induction 1 as [|c cs Hc _ IH]; [reflexivity|]. cbn [map app strlen]. rewrite IH. cbn [option_map length].
  destruct c; [congruence|f_equal; lia..].
Qed.
