(* ===== verification/EvacuationSpec.v ===== *)
(** * Evacuation keeps memory well-typed

    The invariant of the traversal, in which an object that waits in the worklist is a
    verbatim copy of its original, and what each step of the code does to it. *)

From Stdlib Require Import ZArith List Lia Bool.
From stdpp Require Import base gmap list numbers.
From S2P Require Import Prelude Effects Arena ArenaSpec Tagged Regions RegionsSpec Evacuation HeapTyping.
Import ListNotations.
Open Scope Z_scope.
Open Scope effect_scope.

(** The address that a slot refers to; an integer is the address of a cell or none. *)
Definition slot_refers (G : gmap Z ty) (x : slot) (q : Z) : Prop :=
  match x with
  | Tagged u => q = vdata u /\ (is_heap_value u = true \/ (vtype u = ESHKOL_VALUE_INT64 /\ G !! q = Some RCell))
  | Pointer p => q = p
  | Word _ _ | ArenaRef _ => False
  end.

(** An evacuation: out of the regions [inner], the others being [outer], into the arena
    [target]; the world, its typing and the forwarding map it starts from; and what the
    value that escapes reaches. *)
Class evac_setup (H : Type) : Type := {
  target : Z; plain : Z -> Prop; others : list (Z * Z); w0 : world H; G0 : gmap Z ty;
  inner : list region; outer : list region; fwd0 : gmap Z Z; reached : Z -> Prop;
}.

Section Evac.
  Context {H : Type} {HM : Malloc H} {ML : MallocLaws H} {AS : AddressSpace H} {U : evac_setup H}.

Abbreviation mem0 := (w_mem w0).
Abbreviation ars0 := (w_arenas w0).

Definition boundary : Z := Z.of_nat (length outer) - 1.

(** Whether an address is in a region that dies. *)
Definition dy (p : Z) : bool := existsb (region_holds ars0 p) inner.

(** Where a node is; the copies are with the target. *)
Definition lc (p : Z) : Z := match mem0 !! p with Some _ => owning_index ars0 (inner ++ outer) p | None => boundary end.

(** The copy has the type of the original; its buffers belong to the copy of the owner. *)
Definition same_ty (fwd : gmap Z Z) (t t' : ty) : Prop :=
  match t, t' with
  | Buffer o i, Buffer o' i' => i = i' /\ fwd !! o = Some o'
  | Buffer _ _, _ | _, Buffer _ _ => False
  | _, _ => t = t'
  end.

(** A slot of the copy: that of the original, with the pointer it holds forwarded or not. *)
Definition slot_image (fwd : gmap Z Z) (x x' : slot) : Prop :=
  x' = x \/
  match x with
  | Tagged v => exists q, fwd !! vdata v = Some q /\ x' = Tagged (with_data v q)
  | Pointer p => exists q, fwd !! p = Some q /\ x' = Pointer q
  | ArenaRef _ => x' = ArenaRef target
  | Word _ _ => False
  end.

Definition image_of (fwd : gmap Z Z) (m : gmap Z node) (p q : Z) : Prop :=
  exists n n', mem0 !! p = Some n /\ m !! q = Some n' /\ node_header n' = node_header n /\
    Forall2 (slot_image fwd) (node_slots n) (node_slots n').

Record evac_base : Prop := {
  eb_stack : region_stack w0 = inner ++ outer;
  eb_arenas : stack_arenas ars0 (inner ++ outer);
  eb_target : match outer with [] => target ∉ map rg_arena inner | r :: _ => target = rg_arena r end;
  eb_pool : pool_ok others (w_heap w0) ars0;
  eb_alive : is_Some (ars0 !! target);
  eb_placed : forall p n, mem0 !! p = Some n -> exists ap a, ars0 !! ap = Some a /\ holds a p;
  eb_typed : forall p t, G0 !! p = Some t -> exists n, mem0 !! p = Some n /\ node_ok plain lc G0 mem0 p t n;
  eb_plain : forall p, plain p -> dy p = false;
  eb_reach : forall p n x q, reached p -> mem0 !! p = Some n -> x ∈ node_slots n -> slot_refers G0 x q -> is_Some (G0 !! q) -> boundary < lc q -> reached q;
}.

(** [nd] is a verbatim copy whose interior has not been visited. *)
Definition pending (G : gmap Z ty) (s : evac H) (nd : Z) (k : EvacKind) : Prop :=
  exists T sub, ev_fwd s !! T = Some nd /\ G0 !! T = Some (Obj k sub) /\ G !! nd = Some (Obj k sub) /\
    w_mem (ev_world s) !! nd = mem0 !! T /\ mem0 !! nd = None /\ boundary < lc T /\
    forall q i, G0 !! q = Some (Buffer T i) -> ev_fwd s !! q = None.

(** The invariant; the nodes [X] are being worked on. *)
Record einv (G : gmap Z ty) (X : list Z) (s : evac H) : Prop := {
  ei_world : exists h ars m, ev_world s = with_memory h ars m w0;
  ei_pool : pool_ok others (w_heap (ev_world s)) (w_arenas (ev_world s));
  ei_other : forall bp, bp <> target -> w_arenas (ev_world s) !! bp = ars0 !! bp;
  ei_target : is_Some (w_arenas (ev_world s) !! target);
  ei_grow : forall a0 a x, ars0 !! target = Some a0 -> w_arenas (ev_world s) !! target = Some a -> holds a0 x -> holds a x;
  ei_old : mem0 ⊆ w_mem (ev_world s);
  ei_placed : forall p n, w_mem (ev_world s) !! p = Some n -> mem0 !! p = None ->
              exists a, w_arenas (ev_world s) !! target = Some a /\ holds a p;
  ei_G : G0 ⊆ G;
  ei_new : forall p t n, G !! p = Some t -> mem0 !! p = Some n -> G0 !! p = Some t;
  ei_typed : forall p t, G !! p = Some t -> exists n, w_mem (ev_world s) !! p = Some n /\
             ((exists k, (p, k) ∈ ev_worklist s) \/ p ∈ X \/ node_ok plain lc G (w_mem (ev_world s)) p t n);
  ei_fwd : forall p q, ev_fwd s !! p = Some q -> exists t t', G0 !! p = Some t /\ G !! q = Some t' /\
           same_ty (ev_fwd s) t t' /\ lc q <= boundary /\ boundary < lc p;
  ei_image : forall p q, ev_fwd s !! p = Some q -> (fwd0 !! p = Some q /\ mem0 !! q <> None) \/
             (mem0 !! q = None /\ image_of (ev_fwd s) (w_mem (ev_world s)) p q);
  ei_inj : forall p p' q, ev_fwd s !! p = Some q -> ev_fwd s !! p' = Some q -> mem0 !! q = None -> p = p';
  ei_work : forall nd k, (nd, k) ∈ ev_worklist s -> pending G s nd k;
  ei_nodup : NoDup (map fst (ev_worklist s));
  ei_open : forall p, p ∈ X -> mem0 !! p = None /\ (forall k, (p, k) ∉ ev_worklist s) /\
            forall o i, G !! p = Some (Buffer o i) -> o ∈ X;
  ei_there : forall p, p ∈ X -> is_Some (w_mem (ev_world s) !! p);
  ei_reach : forall p q, ev_fwd s !! p = Some q -> mem0 !! q = None -> reached p;
  ei_copies : forall q n, w_mem (ev_world s) !! q = Some n -> mem0 !! q = None -> exists p, ev_fwd s !! p = Some q;
}.

(** Rounds that may be left: the nodes not copied yet and those that wait. *)
Definition measure (s : evac H) : nat := (size (dom mem0 ∖ dom (ev_fwd s) : gset Z) + length (ev_worklist s))%nat.

(** What a step keeps: all nodes but those of [D]; the buffers it forwards are in [B]. *)
Record ext (D B : list Z) (G : gmap Z ty) (s : evac H) (G' : gmap Z ty) (s' : evac H) : Prop := {
  ex_G : G ⊆ G';
  ex_mem : forall p n, p ∉ D -> w_mem (ev_world s) !! p = Some n -> w_mem (ev_world s') !! p = Some n;
  ex_fwd : ev_fwd s ⊆ ev_fwd s';
  ex_buffers : forall q o i, G0 !! q = Some (Buffer o i) -> q ∉ B -> ev_fwd s !! q = None -> ev_fwd s' !! q = None;
  ex_measure : (measure s' <= measure s)%nat;
}.

Lemma ext_refl D B G s : ext D B G s G s.
Proof. split; auto. Qed.

Lemma ext_trans D B G s G1 s1 G2 s2 : ext D B G s G1 s1 -> ext D B G1 s1 G2 s2 -> ext D B G s G2 s2.
Proof.
  intros [A1 A2 A3 A4 A5] [B1 B2 B3 B4 B5]. split; [etransitivity; eassumption|eauto|etransitivity; eassumption|eauto|lia].
Qed.

Lemma ext_weaken D B D' B' G s G' s' : ext D B G s G' s' -> D ⊆ D' -> B ⊆ B' -> ext D' B' G s G' s'.
Proof.
  intros [A1 A2 A3 A4 A5] HD HB. split; [exact A1| |exact A3| |exact A5].
  - intros p n Hp. apply A2. intros Hi. apply Hp, HD, Hi.
  - intros q o i E Hq. apply (A4 q o i E). intros Hi. apply Hq, HB, Hi.
Qed.

(** ** Facts of the invariant *)

Section Facts.
  Context (base : evac_base).

Lemma target_inner r : r ∈ inner -> rg_arena r <> target.
Proof.
  intros Hr E. pose proof (eb_target base) as Ht. destruct (eb_arenas base) as [Hnd _].
  destruct outer as [|r' outer'].
  - apply Ht. rewrite <- E. apply list_elem_of_In, in_map, list_elem_of_In, Hr.
  - rewrite map_app in Hnd. apply NoDup_ListNoDup in Hnd. apply (NoDup_app_clash _ _ target Hnd).
    + rewrite <- E. apply in_map, list_elem_of_In, Hr.
    + left. symmetry. exact Ht.
Qed.

Lemma dy_now G X s p : einv G X s -> existsb (region_holds (w_arenas (ev_world s)) p) inner = dy p.
Proof.
  intros I. unfold dy. assert (Hs : Forall (fun r => rg_arena r <> target) inner) by (apply Forall_forall; intros r Hr; apply target_inner, list_elem_of_In, Hr).
  pose proof (ei_other _ _ _ I) as Ho. clear base I.
  induction Hs as [|r l Hr _ IH]; [reflexivity|]. cbn [existsb]. rewrite IH. f_equal. unfold region_holds. rewrite (Ho _ Hr). reflexivity.
Qed.

Lemma stack_now G X s : einv G X s -> region_stack (ev_world s) = inner ++ outer.
Proof. intros I. destruct (ei_world _ _ _ I) as (h & ars & m & ->). apply (eb_stack base). Qed.

Lemma dying_spec G X s p : einv G X s -> dying boundary p s = (Ret (dy p), s, false).
Proof.
  intros I. unfold dying, region_index_owning. rewrite (stack_now _ _ _ I). unfold boundary. rewrite owning_above, (dy_now _ _ _ p I). reflexivity.
Qed.

(** An address of a node dies when it is above the boundary. *)
Lemma dy_lc p n : mem0 !! p = Some n -> dy p = (lc p >? boundary).
Proof. intros E. unfold lc. rewrite E. unfold boundary. rewrite owning_above. reflexivity. Qed.

Lemma dy_stays p : dy p = false -> lc p <= boundary.
Proof.
  intros E. destruct (mem0 !! p) as [n|] eqn:En.
  - rewrite (dy_lc p n En) in E. rewrite Z.gtb_ltb in E. apply Z.ltb_ge in E. lia.
  - unfold lc. rewrite En. lia.
Qed.

Lemma new_not_dying G X s p n : einv G X s -> w_mem (ev_world s) !! p = Some n -> mem0 !! p = None -> dy p = false.
Proof.
  intros I Em E0. destruct (ei_placed _ _ _ I p n Em E0) as (a & Ea & Hh). rewrite <- (dy_now _ _ _ p I).
  apply not_true_is_false. intros Hb. apply existsb_exists in Hb as (r & Hr & Hb). unfold region_holds in Hb.
  destruct (w_arenas (ev_world s) !! rg_arena r) as [b|] eqn:Eb; [|discriminate].
  apply (contains_holds b _ p (pool_wf _ _ _ _ _ (ei_pool _ _ _ I) Eb)) in Hb.
  apply (target_inner r); [apply list_elem_of_In, Hr|]. exact (pool_disjoint _ _ _ _ _ _ _ p (ei_pool _ _ _ I) Eb Ea Hb Hh).
Qed.

(** A node above the boundary dies. *)
Lemma lc_dies p n : mem0 !! p = Some n -> boundary < lc p -> dy p = true.
Proof. intros E Hl. rewrite (dy_lc p n E), Z.gtb_ltb. apply Z.ltb_lt. lia. Qed.

Lemma fwd_stays G X s p q : einv G X s -> ev_fwd s !! p = Some q -> dy q = false.
Proof.
  intros I E. destruct (ei_fwd _ _ _ I p q E) as (t & t' & _ & Et & _ & Hl & _).
  destruct (ei_typed _ _ _ I q t' Et) as (n & En & _). destruct (mem0 !! q) as [n0|] eqn:E0.
  - rewrite (dy_lc q n0 E0), Z.gtb_ltb. apply Z.ltb_ge. lia.
  - exact (new_not_dying _ _ _ _ _ I En E0).
Qed.

Lemma slot_image_mono fwd fwd' x x' : fwd ⊆ fwd' -> slot_image fwd x x' -> slot_image fwd' x x'.
Proof.
  intros Hf [->|Hi]; [left; reflexivity|right]. destruct x as [b w|v|p|a]; try exact Hi.
  - destruct Hi as (q & E & ->). exists q. split; [eapply lookup_weaken; eassumption|reflexivity].
  - destruct Hi as (q & E & ->). exists q. split; [eapply lookup_weaken; eassumption|reflexivity].
Qed.

Lemma slots_image_mono fwd fwd' l l' : fwd ⊆ fwd' -> Forall2 (slot_image fwd) l l' -> Forall2 (slot_image fwd') l l'.
Proof. intros Hf. induction 1; constructor; [eapply slot_image_mono; eassumption|assumption]. Qed.

Lemma slots_image_refl fwd l : Forall2 (slot_image fwd) l l.
Proof. induction l; constructor; [left; reflexivity|assumption]. Qed.

Lemma same_ty_mono fwd fwd' t t' : fwd ⊆ fwd' -> same_ty fwd t t' -> same_ty fwd' t t'.
Proof.
  intros Hf. destruct t, t'; try exact (fun x => x). intros [-> E]. split; [reflexivity|eapply lookup_weaken; eassumption].
Qed.

(** ** A new copy *)

Lemma target_pos : target <> 0.
Proof.
  destruct (eb_alive base) as [a Ea]. pose proof (eb_pool base) as P. destruct (po_arenas _ _ _ P _ _ Ea) as [E _].
  pose proof (pool_split _ _ _ _ _ P Ea) as [_ Hl]. destruct (heap_range _ (po_heap _ _ _ P) (ar_ptr a) sizeof_arena).
  - apply Hl, in_or_app. left. left. reflexivity.
  - lia.
Qed.

Lemma placed_pos G X s p n : einv G X s -> w_mem (ev_world s) !! p = Some n -> exists ap a, w_arenas (ev_world s) !! ap = Some a /\ holds a p.
Proof.
  intros I E. destruct (mem0 !! p) as [n0|] eqn:E0.
  - destruct (eb_placed base p n0 E0) as (ap & a & Ea & Hh). destruct (Z.eq_dec ap target) as [->|N].
    + destruct (ei_target _ _ _ I) as [a' Ea']. exists target, a'. split; [exact Ea'|exact (ei_grow _ _ _ I a a' p Ea Ea' Hh)].
    + exists ap, a. split; [rewrite (ei_other _ _ _ I) by exact N; exact Ea|exact Hh].
  - destruct (ei_placed _ _ _ I p n E E0) as (a & Ea & Hh). eauto.
Qed.

Lemma allocate_target_spec G X s size : einv G X s -> 0 < size < 2 ^ 62 ->
  runs (allocate_target target size) s (fun r s' => exists p h ars, r = Some p /\
    s' = mkEvac (with_memory h ars (w_mem (ev_world s)) (ev_world s)) (ev_fwd s) (ev_worklist s) (ev_copies s) /\
    allocated others (w_arenas (ev_world s)) ars target p size h).
Proof.
  intros I Hs. unfold runs, allocate_target, allocate_in. rewrite (proj2 (Z.eqb_neq _ _) target_pos).
  destruct (ei_target _ _ _ I) as [a Ea]. rewrite Ea.
  destruct (arena_allocate_aligned a size 16 (w_heap (ev_world s))) as [[r a'] h'] eqn:E.
  pose proof (allocate_pool _ _ _ _ _ _ _ _ _ (ei_pool _ _ _ I) Ea Hs E) as HA.
  destruct r as [p|]; cbn [refused]; [|discriminate]. intros _. exists p, h', (<[target := a']> (w_arenas (ev_world s))). auto.
Qed.

Lemma typed_in_mem G X s p t : einv G X s -> G !! p = Some t -> exists n, w_mem (ev_world s) !! p = Some n.
Proof. intros I E. destruct (ei_typed _ _ _ I p t E) as (n & En & _). eauto. Qed.

Lemma new_untyped0 p : mem0 !! p = None -> G0 !! p = None.
Proof.
  intros E. destruct (G0 !! p) as [t|] eqn:Et; [|reflexivity]. destruct (eb_typed base p t Et) as (n & En & _). congruence.
Qed.

Lemma measure_forward s old q (w : world H) wl c : wl = ev_worklist s -> ev_fwd s !! old = None -> is_Some (mem0 !! old) ->
  (S (measure (mkEvac w (<[old := q]> (ev_fwd s)) wl c)) <= measure s)%nat.
Proof.
  intros -> Ef [n En]. unfold measure. cbn [ev_fwd ev_worklist]. apply (Nat.add_le_mono_r _ _ (length (ev_worklist s))).
  assert (Hsub : (dom mem0 ∖ dom (<[old := q]> (ev_fwd s)) : gset Z) ⊂ dom mem0 ∖ dom (ev_fwd s)).
  { rewrite dom_insert_L. split.
    - set_solver.
    - intros Hc. assert (Hi : old ∈ (dom mem0 ∖ dom (ev_fwd s) : gset Z)).
      { apply elem_of_difference. split; [apply elem_of_dom; eauto|]. apply not_elem_of_dom, Ef. }
      apply Hc in Hi. set_solver. }
  apply subset_size in Hsub. lia.
Qed.

Lemma forward_spec G X s p size h ars old q n t t' ss hd :
  einv G X s -> allocated others (w_arenas (ev_world s)) ars target p size h -> p <= q < p + size ->
  ev_fwd s !! old = None -> G0 !! old = Some t -> mem0 !! old = Some n -> node_header n = hd -> node_slots n = ss ->
  same_ty (ev_fwd s) t t' -> (forall o i, t' = Buffer o i -> o ∈ X) -> boundary < lc old -> reached old ->
  let s1 := mkEvac (with_memory h ars (w_mem (ev_world s)) (ev_world s)) (ev_fwd s) (ev_worklist s) (ev_copies s) in
  runs (forward old q (mkNode hd ss)) s1 (fun _ s2 =>
    einv (<[q := t']> G) (q :: X) s2 /\ ext [] [old] G s (<[q := t']> G) s2 /\
    w_mem (ev_world s2) = <[q := mkNode hd ss]> (w_mem (ev_world s)) /\ ev_fwd s2 = <[old := q]> (ev_fwd s) /\
    ev_worklist s2 = ev_worklist s /\ (S (measure s2) <= measure s)%nat /\
    w_mem (ev_world s) !! q = None /\ mem0 !! q = None).
Proof.
  intros I A Hq Ef Et En Eh Es Hty Hbuf Hlo Hre s1. subst s1. unfold runs, forward, bind, write_node.
  cbn [ev_world ev_fwd ev_worklist ev_copies w_mem w_heap w_arenas with_memory]. intros _.
  set (m := w_mem (ev_world s)) in *.
  assert (Hfresh : m !! q = None).
  { destruct (m !! q) as [n0|] eqn:E0; [|reflexivity]. destruct (placed_pos _ _ _ _ _ I E0) as (ap & a & Ea & Hh).
    destruct (al_fresh _ _ _ _ _ _ _ A ap a q Ea Hq Hh). }
  assert (Hold : mem0 !! q = None).
  { destruct (mem0 !! q) as [n0|] eqn:E0; [|reflexivity]. pose proof (lookup_weaken _ _ _ _ E0 (ei_old _ _ _ I)). unfold m in *. congruence. }
  assert (HGq : G !! q = None).
  { destruct (G !! q) as [t0|] eqn:E0; [|reflexivity]. destruct (typed_in_mem _ _ _ _ _ I E0). unfold m in Hfresh. congruence. }
  assert (HG : G ⊆ <[q := t']> G) by (apply insert_subseteq, HGq).
  assert (Hm : m ⊆ <[q := mkNode hd ss]> m) by (apply insert_subseteq, Hfresh).
  assert (Hf : ev_fwd s ⊆ <[old := q]> (ev_fwd s)) by (apply insert_subseteq, Ef).
  assert (Hms : (S (measure (mkEvac (with_memory h ars (<[q := mkNode hd ss]> m) (with_memory h ars m (ev_world s))) (<[old := q]> (ev_fwd s)) (ev_worklist s) (ev_copies s + 1))) <= measure s)%nat)
    by (apply measure_forward; eauto).
  split; [|split; [|auto 10]].
  - split; cbn [ev_world ev_fwd ev_worklist w_mem w_arenas w_heap with_memory].
    + destruct (ei_world _ _ _ I) as (h0 & ars1 & m1 & E). rewrite E. exists h, ars, (<[q := mkNode hd ss]> m). reflexivity.
    + apply A.
    + intros bp N. rewrite (al_other _ _ _ _ _ _ _ A bp N). apply (ei_other _ _ _ I), N.
    + apply (al_dom _ _ _ _ _ _ _ A), (ei_target _ _ _ I).
    + intros a0 a x E0 Ea Hh. destruct (ei_target _ _ _ I) as [a1 Ea1].
      apply (al_grows _ _ _ _ _ _ _ A a1 a x Ea1 Ea), (ei_grow _ _ _ I a0 a1 x E0 Ea1 Hh).
    + etransitivity; [apply (ei_old _ _ _ I)|exact Hm].
    + intros x n0 Ex E0. destruct (Z.eq_dec x q) as [->|N].
      * apply (al_held _ _ _ _ _ _ _ A q Hq).
      * rewrite lookup_insert_ne in Ex by congruence. destruct (ei_placed _ _ _ I x n0 Ex E0) as (a & Ea & Hh).
        destruct (proj2 (al_dom _ _ _ _ _ _ _ A target) ltac:(eauto)) as [a' Ea']. exists a'. split; [exact Ea'|].
        exact (al_grows _ _ _ _ _ _ _ A a a' x Ea Ea' Hh).
    + etransitivity; [apply (ei_G _ _ _ I)|exact HG].
    + intros x t0 n0 Ex E0. destruct (Z.eq_dec x q) as [->|N]; [congruence|]. rewrite lookup_insert_ne in Ex by congruence.
      exact (ei_new _ _ _ I x t0 n0 Ex E0).
    + intros x t0 Ex. destruct (Z.eq_dec x q) as [->|N].
      * exists (mkNode hd ss). rewrite lookup_insert_eq. split; [reflexivity|]. right; left. left.
      * rewrite lookup_insert_ne in Ex by congruence. destruct (ei_typed _ _ _ I x t0 Ex) as (n0 & E0 & Hc).
        exists n0. rewrite lookup_insert_ne by congruence. split; [exact E0|].
        destruct Hc as [Hc|[Hc|Hc]]; [left; exact Hc|right; left; right; exact Hc|right; right].
        eapply node_ok_mono; [exact HG| |exact Hc]. intros y i n1 _ Ey. eapply lookup_weaken; eassumption.
    + intros x y. destruct (Z.eq_dec x old) as [->|N].
      * rewrite lookup_insert_eq. intros [= <-]. exists t, t'. split; [exact Et|]. rewrite lookup_insert_eq. split; [reflexivity|].
        split; [exact (same_ty_mono _ _ _ _ Hf Hty)|]. split; [unfold lc; rewrite Hold; lia|exact Hlo].
      * rewrite lookup_insert_ne by congruence. intros E. destruct (ei_fwd _ _ _ I x y E) as (t1 & t2 & E1 & E2 & E3 & E4).
        exists t1, t2. split; [exact E1|]. split; [eapply lookup_weaken; eassumption|]. split; [exact (same_ty_mono _ _ _ _ Hf E3)|exact E4].
    + intros x y. destruct (Z.eq_dec x old) as [->|N].
      * rewrite lookup_insert_eq. intros [= <-]. right. split; [exact Hold|]. exists n, (mkNode hd ss). rewrite lookup_insert_eq.
        repeat split; [exact En|symmetry; exact Eh|]. cbn [node_slots]. rewrite Es. apply slots_image_refl.
      * rewrite lookup_insert_ne by congruence. intros E. destruct (ei_image _ _ _ I x y E) as [Hl|[E0 (n1 & n2 & E1 & E2 & E3 & E4)]]; [left; exact Hl|].
        right. split; [exact E0|]. exists n1, n2. split; [exact E1|]. split; [eapply lookup_weaken; eassumption|]. split; [exact E3|].
        exact (slots_image_mono _ _ _ _ Hf E4).
    + assert (Hne : forall x y, ev_fwd s !! x = Some y -> y <> q).
      { intros x y E ->. destruct (ei_fwd _ _ _ I x q E) as (t1 & t2 & _ & E2 & _). congruence. }
      intros x x' y. destruct (Z.eq_dec x old) as [->|N1], (Z.eq_dec x' old) as [->|N2];
        rewrite ?lookup_insert_eq, ?lookup_insert_ne by congruence; [auto| | |apply (ei_inj _ _ _ I)].
      * intros [= <-] E. destruct (Hne x' q E eq_refl).
      * intros E [= <-]. destruct (Hne x q E eq_refl).
    + intros nd k Hi. destruct (ei_work _ _ _ I nd k Hi) as (T & sub & E1 & E2 & E3 & E4 & E5 & E6 & E7).
      exists T, sub. cbn [ev_fwd ev_world w_mem with_memory].
      split; [eapply lookup_weaken; eassumption|]. split; [exact E2|]. split; [eapply lookup_weaken; eassumption|].
      split; [|split; [exact E5|split; [exact E6|]]].
      * rewrite lookup_insert_ne; [exact E4|]. intros <-. congruence.
      * intros y i Ey. destruct (Z.eq_dec y old) as [->|N]; [|rewrite lookup_insert_ne by congruence; exact (E7 y i Ey)].
        exfalso. rewrite Et in Ey. injection Ey as ->. destruct t'; try destruct Hty. cbn in H1.
        rewrite E1 in H1. injection H1 as <-. destruct (ei_open _ _ _ I nd (Hbuf _ _ eq_refl)) as (_ & Hw & _). exact (Hw k Hi).
    + apply (ei_nodup _ _ _ I).
    + intros x Hx. destruct (Z.eq_dec x q) as [->|N].
      * split; [exact Hold|]. split.
        -- intros k Hk. destruct (ei_work _ _ _ I q k Hk) as (T & sub & _ & _ & E3 & _). congruence.
        -- intros o i. rewrite lookup_insert_eq. intros [= E]. right. exact (Hbuf o i E).
      * apply elem_of_cons in Hx as [->|Hx]; [congruence|]. destruct (ei_open _ _ _ I x Hx) as (H1 & H2 & H3).
        split; [exact H1|]. split; [exact H2|]. intros o i. rewrite lookup_insert_ne by congruence. intros E. right. exact (H3 o i E).
    + intros x Hx. destruct (Z.eq_dec x q) as [->|N]; [rewrite lookup_insert_eq; eauto|]. rewrite lookup_insert_ne by congruence.
      apply elem_of_cons in Hx as [->|Hx]; [congruence|]. apply (ei_there _ _ _ I x Hx).
    + intros x y. destruct (Z.eq_dec x old) as [->|N]; [auto|]. rewrite lookup_insert_ne by congruence. apply (ei_reach _ _ _ I).
    + intros x n0 Ex E0. destruct (Z.eq_dec x q) as [->|N]; [exists old; apply lookup_insert_eq|]. rewrite lookup_insert_ne in Ex by congruence.
      destruct (ei_copies _ _ _ I x n0 Ex E0) as (T & ET). exists T. eapply lookup_weaken; eassumption.
  - split; [exact HG| |exact Hf| |lia].
    + intros x n0 _ E. cbn. rewrite lookup_insert_ne; [exact E|]. unfold m in Hfresh. congruence.
    + intros x o i _ Hx E. cbn. rewrite lookup_insert_ne; [exact E|]. intros ->. apply Hx. left.
Qed.

(** The nodes that are done leave the set of those being worked on. *)
Lemma close_spec G X X' s : einv G X s -> X' ⊆ X ->
  (forall p t n, p ∈ X -> p ∉ X' -> G !! p = Some t -> w_mem (ev_world s) !! p = Some n -> node_ok plain lc G (w_mem (ev_world s)) p t n) ->
  (forall p o i, p ∈ X' -> G !! p = Some (Buffer o i) -> o ∈ X') -> einv G X' s.
Proof.
  intros I Hs Hok Hb. destruct I. split; try assumption.
  - intros p t E. destruct (ei_typed0 p t E) as (n & En & Hc). exists n. split; [exact En|].
    destruct Hc as [Hc|[Hc|Hc]]; [left; exact Hc| |right; right; exact Hc].
    destruct (decide (p ∈ X')) as [Hp|Hp]; [right; left; exact Hp|right; right; apply Hok; assumption].
  - intros p Hp. destruct (ei_open0 p (Hs p Hp)) as (H1 & H2 & _). split; [exact H1|]. split; [exact H2|]. intros o i. apply Hb, Hp.
  - auto.
Qed.

(** ** Writing to a node that is being worked on *)

Lemma read_slot_spec p i (s : evac H) n x : w_mem (ev_world s) !! p = Some n -> node_slots n !! i = Some x -> read_slot p i s = (Ret x, s, false).
Proof. intros E1 E2. unfold read_slot, bind, read_node. rewrite E1, E2. reflexivity. Qed.

Lemma word_at_spec p i (s : evac H) n b w : w_mem (ev_world s) !! p = Some n -> node_slots n !! i = Some (Word b w) -> word_at p i s = (Ret w, s, false).
Proof. intros E1 E2. unfold word_at, bind. rewrite (read_slot_spec p i s n _ E1 E2). reflexivity. Qed.

Lemma nat_at_spec p i (s : evac H) n b k : w_mem (ev_world s) !! p = Some n -> node_slots n !! i = Some (Word b (Z.of_nat k)) -> nat_at p i s = (Ret k, s, false).
Proof. intros E1 E2. unfold nat_at, bind. rewrite (word_at_spec p i s n b _ E1 E2). cbn. rewrite Nat2Z.id. reflexivity. Qed.

Lemma pointer_at_spec p i (s : evac H) n q : w_mem (ev_world s) !! p = Some n -> node_slots n !! i = Some (Pointer q) -> pointer_at p i s = (Ret q, s, false).
Proof. intros E1 E2. unfold pointer_at, bind. rewrite (read_slot_spec p i s n _ E1 E2). reflexivity. Qed.

Lemma tagged_at_spec p i (s : evac H) n v : w_mem (ev_world s) !! p = Some n -> node_slots n !! i = Some (Tagged v) -> tagged_at p i s = (Ret v, s, false).
Proof. intros E1 E2. unfold tagged_at, bind. rewrite (read_slot_spec p i s n _ E1 E2). reflexivity. Qed.

(** The new slot is an image of what the old one was an image of. *)
Definition keeps_image (s : evac H) (x x' : slot) : Prop := forall x0, slot_image (ev_fwd s) x0 x -> slot_image (ev_fwd s) x0 x'.

Lemma Forall2_insert_r {A B} (R : A -> B -> Prop) l l' i y y' :
  Forall2 R l l' -> l' !! i = Some y -> (forall x, R x y -> R x y') -> Forall2 R l (<[i := y']> l').
Proof.
  intros Hl. revert i. induction Hl as [|a b l l' Hab Hl IH]; intros [|i] E Hi; cbn in *; try discriminate.
  - injection E as ->. constructor; auto.
  - constructor; [exact Hab|]. apply IH; assumption.
Qed.

Lemma write_slot_spec G X s p n i x x' : einv G X s -> p ∈ X -> w_mem (ev_world s) !! p = Some n -> node_slots n !! i = Some x -> keeps_image s x x' ->
  runs (write_slot p i x') s (fun _ s' => einv G X s' /\ ext [p] [] G s G s' /\
    w_mem (ev_world s') = <[p := mkNode (node_header n) (<[i := x']> (node_slots n))]> (w_mem (ev_world s)) /\
    ev_fwd s' = ev_fwd s /\ ev_worklist s' = ev_worklist s).
Proof.
  intros I Hp En Ei Hx. unfold runs, write_slot, bind, read_node. rewrite En. cbn. intros _.
  set (n' := mkNode _ _). destruct (ei_open _ _ _ I p Hp) as (Hp0 & Hpw & Hpb).
  assert (Hsame : forall q n0, q <> p -> w_mem (ev_world s) !! q = Some n0 -> <[p := n']> (w_mem (ev_world s)) !! q = Some n0)
    by (intros q n0 N E; rewrite lookup_insert_ne; congruence).
  split; [|split; [|auto]].
  - destruct I. split; cbn [ev_world ev_fwd ev_worklist w_mem w_arenas w_heap with_memory]; try assumption.
    + destruct ei_world0 as (h0 & ars1 & m1 & E). rewrite E. exists h0, ars1, (<[p := n']> m1). reflexivity.
    + apply map_subseteq_spec. intros q n0 E. apply Hsame; [congruence|]. eapply lookup_weaken; eassumption.
    + intros q n0 E E0. destruct (Z.eq_dec q p) as [->|N]; [exact (ei_placed0 p n En E0)|].
      rewrite lookup_insert_ne in E by congruence. exact (ei_placed0 q n0 E E0).
    + intros q t Et. destruct (ei_typed0 q t Et) as (n0 & E0 & Hc). destruct (Z.eq_dec q p) as [->|N].
      * exists n'. rewrite lookup_insert_eq. auto.
      * exists n0. split; [apply Hsame; assumption|]. destruct Hc as [Hc|[Hc|Hc]]; [left; exact Hc|right; left; exact Hc|].
        destruct (decide (q ∈ X)) as [Hq|Hq]; [right; left; exact Hq|right; right].
        eapply node_ok_mono; [reflexivity| |exact Hc]. intros y j n1 Ey Em. apply Hsame; [|exact Em].
        intros ->. apply Hq. exact (Hpb q j Ey).
    + intros P q E. destruct (ei_image0 P q E) as [Hl|[E0 (n1 & n2 & E1 & E2 & E3 & E4)]]; [left; exact Hl|]. right. split; [exact E0|].
      destruct (Z.eq_dec q p) as [->|N].
      * rewrite En in E2. injection E2 as <-. exists n1, n'. rewrite lookup_insert_eq. repeat split; [exact E1|exact E3|].
        cbn [node_slots n']. eapply Forall2_insert_r; [exact E4|exact Ei|]. intros x0. apply Hx.
      * exists n1, n2. split; [exact E1|]. split; [apply Hsame; assumption|auto].
    + intros nd k Hi. destruct (ei_work0 nd k Hi) as (T & sub & E1 & E2 & E3 & E4 & E5 & E6 & E7).
      exists T, sub. repeat (split; [assumption|]). cbn [ev_world w_mem with_memory]. rewrite lookup_insert_ne; [auto|].
      intros <-. exact (Hpw k Hi).
    + intros y Hy. destruct (ei_there0 y Hy) as [n0 E0]. destruct (Z.eq_dec y p) as [->|N]; [rewrite lookup_insert_eq; eauto|].
      exists n0. apply Hsame; assumption.
    + intros y n0 Ey E0. destruct (Z.eq_dec y p) as [->|N]; [exact (ei_copies0 p n En E0)|]. rewrite lookup_insert_ne in Ey by congruence. exact (ei_copies0 y n0 Ey E0).
  - split; cbn; auto. intros q n0 Hq E. apply Hsame; [|exact E]. intros ->. apply Hq. left.
Qed.

(** ** Copying an object *)

Lemma kind_leaf_eq k : k = EVAC_LEAF \/ k <> EVAC_LEAF.
Proof. destruct k; [left; reflexivity|right; discriminate..]. Qed.

Lemma enqueue_spec G X s q k T sub : einv G (q :: X) s -> q ∉ X -> ev_fwd s !! T = Some q -> G0 !! T = Some (Obj k sub) -> G !! q = Some (Obj k sub) ->
  w_mem (ev_world s) !! q = mem0 !! T -> mem0 !! q = None -> boundary < lc T -> (forall y i, G0 !! y = Some (Buffer T i) -> ev_fwd s !! y = None) ->
  (forall p o i, p ∈ X -> G !! p = Some (Buffer o i) -> o ∈ X) ->
  runs (enqueue q k) s (fun _ s' => einv G X s' /\ ev_world s' = ev_world s /\ ev_fwd s' = ev_fwd s /\ ev_worklist s' = (q, k) :: ev_worklist s).
Proof.
  intros I HX E1 E2 E3 E4 E5 E6 E7 Hb. unfold runs, enqueue. intros _. split; [|auto].
  destruct (ei_open _ _ _ I q ltac:(left)) as (_ & Hw & _). destruct I. split; cbn [ev_world ev_fwd ev_worklist]; try assumption.
  - intros p t E. destruct (ei_typed0 p t E) as (n & En & Hc). exists n. split; [exact En|]. destruct Hc as [[k' Hc]|[Hc|Hc]].
    + left. exists k'. right. exact Hc.
    + apply elem_of_cons in Hc as [->|Hc]; [left; exists k; left|right; left; exact Hc].
    + right; right. exact Hc.
  - intros nd k' Hi. apply elem_of_cons in Hi as [[= -> ->]|Hi]; [exists T, sub; auto 10|]. exact (ei_work0 nd k' Hi).
  - cbn. constructor; [|assumption]. intros Hi. apply list_elem_of_fmap in Hi as ([q' k'] & E & Hi). cbn in E. subst q'. exact (Hw k' Hi).
  - intros p Hp. destruct (ei_open0 p ltac:(right; exact Hp)) as (H1 & H2 & _). split; [exact H1|]. split.
    + intros k' Hi. apply elem_of_cons in Hi as [[= -> _]|Hi]; [contradiction|exact (H2 k' Hi)].
    + intros o i. apply Hb, Hp.
  - intros p Hp. apply ei_there0. right. exact Hp.
Qed.

Lemma node_at0 p t : G0 !! p = Some t -> exists n, mem0 !! p = Some n /\ node_ok plain lc G0 mem0 p t n.
Proof. apply (eb_typed base). Qed.

Lemma evac_object_spec G X s old type sub : einv G X s -> G0 !! old = Some (Obj (evac_kind_for type sub) sub) -> boundary < lc old -> reached old ->
  runs (evac_object target old type) s (fun q s' => exists G', einv G' X s' /\ ext [] [] G s G' s' /\
    ev_fwd s' !! old = Some q /\ G' !! q = Some (Obj (evac_kind_for type sub) sub) /\ lc q <= boundary).
Proof.
  intros I Et Hl Hre. set (k := evac_kind_for type sub) in *. unfold evac_object. eapply runs_step; [reflexivity|].
  destruct (ev_fwd s !! old) as [q|] eqn:Ef.
  { apply runs_value. exists G. split; [exact I|]. split; [apply ext_refl|]. split; [exact Ef|].
    destruct (ei_fwd _ _ _ I old q Ef) as (t & t' & E1 & E2 & E3 & E4 & _). rewrite Et in E1. injection E1 as <-.
    split; [|exact E4]. rewrite E2. destruct t'; try (cbn in E3; congruence); destruct E3. }
  destruct (node_at0 _ _ Et) as (n & En & (Hbytes & Hpos & h & E1 & E2 & E3 & E4 & E5)).
  pose proof (lookup_weaken _ _ _ _ En (ei_old _ _ _ I)) as Em.
  eapply runs_step; [unfold read_node; rewrite Em; reflexivity|]. rewrite E1. eapply runs_step; [reflexivity|].
  change (2 ^ 61) with 2305843009213693952 in Hbytes.
  rewrite (proj2 (Z.eqb_neq _ _)) by lia. rewrite Z.gtb_ltb, (proj2 (Z.ltb_ge _ _)) by lia.
  apply runs_seq. eapply runs_mono; [|apply (allocate_target_spec G X); [exact I|unfold sizeof_object_header; change (2 ^ 62) with 4611686018427387904; lia]].
  intros r s1 (p & h' & ars & -> & -> & A). rewrite E3, (take_bytes_all _ Hpos). eapply runs_step; [reflexivity|].
  apply runs_seq. eapply runs_mono; [|apply (forward_spec G X s p _ h' ars old (p + sizeof_object_header) n (Obj k sub) (Obj k sub) _ _ I A);
    unfold sizeof_object_header; try lia; auto; try reflexivity; try discriminate].
  cbn beta. intros [] s2 (I2 & X2 & Em2 & Ef2 & Ew2 & Hm2 & Hq & Hq0). set (q := p + sizeof_object_header) in *.
  assert (HqX : q ∉ X) by (intros Hi; destruct (ei_there _ _ _ I q Hi); congruence).
  assert (HXb : forall x o i, x ∈ X -> <[q := Obj k sub]> G !! x = Some (Buffer o i) -> o ∈ X).
  { intros x o i Hx. rewrite lookup_insert_ne by congruence. apply (ei_open _ _ _ I x Hx). }
  assert (Hlq : lc q <= boundary) by (unfold lc; rewrite Hq0; lia).
  assert (EGq : <[q := Obj k sub]> G !! q = Some (Obj k sub)) by apply lookup_insert_eq.
  assert (Efq : ev_fwd s2 !! old = Some q) by (rewrite Ef2; apply lookup_insert_eq).
  assert (X2' : ext [] [] G s (<[q := Obj k sub]> G) s2).
  { destruct X2 as [A1 A2 A3 A4 A5]. split; auto. intros y o i Ey _ Ef'. apply (A4 y o i Ey); [|exact Ef'].
    intros Hi. apply list_elem_of_singleton in Hi as ->. congruence. }
  rewrite E2. fold k. destruct (kind_leaf_eq k) as [Ek|Ek].
  - rewrite Ek at 1. apply runs_value. exists (<[q := Obj k sub]> G). split; [|auto].
    apply (close_spec _ (q :: X) X _ I2); [set_solver| |exact HXb].
    intros x t0 n0 Hx Hx' Et0 En0. apply elem_of_cons in Hx as [->|Hx]; [|contradiction].
    rewrite EGq in Et0. injection Et0 as <-. rewrite Em2, lookup_insert_eq in En0. injection En0 as <-.
    split; [exact Hbytes|]. split; [exact Hpos|]. exists h. rewrite Ek in *. auto.
  - match goal with |- runs _ _ ?Q => enough (HR : runs (bind (enqueue q k) (fun _ => ret q)) s2 Q) by (clearbody k; clear - HR Ek; destruct k; try congruence; exact HR) end.
    apply runs_seq. eapply runs_mono; [|apply (enqueue_spec _ X s2 q k old sub I2 HqX Efq Et EGq); auto].
    + cbn beta. intros [] s3 (I3 & W3 & F3 & L3). apply runs_value. exists (<[q := Obj k sub]> G). split; [exact I3|].
      split; [|rewrite F3; auto]. destruct X2' as [A1 A2 A3 A4 A5]. split; [exact A1|rewrite W3; exact A2|rewrite F3; exact A3|rewrite F3; exact A4|].
      unfold measure in *. rewrite F3, L3. cbn [length]. lia.
    + rewrite Em2, lookup_insert_eq, En. f_equal. destruct n as [hd ss]. cbn in *. subst hd. reflexivity.
    + intros y i Ey. rewrite Ef2. rewrite lookup_insert_ne by (intros ->; congruence).
      destruct (ev_fwd s !! y) as [y'|] eqn:Ey'; [exfalso|reflexivity].
      destruct (ei_fwd _ _ _ I y y' Ey') as (t1 & t2 & T1 & T2 & T3 & _). rewrite Ey in T1. injection T1 as <-.
      destruct t2; try destruct T3. congruence.
Qed.
(** ** Values *)

Definition value_image (fwd : gmap Z Z) (v v' : tagged_value) : Prop := v' = v \/ exists q, fwd !! vdata v = Some q /\ v' = with_data v q.

Lemma dying_node p t : G0 !! p = Some t -> dy p = true -> boundary < lc p.
Proof.
  intros E Hd. destruct (node_at0 p t E) as (n & En & _). rewrite (dy_lc p n En), Z.gtb_ltb in Hd. apply Z.ltb_lt in Hd. lia.
Qed.

Lemma evac_value_spec G X s v b : einv G X s -> vok lc G0 b v ->
  (is_heap_value v = true -> is_Some (G0 !! vdata v) -> boundary < lc (vdata v) -> reached (vdata v)) ->
  runs (evac_value target boundary v) s (fun v' s' => exists G', einv G' X s' /\ ext [] [] G s G' s' /\
    vok lc G' boundary v' /\ value_image (ev_fwd s') v v' /\ (is_heap_value v = false -> v' = v)).
Proof.
  intros I Hv Hre. unfold evac_value.
  destruct (is_heap_value v) eqn:Eh; cbn [negb].
  2: { apply runs_value. exists G. split; [exact I|]. split; [apply ext_refl|]. split; [intros Hh; congruence|]. split; [left; reflexivity|auto]. }
  destruct (Z.eqb_spec (vdata v) 0) as [E0|N0].
  { apply runs_value. exists G. split; [exact I|]. split; [apply ext_refl|]. split; [intros _ Hn; congruence|]. split; [left; reflexivity|auto]. }
  destruct (Hv Eh N0) as (sub & Et & Hl). eapply runs_step; [apply (dying_spec _ _ _ _ I)|].
  destruct (dy (vdata v)) eqn:Ed; cbn [negb].
  - pose proof (dying_node _ _ Et Ed) as Hdn. apply runs_seq. eapply runs_mono; [|apply (evac_object_spec G X s _ _ sub I Et Hdn), Hre; [reflexivity|eauto|exact Hdn]].
    intros q s' (G' & I' & X' & Ef & Eq & Hlq). apply runs_value. exists G'. split; [exact I'|]. split; [exact X'|].
    split; [|split; [right; eauto|congruence]]. intros _ _. exists sub. cbn [vdata vtype with_data]. auto.
  - apply runs_value. exists G. split; [exact I|]. split; [apply ext_refl|]. split; [|split; [left; reflexivity|auto]]. intros _ _. exists sub.
    split; [eapply lookup_weaken; [exact Et|apply I]|exact (dy_stays _ Ed)].
Qed.

Lemma evac_object_ptr_spec G X s p b : einv G X s -> objok lc G0 b p -> (is_Some (G0 !! p) -> boundary < lc p -> reached p) ->
  runs (evac_object_ptr target boundary p) s (fun p' s' => exists G', einv G' X s' /\ ext [] [] G s G' s' /\
    objok lc G' boundary p' /\ (p' = p \/ ev_fwd s' !! p = Some p')).
Proof.
  intros I Hp Hre. unfold evac_object_ptr. destruct (Z.eqb_spec p 0) as [->|N0].
  { apply runs_value. exists G. split; [exact I|]. split; [apply ext_refl|]. split; left; reflexivity. }
  destruct Hp as [|(sub & Et & Hl)]; [contradiction|]. eapply runs_step; [apply (dying_spec _ _ _ _ I)|].
  destruct (dy p) eqn:Ed; cbn [negb].
  - pose proof (dying_node _ _ Et Ed) as Hdn. eapply runs_mono; [|apply (evac_object_spec G X s _ _ sub I Et Hdn), Hre; [eauto|exact Hdn]].
    intros q s' (G' & I' & X' & Ef & Eq & Hlq). exists G'. split; [exact I'|]. split; [exact X'|]. split; [right; eauto|right; exact Ef].
  - apply runs_value. exists G. split; [exact I|]. split; [apply ext_refl|]. split; [|left; reflexivity]. right. exists sub.
    split; [eapply lookup_weaken; [exact Et|apply I]|exact (dy_stays _ Ed)].
Qed.

(** ** Raw buffers *)

Lemma evac_raw_new G X s old size t t' n : einv G X s -> old <> 0 -> ev_fwd s !! old = None -> G0 !! old = Some t -> mem0 !! old = Some n ->
  node_header n = None -> total_bytes (node_slots n) = size -> 0 < size < 2 ^ 61 -> Forall (fun x => 0 < slot_bytes x) (node_slots n) ->
  same_ty (ev_fwd s) t t' -> (forall o i, t' = Buffer o i -> o ∈ X) -> boundary < lc old -> reached old ->
  runs (evac_raw target old size) s (fun q s' => einv (<[q := t']> G) (q :: X) s' /\ ext [] [old] G s (<[q := t']> G) s' /\
    w_mem (ev_world s') = <[q := n]> (w_mem (ev_world s)) /\ ev_fwd s' !! old = Some q /\ lc q <= boundary /\ mem0 !! q = None /\
    w_mem (ev_world s) !! q = None /\ dy q = false).
Proof.
  intros I N0 Ef Et En Eh Es Hsz Hpos Hty Hb Hlo Hre. unfold evac_raw. rewrite (proj2 (Z.eqb_neq _ _) N0), (proj2 (Z.eqb_neq size 0)) by lia. cbn [orb].
  eapply runs_step; [reflexivity|]. rewrite Ef. change (2 ^ 61) with 2305843009213693952 in Hsz.
  apply runs_seq. eapply runs_mono; [|apply (allocate_target_spec G X); [exact I|change (2 ^ 62) with 4611686018427387904; lia]].
  intros r s1 (p & h' & ars & -> & -> & A). pose proof (lookup_weaken _ _ _ _ En (ei_old _ _ _ I)) as Em.
  eapply runs_step; [unfold read_node; cbn [ev_world w_mem with_memory]; rewrite Em; reflexivity|].
  rewrite <- Es, (take_bytes_all _ Hpos). eapply runs_step; [reflexivity|].
  apply runs_seq. eapply runs_mono; [|apply (forward_spec G X s p size h' ars old p n t t' _ None I A); auto; lia].
  cbn beta. intros [] s2 (I2 & X2 & Em2 & Ef2 & Ew2 & Hm2 & Hq & Hq0). apply runs_value.
  replace (mkNode None (node_slots n)) with n in Em2 by (destruct n as [hd ss]; cbn in *; subst hd; reflexivity).
  split; [exact I2|]. split; [exact X2|]. split; [exact Em2|]. split; [rewrite Ef2; apply lookup_insert_eq|].
  split; [unfold lc; rewrite Hq0; lia|]. split; [exact Hq0|]. split; [exact Hq|].
  apply (new_not_dying _ _ s2 p n I2); [rewrite Em2; apply lookup_insert_eq|exact Hq0].
Qed.

Lemma evac_raw_again s old size q : old <> 0 -> size <> 0 -> ev_fwd s !! old = Some q -> evac_raw (H:=H) target old size s = (Ret q, s, false).
Proof.
  intros N0 N1 Ef. unfold evac_raw. rewrite (proj2 (Z.eqb_neq _ _) N0), (proj2 (Z.eqb_neq _ _) N1). unfold bind, forwarded. cbn. rewrite Ef. reflexivity.
Qed.

(** Buffers without references are done once they are copied. *)
Definition plain_buffer (t : ty) : Prop := match t with RString | RWords _ _ => True | _ => False end.

Lemma evac_shared_spec G X s old size t n : einv G X s -> old <> 0 -> plain_buffer t -> G0 !! old = Some t -> mem0 !! old = Some n -> total_bytes (node_slots n) = size ->
  boundary < lc old -> reached old ->
  runs (evac_raw target old size) s (fun q s' => exists G', einv G' X s' /\ ext [] [] G s G' s' /\
    ev_fwd s' !! old = Some q /\ G' !! q = Some t /\ lc q <= boundary).
Proof.
  intros I N0 Ht Et En Es Hlo Hre. destruct (node_at0 _ _ Et) as (n0 & En0 & Hok). rewrite En in En0. injection En0 as <-.
  destruct Hok as (Hsz & Hpos & Hc). rewrite Es in Hsz.
  assert (Eh : node_header n = None) by (destruct t; try destruct Ht; apply Hc).
  destruct (ev_fwd s !! old) as [q|] eqn:Ef.
  - unfold runs. rewrite (evac_raw_again s old size q N0 ltac:(lia) Ef). intros _. exists G. split; [exact I|]. split; [apply ext_refl|]. split; [exact Ef|].
    destruct (ei_fwd _ _ _ I old q Ef) as (t1 & t2 & T1 & T2 & T3 & T4 & _). rewrite Et in T1. injection T1 as <-. split; [|exact T4].
    destruct t, t2; try destruct Ht; cbn in T3; try contradiction; congruence.
  - eapply runs_mono; [|apply (evac_raw_new G X s old size t t n I N0 Ef Et En Eh Es Hsz Hpos)]; [|destruct t; try destruct Ht; reflexivity|intros o i ->; destruct Ht|exact Hlo|exact Hre].
    intros q s' (I' & X' & Em & Ef' & Hl & Hq0 & Hq & _). exists (<[q := t]> G). split; [|split; [|split; [exact Ef'|split; [apply lookup_insert_eq|exact Hl]]]].
    + apply (close_spec _ (q :: X) X _ I'); [set_solver| |].
      * intros x t0 n0 Hx Hx' Et0 En0. apply elem_of_cons in Hx as [->|Hx]; [|contradiction].
        rewrite lookup_insert_eq in Et0. injection Et0 as <-. rewrite Em, lookup_insert_eq in En0. injection En0 as <-.
        split; [rewrite Es; exact Hsz|]. split; [exact Hpos|]. destruct t; try destruct Ht; exact Hc.
      * intros x o i Hx. destruct (Z.eq_dec x q) as [->|N].
        -- rewrite lookup_insert_eq. intros [= ->]. destruct Ht.
        -- rewrite lookup_insert_ne by congruence. apply (ei_open _ _ _ I x Hx).
    + destruct X' as [A1 A2 A3 A4 A5]. split; auto. intros y o i Ey _ Ey'. apply (A4 y o i Ey); [|exact Ey'].
      intros Hi. apply list_elem_of_singleton in Hi as ->. rewrite Et in Ey. injection Ey as ->. destruct Ht.
Qed.

(** ** Fields *)

Lemma image_tagged G X s v v' : einv G X s -> value_image (ev_fwd s) v v' -> keeps_image s (Tagged v) (Tagged v').
Proof.
  intros I Hv x0 Hx. destruct Hv as [->|(q & Eq & ->)]; [exact Hx|]. destruct Hx as [E|Hx].
  - subst x0. right. exists q. auto.
  - destruct x0 as [b w|v0|p|a]; try discriminate; [destruct Hx| |destruct Hx as (? & _ & [=])].
    destruct Hx as (q0 & E0 & [= ->]). cbn in Eq. exfalso.
    destruct (ei_fwd _ _ _ I q0 q Eq) as (t & _ & Et & _ & _ & _ & Hl). pose proof (fwd_stays _ _ _ _ _ I E0) as Hd.
    pose proof (dy_stays _ Hd). lia.
Qed.

Lemma image_pointer G X s p p' : einv G X s -> (p' = p \/ ev_fwd s !! p = Some p') -> keeps_image s (Pointer p) (Pointer p').
Proof.
  intros I Hp x0 Hx. destruct Hp as [->|Eq]; [exact Hx|]. destruct Hx as [E|Hx].
  - subst x0. right. exists p'. auto.
  - destruct x0 as [b w|v0|p0|a]; try discriminate; [destruct Hx|destruct Hx as (? & _ & [=])|].
    destruct Hx as (q0 & E0 & [= ->]). exfalso.
    destruct (ei_fwd _ _ _ I q0 p' Eq) as (t & _ & Et & _ & _ & _ & Hl). pose proof (fwd_stays _ _ _ _ _ I E0) as Hd.
    pose proof (dy_stays _ Hd). lia.
Qed.

(** What a copy that is being worked on refers to in a dying region, its original does. *)
Lemma slot_reached G X s p n i x q : einv G X s -> p ∈ X -> w_mem (ev_world s) !! p = Some n -> node_slots n !! i = Some x ->
  slot_refers G0 x q -> is_Some (G0 !! q) -> boundary < lc q -> reached q.
Proof.
  intros I Hp En Ei Hx Hq Hl. destruct (ei_open _ _ _ I p Hp) as (Hp0 & _). destruct (ei_copies _ _ _ I p n En Hp0) as (T & ET).
  pose proof (ei_reach _ _ _ I T p ET Hp0) as HT. destruct (ei_image _ _ _ I T p ET) as [[_ N]|(_ & n1 & n2 & E1 & E2 & _ & HF)]; [contradiction|].
  rewrite En in E2. injection E2 as <-. destruct (Forall2_lookup_r _ _ _ _ _ HF Ei) as (x0 & E0 & [->|Hi]).
  - exact (eb_reach base T n1 x0 q HT E1 (list_elem_of_lookup_2 _ _ _ E0) Hx Hq Hl).
  - exfalso. assert (Hs : exists z, ev_fwd s !! z = Some q).
    { destruct x0 as [b w|v0|p0|a]; [destruct Hi| | |subst x; destruct Hx]; destruct Hi as (q0 & Eq & ->); cbn in Hx; [destruct Hx as [-> _]|subst q]; eauto. }
    destruct Hs as (z & Ez). pose proof (dy_stays _ (fwd_stays _ _ _ _ _ I Ez)). lia.
Qed.

(** A node with one slot replaced. *)
Definition with_slot (n : node) (i : nat) (x : slot) : node := mkNode (node_header n) (<[i := x]> (node_slots n)).

Lemma with_slot_same n i x : node_slots n !! i = Some x -> with_slot n i x = n.
Proof. intros E. unfold with_slot. rewrite list_insert_id by exact E. destruct n; reflexivity. Qed.

Lemma fix_tagged_spec G X s p n i v b : einv G X s -> p ∈ X -> w_mem (ev_world s) !! p = Some n -> node_slots n !! i = Some (Tagged v) -> vok lc G0 b v ->
  runs (fix_tagged target boundary p i) s (fun _ s' => exists G' v', einv G' X s' /\ ext [p] [] G s G' s' /\
    w_mem (ev_world s') !! p = Some (with_slot n i (Tagged v')) /\ vok lc G' boundary v' /\ (is_heap_value v = false -> v' = v) /\ vtype v' = vtype v).
Proof.
  intros I Hp En Ei Hv. unfold fix_tagged. eapply runs_step; [eapply tagged_at_spec; eassumption|].
  apply runs_seq. eapply runs_mono; [|apply (evac_value_spec G X s v b I Hv)].
  2: { intros Hh. apply (slot_reached G X s p n i (Tagged v) _ I Hp En Ei). cbn. auto. }
  intros v' s1 (G1 & I1 & X1 & Hv' & Him & Hnh).
  pose proof (ex_mem _ _ _ _ _ _ X1 p n ltac:(apply not_elem_of_nil) En) as En1.
  eapply runs_mono; [|apply (write_slot_spec G1 X s1 p n i (Tagged v) (Tagged v') I1 Hp En1 Ei), (image_tagged _ _ _ _ _ I1 Him)].
  intros [] s2 (I2 & X2 & Em2 & Ef2 & Ew2). exists G1, v'. split; [exact I2|]. split; [|split; [rewrite Em2; apply lookup_insert_eq|split; [exact Hv'|split; [exact Hnh|]]]].
  2: { destruct Him as [->|(q & _ & ->)]; reflexivity. }
  eapply ext_trans; [|exact X2]. eapply ext_weaken; [exact X1|set_solver|set_solver].
Qed.

Lemma fix_object_ptr_spec G X s p n i q b : einv G X s -> p ∈ X -> w_mem (ev_world s) !! p = Some n -> node_slots n !! i = Some (Pointer q) -> objok lc G0 b q ->
  runs (fix_object_ptr target boundary p i) s (fun _ s' => exists G' q', einv G' X s' /\ ext [p] [] G s G' s' /\
    w_mem (ev_world s') !! p = Some (with_slot n i (Pointer q')) /\ objok lc G' boundary q').
Proof.
  intros I Hp En Ei Hq. unfold fix_object_ptr. eapply runs_step; [eapply pointer_at_spec; eassumption|].
  apply runs_seq. eapply runs_mono; [|apply (evac_object_ptr_spec G X s q b I Hq), (slot_reached G X s p n i (Pointer q) _ I Hp En Ei eq_refl)]. intros q' s1 (G1 & I1 & X1 & Hq' & Him).
  pose proof (ex_mem _ _ _ _ _ _ X1 p n ltac:(apply not_elem_of_nil) En) as En1.
  eapply runs_mono; [|apply (write_slot_spec G1 X s1 p n i (Pointer q) (Pointer q') I1 Hp En1 Ei), (image_pointer _ _ _ _ _ I1 Him)].
  intros [] s2 (I2 & X2 & Em2 & Ef2 & Ew2). exists G1, q'. split; [exact I2|]. split; [|split; [rewrite Em2; apply lookup_insert_eq|exact Hq']].
  eapply ext_trans; [|exact X2]. eapply ext_weaken; [exact X1|set_solver|set_solver].
Qed.

(** The size that is computed is that of the buffer. *)
Definition sizes (size : M (evac H) Z) (s : evac H) (q : Z) : Prop :=
  forall n, mem0 !! q = Some n -> size s = (Ret (total_bytes (node_slots n)), s, false).

Lemma fix_raw_shared G X s p n i q t size b : einv G X s -> p ∈ X -> w_mem (ev_world s) !! p = Some n -> node_slots n !! i = Some (Pointer q) ->
  plain_buffer t -> pok lc G0 b t q -> (q <> 0 -> sizes size s q) ->
  runs (fix_raw target boundary p i size) s (fun _ s' => exists G' q', einv G' X s' /\ ext [p] [] G s G' s' /\
    w_mem (ev_world s') !! p = Some (with_slot n i (Pointer q')) /\ pok lc G' boundary t q').
Proof.
  intros I Hp En Ei Ht Hq Hs. unfold fix_raw. eapply runs_step; [eapply pointer_at_spec; eassumption|].
  destruct (Z.eqb_spec q 0) as [->|N0].
  { apply runs_value. exists G, 0. split; [exact I|]. split; [apply ext_refl|]. rewrite with_slot_same by exact Ei. split; [exact En|left; reflexivity]. }
  destruct Hq as [|[Et Hl]]; [contradiction|]. eapply runs_step; [apply (dying_spec _ _ _ _ I)|]. destruct (dy q) eqn:Ed; cbn [negb].
  - destruct (node_at0 _ _ Et) as (n0 & En0 & _). eapply runs_step; [apply (Hs N0 n0 En0)|]. apply runs_seq.
    eapply runs_mono; [|apply (evac_shared_spec G X s q _ t n0 I N0 Ht Et En0 eq_refl (dying_node _ _ Et Ed)), (slot_reached G X s p n i (Pointer q) _ I Hp En Ei eq_refl); [eauto|exact (dying_node _ _ Et Ed)]].
    intros q' s1 (G1 & I1 & X1 & Ef & Eq & Hlq). pose proof (ex_mem _ _ _ _ _ _ X1 p n ltac:(apply not_elem_of_nil) En) as En1.
    eapply runs_mono; [|apply (write_slot_spec G1 X s1 p n i (Pointer q) (Pointer q') I1 Hp En1 Ei), (image_pointer _ _ _ _ _ I1); right; exact Ef].
    intros [] s2 (I2 & X2 & Em2 & _ & _). exists G1, q'. split; [exact I2|]. split; [|split; [rewrite Em2; apply lookup_insert_eq|right; auto]].
    eapply ext_trans; [|exact X2]. eapply ext_weaken; [exact X1|set_solver|set_solver].
  - apply runs_value. exists G, q. split; [exact I|]. split; [apply ext_refl|]. rewrite with_slot_same by exact Ei. split; [exact En|right].
    split; [eapply lookup_weaken; [exact Et|apply I]|exact (dy_stays _ Ed)].
Qed.

(** The buffer of a field of the object that is being worked on: it is copied and the field is set. *)
Lemma copy_owned G X s nd T n i q ss size : einv G X s -> nd ∈ X -> mem0 !! nd = None -> w_mem (ev_world s) !! nd = Some n -> node_slots n !! i = Some (Pointer q) ->
  ev_fwd s !! T = Some nd -> boundary < lc T -> bok lc G0 mem0 T i q ss -> q <> 0 -> ev_fwd s !! q = None -> size = total_bytes ss ->
  runs (evac_raw target q size) s (fun q' s1 => runs (write_slot nd i (Pointer q')) s1 (fun _ s' =>
    exists G', einv G' (q' :: X) s' /\ ext [nd] [q] G s G' s' /\
    w_mem (ev_world s') !! nd = Some (with_slot n i (Pointer q')) /\ bok lc G' (w_mem (ev_world s')) nd i q' ss /\ q' <> 0 /\
    w_mem (ev_world s) !! q' = None)).
Proof.
  intros I Hp Hnd En Ei ET Hl (Eq & Elq & Emq) N0 Ef ->.
  destruct (node_at0 _ _ Eq) as (n0 & En0 & (Hsz & Hpos & Eh)). rewrite Emq in En0. injection En0 as <-. cbn [node_slots] in *.
  eapply runs_mono; [|apply (evac_raw_new G X s q _ (Buffer T i) (Buffer nd i) _ I N0 Ef Eq Emq eq_refl eq_refl Hsz Hpos)];
    [|split; [reflexivity|exact ET]|intros o j [= <- _]; exact Hp|lia|apply (slot_reached G X s nd n i (Pointer q) _ I Hp En Ei eq_refl); [eauto|lia]].
  intros q' s1 (I1 & X1 & Em1 & Ef1 & Hlq & Hq0 & Hq & Hdy). set (G1 := <[q' := Buffer nd i]> G) in *.
  assert (En1 : w_mem (ev_world s1) !! nd = Some n) by (apply (ex_mem _ _ _ _ _ _ X1); [apply not_elem_of_nil|exact En]).
  eapply runs_mono; [|apply (write_slot_spec G1 (q' :: X) s1 nd n i (Pointer q) (Pointer q') I1 ltac:(right; exact Hp) En1 Ei), (image_pointer _ _ _ _ _ I1); right; exact Ef1].
  intros [] s2 (I2 & X2 & Em2 & _ & _). exists G1. split; [exact I2|]. split; [|split; [rewrite Em2; apply lookup_insert_eq|]].
  - eapply ext_trans; [|eapply ext_weaken; [exact X2|set_solver|set_solver]]. eapply ext_weaken; [exact X1|set_solver|set_solver].
  - assert (N : q' <> nd) by (intros ->; congruence). split; [|split; [|exact Hq]].
    + split; [apply lookup_insert_eq|]. split; [unfold lc; rewrite Hq0, Hnd; reflexivity|]. rewrite Em2, lookup_insert_ne by congruence.
      rewrite Em1. apply lookup_insert_eq.
    + assert (E : w_mem (ev_world s1) !! q' = Some (mkNode None ss)) by (rewrite Em1; apply lookup_insert_eq).
      destruct (placed_pos _ _ _ _ _ I1 E) as (ap & a & Ea & Hh). pose proof (holds_pos _ _ _ (pool_wf _ _ _ _ _ (ei_pool _ _ _ I1) Ea) Hh). lia.
Qed.

Lemma fix_raw_owned G X s nd T n i q ss size : einv G X s -> nd ∈ X -> mem0 !! nd = None -> w_mem (ev_world s) !! nd = Some n -> node_slots n !! i = Some (Pointer q) ->
  ev_fwd s !! T = Some nd -> boundary < lc T -> bok lc G0 mem0 T i q ss -> q <> 0 -> ev_fwd s !! q = None -> sizes size s q ->
  runs (fix_raw target boundary nd i size) s (fun _ s' => exists G' q', einv G' (q' :: X) s' /\ ext [nd] [q] G s G' s' /\
    w_mem (ev_world s') !! nd = Some (with_slot n i (Pointer q')) /\ bok lc G' (w_mem (ev_world s')) nd i q' ss /\ q' <> 0 /\
    w_mem (ev_world s) !! q' = None).
Proof.
  intros I Hp Hnd En Ei ET Hl Hq N0 Ef Hs. unfold fix_raw. eapply runs_step; [eapply pointer_at_spec; eassumption|].
  rewrite (proj2 (Z.eqb_neq _ _) N0). eapply runs_step; [apply (dying_spec _ _ _ _ I)|]. pose proof Hq as (Eq & Elq & Emq).
  rewrite (lc_dies q _ Emq) by lia. cbn [negb]. eapply runs_step; [apply (Hs _ Emq)|].
  apply runs_seq. eapply runs_mono; [|exact (copy_owned G X s nd T n i q ss _ I Hp Hnd En Ei ET Hl Hq N0 Ef eq_refl)].
  intros q' s1 HR. eapply runs_mono; [|exact HR]. intros [] s2 (G' & HG). exists G', q'. exact HG.
Qed.

Lemma insert_middle {A} (pre post : list A) x y : <[length pre := y]> (pre ++ x :: post) = pre ++ y :: post.
Proof. induction pre as [|z pre IH]; [reflexivity|]. cbn. f_equal. exact IH. Qed.

Lemma lookup_middle {A} (pre post : list A) x : (pre ++ x :: post) !! length pre = Some x.
Proof. induction pre as [|z pre IH]; [reflexivity|exact IH]. Qed.

Lemma Forall_vok G G' b l : G ⊆ G' -> Forall (vok lc G b) l -> Forall (vok lc G' b) l.
Proof. intros HG. apply Forall_mono. intros v. apply vok_mono; [exact HG|lia]. Qed.

(** A loop over slots of one form, when its body takes care of one of them. *)
Lemma each_slot {A} (C : A -> slot) (P0 : A -> Prop) (P : gmap Z ty -> A -> Prop) (ctx : gmap Z ty -> Prop) X p hd (body : nat -> M (evac H) unit) :
  (forall G G' x, G ⊆ G' -> P G x -> P G' x) -> (forall G G', G ⊆ G' -> ctx G -> ctx G') ->
  (forall G s i x n, einv G X s -> ctx G -> w_mem (ev_world s) !! p = Some n -> node_slots n !! i = Some (C x) -> P0 x ->
     runs (body i) s (fun _ s' => exists G' x', einv G' X s' /\ ext [p] [] G s G' s' /\ w_mem (ev_world s') !! p = Some (with_slot n i (C x')) /\ P G' x')) ->
  forall xs G s pre post, einv G X s -> ctx G -> w_mem (ev_world s) !! p = Some (mkNode hd (pre ++ map C xs ++ post)) -> Forall P0 xs ->
  runs (for_range (length pre) (length xs) body) s (fun _ s' => exists G' xs', einv G' X s' /\ ext [p] [] G s G' s' /\
    w_mem (ev_world s') !! p = Some (mkNode hd (pre ++ map C xs' ++ post)) /\ length xs' = length xs /\ Forall (P G') xs').
Proof.
  intros HP Hctx Hbody xs. induction xs as [|x xs IH]; intros G s pre post I Hc En Hv; cbn [for_range length map app].
  - apply runs_value. exists G, []. split; [exact I|]. split; [apply ext_refl|]. auto.
  - inversion Hv as [|? ? Hv1 Hv2]; subst. apply runs_seq.
    eapply runs_mono; [|apply (Hbody G s (length pre) x _ I Hc En (lookup_middle _ _ _) Hv1)].
    intros [] s1 (G1 & x1 & I1 & X1 & En1 & Hx1). unfold with_slot in En1. cbn [node_slots node_header map app] in En1. rewrite insert_middle in En1.
    change (pre ++ C x1 :: map C xs ++ post) with (pre ++ [C x1] ++ map C xs ++ post) in En1. rewrite app_assoc in En1.
    specialize (IH G1 s1 (pre ++ [C x1]) post I1 (Hctx _ _ (ex_G _ _ _ _ _ _ X1) Hc) En1 Hv2). rewrite length_app in IH. cbn [length] in IH. rewrite Nat.add_1_r in IH.
    eapply runs_mono; [|exact IH]. intros [] s2 (G2 & xs2 & I2 & X2 & En2 & Hl & Hxs). exists G2, (x1 :: xs2).
    split; [exact I2|]. split; [exact (ext_trans _ _ _ _ _ _ _ _ X1 X2)|]. split; [rewrite <- app_assoc in En2; exact En2|].
    split; [cbn; lia|]. constructor; [|exact Hxs]. exact (HP _ _ _ (ex_G _ _ _ _ _ _ X2) Hx1).
Qed.

Lemma fix_range G X s p hd pre vs post b : einv G X s -> p ∈ X -> w_mem (ev_world s) !! p = Some (mkNode hd (pre ++ map Tagged vs ++ post)) ->
  Forall (vok lc G0 b) vs ->
  runs (for_range (length pre) (length vs) (fix_tagged target boundary p)) s (fun _ s' => exists G' vs', einv G' X s' /\ ext [p] [] G s G' s' /\
    w_mem (ev_world s') !! p = Some (mkNode hd (pre ++ map Tagged vs' ++ post)) /\ length vs' = length vs /\ Forall (vok lc G' boundary) vs').
Proof.
  intros I Hp. apply (each_slot Tagged (vok lc G0 b) (fun G v => vok lc G boundary v) (fun _ => True)); try exact I; auto.
  - intros G1 G2 v HG. apply vok_mono; [exact HG|lia].
  - intros G1 s1 i v n I1 _ En Ei Hv. eapply runs_mono; [|exact (fix_tagged_spec G1 X s1 p n i v b I1 Hp En Ei Hv)].
    intros [] s2 (G2 & v2 & I2 & X2 & En2 & Hv2 & _). eauto 10.
Qed.

Lemma fix_pointers G X s p hd pre ps post b : einv G X s -> p ∈ X -> w_mem (ev_world s) !! p = Some (mkNode hd (pre ++ map Pointer ps ++ post)) ->
  Forall (objok lc G0 b) ps ->
  runs (for_range (length pre) (length ps) (fix_object_ptr target boundary p)) s (fun _ s' => exists G' ps', einv G' X s' /\ ext [p] [] G s G' s' /\
    w_mem (ev_world s') !! p = Some (mkNode hd (pre ++ map Pointer ps' ++ post)) /\ length ps' = length ps /\ Forall (objok lc G' boundary) ps').
Proof.
  intros I Hp. apply (each_slot Pointer (objok lc G0 b) (fun G v => objok lc G boundary v) (fun _ => True)); try exact I; auto.
  - intros G1 G2 v HG. apply objok_mono; [exact HG|lia].
  - intros G1 s1 i v n I1 _ En Ei Hv. exact (fix_object_ptr_spec G1 X s1 p n i v b I1 Hp En Ei Hv).
Qed.

End Facts.
End Evac.
