(* ===== verification/EvacuationKinds.v ===== *)
(** * Evacuation, kind by kind: the traversal of each object leaves it well-typed *)

From Stdlib Require Import ZArith List Lia Bool.
From stdpp Require Import base gmap list numbers.
From S2P Require Import Prelude Effects Arena ArenaSpec Tagged Regions RegionsSpec Evacuation HeapTyping EvacuationSpec.
Import ListNotations.
Open Scope Z_scope.
Open Scope effect_scope.

(** The sizes agree. *)
Ltac same_size := match goal with |- (Ret ?x, _, _) = (Ret ?y, _, _) => replace x with y by lia; reflexivity end.

Ltac self := apply list_elem_of_singleton; reflexivity.

Section Kinds.
  Context {H : Type} {HM : Malloc H} {ML : MallocLaws H} {AS : AddressSpace H} {U : evac_setup H} (base : evac_base).

Abbreviation mem s := (w_mem (ev_world s)).

(** The traversal of an object that waits, when it is the only one being worked on. *)
Definition scans (k : EvacKind) : Prop :=
  forall G s nd T sub, einv G [nd] s -> ev_fwd s !! T = Some nd -> G0 !! T = Some (Obj k sub) -> G !! nd = Some (Obj k sub) ->
    mem s !! nd = w_mem w0 !! T -> w_mem w0 !! nd = None -> boundary < lc T ->
    (forall q i, G0 !! q = Some (Buffer T i) -> ev_fwd s !! q = None) ->
    runs (evac_item target boundary nd k) s (fun _ s' => exists G', einv G' [] s' /\ exists D B, ext D B G s G' s').

(** ** When a node is done *)

Lemma bytes_same ss ss' : map slot_bytes ss' = map slot_bytes ss ->
  total_bytes ss' = total_bytes ss /\ (Forall (fun x => 0 < slot_bytes x) ss -> Forall (fun x => 0 < slot_bytes x) ss').
Proof.
  revert ss. induction ss' as [|x' ss' IH]; intros [|x ss] E; try discriminate; [split; auto|].
  cbn in E. injection E as E1 E2. destruct (IH ss E2) as [I1 I2]. split; [unfold total_bytes in *; cbn [fold_right]; lia|].
  intros Hf. inversion Hf as [|? ? Hf1 Hf2]; subst. constructor; [lia|auto].
Qed.

Lemma node_done G m T nd k sub hd ss ss' : node_ok plain lc G0 (w_mem w0) T (Obj k sub) (mkNode hd ss) -> map slot_bytes ss' = map slot_bytes ss ->
  kind_ok plain lc G m nd k ss' -> node_ok plain lc G m nd (Obj k sub) (mkNode hd ss').
Proof.
  intros (H1 & H2 & h & H3 & H4 & H5 & H6 & _) E Hk. cbn [node_slots node_header] in *. destruct (bytes_same _ _ E) as [E1 E2].
  split; [cbn [node_slots]; rewrite E1; exact H1|]. split; [exact (E2 H2)|]. exists h. cbn [node_slots node_header]. repeat split; auto; lia.
Qed.

(** Buffers of the node [nd] that are done with it. *)
Definition buffer_of (G : gmap Z ty) (s : evac H) (nd x : Z) : Prop :=
  exists i ss, bok lc G (mem s) nd i x ss /\ 0 < total_bytes ss < 2 ^ 61 /\ Forall (fun x => 0 < slot_bytes x) ss.

Lemma finish G X s nd t n : einv G X s -> G !! nd = Some t -> mem s !! nd = Some n -> node_ok plain lc G (mem s) nd t n ->
  (forall x, x ∈ X -> x = nd \/ buffer_of G s nd x) -> einv G [] s.
Proof.
  intros I Et En Hok HX. apply (close_spec _ X [] s I); [apply list_subseteq_nil| |intros p o i Hp; destruct (not_elem_of_nil _ Hp)].
  intros p t' n' Hp _ Et' En'. destruct (HX p Hp) as [->|(i & ss & (Eb & _ & Em) & Hs & Hpos)].
  - rewrite Et in Et'. injection Et' as <-. rewrite En in En'. injection En' as <-. exact Hok.
  - rewrite Eb in Et'. injection Et' as <-. rewrite Em in En'. injection En' as <-. split; [exact Hs|]. split; [exact Hpos|reflexivity].
Qed.

Lemma map_bytes_tagged vs : map slot_bytes (map Tagged vs) = repeat 16 (length vs).
Proof. induction vs as [|v vs IH]; [reflexivity|]. cbn. rewrite IH. reflexivity. Qed.

Lemma map_bytes_pointers ps : map slot_bytes (map Pointer ps) = repeat 8 (length ps).
Proof. induction ps as [|p ps IH]; [reflexivity|]. cbn. rewrite IH. reflexivity. Qed.

(** What the original of an object is. *)
Lemma original T k sub : G0 !! T = Some (Obj k sub) ->
  exists h ss, w_mem w0 !! T = Some (mkNode (Some h) ss) /\ node_ok plain lc G0 (w_mem w0) T (Obj k sub) (mkNode (Some h) ss) /\
               kind_ok plain lc G0 (w_mem w0) T k ss.
Proof.
  intros E. destruct (node_at0 base _ _ E) as ([hd ss] & En & Hok). pose proof Hok as (_ & _ & h & Hh & _ & _ & _ & Hk).
  cbn in Hh, Hk. subst hd. eauto 10.
Qed.

Ltac start :=
  intros G s nd T sub I ET Et EG Em End Hl Hb; destruct (original T _ sub Et) as (h & ss & EmT & Hok & Hk);
  rewrite EmT in Em; cbn [kind_ok] in Hk; cbn [evac_item].

Lemma typed_ext D B G s G' s' p t : ext D B G s G' s' -> G !! p = Some t -> G' !! p = Some t.
Proof. intros X E. eapply lookup_weaken; [exact E|apply X]. Qed.

(** An object without buffers is done when its slots are. *)
Lemma finish_alone G s G' s' D B nd T k sub h ss ss' : einv G' [nd] s' -> ext D B G s G' s' -> G !! nd = Some (Obj k sub) ->
  node_ok plain lc G0 (w_mem w0) T (Obj k sub) (mkNode (Some h) ss) -> mem s' !! nd = Some (mkNode (Some h) ss') -> map slot_bytes ss' = map slot_bytes ss ->
  kind_ok plain lc G' (mem s') nd k ss' -> exists G', einv G' [] s' /\ exists D B, ext D B G s G' s'.
Proof.
  intros I X E Hok Em Hbytes Hk. exists G'. split; [|eauto]. apply (finish G' [nd] s' nd _ _ I (typed_ext _ _ _ _ _ _ _ _ X E) Em).
  - exact (node_done _ _ _ _ _ _ _ _ _ Hok Hbytes Hk).
  - intros x Hx. left. apply list_elem_of_singleton, Hx.
Qed.

Lemma lc_new nd : w_mem w0 !! nd = None -> lc nd = boundary.
Proof. intros E. unfold lc. rewrite E. reflexivity. Qed.

(** ** Values only *)

Lemma scans_leaf : scans EVAC_LEAF.
Proof.
  start. apply runs_value. eapply finish_alone; [exact I|apply (ext_refl [] [])|exact EG|exact Hok|exact Em|reflexivity|exact Hk].
Qed.

Lemma scans_cons : scans EVAC_CONS.
Proof.
  start. destruct Hk as (a & d & -> & Ha & Hd). unfold evac_cons. apply runs_seq.
  eapply runs_mono; [|apply (fix_tagged_spec base G [nd] s nd _ 0 a _ I ltac:(self) Em eq_refl Ha)].
  intros [] s1 (G1 & a' & I1 & X1 & Em1 & Ha' & _).
  eapply runs_mono; [|apply (fix_tagged_spec base G1 [nd] s1 nd _ 1 d _ I1 ltac:(self) Em1 eq_refl Hd)].
  intros [] s2 (G2 & d' & I2 & X2 & Em2 & Hd' & _).
  eapply finish_alone; [exact I2|exact (ext_trans _ _ _ _ _ _ _ _ X1 X2)|exact EG|exact Hok|exact Em2|reflexivity|].
  exists a', d'. rewrite (lc_new nd End). split; [reflexivity|]. split; [|exact Hd']. eapply vok_mono; [apply X2|reflexivity|exact Ha'].
Qed.

Lemma scans_promise : scans EVAC_PROMISE.
Proof.
  start. destruct Hk as (f & a & d & -> & Ha & Hd). unfold evac_promise. apply runs_seq.
  eapply runs_mono; [|apply (fix_tagged_spec base G [nd] s nd _ 1 a _ I ltac:(self) Em eq_refl Ha)].
  intros [] s1 (G1 & a' & I1 & X1 & Em1 & Ha' & _).
  eapply runs_mono; [|apply (fix_tagged_spec base G1 [nd] s1 nd _ 2 d _ I1 ltac:(self) Em1 eq_refl Hd)].
  intros [] s2 (G2 & d' & I2 & X2 & Em2 & Hd' & _).
  eapply finish_alone; [exact I2|exact (ext_trans _ _ _ _ _ _ _ _ X1 X2)|exact EG|exact Hok|exact Em2|reflexivity|].
  exists f, a', d'. rewrite (lc_new nd End). split; [reflexivity|]. split; [|exact Hd']. eapply vok_mono; [apply X2|reflexivity|exact Ha'].
Qed.

(** The values from some slot on. *)
Lemma run_values G s nd hd pre vs post b : einv G [nd] s -> mem s !! nd = Some (mkNode hd (pre ++ map Tagged vs ++ post)) -> Forall (vok lc G0 b) vs ->
  runs (for_range (length pre) (length vs) (fix_tagged target boundary nd)) s (fun _ s' => exists G' vs', einv G' [nd] s' /\ ext [nd] [] G s G' s' /\
    mem s' !! nd = Some (mkNode hd (pre ++ map Tagged vs' ++ post)) /\ length vs' = length vs /\ Forall (vok lc G' boundary) vs').
Proof. intros I. apply (fix_range base G [nd] s nd hd pre vs post b I). self. Qed.

Lemma scans_vector : scans EVAC_VECTOR.
Proof.
  start. destruct Hk as (len & vs & -> & Hlen & Hv). unfold evac_vector.
  eapply runs_step; [eapply word_at_spec; [exact Em|reflexivity]|]. rewrite Hlen, Nat2Z.id.
  rewrite <- (app_nil_r (map Tagged vs)) in Em.
  eapply runs_mono; [|apply (run_values G s nd _ [Word 8 len] vs [] _ I Em Hv)]. intros [] s1 (G1 & vs' & I1 & X1 & Em1 & Hl1 & Hv').
  rewrite app_nil_r in Em1.
  eapply finish_alone; [exact I1|exact X1|exact EG|exact Hok|exact Em1|cbn; rewrite !map_bytes_tagged, Hl1; reflexivity|].
  exists len, vs'. rewrite (lc_new nd End), Hl1. auto.
Qed.

Lemma scans_multivalue : scans EVAC_MULTIVALUE.
Proof.
  start. destruct Hk as (vs & -> & Hv). unfold evac_multivalue.
  eapply runs_step; [eapply nat_at_spec; [exact Em|reflexivity]|].
  rewrite <- (app_nil_r (map Tagged vs)) in Em.
  eapply runs_mono; [|apply (run_values G s nd _ [Word 8 (Z.of_nat (length vs))] vs [] _ I Em Hv)]. intros [] s1 (G1 & vs' & I1 & X1 & Em1 & Hl1 & Hv').
  rewrite app_nil_r in Em1.
  eapply finish_alone; [exact I1|exact X1|exact EG|exact Hok|exact Em1|cbn; rewrite !map_bytes_tagged, Hl1; reflexivity|].
  exists vs'. rewrite (lc_new nd End), Hl1. auto.
Qed.

Lemma scans_substitution : scans EVAC_SUBSTITUTION.
Proof.
  start. destruct Hk as (n & ids & ts & -> & Hids & Hn & Hv). unfold evac_substitution.
  eapply runs_step; [eapply nat_at_spec; [exact Em|reflexivity]|]. eapply runs_step; [eapply nat_at_spec; [exact Em|reflexivity]|].
  assert (Es : Word 4 (Z.of_nat n) :: Word 4 (Z.of_nat (length ts)) :: map (Word 8) ids ++ map Tagged ts =
               (Word 4 (Z.of_nat n) :: Word 4 (Z.of_nat (length ts)) :: map (Word 8) ids) ++ map Tagged (firstn n ts) ++ map Tagged (skipn n ts)).
  { cbn [app]. rewrite <- map_app, firstn_skipn. reflexivity. }
  rewrite Es in Em. pose proof (run_values G s nd _ _ _ _ _ I Em Hv) as HR.
  rewrite length_firstn, Nat.min_l in HR by exact Hn. cbn [length] in HR. rewrite length_map, Hids in HR.
  eapply runs_mono; [|exact HR]. intros [] s1 (G1 & vs' & I1 & X1 & Em1 & Hl1 & Hv').
  eapply finish_alone; [exact I1|exact X1|exact EG|exact Hok|exact Em1| |].
  - rewrite Es, !map_app, !map_bytes_tagged, Hl1, length_firstn, Nat.min_l by exact Hn. reflexivity.
  - exists n, ids, (vs' ++ skipn n ts). rewrite (lc_new nd End), length_app, Hl1, length_skipn.
    replace (n + (length ts - n))%nat with (length ts) by lia. split; [rewrite map_app; reflexivity|]. split; [exact Hids|]. split; [exact Hn|].
    rewrite <- Hl1, firstn_app, firstn_all, Nat.sub_diag, app_nil_r. exact Hv'.
Qed.

(** ** Strings and arrays of words *)

Lemma string_sizes G X s p n (i : nat) q b : einv G X s -> mem s !! p = Some n -> node_slots n !! i = Some (Pointer q) -> pok lc G0 b RString q -> q <> 0 ->
  sizes (string_size p i) s q.
Proof.
  intros I En Ei Hq N0 n0 En0. destruct Hq as [|[Et _]]; [contradiction|].
  destruct (node_at0 base _ _ Et) as (n1 & En1 & (_ & _ & _ & cs & Es & Hcs)). rewrite En0 in En1. injection En1 as <-.
  unfold string_size, bind. rewrite (pointer_at_spec p i s n q En Ei). unfold read_node.
  rewrite (lookup_weaken _ _ _ _ En0 (ei_old _ _ _ I)), Es, (strlen_string cs Hcs). cbn. rewrite total_bytes_app, (total_bytes_map _ 1) by reflexivity.
  change (total_bytes [Word 1 0]) with 1. same_size.
Qed.

Lemma words_sizes G X s p n (i j : nat) q b w c : einv G X s -> mem s !! p = Some n -> node_slots n !! j = Some (Word b w) -> wordsok lc G0 c 8 w q -> q <> 0 ->
  sizes (size_of (word_at p j) 8) s q.
Proof.
  intros I En Ej Hq N0 n0 En0. destruct Hq as [|[Et _]]; [contradiction|].
  destruct (node_at0 base _ _ Et) as (n1 & En1 & (_ & _ & _ & ws & Es & Hw)). rewrite En0 in En1. injection En1 as <-.
  unfold size_of, bind. rewrite (word_at_spec p j s n b w En Ej). cbn. rewrite Es, (total_bytes_map _ 8) by reflexivity. same_size.
Qed.

Lemma scans_tensor : scans EVAC_TENSOR.
Proof.
  start. destruct Hk as (d & nd' & e & te & dt & -> & Hd & He). unfold evac_tensor. apply runs_seq.
  eapply runs_mono; [|apply (fix_raw_shared base G [nd] s nd _ 0 d (RWords 8 nd') _ _ I ltac:(self) Em eq_refl Logic.I Hd)].
  2: { intros N0. exact (words_sizes G [nd] s nd _ 0 1 d 8 nd' _ I Em eq_refl Hd N0). }
  intros [] s1 (G1 & d1 & I1 & X1 & Em1 & Hd1).
  eapply runs_mono; [|apply (fix_raw_shared base G1 [nd] s1 nd _ 2 e (RWords 8 te) _ _ I1 ltac:(self) Em1 eq_refl Logic.I He)].
  2: { intros N0. exact (words_sizes G1 [nd] s1 nd _ 2 3 e 8 te _ I1 Em1 eq_refl He N0). }
  intros [] s2 (G2 & e2 & I2 & X2 & Em2 & He2).
  eapply finish_alone; [exact I2|exact (ext_trans _ _ _ _ _ _ _ _ X1 X2)|exact EG|exact Hok|exact Em2|reflexivity|].
  exists d1, nd', e2, te, dt. rewrite (lc_new nd End). split; [reflexivity|]. split; [|exact He2]. eapply wordsok_mono; [apply X2|reflexivity|exact Hd1].
Qed.

Lemma scans_fact : scans EVAC_FACT.
Proof.
  start. destruct Hk as (pr & pad & args & -> & Hp & Hv). unfold evac_fact.
  eapply runs_step; [eapply nat_at_spec; [exact Em|reflexivity]|]. rewrite <- (app_nil_r (map Tagged args)) in Em. apply runs_seq.
  eapply runs_mono; [|apply (run_values G s nd _ [Pointer pr; Word 4 (Z.of_nat (length args)); Word 4 pad] args [] _ I Em Hv)].
  intros [] s1 (G1 & vs & I1 & X1 & Em1 & Hl1 & Hv1). rewrite app_nil_r in Em1.
  eapply runs_mono; [|apply (fix_raw_shared base G1 [nd] s1 nd _ 0 pr RString _ _ I1 ltac:(self) Em1 eq_refl Logic.I Hp)].
  2: { intros N0. exact (string_sizes G1 [nd] s1 nd _ 0 pr _ I1 Em1 eq_refl Hp N0). }
  intros [] s2 (G2 & pr2 & I2 & X2 & Em2 & Hp2).
  eapply finish_alone; [exact I2|exact (ext_trans _ _ _ _ _ _ _ _ X1 X2)|exact EG|exact Hok|exact Em2|cbn; rewrite !map_bytes_tagged, Hl1; reflexivity|].
  exists pr2, pad, vs. rewrite (lc_new nd End), Hl1. split; [reflexivity|]. split; [exact Hp2|]. eapply Forall_vok; [apply X2|exact Hv1].
Qed.

Lemma scans_rational : scans EVAC_RATIONAL.
Proof.
  start. destruct Hk as (n & d & big & r & bn & bd & -> & Hb'). unfold evac_rational.
  eapply runs_step; [eapply word_at_spec; [exact Em|reflexivity]|]. destruct (Z.eqb_spec big 0) as [->|N0].
  - apply runs_value. eapply finish_alone; [exact I|apply (ext_refl [] [])|exact EG|exact Hok|exact Em|reflexivity|].
    exists n, d, 0, r, bn, bd. split; [reflexivity|]. congruence.
  - destruct (Hb' N0) as [Hn Hd]. apply runs_seq.
    eapply runs_mono; [|apply (fix_object_ptr_spec base G [nd] s nd _ 4 bn _ I ltac:(self) Em eq_refl Hn)].
    intros [] s1 (G1 & bn' & I1 & X1 & Em1 & Hn1).
    eapply runs_mono; [|apply (fix_object_ptr_spec base G1 [nd] s1 nd _ 5 bd _ I1 ltac:(self) Em1 eq_refl Hd)].
    intros [] s2 (G2 & bd' & I2 & X2 & Em2 & Hd2).
    eapply finish_alone; [exact I2|exact (ext_trans _ _ _ _ _ _ _ _ X1 X2)|exact EG|exact Hok|exact Em2|reflexivity|].
    exists n, d, big, r, bn', bd'. rewrite (lc_new nd End). split; [reflexivity|]. intros _. split; [|exact Hd2].
    eapply objok_mono; [apply X2|reflexivity|exact Hn1].
Qed.

End Kinds.
