(* ===== verification/EvacuationObjects.v ===== *)
(** * Evacuation, kind by kind: objects that own buffers *)

From Stdlib Require Import ZArith List Lia Bool.
From stdpp Require Import base gmap list numbers.
From S2P Require Import Prelude Effects Arena ArenaSpec Tagged Regions RegionsSpec Evacuation HeapTyping EvacuationSpec EvacuationKinds.
Import ListNotations.
Open Scope Z_scope.
Open Scope effect_scope.

Section Owners.
  Context {H : Type} {HM : Malloc H} {ML : MallocLaws H} {AS : AddressSpace H} {U : evac_setup H} (base : evac_base).

Abbreviation mem s := (w_mem (ev_world s)).

Lemma owned_bytes T i q ss : bok lc G0 (w_mem w0) T i q ss -> 0 < total_bytes ss < 2 ^ 61 /\ Forall (fun x => 0 < slot_bytes x) ss.
Proof. intros (E & _ & Em). destruct (node_at0 base _ _ E) as (n & En & (H1 & H2 & _)). rewrite Em in En. injection En as <-. auto. Qed.

(** A buffer whose slots have been replaced by others of the same widths. *)
Lemma buffer_done G s nd i x T j q ss ss' : bok lc G (mem s) nd i x ss' -> bok lc G0 (w_mem w0) T j q ss -> map slot_bytes ss' = map slot_bytes ss -> buffer_of G s nd x.
Proof.
  intros Hb Hq E. destruct (owned_bytes _ _ _ _ Hq) as [H1 H2]. destruct (bytes_same _ _ E) as [E1 E2].
  exists i, ss'. split; [exact Hb|]. rewrite E1. auto.
Qed.

Lemma finish_with X G s G' s' D B nd T k sub h ss ss' : einv G' X s' -> ext D B G s G' s' -> G !! nd = Some (Obj k sub) ->
  node_ok plain lc G0 (w_mem w0) T (Obj k sub) (mkNode (Some h) ss) -> mem s' !! nd = Some (mkNode (Some h) ss') -> map slot_bytes ss' = map slot_bytes ss ->
  kind_ok plain lc G' (mem s') nd k ss' -> (forall x, x ∈ X -> x = nd \/ buffer_of G' s' nd x) ->
  exists G', einv G' [] s' /\ exists D B, ext D B G s G' s'.
Proof.
  intros I Xt E Hok Em Hbytes Hk HX. exists G'. split; [|eauto]. apply (finish G' X s' nd _ _ I (typed_ext _ _ _ _ _ _ _ _ Xt E) Em); [|exact HX].
  exact (node_done _ _ _ _ _ _ _ _ _ Hok Hbytes Hk).
Qed.

(** What stays of a buffer when other nodes change. *)
Lemma bok_ext D B G s G' s' nd i q ss : ext D B G s G' s' -> q ∉ D -> bok lc G (mem s) nd i q ss -> bok lc G' (mem s') nd i q ss.
Proof.
  intros X Hq (E & El & Em). split; [eapply lookup_weaken; [exact E|apply X]|]. split; [exact El|]. exact (ex_mem _ _ _ _ _ _ X _ _ Hq Em).
Qed.

Lemma fwd_ext D B G s G' s' p q : ext D B G s G' s' -> ev_fwd s !! p = Some q -> ev_fwd s' !! p = Some q.
Proof. intros X E. eapply lookup_weaken; [exact E|apply X]. Qed.

Ltac start :=
  intros G s nd T sub I ET Et EG Em End Hl Hb; destruct (original base T _ sub Et) as (h & ss & EmT & Hok & Hk);
  rewrite EmT in Em; cbn [kind_ok] in Hk; cbn [evac_item].

Lemma not_singleton (x y : Z) : x <> y -> x ∉ [y].
Proof. intros N Hi. apply list_elem_of_singleton in Hi. congruence. Qed.

(** A new node is not one that was there. *)
Lemma fresh_ne G X s x y n : einv G X s -> mem s !! x = Some n -> mem s !! y = None -> x <> y.
Proof. intros _ E1 E2 ->. congruence. Qed.

Lemma scans_exception : scans EVAC_EXCEPTION.
Proof.
  start. destruct Hk as (t & x1 & msg & irr & n & line & col & x2 & file & -> & Hm & Hf & Hi). unfold evac_exception. apply runs_seq.
  eapply runs_mono; [|apply (fix_raw_shared base G [nd] s nd _ 2 msg RString _ _ I ltac:(self) Em eq_refl Logic.I Hm)].
  2: { intros N0. exact (string_sizes base G [nd] s nd _ 2 msg _ I Em eq_refl Hm N0). }
  intros [] s1 (G1 & msg1 & I1 & X1 & Em1 & Hm1). apply runs_seq.
  eapply runs_mono; [|apply (fix_raw_shared base G1 [nd] s1 nd _ 8 file RString _ _ I1 ltac:(self) Em1 eq_refl Logic.I Hf)].
  2: { intros N0. exact (string_sizes base G1 [nd] s1 nd _ 8 file _ I1 Em1 eq_refl Hf N0). }
  intros [] s2 (G2 & file2 & I2 & X2 & Em2 & Hf2). unfold with_slot in Em1, Em2. cbn in Em1, Em2.
  assert (Hm2 : pok lc G2 boundary RString msg1) by (eapply pok_mono; [apply X2|reflexivity|exact Hm1]).
  pose proof (ext_trans _ _ _ _ _ _ _ _ X1 X2) as X12. eapply runs_step; [eapply nat_at_spec; [exact Em2|reflexivity]|].
  destruct (decide (n = O \/ irr = 0)) as [Hz|Hz].
  - (* no irritants *)
    assert (Hr : (if Nat.eqb n 0 then ret tt else fix_raw target boundary nd 3 (ret (Z.of_nat n * 16))) s2 = (Ret tt, s2, false)).
    { destruct (Nat.eqb_spec n 0) as [->|N]; [reflexivity|]. destruct Hz as [|E]; [contradiction|]. subst irr. unfold fix_raw, bind at 1.
      rewrite (pointer_at_spec nd 3 s2 _ 0 Em2 eq_refl). reflexivity. }
    eapply runs_step; [exact Hr|]. eapply runs_step; [eapply pointer_at_spec; [exact Em2|reflexivity]|].
    assert (Hr' : (if irr =? 0 then ret tt else for_range 0 n (fix_tagged target boundary irr)) s2 = (Ret tt, s2, false)).
    { destruct (Z.eqb_spec irr 0) as [_|N]; [reflexivity|]. destruct Hz as [->|]; [reflexivity|contradiction]. }
    unfold runs. rewrite Hr'. intros _. eapply finish_alone; [exact I2|exact X12|exact EG|exact Hok|exact Em2|reflexivity|].
    exists t, x1, msg1, irr, n, line, col, x2, file2. rewrite (lc_new nd End). split; [reflexivity|]. split; [exact Hm2|]. split; [exact Hf2|]. tauto.
  - destruct Hi as [->|[->|(vs & Hq & Hlen & Hv)]]; [tauto|tauto|].
    assert (Nn : n <> O) by tauto. assert (N0 : irr <> 0) by tauto. rewrite (proj2 (Nat.eqb_neq _ _) Nn). apply runs_seq.
    assert (Ef : ev_fwd s2 !! irr = None).
    { apply (ex_buffers _ _ _ _ _ _ X12 irr T 3%nat); [apply Hq|apply not_elem_of_nil|apply (Hb _ 3%nat), Hq]. }
    eapply runs_mono; [|apply (fix_raw_owned base G2 [nd] s2 nd T _ 3 irr _ _ I2 ltac:(self) End Em2 eq_refl (fwd_ext _ _ _ _ _ _ _ _ X12 ET) Hl Hq N0 Ef)].
    2: { intros n0 En0. destruct Hq as (_ & _ & Eq). rewrite Eq in En0. injection En0 as <-. cbn [node_slots].
         rewrite (total_bytes_map _ 16), Hlen by reflexivity. unfold ret. same_size. }
    intros [] s3 (G3 & irr' & I3 & X3 & Em3 & Hq3 & N3 & Hfresh). unfold with_slot in Em3. cbn in Em3.
    eapply runs_step; [eapply pointer_at_spec; [exact Em3|reflexivity]|]. rewrite (proj2 (Z.eqb_neq _ _) N3).
    pose proof (proj2 (proj2 Hq3)) as Emi. rewrite <- (app_nil_r (map Tagged vs)) in Emi. rewrite <- Hlen at 1.
    eapply runs_mono; [|apply (fix_range base G3 [irr'; nd] s3 irr' None [] vs [] _ I3 ltac:(left) Emi Hv)].
    intros [] s4 (G4 & vs4 & I4 & X4 & Emi4 & Hl4 & Hv4). cbn [app] in Emi4. rewrite app_nil_r in Emi4.
    assert (Nd : nd <> irr') by (apply (fresh_ne G2 [nd] s2 _ _ _ I2 Em2 Hfresh)).
    pose proof (ex_mem _ _ _ _ _ _ X4 nd _ (not_singleton _ _ Nd) Em3) as Em4.
    assert (X24 : ext ([nd] ++ [irr']) ([] ++ [irr] ++ []) G2 s2 G4 s4) by (eapply ext_trans; eapply ext_weaken; try eassumption; (clear; set_solver)).
    assert (Hq4 : bok lc G4 (mem s4) nd 3 irr' (map Tagged vs4)).
    { split; [eapply typed_ext; [exact X4|apply Hq3]|]. split; [apply Hq3|exact Emi4]. }
    eapply finish_with; [exact I4| |exact EG|exact Hok|exact Em4|reflexivity| |].
    + eapply ext_trans; [|exact X24]. eapply ext_weaken; [exact X12|(clear; set_solver)|(clear; set_solver)].
    + exists t, x1, msg1, irr', n, line, col, x2, file2. rewrite (lc_new nd End). split; [reflexivity|].
      split; [eapply pok_mono; [transitivity G3; [apply X3|apply X4]|reflexivity|exact Hm2]|].
      split; [eapply pok_mono; [transitivity G3; [apply X3|apply X4]|reflexivity|exact Hf2]|]. right; right.
      exists vs4. split; [exact Hq4|]. split; [lia|exact Hv4].
    + intros x Hx. apply elem_of_cons in Hx as [->|Hx]; [right|left; apply list_elem_of_singleton, Hx].
      apply (buffer_done _ _ _ _ _ _ _ _ _ _ Hq4 Hq). rewrite !map_bytes_tagged, Hl4. reflexivity.
Qed.

Lemma scans_knowledge_base : scans EVAC_KNOWLEDGE_BASE.
Proof.
  start. destruct Hk as (n & cap & facts & -> & Hf). unfold evac_knowledge_base. apply runs_seq.
  destruct (Z.eq_dec facts 0) as [->|N0].
  - assert (Hr : fix_raw target boundary nd 2 (size_of (word_at nd 1) 8) s = (Ret tt, s, false)).
    { unfold fix_raw, bind at 1. rewrite (pointer_at_spec nd 2 s _ 0 Em eq_refl). reflexivity. }
    unfold runs at 1. rewrite Hr. intros _. eapply runs_step; [eapply pointer_at_spec; [exact Em|reflexivity]|]. apply runs_value.
    eapply finish_alone; [exact I|apply (ext_refl [] [])|exact EG|exact Hok|exact Em|reflexivity|]. exists n, cap, 0. auto.
  - destruct Hf as [|(ps & Hq & Hlen & Hcap & Hn & Hps)]; [contradiction|].
    eapply runs_mono; [|apply (fix_raw_owned base G [nd] s nd T _ 2 facts _ _ I ltac:(self) End Em eq_refl ET Hl Hq N0 (Hb _ 2%nat (proj1 Hq)))].
    2: { intros n0 En0. destruct Hq as (_ & _ & Eq). rewrite Eq in En0. injection En0 as <-. cbn [node_slots].
         unfold size_of, bind. rewrite (word_at_spec nd 1 s _ 4 _ Em eq_refl). rewrite (total_bytes_map _ 8), Hlen by reflexivity. unfold ret. cbn [orb]. same_size. }
    intros [] s1 (G1 & q & I1 & X1 & Em1 & Hq1 & N1 & Hfresh). unfold with_slot in Em1. cbn in Em1.
    eapply runs_step; [eapply pointer_at_spec; [exact Em1|reflexivity]|]. rewrite (proj2 (Z.eqb_neq _ _) N1).
    eapply runs_step; [eapply nat_at_spec; [exact Em1|reflexivity]|].
    pose proof (proj2 (proj2 Hq1)) as Emq. rewrite <- (firstn_skipn n ps), map_app in Emq.
    pose proof (fix_pointers base G1 [q; nd] s1 q None [] _ _ _ I1 ltac:(left) Emq Hps) as HR.
    rewrite length_firstn, Nat.min_l in HR by lia.
    eapply runs_mono; [|exact HR]. intros [] s2 (G2 & ps2 & I2 & X2 & Emq2 & Hl2 & Hps2). cbn [app] in Emq2. rewrite <- map_app in Emq2.
    assert (Nd : nd <> q) by (apply (fresh_ne G [nd] s _ _ _ I Em Hfresh)).
    pose proof (ex_mem _ _ _ _ _ _ X2 nd _ (not_singleton _ _ Nd) Em1) as Em2.
    assert (Hq2 : bok lc G2 (mem s2) nd 2 q (map Pointer (ps2 ++ skipn n ps))).
    { split; [eapply typed_ext; [exact X2|apply Hq1]|]. split; [apply Hq1|exact Emq2]. }
    assert (Hlen2 : length (ps2 ++ skipn n ps) = cap) by (rewrite length_app, length_skipn; lia).
    eapply (finish_with [q; nd] G s G2 s2 ([nd] ++ [q]) [facts]); [exact I2| |exact EG|exact Hok|exact Em2|reflexivity| |].
    + eapply ext_trans; eapply ext_weaken; try eassumption; (clear; set_solver).
    + exists n, cap, q. split; [reflexivity|]. right. exists (ps2 ++ skipn n ps). split; [exact Hq2|]. split; [exact Hlen2|]. split; [exact Hcap|]. split; [exact Hn|].
      rewrite (lc_new nd End). rewrite firstn_app, Hl2, Nat.sub_diag, app_nil_r, firstn_all2 by lia. exact Hps2.
    + intros x Hx. apply elem_of_cons in Hx as [->|Hx]; [right|left; apply list_elem_of_singleton, Hx].
      apply (buffer_done _ _ _ _ _ _ _ _ _ _ Hq2 Hq). rewrite !map_bytes_pointers, Hlen2, Hlen. reflexivity.
Qed.

(** ** Workspaces *)

Definition module_body (nd : Z) (i : nat) : M (evac H) unit :=
  let! _ := fix_raw target boundary nd (5 + 3 * i) (string_size nd (5 + 3 * i)) in fix_tagged target boundary nd (6 + 3 * i).

Definition module_ok (G : gmap Z ty) (b : Z) (x : ws_module) : Prop := pok lc G b RString (fst (fst x)) /\ vok lc G b (snd (fst x)).

Lemma module_ok_mono G G' b x : G ⊆ G' -> module_ok G b x -> module_ok G' b x.
Proof. intros HG [H1 H2]. split; [eapply pok_mono|eapply vok_mono]; try eassumption; reflexivity. Qed.

Lemma modules_bytes mods mods' : length mods' = length mods -> map slot_bytes (flat_map module_slots mods') = map slot_bytes (flat_map module_slots mods).
Proof.
  revert mods. induction mods' as [|[[a b] c] mods' IH]; intros [|[[a' b'] c'] mods] E; try discriminate; [reflexivity|].
  cbn. do 3 f_equal. apply IH. cbn in E. lia.
Qed.

Lemma modules_loop nd hd b mods : forall G s pre post from, einv G [nd] s -> mem s !! nd = Some (mkNode hd (pre ++ flat_map module_slots mods ++ post)) ->
  length pre = (5 + 3 * from)%nat -> Forall (module_ok G0 b) mods ->
  runs (for_range from (length mods) (module_body nd)) s (fun _ s' => exists G' mods', einv G' [nd] s' /\ ext [nd] [] G s G' s' /\
    mem s' !! nd = Some (mkNode hd (pre ++ flat_map module_slots mods' ++ post)) /\ length mods' = length mods /\ Forall (module_ok G' boundary) mods').
Proof.
  induction mods as [|[[name f] sc] mods IH]; intros G s pre post from I Em Hpre Hm; cbn [for_range length].
  - apply runs_value. exists G, []. split; [exact I|]. split; [apply ext_refl|]. auto.
  - inversion Hm as [|? ? [Hn Hf] Hm2]; subst. cbn [fst snd] in Hn, Hf. cbn [flat_map module_slots app] in Em.
    apply runs_seq. unfold module_body. apply runs_seq. rewrite <- Hpre. replace (6 + 3 * from)%nat with (S (length pre)) by lia.
    eapply runs_mono; [|apply (fix_raw_shared base G [nd] s nd _ (length pre) name RString _ _ I ltac:(self) Em (lookup_middle _ _ _) Logic.I Hn)].
    2: { intros N0. exact (string_sizes base G [nd] s nd _ (length pre) name _ I Em (lookup_middle _ _ _) Hn N0). }
    intros [] s1 (G1 & name1 & I1 & X1 & Em1 & Hn1). unfold with_slot in Em1. cbn [node_header node_slots] in Em1. rewrite insert_middle in Em1.
    change (pre ++ Pointer name1 :: ?l) with (pre ++ [Pointer name1] ++ l) in Em1. rewrite app_assoc in Em1.
    pose proof (lookup_middle (pre ++ [Pointer name1]) (Word 8 sc :: flat_map module_slots mods ++ post) (Tagged f)) as El.
    pose proof (insert_middle (pre ++ [Pointer name1]) (Word 8 sc :: flat_map module_slots mods ++ post) (Tagged f)) as Ei.
    replace (S (length pre)) with (length (pre ++ [Pointer name1])) by (rewrite length_app; cbn; lia).
    eapply runs_mono; [|apply (fix_tagged_spec base G1 [nd] s1 nd _ _ f _ I1 ltac:(self) Em1 El Hf)].
    intros [] s2 (G2 & f2 & I2 & X2 & Em2 & Hf2 & _). unfold with_slot in Em2. cbn [node_header node_slots] in Em2. rewrite Ei in Em2.
    change ((pre ++ [Pointer name1]) ++ Tagged f2 :: Word 8 sc :: ?l) with ((pre ++ [Pointer name1]) ++ [Tagged f2; Word 8 sc] ++ l) in Em2. rewrite app_assoc in Em2.
    specialize (IH G2 s2 _ post (S from) I2 Em2). rewrite !length_app in IH. cbn [length] in IH. specialize (IH ltac:(lia) Hm2).
    eapply runs_mono; [|exact IH]. intros [] s3 (G3 & mods3 & I3 & X3 & Em3 & Hl3 & Hm3). exists G3, ((name1, f2, sc) :: mods3).
    split; [exact I3|]. split; [exact (ext_trans _ _ _ _ _ _ _ _ X1 (ext_trans _ _ _ _ _ _ _ _ X2 X3))|].
    split; [rewrite <- !app_assoc in Em3; exact Em3|]. split; [cbn; lia|]. constructor; [|exact Hm3]. split; cbn [fst snd].
    + eapply pok_mono; [transitivity G2; [apply X2|apply X3]|reflexivity|exact Hn1].
    + eapply vok_mono; [apply X3|reflexivity|exact Hf2].
Qed.

Lemma scans_workspace : scans EVAC_WORKSPACE.
Proof.
  start. destruct Hk as (n & mx & dim & step & content & mods & -> & Hn & Hc & Hm). unfold evac_workspace. apply runs_seq.
  eapply runs_mono; [|apply (fix_raw_shared base G [nd] s nd _ 4 content (RWords 8 dim) _ _ I ltac:(self) Em eq_refl Logic.I Hc)].
  2: { intros N0. exact (words_sizes base G [nd] s nd _ 4 2 content 4 dim _ I Em eq_refl Hc N0). }
  intros [] s1 (G1 & c1 & I1 & X1 & Em1 & Hc1). unfold with_slot in Em1. cbn in Em1.
  eapply runs_step; [eapply nat_at_spec; [exact Em1|reflexivity]|]. fold (module_body nd).
  assert (Es : flat_map module_slots mods = flat_map module_slots (firstn n mods) ++ flat_map module_slots (skipn n mods))
    by (rewrite <- flat_map_app, firstn_skipn; reflexivity).
  rewrite Es in Em1. pose proof (modules_loop nd _ (lc T) (firstn n mods) G1 s1
    [Word 4 (Z.of_nat n); Word 4 mx; Word 4 dim; Word 4 step; Pointer c1] (flat_map module_slots (skipn n mods)) 0 I1 Em1 eq_refl Hm) as HR.
  rewrite length_firstn, Nat.min_l in HR by exact Hn.
  eapply runs_mono; [|exact HR]. intros [] s2 (G2 & mods2 & I2 & X2 & Em2 & Hl2 & Hm2). rewrite <- flat_map_app in Em2.
  assert (Hlen : length (mods2 ++ skipn n mods) = length mods) by (rewrite length_app, length_skipn; lia).
  eapply finish_alone; [exact I2|exact (ext_trans _ _ _ _ _ _ _ _ X1 X2)|exact EG|exact Hok|exact Em2| |].
  - cbn [map app]. do 5 f_equal. apply modules_bytes, Hlen.
  - exists n, mx, dim, step, c1, (mods2 ++ skipn n mods). rewrite (lc_new nd End). split; [reflexivity|]. split; [lia|].
    split; [eapply wordsok_mono; [apply X2|reflexivity|exact Hc1]|]. rewrite firstn_app, Hl2, Nat.sub_diag, app_nil_r, firstn_all2 by lia. exact Hm2.
Qed.

(** ** Closures *)

Lemma stays_typed G X s p t : einv G X s -> G !! p = Some t -> lc p <= boundary -> dy p = false.
Proof.
  intros I Et Hl. destruct (ei_typed _ _ _ I p t Et) as (n & En & _). destruct (w_mem w0 !! p) as [n0|] eqn:E0.
  - rewrite (dy_lc p n0 E0), Z.gtb_ltb. apply Z.ltb_ge. lia.
  - exact (new_not_dying base _ _ _ _ _ I En E0).
Qed.

(** A value that stays where it is, and a slot that is written with what it holds. *)
Lemma evac_value_stable G X s v : einv G X s -> vok lc G boundary v -> evac_value target boundary v s = (Ret v, s, false).
Proof.
  intros I Hv. unfold evac_value. destruct (is_heap_value v) eqn:Eh; cbn [negb]; [|reflexivity].
  destruct (Z.eqb_spec (vdata v) 0) as [|N0]; [reflexivity|]. destruct (Hv Eh N0) as (sub & Et & Hl).
  unfold bind. rewrite (dying_spec base _ _ _ _ I), (stays_typed _ _ _ _ _ I Et Hl). reflexivity.
Qed.

Lemma write_same p i (s : evac H) n x : mem s !! p = Some n -> node_slots n !! i = Some x -> write_slot p i x s = (Ret tt, s, false).
Proof.
  intros En Ei. unfold write_slot, bind, read_node, write_node. rewrite En. cbn. rewrite list_insert_id by exact Ei.
  destruct n as [hd ss]. cbn. rewrite insert_id by exact En. destruct s as [[] ? ? ?]. reflexivity.
Qed.

Lemma ext_trans_fresh q D B G s G1 s1 G2 s2 : ext D B G s G1 s1 -> ext (q :: D) B G1 s1 G2 s2 -> mem s !! q = None -> ext D B G s G2 s2.
Proof.
  intros [A1 A2 A3 A4 A5] [B1 B2 B3 B4 B5] Hq. split; [etransitivity; eassumption| |etransitivity; eassumption|eauto|lia].
  intros p n Hp En. apply B2; [|exact (A2 p n Hp En)]. intros Hi. apply elem_of_cons in Hi as [->|Hi]; [congruence|contradiction].
Qed.

Definition no_cells (X : list Z) (G : gmap Z ty) : Prop := forall x, x ∈ X -> exists t, G !! x = Some t /\ t <> RCell.

Lemma no_cells_mono X G G' : G ⊆ G' -> no_cells X G -> no_cells X G'.
Proof. intros HG Hn x Hx. destruct (Hn x Hx) as (t & E & N). exists t. split; [eapply lookup_weaken; eassumption|exact N]. Qed.

(** The cell of a variable that an earlier closure has taken along: it is left as it is. *)
Lemma cell_again G X s old q : einv G X s -> no_cells X G -> G0 !! old = Some RCell -> ev_fwd s !! old = Some q ->
  G !! q = Some RCell /\ lc q <= boundary /\ fix_tagged target boundary q 0 s = (Ret tt, s, false).
Proof.
  intros I HX Et Ef. destruct (ei_fwd _ _ _ I old q Ef) as (t & t' & E1 & E2 & E3 & E4 & _). rewrite Et in E1. injection E1 as <-.
  assert (t' = RCell) as -> by (destruct t'; cbn in E3; congruence || contradiction). split; [exact E2|]. split; [exact E4|].
  destruct (ei_typed _ _ _ I q RCell E2) as (n & En & [[k Hk]|[Hq|(_ & _ & _ & v & Ev & Hv)]]).
  - destruct (ei_work _ _ _ I q k Hk) as (T & sub & _ & _ & E & _). congruence.
  - destruct (HX q Hq) as (t & E & N). congruence.
  - assert (Ei : node_slots n !! 0%nat = Some (Tagged v)) by (rewrite Ev; reflexivity).
    unfold fix_tagged, bind. rewrite (tagged_at_spec q 0 s n v En Ei).
    rewrite (evac_value_stable G X s v I (vok_mono _ _ _ _ _ _ (reflexivity G) E4 Hv)). rewrite (write_same q 0 s n _ En Ei). reflexivity.
Qed.

(** A cell that is copied for the first time. *)
Lemma cell_first G X s old : einv G X s -> no_cells X G -> old <> 0 -> G0 !! old = Some RCell -> ev_fwd s !! old = None -> boundary < lc old -> reached old ->
  runs (evac_raw target old 16) s (fun q s1 => dy q = false /\ runs (fix_tagged target boundary q 0) s1 (fun _ s2 =>
    exists G', einv G' X s2 /\ ext [] [] G s G' s2 /\ G' !! q = Some RCell /\ lc q <= boundary /\ ev_fwd s2 !! old = Some q)).
Proof.
  intros I HX N0 Et Ef Hl Hre. destruct (node_at0 base _ _ Et) as (n & En & (Hsz & Hpos & Hh & v & Ev & Hv)).
  assert (Eb : total_bytes (node_slots n) = 16) by (rewrite Ev; reflexivity).
  eapply runs_mono; [|apply (evac_raw_new base G X s old 16 RCell RCell n I N0 Ef Et En Hh Eb ltac:(lia) Hpos)]; [|reflexivity|discriminate|exact Hl|exact Hre].
  intros q s1 (I1 & X1 & Em1 & Ef1 & Hlq & Hq0 & Hq & Hd). split; [exact Hd|]. set (G1 := <[q := RCell]> G) in *.
  assert (En1 : mem s1 !! q = Some n) by (rewrite Em1; apply lookup_insert_eq).
  eapply runs_mono; [|apply (fix_tagged_spec base G1 (q :: X) s1 q n 0 v _ I1 ltac:(left) En1 ltac:(rewrite Ev; reflexivity) Hv)].
  intros [] s2 (G2 & v2 & I2 & X2 & En2 & Hv2 & _). unfold with_slot in En2. rewrite Ev in En2. cbn in En2.
  assert (EG1 : G1 !! q = Some RCell) by apply lookup_insert_eq. assert (EG2 : G2 !! q = Some RCell) by (eapply typed_ext; eassumption).
  exists G2. split; [|split; [|split; [exact EG2|split; [exact Hlq|eapply fwd_ext; eassumption]]]].
  - apply (close_spec _ (q :: X) X _ I2); [(clear; set_solver)| |].
    + intros x t0 n0 Hx Hx' Et0 En0. apply elem_of_cons in Hx as [->|Hx]; [|contradiction].
      rewrite EG2 in Et0. injection Et0 as <-. rewrite En2 in En0. injection En0 as <-. cbn. split; [cbn; lia|].
      split; [repeat constructor|]. split; [exact Hh|]. exists v2. split; [reflexivity|]. unfold lc at 2. rewrite Hq0. exact Hv2.
    + intros x o i Hx E. destruct (ei_open _ _ _ I2 x ltac:(right; exact Hx)) as (_ & _ & H3). specialize (H3 o i E).
      apply elem_of_cons in H3 as [->|H3]; [exfalso|exact H3]. destruct (HX x Hx) as (t & Ex & _).
      assert (EGx : G2 !! x = Some t) by (eapply typed_ext; [exact X2|]; eapply typed_ext; eassumption). rewrite E in EGx. injection EGx as <-.
      destruct (ei_open _ _ _ I x Hx) as (_ & _ & H4). destruct (ei_there _ _ _ I q (H4 q i Ex)). congruence.
  - apply (ext_trans_fresh q [] [] G s G1 s1 G2 s2); [|exact X2|exact Hq]. destruct X1 as [A1 A2 A3 A4 A5]. split; auto.
    intros y o i Ey _ Ey'. apply (A4 y o i Ey); [|exact Ey']. intros Hi. apply list_elem_of_singleton in Hi as ->. congruence.
Qed.

Lemma capture_spec G X s p n i v b : einv G X s -> no_cells X G -> p ∈ X -> mem s !! p = Some n -> node_slots n !! i = Some (Tagged v) -> cok plain lc G0 b v ->
  runs (evac_capture target boundary p i) s (fun _ s' => exists G' v', einv G' X s' /\ ext [p] [] G s G' s' /\
    mem s' !! p = Some (with_slot n i (Tagged v')) /\ cok plain lc G' boundary v').
Proof.
  intros I HX Hp En Ei [Hv Hc]. unfold evac_capture. eapply runs_step; [eapply tagged_at_spec; eassumption|].
  assert (Hother : (vtype v = ESHKOL_VALUE_INT64 -> vdata v <> 0 -> dy (vdata v) = false) ->
    runs (fix_tagged target boundary p i) s (fun _ s' => exists G' v', einv G' X s' /\ ext [p] [] G s G' s' /\
      mem s' !! p = Some (with_slot n i (Tagged v')) /\ cok plain lc G' boundary v')).
  { intros Hd. eapply runs_mono; [|exact (fix_tagged_spec base G X s p n i v b I Hp En Ei Hv)].
    intros [] s1 (G1 & v1 & I1 & X1 & En1 & Hv1 & Hsame & Ht). exists G1, v1. split; [exact I1|]. split; [exact X1|]. split; [exact En1|]. split; [exact Hv1|].
    rewrite Ht. intros Et N0. assert (Hn : is_heap_value v = false) by (unfold is_heap_value; rewrite Et; reflexivity).
    rewrite (Hsame Hn) in *. destruct (Hc Et N0) as [[EC _]|Hp']; [left|right; exact Hp'].
    split; [eapply lookup_weaken; [exact EC|apply I1]|exact (dy_stays _ (Hd Et N0))]. }
  destruct (Z.eqb_spec (vtype v) ESHKOL_VALUE_INT64) as [Et|Nt]; cbn [andb negb].
  2: { eapply runs_step; [reflexivity|]. apply Hother. congruence. }
  destruct (Z.eqb_spec (vdata v) 0) as [E0|N0]; cbn [negb].
  { eapply runs_step; [reflexivity|]. apply Hother. congruence. }
  eapply runs_step; [apply (dying_spec base _ _ _ _ I)|]. destruct (dy (vdata v)) eqn:Ed; [|apply Hother; auto].
  destruct (Hc Et N0) as [[EC Hl]|Hp']; [|rewrite (eb_plain base _ Hp') in Ed; discriminate].
  assert (Hlo : boundary < lc (vdata v)) by exact (dying_node base _ _ EC Ed).
  assert (Hfin : forall q, dy q = false -> forall s1, runs (fix_tagged target boundary q 0) s1 (fun _ s2 =>
      exists G', einv G' X s2 /\ ext [] [] G s G' s2 /\ G' !! q = Some RCell /\ lc q <= boundary /\ ev_fwd s2 !! vdata v = Some q) ->
    runs (if q =? vdata v then ret tt else let! _ := fix_tagged target boundary q 0 in write_slot p i (Tagged (with_data v q))) s1 (fun _ s' =>
      exists G' v', einv G' X s' /\ ext [p] [] G s G' s' /\ mem s' !! p = Some (with_slot n i (Tagged v')) /\ cok plain lc G' boundary v')).
  { intros q Hq s1 HR. destruct (Z.eqb_spec q (vdata v)) as [->|_]; [congruence|]. apply runs_seq. eapply runs_mono; [|exact HR].
    intros [] s2 (G2 & I2 & X2 & EGq & Hlq & Ef). pose proof (ex_mem _ _ _ _ _ _ X2 p n ltac:(apply not_elem_of_nil) En) as En2.
    eapply runs_mono; [|apply (write_slot_spec G2 X s2 p n i (Tagged v) (Tagged (with_data v q)) I2 Hp En2 Ei), (image_tagged base _ _ _ _ _ I2); right; eauto].
    intros [] s3 (I3 & X3 & Em3 & _ & _). exists G2, (with_data v q). split; [exact I3|].
    split; [eapply ext_trans; [eapply ext_weaken; [exact X2|(clear; set_solver)|(clear; set_solver)]|exact X3]|].
    split; [rewrite Em3; apply lookup_insert_eq|]. split.
    - intros Hh. exfalso. unfold is_heap_value in Hh. cbn [vtype with_data] in Hh. rewrite Et in Hh. discriminate.
    - intros _ _. left. auto. }
  apply runs_seq. destruct (ev_fwd s !! vdata v) as [q|] eqn:Ef.
  - destruct (cell_again G X s _ q I HX EC Ef) as (EGq & Hlq & Hst). unfold runs at 1. rewrite (evac_raw_again s _ 16 q N0 ltac:(lia) Ef). intros _.
    apply Hfin; [exact (fwd_stays base _ _ _ _ _ I Ef)|]. unfold runs. rewrite Hst. intros _. exists G. split; [exact I|]. split; [apply ext_refl|]. auto.
  - eapply runs_mono; [|exact (cell_first G X s _ I HX N0 EC Ef Hlo (slot_reached base G X s p n i (Tagged v) _ I Hp En Ei (conj eq_refl (or_intror (conj Et EC))) ltac:(eauto) Hlo))]. intros q s1 [Hq HR]. exact (Hfin q Hq s1 HR).
Qed.

Lemma scans_closure : scans EVAC_CLOSURE.
Proof.
  start. destruct Hk as (f & env & sx & name & rest & -> & Hrest & Hname & Henv). unfold evac_closure.
  eapply runs_step; [eapply pointer_at_spec; [exact Em|reflexivity]|].
  (* the name is dealt with last, whatever is in the environment slot *)
  assert (Hlast : forall G1 s1 env1 D B, einv G1 [nd] s1 -> ext D B G s G1 s1 -> mem s1 !! nd = Some (mkNode (Some h) (Word 8 f :: Pointer env1 :: Word 8 sx :: Pointer name :: rest)) ->
    (env1 = 0 \/ exists packed vs, bok lc G1 (mem s1) nd 1 env1 (Word 8 packed :: map Tagged vs) /\ env1 <> nd /\
       Z.land packed 65535 = Z.of_nat (length vs) /\ Forall (cok plain lc G1 boundary) vs) ->
    runs (fix_raw target boundary nd 3 (string_size nd 3)) s1 (fun _ s' => exists G', einv G' [] s' /\ exists D B, ext D B G s G' s')).
  { intros G1 s1 env1 D B I1 X1 Em1 He.
    eapply runs_mono; [|apply (fix_raw_shared base G1 [nd] s1 nd _ 3 name RString _ _ I1 ltac:(self) Em1 eq_refl Logic.I Hname)].
    2: { intros N0. exact (string_sizes base G1 [nd] s1 nd _ 3 name _ I1 Em1 eq_refl Hname N0). }
    intros [] s2 (G2 & name2 & I2 & X2 & Em2 & Hn2).
    eapply finish_alone; [exact I2| |exact EG|exact Hok|exact Em2|reflexivity|].
    { eapply ext_trans; [eapply (ext_weaken _ _ ([nd] ++ D) B); [exact X1|(clear; set_solver)|reflexivity]|eapply ext_weaken; [exact X2|(clear; set_solver)|(clear; set_solver)]]. }
    exists f, env1, sx, name2, rest. rewrite (lc_new nd End). split; [reflexivity|]. split; [exact Hrest|]. split; [exact Hn2|].
    destruct He as [->|(packed & vs & Hq & Ne & Hp & Hv)]; [left; reflexivity|right]. exists packed, vs.
    split; [exact (bok_ext _ _ _ _ _ _ _ _ _ _ X2 (not_singleton _ _ Ne) Hq)|]. split; [exact Hp|].
    eapply Forall_mono; [|exact Hv]. intros v. apply cok_mono; [apply X2|reflexivity]. }
  destruct (Z.eq_dec env 0) as [->|N0].
  { eapply runs_step; [reflexivity|]. eapply runs_step; [reflexivity|]. eapply Hlast; [exact I|apply (ext_refl [] [])|exact Em|left; reflexivity]. }
  destruct Henv as [|(packed & vs & Hq & Hp & Hv)]; [contradiction|]. pose proof Hq as (Eq & Elq & Emq).
  rewrite (proj2 (Z.eqb_neq _ _) N0). eapply runs_step; [apply (dying_spec base _ _ _ _ I)|]. rewrite (lc_dies _ _ Emq) by lia.
  apply runs_seq. eapply runs_step; [eapply word_at_spec; [exact (lookup_weaken _ _ _ _ Emq (ei_old _ _ _ I))|reflexivity]|]. rewrite Hp.
  apply runs_seq. eapply runs_mono; [|apply (copy_owned base G [nd] s nd T _ 1 env _ _ I ltac:(self) End Em eq_refl ET Hl Hq N0 (Hb _ 1%nat Eq))].
  2: { change (total_bytes (Word 8 packed :: map Tagged vs)) with (8 + total_bytes (map Tagged vs)). rewrite (total_bytes_map _ 16) by reflexivity. lia. }
  intros ne s1 HR. apply runs_seq. eapply runs_mono; [|exact HR]. clear HR.
  intros [] s2 (G2 & I2 & X2 & Em2 & Hq2 & N2 & Hfresh). unfold with_slot in Em2. cbn in Em2.
  pose proof (proj2 (proj2 Hq2)) as Emn. rewrite <- (app_nil_r (map Tagged vs)) in Emn.
  assert (HX : no_cells [ne; nd] G2).
  { intros x Hx. apply elem_of_cons in Hx as [->|Hx]; [exists (Buffer nd 1); split; [apply Hq2|discriminate]|].
    apply list_elem_of_singleton in Hx as ->. exists (Obj EVAC_CLOSURE sub). split; [eapply typed_ext; eassumption|discriminate]. }
  pose proof (each_slot Tagged (cok plain lc G0 (lc T)) (fun G v => cok plain lc G boundary v) (no_cells [ne; nd]) [ne; nd] ne None (evac_capture target boundary ne)) as HL.
  specialize (HL ltac:(intros G3 G4 v HG; apply cok_mono; [exact HG|reflexivity]) (no_cells_mono [ne; nd])).
  specialize (HL ltac:(intros G3 s3 i v n I3 HX3 En Ei Hv0; exact (capture_spec G3 _ s3 ne n i v _ I3 HX3 ltac:(left) En Ei Hv0))).
  specialize (HL vs G2 s2 [Word 8 packed] [] I2 HX Emn Hv). cbn [length] in HL. rewrite Nat2Z.id.
  eapply runs_mono; [|exact HL]. intros [] s3 (G3 & vs3 & I3 & X3 & Em3 & Hl3 & Hv3). cbn [app] in Em3. rewrite app_nil_r in Em3.
  assert (Nd : nd <> ne) by (apply (fresh_ne G [nd] s _ _ _ I Em Hfresh)).
  assert (Hq3 : bok lc G3 (mem s3) nd 1 ne (Word 8 packed :: map Tagged vs3)).
  { split; [eapply typed_ext; [exact X3|apply Hq2]|]. split; [apply Hq2|exact Em3]. }
  apply (Hlast G3 s3 ne ([nd] ++ [ne]) [env]).
  - apply (close_spec G3 [ne; nd] [nd] s3 I3); [(clear; set_solver)| |].
    + intros x t n Hx Hx' Et' En'. apply elem_of_cons in Hx as [->|Hx]; [|contradiction].
      destruct Hq3 as (Et3 & _ & En3). rewrite Et3 in Et'. injection Et' as <-. rewrite En3 in En'. injection En' as <-.
      destruct (owned_bytes _ _ _ _ Hq) as [B1 B2]. destruct (bytes_same (Word 8 packed :: map Tagged vs) (Word 8 packed :: map Tagged vs3)) as [B3 B4].
      { cbn. rewrite !map_bytes_tagged, Hl3. reflexivity. }
      split; [cbn [node_slots]; rewrite B3; exact B1|]. split; [exact (B4 B2)|reflexivity].
    + intros x o i Hx E. apply list_elem_of_singleton in Hx as ->.
      assert (EG3 : G3 !! nd = Some (Obj EVAC_CLOSURE sub)) by (eapply typed_ext; [exact X3|]; eapply typed_ext; eassumption). congruence.
  - eapply ext_trans; eapply ext_weaken; try eassumption; (clear; set_solver).
  - exact (ex_mem _ _ _ _ _ _ X3 nd _ (not_singleton _ _ Nd) Em2).
  - right. exists packed, vs3. split; [exact Hq3|]. split; [congruence|]. split; [rewrite Hl3; exact Hp|exact Hv3].
Qed.

(** ** Hash tables *)

Lemma insert_map {A B} (f : A -> B) i x l : <[i := f x]> (map f l) = map f (<[i := x]> l).
Proof. revert i. induction l as [|y l IH]; intros [|i]; cbn; [reflexivity..|]. f_equal. apply IH. Qed.

Lemma lookup_map {A B} (f : A -> B) (i : nat) x l : l !! i = Some x -> map f l !! i = Some (f x).
Proof. revert i. induction l as [|y l IH]; intros [|i]; cbn; try discriminate; [congruence|]. apply IH. Qed.

(** The loop over the slots in use. *)
Definition slot_body (keys values status : Z) (i : nat) : M (evac H) unit :=
  let! st := word_at status i in
  if st =? 1 then let! _ := fix_tagged target boundary keys i in fix_tagged target boundary values i else ret tt.

(** The entries in use of the slots that satisfy [at]. *)
Definition entries (P : tagged_value -> Prop) (at' : nat -> Prop) (st : list Z) (ks vs : list tagged_value) : Prop :=
  forall j x y, at' j -> st !! j = Some 1 -> ks !! j = Some x -> vs !! j = Some y -> P x /\ P y.

Lemma entries_mono P P' (at1 at2 : nat -> Prop) st ks vs : (forall x, P x -> P' x) -> (forall j, at2 j -> at1 j) -> entries P at1 st ks vs -> entries P' at2 st ks vs.
Proof. intros HP Ha He j x y Hj E1 E2 E3. destruct (He j x y (Ha j Hj) E1 E2 E3). auto. Qed.

Lemma slots_loop X keys values status b st : forall n i G s ks vs, (i + n)%nat = length st -> length ks = length st -> length vs = length st ->
  einv G X s -> keys ∈ X -> values ∈ X -> keys <> values -> keys <> status -> values <> status ->
  mem s !! keys = Some (mkNode None (map Tagged ks)) -> mem s !! values = Some (mkNode None (map Tagged vs)) -> mem s !! status = Some (mkNode None (map (Word 1) st)) ->
  entries (vok lc G boundary) (fun j => (j < i)%nat) st ks vs -> entries (vok lc G0 b) (fun j => (i <= j)%nat) st ks vs ->
  runs (for_range i n (slot_body keys values status)) s (fun _ s' => exists G' ks' vs', einv G' X s' /\ ext [keys; values] [] G s G' s' /\
    mem s' !! keys = Some (mkNode None (map Tagged ks')) /\ mem s' !! values = Some (mkNode None (map Tagged vs')) /\
    length ks' = length st /\ length vs' = length st /\ entries (vok lc G' boundary) (fun _ => True) st ks' vs').
Proof.
  intros n. induction n as [|n IH]; intros i G s ks vs Hi Hlk Hlv I Hk Hv N1 N2 N3 Ek Ev Es Hdone Htodo; cbn [for_range].
  - apply runs_value. exists G, ks, vs. split; [exact I|]. split; [apply ext_refl|]. repeat (split; [assumption|]).
    intros j x y _ E1 E2 E3. apply (Hdone j x y); auto. apply lookup_lt_Some in E1. lia.
  - destruct (lookup_lt_is_Some_2 st i ltac:(lia)) as [w Ew]. destruct (lookup_lt_is_Some_2 ks i ltac:(lia)) as [x Ex].
    destruct (lookup_lt_is_Some_2 vs i ltac:(lia)) as [y Ey]. apply runs_seq. unfold slot_body.
    eapply runs_step; [eapply word_at_spec; [exact Es|exact (lookup_map (Word 1) i w st Ew)]|].
    destruct (Z.eqb_spec w 1) as [->|Nw].
    + destruct (Htodo i x y (le_n i) Ew Ex Ey) as [Hx Hy]. apply runs_seq.
      eapply runs_mono; [|apply (fix_tagged_spec base G X s keys _ i x b I Hk Ek (lookup_map Tagged i x ks Ex) Hx)].
      intros [] s1 (G1 & x1 & I1 & X1 & Ek1 & Hx1 & _). unfold with_slot in Ek1. cbn [node_header node_slots] in Ek1. rewrite insert_map in Ek1.
      pose proof (ex_mem _ _ _ _ _ _ X1 values _ (not_singleton values keys ltac:(congruence)) Ev) as Ev1.
      pose proof (ex_mem _ _ _ _ _ _ X1 status _ (not_singleton status keys ltac:(congruence)) Es) as Es1.
      eapply runs_mono; [|apply (fix_tagged_spec base G1 X s1 values _ i y b I1 Hv Ev1 (lookup_map Tagged i y vs Ey) Hy)].
      intros [] s2 (G2 & y2 & I2 & X2 & Ev2 & Hy2 & _). unfold with_slot in Ev2. cbn [node_header node_slots] in Ev2. rewrite insert_map in Ev2.
      pose proof (ex_mem _ _ _ _ _ _ X2 keys _ (not_singleton keys values ltac:(congruence)) Ek1) as Ek2.
      pose proof (ex_mem _ _ _ _ _ _ X2 status _ (not_singleton status values ltac:(congruence)) Es1) as Es2.
      assert (X12 : ext [keys; values] [] G s G2 s2) by (eapply ext_trans; eapply ext_weaken; try eassumption; (clear; set_solver)).
      eapply runs_mono; [|apply (IH (S i) G2 s2 (<[i := x1]> ks) (<[i := y2]> vs)); rewrite ?length_insert; auto; try lia].
      * intros [] s3 (G3 & ks3 & vs3 & I3 & X3 & H3). exists G3, ks3, vs3. split; [exact I3|]. split; [exact (ext_trans _ _ _ _ _ _ _ _ X12 X3)|exact H3].
      * intros j x' y' Hj E1 E2 E3; cbn beta in Hj. destruct (Nat.eq_dec j i) as [->|Nj].
        -- rewrite list_lookup_insert_eq in E2, E3 by lia. injection E2 as <-. injection E3 as <-. split; [|exact Hy2].
           eapply vok_mono; [apply X2|reflexivity|exact Hx1].
        -- rewrite list_lookup_insert_ne in E2, E3 by congruence. destruct (Hdone j x' y' ltac:(cbn beta; lia) E1 E2 E3) as [V1 V2].
           split; (eapply vok_mono; [apply X12|reflexivity|]); assumption.
      * intros j x' y' Hj E1 E2 E3; cbn beta in Hj. rewrite list_lookup_insert_ne in E2, E3 by lia. exact (Htodo j x' y' ltac:(cbn beta; lia) E1 E2 E3).
    + apply runs_value. apply (IH (S i) G s ks vs); auto; try lia.
      * intros j x' y' Hj E1 E2 E3; cbn beta in Hj. destruct (Nat.eq_dec j i) as [->|Nj]; [congruence|]. exact (Hdone j x' y' ltac:(cbn beta; lia) E1 E2 E3).
      * intros j x' y' Hj E1 E2 E3; cbn beta in Hj. exact (Htodo j x' y' ltac:(cbn beta; lia) E1 E2 E3).
Qed.

Lemma keeps_home (s : evac H) a : keeps_image s (ArenaRef a) (ArenaRef target).
Proof.
  intros x0 [E|Hx].
  - subst x0. right. reflexivity.
  - destruct x0; [destruct Hx|destruct Hx as (? & _ & [=])|destruct Hx as (? & _ & [=])|right; reflexivity].
Qed.

(** The copy of one of the buffers: the field [i] of the table. *)
Lemma run_buffer G s X nd T h ss i q bs c size : einv G X s -> nd ∈ X -> w_mem w0 !! nd = None -> mem s !! nd = Some (mkNode (Some h) ss) -> ss !! i = Some (Pointer q) ->
  ev_fwd s !! T = Some nd -> boundary < lc T -> bok lc G0 (w_mem w0) T i q bs -> q <> 0 -> ev_fwd s !! q = None ->
  total_bytes bs = c -> size = ret c ->
  runs (fix_raw target boundary nd i size) s (fun _ s' => exists G' q', einv G' (q' :: X) s' /\ ext [nd] [q] G s G' s' /\
    mem s' !! nd = Some (mkNode (Some h) (<[i := Pointer q']> ss)) /\ bok lc G' (mem s') nd i q' bs /\ q' <> 0 /\ mem s !! q' = None).
Proof.
  intros I Hp End Em Ei ET Hl Hq N0 Ef Hc ->.
  eapply runs_mono; [|apply (fix_raw_owned base G X s nd T _ i q bs _ I Hp End Em Ei ET Hl Hq N0 Ef)].
  - intros [] s' (G' & q' & I' & X' & Em' & Hq' & N' & Hf). exists G', q'. auto 10.
  - intros n En. destruct Hq as (_ & _ & Eq). rewrite Eq in En. injection En as <-. cbn [node_slots]. rewrite Hc. reflexivity.
Qed.

Lemma scans_hash : scans EVAC_HASH.
Proof.
  start. destruct Hk as (size & tombs & keys & values & status & home & ks & vs & st & -> & Hst & Hlk & Hlv & Bk & Bv & Bs & Nk & Nv & Ns & He).
  unfold evac_hash. eapply runs_step; [eapply nat_at_spec; [exact Em|reflexivity]|].
  pose proof (Hb _ _ (proj1 Bk)) as Fk. pose proof (Hb _ _ (proj1 Bv)) as Fv. pose proof (Hb _ _ (proj1 Bs)) as Fs.
  assert (Nkv : values <> keys) by (intros ->; pose proof (proj1 Bk) as E1; rewrite (proj1 Bv) in E1; congruence).
  assert (Nks : status <> keys) by (intros ->; pose proof (proj1 Bk) as E1; rewrite (proj1 Bs) in E1; congruence).
  assert (Nvs : status <> values) by (intros ->; pose proof (proj1 Bv) as E1; rewrite (proj1 Bs) in E1; congruence).
  apply runs_seq. eapply runs_mono; [|apply (run_buffer G s [nd] nd T h _ 3 keys _ (Z.of_nat (length st) * 16) _ I ltac:(self) End Em eq_refl ET Hl Bk Nk Fk);
    [rewrite (total_bytes_map _ 16), Hlk by reflexivity; lia|reflexivity]].
  intros [] s1 (G1 & ke & I1 & X1 & Em1 & K1 & Nke & Fke). cbn in Em1.
  apply runs_seq. eapply runs_mono; [|apply (run_buffer G1 s1 [ke; nd] nd T h _ 4 values _ (Z.of_nat (length st) * 16) _ I1 ltac:(right; self) End Em1 eq_refl
    (fwd_ext _ _ _ _ _ _ _ _ X1 ET) Hl Bv Nv); [|rewrite (total_bytes_map _ 16), Hlv by reflexivity; lia|reflexivity]].
  2: { exact (ex_buffers _ _ _ _ _ _ X1 _ _ _ (proj1 Bv) (not_singleton _ _ Nkv) Fv). }
  intros [] s2 (G2 & va & I2 & X2 & Em2 & V2 & Nva & Fva). cbn in Em2.
  pose proof (ex_buffers _ _ _ _ _ _ X1 _ _ _ (proj1 Bs) (not_singleton _ _ Nks) Fs) as Fs1.
  apply runs_seq. eapply runs_mono; [|apply (run_buffer G2 s2 [va; ke; nd] nd T h _ 5 status _ (Z.of_nat (length st)) _ I2 ltac:(right; right; self) End Em2 eq_refl
    (fwd_ext _ _ _ _ _ _ _ _ X2 (fwd_ext _ _ _ _ _ _ _ _ X1 ET)) Hl Bs Ns); [|rewrite (total_bytes_map _ 1) by reflexivity; lia|reflexivity]].
  2: { exact (ex_buffers _ _ _ _ _ _ X2 _ _ _ (proj1 Bs) (not_singleton _ _ Nvs) Fs1). }
  intros [] s3 (G3 & sa & I3 & X3 & Em3 & S3 & Nsa & Fsa). cbn in Em3.
  (* the buffers are nodes of their own *)
  assert (D1 : nd <> ke) by exact (fresh_ne G [nd] s _ _ _ I Em Fke). assert (D2 : nd <> va) by exact (fresh_ne G1 [ke; nd] s1 _ _ _ I1 Em1 Fva).
  assert (D3 : nd <> sa) by exact (fresh_ne G2 [va; ke; nd] s2 _ _ _ I2 Em2 Fsa).
  pose proof (bok_ext _ _ _ _ _ _ _ _ _ _ X2 (not_singleton ke nd ltac:(congruence)) K1) as K2.
  pose proof (bok_ext _ _ _ _ _ _ _ _ _ _ X3 (not_singleton ke nd ltac:(congruence)) K2) as K3.
  pose proof (bok_ext _ _ _ _ _ _ _ _ _ _ X3 (not_singleton va nd ltac:(congruence)) V2) as V3.
  assert (D4 : ke <> va) by exact (fresh_ne G1 [ke; nd] s1 _ _ _ I1 (proj2 (proj2 K1)) Fva).
  assert (D5 : ke <> sa) by exact (fresh_ne G2 [va; ke; nd] s2 _ _ _ I2 (proj2 (proj2 K2)) Fsa).
  assert (D6 : va <> sa) by exact (fresh_ne G2 [va; ke; nd] s2 _ _ _ I2 (proj2 (proj2 V2)) Fsa).
  eapply runs_step; [eapply pointer_at_spec; [exact Em3|reflexivity]|]. eapply runs_step; [eapply pointer_at_spec; [exact Em3|reflexivity]|].
  eapply runs_step; [eapply pointer_at_spec; [exact Em3|reflexivity]|].
  rewrite (proj2 (Z.eqb_neq _ _) Nke), (proj2 (Z.eqb_neq _ _) Nva), (proj2 (Z.eqb_neq _ _) Nsa). cbn [orb].
  apply runs_seq. fold (slot_body ke va sa).
  eapply runs_mono; [|apply (slots_loop [sa; va; ke; nd] ke va sa (lc T) st (length st) 0 G3 s3 ks vs eq_refl Hlk Hlv I3); auto; try apply K3; try apply V3; try apply S3].
  2: { right; right; left. } 2: { right; left. }
  2: { intros j x y Hj. cbn in Hj. lia. } 2: { intros j x y _ E1 E2 E3. exact (He j x y E1 E2 E3). }
  intros [] s4 (G4 & ks4 & vs4 & I4 & X4 & Ek4 & Ev4 & Lk4 & Lv4 & He4).
  assert (Hnd4 : mem s4 !! nd = mem s3 !! nd) by (rewrite Em3; apply (ex_mem _ _ _ _ _ _ X4 nd _ ltac:(clear - D1 D2; set_solver) Em3)). rewrite Em3 in Hnd4.
  assert (Es4 : mem s4 !! sa = Some (mkNode None (map (Word 1) st))) by (apply (ex_mem _ _ _ _ _ _ X4 sa _ ltac:(clear - D5 D6; set_solver)); apply S3).
  eapply runs_mono; [|apply (write_slot_spec G4 _ s4 nd _ 6 (ArenaRef home) (ArenaRef target) I4 ltac:(right; right; right; left) Hnd4 eq_refl (keeps_home _ _))].
  intros [] s5 (I5 & X5 & Em5 & _ & _). cbn in Em5.
  assert (Other : forall x, x <> nd -> mem s5 !! x = mem s4 !! x) by (intros x N; rewrite Em5; apply lookup_insert_ne; congruence).
  assert (K5 : bok lc G4 (mem s5) nd 3 ke (map Tagged ks4)).
  { split; [eapply typed_ext; [exact X4|apply K3]|]. split; [apply K3|]. rewrite Other by congruence. exact Ek4. }
  assert (V5 : bok lc G4 (mem s5) nd 4 va (map Tagged vs4)).
  { split; [eapply typed_ext; [exact X4|apply V3]|]. split; [apply V3|]. rewrite Other by congruence. exact Ev4. }
  assert (S5 : bok lc G4 (mem s5) nd 5 sa (map (Word 1) st)).
  { split; [eapply typed_ext; [exact X4|apply S3]|]. split; [apply S3|]. rewrite Other by congruence. exact Es4. }
  eapply (finish_with [sa; va; ke; nd] G s G4 s5 [nd; ke; va] [keys; values; status]); [exact I5| |exact EG|exact Hok|rewrite Em5; apply lookup_insert_eq|reflexivity| |].
  - pose proof (ext_weaken _ _ [nd; ke; va] [keys; values; status] _ _ _ _ X1 ltac:(clear; set_solver) ltac:(clear; set_solver)) as Y1.
    pose proof (ext_weaken _ _ [nd; ke; va] [keys; values; status] _ _ _ _ X2 ltac:(clear; set_solver) ltac:(clear; set_solver)) as Y2.
    pose proof (ext_weaken _ _ [nd; ke; va] [keys; values; status] _ _ _ _ X3 ltac:(clear; set_solver) ltac:(clear; set_solver)) as Y3.
    pose proof (ext_weaken _ _ [nd; ke; va] [keys; values; status] _ _ _ _ X4 ltac:(clear; set_solver) ltac:(clear; set_solver)) as Y4.
    pose proof (ext_weaken _ _ [nd; ke; va] [keys; values; status] _ _ _ _ X5 ltac:(clear; set_solver) ltac:(clear; set_solver)) as Y5.
    exact (ext_trans _ _ _ _ _ _ _ _ Y1 (ext_trans _ _ _ _ _ _ _ _ Y2 (ext_trans _ _ _ _ _ _ _ _ Y3 (ext_trans _ _ _ _ _ _ _ _ Y4 Y5)))).
  - exists size, tombs, ke, va, sa, target, ks4, vs4, st. split; [reflexivity|]. repeat (split; [assumption|]).
    rewrite (lc_new nd End). intros i x y E1 E2 E3. exact (He4 i x y Logic.I E1 E2 E3).
  - intros x Hx. apply elem_of_cons in Hx as [->|Hx]; [right; exact (buffer_done _ _ _ _ _ _ _ _ _ _ S5 Bs eq_refl)|].
    apply elem_of_cons in Hx as [->|Hx]; [right; apply (buffer_done _ _ _ _ _ _ _ _ _ _ V5 Bv); rewrite !map_bytes_tagged, Lv4, Hlv; reflexivity|].
    apply elem_of_cons in Hx as [->|Hx]; [right; apply (buffer_done _ _ _ _ _ _ _ _ _ _ K5 Bk); rewrite !map_bytes_tagged, Lk4, Hlk; reflexivity|].
    left. apply list_elem_of_singleton, Hx.
Qed.

(** All kinds. *)
Theorem scans_all k : scans k.
Proof.
  destruct k; [exact (scans_leaf base)|exact (scans_cons base)|exact (scans_vector base)|exact (scans_multivalue base)|exact scans_hash
    |exact (scans_tensor base)|exact scans_exception|exact scans_closure|exact (scans_substitution base)|exact (scans_fact base)
    |exact scans_knowledge_base| |exact scans_workspace|exact (scans_promise base)|exact (scans_rational base)].
  intros G s nd T sub _ _ Et. destruct (original base T _ sub Et) as (h & ss & _ & _ & []).
Qed.

End Owners.

(** ** The worklist is emptied, and what is then in memory *)

Section Run.
  Context {H : Type} {HM : Malloc H} {ML : MallocLaws H} {AS : AddressSpace H} {U : evac_setup H} (base : evac_base).

(** An entry of the worklist is taken out to be worked on. *)
Definition taken (s : evac H) (rest : list (Z * EvacKind)) : evac H := mkEvac (ev_world s) (ev_fwd s) rest (ev_copies s).

Lemma taken_spec G s nd k rest : einv G [] s -> ev_worklist s = (nd, k) :: rest -> einv G [nd] (taken s rest) /\ pending G (taken s rest) nd k.
Proof.
  intros I E. pose proof (ei_work _ _ _ I nd k ltac:(rewrite E; left)) as P. split; [|exact P].
  pose proof (ei_nodup _ _ _ I) as Hnd. rewrite E in Hnd. cbn in Hnd. inversion Hnd as [|? ? Hnew Hnd2]; subst.
  destruct I. unfold taken. split; cbn [ev_world ev_fwd ev_worklist]; try assumption.
  - intros p t Et. destruct (ei_typed p t Et) as (n & En & Hc). exists n. split; [exact En|].
    destruct Hc as [[k' Hc]|[Hc|Hc]]; [|destruct (not_elem_of_nil _ Hc)|right; right; exact Hc].
    rewrite E in Hc. apply elem_of_cons in Hc as [[= -> ->]|Hc]; [right; left; left|left; exists k'; exact Hc].
  - intros p k' Hi. apply ei_work. rewrite E. right. exact Hi.
  - intros p Hp. apply list_elem_of_singleton in Hp as ->. destruct P as (T & sub & P1 & P2 & P3 & P4 & P5 & P6 & P7). split; [exact P5|]. split.
    + intros k' Hi. apply Hnew. apply list_elem_of_fmap. exists (nd, k'). auto.
    + intros o i Eb. congruence.
  - intros p Hp. apply list_elem_of_singleton in Hp as ->. destruct P as (T & sub & P1 & P2 & P3 & P4 & P5 & P6 & P7).
    destruct (ei_typed nd _ P3) as (n & En & _). eauto.
Qed.

Lemma measure_taken s nd k rest : ev_worklist s = (nd, k) :: rest -> measure s = S (measure (taken s rest)).
Proof. intros E. unfold measure, taken. cbn [ev_fwd ev_worklist]. rewrite E. cbn [length]. lia. Qed.

(** What a run of the loop keeps. *)
Definition grows (G : gmap Z ty) (s : evac H) (G' : gmap Z ty) (s' : evac H) : Prop := G ⊆ G' /\ ev_fwd s ⊆ ev_fwd s'.

Lemma drain_spec fuel : forall G s, einv G [] s -> (measure s <= fuel)%nat ->
  runs (drain target boundary fuel) s (fun _ s' => exists G', einv G' [] s' /\ ev_worklist s' = [] /\ grows G s G' s').
Proof.
  induction fuel as [|fuel IH]; intros G s I Hf.
  - unfold runs, drain. destruct (ev_worklist s) as [|[nd k] rest] eqn:E.
    + cbn. intros _. exists G. split; [exact I|]. split; [exact E|split; reflexivity].
    + rewrite (measure_taken _ _ _ _ E) in Hf. lia.
  - unfold runs. cbn [drain]. destruct (ev_worklist s) as [|[nd k] rest] eqn:E.
    + cbn. intros _. exists G. split; [exact I|]. split; [exact E|split; reflexivity].
    + rewrite (measure_taken _ _ _ _ E) in Hf. destruct (taken_spec _ _ _ _ _ I E) as [I1 (T & sub & P1 & P2 & P3 & P4 & P5 & P6 & P7)].
      fold (taken s rest). apply (runs_seq (evac_item target boundary nd k) (fun _ => drain target boundary fuel)).
      eapply runs_mono; [|exact (scans_all base k G _ nd T sub I1 P1 P2 P3 P4 P5 P6 P7)].
      intros [] s1 (G1 & I2 & D & B & X). eapply runs_mono; [|apply (IH G1 s1 I2)].
      * intros [] s2 (G2 & I3 & E3 & H1 & H2). exists G2. split; [exact I3|]. split; [exact E3|]. split; [transitivity G1; [apply X|exact H1]|].
        transitivity (ev_fwd s1); [apply X|exact H2].
      * pose proof (ex_measure _ _ _ _ _ _ X). lia.
Qed.

(** ** The whole evacuation *)

(** The entries of a forwarding map that an earlier evacuation has left. *)
Definition forwards_ok (fwd : gmap Z Z) : Prop := forall p q, fwd !! p = Some q ->
  exists t t', G0 !! p = Some t /\ G0 !! q = Some t' /\ same_ty fwd t t' /\ lc q <= boundary /\ boundary < lc p.

Definition start_state : evac H := mkEvac w0 fwd0 [] 0.

Lemma start_spec : forwards_ok fwd0 -> einv G0 [] start_state.
Proof.
  intros Hf. unfold start_state. split; cbn [ev_world ev_fwd ev_worklist]; try reflexivity.
  - exists (w_heap w0), (w_arenas w0), (w_mem w0). destruct w0. reflexivity.
  - apply (eb_pool base).
  - apply (eb_alive base).
  - intros a0 a x E1 E2. rewrite E1 in E2. injection E2 as <-. auto.
  - congruence.
  - auto.
  - intros p t E. destruct (eb_typed base p t E) as (n & En & Hok). eauto.
  - exact Hf.
  - intros p q E. left. split; [exact E|]. destruct (Hf p q E) as (t & t' & _ & E2 & _). destruct (eb_typed base q t' E2) as (n & En & _). congruence.
  - intros p p' q E _ E0. exfalso. destruct (Hf p q E) as (t & t' & _ & E2 & _). destruct (eb_typed base q t' E2) as (n & En & _). congruence.
  - intros nd k Hi. destruct (not_elem_of_nil _ Hi).
  - constructor.
  - intros p Hi. destruct (not_elem_of_nil _ Hi).
  - intros p Hi. destruct (not_elem_of_nil _ Hi).
  - intros p q E E0. exfalso. destruct (Hf p q E) as (t & t' & _ & E2 & _). destruct (eb_typed base q t' E2) as (n & En & _). congruence.
  - congruence.
Qed.

Lemma evacuate_spec v b : forwards_ok fwd0 -> vok lc G0 b v ->
  (is_heap_value v = true -> is_Some (G0 !! vdata v) -> boundary < lc (vdata v) -> reached (vdata v)) ->
  runs (evacuate target boundary (size (w_mem w0)) v) start_state (fun v' s' => exists G', einv G' [] s' /\ ev_worklist s' = [] /\
    grows G0 start_state G' s' /\ vok lc G' boundary v' /\ value_image (ev_fwd s') v v').
Proof.
  intros Hf Hv Hre. unfold evacuate. apply runs_seq. eapply runs_mono; [|apply (evac_value_spec base G0 [] start_state v b (start_spec Hf) Hv Hre)].
  intros v1 s1 (G1 & I1 & X1 & Hv1 & Him & _). apply runs_seq. eapply runs_mono; [|apply (drain_spec _ G1 s1 I1)].
  - intros [] s2 (G2 & I2 & E2 & H1 & H2). apply runs_value. exists G2. split; [exact I2|]. split; [exact E2|].
    split; [split; [transitivity G1; [apply X1|exact H1]|transitivity (ev_fwd s1); [apply X1|exact H2]]|].
    split; [eapply vok_mono; [exact H1|reflexivity|exact Hv1]|].
    destruct Him as [->|(q & Eq & ->)]; [left; reflexivity|right]. exists q. split; [eapply lookup_weaken; eassumption|reflexivity].
  - pose proof (ex_measure _ _ _ _ _ _ X1) as Hm. unfold measure at 2 in Hm. cbn [start_state ev_fwd ev_worklist length] in Hm.
    enough (size (dom (w_mem w0) ∖ dom fwd0 : gset Z) <= size (w_mem w0))%nat by lia.
    rewrite <- (size_dom (D:=gset Z) (w_mem w0)). apply subseteq_size. set_solver.
Qed.

End Run.
