(* ===== verification/RegionMemory.v ===== *)
(** * The memory of a thread with regions: what is right of it, and what escapes keep *)

From Stdlib Require Import ZArith List Lia Bool.
From stdpp Require Import base gmap list numbers.
From S2P Require Import Prelude Effects Arena ArenaSpec Tagged Regions RegionsSpec Evacuation HeapTyping EvacuationSpec EvacuationKinds EvacuationObjects.
Import ListNotations.
Open Scope Z_scope.
Open Scope effect_scope.

Section Memory.
  Context {H : Type} {HM : Malloc H} {ML : MallocLaws H} {AS : AddressSpace H}.
  (** What else the process obtained from [malloc], and the arena outside of all regions. *)
  Variables (rest : list (Z * Z)) (root : Z).

(** ** Well-formed memory *)

(** The arena that values leaving the regions above [outer] go to. *)
Definition arena_above (outer : list region) : Z := match outer with [] => root | r :: _ => rg_arena r end.

Definition frame_ok (G : gmap Z ty) (loc : Z -> Z) (r : region) (outer : list region) : Prop :=
  rg_escape_base r = arena_above outer /\
  match rg_fwd_map r with
  | None => True
  | Some m => exists mid o, outer = mid ++ o /\ rg_fwd_target r = arena_above o /\
      forall p q, m !! p = Some q -> exists t t', G !! p = Some t /\ G !! q = Some t' /\ same_ty m t t' /\
        loc q <= Z.of_nat (length o) - 1 /\ Z.of_nat (length o) - 1 < loc p <= Z.of_nat (length outer)
  end.

Fixpoint frames_ok (G : gmap Z ty) (loc : Z -> Z) (st : list region) : Prop :=
  match st with [] => True | r :: outer => frame_ok G loc r outer /\ frames_ok G loc outer end.

(** The allocations of the regions themselves. *)
Definition region_pointers (st : list region) : list Z := flat_map (fun r => rg_ptr r :: match rg_name r with Some n => [n] | None => [] end) st.

Record memory_ok (G : gmap Z ty) (w : world H) : Prop := {
  mo_pool : exists blocks, map fst blocks = region_pointers (region_stack w) /\ pool_ok (blocks ++ rest) (w_heap w) (w_arenas w);
  mo_arenas : stack_arenas (w_arenas w) (region_stack w);
  mo_root : is_Some (w_arenas w !! root) /\ root ∉ map rg_arena (region_stack w);
  mo_placed : forall p n, w_mem w !! p = Some n -> exists ap a, w_arenas w !! ap = Some a /\ holds a p;
  mo_typed : forall p t, G !! p = Some t -> exists n, w_mem w !! p = Some n /\ node_ok plain_integer (region_index_owning w) G (w_mem w) p t n;
  mo_frames : frames_ok G (region_index_owning w) (region_stack w);
}.

(** Where an arena is in the stack. *)
Fixpoint arena_index (st : list region) (ap : Z) : Z :=
  match st with [] => -1 | r :: outer => if rg_arena r =? ap then Z.of_nat (length outer) else arena_index outer ap end.

Lemma owning_arena others h ars st ap a p : pool_ok others h ars -> ars !! ap = Some a -> holds a p -> owning_index ars st p = arena_index st ap.
Proof.
  intros P Ea Hh. induction st as [|r st IH]; [reflexivity|]. rewrite owning_cons. cbn [arena_index]. unfold region_holds.
  destruct (Z.eqb_spec (rg_arena r) ap) as [->|N].
  - rewrite Ea, (proj2 (contains_holds a h p (pool_wf _ _ _ _ _ P Ea)) Hh). reflexivity.
  - destruct (ars !! rg_arena r) as [b|] eqn:Eb; [|exact IH]. destruct (arena_contains_ptr b p) eqn:Ec; [|exact IH].
    apply (contains_holds b h p (pool_wf _ _ _ _ _ P Eb)) in Ec. destruct N. exact (pool_disjoint _ _ _ _ _ _ _ p P Eb Ea Ec Hh).
Qed.

Lemma arena_index_range st ap : -1 <= arena_index st ap < Z.max 0 (Z.of_nat (length st)).
Proof. induction st as [|r st IH]; cbn [arena_index length]; [lia|]. destruct (Z.eqb_spec (rg_arena r) ap); lia. Qed.

Lemma arena_index_absent st ap : ap ∉ map rg_arena st -> arena_index st ap = -1.
Proof.
  induction st as [|r st IH]; [reflexivity|]. cbn. intros Hn. destruct (Z.eqb_spec (rg_arena r) ap) as [<-|_]; [destruct Hn; left|].
  apply IH. intros Hi. apply Hn. right. exact Hi.
Qed.

Lemma arena_index_app inner outer ap : ap ∉ map rg_arena inner -> arena_index (inner ++ outer) ap = arena_index outer ap.
Proof.
  induction inner as [|r inner IH]; [reflexivity|]. cbn. intros Hn. destruct (Z.eqb_spec (rg_arena r) ap) as [<-|_]; [destruct Hn; left|].
  apply IH. intros Hi. apply Hn. right. exact Hi.
Qed.

(** The arenas of a stack and the root are all different. *)
Lemma above_absent inner outer : NoDup (map rg_arena (inner ++ outer)) -> root ∉ map rg_arena (inner ++ outer) -> arena_above outer ∉ map rg_arena inner.
Proof.
  intros Hnd Hr Hi. destruct outer as [|r outer]; cbn [arena_above] in Hi.
  - apply Hr. rewrite map_app. apply elem_of_app. left. exact Hi.
  - rewrite map_app in Hnd. apply NoDup_ListNoDup in Hnd. apply (NoDup_app_clash _ _ (rg_arena r) Hnd); [apply list_elem_of_In, Hi|left; reflexivity].
Qed.

Lemma above_index inner outer : NoDup (map rg_arena (inner ++ outer)) -> root ∉ map rg_arena (inner ++ outer) ->
  arena_index (inner ++ outer) (arena_above outer) = Z.of_nat (length outer) - 1.
Proof.
  intros Hnd Hr. rewrite arena_index_app by (apply above_absent; assumption). destruct outer as [|r outer]; cbn [arena_above].
  - reflexivity.
  - cbn [arena_index length]. rewrite Z.eqb_refl. lia.
Qed.

(** The arena tells where in the stack the boundary is. *)
Lemma above_unique inner outer inner' outer' : NoDup (map rg_arena (inner ++ outer)) -> root ∉ map rg_arena (inner ++ outer) ->
  inner ++ outer = inner' ++ outer' -> arena_above outer = arena_above outer' -> outer = outer'.
Proof.
  intros Hnd Hr E Ea. pose proof (above_index _ _ Hnd Hr) as H1. rewrite E in Hnd, Hr. pose proof (above_index _ _ Hnd Hr) as H2.
  rewrite E, Ea, H2 in H1. apply app_inj_2 in E as [_ E]; [exact E|lia].
Qed.

Lemma frames_ok_mono G G' loc loc' st : G ⊆ G' -> (forall p t, G !! p = Some t -> loc' p = loc p) -> frames_ok G loc st -> frames_ok G' loc' st.
Proof.
  intros HG Hl. induction st as [|r st IH]; [exact id|]. intros [[H1 H2] H3]. split; [|exact (IH H3)]. split; [exact H1|].
  destruct (rg_fwd_map r) as [m|]; [|exact Logic.I]. destruct H2 as (mid & o & E & Et & Hm). exists mid, o. split; [exact E|]. split; [exact Et|].
  intros p q Ep. destruct (Hm p q Ep) as (t & t' & E1 & E2 & E3 & E4). exists t, t'. rewrite (Hl p t E1), (Hl q t' E2).
  split; [eapply lookup_weaken; eassumption|]. split; [eapply lookup_weaken; eassumption|auto].
Qed.

(** ** An evacuation starts *)

(** The objects and buffers of the regions above [bound] that a value reaches through
    such objects and buffers. *)
Inductive reaches (w : world H) (G : gmap Z ty) (bound : Z) (v : tagged_value) : Z -> Prop :=
| reaches_value : is_heap_value v = true -> is_Some (G !! vdata v) -> bound < region_index_owning w (vdata v) -> reaches w G bound v (vdata v)
| reaches_slot p n x q : reaches w G bound v p -> w_mem w !! p = Some n -> x ∈ node_slots n -> slot_refers G x q ->
    is_Some (G !! q) -> bound < region_index_owning w q -> reaches w G bound v q.

Definition setup (w : world H) (G : gmap Z ty) (blocks : list (Z * Z)) (inner outer : list region) (fwd : gmap Z Z) (v : tagged_value) : evac_setup H :=
  {| target := arena_above outer; plain := plain_integer; others := blocks ++ rest; w0 := w; G0 := G;
     EvacuationSpec.inner := inner; EvacuationSpec.outer := outer; fwd0 := fwd;
     reached := reaches w G (Z.of_nat (length outer) - 1) v |}.

Section Start.
  Context (w : world H) (G : gmap Z ty) (inner outer : list region) (blocks : list (Z * Z)) (fwd : gmap Z Z) (v : tagged_value).
  Hypothesis ok : memory_ok G w.
  Hypothesis stack : region_stack w = inner ++ outer.
  Hypothesis pool : pool_ok (blocks ++ rest) (w_heap w) (w_arenas w).
  Hypothesis pointers : map fst blocks = region_pointers (region_stack w).

Abbreviation U := (setup w G blocks inner outer fwd v).

Lemma start_lc p t : G !! p = Some t -> lc (U := U) p = region_index_owning w p.
Proof.
  intros E. destruct (mo_typed _ _ ok p t E) as (n & En & _). unfold lc. cbn [w0 EvacuationSpec.inner EvacuationSpec.outer U].
  cbn. rewrite En. unfold region_index_owning. rewrite stack. reflexivity.
Qed.

Lemma plain_unowned x ap a : w_arenas w !! ap = Some a -> holds a x -> ~ plain_integer x.
Proof.
  intros Ea (b & Hb & Hx). pose proof (pool_wf _ _ _ _ _ pool Ea) as W. pose proof (pool_split _ _ _ _ _ pool Ea) as [_ Hl].
  destruct (wf_block_geometry _ _ b W Hb) as (Hm & Hu & Hbd).
  apply (good_live (w_heap w) (blk_memory b) (blk_size b) x (po_good _ _ _ pool)); [|lia].
  apply Hl, in_or_app. left. right. apply in_or_app. right. apply in_flat_map. exists b. simpl. auto.
Qed.

Lemma setup_base : evac_base (U := U).
Proof.
  pose proof (mo_arenas _ _ ok) as Ha. pose proof (mo_root _ _ ok) as [Hr Hr']. rewrite stack in Ha, Hr'. split; cbn.
  - exact stack.
  - exact Ha.
  - destruct outer as [|r o]; [|reflexivity]. cbn. rewrite app_nil_r in Hr'. exact Hr'.
  - exact pool.
  - destruct outer as [|r o]; cbn; [exact Hr|]. destruct Ha as [_ Ha]. rewrite Forall_forall in Ha. apply Ha, in_or_app. right. left. reflexivity.
  - exact (mo_placed _ _ ok).
  - intros p t E. destruct (mo_typed _ _ ok p t E) as (n & En & Hok). exists n. split; [exact En|].
    eapply node_ok_carries; [|exact Hok]. apply carries_typed.
    + intros q t' Eq Hl. split; [exact Eq|]. rewrite (start_lc p t E), (start_lc q t' Eq). exact Hl.
    + intros q i n' Eq Hl Em. split; [exact Em|]. rewrite (start_lc p t E), (start_lc q _ Eq). exact Hl.
  - intros p Hp. unfold dy. cbn. apply not_true_is_false. intros Hb. apply existsb_exists in Hb as (r & _ & Hb). unfold region_holds in Hb.
    destruct (w_arenas w !! rg_arena r) as [a|] eqn:Ea; [|discriminate].
    apply (contains_holds a _ p (pool_wf _ _ _ _ _ pool Ea)) in Hb. exact (plain_unowned p _ _ Ea Hb Hp).
  - intros p n x q Hp En Hx Hq Ht Hl. pose proof Ht as [t Et]. rewrite (start_lc q t Et) in Hl. exact (reaches_slot _ _ _ _ p n x q Hp En Hx Hq Ht Hl).
Qed.

(** ** and ends *)

  Context (G' : gmap Z ty) (s' : evac H).
  Hypothesis done : einv (U := U) G' [] s'.
  Hypothesis empty : ev_worklist s' = [].
  Hypothesis kept : G ⊆ G'.

Lemma end_stack : region_stack (ev_world s') = region_stack w.
Proof. destruct (ei_world _ _ _ done) as (h & ars & m & ->). reflexivity. Qed.

Lemma end_lc p t : G' !! p = Some t -> region_index_owning (ev_world s') p = lc (U := U) p.
Proof.
  intros E. pose proof (mo_arenas _ _ ok) as [Hnd _]. pose proof (mo_root _ _ ok) as [_ Hr]. rewrite stack in Hnd, Hr.
  unfold region_index_owning. rewrite end_stack, stack. pose proof (ei_pool _ _ _ done) as P.
  destruct (ei_typed _ _ _ done p t E) as (n & En & _). unfold lc. cbn. destruct (w_mem w !! p) as [n0|] eqn:E0.
  - destruct (mo_placed _ _ ok p n0 E0) as (ap & a & Ea & Hh). rewrite (owning_arena _ _ _ _ _ _ _ pool Ea Hh).
    destruct (Z.eq_dec ap (arena_above outer)) as [->|N].
    + destruct (ei_target _ _ _ done) as [a' Ea']. apply (owning_arena _ _ _ _ _ _ _ P Ea'). exact (ei_grow _ _ _ done a a' p Ea Ea' Hh).
    + apply (owning_arena _ _ _ _ ap a p P); [|exact Hh]. rewrite (ei_other _ _ _ done) by exact N. exact Ea.
  - destruct (ei_placed _ _ _ done p n En E0) as (a & Ea & Hh). rewrite (owning_arena _ _ _ _ _ _ _ P Ea Hh). cbn.
    apply above_index; assumption.
Qed.

Lemma old_lc p t : G !! p = Some t -> region_index_owning (ev_world s') p = region_index_owning w p.
Proof. intros E. rewrite (end_lc p t) by (eapply lookup_weaken; eassumption). exact (start_lc p t E). Qed.

Lemma end_memory : memory_ok G' (ev_world s').
Proof.
  pose proof end_stack as Es. pose proof (mo_arenas _ _ ok) as [Hnd Hal]. pose proof (mo_root _ _ ok) as [[ra Hra] Hr].
  assert (Hdom : forall ap, is_Some (w_arenas w !! ap) -> is_Some (w_arenas (ev_world s') !! ap)).
  { intros ap Hap. destruct (Z.eq_dec ap (arena_above outer)) as [->|N]; [exact (ei_target _ _ _ done)|].
    rewrite (ei_other _ _ _ done) by exact N. exact Hap. }
  split; rewrite ?Es.
  - exists blocks. split; [exact pointers|exact (ei_pool _ _ _ done)].
  - split; [exact Hnd|]. eapply Forall_mono; [|exact Hal]. intros r. apply Hdom.
  - split; [apply Hdom; eauto|exact Hr].
  - intros p n E. exact (placed_pos setup_base _ _ _ _ _ done E).
  - intros p t E. destruct (ei_typed _ _ _ done p t E) as (n & En & Hc). exists n. split; [exact En|].
    rewrite empty in Hc. destruct Hc as [[k Hc]|[Hc|Hc]]; [destruct (not_elem_of_nil _ Hc)..|].
    eapply node_ok_carries; [|exact Hc]. apply carries_typed.
    + intros q t' Eq Hl. split; [exact Eq|]. rewrite (end_lc p t E), (end_lc q t' Eq). exact Hl.
    + intros q i n' Eq Hl Em. split; [exact Em|]. rewrite (end_lc p t E), (end_lc q _ Eq). exact Hl.
  - eapply frames_ok_mono; [exact kept|exact old_lc|exact (mo_frames _ _ ok)].
Qed.

End Start.

(** ** The escape of a value *)

(** What an operation that moves no boundary keeps: types and places. *)
Record evolves (G : gmap Z ty) (w : world H) (G' : gmap Z ty) (w' : world H) : Prop := {
  ev_types : G ⊆ G';
  ev_places : forall p t, G !! p = Some t -> region_index_owning w' p = region_index_owning w p;
  ev_arenas : map rg_arena (region_stack w') = map rg_arena (region_stack w);
  ev_control : (global_arena w', global_ready w', thread_local_arena w', parallel_depth w', is_worker w') =
               (global_arena w, global_ready w, thread_local_arena w, parallel_depth w, is_worker w);
}.

Lemma evolves_refl G w : evolves G w G w.
Proof. split; auto. Qed.

Lemma evolves_trans G w G1 w1 G2 w2 : evolves G w G1 w1 -> evolves G1 w1 G2 w2 -> evolves G w G2 w2.
Proof.
  intros [A1 A2 A3 A4] [B1 B2 B3 B4]. split; [etransitivity; eassumption| |congruence|congruence].
  intros p t E. rewrite (B2 p t) by (eapply lookup_weaken; eassumption). exact (A2 p t E).
Qed.

Lemma evolves_value G w G' w' b v : evolves G w G' w' -> vok (region_index_owning w) G b v -> vok (region_index_owning w') G' b v.
Proof.
  intros X Hv H1 H2. destruct (Hv H1 H2) as (sub & E & Hl). exists sub. split; [eapply lookup_weaken; [exact E|apply X]|].
  rewrite (ev_places _ _ _ _ X _ _ E). exact Hl.
Qed.

Lemma evolves_depth G w G' w' : evolves G w G' w' -> length (region_stack w') = length (region_stack w).
Proof. intros X. rewrite <- (length_map rg_arena (region_stack w')), (ev_arenas _ _ _ _ X). apply length_map. Qed.

(** The forwarding map of the innermost region fits the evacuation. *)
Lemma forwarding_fits G w r inner outer blocks v : memory_ok G w -> region_stack w = (r :: inner) ++ outer ->
  pool_ok (blocks ++ rest) (w_heap w) (w_arenas w) ->
  let fwd := forwarding_map r (arena_above outer) in forwards_ok (U := setup w G blocks (r :: inner) outer fwd v) fwd.
Proof.
  intros ok stack pool fwd p q E. subst fwd. unfold forwarding_map in E. destruct (rg_fwd_map r) as [m|] eqn:Em; [|rewrite lookup_empty in E; discriminate].
  destruct (Z.eqb_spec (rg_fwd_target r) (arena_above outer)) as [Et|_]; [|rewrite lookup_empty in E; discriminate].
  pose proof (mo_frames _ _ ok) as Hf. rewrite stack in Hf. cbn [app frames_ok] in Hf. destruct Hf as [[_ Hf] _]. rewrite Em in Hf.
  destruct Hf as (mid & o & Eo & Eto & Hm). pose proof (mo_arenas _ _ ok) as [Hnd _]. pose proof (mo_root _ _ ok) as [_ Hr]. rewrite stack in Hnd, Hr.
  assert (o = outer) as ->.
  { symmetry. apply (above_unique (r :: inner) outer (r :: mid) o Hnd Hr); [cbn; rewrite Eo; reflexivity|congruence]. }
  destruct (Hm p q E) as (t & t' & E1 & E2 & E3 & E4 & E5). exists t, t'. split; [exact E1|]. split; [exact E2|].
  rewrite (start_lc w G (r :: inner) outer blocks _ v ok stack p t E1), (start_lc w G (r :: inner) outer blocks _ v ok stack q t' E2).
  split; [|split; [exact E4|exact (proj1 E5)]]. unfold forwarding_map. rewrite Em, Et, Z.eqb_refl. exact E3.
Qed.

Lemma above_pos G w inner outer : memory_ok G w -> region_stack w = inner ++ outer -> arena_above outer <> 0.
Proof.
  intros ok stack. destruct (mo_pool _ _ ok) as (blocks & _ & pool). exact (target_pos (setup_base w G inner outer blocks ∅ zero_value ok stack pool)).
Qed.

(** The new forwarding map of the innermost region. *)
Lemma set_fwd_ok G w r outer m t c : memory_ok G w -> region_stack w = r :: outer -> frame_ok G (region_index_owning w) (set_fwd r m t c) outer ->
  memory_ok G (with_stack (set_fwd r m t c :: outer) w) /\ evolves G w G (with_stack (set_fwd r m t c :: outer) w).
Proof.
  intros [M1 M2 M3 M4 M5 M6] stack Hf. rewrite stack in M1, M2, M3, M6.
  assert (El : forall p, region_index_owning (with_stack (set_fwd r m t c :: outer) w) p = region_index_owning w p).
  { intros p. unfold region_index_owning. rewrite stack. reflexivity. }
  assert (Ef : forall l, frames_ok G (region_index_owning w) l -> frames_ok G (region_index_owning (with_stack (set_fwd r m t c :: outer) w)) l).
  { intros l. apply frames_ok_mono; [reflexivity|auto]. }
  split; [split|split].
  - exact M1.
  - destruct M2 as [Hnd Hal]. split; [exact Hnd|]. inversion Hal as [|? ? Hr Ho]; subst. constructor; [exact Hr|exact Ho].
  - exact M3.
  - exact M4.
  - intros p ty E. destruct (M5 p ty E) as (n & En & Hok). exists n. split; [exact En|]. eapply node_ok_carries; [|exact Hok].
    apply carries_typed; intros q; intros; rewrite !El; auto.
  - apply Ef. split; [exact Hf|exact (proj2 M6)].
  - reflexivity.
  - auto.
  - rewrite stack. reflexivity.
  - reflexivity.
Qed.

(** ** The copy of a graph *)

(** A slot of a copy: what the original has, with its references forwarded. *)
Inductive slot_copy (t : Z) (fwd : gmap Z Z) : slot -> slot -> Prop :=
| copy_same x : slot_copy t fwd x x
| copy_value v q : fwd !! vdata v = Some q -> slot_copy t fwd (Tagged v) (Tagged (with_data v q))
| copy_pointer p q : fwd !! p = Some q -> slot_copy t fwd (Pointer p) (Pointer q)
| copy_home a : slot_copy t fwd (ArenaRef a) (ArenaRef t).

(** The map that an evacuation leaves with the innermost region: its new entries are
    copies, of the types of the originals, of what the value reaches in the dying regions;
    they are all that is new in memory, and no two originals have the same. *)
Definition graph_copied (t bound : Z) (old : gmap Z Z) (w : world H) (G : gmap Z ty) (v v' : tagged_value) (w' : world H) (G' : gmap Z ty) : Prop :=
  exists fwd r', head (region_stack w') = Some r' /\ rg_fwd_map r' = Some fwd /\
    (forall p q, fwd !! p = Some q -> exists ty ty', G !! p = Some ty /\ G' !! q = Some ty' /\ same_ty fwd ty ty') /\
    (forall p q, fwd !! p = Some q -> old !! p = Some q \/
       (reaches w G bound v p /\ w_mem w !! q = None /\ exists n n', w_mem w !! p = Some n /\ w_mem w' !! q = Some n' /\ node_header n' = node_header n /\
          Forall2 (slot_copy t fwd) (node_slots n) (node_slots n'))) /\
    (forall q n, w_mem w' !! q = Some n -> w_mem w !! q = None -> exists p, fwd !! p = Some q) /\
    (forall p p' q, fwd !! p = Some q -> fwd !! p' = Some q -> w_mem w !! q = None -> p = p') /\
    (v' = v \/ exists q, fwd !! vdata v = Some q /\ v' = with_data v q).

Lemma slot_copies (U : evac_setup H) fwd l l' : Forall2 (slot_image (U := U) fwd) l l' -> Forall2 (slot_copy target fwd) l l'.
Proof.
  intros Hl. induction Hl as [|x x' l l' Hx _ IH]; constructor; [|exact IH]. destruct Hx as [->|Hx]; [constructor|].
  destruct x; [destruct Hx|destruct Hx as (q & E & ->); constructor; exact E|destruct Hx as (q & E & ->); constructor; exact E|subst; constructor].
Qed.

Lemma evacuate_full G w r inner outer v b : memory_ok G w -> region_stack w = (r :: inner) ++ outer -> vok (region_index_owning w) G b v ->
  runs (region_evacuate_value v (arena_above outer) (Z.of_nat (length outer) - 1)) w (fun v' w' => exists G',
    memory_ok G' w' /\ evolves G w G' w' /\ w_mem w ⊆ w_mem w' /\ vok (region_index_owning w') G' (Z.of_nat (length outer) - 1) v' /\
    tail (region_stack w') = tail (region_stack w) /\ vtype v' = vtype v /\
    graph_copied (arena_above outer) (Z.of_nat (length outer) - 1) (forwarding_map r (arena_above outer)) w G v v' w' G').
Proof.
  intros ok stack Hv. destruct (mo_pool _ _ ok) as (blocks & Hbl & pool). unfold runs, region_evacuate_value.
  rewrite (proj2 (Z.eqb_neq _ _) (above_pos _ _ _ _ ok stack)). unfold region_current at 1. rewrite stack. cbn [app head].
  set (fwd := forwarding_map r (arena_above outer)). set (U := setup w G blocks (r :: inner) outer fwd v).
  pose proof (setup_base w G (r :: inner) outer blocks fwd v ok stack pool) as base. fold U in base.
  pose proof (evacuate_spec base v b (forwarding_fits G w r inner outer blocks v ok stack pool)) as HE.
  assert (Hv' : vok (lc (U := U)) G b v).
  { intros H1 H2. destruct (Hv H1 H2) as (sub & E & Hl). exists sub. split; [exact E|].
    unfold U. rewrite (start_lc w G (r :: inner) outer blocks fwd v ok stack _ _ E). exact Hl. }
  assert (Hre : is_heap_value v = true -> is_Some (G !! vdata v) -> boundary (U := U) < lc (U := U) (vdata v) -> reached (evac_setup := U) (vdata v)).
  { intros H1 H2 H3. pose proof H2 as [t Et]. unfold U in H3. rewrite (start_lc w G (r :: inner) outer blocks fwd v ok stack _ _ Et) in H3. exact (reaches_value w G _ v H1 H2 H3). }
  specialize (HE Hv' Hre). clear Hv' Hre. unfold runs, start_state in HE. cbn in HE. unfold boundary in HE. cbn in HE.
  destruct (evacuate (arena_above outer) (Z.of_nat (length outer) - 1) (size (w_mem w)) v (mkEvac w fwd [] 0)) as [[o s'] f].
  intros Hf. specialize (HE Hf). destruct o as [v'| | |]; try contradiction. destruct HE as (G' & I & Ew & [HG Hfw] & Hv' & Him).
  pose proof (end_memory w G (r :: inner) outer blocks fwd v ok stack pool Hbl G' s' I Ew HG) as M.
  pose proof (end_stack w G (r :: inner) outer blocks fwd v G' s' I) as Es. rewrite stack in Es. cbn [app] in Es. rewrite Es.
  assert (X : evolves G w G' (ev_world s')).
  { split; [exact HG|exact (old_lc w G (r :: inner) outer blocks fwd v ok stack pool G' s' I HG)|rewrite Es, stack; reflexivity|].
    destruct (ei_world _ _ _ I) as (h & ars & m & ->). reflexivity. }
  assert (Hfr : frame_ok G' (region_index_owning (ev_world s')) (set_fwd r (Some (ev_fwd s')) (arena_above outer) (ev_copies s')) (inner ++ outer)).
  { pose proof (mo_frames _ _ M) as HF. rewrite Es in HF. destruct HF as [[HF _] _]. split; [exact HF|]. cbn [rg_fwd_map rg_fwd_target set_fwd].
    exists inner, outer. split; [reflexivity|]. split; [reflexivity|]. intros p q E. destruct (ei_fwd _ _ _ I p q E) as (t & t' & E1 & E2 & E3 & E4 & E5).
    exists t, t'. assert (E1' : G' !! p = Some t) by (eapply lookup_weaken; [exact E1|exact HG]). split; [exact E1'|]. split; [exact E2|]. split; [exact E3|].
    assert (Hr : region_index_owning (ev_world s') p <= Z.of_nat (length (inner ++ outer))).
    { unfold region_index_owning. rewrite Es. destruct (owning_range (w_arenas (ev_world s')) (r :: inner ++ outer) p) as [Hr|[Hr _]]; [|discriminate]. cbn [length] in Hr. lia. }
    rewrite (end_lc w G (r :: inner) outer blocks fwd v ok stack pool G' s' I q t' E2).
    rewrite (end_lc w G (r :: inner) outer blocks fwd v ok stack pool G' s' I p t E1') in *. auto. }
  destruct (set_fwd_ok G' (ev_world s') r (inner ++ outer) (Some (ev_fwd s')) (arena_above outer) (ev_copies s') M Es Hfr) as [M' X'].
  exists G'. split; [exact M'|]. split; [exact (evolves_trans _ _ _ _ _ _ X X')|]. split; [exact (ei_old _ _ _ I)|].
  split; [|split; [reflexivity|split; [destruct Him as [->|(q & _ & ->)]; reflexivity|]]].
  2: { exists (ev_fwd s'). eexists. split; [reflexivity|]. split; [reflexivity|]. split; [|split; [|split; [exact (ei_copies _ _ _ I)|split; [|exact Him]]]].
    - intros p q E. destruct (ei_fwd _ _ _ I p q E) as (t & t' & E1 & E2 & E3 & _ & E5). exists t, t'. auto.
    - intros p q E. destruct (ei_image _ _ _ I p q E) as [[E1 _]|[E1 (n & n' & E2 & E3 & E4 & E5)]]; [left; exact E1|right].
      split; [exact (ei_reach _ _ _ I p q E E1)|]. split; [exact E1|].
      exists n, n'. split; [exact E2|]. split; [exact E3|]. split; [exact E4|]. exact (slot_copies U _ _ _ E5).
    - exact (ei_inj _ _ _ I). }
  apply (evolves_value G' (ev_world s') G' _ _ _ X'). intros H1 H2. destruct (Hv' H1 H2) as (sub & E & Hl). exists sub. split; [exact E|].
  rewrite (end_lc w G (r :: inner) outer blocks fwd v ok stack pool G' s' I _ _ E). exact Hl.
Qed.

Lemma typed_pos G w p t : memory_ok G w -> G !! p = Some t -> p <> 0.
Proof.
  intros ok E. destruct (mo_typed _ _ ok p t E) as (n & En & _). destruct (mo_placed _ _ ok p n En) as (ap & a & Ea & Hh).
  destruct (mo_pool _ _ ok) as (blocks & _ & pool). pose proof (holds_pos _ _ _ (pool_wf _ _ _ _ _ pool Ea) Hh). lia.
Qed.

(** A value that is no null pointer is none after an evacuation. *)
Lemma copied_not_null t bound old w G v v' w' G' : memory_ok G' w' -> graph_copied t bound old w G v v' w' G' -> vdata v <> 0 -> vdata v' <> 0.
Proof.
  intros ok (fwd & r' & _ & _ & Ht & _ & _ & _ & [->|(q & Eq & ->)]) N0; [exact N0|]. destruct (Ht _ _ Eq) as (t1 & t2 & _ & E2 & _). exact (typed_pos _ _ _ _ ok E2).
Qed.

Lemma evacuate_world G w r inner outer v b : memory_ok G w -> region_stack w = (r :: inner) ++ outer -> vok (region_index_owning w) G b v ->
  runs (region_evacuate_value v (arena_above outer) (Z.of_nat (length outer) - 1)) w (fun v' w' => exists G',
    memory_ok G' w' /\ evolves G w G' w' /\ w_mem w ⊆ w_mem w' /\ vok (region_index_owning w') G' (Z.of_nat (length outer) - 1) v' /\
    tail (region_stack w') = tail (region_stack w) /\ vtype v' = vtype v /\ (vdata v <> 0 -> vdata v' <> 0)).
Proof.
  intros ok stack Hv. eapply runs_mono; [|exact (evacuate_full G w r inner outer v b ok stack Hv)].
  intros v' w' (G' & H1 & H2 & H3 & H4 & H5 & H6 & H7). exists G'. pose proof (copied_not_null _ _ _ _ _ _ _ _ _ H1 H7). auto 10.
Qed.

End Memory.
