(* ===== verification/RegionPrograms.v ===== *)
(** * Programs with regions: what the code generator emits around the runtime

    A language of pairs and vectors with [with-region], whose operations are the calls
    that backend/llvm_codegen.cpp and backend/collection_codegen.cpp emit.  It is what
    the safety of regions is stated for. *)

From Stdlib Require Import String ZArith List Lia Bool.
From stdpp Require Import base gmap list numbers.
From S2P Require Import Prelude Effects Arena Tagged Regions Evacuation.
Import ListNotations.
Open Scope Z_scope.
Open Scope effect_scope.

(** The variables are immutable and named by how long ago they were bound; every
    instruction binds one. *)
Inductive instr : Type :=
| Immediate (v : tagged_value)
| MakePair (a d : nat)
| MakeVector (elems : list nat)
| Field (x i : nat)
| SetField (x i y : nat)
| WithRegion (size_hint : Z) (body : list instr).

Record machine (H : Type) : Type := mkMachine { m_world : world H; m_vars : list tagged_value }.
Arguments mkMachine {H}.
Arguments m_world {H}.
Arguments m_vars {H}.

Section Programs.
  Context {H : Type} {HM : Malloc H}.

Abbreviation P := (M (machine H)).

Definition in_world {A} (m : M (world H) A) : P A := fun s =>
  let '(o, w, f) := m (m_world s) in (o, mkMachine w (m_vars s), f).

Definition modify_world (g : world H -> world H) : P unit := fun s => (Ret tt, mkMachine (g (m_world s)) (m_vars s), false).

Definition variable (x : nat) : P tagged_value := fun s =>
  match m_vars s !! x with Some v => (Ret v, s, false) | None => (Raise ESHKOL_EXCEPTION_ERROR "unbound variable", s, false) end.

Definition push (v : tagged_value) : P unit := fun s => (Ret tt, mkMachine (m_world s) (v :: m_vars s), false).

Fixpoint variables (xs : list nat) : P (list tagged_value) :=
  match xs with [] => ret [] | x :: xs => let! v := variable x in let! vs := variables xs in ret (v :: vs) end.

(** An object allocator called with the arena in [__global_arena]. *)
Definition in_current_arena (allocate : runtime H -> option Z * runtime H) : M (world H) (Z * object_header) := fun w =>
  match w_arenas w !! global_arena w with
  | None => (Crash, w, false)
  | Some a =>
    let '(p, rt) := allocate (mkRuntime (Some a) (w_heap w) []) in
    match p, rt_arena rt, rt_headers rt with
    | Some p, Some a', (_, hd) :: _ => (Ret (p, hd), with_memory (rt_heap rt) (<[global_arena w := a']> (w_arenas w)) (w_mem w) w, false)
    | _, _, _ => (Crash, w, true)
    end
  end.

(** A null pointer from the allocator is not checked before the stores. *)
Definition new_object (allocate : runtime H -> option Z * runtime H) (ss : list slot) : M (world H) tagged_value :=
  let! (p, hd) := in_current_arena allocate in
  fun w => (Ret (mkTagged ESHKOL_VALUE_HEAP_PTR 0 0 p), with_memory (w_heap w) (w_arenas w) (<[p := mkNode (Some hd) ss]> (w_mem w)) w, false).

(** [CollectionCodegen::allocConsCell] and [CollectionCodegen::vector]. *)
Definition allocConsCell (car cdr : tagged_value) : M (world H) tagged_value :=
  new_object arena_allocate_cons_with_header [Tagged car; Tagged cdr].

Definition vector (elems : list tagged_value) : M (world H) tagged_value :=
  new_object (arena_allocate_vector_with_header (Z.of_nat (length elems))) (Word 8 (Z.of_nat (length elems)) :: map Tagged elems).

(** The slots of a pair or a vector; anything else is an error. *)
Definition collection (v : tagged_value) : M (world H) (list slot) := fun w =>
  if (vtype v =? ESHKOL_VALUE_HEAP_PTR) && negb (vdata v =? 0) then
    match w_mem w !! vdata v with
    | Some (mkNode (Some hd) ss) =>
      if (hdr_subtype hd =? HEAP_SUBTYPE_CONS) || (hdr_subtype hd =? HEAP_SUBTYPE_VECTOR) then (Ret ss, w, false)
      else (Raise ESHKOL_EXCEPTION_ERROR "not a pair or vector", w, false)
    | _ => (Crash, w, false)
    end
  else (Raise ESHKOL_EXCEPTION_ERROR "not a pair or vector", w, false).

Definition field (v : tagged_value) (i : nat) : M (world H) tagged_value :=
  let! ss := collection v in
  match ss !! i with Some (Tagged x) => ret x | _ => raise ESHKOL_EXCEPTION_ERROR "index out of bounds" end.

(** [codegenSetPairField] and the vector path of [CollectionCodegen::vectorSet]. *)
Definition set_field (v : tagged_value) (i : nat) (x : tagged_value) : M (world H) unit :=
  let! ss := collection v in
  match ss !! i with Some (Tagged _) => store_tagged (vdata v) i x | _ => raise ESHKOL_EXCEPTION_ERROR "index out of bounds" end.

(** [codegenWithRegion], for a body that leaves its value as the last variable. *)
Definition create_region (size_hint : Z) : M (world H) (option region) := fun w =>
  let '(r, w1) := region_create None size_hint w in (Ret r, w1, match r with None => true | Some _ => false end).

Definition region_block (size_hint : Z) (body : P unit) (vars : list tagged_value) : P unit :=
  let! region := in_world (create_region size_hint) in
  let! _ := modify_world (region_push region) in
  let! saved := in_world (fun w => let '(a, w1) := eshkol_region_enter region w in (Ret a, w1, false)) in
  let! _ := body in
  let! result := variable 0 in
  let! escaped := in_world (region_escape_tagged_value_into (Some result)) in
  let! _ := modify_world region_pop in
  let! _ := modify_world (eshkol_region_leave saved) in
  fun s => (Ret tt, mkMachine (m_world s) (escaped :: vars), false).

Definition with_region (size_hint : Z) (body : option (P unit)) : P unit :=
  match body with
  | None => push zero_value
  | Some body => fun s => region_block size_hint body (m_vars s) s
  end.

Fixpoint exec (i : instr) : P unit :=
  match i with
  | Immediate v => if is_heap_value v then raise ESHKOL_EXCEPTION_ERROR "not a constant" else push v
  | MakePair a d => let! x := variable a in let! y := variable d in let! v := in_world (allocConsCell x y) in push v
  | MakeVector xs => let! vs := variables xs in let! v := in_world (vector vs) in push v
  | Field x i => let! v := variable x in let! r := in_world (field v i) in push r
  | SetField x i y => let! v := variable x in let! r := variable y in let! _ := in_world (set_field v i r) in push r
  | WithRegion size_hint body =>
    with_region size_hint
      match body with
      | [] => None
      | _ => Some ((fix run (l : list instr) : P unit := match l with [] => ret tt | i :: l => let! _ := exec i in run l end) body)
      end
  end.

Fixpoint run (l : list instr) : P unit := match l with [] => ret tt | i :: l => let! _ := exec i in run l end.

End Programs.

(** How deep the regions of a program are nested. *)
Fixpoint region_depth (i : instr) : nat :=
  match i with
  | WithRegion _ body => S ((fix depth (l : list instr) : nat := match l with [] => O | i :: l => Nat.max (region_depth i) (depth l) end) body)
  | _ => O
  end.

Fixpoint program_depth (l : list instr) : nat := match l with [] => O | i :: l => Nat.max (region_depth i) (program_depth l) end.

(** The vectors of a program are small enough to be copied: 256 MB, the limit of an evacuation. *)
Fixpoint small_vectors (i : instr) : bool :=
  match i with
  | MakeVector xs => Z.of_nat (length xs) <=? 16777215
  | WithRegion _ body => (fix all (l : list instr) : bool := match l with [] => true | i :: l => small_vectors i && all l end) body
  | _ => true
  end.
