(* ===== verification/RegionSteps.v ===== *)
(** * The operations on a memory with regions, one by one *)

From Stdlib Require Import ZArith List Lia Bool Permutation.
From stdpp Require Import base gmap list numbers.
From S2P Require Import Prelude Effects Arena ArenaSpec ArenaRuns Tagged Regions RegionsSpec Evacuation HeapTyping EvacuationSpec EvacuationKinds EvacuationObjects RegionMemory RegionPrograms.
Import ListNotations.
Open Scope Z_scope.
Open Scope effect_scope.

Section Steps.
  Context {H : Type} {HM : Malloc H} {ML : MallocLaws H} {AS : AddressSpace H}.
  Variables (rest : list (Z * Z)) (root : Z).

Abbreviation memory_ok := (memory_ok rest root).
Abbreviation arena_above := (arena_above root).
Abbreviation loc := region_index_owning.

(** The level of the innermost region. *)
Definition level (w : world H) : Z := Z.of_nat (length (region_stack w)) - 1.

(** ** Escapes and the write barrier *)

Lemma vok_weaken (w : world H) G b b' v : b <= b' -> vok (loc w) G b v -> vok (loc w) G b' v.
Proof. intros Hb. apply vok_mono; [reflexivity|exact Hb]. Qed.

Lemma immediate_vok (w : world H) G b v : is_heap_value v = false -> vok (loc w) G b v.
Proof. intros E H1. congruence. Qed.

Lemma null_vok (w : world H) G b v : vdata v = 0 -> vok (loc w) G b v.
Proof. intros E _ H1. congruence. Qed.

(** What is left of an operation on a value: a value of the boundary given. *)
Definition moved (G : gmap Z ty) (w : world H) (b : Z) (v v' : tagged_value) (w' : world H) : Prop :=
  exists G', memory_ok G' w' /\ evolves G w G' w' /\ w_mem w ⊆ w_mem w' /\ vok (loc w') G' b v' /\ tail (region_stack w') = tail (region_stack w) /\ vtype v' = vtype v /\ (vdata v <> 0 -> vdata v' <> 0).

Lemma not_moved G w b v : memory_ok G w -> vok (loc w) G b v -> moved G w b v v w.
Proof. intros ok Hv. exists G. split; [exact ok|]. split; [apply evolves_refl|]. auto 10. Qed.

Lemma escape_spec G w r outer v : memory_ok G w -> region_stack w = r :: outer -> vok (loc w) G (level w) v ->
  runs (region_escape_tagged_value v) w (fun v' w' => moved G w (Z.of_nat (length outer) - 1) v v' w').
Proof.
  intros ok stack Hv. unfold runs, region_escape_tagged_value.
  destruct (is_heap_value v) eqn:Eh; cbn [negb]; [|intros _; apply not_moved; [exact ok|apply immediate_vok, Eh]].
  unfold region_current. rewrite stack. cbn [head]. destruct (Z.eqb_spec (vdata v) 0) as [E0|N0]; [intros _; apply not_moved; [exact ok|apply null_vok, E0]|].
  pose proof (mo_frames _ _ _ _ ok) as Hf. rewrite stack in Hf. destruct Hf as [[Eb _] _].
  pose proof (above_pos rest root G w [r] outer ok stack) as Hp.
  unfold region_escape_target. rewrite Eb, (proj2 (Z.eqb_neq _ _) Hp). cbn [negb].
  replace (Z.of_nat (length (region_stack w)) - 2) with (Z.of_nat (length outer) - 1) by (rewrite stack; cbn [length]; lia).
  exact (evacuate_world rest root G w r [] outer v _ ok stack Hv).
Qed.

Lemma stack_split {A} (l : list A) (i : nat) : (i < length l)%nat -> exists inner x outer, l = inner ++ x :: outer /\ length outer = i /\ l !! (length l - 1 - i)%nat = Some x.
Proof.
  intros Hi. destruct (lookup_lt_is_Some_2 l (length l - 1 - i)%nat ltac:(lia)) as [x Ex].
  exists (take (length l - 1 - i) l), x, (drop (S (length l - 1 - i)) l). split; [symmetry; apply take_drop_middle, Ex|].
  split; [rewrite length_drop; lia|exact Ex].
Qed.

(** The arena that the barrier promotes to. *)
Lemma barrier_target G w dst : memory_ok G w -> region_stack w <> [] -> loc w dst < level w ->
  exists r inner outer, region_stack w = (r :: inner) ++ outer /\ Z.of_nat (length outer) - 1 = loc w dst /\
    (if loc w dst >=? 0
     then match region_stack w !! (length (region_stack w) - 1 - Z.to_nat (loc w dst))%nat with Some r => rg_arena r | None => 0 end
     else match region_stack w !! (length (region_stack w) - 1)%nat with Some r => rg_escape_base r | None => 0 end) = arena_above outer.
Proof.
  intros ok Hn Hd. unfold level in Hd. destruct (region_stack w) as [|r l] eqn:stack; [congruence|]. clear Hn.
  assert (Hr : -1 <= loc w dst < Z.of_nat (length (r :: l))).
  { unfold loc. rewrite stack. destruct (owning_range (w_arenas w) (r :: l) dst) as [Hr|[Hr _]]; [exact Hr|discriminate]. }
  rewrite Z.geb_leb. destruct (Z.leb_spec 0 (loc w dst)) as [Hp|Hp].
  - destruct (stack_split (r :: l) (Z.to_nat (loc w dst))) as (inner & x & outer & E & El & Ex); [lia|]. rewrite Ex.
    destruct inner as [|r' inner]; [exfalso; cbn in E; injection E as -> ->; cbn [length] in *; lia|]. injection E as <- E.
    exists r, inner, (x :: outer). split; [rewrite E; reflexivity|]. split; [cbn [length]; lia|reflexivity].
  - exists r, l, []. rewrite app_nil_r. split; [reflexivity|]. split; [cbn [length]; lia|]. cbn [arena_above].
    pose proof (mo_frames _ _ _ _ ok) as Hf. rewrite stack in Hf. clear - Hf. replace (length (r :: l) - 1)%nat with (length l) by (cbn; lia).
    revert r Hf. induction l as [|r' l IH]; intros r Hf; [exact (proj1 (proj1 Hf))|]. cbn [length]. exact (IH r' (proj2 Hf)).
Qed.

Lemma barrier_spec G w dst v : memory_ok G w -> vok (loc w) G (level w) v ->
  runs (eshkol_region_write_barrier dst (Some v)) w (fun v' w' => moved G w (loc w dst) v v' w').
Proof.
  intros ok Hv. unfold runs, eshkol_region_write_barrier.
  destruct (Nat.eqb_spec (length (region_stack w)) 0) as [El|El].
  { intros _. apply not_moved; [exact ok|]. eapply vok_weaken; [|exact Hv]. unfold level, loc. rewrite El.
    destruct (owning_range (w_arenas w) (region_stack w) dst); lia. }
  destruct (is_heap_value v) eqn:Eh; cbn [negb]; [|intros _; apply not_moved; [exact ok|apply immediate_vok, Eh]].
  destruct (Z.eqb_spec (vdata v) 0) as [E0|N0]; [intros _; apply not_moved; [exact ok|apply null_vok, E0]|].
  destruct (Hv Eh N0) as (sub & Et & Hl).
  assert (Hkeep : loc w (vdata v) <= loc w dst -> moved G w (loc w dst) v v w).
  { intros Hle. apply not_moved; [exact ok|]. intros _ _. exists sub. auto. }
  assert (Hr : -1 <= loc w dst) by (unfold loc; destruct (owning_range (w_arenas w) (region_stack w) dst); lia).
  destruct (Z.ltb_spec (loc w (vdata v)) 0) as [Hn|Hn]; [intros _; apply Hkeep; lia|].
  destruct (Z.leb_spec (loc w (vdata v)) (loc w dst)) as [Hle|Hgt]; [intros _; apply Hkeep; lia|].
  destruct (barrier_target G w dst ok) as (r & inner & outer & stack & Eo & Et'); [intros E; rewrite E in El; cbn in El; lia|lia|].
  rewrite Et'. rewrite (proj2 (Z.eqb_neq _ _) (above_pos rest root G w (r :: inner) outer ok stack)). rewrite <- Eo.
  exact (evacuate_world rest root G w r inner outer v _ ok stack Hv).
Qed.

(** ** Stores *)

(** Pairs and vectors, the objects a program writes to. *)
Definition collection_kind (k : EvacKind) : Prop := k = EVAC_CONS \/ k = EVAC_VECTOR.

(** One of their values is replaced. *)
Lemma kind_store lc (G : gmap Z ty) m p k ss i v x : collection_kind k -> kind_ok plain_integer lc G m p k ss -> ss !! i = Some (Tagged x) -> vok lc G (lc p) v ->
  kind_ok plain_integer lc G m p k (<[i := Tagged v]> ss).
Proof.
  intros [->| ->] Hk Ei Hv; cbn [kind_ok] in *.
  - destruct Hk as (a & d & -> & Ha & Hd). destruct i as [|[|i]]; cbn; [exists v, d|exists a, v|exists a, d]; auto.
  - destruct Hk as (len & vs & -> & Hl & Hvs). destruct i as [|i]; [discriminate|]. exists len, (<[i := v]> vs).
    rewrite <- (insert_map Tagged), length_insert. split; [reflexivity|]. split; [exact Hl|]. apply Forall_insert; assumption.
Qed.

Lemma bytes_store ss i v x : ss !! i = Some (Tagged x) -> map slot_bytes (<[i := Tagged v]> ss) = map slot_bytes ss.
Proof. revert i. induction ss as [|s ss IH]; intros [|i] E; cbn in *; try discriminate; [injection E as ->; reflexivity|]. f_equal. exact (IH i E). Qed.

Lemma node_store lc (G : gmap Z ty) m p k sub n i v x : collection_kind k -> node_ok plain_integer lc G m p (Obj k sub) n -> node_slots n !! i = Some (Tagged x) -> vok lc G (lc p) v ->
  node_ok plain_integer lc G m p (Obj k sub) (mkNode (node_header n) (<[i := Tagged v]> (node_slots n))).
Proof.
  intros Hk (H1 & H2 & h & H3 & H4 & H5 & H6 & H7) Ei Hv. destruct (bytes_same _ _ (bytes_store _ i v x Ei)) as [E1 E2].
  unfold node_ok. cbn [node_slots node_header]. rewrite E1. split; [exact H1|]. split; [exact (E2 H2)|]. exists h.
  repeat (split; [assumption|]). eapply kind_store; eassumption.
Qed.

Lemma update_ok G w p k sub n ss : memory_ok G w -> G !! p = Some (Obj k sub) -> w_mem w !! p = Some n ->
  node_ok plain_integer (loc w) G (w_mem w) p (Obj k sub) (mkNode (node_header n) ss) ->
  memory_ok G (with_memory (w_heap w) (w_arenas w) (<[p := mkNode (node_header n) ss]> (w_mem w)) w).
Proof.
  intros [M1 M2 M3 M4 M5 M6] Et En Hok.
  assert (Hb : forall q, same_buffers G (w_mem w) (<[p := mkNode (node_header n) ss]> (w_mem w)) q).
  { intros q y j n' Ey E. rewrite lookup_insert_ne; [exact E|]. intros <-. congruence. }
  split; [exact M1|exact M2|exact M3| | |exact M6].
  - intros q n' E. cbn in E. destruct (Z.eq_dec q p) as [->|N]; [exact (M4 p n En)|]. rewrite lookup_insert_ne in E by congruence. exact (M4 q n' E).
  - intros q t E. cbn [w_mem with_memory]. destruct (Z.eq_dec q p) as [->|N].
    + rewrite Et in E. injection E as <-. exists (mkNode (node_header n) ss). rewrite lookup_insert_eq. split; [reflexivity|].
      eapply node_ok_mono; [reflexivity|apply Hb|exact Hok].
    + destruct (M5 q t E) as (n' & E' & Hok'). exists n'. rewrite lookup_insert_ne by congruence. split; [exact E'|].
      eapply node_ok_mono; [reflexivity|apply Hb|exact Hok'].
Qed.

(** What an operation leaves that may have written to memory. *)
Definition stepped (G : gmap Z ty) (w : world H) (w' : world H) (Q : gmap Z ty -> Prop) : Prop :=
  exists G', memory_ok G' w' /\ evolves G w G' w' /\ Q G'.

Lemma store_spec G w p k sub n i x v : memory_ok G w -> collection_kind k -> G !! p = Some (Obj k sub) -> w_mem w !! p = Some n ->
  node_slots n !! i = Some (Tagged x) -> vok (loc w) G (level w) v ->
  runs (store_tagged p i v) w (fun _ w' => stepped G w w' (fun _ => True)).
Proof.
  intros ok Hk Et En Ei Hv. unfold store_tagged. apply (runs_seq (eshkol_region_write_barrier p (Some v))).
  eapply runs_mono; [|exact (barrier_spec G w p v ok Hv)]. intros v' w1 (G1 & M1 & X1 & Hm & Hv' & _).
  unfold runs. rewrite (lookup_weaken _ _ _ _ En Hm), Ei. intros _. exists G1.
  assert (Et1 : G1 !! p = Some (Obj k sub)) by (eapply lookup_weaken; [exact Et|apply X1]).
  destruct (mo_typed _ _ _ _ M1 p _ Et1) as (n1 & En1 & Hok1). rewrite (lookup_weaken _ _ _ _ En Hm) in En1. injection En1 as <-.
  split; [|split; [|exact Logic.I]].
  - apply (update_ok G1 w1 p k sub n _ M1 Et1 (lookup_weaken _ _ _ _ En Hm)).
    apply (node_store _ _ _ _ _ _ _ _ _ x Hk Hok1 Ei). rewrite (ev_places _ _ _ _ X1 p _ Et). exact Hv'.
  - destruct X1 as [A1 A2 A3 A4]. split; assumption.
Qed.

(** ** New objects *)

(** A thread outside of parallel scopes, whose current arena is that of the innermost region. *)
Record control_ok (w : world H) : Prop := {
  co_arena : global_arena w = arena_above (region_stack w);
  co_ready : global_ready w = true;
  co_local : thread_local_arena w = 0;
  co_parallel : parallel_depth w = 0;
  co_worker : is_worker w = false;
}.

Lemma above_same st st' : map rg_arena st' = map rg_arena st -> arena_above st' = arena_above st.
Proof. destruct st as [|r st], st' as [|r' st']; cbn; try discriminate; [reflexivity|]. intros [= E _]. exact E. Qed.

Lemma control_evolves G w G' w' : evolves G w G' w' -> control_ok w -> control_ok w'.
Proof.
  intros [_ _ Ea Ec] [C1 C2 C3 C4 C5]. injection Ec as E1 E2 E3 E4 E5. split; try congruence. rewrite (above_same _ _ Ea). congruence.
Qed.

(** Places do not change when arenas only grow. *)
Lemma grown_loc G w others h ars p t : memory_ok G w -> pool_ok others h ars ->
  (forall ap a, w_arenas w !! ap = Some a -> exists a', ars !! ap = Some a' /\ forall x, holds a x -> holds a' x) ->
  G !! p = Some t -> owning_index ars (region_stack w) p = loc w p.
Proof.
  intros ok P Hg E. destruct (mo_pool _ _ _ _ ok) as (blocks & _ & P0). destruct (mo_typed _ _ _ _ ok p t E) as (n & En & _).
  destruct (mo_placed _ _ _ _ ok p n En) as (ap & a & Ea & Hh). destruct (Hg ap a Ea) as (a' & Ea' & Hx).
  unfold loc. rewrite (owning_arena _ _ _ _ _ _ _ P0 Ea Hh). exact (owning_arena _ _ _ _ _ _ _ P Ea' (Hx p Hh)).
Qed.

Lemma allocated_grows others ars ars' ap raw n h : allocated others ars ars' ap raw n h ->
  forall bp a, ars !! bp = Some a -> exists a', ars' !! bp = Some a' /\ forall x, holds a x -> holds a' x.
Proof.
  intros A bp a Ea. destruct (Z.eq_dec bp ap) as [->|N].
  - destruct (proj2 (al_dom _ _ _ _ _ _ _ A ap) ltac:(eauto)) as [a' Ea']. exists a'. split; [exact Ea'|].
    intros x. exact (al_grows _ _ _ _ _ _ _ A a a' x Ea Ea').
  - exists a. split; [rewrite (al_other _ _ _ _ _ _ _ A bp N); exact Ea|auto].
Qed.

Section New.
  Context (G : gmap Z ty) (w : world H) (blocks : list (Z * Z)) (ars : gmap Z arena) (h : H) (raw n p : Z) (k : EvacKind) (sub : Z) (nd : node).
  Hypothesis ok : memory_ok G w.
  Hypothesis pointers : map fst blocks = region_pointers (region_stack w).
  Hypothesis pool : pool_ok (blocks ++ rest) (w_heap w) (w_arenas w).
  Hypothesis granted : allocated (blocks ++ rest) (w_arenas w) ars (arena_above (region_stack w)) raw n h.
  Hypothesis inside : raw <= p < raw + n.

Abbreviation w' := (with_memory h ars (<[p := nd]> (w_mem w)) w).
Abbreviation G' := (<[p := Obj k sub]> G).

Lemma new_free : w_mem w !! p = None.
Proof.
  destruct (w_mem w !! p) as [n0|] eqn:E; [|reflexivity]. destruct (mo_placed _ _ _ _ ok p n0 E) as (ap & a & Ea & Hh).
  destruct (al_fresh _ _ _ _ _ _ _ granted ap a p Ea inside Hh).
Qed.

Lemma new_untyped : G !! p = None.
Proof. destruct (G !! p) as [t|] eqn:E; [|reflexivity]. destruct (mo_typed _ _ _ _ ok p t E) as (n0 & E0 & _). rewrite new_free in E0. discriminate. Qed.

Lemma new_loc : loc w' p = level w.
Proof.
  destruct (al_held _ _ _ _ _ _ _ granted p inside) as (a & Ea & Hh). pose proof (mo_arenas _ _ _ _ ok) as [Hnd _].
  pose proof (mo_root _ _ _ _ ok) as [_ Hr]. unfold loc. cbn [w_arenas region_stack with_memory].
  rewrite (owning_arena _ _ _ _ _ _ _ (al_pool _ _ _ _ _ _ _ granted) Ea Hh). exact (above_index root [] (region_stack w) Hnd Hr).
Qed.

Lemma new_evolves : evolves G w G' w'.
Proof.
  split; [apply insert_subseteq, new_untyped| |reflexivity|reflexivity]. intros q t E.
  exact (grown_loc G w _ _ _ q t ok (al_pool _ _ _ _ _ _ _ granted) (allocated_grows _ _ _ _ _ _ _ granted) E).
Qed.

Lemma new_ok : node_ok plain_integer (loc w') G' (<[p := nd]> (w_mem w)) p (Obj k sub) nd -> memory_ok G' w'.
Proof.
  intros Hok. pose proof ok as [M1 M2 M3 M4 M5 M6]. pose proof new_evolves as X. pose proof (allocated_grows _ _ _ _ _ _ _ granted) as Hg.
  assert (Hal : forall ap, is_Some (w_arenas w !! ap) -> is_Some (ars !! ap)) by (intros ap Ha; apply (al_dom _ _ _ _ _ _ _ granted), Ha).
  split; cbn [w_heap w_arenas w_mem region_stack with_memory].
  - exists blocks. split; [exact pointers|exact (al_pool _ _ _ _ _ _ _ granted)].
  - destruct M2 as [Hnd Ha]. split; [exact Hnd|]. eapply Forall_mono; [|exact Ha]. intros r. apply Hal.
  - split; [apply Hal, M3|apply M3].
  - intros q n0 E. destruct (Z.eq_dec q p) as [->|N].
    + destruct (al_held _ _ _ _ _ _ _ granted p inside) as (a & Ea & Hh). eauto.
    + rewrite lookup_insert_ne in E by congruence. destruct (M4 q n0 E) as (ap & a & Ea & Hh). destruct (Hg ap a Ea) as (a' & Ea' & Hx). eauto.
  - intros q t E. destruct (Z.eq_dec q p) as [->|N].
    + rewrite lookup_insert_eq in E. injection E as <-. exists nd. rewrite lookup_insert_eq. split; [reflexivity|exact Hok].
    + rewrite lookup_insert_ne in E by congruence. destruct (M5 q t E) as (n0 & E0 & Hok0). exists n0. rewrite lookup_insert_ne by congruence.
      split; [exact E0|]. eapply node_ok_carries; [|exact Hok0]. apply carries_typed.
      * intros y ty Ey Hl. split; [eapply lookup_weaken; [exact Ey|apply X]|]. rewrite (ev_places _ _ _ _ X y ty Ey), (ev_places _ _ _ _ X q t E). exact Hl.
      * intros y i n1 Ey Hl Em. split; [rewrite lookup_insert_ne; [exact Em|intros <-; rewrite new_free in Em; discriminate]|].
        rewrite (ev_places _ _ _ _ X y _ Ey), (ev_places _ _ _ _ X q t E). exact Hl.
  - eapply frames_ok_mono; [apply X|intros q t E; exact (ev_places _ _ _ _ X q t E)|exact M6].
Qed.

End New.

Lemma level_evolves G w G' w' : evolves G w G' w' -> level w' = level w.
Proof. intros X. unfold level. rewrite (evolves_depth _ _ _ _ X). reflexivity. Qed.

(** An object with its header, when the slots refer to values of the thread. *)
Lemma new_object_spec G w (allocate : runtime H -> option Z * runtime H) total hd sub ss : memory_ok G w -> control_ok w ->
  sizeof_object_header < total < 2 ^ 62 -> (forall a, allocate (mkRuntime (Some a) (w_heap w) []) = put_header (allocate_aligned total 16 (mkRuntime (Some a) (w_heap w) [])) hd) ->
  (forall lc G' m p, (forall v, vok (loc w) G (level w) v -> vok lc G' (lc p) v) ->
     node_ok plain_integer lc G' m p (Obj (evac_kind_for ESHKOL_VALUE_HEAP_PTR sub) sub) (mkNode (Some hd) ss)) ->
  runs (new_object allocate ss) w (fun v w' => stepped G w w' (fun G' => vok (loc w') G' (level w') v)).
Proof.
  intros ok [C1 C2 C3 C4 C5] Ht Hal Hnode. destruct (mo_pool _ _ _ _ ok) as (blocks & Hbl & pool).
  assert (Ha : is_Some (w_arenas w !! arena_above (region_stack w))).
  { destruct (mo_arenas _ _ _ _ ok) as [_ Ha]. destruct (region_stack w) as [|r st]; [apply (mo_root _ _ _ _ ok)|]. inversion Ha; assumption. }
  destruct Ha as [a Ea]. unfold new_object. apply runs_seq. unfold runs at 1, in_current_arena. rewrite C1, Ea, Hal.
  unfold allocate_aligned. cbn [rt_arena rt_heap rt_headers]. unfold sizeof_object_header in *.
  destruct (arena_allocate_aligned a total 16 (w_heap w)) as [[r a'] h'] eqn:E. 
  assert (Hs : 0 < total < 2 ^ 62) by lia. pose proof (allocate_pool _ _ _ _ _ _ _ _ _ pool Ea Hs E) as HA.
  destruct r as [raw|]; cbn [put_header rt_arena rt_headers rt_heap]; [|discriminate]. intros _.
  assert (Hr : 0 < raw /\ u64 (raw + sizeof_object_header) = raw + 8).
  { pose proof (al_pos _ _ _ _ _ _ _ HA) as Hp. split; [exact Hp|].
    destruct (al_held _ _ _ _ _ _ _ HA raw ltac:(lia)) as (a1 & Ea1 & (b & Hb & Hx)).
    destruct (wf_block_geometry _ _ b (pool_wf _ _ _ _ _ (al_pool _ _ _ _ _ _ _ HA) Ea1) Hb) as (_ & Hu & Hbd).
    change (2 ^ 63) with 9223372036854775808 in Hbd. unfold sizeof_object_header. apply u64_small. lia. }
  destruct Hr as [Hr Hu]. rewrite Hu. cbn beta iota. unfold runs. intros _. cbn [w_heap w_arenas w_mem with_memory]. set (p := raw + 8).
  assert (Hin : raw <= p < raw + total) by lia. set (nd := mkNode (Some hd) ss). set (k := evac_kind_for ESHKOL_VALUE_HEAP_PTR sub).
  set (ars := <[arena_above (region_stack w) := a']> (w_arenas w)) in *.
  change (with_memory h' ars (<[p := nd]> (w_mem w)) (with_memory h' ars (w_mem w) w)) with (with_memory h' ars (<[p := nd]> (w_mem w)) w).
  pose proof (new_evolves G w blocks ars h' raw total p k sub nd ok HA Hin) as X.
  pose proof (new_loc G w blocks ars h' raw total p nd ok HA Hin) as Hl.
  exists (<[p := Obj k sub]> G). split; [|split; [exact X|]].
  - apply (new_ok G w blocks ars h' raw total p k sub nd ok Hbl HA Hin). apply Hnode. intros v Hv. rewrite Hl. exact (evolves_value _ _ _ _ _ _ X Hv).
  - intros _ _. exists sub. cbn [vdata vtype]. split; [apply lookup_insert_eq|]. rewrite (level_evolves _ _ _ _ X), Hl. lia.
Qed.

Lemma cons_spec G w a d : memory_ok G w -> control_ok w -> vok (loc w) G (level w) a -> vok (loc w) G (level w) d ->
  runs (allocConsCell a d) w (fun v w' => stepped G w w' (fun G' => vok (loc w') G' (level w') v)).
Proof.
  intros ok co Ha Hd. apply (new_object_spec G w _ 40 (mkHeader HEAP_SUBTYPE_CONS 0 0 32) HEAP_SUBTYPE_CONS); auto; [unfold sizeof_object_header; lia|].
  intros lc G' m p Hv. split; [cbn; lia|]. split; [repeat constructor|]. exists (mkHeader HEAP_SUBTYPE_CONS 0 0 32). cbn. repeat split; try lia.
  exists a, d. auto.
Qed.

Lemma vector_spec G w vs : memory_ok G w -> control_ok w -> Z.of_nat (length vs) <= 16777215 -> Forall (vok (loc w) G (level w)) vs ->
  runs (vector vs) w (fun v w' => stepped G w w' (fun G' => vok (loc w') G' (level w') v)).
Proof.
  intros ok co Hn Hvs. set (n := Z.of_nat (length vs)) in *. assert (Hn0 : 0 <= n) by lia.
  assert (Eb : total_bytes (Word 8 n :: map Tagged vs) = 8 + 16 * n).
  { change (total_bytes (Word 8 n :: map Tagged vs)) with (8 + total_bytes (map Tagged vs)). rewrite (total_bytes_map _ 16) by reflexivity. reflexivity. }
  pose proof (align_up_spec (16 + 16 * n) 16 ltac:(lia)) as [Hup Hlt].
  apply (new_object_spec G w _ (align_up (16 + 16 * n) 16) (mkHeader HEAP_SUBTYPE_VECTOR 0 0 (8 + 16 * n)) HEAP_SUBTYPE_VECTOR); auto.
  - unfold sizeof_object_header. change (2 ^ 62) with 4611686018427387904. lia.
  - intros a. unfold arena_allocate_vector_with_header. cbn [rt_arena].
    assert (El : n >? (SIZE_MAX - 8 - sizeof_object_header) / sizeof_tagged_value = false) by (rewrite Z.gtb_ltb; apply Z.ltb_ge; change (n <= 1152921504606846974); lia).
    fold n. rewrite El. unfold sizeof_tagged_value, sizeof_object_header. change (2 ^ 64) with 18446744073709551616.
    rewrite (u64_small (n * 16)) by lia. rewrite (u64_small (8 + n * 16)) by lia. rewrite (u64_small (8 + (8 + n * 16))) by lia.
    replace (8 + (8 + n * 16)) with (16 + 16 * n) by lia. replace (8 + n * 16) with (8 + 16 * n) by lia.
    assert (Er : round_up (16 + 16 * n) 16 = align_up (16 + 16 * n) 16).
    { exact (round_up_spec (16 + 16 * n) 4 ltac:(lia) ltac:(lia) ltac:(change B64 with 18446744073709551616; change (2 ^ 4) with 16; lia)). }
    rewrite Er. replace (u32 (8 + 16 * n)) with (8 + 16 * n); [reflexivity|].
    unfold u32. symmetry. apply Z.mod_small. change (2 ^ 32) with 4294967296. lia.
  - intros lc G' m p Hv. unfold node_ok. cbn [node_header node_slots]. fold n. split; [rewrite Eb; change (2 ^ 61) with 2305843009213693952; lia|].
    split; [constructor; [cbn; lia|]; apply Forall_forall; intros s Hs; apply in_map_iff in Hs as (v & <- & _); cbn; lia|].
    exists (mkHeader HEAP_SUBTYPE_VECTOR 0 0 (8 + 16 * n)). cbn [hdr_subtype hdr_size]. rewrite Eb. repeat split; try lia.
    exists n, vs. split; [reflexivity|]. split; [|exact (Forall_mono _ _ _ Hv Hvs)].
    apply s64_small. unfold int64_range. lia.
Qed.

(** ** Regions are entered *)

Section Enter.
  Context (G : gmap Z ty) (w : world H) (blocks : list (Z * Z)) (h : H) (a : arena) (r : region).
  Hypothesis ok : memory_ok G w.
  Hypothesis pointers : map fst blocks = region_pointers (region_stack w).
  Hypothesis was : pool_ok (blocks ++ rest) (w_heap w) (w_arenas w).
  Hypothesis new : w_arenas w !! ar_ptr a = None.
  Hypothesis pool : pool_ok (((rg_ptr r, sizeof_region) :: blocks) ++ rest) h (<[ar_ptr a := a]> (w_arenas w)).
  Hypothesis arena : rg_arena r = ar_ptr a.
  Hypothesis anonymous : rg_name r = None.
  Hypothesis empty : rg_fwd_map r = None.
  Hypothesis base : rg_escape_base r = arena_above (region_stack w).

Abbreviation w' := (with_stack (r :: region_stack w) (with_memory h (<[ar_ptr a := a]> (w_arenas w)) (w_mem w) w)).

Lemma enter_loc p t : G !! p = Some t -> loc w' p = loc w p.
Proof.
  intros E. destruct (mo_typed _ _ _ _ ok p t E) as (n & En & _). destruct (mo_placed _ _ _ _ ok p n En) as (bp & b & Eb & Hh).
  assert (N : ar_ptr a <> bp) by congruence.
  assert (Eb' : <[ar_ptr a := a]> (w_arenas w) !! bp = Some b) by (rewrite lookup_insert_ne by exact N; exact Eb).
  unfold loc. cbn [w_arenas region_stack with_stack with_memory]. rewrite (owning_arena _ _ _ _ _ _ _ pool Eb' Hh), (owning_arena _ _ _ _ _ _ _ was Eb Hh).
  cbn [arena_index]. rewrite arena, (proj2 (Z.eqb_neq _ _) N). reflexivity.
Qed.

Lemma enter_ok : memory_ok G w'.
Proof.
  pose proof ok as [M1 [Hnd Hal] [Hr Hr'] M4 M5 M6].
  assert (Hkeep : forall bp b, w_arenas w !! bp = Some b -> <[ar_ptr a := a]> (w_arenas w) !! bp = Some b).
  { intros bp b Eb. rewrite lookup_insert_ne; [exact Eb|congruence]. }
  split; cbn [w_heap w_arenas w_mem region_stack with_memory with_stack].
  - exists ((rg_ptr r, sizeof_region) :: blocks). split; [|exact pool]. cbn. rewrite anonymous, pointers. reflexivity.
  - split.
    + cbn. constructor; [|exact Hnd]. rewrite arena. intros Hi. apply list_elem_of_fmap in Hi as (r' & E & Hi).
      rewrite Forall_forall in Hal. destruct (Hal r') as [b Eb]; [apply list_elem_of_In, Hi|]. rewrite <- E, new in Eb. discriminate.
    + constructor; [rewrite arena, lookup_insert_eq; eauto|]. eapply Forall_mono; [|exact Hal]. intros r' [b Eb]. eauto.
  - split; [destruct Hr as [b Eb]; eauto|]. cbn. intros Hi. apply elem_of_cons in Hi as [E|Hi]; [|exact (Hr' Hi)].
    destruct Hr as [b Eb]. rewrite E, arena, new in Eb. discriminate.
  - intros p n E. destruct (M4 p n E) as (bp & b & Eb & Hh). eauto.
  - intros p t E. destruct (M5 p t E) as (n & En & Hok). exists n. split; [exact En|]. eapply node_ok_carries; [|exact Hok]. apply carries_typed.
    + intros q t' Eq Hl. split; [exact Eq|]. rewrite (enter_loc p t E), (enter_loc q t' Eq). exact Hl.
    + intros q i n' Eq Hl Em. split; [exact Em|]. rewrite (enter_loc p t E), (enter_loc q _ Eq). exact Hl.
  - split.
    + split; [exact base|]. rewrite empty. exact Logic.I.
    + eapply frames_ok_mono; [reflexivity|intros p t E; exact (enter_loc p t E)|exact M6].
Qed.

End Enter.

(** [region_create], [region_push] and [eshkol_region_enter] one after the other. *)
Definition entered (G : gmap Z ty) (w : world H) (region : option region) (w1 : world H) : Prop :=
  let '(saved, w') := eshkol_region_enter region (region_push region w1) in
  memory_ok G w' /\ control_ok w' /\ saved = arena_above (region_stack w) /\ (exists r, region_stack w' = r :: region_stack w) /\
  forall p t, G !! p = Some t -> loc w' p = loc w p.

Lemma enter_spec G w hint : memory_ok G w -> control_ok w -> (length (region_stack w) < MAX_REGION_DEPTH)%nat ->
  runs (create_region hint) w (fun region w1 => entered G w region w1).
Proof.
  intros ok [C1 C2 C3 C4 C5] Hd. destruct (mo_pool _ _ _ _ ok) as (blocks & Hbl & pool). unfold runs, create_region, region_create.
  destruct (malloc sizeof_region (w_heap w)) as [[rp|] h1] eqn:E1; [|discriminate].
  pose proof (pool_malloc _ _ _ sizeof_region _ _ pool eq_refl E1) as P1. unfold create_arena. cbn [w_heap w_arenas with_memory].
  match goal with |- context [arena_create ?n h1] => destruct (arena_create n h1) as [[a|] h2] eqn:E2 end; [|discriminate]. intros _.
  destruct (pool_create _ _ _ _ _ _ P1 E2) as (Hnew & P2 & _). cbn [w_heap w_arenas w_mem with_memory].
  set (w1 := with_memory h2 (<[ar_ptr a := a]> (w_arenas w)) (w_mem w) _). set (r0 := mkRegion rp (ar_ptr a) None 0 hint 0 false 0 None 0).
  assert (Hpush : exists parent, region_push (Some r0) w1 = with_stack (activate r0 parent (arena_above (region_stack w)) :: region_stack w) w1).
  { unfold region_push. change (region_stack w1) with (region_stack w). rewrite (proj2 (Nat.leb_gt _ _) Hd).
    destruct (region_stack w) as [|p st] eqn:stack.
    - exists 0. unfold get_global_arena, global_once. change (global_ready w1) with (global_ready w). rewrite C2.
      change (thread_local_arena w1) with (thread_local_arena w). rewrite C3. cbn [Z.eqb negb]. change (global_arena w1) with (global_arena w).
      rewrite C1. reflexivity.
    - exists (rg_ptr p). pose proof (above_pos rest root G w [] (p :: st) ok stack) as Hp. cbn [arena_above] in Hp.
      cbn [RegionMemory.arena_above] in Hp. rewrite (proj2 (Z.eqb_neq _ _) Hp). reflexivity. }
  destruct Hpush as [parent Hpush]. unfold entered. rewrite Hpush. set (r := activate r0 parent (arena_above (region_stack w))).
  pose proof (enter_ok G w blocks h2 a r ok Hbl pool Hnew P2 eq_refl eq_refl eq_refl eq_refl) as M.
  pose proof (enter_loc G w blocks h2 a r ok pool Hnew P2 eq_refl) as L.
  assert (Hap : ar_ptr a <> 0) by exact (above_pos rest root G _ [] (r :: region_stack w) M eq_refl).
  unfold eshkol_region_enter. change (rg_arena r0) with (ar_ptr a). rewrite (proj2 (Z.eqb_neq _ _) Hap).
  change (parallel_depth (with_stack (r :: region_stack w) w1)) with (parallel_depth w). change (is_worker (with_stack (r :: region_stack w) w1)) with (is_worker w).
  rewrite C4, C5. cbn [Z.eqb negb orb]. split; [|split; [|split; [|split]]].
  - destruct M as [M1 M2 M3 M4 M5 M6]. split; assumption.
  - split; try reflexivity; assumption.
  - exact C1.
  - exists r. reflexivity.
  - exact L.
Qed.

(** ** Regions are left *)

Lemma pool_perm others others' h ars : Permutation others others' -> pool_ok others h ars -> pool_ok others' h ars.
Proof.
  intros Hp [P1 P2 P3 P4]. split; try assumption. eapply owned_perm; [|exact P3]. apply Permutation_app_head, Hp.
Qed.

Section Leave.
  Context (G : gmap Z ty) (w : world H) (r : region) (outer : list region) (a : arena).
  Hypothesis ok : memory_ok G w.
  Hypothesis stack : region_stack w = r :: outer.
  Hypothesis alive : w_arenas w !! rg_arena r = Some a.

(** What is not in the region that is left. *)
Definition survivors : gmap Z ty := filter (fun e => loc w (fst e) <= Z.of_nat (length outer) - 1) G.

Lemma survivor p t : survivors !! p = Some t <-> G !! p = Some t /\ loc w p <= Z.of_nat (length outer) - 1.
Proof. unfold survivors. rewrite map_lookup_filter_Some. reflexivity. Qed.

Lemma left_arenas ap b : w_arenas w !! ap = Some b -> ap <> rg_arena r -> w_arenas (region_pop w) !! ap = Some b.
Proof.
  intros Eb N. unfold region_pop. rewrite stack. unfold region_destroy, destroy_arena. cbn [w_arenas with_stack].
  pose proof (above_pos rest root G w [] (r :: outer) ok stack) as Hp. cbn [RegionMemory.arena_above] in Hp.
  rewrite (proj2 (Z.eqb_neq _ _) Hp), alive. cbn [w_arenas with_memory]. rewrite lookup_delete_ne by congruence. exact Eb.
Qed.

Lemma left_world : exists h, w_arenas (region_pop w) = delete (rg_arena r) (w_arenas w) /\ w_heap (region_pop w) = h /\
  w_mem (region_pop w) = filter (fun e => arena_contains_ptr a (fst e) = false) (w_mem w) /\ region_stack (region_pop w) = outer /\
  (global_arena (region_pop w), global_ready (region_pop w), thread_local_arena (region_pop w), parallel_depth (region_pop w), is_worker (region_pop w)) =
  (global_arena w, global_ready w, thread_local_arena w, parallel_depth w, is_worker w).
Proof.
  unfold region_pop. rewrite stack. unfold region_destroy, destroy_arena. cbn [w_arenas with_stack].
  pose proof (above_pos rest root G w [] (r :: outer) ok stack) as Hp. cbn [RegionMemory.arena_above] in Hp.
  rewrite (proj2 (Z.eqb_neq _ _) Hp), alive. eexists. repeat split.
Qed.

Lemma left_pool : exists blocks, map fst blocks = region_pointers outer /\ pool_ok (blocks ++ rest) (w_heap (region_pop w)) (w_arenas (region_pop w)).
Proof.
  destruct (mo_pool _ _ _ _ ok) as (blocks & Hbl & pool). rewrite stack in Hbl.
  pose proof (destroy_pool _ _ _ _ _ pool alive) as PD.
  pose proof (above_pos rest root G w [] (r :: outer) ok stack) as Hp. cbn [RegionMemory.arena_above] in Hp.
  unfold region_pop. rewrite stack. unfold region_destroy, destroy_arena. cbn [w_arenas with_stack]. rewrite (proj2 (Z.eqb_neq _ _) Hp), alive.
  cbn [w_arenas w_heap with_memory with_stack]. cbn [region_pointers flat_map] in Hbl. fold (region_pointers outer) in Hbl.
  destruct blocks as [|[p n] blocks]; [destruct (rg_name r); discriminate|]. destruct (rg_name r) as [nm|]; cbn [map fst app] in Hbl.
  - destruct blocks as [|[p' n'] blocks]; [discriminate|]. cbn [map fst] in Hbl. injection Hbl as <- <- Hbl. exists blocks. split; [exact Hbl|].
    apply (pool_free _ _ _ p n), (pool_free _ _ _ p' n'). eapply pool_perm; [|exact PD]. cbn [app]. apply perm_swap.
  - injection Hbl as <- Hbl. exists blocks. split; [exact Hbl|]. apply (pool_free _ _ _ p n), PD.
Qed.

Lemma left_loc p t : survivors !! p = Some t -> loc (region_pop w) p = loc w p.
Proof.
  intros Es. apply survivor in Es as [E Hl]. destruct (mo_pool _ _ _ _ ok) as (blocks & _ & pool). destruct left_pool as (blocks' & _ & pool').
  destruct left_world as (h & Ea & _ & _ & Est & _).
  destruct (mo_typed _ _ _ _ ok p t E) as (n & En & _). destruct (mo_placed _ _ _ _ ok p n En) as (ap & b & Eb & Hh).
  pose proof (owning_arena _ _ _ (region_stack w) _ _ _ pool Eb Hh) as Hi. unfold loc in *. rewrite Hi in Hl |- *. rewrite stack in Hl |- *. cbn [arena_index] in Hl |- *.
  destruct (Z.eqb_spec (rg_arena r) ap) as [|N]; [lia|]. rewrite Est.
  apply (owning_arena _ _ _ _ _ b _ pool'); [|exact Hh]. exact (left_arenas ap b Eb ltac:(congruence)).
Qed.

(** A survivor is still in memory. *)
Lemma left_mem p t n : survivors !! p = Some t -> w_mem w !! p = Some n -> w_mem (region_pop w) !! p = Some n.
Proof.
  intros Es En. destruct left_world as (h & _ & _ & -> & _). apply survivor in Es as [E Hl]. apply map_lookup_filter_Some. split; [exact En|]. cbn [fst].
  apply not_true_is_false. intros Hc. unfold loc, region_index_owning in Hl. rewrite stack, owning_cons in Hl. unfold region_holds in Hl. rewrite alive, Hc in Hl. lia.
Qed.

Lemma left_frames l mid : outer = mid ++ l -> frames_ok root G (loc w) l -> frames_ok root survivors (loc (region_pop w)) l.
Proof.
  revert mid. induction l as [|r' l IH]; intros mid Eo; [exact id|]. intros [[H1 H2] H3].
  split; [|apply (IH (mid ++ [r'])); [rewrite <- app_assoc; exact Eo|exact H3]]. split; [exact H1|].
  destruct (rg_fwd_map r') as [m|]; [|exact Logic.I]. destruct H2 as (mid' & o & E & Et & Hm). exists mid', o. split; [exact E|]. split; [exact Et|].
  assert (Hlen : (S (length l) <= length outer)%nat) by (rewrite Eo, length_app; cbn; lia).
  intros p q Ep. destruct (Hm p q Ep) as (t & t' & E1 & E2 & E3 & E4 & E5 & E6).
  assert (Sp : survivors !! p = Some t) by (apply survivor; split; [exact E1|lia]).
  assert (Sq : survivors !! q = Some t') by (apply survivor; split; [exact E2|lia]).
  exists t, t'. rewrite (left_loc p t Sp), (left_loc q t' Sq). auto 10.
Qed.

Lemma left_ok : memory_ok survivors (region_pop w).
Proof.
  destruct left_world as (h & Ea & _ & Em & Est & _). pose proof left_pool as (blocks & Hbl & pool). pose proof (mo_arenas _ _ _ _ ok) as [Hnd Hal].
  rewrite stack in Hnd, Hal. cbn in Hnd. inversion Hnd as [|? ? Hnew Hnd']; subst. inversion Hal as [|? ? _ Hal']; subst.
  split; rewrite ?Est.
  - eauto.
  - split; [exact Hnd'|]. apply Forall_forall. intros r' Hr'. rewrite Forall_forall in Hal'. destruct (Hal' r' Hr') as [b Eb]. exists b. apply (left_arenas _ _ Eb).
    intros E. apply Hnew. rewrite <- E. apply list_elem_of_In, in_map, Hr'.
  - destruct (mo_root _ _ _ _ ok) as [[b Eb] Hr]. rewrite stack in Hr. cbn in Hr. apply not_elem_of_cons in Hr as [N Hr]. split; [exists b; exact (left_arenas _ _ Eb N)|exact Hr].
  - intros p n E. rewrite Em in E. apply map_lookup_filter_Some in E as [E Hc]. cbn [fst] in Hc. destruct (mo_placed _ _ _ _ ok p n E) as (ap & b & Eb & Hh).
    exists ap, b. split; [|exact Hh]. apply (left_arenas _ _ Eb). intros ->. destruct (mo_pool _ _ _ _ ok) as (bl & _ & P0).
    rewrite alive in Eb. injection Eb as <-. rewrite (proj2 (contains_holds a _ p (pool_wf _ _ _ _ _ P0 alive)) Hh) in Hc. discriminate.
  - intros p t Es. pose proof Es as Es'. apply survivor in Es' as [E Hl]. destruct (mo_typed _ _ _ _ ok p t E) as (n & En & Hok).
    exists n. split; [exact (left_mem p t n Es En)|]. eapply node_ok_carries; [|exact Hok]. apply carries_typed.
    + intros q t' Eq Hq. assert (Sq : survivors !! q = Some t') by (apply survivor; split; [exact Eq|lia]). split; [exact Sq|].
      rewrite (left_loc p t Es), (left_loc q t' Sq). exact Hq.
    + intros q i n' Eq Hq Emq. assert (Sq : survivors !! q = Some (Buffer p i)) by (apply survivor; split; [exact Eq|lia]).
      split; [exact (left_mem q _ n' Sq Emq)|]. rewrite (left_loc p t Es), (left_loc q _ Sq). exact Hq.
  - apply (left_frames outer []); [reflexivity|]. pose proof (mo_frames _ _ _ _ ok) as Hf. rewrite stack in Hf. exact (proj2 Hf).
Qed.

Lemma left_value b v : b <= Z.of_nat (length outer) - 1 -> vok (loc w) G b v -> vok (loc (region_pop w)) survivors b v.
Proof.
  intros Hb Hv H1 H2. destruct (Hv H1 H2) as (sub & E & Hl). exists sub. assert (Sq : survivors !! vdata v = Some (Obj (evac_kind_for (vtype v) sub) sub)) by (apply survivor; split; [exact E|lia]).
  split; [exact Sq|]. rewrite (left_loc _ _ Sq). exact Hl.
Qed.

End Leave.

(** [region_pop] and [eshkol_region_leave]. *)
Lemma leave_spec G w r outer : memory_ok G w -> control_ok w -> region_stack w = r :: outer ->
  let w' := eshkol_region_leave (arena_above outer) (region_pop w) in
  memory_ok (survivors G w outer) w' /\ control_ok w' /\ region_stack w' = outer /\
  (forall p t, survivors G w outer !! p = Some t -> loc w' p = loc w p) /\
  (forall b v, b <= Z.of_nat (length outer) - 1 -> vok (loc w) G b v -> vok (loc w') (survivors G w outer) b v).
Proof.
  intros ok [C1 C2 C3 C4 C5] stack w'. pose proof (mo_arenas _ _ _ _ ok) as [_ Hal]. rewrite stack in Hal. inversion Hal as [|? ? [a Ea] _]; subst.
  destruct (left_world G w r outer a ok stack Ea) as (h & E1 & E2 & E3 & E4 & E5). injection E5 as E5 E6 E7 E8 E9.
  pose proof (left_ok G w r outer a ok stack Ea) as M. pose proof M as [M1 M2 [[b Eb] M3] M4 M5 M6].
  assert (Hs : arena_above outer =? REGION_NO_HIJACK = false).
  { apply Z.eqb_neq. intros Es. destruct M1 as (blocks & _ & pool). assert (Hx : is_Some (w_arenas (region_pop w) !! arena_above outer)).
    { destruct outer as [|r' o]; [eauto|]. rewrite E4 in M2. destruct M2 as [_ M2]. inversion M2; assumption. }
    destruct Hx as [c Ec]. rewrite Es in Ec. destruct (po_arenas _ _ _ pool _ _ Ec) as [Ep _]. pose proof (pool_split _ _ _ _ _ pool Ec) as [_ Hl].
    apply (good_live (w_heap (region_pop w)) (ar_ptr c) sizeof_arena REGION_NO_HIJACK (po_good _ _ _ pool)); [|rewrite Ep; unfold sizeof_arena; lia|exact sentinel_plain].
    apply Hl, in_or_app. left. left. reflexivity. }
  assert (Ew : w' = set_allocation_domain (arena_above outer) (set_global_arena (arena_above outer) (region_pop w))) by (unfold w', eshkol_region_leave; rewrite Hs; reflexivity).
  rewrite Ew. split; [|split; [|split; [exact E4|split]]].
  - split; [exact M1|exact M2|split; [eauto|exact M3]|exact M4|exact M5|exact M6].
  - split; [cbn; rewrite E4; reflexivity|exact (eq_trans E6 C2)|exact (eq_trans E7 C3)|exact (eq_trans E8 C4)|exact (eq_trans E9 C5)].
  - exact (left_loc G w r outer a ok stack Ea).
  - exact (left_value G w r outer a ok stack Ea).
Qed.

End Steps.
