(* ===== verification/RegionSafety.v ===== *)
(** * Programs with regions do not touch memory that is gone *)

From Stdlib Require Import String ZArith List Lia Bool.
From stdpp Require Import base gmap list numbers.
From S2P Require Import Prelude Effects Arena ArenaSpec Tagged Regions RegionsSpec Evacuation HeapTyping EvacuationSpec RegionMemory RegionPrograms RegionSteps.
Import ListNotations.
Open Scope Z_scope.
Open Scope effect_scope.

(** ** Runs that may raise *)

(** Every request is granted: the run returns with [Q], or raises; it does not crash and
    does not run out of fuel. *)
Definition ends {S A} (m : M S A) (s : S) (Q : A -> S -> Prop) : Prop :=
  let '(o, s', f) := m s in f = false -> match o with Ret a => Q a s' | Raise _ _ => True | Crash | Diverge => False end.

Lemma ends_ret {S A} (a : A) (s : S) Q : Q a s -> ends (ret a) s Q.
Proof. intros HQ _. exact HQ. Qed.

Lemma ends_raise {S A} e msg (s : S) (Q : A -> S -> Prop) : ends (raise e msg) s Q.
Proof. intros _. exact Logic.I. Qed.

Lemma ends_bind {S A C} (m : M S A) (k : A -> M S C) s Q : ends m s (fun a s' => ends (k a) s' Q) -> ends (bind m k) s Q.
Proof.
  unfold ends, bind. destruct (m s) as [[[a| | |] s1] f1]; try (intros Hm Hf; exact (Hm Hf)).
  destruct (k a s1) as [[o s2] f2]. intros Hm Hf. apply orb_false_iff in Hf as [Hf1 Hf2]. exact (Hm Hf1 Hf2).
Qed.

Lemma ends_mono {S A} (m : M S A) s (Q Q' : A -> S -> Prop) : (forall a s', Q a s' -> Q' a s') -> ends m s Q -> ends m s Q'.
Proof. unfold ends. intros Hi. destruct (m s) as [[[a| | |] s1] f1]; auto. Qed.

Lemma runs_ends {S A} (m : M S A) s (Q : A -> S -> Prop) : runs m s Q -> ends m s Q.
Proof. unfold runs, ends. destruct (m s) as [[[a| | |] s1] f1]; auto. Qed.

Section Safety.
  Context {H : Type} {HM : Malloc H} {ML : MallocLaws H} {AS : AddressSpace H}.
  Variables (rest : list (Z * Z)) (root : Z).

Abbreviation memory_ok := (memory_ok rest root).
Abbreviation control_ok := (control_ok root).
Abbreviation loc := region_index_owning.

Lemma ends_world {A} (m : M (world H) A) s Q : ends m (m_world s) (fun a w' => Q a (mkMachine w' (m_vars s))) -> ends (in_world m) s Q.
Proof. unfold ends, in_world. destruct (m (m_world s)) as [[o w'] f]. auto. Qed.

(** ** The state of a program *)

Record state_ok (G : gmap Z ty) (s : machine H) : Prop := {
  st_memory : memory_ok G (m_world s);
  st_control : control_ok (m_world s);
  st_vars : Forall (vok (loc (m_world s)) G (level (m_world s))) (m_vars s);
}.

(** An instruction binds a variable. *)
Definition binds (G : gmap Z ty) (s s' : machine H) : Prop :=
  exists G' v, state_ok G' s' /\ evolves G (m_world s) G' (m_world s') /\ m_vars s' = v :: m_vars s.

(** Some are bound. *)
Definition extends (G : gmap Z ty) (s s' : machine H) : Prop :=
  exists G' vs, state_ok G' s' /\ evolves G (m_world s) G' (m_world s') /\ m_vars s' = vs ++ m_vars s.

Lemma vars_evolve G (w : world H) G' (w' : world H) vs : evolves G w G' w' -> Forall (vok (loc w) G (level w)) vs -> Forall (vok (loc w') G' (level w')) vs.
Proof.
  intros X. apply Forall_mono. intros v Hv. rewrite (level_evolves _ _ _ _ X). exact (evolves_value _ _ _ _ _ _ X Hv).
Qed.

Lemma state_evolves G s G' w' : state_ok G s -> memory_ok G' w' -> evolves G (m_world s) G' w' -> state_ok G' (mkMachine w' (m_vars s)).
Proof.
  intros [S1 S2 S3] M X. split; [exact M|exact (control_evolves root _ _ _ _ X S2)|exact (vars_evolve _ _ _ _ _ X S3)].
Qed.

Lemma push_spec G s s0 v : state_ok G s -> evolves G (m_world s0) G (m_world s) -> m_vars s = m_vars s0 -> vok (loc (m_world s)) G (level (m_world s)) v ->
  ends (push v) s (fun _ s' => binds G s0 s').
Proof.
  intros [S1 S2 S3] X E Hv _. exists G, v. split; [split; [exact S1|exact S2|constructor; assumption]|]. split; [exact X|cbn; congruence].
Qed.

Lemma variable_spec G s x Q : state_ok G s -> (forall v, vok (loc (m_world s)) G (level (m_world s)) v -> Q v s) -> ends (variable x) s Q.
Proof.
  intros [_ _ S3] HQ. unfold ends, variable. destruct (m_vars s !! x) as [v|] eqn:E; [|exact (fun _ => Logic.I)]. intros _. apply HQ.
  rewrite Forall_forall in S3. apply S3, list_elem_of_In, (list_elem_of_lookup_2 _ _ _ E).
Qed.

Lemma variables_spec G s xs : forall Q : list tagged_value -> machine H -> Prop, state_ok G s ->
  (forall vs, length vs = length xs -> Forall (vok (loc (m_world s)) G (level (m_world s))) vs -> Q vs s) -> ends (variables xs) s Q.
Proof.
  induction xs as [|x xs IH]; intros Q St HQ; [apply ends_ret, HQ; [reflexivity|constructor]|]. cbn [variables]. apply ends_bind.
  apply (variable_spec G); [exact St|]. intros v Hv. apply ends_bind. apply IH; [exact St|]. intros vs Hl Hvs. apply ends_ret, HQ; [cbn; lia|].
  constructor; assumption.
Qed.

(** An operation that leaves a value. *)
Lemma result_spec G s (m : M (world H) tagged_value) : state_ok G s ->
  ends m (m_world s) (fun v w' => stepped rest root G (m_world s) w' (fun G' => vok (loc w') G' (level w') v)) ->
  ends (let! v := in_world m in push v) s (fun _ s' => binds G s s').
Proof.
  intros St Hm. apply ends_bind, ends_world. eapply ends_mono; [|exact Hm]. intros v w' (G' & M & X & Hv) _.
  exists G', v. pose proof (state_evolves G s G' w' St M X) as [S1 S2 S3]. split; [split; [exact S1|exact S2|constructor; assumption]|]. split; [exact X|reflexivity].
Qed.

(** ** Access *)

(** The slots of a value that is a pair or a vector. *)
Lemma collection_spec G w v (Q : list slot -> world H -> Prop) : memory_ok G w -> vok (loc w) G (level w) v ->
  (forall k sub n, collection_kind k -> vtype v = ESHKOL_VALUE_HEAP_PTR -> vdata v <> 0 -> G !! vdata v = Some (Obj k sub) -> w_mem w !! vdata v = Some n ->
     loc w (vdata v) <= level w -> node_ok plain_integer (loc w) G (w_mem w) (vdata v) (Obj k sub) n -> Q (node_slots n) w) ->
  ends (collection v) w Q.
Proof.
  intros ok Hv HQ. unfold ends, collection. destruct (Z.eqb_spec (vtype v) ESHKOL_VALUE_HEAP_PTR) as [Et|_]; [|exact (fun _ => Logic.I)].
  destruct (Z.eqb_spec (vdata v) 0) as [_|N0]; [exact (fun _ => Logic.I)|]. cbn [andb negb].
  destruct (Hv ltac:(unfold is_heap_value; rewrite Et; reflexivity) N0) as (sub & E & Hl). rewrite Et in E.
  destruct (mo_typed _ _ _ _ ok _ _ E) as ([hd ss] & En & Hok). pose proof Hok as (_ & _ & h & Hh & Hs & _). cbn in Hh. subst hd.
  rewrite En, Hs. destruct (sub =? HEAP_SUBTYPE_CONS) eqn:E1; cbn [orb].
  - apply Z.eqb_eq in E1 as ->. intros _. apply (HQ EVAC_CONS HEAP_SUBTYPE_CONS _ (or_introl eq_refl) Et N0 E En Hl Hok).
  - destruct (sub =? HEAP_SUBTYPE_VECTOR) eqn:E2; [|exact (fun _ => Logic.I)]. apply Z.eqb_eq in E2 as ->. intros _.
    apply (HQ EVAC_VECTOR HEAP_SUBTYPE_VECTOR _ (or_intror eq_refl) Et N0 E En Hl Hok).
Qed.

Lemma collection_value lc (G : gmap Z ty) m p k ss (i : nat) x : collection_kind k -> kind_ok plain_integer lc G m p k ss -> ss !! i = Some (Tagged x) -> vok lc G (lc p) x.
Proof.
  intros [->| ->] Hk Ei; cbn [kind_ok] in Hk.
  - destruct Hk as (a & d & -> & Ha & Hd). destruct i as [|[|i]]; cbn in Ei; [injection Ei as <-; exact Ha|injection Ei as <-; exact Hd|discriminate].
  - destruct Hk as (len & vs & -> & _ & Hvs). destruct i as [|i]; [discriminate|]. cbn in Ei.
    assert (Hx : In (Tagged x) (map Tagged vs)) by (apply list_elem_of_In, (list_elem_of_lookup_2 _ _ _ Ei)).
    apply in_map_iff in Hx as (y & [= ->] & Hy). rewrite Forall_forall in Hvs. exact (Hvs x Hy).
Qed.

Lemma field_spec G w v i : memory_ok G w -> vok (loc w) G (level w) v ->
  ends (field v i) w (fun x w' => stepped rest root G w w' (fun G' => vok (loc w') G' (level w') x)).
Proof.
  intros ok Hv. unfold field. apply ends_bind, (collection_spec G); [exact ok|exact Hv|]. intros k sub n Hk Et N0 E En Hl Hok.
  destruct (node_slots n !! i) as [[| x | |]|] eqn:Ei; try apply ends_raise. apply ends_ret. exists G. split; [exact ok|]. split; [apply evolves_refl|].
  destruct Hok as (_ & _ & h & _ & _ & _ & _ & Hkind). eapply vok_weaken; [exact Hl|]. exact (collection_value _ _ _ _ _ _ _ _ Hk Hkind Ei).
Qed.

Lemma set_field_spec G w v i x : memory_ok G w -> vok (loc w) G (level w) v -> vok (loc w) G (level w) x ->
  ends (set_field v i x) w (fun _ w' => stepped rest root G w w' (fun _ => True)).
Proof.
  intros ok Hv Hx. unfold set_field. apply ends_bind, (collection_spec G); [exact ok|exact Hv|]. intros k sub n Hk Et N0 E En Hl Hok.
  destruct (node_slots n !! i) as [[| y | |]|] eqn:Ei; try apply ends_raise. apply runs_ends.
  exact (store_spec rest root G w (vdata v) k sub n i y x ok Hk E En Ei Hx).
Qed.

(** ** Regions *)

Lemma ends_modify (g : world H -> world H) s (Q : unit -> machine H -> Prop) : Q tt (mkMachine (g (m_world s)) (m_vars s)) -> ends (modify_world g) s Q.
Proof. intros HQ _. exact HQ. Qed.

Lemma stack_of G (w : world H) r st G' (w' : world H) : region_stack w = r :: st -> evolves G w G' w' ->
  exists r' st', region_stack w' = r' :: st' /\ map rg_arena st' = map rg_arena st.
Proof.
  intros E X. pose proof (ev_arenas _ _ _ _ X) as Ea. rewrite E in Ea. destruct (region_stack w') as [|r' st']; [discriminate|].
  injection Ea as _ Ea. eauto.
Qed.

(** The end of a region: what is outside of it evolves. *)
Lemma region_end G s w1 w3 G3 r3 outer3 v : state_ok G s -> memory_ok G3 w3 -> control_ok w3 -> region_stack w3 = r3 :: outer3 ->
  map rg_arena outer3 = map rg_arena (region_stack (m_world s)) -> (forall p t, G !! p = Some t -> G3 !! p = Some t /\ loc w3 p = loc (m_world s) p) ->
  vok (loc w3) G3 (Z.of_nat (length outer3) - 1) v -> w1 = eshkol_region_leave (arena_above root outer3) (region_pop w3) ->
  binds G s (mkMachine w1 (v :: m_vars s)).
Proof.
  intros [S1 S2 S3] M3 C3 stack3 Ea Hkeep Hv ->. destruct (leave_spec rest root G3 w3 r3 outer3 M3 C3 stack3) as (M4 & C4 & stack4 & L4 & V4).
  set (w4 := eshkol_region_leave (arena_above root outer3) (region_pop w3)) in *. set (G4 := survivors G3 w3 outer3) in *.
  assert (Hlen : length outer3 = length (region_stack (m_world s))) by (rewrite <- (length_map rg_arena outer3), Ea; apply length_map).
  assert (Hin : forall p t, G !! p = Some t -> loc w3 p <= Z.of_nat (length outer3) - 1).
  { intros p t E. rewrite (proj2 (Hkeep p t E)), Hlen. unfold loc. destruct (owning_range (w_arenas (m_world s)) (region_stack (m_world s)) p) as [Hr|[Hr Hr']]; [lia|].
    unfold region_index_owning. rewrite Hr', Hr. cbn. lia. }
  assert (HG : forall p t, G !! p = Some t -> G4 !! p = Some t).
  { intros p t E. apply survivor. split; [apply Hkeep, E|exact (Hin p t E)]. }
  assert (X : evolves G (m_world s) G4 w4).
  { split.
    - apply map_subseteq_spec. exact HG.
    - intros p t E. rewrite (L4 p t (HG p t E)). apply (Hkeep p t E).
    - rewrite stack4. exact Ea.
    - destruct C4 as [D1 D2 D3 D4 D5], S2 as [B1 B2 B3 B4 B5]. rewrite D1, D2, D3, D4, D5, B1, B2, B3, B4, B5, stack4, (above_same root _ _ Ea). reflexivity. }
  exists G4, v. split; [|split; [exact X|reflexivity]]. split; [exact M4|exact C4|]. cbn [m_vars m_world]. constructor; [|exact (vars_evolve _ _ _ _ _ X S3)].
  unfold level. rewrite stack4. apply V4; [lia|exact Hv].
Qed.

Lemma region_spec G s hint body : state_ok G s -> (length (region_stack (m_world s)) < MAX_REGION_DEPTH)%nat ->
  (forall s1, state_ok G s1 -> length (region_stack (m_world s1)) = S (length (region_stack (m_world s))) ->
     ends body s1 (fun _ s2 => exists G2 v vs, state_ok G2 s2 /\ evolves G (m_world s1) G2 (m_world s2) /\ m_vars s2 = v :: vs)) ->
  ends (with_region hint (Some body)) s (fun _ s' => binds G s s').
Proof.
  intros St Hd Hbody. pose proof St as [S1 S2 S3]. change (ends (region_block hint body (m_vars s)) s (fun _ s' => binds G s s')). unfold region_block.
  apply ends_bind, ends_world, runs_ends. eapply runs_mono; [|exact (enter_spec rest root G (m_world s) hint S1 S2 Hd)].
  intros region w1 He. unfold entered in He. apply ends_bind, ends_modify. cbn [m_world m_vars]. apply ends_bind, ends_world. cbn [m_world m_vars].
  destruct (eshkol_region_enter region (region_push region w1)) as [saved w2] eqn:E2. destruct He as (M2 & C2 & Hsaved & (r & stack2) & L2).
  unfold ends at 1. rewrite E2. intros _. set (s1 := mkMachine w2 (m_vars s)).
  assert (St1 : state_ok G s1).
  { split; [exact M2|exact C2|]. eapply Forall_mono; [|exact S3]. intros v Hv H1 H2. destruct (Hv H1 H2) as (sub & E & Hl). exists sub. split; [exact E|].
    unfold s1. cbn [m_world]. rewrite (L2 _ _ E). unfold level in *. rewrite stack2. cbn [length]. lia. }
  apply ends_bind. eapply ends_mono; [|apply (Hbody s1 St1); unfold s1; cbn [m_world]; rewrite stack2; reflexivity].
  intros [] s2 (G2 & v & vs & [T1 T2 T3] & X & Ev). apply ends_bind. unfold ends at 1, variable. rewrite Ev. cbn. intros _.
  destruct (stack_of _ _ _ _ _ _ stack2 X) as (r2 & outer2 & stack3 & Ea2). rewrite Ev in T3. inversion T3 as [|? ? Hv _]; subst.
  apply ends_bind, ends_world, runs_ends. cbn [region_escape_tagged_value_into].
  eapply runs_mono; [|exact (escape_spec rest root G2 (m_world s2) r2 outer2 v T1 stack3 Hv)].
  intros v3 w3 (G3 & M3 & X3 & _ & Hv3 & _). destruct (stack_of _ _ _ _ _ _ stack3 X3) as (r3 & outer3 & stack4 & Ea3).
  apply ends_bind, ends_modify. apply ends_bind, ends_modify. cbn [m_world m_vars]. intros _.
  assert (Ea : map rg_arena outer3 = map rg_arena (region_stack (m_world s))) by congruence.
  assert (Hlen : length outer3 = length outer2) by (rewrite <- (length_map rg_arena outer3), Ea3; apply length_map).
  apply (region_end G s _ w3 G3 r3 outer3 v3 St M3 (control_evolves root _ _ _ _ X3 T2) stack4 Ea); [|rewrite Hlen; exact Hv3|rewrite (above_same root _ _ Ea); reflexivity].
  intros p t E. assert (E' : G2 !! p = Some t) by (eapply lookup_weaken; [exact E|apply X]). split; [eapply lookup_weaken; [exact E'|apply X3]|].
  rewrite (ev_places _ _ _ _ X3 p t E'), (ev_places _ _ _ _ X p t E). exact (L2 p t E).
Qed.

(** ** Programs *)

Lemma binds_step G s s1 s2 : binds G s s1 -> (forall G1, state_ok G1 s1 -> evolves G (m_world s) G1 (m_world s1) -> extends G1 s1 s2) -> 
  exists G2 v vs, state_ok G2 s2 /\ evolves G (m_world s) G2 (m_world s2) /\ m_vars s2 = v :: vs.
Proof.
  intros (G1 & v & St & X & E) Hk. destruct (Hk G1 St X) as (G2 & vs & St2 & X2 & E2). destruct vs as [|v2 vs].
  - exists G2, v, (m_vars s). split; [exact St2|]. split; [exact (evolves_trans _ _ _ _ _ _ X X2)|]. cbn in E2. congruence.
  - exists G2, v2, (vs ++ m_vars s1). split; [exact St2|]. split; [exact (evolves_trans _ _ _ _ _ _ X X2)|exact E2].
Qed.

(** What an instruction does, when the regions are not nested too deep. *)
Definition instr_safe (i : instr) : Prop :=
  forall G s, state_ok G s -> small_vectors i = true -> (length (region_stack (m_world s)) + region_depth i <= MAX_REGION_DEPTH)%nat ->
    ends (exec i) s (fun _ s' => binds G s s').

Lemma run_spec l : Forall instr_safe l -> forall G s, state_ok G s -> forallb small_vectors l = true ->
  (length (region_stack (m_world s)) + program_depth l <= MAX_REGION_DEPTH)%nat -> ends (run l) s (fun _ s' => extends G s s').
Proof.
  induction 1 as [|i l Hi _ IH]; intros G s St Hs Hd; cbn [run forallb program_depth] in *.
  - apply ends_ret. exists G, []. split; [exact St|]. split; [apply evolves_refl|reflexivity].
  - apply andb_true_iff in Hs as [Hs1 Hs2]. apply ends_bind. eapply ends_mono; [|apply (Hi G s St Hs1); lia].
    intros [] s1 (G1 & v & St1 & X1 & E1). pose proof (evolves_depth _ _ _ _ X1) as Hlen.
    eapply ends_mono; [|apply (IH G1 s1 St1 Hs2); lia]. intros [] s2 (G2 & vs & St2 & X2 & E2).
    exists G2, (vs ++ [v]). split; [exact St2|]. split; [exact (evolves_trans _ _ _ _ _ _ X1 X2)|]. rewrite <- app_assoc, E2, E1. reflexivity.
Qed.

Lemma small_vectors_region hint body : small_vectors (WithRegion hint body) = forallb small_vectors body.
Proof. reflexivity. Qed.

Lemma depth_region hint body : region_depth (WithRegion hint body) = S (program_depth body).
Proof. reflexivity. Qed.

Lemma exec_region hint i body : exec (H := H) (WithRegion hint (i :: body)) = with_region hint (Some (run (i :: body))).
Proof. reflexivity. Qed.

Lemma region_safe hint body : Forall instr_safe body -> instr_safe (WithRegion hint body).
Proof.
  intros Hb G s St Hs Hd. rewrite small_vectors_region in Hs. rewrite depth_region in Hd. destruct body as [|i body].
  - change (ends (push zero_value) s (fun _ s' => binds G s s')). apply (push_spec G s s zero_value St (evolves_refl _ _) eq_refl).
    apply immediate_vok. reflexivity.
  - rewrite exec_region. inversion Hb as [|? ? Hi Hl]; subst. cbn [forallb] in Hs. apply andb_true_iff in Hs as [Hs1 Hs2]. cbn [program_depth] in Hd.
    apply region_spec; [exact St|lia|]. intros s1 St1 Hlen. cbn [run]. apply ends_bind. eapply ends_mono; [|apply (Hi G s1 St1 Hs1); lia].
    intros [] s2 B. pose proof B as (G2 & v & St2 & X2 & E2). pose proof (evolves_depth _ _ _ _ X2) as Hlen2.
    eapply ends_mono; [|apply (run_spec body Hl G2 s2 St2 Hs2); lia]. intros [] s3 (G3 & vs & St3 & X3 & E3).
    destruct vs as [|v3 vs].
    + exists G3, v, (m_vars s1). split; [exact St3|]. split; [exact (evolves_trans _ _ _ _ _ _ X2 X3)|]. cbn in E3. congruence.
    + exists G3, v3, (vs ++ m_vars s2). split; [exact St3|]. split; [exact (evolves_trans _ _ _ _ _ _ X2 X3)|exact E3].
Qed.

Lemma simple_safe i : (forall hint body, i <> WithRegion hint body) -> instr_safe i.
Proof.
  intros Hn G s St Hs _. pose proof St as [S1 S2 S3]. destruct i as [v|a d|xs|x j|x j y|hint body]; cbn [exec]; [..|destruct (Hn hint body eq_refl)].
  - destruct (is_heap_value v) eqn:Eh; [apply ends_raise|]. apply (push_spec G s s v St (evolves_refl _ _) eq_refl). apply immediate_vok, Eh.
  - apply ends_bind, (variable_spec G); [exact St|]. intros u Hu. apply ends_bind, (variable_spec G); [exact St|]. intros w Hw.
    apply result_spec; [exact St|]. apply runs_ends. exact (cons_spec rest root G (m_world s) u w S1 S2 Hu Hw).
  - apply ends_bind, (variables_spec G); [exact St|]. intros vs Hl Hvs. apply result_spec; [exact St|]. apply runs_ends.
    apply (vector_spec rest root G (m_world s) vs S1 S2); [|exact Hvs]. cbn [small_vectors] in Hs. apply Z.leb_le in Hs. lia.
  - apply ends_bind, (variable_spec G); [exact St|]. intros v Hv. apply result_spec; [exact St|]. exact (field_spec G (m_world s) v j S1 Hv).
  - apply ends_bind, (variable_spec G); [exact St|]. intros v Hv. apply ends_bind, (variable_spec G); [exact St|]. intros r Hr.
    apply ends_bind, ends_world. eapply ends_mono; [|exact (set_field_spec G (m_world s) v j r S1 Hv Hr)].
    intros [] w' (G' & M & X & _). pose proof (state_evolves G s G' w' St M X) as St'. intros _. exists G', r.
    pose proof St' as [T1 T2 T3]. split; [split; [exact T1|exact T2|]|split; [exact X|reflexivity]]. constructor; [|exact T3].
    cbn [m_world]. rewrite (level_evolves _ _ _ _ X). exact (evolves_value _ _ _ _ _ _ X Hr).
Qed.

Lemma exec_safe : forall i, instr_safe i.
Proof.
  fix IH 1. intros [v|a d|xs|x j|x j y|hint body]; [apply simple_safe; discriminate..|]. apply region_safe.
  induction body as [|i body IHb]; constructor; [apply IH|exact IHb].
Qed.

End Safety.

(** ** From the start of the process *)

Section Start.
  Context {H : Type} {HM : Malloc H} {ML : MallocLaws H} {AS : AddressSpace H}.

(** A thread before anything has run; the global arena is created on first use. *)
Definition start_world (h : H) : world H := mkWorld h ∅ ∅ [] 0 false 0 0 0 0 0 false.

Lemma start_ok h : heap_ok h -> good h -> global_arena (global_once (start_world h)) <> 0 ->
  state_ok [] (global_arena (global_once (start_world h))) ∅ (mkMachine (global_once (start_world h)) []).
Proof.
  intros Hh Hg. unfold global_once, create_arena, start_world. cbn [global_ready w_heap].
  destruct (arena_create 65536 h) as [[a|] h'] eqn:E; [|cbn; congruence]. cbn. intros _.
  assert (P : pool_ok [] h ∅) by (split; [exact Hh|exact Hg|split; [constructor|intros r []]|intros ap b Eb; rewrite lookup_empty in Eb; discriminate]).
  destruct (pool_create _ _ _ _ _ _ P E) as (_ & P' & _). split; [split| |constructor]; cbn.
  - exists []. split; [reflexivity|exact P'].
  - split; constructor.
  - split; [rewrite lookup_insert_eq; eauto|apply not_elem_of_nil].
  - intros p n En. rewrite lookup_empty in En. discriminate.
  - intros p t En. rewrite lookup_empty in En. discriminate.
  - exact Logic.I.
  - split; reflexivity.
Qed.

Lemma start_memory h : heap_ok h -> good h -> global_arena (global_once (start_world h)) <> 0 ->
  memory_ok [] (global_arena (global_once (start_world h))) ∅ (global_once (start_world h)) /\
  control_ok (global_arena (global_once (start_world h))) (global_once (start_world h)) /\ region_stack (global_once (start_world h)) = [].
Proof.
  intros Hh Hg Hr. destruct (start_ok h Hh Hg Hr) as [S1 S2 _]. split; [exact S1|]. split; [exact S2|].
  unfold global_once, create_arena, start_world. cbn. destruct (arena_create 65536 h) as [[a|] h']; reflexivity.
Qed.

End Start.
