(* ===== verification/RegionTheorems.v ===== *)
(** * Regions and escapes: the theorems *)

From Stdlib Require Import String ZArith List Lia Bool.
From stdpp Require Import base gmap list numbers.
From S2P Require Import Prelude Effects Arena ArenaSpec HostHeap Tagged Regions RegionsSpec Evacuation HeapTyping EvacuationSpec RegionMemory RegionPrograms RegionSteps RegionSafety.
Import ListNotations.
Open Scope Z_scope.
Open Scope effect_scope.

(** ** A concrete process *)

(** The heap of the witnesses has nothing below 64 KB. *)
#[local] Instance host_addresses : AddressSpace host_heap.
Proof.
  refine {| plain_integer := fun x => x < 65536; good := fun h => List.Forall (fun r => 65536 <= fst r) (host_live h) |}.
  - intros n h r h' Hg. cbn [malloc host_malloc_inst]. unfold host_malloc. destruct (_ && _); intros [= _ <-]; [|exact Hg].
    cbn. constructor; [|exact Hg]. cbn. pose proof (host_next_above (host_live h)). pose proof (host_top_pos (host_live h)). lia.
  - intros p h Hg. cbn. apply List.Forall_forall. intros r Hr. apply filter_In in Hr as [Hr _]. rewrite List.Forall_forall in Hg. exact (Hg r Hr).
  - intros h p n x Hg Hi Hx. rewrite List.Forall_forall in Hg. specialize (Hg _ Hi). cbn in Hg. lia.
  - reflexivity.
Defined.

Definition host_machine : machine host_heap := mkMachine (global_once (start_world (host_start (2 ^ 40)))) [].

Definition int (n : Z) : instr := Immediate (make_int64 n).

(** ** Programs *)

(** C5 A program of pairs, vectors and nested [with-region] blocks that starts with a
    fresh process never reads, writes or copies an object whose region is gone, and the
    copying of escaping values always ends: when the requests for memory are granted it
    returns or raises a Scheme error.  The regions are nested at most 64 deep, the size of
    the region stack. *)
Theorem region_programs_safe {H} {HM : Malloc H} {ML : MallocLaws H} {AS : AddressSpace H} (h : H) (prog : list instr) :
  heap_ok h -> good h -> global_arena (global_once (start_world h)) <> 0 -> forallb small_vectors prog = true -> (program_depth prog <= MAX_REGION_DEPTH)%nat ->
  let '(o, _, refused) := run prog (mkMachine (global_once (start_world h)) []) in
  refused = false -> match o with Ret _ | Raise _ _ => True | Crash | Diverge => False end.
Proof.
  intros Hh Hg Hr Hs Hd. pose proof (start_ok h Hh Hg Hr) as St. set (root := global_arena _) in *.
  assert (Hl : Forall (instr_safe [] root) prog) by (apply Forall_forall; intros i _; apply exec_safe).
  pose proof (run_spec [] root prog Hl ∅ _ St Hs) as HR. cbn [m_world] in HR.
  pose proof (start_memory h Hh Hg Hr) as (_ & _ & El).
  rewrite El in HR. specialize (HR Hd). unfold ends in HR.
  destruct (run prog _) as [[o s'] f]. intros Hf. specialize (HR Hf). destruct o; auto.
Qed.

(** A pair outside of a region is made to refer to a vector built inside, which is
    also the value of the region. *)
Definition escaping_program : list instr :=
  [int 1; int 2; MakePair 0 1; WithRegion 0 [int 3; MakePair 0 1; MakeVector [0; 0; 1]%nat; SetField 3 1 0]; Field 1 1; Field 0 3].

Lemma region_programs_safe_witness :
  (let '(o, s, refused) := run escaping_program host_machine in
   o = Ret tt /\ refused = false /\ m_vars s !! 0%nat = Some (make_int64 3) /\ m_vars s !! 1%nat = m_vars s !! 2%nat) /\
  (let '(o, _, refused) := run escaping_program host_machine in
   refused = false -> match o with Ret _ | Raise _ _ => True | Crash | Diverge => False end).
Proof.
  split; [vm_compute; repeat split|].
  assert (Hg : good (host_start (2 ^ 40))) by constructor.
  assert (Hr : global_arena (global_once (start_world (host_start (2 ^ 40)))) <> 0) by (vm_compute; discriminate).
  assert (Hd : (program_depth escaping_program <= MAX_REGION_DEPTH)%nat) by (vm_compute; repeat constructor).
  unfold host_machine. exact (region_programs_safe (host_start (2 ^ 40)) escaping_program (host_start_ok _) Hg Hr eq_refl Hd).
Defined.

(** *** Programs that leave the bounds of the theorem *)

Fixpoint nest (n : nat) (prog : list instr) : list instr :=
  match n with O => prog | S n' => [WithRegion 0 (nest n' prog)] end.

Definition too_deep : list instr := [WithRegion 0 [int 1; int 2; MakePair 0 1; WithRegion 0 [int 1]; Field 1 0]].

Definition large_vector : list instr := [WithRegion 0 [int 1; MakeVector (repeat 0%nat 5000)]; Field 0 1].

(** The 65th nested region is not pushed but popped: it destroys the region around it,
    and the pair there with it.  An error raised in a region leaves it on the stack.  When
    the memory for the copy of an escaping value is refused, the value is returned as it
    is, and dangles.  The tag of complex numbers is not one that escapes. *)
Lemma region_edge_cases :
  (let '(o, _, refused) := run (nest 63 too_deep) host_machine in o = Crash /\ refused = false) /\
  (let '(o, s, _) := run [WithRegion 0 [int 1; Field 0 0]] host_machine in
   match o with Raise _ _ => length (region_stack (m_world s)) = 1%nat /\ global_arena (m_world s) <> global_arena (m_world host_machine) | _ => False end) /\
  (let '(o, _, refused) := run large_vector (mkMachine (global_once (start_world (host_start 240000))) []) in o = Crash /\ refused = true) /\
  is_heap_value (mkTagged 7 0 0 65536) = false.
Proof. vm_compute. repeat split; congruence. Qed.

Lemma nested_regions_return : let '(o, _, refused) := run (nest 62 too_deep) host_machine in o = Ret tt /\ refused = false.
Proof. vm_compute. split; reflexivity. Qed.

(** ** Escapes *)

Lemma heap_value_tag v v' : vtype v' = vtype v -> is_heap_value v' = is_heap_value v.
Proof. unfold is_heap_value. intros ->. reflexivity. Qed.

Lemma typed_in_memory {H} {HM : Malloc H} {ML : MallocLaws H} {AS : AddressSpace H} rest root G (w : world H) p t :
  memory_ok rest root G w -> G !! p = Some t -> is_Some (w_mem w !! p).
Proof. intros ok E. destruct (mo_typed _ _ _ _ ok p t E) as (n & En & _). exists n. exact En. Qed.

(** C15 The value that a region returns survives the region when it has one of the tags of
    heap values: the copying ends, and after [region_pop] the value refers, at its address,
    to an object of the kind of its tag that is in memory and in one of the regions left (or
    the global arena).  The memory left is well-typed, so what that object refers to is in
    memory too, and so on; and nothing outside of the region is lost.  The tag of complex
    numbers is not one of these tags, and [memory_ok] gives no type to factor graphs and
    none to what lies behind the words of the kinds that are copied byte by byte: nothing
    is said of those. *)
Theorem escape_survives_region {H} {HM : Malloc H} {ML : MallocLaws H} {AS : AddressSpace H} rest root G (w : world H) r outer v :
  memory_ok rest root G w -> control_ok root w -> region_stack w = r :: outer -> vok (region_index_owning w) G (level w) v ->
  is_heap_value v = true -> vdata v <> 0 ->
  let '(o, w1, refused) := region_escape_tagged_value v w in
  refused = false -> exists v', o = Ret v' /\ vtype v' = vtype v /\
    let w2 := eshkol_region_leave (arena_above root outer) (region_pop w1) in
    exists G2, memory_ok rest root G2 w2 /\ control_ok root w2 /\
      (exists sub, G2 !! vdata v' = Some (Obj (evac_kind_for (vtype v) sub) sub) /\ is_Some (w_mem w2 !! vdata v') /\ region_index_owning w2 (vdata v') <= level w2) /\
      forall p t, G !! p = Some t -> region_index_owning w p < level w -> G2 !! p = Some t /\ is_Some (w_mem w2 !! p).
Proof.
  intros ok co stack Hv Eh N0. pose proof (escape_spec rest root G w r outer v ok stack Hv) as HE. unfold runs in HE.
  destruct (region_escape_tagged_value v w) as [[o w1] f]. intros Hf. specialize (HE Hf). destruct o as [v'| | |]; try contradiction.
  destruct HE as (G1 & M1 & X1 & _ & Hv1 & _ & Et & Hn). exists v'. split; [reflexivity|]. split; [exact Et|].
  destruct (stack_of _ _ _ _ _ _ stack X1) as (r1 & outer1 & stack1 & Ea). rewrite <- (above_same root _ _ Ea).
  assert (Hlen : length outer1 = length outer) by (rewrite <- (length_map rg_arena outer1), Ea; apply length_map).
  destruct (leave_spec rest root G1 w1 r1 outer1 M1 (control_evolves root _ _ _ _ X1 co) stack1) as (M2 & C2 & stack2 & L2 & V2).
  exists (survivors G1 w1 outer1). split; [exact M2|]. split; [exact C2|]. split.
  - assert (Hb : vok (region_index_owning (eshkol_region_leave (arena_above root outer1) (region_pop w1))) (survivors G1 w1 outer1) (Z.of_nat (length outer) - 1) v') by (apply V2; [lia|exact Hv1]).
    destruct (Hb (eq_trans (heap_value_tag _ _ Et) Eh) (Hn N0)) as (sub & E & Hl). rewrite Et in E. exists sub. split; [exact E|].
    split; [exact (typed_in_memory _ _ _ _ _ _ M2 E)|]. unfold level. rewrite stack2, Hlen. exact Hl.
  - intros p t E Hl. assert (E2 : survivors G1 w1 outer1 !! p = Some t); [|split; [exact E2|exact (typed_in_memory _ _ _ _ _ _ M2 E2)]].
    apply survivor. split; [eapply lookup_weaken; [exact E|apply X1]|]. rewrite (ev_places _ _ _ _ X1 p t E). unfold level in Hl. rewrite stack in Hl. cbn [length] in Hl. lia.
Qed.

(** C14 An escape copies the graph of the dying objects that the value reaches, and nothing
    else.  With an empty forwarding map, every entry of the new map is for an object in a
    dying region that is reachable from the value through dying objects, the new objects in
    memory are the images of the map, and each image is a new object of the type of its
    original with the same header, whose slots are those of the original with the
    references to copied objects redirected to the copies; different originals have
    different copies, so sharing and cycles are kept.  All originals are left as they were,
    and no reference is left to dying objects: the memory is well-typed after, with the
    value at the boundary.  Well-typed memory has no factor graphs, and the kinds that are
    copied byte by byte refer to nothing in it. *)
Theorem evacuation_copies_graph {H} {HM : Malloc H} {ML : MallocLaws H} {AS : AddressSpace H} rest root G (w : world H) r inner outer v b :
  memory_ok rest root G w -> region_stack w = (r :: inner) ++ outer -> rg_fwd_map r = None -> vok (region_index_owning w) G b v ->
  let '(o, w', refused) := region_evacuate_value v (arena_above root outer) (Z.of_nat (length outer) - 1) w in
  refused = false -> exists v' G', o = Ret v' /\ memory_ok rest root G' w' /\ w_mem w ⊆ w_mem w' /\
    graph_copied (arena_above root outer) (Z.of_nat (length outer) - 1) ∅ w G v v' w' G' /\ vok (region_index_owning w') G' (Z.of_nat (length outer) - 1) v'.
Proof.
  intros ok stack Hm Hv. pose proof (evacuate_full rest root G w r inner outer v b ok stack Hv) as HE. unfold runs in HE.
  destruct (region_evacuate_value _ _ _ w) as [[o w'] f]. intros Hf. specialize (HE Hf). destruct o as [v'| | |]; try contradiction.
  destruct HE as (G' & M & X & Hsub & Hv' & _ & _ & HC). exists v', G'. unfold forwarding_map in HC. rewrite Hm in HC. auto.
Qed.

(** *** A region in which a pair has been made *)

Definition pair_program : list instr := [int 1; int 2; MakePair 0 1; MakePair 0 0].

Definition in_region : M (machine host_heap) unit :=
  let! region := in_world (create_region 0) in
  let! _ := modify_world (region_push region) in
  let! _ := in_world (fun w => let '(a, w1) := eshkol_region_enter region w in (Ret a, w1, false)) in
  run pair_program.

Definition region_invariant (s : machine host_heap) : Prop := exists root G r, memory_ok [] root G (m_world s) /\ control_ok root (m_world s) /\
  region_stack (m_world s) = [r] /\ Forall (vok (region_index_owning (m_world s)) G (level (m_world s))) (m_vars s).

Lemma in_region_from w root : memory_ok [] root ∅ w -> control_ok root w -> region_stack w = [] -> ends in_region (mkMachine w []) (fun _ s => region_invariant s).
Proof.
  intros S1 S2 El. assert (Hd : (length (region_stack w) < MAX_REGION_DEPTH)%nat) by (rewrite El; unfold MAX_REGION_DEPTH; cbn; lia).
  unfold in_region. apply ends_bind, ends_world, runs_ends. cbn [m_world m_vars].
  eapply runs_mono; [|exact (enter_spec [] root ∅ w 0 S1 S2 Hd)].
  intros region w1 HE. unfold entered in HE. apply ends_bind, ends_modify, ends_bind, ends_world. cbn [m_world m_vars].
  unfold ends at 1. destruct (eshkol_region_enter region (region_push region w1)) as [saved w2]. destruct HE as (M2 & C2 & _ & (r & stack2) & _). intros _.
  rewrite El in stack2. assert (St : state_ok [] root ∅ (mkMachine w2 [])) by (split; [exact M2|exact C2|constructor]).
  assert (Hl : Forall (instr_safe [] root) pair_program) by (apply Forall_forall; intros i _; apply exec_safe).
  eapply ends_mono; [|apply (run_spec [] root pair_program Hl ∅ _ St eq_refl); cbn [m_world]; rewrite stack2; apply Nat.leb_le; reflexivity].
  intros [] s (G & vs & [T1 T2 T3] & X & _). cbn [m_world] in X. destruct (stack_of _ _ _ _ _ _ stack2 X) as (r' & st' & stack3 & Ea).
  destruct st' as [|? ?]; [|discriminate]. exists root, G, r'. auto.
Qed.

Lemma host_good : good (host_start (2 ^ 40)).
Proof. constructor. Qed.

Lemma host_root : global_arena (global_once (start_world (host_start (2 ^ 40)))) <> 0.
Proof. vm_compute. discriminate. Qed.

Lemma host_memory : exists root, memory_ok [] root ∅ (global_once (start_world (host_start (2 ^ 40)))) /\
  control_ok root (global_once (start_world (host_start (2 ^ 40)))) /\ region_stack (global_once (start_world (host_start (2 ^ 40)))) = [].
Proof.
  exists (global_arena (global_once (start_world (host_start (2 ^ 40))))). exact (start_memory (host_start (2 ^ 40)) (host_start_ok _) host_good host_root).
Qed.

Lemma in_region_ends : ends in_region host_machine (fun _ s => region_invariant s).
Proof. destruct host_memory as (r & S1 & S2 & El). exact (in_region_from _ _ S1 S2 El). Qed.

(** The last variable is a pair, and the forwarding map is empty. *)
Definition pair_state (s : machine host_heap) : bool :=
  match m_vars s, region_stack (m_world s) with
  | v :: _, [r] => (is_heap_value v && negb (vdata v =? 0)) && match rg_fwd_map r with None => true | Some _ => false end
  | _, _ => false
  end.

Definition granted {S A} (x : outcome A * S * bool) : bool := match x with (Ret _, _, false) => true | _ => false end.

Lemma ends_final {S A} (m : M S A) s (Q : S -> Prop) : ends m s (fun _ s' => Q s') -> granted (m s) = true -> Q (snd (fst (m s))).
Proof. unfold ends. destruct (m s) as [[[a| | |] s'] [|]]; cbn; try discriminate. auto. Qed.

Lemma in_region_granted : granted (in_region host_machine) = true.
Proof. vm_compute. reflexivity. Qed.

Lemma in_region_pair : pair_state (snd (fst (in_region host_machine))) = true.
Proof. vm_compute. reflexivity. Qed.

Lemma pair_state_spec s : pair_state s = true -> exists v, head (m_vars s) = Some v /\ is_heap_value v = true /\ vdata v <> 0 /\
  match region_stack (m_world s) with [r] => rg_fwd_map r = None | _ => False end.
Proof.
  unfold pair_state. destruct (m_vars s) as [|v vs]; [discriminate|]. destruct (region_stack (m_world s)) as [|r [|]]; try discriminate. intros HR.
  apply andb_true_iff in HR as [H1 H2]. apply andb_true_iff in H1 as [H1 H3]. apply negb_true_iff, Z.eqb_neq in H3.
  exists v. split; [reflexivity|]. split; [exact H1|]. split; [exact H3|]. destruct (rg_fwd_map r); [discriminate|reflexivity].
Qed.

Lemma in_region_state : exists s v, region_invariant s /\ head (m_vars s) = Some v /\ is_heap_value v = true /\ vdata v <> 0 /\
  match region_stack (m_world s) with [r] => rg_fwd_map r = None | _ => False end.
Proof.
  exists (snd (fst (in_region host_machine))). destruct (pair_state_spec _ in_region_pair) as (v & Hv). exists v.
  split; [exact (ends_final _ _ _ in_region_ends in_region_granted)|exact Hv].
Qed.

Lemma escape_survives_region_witness : exists root G w r v, memory_ok [] root G w /\ control_ok root w /\ region_stack w = [r] /\
  vok (region_index_owning w) G (level w) v /\ is_heap_value v = true /\ vdata v <> 0 /\
  (let '(o, w1, refused) := region_escape_tagged_value v w in
   refused = false -> exists v', o = Ret v' /\ vtype v' = vtype v /\
     let w2 := eshkol_region_leave (arena_above root []) (region_pop w1) in
     exists G2, memory_ok [] root G2 w2 /\ control_ok root w2 /\
       (exists sub, G2 !! vdata v' = Some (Obj (evac_kind_for (vtype v) sub) sub) /\ is_Some (w_mem w2 !! vdata v') /\ region_index_owning w2 (vdata v') <= level w2) /\
       forall p t, G !! p = Some t -> region_index_owning w p < level w -> G2 !! p = Some t /\ is_Some (w_mem w2 !! p)).
Proof.
  destruct in_region_state as (s & v & (root & G & r & M & C & stack & Hv) & Ev & Hh & N0 & _). destruct (m_vars s) as [|v0 vs]; [discriminate|]. injection Ev as ->.
  inversion Hv as [|? ? Hv0 _]; subst. exists root, G, (m_world s), r, v. split; [exact M|]. split; [exact C|]. split; [exact stack|]. split; [exact Hv0|].
  split; [exact Hh|]. split; [exact N0|]. exact (escape_survives_region [] root G (m_world s) r [] v M C stack Hv0 Hh N0).
Defined.

Lemma evacuation_copies_graph_witness : exists root G w r v, memory_ok [] root G w /\ region_stack w = [r] ++ [] /\ rg_fwd_map r = None /\
  vok (region_index_owning w) G (level w) v /\ is_heap_value v = true /\
  (let '(o, w', refused) := region_evacuate_value v (arena_above root []) (-1) w in
   refused = false -> exists v' G', o = Ret v' /\ memory_ok [] root G' w' /\ w_mem w ⊆ w_mem w' /\
     graph_copied (arena_above root []) (-1) ∅ w G v v' w' G' /\ vok (region_index_owning w') G' (-1) v').
Proof.
  destruct in_region_state as (s & v & (root & G & r & M & C & stack & Hv) & Ev & Hh & _ & Em). destruct (m_vars s) as [|v0 vs]; [discriminate|]. injection Ev as ->.
  rewrite stack in Em. inversion Hv as [|? ? Hv0 _]; subst. exists root, G, (m_world s), r, v. split; [exact M|]. split; [exact stack|]. split; [exact Em|].
  split; [exact Hv0|]. split; [exact Hh|]. exact (evacuation_copies_graph [] root G (m_world s) r [] [] v (level (m_world s)) M stack Em Hv0).
Defined.
