(* ===== verification/Eskb.v ===== *)
(** * The bytecode file format: lib/backend/eskb_format.h, eskb_writer.c, eskb_reader.c

    A compiled program is written as a header with a CRC-32 and sections of constants,
    functions and debug information, and loaded back.  Bytes are integers from 0 to 255,
    doubles are their bits, and the machine is little-endian.  The file is its content. *)

From Stdlib Require Import String ZArith List Lia Bool.
From S2P Require Import Prelude Effects.
Import ListNotations.
Open Scope Z_scope.
Open Scope effect_scope.

(** ** The C heap: requests of [malloc], [calloc] and [realloc] *)

Class Allocator (H : Type) : Type := { request : Z -> H -> bool * H }.

(** No object is larger than [PTRDIFF_MAX]. *)
Class AllocatorLaws (H : Type) {A : Allocator H} : Type := {
  request_bounded : forall n h h', request n h = (true, h') -> n < 2 ^ 63;
}.

Definition s32 (x : Z) : Z := let r := u32 x in if r <? 2 ^ 31 then r else r - 2 ^ 32.

Definition INT_MAX : Z := 2147483647.
Definition SIZE_MAX : Z := UINT64_MAX.

(** ** eskb_format.h *)

Definition ESKB_MAGIC : Z := 1163086658.
Definition ESKB_VERSION : Z := 1.
Definition ESKB_SECTION_CONST : Z := 0.
Definition ESKB_SECTION_CODE : Z := 1.
Definition ESKB_SECTION_META : Z := 2.
Definition ESKB_CONST_NIL : Z := 0.
Definition ESKB_CONST_INT64 : Z := 1.
Definition ESKB_CONST_F64 : Z := 2.
Definition ESKB_CONST_BOOL : Z := 3.
Definition ESKB_CONST_STRING : Z := 6.
Definition ESKB_FLAG_LITTLE_ENDIAN : Z := 1.
Definition ESHKOL_VM_MAX_CODE : Z := 100000.

(** The [n] bytes of a word. *)
Fixpoint le_bytes (n : nat) (v : Z) : list Z :=
  match n with O => [] | S n' => v mod 256 :: le_bytes n' (v / 256) end.

Fixpoint le_word (bs : list Z) : Z := match bs with [] => 0 | b :: bs' => b + 256 * le_word bs' end.

(** [eskb_write_leb128] into an array of ten bytes; [None] would be past its end. *)
Fixpoint leb128_bytes (room : nat) (val : Z) : option (list Z) :=
  match room with
  | O => None
  | S room' =>
    let byte := Z.land val 127 in
    let val' := Z.shiftr val 7 in
    if val' =? 0 then Some [byte] else option_map (cons (Z.lor byte 128)) (leb128_bytes room' val')
  end.

Definition eskb_write_leb128 (val : Z) : option (list Z) := leb128_bytes 10 val.

(** The loop of [eskb_read_leb128], from byte [n] on: the bytes read and the value. *)
Fixpoint leb128_loop (rounds : nat) (buf : list Z) (limit n shift out : Z) : option (Z * Z) :=
  match rounds with
  | O => None
  | S rounds' =>
    if n <? limit then
      match buf with
      | [] => None
      | byte :: buf' =>
        let out := Z.lor out (u64 (Z.shiftl (Z.land byte 127) shift)) in
        if Z.land byte 128 =? 0 then Some (n + 1, out) else leb128_loop rounds' buf' limit (n + 1) (shift + 7) out
      end
    else None
  end.

(** The length is cast to [int]. *)
Definition eskb_read_leb128 (buf : list Z) : option (Z * Z) := leb128_loop 10 buf (s32 (Z.of_nat (length buf))) 0 0 0.

Definition crc_bit (crc : Z) : Z := Z.lxor (Z.shiftr crc 1) (Z.land 3988292384 (u32 (- Z.land crc 1))).

Definition crc_byte (crc byte : Z) : Z := Nat.iter 8 crc_bit (Z.lxor crc byte).

Definition eskb_crc32 (data : list Z) : Z := Z.lxor (fold_left crc_byte data UINT32_MAX) UINT32_MAX.

(** *** Growing buffers *)

Record EskbBuffer : Type := mkBuffer { buf_data : list Z; buf_cap : Z }.

Definition eskb_buf_init : EskbBuffer := mkBuffer [] 0.

Definition buf_len (b : EskbBuffer) : Z := Z.of_nat (length (buf_data b)).

(** [while (new_cap < need) new_cap *= 2]; a capacity above [2^63] would become 0 and stay so. *)
Fixpoint double_cap (fuel : nat) (cap need : Z) : option Z :=
  if need <=? cap then Some cap else match fuel with O => None | S fuel' => double_cap fuel' (u64 (cap * 2)) need end.

Section Writer.
  Context {H : Type} {HA : Allocator H}.

Definition allocated (n : Z) : M H bool := fun h => let '(ok, h') := request n h in (Ret ok, h', negb ok).

(** The writing functions return whether they succeed and the buffer. *)
Definition eskb_buf_ensure (b : EskbBuffer) (extra : Z) : M H (bool * EskbBuffer) :=
  let need := u64 (buf_len b + extra) in
  if need <=? buf_cap b then ret (true, b)
  else
    let! cap := fuelled (double_cap 64 (if buf_cap b =? 0 then 4096 else u64 (buf_cap b * 2)) need) in
    let! ok := allocated cap in
    if ok then ret (true, mkBuffer (buf_data b) cap) else ret (false, b).

Definition eskb_buf_write (b : EskbBuffer) (src : list Z) : M H (bool * EskbBuffer) :=
  let! (ok, b) := eskb_buf_ensure b (Z.of_nat (length src)) in
  if negb ok then ret (false, b)
  else if buf_len b + Z.of_nat (length src) >? buf_cap b then crash
  else ret (true, mkBuffer (buf_data b ++ src) (buf_cap b)).

Definition eskb_buf_write_u8 (b : EskbBuffer) (v : Z) : M H (bool * EskbBuffer) := eskb_buf_write b [v].

Definition eskb_buf_write_leb128 (b : EskbBuffer) (val : Z) : M H (bool * EskbBuffer) :=
  let! bytes := deref (eskb_write_leb128 val) in eskb_buf_write b bytes.

Definition eskb_buf_write_i64 (b : EskbBuffer) (v : Z) : M H (bool * EskbBuffer) := eskb_buf_write b (le_bytes 8 (u64 v)).

Definition eskb_buf_write_f64 (b : EskbBuffer) (bits : Z) : M H (bool * EskbBuffer) := eskb_buf_write b (le_bytes 8 bits).

Definition eskb_buf_write_string (b : EskbBuffer) (s : list Z) : M H (bool * EskbBuffer) :=
  let! (ok, b) := eskb_buf_write_leb128 b (Z.of_nat (length s)) in
  if ok then eskb_buf_write b s else ret (false, b).

(** ** eskb_writer.c *)

Record EskbInstr : Type := mkInstr { op : Z; operand : Z }.

(** The union is the member that the type selects; a string is the array [str] of 256
    bytes and the length [str_len]. *)
Record EskbConst : Type := mkConst { const_type : Z; as_i : Z; as_f : Z; as_b : Z; str : list Z; str_len : Z }.

(** [name] and [code] are [None] when null. *)
Record EskbFunctionDef : Type := mkFunctionDef {
  fn_name : option (list Z);
  fn_n_params : Z;
  fn_n_locals : Z;
  fn_n_upvalues : Z;
  fn_code : option (list EskbInstr);
  code_base : Z;
}.

(** [JUMP], [JUMP_IF_FALSE], [LOOP], [PUSH_HANDLER]. *)
Definition eskb_operand_is_code_target (op : Z) : bool := existsb (Z.eqb op) [28; 29; 30; 57].

Definition zigzag (operand : Z) : Z := Z.lxor (u64 (Z.shiftl operand 1)) (u64 (Z.shiftr operand 63)).

Definition eskb_write_instruction (b : EskbBuffer) (op operand : Z) : M H (bool * EskbBuffer) :=
  let! (ok, b) := eskb_buf_write_u8 b op in
  if ok then eskb_buf_write_leb128 b (zigzag operand) else ret (false, b).

Fixpoint write_code (b : EskbBuffer) (base len : Z) (code : list EskbInstr) : M H (bool * EskbBuffer) :=
  match code with
  | [] => ret (true, b)
  | i :: code' =>
    let relocate := negb (base =? 0) && eskb_operand_is_code_target (op i) in
    if relocate && ((operand i <? base) || (operand i >=? base + len)) then ret (false, b)
    else
      let! (ok, b) := eskb_write_instruction b (op i) (if relocate then operand i - base else operand i) in
      if ok then write_code b base len code' else ret (false, b)
  end.

Definition eskb_write_function (b : EskbBuffer) (fn : EskbFunctionDef) : M H (bool * EskbBuffer) :=
  match fn_name fn, fn_code fn with
  | Some ((_ :: _) as name), Some ((_ :: _) as code) =>
    if Z.of_nat (length name) >? 255 then ret (false, b)
    else
      let! (ok, b) := eskb_buf_write_string b name in
      if negb ok then ret (false, b) else
      let! (ok, b) := eskb_buf_write_u8 b (fn_n_params fn) in
      if negb ok then ret (false, b) else
      let! (ok, b) := eskb_buf_write_leb128 b (fn_n_locals fn) in
      if negb ok then ret (false, b) else
      let! (ok, b) := eskb_buf_write_u8 b (fn_n_upvalues fn) in
      if negb ok then ret (false, b) else
      let! (ok, b) := eskb_buf_write_leb128 b (Z.of_nat (length code)) in
      if negb ok then ret (false, b) else
      write_code b (code_base fn) (Z.of_nat (length code)) code
  | _, _ => ret (false, b)
  end.

(** The results of these writes are not looked at. *)
Definition write_constant (b : EskbBuffer) (c : EskbConst) : M H EskbBuffer :=
  let! (_, b) := eskb_buf_write_u8 b (const_type c) in
  if const_type c =? ESKB_CONST_NIL then ret b
  else
    let! (_, b) := (if const_type c =? ESKB_CONST_F64 then eskb_buf_write_f64 b (as_f c)
                    else if const_type c =? ESKB_CONST_BOOL then eskb_buf_write_u8 b (if as_b c =? 0 then 0 else 1)
                    else if const_type c =? ESKB_CONST_STRING then
                      (if (0 <=? str_len c) && (str_len c <=? Z.of_nat (length (str c)))
                       then eskb_buf_write_string b (firstn (Z.to_nat (str_len c)) (str c)) else crash)
                    else eskb_buf_write_i64 b (as_i c)) in
    ret b.

Fixpoint write_constants (b : EskbBuffer) (cs : list EskbConst) : M H EskbBuffer :=
  match cs with [] => ret b | c :: cs' => let! b := write_constant b c in write_constants b cs' end.

Fixpoint write_functions (b : EskbBuffer) (fns : list EskbFunctionDef) : M H (bool * EskbBuffer) :=
  match fns with
  | [] => ret (true, b)
  | fn :: fns' => let! (ok, b) := eskb_write_function b fn in if ok then write_functions b fns' else ret (false, b)
  end.

Definition write_descriptor (b : EskbBuffer) (id : Z) (section : EskbBuffer) : M H EskbBuffer :=
  let! (_, b) := eskb_buf_write_u8 b id in let! (_, b) := eskb_buf_write_leb128 b (buf_len section) in ret b.

Definition header (checksum : Z) : list Z :=
  le_bytes 4 ESKB_MAGIC ++ le_bytes 4 ESKB_VERSION ++ le_bytes 4 ESKB_FLAG_LITTLE_ENDIAN ++ le_bytes 4 checksum.

(** [eskb_write_file_with_functions]: the content of the file, [None] for -1. *)
Definition eskb_write_file_with_functions (constants : option (list EskbConst)) (functions : list EskbFunctionDef)
    (source_file : option (list Z)) : M H (option (list Z)) :=
  match constants, functions with
  | Some constants, _ :: _ =>
    let! (_, const_buf) := eskb_buf_write_leb128 eskb_buf_init (Z.of_nat (length constants)) in
    let! const_buf := write_constants const_buf constants in
    let! (ok, code_buf) := eskb_buf_write_leb128 eskb_buf_init (Z.of_nat (length functions)) in
    if negb ok then ret None else
    let! (ok, code_buf) := write_functions code_buf functions in
    if negb ok then ret None else
    let! (_, meta_buf) := (match source_file with Some s => eskb_buf_write_string eskb_buf_init s | None => ret (true, eskb_buf_init) end) in
    let! (_, payload) := eskb_buf_write_leb128 eskb_buf_init (match source_file with Some _ => 3 | None => 2 end) in
    let! payload := write_descriptor payload ESKB_SECTION_CONST const_buf in
    let! payload := write_descriptor payload ESKB_SECTION_CODE code_buf in
    let! payload := (match source_file with Some _ => write_descriptor payload ESKB_SECTION_META meta_buf | None => ret payload end) in
    let! (_, payload) := eskb_buf_write payload (buf_data const_buf) in
    let! (_, payload) := eskb_buf_write payload (buf_data code_buf) in
    let! (_, payload) := (match source_file with Some _ => eskb_buf_write payload (buf_data meta_buf) | None => ret (true, payload) end) in
    ret (Some (header (eskb_crc32 (buf_data payload)) ++ buf_data payload))
  | _, _ => ret None
  end.

(** [eskb_write_file]: one function, [main]. *)
Definition eskb_write_file (code : option (list EskbInstr)) (constants : option (list EskbConst)) (source_file : option (list Z)) : M H (option (list Z)) :=
  eskb_write_file_with_functions constants [mkFunctionDef (Some [109; 97; 105; 110]) 0 0 0 code 0] source_file.

End Writer.

(** ** Reading: eskb_format.h *)

(** [EskbReader], with the heap the reader allocates from. *)
Record EskbReader (H : Type) : Type := mkReader { rd_heap : H; rd_data : list Z; rd_pos : Z }.
Arguments mkReader {H}.
Arguments rd_heap {H}.
Arguments rd_data {H}.
Arguments rd_pos {H}.

Record EskbSectionDesc : Type := mkSection { sec_id : Z; sec_size : Z }.

(** ** eskb_reader.c *)

Record EskbFunction : Type := mkFunction { ef_name : list Z; ef_n_params : Z; ef_n_locals : Z; ef_n_upvalues : Z; ef_code_offset : Z; ef_code_len : Z }.

(** The four arrays of constants are one list; doubles are bits. *)
Record loaded_const : Type := mkLoaded { lc_type : Z; lc_int : Z; lc_float : Z; lc_string : option (list Z) }.

(** [opcodes] and [operands] are one list, whose length is [code_len]; an array that is
    not there yet is [None]. *)
Record EskbModule : Type := mkModule {
  em_code : list (Z * Z);
  em_consts : option (list loaded_const);
  em_functions : option (list EskbFunction);
  em_source_file : list Z;
  em_has_debug : bool;
}.

Definition empty_module : EskbModule := mkModule [] None None [] false.

Definition code_len (m : EskbModule) : Z := Z.of_nat (length (em_code m)).

Definition cstring (s : list Z) : list Z :=
  (fix upto (s : list Z) : list Z := match s with [] => [] | c :: s' => if c =? 0 then [] else c :: upto s' end) s.

(** [strcmp(a, b) == 0]. *)
Definition same_cstring (a b : list Z) : bool := if list_eq_dec Z.eq_dec (cstring a) (cstring b) then true else false.

Section Reader.
  Context {H : Type} {HA : Allocator H}.

Abbreviation R A := (M (EskbReader H) (option A)).

(** [None] is the result -1. *)
Definition fail {A} : R A := ret None.

(** [if (cond) return -1]. *)
Definition fail_if (cond : bool) : R unit := if cond then fail else ret (Some tt).

Definition request_or_fail (n : Z) : R unit := fun r =>
  let '(ok, h) := request n (rd_heap r) in
  (Ret (if ok then Some tt else None), mkReader h (rd_data r) (rd_pos r), negb ok).

Definition rd_len (r : EskbReader H) : Z := Z.of_nat (length (rd_data r)).

Definition advance (n : Z) (r : EskbReader H) : EskbReader H := mkReader (rd_heap r) (rd_data r) (rd_pos r + n).

Definition eskb_read_u8 : R Z := fun r =>
  if rd_pos r >=? rd_len r then (Ret None, r, false)
  else match nth_error (rd_data r) (Z.to_nat (rd_pos r)) with
       | Some byte => (Ret (Some byte), advance 1 r, false)
       | None => (Crash, r, false)
       end.

(** The sum wraps around in [size_t]; what is then copied is past the end. *)
Definition eskb_read_bytes (n : Z) : R (list Z) := fun r =>
  if u64 (rd_pos r + n) >? rd_len r then (Ret None, r, false)
  else if rd_pos r + n >? rd_len r then (Crash, r, false)
  else (Ret (Some (firstn (Z.to_nat n) (skipn (Z.to_nat (rd_pos r)) (rd_data r)))), advance n r, false).

Definition eskb_read_leb : R Z := fun r =>
  if rd_pos r >=? rd_len r then (Ret None, r, false)
  else match eskb_read_leb128 (skipn (Z.to_nat (rd_pos r)) (rd_data r)) with
       | Some (n, v) => (Ret (Some v), advance n r, false)
       | None => (Ret None, r, false)
       end.

Definition eskb_read_f64 : R Z := check! bs := eskb_read_bytes 8 in ret (Some (le_word bs)).

Definition eskb_read_i64 : R Z := check! bs := eskb_read_bytes 8 in ret (Some (s64 (le_word bs))).

Definition eskb_read_string (max_len : Z) : R (list Z) :=
  check! slen := eskb_read_leb in
  check! _ := fail_if (slen >? max_len - 1) in
  eskb_read_bytes slen.

Definition eskb_read_string_alloc : R (list Z) :=
  check! slen := eskb_read_leb in
  check! _ := fail_if (slen >? SIZE_MAX - 1) in
  check! _ := request_or_fail (slen + 1) in
  eskb_read_bytes slen.

Definition unzigzag (z : Z) : Z := if Z.land z 1 =? 0 then Z.shiftr z 1 else - Z.shiftr z 1 - 1.

Definition eskb_read_instruction : R (Z * Z) :=
  check! op := eskb_read_u8 in
  check! z := eskb_read_leb in
  check! _ := fail_if (z >? UINT32_MAX) in
  let decoded := unzigzag z in
  check! _ := fail_if ((decoded <? -2147483648) || (decoded >? INT_MAX)) in
  ret (Some (op, decoded)).

Definition at_end : R unit := fun r => (Ret (if rd_pos r =? rd_len r then Some tt else None), r, false).

(** [n] rounds of a loop that fills an array. *)
Fixpoint read_array {A} (n : nat) (body : R A) : R (list A) :=
  match n with O => ret (Some []) | S n' => check! x := body in check! xs := read_array n' body in ret (Some (x :: xs)) end.

Definition read_constant : R loaded_const :=
  check! ctype := eskb_read_u8 in
  if ctype =? ESKB_CONST_NIL then ret (Some (mkLoaded ctype 0 0 None))
  else if ctype =? ESKB_CONST_F64 then check! f := eskb_read_f64 in ret (Some (mkLoaded ctype 0 f None))
  else if ctype =? ESKB_CONST_BOOL then check! b := eskb_read_u8 in ret (Some (mkLoaded ctype b 0 None))
  else if ctype =? ESKB_CONST_STRING then
    check! s := eskb_read_string_alloc in ret (Some (mkLoaded ctype (s64 (Z.of_nat (length s))) 0 (Some s)))
  else check! i := eskb_read_i64 in ret (Some (mkLoaded ctype i 0 None)).

Definition parse_constants (m : EskbModule) : R EskbModule :=
  check! nc := eskb_read_leb in
  check! _ := fail_if (nc >? INT_MAX) in
  check! _ := fail_if (match em_consts m with Some _ => true | None => false end) in
  let alloc_count := if nc =? 0 then 1 else nc in
  check! _ := request_or_fail alloc_count in
  check! _ := request_or_fail (alloc_count * 8) in
  check! _ := request_or_fail (alloc_count * 8) in
  check! _ := request_or_fail (alloc_count * 8) in
  check! cs := read_array (Z.to_nat nc) read_constant in
  check! _ := at_end in
  ret (Some (mkModule (em_code m) (Some cs) (em_functions m) (em_source_file m) (em_has_debug m))).

Definition read_code (code_offset cl : Z) : R (Z * Z) :=
  check! (op, operand) := eskb_read_instruction in
  if eskb_operand_is_code_target op then
    check! _ := fail_if ((operand <? 0) || (operand >=? s32 cl)) in ret (Some (op, operand + code_offset))
  else ret (Some (op, operand)).

(** One function: its descriptor and its instructions. *)
Definition read_function (previous : list EskbFunction) (offset : Z) : R (EskbFunction * list (Z * Z)) :=
  check! name := eskb_read_string_alloc in
  check! _ := fail_if ((Z.of_nat (length name) =? 0) || (Z.of_nat (length name) >? 255)) in
  check! _ := fail_if (existsb (fun f => same_cstring (ef_name f) name) previous) in
  check! np := eskb_read_u8 in
  check! nl := eskb_read_leb in
  check! _ := fail_if (nl >? INT_MAX) in
  check! nuv := eskb_read_u8 in
  check! cl := eskb_read_leb in
  check! _ := fail_if ((cl >? ESHKOL_VM_MAX_CODE) || (cl >? INT_MAX)) in
  check! _ := fail_if (offset >? INT_MAX - cl) in
  let new_code_len := offset + cl in
  check! _ := fail_if (new_code_len >? ESHKOL_VM_MAX_CODE) in
  let alloc_count := if new_code_len =? 0 then 1 else new_code_len in
  check! _ := request_or_fail alloc_count in
  check! _ := request_or_fail (alloc_count * 4) in
  check! code := read_array (Z.to_nat cl) (read_code offset cl) in
  ret (Some (mkFunction name np nl nuv offset cl, code)).

Fixpoint read_functions (n : nat) (functions : list EskbFunction) (code : list (Z * Z)) : R (list EskbFunction * list (Z * Z)) :=
  match n with
  | O => ret (Some (functions, code))
  | S n' =>
    check! (f, body) := read_function functions (Z.of_nat (length code)) in
    read_functions n' (functions ++ [f]) (code ++ body)
  end.

Definition sizeof_EskbFunction : Z := 32.

Definition parse_code (m : EskbModule) : R EskbModule :=
  check! nf := eskb_read_leb in
  check! _ := fail_if ((nf >? 4096) || (nf >? INT_MAX)) in
  check! _ := fail_if (match em_functions m with Some _ => true | None => false end) in
  check! _ := request_or_fail ((if nf =? 0 then 1 else nf) * sizeof_EskbFunction) in
  check! (fs, code) := read_functions (Z.to_nat nf) [] (em_code m) in
  check! _ := at_end in
  ret (Some (mkModule code (em_consts m) (Some fs) (em_source_file m) (em_has_debug m))).

Definition parse_meta (m : EskbModule) : R EskbModule :=
  check! _ := fail_if (em_has_debug m) in
  check! s := eskb_read_string 256 in
  check! _ := at_end in
  ret (Some (mkModule (em_code m) (em_consts m) (em_functions m) s true)).

(** Sections of other kinds are skipped. *)
Definition parse_section (id : Z) (m : EskbModule) : R EskbModule :=
  if id =? ESKB_SECTION_CONST then parse_constants m
  else if id =? ESKB_SECTION_CODE then parse_code m
  else if id =? ESKB_SECTION_META then parse_meta m
  else ret (Some m).

Definition read_section_desc : R EskbSectionDesc :=
  check! sid := eskb_read_u8 in
  check! ssize := eskb_read_leb in
  check! _ := fail_if (ssize >? UINT32_MAX) in
  ret (Some (mkSection sid ssize)).

(** The table of sections and the offset behind it. *)
Definition read_section_table : R (list EskbSectionDesc * Z) :=
  check! n := eskb_read_leb in
  check! _ := fail_if (n >? 16) in
  check! sections := read_array (Z.to_nat n) read_section_desc in
  fun r => (Ret (Some (sections, rd_pos r)), r, false).

(** The offsets of the sections, which fill the payload exactly. *)
Fixpoint section_offsets (payload_len offset : Z) (sections : list EskbSectionDesc) : option (list (EskbSectionDesc * Z)) :=
  match sections with
  | [] => if offset =? payload_len then Some [] else None
  | s :: rest =>
    if sec_size s >? u64 (payload_len - offset) then None
    else option_map (cons (s, offset)) (section_offsets payload_len (offset + sec_size s) rest)
  end.

(** A reader of its own for a part of the payload. *)
Definition with_reader {A} (data : list Z) (m : R A) : M H (option A) := fun h =>
  let '(o, r, f) := m (mkReader h data 0) in (o, rd_heap r, f).

Fixpoint parse_sections (payload : list Z) (sections : list (EskbSectionDesc * Z)) (m : EskbModule) : M H (option EskbModule) :=
  match sections with
  | [] => ret (Some m)
  | (s, offset) :: rest =>
    check! m := with_reader (firstn (Z.to_nat (sec_size s)) (skipn (Z.to_nat offset) payload)) (parse_section (sec_id s) m) in
    parse_sections payload rest m
  end.

Definition eskb_parse_payload (payload : list Z) : M H (option EskbModule) :=
  check! (sections, offset) := with_reader payload read_section_table in
  match section_offsets (Z.of_nat (length payload)) offset sections with
  | None => ret None
  | Some located => parse_sections payload located empty_module
  end.

(** [eskb_load_memory]; the flags of the header are not looked at.  A module that failed
    to load is freed. *)
Definition eskb_load_memory (data : list Z) : M H (option EskbModule) :=
  if Z.of_nat (length data) <? 16 then ret None
  else
    let word i := le_word (firstn 4 (skipn (4 * i) data)) in
    if negb (word 0%nat =? ESKB_MAGIC) then ret None
    else if negb (word 1%nat =? ESKB_VERSION) then ret None
    else
      let payload := skipn 16 data in
      if negb (eskb_crc32 payload =? word 3%nat) then ret None else eskb_parse_payload payload.

End Reader.
