(* ===== verification/EskbSpec.v ===== *)
(** * Bytecode files: what the bytes mean

    The encodings as functions, what the writer appends to a buffer and what the reader
    takes from the bytes. *)

From Stdlib Require Import ZArith List Lia Bool.
From S2P Require Import Prelude Effects Eskb.
Import ListNotations.
Open Scope Z_scope.
Open Scope effect_scope.

Definition bytes_ok (bs : list Z) : Prop := Forall (fun b => 0 <= b < 256) bs.

Definition size (bs : list Z) : Z := Z.of_nat (length bs).

Lemma size_app a b : size (a ++ b) = size a + size b.
Proof. unfold size. rewrite length_app. lia. Qed.

Lemma size_cons x a : size (x :: a) = 1 + size a.
Proof. unfold size. cbn [length]. lia. Qed.

Lemma size_nonneg a : 0 <= size a.
Proof. unfold size. lia. Qed.

#[export] Hint Rewrite size_app size_cons : size.

(** ** Words *)

Lemma le_bytes_length n v : length (le_bytes n v) = n.
Proof. revert v. induction n as [|n IH]; intros v; cbn; [reflexivity|]. rewrite IH. reflexivity. Qed.

Lemma le_bytes_ok n v : bytes_ok (le_bytes n v).
Proof. revert v. induction n as [|n IH]; intros v; [constructor|]. cbn. constructor; [apply Z.mod_pos_bound; lia|apply IH]. Qed.

Lemma le_word_bytes n v : le_word (le_bytes n v) = v mod 256 ^ Z.of_nat n.
Proof.
  revert v. induction n as [|n IH]; intros v; cbn [le_bytes le_word]; [change (256 ^ Z.of_nat 0) with 1; rewrite Z.mod_1_r; reflexivity|].
  rewrite IH, Nat2Z.inj_succ, Z.pow_succ_r by lia. rewrite Z.rem_mul_r by lia. lia.
Qed.

Lemma le_word_range bs : bytes_ok bs -> 0 <= le_word bs < 256 ^ size bs.
Proof.
  induction 1 as [|b bs Hb _ IH]; [cbn; lia|]. cbn [le_word]. rewrite size_cons, Z.pow_add_r by (pose proof (size_nonneg bs); lia).
  change (256 ^ 1) with 256. nia.
Qed.

(** ** LEB128 *)

Definition leb128 (v : Z) : list Z := match eskb_write_leb128 v with Some bs => bs | None => [] end.

Lemma land_127 v : Z.land v 127 = v mod 128.
Proof. exact (Z.land_ones v 7 ltac:(lia)). Qed.

Lemma leb128_bytes_some room v : 0 <= v < 2 ^ (7 * Z.of_nat room) -> (0 < room)%nat -> exists bs, leb128_bytes room v = Some bs /\ (0 < length bs)%nat.
Proof.
  revert v. induction room as [|room IH]; intros v Hv Hr; [lia|]. cbn [leb128_bytes]. rewrite Z.shiftr_div_pow2 by lia. change (2 ^ 7) with 128.
  destruct (Z.eqb_spec (v / 128) 0) as [_|Hn]; [eexists; split; [reflexivity|cbn; lia]|].
  assert (Hq : 0 <= v / 128 < 2 ^ (7 * Z.of_nat room)).
  { split; [apply Z.div_pos; lia|]. apply Z.div_lt_upper_bound; [lia|].
    replace (7 * Z.of_nat (S room)) with (7 + 7 * Z.of_nat room) in Hv by lia. rewrite Z.pow_add_r in Hv by lia. change (2 ^ 7) with 128 in Hv. lia. }
  destruct room as [|room]; [change (2 ^ (7 * Z.of_nat 0)) with 1 in Hq; lia|]. destruct (IH _ Hq ltac:(lia)) as (bs & -> & _). eexists. split; [reflexivity|cbn; lia].
Qed.

Lemma eskb_write_leb128_some v : 0 <= v < B64 -> eskb_write_leb128 v = Some (leb128 v).
Proof.
  intros Hv. unfold leb128, eskb_write_leb128. destruct (leb128_bytes_some 10 v) as (bs & -> & _); [change (2 ^ (7 * Z.of_nat 10)) with (2 ^ 70); lia|lia|reflexivity].
Qed.

Lemma leb128_length v : 0 <= v < B64 -> 0 < size (leb128 v).
Proof.
  intros Hv. unfold leb128, eskb_write_leb128. destruct (leb128_bytes_some 10 v) as (bs & -> & Hl); [change (2 ^ (7 * Z.of_nat 10)) with (2 ^ 70); lia|lia|].
  unfold size. lia.
Qed.

Lemma lor_128 b : 0 <= b < 128 -> Z.lor b 128 = b + 128.
Proof.
  intros Hb. rewrite Z.lor_comm. change 128 with (Z.shiftl 1 7) at 1. rewrite lor_disjoint_add by lia. lia.
Qed.

Lemma leb128_loop_step room v bs rest limit n shift out rounds :
  leb128_bytes room v = Some bs -> (room <= rounds)%nat -> 0 <= v -> 0 <= out < 2 ^ shift -> 0 <= shift -> v * 2 ^ shift < B64 -> n + size bs <= limit ->
  leb128_loop rounds (bs ++ rest) limit n shift out = Some (n + size bs, out + v * 2 ^ shift).
Proof.
  revert v bs n shift out rounds. induction room as [|room IH]; intros v bs n shift out rounds Hb Hr Hv Ho Hs Hlt Hn; [discriminate|].
  destruct rounds as [|rounds]; [lia|]. cbn [leb128_bytes] in Hb. rewrite Z.shiftr_div_pow2, land_127 in Hb by lia. change (2 ^ 7) with 128 in Hb.
  pose proof (Z.mod_pos_bound v 128 ltac:(lia)) as Hm. pose proof (Z.div_mod v 128 ltac:(lia)) as Hdm.
  assert (Hp : 0 < 2 ^ shift) by (apply Z.pow_pos_nonneg; lia).
  assert (Hmv : v mod 128 * 2 ^ shift <= v * 2 ^ shift) by (apply Z.mul_le_mono_nonneg_r; [lia|]; apply Z.mod_le; lia).
  assert (Hor : forall x, x = v mod 128 -> Z.lor out (u64 (Z.shiftl x shift)) = out + v mod 128 * 2 ^ shift).
  { intros x ->. rewrite u64_small by (rewrite Z.shiftl_mul_pow2 by lia; nia). rewrite Z.lor_comm, lor_disjoint_add by lia. lia. }
  destruct (Z.eqb_spec (v / 128) 0) as [Hz|Hz].
  - injection Hb as <-. cbn [app leb128_loop]. destruct (Z.ltb_spec n limit) as [_|Hl]; [|rewrite size_cons in Hn; change (size []) with 0 in Hn; lia].
    rewrite land_127, Z.mod_mod by lia. rewrite Hor by reflexivity.
    assert (E0 : Z.land (v mod 128) 128 = 0).
    + apply Z.bits_inj'. intros i Hi. rewrite Z.land_spec, Z.bits_0. replace (Z.testbit 128 i) with (7 =? i) by (change 128 with (2 ^ 7); symmetry; apply Z.pow2_bits_eqb; lia).
      destruct (Z.eqb_spec 7 i) as [<-|]; [|apply andb_false_r]. rewrite (bits_above 7 (v mod 128) 7) by lia. reflexivity.
    + rewrite E0. cbn [Z.eqb]. rewrite size_cons. change (size []) with 0. repeat f_equal; lia.
  - destruct (leb128_bytes room (v / 128)) as [bs'|] eqn:Eb; [|discriminate]. injection Hb as <-. cbn [app leb128_loop].
    pose proof (size_nonneg bs') as Hsz. rewrite size_cons in Hn |- *. destruct (Z.ltb_spec n limit) as [_|Hl]; [|lia].
    rewrite lor_128 by lia. rewrite land_127. replace ((v mod 128 + 128) mod 128) with (v mod 128) by (apply (Z.mod_unique _ _ 1); lia).
    rewrite Hor by reflexivity. replace (Z.land (v mod 128 + 128) 128 =? 0) with false.
    + assert (Hd : v / 128 * 2 ^ (shift + 7) <= v * 2 ^ shift).
      { rewrite Z.pow_add_r by lia. change (2 ^ 7) with 128. nia. }
      rewrite (IH (v / 128) bs' (n + 1) (shift + 7)); [|exact Eb|lia|apply Z.div_pos; lia| |lia|lia|lia].
      * do 2 f_equal; [lia|]. rewrite Z.pow_add_r by lia. change (2 ^ 7) with 128. nia.
      * rewrite Z.pow_add_r by lia. change (2 ^ 7) with 128. nia.
    + symmetry. apply Z.eqb_neq. intros E. assert (Hb : Z.testbit (Z.land (v mod 128 + 128) 128) 7 = true).
      { rewrite <- lor_128 by lia. rewrite Z.land_spec, Z.lor_spec. change (Z.testbit 128 7) with true. rewrite orb_true_r. reflexivity. }
      rewrite E in Hb. discriminate.
Qed.

Lemma eskb_read_leb128_written v rest : 0 <= v < B64 -> size (leb128 v ++ rest) < 2 ^ 31 -> eskb_read_leb128 (leb128 v ++ rest) = Some (size (leb128 v), v).
Proof.
  intros Hv Hs. unfold eskb_read_leb128. fold (size (leb128 v ++ rest)). rewrite size_app in *. pose proof (size_nonneg rest). pose proof (size_nonneg (leb128 v)).
  replace (s32 _) with (size (leb128 v) + size rest).
  - rewrite (leb128_loop_step 10 v); [f_equal; f_equal; lia|exact (eskb_write_leb128_some v Hv)|lia|lia|lia|lia|lia|lia].
  - unfold s32. rewrite u32_small by lia. destruct (Z.ltb_spec (size (leb128 v) + size rest) (2 ^ 31)); lia.
Qed.

(** *** Signed operands *)

Lemma lxor_all_ones x : 0 <= x < B64 -> Z.lxor x (Z.ones 64) = B64 - 1 - x.
Proof.
  intros Hx. assert (E : Z.lxor x (Z.ones 64) + x = Z.ones 64).
  { rewrite Z.add_nocarry_lxor.
    - rewrite Z.lxor_comm, <- Z.lxor_assoc, Z.lxor_nilpotent, Z.lxor_0_l. reflexivity.
    - apply Z.bits_inj'. intros i Hi. rewrite Z.land_spec, Z.lxor_spec, Z.bits_0.
      destruct (Z.ltb_spec i 64) as [Hl|Hg]; [rewrite Z.ones_spec_low by lia; destruct (Z.testbit x i); reflexivity|].
      rewrite (bits_above 64 x i) by lia. apply andb_false_r. }
  pose proof (Z.ones_equiv 64). lia.
Qed.

Lemma zigzag_value x : - 2 ^ 31 <= x < 2 ^ 31 -> zigzag x = (if x <? 0 then - 2 * x - 1 else 2 * x).
Proof.
  intros Hx. unfold zigzag. rewrite Z.shiftl_mul_pow2, Z.shiftr_div_pow2 by lia. change (2 ^ 1) with 2. destruct (Z.ltb_spec x 0) as [Hn|Hp].
  - replace (x / 2 ^ 63) with (-1) by (apply (Z.div_unique _ _ _ (x + 2 ^ 63)); lia).
    change (u64 (-1)) with (Z.ones 64). replace (u64 (x * 2)) with (x * 2 + B64).
    + rewrite lxor_all_ones by lia. lia.
    + unfold u64. apply (Z.mod_unique _ _ (-1)); lia.
  - rewrite (Z.div_small x (2 ^ 63)) by lia. change (u64 0) with 0. rewrite Z.lxor_0_r, u64_small by lia. lia.
Qed.

Lemma zigzag_range x : - 2 ^ 31 <= x < 2 ^ 31 -> 0 <= zigzag x < 2 ^ 32.
Proof. intros Hx. rewrite zigzag_value by exact Hx. destruct (Z.ltb_spec x 0); lia. Qed.

Lemma unzigzag_zigzag x : - 2 ^ 31 <= x < 2 ^ 31 -> unzigzag (zigzag x) = x.
Proof.
  intros Hx. rewrite zigzag_value by exact Hx. unfold unzigzag. rewrite Z.shiftr_div_pow2, land_1 by lia. change (2 ^ 1) with 2.
  destruct (Z.ltb_spec x 0) as [Hn|Hp].
  - replace ((- 2 * x - 1) mod 2) with 1 by (apply (Z.mod_unique _ _ (- x - 1)); lia). cbn [Z.eqb].
    replace ((- 2 * x - 1) / 2) with (- x - 1) by (apply (Z.div_unique _ _ _ 1); lia). lia.
  - replace ((2 * x) mod 2) with 0 by (apply (Z.mod_unique _ _ x); lia). cbn [Z.eqb]. rewrite Z.mul_comm, Z.div_mul by lia. reflexivity.
Qed.

Lemma s64_of_u64 x : - 2 ^ 63 <= x < 2 ^ 63 -> s64 (u64 x) = x.
Proof.
  intros Hx. rewrite <- (s64_small x) at 2 by (unfold int64_range; lia). unfold s64, u64. rewrite Z.add_mod_idemp_l by lia. reflexivity.
Qed.

(** ** Writing: a buffer with room *)

(** The sizes of this file format are far below the range of [size_t]. *)
Definition buffer_ok (b : EskbBuffer) : Prop := buf_len b <= buf_cap b < 2 ^ 41.

(** The writer appends the bytes to the buffer. *)
Definition appends {H} (m : M H (bool * EskbBuffer)) (b : EskbBuffer) (bs : list Z) : Prop :=
  forall h, runs m h (fun r _ => exists b', r = (true, b') /\ buf_data b' = buf_data b ++ bs /\ buffer_ok b').

Section Writing.
  Context {H : Type} {HA : Allocator H}.

Lemma double_cap_some fuel cap need : 0 < cap -> need <= cap * 2 ^ Z.of_nat fuel -> cap < 2 ^ 41 -> need <= 2 ^ 40 ->
  exists c, double_cap fuel cap need = Some c /\ need <= c < 2 ^ 41.
Proof.
  revert cap. induction fuel as [|fuel IH]; intros cap Hc Hn Hb Hk; cbn [double_cap]; destruct (Z.leb_spec need cap) as [Hl|Hl]; try (eexists; split; [reflexivity|lia]).
  - change (2 ^ Z.of_nat 0) with 1 in Hn. lia.
  - rewrite u64_small by lia. apply IH; [lia| |lia|lia]. replace (Z.of_nat (S fuel)) with (1 + Z.of_nat fuel) in Hn by lia. rewrite Z.pow_add_r in Hn by lia. lia.
Qed.

Lemma eskb_buf_write_appends (b : EskbBuffer) src : buffer_ok b -> size (buf_data b ++ src) <= 2 ^ 40 -> appends (H := H) (eskb_buf_write b src) b src.
Proof.
  intros Hb Hs h. rewrite size_app in Hs. unfold eskb_buf_write, eskb_buf_ensure, buffer_ok, buf_len in *. fold (size (buf_data b)) (size src) in *.
  pose proof (size_nonneg src). pose proof (size_nonneg (buf_data b)). rewrite u64_small by lia.
  apply (runs_call _ _ _ (fun r _ => exists cap, r = (true, mkBuffer (buf_data b) cap) /\ size (buf_data b) + size src <= cap < 2 ^ 41)).
  - destruct (Z.leb_spec (size (buf_data b) + size src) (buf_cap b)) as [Hl|Hl].
    + apply runs_value. exists (buf_cap b). split; [destruct b; reflexivity|lia].
    + assert (Hc : exists c, double_cap 64 (if buf_cap b =? 0 then 4096 else u64 (buf_cap b * 2)) (size (buf_data b) + size src) = Some c /\ size (buf_data b) + size src <= c < 2 ^ 41).
      { destruct (Z.eqb_spec (buf_cap b) 0) as [Hz|Hz]; [apply double_cap_some; lia|]. rewrite u64_small by lia. apply double_cap_some; lia. }
      destruct Hc as (c & -> & Hc). cbn [fuelled]. apply (runs_step _ _ _ c h); [reflexivity|]. apply runs_seq. unfold allocated, runs.
      destruct (request c h) as [[|] h']; [|discriminate]. intros _ _. exists c. auto.
  - intros r h' (cap & -> & Hc). cbn [negb buf_cap buf_data]. fold (size (buf_data b)). destruct (Z.gtb_spec (size (buf_data b) + size src) cap) as [Hg|_]; [lia|].
    apply runs_value. eexists. split; [reflexivity|]. split; [reflexivity|]. cbn [buf_data buf_cap].
    fold (size (buf_data b ++ src)). rewrite size_app. lia.
Qed.

Lemma appends_nil b : buffer_ok b -> appends (H := H) (ret (true, b)) b [].
Proof. intros Hb h. apply runs_value. exists b. rewrite app_nil_r. auto. Qed.

(** One write after another, the second only if the first succeeds or in any case. *)
Lemma appends_seq (m : M H (bool * EskbBuffer)) (k : bool * EskbBuffer -> M H (bool * EskbBuffer)) b bs bs' :
  appends m b bs -> (forall b', buf_data b' = buf_data b ++ bs -> buffer_ok b' -> appends (k (true, b')) b' bs') -> appends (bind m k) b (bs ++ bs').
Proof.
  intros Hm Hk h. eapply runs_call; [exact (Hm h)|]. intros r h' (b' & -> & Ed & Hb). refine (runs_mono _ _ _ _ _ (Hk b' Ed Hb h')).
  intros r h2 (b2 & -> & Ed2 & Hb2). exists b2. rewrite Ed2, Ed, app_assoc. auto.
Qed.

Lemma eskb_buf_write_leb128_appends b v : buffer_ok b -> 0 <= v < B64 -> size (buf_data b ++ leb128 v) <= 2 ^ 40 -> appends (H := H) (eskb_buf_write_leb128 b v) b (leb128 v).
Proof.
  intros Hb Hv Hs h. unfold eskb_buf_write_leb128. rewrite eskb_write_leb128_some by exact Hv. cbn [deref].
  apply (runs_step _ _ _ (leb128 v) h); [reflexivity|]. exact (eskb_buf_write_appends b _ Hb Hs h).
Qed.

Definition string_bytes (s : list Z) : list Z := leb128 (size s) ++ s.

Lemma eskb_buf_write_string_appends b s : buffer_ok b -> size (buf_data b ++ string_bytes s) <= 2 ^ 40 -> appends (H := H) (eskb_buf_write_string b s) b (string_bytes s).
Proof.
  intros Hb Hs. unfold string_bytes in *. rewrite !size_app in Hs. pose proof (size_nonneg s). pose proof (size_nonneg (buf_data b)). pose proof (size_nonneg (leb128 (size s))).
  unfold eskb_buf_write_string. fold (size s). eapply appends_seq.
  - apply eskb_buf_write_leb128_appends; [exact Hb|lia|rewrite size_app; lia].
  - intros b' Ed Hb'. apply eskb_buf_write_appends; [exact Hb'|]. rewrite Ed, !size_app. lia.
Qed.

Definition instr_bytes (base : Z) (i : EskbInstr) : list Z :=
  op i :: leb128 (zigzag (if negb (base =? 0) && eskb_operand_is_code_target (op i) then operand i - base else operand i)).

Definition code_bytes (base : Z) (code : list EskbInstr) : list Z := flat_map (instr_bytes base) code.

(** What the writer demands of the instructions of a function: jumps stay inside. *)
Definition instr_ok (base len : Z) (i : EskbInstr) : Prop :=
  0 <= op i < 256 /\ - 2 ^ 31 <= operand i < 2 ^ 31 /\ (eskb_operand_is_code_target (op i) = true -> base <= operand i < base + len).

Lemma write_code_appends b base len code : buffer_ok b -> 0 <= base < 2 ^ 31 -> Forall (instr_ok base len) code -> size (buf_data b ++ code_bytes base code) <= 2 ^ 40 ->
  appends (H := H) (write_code b base len code) b (code_bytes base code).
Proof.
  intros Hb Hbase Hc. revert b Hb. induction Hc as [|i code (Hop & Hopd & Ht) _ IH]; intros b Hb Hs; [exact (appends_nil b Hb)|].
  cbn [write_code code_bytes flat_map]. fold (code_bytes base code). cbn [code_bytes flat_map] in Hs. fold (code_bytes base code) in Hs.
  set (reloc := negb (base =? 0) && eskb_operand_is_code_target (op i)) in *.
  assert (Hx : - 2 ^ 31 <= (if reloc then operand i - base else operand i) < 2 ^ 31).
  { subst reloc. destruct (Z.eqb_spec base 0); [exact Hopd|]. cbn [negb andb]. destruct (eskb_operand_is_code_target (op i)); [|exact Hopd]. specialize (Ht eq_refl). lia. }
  assert (Er : reloc && ((operand i <? base) || (operand i >=? base + len)) = false).
  { subst reloc. destruct (eskb_operand_is_code_target (op i)); [|rewrite andb_false_r; reflexivity]. specialize (Ht eq_refl).
    rewrite Z.geb_leb. destruct (Z.ltb_spec (operand i) base), (Z.leb_spec (base + len) (operand i)); lia. }
  rewrite Er. unfold instr_bytes in *. fold reloc in Hs |- *. cbn [app] in Hs |- *. set (x := if reloc then operand i - base else operand i) in *.
  pose proof (zigzag_range x Hx). rewrite !size_app in Hs. rewrite size_cons, size_app in Hs.
  pose proof (size_nonneg (buf_data b)). pose proof (size_nonneg (leb128 (zigzag x))). pose proof (size_nonneg (code_bytes base code)).
  change (op i :: leb128 (zigzag x) ++ code_bytes base code) with ((op i :: leb128 (zigzag x)) ++ code_bytes base code).
  eapply appends_seq.
  - unfold eskb_write_instruction. change (op i :: leb128 (zigzag x)) with ([op i] ++ leb128 (zigzag x)). eapply appends_seq.
    + apply eskb_buf_write_appends; [exact Hb|rewrite size_app, size_cons; change (size []) with 0; lia].
    + intros b' Ed Hb'. apply eskb_buf_write_leb128_appends; [exact Hb'|lia|]. rewrite Ed, !size_app, size_cons. change (size []) with 0. lia.
  - intros b' Ed Hb'. apply IH; [exact Hb'|]. rewrite Ed, !size_app, size_cons. lia.
Qed.

(** *** Functions *)

Definition function_bytes (fn : EskbFunctionDef) : list Z :=
  match fn_name fn, fn_code fn with
  | Some name, Some code =>
    string_bytes name ++ [fn_n_params fn] ++ leb128 (fn_n_locals fn) ++ [fn_n_upvalues fn] ++ leb128 (size (map op code)) ++ code_bytes (code_base fn) code
  | _, _ => []
  end.

Definition function_ok (fn : EskbFunctionDef) : Prop :=
  match fn_name fn, fn_code fn with
  | Some name, Some code =>
    0 < size name <= 255 /\ Forall (fun c => 0 < c < 256) name /\ 0 <= fn_n_params fn < 256 /\ 0 <= fn_n_locals fn <= INT_MAX /\ 0 <= fn_n_upvalues fn < 256 /\
    0 <= code_base fn < 2 ^ 31 /\ (0 < length code)%nat /\ Forall (instr_ok (code_base fn) (Z.of_nat (length code))) code
  | _, _ => False
  end.

Ltac sizes := repeat rewrite ?size_app, ?size_cons in *; change (size []) with 0 in *;
  repeat match goal with |- context [size ?x] => lazymatch goal with _ : 0 <= size x |- _ => fail | _ => pose proof (size_nonneg x) end
         | _ : context [size ?x] |- _ => lazymatch goal with _ : 0 <= size x |- _ => fail | _ => pose proof (size_nonneg x) end end.

Lemma code_bytes_long base code : size (map op code) <= size (code_bytes base code).
Proof.
  induction code as [|i code IH]; [reflexivity|]. cbn [map code_bytes flat_map]. fold (code_bytes base code). unfold instr_bytes.
  rewrite size_cons, size_app, size_cons. pose proof (size_nonneg (leb128 (zigzag (if negb (base =? 0) && eskb_operand_is_code_target (op i) then operand i - base else operand i)))). lia.
Qed.

Lemma eskb_write_function_appends b fn : buffer_ok b -> function_ok fn -> size (buf_data b ++ function_bytes fn) <= 2 ^ 40 ->
  appends (H := H) (eskb_write_function b fn) b (function_bytes fn).
Proof.
  intros Hb Hf Hs. unfold eskb_write_function, function_ok, function_bytes in *. destruct (fn_name fn) as [name|]; [|contradiction]. destruct (fn_code fn) as [code|]; [|contradiction].
  destruct Hf as (Hname & _ & Hnp & Hnl & Hnu & Hbase & Hlen & Hcode). unfold INT_MAX in *.
  destruct name as [|c0 name']; [cbn in Hname; lia|]. set (name := c0 :: name') in *. destruct code as [|i0 code']; [cbn in Hlen; lia|]. set (code := i0 :: code') in *.
  fold (size name). destruct (Z.gtb_spec (size name) 255) as [Hg|_]; [lia|].
  assert (El : Z.of_nat (length code) = size (map op code)) by (unfold size; rewrite length_map; reflexivity). rewrite El in *.
  eapply appends_seq; [apply eskb_buf_write_string_appends; [exact Hb|sizes; lia]|]. intros b1 E1 Hb1. cbn [negb].
  eapply appends_seq; [apply eskb_buf_write_appends; [exact Hb1|rewrite E1; sizes; lia]|]. intros b2 E2 Hb2. cbn [negb].
  eapply appends_seq; [apply eskb_buf_write_leb128_appends; [exact Hb2|lia|rewrite E2, E1; sizes; lia]|]. intros b3 E3 Hb3. cbn [negb].
  eapply appends_seq; [apply eskb_buf_write_appends; [exact Hb3|rewrite E3, E2, E1; sizes; lia]|]. intros b4 E4 Hb4. cbn [negb].
  eapply appends_seq; [apply eskb_buf_write_leb128_appends; [exact Hb4|pose proof (code_bytes_long (code_base fn) code); sizes; lia|rewrite E4, E3, E2, E1; sizes; lia]|]. intros b5 E5 Hb5. cbn [negb].
  apply write_code_appends; [exact Hb5|exact Hbase|exact Hcode|rewrite E5, E4, E3, E2, E1; sizes; lia].
Qed.

Definition functions_bytes (fns : list EskbFunctionDef) : list Z := flat_map function_bytes fns.

Lemma write_functions_appends b fns : buffer_ok b -> Forall function_ok fns -> size (buf_data b ++ functions_bytes fns) <= 2 ^ 40 ->
  appends (H := H) (write_functions b fns) b (functions_bytes fns).
Proof.
  intros Hb Hf. revert b Hb. induction Hf as [|fn fns Hfn _ IH]; intros b Hb Hs; [exact (appends_nil b Hb)|].
  cbn [write_functions functions_bytes flat_map] in *. fold (functions_bytes fns) in *.
  eapply appends_seq; [apply eskb_write_function_appends; [exact Hb|exact Hfn|sizes; lia]|]. intros b1 E1 Hb1. apply IH; [exact Hb1|rewrite E1; sizes; lia].
Qed.

(** *** Constants and descriptors: results that are not looked at *)

Definition extends (m : M H EskbBuffer) (b : EskbBuffer) (bs : list Z) : Prop :=
  forall h, runs m h (fun b' _ => buf_data b' = buf_data b ++ bs /\ buffer_ok b').

Lemma extends_seq (m : M H (bool * EskbBuffer)) (k : bool * EskbBuffer -> M H EskbBuffer) b bs bs' :
  appends m b bs -> (forall b', buf_data b' = buf_data b ++ bs -> buffer_ok b' -> extends (k (true, b')) b' bs') -> extends (bind m k) b (bs ++ bs').
Proof.
  intros Hm Hk h. eapply runs_call; [exact (Hm h)|]. intros r h' (b' & -> & Ed & Hb). refine (runs_mono _ _ _ _ _ (Hk b' Ed Hb h')).
  intros b2 h2 (Ed2 & Hb2). rewrite Ed2, Ed, app_assoc. auto.
Qed.

Lemma extends_ret b : buffer_ok b -> extends (ret b) b [].
Proof. intros Hb h. apply runs_value. rewrite app_nil_r. auto. Qed.

Definition const_payload (c : EskbConst) : list Z :=
  if const_type c =? ESKB_CONST_NIL then []
  else if const_type c =? ESKB_CONST_F64 then le_bytes 8 (as_f c)
  else if const_type c =? ESKB_CONST_BOOL then [if as_b c =? 0 then 0 else 1]
  else if const_type c =? ESKB_CONST_STRING then string_bytes (firstn (Z.to_nat (str_len c)) (str c))
  else le_bytes 8 (u64 (as_i c)).

Definition const_bytes (c : EskbConst) : list Z := const_type c :: const_payload c.

Definition const_ok (c : EskbConst) : Prop :=
  0 <= const_type c < 256 /\ int64_range (as_i c) /\ 0 <= as_f c < B64 /\ 0 <= str_len c <= size (str c) /\ size (str c) = 256 /\ bytes_ok (str c).

Lemma write_constant_extends b c : buffer_ok b -> const_ok c -> size (buf_data b ++ const_bytes c) <= 2 ^ 40 -> extends (write_constant b c) b (const_bytes c).
Proof.
  intros Hb (_ & _ & _ & Hl & _ & _) Hs. unfold write_constant, const_bytes, const_payload in *. change (const_type c :: ?l) with ([const_type c] ++ l) in *.
  eapply extends_seq; [apply eskb_buf_write_appends; [exact Hb|sizes; lia]|]. intros b1 E1 Hb1. destruct (const_type c =? ESKB_CONST_NIL); [exact (extends_ret b1 Hb1)|].
  match goal with |- extends _ _ ?bs => rewrite <- (app_nil_r bs) end.
  eapply extends_seq; [|intros b2 _ Hb2; exact (extends_ret b2 Hb2)].
  destruct (const_type c =? ESKB_CONST_F64); [apply eskb_buf_write_appends; [exact Hb1|rewrite E1; sizes; lia]|].
  destruct (const_type c =? ESKB_CONST_BOOL); [apply eskb_buf_write_appends; [exact Hb1|rewrite E1; sizes; lia]|].
  destruct (const_type c =? ESKB_CONST_STRING); [|apply eskb_buf_write_appends; [exact Hb1|rewrite E1; sizes; lia]].
  fold (size (str c)). destruct (Z.leb_spec 0 (str_len c)); [|lia]. destruct (Z.leb_spec (str_len c) (size (str c))); [|lia].
  apply eskb_buf_write_string_appends; [exact Hb1|rewrite E1; sizes; lia].
Qed.

Definition constants_bytes (cs : list EskbConst) : list Z := flat_map const_bytes cs.

Lemma write_constants_extends b cs : buffer_ok b -> Forall const_ok cs -> size (buf_data b ++ constants_bytes cs) <= 2 ^ 40 -> extends (write_constants b cs) b (constants_bytes cs).
Proof.
  intros Hb Hc. revert b Hb. induction Hc as [|c cs Hc _ IH]; intros b Hb Hs; [exact (extends_ret b Hb)|].
  cbn [write_constants constants_bytes flat_map] in *. fold (constants_bytes cs) in *. intros h.
  eapply runs_call; [apply (write_constant_extends b c Hb Hc); sizes; lia|]. intros b1 h1 (E1 & Hb1).
  refine (runs_mono _ _ _ _ _ (IH b1 Hb1 _ h1)); [|rewrite E1; sizes; lia]. intros b2 _ (E2 & Hb2). rewrite E2, E1, app_assoc. auto.
Qed.

Lemma constants_bytes_long cs : size (map const_type cs) <= size (constants_bytes cs).
Proof.
  induction cs as [|c cs IH]; [reflexivity|]. cbn [map constants_bytes flat_map]. fold (constants_bytes cs). unfold const_bytes. sizes. lia.
Qed.

Lemma functions_bytes_long fns : Forall function_ok fns -> Z.of_nat (length fns) <= size (functions_bytes fns).
Proof.
  induction 1 as [|fn fns Hf _ IH]; [reflexivity|]. cbn [length functions_bytes flat_map]. fold (functions_bytes fns). unfold function_ok, function_bytes in *.
  destruct (fn_name fn); [|contradiction]. destruct (fn_code fn); [|contradiction]. sizes. lia.
Qed.

Definition descriptor_bytes (id : Z) (section : list Z) : list Z := id :: leb128 (size section).

Lemma write_descriptor_extends b id section : buffer_ok b -> size (buf_data b ++ descriptor_bytes id (buf_data section)) <= 2 ^ 40 -> size (buf_data section) < 2 ^ 40 ->
  extends (write_descriptor b id section) b (descriptor_bytes id (buf_data section)).
Proof.
  intros Hb Hs Hl. unfold write_descriptor, descriptor_bytes, buf_len in *. fold (size (buf_data section)). change (id :: ?l) with ([id] ++ l) in *.
  eapply extends_seq; [apply eskb_buf_write_appends; [exact Hb|sizes; lia]|]. intros b1 E1 Hb1. rewrite <- (app_nil_r (leb128 _)).
  eapply extends_seq; [apply eskb_buf_write_leb128_appends; [exact Hb1|sizes; lia|rewrite E1; sizes; lia]|]. intros b2 _ Hb2. exact (extends_ret b2 Hb2).
Qed.

(** ** The file *)

Definition const_section (cs : list EskbConst) : list Z := leb128 (size (map const_type cs)) ++ constants_bytes cs.

Definition code_section (fns : list EskbFunctionDef) : list Z := leb128 (Z.of_nat (length fns)) ++ functions_bytes fns.

Definition meta_section (source_file : option (list Z)) : list Z := match source_file with Some s => string_bytes s | None => [] end.

Definition table_bytes (cs : list EskbConst) (fns : list EskbFunctionDef) (source_file : option (list Z)) : list Z :=
  leb128 (match source_file with Some _ => 3 | None => 2 end) ++ descriptor_bytes ESKB_SECTION_CONST (const_section cs) ++
  descriptor_bytes ESKB_SECTION_CODE (code_section fns) ++
  match source_file with Some _ => descriptor_bytes ESKB_SECTION_META (meta_section source_file) | None => [] end.

Definition payload_bytes (cs : list EskbConst) (fns : list EskbFunctionDef) (source_file : option (list Z)) : list Z :=
  table_bytes cs fns source_file ++ const_section cs ++ code_section fns ++ meta_section source_file.

Definition file_bytes (cs : list EskbConst) (fns : list EskbFunctionDef) (source_file : option (list Z)) : list Z :=
  header (eskb_crc32 (payload_bytes cs fns source_file)) ++ payload_bytes cs fns source_file.

Lemma init_ok : buffer_ok eskb_buf_init.
Proof. unfold buffer_ok, buf_len. cbn. lia. Qed.

(** The content of the file that the writer leaves. *)
Lemma eskb_write_file_runs cs fns source_file h :
  Forall const_ok cs -> Forall function_ok fns -> fns <> [] -> size (payload_bytes cs fns source_file) <= 2 ^ 40 ->
  runs (eskb_write_file_with_functions (Some cs) fns source_file) h (fun o _ => o = Some (file_bytes cs fns source_file)).
Proof.
  intros Hc Hf Hn Hs. unfold eskb_write_file_with_functions, file_bytes. destruct fns as [|fn0 fns0]; [congruence|]. set (fns := fn0 :: fns0) in *.
  assert (Hcs : size (const_section cs) <= 2 ^ 40 /\ size (code_section fns) <= 2 ^ 40 /\ size (meta_section source_file) <= 2 ^ 40).
  { unfold payload_bytes in Hs. sizes. lia. }
  destruct Hcs as (Hcs & Hfs & Hms). assert (El : Z.of_nat (length cs) = size (map const_type cs)) by (unfold size; rewrite length_map; reflexivity). rewrite El.
  assert (Ec : size (map const_type cs) < B64 /\ Z.of_nat (length fns) < B64).
  { split; [pose proof (constants_bytes_long cs)|pose proof (functions_bytes_long fns Hf)]; unfold const_section, code_section in *; sizes; lia. }
  eapply runs_call; [apply (eskb_buf_write_leb128_appends eskb_buf_init); [exact init_ok|sizes; lia|unfold const_section in Hcs; cbn [buf_data eskb_buf_init]; sizes; lia]|].
  intros r h1 (c1 & -> & D1 & O1). eapply runs_call; [apply (write_constants_extends c1 cs O1 Hc); rewrite D1; exact Hcs|].
  intros cbuf h2 (D2 & O2). assert (Dc : buf_data cbuf = const_section cs) by (rewrite D2, D1; reflexivity). clear c1 D1 O1 D2.
  eapply runs_call; [apply (eskb_buf_write_leb128_appends eskb_buf_init); [exact init_ok|lia|unfold code_section in Hfs; cbn [buf_data eskb_buf_init]; sizes; lia]|].
  intros r h3 (c1 & -> & D1 & O1). cbn [negb]. eapply runs_call; [apply (write_functions_appends c1 fns O1 Hf); rewrite D1; exact Hfs|].
  intros r h4 (fbuf & -> & D2 & O3). cbn [negb]. assert (Df : buf_data fbuf = code_section fns) by (rewrite D2, D1; reflexivity). clear c1 D1 O1 D2.
  eapply (runs_call _ _ _ (fun r _ => exists b', r = (true, b') /\ buf_data b' = meta_section source_file /\ buffer_ok b')).
  { destruct source_file as [s|]; [apply (eskb_buf_write_string_appends eskb_buf_init s init_ok Hms)|]. apply runs_value. exists eskb_buf_init. auto using init_ok. }
  intros r h5 (mbuf & -> & Dm & Om). unfold payload_bytes, table_bytes in Hs |- *. rewrite <- Dc, <- Df, <- Dm in Hs |- *. rewrite <- Dc in Hcs. rewrite <- Df in Hfs. rewrite <- Dm in Hms.
  assert (Hlt : size (buf_data cbuf) < 2 ^ 40 /\ size (buf_data fbuf) < 2 ^ 40 /\ size (buf_data mbuf) < 2 ^ 40).
  { pose proof (leb128_length (match source_file with Some _ => 3 | None => 2 end) ltac:(destruct source_file; lia)). sizes; lia. }
  destruct Hlt as (L1 & L2 & L3). set (nsec := match source_file with Some _ => 3 | None => 2 end) in *.
  eapply runs_call; [apply (eskb_buf_write_leb128_appends eskb_buf_init nsec init_ok); [subst nsec; destruct source_file; lia|cbn [buf_data eskb_buf_init]; sizes; lia]|].
  intros r h6 (p1 & -> & D1 & O1). cbn [buf_data eskb_buf_init app] in D1.
  eapply runs_call; [apply (write_descriptor_extends p1 ESKB_SECTION_CONST cbuf O1); [rewrite D1; sizes; lia|exact L1]|].
  intros p2 h7 (D2' & O2'). rewrite D1 in D2'.
  eapply runs_call; [apply (write_descriptor_extends p2 ESKB_SECTION_CODE fbuf O2'); [rewrite D2'; sizes; lia|exact L2]|].
  intros p3 h8 (D3 & O4). rewrite D2' in D3.
  eapply (runs_call _ _ _ (fun b _ => buf_data b = buf_data p3 ++ (match source_file with Some _ => descriptor_bytes ESKB_SECTION_META (buf_data mbuf) | None => [] end) /\ buffer_ok b)).
  { destruct source_file as [s|]; [|exact (extends_ret p3 O4 h8)]. apply (write_descriptor_extends p3 ESKB_SECTION_META mbuf O4); [rewrite D3; sizes; lia|exact L3]. }
  intros p4 h9 (D4 & O5). rewrite D3 in D4. set (dm := match source_file with Some _ => descriptor_bytes _ _ | None => [] end) in *.
  eapply runs_call; [apply (eskb_buf_write_appends p4 _ O5); rewrite D4; sizes; lia|]. intros r h10 (p5 & -> & D5 & O6). rewrite D4 in D5.
  eapply runs_call; [apply (eskb_buf_write_appends p5 _ O6); rewrite D5; sizes; lia|]. intros r h11 (p6 & -> & D6 & O7). rewrite D5 in D6.
  eapply (runs_call _ _ _ (fun r _ => exists b', r = (true, b') /\ buf_data b' = buf_data p6 ++ buf_data mbuf)).
  { destruct source_file as [s|].
    - eapply runs_mono; [|apply (eskb_buf_write_appends p6 _ O7); rewrite D6; sizes; lia]. intros r h' (b' & -> & E & _). eauto.
    - apply runs_value. exists p6. rewrite Dm. cbn [meta_section]. rewrite app_nil_r. auto. }
  intros r h12 (p7 & -> & D7). rewrite D6 in D7. apply runs_value.
  assert (E : buf_data p7 = (leb128 nsec ++ descriptor_bytes ESKB_SECTION_CONST (buf_data cbuf) ++ descriptor_bytes ESKB_SECTION_CODE (buf_data fbuf) ++ dm) ++
    buf_data cbuf ++ buf_data fbuf ++ buf_data mbuf) by (rewrite D7, <- !app_assoc; reflexivity).
  rewrite E. reflexivity.
Qed.

End Writing.
