(* ===== verification/EskbRead.v ===== *)
(** * Bytecode files: the reader takes what the writer wrote *)

From Stdlib Require Import ZArith List Lia Bool.
From S2P Require Import Prelude Effects Eskb EskbSpec.
Import ListNotations.
Open Scope Z_scope.
Open Scope effect_scope.

(** ** What is loaded *)

Definition load_const (c : EskbConst) : loaded_const :=
  let t := const_type c in
  if t =? ESKB_CONST_NIL then mkLoaded t 0 0 None
  else if t =? ESKB_CONST_F64 then mkLoaded t 0 (as_f c) None
  else if t =? ESKB_CONST_BOOL then mkLoaded t (if as_b c =? 0 then 0 else 1) 0 None
  else if t =? ESKB_CONST_STRING then mkLoaded t (str_len c) 0 (Some (firstn (Z.to_nat (str_len c)) (str c)))
  else mkLoaded t (as_i c) 0 None.

(** Jumps are relative to the code of the function, which is loaded at [offset]. *)
Definition load_instr (base offset : Z) (i : EskbInstr) : Z * Z :=
  (op i, if eskb_operand_is_code_target (op i) then operand i - base + offset else operand i).

Definition the_name (fn : EskbFunctionDef) : list Z := match fn_name fn with Some n => n | None => [] end.
Definition the_code (fn : EskbFunctionDef) : list EskbInstr := match fn_code fn with Some c => c | None => [] end.

Definition load_function (offset : Z) (fn : EskbFunctionDef) : EskbFunction :=
  mkFunction (the_name fn) (fn_n_params fn) (fn_n_locals fn) (fn_n_upvalues fn) offset (Z.of_nat (length (the_code fn))).

(** The functions one after another. *)
Fixpoint load_functions (offset : Z) (fns : list EskbFunctionDef) : list EskbFunction * list (Z * Z) :=
  match fns with
  | [] => ([], [])
  | fn :: fns' =>
    let '(fs, code) := load_functions (offset + Z.of_nat (length (the_code fn))) fns' in
    (load_function offset fn :: fs, map (load_instr (code_base fn) offset) (the_code fn) ++ code)
  end.

Definition load_module (cs : list EskbConst) (fns : list EskbFunctionDef) (source_file : option (list Z)) : EskbModule :=
  mkModule (snd (load_functions 0 fns)) (Some (map load_const cs)) (Some (fst (load_functions 0 fns)))
    (match source_file with Some s => s | None => [] end) (match source_file with Some _ => true | None => false end).

(** ** Reading *)

Section Reading.
  Context {H : Type} {HA : Allocator H}.

Abbreviation R A := (M (EskbReader H) (option A)).

(** From the start of the bytes, wherever they are, the reader gets to their end with the
    value. *)
Definition reads {A} (m : R A) (bs : list Z) (v : A) : Prop :=
  forall h pre post, size (pre ++ bs ++ post) < 2 ^ 31 ->
  runs m (mkReader h (pre ++ bs ++ post) (size pre)) (fun o r => o = Some v /\ exists h', r = mkReader h' (pre ++ bs ++ post) (size (pre ++ bs))).

Lemma reads_seq {A B} (m : R A) (k : A -> R B) bs bs' v w :
  reads m bs v -> reads (k v) bs' w -> reads (check! x := m in k x) (bs ++ bs') w.
Proof.
  intros Hm Hk h pre post Hs. rewrite <- app_assoc in *. eapply runs_call; [exact (Hm h pre (bs' ++ post) Hs)|].
  intros o r (-> & h' & ->). rewrite (app_assoc pre bs (bs' ++ post)) in Hs. eapply runs_mono; [|rewrite (app_assoc pre bs); exact (Hk h' (pre ++ bs) post Hs)].
  intros o r (-> & h2 & ->). split; [reflexivity|]. exists h2. rewrite <- !app_assoc. reflexivity.
Qed.

(** A step that takes no bytes. *)
Lemma reads_step {A B} (m : R A) (k : A -> R B) bs v w : reads m [] v -> reads (k v) bs w -> reads (check! x := m in k x) bs w.
Proof. exact (reads_seq m k [] bs v w). Qed.

Lemma reads_ret {A} (v : A) : reads (ret (Some v)) [] v.
Proof. intros h pre post _. apply runs_value. split; [reflexivity|]. exists h. rewrite app_nil_r. reflexivity. Qed.

Lemma reads_value {A B} (m : R A) (f : A -> B) bs v : reads m bs v -> reads (check! x := m in ret (Some (f x))) bs (f v).
Proof. intros Hm. rewrite <- (app_nil_r bs). exact (reads_seq m _ bs [] v _ Hm (reads_ret _)). Qed.

Lemma fail_if_reads c : c = false -> reads (fail_if c) [] tt.
Proof. intros ->. apply reads_ret. Qed.

Lemma request_reads n : reads (request_or_fail n) [] tt.
Proof.
  intros h pre post _. unfold runs, request_or_fail. cbn [rd_heap rd_data rd_pos]. destruct (request n h) as [[|] h']; [|discriminate].
  intros _. split; [reflexivity|]. exists h'. rewrite app_nil_r. reflexivity.
Qed.

Lemma skipn_size pre (l : list Z) : skipn (Z.to_nat (size pre)) (pre ++ l) = l.
Proof. unfold size. rewrite Nat2Z.id, skipn_app, skipn_all, Nat.sub_diag. reflexivity. Qed.

Lemma firstn_size (a l : list Z) : firstn (Z.to_nat (size a)) (a ++ l) = a.
Proof. unfold size. rewrite Nat2Z.id, firstn_app, firstn_all, Nat.sub_diag, firstn_O, app_nil_r. reflexivity. Qed.

Lemma advance_to h pre bs post : advance (H := H) (size bs) (mkReader h (pre ++ bs ++ post) (size pre)) = mkReader h (pre ++ bs ++ post) (size (pre ++ bs)).
Proof. unfold advance. cbn [rd_heap rd_data rd_pos]. rewrite size_app. reflexivity. Qed.

Lemma read_u8_reads b : reads eskb_read_u8 [b] b.
Proof.
  intros h pre post Hs. unfold runs, eskb_read_u8, rd_len. cbn [rd_data rd_pos]. fold (size (pre ++ [b] ++ post)).
  pose proof (size_nonneg post). rewrite Z.geb_leb. destruct (Z.leb_spec (size (pre ++ [b] ++ post)) (size pre)) as [Hl|_]; [rewrite !size_app in Hl; change (size [b]) with 1 in Hl; lia|].
  unfold size at 1. rewrite Nat2Z.id, nth_error_app2, Nat.sub_diag by lia. cbn [app nth_error]. intros _. split; [reflexivity|]. exists h. exact (advance_to h pre [b] post).
Qed.

Lemma read_bytes_reads bs : reads (eskb_read_bytes (size bs)) bs bs.
Proof.
  intros h pre post Hs. unfold runs, eskb_read_bytes, rd_len. cbn [rd_data rd_pos]. fold (size (pre ++ bs ++ post)). pose proof (size_nonneg post). pose proof (size_nonneg pre). pose proof (size_nonneg bs).
  assert (El : size (pre ++ bs ++ post) = size pre + (size bs + size post)) by (rewrite !size_app; reflexivity). rewrite u64_small by lia.
  destruct (Z.gtb_spec (size pre + size bs) (size (pre ++ bs ++ post))); [lia|]. intros _. rewrite skipn_size, firstn_size. split; [reflexivity|].
  exists h. apply advance_to.
Qed.

Lemma read_leb_reads v : 0 <= v < B64 -> reads eskb_read_leb (leb128 v) v.
Proof.
  intros Hv h pre post Hs. unfold runs, eskb_read_leb, rd_len. cbn [rd_data rd_pos]. fold (size (pre ++ leb128 v ++ post)). assert (El : size (pre ++ leb128 v ++ post) = size pre + (size (leb128 v) + size post)) by (rewrite !size_app; reflexivity).
  pose proof (size_nonneg post). pose proof (size_nonneg pre). pose proof (leb128_length v Hv). rewrite Z.geb_leb.
  destruct (Z.leb_spec (size (pre ++ leb128 v ++ post)) (size pre)); [lia|]. rewrite skipn_size, eskb_read_leb128_written by (rewrite ?size_app; lia).
  intros _. split; [reflexivity|]. exists h. apply advance_to.
Qed.

Lemma read_word_reads n v (Hn : n = 8%nat) : reads (eskb_read_bytes 8) (le_bytes n v) (le_bytes n v).
Proof. subst n. replace 8 with (size (le_bytes 8 v)) at 1 by (unfold size; rewrite le_bytes_length; reflexivity). apply read_bytes_reads. Qed.

Lemma read_i64_reads v : int64_range v -> reads eskb_read_i64 (le_bytes 8 (u64 v)) v.
Proof.
  intros Hv. unfold eskb_read_i64. replace v with (s64 (le_word (le_bytes 8 (u64 v)))) at 2.
  - exact (reads_value _ (fun bs => s64 (le_word bs)) _ _ (read_word_reads 8 (u64 v) eq_refl)).
  - rewrite le_word_bytes. change (256 ^ Z.of_nat 8) with (2 ^ 64). unfold u64. rewrite Z.mod_mod by lia. apply s64_of_u64. unfold int64_range in Hv. lia.
Qed.

Lemma read_f64_reads v : 0 <= v < B64 -> reads eskb_read_f64 (le_bytes 8 v) v.
Proof.
  intros Hv. unfold eskb_read_f64. replace v with (le_word (le_bytes 8 v)) at 2.
  - exact (reads_value _ le_word _ _ (read_word_reads 8 v eq_refl)).
  - rewrite le_word_bytes. apply Z.mod_small. change (256 ^ Z.of_nat 8) with B64. exact Hv.
Qed.

Lemma read_string_reads max_len s : size s < max_len -> size s < 2 ^ 31 -> reads (eskb_read_string max_len) (string_bytes s) s.
Proof.
  intros Hm Hs. pose proof (size_nonneg s). unfold eskb_read_string, string_bytes. eapply reads_seq; [apply read_leb_reads; lia|].
  eapply reads_step; [apply fail_if_reads; lia|]. apply read_bytes_reads.
Qed.

Lemma read_string_alloc_reads s : size s < 2 ^ 31 -> reads eskb_read_string_alloc (string_bytes s) s.
Proof.
  intros Hs. pose proof (size_nonneg s). unfold eskb_read_string_alloc, string_bytes, SIZE_MAX. eapply reads_seq; [apply read_leb_reads; lia|].
  eapply reads_step; [apply fail_if_reads; lia|]. eapply reads_step; [apply request_reads|]. apply read_bytes_reads.
Qed.

Lemma read_instruction_reads opc x : - 2 ^ 31 <= x < 2 ^ 31 -> reads eskb_read_instruction (opc :: leb128 (zigzag x)) (opc, x).
Proof.
  intros Hx. pose proof (zigzag_range x Hx). pose proof (unzigzag_zigzag x Hx) as Eu. unfold eskb_read_instruction, INT_MAX.
  change (opc :: leb128 (zigzag x)) with ([opc] ++ leb128 (zigzag x)). eapply reads_seq; [apply read_u8_reads|]. rewrite <- (app_nil_r (leb128 (zigzag x))).
  eapply reads_seq; [apply read_leb_reads; lia|]. eapply reads_step; [apply fail_if_reads; lia|]. rewrite Eu.
  eapply reads_step; [apply fail_if_reads|apply reads_ret]. lia.
Qed.

Lemma read_array_reads {A B} (body : R A) (enc : B -> list Z) (val : B -> A) (l : list B) :
  (forall x, In x l -> reads body (enc x) (val x)) -> reads (read_array (length l) body) (flat_map enc l) (map val l).
Proof.
  induction l as [|x l IH]; intros Hb; cbn [length read_array flat_map map]; [apply reads_ret|].
  eapply reads_seq; [apply Hb; left; reflexivity|]. apply (reads_value _ (cons (val x))), IH. intros y Hy. apply Hb. right. exact Hy.
Qed.

(** *** Constants and functions *)

Lemma read_constant_reads c : const_ok c -> reads read_constant (const_bytes c) (load_const c).
Proof.
  intros (_ & Hi & Hf & Hl & Hs & _). unfold read_constant, const_bytes, const_payload, load_const. change (const_type c :: ?l) with ([const_type c] ++ l).
  eapply reads_seq; [apply read_u8_reads|]. destruct (const_type c =? ESKB_CONST_NIL); [apply reads_ret|].
  destruct (const_type c =? ESKB_CONST_F64); [exact (reads_value _ (fun f => mkLoaded (const_type c) 0 f None) _ _ (read_f64_reads _ Hf))|].
  destruct (const_type c =? ESKB_CONST_BOOL); [exact (reads_value _ (fun b => mkLoaded (const_type c) b 0 None) _ _ (read_u8_reads _))|].
  destruct (const_type c =? ESKB_CONST_STRING); [|exact (reads_value _ (fun i => mkLoaded (const_type c) i 0 None) _ _ (read_i64_reads _ Hi))].
  set (s := firstn (Z.to_nat (str_len c)) (str c)). assert (Es : size s = str_len c).
  { subst s. unfold size in *. rewrite length_firstn. lia. }
  replace (str_len c) with (s64 (Z.of_nat (length s))).
  - apply (reads_value _ (fun s => mkLoaded (const_type c) (s64 (Z.of_nat (length s))) 0 (Some s))). apply read_string_alloc_reads. lia.
  - fold (size s). rewrite Es. apply s64_small. unfold int64_range. lia.
Qed.

Lemma read_code_reads base offset cl i : instr_ok base cl i -> 0 <= base < 2 ^ 31 -> 0 <= cl < 2 ^ 31 -> reads (read_code offset cl) (instr_bytes base i) (load_instr base offset i).
Proof.
  intros (Hop & Hx & Ht) Hbase Hcl. unfold read_code, instr_bytes, load_instr. set (x := if negb (base =? 0) && eskb_operand_is_code_target (op i) then operand i - base else operand i).
  assert (Hr : - 2 ^ 31 <= x < 2 ^ 31 /\ (eskb_operand_is_code_target (op i) = true -> x = operand i - base /\ 0 <= x < cl) /\ (eskb_operand_is_code_target (op i) = false -> x = operand i)).
  { subst x. destruct (eskb_operand_is_code_target (op i)); [|rewrite andb_false_r; split; [exact Hx|split; [discriminate|reflexivity]]].
    specialize (Ht eq_refl). destruct (Z.eqb_spec base 0); cbn [negb andb]; repeat split; try discriminate; lia. }
  destruct Hr as (Hr & Hj & Hn). rewrite <- (app_nil_r (op i :: leb128 (zigzag x))). eapply reads_seq; [apply read_instruction_reads; exact Hr|]. cbv beta iota.
  destruct (eskb_operand_is_code_target (op i)); [|rewrite (Hn eq_refl); apply reads_ret]. destruct (Hj eq_refl) as (Ex & H0).
  eapply reads_step; [apply fail_if_reads|rewrite Ex; apply reads_ret].
  unfold s32. rewrite u32_small by lia. destruct (Z.ltb_spec cl (2 ^ 31)); [|lia]. rewrite Z.geb_leb. lia.
Qed.

Lemma cstring_id s : Forall (fun c => 0 < c < 256) s -> cstring s = s.
Proof. induction 1 as [|c s Hc _ IH]; [reflexivity|]. cbn. destruct (Z.eqb_spec c 0); [lia|]. f_equal. exact IH. Qed.

Lemma read_function_reads prev offset fn : function_ok fn -> 0 <= offset -> offset + Z.of_nat (length (the_code fn)) <= ESHKOL_VM_MAX_CODE ->
  existsb (fun f => same_cstring (ef_name f) (the_name fn)) prev = false ->
  reads (read_function prev offset) (function_bytes fn) (load_function offset fn, map (load_instr (code_base fn) offset) (the_code fn)).
Proof.
  intros Hf Ho Hmax Hd. unfold function_ok, function_bytes, the_name, the_code, load_function, the_code, the_name in *. destruct (fn_name fn) as [name|]; [|contradiction]. destruct (fn_code fn) as [code|]; [|contradiction].
  destruct Hf as (Hname & _ & Hnp & Hnl & Hnu & Hbase & Hlen & Hcode). unfold INT_MAX, ESHKOL_VM_MAX_CODE, read_function in *.
  assert (El : size (map op code) = Z.of_nat (length code)) by (unfold size; rewrite length_map; reflexivity). rewrite El in *.
  eapply reads_seq; [apply read_string_alloc_reads; lia|]. cbv beta. fold (size name).
  eapply reads_step; [apply fail_if_reads; lia|]. eapply reads_step; [apply fail_if_reads; exact Hd|].
  eapply reads_seq; [apply read_u8_reads|]. eapply reads_seq; [apply read_leb_reads; lia|]. eapply reads_step; [apply fail_if_reads; unfold INT_MAX; lia|].
  eapply reads_seq; [apply read_u8_reads|]. eapply reads_seq; [apply read_leb_reads; lia|]. cbv beta.
  eapply reads_step; [apply fail_if_reads; unfold ESHKOL_VM_MAX_CODE, INT_MAX; lia|]. eapply reads_step; [apply fail_if_reads; unfold INT_MAX; lia|].
  cbv zeta. eapply reads_step; [apply fail_if_reads; unfold ESHKOL_VM_MAX_CODE; lia|]. eapply reads_step; [apply request_reads|]. eapply reads_step; [apply request_reads|].
  rewrite Nat2Z.id. apply (reads_value _ (fun c => (mkFunction name (fn_n_params fn) (fn_n_locals fn) (fn_n_upvalues fn) offset (Z.of_nat (length code)), c))).
  apply read_array_reads. intros i Hi. apply read_code_reads; [|exact Hbase|lia]. rewrite Forall_forall in Hcode. exact (Hcode i Hi).
Qed.

(** No name comes twice. *)
Fixpoint names_distinct (previous : list EskbFunction) (offset : Z) (fns : list EskbFunctionDef) : Prop :=
  match fns with
  | [] => True
  | fn :: fns' => existsb (fun f => same_cstring (ef_name f) (the_name fn)) previous = false /\
    names_distinct (previous ++ [load_function offset fn]) (offset + Z.of_nat (length (the_code fn))) fns'
  end.

Lemma read_functions_reads fns prev code : Forall function_ok fns -> names_distinct prev (Z.of_nat (length code)) fns ->
  Z.of_nat (length code) + Z.of_nat (length (snd (load_functions (Z.of_nat (length code)) fns))) <= ESHKOL_VM_MAX_CODE ->
  reads (read_functions (length fns) prev code) (functions_bytes fns)
    (prev ++ fst (load_functions (Z.of_nat (length code)) fns), code ++ snd (load_functions (Z.of_nat (length code)) fns)).
Proof.
  revert prev code. induction fns as [|fn fns IH]; intros prev code Hf Hd Hm; cbn [length read_functions functions_bytes flat_map load_functions].
  { cbn [fst snd]. rewrite !app_nil_r. apply reads_ret. }
  fold (functions_bytes fns). inversion Hf as [|? ? Hfn Hfns]; subst. destruct Hd as (Hd & Hds). cbn [load_functions] in Hm.
  set (offset := Z.of_nat (length code)) in *. set (body := map (load_instr (code_base fn) offset) (the_code fn)) in *.
  assert (Eo : Z.of_nat (length (code ++ body)) = offset + Z.of_nat (length (the_code fn))).
  { subst body offset. rewrite length_app, length_map. lia. }
  destruct (load_functions (offset + Z.of_nat (length (the_code fn))) fns) as [fs cs] eqn:El. cbn [fst snd] in *. rewrite length_app in Hm. subst body. rewrite length_map in Hm.
  eapply reads_seq; [apply read_function_reads; [exact Hfn|lia|lia|exact Hd]|]. cbv beta iota.
  specialize (IH (prev ++ [load_function offset fn]) (code ++ map (load_instr (code_base fn) offset) (the_code fn)) Hfns). rewrite Eo, El in IH. cbn [fst snd] in IH.
  rewrite <- !app_assoc in IH. apply IH; [rewrite app_assoc in *; exact Hds|lia].
Qed.

(** ** Sections *)

(** The same, at the end of the data. *)
Definition reads_end {A} (m : R A) (bs : list Z) (v : A) : Prop :=
  forall h pre, size (pre ++ bs) < 2 ^ 31 -> runs m (mkReader h (pre ++ bs) (size pre)) (fun o _ => o = Some v).

Lemma reads_end_seq {A B} (m : R A) (k : A -> R B) bs bs' v w :
  reads m bs v -> reads_end (k v) bs' w -> reads_end (check! x := m in k x) (bs ++ bs') w.
Proof.
  intros Hm Hk h pre Hs. eapply runs_call; [exact (Hm h pre bs' Hs)|]. intros o r (-> & h' & ->). rewrite app_assoc in *. exact (Hk h' (pre ++ bs) Hs).
Qed.

Lemma reads_end_step {A B} (m : R A) (k : A -> R B) bs v w : reads m [] v -> reads_end (k v) bs w -> reads_end (check! x := m in k x) bs w.
Proof. exact (reads_end_seq m k [] bs v w). Qed.

Lemma at_end_reads {B} (v : B) : reads_end (check! _ := at_end in ret (Some v)) [] v.
Proof.
  intros h pre Hs. rewrite app_nil_r. apply (runs_step _ _ _ (Some tt) (mkReader h pre (size pre))); [|apply runs_value; reflexivity].
  unfold at_end, rd_len. cbn [rd_pos rd_data]. fold (size pre). rewrite Z.eqb_refl. reflexivity.
Qed.

Lemma reads_all {A B} (m : R A) (f : A -> B) bs v : reads m bs v -> reads_end (check! x := m in check! _ := at_end in ret (Some (f x))) bs (f v).
Proof. intros Hm. rewrite <- (app_nil_r bs). exact (reads_end_seq m _ bs [] v _ Hm (at_end_reads (f v))). Qed.

Lemma parse_constants_reads cs m : Forall const_ok cs -> Z.of_nat (length cs) <= INT_MAX -> em_consts m = None ->
  reads_end (parse_constants m) (const_section cs) (mkModule (em_code m) (Some (map load_const cs)) (em_functions m) (em_source_file m) (em_has_debug m)).
Proof.
  intros Hc Hn Hm. unfold parse_constants, const_section, INT_MAX in *. rewrite Hm.
  assert (El : size (map const_type cs) = Z.of_nat (length cs)) by (unfold size; rewrite length_map; reflexivity). rewrite El.
  eapply reads_end_seq; [apply read_leb_reads; lia|]. cbv beta. eapply reads_end_step; [apply fail_if_reads; unfold INT_MAX; lia|]. eapply reads_end_step; [apply fail_if_reads; reflexivity|]. cbv zeta.
  do 4 (eapply reads_end_step; [apply request_reads|]). rewrite Nat2Z.id.
  apply (reads_all _ (fun l => mkModule (em_code m) (Some l) (em_functions m) (em_source_file m) (em_has_debug m))).
  apply read_array_reads. intros c Hi. rewrite Forall_forall in Hc. apply read_constant_reads; auto.
Qed.

Lemma parse_code_reads fns m : Forall function_ok fns -> names_distinct [] 0 fns -> Z.of_nat (length fns) <= 4096 ->
  Z.of_nat (length (snd (load_functions 0 fns))) <= ESHKOL_VM_MAX_CODE -> em_functions m = None -> em_code m = [] ->
  reads_end (parse_code m) (code_section fns)
    (mkModule (snd (load_functions 0 fns)) (em_consts m) (Some (fst (load_functions 0 fns))) (em_source_file m) (em_has_debug m)).
Proof.
  intros Hf Hd Hn Hl Hm Hc. unfold parse_code, code_section. rewrite Hm, Hc.
  eapply reads_end_seq; [apply read_leb_reads; lia|]. cbv beta. eapply reads_end_step; [apply fail_if_reads; unfold INT_MAX; lia|]. eapply reads_end_step; [apply fail_if_reads; reflexivity|].
  eapply reads_end_step; [apply request_reads|]. rewrite Nat2Z.id, <- (app_nil_r (functions_bytes fns)).
  apply (reads_end_seq _ _ (functions_bytes fns) [] (fst (load_functions 0 fns), snd (load_functions 0 fns)) _ (read_functions_reads fns [] [] Hf Hd Hl)).
  apply at_end_reads.
Qed.

Lemma parse_meta_reads s m : size s <= 255 -> em_has_debug m = false ->
  reads_end (parse_meta m) (string_bytes s) (mkModule (em_code m) (em_consts m) (em_functions m) s true).
Proof.
  intros Hs Hm. unfold parse_meta. rewrite Hm. eapply reads_end_step; [apply fail_if_reads; reflexivity|].
  apply (reads_all _ (fun s => mkModule (em_code m) (em_consts m) (em_functions m) s true)). apply read_string_reads; lia.
Qed.

Lemma with_reader_runs {A} (m : R A) bs v h : reads_end m bs v -> size bs < 2 ^ 31 -> runs (with_reader bs m) h (fun o _ => o = Some v).
Proof.
  intros Hm Hs. specialize (Hm h [] Hs). unfold runs, with_reader in *. cbn [app] in Hm. change (size []) with 0 in Hm. destruct (m (mkReader h bs 0)) as [[o r] f]. exact Hm.
Qed.

Lemma read_section_desc_reads id bs : size bs < 2 ^ 31 -> reads read_section_desc (descriptor_bytes id bs) (mkSection id (size bs)).
Proof.
  intros Hs. pose proof (size_nonneg bs). unfold read_section_desc, descriptor_bytes. change (id :: ?l) with ([id] ++ l). eapply reads_seq; [apply read_u8_reads|].
  rewrite <- (app_nil_r (leb128 _)). eapply reads_seq; [apply read_leb_reads; lia|]. eapply reads_step; [apply fail_if_reads; lia|]. apply reads_ret.
Qed.

(** A payload of the sections [secs], behind a table of them. *)
Definition sections_table (secs : list (Z * list Z)) : list Z :=
  leb128 (Z.of_nat (length secs)) ++ flat_map (fun s => descriptor_bytes (fst s) (snd s)) secs.

Definition sections_data (secs : list (Z * list Z)) : list Z := flat_map snd secs.

Fixpoint located (offset : Z) (secs : list (Z * list Z)) : list (EskbSectionDesc * Z) :=
  match secs with [] => [] | (id, bs) :: secs' => (mkSection id (size bs), offset) :: located (offset + size bs) secs' end.

Lemma section_offsets_located secs offset total : offset + size (sections_data secs) = total -> 0 <= offset -> total < 2 ^ 63 ->
  section_offsets total offset (map (fun s => mkSection (fst s) (size (snd s))) secs) = Some (located offset secs).
Proof.
  revert offset. induction secs as [|[id bs] secs IH]; intros offset Ht Ho Hm; cbn [map section_offsets located fst snd sec_size sections_data flat_map] in *.
  { change (size []) with 0 in Ht. rewrite Z.add_0_r in Ht. rewrite Ht, Z.eqb_refl. reflexivity. }
  fold (sections_data secs) in Ht. rewrite size_app in Ht. pose proof (size_nonneg bs). pose proof (size_nonneg (sections_data secs)).
  rewrite u64_small by lia. destruct (Z.gtb_spec (size bs) (total - offset)); [lia|]. rewrite IH by lia. reflexivity.
Qed.

(** The parsers of the sections take the module along. *)
Fixpoint parses (m : EskbModule) (secs : list (Z * list Z)) (m' : EskbModule) : Prop :=
  match secs with
  | [] => m' = m
  | (id, bs) :: secs' => exists m1, reads_end (parse_section id m) bs m1 /\ parses m1 secs' m'
  end.

Lemma parse_sections_runs secs payload pre m m' h : payload = pre ++ sections_data secs -> size payload < 2 ^ 31 -> parses m secs m' ->
  runs (parse_sections payload (located (size pre) secs) m) h (fun o _ => o = Some m').
Proof.
  revert pre m h. induction secs as [|[id bs] secs IH]; intros pre m h Ep Hs Hp; cbn [located parse_sections parses sections_data flat_map snd] in *.
  { subst m'. apply runs_value. reflexivity. }
  fold (sections_data secs) in Ep. destruct Hp as (m1 & H1 & Hp). cbn [sec_size sec_id]. rewrite Ep at 1. rewrite skipn_size, firstn_size.
  eapply runs_call; [apply (with_reader_runs _ _ m1 h H1)|].
  - rewrite Ep, !size_app in Hs. pose proof (size_nonneg pre). pose proof (size_nonneg (sections_data secs)). lia.
  - intros o h' ->. rewrite <- size_app. apply (IH (pre ++ bs)); [rewrite <- app_assoc; exact Ep|exact Hs|exact Hp].
Qed.

Lemma read_section_table_runs secs post (h : H) : (length secs <= 16)%nat -> size (sections_table secs ++ post) < 2 ^ 31 -> Forall (fun s => size (snd s) < 2 ^ 31) secs ->
  runs (with_reader (sections_table secs ++ post) read_section_table) h
    (fun o _ => o = Some (map (fun s => mkSection (fst s) (size (snd s))) secs, size (sections_table secs))).
Proof.
  intros Hl Hs Hf. assert (Hk : runs read_section_table (mkReader h (sections_table secs ++ post) 0)
    (fun o _ => o = Some (map (fun s => mkSection (fst s) (size (snd s))) secs, size (sections_table secs)))).
  { unfold read_section_table, sections_table in *. set (descs := flat_map _ secs) in *. rewrite <- app_assoc in *.
    eapply runs_call; [exact (read_leb_reads (Z.of_nat (length secs)) ltac:(lia) h [] (descs ++ post) Hs)|]. intros o r (-> & h1 & ->). cbn [app].
    eapply (runs_step _ _ _ (Some tt)); [unfold fail_if; destruct (Z.gtb_spec (Z.of_nat (length secs)) 16); [lia|reflexivity]|]. rewrite Nat2Z.id.
    assert (Hd : reads (read_array (length secs) read_section_desc) descs (map (fun s => mkSection (fst s) (size (snd s))) secs)).
    { apply (read_array_reads read_section_desc (fun s => descriptor_bytes (fst s) (snd s)) (fun s => mkSection (fst s) (size (snd s)))).
      intros s Hi. apply read_section_desc_reads. rewrite Forall_forall in Hf. exact (Hf s Hi). }
    eapply runs_call; [exact (Hd h1 (leb128 (Z.of_nat (length secs))) post Hs)|]. intros o r (-> & h2 & ->). intros _. reflexivity. }
  unfold with_reader, runs in *. destruct (read_section_table _) as [[o r] f]. exact Hk.
Qed.

End Reading.
