(* ===== verification/EskbSafety.v ===== *)
(** * Bytecode files: what the loader accepts

    Whatever the bytes, the loader stays inside of them and returns; a module that it
    returns is well-formed. *)

From Stdlib Require Import ZArith List Lia Bool.
From S2P Require Import Prelude Effects Eskb EskbSpec.
Import ListNotations.
Open Scope Z_scope.
Open Scope effect_scope.

(** ** The checksum

    The CRC is a linear shift register: a round is injective, and the register after up to
    four bytes determines them. *)

Abbreviation word32 x := (0 <= x < 2 ^ 32).

Lemma range_bits n x : 0 <= n -> 0 <= x -> (forall i, n <= i -> Z.testbit x i = false) -> 0 <= x < 2 ^ n.
Proof.
  intros Hn Hx Hb. split; [exact Hx|]. destruct (Z.eqb_spec x 0) as [->|Hz]; [apply Z.pow_pos_nonneg; lia|].
  apply Z.log2_lt_pow2; [lia|]. destruct (Z.ltb_spec (Z.log2 x) n) as [Hl|Hl]; [exact Hl|]. pose proof (Hb _ Hl) as E. rewrite Z.bit_log2 in E by lia. discriminate.
Qed.

Lemma lxor_range n a b : 0 <= n -> 0 <= a < 2 ^ n -> 0 <= b < 2 ^ n -> 0 <= Z.lxor a b < 2 ^ n.
Proof.
  intros Hn Ha Hb. apply range_bits; [exact Hn|apply Z.lxor_nonneg; lia|]. intros i Hi. rewrite Z.lxor_spec, (bits_above n a i), (bits_above n b i) by lia. reflexivity.
Qed.

(** ** One round *)

Definition CRC_POLY : Z := 3988292384.

Lemma crc_bit_odd x : crc_bit x = Z.lxor (Z.shiftr x 1) (if Z.odd x then CRC_POLY else 0).
Proof. unfold crc_bit. rewrite land_1, Zmod_odd. destruct (Z.odd x); reflexivity. Qed.

Lemma crc_bit_range x : word32 x -> word32 (crc_bit x).
Proof.
  intros Hx. rewrite crc_bit_odd. apply lxor_range; [lia| |destruct (Z.odd x); unfold CRC_POLY; lia].
  rewrite Z.shiftr_div_pow2 by lia. change (2 ^ 1) with 2. split; [apply Z.div_pos; lia|apply Z.div_lt_upper_bound; lia].
Qed.

Lemma crc_bit_linear x y : crc_bit (Z.lxor x y) = Z.lxor (crc_bit x) (crc_bit y).
Proof.
  rewrite !crc_bit_odd. rewrite Z.shiftr_lxor. rewrite <- !Z.bit0_odd, Z.lxor_spec. apply Z.bits_inj'. intros i _. rewrite !Z.lxor_spec.
  destruct (Z.testbit x 0), (Z.testbit y 0); cbn [xorb]; rewrite ?Z.bits_0; destruct (Z.testbit (Z.shiftr x 1) i), (Z.testbit (Z.shiftr y 1) i), (Z.testbit CRC_POLY i); reflexivity.
Qed.

(** The top bit of the result is the lowest of the register. *)
Lemma crc_bit_top x : word32 x -> Z.testbit (crc_bit x) 31 = Z.odd x.
Proof.
  intros Hx. rewrite crc_bit_odd, Z.lxor_spec, Z.shiftr_spec, (bits_above 32 x) by lia. destruct (Z.odd x); reflexivity.
Qed.

Lemma crc_bit_injective x y : word32 x -> word32 y -> crc_bit x = crc_bit y -> x = y.
Proof.
  intros Hx Hy E. assert (Eo : Z.odd x = Z.odd y) by (rewrite <- (crc_bit_top x Hx), <- (crc_bit_top y Hy), E; reflexivity).
  rewrite !crc_bit_odd, Eo in E. assert (Es : Z.shiftr x 1 = Z.shiftr y 1).
  { set (p := if Z.odd y then CRC_POLY else 0) in *. rewrite <- (Z.lxor_0_r (Z.shiftr x 1)), <- (Z.lxor_0_r (Z.shiftr y 1)), <- (Z.lxor_nilpotent p), <- !Z.lxor_assoc, E. reflexivity. }
  apply Z.bits_inj'. intros i Hi. destruct (Z.eqb_spec i 0) as [->|Hz]; [rewrite !Z.bit0_odd; exact Eo|].
  replace i with ((i - 1) + 1) by lia. rewrite <- !Z.shiftr_spec, Es by lia. reflexivity.
Qed.

(** ** Several rounds *)

Lemma iter_range n x : word32 x -> word32 (Nat.iter n crc_bit x).
Proof. intros Hx. induction n as [|n IH]; [exact Hx|]. apply crc_bit_range, IH. Qed.

Lemma iter_linear n x y : Nat.iter n crc_bit (Z.lxor x y) = Z.lxor (Nat.iter n crc_bit x) (Nat.iter n crc_bit y).
Proof. induction n as [|n IH]; [reflexivity|]. cbn [Nat.iter nat_rect]. change (nat_rect _ ?x _ ?n) with (Nat.iter n crc_bit x). rewrite IH. apply crc_bit_linear. Qed.

Lemma iter_injective n x y : word32 x -> word32 y -> Nat.iter n crc_bit x = Nat.iter n crc_bit y -> x = y.
Proof.
  intros Hx Hy. induction n as [|n IH]; [auto|]. cbn. intros E. apply IH. exact (crc_bit_injective _ _ (iter_range n x Hx) (iter_range n y Hy) E).
Qed.

(** A round shifts a number with low zeros. *)
Lemma iter_shift n w : Nat.iter n crc_bit (Z.shiftl w (Z.of_nat n)) = w.
Proof.
  revert w. induction n as [|n IH]; intros w; [apply Z.shiftl_0_r|].
  replace (Z.shiftl w (Z.of_nat (S n))) with (Z.shiftl (2 * w) (Z.of_nat n)).
  - cbn [Nat.iter nat_rect]. change (nat_rect _ ?x _ ?n) with (Nat.iter n crc_bit x). rewrite IH, crc_bit_odd, Z.odd_mul. cbn [Z.odd andb].
    rewrite Z.lxor_0_r, Z.shiftr_div_pow2 by lia. change (2 ^ 1) with 2. rewrite Z.mul_comm. apply Z.div_mul. lia.
  - rewrite !Z.shiftl_mul_pow2 by lia. replace (Z.of_nat (S n)) with (1 + Z.of_nat n) by lia. rewrite Z.pow_add_r by lia. lia.
Qed.

Lemma iter_add_rounds n m x : Nat.iter (n + m) crc_bit x = Nat.iter n crc_bit (Nat.iter m crc_bit x).
Proof. induction n as [|n IH]; [reflexivity|]. cbn. f_equal. exact IH. Qed.

(** ** Bytes *)

Lemma crc_byte_rounds s b : crc_byte s b = Nat.iter 8 crc_bit (Z.lxor s b).
Proof. reflexivity. Qed.

Lemma crc_byte_range s b : word32 s -> 0 <= b < 256 -> word32 (crc_byte s b).
Proof. intros Hs Hb. rewrite crc_byte_rounds. apply iter_range, lxor_range; lia. Qed.

Lemma fold_left_cons {A B} (f : A -> B -> A) b bs s : fold_left f (b :: bs) s = fold_left f bs (f s b).
Proof. reflexivity. Qed.

Lemma crc_bytes_range bs s : bytes_ok bs -> word32 s -> word32 (fold_left crc_byte bs s).
Proof. intros Hb. revert s. induction Hb as [|b bs Hb _ IH]; intros s Hs; [exact Hs|]. rewrite fold_left_cons. apply IH, crc_byte_range; assumption. Qed.

Lemma eskb_crc32_range bs : bytes_ok bs -> word32 (eskb_crc32 bs).
Proof. intros Hb. apply lxor_range; [lia| |lia]. apply crc_bytes_range; [exact Hb|lia]. Qed.

Lemma lxor_cancel x a b : Z.lxor x a = Z.lxor x b -> a = b.
Proof. intros E. rewrite <- (Z.lxor_0_l a), <- (Z.lxor_0_l b), <- (Z.lxor_nilpotent x), !Z.lxor_assoc, E. reflexivity. Qed.

Lemma crc_byte_injective s s' b : word32 s -> word32 s' -> 0 <= b < 256 -> crc_byte s b = crc_byte s' b -> s = s'.
Proof.
  intros Hs Hs' Hb E. rewrite !crc_byte_rounds in E. apply iter_injective in E; [|apply lxor_range; lia|apply lxor_range; lia]. rewrite !(Z.lxor_comm _ b) in E. exact (lxor_cancel _ _ _ E).
Qed.

Lemma crc_bytes_injective bs s s' : bytes_ok bs -> word32 s -> word32 s' -> fold_left crc_byte bs s = fold_left crc_byte bs s' -> s = s'.
Proof.
  intros Hb. revert s s'. induction Hb as [|b bs Hb _ IH]; intros s s' Hs Hs' E; [exact E|]. rewrite !fold_left_cons in E.
  apply IH in E; [exact (crc_byte_injective _ _ _ Hs Hs' Hb E)|apply crc_byte_range; assumption|apply crc_byte_range; assumption].
Qed.

(** The register takes in up to four bytes as one word. *)
Lemma crc_word bs s : bytes_ok bs -> word32 s -> fold_left crc_byte bs s = Nat.iter (8 * length bs) crc_bit (Z.lxor s (le_word bs)).
Proof.
  intros Hb. revert s. induction Hb as [|b bs Hb _ IH]; intros s Hs; [cbn; rewrite Z.lxor_0_r; reflexivity|].
  cbn [le_word length]. rewrite fold_left_cons, IH by (apply crc_byte_range; assumption). rewrite crc_byte_rounds.
  replace (8 * S (length bs))%nat with (8 * length bs + 8)%nat by lia. rewrite iter_add_rounds. f_equal.
  assert (E : Z.lxor s (b + 256 * le_word bs) = Z.lxor (Z.lxor s b) (Z.shiftl (le_word bs) (Z.of_nat 8))).
  { rewrite Z.lxor_assoc. f_equal. replace (256 * le_word bs) with (Z.shiftl (le_word bs) 8) by (rewrite Z.shiftl_mul_pow2 by lia; lia).
    apply Z.add_nocarry_lxor, Z.bits_inj'. intros i Hi. rewrite Z.land_spec, Z.bits_0.
    destruct (Z.ltb_spec i 8); [rewrite Z.shiftl_spec_low by lia; apply andb_false_r|]. rewrite (bits_above 8 b i) by lia. reflexivity. }
  rewrite E, (iter_linear 8 (Z.lxor s b)), (iter_shift 8). reflexivity.
Qed.

Lemma le_word_injective a b : bytes_ok a -> bytes_ok b -> length a = length b -> le_word a = le_word b -> a = b.
Proof.
  intros Ha. revert b. induction Ha as [|x a Hx _ IH]; intros [|y b] Hb El E; try discriminate; [reflexivity|]. inversion Hb; subst. cbn [le_word] in E. cbn [length] in El.
  assert (x = y /\ le_word a = le_word b) as [-> Ew] by lia. f_equal. apply IH; [assumption|congruence|exact Ew].
Qed.

(** Contents that differ only within four consecutive bytes have different checksums. *)
Lemma crc_detects_burst pre w w' post : bytes_ok pre -> bytes_ok w -> bytes_ok w' -> bytes_ok post -> length w = length w' -> (length w <= 4)%nat -> w <> w' ->
  eskb_crc32 (pre ++ w ++ post) <> eskb_crc32 (pre ++ w' ++ post).
Proof.
  intros Hp Hw Hw' Hq El Hl Hn E. apply Hn. unfold eskb_crc32 in E. rewrite !(Z.lxor_comm _ UINT32_MAX) in E. apply lxor_cancel in E. rewrite !fold_left_app in E.
  set (s := fold_left crc_byte pre UINT32_MAX) in *. assert (Hs : word32 s) by (apply crc_bytes_range; [exact Hp|lia]).
  apply crc_bytes_injective in E; [|exact Hq|apply crc_bytes_range; assumption|apply crc_bytes_range; assumption].
  rewrite !crc_word, El in E by assumption.
  assert (Hr : forall v, bytes_ok v -> (length v <= 4)%nat -> word32 (Z.lxor s (le_word v))).
  { intros v Hv Hv4. apply lxor_range; [lia|exact Hs|]. pose proof (le_word_range v Hv) as Hv2. assert (256 ^ size v <= 256 ^ 4) by (apply Z.pow_le_mono_r; unfold size; lia).
    change (256 ^ 4) with (2 ^ 32) in *. lia. }
  apply iter_injective in E; [|apply Hr; [exact Hw|exact Hl]|apply Hr; [exact Hw'|lia]]. apply lxor_cancel in E. exact (le_word_injective _ _ Hw Hw' El E).
Qed.

(** ** Well-formed modules *)

Definition instruction_valid (from upto : Z) (i : Z * Z) : Prop :=
  0 <= fst i < 256 /\ - 2 ^ 31 <= snd i < 2 ^ 31 /\ (eskb_operand_is_code_target (fst i) = true -> from <= snd i < upto).

(** The functions lie one after another in the code, and their jumps stay inside. *)
Fixpoint functions_tile (offset : Z) (fs : list EskbFunction) (code : list (Z * Z)) : Prop :=
  match fs with
  | [] => code = []
  | f :: fs' => exists body rest, code = body ++ rest /\ ef_code_offset f = offset /\ ef_code_len f = Z.of_nat (length body) /\
      Forall (instruction_valid offset (offset + ef_code_len f)) body /\ functions_tile (offset + ef_code_len f) fs' rest
  end.

Definition function_valid (f : EskbFunction) : Prop :=
  0 < size (ef_name f) <= 255 /\ bytes_ok (ef_name f) /\ 0 <= ef_n_params f < 256 /\ 0 <= ef_n_locals f <= INT_MAX /\ 0 <= ef_n_upvalues f < 256.

Definition different (f g : EskbFunction) : Prop := cstring (ef_name f) <> cstring (ef_name g).

Definition constant_valid (c : loaded_const) : Prop :=
  0 <= lc_type c < 256 /\ int64_range (lc_int c) /\ 0 <= lc_float c < B64 /\
  match lc_string c with Some s => lc_type c = ESKB_CONST_STRING /\ bytes_ok s /\ lc_int c = size s | None => lc_type c <> ESKB_CONST_STRING end.

Record module_valid (m : EskbModule) : Prop := {
  mv_code : Z.of_nat (length (em_code m)) <= ESHKOL_VM_MAX_CODE;
  mv_functions : match em_functions m with
                 | None => em_code m = []
                 | Some fs => functions_tile 0 fs (em_code m) /\ Forall function_valid fs /\ ForallOrdPairs different fs /\ Z.of_nat (length fs) <= 4096
                 end;
  mv_consts : match em_consts m with None => True | Some cs => Forall constant_valid cs /\ Z.of_nat (length cs) <= INT_MAX end;
  mv_source : size (em_source_file m) <= 255 /\ bytes_ok (em_source_file m);
}.

Section Safety.
  Context {H : Type} {HA : Allocator H} {HL : AllocatorLaws H}.

Abbreviation R A := (M (EskbReader H) (option A)).

Definition reader_ok (r : EskbReader H) : Prop := bytes_ok (rd_data r) /\ size (rd_data r) < 2 ^ 63 /\ 0 <= rd_pos r <= size (rd_data r).

(** Wherever the reader is, it returns, and what it returns satisfies [P]. *)
Definition sound {A} (m : R A) (P : A -> Prop) : Prop :=
  forall r, reader_ok r -> safely m r (fun o r' => reader_ok r' /\ forall v, o = Some v -> P v).

Lemma sound_seq {A B} (m : R A) (k : A -> R B) P Q : sound m P -> (forall v, P v -> sound (k v) Q) -> sound (check! x := m in k x) Q.
Proof.
  intros Hm Hk r Hr. eapply safely_call; [exact (Hm r Hr)|]. intros [v|] r' (Hr' & HP); [exact (Hk v (HP v eq_refl) r' Hr')|].
  apply safely_value. split; [exact Hr'|discriminate].
Qed.

Lemma sound_ret {A} (v : A) (P : A -> Prop) : P v -> sound (ret (Some v)) P.
Proof. intros HP r Hr. apply safely_value. split; [exact Hr|]. intros v' [= <-]. exact HP. Qed.

Lemma sound_mono {A} (m : R A) (P Q : A -> Prop) : (forall v, P v -> Q v) -> sound m P -> sound m Q.
Proof. intros HI Hm r Hr. eapply safely_mono; [|exact (Hm r Hr)]. intros o r' (Hr' & HP). split; [exact Hr'|]. intros v E. exact (HI v (HP v E)). Qed.

Lemma fail_if_sound c : sound (fail_if c) (fun _ => c = false).
Proof. intros r Hr. unfold fail_if. destruct c; apply safely_value; split; auto; discriminate. Qed.

Lemma sound_check {A} c (k : R A) Q : (c = false -> sound k Q) -> sound (check! _ := fail_if c in k) Q.
Proof. intros Hk. eapply sound_seq; [apply fail_if_sound|cbv beta]. intros v Hc. exact (Hk Hc). Qed.

Lemma request_sound n : sound (request_or_fail n) (fun _ => n < 2 ^ 63).
Proof.
  intros r Hr. unfold safely, request_or_fail. destruct (request n (rd_heap r)) as [ok h] eqn:E. split; [exact Hr|]. intros v Ev. destruct ok; [|discriminate].
  exact (request_bounded _ _ _ E).
Qed.

Lemma sound_request {A} n (k : R A) Q : (n < 2 ^ 63 -> sound k Q) -> sound (check! _ := request_or_fail n in k) Q.
Proof. intros Hk. eapply sound_seq; [apply request_sound|cbv beta]. intros v Hn. exact (Hk Hn). Qed.

Lemma read_u8_sound : sound eskb_read_u8 (fun b => 0 <= b < 256).
Proof.
  intros r Hr. pose proof Hr as (Hb & Hs & Hp). unfold safely, eskb_read_u8, rd_len. fold (size (rd_data r)). rewrite Z.geb_leb.
  destruct (Z.leb_spec (size (rd_data r)) (rd_pos r)) as [Hl|Hl]; [split; [exact Hr|discriminate]|].
  destruct (nth_error (rd_data r) (Z.to_nat (rd_pos r))) as [b|] eqn:E.
  - split; [split; [exact Hb|split; [exact Hs|cbn; lia]]|]. intros v [= <-]. unfold bytes_ok in Hb. rewrite Forall_forall in Hb. exact (Hb b (nth_error_In _ _ E)).
  - apply nth_error_None in E. unfold size in *. lia.
Qed.

Lemma bytes_ok_part n bs : bytes_ok bs -> bytes_ok (firstn n bs) /\ bytes_ok (skipn n bs).
Proof. intros Hb. rewrite <- (firstn_skipn n bs) in Hb. apply Forall_app in Hb. exact Hb. Qed.

Lemma read_bytes_sound n : 0 <= n < 2 ^ 63 -> sound (eskb_read_bytes n) (fun bs => bytes_ok bs /\ size bs = n).
Proof.
  intros Hn r Hr. pose proof Hr as (Hb & Hs & Hp). unfold safely, eskb_read_bytes, rd_len. fold (size (rd_data r)). rewrite u64_small by lia.
  destruct (Z.gtb_spec (rd_pos r + n) (size (rd_data r))) as [Hl|Hl]; [split; [exact Hr|discriminate]|].
  split; [split; [exact Hb|split; [exact Hs|cbn; lia]]|]. intros v [= <-]. split; [apply bytes_ok_part, bytes_ok_part, Hb|].
  unfold size in *. rewrite length_firstn, length_skipn. lia.
Qed.

Lemma leb128_loop_bounds rounds buf limit n shift out n' v : leb128_loop rounds buf limit n shift out = Some (n', v) -> 0 <= out < 2 ^ 64 ->
  n < n' <= n + size buf /\ 0 <= v < 2 ^ 64.
Proof.
  revert buf n shift out. induction rounds as [|rounds IH]; intros buf n shift out E Ho; [discriminate|]. cbn [leb128_loop] in E.
  destruct (n <? limit); [|discriminate]. destruct buf as [|byte buf]; [discriminate|]. rewrite size_cons. pose proof (size_nonneg buf).
  set (out' := Z.lor out (u64 (Z.shiftl (Z.land byte 127) shift))) in *.
  assert (Ho' : 0 <= out' < 2 ^ 64).
  { pose proof (u64_range (Z.shiftl (Z.land byte 127) shift)). apply range_bits; [lia|apply Z.lor_nonneg; lia|].
    intros i Hi. subst out'. rewrite Z.lor_spec, (bits_above 64 out), (bits_above 64 (u64 _)) by lia. reflexivity. }
  destruct (Z.land byte 128 =? 0); [injection E as <- <-; lia|]. destruct (IH buf (n + 1) _ out' E Ho'). lia.
Qed.

Lemma read_leb_sound : sound eskb_read_leb (fun v => 0 <= v < B64).
Proof.
  intros r Hr. pose proof Hr as (Hb & Hs & Hp). unfold safely, eskb_read_leb, rd_len. fold (size (rd_data r)). rewrite Z.geb_leb.
  destruct (Z.leb_spec (size (rd_data r)) (rd_pos r)) as [Hl|Hl]; [split; [exact Hr|discriminate]|].
  destruct (eskb_read_leb128 _) as [[n v]|] eqn:E; [|split; [exact Hr|discriminate]]. unfold eskb_read_leb128 in E. apply leb128_loop_bounds in E as (Hn & Hv); [|lia].
  split; [|intros v' [= <-]; exact Hv]. split; [exact Hb|]. split; [exact Hs|]. cbn. unfold size in *. rewrite length_skipn in Hn. lia.
Qed.

Lemma read_f64_sound : sound eskb_read_f64 (fun v => 0 <= v < B64).
Proof.
  unfold eskb_read_f64. eapply sound_seq; [apply read_bytes_sound; lia|cbv beta]. intros bs (Hb & Es). apply sound_ret. pose proof (le_word_range bs Hb) as Hr. rewrite Es in Hr. exact Hr.
Qed.

Lemma read_i64_sound : sound eskb_read_i64 int64_range.
Proof. unfold eskb_read_i64. eapply sound_seq; [apply read_bytes_sound; lia|cbv beta]. intros bs _. apply sound_ret, s64_range. Qed.

Lemma read_string_sound max_len : 0 < max_len < 2 ^ 63 -> sound (eskb_read_string max_len) (fun s => bytes_ok s /\ size s < max_len).
Proof.
  intros Hm. unfold eskb_read_string. eapply sound_seq; [apply read_leb_sound|cbv beta]. intros n Hn. apply sound_check. intros Hl.
  eapply sound_mono; [|apply read_bytes_sound; lia]. intros s (Hb & Hs). split; [exact Hb|lia].
Qed.

Lemma read_string_alloc_sound : sound eskb_read_string_alloc (fun s => bytes_ok s /\ size s < 2 ^ 63 - 1).
Proof.
  unfold eskb_read_string_alloc. eapply sound_seq; [apply read_leb_sound|cbv beta]. intros n Hn. apply sound_check. intros _.
  apply sound_request. intros Hl. eapply sound_mono; [|apply read_bytes_sound; lia]. intros s (Hb & Hs). split; [exact Hb|lia].
Qed.

Lemma read_instruction_sound : sound eskb_read_instruction (fun i => 0 <= fst i < 256 /\ - 2 ^ 31 <= snd i < 2 ^ 31).
Proof.
  unfold eskb_read_instruction, INT_MAX. eapply sound_seq; [apply read_u8_sound|cbv beta]. intros op Hop. eapply sound_seq; [apply read_leb_sound|cbv beta]. intros z Hz.
  apply sound_check. intros _. cbv zeta. apply sound_check. intros Hd. apply sound_ret. cbn [fst snd]. lia.
Qed.

Lemma read_array_sound {A} n (body : R A) P : sound body P -> sound (read_array n body) (fun l => Forall P l /\ length l = n).
Proof.
  intros Hb. induction n as [|n IH]; cbn [read_array]; [apply sound_ret; auto|]. eapply sound_seq; [exact Hb|cbv beta]. intros x Hx. eapply sound_seq; [exact IH|].
  intros l (Hl & El). apply sound_ret. split; [constructor; assumption|cbn; lia].
Qed.

Ltac constant := apply sound_ret; unfold constant_valid, ESKB_CONST_STRING, int64_range in *; cbn [lc_type lc_int lc_float lc_string]; repeat split; solve [lia|assumption].

Lemma read_constant_sound : sound read_constant constant_valid.
Proof.
  unfold read_constant, ESKB_CONST_NIL, ESKB_CONST_F64, ESKB_CONST_BOOL, ESKB_CONST_STRING. eapply sound_seq; [apply read_u8_sound|cbv beta]. intros t Ht.
  destruct (Z.eqb_spec t 0); [constant|].
  destruct (Z.eqb_spec t 2); [eapply sound_seq; [apply read_f64_sound|cbv beta]; intros f Hf; constant|].
  destruct (Z.eqb_spec t 3); [eapply sound_seq; [apply read_u8_sound|cbv beta]; intros b Hb; constant|].
  destruct (Z.eqb_spec t 6); [|eapply sound_seq; [apply read_i64_sound|cbv beta]; intros i Hi; constant].
  eapply sound_seq; [apply read_string_alloc_sound|cbv beta]. intros s (Hb & Hs). fold (size s). pose proof (size_nonneg s).
  rewrite s64_small by (unfold int64_range; lia). constant.
Qed.

Lemma read_code_sound offset cl : 0 <= offset -> 0 <= cl -> offset + cl <= ESHKOL_VM_MAX_CODE -> sound (read_code offset cl) (instruction_valid offset (offset + cl)).
Proof.
  intros Ho Hc Hm. unfold ESHKOL_VM_MAX_CODE in *. unfold read_code, instruction_valid. eapply sound_seq; [apply read_instruction_sound|cbv beta]. intros [op x] (Hop & Hx). cbn [fst snd] in *.
  destruct (eskb_operand_is_code_target op) eqn:Et; [|apply sound_ret; cbn [fst snd]; rewrite Et; repeat split; solve [lia|discriminate]].
  apply sound_check. intros Hf. apply sound_ret. cbn [fst snd].
  assert (Ec : s32 cl = cl) by (unfold s32; rewrite u32_small by lia; destruct (Z.ltb_spec cl (2 ^ 31)); lia). rewrite Ec, Z.geb_leb in Hf. repeat split; lia.
Qed.

(** *** Functions *)

Lemma functions_tile_snoc fs offset code f body : functions_tile offset fs code -> ef_code_offset f = offset + Z.of_nat (length code) -> ef_code_len f = Z.of_nat (length body) ->
  Forall (instruction_valid (ef_code_offset f) (ef_code_offset f + ef_code_len f)) body -> functions_tile offset (fs ++ [f]) (code ++ body).
Proof.
  revert offset code. induction fs as [|g fs IH]; intros offset code Ht Eo El Hb; cbn [functions_tile app] in *.
  - subst code. cbn [length] in Eo. rewrite Z.add_0_r in Eo. rewrite Eo in Hb. exists body, []. rewrite app_nil_r. repeat split; auto.
  - destruct Ht as (b1 & rest & -> & E1 & E2 & Hb1 & Ht). exists b1, (rest ++ body). rewrite <- app_assoc. repeat split; [exact E1|exact E2|exact Hb1|].
    apply IH; [exact Ht| |exact El|exact Hb]. rewrite Eo, length_app. lia.
Qed.

Lemma ordered_snoc {A} (P : A -> A -> Prop) l x : ForallOrdPairs P l -> Forall (fun y => P y x) l -> ForallOrdPairs P (l ++ [x]).
Proof.
  intros Hl. induction Hl as [|y l Hy _ IH]; intros Hx; cbn [app]; [constructor; constructor|]. inversion Hx; subst. constructor; [|apply IH; assumption].
  apply Forall_app. split; [exact Hy|constructor; [assumption|constructor]].
Qed.

Definition functions_valid (fs : list EskbFunction) (code : list (Z * Z)) : Prop :=
  functions_tile 0 fs code /\ Forall function_valid fs /\ ForallOrdPairs different fs /\ Z.of_nat (length code) <= ESHKOL_VM_MAX_CODE.

Lemma read_function_sound previous offset : 0 <= offset -> sound (read_function previous offset) (fun p =>
  function_valid (fst p) /\ Forall (fun f => different f (fst p)) previous /\ ef_code_offset (fst p) = offset /\ ef_code_len (fst p) = Z.of_nat (length (snd p)) /\
  Forall (instruction_valid offset (offset + ef_code_len (fst p))) (snd p) /\ offset + ef_code_len (fst p) <= ESHKOL_VM_MAX_CODE).
Proof.
  intros Ho. unfold read_function, INT_MAX. eapply sound_seq; [apply read_string_alloc_sound|cbv beta]. intros name (Hb & Hs). fold (size name).
  apply sound_check. intros Hn. apply sound_check. intros Hd.
  eapply sound_seq; [apply read_u8_sound|cbv beta]. intros np Hnp. eapply sound_seq; [apply read_leb_sound|cbv beta]. intros nl Hnl. apply sound_check. intros Hnl2.
  eapply sound_seq; [apply read_u8_sound|cbv beta]. intros nuv Hnuv. eapply sound_seq; [apply read_leb_sound|cbv beta]. intros cl Hcl. apply sound_check. intros Hcl2.
  apply sound_check. intros _. cbv zeta. apply sound_check. intros Hnew.
  apply sound_request. intros _. apply sound_request. intros _.
  eapply sound_seq; [apply read_array_sound, read_code_sound; lia|cbv beta]. intros code (Hc & El). apply sound_ret. cbn [fst snd ef_code_offset ef_code_len].
  pose proof (size_nonneg name). split; [unfold function_valid, INT_MAX; cbn; repeat split; solve [lia|assumption]|].
  split; [|repeat split; solve [lia|assumption]]. apply Forall_forall. intros f Hf. unfold different. cbn [ef_name]. intros E.
  assert (Ex : existsb (fun f => same_cstring (ef_name f) name) previous = true); [|congruence].
  apply existsb_exists. exists f. split; [exact Hf|]. unfold same_cstring. destruct (list_eq_dec Z.eq_dec (cstring (ef_name f)) (cstring name)); [reflexivity|contradiction].
Qed.

Lemma read_functions_sound n fs code : functions_valid fs code -> sound (read_functions n fs code) (fun p => functions_valid (fst p) (snd p) /\ length (fst p) = (length fs + n)%nat).
Proof.
  revert fs code. induction n as [|n IH]; intros fs code Hv; cbn [read_functions]; [apply sound_ret; cbn; split; [exact Hv|lia]|].
  destruct Hv as (Ht & Hf & Hd & Hl). eapply sound_seq; [apply read_function_sound; lia|cbv beta]. intros [f body] (H1 & H2 & H3 & H4 & H5 & H6). cbn [fst snd] in *.
  eapply sound_mono; [|apply IH]; [cbn; intros [fs' code'] (HV & EL); cbn [fst snd] in *; rewrite length_app in EL; cbn in EL; split; [exact HV|lia]|].
  repeat split.
  - apply functions_tile_snoc; [exact Ht|lia|exact H4|rewrite H3; exact H5].
  - apply Forall_app. auto.
  - apply ordered_snoc; assumption.
  - rewrite length_app. lia.
Qed.

(** ** Sections *)

Lemma at_end_sound : sound at_end (fun _ => True).
Proof. intros r Hr. unfold safely, at_end. auto. Qed.

Lemma parse_constants_sound m : module_valid m -> sound (parse_constants m) module_valid.
Proof.
  intros [V1 V2 V3 V4]. unfold parse_constants, INT_MAX. eapply sound_seq; [apply read_leb_sound|cbv beta]. intros nc Hnc. apply sound_check. intros Hn.
  apply sound_check. intros _. cbv zeta. do 4 (apply sound_request; intros _).
  eapply sound_seq; [apply read_array_sound, read_constant_sound|cbv beta]. intros cs (Hc & El). eapply sound_seq; [apply at_end_sound|cbv beta]. intros _ _. apply sound_ret.
  split; [exact V1|exact V2| |exact V4]. cbn. unfold INT_MAX. split; [exact Hc|lia].
Qed.

Lemma parse_code_sound m : module_valid m -> sound (parse_code m) module_valid.
Proof.
  intros [V1 V2 V3 V4]. unfold parse_code. eapply sound_seq; [apply read_leb_sound|cbv beta]. intros nf Hnf. apply sound_check. intros Hn.
  apply sound_check. intros Hm. apply sound_request. intros _. destruct (em_functions m); [discriminate|]. rewrite V2.
  eapply sound_seq; [apply read_functions_sound; repeat split; try constructor; cbn; unfold ESHKOL_VM_MAX_CODE; lia|cbv beta]. intros [fs code] ((Ht & Hf & Hd & Hl) & El). cbn [fst snd] in *.
  eapply sound_seq; [apply at_end_sound|cbv beta]. intros _ _. apply sound_ret. split; [exact Hl| |exact V3|exact V4]. cbn. cbn in El. repeat split; solve [assumption|lia].
Qed.

Lemma parse_meta_sound m : module_valid m -> sound (parse_meta m) module_valid.
Proof.
  intros [V1 V2 V3 V4]. unfold parse_meta. apply sound_check. intros _. eapply sound_seq; [apply (read_string_sound 256); lia|cbv beta]. intros s (Hb & Hs).
  eapply sound_seq; [apply at_end_sound|cbv beta]. intros _ _. apply sound_ret. split; [exact V1|exact V2|exact V3|]. cbn. split; [lia|exact Hb].
Qed.

Lemma parse_section_sound id m : module_valid m -> sound (parse_section id m) module_valid.
Proof.
  intros V. unfold parse_section. repeat (match goal with |- sound (if ?c then _ else _) _ => destruct c end);
    [apply parse_constants_sound|apply parse_code_sound|apply parse_meta_sound|apply sound_ret]; exact V.
Qed.

Lemma with_reader_safely {A} data (m : R A) P h : sound m P -> bytes_ok data -> size data < 2 ^ 63 ->
  safely (with_reader data m) h (fun o _ => forall v, o = Some v -> P v).
Proof.
  intros Hm Hb Hs. specialize (Hm (mkReader h data 0)). unfold safely, with_reader in *.
  destruct (m (mkReader h data 0)) as [[[o| | |] r] f]; try (apply Hm; repeat split; [exact Hb|exact Hs|reflexivity|apply size_nonneg]).
Qed.

Lemma read_section_table_sound : sound read_section_table (fun p => Forall (fun s => 0 <= sec_size s) (fst p)).
Proof.
  unfold read_section_table. eapply sound_seq; [apply read_leb_sound|cbv beta]. intros n _. apply sound_check. intros _.
  eapply sound_seq; [apply (read_array_sound _ _ (fun s => 0 <= sec_size s))|].
  - unfold read_section_desc. eapply sound_seq; [apply read_u8_sound|cbv beta]. intros id _. eapply sound_seq; [apply read_leb_sound|cbv beta]. intros n' Hn.
    apply sound_check. intros _. apply sound_ret. cbn. lia.
  - intros secs (Hs & _) r Hr. unfold safely. split; [exact Hr|]. intros v [= <-]. exact Hs.
Qed.

Lemma parse_sections_safely payload secs m h : bytes_ok payload -> size payload < 2 ^ 63 -> module_valid m ->
  safely (parse_sections payload secs m) h (fun o _ => forall m', o = Some m' -> module_valid m').
Proof.
  intros Hb Hs. revert m h. induction secs as [|[s offset] secs IH]; intros m h V; cbn [parse_sections]; [apply safely_value; intros m' [= <-]; exact V|].
  eapply safely_call.
  - apply with_reader_safely; [apply parse_section_sound; exact V|apply bytes_ok_part, bytes_ok_part, Hb|].
    unfold size in *. rewrite length_firstn, length_skipn. lia.
  - intros [m1|] h1 HP; [exact (IH m1 h1 (HP m1 eq_refl))|apply safely_value; discriminate].
Qed.

Lemma empty_module_valid : module_valid empty_module.
Proof. split; cbn; unfold ESHKOL_VM_MAX_CODE; auto; try lia. split; [lia|constructor]. Qed.

Lemma eskb_parse_payload_safely payload h : bytes_ok payload -> size payload < 2 ^ 63 ->
  safely (eskb_parse_payload payload) h (fun o _ => forall m, o = Some m -> module_valid m).
Proof.
  intros Hb Hs. unfold eskb_parse_payload. eapply safely_call; [apply with_reader_safely; [apply read_section_table_sound|exact Hb|exact Hs]|].
  intros [[secs offset]|] h1 _; [|apply safely_value; discriminate]. destruct (section_offsets _ _ _); [|apply safely_value; discriminate].
  apply parse_sections_safely; [exact Hb|exact Hs|exact empty_module_valid].
Qed.

End Safety.
