(* ===== verification/EskbTheorems.v ===== *)
(** * Bytecode files: the theorems *)

From Stdlib Require Import ZArith List Lia Bool.
From S2P Require Import Prelude Effects Eskb EskbSpec EskbRead EskbSafety.
Import ListNotations.
Open Scope Z_scope.
Open Scope effect_scope.

(** ** A concrete heap: so many bytes are left *)

#[local] Instance byte_budget : Allocator Z := {| request := fun n left => if (n <=? left) && (n <? 2 ^ 63) then (true, left - n) else (false, left) |}.

#[local] Instance byte_budget_laws : AllocatorLaws Z.
Proof. constructor. intros n h h'. unfold request, byte_budget. destruct (Z.ltb_spec n (2 ^ 63)); [auto|]. rewrite andb_false_r. discriminate. Defined.

(** ** The bytes of a file are bytes *)

Lemma bytes_ok_app a b : bytes_ok a -> bytes_ok b -> bytes_ok (a ++ b).
Proof. intros Ha Hb. apply Forall_app. auto. Qed.

Lemma bytes_ok_cons x b : 0 <= x < 256 -> bytes_ok b -> bytes_ok (x :: b).
Proof. constructor; assumption. Qed.

Lemma bytes_ok_nil : bytes_ok [].
Proof. constructor. Qed.

Lemma bytes_ok_flat_map {A} (f : A -> list Z) l : (forall x, In x l -> bytes_ok (f x)) -> bytes_ok (flat_map f l).
Proof.
  induction l as [|x l IH]; intros Hf; [constructor|]. cbn. apply bytes_ok_app; [apply Hf; left; reflexivity|apply IH; intros y Hy; apply Hf; right; exact Hy].
Qed.

Lemma leb128_bytes_ok room v bs : leb128_bytes room v = Some bs -> bytes_ok bs.
Proof.
  revert v bs. induction room as [|room IH]; intros v bs E; [discriminate|]. cbn [leb128_bytes] in E. rewrite land_127 in E. pose proof (Z.mod_pos_bound v 128 ltac:(lia)).
  destruct (_ =? 0); [injection E as <-; repeat constructor; lia|]. destruct (leb128_bytes room _) as [bs'|] eqn:Eb; [|discriminate]. injection E as <-.
  rewrite lor_128 by lia. constructor; [lia|exact (IH _ _ Eb)].
Qed.

Lemma leb128_ok v : bytes_ok (leb128 v).
Proof. unfold leb128, eskb_write_leb128. destruct (leb128_bytes 10 v) eqn:E; [exact (leb128_bytes_ok _ _ _ E)|constructor]. Qed.

#[local] Hint Resolve bytes_ok_app bytes_ok_cons bytes_ok_nil bytes_ok_flat_map leb128_ok le_bytes_ok : bytes.

Lemma const_bytes_ok c : const_ok c -> bytes_ok (const_bytes c).
Proof.
  intros (Ht & _ & _ & _ & _ & Hs). unfold const_bytes, const_payload, string_bytes. apply bytes_ok_cons; [exact Ht|].
  repeat match goal with |- context [if ?c then _ else _] => destruct c end; auto with bytes; try (repeat constructor; lia).
  apply bytes_ok_app; [auto with bytes|]. apply bytes_ok_part. exact Hs.
Qed.

Lemma function_bytes_ok fn : function_ok fn -> bytes_ok (function_bytes fn).
Proof.
  unfold function_ok, function_bytes, string_bytes. destruct (fn_name fn) as [name|]; [|contradiction]. destruct (fn_code fn) as [code|]; [|contradiction].
  intros (_ & Hname & Hnp & _ & Hnu & _ & _ & Hc). rewrite Forall_forall in Hc.
  assert (Hn : bytes_ok name) by (eapply Forall_impl; [|exact Hname]; cbn; intros a Ha; lia).
  repeat apply bytes_ok_app; auto with bytes. apply bytes_ok_flat_map. intros i Hi. apply bytes_ok_cons; [apply (Hc i Hi)|auto with bytes].
Qed.

(** ** What can be written and loaded back *)

Definition source_ok (source_file : option (list Z)) : Prop :=
  match source_file with Some s => size s <= 255 /\ bytes_ok s | None => True end.

(** A program within the limits of the loader. *)
Record loadable (cs : list EskbConst) (fns : list EskbFunctionDef) (source_file : option (list Z)) : Prop := {
  ld_consts : Forall const_ok cs;
  ld_functions : Forall function_ok fns;
  ld_some : fns <> [];
  ld_distinct : names_distinct [] 0 fns;
  ld_count : Z.of_nat (length fns) <= 4096;
  ld_code : Z.of_nat (length (snd (load_functions 0 fns))) <= ESHKOL_VM_MAX_CODE;
  ld_source : source_ok source_file;
  ld_size : size (payload_bytes cs fns source_file) < 2 ^ 31;
}.

Lemma payload_bytes_ok cs fns source_file : loadable cs fns source_file -> bytes_ok (payload_bytes cs fns source_file).
Proof.
  intros [Hc Hf _ _ _ _ Hs _]. rewrite Forall_forall in Hc, Hf. unfold payload_bytes, table_bytes, const_section, code_section, meta_section, descriptor_bytes, string_bytes.
  assert (Hcs : bytes_ok (constants_bytes cs)) by (apply bytes_ok_flat_map; intros c Hi; exact (const_bytes_ok c (Hc c Hi))).
  assert (Hfs : bytes_ok (functions_bytes fns)) by (apply bytes_ok_flat_map; intros f Hi; exact (function_bytes_ok f (Hf f Hi))).
  unfold ESKB_SECTION_CONST, ESKB_SECTION_CODE, ESKB_SECTION_META. destruct source_file as [s|]; cbn [source_ok] in Hs; repeat apply bytes_ok_app; auto with bytes;
    try (apply bytes_ok_cons; [lia|auto with bytes]). apply Hs.
Qed.

(** The sections of a file. *)
Definition sections (cs : list EskbConst) (fns : list EskbFunctionDef) (source_file : option (list Z)) : list (Z * list Z) :=
  [(ESKB_SECTION_CONST, const_section cs); (ESKB_SECTION_CODE, code_section fns)] ++
  match source_file with Some s => [(ESKB_SECTION_META, string_bytes s)] | None => [] end.

Lemma payload_sections cs fns source_file : payload_bytes cs fns source_file = sections_table (sections cs fns source_file) ++ sections_data (sections cs fns source_file).
Proof.
  unfold payload_bytes, table_bytes, sections_table, sections_data, sections, meta_section. destruct source_file as [s|]; cbn [app flat_map length fst snd]; rewrite ?app_nil_r; reflexivity.
Qed.

Section Loading.
  Context {H : Type} {HA : Allocator H}.

Lemma sections_parse cs fns source_file : loadable cs fns source_file -> parses (H := H) empty_module (sections cs fns source_file) (load_module cs fns source_file).
Proof.
  intros [Hc Hf _ Hd Hn Hl Hs Hz]. assert (Hcs : Z.of_nat (length cs) <= INT_MAX).
  { pose proof (constants_bytes_long cs) as HL. unfold INT_MAX. unfold payload_bytes, const_section in Hz. rewrite !size_app in Hz. unfold size in HL at 1. rewrite length_map in HL.
    pose proof (size_nonneg (table_bytes cs fns source_file)). pose proof (size_nonneg (code_section fns)). pose proof (size_nonneg (meta_section source_file)).
    pose proof (size_nonneg (leb128 (size (map const_type cs)))). lia. }
  unfold sections, load_module. cbn [app parses]. eexists. split; [exact (parse_constants_reads cs empty_module Hc Hcs eq_refl)|].
  eexists. split; [exact (parse_code_reads fns (mkModule [] (Some (map load_const cs)) None [] false) Hf Hd Hn Hl eq_refl eq_refl)|]. cbn [em_code em_consts em_functions em_source_file em_has_debug empty_module].
  destruct source_file as [s|]; cbn [parses]; [|reflexivity]. eexists. split; [exact (parse_meta_reads s (mkModule _ _ _ [] false) (proj1 Hs) eq_refl)|reflexivity].
Qed.

Lemma parse_payload_runs cs fns source_file (h : H) : loadable cs fns source_file ->
  runs (eskb_parse_payload (payload_bytes cs fns source_file)) h (fun o _ => o = Some (load_module cs fns source_file)).
Proof.
  intros L. pose proof (sections_parse cs fns source_file L) as HP. pose proof (ld_size _ _ _ L) as Hz. rewrite payload_sections in *. set (secs := sections cs fns source_file) in *.
  assert (Hl : (length secs <= 16)%nat) by (subst secs; unfold sections; destruct source_file; cbn; lia).
  assert (Hs : Forall (fun s => size (snd s) < 2 ^ 31) secs).
  { apply Forall_forall. intros s Hi. rewrite size_app in Hz. pose proof (size_nonneg (sections_table secs)).
    assert (Hle : size (snd s) <= size (sections_data secs)); [|lia]. apply in_split in Hi as (l1 & l2 & ->). unfold sections_data. rewrite flat_map_app, size_app. cbn [flat_map]. rewrite size_app.
    pose proof (size_nonneg (flat_map snd l1)). pose proof (size_nonneg (flat_map snd l2)). lia. }
  unfold eskb_parse_payload. eapply runs_call; [exact (read_section_table_runs secs (sections_data secs) h Hl Hz Hs)|]. intros o h1 ->. cbv beta iota.
  fold (size (sections_table secs ++ sections_data secs)). pose proof (size_nonneg (sections_table secs)).
  rewrite section_offsets_located; [|rewrite size_app; reflexivity|lia|lia]. exact (parse_sections_runs secs _ (sections_table secs) empty_module _ h1 eq_refl Hz HP).
Qed.

Lemma eskb_load_header payload (h : H) : bytes_ok payload -> eskb_load_memory (header (eskb_crc32 payload) ++ payload) h = eskb_parse_payload payload h.
Proof.
  intros Hb. pose proof (eskb_crc32_range payload Hb) as Hr. set (crc := eskb_crc32 payload) in *.
  assert (Ew : le_word (le_bytes 4 crc) = crc) by (rewrite le_word_bytes; apply Z.mod_small; exact Hr).
  assert (El : length (header crc) = 16%nat) by reflexivity.
  unfold eskb_load_memory. rewrite length_app, El. destruct (Z.ltb_spec (Z.of_nat (16 + length payload)) 16); [lia|].
  cbv zeta. cbn [Nat.mul Nat.add]. unfold header. rewrite <- !app_assoc. cbn [le_bytes app skipn firstn].
  change [crc mod 256; crc / 256 mod 256; crc / 256 / 256 mod 256; crc / 256 / 256 / 256 mod 256] with (le_bytes 4 crc).
  rewrite Ew. fold crc. rewrite !Z.eqb_refl. reflexivity.
Qed.

End Loading.

(** *** A program with two functions and three constants *)

Definition no_string : list Z := repeat 0 256.

Definition sample_constants : list EskbConst :=
  [mkConst ESKB_CONST_INT64 (-5) 0 0 no_string 0; mkConst ESKB_CONST_F64 0 4609434218613702656 0 no_string 0;
   mkConst ESKB_CONST_STRING 0 0 0 ([104; 105] ++ repeat 0 254) 2].

(** The second one jumps back to its start, the fourth instruction of the chunk. *)
Definition sample_functions : list EskbFunctionDef :=
  [mkFunctionDef (Some [109; 97; 105; 110]) 0 1 0 (Some [mkInstr 1 0; mkInstr 29 2; mkInstr 36 (-1)]) 0;
   mkFunctionDef (Some [102]) 2 300 1 (Some [mkInstr 20 0; mkInstr 30 3]) 3].

Lemma sample_loadable : loadable sample_constants sample_functions (Some [97; 46; 101]).
Proof.
  split.
  - repeat constructor; cbn; unfold int64_range; try lia; discriminate.
  - repeat constructor; cbn; try lia; discriminate.
  - discriminate.
  - vm_compute. repeat split.
  - vm_compute. discriminate.
  - vm_compute. discriminate.
  - split; [vm_compute; discriminate|repeat constructor; lia].
  - vm_compute. reflexivity.
Qed.

(** ** Round trip *)

(** When no request is refused the writer leaves a file of bytes, and the loader makes the
    module [m] of it. *)
Definition saved_as {H} {HA : Allocator H} (cs : list EskbConst) (fns : list EskbFunctionDef) (source_file : option (list Z)) (h : H) (m : EskbModule) : Prop :=
  let '(o, _, refused) := eskb_write_file_with_functions (Some cs) fns source_file h in
  refused = false -> exists file, o = Ret (Some file) /\ bytes_ok file /\ forall h' : H,
    let '(o', _, refused') := eskb_load_memory file h' in refused' = false -> o' = Ret (Some m).

(** C11 A program that is written to a bytecode file is loaded back: the constants, the
    functions with their names and sizes, and the code with its jumps relocated to where
    the functions are loaded.  This holds of every program within the limits of the loader
    when no request for memory is refused. *)
Theorem eskb_round_trip {H} {HA : Allocator H} cs fns source_file (h : H) : loadable cs fns source_file -> saved_as cs fns source_file h (load_module cs fns source_file).
Proof.
  intros L. unfold saved_as. pose proof (eskb_write_file_runs cs fns source_file h (ld_consts _ _ _ L) (ld_functions _ _ _ L) (ld_some _ _ _ L) ltac:(pose proof (ld_size _ _ _ L); lia)) as HW.
  unfold runs in HW. destruct (eskb_write_file_with_functions _ _ _ h) as [[o h1] f]. intros Hf. specialize (HW Hf). destruct o as [o| | |]; try contradiction. subst o.
  pose proof (payload_bytes_ok cs fns source_file L) as Hb. eexists. split; [reflexivity|]. unfold file_bytes. split.
  - apply bytes_ok_app; [unfold header; repeat apply bytes_ok_app; apply le_bytes_ok|exact Hb].
  - intros h'. rewrite eskb_load_header by exact Hb. pose proof (parse_payload_runs cs fns source_file h' L) as HR. unfold runs in HR.
    destruct (eskb_parse_payload _ h') as [[o' h2] f']. intros Hf'. specialize (HR Hf'). destruct o'; try contradiction. subst. reflexivity.
Qed.

Lemma eskb_round_trip_witness : loadable sample_constants sample_functions (Some [97; 46; 101]) /\
  saved_as sample_constants sample_functions (Some [97; 46; 101]) (2 ^ 30) (load_module sample_constants sample_functions (Some [97; 46; 101])).
Proof. split; [exact sample_loadable|exact (eskb_round_trip sample_constants sample_functions (Some [97; 46; 101]) (2 ^ 30) sample_loadable)]. Defined.

(** What the two functions are loaded as. *)
Lemma sample_loaded : em_code (load_module sample_constants sample_functions None) = [(1, 0); (29, 2); (36, -1); (20, 0); (30, 3)] /\
  match eskb_write_file_with_functions (Some sample_constants) sample_functions None (2 ^ 30) with
  | (Ret (Some file), _, false) => fst (fst (eskb_load_memory file (2 ^ 30))) = Ret (Some (load_module sample_constants sample_functions None))
  | _ => False
  end.
Proof. vm_compute. split; reflexivity. Qed.

(** *** What the writer accepts and the loader does not *)

Definition written_and_loaded (constants : option (list EskbConst)) (fns : list EskbFunctionDef) (source_file : option (list Z)) (budget : Z) : option bool :=
  match eskb_write_file_with_functions constants fns source_file budget with
  | (Ret (Some file), _, _) => match eskb_load_memory file (2 ^ 30) with (Ret (Some _), _, _) => Some true | _ => Some false end
  | _ => None
  end.

Definition one_function (code : list EskbInstr) : EskbFunctionDef := mkFunctionDef (Some [102]) 0 0 0 (Some code) 0.

(** Files are written, as if nothing had happened, that the loader refuses: of two
    functions of the same name, of a source path of 256 bytes, of a jump out of the first
    function, of more than [INT_MAX] locals.  When the buffer of the constants cannot
    grow, the file lacks them.  Without an array of constants nothing is written, which
    is what the assembler asks for.  The flags of the header are not looked at. *)
Lemma eskb_edge_cases :
  written_and_loaded (Some []) [one_function [mkInstr 36 0]] None (2 ^ 30) = Some true /\
  written_and_loaded (Some []) [one_function [mkInstr 36 0]; one_function [mkInstr 36 0]] None (2 ^ 30) = Some false /\
  written_and_loaded (Some []) [one_function [mkInstr 36 0]] (Some (repeat 97 256)) (2 ^ 30) = Some false /\
  written_and_loaded (Some []) [one_function [mkInstr 28 1]] None (2 ^ 30) = Some false /\
  written_and_loaded (Some []) [mkFunctionDef (Some [102]) 0 2147483648 0 (Some [mkInstr 36 0]) 0] None (2 ^ 30) = Some false /\
  written_and_loaded (Some (repeat (mkConst ESKB_CONST_INT64 7 0 0 no_string 0) 500)) [one_function [mkInstr 36 0]] None (2 ^ 30) = Some true /\
  written_and_loaded (Some (repeat (mkConst ESKB_CONST_INT64 7 0 0 no_string 0) 500)) [one_function [mkInstr 36 0]] None 20000 = Some false /\
  written_and_loaded None [one_function [mkInstr 36 0]] None (2 ^ 30) = None /\
  match eskb_write_file_with_functions (Some []) [one_function [mkInstr 36 0]] None (2 ^ 30) with
  | (Ret (Some file), _, _) => eskb_load_memory (firstn 8 file ++ [254] ++ skipn 9 file) (2 ^ 30) = eskb_load_memory file (2 ^ 30)
  | _ => False
  end.
Proof. vm_compute. repeat split. Qed.

(** ** The loader *)

(** C12 Whatever the bytes, the loader never reads outside of them, ends, and returns null
    or a module that is well-formed: its functions tile the code, their names differ, no
    jump leaves its function, and every limit of the loader is kept.  Allocators that
    grant no more than [PTRDIFF_MAX] bytes are assumed. *)
Theorem eskb_loader_safe {H} {HA : Allocator H} {HL : AllocatorLaws H} (data : list Z) (h : H) : bytes_ok data -> size data < 2 ^ 63 ->
  exists r h' refused, eskb_load_memory data h = (Ret r, h', refused) /\ match r with Some m => module_valid m | None => True end.
Proof.
  intros Hb Hs. assert (HS : safely (eskb_load_memory data) h (fun o _ => forall m, o = Some m -> module_valid m)).
  { unfold eskb_load_memory. cbv zeta. repeat match goal with |- safely (if ?c then _ else _) _ _ => destruct c; [apply safely_value; discriminate|] end.
    apply eskb_parse_payload_safely; [exact (proj2 (bytes_ok_part 16 data Hb))|]. unfold size in *. rewrite length_skipn. lia. }
  unfold safely in HS. destruct (eskb_load_memory data h) as [[[r| | |] h'] f]; try contradiction. exists r, h', f. split; [reflexivity|]. destruct r as [m|]; [exact (HS m eq_refl)|exact Logic.I].
Qed.

(** C37 A file that is loaded is refused after any damage within four consecutive bytes of
    what follows the header. *)
Theorem corrupted_file_refused {H} {HA : Allocator H} pre w w' post (h h' : H) : bytes_ok (pre ++ w ++ post) -> bytes_ok w' -> 16 <= size pre ->
  length w' = length w -> (length w <= 4)%nat -> w' <> w ->
  (exists m h1 refused, eskb_load_memory (pre ++ w ++ post) h = (Ret (Some m), h1, refused)) ->
  eskb_load_memory (pre ++ w' ++ post) h' = (Ret None, h', false).
Proof.
  intros Hb Hw' Hp El Hl Hn (m & h1 & f & E). apply Forall_app in Hb as (Hpre & Hb). apply Forall_app in Hb as (Hw & Hpost).
  unfold size in Hp. assert (Hd : forall v n k, (n + k <= 16)%nat -> firstn n (skipn k (pre ++ v)) = firstn n (skipn k pre)).
  { intros v n k Hnk. rewrite skipn_app, firstn_app, length_skipn. replace (n - (length pre - k))%nat with O by lia. rewrite firstn_O, app_nil_r. reflexivity. }
  assert (Hk : forall v, skipn 16 (pre ++ v) = skipn 16 pre ++ v).
  { intros v. rewrite skipn_app. replace (16 - length pre)%nat with O by lia. reflexivity. }
  unfold eskb_load_memory in *. cbv zeta in *. rewrite !Hd, !Hk, !length_app in * by lia. rewrite El.
  destruct (_ <? 16); [discriminate|]. destruct (negb _); [discriminate|]. destruct (negb _); [discriminate|].
  destruct (Z.eqb_spec (eskb_crc32 (skipn 16 pre ++ w ++ post)) (le_word (firstn 4 (skipn (4 * 3) pre)))) as [Ec|]; [|discriminate].
  destruct (Z.eqb_spec (eskb_crc32 (skipn 16 pre ++ w' ++ post)) (le_word (firstn 4 (skipn (4 * 3) pre)))) as [Ec'|]; [|reflexivity].
  exfalso. refine (crc_detects_burst (skipn 16 pre) w' w post _ Hw' Hw Hpost El _ Hn _); [exact (proj2 (bytes_ok_part 16 pre Hpre))|lia|congruence].
Qed.

(** *** A file of one function *)

Definition small_start : list Z := [66; 75; 83; 69; 1; 0; 0; 0; 1; 0; 0; 0; 138; 255; 182; 129; 2; 0; 1; 1; 9; 0; 1; 1; 102; 0; 0; 0; 1].

Definition small_file : list Z := small_start ++ [36] ++ [0].

Lemma small_file_ok : bytes_ok small_file.
Proof. repeat constructor; lia. Qed.

Lemma small_file_loads : exists m h refused, eskb_load_memory small_file (2 ^ 30) = (Ret (Some m), h, refused).
Proof. do 3 eexists. vm_compute. reflexivity. Qed.

Lemma eskb_loader_safe_witness : bytes_ok small_file /\ size small_file < 2 ^ 63 /\
  exists r h' refused, eskb_load_memory small_file (2 ^ 30) = (Ret r, h', refused) /\ match r with Some m => module_valid m | None => True end.
Proof.
  assert (Hs : size small_file < 2 ^ 63) by reflexivity.
  split; [exact small_file_ok|]. split; [exact Hs|exact (eskb_loader_safe small_file (2 ^ 30) small_file_ok Hs)].
Defined.

(** The instruction is damaged. *)
Lemma corrupted_file_refused_witness : bytes_ok small_file /\ (exists m h1 refused, eskb_load_memory small_file (2 ^ 30) = (Ret (Some m), h1, refused)) /\
  eskb_load_memory (small_start ++ [37] ++ [0]) (2 ^ 30) = (Ret None, 2 ^ 30, false).
Proof.
  split; [exact small_file_ok|]. split; [exact small_file_loads|].
  apply (corrupted_file_refused small_start [36] [37] [0] (2 ^ 30) (2 ^ 30) small_file_ok); [repeat constructor; lia|vm_compute; discriminate|reflexivity|cbn; lia|discriminate|exact small_file_loads].
Defined.
