(* ===== verification/VmCore.v ===== *)
(** * The bytecode machine: lib/backend/vm_core.c, vm_limits.h

    Values, heap objects, call frames and the state of the machine, and the stack and heap
    operations that the instructions are made of.  Doubles are their bits.  The state is
    that of a machine without an active tape of automatic differentiation: its node map
    then keeps its initial value and is left out. *)

From Stdlib Require Import String Ascii ZArith List Lia Bool SpecFloat.
From S2P Require Import Prelude Doubles Dependent Eskb.
Import ListNotations.
Open Scope Z_scope.

(** ** Arrays: accesses outside of them are undefined *)

Definition array_get {A} (l : list A) (i : Z) : option A := if i <? 0 then None else nth_error l (Z.to_nat i).

Fixpoint replace_at {A} (l : list A) (i : nat) (v : A) : list A :=
  match l, i with
  | [], _ => []
  | _ :: l, O => v :: l
  | x :: l, S i => x :: replace_at l i v
  end.

Definition array_set {A} (l : list A) (i : Z) (v : A) : option (list A) :=
  if (i <? 0) || (Z.of_nat (length l) <=? i) then None else Some (replace_at l (Z.to_nat i) v).

(** ** vm_limits.h, the desktop profile *)

Definition HEAP_SIZE : Z := 65536.
Definition STACK_SIZE : Z := 4096.
Definition MAX_FRAMES : Z := 256.
Definition MAX_CONSTS : Z := 1024.

(** ** The instruction set *)

Inductive OpCode : Type :=
| OP_NOP | OP_CONST | OP_NIL | OP_TRUE | OP_FALSE | OP_POP | OP_DUP
| OP_ADD | OP_SUB | OP_MUL | OP_DIV | OP_MOD | OP_NEG | OP_ABS
| OP_EQ | OP_LT | OP_GT | OP_LE | OP_GE | OP_NOT
| OP_GET_LOCAL | OP_SET_LOCAL | OP_GET_UPVALUE | OP_SET_UPVALUE
| OP_CLOSURE | OP_CALL | OP_TAIL_CALL | OP_RETURN
| OP_JUMP | OP_JUMP_IF_FALSE | OP_LOOP
| OP_CONS | OP_CAR | OP_CDR | OP_NULL_P
| OP_PRINT | OP_HALT | OP_NATIVE_CALL | OP_CLOSE_UPVALUE
| OP_VEC_CREATE | OP_VEC_REF | OP_VEC_SET | OP_VEC_LEN
| OP_STR_REF | OP_STR_LEN
| OP_PAIR_P | OP_NUM_P | OP_STR_P | OP_BOOL_P | OP_PROC_P | OP_VEC_P
| OP_SET_CAR | OP_SET_CDR | OP_POPN | OP_OPEN_CLOSURE
| OP_CALLCC | OP_INVOKE_CC | OP_PUSH_HANDLER | OP_POP_HANDLER | OP_GET_EXN
| OP_PACK_REST | OP_WIND_PUSH | OP_WIND_POP | OP_VOID.

Definition opcodes : list OpCode :=
  [OP_NOP; OP_CONST; OP_NIL; OP_TRUE; OP_FALSE; OP_POP; OP_DUP;
   OP_ADD; OP_SUB; OP_MUL; OP_DIV; OP_MOD; OP_NEG; OP_ABS;
   OP_EQ; OP_LT; OP_GT; OP_LE; OP_GE; OP_NOT;
   OP_GET_LOCAL; OP_SET_LOCAL; OP_GET_UPVALUE; OP_SET_UPVALUE;
   OP_CLOSURE; OP_CALL; OP_TAIL_CALL; OP_RETURN;
   OP_JUMP; OP_JUMP_IF_FALSE; OP_LOOP;
   OP_CONS; OP_CAR; OP_CDR; OP_NULL_P;
   OP_PRINT; OP_HALT; OP_NATIVE_CALL; OP_CLOSE_UPVALUE;
   OP_VEC_CREATE; OP_VEC_REF; OP_VEC_SET; OP_VEC_LEN;
   OP_STR_REF; OP_STR_LEN;
   OP_PAIR_P; OP_NUM_P; OP_STR_P; OP_BOOL_P; OP_PROC_P; OP_VEC_P;
   OP_SET_CAR; OP_SET_CDR; OP_POPN; OP_OPEN_CLOSURE;
   OP_CALLCC; OP_INVOKE_CC; OP_PUSH_HANDLER; OP_POP_HANDLER; OP_GET_EXN;
   OP_PACK_REST; OP_WIND_PUSH; OP_WIND_POP; OP_VOID].

Definition OP_COUNT : Z := 64.

Scheme Equality for OpCode.

(** The byte of an opcode is its position. *)
Definition opcode_of (b : Z) : option OpCode := array_get opcodes b.

Fixpoint position (o : OpCode) (l : list OpCode) : Z :=
  match l with
  | [] => 0
  | o' :: l => if OpCode_beq o o' then 0 else 1 + position o l
  end.

Definition opcode_byte (o : OpCode) : Z := position o opcodes.

Record Instr : Type := mkInstruction { i_op : Z; i_operand : Z }.

(** ** Values: the tag and the member of the union it selects *)

Inductive heap_kind : Type :=
| KPair | KClosure | KString | KVector | KContinuation
| KRational | KBignum | KComplex | KDual | KHyperDual
| KOpaque (type : Z).

Inductive VmValue : Type :=
| VAL_NIL
| VAL_INT (i : Z)
| VAL_FLOAT (f : Z)
| VAL_BOOL (b : Z)
| VAL_CHAR (i : Z)
| VAL_VOID
| VAL_HEAP (k : heap_kind) (ptr : Z).

Definition BOOL_VAL (b : bool) : VmValue := VAL_BOOL (if b then 1 else 0).
Definition PAIR_VAL (p : Z) : VmValue := VAL_HEAP KPair p.
Definition CLOSURE_VAL (p : Z) : VmValue := VAL_HEAP KClosure p.

Definition is_truthy (v : VmValue) : bool :=
  match v with
  | VAL_BOOL b => negb (b =? 0)
  | VAL_NIL => false
  | _ => true
  end.

Definition as_number (v : VmValue) : Z :=
  match v with
  | VAL_INT i => double_of_Z i
  | VAL_FLOAT f => f
  | VAL_CHAR i => double_of_Z i
  | _ => double_zero
  end.

Definition double_fabs (d : Z) : Z := Z.land d (2 ^ 63 - 1).

(** [d == (int64_t)d]: no integer equals a double outside of their range. *)
Definition integral (d : Z) : option Z :=
  match cast_int64 d with
  | Some i => if double_eq d (double_of_Z i) then Some i else None
  | None => None
  end.

Definition number_val (d : Z) : VmValue :=
  match integral d with
  | Some i => if double_lt (double_fabs d) (double_of_Z (10 ^ 15)) then VAL_INT i else VAL_FLOAT d
  | None => VAL_FLOAT d
  end.

(** [fmod]: exact, with the sign of the dividend. *)
Definition double_fmod (a b : Z) : Z :=
  encode_double
    match decode_double a, decode_double b with
    | S754_nan, _ | _, S754_nan | S754_infinity _, _ | _, S754_zero _ => S754_nan
    | S754_zero s, _ => S754_zero s
    | S754_finite s m e, S754_infinity _ => S754_finite s m e
    | S754_finite s m e, S754_finite _ m' e' =>
      let low := Z.min e e' in
      let r := (Z.pos m * 2 ^ (e - low)) mod (Z.pos m' * 2 ^ (e' - low)) in
      binary_normalize prec emax (if s then - r else r) low s
    end.

(** [(int)d]; outside of the range of int the conversion is undefined. *)
Definition cast_int (d : Z) : option Z :=
  match cast_int64 d with
  | Some i => if (- 2 ^ 31 <=? i) && (i <? 2 ^ 31) then Some i else None
  | None => None
  end.

(** The member [as.i] of a value; that of a smaller member is not specified. *)
Definition as_integer (v : VmValue) : option Z :=
  match v with
  | VAL_NIL | VAL_VOID => Some 0
  | VAL_INT i | VAL_CHAR i => Some i
  | VAL_FLOAT f => Some (s64 f)
  | VAL_BOOL _ | VAL_HEAP _ _ => None
  end.

(** ** Frames, handlers, heap objects *)

Record CallFrame : Type := mkFrame { return_pc : Z; return_fp : Z; f_func_pc : Z }.

Record Handler : Type := mkHandler { h_pc : Z; h_sp : Z; h_fp : Z; h_frame_count : Z; h_n_winds : Z }.

Record Wind : Type := mkWind { before : VmValue; after : VmValue }.

Record VmContinuation : Type := mkContinuation {
  k_pc : Z; k_fp : Z; k_sp : Z; k_frame_count : Z; k_n_handlers : Z; k_n_winds : Z;
  saved_stack : list VmValue; saved_frames : list CallFrame }.

Record VmVector : Type := mkVector { items : list VmValue; vec_len : Z }.

(** A closure has room for 16 values; [opaque.ptr] may be null. *)
Inductive HeapObject : Type :=
| HEAP_CONS (car cdr : VmValue)
| HEAP_CLOSURE (func_pc n_upvalues : Z) (upvalues : list VmValue)
| HEAP_STRING (data : option (list Z))
| HEAP_VECTOR (vec : option VmVector)
| HEAP_CONTINUATION (cont : option VmContinuation)
| HEAP_RATIONAL (r : option (Z * Z))
| HEAP_DUAL (primal : option Z)
| HEAP_OPAQUE (type : Z).

(** The zeroed object that [heap_alloc] registers. *)
Definition blank_object : HeapObject := HEAP_CONS VAL_NIL VAL_NIL.

Record VM : Type := mkVM {
  code : list Instr;
  constants : list VmValue;
  n_constants : Z;
  pc : Z;
  stack : list VmValue;
  sp : Z;
  frames : list CallFrame;
  fp : Z;
  frame_count : Z;
  objects : list HeapObject;
  requests : Z;
  outputs : list VmValue;
  handlers : list Handler;
  n_handlers : Z;
  current_exception : VmValue;
  winds : list Wind;
  n_winds : Z;
  halted : bool;
  error : bool }.

Definition vm_code_len (v : VM) : Z := Z.of_nat (length (code v)).
Definition next_free (v : VM) : Z := Z.of_nat (length (objects v)).

(** A machine after [vm_init], with its code and constants. *)
Definition fresh_vm (code : list Instr) (constants : list VmValue) (n : Z) : VM := {|
  code := code; constants := constants; n_constants := n; pc := 0;
  stack := repeat VAL_NIL (Z.to_nat STACK_SIZE); sp := 0;
  frames := repeat (mkFrame 0 0 0) (Z.to_nat MAX_FRAMES); fp := 0; frame_count := 0;
  objects := []; requests := 0; outputs := [];
  handlers := repeat (mkHandler 0 0 0 0 0) 16; n_handlers := 0; current_exception := VAL_NIL;
  winds := repeat (mkWind VAL_NIL VAL_NIL) 32; n_winds := 0; halted := false; error := false |}.

Definition with_pc (x : Z) (v : VM) : VM :=
  mkVM (code v) (constants v) (n_constants v) x (stack v) (sp v) (frames v) (fp v) (frame_count v) (objects v) (requests v)
    (outputs v) (handlers v) (n_handlers v) (current_exception v) (winds v) (n_winds v) (halted v) (error v).
Definition with_values (x : list VmValue) (y : Z) (v : VM) : VM :=
  mkVM (code v) (constants v) (n_constants v) (pc v) x y (frames v) (fp v) (frame_count v) (objects v) (requests v)
    (outputs v) (handlers v) (n_handlers v) (current_exception v) (winds v) (n_winds v) (halted v) (error v).
Definition with_frames (x : list CallFrame) (y : Z) (v : VM) : VM :=
  mkVM (code v) (constants v) (n_constants v) (pc v) (stack v) (sp v) x (fp v) y (objects v) (requests v)
    (outputs v) (handlers v) (n_handlers v) (current_exception v) (winds v) (n_winds v) (halted v) (error v).
Definition with_fp (x : Z) (v : VM) : VM :=
  mkVM (code v) (constants v) (n_constants v) (pc v) (stack v) (sp v) (frames v) x (frame_count v) (objects v) (requests v)
    (outputs v) (handlers v) (n_handlers v) (current_exception v) (winds v) (n_winds v) (halted v) (error v).
Definition with_objects (x : list HeapObject) (v : VM) : VM :=
  mkVM (code v) (constants v) (n_constants v) (pc v) (stack v) (sp v) (frames v) (fp v) (frame_count v) x (requests v)
    (outputs v) (handlers v) (n_handlers v) (current_exception v) (winds v) (n_winds v) (halted v) (error v).
Definition with_requests (x : Z) (v : VM) : VM :=
  mkVM (code v) (constants v) (n_constants v) (pc v) (stack v) (sp v) (frames v) (fp v) (frame_count v) (objects v) x
    (outputs v) (handlers v) (n_handlers v) (current_exception v) (winds v) (n_winds v) (halted v) (error v).
Definition with_outputs (x : list VmValue) (v : VM) : VM :=
  mkVM (code v) (constants v) (n_constants v) (pc v) (stack v) (sp v) (frames v) (fp v) (frame_count v) (objects v) (requests v)
    x (handlers v) (n_handlers v) (current_exception v) (winds v) (n_winds v) (halted v) (error v).
Definition with_handlers (x : list Handler) (y : Z) (v : VM) : VM :=
  mkVM (code v) (constants v) (n_constants v) (pc v) (stack v) (sp v) (frames v) (fp v) (frame_count v) (objects v) (requests v)
    (outputs v) x y (current_exception v) (winds v) (n_winds v) (halted v) (error v).
Definition with_winds (x : list Wind) (y : Z) (v : VM) : VM :=
  mkVM (code v) (constants v) (n_constants v) (pc v) (stack v) (sp v) (frames v) (fp v) (frame_count v) (objects v) (requests v)
    (outputs v) (handlers v) (n_handlers v) (current_exception v) x y (halted v) (error v).
Definition with_halted (v : VM) : VM :=
  mkVM (code v) (constants v) (n_constants v) (pc v) (stack v) (sp v) (frames v) (fp v) (frame_count v) (objects v) (requests v)
    (outputs v) (handlers v) (n_handlers v) (current_exception v) (winds v) (n_winds v) true (error v).
Definition with_error (v : VM) : VM :=
  mkVM (code v) (constants v) (n_constants v) (pc v) (stack v) (sp v) (frames v) (fp v) (frame_count v) (objects v) (requests v)
    (outputs v) (handlers v) (n_handlers v) (current_exception v) (winds v) (n_winds v) (halted v) true.

Definition with_sp (x : Z) (v : VM) : VM := with_values (stack v) x v.

(** ** The effect of an instruction *)

(** What an instruction does that C leaves undefined. *)
Inductive fault : Type :=
| bad_opcode        (** a byte that is no opcode *)
| outside_code      (** an instruction before the code *)
| below_stack | above_stack  (** a slot before or behind those of the stack *)
| outside_frames | outside_constants
| dangling          (** an object that does not exist or is of another kind *)
| overflow          (** of int or int64_t arithmetic, or of a conversion to int *)
| unspecified.      (** a member of a union that was not written *)

(** The functions of the other files of the machine that instructions call: the native
    table, the bignum operations, and closures run from native code. *)
Inductive native_call : Type :=
| NativeCall (id : Z)
| BignumArith (a b : VmValue) (op : ascii)
| BignumCompare (a b : VmValue) (op : OpCode)
| BignumNeg (a : VmValue)
| BignumAbs (a : VmValue)
| CallClosure (f : VmValue).

Inductive flow (A : Type) : Type :=
| Next (a : A) (v : VM)
| Leave (v : VM)                    (** [goto vm_exit] *)
| Native (c : native_call) (v : VM) (** control passes to another file *)
| Fault (f : fault).
Arguments Next {A} a v.
Arguments Leave {A} v.
Arguments Native {A} c v.
Arguments Fault {A} f.

Definition V (A : Type) : Type := VM -> flow A.

Definition v_ret {A} (a : A) : V A := fun v => Next a v.
Definition v_bind {A B} (m : V A) (k : A -> V B) : V B := fun v =>
  match m v with
  | Next a v' => k a v'
  | Leave v' => Leave v'
  | Native c v' => Native c v'
  | Fault f => Fault f
  end.

Declare Scope vm_scope.
Notation "'vm!' x ':=' m 'in' k" := (v_bind m (fun x => k)) (at level 200, x name, k at level 200) : vm_scope.
Notation "m ';;' k" := (v_bind m (fun _ => k)) (at level 100, k at level 200, right associativity) : vm_scope.
Open Scope vm_scope.

Definition register {A} (f : VM -> A) : V A := fun v => Next (f v) v.
Definition modify (f : VM -> VM) : V unit := fun v => Next tt (f v).
Definition leave {A} : V A := fun v => Leave v.
Definition native {A} (c : native_call) : V A := fun v => Native c v.
Definition defined {A} (f : fault) (o : option A) : V A := fun v => match o with Some a => Next a v | None => Fault f end.

(** [vm->error = 1; goto vm_exit]. *)
Definition fails {A} : V A := modify with_error ;; leave.

(** A result of C [int] arithmetic. *)
Definition c_int (x : Z) : V Z := defined overflow (if (- 2 ^ 31 <=? x) && (x <? 2 ^ 31) then Some x else None).

Definition no_slot (i : Z) : fault := if i <? 0 then below_stack else above_stack.

Definition read_stack (i : Z) : V VmValue := fun v => defined (no_slot i) (array_get (stack v) i) v.

Definition write_stack (i : Z) (x : VmValue) : V unit := fun v =>
  match array_set (stack v) i x with
  | Some s => Next tt (with_values s (sp v) v)
  | None => Fault (no_slot i)
  end.

(** ** Stack operations *)

Definition vm_push (x : VmValue) : V unit := fun v =>
  if STACK_SIZE <=? sp v then Next tt (with_error v)
  else (write_stack (sp v) x ;; modify (fun v => with_sp (sp v + 1) v)) v.

Definition vm_pop : V VmValue := fun v =>
  if sp v <=? 0 then Next VAL_NIL (with_error v)
  else (modify (fun v => with_sp (sp v - 1) v) ;; vm! i := register sp in read_stack i) v.

Definition vm_peek (offset : Z) : V VmValue := fun v =>
  let idx := sp v - 1 - offset in
  if (idx <? 0) || (sp v <=? idx) then Next VAL_NIL v else read_stack idx v.

(** ** The heap *)

Section Heap.
  (** Whether the arena grants its n-th request. *)
  Context (grants : Z -> bool).

Definition vm_alloc : V bool := fun v => Next (grants (requests v)) (with_requests (requests v + 1) v).

(** Some index, or -1 (None). *)
Definition heap_alloc : V (option Z) := fun v =>
  if HEAP_SIZE <=? next_free v then Next None v
  else (vm! ok := vm_alloc in
        if ok then
          vm! p := register next_free in
          modify (fun v => with_objects (objects v ++ [blank_object]) v) ;;
          v_ret (Some p)
        else v_ret None) v.

(** [int32_t ptr = heap_alloc(..); if (ptr < 0) { vm->error = 1; goto vm_exit; }]. *)
Definition alloc_object : V Z :=
  vm! p := heap_alloc in
  match p with
  | Some p => v_ret p
  | None => fails
  end.

Definition new_block : V unit :=
  vm! ok := vm_alloc in
  if ok then v_ret tt else fails.

End Heap.

Definition object_at (p : Z) : V HeapObject := fun v => defined dangling (array_get (objects v) p) v.

Definition set_object (p : Z) (o : HeapObject) : V unit := fun v =>
  match array_set (objects v) p o with
  | Some os => Next tt (with_objects os v)
  | None => Fault dangling
  end.

(** The members of an object that the tag of a value promises. *)
Definition cons_at (p : Z) : V (VmValue * VmValue) :=
  vm! o := object_at p in
  match o with
  | HEAP_CONS a d => v_ret (a, d)
  | _ => defined dangling None
  end.

Definition closure_at (p : Z) : V (Z * Z * list VmValue) :=
  vm! o := object_at p in
  match o with
  | HEAP_CLOSURE f n us => v_ret (f, n, us)
  | _ => defined dangling None
  end.

Definition vector_at (p : Z) : V (option VmVector) :=
  vm! o := object_at p in
  match o with
  | HEAP_VECTOR vec => v_ret vec
  | _ => defined dangling None
  end.

Definition string_at (p : Z) : V (option (list Z)) :=
  vm! o := object_at p in
  match o with
  | HEAP_STRING s => v_ret s
  | _ => defined dangling None
  end.

Definition continuation_at (p : Z) : V (option VmContinuation) :=
  vm! o := object_at p in
  match o with
  | HEAP_CONTINUATION k => v_ret k
  | _ => defined dangling None
  end.

(** A rational with a zero denominator reads as 0. *)
Definition as_number_vm (x : VmValue) : V Z :=
  match x with
  | VAL_HEAP KRational p =>
    vm! o := object_at p in
    match o with
    | HEAP_RATIONAL (Some (num, denom)) => v_ret (if denom =? 0 then double_zero else double_div (double_of_Z num) (double_of_Z denom))
    | HEAP_RATIONAL None => v_ret double_zero
    | _ => defined dangling None
    end
  | VAL_HEAP KDual p =>
    vm! o := object_at p in
    match o with
    | HEAP_DUAL (Some primal) => v_ret primal
    | HEAP_DUAL None => v_ret double_zero
    | _ => defined dangling None
    end
  | _ => v_ret (as_number x)
  end.

(** ** Examples *)

Example opcode_bytes : List.map (fun o => opcode_of (opcode_byte o)) opcodes = List.map Some opcodes.
Proof. reflexivity. Qed.

Example number_val_examples :
  number_val (double_of_Z 3) = VAL_INT 3 /\ number_val (double_div (double_of_Z 5) (double_of_Z 2)) = VAL_FLOAT (double_div (double_of_Z 5) (double_of_Z 2)) /\
  number_val (double_neg double_zero) = VAL_INT 0.
Proof. vm_compute. repeat split. Qed.

Example fmod_examples : double_fmod (double_of_Z (-7)) (double_of_Z 3) = double_of_Z (-1) /\ double_fmod (double_of_Z (10 ^ 18)) (double_of_Z 7) = double_of_Z 1.
Proof. vm_compute. split; reflexivity. Qed.
