(* ===== verification/VmRun.v ===== *)
(** * The interpreter: lib/backend/vm_run.c

    The instructions of [vm_run] as its threaded dispatch executes them, and the run of a
    machine up to its exit, to an undefined access or to the first call into another file
    (the native table, the bignum operations, after-thunks).  The text that OP_PRINT
    writes and the messages are left out. *)

From Stdlib Require Import String Ascii ZArith List Lia Bool.
From S2P Require Import Prelude Doubles Dependent Eskb VmCore.
Import ListNotations.
Open Scope Z_scope.
Open Scope vm_scope.

Definition has_kind (k : heap_kind) (v : VmValue) : bool :=
  match k, v with
  | KRational, VAL_HEAP KRational _ | KBignum, VAL_HEAP KBignum _ | KComplex, VAL_HEAP KComplex _
  | KDual, VAL_HEAP KDual _ | KHyperDual, VAL_HEAP KHyperDual _ => true
  | _, _ => false
  end.

Definition either (k : heap_kind) (a b : VmValue) : bool := has_kind k a || has_kind k b.

Definition vm_either_bignum (a b : VmValue) : bool := either KBignum a b.

Definition in_int64 (x : Z) : bool := (INT64_MIN <=? x) && (x <=? INT64_MAX).

(** The operands go back on the stack for the native function. *)
Definition push_back (a b : VmValue) (id : Z) : V unit := vm_push a ;; vm_push b ;; native (NativeCall id).

(** ** Arithmetic *)

(** ADD, SUB and MUL: the native functions of the number types, exact integers with a
    fall-back to bignums, doubles. *)
Definition arith (hyper dual rational complex : Z) (op : ascii) (f : Z -> Z -> Z) (fd : Z -> Z -> Z) : V unit :=
  vm! b := vm_pop in
  vm! a := vm_pop in
  if either KHyperDual a b then push_back a b hyper
  else if either KDual a b then push_back a b dual
  else if either KRational a b then push_back a b rational
  else if either KComplex a b then push_back a b complex
  else if vm_either_bignum a b then native (BignumArith a b op)
  else
    match a, b with
    | VAL_INT i, VAL_INT j => if in_int64 (f i j) then vm_push (VAL_INT (f i j)) else native (BignumArith a b op)
    | _, _ => vm_push (number_val (fd (as_number a) (as_number b)))
    end.

Definition exec_ADD : V unit := arith 1905 373 331 307 "+" Z.add double_add.
Definition exec_SUB : V unit := arith 1906 374 332 308 "-" Z.sub double_sub.
Definition exec_MUL : V unit := arith 1907 375 333 309 "*" Z.mul double_mul.

Definition exec_DIV : V unit :=
  vm! b := vm_pop in
  vm! a := vm_pop in
  if either KHyperDual a b then push_back a b 1908
  else if either KDual a b then push_back a b 376
  else if either KRational a b then push_back a b 334
  else if either KComplex a b then push_back a b 310
  else
    match a, b with
    | VAL_INT i, VAL_INT j => if j =? 0 then fails else push_back a b 334
    | _, _ =>
      let bd := as_number b in
      if double_eq bd double_zero then fails else vm_push (number_val (double_div (as_number a) bd))
    end.

Definition exec_MOD : V unit :=
  vm! b := vm_pop in
  vm! a := vm_pop in
  if vm_either_bignum a b then native (BignumArith a b "m")
  else
    match a, b with
    | VAL_INT i, VAL_INT j =>
      if j =? 0 then fails
      else if (i =? INT64_MIN) && (j =? -1) then defined overflow None
      else
        let r := Z.rem i j in
        vm_push (VAL_INT (if negb (r =? 0) && (Z.lxor r j <? 0) then r + j else r))
    | _, _ =>
      let bd := as_number b in
      if double_eq bd double_zero then fails
      else
        let r := double_fmod (as_number a) bd in
        let r := if negb (double_eq r double_zero) && negb (Bool.eqb (double_lt double_zero r) (double_lt double_zero bd)) then double_add r bd else r in
        vm_push (number_val r)
    end.

Definition exec_NEG : V unit :=
  vm! a := vm_pop in
  if has_kind KHyperDual a then vm_push a ;; native (NativeCall 1909)
  else if has_kind KDual a then vm_push a ;; native (NativeCall 384)
  else if has_kind KBignum a then native (BignumNeg a)
  else
    match a with
    | VAL_INT i => if i =? INT64_MIN then native (BignumNeg a) else vm_push (VAL_INT (- i))
    | _ => vm_push (number_val (double_neg (as_number a)))
    end.

Definition exec_ABS : V unit :=
  vm! a := vm_pop in
  if has_kind KHyperDual a then vm_push a ;; native (NativeCall 1916)
  else if has_kind KDual a then vm_push a ;; native (NativeCall 383)
  else if has_kind KBignum a then native (BignumAbs a)
  else
    match a with
    | VAL_INT i => if i =? INT64_MIN then native (BignumAbs a) else vm_push (VAL_INT (if i <? 0 then - i else i))
    | _ => vm_push (number_val (double_fabs (as_number a)))
    end.

(** ** Comparison *)

Definition compare (op : OpCode) (f : Z -> Z -> bool) (fd : Z -> Z -> bool) : V unit :=
  vm! b := vm_pop in
  vm! a := vm_pop in
  if vm_either_bignum a b then native (BignumCompare a b op)
  else
    match a, b with
    | VAL_INT i, VAL_INT j => vm_push (BOOL_VAL (f i j))
    | _, _ =>
      vm! x := as_number_vm a in
      vm! y := as_number_vm b in
      vm_push (BOOL_VAL (fd x y))
    end.

Definition exec_NOT : V unit := vm! a := vm_pop in vm_push (BOOL_VAL (negb (is_truthy a))).

(** ** Variables *)

Definition exec_GET_LOCAL (operand : Z) : V unit :=
  vm! base := register fp in
  vm! src := c_int (base + operand) in
  if (src <? 0) || (STACK_SIZE <=? src) then fails
  else vm! x := read_stack src in vm_push x.

Definition exec_SET_LOCAL (operand : Z) : V unit :=
  vm! base := register fp in
  vm! dst := c_int (base + operand) in
  if (dst <? 0) || (STACK_SIZE <=? dst) then fails
  else vm! x := vm_peek 0 in write_stack dst x ;; vm! _ := vm_pop in v_ret tt.

Definition has_upvalue (operand n : Z) : bool := (0 <=? operand) && (operand <? n).

Definition exec_GET_UPVALUE (operand : Z) : V unit :=
  vm! base := register fp in
  vm! closure_val := read_stack (base - 1) in
  match closure_val with
  | VAL_HEAP KClosure p =>
    vm! cl := closure_at p in
    let '(_, n, upvalues) := cl in
    if has_upvalue operand n then vm! x := defined dangling (array_get upvalues operand) in vm_push x
    else vm_push VAL_NIL
  | _ => vm_push VAL_NIL
  end.

Definition set_upvalue (p operand : Z) (x : VmValue) : V unit :=
  vm! cl := closure_at p in
  let '(f, n, upvalues) := cl in
  if has_upvalue operand n then
    vm! us := defined dangling (array_set upvalues operand x) in
    set_object p (HEAP_CLOSURE f n us)
  else v_ret tt.

Definition exec_SET_UPVALUE (operand : Z) : V unit :=
  vm! base := register fp in
  vm! closure_val := read_stack (base - 1) in
  match closure_val with
  | VAL_HEAP KClosure p => vm! x := vm_peek 0 in set_upvalue p operand x
  | _ => v_ret tt
  end ;;
  vm! _ := vm_pop in v_ret tt.

Definition exec_CLOSE_UPVALUE (operand : Z) : V unit :=
  vm! cl_val := vm_peek 0 in
  match cl_val with
  | VAL_HEAP KClosure p => set_upvalue p operand cl_val
  | _ => v_ret tt
  end.

(** ** Functions *)

(** [for (i = n - 1; i >= 0; i--) array[i] = vm_pop(vm)], in front of [acc]. *)
Fixpoint pop_into (n : nat) (acc : list VmValue) : V (list VmValue) :=
  match n with
  | O => v_ret acc
  | S n => vm! x := vm_pop in pop_into n (x :: acc)
  end.

Section Interpreter.
  Context (grants : Z -> bool).

Definition exec_CLOSURE (operand : Z) : V unit :=
  let const_idx := Z.land operand 65535 in
  let n := Z.min (Z.land (Z.shiftr operand 16) 255) 16 in
  vm! cs := register constants in
  vm! func_const := defined outside_constants (array_get cs const_idx) in
  vm! i := defined unspecified (as_integer func_const) in
  vm! ptr := alloc_object grants in
  vm! us := pop_into (Z.to_nat n) [] in
  set_object ptr (HEAP_CLOSURE (s32 i) n (us ++ repeat VAL_NIL (16 - Z.to_nat n))) ;;
  vm_push (CLOSURE_VAL ptr).

(** The winds inside of the continuation's extent are left, their after-thunks called. *)
Fixpoint unwind_winds (n : nat) : V unit :=
  match n with
  | O => v_ret tt
  | S n =>
    vm! k := register n_winds in
    vm! ws := register winds in
    modify (with_winds ws (k - 1)) ;;
    vm! w := defined outside_frames (array_get ws (k - 1)) in
    match after w with
    | VAL_HEAP KClosure _ => native (CallClosure (after w))
    | _ => unwind_winds n
    end
  end.

(** [memcpy] over the front of an array. *)
Definition overwrite {A} (saved l : list A) : list A := saved ++ skipn (length saved) l.

Definition restore (k : VmContinuation) (val : VmValue) : V unit :=
  vm! n := register n_winds in
  unwind_winds (Z.to_nat (n - k_n_winds k)) ;;
  if (STACK_SIZE <? k_sp k) || (MAX_FRAMES <? k_frame_count k) then fails
  else
    modify (fun v => with_values (overwrite (saved_stack k) (stack v)) (k_sp k) v) ;;
    modify (fun v => with_frames (overwrite (saved_frames k) (frames v)) (k_frame_count k) v) ;;
    modify (with_fp (k_fp k)) ;;
    modify (fun v => with_handlers (handlers v) (k_n_handlers k) v) ;;
    modify (with_pc (k_pc k)) ;;
    vm_push val.

Definition push_frame (ret_fp func_pc : Z) : V unit := fun v =>
  match array_set (frames v) (frame_count v) (mkFrame (pc v) ret_fp func_pc) with
  | Some fs => Next tt (with_frames fs (frame_count v + 1) v)
  | None => Fault outside_frames
  end.

(** A call of a closure, when [func] is no continuation. *)
Definition call_closure (argc : Z) (func : VmValue) : V unit :=
  match func with
  | VAL_HEAP KClosure p =>
    vm! cl := closure_at p in
    let '(func_pc, _, _) := cl in
    vm! n := register frame_count in
    if MAX_FRAMES <=? n then fails
    else
      vm! base := register fp in
      push_frame base func_pc ;;
      vm! top := register sp in
      vm! base := c_int (top - argc) in
      modify (with_fp base) ;;
      modify (with_pc func_pc)
  | _ => fails
  end.

(** [for (i = 0; i < argc; i++) stack[fp + i] = stack[sp - argc + i]]. *)
Fixpoint move_args (n : nat) (dst src : Z) : V unit :=
  match n with
  | O => v_ret tt
  | S n => vm! x := read_stack src in write_stack dst x ;; move_args n (dst + 1) (src + 1)
  end.

Definition tail_call_closure (argc : Z) (func : VmValue) : V unit :=
  match func with
  | VAL_HEAP KClosure p =>
    vm! cl := closure_at p in
    let '(func_pc, _, _) := cl in
    vm! base := register fp in
    vm! top := register sp in
    move_args (Z.to_nat argc) base (top - argc) ;;
    vm! top := c_int (base + argc) in
    modify (with_sp top) ;;
    write_stack (base - 1) func ;;
    modify (with_pc func_pc)
  | _ => fails
  end.

Definition exec_call (closure : Z -> VmValue -> V unit) (argc : Z) : V unit :=
  vm! top := register sp in
  vm! i := c_int (top - 1 - argc) in
  vm! func := read_stack i in
  match func with
  | VAL_HEAP KContinuation p =>
    if 1 <=? argc then
      vm! val := read_stack (top - 1) in
      vm! cont := continuation_at p in
      match cont with
      | Some k => restore k val
      | None => fails
      end
    else fails
  | _ => closure argc func
  end.

Definition exec_CALL : Z -> V unit := exec_call call_closure.
Definition exec_TAIL_CALL : Z -> V unit := exec_call tail_call_closure.

Definition exec_RETURN : V unit :=
  vm! res := vm_pop in
  vm! n := register frame_count in
  if n <=? 0 then vm_push res ;; modify with_halted ;; leave
  else
    modify (fun v => with_frames (frames v) (n - 1) v) ;;
    vm! fs := register frames in
    vm! f := defined outside_frames (array_get fs (n - 1)) in
    if return_pc f =? -1 then vm_push res ;; modify with_halted ;; leave
    else
      vm! base := register fp in
      modify (with_sp (base - 1)) ;;
      modify (with_fp (return_fp f)) ;;
      modify (with_pc (return_pc f)) ;;
      vm_push res.

(** ** Control flow *)

Definition exec_JUMP_IF_FALSE (operand : Z) : V unit :=
  vm! cond := vm_pop in
  if is_truthy cond then v_ret tt else modify (with_pc operand).

(** ** Pairs *)

Definition exec_CONS : V unit :=
  vm! car := vm_pop in
  vm! cdr := vm_pop in
  vm! ptr := alloc_object grants in
  set_object ptr (HEAP_CONS car cdr) ;;
  vm_push (PAIR_VAL ptr).

Definition exec_access (part : VmValue * VmValue -> VmValue) : V unit :=
  vm! pair := vm_pop in
  match pair with
  | VAL_HEAP KPair p => vm! c := cons_at p in vm_push (part c)
  | _ => fails
  end.

Definition exec_mutate (store : VmValue -> VmValue * VmValue -> HeapObject) : V unit :=
  vm! val := vm_pop in
  vm! pair := vm_pop in
  match pair with
  | VAL_HEAP KPair p => vm! c := cons_at p in set_object p (store val c)
  | _ => v_ret tt
  end ;;
  vm_push VAL_NIL.

Definition exec_test (f : VmValue -> bool) : V unit := vm! v := vm_pop in vm_push (BOOL_VAL (f v)).

(** ** Output *)

Definition exec_PRINT : V unit :=
  vm! v := vm_pop in
  match v with
  | VAL_VOID => v_ret tt
  | _ => modify (fun vm => if Z.of_nat (length (outputs vm)) <? 256 then with_outputs (outputs vm ++ [v]) vm else vm)
  end.

(** ** Vectors and strings *)

Definition exec_VEC_CREATE (count : Z) : V unit :=
  vm! ptr := alloc_object grants in
  set_object ptr (HEAP_VECTOR None) ;;
  new_block grants ;;
  vm! count := defined overflow (if count <? 0 then None else Some count) in
  vm! ok := vm_alloc grants in
  if negb ok && (0 <? count) then fails
  else
    vm! xs := pop_into (Z.to_nat count) [] in
    set_object ptr (HEAP_VECTOR (Some (mkVector xs count))) ;;
    vm_push (VAL_HEAP KVector ptr).

Definition index (idx : VmValue) : V Z := defined overflow (cast_int (as_number idx)).

Definition in_vector (i : Z) (vec : VmVector) : bool := (0 <=? i) && (i <? vec_len vec).

Definition exec_VEC_REF : V unit :=
  vm! idx := vm_pop in
  vm! vec_val := vm_pop in
  match vec_val with
  | VAL_HEAP KVector p =>
    vm! o := vector_at p in
    vm! i := index idx in
    match o with
    | Some vec =>
      if in_vector i vec then vm! x := defined dangling (array_get (items vec) i) in vm_push x
      else vm_push VAL_NIL
    | None => vm_push VAL_NIL
    end
  | _ => vm_push VAL_NIL
  end.

Definition exec_VEC_SET : V unit :=
  vm! val := vm_pop in
  vm! idx := vm_pop in
  vm! vec_val := vm_pop in
  match vec_val with
  | VAL_HEAP KVector p =>
    vm! o := vector_at p in
    vm! i := index idx in
    match o with
    | Some vec =>
      if in_vector i vec then
        vm! xs := defined dangling (array_set (items vec) i val) in
        set_object p (HEAP_VECTOR (Some (mkVector xs (vec_len vec))))
      else v_ret tt
    | None => v_ret tt
    end
  | _ => v_ret tt
  end ;;
  vm_push VAL_NIL.

Definition exec_VEC_LEN : V unit :=
  vm! vec_val := vm_pop in
  match vec_val with
  | VAL_HEAP KVector p =>
    vm! o := vector_at p in
    vm_push (VAL_INT match o with Some vec => vec_len vec | None => 0 end)
  | _ => vm_push (VAL_INT 0)
  end.

Definition exec_STR_REF : V unit :=
  vm! idx := vm_pop in
  vm! str_val := vm_pop in
  match str_val with
  | VAL_HEAP KString p =>
    vm! o := string_at p in
    vm! i := index idx in
    match o with
    | Some s => vm_push (VAL_CHAR match array_get s i with Some c => c | None => 0 end)
    | None => vm_push (VAL_CHAR 0)
    end
  | _ => vm_push (VAL_CHAR 0)
  end.

Definition exec_STR_LEN : V unit :=
  vm! str_val := vm_pop in
  match str_val with
  | VAL_HEAP KString p =>
    vm! o := string_at p in
    vm_push (VAL_INT match o with Some s => Z.of_nat (length s) | None => 0 end)
  | _ => vm_push (VAL_INT 0)
  end.

(** ** Blocks, continuations, handlers, winds *)

Definition exec_POPN (n : Z) : V unit :=
  vm! top := register sp in
  if (0 <? n) && (n <? top) then
    vm! x := read_stack (top - 1) in
    modify (with_sp (top - n)) ;;
    write_stack (top - n - 1) x
  else v_ret tt.

Definition exec_CALLCC : V unit :=
  vm! proc := vm_pop in
  match proc with
  | VAL_HEAP KClosure p =>
    vm! v := register (fun v => v) in
    if (STACK_SIZE <? sp v) || (MAX_FRAMES <? frame_count v) then fails
    else
      vm! cont_ptr := alloc_object grants in
      set_object cont_ptr (HEAP_CONTINUATION None) ;;
      new_block grants ;;
      set_object cont_ptr (HEAP_CONTINUATION (Some
        (mkContinuation (pc v) (fp v) (sp v) (frame_count v) (n_handlers v) (n_winds v)
          (firstn (Z.to_nat (sp v)) (stack v)) (firstn (Z.to_nat (frame_count v)) (frames v))))) ;;
      vm_push proc ;;
      vm_push (VAL_HEAP KContinuation cont_ptr) ;;
      vm! cl := closure_at p in
      let '(func_pc, _, _) := cl in
      vm! n := register frame_count in
      if MAX_FRAMES <=? n then fails
      else
        vm! base := register fp in
        push_frame base func_pc ;;
        modify (fun v => with_fp (sp v - 1) v) ;;
        modify (with_pc func_pc)
  | _ => vm_push VAL_NIL
  end.

Definition exec_INVOKE_CC : V unit :=
  vm! val := vm_pop in
  vm! cont_val := vm_pop in
  match cont_val with
  | VAL_HEAP KContinuation p =>
    vm! cont := continuation_at p in
    match cont with
    | Some k => restore k val
    | None => v_ret tt
    end
  | _ => v_ret tt
  end.

Definition exec_PUSH_HANDLER (operand : Z) : V unit := fun v =>
  if 16 <=? n_handlers v then fails v
  else
    match array_set (handlers v) (n_handlers v) (mkHandler operand (sp v) (fp v) (frame_count v) (n_winds v)) with
    | Some hs => Next tt (with_handlers hs (n_handlers v + 1) v)
    | None => Fault outside_frames
    end.

Definition exec_POP_HANDLER : V unit := modify (fun v => if 0 <? n_handlers v then with_handlers (handlers v) (n_handlers v - 1) v else v).

(** [for (i = n_args - 1; i >= n_fixed; i--)]: the list of the arguments from [n_fixed]. *)
Fixpoint pack_rest (n : nat) (i : Z) (l : VmValue) : V VmValue :=
  match n with
  | O => v_ret l
  | S n =>
    vm! item := read_stack i in
    vm! p := alloc_object grants in
    set_object p (HEAP_CONS item l) ;;
    pack_rest n (i - 1) (PAIR_VAL p)
  end.

Definition exec_PACK_REST (n_fixed : Z) : V unit :=
  vm! base := register fp in
  vm! top := register sp in
  vm! n_args := c_int (top - base) in
  vm! l := pack_rest (Z.to_nat (n_args - n_fixed)) (base + n_args - 1) VAL_NIL in
  vm! top := c_int (base + n_fixed) in
  modify (with_sp top) ;;
  vm_push l.

Definition exec_WIND_PUSH : V unit :=
  vm! after := vm_pop in
  vm! before := vm_pop in
  vm! n := register n_winds in
  if 32 <=? n then fails
  else
    vm! ws := register winds in
    vm! ws := defined outside_frames (array_set ws n (mkWind before after)) in
    modify (with_winds ws (n + 1)).

Definition exec_WIND_POP : V unit :=
  vm! n := register n_winds in
  if 0 <? n then unwind_winds 1 else v_ret tt.

(** ** The dispatch *)

Definition exec_instruction (op : OpCode) (operand : Z) : V unit :=
  match op with
  | OP_NOP | OP_OPEN_CLOSURE => v_ret tt
  | OP_CONST => fun v =>
    if (operand <? 0) || (n_constants v <=? operand) then fails v
    else (vm! x := defined outside_constants (array_get (constants v) operand) in vm_push x) v
  | OP_NIL => vm_push VAL_NIL
  | OP_TRUE => vm_push (BOOL_VAL true)
  | OP_FALSE => vm_push (BOOL_VAL false)
  | OP_POP => vm! _ := vm_pop in v_ret tt
  | OP_DUP => vm! x := vm_peek 0 in vm_push x
  | OP_ADD => exec_ADD
  | OP_SUB => exec_SUB
  | OP_MUL => exec_MUL
  | OP_DIV => exec_DIV
  | OP_MOD => exec_MOD
  | OP_NEG => exec_NEG
  | OP_ABS => exec_ABS
  | OP_EQ => compare OP_EQ Z.eqb double_eq
  | OP_LT => compare OP_LT Z.ltb double_lt
  | OP_GT => compare OP_GT Z.gtb (fun a b => double_lt b a)
  | OP_LE => compare OP_LE Z.leb double_le
  | OP_GE => compare OP_GE Z.geb (fun a b => double_le b a)
  | OP_NOT => exec_NOT
  | OP_GET_LOCAL => exec_GET_LOCAL operand
  | OP_SET_LOCAL => exec_SET_LOCAL operand
  | OP_GET_UPVALUE => exec_GET_UPVALUE operand
  | OP_SET_UPVALUE => exec_SET_UPVALUE operand
  | OP_CLOSURE => exec_CLOSURE operand
  | OP_CALL => exec_CALL operand
  | OP_TAIL_CALL => exec_TAIL_CALL operand
  | OP_RETURN => exec_RETURN
  | OP_JUMP | OP_LOOP => modify (with_pc operand)
  | OP_JUMP_IF_FALSE => exec_JUMP_IF_FALSE operand
  | OP_CONS => exec_CONS
  | OP_CAR => exec_access fst
  | OP_CDR => exec_access snd
  | OP_NULL_P => exec_test (fun v => match v with VAL_NIL => true | _ => false end)
  | OP_PRINT => exec_PRINT
  | OP_VOID => vm_push VAL_VOID
  | OP_HALT => modify with_halted ;; leave
  | OP_NATIVE_CALL => native (NativeCall operand)
  | OP_CLOSE_UPVALUE => exec_CLOSE_UPVALUE operand
  | OP_VEC_CREATE => exec_VEC_CREATE operand
  | OP_VEC_REF => exec_VEC_REF
  | OP_VEC_SET => exec_VEC_SET
  | OP_VEC_LEN => exec_VEC_LEN
  | OP_STR_REF => exec_STR_REF
  | OP_STR_LEN => exec_STR_LEN
  | OP_PAIR_P => exec_test (fun v => match v with VAL_HEAP KPair _ => true | _ => false end)
  | OP_NUM_P => exec_test (fun v => match v with VAL_INT _ | VAL_FLOAT _ => true | _ => false end)
  | OP_STR_P => exec_test (fun v => match v with VAL_HEAP KString _ => true | _ => false end)
  | OP_BOOL_P => exec_test (fun v => match v with VAL_BOOL _ => true | _ => false end)
  | OP_PROC_P => exec_test (fun v => match v with VAL_HEAP KClosure _ => true | _ => false end)
  | OP_VEC_P => exec_test (fun v => match v with VAL_HEAP KVector _ => true | _ => false end)
  | OP_SET_CAR => exec_mutate (fun val c => HEAP_CONS val (snd c))
  | OP_SET_CDR => exec_mutate (fun val c => HEAP_CONS (fst c) val)
  | OP_POPN => exec_POPN operand
  | OP_CALLCC => exec_CALLCC
  | OP_INVOKE_CC => exec_INVOKE_CC
  | OP_PUSH_HANDLER => exec_PUSH_HANDLER operand
  | OP_POP_HANDLER => exec_POP_HANDLER
  | OP_GET_EXN => vm! x := register current_exception in vm_push x
  | OP_PACK_REST => exec_PACK_REST operand
  | OP_WIND_PUSH => exec_WIND_PUSH
  | OP_WIND_POP => exec_WIND_POP
  end.

(** DISPATCH: the exit test, the fetch, the jump through the table. *)
Definition vm_step : V unit := fun v =>
  if halted v || error v || (vm_code_len v <=? pc v) then Leave v
  else
    match array_get (code v) (pc v) with
    | None => Fault outside_code
    | Some i =>
      match opcode_of (i_op i) with
      | None => Fault bad_opcode
      | Some op => exec_instruction op (i_operand i) (with_pc (pc v + 1) v)
      end
    end.

Inductive vm_result : Type :=
| Running (v : VM)
| Stopped (v : VM)
| Called (c : native_call) (v : VM)
| Faulted (f : fault).

Fixpoint vm_run (fuel : nat) (v : VM) : vm_result :=
  match fuel with
  | O => Running v
  | S fuel =>
    match vm_step v with
    | Next _ v' => vm_run fuel v'
    | Leave v' => Stopped v'
    | Native c v' => Called c v'
    | Fault f => Faulted f
    end
  end.

End Interpreter.

(** ** Examples *)

Definition assemble (l : list (OpCode * Z)) : list Instr := List.map (fun i => mkInstruction (opcode_byte (fst i)) (snd i)) l.

Definition stopped_with (r : vm_result) : option (list VmValue * bool) :=
  match r with
  | Stopped v => Some (firstn (Z.to_nat (sp v)) (stack v), error v)
  | _ => None
  end.

Definition always_granted : Z -> bool := fun _ => true.

(** 5 factorial, by a closure that calls itself. *)
Example factorial :
  stopped_with (vm_run always_granted 100 (fresh_vm (assemble
    [(OP_NIL, 0); (OP_CLOSURE, 2 + 65536); (OP_CLOSE_UPVALUE, 0); (OP_CONST, 0); (OP_CALL, 1); (OP_HALT, 0);
     (OP_GET_LOCAL, 0); (OP_CONST, 1); (OP_LE, 0); (OP_JUMP_IF_FALSE, 12); (OP_CONST, 1); (OP_RETURN, 0);
     (OP_GET_LOCAL, 0); (OP_GET_UPVALUE, 0); (OP_GET_LOCAL, 0); (OP_CONST, 1); (OP_SUB, 0); (OP_CALL, 1); (OP_MUL, 0); (OP_RETURN, 0)])
    [VAL_INT 5; VAL_INT 1; VAL_INT 6] 3))
  = Some ([VAL_INT 120], false).
Proof. vm_compute. reflexivity. Qed.
