(* ===== verification/VmLoad.v ===== *)
(** * Loading bytecode into a machine: lib/backend/eshkol_vm.c

    The checks of a decoded module against the limits of the machine and the policy of the
    host, the constants of the machine, and the run of one of its functions.  The handle,
    the machine and its code array are taken to be always_granted by malloc. *)

From Stdlib Require Import String Ascii ZArith List Lia Bool.
From S2P Require Import Prelude Doubles Dependent Eskb VmCore VmRun.
Import ListNotations.
Open Scope Z_scope.
Open Scope vm_scope.

Definition ESHKOL_VM_HOST_NATIVE_BASE : Z := 100000.

(** The arrays of a module that were never allocated have no elements. *)
Definition module_constants (m : EskbModule) : list loaded_const := match em_consts m with Some cs => cs | None => [] end.
Definition module_functions (m : EskbModule) : list EskbFunction := match em_functions m with Some fs => fs | None => [] end.
Definition module_n_constants (m : EskbModule) : Z := Z.of_nat (length (module_constants m)).

Definition eshkol_vm_validate_stack_operand (operand : Z) : bool := (0 <=? operand) && (operand <? STACK_SIZE).

(** ** eshkol_vm_validate_module_profile *)

Definition valid_function (code_len : Z) (fn : EskbFunction) : bool :=
  match cstring (ef_name fn) with [] => false | _ => true end && (0 <? ef_code_len fn) &&
  (0 <=? ef_n_locals fn) && (ef_n_locals fn <=? STACK_SIZE) &&
  (0 <=? ef_n_upvalues fn) && (ef_n_upvalues fn <=? 16) &&
  (0 <=? ef_code_offset fn) && (ef_code_offset fn <? code_len) && (ef_code_len fn <=? code_len - ef_code_offset fn).

Fixpoint distinct_names (fs : list EskbFunction) : bool :=
  match fs with
  | [] => true
  | fn :: fs => forallb (fun other => negb (same_cstring (ef_name fn) (ef_name other))) fs && distinct_names fs
  end.

Definition valid_instruction (code_len n_constants : Z) (consts : list loaded_const) (i : Z * Z) : bool :=
  let operand := snd i in
  match opcode_of (fst i) with
  | None => false
  | Some OP_CONST => (0 <=? operand) && (operand <? n_constants)
  | Some OP_CLOSURE =>
    (0 <=? operand) && (Z.land operand 65535 <? n_constants) &&
    match array_get consts (Z.land operand 65535) with Some c => lc_type c =? ESKB_CONST_INT64 | None => true end &&
    (Z.land (Z.shiftr operand 16) 255 <=? 16)
  | Some (OP_GET_LOCAL | OP_SET_LOCAL) => eshkol_vm_validate_stack_operand operand
  | Some (OP_GET_UPVALUE | OP_SET_UPVALUE | OP_OPEN_CLOSURE) => (0 <=? operand) && (operand <? 16)
  | Some (OP_CALL | OP_TAIL_CALL | OP_VEC_CREATE | OP_POPN | OP_PACK_REST) => eshkol_vm_validate_stack_operand operand
  | Some (OP_JUMP | OP_JUMP_IF_FALSE | OP_LOOP | OP_PUSH_HANDLER) => (0 <=? operand) && (operand <? code_len)
  | Some OP_NATIVE_CALL => 0 <=? operand
  | Some _ => true
  end.

Definition eshkol_vm_validate_module_profile (m : EskbModule) : bool :=
  (module_n_constants m <=? MAX_CONSTS) && (0 <? code_len m) && (code_len m <=? ESHKOL_VM_MAX_CODE) &&
  match module_functions m with [] => false | _ => true end &&
  forallb (valid_function (code_len m)) (module_functions m) && distinct_names (module_functions m) &&
  forallb (valid_instruction (code_len m) (module_n_constants m) (module_constants m)) (em_code m).

(** ** eshkol_vm_validate_load_policy *)

Record EshkolVmFunctionRequirement : Type := mkRequirement {
  req_name : list Z; req_n_params : Z; req_max_locals : Z; req_max_code_len : Z; require_no_upvalues : Z }.

Record EshkolVmLoadOptions : Type := mkOptions {
  reject_string_constants : bool;
  reject_desktop_native_calls : bool;
  required_functions : list (list Z);
  required_function_metadata : list EshkolVmFunctionRequirement }.

Definition eshkol_vm_default_load_options : EshkolVmLoadOptions := mkOptions false false [] [].

Definition eshkol_vm_find_module_function (m : EskbModule) (name : list Z) : option EskbFunction :=
  find (fun fn => same_cstring (ef_name fn) name) (module_functions m).

Definition meets (m : EskbModule) (req : EshkolVmFunctionRequirement) : bool :=
  match cstring (req_name req) with [] => false | _ => true end &&
  negb ((req_n_params req <? -1) || (req_max_locals req <? -1) || (req_max_code_len req <? -1)) &&
  ((require_no_upvalues req =? 0) || (require_no_upvalues req =? 1)) &&
  match eshkol_vm_find_module_function m (req_name req) with
  | None => false
  | Some fn =>
    negb ((0 <=? req_n_params req) && negb (ef_n_params fn =? req_n_params req)) &&
    negb ((0 <=? req_max_locals req) && (req_max_locals req <? ef_n_locals fn)) &&
    negb ((0 <=? req_max_code_len req) && (req_max_code_len req <? ef_code_len fn)) &&
    negb ((require_no_upvalues req =? 1) && negb (ef_n_upvalues fn =? 0))
  end.

Definition eshkol_vm_validate_function_requirements (m : EskbModule) (options : EshkolVmLoadOptions) : bool :=
  (length (required_functions options) <=? length (module_functions m))%nat &&
  forallb (fun name => match cstring name with [] => false | _ => true end &&
                       match eshkol_vm_find_module_function m name with Some _ => true | None => false end) (required_functions options) &&
  (length (required_function_metadata options) <=? length (module_functions m))%nat &&
  forallb (meets m) (required_function_metadata options).

Definition calls_desktop_native (i : Z * Z) : bool :=
  match opcode_of (fst i) with Some OP_NATIVE_CALL => snd i <? ESHKOL_VM_HOST_NATIVE_BASE | _ => false end.

Definition eshkol_vm_validate_load_policy (m : EskbModule) (options : EshkolVmLoadOptions) : bool :=
  eshkol_vm_validate_function_requirements m options &&
  (negb (reject_desktop_native_calls options) || negb (existsb calls_desktop_native (em_code m))).

(** ** The constants of the machine *)

Section Load.
  Context (grants : Z -> bool).

(** [vm_string_value] of a string that is there: the string, its bytes, its object. *)
Definition vm_string_value (data : list Z) : V VmValue :=
  vm! ok := vm_alloc grants in
  if negb ok then v_ret VAL_NIL
  else
    vm! ok := vm_alloc grants in
    if negb ok then v_ret VAL_NIL
    else
      vm! p := heap_alloc grants in
      match p with
      | None => modify with_error ;; v_ret VAL_NIL
      | Some ptr => set_object ptr (HEAP_STRING (Some data)) ;; v_ret (VAL_HEAP KString ptr)
      end.

(** The constant of the machine for one of the module; [None] makes the load fail. *)
Definition materialize (reject_strings : bool) (c : loaded_const) : V (option VmValue) :=
  if lc_type c =? ESKB_CONST_NIL then v_ret (Some VAL_NIL)
  else if lc_type c =? ESKB_CONST_INT64 then v_ret (Some (VAL_INT (lc_int c)))
  else if lc_type c =? ESKB_CONST_F64 then v_ret (Some (VAL_FLOAT (lc_float c)))
  else if lc_type c =? ESKB_CONST_BOOL then v_ret (Some (VAL_BOOL (s32 (lc_int c))))
  else if lc_type c =? ESKB_CONST_STRING then
    if reject_strings then v_ret None
    else
      match lc_string c with
      | None => v_ret None
      | Some data =>
        vm! x := vm_string_value data in
        vm! e := register error in
        v_ret (match x with VAL_HEAP KString _ => if e then None else Some x | _ => None end)
      end
  else v_ret (Some (VAL_INT (lc_int c))).

Definition set_constant (i : Z) (x : VmValue) : V unit := fun v =>
  match array_set (constants v) i x with
  | Some cs => Next tt (mkVM (code v) cs (n_constants v) (pc v) (stack v) (sp v) (frames v) (fp v) (frame_count v) (objects v) (requests v)
                          (outputs v) (handlers v) (n_handlers v) (current_exception v) (winds v) (n_winds v) (halted v) (error v))
  | None => Fault outside_constants
  end.

Fixpoint materialize_from (reject_strings : bool) (i : Z) (cs : list loaded_const) : V bool :=
  match cs with
  | [] => v_ret true
  | c :: cs =>
    vm! x := materialize reject_strings c in
    match x with
    | None => v_ret false
    | Some x => set_constant i x ;; materialize_from reject_strings (i + 1) cs
    end
  end.

Definition eshkol_vm_materialize_eskb_constants (m : EskbModule) (reject_strings : bool) : V bool :=
  if MAX_CONSTS <? module_n_constants m then v_ret false
  else
    vm! ok := materialize_from reject_strings 0 (module_constants m) in
    if ok then
      modify (fun v => mkVM (code v) (constants v) (module_n_constants m) (pc v) (stack v) (sp v) (frames v) (fp v) (frame_count v) (objects v) (requests v)
                         (outputs v) (handlers v) (n_handlers v) (current_exception v) (winds v) (n_winds v) (halted v) (error v)) ;;
      v_ret true
    else v_ret false.

(** A machine after [vm_create], with the code of a module. *)
Definition vm_with_code (m : EskbModule) : VM :=
  fresh_vm (List.map (fun i => mkInstruction (fst i) (snd i)) (em_code m)) (repeat VAL_NIL (Z.to_nat MAX_CONSTS)) 0.

(** [eshkol_vm_load_chunk_with_options] of a decoded module. *)
Definition eshkol_vm_load (m : EskbModule) (options : EshkolVmLoadOptions) : option VM :=
  if negb (eshkol_vm_validate_module_profile m) then None
  else if negb (eshkol_vm_validate_load_policy m options) then None
  else
    match eshkol_vm_materialize_eskb_constants m (reject_string_constants options) (vm_with_code m) with
    | Next true v => Some v
    | _ => None
    end.

(** ** Running a function *)

Definition eshkol_vm_prepare_entry (fn : EskbFunction) (v : VM) : VM :=
  mkVM (code v) (constants v) (n_constants v) (ef_code_offset fn) (stack v) 0 (frames v) 0 0 (objects v) (requests v)
    (outputs v) (handlers v) 0 VAL_NIL (winds v) 0 false false.

Definition closed_entry (fn : EskbFunction) : bool := (ef_n_params fn =? 0) && (ef_n_upvalues fn =? 0).

(** The function [eshkol_vm_run] enters, and the one [eshkol_vm_call] enters by its name. *)
Definition main_function (m : EskbModule) : option EskbFunction := find (fun _ => true) (module_functions m).

Definition enter (entry : option EskbFunction) (v : VM) : option VM :=
  match entry with
  | Some fn => if closed_entry fn then Some (eshkol_vm_prepare_entry fn v) else None
  | None => None
  end.

Definition eshkol_vm_run (fuel : nat) (m : EskbModule) (v : VM) : option vm_result :=
  match enter (main_function m) v with Some v => Some (vm_run grants fuel v) | None => None end.

Definition eshkol_vm_call (fuel : nat) (m : EskbModule) (name : list Z) (v : VM) : option vm_result :=
  match enter (eshkol_vm_find_module_function m name) v with Some v => Some (vm_run grants fuel v) | None => None end.

End Load.

(** [eshkol_vm_top_int64]. *)
Definition eshkol_vm_top_int64 (v : VM) : option Z :=
  if sp v <=? 0 then None
  else
    match array_get (stack v) (sp v - 1) with
    | Some (VAL_INT i) => Some i
    | Some (VAL_FLOAT f) => cast_int64 f
    | Some (VAL_BOOL b) => Some (if b =? 0 then 0 else 1)
    | _ => None
    end.
