(* ===== verification/VmSafety.v ===== *)
(** * Typed machines: the invariant of [vm_run]

    The kind of every object is fixed when it is filled, and every value that refers to an
    object carries its kind; registers keep to their bounds.  The invariant is kept by
    every instruction of validated code, whatever faults it runs into. *)

From Stdlib Require Import String Ascii ZArith List Lia Bool.
From S2P Require Import Prelude Doubles Dependent Eskb VmCore VmRun VmLoad.
Import ListNotations.
Open Scope Z_scope.
Open Scope vm_scope.

(** ** Arrays *)

Lemma array_get_range {A} (l : list A) i : 0 <= i < Z.of_nat (length l) -> exists x, array_get l i = Some x.
Proof.
  intros H. unfold array_get. destruct (Z.ltb_spec i 0); [lia|]. destruct (nth_error l (Z.to_nat i)) eqn:E; [eauto|].
  apply nth_error_None in E. lia.
Qed.

Lemma array_get_Some {A} (l : list A) i x : array_get l i = Some x -> 0 <= i < Z.of_nat (length l).
Proof.
  unfold array_get. destruct (Z.ltb_spec i 0); [discriminate|]. intros H0. assert (nth_error l (Z.to_nat i) <> None) as H1 by congruence.
  apply nth_error_Some in H1. lia.
Qed.

Lemma array_get_In {A} (l : list A) i x : array_get l i = Some x -> In x l.
Proof. unfold array_get. destruct (i <? 0); [discriminate|]. apply nth_error_In. Qed.

Lemma array_get_Forall {A} (P : A -> Prop) l i x : Forall P l -> array_get l i = Some x -> P x.
Proof. intros HF H. apply (proj1 (Forall_forall P l) HF), (array_get_In _ _ _ H). Qed.

Lemma array_get_app {A} (l l' : list A) i x : array_get l i = Some x -> array_get (l ++ l') i = Some x.
Proof.
  intros H. pose proof (array_get_Some _ _ _ H). unfold array_get in *. destruct (i <? 0); [discriminate|]. rewrite nth_error_app1 by lia. exact H.
Qed.

Lemma array_get_last {A} (l : list A) x : array_get (l ++ [x]) (Z.of_nat (length l)) = Some x.
Proof.
  unfold array_get. destruct (Z.ltb_spec (Z.of_nat (length l)) 0); [lia|]. rewrite Nat2Z.id, nth_error_app2, Nat.sub_diag by lia. reflexivity.
Qed.

Lemma length_replace {A} (l : list A) i v : length (replace_at l i v) = length l.
Proof. revert i. induction l as [|x l IH]; intros [|i]; cbn; congruence. Qed.

Lemma nth_error_replace {A} (l : list A) i j v : (i < length l)%nat -> nth_error (replace_at l i v) j = if Nat.eqb i j then Some v else nth_error l j.
Proof. revert i j. induction l as [|x l IH]; intros [|i] [|j]; cbn; intros H; try reflexivity; try lia. apply IH. lia. Qed.

Lemma array_set_Some {A} (l : list A) i v : 0 <= i < Z.of_nat (length l) -> array_set l i v = Some (replace_at l (Z.to_nat i) v).
Proof. intros H. unfold array_set. destruct (Z.ltb_spec i 0), (Z.leb_spec (Z.of_nat (length l)) i); cbn; try lia; reflexivity. Qed.

Lemma array_set_inv {A} (l l' : list A) i v : array_set l i v = Some l' -> 0 <= i < Z.of_nat (length l) /\ l' = replace_at l (Z.to_nat i) v.
Proof.
  unfold array_set. destruct (Z.ltb_spec i 0), (Z.leb_spec (Z.of_nat (length l)) i); cbn; try discriminate. intros [= <-]. split; [lia|reflexivity].
Qed.

Lemma array_get_replace {A} (l : list A) i j v : 0 <= i < Z.of_nat (length l) -> array_get (replace_at l (Z.to_nat i) v) j = if i =? j then Some v else array_get l j.
Proof.
  intros H. unfold array_get. destruct (Z.ltb_spec j 0).
  - destruct (Z.eqb_spec i j); [lia|reflexivity].
  - rewrite nth_error_replace by lia. destruct (Nat.eqb_spec (Z.to_nat i) (Z.to_nat j)), (Z.eqb_spec i j); try lia; reflexivity.
Qed.

Lemma Forall_replace {A} (P : A -> Prop) l i v : Forall P l -> P v -> Forall P (replace_at l i v).
Proof. intros HF Hv. revert i. induction HF as [|x l Hx HF IH]; intros [|i]; cbn; constructor; auto. Qed.

Lemma Forall_array_set {A} (P : A -> Prop) l l' i v : Forall P l -> P v -> array_set l i v = Some l' -> Forall P l' /\ length l' = length l.
Proof. intros HF Hv H. apply array_set_inv in H as (_ & ->). split; [apply Forall_replace; assumption|apply length_replace]. Qed.

Lemma Forall_firstn_skipn {A} (P : A -> Prop) n l : Forall P l -> Forall P (firstn n l) /\ Forall P (skipn n l).
Proof. intros HF. rewrite <- (firstn_skipn n l) in HF. apply Forall_app in HF. exact HF. Qed.

Lemma length_overwrite {A} (saved l : list A) : (length saved <= length l)%nat -> length (overwrite saved l) = length l.
Proof. intros H. unfold overwrite. rewrite length_app, length_skipn. lia. Qed.

(** ** Typing *)

Section Typing.
  (** The program, and whether it has a closure whose entry lies before the code. *)
  Context (C : list Instr) (CS : list VmValue) (N : Z) (Bad : Prop).

Abbreviation kinds := (list heap_kind).

Definition good_value (K : kinds) (v : VmValue) : Prop :=
  match v with VAL_HEAP k p => array_get K p = Some k | _ => True end.

Definition good_pc (p : Z) : Prop := 0 <= p \/ Bad.

(** Frame [i] of the stack of frames. *)
Definition good_frame (i : Z) (f : CallFrame) : Prop := good_pc (return_pc f) /\ 0 <= return_fp f <= STACK_SIZE /\ (0 < i -> 1 <= return_fp f).

Definition good_frames (fs : list CallFrame) (n : Z) : Prop := forall i f, array_get fs i = Some f -> i < n -> good_frame i f.

Record good_continuation (K : kinds) (k : VmContinuation) : Prop := {
  gk_pc : good_pc (k_pc k);
  gk_fp : 0 <= k_fp k <= STACK_SIZE /\ (0 < k_frame_count k -> 1 <= k_fp k);
  gk_sp : 0 <= k_sp k <= STACK_SIZE /\ Z.of_nat (length (saved_stack k)) = k_sp k;
  gk_frames : 0 <= k_frame_count k <= MAX_FRAMES /\ Z.of_nat (length (saved_frames k)) = k_frame_count k /\ good_frames (saved_frames k) (k_frame_count k);
  gk_handlers : 0 <= k_n_handlers k <= 16 /\ 0 <= k_n_winds k;
  gk_stack : Forall (good_value K) (saved_stack k);
}.

Definition good_object (K : kinds) (k : heap_kind) (o : HeapObject) : Prop :=
  match k, o with
  | KPair, HEAP_CONS a d => good_value K a /\ good_value K d
  | KClosure, HEAP_CLOSURE f n us => good_pc f /\ 0 <= n <= 16 /\ length us = 16%nat /\ Forall (good_value K) us
  | KString, HEAP_STRING _ => True
  | KVector, HEAP_VECTOR None => True
  | KVector, HEAP_VECTOR (Some vec) => vec_len vec = Z.of_nat (length (items vec)) /\ Forall (good_value K) (items vec)
  | KContinuation, HEAP_CONTINUATION None => True
  | KContinuation, HEAP_CONTINUATION (Some c) => good_continuation K c
  | KRational, HEAP_RATIONAL _ => True
  | KDual, HEAP_DUAL _ => True
  | KBignum, HEAP_OPAQUE _ | KComplex, HEAP_OPAQUE _ | KHyperDual, HEAP_OPAQUE _ | KOpaque _, HEAP_OPAQUE _ => True
  | _, _ => False
  end.

(** The objects that values refer to, and those of instructions that stopped half way. *)
Definition good_objects (K : kinds) (os : list HeapObject) : Prop :=
  exists os1 os2, os = os1 ++ os2 /\ Forall2 (good_object K) K os1 /\ Forall (fun o => exists k, good_object K k o) os2.

Definition good_wind (K : kinds) (w : Wind) : Prop := good_value K (before w) /\ good_value K (after w).

Record core (K : kinds) (v : VM) : Prop := {
  c_code : code v = C;
  c_consts : constants v = CS /\ n_constants v = N;
  c_lengths : length (stack v) = Z.to_nat STACK_SIZE /\ length (frames v) = Z.to_nat MAX_FRAMES /\ length (handlers v) = 16%nat /\ length (winds v) = 32%nat;
  c_counts : 0 <= frame_count v <= MAX_FRAMES /\ 0 <= n_handlers v <= 16 /\ 0 <= n_winds v <= 32;
  c_pc : good_pc (pc v);
  c_sp : 0 <= sp v;
  c_fp : 0 <= fp v <= STACK_SIZE;
  c_frames : good_frames (frames v) (frame_count v);
  c_objects : good_objects K (objects v);
  c_stack : Forall (good_value K) (stack v);
  c_constants : Forall (good_value K) CS;
  c_others : Forall (good_value K) (outputs v) /\ good_value K (current_exception v) /\ Forall (good_wind K) (winds v);
}.

(** Inside a function the slot of its closure is on the stack. *)
Definition based (v : VM) : Prop := 0 < frame_count v -> 1 <= fp v.

Definition good (K : kinds) (v : VM) : Prop := core K v /\ sp v <= STACK_SIZE /\ based v.

(** A machine between instructions; one that ran past its stack has stopped. *)
Definition machine_good (v : VM) : Prop := exists K, core K v /\ based v /\ (sp v <= STACK_SIZE \/ (error v = true /\ sp v < 2 * STACK_SIZE)).

Lemma good_machine K v : good K v -> machine_good v.
Proof. intros (Hc & Hs & Hb). exists K. auto. Qed.

(** *** More objects *)

Lemma good_value_app K K' v : good_value K v -> good_value (K ++ K') v.
Proof. destruct v; cbn; auto. apply array_get_app. Qed.

Lemma good_values_app K K' l : Forall (good_value K) l -> Forall (good_value (K ++ K')) l.
Proof. apply Forall_impl. intros v. apply good_value_app. Qed.

Lemma good_continuation_app K K' k : good_continuation K k -> good_continuation (K ++ K') k.
Proof. intros [H1 H2 H3 H4 H5 H6]. split; auto. apply good_values_app, H6. Qed.

Lemma good_object_app K K' k o : good_object K k o -> good_object (K ++ K') k o.
Proof.
  destruct k, o as [a d|f n us|s|[vec|]|[c|]|r|pr|t]; cbn; auto; intuition auto using good_value_app, good_values_app, good_continuation_app.
Qed.

Lemma core_heap K K' v os : good_objects (K ++ K') os -> core K v -> core (K ++ K') (with_objects os v).
Proof.
  intros Ho [H1 H2 H3 H4 H5 H6 H7 H8 H9 H10 H11 (H12 & H13 & H14)]. split; cbn; auto using good_values_app.
  split; [auto using good_values_app|]. split; [apply good_value_app, H13|]. eapply Forall_impl; [|exact H14]. intros w (A & B). split; apply good_value_app; assumption.
Qed.

Lemma good_objects_get K os p k : good_objects K os -> array_get K p = Some k -> exists o, array_get os p = Some o /\ good_object K k o.
Proof.
  intros (os1 & os2 & -> & HF & _) Hp. enough (exists o, array_get os1 p = Some o /\ good_object K k o) as (o & Ho & G).
  { exists o. split; [apply array_get_app, Ho|exact G]. }
  unfold array_get in *. destruct (p <? 0); [discriminate|]. revert Hp. generalize (Z.to_nat p). revert HF. generalize (good_object K). intros R HR.
  induction HR as [|k' o K' os1 Hk HR IH]; intros [|n]; cbn; try discriminate; [intros [= <-]; eauto|]. apply IH.
Qed.

(** [heap_alloc]. *)
Lemma good_objects_blank K os : good_objects K os -> good_objects K (os ++ [blank_object]).
Proof.
  intros (os1 & os2 & -> & HF & HT). exists os1, (os2 ++ [blank_object]). rewrite app_assoc. repeat split; [exact HF|]. apply Forall_app. split; [exact HT|].
  repeat constructor. exists KPair. cbn. auto.
Qed.

Lemma kinds_of K os : Forall (fun o => exists k, good_object K k o) os -> exists ks, Forall2 (good_object K) ks os.
Proof. induction 1 as [|o os (k & Hk) _ (ks & IH)]; [exists []; constructor|exists (k :: ks); constructor; assumption]. Qed.

Lemma Forall2_more K K' ks os : Forall2 (good_object K) ks os -> Forall2 (good_object (K ++ K')) ks os.
Proof. induction 1; constructor; auto using good_object_app. Qed.

(** An object is filled, or filled again. *)
Lemma good_objects_set K os p k o : good_objects K os -> Z.of_nat (length K) <= p < Z.of_nat (length os) -> good_object K k o ->
  exists K', good_objects (K ++ K') (replace_at os (Z.to_nat p) o) /\ array_get (K ++ K') p = Some k.
Proof.
  intros (os1 & os2 & -> & HF & HT) Hp Hk. pose proof (Forall2_length HF) as El. rewrite length_app in Hp.
  destruct (nth_error os2 (Z.to_nat p - length os1)) as [o0|] eqn:E; [|apply nth_error_None in E; lia].
  apply nth_error_split in E as (l1 & l2 & -> & E). apply Forall_app in HT as (HT1 & HT2). inversion HT2 as [|? ? _ HT3]; subst. clear HT2.
  destruct (kinds_of _ _ HT1) as (ks1 & F1), (kinds_of _ _ HT3) as (ks2 & F2). exists (ks1 ++ k :: ks2).
  assert (Er : replace_at (os1 ++ l1 ++ o0 :: l2) (Z.to_nat p) o = os1 ++ l1 ++ o :: l2).
  { replace (Z.to_nat p) with (length os1 + length l1)%nat by lia. clear. induction os1 as [|x os1 IH]; cbn; [|f_equal; exact IH].
    induction l1 as [|y l1 IH]; cbn; [reflexivity|f_equal; exact IH]. }
  rewrite Er. split.
  - exists (os1 ++ l1 ++ o :: l2), []. rewrite app_nil_r. repeat split; [|constructor].
    repeat (apply Forall2_app || (constructor; [apply good_object_app, Hk|])); apply Forall2_more; assumption.
  - unfold array_get. destruct (Z.ltb_spec p 0); [lia|]. rewrite nth_error_app2 by lia. pose proof (Forall2_length F1) as E1.
    rewrite nth_error_app2 by lia. replace (Z.to_nat p - length K - length ks1)%nat with O by lia. reflexivity.
Qed.

(** An object is changed. *)
Lemma good_objects_change K os p k o : good_objects K os -> array_get K p = Some k -> good_object K k o -> good_objects K (replace_at os (Z.to_nat p) o).
Proof.
  intros (os1 & os2 & -> & HF & HT) Hp Hk. pose proof (Forall2_length HF) as El. pose proof (array_get_Some _ _ _ Hp) as Hr.
  exists (replace_at os1 (Z.to_nat p) o), os2. repeat split; [| |exact HT].
  - assert (Hl : (Z.to_nat p < length os1)%nat) by lia. revert Hl. generalize (Z.to_nat p). clear. induction os1 as [|x os1 IH]; intros [|n]; cbn; intros H; try lia; [reflexivity|]. f_equal. apply IH. lia.
  - unfold array_get in Hp. destruct (p <? 0); [discriminate|]. revert Hp. generalize (Z.to_nat p). revert HF Hk. generalize (good_object K). intros R HF Hk. clear El Hr HT. induction HF as [|k' x K' os1 Hx HF IH]; intros [|n]; cbn; try discriminate.
    + intros [= ->]. constructor; assumption.
    + intros Hn. constructor; auto.
Qed.

(** ** A calculus of instructions *)

Definition keeps (F : fault -> Prop) {A} (m : V A) (v : VM) (Q : A -> VM -> Prop) : Prop :=
  match m v with
  | Next a v' => Q a v'
  | Leave v' | Native _ v' => machine_good v'
  | Fault f => F f
  end.

Lemma keeps_ret F {A} (a : A) v (Q : A -> VM -> Prop) : Q a v -> keeps F (v_ret a) v Q.
Proof. exact (fun H => H). Qed.

Lemma keeps_bind F {A B} (m : V A) (k : A -> V B) v Q : keeps F m v (fun a v' => keeps F (k a) v' Q) -> keeps F (v_bind m k) v Q.
Proof. unfold keeps, v_bind. destruct (m v); auto. Qed.

Lemma keeps_mono F {A} (m : V A) v (Q Q' : A -> VM -> Prop) : (forall a v', Q a v' -> Q' a v') -> keeps F m v Q -> keeps F m v Q'.
Proof. unfold keeps. intros H. destruct (m v); auto. Qed.

Lemma keeps_call F {A B} (m : V A) (k : A -> V B) v P Q :
  keeps F m v P -> (forall a v', P a v' -> keeps F (k a) v' Q) -> keeps F (v_bind m k) v Q.
Proof. intros Hm Hk. apply keeps_bind. eapply keeps_mono; [|exact Hm]. exact Hk. Qed.

Lemma keeps_get F {A B} (f : VM -> A) (k : A -> V B) v Q : keeps F (k (f v)) v Q -> keeps F (v_bind (register f) k) v Q.
Proof. exact (fun H => H). Qed.

Lemma keeps_modify F {B} (f : VM -> VM) (k : unit -> V B) v Q : keeps F (k tt) (f v) Q -> keeps F (v_bind (modify f) k) v Q.
Proof. exact (fun H => H). Qed.

Lemma keeps_defined (F : fault -> Prop) {A B} f (o : option A) (k : A -> V B) v Q :
  (o = None -> F f) -> (forall a, o = Some a -> keeps F (k a) v Q) -> keeps F (v_bind (defined f o) k) v Q.
Proof. unfold keeps, v_bind, defined. destruct o as [a|]; intros H1 H2; [exact (H2 a eq_refl)|exact (H1 eq_refl)]. Qed.

(** A value that is there. *)
Lemma keeps_here F {A B} f (o : option A) (k : A -> V B) v Q a : o = Some a -> keeps F (k a) v Q -> keeps F (v_bind (defined f o) k) v Q.
Proof. intros -> H. exact H. Qed.

Lemma keeps_int F {B} x (k : Z -> V B) v Q : - 2 ^ 31 <= x < 2 ^ 31 -> keeps F (k x) v Q -> keeps F (v_bind (c_int x) k) v Q.
Proof. intros Hx. apply keeps_here. destruct (Z.leb_spec (- 2 ^ 31) x), (Z.ltb_spec x (2 ^ 31)); cbn; try lia; reflexivity. Qed.

Lemma good_error K v : good K v -> good K (with_error v).
Proof. intros ([H1 H2 H3 H4 H5 H6 H7 H8 H9 H10 H11 H12] & Hs & Hb). split; [split; cbn; assumption|]. split; [exact Hs|exact Hb]. Qed.

Lemma good_stack K v s n : good K v -> Forall (good_value K) s -> length s = Z.to_nat STACK_SIZE -> 0 <= n <= STACK_SIZE -> good K (with_values s n v).
Proof.
  intros ([H1 H2 (H3 & H3') H4 H5 H6 H7 H8 H9 H10 H11 H12] & Hs & Hb) Hf Hl Hn. split; [split; cbn; auto; lia|]. split; [cbn; lia|exact Hb].
Qed.

Lemma good_with_pc K v p : good K v -> good_pc p -> good K (with_pc p v).
Proof. intros ([H1 H2 H3 H4 H5 H6 H7 H8 H9 H10 H11 H12] & Hs & Hb) Hp. split; [split; cbn; assumption|]. split; [exact Hs|exact Hb]. Qed.

Lemma keeps_fails F {A} K v (Q : A -> VM -> Prop) : good K v -> keeps F fails v Q.
Proof. intros G. apply (good_machine K), good_error, G. Qed.

Lemma keeps_native F {A} K c v (Q : A -> VM -> Prop) : good K v -> keeps F (native c) v Q.
Proof. apply good_machine. Qed.

(** *** The stack *)

(** All registers but the stack and the error flag. *)
Definition quiet (v v' : VM) : Prop :=
  objects v' = objects v /\ pc v' = pc v /\ fp v' = fp v /\ frames v' = frames v /\ frame_count v' = frame_count v /\ winds v' = winds v /\ n_winds v' = n_winds v /\
  handlers v' = handlers v /\ n_handlers v' = n_handlers v.

Lemma quiet_refl v : quiet v v.
Proof. repeat split. Qed.

Lemma quiet_trans v v1 v2 : quiet v v1 -> quiet v1 v2 -> quiet v v2.
Proof. unfold quiet. intuition congruence. Qed.

Lemma keeps_push F K x v : good K v -> good_value K x ->
  keeps F (vm_push x) v (fun _ v' => good K v' /\ quiet v v' /\ sp v' = Z.min STACK_SIZE (sp v + 1)).
Proof.
  intros G Hx. pose proof G as ([_ _ (Hl & _) _ _ Hp _ _ _ Hst _ _] & Hs & _). unfold keeps, vm_push.
  destruct (Z.leb_spec STACK_SIZE (sp v)); [split; [apply good_error, G|split; [repeat split|cbn; unfold STACK_SIZE in *; lia]]|].
  unfold v_bind, write_stack, modify. assert (Hr : 0 <= sp v < Z.of_nat (length (stack v))) by (rewrite Hl; unfold STACK_SIZE in *; lia).
  rewrite (array_set_Some _ _ _ Hr). split; [|split; [repeat split|cbn; unfold STACK_SIZE in *; lia]].
  apply (good_stack K (with_values _ (sp v) v)); cbn; [apply good_stack| | |]; try assumption; try (apply Forall_replace; assumption); rewrite ?length_replace; try assumption; unfold STACK_SIZE in *; lia.
Qed.

Lemma keeps_push_end F K x v : good K v -> good_value K x -> keeps F (vm_push x) v (fun _ v' => machine_good v').
Proof. intros G Hx. eapply keeps_mono; [|apply keeps_push; eassumption]. cbv beta. intros _ v' (G' & _). apply (good_machine K), G'. Qed.

Lemma keeps_pop F K v : good K v -> keeps F vm_pop v (fun x v' => good K v' /\ good_value K x /\ quiet v v' /\ sp v' = Z.max 0 (sp v - 1)).
Proof.
  intros G. pose proof G as ([_ _ (Hl & _) _ _ Hp _ _ _ Hst _ _] & Hs & _). unfold keeps, vm_pop.
  destruct (Z.leb_spec (sp v) 0); [split; [apply good_error, G|split; [exact I|split; [repeat split|cbn; lia]]]|].
  unfold v_bind, modify, register, read_stack, defined. cbn. destruct (array_get_range (stack v) (sp v - 1)) as (x & E); [rewrite Hl; unfold STACK_SIZE in *; lia|].
  rewrite E. split; [apply good_stack; try assumption; unfold STACK_SIZE in *; lia|]. split; [exact (array_get_Forall _ _ _ _ Hst E)|]. split; [repeat split|cbn; lia].
Qed.

Lemma kb_pop F {B} K (k : VmValue -> V B) v Q : good K v ->
  (forall x v', good K v' -> good_value K x -> quiet v v' -> sp v' = Z.max 0 (sp v - 1) -> keeps F (k x) v' Q) -> keeps F (v_bind vm_pop k) v Q.
Proof. intros G Hk. eapply keeps_call; [apply keeps_pop, G|]. cbv beta. intros x v' (G' & Hx & Hq & Hs). auto. Qed.

Lemma kb_push F {B} K x (k : unit -> V B) v Q : good K v -> good_value K x ->
  (forall v', good K v' -> quiet v v' -> sp v' = Z.min STACK_SIZE (sp v + 1) -> keeps F (k tt) v' Q) -> keeps F (v_bind (vm_push x) k) v Q.
Proof. intros G Hx Hk. eapply keeps_call; [apply keeps_push; eassumption|]. cbv beta. intros [] v' (G' & Hq & Hs). auto. Qed.

Lemma kb_peek F {B} K (k : VmValue -> V B) v Q : good K v -> (forall x, good_value K x -> keeps F (k x) v Q) -> keeps F (v_bind (vm_peek 0) k) v Q.
Proof.
  intros G Hk. pose proof G as ([_ _ (Hl & _) _ _ Hp _ _ _ Hst _ _] & Hs & _). unfold keeps, v_bind, vm_peek, read_stack, defined.
  destruct (Z.ltb_spec (sp v - 1 - 0) 0), (Z.leb_spec (sp v) (sp v - 1 - 0)); cbn [orb]; try (apply (Hk VAL_NIL); exact I).
  destruct (array_get_range (stack v) (sp v - 1 - 0)) as (x & E); [rewrite Hl; unfold STACK_SIZE in *; lia|]. rewrite E. apply Hk. exact (array_get_Forall _ _ _ _ Hst E).
Qed.

(** Reads and writes of slots; outside of the stack they are faults. *)
Lemma kb_read (F : fault -> Prop) {B} K i (k : VmValue -> V B) v Q : good K v -> (0 <= i \/ F below_stack) -> (i < STACK_SIZE \/ F above_stack) ->
  (forall x, good_value K x -> 0 <= i < STACK_SIZE -> keeps F (k x) v Q) -> keeps F (v_bind (read_stack i) k) v Q.
Proof.
  intros G Hi Hj Hk. pose proof G as ([_ _ (Hl & _) _ _ _ _ _ _ Hst _ _] & _). unfold read_stack. unfold keeps, v_bind, defined. destruct (array_get (stack v) i) as [x|] eqn:E.
  - apply Hk; [exact (array_get_Forall _ _ _ _ Hst E)|]. pose proof (array_get_Some _ _ _ E). rewrite Hl in *. unfold STACK_SIZE in *. lia.
  - unfold no_slot. destruct (Z.ltb_spec i 0); [destruct Hi as [Hi|Hi]; [lia|exact Hi]|]. destruct Hj as [Hj|Hj]; [|exact Hj].
    destruct (array_get_range (stack v) i) as (x & E'); [rewrite Hl; unfold STACK_SIZE in *; lia|congruence].
Qed.

Lemma kb_write (F : fault -> Prop) {B} K i x (k : unit -> V B) v Q : good K v -> good_value K x -> (0 <= i \/ F below_stack) -> (i < STACK_SIZE \/ F above_stack) ->
  (forall v', good K v' -> quiet v v' -> sp v' = sp v -> 0 <= i < STACK_SIZE -> keeps F (k tt) v' Q) -> keeps F (v_bind (write_stack i x) k) v Q.
Proof.
  intros G Hx Hi Hj Hk. pose proof G as ([_ _ (Hl & _) _ _ Hp _ _ _ Hst _ _] & Hs & _). unfold keeps, v_bind, write_stack. destruct (array_set (stack v) i x) as [s|] eqn:E.
  - destruct (Forall_array_set _ _ _ _ _ Hst Hx E) as (Hf & Hl'). apply array_set_inv in E as (Hr & _). apply Hk; [apply good_stack; try assumption; try congruence; lia|repeat split|reflexivity|].
    rewrite Hl in Hr. unfold STACK_SIZE in *. lia.
  - unfold no_slot. destruct (Z.ltb_spec i 0); [destruct Hi as [Hi|Hi]; [lia|exact Hi]|]. destruct Hj as [Hj|Hj]; [|exact Hj].
    rewrite array_set_Some in E by (rewrite Hl; unfold STACK_SIZE in *; lia). discriminate.
Qed.

(** *** Objects *)

Context (grants : Z -> bool).

Lemma good_requests K v n : good K v -> good K (with_requests n v).
Proof. intros ([H1 H2 H3 H4 H5 H6 H7 H8 H9 H10 H11 H12] & Hs & Hb). split; [split; cbn; assumption|]. split; [exact Hs|exact Hb]. Qed.

Lemma good_with_objects K v os : good K v -> good_objects K os -> good K (with_objects os v).
Proof. intros ([H1 H2 H3 H4 H5 H6 H7 H8 H9 H10 H11 H12] & Hs & Hb) Ho. split; [split; cbn; assumption|]. split; [exact Hs|exact Hb]. Qed.

(** The object at [p] is not referred to yet. *)
Definition unborn (K : kinds) (p : Z) (v : VM) : Prop := Z.of_nat (length K) <= p < next_free v.

Lemma unborn_quiet K p v v' : unborn K p v -> quiet v v' -> unborn K p v'.
Proof. unfold unborn, next_free. intros H (-> & _). exact H. Qed.

Lemma kb_new F {B} K (k : Z -> V B) v Q : good K v ->
  (forall p v', good K v' -> unborn K p v' -> sp v' = sp v -> fp v' = fp v -> keeps F (k p) v' Q) -> keeps F (v_bind (alloc_object grants) k) v Q.
Proof.
  intros G Hk. apply keeps_bind. unfold alloc_object. apply keeps_bind. unfold heap_alloc. unfold keeps at 1.
  destruct (HEAP_SIZE <=? next_free v); [apply (keeps_fails _ K), G|]. unfold v_bind, vm_alloc at 1.
  assert (G' : good K (with_requests (requests v + 1) v)) by (apply good_requests, G).
  destruct (grants (requests v)); [|apply (keeps_fails _ K), G']. unfold register, modify. cbn. apply Hk; cbn; try reflexivity.
  - pose proof G' as ([_ _ _ _ _ _ _ _ Ho _ _ _] & _ & _). apply (good_with_objects K _ _ G'), good_objects_blank, Ho.
  - unfold unborn, next_free. cbn. rewrite length_app. cbn. pose proof G as ([_ _ _ _ _ _ _ _ (os1 & os2 & -> & HF & _) _ _ _] & _ & _).
    rewrite length_app, (Forall2_length HF). lia.
Qed.

Lemma kb_block F {B} K (k : unit -> V B) v Q : good K v ->
  (forall v', good K v' -> quiet v v' -> sp v' = sp v -> keeps F (k tt) v' Q) -> keeps F (v_bind (new_block grants) k) v Q.
Proof.
  intros G Hk. apply keeps_bind. unfold new_block. unfold keeps at 1. unfold v_bind, vm_alloc.
  assert (G' : good K (with_requests (requests v + 1) v)) by (apply good_requests, G).
  destruct (grants (requests v)); [|apply (keeps_fails _ K), G']. cbn. apply Hk; [exact G'|repeat split|reflexivity].
Qed.

Lemma kb_alloc F {B} K (k : bool -> V B) v Q : good K v ->
  (forall ok v', good K v' -> quiet v v' -> sp v' = sp v -> keeps F (k ok) v' Q) -> keeps F (v_bind (vm_alloc grants) k) v Q.
Proof. intros G Hk. apply Hk; [apply good_requests, G|repeat split|reflexivity]. Qed.

Lemma kb_fill F {B} K p kd o (k : unit -> V B) v Q : good K v -> unborn K p v -> good_object K kd o ->
  (forall K' v', good (K ++ K') v' -> array_get (K ++ K') p = Some kd -> sp v' = sp v /\ fp v' = fp v -> keeps F (k tt) v' Q) -> keeps F (v_bind (set_object p o) k) v Q.
Proof.
  intros (Gc & Gs & Gb) Hu Ho Hk. pose proof (c_objects _ _ Gc) as HO. unfold unborn, next_free in Hu.
  destruct (good_objects_set K (objects v) p kd o HO Hu Ho) as (K' & HO' & HK'). unfold keeps, v_bind, set_object.
  rewrite array_set_Some by lia. apply (Hk K'); [|exact HK'|split; reflexivity]. split; [apply core_heap; assumption|]. split; [exact Gs|exact Gb].
Qed.

(** An object that is not referred to yet stays so. *)
Lemma kb_draft F {B} K p kd o (k : unit -> V B) v Q : good K v -> unborn K p v -> (forall K', good_object K' kd o) ->
  (forall v', good K v' -> unborn K p v' -> sp v' = sp v -> fp v' = fp v -> keeps F (k tt) v' Q) -> keeps F (v_bind (set_object p o) k) v Q.
Proof.
  intros G Hu Ho Hk. pose proof G as ([_ _ _ _ _ _ _ _ (os1 & os2 & E & HF & HT) _ _ _] & _ & _). pose proof (Forall2_length HF) as El.
  unfold unborn, next_free in Hu. rewrite E, length_app in Hu. unfold keeps, v_bind, set_object.
  rewrite array_set_Some by (rewrite E, length_app; lia). apply Hk; cbn; try reflexivity.
  - apply good_with_objects; [exact G|]. exists os1, (replace_at os2 (Z.to_nat p - length os1) o). repeat split; [|exact HF|apply Forall_replace; eauto].
    rewrite E. replace (Z.to_nat p) with (length os1 + (Z.to_nat p - length os1))%nat at 1 by lia. generalize (Z.to_nat p - length os1)%nat as n. clear.
    intros n. induction os1 as [|x os1 IH]; cbn; [reflexivity|f_equal; exact IH].
  - unfold unborn, next_free. cbn. rewrite length_replace, E, length_app. lia.
Qed.

Lemma kb_object F {B} K p kd (k : HeapObject -> V B) v Q : good K v -> good_value K (VAL_HEAP kd p) ->
  (forall o, good_object K kd o -> keeps F (k o) v Q) -> keeps F (v_bind (object_at p) k) v Q.
Proof. intros G Hp Hk. destruct (good_objects_get K _ p kd (c_objects _ _ (proj1 G)) Hp) as (o & E & Ho). unfold object_at. unfold keeps, v_bind, defined. rewrite E. apply Hk, Ho. Qed.

Lemma kb_store F {B} K p kd o (k : unit -> V B) v Q : good K v -> good_value K (VAL_HEAP kd p) -> good_object K kd o ->
  (forall v', good K v' -> quiet (with_objects [] v) (with_objects [] v') -> sp v' = sp v -> keeps F (k tt) v' Q) -> keeps F (v_bind (set_object p o) k) v Q.
Proof.
  intros G Hp Ho Hk. destruct (good_objects_get K _ p kd (c_objects _ _ (proj1 G)) Hp) as (o' & E & _). unfold keeps, v_bind, set_object.
  rewrite array_set_Some by exact (array_get_Some _ _ _ E). apply Hk; [|repeat split|reflexivity].
  apply good_with_objects; [exact G|]. apply (good_objects_change K _ p kd); [exact (c_objects _ _ (proj1 G))|exact Hp|exact Ho].
Qed.

End Typing.
