(* ===== verification/VmSteps.v ===== *)
(** * Every instruction keeps a machine typed *)

From Stdlib Require Import String Ascii ZArith List Lia Bool.
From S2P Require Import Prelude Doubles Dependent Eskb VmCore VmRun VmLoad VmSafety.
Import ListNotations.
Open Scope Z_scope.
Open Scope vm_scope.

(** The faults an instruction with operand [x] can run into in validated code: too few
    values for a call, the slot of the closure outside of a function, and more arguments
    of a tail call than there are slots above its frame. *)
Definition may (op : OpCode) (x : Z) (v : VM) (f : fault) : Prop :=
  match f with
  | below_stack => (In op [OP_CALL; OP_TAIL_CALL] /\ sp v <= x) \/ (In op [OP_TAIL_CALL; OP_GET_UPVALUE; OP_SET_UPVALUE] /\ fp v = 0)
  | above_stack => op = OP_TAIL_CALL /\ STACK_SIZE < fp v + x
  | overflow => In op [OP_MOD; OP_VEC_REF; OP_VEC_SET; OP_STR_REF]
  | _ => False
  end.

Section Steps.
  Context (C : list Instr) (CS : list VmValue) (N : Z) (Bad : Prop) (grants : Z -> bool).
  Context (HN : N <= Z.of_nat (length CS)).

Abbreviation good := (good C CS N Bad).
Abbreviation good_value := (good_value).
Abbreviation machine_good := (machine_good C CS N Bad).
Abbreviation keeps := (keeps C CS N Bad).

Definition operand_ok (op : OpCode) (operand : Z) : Prop :=
  match op with
  | OP_CLOSURE => exists i, array_get CS (Z.land operand 65535) = Some (VAL_INT i) /\ (0 <= s32 i \/ Bad)
  | OP_GET_LOCAL | OP_SET_LOCAL | OP_CALL | OP_TAIL_CALL | OP_VEC_CREATE | OP_PACK_REST => 0 <= operand < STACK_SIZE
  | OP_JUMP | OP_JUMP_IF_FALSE | OP_LOOP => 0 <= operand
  | _ => True
  end.

Lemma good_bool K b : good_value K (BOOL_VAL b).
Proof. exact Logic.I. Qed.

Lemma good_number K d : good_value K (number_val d).
Proof. unfold number_val. destruct (integral d); [destruct (double_lt _ _)|]; exact Logic.I. Qed.

Ltac good_val :=
  lazymatch goal with
  | |- VmSafety.good_value _ (BOOL_VAL _) => apply good_bool
  | |- VmSafety.good_value _ (number_val _) => apply good_number
  | |- VmSafety.good_value _ ?x => first [assumption|(assert_fails (is_var x)); exact Logic.I]
  end.

Ltac kpop x := eapply kb_pop; [eassumption|]; let v := fresh "v" in let G := fresh "G" in let X := fresh "X" in let Hq := fresh "Hq" in let Hs := fresh "Hs" in intros x v G X Hq Hs.
Ltac kpush := eapply kb_push; [eassumption|good_val|let v := fresh "v" in let G := fresh "G" in let Hq := fresh "Hq" in let Hs := fresh "Hs" in intros v G Hq Hs].
Ltac kend :=
  lazymatch goal with
  | |- VmSafety.keeps _ _ _ _ _ (vm_push _) _ _ => eapply keeps_push_end; [eassumption|good_val]
  | |- VmSafety.keeps _ _ _ _ _ fails _ _ => eapply keeps_fails; eassumption
  | |- VmSafety.keeps _ _ _ _ _ (native _) _ _ => eapply keeps_native; eassumption
  | |- VmSafety.keeps _ _ _ _ _ (v_ret _) _ _ => apply keeps_ret; eapply good_machine; eassumption
  end.

Ltac kstep :=
  lazymatch goal with
  | |- VmSafety.keeps _ _ _ _ _ (if ?c then _ else _) _ _ => destruct c
  | |- VmSafety.keeps _ _ _ _ _ (match ?x with VAL_NIL => _ | _ => _ end) _ _ => destruct x
  | |- VmSafety.keeps _ _ _ _ _ (match ?x with KPair => _ | _ => _ end) _ _ => destruct x
  | |- VmSafety.keeps _ _ _ _ _ (v_bind vm_pop _) _ _ => let x := fresh "x" in kpop x
  | |- VmSafety.keeps _ _ _ _ _ (v_bind (vm_push _) _) _ _ => kpush
  | |- _ => kend
  end.

Lemma push_back_good F K a b id v : good K v -> good_value K a -> good_value K b -> keeps F (push_back a b id) v (fun _ v' => machine_good v').
Proof. intros G Ha Hb. unfold push_back. repeat kstep. Qed.

Ltac kslow :=
  lazymatch goal with
  | |- VmSafety.keeps _ _ _ _ _ (push_back _ _ _) _ _ => eapply push_back_good; eassumption
  | |- _ => kstep
  end.

Lemma arith_good F K h d r c op f fd v : good K v -> keeps F (arith h d r c op f fd) v (fun _ v' => machine_good v').
Proof. intros G. unfold arith. repeat kslow. Qed.

Lemma DIV_good F K v : good K v -> keeps F exec_DIV v (fun _ v' => machine_good v').
Proof. intros G. unfold exec_DIV. cbv zeta. repeat kslow. Qed.

Lemma MOD_good F K v : F overflow -> good K v -> keeps F exec_MOD v (fun _ v' => machine_good v').
Proof.
  intros HF G. unfold exec_MOD. cbv zeta. do 2 kslow. destruct (vm_either_bignum _ _); [kend|].
  assert (Ho : keeps F (defined overflow (@None unit)) v1 (fun _ v' => machine_good v')) by exact HF.
  repeat first [kslow|exact Ho].
Qed.

Lemma NEG_good F K v : good K v -> keeps F exec_NEG v (fun _ v' => machine_good v').
Proof. intros G. unfold exec_NEG. repeat kslow. Qed.

Lemma ABS_good F K v : good K v -> keeps F exec_ABS v (fun _ v' => machine_good v').
Proof. intros G. unfold exec_ABS. repeat kslow. Qed.

Lemma kb_number F {B} K x (k : Z -> V B) v Q : good K v -> good_value K x -> (forall d, keeps F (k d) v Q) -> keeps F (v_bind (as_number_vm x) k) v Q.
Proof.
  intros G Hx Hk. unfold as_number_vm. destruct x as [| | | | | |kd p]; try (apply Hk). destruct kd; try (apply Hk).
  - apply keeps_bind. eapply kb_object; [exact G|exact Hx|]. intros o Ho. destruct o as [| | | | |[[num denom]|]| |]; try contradiction; apply Hk.
  - apply keeps_bind. eapply kb_object; [exact G|exact Hx|]. intros o Ho. destruct o as [| | | | | |[primal|]|]; try contradiction; apply Hk.
Qed.

Lemma compare_good F K op f fd v : good K v -> keeps F (compare op f fd) v (fun _ v' => machine_good v').
Proof.
  intros G. unfold compare. do 2 kslow. destruct (vm_either_bignum _ _); [kend|].
  assert (Hd : keeps F (vm! a := as_number_vm x0 in vm! b := as_number_vm x in vm_push (BOOL_VAL (fd a b))) v1 (fun _ v' => machine_good v')).
  { eapply kb_number; [eassumption|eassumption|]. intros d. eapply kb_number; [eassumption|eassumption|]. intros d'. kend. }
  destruct x0; try exact Hd. destruct x; try exact Hd. kend.
Qed.

Lemma test_good F K f v : good K v -> keeps F (exec_test f) v (fun _ v' => machine_good v').
Proof. intros G. unfold exec_test. repeat kslow. Qed.

(** *** Variables *)

Lemma fp_range K v : good K v -> 0 <= fp v <= STACK_SIZE.
Proof. intros ([_ _ _ _ _ _ Hf _ _ _ _ _] & _). exact Hf. Qed.

Lemma sp_range K v : good K v -> 0 <= sp v <= STACK_SIZE.
Proof. intros ([_ _ _ _ _ Hp _ _ _ _ _ _] & Hs & _). lia. Qed.

Lemma stack_range a : (a <? 0) || (STACK_SIZE <=? a) = false -> 0 <= a < STACK_SIZE.
Proof. intros H. apply orb_false_iff in H as [H1 H2]. lia. Qed.

Lemma GET_LOCAL_good F K x v : good K v -> 0 <= x < STACK_SIZE -> keeps F (exec_GET_LOCAL x) v (fun _ v' => machine_good v').
Proof.
  intros G Hx. pose proof (fp_range _ _ G). unfold exec_GET_LOCAL. apply keeps_get. apply keeps_int; [unfold STACK_SIZE in *; lia|].
  destruct (_ || _) eqn:E; [kend|]. pose proof (stack_range _ E). eapply kb_read; [eassumption|left; lia|left; lia|]. intros y Hy _. kend.
Qed.

Lemma SET_LOCAL_good F K x v : good K v -> 0 <= x < STACK_SIZE -> keeps F (exec_SET_LOCAL x) v (fun _ v' => machine_good v').
Proof.
  intros G Hx. pose proof (fp_range _ _ G). unfold exec_SET_LOCAL. apply keeps_get. apply keeps_int; [unfold STACK_SIZE in *; lia|].
  destruct (_ || _) eqn:E; [kend|]. eapply kb_peek; [eassumption|]. intros y Hy.
  pose proof (stack_range _ E). eapply kb_write; [eassumption|exact Hy|left; lia|left; lia|]. intros v1 G1 _ _ _. repeat kslow.
Qed.

(** The slot of the closure of a function. *)
Lemma closure_slot (F : fault -> Prop) K v : (fp v = 0 -> F below_stack) -> good K v -> (0 <= fp v - 1 \/ F below_stack) /\ (fp v - 1 < STACK_SIZE \/ F above_stack).
Proof. intros HF G. pose proof (fp_range _ _ G). split; [|left; lia]. destruct (Z.eq_dec (fp v) 0); [right; auto|left; lia]. Qed.

Lemma closure_at_spec F {B} K p (k : Z * Z * list VmValue -> V B) v Q : good K v -> good_value K (CLOSURE_VAL p) ->
  (forall f n us, good_pc Bad f -> 0 <= n <= 16 -> length us = 16%nat -> Forall (good_value K) us -> keeps F (k (f, n, us)) v Q) -> keeps F (v_bind (closure_at p) k) v Q.
Proof.
  intros G Hp Hk. unfold closure_at. apply keeps_bind. eapply kb_object; [exact G|exact Hp|]. intros o Ho. destruct o; try contradiction.
  destruct Ho as (H1 & H2 & H3 & H4). apply Hk; assumption.
Qed.

Lemma keeps_last F {A} (m : V A) v Q : keeps F (v_bind m v_ret) v Q -> keeps F m v Q.
Proof. unfold keeps, VmSafety.keeps, v_bind. destruct (m v); auto. Qed.

Lemma set_upvalue_good F K p x y v : good K v -> good_value K (CLOSURE_VAL p) -> good_value K y -> keeps F (set_upvalue p x y) v (fun _ v' => good K v').
Proof.
  intros G Hp Hy. unfold set_upvalue. eapply closure_at_spec; [exact G|exact Hp|]. intros f n us H1 H2 H3 H4.
  destruct (has_upvalue x n) eqn:E; [|apply keeps_ret, G]. unfold has_upvalue in E. apply andb_true_iff in E as [E1 E2].
  assert (Hr : 0 <= x < Z.of_nat (length us)) by lia. eapply keeps_here; [apply array_set_Some, Hr|].
  apply keeps_last. eapply kb_store; [exact G|exact Hp| |intros v' G' _ _; apply keeps_ret, G'].
  cbn. rewrite length_replace. split; [exact H1|]. split; [exact H2|]. split; [exact H3|apply Forall_replace; assumption].
Qed.

Lemma GET_UPVALUE_good F K x v : (fp v = 0 -> F below_stack) -> good K v -> keeps F (exec_GET_UPVALUE x) v (fun _ v' => machine_good v').
Proof.
  intros HF G. pose proof (closure_slot F K v HF G). unfold exec_GET_UPVALUE. apply keeps_get. eapply kb_read; [eassumption|tauto|tauto|]. intros c Hc _.
  destruct c as [| | | | | |[] p]; try kend. eapply closure_at_spec; [eassumption|exact Hc|]. intros f n us H1 H2 H3 H4.
  destruct (has_upvalue x n) eqn:E; [|kend]. unfold has_upvalue in E. apply andb_true_iff in E as [E1 E2].
  destruct (array_get_range us x) as (y & Ey); [lia|]. eapply keeps_here; [exact Ey|]. eapply keeps_push_end; [eassumption|exact (array_get_Forall _ _ _ _ H4 Ey)].
Qed.

Lemma SET_UPVALUE_good F K x v : (fp v = 0 -> F below_stack) -> good K v -> keeps F (exec_SET_UPVALUE x) v (fun _ v' => machine_good v').
Proof.
  intros HF G. pose proof (closure_slot F K v HF G). unfold exec_SET_UPVALUE. apply keeps_get. eapply kb_read; [eassumption|tauto|tauto|]. intros c Hc _.
  assert (Hend : forall v', good K v' -> keeps F (vm! _ := vm_pop in v_ret tt) v' (fun _ v' => machine_good v')) by (intros v' G'; repeat kslow).
  destruct c as [| | | | | |[] p]; try exact (Hend v G). apply keeps_bind. eapply kb_peek; [eassumption|]. intros y Hy.
  eapply keeps_mono; [|apply (set_upvalue_good _ K); eassumption]. cbv beta. intros _ v' G'. apply Hend, G'.
Qed.

Lemma CLOSE_UPVALUE_good F K x v : good K v -> keeps F (exec_CLOSE_UPVALUE x) v (fun _ v' => machine_good v').
Proof.
  intros G. unfold exec_CLOSE_UPVALUE. eapply kb_peek; [eassumption|]. intros c Hc. destruct c as [| | | | | |[] p]; try kend.
  eapply keeps_mono; [|apply (set_upvalue_good _ K); eassumption]. cbv beta. intros _ v' G'. apply (good_machine _ _ _ _ K), G'.
Qed.

(** *** Functions *)

Lemma pops_good F K n acc v : good K v -> Forall (good_value K) acc ->
  keeps F (pop_into n acc) v (fun l v' => good K v' /\ quiet v v' /\ length l = (n + length acc)%nat /\ Forall (good_value K) l).
Proof.
  revert acc v. induction n as [|n IH]; intros acc v G Hacc; cbn [pop_into]; [apply keeps_ret; auto using quiet_refl|].
  eapply kb_pop; [exact G|]. intros x v1 G1 X1 Hq _. eapply keeps_mono; [|apply (IH (x :: acc) v1 G1); constructor; assumption].
  cbv beta. intros l v2 (G2 & Hq2 & El & HF). cbn in El.
  split; [exact G2|]. split; [exact (quiet_trans _ _ _ Hq Hq2)|]. split; [lia|exact HF].
Qed.

Lemma CLOSURE_good F K x v : good K v -> operand_ok OP_CLOSURE x -> keeps F (exec_CLOSURE grants x) v (fun _ v' => machine_good v').
Proof.
  intros G (i & Hi & He). unfold exec_CLOSURE. cbv zeta. apply keeps_get. rewrite (proj1 (c_consts _ _ _ _ _ _ (proj1 G))). eapply keeps_here; [exact Hi|]. eapply keeps_here; [reflexivity|].
  eapply kb_new; [exact G|]. intros p v1 G1 U1 _ _. eapply keeps_call; [apply (pops_good _ K); [exact G1|constructor]|cbv beta]. intros l v2 (G2 & Hq & El & HF).
  set (n := Z.min _ 16) in *. assert (Hn : 0 <= n <= 16) by (unfold n; pose proof (Z.land_ones (Z.shiftr x 16) 8 ltac:(lia)) as E; change (Z.ones 8) with 255 in E; rewrite E; pose proof (Z.mod_pos_bound (Z.shiftr x 16) (2 ^ 8)); lia).
  eapply (kb_fill _ _ _ _ _ _ p KClosure); [exact G2|exact (unborn_quiet _ _ _ _ U1 Hq)| |].
  - cbn. rewrite Nat.add_0_r in El. split; [exact He|]. split; [exact Hn|]. split; [rewrite length_app, repeat_length, El; lia|].
    apply Forall_app. split; [exact HF|]. apply Forall_forall. intros y Hy. apply repeat_spec in Hy. subst. exact Logic.I.
  - intros K' v3 G3 Hp _. eapply keeps_push_end; [exact G3|exact Hp].
Qed.

Lemma good_frame_at K v : good K v -> good_frame Bad (frame_count v) (mkFrame (pc v) (fp v) 0).
Proof. intros ([H1 H2 H3 H4 H5 H6 H7 H8 H9 H10 H11 H12] & Hs & Hb). split; [exact H5|]. split; [exact H7|exact Hb]. Qed.

(** The registers of a machine that enters a function. *)
Lemma enter_function K v p base f : good K v -> frame_count v < MAX_FRAMES -> 1 <= base <= STACK_SIZE -> good_pc Bad p ->
  exists fs, array_set (frames v) (frame_count v) (mkFrame (pc v) (fp v) f) = Some fs /\ good K (with_pc p (with_fp base (with_frames fs (frame_count v + 1) v))).
Proof.
  intros ([H1 H2 (L1 & L2 & L3 & L4) (N1 & N2) H5 H6 H7 H8 H9 H10 H11 H12] & Hs & Hb) Hn Hbase Hp.
  assert (Hr : 0 <= frame_count v < Z.of_nat (length (frames v))) by (rewrite L2; unfold MAX_FRAMES in *; lia).
  eexists. split; [apply array_set_Some, Hr|]. split; [|split; [exact Hs|intros _; cbn; lia]].
  split; cbn; try assumption; [rewrite length_replace; auto|unfold MAX_FRAMES in *; lia|lia|].
  intros i g Hg Hi. rewrite array_get_replace in Hg by exact Hr. destruct (Z.eqb_spec (frame_count v) i) as [<-|]; [|apply H8; [exact Hg|lia]].
  injection Hg as <-. split; [exact H5|]. split; [exact H7|exact Hb].
Qed.

Lemma int_range_ok x : - 2 ^ 31 <= x < 2 ^ 31 -> (if (- 2 ^ 31 <=? x) && (x <? 2 ^ 31) then Some x else None) = Some x.
Proof. intros H. destruct (Z.leb_spec (- 2 ^ 31) x), (Z.ltb_spec x (2 ^ 31)); cbn; try lia; reflexivity. Qed.

Lemma call_closure_good F K argc func v : good K v -> good_value K func -> 0 <= argc -> argc + 1 <= sp v ->
  keeps F (call_closure argc func) v (fun _ v' => machine_good v').
Proof.
  intros G Hf Ha Hs. pose proof (sp_range _ _ G) as Hr. unfold call_closure. destruct func as [| | | | | |[] p]; try kend.
  eapply closure_at_spec; [exact G|exact Hf|]. intros f n us H1 H2 H3 H4. apply keeps_get. destruct (Z.leb_spec MAX_FRAMES (frame_count v)); [kend|]. apply keeps_get.
  destruct (enter_function K v f (sp v - argc) f G H ltac:(lia) H1) as (fs & E & G').
  apply keeps_bind. unfold push_frame. unfold VmSafety.keeps at 1. rewrite E. apply keeps_get. apply keeps_int; [cbn; unfold STACK_SIZE in *; lia|].
  apply keeps_modify. cbn [sp with_frames]. apply (good_machine _ _ _ _ K), G'.
Qed.

(** The members that a tag promises. *)
Lemma continuation_spec F {B} K p (k : option VmContinuation -> V B) v Q : good K v -> good_value K (VAL_HEAP KContinuation p) ->
  (forall c, match c with Some c => good_continuation Bad K c | None => True end -> keeps F (k c) v Q) -> keeps F (v_bind (continuation_at p) k) v Q.
Proof.
  intros G Hp Hk. unfold continuation_at. apply keeps_bind. eapply kb_object; [exact G|exact Hp|]. intros o Ho. destruct o as [| | | |[c|]| | |]; try contradiction; apply Hk; exact Ho.
Qed.

Lemma vector_at_spec F {B} K p (k : option VmVector -> V B) v Q : good K v -> good_value K (VAL_HEAP KVector p) ->
  (forall o, match o with Some vec => vec_len vec = Z.of_nat (length (items vec)) /\ Forall (good_value K) (items vec) | None => True end -> keeps F (k o) v Q) -> keeps F (v_bind (vector_at p) k) v Q.
Proof.
  intros G Hp Hk. unfold vector_at. apply keeps_bind. eapply kb_object; [exact G|exact Hp|]. intros o Ho. destruct o as [| | |[vec|]| | | |]; try contradiction; apply Hk; exact Ho.
Qed.

Lemma string_spec F {B} K p (k : option (list Z) -> V B) v Q : good K v -> good_value K (VAL_HEAP KString p) ->
  (forall o, keeps F (k o) v Q) -> keeps F (v_bind (string_at p) k) v Q.
Proof.
  intros G Hp Hk. unfold string_at. apply keeps_bind. eapply kb_object; [exact G|exact Hp|]. intros o Ho. destruct o; try contradiction; apply Hk.
Qed.

Lemma cons_at_spec F {B} K p (k : VmValue * VmValue -> V B) v Q : good K v -> good_value K (PAIR_VAL p) ->
  (forall a d, good_value K a -> good_value K d -> keeps F (k (a, d)) v Q) -> keeps F (v_bind (cons_at p) k) v Q.
Proof.
  intros G Hp Hk. unfold cons_at. apply keeps_bind. eapply kb_object; [exact G|exact Hp|]. intros o Ho. destruct o; try contradiction. destruct Ho. apply Hk; assumption.
Qed.

(** A call with too few values is a fault. *)
Lemma call_good (F : fault -> Prop) closure K argc v : (sp v <= argc -> F below_stack) -> good K v -> 0 <= argc < STACK_SIZE ->
  (forall K' k v', good K' v' -> good_continuation Bad K' k -> forall x, good_value K' x -> keeps F (restore k x) v' (fun _ v'' => machine_good v'')) ->
  (forall func, good_value K func -> argc + 1 <= sp v -> keeps F (closure argc func) v (fun _ v' => machine_good v')) ->
  keeps F (exec_call closure argc) v (fun _ v' => machine_good v').
Proof.
  intros HF G Ha Hrestore Hcl. pose proof (sp_range _ _ G) as Hr.
  assert (Hf : 0 <= sp v - 1 - argc \/ F below_stack) by (destruct (Z.le_gt_cases (sp v) argc); [right; auto|left; lia]).
  unfold exec_call. apply keeps_get. apply keeps_int; [unfold STACK_SIZE in *; lia|]. eapply kb_read; [exact G|exact Hf|left; lia|]. intros func Hfunc Hi.
  destruct func as [| | | | | |[] p]; try (apply Hcl; [exact Hfunc|lia]). destruct (1 <=? argc); [|kend].
  eapply kb_read; [exact G|left; lia|left; lia|]. intros x Hx _. eapply continuation_spec; [exact G|exact Hfunc|].
  intros [c|] Hc; [apply (Hrestore K); assumption|kend].
Qed.

(** *** Continuations *)

Lemma good_counts K v c h w : good K v -> 0 <= h <= 16 -> 0 <= w <= 32 -> length c = 32%nat -> Forall (good_wind K) c -> good K (with_winds c w (with_handlers (handlers v) h v)).
Proof.
  intros ([H1 H2 (L1 & L2 & L3 & L4) (N1 & N2 & N3) H5 H6 H7 H8 H9 H10 H11 (H12 & H13 & H14)] & Hs & Hb) Hh Hw Hl Hc.
  split; [split; cbn; auto|]. split; [exact Hs|exact Hb].
Qed.

Lemma good_n_winds K v w : good K v -> 0 <= w <= 32 -> good K (with_winds (winds v) w v).
Proof.
  intros ([H1 H2 (L1 & L2 & L3 & L4) (N1 & N2 & N3) H5 H6 H7 H8 H9 H10 H11 (H12 & H13 & H14)] & Hs & Hb) Hw.
  split; [split; cbn; auto|]. split; [exact Hs|exact Hb].
Qed.

Lemma unwind_good F K n v : good K v -> (n <= Z.to_nat (n_winds v))%nat -> keeps F (unwind_winds n) v (fun _ v' => good K v').
Proof.
  revert v. induction n as [|n IH]; intros v G Hn; cbn [unwind_winds]; [apply keeps_ret, G|].
  pose proof G as ([_ _ (_ & _ & _ & L4) (_ & _ & N3) _ _ _ _ _ _ _ (_ & _ & Hw)] & _). apply keeps_get, keeps_get, keeps_modify.
  destruct (array_get_range (winds v) (n_winds v - 1)) as (w & E); [rewrite L4; lia|]. eapply keeps_here; [exact E|].
  assert (G' : good K (with_winds (winds v) (n_winds v - 1) v)) by (apply good_n_winds; [exact G|lia]).
  assert (Hr : keeps F (unwind_winds n) (with_winds (winds v) (n_winds v - 1) v) (fun _ v' => good K v')) by (apply IH; [exact G'|cbn; lia]).
  destruct (after w) as [| | | | | |[] p]; try exact Hr. eapply keeps_native; exact G'.
Qed.

Lemma good_frames_overwrite saved l n : good_frames Bad saved n -> Z.of_nat (length saved) = n -> good_frames Bad (overwrite saved l) n.
Proof.
  intros HF El i f Hf Hi. apply HF; [|exact Hi]. unfold overwrite, array_get in *. destruct (Z.ltb_spec i 0); [discriminate|]. rewrite nth_error_app1 in Hf by lia. exact Hf.
Qed.

Lemma restore_good F K k x v : good K v -> good_continuation Bad K k -> good_value K x -> keeps F (restore k x) v (fun _ v' => machine_good v').
Proof.
  intros G [Gp (Gf & Gf') (Gs & Gsl) (Gn & Gnl & Gfr) (Gh & Gw) Gst] Hx. unfold restore. apply keeps_get. eapply keeps_call; [apply (unwind_good _ K); [exact G|lia]|cbv beta].
  intros _ v1 G1. destruct (_ || _); [kend|]. do 5 apply keeps_modify. eapply keeps_push_end; [|exact Hx].
  destruct G1 as ([H1 H2 (L1 & L2 & L3 & L4) (N1 & N2 & N3) H5 H6 H7 H8 H9 H10 H11 H12] & Hs & Hb).
  split; [split; cbn; try assumption; try lia|split; [cbn; lia|exact Gf']].
  - rewrite !length_overwrite by (unfold STACK_SIZE, MAX_FRAMES in *; lia). auto.
  - apply good_frames_overwrite; assumption.
  - unfold overwrite. apply Forall_app. split; [exact Gst|apply Forall_firstn_skipn, H10].
Qed.

Lemma CALL_good F K argc v : (sp v <= argc -> F below_stack) -> good K v -> 0 <= argc < STACK_SIZE -> keeps F (exec_CALL argc) v (fun _ v' => machine_good v').
Proof.
  intros HF G Ha. apply (call_good F call_closure K); [exact HF|exact G|exact Ha|intros; apply (restore_good _ K'); assumption|].
  intros func Hf Hs. apply (call_closure_good _ K); [exact G|exact Hf|lia|lia].
Qed.

Lemma moves_good (F : fault -> Prop) K n dst src v : good K v -> 0 <= dst -> 0 <= src -> src + Z.of_nat n <= STACK_SIZE ->
  (dst + Z.of_nat n <= STACK_SIZE \/ F above_stack) ->
  keeps F (move_args n dst src) v (fun _ v' => good K v' /\ quiet v v' /\ sp v' = sp v /\ (n = O \/ dst + Z.of_nat n <= STACK_SIZE)).
Proof.
  revert dst src v. induction n as [|n IH]; intros dst src v G Hd Hsr Hb HF; cbn [move_args]; [apply keeps_ret; auto using quiet_refl|].
  eapply kb_read; [exact G|left; lia|left; lia|]. intros x Hx _. eapply kb_write; [exact G|exact Hx|left; lia|destruct HF; [left; lia|auto]|]. intros v1 G1 Hq Hs Hi.
  eapply keeps_mono; [|apply IH; [exact G1|lia|lia|lia|destruct HF; [left; lia|auto]]]. cbv beta. intros _ v2 (G2 & Hq2 & Hs2 & Hn). split; [exact G2|]. split; [exact (quiet_trans _ _ _ Hq Hq2)|]. split; [congruence|]. right. lia.
Qed.

Lemma TAIL_CALL_good (F : fault -> Prop) K argc v : (sp v <= argc \/ fp v = 0 -> F below_stack) -> (STACK_SIZE < fp v + argc -> F above_stack) ->
  good K v -> 0 <= argc < STACK_SIZE -> keeps F (exec_TAIL_CALL argc) v (fun _ v' => machine_good v').
Proof.
  intros HF HF' G Ha. apply (call_good F tail_call_closure K); [auto|exact G|exact Ha|intros; apply (restore_good _ K'); assumption|].
  intros func Hf Hs. unfold tail_call_closure. destruct func as [| | | | | |[] p]; try kend. eapply closure_at_spec; [exact G|exact Hf|]. intros f n us H1 _ _ _.
  apply keeps_get, keeps_get. pose proof (fp_range _ _ G) as Hfp. pose proof (sp_range _ _ G) as Hsp.
  eapply keeps_call; [apply (moves_good F K); [exact G|lia|lia|lia|destruct (Z.le_gt_cases (fp v + argc) STACK_SIZE); [left; lia|auto]]|cbv beta]. intros _ v1 (G1 & Hq & Hs1 & Hn).
  assert (Hb : 0 <= fp v + argc <= STACK_SIZE) by lia. apply keeps_int; [unfold STACK_SIZE in *; lia|]. apply keeps_modify.
  assert (G2 : good K (with_sp (fp v + argc) v1)) by (apply good_stack; [exact G1|exact (c_stack _ _ _ _ _ _ (proj1 G1))|exact (proj1 (c_lengths _ _ _ _ _ _ (proj1 G1)))|exact Hb]).
  eapply kb_write; [exact G2|exact Hf|destruct (Z.eq_dec (fp v) 0); [right; auto|left; lia]|left; lia|]. intros v3 G3 _ _ _. apply (good_machine _ _ _ _ K). apply good_with_pc; assumption.
Qed.

Lemma RETURN_good F K v : good K v -> keeps F exec_RETURN v (fun _ v' => machine_good v').
Proof.
  intros G. unfold exec_RETURN. kpop r. apply keeps_get. assert (Hstop : keeps F (vm_push r ;; modify with_halted ;; leave) v0 (fun (_ : unit) v' => machine_good v')).
  { kpush. apply keeps_modify. apply (good_machine _ _ _ _ K). destruct G1 as ([H1 H2 H3 H4 H5 H6 H7 H8 H9 H10 H11 H12] & Hs1 & Hb). split; [split; cbn; assumption|]. split; [exact Hs1|exact Hb]. }
  destruct (Z.leb_spec (frame_count v0) 0); [exact Hstop|]. apply keeps_modify, keeps_get. cbn [frames with_frames].
  destruct G0 as ([H1 H2 (L1 & L2 & L3 & L4) (N1 & N2 & N3) H5 H6 H7 H8 H9 H10 H11 H12] & Hs0 & Hb).
  destruct (array_get_range (frames v0) (frame_count v0 - 1)) as (f & E); [rewrite L2; unfold MAX_FRAMES in *; lia|]. eapply keeps_here; [exact E|].
  destruct (H8 _ _ E ltac:(lia)) as (F1 & F2 & F3).
  assert (Hfr : good_frames Bad (frames v0) (frame_count v0 - 1)) by (intros i g Hg Hi; apply H8; [exact Hg|lia]).
  destruct (return_pc f =? -1).
  - assert (G' : good K (with_frames (frames v0) (frame_count v0 - 1) v0)).
    { split; [split; cbn; auto; lia|]. split; [exact Hs0|]. intros Hn. apply Hb. cbn in Hn. lia. }
    eapply kb_push; [exact G'|exact X|]. intros v1 ([J1 J2 J3 J4 J5 J6 J7 J8 J9 J10 J11 J12] & Js & Jb) _ _. apply keeps_modify. apply (good_machine _ _ _ _ K).
    split; [split; cbn; assumption|]. split; [exact Js|exact Jb].
  - apply keeps_get. do 3 apply keeps_modify. eapply keeps_push_end; [|exact X]. specialize (Hb ltac:(lia)). cbn [fp with_frames].
    split; [split; cbn; auto; lia|]. split; [cbn; unfold STACK_SIZE in *; lia|]. intros Hn. apply F3. exact Hn.
Qed.

Lemma jump_good F K x v : good K v -> 0 <= x -> keeps F (modify (with_pc x)) v (fun _ v' => machine_good v').
Proof. intros G Hx. apply (good_machine _ _ _ _ K). apply good_with_pc; [exact G|left; exact Hx]. Qed.

Lemma JUMP_IF_FALSE_good F K x v : good K v -> 0 <= x -> keeps F (exec_JUMP_IF_FALSE x) v (fun _ v' => machine_good v').
Proof. intros G Hx. unfold exec_JUMP_IF_FALSE. kpop c. destruct (is_truthy c); [kend|apply (jump_good _ K); assumption]. Qed.

(** *** Pairs and vectors *)

Lemma quiet_unborn K p v v' : unborn K p v -> objects v' = objects v -> unborn K p v'.
Proof. unfold unborn, next_free. intros H ->. exact H. Qed.

Lemma CONS_good F K v : good K v -> keeps F (exec_CONS grants) v (fun _ v' => machine_good v').
Proof.
  intros G. unfold exec_CONS. kpop a. kpop d. eapply kb_new; [eassumption|]. intros p v2 G2 U _ _. eapply (kb_fill _ _ _ _ _ _ p KPair); [exact G2|exact U|split; assumption|].
  intros K' v3 G3 Hp _. eapply keeps_push_end; [exact G3|exact Hp].
Qed.

Lemma access_good F K part v : (forall a d, good_value K a -> good_value K d -> good_value K (part (a, d))) -> good K v -> keeps F (exec_access part) v (fun _ v' => machine_good v').
Proof.
  intros Hpart G. unfold exec_access. kpop c. destruct c as [| | | | | |[] p]; try kend. eapply cons_at_spec; [eassumption|exact X|].
  intros a d Ha Hd. eapply keeps_push_end; [eassumption|]. apply Hpart; assumption.
Qed.

Lemma mutate_good F K store v : (forall x a d, good_value K x -> good_value K a -> good_value K d -> good_object Bad K KPair (store x (a, d))) -> good K v ->
  keeps F (exec_mutate store) v (fun _ v' => machine_good v').
Proof.
  intros Hst G. unfold exec_mutate. kpop x. kpop c. assert (Hend : keeps F (vm_push VAL_NIL) v1 (fun _ v' => machine_good v')) by kend.
  destruct c as [| | | | | |[] p]; try exact Hend. apply keeps_bind. eapply cons_at_spec; [eassumption|exact X0|]. intros a d Ha Hd.
  apply keeps_last. eapply kb_store; [eassumption|exact X0|apply Hst; assumption|]. intros v' G' _ _. apply keeps_ret. kend.
Qed.

Lemma good_outputs K v x : good K v -> good_value K x -> good K (with_outputs (outputs v ++ [x]) v).
Proof.
  intros ([H1 H2 H3 H4 H5 H6 H7 H8 H9 H10 H11 (H12 & H13)] & Hs & Hb) Hx. split; [split; cbn; auto|]. { split; [apply Forall_app; auto|exact H13]. } split; [exact Hs|exact Hb].
Qed.

Lemma PRINT_good F K v : good K v -> keeps F exec_PRINT v (fun _ v' => machine_good v').
Proof.
  intros G. unfold exec_PRINT. kpop x.
  assert (Hd : machine_good (if Z.of_nat (length (outputs v0)) <? 256 then with_outputs (outputs v0 ++ [x]) v0 else v0)).
  { apply (good_machine _ _ _ _ K). destruct (_ <? _); [apply good_outputs; assumption|exact G0]. }
  destruct x; try exact Hd. kend.
Qed.

Lemma VEC_CREATE_good F K n v : good K v -> 0 <= n -> keeps F (exec_VEC_CREATE grants n) v (fun _ v' => machine_good v').
Proof.
  intros G Hn. unfold exec_VEC_CREATE. eapply kb_new; [eassumption|]. intros p v1 G1 U1 _ _.
  eapply (kb_draft _ _ _ _ _ _ p KVector); [exact G1|exact U1|intros; exact Logic.I|]. intros v2 G2 U2 _ _. eapply kb_block; [exact G2|]. intros v3 G3 (Ho3 & _) _.
  destruct (Z.ltb_spec n 0); [lia|]. eapply keeps_here; [reflexivity|]. eapply kb_alloc; [exact G3|]. intros ok v4 G4 (Ho4 & _) _.
  destruct (_ && _); [kend|]. eapply keeps_call; [apply (pops_good _ K); [exact G4|constructor]|cbv beta]. intros l v5 (G5 & (Ho5 & _) & El & HF).
  eapply (kb_fill _ _ _ _ _ _ p KVector); [exact G5|apply (quiet_unborn _ _ v2 _ U2); congruence|cbn in *; split; [lia|exact HF]|].
  intros K' v6 G6 Hp _. eapply keeps_push_end; [exact G6|exact Hp].
Qed.

Lemma kb_index (F : fault -> Prop) {B} idx (k : Z -> V B) v Q : F overflow -> (forall i, keeps F (k i) v Q) -> keeps F (v_bind (index idx) k) v Q.
Proof. intros Hf Hk. unfold index. eapply keeps_defined; [intros _; exact Hf|]. intros i _. apply Hk. Qed.

Lemma in_vector_range i vec : in_vector i vec = true -> vec_len vec = Z.of_nat (length (items vec)) -> 0 <= i < Z.of_nat (length (items vec)).
Proof. unfold in_vector. intros H E. apply andb_true_iff in H as [H1 H2]. lia. Qed.

Lemma VEC_REF_good (F : fault -> Prop) K v : F overflow -> good K v -> keeps F exec_VEC_REF v (fun _ v' => machine_good v').
Proof.
  intros HF G. unfold exec_VEC_REF. kpop idx. kpop c. destruct c as [| | | | | |[] p]; try kend. eapply vector_at_spec; [eassumption|exact X0|]. intros o Ho.
  eapply kb_index; [exact HF|]. intros i. destruct o as [vec|]; [|kend]. destruct Ho as (El & HV). destruct (in_vector i vec) eqn:E; [|kend].
  destruct (array_get_range _ _ (in_vector_range _ _ E El)) as (x & Ex). eapply keeps_here; [exact Ex|]. eapply keeps_push_end; [eassumption|exact (array_get_Forall _ _ _ _ HV Ex)].
Qed.

Lemma VEC_SET_good (F : fault -> Prop) K v : F overflow -> good K v -> keeps F exec_VEC_SET v (fun _ v' => machine_good v').
Proof.
  intros HF G. unfold exec_VEC_SET. kpop x. kpop idx. kpop c. assert (Hend : forall v', good K v' -> keeps F (vm_push VAL_NIL) v' (fun _ v' => machine_good v')) by (intros; kend).
  destruct c as [| | | | | |[] p]; try exact (Hend _ G2). apply keeps_bind. eapply vector_at_spec; [eassumption|exact X1|]. intros o Ho.
  eapply kb_index; [exact HF|]. intros i. destruct o as [vec|]; [|apply Hend; assumption]. destruct Ho as (El & HV). destruct (in_vector i vec) eqn:E; [|apply Hend; assumption].
  pose proof (in_vector_range _ _ E El) as Hr. eapply keeps_here; [apply array_set_Some, Hr|]. apply keeps_last. eapply kb_store; [eassumption|exact X1| |].
  - cbn. rewrite length_replace. split; [exact El|apply Forall_replace; assumption].
  - intros v' G' _ _. apply keeps_ret, Hend, G'.
Qed.

Lemma VEC_LEN_good F K v : good K v -> keeps F exec_VEC_LEN v (fun _ v' => machine_good v').
Proof.
  intros G. unfold exec_VEC_LEN. kpop c. destruct c as [| | | | | |[] p]; try kend. eapply vector_at_spec; [eassumption|exact X|]. intros o _. kend.
Qed.

Lemma STR_REF_good (F : fault -> Prop) K v : F overflow -> good K v -> keeps F exec_STR_REF v (fun _ v' => machine_good v').
Proof.
  intros HF G. unfold exec_STR_REF. kpop idx. kpop c. destruct c as [| | | | | |[] p]; try kend. eapply string_spec; [eassumption|exact X0|]. intros o.
  eapply kb_index; [exact HF|]. intros i. destruct o; kend.
Qed.

Lemma STR_LEN_good F K v : good K v -> keeps F exec_STR_LEN v (fun _ v' => machine_good v').
Proof. intros G. unfold exec_STR_LEN. kpop c. destruct c as [| | | | | |[] p]; try kend. eapply string_spec; [eassumption|exact X|]. intros o. kend. Qed.

(** *** Blocks, handlers, winds *)

Lemma POPN_good F K n v : good K v -> keeps F (exec_POPN n) v (fun _ v' => machine_good v').
Proof.
  intros G. pose proof (sp_range _ _ G) as Hr. unfold exec_POPN. apply keeps_get. destruct (Z.ltb_spec 0 n), (Z.ltb_spec n (sp v)); cbn [andb]; try kend.
  eapply kb_read; [exact G|left; lia|left; lia|]. intros x Hx _. apply keeps_modify.
  assert (G1 : good K (with_sp (sp v - n) v)) by (apply good_stack; [exact G|exact (c_stack _ _ _ _ _ _ (proj1 G))|exact (proj1 (c_lengths _ _ _ _ _ _ (proj1 G)))|lia]).
  apply keeps_last. eapply kb_write; [exact G1|exact Hx|left; lia|left; lia|]. intros v' G' _ _ _. kend.
Qed.

Lemma CALLCC_good F K v : good K v -> keeps F (exec_CALLCC grants) v (fun _ v' => machine_good v').
Proof.
  intros G. unfold exec_CALLCC. kpop proc. destruct proc as [| | | | | |[] p]; try kend. apply keeps_get. destruct (_ || _) eqn:Eb; [kend|].
  eapply kb_new; [eassumption|]. intros cp v1 G1 U1 Es1 Ef1. eapply (kb_draft _ _ _ _ _ _ cp KContinuation); [exact G1|exact U1|intros; exact Logic.I|]. intros v2 G2 U2 Es2 Ef2.
  eapply kb_block; [exact G2|]. intros v3 G3 (Ho3 & Q3) Es3.
  assert (Hk : good_continuation Bad K (mkContinuation (pc v0) (fp v0) (sp v0) (frame_count v0) (n_handlers v0) (n_winds v0) (firstn (Z.to_nat (sp v0)) (stack v0)) (firstn (Z.to_nat (frame_count v0)) (frames v0)))).
  { destruct G0 as ([H1 H2 (L1 & L2 & L3 & L4) (N1 & N2 & N3) H5 H6 H7 H8 H9 H10 H11 H12] & Hs0 & Hb). split; cbn; auto.
    - split; [lia|]. rewrite length_firstn, L1. unfold STACK_SIZE in *. lia.
    - split; [lia|]. rewrite length_firstn, L2. unfold MAX_FRAMES in *. split; [lia|]. intros i f Hf Hi. apply H8; [|exact Hi].
      pose proof (array_get_Some _ _ _ Hf) as Hr. unfold array_get in *. destruct (i <? 0); [discriminate|]. rewrite <- (firstn_skipn (Z.to_nat (frame_count v0)) (frames v0)), nth_error_app1 by lia. exact Hf.
    - split; [lia|]. lia.
    - apply Forall_firstn_skipn, H10. }
  eapply (kb_fill _ _ _ _ _ _ cp KContinuation); [exact G3|apply (quiet_unborn _ _ v2 _ U2), Ho3|exact Hk|]. intros K' v4 G4 Hcp _.
  eapply kb_push; [exact G4|apply good_value_app, X|]. intros v5 G5 _ Es5. eapply kb_push; [exact G5|exact Hcp|]. intros v6 G6 Q6 Es6.
  eapply closure_at_spec; [exact G6|apply good_value_app, X|]. intros f n us H1 _ _ _. apply keeps_get. destruct (Z.leb_spec MAX_FRAMES (frame_count v6)); [kend|]. apply keeps_get.
  pose proof (sp_range _ _ G4) as Hr4. destruct (enter_function _ v6 f (sp v6 - 1) f G6 H ltac:(unfold STACK_SIZE in *; lia) H1) as (fs & E & G7).
  apply keeps_bind. unfold push_frame. unfold VmSafety.keeps at 1. rewrite E. apply keeps_modify. exact (good_machine _ _ _ _ _ _ G7).
Qed.

Lemma INVOKE_CC_good F K v : good K v -> keeps F exec_INVOKE_CC v (fun _ v' => machine_good v').
Proof.
  intros G. unfold exec_INVOKE_CC. kpop x. kpop c. destruct c as [| | | | | |[] p]; try kend. eapply continuation_spec; [eassumption|exact X0|].
  intros [k|] Hk; [apply (restore_good _ K); assumption|kend].
Qed.

Lemma good_handlers K v hs n : good K v -> length hs = 16%nat -> 0 <= n <= 16 -> good K (with_handlers hs n v).
Proof.
  intros ([H1 H2 (L1 & L2 & L3 & L4) (N1 & N2 & N3) H5 H6 H7 H8 H9 H10 H11 H12] & Hs & Hb) Hl Hn. split; [split; cbn; auto|]. split; [exact Hs|exact Hb].
Qed.

Lemma PUSH_HANDLER_good F K x v : good K v -> keeps F (exec_PUSH_HANDLER x) v (fun _ v' => machine_good v').
Proof.
  intros G. pose proof G as ([_ _ (L1 & L2 & L3 & L4) (N1 & N2 & N3) _ _ _ _ _ _ _ _] & _). unfold VmSafety.keeps, exec_PUSH_HANDLER. destruct (Z.leb_spec 16 (n_handlers v)); [apply (good_machine _ _ _ _ K), good_error, G|].
  rewrite array_set_Some by lia. apply (good_machine _ _ _ _ K), good_handlers; [exact G|rewrite length_replace; exact L3|lia].
Qed.

Lemma POP_HANDLER_good F K v : good K v -> keeps F exec_POP_HANDLER v (fun _ v' => machine_good v').
Proof.
  intros G. pose proof G as ([_ _ (L1 & L2 & L3 & L4) (N1 & N2 & N3) _ _ _ _ _ _ _ _] & _). unfold VmSafety.keeps, exec_POP_HANDLER, modify. apply (good_machine _ _ _ _ K).
  destruct (Z.ltb_spec 0 (n_handlers v)); [apply good_handlers; [exact G|exact L3|lia]|exact G].
Qed.

Lemma pack_good F K n i l v : good K v -> good_value K l -> 0 <= i - Z.of_nat n + 1 -> i < STACK_SIZE ->
  keeps F (pack_rest grants n i l) v (fun l v' => exists K', good K' v' /\ good_value K' l /\ fp v' = fp v /\ sp v' = sp v).
Proof.
  revert K i l v. induction n as [|n IH]; intros K i l v G Hl Hi Hi2; cbn [pack_rest]; [apply keeps_ret; eauto|].
  eapply kb_read; [exact G|left; lia|left; lia|]. intros x Hx _. eapply kb_new; [exact G|]. intros p v1 G1 U1 Es1 Ef1.
  eapply (kb_fill _ _ _ _ _ _ p KPair); [exact G1|exact U1|split; assumption|]. intros K' v2 G2 Hp Es2.
  destruct Es2 as (Es2 & Ef2). eapply keeps_mono; [|apply (IH (K ++ K') (i - 1) (PAIR_VAL p) v2 G2 Hp); lia].
  cbv beta. intros l' v' (K'' & G' & Hl' & Ef & Es). exists K''. split; [exact G'|]. split; [exact Hl'|]. split; congruence.
Qed.

Lemma PACK_REST_good F K n v : good K v -> 0 <= n < STACK_SIZE -> keeps F (exec_PACK_REST grants n) v (fun _ v' => machine_good v').
Proof.
  intros G Hn. pose proof (sp_range _ _ G) as Hr. pose proof (fp_range _ _ G) as Hf. unfold exec_PACK_REST. apply keeps_get, keeps_get. apply keeps_int; [unfold STACK_SIZE in *; lia|].
  eapply keeps_call; [apply (pack_good F K); [exact G|exact Logic.I|lia|lia]|cbv beta]. intros l v1 (K' & G1 & Hl & Ef & Es).
  apply keeps_int; [unfold STACK_SIZE in *; lia|]. apply keeps_modify.
  destruct (Z.leb_spec (fp v + n) STACK_SIZE) as [Hle|Hgt].
  - eapply keeps_push_end; [|exact Hl]. apply good_stack; [exact G1|exact (c_stack _ _ _ _ _ _ (proj1 G1))|exact (proj1 (c_lengths _ _ _ _ _ _ (proj1 G1)))|lia].
  - unfold VmSafety.keeps, vm_push. cbn [sp with_sp with_values]. destruct (Z.leb_spec STACK_SIZE (fp v + n)); [|lia].
    destruct G1 as ([H1 H2 H3 H4 H5 H6 H7 H8 H9 H10 H11 H12] & Hs & Hb). exists K'. split; [split; cbn; try assumption; lia|]. split; [exact Hb|right; split; [reflexivity|cbn; lia]].
Qed.

Lemma WIND_PUSH_good F K v : good K v -> keeps F exec_WIND_PUSH v (fun _ v' => machine_good v').
Proof.
  intros G. unfold exec_WIND_PUSH. kpop a. kpop b. apply keeps_get. pose proof G1 as ([_ _ (_ & _ & _ & L4) (_ & N2 & N3) _ _ _ _ _ _ _ (_ & _ & Hw)] & _).
  destruct (Z.leb_spec 32 (n_winds v1)); [kend|]. apply keeps_get. eapply keeps_here; [apply array_set_Some; lia|]. apply (good_machine _ _ _ _ K).
  apply (good_counts K v1 _ (n_handlers v1)); [exact G1|exact N2|lia|rewrite length_replace; exact L4|apply Forall_replace; [exact Hw|split; assumption]].
Qed.

Lemma WIND_POP_good F K v : good K v -> keeps F exec_WIND_POP v (fun _ v' => machine_good v').
Proof.
  intros G. unfold exec_WIND_POP. apply keeps_get. destruct (Z.ltb_spec 0 (n_winds v)); [|kend].
  eapply keeps_mono; [|apply (unwind_good _ K); [exact G|lia]]. cbv beta. intros _ v' G'. exact (good_machine _ _ _ _ _ _ G').
Qed.

(** ** The instructions *)

Lemma exec_good op x K v : good K v -> operand_ok op x -> keeps (may op x v) (exec_instruction grants op x) v (fun _ v' => machine_good v').
Proof.
  intros G Hx. destruct op; cbn [exec_instruction operand_ok] in *.
  - kend.
  - unfold VmSafety.keeps. pose proof (c_consts _ _ _ _ _ _ (proj1 G)) as (Ec & En). destruct (Z.ltb_spec x 0); [apply (good_machine _ _ _ _ K), good_error, G|].
    destruct (Z.leb_spec (n_constants v) x); cbn [orb]; [apply (good_machine _ _ _ _ K), good_error, G|].
    destruct (array_get_range CS x) as (c & Hc); [lia|]. rewrite Ec.
    change (keeps (may OP_CONST x v) (vm! x := defined outside_constants (array_get CS x) in vm_push x) v (fun _ v' => machine_good v')).
    eapply keeps_here; [exact Hc|]. eapply keeps_push_end; [exact G|exact (array_get_Forall _ _ _ _ (c_constants _ _ _ _ _ _ (proj1 G)) Hc)].
  - kend.
  - kend.
  - kend.
  - repeat kstep.
  - eapply kb_peek; [exact G|]. intros y Hy. kend.
  - apply (arith_good _ K), G.
  - apply (arith_good _ K), G.
  - apply (arith_good _ K), G.
  - apply (DIV_good _ K), G.
  - apply (MOD_good _ K); [cbn; auto|exact G].
  - apply (NEG_good _ K), G.
  - apply (ABS_good _ K), G.
  - apply (compare_good _ K), G.
  - apply (compare_good _ K), G.
  - apply (compare_good _ K), G.
  - apply (compare_good _ K), G.
  - apply (compare_good _ K), G.
  - unfold exec_NOT. repeat kstep.
  - apply (GET_LOCAL_good _ K); assumption.
  - apply (SET_LOCAL_good _ K); assumption.
  - apply (GET_UPVALUE_good _ K); [cbn [may In]; tauto|exact G].
  - apply (SET_UPVALUE_good _ K); [cbn [may In]; tauto|exact G].
  - apply (CLOSURE_good _ K); assumption.
  - apply (CALL_good _ K); [cbn [may In]; tauto|assumption|assumption].
  - apply (TAIL_CALL_good _ K); [cbn [may In]; tauto|cbn [may]; auto|assumption|assumption].
  - apply (RETURN_good _ K), G.
  - apply (jump_good _ K); assumption.
  - apply (JUMP_IF_FALSE_good _ K); assumption.
  - apply (jump_good _ K); assumption.
  - apply (CONS_good _ K), G.
  - apply (access_good _ K); [auto|exact G].
  - apply (access_good _ K); [auto|exact G].
  - apply (test_good _ K), G.
  - apply (PRINT_good _ K), G.
  - apply keeps_modify. destruct G as ([H1 H2 H3 H4 H5 H6 H7 H8 H9 H10 H11 H12] & Hs & Hb). exists K. split; [split; cbn; assumption|]. split; [exact Hb|left; exact Hs].
  - kend.
  - apply (CLOSE_UPVALUE_good _ K), G.
  - apply (VEC_CREATE_good _ K); [exact G|lia].
  - apply (VEC_REF_good _ K); [cbn; auto|exact G].
  - apply (VEC_SET_good _ K); [cbn; auto|exact G].
  - apply (VEC_LEN_good _ K), G.
  - apply (STR_REF_good _ K); [cbn; auto|exact G].
  - apply (STR_LEN_good _ K), G.
  - apply (test_good _ K), G.
  - apply (test_good _ K), G.
  - apply (test_good _ K), G.
  - apply (test_good _ K), G.
  - apply (test_good _ K), G.
  - apply (test_good _ K), G.
  - apply (mutate_good _ K); [intros; split; assumption|exact G].
  - apply (mutate_good _ K); [intros; split; assumption|exact G].
  - apply (POPN_good _ K), G.
  - kend.
  - apply (CALLCC_good _ K), G.
  - apply (INVOKE_CC_good _ K), G.
  - apply (PUSH_HANDLER_good _ K), G.
  - apply (POP_HANDLER_good _ K), G.
  - apply keeps_get. eapply keeps_push_end; [exact G|exact (proj1 (proj2 (c_others _ _ _ _ _ _ (proj1 G))))].
  - apply (PACK_REST_good _ K); assumption.
  - apply (WIND_PUSH_good _ K), G.
  - apply (WIND_POP_good _ K), G.
  - kend.
Qed.

(** ** Steps and runs *)

Definition code_ok : Prop := forall p i, array_get C p = Some i -> exists op, opcode_of (i_op i) = Some op /\ operand_ok op (i_operand i).

(** What a step of a typed machine ends in. *)
Definition step_result (v : VM) (r : flow unit) : Prop :=
  match r with
  | Next _ v' | Leave v' | Native _ v' => machine_good v'
  | Fault outside_code => pc v < 0 /\ Bad
  | Fault f => exists i op, array_get C (pc v) = Some i /\ opcode_of (i_op i) = Some op /\ may op (i_operand i) v f
  end.

Lemma vm_step_good v : code_ok -> machine_good v -> step_result v (vm_step grants v).
Proof.
  intros HC (K & Gc & Gb & Gs). unfold vm_step. destruct (_ || _) eqn:Ee; [exists K; auto|].
  apply orb_false_iff in Ee as [Ee El]. apply orb_false_iff in Ee as [_ Ee]. destruct Gs as [Gs|(Gs & _)]; [|congruence].
  assert (G : good K v) by (split; [exact Gc|split; assumption]). rewrite (c_code _ _ _ _ _ _ Gc). destruct (array_get C (pc v)) as [i|] eqn:Ei.
  - destruct (HC _ _ Ei) as (op & Eop & Hop). rewrite Eop. pose proof (c_pc _ _ _ _ _ _ Gc) as Hpc.
    assert (G' : good K (with_pc (pc v + 1) v)) by (apply good_with_pc; [exact G|destruct Hpc; [left; lia|right; assumption]]).
    pose proof (exec_good op (i_operand i) K _ G' Hop) as HK. unfold VmSafety.keeps in HK. unfold step_result.
    destruct (exec_instruction grants op (i_operand i) (with_pc (pc v + 1) v)) as [a v'|v'|c v'|f]; try exact HK.
    destruct f; cbn in HK; try contradiction; eauto.
  - cbn. unfold vm_code_len in El. rewrite (c_code _ _ _ _ _ _ Gc) in El. assert (Hn : pc v < 0).
    { destruct (Z.ltb_spec (pc v) 0); [assumption|]. destruct (array_get_range C (pc v)); [lia|congruence]. }
    split; [exact Hn|]. destruct (c_pc _ _ _ _ _ _ Gc); [lia|assumption].
Qed.

Lemma vm_run_good n v : code_ok -> machine_good v ->
  match vm_run grants n v with
  | Running v' | Stopped v' | Called _ v' => machine_good v'
  | Faulted f => exists k v', vm_run grants k v = Running v' /\ machine_good v' /\ vm_step grants v' = Fault f
  end.
Proof.
  intros HC. revert v. induction n as [|n IH]; intros v G; cbn [vm_run]; [exact G|]. pose proof (vm_step_good v HC G) as Hs. unfold step_result in Hs.
  destruct (vm_step grants v) as [[] v'|v'|c v'|f] eqn:E; [|exact Hs|exact Hs|exists O, v; auto].
  specialize (IH v' Hs). destruct (vm_run grants n v') as [| | |f]; try exact IH. destruct IH as (k & v'' & Ek & G' & Ef).
  exists (S k), v''. split; [cbn; rewrite E; exact Ek|auto].
Qed.

End Steps.
