(* ===== verification/VmSafetyTheorems.v ===== *)
(** * Runs of validated code *)

From Stdlib Require Import String Ascii ZArith List Lia Bool.
From S2P Require Import Prelude Doubles Dependent Eskb VmCore VmRun VmLoad VmSafety VmSteps.
Import ListNotations.
Open Scope Z_scope.
Open Scope vm_scope.

(** ** Loaded machines *)



Section Loading.
  Context (grants : Z -> bool) (Bad : Prop) (m : EskbModule).






(** ** Validated code *)




End Loading.







(** ** Sessions *)

Section Sessions.
  Context (grants : Z -> bool) (m : EskbModule) (options : EshkolVmLoadOptions).





End Sessions.




(** ** What a typed machine guarantees *)









(** ** Validated code is contained *)


(** *** Concrete modules *)

(** A module whose only function, "main", is all of its code. *)
Definition main_module (l : list (OpCode * Z)) (ks : list Z) : EskbModule :=
  mkModule (List.map (fun i => (opcode_byte (fst i), snd i)) l) (Some (List.map (fun k => mkLoaded ESKB_CONST_INT64 k 0 None) ks))
    (Some [mkFunction [109; 97; 105; 110] 0 0 0 0 (Z.of_nat (length l))]) [] false.

(** What a run of its function leaves: the stack and the error flag, or the fault. *)
Definition main_result (m : EskbModule) (fuel : nat) : option (list VmValue * bool + fault) :=
  match eshkol_vm_load always_granted m eshkol_vm_default_load_options with
  | Some v =>
    match eshkol_vm_run always_granted fuel m v with
    | Some (Stopped v') => Some (inl (firstn (Z.to_nat (sp v')) (stack v'), error v'))
    | Some (Faulted f) => Some (inr f)
    | _ => None
    end
  | None => None
  end.

Definition factorial_module : EskbModule :=
  main_module
    [(OP_NIL, 0); (OP_CLOSURE, 2 + 65536); (OP_CLOSE_UPVALUE, 0); (OP_CONST, 0); (OP_CALL, 1); (OP_HALT, 0);
     (OP_GET_LOCAL, 0); (OP_CONST, 1); (OP_LE, 0); (OP_JUMP_IF_FALSE, 12); (OP_CONST, 1); (OP_RETURN, 0);
     (OP_GET_LOCAL, 0); (OP_GET_UPVALUE, 0); (OP_GET_LOCAL, 0); (OP_CONST, 1); (OP_SUB, 0); (OP_CALL, 1); (OP_MUL, 0); (OP_RETURN, 0)] [5; 1; 6].

Example factorial_run : main_result factorial_module 100 = Some (inl ([VAL_INT 120], false)).
Proof. vm_compute. reflexivity. Qed.


(** A function entered near the end of the stack that drops the values below its frame and
    calls itself in tail position with more arguments than there are slots left. *)
Definition far_tail_call : EskbModule :=
  main_module [(OP_CLOSURE, 0); (OP_CALL, 0); (OP_HALT, 0);
    (OP_PACK_REST, 3990); (OP_CLOSURE, 1); (OP_CALL, 0); (OP_RETURN, 0); (OP_POPN, 3792); (OP_TAIL_CALL, 200)] [3; 7].

(** A function that packs its arguments behind more parameters than the stack has slots. *)
Definition far_pack_rest : EskbModule :=
  main_module [(OP_NIL, 0); (OP_NIL, 0); (OP_CLOSURE, 0); (OP_CALL, 0); (OP_HALT, 0); (OP_PACK_REST, 4095)] [5].

(** The stack pointer and the error flag a run leaves. *)
Definition main_registers (m : EskbModule) (fuel : nat) : option (Z * bool) :=
  match eshkol_vm_load always_granted m eshkol_vm_default_load_options with
  | Some v => match eshkol_vm_run always_granted fuel m v with Some (Stopped v') => Some (sp v', error v') | _ => None end
  | None => None
  end.

(** What the checks of a module let through: each of these modules loads; running it is
    undefined in C, or moves the stack pointer past the stack. *)
Lemma validator_misses :
  main_result (main_module [(OP_GET_UPVALUE, 0)] []) 10 = Some (inr below_stack) /\
  main_result (main_module [(OP_CALL, 3)] []) 10 = Some (inr below_stack) /\
  main_result (main_module [(OP_TAIL_CALL, 4000)] []) 10 = Some (inr below_stack) /\
  main_result far_tail_call 10 = Some (inr above_stack) /\
  main_registers far_pack_rest 10 = Some (4098, true) /\
  main_result (main_module [(OP_CLOSURE, 0); (OP_CALL, 0)] [-5]) 10 = Some (inr outside_code) /\
  main_result (main_module [(OP_CONST, 0); (OP_CONST, 1); (OP_MOD, 0)] [- 2 ^ 63; -1]) 10 = Some (inr overflow).
Proof. repeat split; vm_compute; reflexivity. Qed.

