(* ===== verification/VmCompiler.v ===== *)
(** * The bytecode compiler: lib/backend/vm_compiler.c, vm_parser.c

    Syntax trees, the chunk a program is compiled into, and [compile_expr] on the forms
    that need no nested chunk: literals, variables of the chunk, arithmetic and its
    constant folding, comparisons, predicates, accessors, lists, conditionals, [let],
    [let*], quotation and calls.  [None] marks the other forms (lambda, assignment,
    definitions, named let, handlers, macro uses, ...), which this model leaves out.
    The arrays of a chunk are taken to grow when they must; messages are left out. *)

From Stdlib Require Import String Ascii ZArith List Lia Bool.
From S2P Require Import Prelude Doubles Dependent Eskb VmCore VmRun.
Import ListNotations.
Open Scope Z_scope.

(** ** Syntax trees *)

Inductive Node : Type :=
| N_NUMBER (numval : Z) (is_int : bool) (ival : Z) (is_char is_inexact : bool)
| N_SYMBOL (symbol : string)
| N_LIST (children : list Node)
| N_STRING (symbol : string)
| N_BOOL (numval : bool).

Definition is_sym (n : Node) (s : string) : bool := match n with N_SYMBOL x => String.eqb x s | _ => false end.
Definition is_list (n : Node) : bool := match n with N_LIST _ => true | _ => false end.

(** ** Chunks *)

Record Local : Type := mkLocal { l_name : string; l_slot : Z; l_depth : Z; l_boxed : bool }.

Record FuncChunk : Type := mkChunk {
  ch_code : list Instr;
  ch_constants : list VmValue;
  ch_locals : list Local;
  scope_depth : Z }.

Definition code_size (c : FuncChunk) : Z := Z.of_nat (length (ch_code c)).
Definition n_locals (c : FuncChunk) : Z := Z.of_nat (length (ch_locals c)).

Definition chunk_emit (op : OpCode) (operand : Z) (c : FuncChunk) : FuncChunk :=
  mkChunk (ch_code c ++ [mkInstruction (opcode_byte op) operand]) (ch_constants c) (ch_locals c) (scope_depth c).

Definition chunk_add_const (v : VmValue) (c : FuncChunk) : Z * FuncChunk :=
  (Z.of_nat (length (ch_constants c)), mkChunk (ch_code c) (ch_constants c ++ [v]) (ch_locals c) (scope_depth c)).

Definition emit_const (v : VmValue) (c : FuncChunk) : FuncChunk :=
  let '(i, c) := chunk_add_const v c in chunk_emit OP_CONST i c.

Definition placeholder (c : FuncChunk) : Z * FuncChunk := (code_size c, chunk_emit OP_NOP 0 c).

Definition patch (slot : Z) (op : OpCode) (target : Z) (c : FuncChunk) : FuncChunk :=
  mkChunk (replace_at (ch_code c) (Z.to_nat slot) (mkInstruction (opcode_byte op) target)) (ch_constants c) (ch_locals c) (scope_depth c).

(** The innermost local of that name. *)
Definition find_local (c : FuncChunk) (name : string) : option Local := find (fun l => String.eqb (l_name l) name) (rev (ch_locals c)).
Definition resolve_local (c : FuncChunk) (name : string) : option Z := option_map l_slot (find_local c name).

Definition add_local_boxed (boxed : bool) (name : string) (c : FuncChunk) : FuncChunk :=
  mkChunk (ch_code c) (ch_constants c) (ch_locals c ++ [mkLocal name (n_locals c) (scope_depth c) boxed]) (scope_depth c).
Definition add_local : string -> FuncChunk -> FuncChunk := add_local_boxed false.

(** [c->n_locals = saved]. *)
Definition restore_locals (saved : Z) (c : FuncChunk) : FuncChunk :=
  mkChunk (ch_code c) (ch_constants c) (firstn (Z.to_nat saved) (ch_locals c)) (scope_depth c).

Definition enter_scope (c : FuncChunk) : FuncChunk := mkChunk (ch_code c) (ch_constants c) (ch_locals c) (scope_depth c + 1).
Definition leave_scope (c : FuncChunk) : FuncChunk := mkChunk (ch_code c) (ch_constants c) (ch_locals c) (scope_depth c - 1).

(** ** Variables that are assigned and captured *)

Fixpoint scan_for_set (name : string) (node : Node) : bool :=
  match node with
  | N_LIST children =>
    match children with
    | head :: target :: _ :: _ => is_sym head "set!" && is_sym target name
    | _ => false
    end || existsb (scan_for_set name) children
  | _ => false
  end.

Definition binds_name (name : string) (b : Node) : bool := match b with N_LIST (x :: _) => is_sym x name | _ => false end.

Definition rebinds (head : Node) (name : string) (sig : list Node) : bool :=
  if is_sym head "define" then existsb (fun p => is_sym p name) (tl sig)
  else if is_sym head "lambda" then existsb (fun p => is_sym p name) sig
  else (is_sym head "let" || is_sym head "let*" || is_sym head "letrec") && existsb (binds_name name) sig.

Fixpoint scan_for_capture (name : string) (in_lambda : bool) (node : Node) : bool :=
  match node with
  | N_SYMBOL x => in_lambda && String.eqb x name
  | N_LIST ((head :: second :: ((_ :: _) as body)) as children) =>
    match second with
    | N_LIST sig =>
      if rebinds head name sig then false
      else if is_sym head "define" || is_sym head "lambda" then existsb (scan_for_capture name true) body
      else existsb (scan_for_capture name in_lambda) children
    | _ =>
      if is_sym head "lambda" then existsb (scan_for_capture name true) body
      else existsb (scan_for_capture name in_lambda) children
    end
  | N_LIST ((head :: _) as children) => existsb (scan_for_capture name (in_lambda || is_sym head "lambda")) children
  | _ => false
  end.

Definition needs_boxing (bodies : list Node) (name : string) : bool :=
  existsb (scan_for_set name) bodies && existsb (scan_for_capture name false) bodies.

(** ** Literals *)

(** [v == (int64_t)v && fabs(v) < 1e15], and the integer it is. *)
Definition exact_double (v : Z) : option Z :=
  match integral v with
  | Some i => if double_lt (double_fabs v) (double_of_Z (10 ^ 15)) then Some i else None
  | None => None
  end.

Definition exact_or_float (v : Z) : VmValue := match exact_double v with Some i => VAL_INT i | None => VAL_FLOAT v end.

(** The bytes of a string, eight to a constant, the first of them lowest. *)
Fixpoint pack_bytes (l : list Z) : Z := match l with [] => 0 | b :: l => b + 256 * pack_bytes l end.

Fixpoint packs (n : nat) (l : list Z) : list Z :=
  match n, l with
  | S n, _ :: _ => s64 (pack_bytes (firstn 8 l)) :: packs n (skipn 8 l)
  | _, _ => []
  end.

Definition symbol_bytes (s : string) : list Z := List.map (fun a => Z.of_nat (nat_of_ascii a)) (list_ascii_of_string s).

(** The length, the packed bytes, and the native function that builds the string. *)
Definition compile_symbol_literal (symbol : string) (c : FuncChunk) : FuncChunk :=
  let bytes := symbol_bytes symbol in
  chunk_emit OP_NATIVE_CALL 100
    (fold_left (fun c p => emit_const (VAL_INT p) c) (packs (length bytes) bytes) (emit_const (VAL_INT (Z.of_nat (length bytes))) c)).

Definition emit_bool (b : bool) : FuncChunk -> FuncChunk := chunk_emit (if b then OP_TRUE else OP_FALSE) 0.

(** Quoted data: lists are built from their end.  A string goes through [compile_expr],
    which emits nothing when the nesting is [too_deep]. *)
Fixpoint compile_quote (too_deep : bool) (datum : Node) (c : FuncChunk) : FuncChunk :=
  match datum with
  | N_NUMBER v is_int ival _ _ => emit_const (if is_int then VAL_INT ival else exact_or_float v) c
  | N_BOOL b => emit_bool b c
  | N_STRING s => if too_deep then c else compile_symbol_literal s c
  | N_SYMBOL s => compile_symbol_literal s c
  | N_LIST children =>
    (fix items (l : list Node) : FuncChunk -> FuncChunk :=
      match l with
      | [] => fun c => c
      | x :: l => fun c => chunk_emit OP_CONS 0 (compile_quote too_deep x (items l c))
      end) children (chunk_emit OP_NIL 0 c)
  end.

(** ** Constant folding *)

Definition int_literal (n : Node) : option Z := match n with N_NUMBER _ true i _ _ => Some i | _ => None end.
Definition double_literal (n : Node) : option Z := match n with N_NUMBER v _ _ _ _ => Some v | _ => None end.

Fixpoint literals {A} (f : Node -> option A) (l : list Node) : option (list A) :=
  match l with
  | [] => Some []
  | x :: l => match f x, literals f l with Some a, Some r => Some (a :: r) | _, _ => None end
  end.

(** With the overflow builtins: nothing when a result does not fit. *)
Fixpoint fold_ints (f : Z -> Z -> Z) (acc : Z) (l : list Z) : option Z :=
  match l with
  | [] => Some acc
  | x :: l => if in_int64 (f acc x) then fold_ints f (f acc x) l else None
  end.

Inductive arith_op : Type := Add | Sub | Mul | Div.

Definition arith_of (name : string) : option arith_op :=
  if String.eqb name "+" then Some Add
  else if String.eqb name "-" then Some Sub
  else if String.eqb name "*" then Some Mul
  else if String.eqb name "/" then Some Div
  else None.

Definition fold_exact (op : arith_op) (l : list Z) : option Z :=
  match op, l with
  | Add, _ => fold_ints Z.add 0 l
  | Sub, x :: l => fold_ints Z.sub x l
  | Mul, _ => fold_ints Z.mul 1 l
  | _, _ => None
  end.

Definition fold_double (op : arith_op) (l : list Z) : option Z :=
  match op, l with
  | Add, _ => Some (fold_left double_add l double_zero)
  | Sub, x :: l => Some (fold_left double_sub l x)
  | Mul, _ => Some (fold_left double_mul l (double_of_Z 1))
  | _, _ => None
  end.

(** The constant that a form with constant operands is compiled to. *)
Definition constant_fold (op : arith_op) (operands : list Node) : option VmValue :=
  match literals int_literal operands with
  | Some l => option_map VAL_INT (fold_exact op l)
  | None =>
    match literals double_literal operands with
    | Some l => option_map exact_or_float (fold_double op l)
    | None => None
    end
  end.

(** ** Forms *)

Definition OP_of (op : arith_op) : OpCode := match op with Add => OP_ADD | Sub => OP_SUB | Mul => OP_MUL | Div => OP_DIV end.

(** What [compile_expr_impl] makes of a list by the symbol at its head and its length. *)
Inductive form : Type :=
| F_Reduce (op : arith_op)                    (** an accumulator and operand after operand *)
| F_Negate
| F_Tracked (op : OpCode)                     (** the operands as anonymous locals, then the instruction *)
| F_Plain (ops : list (OpCode * Z))           (** the operands, then the instructions *)
| F_Zero
| F_Cond | F_Case | F_When | F_Unless | F_Values | F_Pass
| F_Cons | F_List | F_If | F_Begin | F_Let | F_Let_star | F_And | F_Or | F_Quote
| F_Call
| F_Other.

Definition simple (l : list OpCode) : form := F_Plain (List.map (fun op => (op, 0)) l).

(** One operand, one or more instructions. *)
Definition unary_forms : list (string * list OpCode) :=
  [("not", [OP_NOT]); ("null?", [OP_NULL_P]); ("pair?", [OP_PAIR_P]); ("number?", [OP_NUM_P]); ("string?", [OP_STR_P]);
   ("boolean?", [OP_BOOL_P]); ("procedure?", [OP_PROC_P]); ("vector?", [OP_VEC_P]); ("display", [OP_PRINT; OP_VOID]);
   ("integer?", [OP_NUM_P]); ("abs", [OP_ABS]); ("vector-length", [OP_VEC_LEN]); ("string-length", [OP_STR_LEN]);
   ("cadr", [OP_CDR; OP_CAR]); ("cdar", [OP_CAR; OP_CDR]); ("cddr", [OP_CDR; OP_CDR]); ("caar", [OP_CAR; OP_CAR]);
   ("caddr", [OP_CDR; OP_CDR; OP_CAR]); ("caaar", [OP_CAR; OP_CAR; OP_CAR]); ("caadr", [OP_CDR; OP_CAR; OP_CAR]);
   ("cadar", [OP_CAR; OP_CDR; OP_CAR]); ("cdaar", [OP_CAR; OP_CAR; OP_CDR]); ("cdadr", [OP_CDR; OP_CAR; OP_CDR]);
   ("cddar", [OP_CAR; OP_CDR; OP_CDR]); ("cdddr", [OP_CDR; OP_CDR; OP_CDR]);
   ("caaaar", [OP_CAR; OP_CAR; OP_CAR; OP_CAR]); ("caaadr", [OP_CDR; OP_CAR; OP_CAR; OP_CAR]);
   ("caadar", [OP_CAR; OP_CDR; OP_CAR; OP_CAR]); ("caaddr", [OP_CDR; OP_CDR; OP_CAR; OP_CAR]);
   ("cadaar", [OP_CAR; OP_CAR; OP_CDR; OP_CAR]); ("cadadr", [OP_CDR; OP_CAR; OP_CDR; OP_CAR]);
   ("caddar", [OP_CAR; OP_CDR; OP_CDR; OP_CAR]); ("cadddr", [OP_CDR; OP_CDR; OP_CDR; OP_CAR]);
   ("cdaaar", [OP_CAR; OP_CAR; OP_CAR; OP_CDR]); ("cdaadr", [OP_CDR; OP_CAR; OP_CAR; OP_CDR]);
   ("cdadar", [OP_CAR; OP_CDR; OP_CAR; OP_CDR]); ("cdaddr", [OP_CDR; OP_CDR; OP_CAR; OP_CDR]);
   ("cddaar", [OP_CAR; OP_CAR; OP_CDR; OP_CDR]); ("cddadr", [OP_CDR; OP_CAR; OP_CDR; OP_CDR]);
   ("cdddar", [OP_CAR; OP_CDR; OP_CDR; OP_CDR]); ("cddddr", [OP_CDR; OP_CDR; OP_CDR; OP_CDR]);
   ("first", [OP_CAR]); ("second", [OP_CDR; OP_CAR]); ("third", [OP_CDR; OP_CDR; OP_CAR]);
   ("fourth", [OP_CDR; OP_CDR; OP_CDR; OP_CAR]); ("fifth", [OP_CDR; OP_CDR; OP_CDR; OP_CDR; OP_CAR]);
   ("call/cc", [OP_CALLCC]); ("call-with-current-continuation", [OP_CALLCC]); ("promise?", [OP_VEC_P]);
   ("car", [OP_CAR]); ("cdr", [OP_CDR]); ("real?", [OP_NUM_P])]%string.

(** One or more operands and a native function. *)
Definition native_forms : list (string * (Z * Z)) :=
  [("gpu-matmul", (3, 440)); ("gpu-softmax", (2, 463)); ("gpu-transpose", (2, 416)); ("exact-rational", (3, 330));
   ("raise", (2, 130)); ("apply", (3, 70)); ("force", (2, 132))]%string.

Definition tracked_forms : list (string * (Z * OpCode)) :=
  [("=", (3, OP_EQ)); ("<", (3, OP_LT)); (">", (3, OP_GT)); ("<=", (3, OP_LE)); (">=", (3, OP_GE)); ("modulo", (3, OP_MOD));
   ("vector-ref", (3, OP_VEC_REF)); ("vector-set!", (4, OP_VEC_SET)); ("set-car!", (3, OP_SET_CAR)); ("set-cdr!", (3, OP_SET_CDR));
   ("string-ref", (3, OP_STR_REF)); ("vref", (3, OP_VEC_REF))]%string.

(** The forms that this model leaves out. *)
Definition other_forms : list string :=
  ["gpu-elementwise"; "gpu-reduce"; "reshape"; "tensor-reshape"; "vector"; "make-vector"; "require"; "provide"; "define-syntax"; "define-record-type";
   "parameterize"; "let-values"; "with-exception-handler"; "guard"; "call-with-values"; "dynamic-wind"; "delay"; "parallel-execute";
   "case-lambda"; "letrec"; "letrec*"; "define"; "set!"; "do"; "lambda"; "quasiquote"; "make-tensor"; "let-syntax"; "letrec-syntax"; "define-values";
   "syntax-error"; "include"; "include-ci"; "borrow"; "with-region"; "define-type"]%string.

Definition assoc {A} (name : string) (l : list (string * A)) : option A := option_map snd (find (fun p => String.eqb name (fst p)) l).

(** The special forms, with the least number of children. *)
Definition special_forms : list (string * (Z * form)) :=
  [("cond", (2, F_Cond)); ("case", (3, F_Case)); ("when", (3, F_When)); ("unless", (3, F_Unless)); ("values", (2, F_Values)); ("list", (1, F_List));
   ("if", (3, F_If)); ("begin", (1, F_Begin)); ("let", (3, F_Let)); ("let*", (3, F_Let_star)); ("and", (2, F_And)); ("or", (2, F_Or))]%string.

Definition form_of (name : string) (children : list Node) : form :=
  let n := Z.of_nat (length children) in
  match arith_of name with
  | Some Sub => if n =? 2 then F_Negate else F_Reduce Sub
  | Some op => F_Reduce op
  | None =>
    if existsb (String.eqb name) other_forms then F_Other
    else
      match assoc name unary_forms, assoc name native_forms, assoc name tracked_forms, assoc name special_forms with
      | Some ops, _, _, _ => if n =? 2 then simple ops else F_Call
      | _, Some (k, id), _, _ => if n =? k then F_Plain [(OP_NATIVE_CALL, id)] else F_Call
      | _, _, Some (k, op), _ => if n =? k then F_Tracked op else F_Call
      | _, _, _, Some (k, f) => if k <=? n then f else F_Call
      | _, _, _, _ =>
        if String.eqb name "zero?" && (n =? 2) then F_Zero
        else if String.eqb name "cons" && (n =? 3) then F_Cons
        else if String.eqb name "quote" && (n =? 2) then F_Quote
        else if existsb (String.eqb name) ["owned"; "move"; "shared"; "weak-ref"]%string && (n =? 2) then F_Pass
        else F_Call
      end
  end.

(** ** compile_expr *)

Notation "'let?' x ':=' e 'in' k" := (match e with Some x => k | None => None end) (at level 200, x name, k at level 200).

Section Compiler.
  (** The names that are defined as macros. *)
  Context (is_macro : string -> bool).

Section Expression.
  (** [compile_expr] one level down, and whether it is too deep. *)
  Context (compile : Node -> bool -> FuncChunk -> option FuncChunk) (too_deep : bool).

Definition compile_number (v : Z) (is_int : bool) (ival : Z) (is_char is_inexact : bool) (c : FuncChunk) : option FuncChunk :=
  if is_char then option_map (fun i => chunk_emit OP_NATIVE_CALL 228 (emit_const (VAL_INT i) c)) (cast_int64 v)
  else if is_int then Some (emit_const (VAL_INT ival) c)
  else Some (emit_const (if is_inexact then VAL_FLOAT v else exact_or_float v) c).

Definition undefined_variable (x : string) (c : FuncChunk) : FuncChunk :=
  if String.prefix "?" x then compile_symbol_literal x c else chunk_emit OP_NIL 0 c.

(** A variable of the chunk, which has no enclosing one. *)
Definition compile_symbol (x : string) (c : FuncChunk) : FuncChunk :=
  if String.eqb x "#t" then emit_bool true c
  else if String.eqb x "#f" then emit_bool false c
  else
    match resolve_local c x with
    | Some slot =>
      if slot =? -99 then chunk_emit OP_GET_EXN 0 c
      else if slot <? 0 then undefined_variable x c
      else
        let c := chunk_emit OP_GET_LOCAL slot c in
        if existsb (fun l => (l_slot l =? slot) && l_boxed l) (ch_locals c) then chunk_emit OP_VEC_REF 0 (emit_const (VAL_INT 0) c) else c
    | None => undefined_variable x c
    end.

(** Expression after expression, the values of all but the last dropped. *)
Fixpoint compile_sequence (l : list Node) (tail : bool) (c : FuncChunk) : option FuncChunk :=
  match l with
  | [] => Some c
  | [x] => compile x tail c
  | x :: l => let? c := compile x false c in compile_sequence l tail (chunk_emit OP_POP 0 c)
  end.

(** The operands left on the stack: as anonymous locals, or not. *)
Fixpoint compile_operands_tracked (name : string) (l : list Node) (c : FuncChunk) : option FuncChunk :=
  match l with
  | [] => Some c
  | x :: l => let? c := compile x false c in compile_operands_tracked name l (add_local name c)
  end.

Fixpoint compile_operands (l : list Node) (c : FuncChunk) : option FuncChunk :=
  match l with
  | [] => Some c
  | x :: l => let? c := compile x false c in compile_operands l c
  end.

Fixpoint compile_reduce (op : OpCode) (saved : Z) (l : list Node) (c : FuncChunk) : option FuncChunk :=
  match l with
  | [] => Some c
  | x :: l =>
    let? c := compile x false (add_local "__operand__" c) in
    compile_reduce op saved l (restore_locals saved (chunk_emit op 0 c))
  end.

(** The elements of [list], from the last one. *)
Fixpoint compile_list (l : list Node) (c : FuncChunk) : option FuncChunk :=
  match l with
  | [] => Some c
  | x :: l =>
    let? c := compile_list l c in
    let? c := compile x false c in
    Some (chunk_emit OP_CONS 0 c)
  end.

(** [and] and [or] behind their first operand: a copy of the value is tested. *)
Fixpoint compile_shortcut (tests : list OpCode) (l : list Node) (c : FuncChunk) : option FuncChunk :=
  match l with
  | [] => Some c
  | x :: l =>
    let c := fold_left (fun c op => chunk_emit op 0 c) tests (chunk_emit OP_DUP 0 c) in
    let '(jf, c) := placeholder c in
    let? c := compile x false (chunk_emit OP_POP 0 c) in
    compile_shortcut tests l (patch jf OP_JUMP_IF_FALSE (code_size c) c)
  end.

Definition patch_all (slots : list Z) (c : FuncChunk) : FuncChunk :=
  let target := code_size c in fold_left (fun c slot => patch slot OP_JUMP target c) slots c.

(** The clauses of [cond]; [ends] are the jumps behind the clauses so far, at most 64. *)
Fixpoint compile_clauses (tail : bool) (ends : list Z) (l : list Node) (c : FuncChunk) : option FuncChunk :=
  match l with
  | [] => Some (patch_all ends c)
  | N_LIST (test :: ((_ :: _) as body)) :: l =>
    if is_sym test "else" then let? c := compile_sequence body tail c in Some (patch_all ends c)
    else
      let? c := compile test false c in
      let '(jnext, c) := placeholder c in
      let? c := compile_sequence body tail c in
      let '(ends, c) := if (length ends <? 64)%nat then let '(jend, c) := placeholder c in (ends ++ [jend], c) else (ends, c) in
      compile_clauses tail ends l (patch jnext OP_JUMP_IF_FALSE (code_size c) c)
  | _ :: l => compile_clauses tail ends l c
  end.

(** The data of a clause of [case]: a jump to the body for each, of which only the last
    16 are kept apart. *)
Fixpoint compile_data (bodies : list Z) (l : list Node) (c : FuncChunk) : list Z * FuncChunk :=
  match l with
  | [] => (bodies, c)
  | x :: l =>
    let c := chunk_emit OP_EQ 0 (compile_quote too_deep x (chunk_emit OP_DUP 0 c)) in
    let '(here, c) := (code_size c, chunk_emit OP_JUMP_IF_FALSE 0 c) in
    let '(bodies, slot) := if (length bodies <? 16)%nat then (bodies, here) else (removelast bodies, last bodies 0) in
    let '(jbody, c) := (code_size c, chunk_emit OP_JUMP 0 c) in
    compile_data (bodies ++ [jbody]) l (patch slot OP_JUMP_IF_FALSE (code_size c) c)
  end.

Fixpoint compile_cases (tail : bool) (ends : list Z) (l : list Node) (c : FuncChunk) : option FuncChunk :=
  match l with
  | [] => Some (patch_all ends c)
  | N_LIST (data :: ((_ :: _) as body)) :: l =>
    if is_sym data "else" then let? c := compile_sequence body tail (chunk_emit OP_POP 0 c) in Some (patch_all ends c)
    else
      match data with
      | N_LIST data =>
        let '(bodies, c) := compile_data [] data c in
        let '(jnext, c) := (code_size c, chunk_emit OP_JUMP 0 c) in
        let? c := compile_sequence body tail (chunk_emit OP_POP 0 (patch_all bodies c)) in
        let '(ends, c) := (if (length ends <? 64)%nat then ends ++ [code_size c] else ends, chunk_emit OP_JUMP 0 c) in
        compile_cases tail ends l (patch jnext OP_JUMP (code_size c) c)
      | _ => compile_cases tail ends l c
      end
  | _ :: l => compile_cases tail ends l c
  end.

(** The bindings of [let] and of [let*]: those that are no pair of a name and an
    expression are skipped. *)
Fixpoint compile_bindings (box : string -> bool) (l : list Node) (c : FuncChunk) : option FuncChunk :=
  match l with
  | [] => Some c
  | N_LIST [N_SYMBOL name; e] :: l =>
    let? c := compile e false c in
    compile_bindings box l (add_local_boxed (box name) name (if box name then chunk_emit OP_VEC_CREATE 1 c else c))
  | _ :: l => compile_bindings box l c
  end.

Definition compile_scope (box : string -> bool) (bindings body : list Node) (tail : bool) (c : FuncChunk) : option FuncChunk :=
  let saved := n_locals c in
  let? c := compile_bindings box bindings (enter_scope c) in
  let n := n_locals c - saved in
  let? c := compile_sequence body (if 0 <? n then false else tail) c in
  Some (leave_scope (restore_locals saved (if 0 <? n then chunk_emit OP_POPN n c else c))).

Definition compile_form_let (bindings body : list Node) : bool -> FuncChunk -> option FuncChunk :=
  compile_scope (needs_boxing (firstn 64 body)) bindings body.

Definition compile_form_let_star (bindings body : list Node) : bool -> FuncChunk -> option FuncChunk :=
  compile_scope (fun _ => false) bindings body.

Definition compile_form_cond (clauses : list Node) (tail : bool) (c : FuncChunk) : option FuncChunk := compile_clauses tail [] clauses c.

Definition compile_form_case (key : Node) (clauses : list Node) (tail : bool) (c : FuncChunk) : option FuncChunk :=
  let? c := compile key false c in compile_cases tail [] clauses c.

Definition compile_if (test : Node) (body : list Node) (tail : bool) (c : FuncChunk) : option FuncChunk :=
  let? c := compile test false c in
  let '(jf, c) := placeholder c in
  match body with
  | [] => None
  | yes :: no =>
    let? c := compile yes tail c in
    match no with
    | [] => Some (patch jf OP_JUMP_IF_FALSE (code_size c) c)
    | no :: _ =>
      let '(jend, c) := placeholder c in
      let? c := compile no tail (patch jf OP_JUMP_IF_FALSE (code_size c) c) in
      Some (patch jend OP_JUMP (code_size c) c)
    end
  end.

Definition compile_when (test : Node) (ops : list OpCode) (body : list Node) (c : FuncChunk) : option FuncChunk :=
  let? c := compile test false c in
  let '(jf, c) := placeholder (fold_left (fun c op => chunk_emit op 0 c) ops c) in
  let? c := compile_sequence body false c in
  Some (patch jf OP_JUMP_IF_FALSE (code_size c) c).

Definition compile_call (head : Node) (args : list Node) (tail : bool) (c : FuncChunk) : option FuncChunk :=
  let saved := n_locals c in
  let? c := compile head false c in
  let? c := compile_operands_tracked "__call_arg__" args (add_local "__call_func__" c) in
  Some (restore_locals saved (chunk_emit (if tail then OP_TAIL_CALL else OP_CALL) (Z.of_nat (length args)) c)).

Definition emit_all (ops : list (OpCode * Z)) (c : FuncChunk) : FuncChunk := fold_left (fun c i => chunk_emit (fst i) (snd i) c) ops c.

(** A list with a symbol at its head; [args] are the other children. *)
Definition compile_form (name : string) (args : list Node) (tail : bool) (c : FuncChunk) : option FuncChunk :=
  let head := N_SYMBOL name in
  match form_of name (head :: args), args with
  | F_Reduce op, x :: l =>
    match (if (2 <=? length args)%nat then constant_fold op args else None) with
    | Some v => Some (emit_const v c)
    | None => let saved := n_locals c in let? c := compile x false c in compile_reduce (OP_of op) saved l c
    end
  | F_Negate, [x] => let? c := compile x false c in Some (chunk_emit OP_NEG 0 c)
  | F_Tracked op, _ => let saved := n_locals c in let? c := compile_operands_tracked "__operand__" args c in Some (chunk_emit op 0 (restore_locals saved c))
  | F_Plain ops, _ => let? c := compile_operands args c in Some (emit_all ops c)
  | F_Zero, [x] => let? c := compile x false c in Some (chunk_emit OP_EQ 0 (emit_const (VAL_INT 0) c))
  | F_Cond, _ => compile_form_cond args tail c
  | F_Case, key :: clauses => compile_form_case key clauses tail c
  | F_When, test :: body => compile_when test [] body c
  | F_Unless, test :: body => compile_when test [OP_NOT] body c
  | F_Values, [x] => compile x tail c
  | F_Values, _ => let? c := compile_operands args c in Some (chunk_emit OP_VEC_CREATE (Z.of_nat (length args)) c)
  | F_Pass, [x] => compile x tail c
  | F_Cons, [x; y] =>
    let saved := n_locals c in
    let? c := compile y false c in
    let? c := compile x false (add_local "__operand__" c) in
    Some (chunk_emit OP_CONS 0 (restore_locals saved c))
  | F_List, _ => compile_list args (chunk_emit OP_NIL 0 c)
  | F_If, test :: body => compile_if test body tail c
  | F_Begin, _ => compile_sequence args tail c
  | F_Let, N_LIST bindings :: body => compile_form_let bindings body tail c
  | F_Let, N_SYMBOL _ :: N_LIST _ :: _ :: _ => None
  | F_Let_star, N_LIST bindings :: body => compile_form_let_star bindings body tail c
  | (F_Let | F_Let_star), _ => compile_call head args tail c
  | F_And, x :: l => let? c := compile x false c in compile_shortcut [] l c
  | F_Or, x :: l => let? c := compile x false c in compile_shortcut [OP_NOT] l c
  | F_Quote, [datum] => Some (compile_quote too_deep datum c)
  | F_Call, _ => compile_call head args tail c
  | _, _ => None
  end.

Definition compile_expr_impl (node : Node) (tail : bool) (c : FuncChunk) : option FuncChunk :=
  match node with
  | N_NUMBER v is_int ival is_char is_inexact => compile_number v is_int ival is_char is_inexact c
  | N_BOOL b => Some (emit_bool b c)
  | N_STRING s => Some (compile_symbol_literal s c)
  | N_SYMBOL x => Some (compile_symbol x c)
  | N_LIST [] => Some (chunk_emit OP_NIL 0 c)
  | N_LIST (N_SYMBOL name :: args) => if is_macro name then None else compile_form name args tail c
  | N_LIST ((N_LIST _ as head) :: args) => compile_call head args tail c
  | N_LIST _ => Some (chunk_emit OP_NIL 0 c)
  end.

End Expression.

(** The expression at [n] levels below the limit of 1000. *)
Fixpoint compile_expr (n : nat) (node : Node) (tail : bool) (c : FuncChunk) : option FuncChunk :=
  match n with
  | O => Some c
  | S n => compile_expr_impl (compile_expr n) (match n with O => true | S _ => false end) node tail c
  end.

End Compiler.

Definition max_compile_depth : nat := 1000.
Definition empty_chunk : FuncChunk := mkChunk [] [] [] 0.

(** The machine that runs a chunk: a constant behind [MAX_CONSTS] is not copied, but counted. *)
Definition run_compiled_chunk (c : FuncChunk) : VM :=
  let ks := firstn (Z.to_nat MAX_CONSTS) (ch_constants c) in
  fresh_vm (ch_code c) (ks ++ repeat VAL_NIL (Z.to_nat MAX_CONSTS - length ks)) (Z.of_nat (length (ch_constants c))).

(** ** Examples *)

Definition sym : string -> Node := N_SYMBOL.
Definition num (i : Z) : Node := N_NUMBER (double_of_Z i) true i false false.
Definition apply_form (f : string) (args : list Node) : Node := N_LIST (sym f :: args).

Definition no_macros : string -> bool := fun _ => false.

(** The stack and the error flag after the program, compiled and run in a fresh machine. *)
Definition compile_and_run (node : Node) : option (list VmValue * bool) :=
  match compile_expr no_macros max_compile_depth node false empty_chunk with
  | Some c => stopped_with (vm_run always_granted 1000 (run_compiled_chunk (chunk_emit OP_HALT 0 c)))
  | None => None
  end.

Example arithmetic_runs : compile_and_run (apply_form "+" [num 1; apply_form "let" [N_LIST [N_LIST [sym "x"; num 2]]; apply_form "*" [sym "x"; num 5]]]) = Some ([VAL_INT 11], false).
Proof. vm_compute. reflexivity. Qed.

Example folding_runs :
  option_map (fun c => List.map i_op (ch_code c)) (compile_expr no_macros max_compile_depth (apply_form "+" [num 1; num 2]) false empty_chunk) = Some [opcode_byte OP_CONST] /\
  option_map (fun c => List.map i_op (ch_code c)) (compile_expr no_macros max_compile_depth (apply_form "+" [num (2 ^ 62); num (2 ^ 62)]) false empty_chunk) =
    Some [opcode_byte OP_CONST; opcode_byte OP_CONST; opcode_byte OP_ADD].
Proof. vm_compute. split; reflexivity. Qed.
