(* ===== verification/VmCompilerSpec.v ===== *)
(** * Compiled code computes the value of its expression

    A reference evaluator for expressions over exact integers, booleans and pairs, and the
    proof that the machine, run on the code that [compile_expr] emits, arrives behind it
    with that value pushed. *)

From Stdlib Require Import String Ascii ZArith List Lia Bool.
From S2P Require Import Prelude Doubles Dependent Eskb VmCore VmRun VmLoad VmSafety VmCompiler.
Import ListNotations.
Open Scope Z_scope.
Open Scope vm_scope.

(** ** The values of expressions *)

Inductive value : Type :=
| D_INT (i : Z)
| D_FLOAT (f : Z)
| D_BOOL (b : bool)
| D_NIL
| D_PAIR (car cdr : value).

Inductive answer : Type :=
| Returns (d : value)
| Raises.

Definition ebind (m : option answer) (k : value -> option answer) : option answer :=
  match m with Some (Returns d) => k d | _ => m end.
Notation "'ev!' x ':=' m 'in' k" := (ebind m (fun x => k)) (at level 200, x name, k at level 200).

Definition returns (d : value) : option answer := Some (Returns d).
Definition env := list (string * value).

Definition env_lookup (x : string) (rho : env) : option value := assoc x rho.

(** What counts as true.  The empty list is true in Scheme and false for the machine, so
    a test of it has no meaning here. *)
Definition truth (d : value) : option bool :=
  match d with D_BOOL b => Some b | D_NIL => None | _ => Some true end.

(** An exact result that fits the machine's integers; others are bignums. *)
Definition exact (i : Z) : option answer := if in_int64 i then returns (D_INT i) else None.

Definition arithmetic (op : arith_op) (a b : value) : option answer :=
  match a, b with
  | D_INT i, D_INT j =>
    match op with
    | Add => exact (i + j)
    | Sub => exact (i - j)
    | Mul => exact (i * j)
    | Div => if j =? 0 then Some Raises else None
    end
  | _, _ => None
  end.

(** *** Primitives of one and of two arguments *)

(** The letters between the c and the r of an accessor, one to four of them. *)
Fixpoint path_letters (s : string) : option (list bool) :=
  match s with
  | String c s =>
    if Ascii.eqb c "r" then match s with EmptyString => Some [] | _ => None end
    else
      match (if Ascii.eqb c "a" then Some true else if Ascii.eqb c "d" then Some false else None), path_letters s with
      | Some step, Some path => Some (step :: path)
      | _, _ => None
      end
  | EmptyString => None
  end.

Definition accessor (name : string) : option (list bool) :=
  if String.eqb name "first" then Some [true]
  else if String.eqb name "second" then Some [true; false]
  else if String.eqb name "third" then Some [true; false; false]
  else if String.eqb name "fourth" then Some [true; false; false; false]
  else if String.eqb name "fifth" then Some [true; false; false; false; false]
  else
    match name with
    | String "c" s => match path_letters s with Some path => if (1 <=? length path)%nat && (length path <=? 4)%nat then Some path else None | None => None end
    | _ => None
    end.

(** The last letter acts first. *)
Fixpoint follow_path (path : list bool) (d : value) : answer :=
  match path with
  | [] => Returns d
  | step :: path =>
    match follow_path path d with
    | Returns (D_PAIR a b) => Returns (if step then a else b)
    | _ => Raises
    end
  end.

Definition primitive1 (name : string) (d : value) : option answer :=
  match accessor name with
  | Some path => Some (follow_path path d)
  | None =>
    if String.eqb name "not" then option_map (fun b => Returns (D_BOOL (negb b))) (truth d)
    else if String.eqb name "null?" then returns (D_BOOL match d with D_NIL => true | _ => false end)
    else if String.eqb name "pair?" then returns (D_BOOL match d with D_PAIR _ _ => true | _ => false end)
    else if String.eqb name "boolean?" then returns (D_BOOL match d with D_BOOL _ => true | _ => false end)
    else if String.eqb name "number?" || String.eqb name "real?" then returns (D_BOOL match d with D_INT _ | D_FLOAT _ => true | _ => false end)
    else if String.eqb name "integer?" then match d with D_INT _ => returns (D_BOOL true) | D_FLOAT _ => None | _ => returns (D_BOOL false) end
    else if String.eqb name "string?" || String.eqb name "procedure?" || String.eqb name "vector?" then returns (D_BOOL false)
    else if String.eqb name "zero?" then match d with D_INT i => returns (D_BOOL (i =? 0)) | _ => None end
    else if String.eqb name "abs" then match d with D_INT i => exact (Z.abs i) | _ => None end
    else if String.eqb name "-" then match d with D_INT i => exact (- i) | _ => None end
    else None
  end.

Definition primitive2 (name : string) (a b : value) : option answer :=
  match a, b with
  | D_INT i, D_INT j =>
    if String.eqb name "=" then returns (D_BOOL (i =? j))
    else if String.eqb name "<" then returns (D_BOOL (i <? j))
    else if String.eqb name ">" then returns (D_BOOL (j <? i))
    else if String.eqb name "<=" then returns (D_BOOL (i <=? j))
    else if String.eqb name ">=" then returns (D_BOOL (j <=? i))
    else if String.eqb name "modulo" then
      if j =? 0 then Some Raises else if (i =? INT64_MIN) && (j =? -1) then None else returns (D_INT (i mod j))
    else None
  | _, _ => None
  end.

Definition has_unary (name : string) : bool :=
  match accessor name with
  | Some _ => true
  | None => existsb (String.eqb name) ["not"; "null?"; "pair?"; "boolean?"; "number?"; "real?"; "integer?"; "string?"; "procedure?"; "vector?"; "zero?"; "abs"]%string
  end.

Definition has_binary (name : string) : bool := existsb (String.eqb name) ["="; "<"; ">"; "<="; ">="; "modulo"]%string.

(** *** Expressions *)

(** A quoted inexact number with an integral value becomes exact in compiled code: no meaning. *)
Fixpoint quoted_datum (node : Node) : option value :=
  match node with
  | N_NUMBER v is_int i is_char is_inexact =>
    if is_char then None
    else if is_int then Some (D_INT i)
    else if is_inexact then match exact_double v with Some _ => None | None => Some (D_FLOAT v) end
    else None
  | N_BOOL b => Some (D_BOOL b)
  | N_LIST children =>
    (fix items (l : list Node) : option value :=
      match l with
      | [] => Some D_NIL
      | x :: l => match items l, quoted_datum x with Some d, Some a => Some (D_PAIR a d) | _, _ => None end
      end) children
  | _ => None
  end.

(** Whether a symbol occurs. *)
Fixpoint mentions (x : string) (node : Node) : bool :=
  match node with
  | N_SYMBOL y => String.eqb y x
  | N_LIST children => existsb (mentions x) children
  | _ => false
  end.

(** No form that binds local variables. *)
Definition no_let (node : Node) : bool := negb (mentions "let" node || mentions "let*" node).

Section Evaluator.
  Context (eval : env -> Node -> option answer).

Fixpoint eval_sequence (rho : env) (l : list Node) : option answer :=
  match l with
  | [] => None
  | [x] => eval rho x
  | x :: l => ev! _ := eval rho x in eval_sequence rho l
  end.

Fixpoint eval_reduce (op : arith_op) (rho : env) (acc : value) (l : list Node) : option answer :=
  match l with
  | [] => returns acc
  | x :: l => ev! d := eval rho x in ev! acc := arithmetic op acc d in eval_reduce op rho acc l
  end.

(** The machine evaluates the elements from the last one.  An element that binds
    variables is compiled wrongly: no meaning. *)
Fixpoint eval_list (rho : env) (l : list Node) : option answer :=
  match l with
  | [] => returns D_NIL
  | x :: l => ev! d := eval_list rho l in if no_let x then ev! a := eval rho x in returns (D_PAIR a d) else None
  end.

(** [and] ([stop] is false) and [or] ([stop] is true) behind their first operand. *)
Fixpoint eval_shortcut (stop : bool) (rho : env) (d : value) (l : list Node) : option answer :=
  match l with
  | [] => returns d
  | x :: l =>
    match truth d with
    | Some b => if Bool.eqb b stop then returns d else ev! d := eval rho x in eval_shortcut stop rho d l
    | None => None
    end
  end.

Definition eval_if (rho : env) (test : Node) (yes no : option answer) : option answer :=
  ev! d := eval rho test in match truth d with Some true => yes | Some false => no | None => None end.

(** No value when no clause is taken. *)
Fixpoint eval_clauses (rho : env) (l : list Node) : option answer :=
  match l with
  | N_LIST (test :: ((_ :: _) as body)) :: l =>
    if is_sym test "else" then eval_sequence rho body
    else eval_if rho test (eval_sequence rho body) (eval_clauses rho l)
  | _ => None
  end.

Fixpoint eval_let_star (rho : env) (bindings body : list Node) : option answer :=
  match bindings with
  | [] => eval_sequence rho body
  | N_LIST [N_SYMBOL x; e] :: bindings => ev! d := eval rho e in eval_let_star ((x, d) :: rho) bindings body
  | _ => None
  end.

(** The expressions are evaluated outside of the scope of the variables; the compiled
    code evaluates them inside, so they have no meaning when they mention one that is
    bound before. *)
Fixpoint eval_let (outer rho : env) (bound : list string) (bindings body : list Node) : option answer :=
  match bindings with
  | [] => eval_sequence rho body
  | N_LIST [N_SYMBOL x; e] :: bindings =>
    if existsb (fun y => mentions y e) bound then None
    else ev! d := eval outer e in eval_let outer ((x, d) :: rho) (x :: bound) bindings body
  | _ => None
  end.

Definition eval_form (rho : env) (name : string) (args : list Node) : option answer :=
  match arith_of name, args with
  | Some Sub, [x] => ev! d := eval rho x in primitive1 "-" d
  | Some Div, [_] => None
  | Some op, x :: l => ev! d := eval rho x in eval_reduce op rho d l
  | Some _, [] => None
  | None, _ =>
    if String.eqb name "if" then
      match args with
      | [test; yes] => eval_if rho test (eval rho yes) None
      | [test; yes; no] => eval_if rho test (eval rho yes) (eval rho no)
      | _ => None
      end
    else if String.eqb name "begin" then eval_sequence rho args
    else if String.eqb name "let" then match args with N_LIST bindings :: ((_ :: _) as body) => eval_let rho rho [] bindings body | _ => None end
    else if String.eqb name "let*" then match args with N_LIST bindings :: ((_ :: _) as body) => eval_let_star rho bindings body | _ => None end
    else if String.eqb name "and" then match args with x :: l => ev! d := eval rho x in eval_shortcut false rho d l | [] => None end
    else if String.eqb name "or" then match args with x :: l => ev! d := eval rho x in eval_shortcut true rho d l | [] => None end
    else if String.eqb name "cond" then if (length args <=? 64)%nat then eval_clauses rho args else None
    else if String.eqb name "when" then match args with test :: ((_ :: _) as body) => eval_if rho test (eval_sequence rho body) None | _ => None end
    else if String.eqb name "unless" then match args with test :: ((_ :: _) as body) => eval_if rho test None (eval_sequence rho body) | _ => None end
    else if String.eqb name "quote" then match args with [x] => option_map Returns (quoted_datum x) | _ => None end
    else if String.eqb name "list" then eval_list rho args
    else if String.eqb name "cons" then
      match args with [x; y] => ev! d := eval rho y in ev! a := eval rho x in returns (D_PAIR a d) | _ => None end
    else
      match args with
      | [x] => if has_unary name then ev! d := eval rho x in primitive1 name d else None
      | [x; y] => if has_binary name then ev! a := eval rho x in ev! b := eval rho y in primitive2 name a b else None
      | _ => None
      end
  end.

End Evaluator.

(** The names of forms and primitives cannot be bound: then there is no meaning. *)
Fixpoint eval (n : nat) (rho : env) (node : Node) : option answer :=
  match n with
  | O => None
  | S n =>
    match node with
    | N_NUMBER v is_int i is_char is_inexact =>
      if is_char then None else if is_int then returns (D_INT i) else if is_inexact then returns (D_FLOAT v) else None
    | N_BOOL b => returns (D_BOOL b)
    | N_SYMBOL x =>
      if String.eqb x "#t" then returns (D_BOOL true)
      else if String.eqb x "#f" then returns (D_BOOL false)
      else if String.eqb x "__operand__" then None
      else option_map Returns (env_lookup x rho)
    | N_LIST (N_SYMBOL name :: args) => match env_lookup name rho with Some _ => None | None => eval_form (eval n) rho name args end
    | _ => None
    end
  end.

(** ** What emitting code keeps *)

Definition n_consts (c : FuncChunk) : Z := Z.of_nat (length (ch_constants c)).

(** From [c] to [c'] code was only added, but for instructions in front of [lo]. *)
Record later (lo : Z) (c c' : FuncChunk) : Prop := {
  later_size : code_size c <= code_size c';
  later_code : forall i x, lo <= i -> array_get (ch_code c) i = Some x -> array_get (ch_code c') i = Some x;
  later_consts : exists ks, ch_constants c' = ch_constants c ++ ks;
}.

Lemma later_refl lo c : later lo c c.
Proof. split; [lia|auto|exists []; rewrite app_nil_r; reflexivity]. Qed.

Lemma later_trans lo c1 c2 c3 : later lo c1 c2 -> later lo c2 c3 -> later lo c1 c3.
Proof.
  intros [A1 A2 (ks & A3)] [B1 B2 (ks' & B3)]. split; [lia|auto|]. exists (ks ++ ks'). rewrite B3, A3, app_assoc. reflexivity.
Qed.

Lemma later_weaken lo lo' c c' : lo <= lo' -> later lo c c' -> later lo' c c'.
Proof. intros Hl [A1 A2 A3]. split; [exact A1| |exact A3]. intros i x Hi. apply A2. lia. Qed.

Lemma later_n_consts lo c c' : later lo c c' -> n_consts c <= n_consts c'.
Proof. intros [_ _ (ks & E)]. unfold n_consts. rewrite E, length_app. lia. Qed.

Lemma code_size_nonneg c : 0 <= code_size c.
Proof. unfold code_size. lia. Qed.

(** *** Single emissions *)

Lemma size_emit op x c : code_size (chunk_emit op x c) = code_size c + 1.
Proof. unfold code_size, chunk_emit. cbn [ch_code]. rewrite length_app. cbn. lia. Qed.

Lemma size_const v c : code_size (emit_const v c) = code_size c + 1.
Proof. unfold emit_const, chunk_add_const. rewrite size_emit. reflexivity. Qed.

Lemma size_patch s op t c : code_size (patch s op t c) = code_size c.
Proof. unfold code_size, patch. cbn [ch_code]. rewrite length_replace. reflexivity. Qed.

Lemma n_consts_emit op x c : n_consts (chunk_emit op x c) = n_consts c.
Proof. reflexivity. Qed.

Lemma n_consts_const v c : n_consts (emit_const v c) = n_consts c + 1.
Proof. unfold n_consts, emit_const, chunk_add_const, chunk_emit. cbn [ch_constants]. rewrite length_app. cbn. lia. Qed.

Lemma n_consts_patch s op t c : n_consts (patch s op t c) = n_consts c.
Proof. reflexivity. Qed.

Lemma later_emit lo op x c : later lo c (chunk_emit op x c).
Proof.
  split; [rewrite size_emit; lia| |exists []; cbn; rewrite app_nil_r; reflexivity]. intros i y _ H. cbn. apply array_get_app, H.
Qed.

Lemma later_const lo v c : later lo c (emit_const v c).
Proof.
  unfold emit_const, chunk_add_const. eapply later_trans; [|apply later_emit]. split; [reflexivity|auto|exists [v]; reflexivity].
Qed.

Lemma later_patch lo s op t c : 0 <= s < lo -> s < code_size c -> later lo c (patch s op t c).
Proof.
  intros Hs Hc. split; [rewrite size_patch; lia| |exists []; cbn; rewrite app_nil_r; reflexivity].
  intros i x Hi H. cbn. rewrite array_get_replace by exact (conj (proj1 Hs) Hc). destruct (Z.eqb_spec s i); [lia|exact H].
Qed.

(** A patched instruction outside of a part of the code. *)
Lemma later_patch_out lo c0 c s op t : later lo c0 c -> s < lo \/ code_size c0 <= s -> 0 <= s < code_size c -> later lo c0 (patch s op t c).
Proof.
  intros [A1 A2 A3] Hs Hc. split; [rewrite size_patch; exact A1| |exact A3]. intros i x Hi H. cbn. rewrite array_get_replace by exact Hc.
  pose proof (array_get_Some _ _ _ H) as Hr. unfold code_size in *. destruct (Z.eqb_spec s i); [lia|]. apply A2; [exact Hi|exact H].
Qed.

Lemma get_patch_same s op t c : 0 <= s < code_size c -> array_get (ch_code (patch s op t c)) s = Some (mkInstruction (opcode_byte op) t).
Proof. intros Hs. cbn. rewrite array_get_replace by exact Hs. rewrite Z.eqb_refl. reflexivity. Qed.

Lemma get_patch_other s op t c i x : 0 <= s < code_size c -> s <> i -> array_get (ch_code c) i = Some x -> array_get (ch_code (patch s op t c)) i = Some x.
Proof. intros Hs Hn H. cbn. rewrite array_get_replace by exact Hs. destruct (Z.eqb_spec s i); [lia|exact H]. Qed.

Lemma get_last op x c : array_get (ch_code (chunk_emit op x c)) (code_size c) = Some (mkInstruction (opcode_byte op) x).
Proof. cbn. apply array_get_last. Qed.

Lemma get_emit op x c i y : array_get (ch_code c) i = Some y -> array_get (ch_code (chunk_emit op x c)) i = Some y.
Proof. apply array_get_app. Qed.

(** A patched instruction behind the end of [c]. *)
Lemma later_patched c c' s op t : 0 <= s -> code_size c <= s < code_size c' -> later 0 c c' -> later 0 c (patch s op t c').
Proof.
  intros H0 Hs [A1 A2 A3]. split; [rewrite size_patch; exact A1| |exact A3]. intros i x Hi H. cbn. rewrite array_get_replace by (unfold code_size in Hs; lia).
  pose proof (array_get_Some _ _ _ H) as Hr. unfold code_size in *. destruct (Z.eqb_spec s i); [lia|]. apply A2; [exact Hi|exact H].
Qed.

Lemma later_locals lo c c' : ch_code c' = ch_code c -> ch_constants c' = ch_constants c -> later lo c c'.
Proof. intros E1 E2. split; [unfold code_size; rewrite E1; lia|rewrite E1; auto|exists []; rewrite E2, app_nil_r; reflexivity]. Qed.

Lemma later_add_local lo b x c : later lo c (add_local_boxed b x c).
Proof. apply later_locals; reflexivity. Qed.

Lemma later_restore lo n c : later lo c (restore_locals n c).
Proof. apply later_locals; reflexivity. Qed.

#[export] Hint Rewrite size_emit size_const size_patch n_consts_emit n_consts_const n_consts_patch : chunk.
Create HintDb chunks.
#[export] Hint Resolve later_refl later_emit later_const later_add_local later_restore : chunks.

(** *** Whole expressions: the chunk grows and its locals are as before *)

Record grows (c c' : FuncChunk) : Prop := {
  grows_later : later 0 c c';
  grows_locals : ch_locals c' = ch_locals c;
  grows_depth : scope_depth c' = scope_depth c;
}.

Lemma chunk_grows_refl c : grows c c.
Proof. split; [apply later_refl|reflexivity|reflexivity]. Qed.

Lemma chunk_grows_trans c1 c2 c3 : grows c1 c2 -> grows c2 c3 -> grows c1 c3.
Proof. intros [A1 A2 A3] [B1 B2 B3]. split; [eapply later_trans; eassumption|congruence|congruence]. Qed.

Lemma grows_emit op x c : grows c (chunk_emit op x c).
Proof. split; [apply later_emit|reflexivity|reflexivity]. Qed.

Lemma grows_const v c : grows c (emit_const v c).
Proof. split; [apply later_const|reflexivity|reflexivity]. Qed.

Lemma grows_patch c c' s op t : 0 <= s -> code_size c <= s < code_size c' -> grows c c' -> grows c (patch s op t c').
Proof. intros H0 Hs [A1 A2 A3]. split; [apply later_patched; assumption|exact A2|exact A3]. Qed.

Lemma get_grows c c' i x : grows c c' -> array_get (ch_code c) i = Some x -> array_get (ch_code c') i = Some x.
Proof. intros [[_ A _] _ _] H. apply A; [pose proof (array_get_Some _ _ _ H); lia|exact H]. Qed.

Lemma grows_size c c' : grows c c' -> code_size c <= code_size c'.
Proof. intros [[A _ _] _ _]. exact A. Qed.

#[export] Hint Resolve chunk_grows_refl grows_emit grows_const : chunks.

Lemma grows_fold {A} (f : FuncChunk -> A -> FuncChunk) l c : (forall c x, grows c (f c x)) -> grows c (fold_left f l c).
Proof. intros Hf. revert c. induction l as [|x l IH]; intros c; cbn; [apply chunk_grows_refl|]. eapply chunk_grows_trans; [apply Hf|apply IH]. Qed.

Lemma grows_emits (ops : list OpCode) c : grows c (fold_left (fun c op => chunk_emit op 0 c) ops c).
Proof. apply grows_fold. intros. apply grows_emit. Qed.

Lemma grows_emit_all ops c : grows c (emit_all ops c).
Proof. apply grows_fold. intros. apply grows_emit. Qed.

Lemma grows_symbol s c : grows c (compile_symbol_literal s c).
Proof.
  unfold compile_symbol_literal. eapply chunk_grows_trans; [|apply grows_emit]. eapply chunk_grows_trans; [apply grows_const|]. apply grows_fold. intros. apply grows_const.
Qed.

Section NodeInd.
  Context (P : Node -> Prop) (Hnum : forall v a b c d, P (N_NUMBER v a b c d)) (Hsym : forall s, P (N_SYMBOL s)) (Hstr : forall s, P (N_STRING s))
    (Hbool : forall b, P (N_BOOL b)) (Hlist : forall l, Forall P l -> P (N_LIST l)).

(** Induction over syntax trees. *)
Fixpoint node_ind' (n : Node) : P n :=
  match n with
  | N_NUMBER v a b c d => Hnum v a b c d
  | N_SYMBOL s => Hsym s
  | N_STRING s => Hstr s
  | N_BOOL b => Hbool b
  | N_LIST l => Hlist l ((fix items (l : list Node) : Forall P l := match l with [] => Forall_nil P | x :: l => @Forall_cons _ P x l (node_ind' x) (items l) end) l)
  end.

End NodeInd.

Lemma grows_quote b x c : grows c (compile_quote b x c).
Proof.
  revert c. induction x as [v i j k m|s|s|v|l IH] using node_ind'; intros c; cbn [compile_quote].
  - apply grows_const.
  - apply grows_symbol.
  - destruct b; [apply chunk_grows_refl|apply grows_symbol].
  - apply grows_emit.
  - eapply chunk_grows_trans; [apply (grows_emit OP_NIL 0)|]. generalize (chunk_emit OP_NIL 0 c). induction IH as [|x l Hx _ IHl]; intros c1; [apply chunk_grows_refl|].
    eapply chunk_grows_trans; [apply IHl|]. eapply chunk_grows_trans; [apply Hx|apply grows_emit].
Qed.

#[export] Hint Resolve grows_emits grows_emit_all grows_symbol grows_quote : chunks.

(** *** Forms *)

Section Grows.
  Context (compile : Node -> bool -> FuncChunk -> option FuncChunk) (IH : forall x t c c', compile x t c = Some c' -> grows c c') (deep : bool).

Lemma bind_some {A B} (m : option A) (k : A -> option B) b : (match m with Some x => k x | None => None end) = Some b -> exists a, m = Some a /\ k a = Some b.
Proof. destruct m as [a|]; [eauto|discriminate]. Qed.

Ltac split_binds := repeat match goal with H : (match ?m with Some _ => _ | None => None end) = Some _ |- _ => apply bind_some in H as (? & ? & H) end.
Ltac chain :=
  lazymatch goal with
  | |- grows ?c ?c => apply chunk_grows_refl
  | H : grows _ ?c' |- grows _ ?c' => refine (chunk_grows_trans _ _ _ _ H); chain
  | |- grows _ (chunk_emit _ _ _) => refine (chunk_grows_trans _ _ _ _ (grows_emit _ _ _)); chain
  | |- grows _ (emit_const _ _) => refine (chunk_grows_trans _ _ _ _ (grows_const _ _)); chain
  | |- grows _ (emit_all _ _) => refine (chunk_grows_trans _ _ _ _ (grows_emit_all _ _)); chain
  | |- grows _ (compile_quote _ _ _) => refine (chunk_grows_trans _ _ _ _ (grows_quote _ _ _)); chain
  end.
Ltac grow := repeat match goal with H : compile _ _ _ = Some _ |- _ => apply IH in H end; chain.

Lemma grows_sequence l t c c' : compile_sequence compile l t c = Some c' -> grows c c'.
Proof.
  revert c. induction l as [|x l IHl]; intros c; cbn [compile_sequence]; [intros [= <-]; apply chunk_grows_refl|]. destruct l as [|y l]; [apply IH|].
  intros H. split_binds. apply IHl in H. grow.
Qed.

Lemma grows_operands l c c' : compile_operands compile l c = Some c' -> grows c c'.
Proof. revert c. induction l as [|x l IHl]; intros c; cbn [compile_operands]; [intros [= <-]; apply chunk_grows_refl|]. intros H. split_binds. apply IHl in H. grow. Qed.

Lemma grows_list l c c' : compile_list compile l c = Some c' -> grows c c'.
Proof.
  revert c c'. induction l as [|x l IHl]; intros c c'; cbn [compile_list]; [intros [= <-]; apply chunk_grows_refl|]. intros H. split_binds. injection H as <-. apply IHl in H0. grow.
Qed.

(** More locals behind those of [c]. *)
Definition grows_with (c c' : FuncChunk) : Prop := later 0 c c' /\ (exists ls, ch_locals c' = ch_locals c ++ ls) /\ scope_depth c' = scope_depth c.

Lemma grows_with_refl c : grows_with c c.
Proof. split; [apply later_refl|]. split; [exists []; rewrite app_nil_r; reflexivity|reflexivity]. Qed.

Lemma grows_with_trans c1 c2 c3 : grows_with c1 c2 -> grows_with c2 c3 -> grows_with c1 c3.
Proof.
  intros (A1 & (ls & A2) & A3) (B1 & (ls' & B2) & B3). split; [eapply later_trans; eassumption|]. split; [exists (ls ++ ls'); rewrite B2, A2, app_assoc; reflexivity|congruence].
Qed.

Lemma grows_grows_with c c' : grows c c' -> grows_with c c'.
Proof. intros [A B D]. split; [exact A|]. split; [exists []; rewrite app_nil_r; exact B|exact D]. Qed.

Lemma grows_with_local b x c : grows_with c (add_local_boxed b x c).
Proof. split; [apply later_add_local|]. split; [eexists; reflexivity|reflexivity]. Qed.

Lemma grows_restored c c' : grows_with c c' -> grows c (restore_locals (n_locals c) c').
Proof.
  intros (A & (ls & B) & D). split; [eapply later_trans; [exact A|apply later_restore]| |exact D]. cbn. rewrite B. unfold n_locals. rewrite Nat2Z.id.
  rewrite firstn_app, firstn_all, Nat.sub_diag. cbn. apply app_nil_r.
Qed.

Lemma grows_tracked name l c c' : compile_operands_tracked compile name l c = Some c' -> grows_with c c'.
Proof.
  revert c. induction l as [|x l IHl]; intros c; cbn [compile_operands_tracked]; [intros [= <-]; apply grows_with_refl|]. intros H. split_binds. apply IHl in H. apply IH in H0.
  eapply grows_with_trans; [apply grows_grows_with, H0|]. eapply grows_with_trans; [apply grows_with_local|exact H].
Qed.

Lemma grows_n_locals c c' : grows c c' -> n_locals c' = n_locals c.
Proof. intros G. unfold n_locals. rewrite (grows_locals _ _ G). reflexivity. Qed.

Lemma grows_reduce op saved l c c' : saved = n_locals c -> compile_reduce compile op saved l c = Some c' -> grows c c'.
Proof.
  intros ->. revert c. induction l as [|x l IHl]; intros c; cbn [compile_reduce]; [intros [= <-]; apply chunk_grows_refl|]. intros H. split_binds. apply IH in H0.
  assert (G : grows c (restore_locals (n_locals c) (chunk_emit op 0 x0))).
  { apply grows_restored. eapply grows_with_trans; [apply (grows_with_local false)|]. apply grows_grows_with. eapply chunk_grows_trans; [exact H0|apply grows_emit]. }
  eapply chunk_grows_trans; [exact G|]. apply IHl. rewrite (grows_n_locals _ _ G). exact H.
Qed.

Lemma grows_shortcut tests l c c' : compile_shortcut compile tests l c = Some c' -> grows c c'.
Proof.
  revert c. induction l as [|x l IHl]; intros c; cbn [compile_shortcut placeholder]; [intros [= <-]; apply chunk_grows_refl|]. intros H. split_binds. apply IHl in H. apply IH in H0.
  set (c1 := fold_left _ tests (chunk_emit OP_DUP 0 c)) in *.
  assert (G1 : grows c c1) by (eapply chunk_grows_trans; [apply grows_emit|apply grows_emits]).
  assert (G2 : grows c1 x0) by (eapply chunk_grows_trans; [apply grows_emit|]; eapply chunk_grows_trans; [apply grows_emit|exact H0]).
  eapply chunk_grows_trans; [|exact H]. eapply chunk_grows_trans; [exact G1|]. apply grows_patch; [apply code_size_nonneg| |exact G2].
  apply grows_size in H0. autorewrite with chunk in H0. lia.
Qed.

Lemma grows_patch_all c slots c' : Forall (fun s => code_size c <= s < code_size c') slots -> grows c c' -> grows c (patch_all slots c').
Proof.
  unfold patch_all. generalize (code_size c') at 2. intros target. revert c'. induction slots as [|s slots IHs]; intros c' HF G; [exact G|]. inversion HF as [|? ? Hs HF']; subst. cbn. apply IHs.
  - eapply Forall_impl; [|exact HF']. cbv beta. intros a Ha. rewrite size_patch. exact Ha.
  - apply grows_patch; [pose proof (code_size_nonneg c); lia|exact Hs|exact G].
Qed.

Lemma size_patch_all slots c : code_size (patch_all slots c) = code_size c.
Proof.
  unfold patch_all. generalize (code_size c) at 1. intros t. revert c. induction slots as [|s slots IHs]; intros c; cbn; [reflexivity|]. rewrite IHs. apply size_patch.
Qed.

Lemma slots_weaken (lo hi hi' : Z) slots : hi <= hi' -> Forall (fun s => lo <= s < hi) slots -> Forall (fun s => lo <= s < hi') slots.
Proof. intros H. apply Forall_impl. intros a Ha. lia. Qed.

Lemma grows_clauses t c l : forall ends c1 c', Forall (fun s => code_size c <= s < code_size c1) ends -> grows c c1 -> compile_clauses compile t ends l c1 = Some c' -> grows c c'.
Proof.
  induction l as [|cl l IHl]; intros ends c1 c' HF G; cbn [compile_clauses]; [intros [= <-]; apply grows_patch_all; assumption|].
  destruct cl as [ | |[|test [|b body]]| | ]; try (apply IHl; assumption). destruct (is_sym test "else").
  - intros H. split_binds. injection H as <-. apply grows_sequence in H0. apply grows_patch_all; [|eapply chunk_grows_trans; eassumption].
    eapply slots_weaken; [|exact HF]. apply grows_size, H0.
  - intros H. split_binds. cbn [placeholder] in H. split_binds. apply IH in H0. apply grows_sequence in H1. pose proof (grows_size _ _ G) as S0. pose proof (grows_size _ _ H0) as S1. pose proof (grows_size _ _ H1) as S2.
    autorewrite with chunk in S2. assert (G2 : grows c x0) by (eapply chunk_grows_trans; [exact G|]; eapply chunk_grows_trans; [exact H0|]; eapply chunk_grows_trans; [apply grows_emit|exact H1]).
    destruct (length ends <? 64)%nat; cbn [placeholder] in H; (eapply IHl; [| |exact H]).
    + rewrite size_patch, size_emit. apply Forall_app. split; [eapply slots_weaken; [|exact HF]; rewrite ?size_emit; lia|]. repeat constructor; lia.
    + apply grows_patch; [apply code_size_nonneg|rewrite size_emit; lia|]. eapply chunk_grows_trans; [exact G2|apply grows_emit].
    + rewrite size_patch. eapply slots_weaken; [|exact HF]. lia.
    + apply grows_patch; [apply code_size_nonneg|lia|exact G2].
Qed.

Lemma grows_data c l : forall bodies c1 c' bodies', Forall (fun s => code_size c <= s < code_size c1) bodies -> grows c c1 -> compile_data deep bodies l c1 = (bodies', c') ->
  grows c c' /\ code_size c1 <= code_size c' /\ Forall (fun s => code_size c <= s < code_size c') bodies'.
Proof.
  induction l as [|x l IHl]; intros bodies c1 c' bodies' HF G; cbn [compile_data]; [intros [= <- <-]; split; [exact G|split; [lia|exact HF]]|].
  set (c2 := chunk_emit OP_EQ 0 _). assert (G2 : grows c1 c2) by (unfold c2; eapply chunk_grows_trans; [apply (grows_emit OP_DUP 0)|]; eapply chunk_grows_trans; [apply grows_quote|apply grows_emit]).
  pose proof (grows_size _ _ G) as S0. pose proof (grows_size _ _ G2) as S2. cbn zeta.
  set (sl := if (length bodies <? 16)%nat then (bodies, code_size c2) else (removelast bodies, last bodies 0)).
  assert (Hsl : Forall (fun s => code_size c <= s < code_size c1) (fst sl) /\ code_size c <= snd sl < code_size c2 + 1).
  { unfold sl. destruct (Nat.ltb_spec (length bodies) 16); cbn [fst snd]; [split; [exact HF|lia]|]. destruct bodies as [|b bodies] using rev_ind; [cbn in *; lia|].
    rewrite removelast_last, last_last. apply Forall_app in HF as (HF1 & HF2). inversion HF2; subst. split; [exact HF1|lia]. }
  destruct sl as [bs slot]. cbn [fst snd] in Hsl. destruct Hsl as (Hb & Hs). intros H. edestruct IHl as (G' & S' & HF'); [| |exact H|].
  - rewrite size_patch, !size_emit. apply Forall_app. split; [eapply slots_weaken; [|exact Hb]; lia|]. repeat constructor; lia.
  - apply grows_patch; [pose proof (code_size_nonneg c); lia|rewrite !size_emit; lia|]. eapply chunk_grows_trans; [exact G|]. eapply chunk_grows_trans; [exact G2|]. eapply chunk_grows_trans; apply grows_emit.
  - split; [exact G'|]. split; [|exact HF']. rewrite size_patch, !size_emit in S'. lia.
Qed.

Lemma grows_cases t c l : forall ends c1 c', Forall (fun s => code_size c <= s < code_size c1) ends -> grows c c1 -> compile_cases compile deep t ends l c1 = Some c' -> grows c c'.
Proof.
  induction l as [|cl l IHl]; intros ends c1 c' HF G; cbn [compile_cases]; [intros [= <-]; apply grows_patch_all; assumption|].
  destruct cl as [ | |[|data [|b body]]| | ]; try (apply IHl; assumption). destruct (is_sym data "else").
  - intros H. split_binds. injection H as <-. apply grows_sequence in H0. pose proof (grows_size _ _ H0) as S0. rewrite size_emit in S0. apply grows_patch_all.
    + eapply slots_weaken; [|exact HF]. lia.
    + eapply chunk_grows_trans; [exact G|]. eapply chunk_grows_trans; [apply grows_emit|exact H0].
  - destruct data as [ | |data| | ]; try (apply IHl; assumption). destruct (compile_data deep [] data c1) as [bodies c2] eqn:Ed.
    apply (grows_data c1) in Ed as (G2 & S2 & HB); [|constructor|apply chunk_grows_refl]. cbn zeta. intros H. split_binds. apply grows_sequence in H0. pose proof (grows_size _ _ G) as S0. pose proof (grows_size _ _ H0) as S3.
    assert (G3 : grows c1 (patch_all bodies (chunk_emit OP_JUMP 0 c2))).
    { apply grows_patch_all; [eapply slots_weaken; [|exact HB]; rewrite size_emit; lia|]. eapply chunk_grows_trans; [exact G2|apply grows_emit]. }
    assert (S4 : code_size (patch_all bodies (chunk_emit OP_JUMP 0 c2)) = code_size c2 + 1).
    { rewrite size_patch_all. apply size_emit. }
    rewrite size_emit, S4 in S3. assert (G4 : grows c x) by (eapply chunk_grows_trans; [exact G|]; eapply chunk_grows_trans; [exact G3|]; eapply chunk_grows_trans; [apply grows_emit|exact H0]).
    assert (HE : Forall (fun s => code_size c <= s < code_size x + 1) (if (length ends <? 64)%nat then ends ++ [code_size x] else ends)).
    { destruct (length ends <? 64)%nat; [apply Forall_app; split; [|repeat constructor; lia]|]; (eapply slots_weaken; [|exact HF]); rewrite ?size_emit; lia. }
    eapply IHl; [| |exact H].
    + rewrite size_patch, size_emit. exact HE.
    + apply grows_patch; [apply code_size_nonneg|rewrite size_emit; lia|]. eapply chunk_grows_trans; [exact G4|apply grows_emit].
Qed.

Lemma grows_bindings box l c c' : compile_bindings compile box l c = Some c' -> grows_with c c'.
Proof.
  revert c. induction l as [|b l IHl]; intros c; cbn [compile_bindings]; [intros [= <-]; apply grows_with_refl|].
  destruct b as [ | |[|x [|e [|? ?]]]| | ]; try apply IHl; destruct x as [ |name| | | ]; try apply IHl. intros H. split_binds. apply IHl in H. apply IH in H0.
  eapply grows_with_trans; [apply grows_grows_with, H0|]. eapply grows_with_trans; [|exact H].
  destruct (box name); [eapply grows_with_trans; [apply grows_grows_with, (grows_emit OP_VEC_CREATE 1)|]|]; apply grows_with_local.
Qed.

Lemma grows_scope box bindings body t c c' : compile_scope compile box bindings body t c = Some c' -> grows c c'.
Proof.
  unfold compile_scope. intros H. split_binds. injection H as <-. apply grows_bindings in H0 as (A & (ls & B) & D). apply grows_sequence in H1 as [A1 B1 D1].
  set (c3 := if 0 <? _ then _ else _). assert (G3 : grows x0 c3) by (unfold c3; destruct (0 <? _); [apply grows_emit|apply chunk_grows_refl]). destruct G3 as [A3 B3 D3]. split.
  - eapply later_trans; [|eapply later_trans; [exact A|eapply later_trans; [exact A1|eapply later_trans; [exact A3|]]]]; apply later_locals; reflexivity.
  - cbn. rewrite B3, B1, B. cbn. unfold n_locals. rewrite Nat2Z.id, firstn_app, firstn_all, Nat.sub_diag. cbn. apply app_nil_r.
  - cbn. rewrite D3, D1, D. cbn. lia.
Qed.

Lemma grows_if test body t c c' : compile_if compile test body t c = Some c' -> grows c c'.
Proof.
  unfold compile_if. cbn [placeholder]. intros H. split_binds. destruct body as [|yes no]; [discriminate|]. split_binds. apply IH in H0. apply IH in H1.
  pose proof (grows_size _ _ H0) as S0. pose proof (grows_size _ _ H1) as S1. autorewrite with chunk in S1.
  assert (G : grows c x0) by chain. destruct no as [|no more].
  - injection H as <-. apply grows_patch; [apply code_size_nonneg|lia|exact G].
  - split_binds. injection H as <-. apply IH in H2. pose proof (grows_size _ _ H2) as S2. autorewrite with chunk in S2.
    apply grows_patch; [apply code_size_nonneg|lia|]. eapply chunk_grows_trans; [|exact H2]. apply grows_patch; [apply code_size_nonneg|rewrite size_emit; lia|]. chain.
Qed.

Lemma grows_when test ops body c c' : compile_when compile test ops body c = Some c' -> grows c c'.
Proof.
  unfold compile_when. cbn [placeholder]. intros H. split_binds. injection H as <-. apply IH in H0. apply grows_sequence in H1. set (c1 := fold_left _ ops x) in *.
  assert (G1 : grows x c1) by apply grows_emits. pose proof (grows_size _ _ H0) as S0. pose proof (grows_size _ _ G1) as S1. pose proof (grows_size _ _ H1) as S2. autorewrite with chunk in S2.
  apply grows_patch; [apply code_size_nonneg|lia|]. chain.
Qed.

Lemma grows_call head args t c c' : compile_call compile head args t c = Some c' -> grows c c'.
Proof.
  unfold compile_call. intros H. split_binds. injection H as <-. apply IH in H0. apply grows_tracked in H1. apply grows_restored.
  eapply grows_with_trans; [apply grows_grows_with, H0|]. eapply grows_with_trans; [apply (grows_with_local false)|]. eapply grows_with_trans; [exact H1|apply grows_grows_with, grows_emit].
Qed.

Lemma grows_form name args t c c' : compile_form compile deep name args t c = Some c' -> grows c c'.
Proof.
  unfold compile_form. destruct (form_of name _) as [op| |op|ops| | | | | | | | | | | | | | | | | | ].
  - destruct args as [|x l]; [discriminate|]. destruct (if (2 <=? _)%nat then _ else _) as [v|]; [intros [= <-]; apply grows_const|]. intros H. split_binds. apply IH in H0.
    apply grows_reduce in H; [|symmetry; apply (grows_n_locals _ _ H0)]. chain.
  - destruct args as [|x [|? ?]]; try discriminate. intros H. split_binds. injection H as <-. grow.
  - intros H. split_binds. injection H as <-. apply grows_tracked in H0. pose proof (grows_restored _ _ H0). chain.
  - intros H. split_binds. injection H as <-. apply grows_operands in H0. chain.
  - destruct args as [|x [|? ?]]; try discriminate. intros H. split_binds. injection H as <-. grow.
  - apply grows_clauses; [constructor|apply chunk_grows_refl].
  - destruct args as [|key l]; [discriminate|]. unfold compile_form_case. intros H. split_binds. apply IH in H0. apply (grows_cases t x) in H; [chain|constructor|apply chunk_grows_refl].
  - destruct args as [|x l]; [discriminate|]. apply grows_when.
  - destruct args as [|x l]; [discriminate|]. apply grows_when.
  - destruct args as [|x [|y l]]; [|apply IH|]; intros H; split_binds; injection H as <-; apply grows_operands in H0; chain.
  - destruct args as [|x [|? ?]]; try discriminate. apply IH.
  - destruct args as [|x [|y [|? ?]]]; try discriminate. intros H. split_binds. injection H as <-. apply IH in H0. apply IH in H1.
    assert (G : grows c (restore_locals (n_locals c) x1)); [|chain]. apply grows_restored. eapply grows_with_trans; [apply grows_grows_with, H0|].
    eapply grows_with_trans; [apply (grows_with_local false)|apply grows_grows_with, H1].
  - intros H. apply grows_list in H. chain.
  - destruct args as [|x l]; [discriminate|]. apply grows_if.
  - apply grows_sequence.
  - destruct args as [|[ |s|bs| | ] body]; try apply grows_call; [|apply grows_scope]. destruct body as [|[ | |bs| | ] [|? ?]]; try apply grows_call. discriminate.
  - destruct args as [|[ |s|bs| | ] body]; try apply grows_call. apply grows_scope.
  - destruct args as [|x l]; [discriminate|]. intros H. split_binds. apply IH in H0. apply grows_shortcut in H. chain.
  - destruct args as [|x l]; [discriminate|]. intros H. split_binds. apply IH in H0. apply grows_shortcut in H. chain.
  - destruct args as [|x [|? ?]]; try discriminate. intros [= <-]. apply grows_quote.
  - apply grows_call.
  - discriminate.
Qed.

End Grows.

Lemma grows_number v a i b k c c' : compile_number v a i b k c = Some c' -> grows c c'.
Proof.
  unfold compile_number. destruct b; [destruct (cast_int64 v); cbn; [|discriminate]; intros [= <-]; eapply chunk_grows_trans; [apply grows_const|apply grows_emit]|].
  destruct a; intros [= <-]; apply grows_const.
Qed.

Lemma grows_variable x c : grows c (compile_symbol x c).
Proof.
  unfold compile_symbol, undefined_variable, emit_bool. repeat match goal with |- context [if ?b then _ else _] => destruct b | |- context [match ?o with Some _ => _ | None => _ end] => destruct o end; auto with chunks.
  all: (eapply chunk_grows_trans; [|apply grows_emit]); (eapply chunk_grows_trans; [|apply grows_const]); apply grows_emit.
Qed.

(** An expression is compiled behind what is there, and its locals are dropped. *)
Lemma compile_grows is_macro n x t c c' : compile_expr is_macro n x t c = Some c' -> grows c c'.
Proof.
  revert x t c c'. induction n as [|n IH]; intros x t c c'; cbn [compile_expr]; [intros [= <-]; apply chunk_grows_refl|]. unfold compile_expr_impl.
  destruct x as [v a i b k|s|[|[ |name|l| | ] args]|s|b]; try (intros [= <-]; auto using grows_variable with chunks; fail).
  - apply grows_number.
  - destruct (is_macro name); [discriminate|]. apply grows_form, IH.
  - apply grows_call, IH.
  - intros [= <-]. apply grows_emit.
Qed.

(** ** The machine along compiled code *)

(** The object of a value: pairs are objects of the heap. *)
Fixpoint rep (os : list HeapObject) (d : value) (x : VmValue) : Prop :=
  match d with
  | D_INT i => x = VAL_INT i
  | D_FLOAT f => x = VAL_FLOAT f
  | D_BOOL b => x = BOOL_VAL b
  | D_NIL => x = VAL_NIL
  | D_PAIR a d => exists p y z, x = PAIR_VAL p /\ array_get os p = Some (HEAP_CONS y z) /\ rep os a y /\ rep os d z
  end.

(** The heap only grows. *)
Definition heap_grows (os os' : list HeapObject) : Prop := exists more, os' = os ++ more.

Lemma heap_grows_refl os : heap_grows os os.
Proof. exists []. rewrite app_nil_r. reflexivity. Qed.

Lemma heap_grows_trans a b c : heap_grows a b -> heap_grows b c -> heap_grows a c.
Proof. intros (m & ->) (m' & ->). exists (m ++ m'). rewrite app_assoc. reflexivity. Qed.

Lemma heap_grows_get os os' p o : heap_grows os os' -> array_get os p = Some o -> array_get os' p = Some o.
Proof. intros (m & ->). apply array_get_app. Qed.

Lemma rep_grows os os' d x : heap_grows os os' -> rep os d x -> rep os' d x.
Proof.
  intros Hg. revert x. induction d as [i|f|b| |a IHa d IHd]; intros x; cbn; auto. intros (p & y & z & -> & Hp & Ha & Hd).
  exists p, y, z. split; [reflexivity|]. split; [exact (heap_grows_get _ _ _ _ Hg Hp)|auto].
Qed.

Section Machine.
  (** A machine that is running; its other registers are those of [v0] all along. *)
  Context (grants : Z -> bool) (all_granted : forall i, grants i = true) (v0 : VM).

(** The machine at instruction [p], with [s] on its stack (the top first) and unused slots. *)
Definition machine (p : Z) (s junk : list VmValue) (os : list HeapObject) (rq : Z) : VM :=
  mkVM (code v0) (constants v0) (n_constants v0) p (rev s ++ junk) (Z.of_nat (length s)) (frames v0) (fp v0) (frame_count v0) os rq
    (outputs v0) (handlers v0) (n_handlers v0) (current_exception v0) (winds v0) (n_winds v0) false false.

Definition config : Type := (Z * list VmValue * list HeapObject)%type.

Definition is_config (cf : config) (v : VM) : Prop :=
  let '(p, s, os) := cf in exists junk rq, v = machine p s junk os rq /\ Z.of_nat (length s) + Z.of_nat (length junk) = STACK_SIZE.

Definition goes (a b : config) : Prop := forall v, is_config a v -> exists k v', vm_run grants k v = Running v' /\ is_config b v'.
Definition stops (a : config) : Prop := forall v, is_config a v -> exists k v', vm_run grants k v = Stopped v' /\ error v' = true.

Lemma vm_run_app k v v' n : vm_run grants k v = Running v' -> vm_run grants (k + n) v = vm_run grants n v'.
Proof.
  revert v. induction k as [|k IH]; intros v; cbn [vm_run Nat.add]; [intros [= ->]; reflexivity|]. destruct (vm_step grants v); try discriminate. apply IH.
Qed.

Lemma goes_refl a : goes a a.
Proof. intros v Hv. exists O, v. auto. Qed.

Lemma goes_trans a b c : goes a b -> goes b c -> goes a c.
Proof.
  intros H1 H2 v Hv. destruct (H1 v Hv) as (k & v1 & E1 & Hv1), (H2 v1 Hv1) as (k2 & v2 & E2 & Hv2). exists (k + k2)%nat, v2. rewrite (vm_run_app _ _ _ _ E1). auto.
Qed.

Lemma goes_stops a b : goes a b -> stops b -> stops a.
Proof.
  intros H1 H2 v Hv. destruct (H1 v Hv) as (k & v1 & E1 & Hv1), (H2 v1 Hv1) as (k2 & v2 & E2 & Hv2). exists (k + k2)%nat, v2. rewrite (vm_run_app _ _ _ _ E1). auto.
Qed.

(** *** One instruction *)

Definition instr_at (p : Z) (op : OpCode) (x : Z) : Prop := array_get (code v0) p = Some (mkInstruction (opcode_byte op) x).

Lemma opcode_of_byte op : opcode_of (opcode_byte op) = Some op.
Proof. destruct op; reflexivity. Qed.

Lemma vm_step_at p op x s junk os rq : instr_at p op x -> vm_step grants (machine p s junk os rq) = exec_instruction grants op x (machine (p + 1) s junk os rq).
Proof.
  intros H. unfold vm_step. cbn [halted error pc machine orb]. unfold vm_code_len. cbn [code machine]. pose proof (array_get_Some _ _ _ H).
  destruct (Z.leb_spec (Z.of_nat (length (code v0))) p); [lia|]. cbn [orb]. unfold instr_at in H. rewrite H. cbn [i_op i_operand]. rewrite opcode_of_byte. reflexivity.
Qed.

Definition next_config (f : flow unit) (b : config) : Prop := match f with Next _ v' => is_config b v' | _ => False end.
Definition ends_in_error (f : flow unit) : Prop := match f with Leave v' => error v' = true | _ => False end.

Lemma goes_instr p op x s os b : instr_at p op x ->
  (forall junk rq, Z.of_nat (length s) + Z.of_nat (length junk) = STACK_SIZE -> next_config (exec_instruction grants op x (machine (p + 1) s junk os rq)) b) -> goes (p, s, os) b.
Proof.
  intros Hi H v (junk & rq & -> & Hl). specialize (H junk rq Hl). exists 1%nat. cbn [vm_run]. rewrite (vm_step_at p op x) by exact Hi.
  destruct (exec_instruction _ _ _ _) as [[] v'|?|? ?|?]; try contradiction. exists v'. auto.
Qed.

Lemma stops_instr p op x s os : instr_at p op x ->
  (forall junk rq, Z.of_nat (length s) + Z.of_nat (length junk) = STACK_SIZE -> ends_in_error (exec_instruction grants op x (machine (p + 1) s junk os rq))) -> stops (p, s, os).
Proof.
  intros Hi H v (junk & rq & -> & Hl). specialize (H junk rq Hl). exists 1%nat. cbn [vm_run]. rewrite (vm_step_at p op x) by exact Hi.
  destruct (exec_instruction _ _ _ _) as [[] ?|v'|? ?|?]; try contradiction. exists v'. auto.
Qed.

(** *** The stack *)

Lemma array_set_mid {A} (l r : list A) y x : array_set (l ++ y :: r) (Z.of_nat (length l)) x = Some (l ++ x :: r).
Proof.
  rewrite array_set_Some by (rewrite length_app; cbn; lia). f_equal. rewrite Nat2Z.id. induction l as [|z l IH]; cbn; congruence.
Qed.

Lemma array_get_mid {A} (l r : list A) y : array_get (l ++ y :: r) (Z.of_nat (length l)) = Some y.
Proof. unfold array_get. destruct (Z.ltb_spec (Z.of_nat (length l)) 0); [lia|]. rewrite Nat2Z.id, nth_error_app2, Nat.sub_diag by lia. reflexivity. Qed.

Lemma push_machine x p s junk os rq : Z.of_nat (length s) + Z.of_nat (length junk) = STACK_SIZE -> Z.of_nat (length s) < STACK_SIZE ->
  vm_push x (machine p s junk os rq) = Next tt (machine p (x :: s) (tl junk) os rq).
Proof.
  intros Hl Hs. unfold vm_push. cbn [sp machine]. destruct (Z.leb_spec STACK_SIZE (Z.of_nat (length s))); [lia|]. destruct junk as [|y junk]; [cbn in Hl; lia|].
  unfold v_bind, write_stack, modify. cbn [stack sp machine]. rewrite <- (length_rev s) at 1. rewrite array_set_mid. unfold machine, with_sp, with_values. cbn [code constants n_constants pc stack sp frames fp frame_count objects requests outputs handlers n_handlers current_exception winds n_winds halted error tl rev length].
  rewrite <- app_assoc. cbn [app]. do 2 f_equal. lia.
Qed.

Lemma pop_machine x p s junk os rq : vm_pop (machine p (x :: s) junk os rq) = Next x (machine p s (x :: junk) os rq).
Proof.
  unfold vm_pop. cbn [sp machine]. destruct (Z.leb_spec (Z.of_nat (length (x :: s))) 0) as [Hx|Hx]; [cbn in Hx; lia|]. unfold v_bind, modify, register, read_stack.
  cbn [sp with_sp with_values stack machine rev]. replace (Z.of_nat (length (x :: s)) - 1) with (Z.of_nat (length s)) by (cbn; lia). rewrite <- app_assoc. cbn [app].
  rewrite <- (length_rev s), array_get_mid, length_rev. unfold defined, machine, with_sp, with_values. cbn. rewrite <- app_assoc. reflexivity.
Qed.

Lemma bind_pop {B} x p s junk os rq (k : VmValue -> V B) : v_bind vm_pop k (machine p (x :: s) junk os rq) = k x (machine p s (x :: junk) os rq).
Proof. unfold v_bind. rewrite pop_machine. reflexivity. Qed.

Lemma peek_machine x p s junk os rq : vm_peek 0 (machine p (x :: s) junk os rq) = Next x (machine p (x :: s) junk os rq).
Proof.
  unfold vm_peek. cbn [sp machine]. replace (Z.of_nat (length (x :: s)) - 1 - 0) with (Z.of_nat (length s)) by (cbn; lia).
  destruct (Z.ltb_spec (Z.of_nat (length s)) 0); [lia|]. destruct (Z.leb_spec (Z.of_nat (length (x :: s))) (Z.of_nat (length s))) as [Hx|]; [cbn in Hx; lia|]. cbn [orb].
  unfold read_stack, defined. cbn [stack machine rev]. rewrite <- app_assoc. cbn [app]. rewrite <- (length_rev s), array_get_mid. reflexivity.
Qed.

Lemma push_config x p s junk os rq : Z.of_nat (length s) + Z.of_nat (length junk) = STACK_SIZE -> Z.of_nat (length s) < STACK_SIZE ->
  next_config (vm_push x (machine p s junk os rq)) (p, x :: s, os).
Proof.
  intros Hl Hs. rewrite push_machine by assumption. exists (tl junk), rq. split; [reflexivity|]. destruct junk; cbn in *; lia.
Qed.

Lemma fails_config {A} p s junk os rq : (match fails (A := A) (machine p s junk os rq) with Leave v' => error v' = true | _ => False end).
Proof. reflexivity. Qed.

(** *** The instructions *)

Ltac run_instr := intros; eapply goes_instr; [eassumption|]; intros junk rq Hl; cbn [exec_instruction length] in *.
Ltac push_end := eapply push_config; cbn [length] in *; unfold STACK_SIZE in *; lia.

Lemma go_const p i x s os : instr_at p OP_CONST i -> array_get (constants v0) i = Some x -> i < n_constants v0 -> Z.of_nat (length s) < STACK_SIZE -> goes (p, s, os) (p + 1, x :: s, os).
Proof.
  intros Hi Hx Hn Hs. run_instr. pose proof (array_get_Some _ _ _ Hx). cbn [n_constants machine constants]. destruct (Z.ltb_spec i 0); [lia|]. destruct (Z.leb_spec (n_constants v0) i); [lia|].
  cbn [orb]. unfold v_bind, defined. rewrite Hx. push_end.
Qed.

Lemma go_nil p s os y : instr_at p OP_NIL y -> Z.of_nat (length s) < STACK_SIZE -> goes (p, s, os) (p + 1, VAL_NIL :: s, os).
Proof. run_instr. push_end. Qed.

Lemma go_bool p (b : bool) s os y : instr_at p (if b then OP_TRUE else OP_FALSE) y -> Z.of_nat (length s) < STACK_SIZE -> goes (p, s, os) (p + 1, BOOL_VAL b :: s, os).
Proof. destruct b; run_instr; push_end. Qed.

Lemma go_pop p x s os y : instr_at p OP_POP y -> goes (p, x :: s, os) (p + 1, s, os).
Proof. run_instr. rewrite bind_pop. exists (x :: junk), rq. split; [reflexivity|cbn [length]; lia]. Qed.

Lemma go_dup p x s os y : instr_at p OP_DUP y -> Z.of_nat (length (x :: s)) < STACK_SIZE -> goes (p, x :: s, os) (p + 1, x :: x :: s, os).
Proof. run_instr. unfold v_bind. rewrite peek_machine. push_end. Qed.

Lemma go_jump p t s os : instr_at p OP_JUMP t -> goes (p, s, os) (t, s, os).
Proof. run_instr. exists junk, rq. split; [reflexivity|exact Hl]. Qed.

Lemma go_jump_if_false p t x s os : instr_at p OP_JUMP_IF_FALSE t -> goes (p, x :: s, os) (if is_truthy x then p + 1 else t, s, os).
Proof. run_instr. unfold exec_JUMP_IF_FALSE. rewrite bind_pop. destruct (is_truthy x); exists (x :: junk), rq; (split; [reflexivity|cbn [length]; lia]). Qed.

Lemma go_get_local p slot x s os : instr_at p OP_GET_LOCAL slot -> array_get (rev s) (fp v0 + slot) = Some x -> Z.of_nat (length s) < STACK_SIZE -> goes (p, s, os) (p + 1, x :: s, os).
Proof.
  intros Hi Hx Hs. run_instr. pose proof (array_get_Some _ _ _ Hx) as Hr. rewrite length_rev in Hr. unfold STACK_SIZE in *. unfold exec_GET_LOCAL, v_bind, register, c_int, defined. cbn [fp machine].
  destruct (Z.leb_spec (- 2 ^ 31) (fp v0 + slot)); [|lia]. destruct (Z.ltb_spec (fp v0 + slot) (2 ^ 31)); [|lia]. cbn [andb].
  destruct (Z.ltb_spec (fp v0 + slot) 0); [lia|]. change STACK_SIZE with 4096. destruct (Z.leb_spec 4096 (fp v0 + slot)); [lia|]. cbn [orb]. unfold read_stack, defined. cbn [stack machine]. rewrite (array_get_app _ _ _ _ Hx). push_end.
Qed.

Lemma go_not p x s os y : instr_at p OP_NOT y -> goes (p, x :: s, os) (p + 1, BOOL_VAL (negb (is_truthy x)) :: s, os).
Proof. run_instr. unfold exec_NOT. rewrite bind_pop. push_end. Qed.

Lemma go_test op f p x s os y : exec_instruction grants op y = exec_test f -> instr_at p op y -> goes (p, x :: s, os) (p + 1, BOOL_VAL (f x) :: s, os).
Proof. intros E. run_instr. rewrite E. unfold exec_test. rewrite bind_pop. push_end. Qed.

Lemma go_compare op f fd p i j s os y : exec_instruction grants op y = compare op f fd -> instr_at p op y ->
  goes (p, VAL_INT j :: VAL_INT i :: s, os) (p + 1, BOOL_VAL (f i j) :: s, os).
Proof. intros E. run_instr. rewrite E. unfold compare. rewrite !bind_pop. cbn [vm_either_bignum either has_kind orb]. push_end. Qed.

Lemma go_arith op h d r c ch f fd p i j s os y : exec_instruction grants op y = arith h d r c ch f fd -> in_int64 (f i j) = true -> instr_at p op y ->
  goes (p, VAL_INT j :: VAL_INT i :: s, os) (p + 1, VAL_INT (f i j) :: s, os).
Proof. intros E Hf. run_instr. rewrite E. unfold arith. rewrite !bind_pop. cbn [vm_either_bignum either has_kind orb]. rewrite Hf. push_end. Qed.

Lemma stop_div p i s os y : instr_at p OP_DIV y -> stops (p, VAL_INT 0 :: VAL_INT i :: s, os).
Proof. intros Hi. eapply stops_instr; [exact Hi|]. intros junk rq Hl. cbn [exec_instruction]. unfold exec_DIV. rewrite !bind_pop. reflexivity. Qed.

Lemma stop_mod p i s os y : instr_at p OP_MOD y -> stops (p, VAL_INT 0 :: VAL_INT i :: s, os).
Proof. intros Hi. eapply stops_instr; [exact Hi|]. intros junk rq Hl. cbn [exec_instruction]. unfold exec_MOD. rewrite !bind_pop. reflexivity. Qed.

(** The truncating remainder, corrected, is the remainder of floor division. *)
Lemma floor_remainder i j : j <> 0 -> (if negb (Z.rem i j =? 0) && (Z.lxor (Z.rem i j) j <? 0) then Z.rem i j + j else Z.rem i j) = i mod j.
Proof.
  intros Hj. assert (Hs : (Z.lxor (Z.rem i j) j <? 0) = xorb (Z.rem i j <? 0) (j <? 0)).
  { pose proof (Z.lxor_nonneg (Z.rem i j) j) as L. destruct (Z.ltb_spec (Z.lxor (Z.rem i j) j) 0), (Z.ltb_spec (Z.rem i j) 0), (Z.ltb_spec j 0); cbn; try reflexivity; lia. }
  rewrite Hs. pose proof (Z.quot_rem' i j) as E. pose proof (Z.rem_bound_abs i j Hj) as B. set (r := Z.rem i j) in *. set (q := Z.quot i j) in *.
  destruct (Z.eqb_spec r 0) as [Hr|Hr]; cbn [negb andb]; [|destruct (Z.ltb_spec r 0), (Z.ltb_spec j 0); cbn [xorb]].
  - apply (Z.mod_unique _ _ q); [destruct (Z.ltb_spec j 0); [right|left]; lia|lia].
  - apply (Z.mod_unique _ _ q); [right; lia|lia].
  - apply (Z.mod_unique _ _ (q - 1)); [left; lia|lia].
  - apply (Z.mod_unique _ _ (q - 1)); [right; lia|lia].
  - apply (Z.mod_unique _ _ q); [left; lia|lia].
Qed.

Lemma go_mod p i j s os y : j <> 0 -> (i =? INT64_MIN) && (j =? -1) = false -> instr_at p OP_MOD y ->
  goes (p, VAL_INT j :: VAL_INT i :: s, os) (p + 1, VAL_INT (i mod j) :: s, os).
Proof.
  intros Hj Hm. run_instr. unfold exec_MOD. rewrite !bind_pop. cbn [vm_either_bignum either has_kind orb]. destruct (Z.eqb_spec j 0); [lia|]. rewrite Hm. cbv zeta. rewrite floor_remainder by exact Hj. push_end.
Qed.

Lemma go_neg p i s os y : in_int64 (- i) = true -> instr_at p OP_NEG y -> goes (p, VAL_INT i :: s, os) (p + 1, VAL_INT (- i) :: s, os).
Proof.
  intros Hr. run_instr. unfold exec_NEG. rewrite bind_pop. cbn [has_kind]. unfold in_int64 in *. destruct (Z.eqb_spec i INT64_MIN); [lia|]. push_end.
Qed.

Lemma go_abs p i s os y : in_int64 (Z.abs i) = true -> instr_at p OP_ABS y -> goes (p, VAL_INT i :: s, os) (p + 1, VAL_INT (Z.abs i) :: s, os).
Proof.
  intros Hr. run_instr. unfold exec_ABS. rewrite bind_pop. cbn [has_kind]. unfold in_int64 in *. destruct (Z.eqb_spec i INT64_MIN); [lia|].
  replace (if i <? 0 then - i else i) with (Z.abs i) by (destruct (Z.ltb_spec i 0); lia). push_end.
Qed.

Lemma go_access op part p q a d s os y : exec_instruction grants op y = exec_access part -> instr_at p op y -> array_get os q = Some (HEAP_CONS a d) ->
  goes (p, PAIR_VAL q :: s, os) (p + 1, part (a, d) :: s, os).
Proof.
  intros E Hi Hq. run_instr. rewrite E. unfold exec_access. rewrite bind_pop. unfold v_bind, cons_at, object_at, v_bind, defined. cbn [objects machine PAIR_VAL]. rewrite Hq. unfold v_ret. push_end.
Qed.

Definition is_pair (x : VmValue) : bool := match x with VAL_HEAP KPair _ => true | _ => false end.

Lemma stop_access op part p x s os y : exec_instruction grants op y = exec_access part -> instr_at p op y -> is_pair x = false -> stops (p, x :: s, os).
Proof.
  intros E Hi Hx. eapply stops_instr; [exact Hi|]. intros junk rq Hl. rewrite E. unfold exec_access. rewrite bind_pop. destruct x as [| | | | | |[] q]; try discriminate; reflexivity.
Qed.

Lemma alloc_machine {B} (k : Z -> V B) p s junk os rq : Z.of_nat (length os) < HEAP_SIZE ->
  v_bind (alloc_object grants) k (machine p s junk os rq) = k (Z.of_nat (length os)) (machine p s junk (os ++ [blank_object]) (rq + 1)).
Proof.
  intros H. unfold v_bind, alloc_object, v_bind, heap_alloc, next_free. cbn [objects machine]. destruct (Z.leb_spec HEAP_SIZE (Z.of_nat (length os))); [lia|].
  unfold v_bind, vm_alloc. cbn [requests machine]. rewrite all_granted. reflexivity.
Qed.

Lemma set_machine {B} (k : unit -> V B) p s junk os rq o o' : v_bind (set_object (Z.of_nat (length os)) o) k (machine p s junk (os ++ [o']) rq) = k tt (machine p s junk (os ++ [o]) rq).
Proof. unfold v_bind, set_object. cbn [objects machine]. rewrite array_set_mid. reflexivity. Qed.

Lemma go_cons p a d s os y : instr_at p OP_CONS y -> Z.of_nat (length os) < HEAP_SIZE -> goes (p, a :: d :: s, os) (p + 1, PAIR_VAL (Z.of_nat (length os)) :: s, os ++ [HEAP_CONS a d]).
Proof. intros Hi Ho. run_instr. unfold exec_CONS. rewrite !bind_pop, alloc_machine, set_machine by exact Ho. push_end. Qed.

Lemma block_machine {B} (k : unit -> V B) p s junk os rq : v_bind (new_block grants) k (machine p s junk os rq) = k tt (machine p s junk os (rq + 1)).
Proof. unfold v_bind, new_block, v_bind, vm_alloc. cbn [requests machine]. rewrite all_granted. reflexivity. Qed.

Lemma request_machine {B} (k : bool -> V B) p s junk os rq : v_bind (vm_alloc grants) k (machine p s junk os rq) = k true (machine p s junk os (rq + 1)).
Proof. unfold v_bind, vm_alloc. cbn [requests machine]. rewrite all_granted. reflexivity. Qed.

Lemma bind_ret {A B} (a : A) (k : A -> V B) v : v_bind (v_ret a) k v = k a v.
Proof. reflexivity. Qed.

Lemma bind_bind {A B C} (m : V A) (f : A -> V B) (k : B -> V C) v : v_bind (v_bind m f) k v = v_bind m (fun a => v_bind (f a) k) v.
Proof. unfold v_bind. destruct (m v); reflexivity. Qed.

Lemma go_box p x s os : instr_at p OP_VEC_CREATE 1 -> Z.of_nat (length os) < HEAP_SIZE ->
  goes (p, x :: s, os) (p + 1, VAL_HEAP KVector (Z.of_nat (length os)) :: s, os ++ [HEAP_VECTOR (Some (mkVector [x] 1))]).
Proof.
  intros Hi Ho. run_instr. unfold exec_VEC_CREATE. rewrite alloc_machine, set_machine, block_machine by exact Ho. change (1 <? 0) with false. cbv iota. change (defined overflow (Some 1)) with (v_ret 1). rewrite bind_ret, request_machine. cbn [negb andb].
  change (pop_into (Z.to_nat 1) []) with (vm! x := vm_pop in v_ret [x]). rewrite bind_bind, bind_pop, bind_ret, set_machine. push_end.
Qed.

Lemma go_unbox p q x s os y : instr_at p OP_VEC_REF y -> array_get os q = Some (HEAP_VECTOR (Some (mkVector [x] 1))) ->
  goes (p, VAL_INT 0 :: VAL_HEAP KVector q :: s, os) (p + 1, x :: s, os).
Proof.
  intros Hi Hq. run_instr. unfold exec_VEC_REF. rewrite !bind_pop. unfold v_bind, vector_at, object_at, v_bind, defined. cbn [objects machine]. rewrite Hq. unfold v_ret, index, defined. replace (cast_int (as_number (VAL_INT 0))) with (Some 0) by (vm_compute; reflexivity).
  cbn [in_vector vec_len items array_get andb Z.leb Z.ltb Z.compare Z.to_nat nth_error]. push_end.
Qed.

Lemma go_popn p n x l s os : instr_at p OP_POPN n -> Z.of_nat (length l) = n -> 0 < n -> goes (p, x :: l ++ s, os) (p + 1, x :: s, os).
Proof.
  intros Hi Hn Hp. run_instr. unfold exec_POPN, v_bind, register. cbn [sp machine length]. rewrite length_app in *. destruct (Z.ltb_spec 0 n); [|lia]. destruct (Z.ltb_spec n (Z.of_nat (S (length l + length s)))); [|lia]. cbn [andb].
  unfold read_stack, defined, modify, write_stack. cbn [stack machine rev with_sp with_values]. replace (Z.of_nat (S (length l + length s)) - 1) with (Z.of_nat (length (rev (l ++ s)))) by (rewrite length_rev, length_app; lia).
  rewrite <- app_assoc. cbn [List.app]. rewrite array_get_mid. destruct (rev l) as [|z rl] eqn:El; [apply (f_equal (@length _)) in El; rewrite length_rev in El; cbn in El; lia|].
  replace (Z.of_nat (S (length l + length s)) - n - 1) with (Z.of_nat (length (rev s))) by (rewrite length_rev; lia).
  cbn [stack machine rev]. rewrite rev_app_distr, El, <- !app_assoc. cbn [List.app].
  rewrite array_set_mid. exists (rl ++ x :: junk), rq. split.
  - unfold machine, with_sp, with_values. cbn [code constants n_constants pc stack sp frames fp frame_count objects requests outputs handlers n_handlers current_exception winds n_winds halted error length rev].
    rewrite <- app_assoc. cbn [List.app]. f_equal. lia.
  - apply (f_equal (@length _)) in El. rewrite length_rev in El. cbn [length] in *. rewrite length_app. cbn [length]. lia.
Qed.

(** ** Code that the machine contains *)

(** The machine holds the instructions of [c] from [lo] on and its constants from [k] on. *)
Definition contains (lo k : Z) (c : FuncChunk) : Prop :=
  (forall i x, lo <= i -> array_get (ch_code c) i = Some x -> array_get (code v0) i = Some x) /\
  (forall j x, k <= j -> array_get (ch_constants c) j = Some x -> array_get (constants v0) j = Some x /\ j < n_constants v0).

Lemma contains_sub lo k lo' k' c c' : contains lo k c' -> later lo' c c' -> lo <= lo' -> k <= k' -> contains lo' k' c.
Proof.
  intros (H1 & H2) [_ A2 (ks & A3)] Hl Hk. split.
  - intros i x Hi Hx. apply H1; [lia|]. apply A2; assumption.
  - intros j x Hj Hx. apply H2; [lia|]. rewrite A3. apply array_get_app, Hx.
Qed.

Lemma contains_emit op x c : contains (code_size c) (n_consts c) (chunk_emit op x c) -> instr_at (code_size c) op x.
Proof. intros (H & _). apply H; [lia|]. cbn. apply array_get_last. Qed.

Lemma contains_get lo k c i op x : contains lo k c -> lo <= i -> array_get (ch_code c) i = Some (mkInstruction (opcode_byte op) x) -> instr_at i op x.
Proof. intros (H & _) Hl. apply H, Hl. Qed.

Lemma contains_const v c s os : contains (code_size c) (n_consts c) (emit_const v c) -> Z.of_nat (length s) < STACK_SIZE ->
  goes (code_size c, s, os) (code_size c + 1, v :: s, os).
Proof.
  intros H Hs. destruct H as (H1 & H2). destruct (H2 (n_consts c) v) as (Hv & Hn); [lia|cbn; apply array_get_last|].
  eapply go_const; try eassumption. apply H1; [lia|]. cbn. apply array_get_last.
Qed.

(** ** The state before an expression *)

(** The value of a variable: in its slot, or in the box there. *)
Definition holds (os : list HeapObject) (boxed : bool) (d : value) (y : VmValue) : Prop :=
  if boxed then exists q z, y = VAL_HEAP KVector q /\ array_get os q = Some (HEAP_VECTOR (Some (mkVector [z] 1))) /\ rep os d z else rep os d y.

Record ready (c : FuncChunk) (rho : env) (s : list VmValue) (os : list HeapObject) : Prop := {
  r_slots : forall i l, array_get (ch_locals c) i = Some l -> l_slot l = i;
  r_base : 0 <= fp v0 /\ fp v0 + n_locals c <= Z.of_nat (length s);
  r_env : forall x d, env_lookup x rho = Some d -> x <> "__operand__"%string ->
    exists l y, find_local c x = Some l /\ array_get (rev s) (fp v0 + l_slot l) = Some y /\ holds os (l_boxed l) d y;
}.

Lemma local_holds_grows os os' b d y : heap_grows os os' -> holds os b d y -> holds os' b d y.
Proof.
  intros Hg. destruct b; cbn; [|apply rep_grows, Hg]. intros (q & z & -> & Hq & Hz). exists q, z. split; [reflexivity|]. split; [exact (heap_grows_get _ _ _ _ Hg Hq)|exact (rep_grows _ _ _ _ Hg Hz)].
Qed.

Lemma ready_push c rho s os l os' : ready c rho s os -> heap_grows os os' -> ready c rho (l ++ s) os'.
Proof.
  intros [R1 R2 R3] Hg. split; [exact R1|rewrite length_app; lia|]. intros x d Hx Hn. destruct (R3 x d Hx Hn) as (lc & y & Hf & Hy & Hh).
  exists lc, y. split; [exact Hf|]. split; [rewrite rev_app_distr; apply array_get_app, Hy|exact (local_holds_grows _ _ _ _ _ Hg Hh)].
Qed.

Lemma ready_same c c' rho s os : ch_locals c' = ch_locals c -> ready c rho s os -> ready c' rho s os.
Proof. intros E [R1 R2 R3]. unfold n_locals in R2. split; unfold n_locals, find_local in *; rewrite E; assumption. Qed.

Lemma ready_grows c c' rho s os : grows c c' -> ready c rho s os -> ready c' rho s os.
Proof. intros G. apply ready_same, (grows_locals _ _ G). Qed.

Lemma find_add c b x y : find_local (add_local_boxed b x c) y = if String.eqb x y then Some (mkLocal x (n_locals c) (scope_depth c) b) else find_local c y.
Proof. unfold find_local. cbn. rewrite rev_app_distr. cbn. destruct (String.eqb x y); reflexivity. Qed.

Lemma slots_add c b x : (forall i l, array_get (ch_locals c) i = Some l -> l_slot l = i) ->
  forall i l, array_get (ch_locals (add_local_boxed b x c)) i = Some l -> l_slot l = i.
Proof.
  intros H i l. cbn. unfold array_get. destruct (Z.ltb_spec i 0); [discriminate|]. destruct (Nat.lt_ge_cases (Z.to_nat i) (length (ch_locals c))).
  - rewrite nth_error_app1 by assumption. intros Hl. apply H. unfold array_get. destruct (Z.ltb_spec i 0); [lia|exact Hl].
  - rewrite nth_error_app2 by assumption. destruct (Z.to_nat i - length (ch_locals c))%nat as [|n] eqn:En; cbn; [|destruct n; discriminate]. intros [= <-]. cbn. unfold n_locals. lia.
Qed.

Lemma n_locals_add b x c : n_locals (add_local_boxed b x c) = n_locals c + 1.
Proof. unfold n_locals. cbn. rewrite length_app. cbn. lia. Qed.

(** An operand on the stack, as an anonymous local. *)
Lemma ready_operand c rho s os x : ready c rho s os -> ready (add_local "__operand__" c) rho (x :: s) os.
Proof.
  intros [R1 R2 R3]. split; [apply slots_add, R1|unfold add_local; rewrite n_locals_add; cbn [length]; lia|]. intros y d Hy Hn. destruct (R3 y d Hy Hn) as (l & z & Hf & Hz & Hh).
  exists l, z. split; [|split; [cbn [rev]; apply array_get_app, Hz|exact Hh]]. unfold add_local. rewrite find_add. destruct (String.eqb_spec "__operand__" y); [congruence|exact Hf].
Qed.

(** A new variable: the machine's stack ends behind the locals. *)
Lemma ready_bind c rho s os b x d y : ready c rho s os -> Z.of_nat (length s) = fp v0 + n_locals c -> holds os b d y ->
  ready (add_local_boxed b x c) ((x, d) :: rho) (y :: s) os.
Proof.
  intros [R1 R2 R3] Hs Hh. split; [apply slots_add, R1|rewrite n_locals_add; cbn [length]; lia|]. intros z e. unfold env_lookup, assoc. cbn [find fst].
  rewrite find_add. rewrite (String.eqb_sym x z). destruct (String.eqb_spec z x) as [->|Hn].
  - cbn. intros [= <-] _. eexists _, y. split; [reflexivity|]. cbn [l_slot l_boxed]. split; [|exact Hh]. rewrite <- Hs, <- length_rev. apply array_get_last.
  - intros Hz Ho. destruct (R3 z e Hz Ho) as (l & u & Hf & Hu & Hg). exists l, u. split; [exact Hf|]. split; [cbn [rev]; apply array_get_app, Hu|exact Hg].
Qed.

(** ** What running an expression gives *)

Definition yields (cf : config) (a : answer) (Q : value -> config -> Prop) : Prop :=
  match a with
  | Returns d => exists cf', goes cf cf' /\ Q d cf'
  | Raises => stops cf
  end.

(** The value on top of the stack, after at most [w] allocations. *)
Definition pushed (p : Z) (s : list VmValue) (os : list HeapObject) (w : Z) (d : value) (cf : config) : Prop :=
  exists x os', cf = (p, x :: s, os') /\ rep os' d x /\ heap_grows os os' /\ Z.of_nat (length os') <= Z.of_nat (length os) + w.

Lemma yields_go cf cf' a Q : goes cf cf' -> yields cf' a Q -> yields cf a Q.
Proof. intros Hg. destruct a as [d|]; cbn; [intros (cf2 & H1 & H2); exists cf2; eauto using goes_trans|apply goes_stops, Hg]. Qed.

Lemma yields_return cf d (Q : value -> config -> Prop) : Q d cf -> yields cf (Returns d) Q.
Proof. intros HQ. exists cf. split; [apply goes_refl|exact HQ]. Qed.

Lemma yields_bind p s os a1 k a p1 w Q : yields (p, s, os) a1 (pushed p1 s os w) -> ebind (Some a1) k = Some a ->
  (forall d x os1, rep os1 d x -> heap_grows os os1 -> Z.of_nat (length os1) <= Z.of_nat (length os) + w -> k d = Some a -> yields (p1, x :: s, os1) a Q) ->
  yields (p, s, os) a Q.
Proof.
  intros H1 E H2. destruct a1 as [d|]; cbn in *.
  - destruct H1 as (cf & Hg & x & os1 & -> & Hr & Hh & Hl). exact (yields_go _ _ _ _ Hg (H2 d x os1 Hr Hh Hl E)).
  - injection E as <-. exact H1.
Qed.

Lemma yields_mono cf a (Q Q' : value -> config -> Prop) : (forall d cf', Q d cf' -> Q' d cf') -> yields cf a Q -> yields cf a Q'.
Proof. intros H. destruct a as [d|]; cbn; [|auto]. intros (cf' & Hg & HQ). eauto. Qed.

(** More code behind a value. *)
Lemma yields_then p p' s os w cf a : yields cf a (pushed p s os w) -> (forall x os', goes (p, x :: s, os') (p', x :: s, os')) -> yields cf a (pushed p' s os w).
Proof.
  intros H Hg. destruct a as [d|]; cbn in *; [|exact H]. destruct H as (cf' & H1 & x & os' & -> & H2). exists (p', x :: s, os').
  split; [exact (goes_trans _ _ _ H1 (Hg x os'))|]. exists x, os'. split; [reflexivity|exact H2].
Qed.

(** Values pushed later in the same place. *)
Lemma pushed_more p s os os1 w w' d cf : heap_grows os os1 -> Z.of_nat (length os1) <= Z.of_nat (length os) + w -> pushed p s os1 w' d cf -> pushed p s os (w + w') d cf.
Proof. intros Hg Hl (x & os' & -> & Hr & Hh & Hn). exists x, os'. split; [reflexivity|]. split; [exact Hr|]. split; [eapply heap_grows_trans; eassumption|lia]. Qed.

Lemma pushed_weaken p s os w w' d cf : w <= w' -> pushed p s os w d cf -> pushed p s os w' d cf.
Proof. intros Hw (x & os' & -> & Hr & Hh & Hn). exists x, os'. repeat split; try assumption. lia. Qed.

Lemma yields_more p s os os1 w w' w2 cf a : heap_grows os os1 -> Z.of_nat (length os1) <= Z.of_nat (length os) + w -> w + w' <= w2 ->
  yields cf a (pushed p s os1 w') -> yields cf a (pushed p s os w2).
Proof. intros Hg Hl Hw. apply yields_mono. intros d cf' Q. exact (pushed_weaken _ _ _ _ _ _ _ Hw (pushed_more _ _ _ _ _ _ _ _ Hg Hl Q)). Qed.

Lemma ebind_inv m k a : ebind m k = Some a -> exists a1, m = Some a1 /\ ebind (Some a1) k = Some a.
Proof. destruct m as [a1|]; [eauto|discriminate]. Qed.

(** What an expression may need of the stack and the heap. *)
Fixpoint weight (node : Node) : Z :=
  match node with
  | N_LIST children => 2 + fold_right (fun x w => weight x + w) 0 children
  | _ => 2
  end.

Definition weights (l : list Node) : Z := fold_right (fun x w => weight x + w) 0 l.

Lemma weight_pos x : 2 <= weight x.
Proof.
  induction x as [| | | |l IH] using node_ind'; cbn; try lia. induction IH; cbn; [lia|]. lia.
Qed.

Lemma weights_nonneg l : 0 <= weights l.
Proof. induction l as [|x l IH]; cbn; [lia|]. pose proof (weight_pos x). unfold weights in IH. lia. Qed.

Definition room (s : list VmValue) (os : list HeapObject) (w : Z) : Prop := Z.of_nat (length s) + w <= STACK_SIZE /\ Z.of_nat (length os) + w <= HEAP_SIZE.

(** The stack ends behind the locals, or no local is bound. *)
Definition aligned (c : FuncChunk) (s : list VmValue) (plain : bool) : Prop := Z.of_nat (length s) = fp v0 + n_locals c \/ plain = true.

Lemma existsb_none {A} (f : A -> bool) l x : existsb f l = false -> In x l -> f x = false.
Proof. intros H Hx. apply not_true_iff_false. intros E. apply not_true_iff_false in H. apply H, existsb_exists. eauto. Qed.

Lemma no_let_children l : no_let (N_LIST l) = true -> forallb no_let l = true.
Proof.
  unfold no_let. cbn [mentions]. intros H. apply negb_true_iff, orb_false_iff in H as (H1 & H2). apply forallb_forall. intros x Hx.
  rewrite (existsb_none _ _ _ H1 Hx), (existsb_none _ _ _ H2 Hx). reflexivity.
Qed.

Lemma aligned_cons c s x l : aligned c s (forallb no_let (x :: l)) -> aligned c s (no_let x) /\ aligned c s (forallb no_let l).
Proof. unfold aligned. cbn [forallb]. rewrite andb_true_iff. tauto. Qed.

Lemma aligned_grows c c' s b : grows c c' -> aligned c s b -> aligned c' s b.
Proof. intros G. unfold aligned. rewrite (grows_n_locals _ _ G). exact (fun H => H). Qed.

Lemma aligned_operand c s b x : aligned c s b -> aligned (add_local "__operand__" c) (x :: s) b.
Proof. unfold aligned, add_local. rewrite n_locals_add. cbn [length]. intros [H|H]; [left; lia|right; exact H]. Qed.

Lemma aligned_plain c s : aligned c s true.
Proof. right. reflexivity. Qed.

(** ** Forms compute what they mean, when the expressions in them do *)

Section Sound.
  Context (compile : Node -> bool -> FuncChunk -> option FuncChunk) (ev : env -> Node -> option answer).
  Context (compile_grew : forall x t c c', compile x t c = Some c' -> grows c c').
  Context (IH : forall x t c c' rho a s os, compile x t c = Some c' -> ev rho x = Some a -> ready c rho s os -> aligned c s (no_let x) ->
    room s os (weight x) -> contains (code_size c) (n_consts c) c' -> yields (code_size c, s, os) a (pushed (code_size c') s os (weight x - 1))).

(** What is known of the sizes of chunks. *)
Ltac sizes :=
  repeat match goal with
  | H : grows ?c ?c' |- _ =>
    lazymatch goal with
    | _ : code_size c <= code_size c' |- _ => fail
    | _ => pose proof (grows_size _ _ H); pose proof (later_n_consts _ _ _ (grows_later _ _ H))
    end
  end; autorewrite with chunk in *.

Ltac nonneg := lazymatch goal with |- 0 <= ?lo => match lo with context [code_size ?c] => pose proof (code_size_nonneg c) end end; autorewrite with chunk in *; lia.

Ltac laters :=
  lazymatch goal with
  | |- later _ ?c ?c => apply later_refl
  | |- later _ _ (chunk_emit _ _ _) => refine (later_trans _ _ _ _ _ (later_emit _ _ _ _)); laters
  | |- later _ _ (emit_const _ _) => refine (later_trans _ _ _ _ _ (later_const _ _ _)); laters
  | |- later _ _ (restore_locals _ _) => refine (later_trans _ _ _ _ _ (later_restore _ _ _)); laters
  | |- later _ _ (add_local _ _) => refine (later_trans _ _ _ _ _ (later_add_local _ _ _ _)); laters
  | |- later _ _ (add_local_boxed _ _ _) => refine (later_trans _ _ _ _ _ (later_add_local _ _ _ _)); laters
  | |- later _ _ (patch _ _ _ _) => refine (later_patch_out _ _ _ _ _ _ _ _ _); [laters|try (autorewrite with chunk; lia)|autorewrite with chunk; try lia]
  | H : grows _ ?c' |- later _ _ ?c' => refine (later_trans _ _ _ _ _ (later_weaken 0 _ _ _ _ (grows_later _ _ H))); [laters|nonneg]
  | |- _ => idtac
  end.

(** A part of the code that the machine contains. *)
Ltac part HC := refine (contains_sub _ _ _ _ _ _ HC _ _ _); [laters; sizes; try lia|sizes; try lia|sizes; try lia].

Lemma sequence_sound l t c c' rho a s os : compile_sequence compile l t c = Some c' -> eval_sequence ev rho l = Some a -> ready c rho s os -> aligned c s (forallb no_let l) ->
  room s os (weights l) -> contains (code_size c) (n_consts c) c' -> yields (code_size c, s, os) a (pushed (code_size c') s os (weights l)).
Proof.
  revert c os. induction l as [|x l IHl]; intros c os; cbn [compile_sequence eval_sequence]; [discriminate|]. intros Hc He R Ha Hr HC. apply aligned_cons in Ha as (Hx & Hl). destruct l as [|y l].
  - replace (weights [x]) with (weight x) in * by (cbn; lia). eapply yields_mono; [|eapply IH; eassumption]. intros d cf. apply pushed_weaken. lia.
  - apply bind_some in Hc as (c1 & E1 & Hc). apply ebind_inv in He as (a1 & He1 & He). pose proof (compile_grew _ _ _ _ E1) as G1.
    pose proof (grows_sequence compile compile_grew _ _ _ _ Hc) as G2. pose proof (weights_nonneg (y :: l)) as Hw. pose proof (weight_pos x) as Hp. change (weights (x :: y :: l)) with (weight x + weights (y :: l)) in *. destruct Hr as (Hr1 & Hr2).
    eapply yields_bind; [eapply IH; [exact E1|exact He1|exact R|exact Hx|split; lia|part HC]|exact He|]. intros d v os1 Hv Hg Hn He2.
    assert (Hi : instr_at (code_size c1) OP_POP 0) by (apply contains_emit; part HC).
    eapply yields_go; [apply (go_pop _ _ _ _ _ Hi)|]. eapply yields_mono; [|rewrite <- (size_emit OP_POP 0 c1); apply (IHl _ os1 Hc He2)].
    + intros d' cf Q. eapply pushed_weaken; [|exact (pushed_more _ _ _ _ _ _ _ _ Hg Hn Q)]. lia.
    + apply (ready_grows c); [apply (chunk_grows_trans _ _ _ G1 (grows_emit _ _ _))|]. exact (ready_push _ _ _ _ [] _ R Hg).
    + apply (aligned_grows c); [apply (chunk_grows_trans _ _ _ G1 (grows_emit _ _ _))|exact Hl].
    + split; lia.
    + part HC.
Qed.

(** A value on top of the stack, the heap as it was. *)
Definition just (p : Z) (s : list VmValue) (os : list HeapObject) (d : value) (cf : config) : Prop := exists z, cf = (p, z :: s, os) /\ rep os d z.

Lemma yields_step p s os cf a1 k a Q : yields cf a1 (just p s os) -> ebind (Some a1) k = Some a ->
  (forall d z, rep os d z -> k d = Some a -> yields (p, z :: s, os) a Q) -> yields cf a Q.
Proof.
  intros H1 E H2. destruct a1 as [d|]; cbn in *.
  - destruct H1 as (cf' & Hg & z & -> & Hr). exact (yields_go _ _ _ _ Hg (H2 d z Hr E)).
  - injection E as <-. exact H1.
Qed.

Lemma just_pushed p s os d cf : just p s os d cf -> pushed p s os 0 d cf.
Proof. intros (z & -> & Hr). exists z, os. split; [reflexivity|]. split; [exact Hr|]. split; [apply heap_grows_refl|lia]. Qed.

Lemma arithmetic_sound op a b r x y p s os : arithmetic op a b = Some r -> rep os a x -> rep os b y -> instr_at p (OP_of op) 0 ->
  yields (p, y :: x :: s, os) r (just (p + 1) s os).
Proof.
  unfold arithmetic. destruct a as [i| | | | ]; try discriminate. destruct b as [j| | | | ]; try discriminate. cbn [rep]. intros Hr -> -> Hi.
  destruct op; cbn [OP_of] in Hi; unfold exact in Hr.
  - destruct (in_int64 (i + j)) eqn:E; [|discriminate]. injection Hr as <-. eexists. split; [eapply (go_arith OP_ADD); [reflexivity|exact E|exact Hi]|]. eexists. split; reflexivity.
  - destruct (in_int64 (i - j)) eqn:E; [|discriminate]. injection Hr as <-. eexists. split; [eapply (go_arith OP_SUB); [reflexivity|exact E|exact Hi]|]. eexists. split; reflexivity.
  - destruct (in_int64 (i * j)) eqn:E; [|discriminate]. injection Hr as <-. eexists. split; [eapply (go_arith OP_MUL); [reflexivity|exact E|exact Hi]|]. eexists. split; reflexivity.
  - destruct (Z.eqb_spec j 0) as [->|]; [|discriminate]. injection Hr as <-. eapply stop_div, Hi.
Qed.

Lemma reduce_sound op l acc x c c' rho a s os : compile_reduce compile (OP_of op) (n_locals c) l c = Some c' -> eval_reduce ev op rho acc l = Some a -> rep os acc x ->
  ready c rho s os -> aligned c s (forallb no_let l) -> room (x :: s) os (weights l) -> contains (code_size c) (n_consts c) c' ->
  yields (code_size c, x :: s, os) a (pushed (code_size c') s os (weights l)).
Proof.
  revert acc x c os. induction l as [|e l IHl]; intros acc x c os; cbn [compile_reduce eval_reduce].
  - intros [= <-] [= <-] Hx _ _ _ _. apply yields_return, just_pushed. exists x. auto.
  - intros Hc He Hx R Ha Hr HC. apply aligned_cons in Ha as (Hae & Hal). apply bind_some in Hc as (c2 & E2 & Hc). apply ebind_inv in He as (a1 & He1 & He).
    set (c1 := add_local "__operand__" c) in *. pose proof (compile_grew _ _ _ _ E2) as G2. set (c4 := restore_locals (n_locals c) (chunk_emit (OP_of op) 0 c2)) in *.
    assert (G4 : grows c c4).
    { apply grows_restored. eapply grows_with_trans; [apply (grows_with_local false)|]. apply grows_grows_with. eapply chunk_grows_trans; [exact G2|apply grows_emit]. }
    rewrite <- (grows_n_locals _ _ G4) in Hc. pose proof (grows_reduce compile compile_grew (OP_of op) _ l c4 c' eq_refl Hc) as G5.
    pose proof (weights_nonneg l). pose proof (weight_pos e). change (weights (e :: l)) with (weight e + weights l) in *. destruct Hr as (Hr1 & Hr2). cbn [length] in Hr1.
    assert (S1 : code_size c1 = code_size c) by reflexivity. assert (N1 : n_consts c1 = n_consts c) by reflexivity. assert (S4 : code_size c4 = code_size c2 + 1) by (unfold c4; apply size_emit).
    assert (N4 : n_consts c4 = n_consts c2) by reflexivity.
    eapply yields_bind; [rewrite <- S1; eapply IH; [exact E2|exact He1|exact (ready_operand _ _ _ _ x R)|exact (aligned_operand _ _ _ x Hae)|split; cbn [length]; lia|]|exact He|].
    { refine (contains_sub _ _ _ _ _ _ HC _ _ _); [|lia|lia]. refine (later_trans _ _ c4 _ _ (later_weaken 0 _ _ _ _ (grows_later _ _ G5))); [exact (later_trans _ _ _ _ (later_emit _ _ _ _) (later_restore _ _ _))|apply code_size_nonneg]. }
    intros d v os1 Hv Hg Hn He2. apply ebind_inv in He2 as (a2 & Ha2 & He2). pose proof (grows_size _ _ G2). pose proof (later_n_consts _ _ _ (grows_later _ _ G2)).
    assert (Hi : instr_at (code_size c2) (OP_of op) 0).
    { apply contains_emit. refine (contains_sub _ _ _ _ _ _ HC _ _ _); [|lia|lia]. refine (later_trans _ _ c4 _ _ (later_weaken 0 _ _ _ _ (grows_later _ _ G5))); [apply later_restore|apply code_size_nonneg]. }
    eapply yields_step; [exact (arithmetic_sound _ _ _ _ _ _ _ s _ Ha2 (rep_grows _ _ _ _ Hg Hx) Hv Hi)|exact He2|]. intros d' z Hz He3. cbv beta in He3.
    eapply yields_mono; [|rewrite <- S4; eapply IHl; [exact Hc|exact He3|exact Hz| | | | ]].
    + intros d2 cf Q. eapply pushed_weaken; [|exact (pushed_more _ _ _ _ _ _ _ _ Hg Hn Q)]. lia.
    + apply (ready_grows c); [exact G4|]. exact (ready_push _ _ _ _ [] _ R Hg).
    + apply (aligned_grows c); [exact G4|exact Hal].
    + split; cbn [length]; lia.
    + refine (contains_sub _ _ _ _ _ _ HC (later_refl _ _) _ _); lia.
Qed.

Lemma list_sound l c0 c c' rho a s os : compile_list compile l (chunk_emit OP_NIL 0 c) = Some c' -> c0 = c -> eval_list ev rho l = Some a -> ready c rho s os ->
  room s os (1 + weights l) -> contains (code_size c) (n_consts c) c' -> yields (code_size c, s, os) a (pushed (code_size c') s os (weights l)).
Proof.
  intros Hc _. revert a c' Hc. induction l as [|x l IHl]; intros a c'; cbn [compile_list eval_list].
  - intros [= <-] [= <-] R Hr HC. assert (Hi : instr_at (code_size c) OP_NIL 0) by (apply contains_emit; part HC).
    eapply yields_go; [apply (go_nil _ _ _ _ Hi); destruct Hr; cbn in *; lia|]. rewrite size_emit. apply yields_return, just_pushed. exists VAL_NIL. split; reflexivity.
  - intros Hc He R Hr HC. apply bind_some in Hc as (c1 & E1 & Hc). apply bind_some in Hc as (c2 & E2 & Hc). injection Hc as <-. apply ebind_inv in He as (a1 & He1 & He).
    pose proof (grows_list compile compile_grew _ _ _ E1) as G1. pose proof (compile_grew _ _ _ _ E2) as G2. pose proof (weights_nonneg l). pose proof (weight_pos x).
    change (weights (x :: l)) with (weight x + weights l) in *. destruct Hr as (Hr1 & Hr2). rewrite size_emit.
    assert (G : grows c c1) by (eapply chunk_grows_trans; [apply grows_emit|exact G1]).
    eapply yields_bind; [eapply IHl; [exact E1|exact He1|exact R|split; lia|part HC]|exact He|]. intros d v os1 Hv Hg Hn. destruct (no_let x) eqn:En; [|discriminate]. intros He2. apply ebind_inv in He2 as (a2 & He2 & He3).
    eapply yields_bind; [eapply IH; [exact E2|exact He2|apply (ready_grows c); [exact G|exact (ready_push _ _ _ _ [v] _ R Hg)]|rewrite En; apply aligned_plain|split; cbn [length]; lia|part HC]|exact He3|].
    intros d' v' os2 Hv' Hg2 Hn2 [= <-]. assert (Hi : instr_at (code_size c2) OP_CONS 0) by (apply contains_emit; part HC).
    eapply yields_go; [apply (go_cons _ _ _ _ _ _ Hi); lia|]. apply yields_return. eexists _, _. split; [reflexivity|].
    assert (Hc3 : heap_grows os2 (os2 ++ [HEAP_CONS v' v])) by (eexists; reflexivity). split; [|split].
    + cbn [rep]. eexists _, v', v. split; [reflexivity|]. split; [apply array_get_last|]. split; [exact (rep_grows _ _ _ _ Hc3 Hv')|]. exact (rep_grows _ _ _ _ (heap_grows_trans _ _ _ Hg2 Hc3) Hv).
    + exact (heap_grows_trans _ _ _ Hg (heap_grows_trans _ _ _ Hg2 Hc3)).
    + rewrite length_app. cbn [length]. lia.
Qed.

(** *** Branches *)

Lemma truth_sound os d v b : truth d = Some b -> rep os d v -> is_truthy v = b.
Proof. destruct d as [i|f|c| |x y]; cbn; try discriminate; [intros [= <-] ->..|intros [= <-] (p & y1 & z & -> & _)]; try reflexivity. destruct c; reflexivity. Qed.

(** The instructions between a value and the jump that tests it: none, or a negation. *)
Definition tests_for (flip : bool) : list OpCode := if flip then [OP_NOT] else [].

Lemma tests_go flip c v s os : contains (code_size c) (n_consts c) (fold_left (fun c op => chunk_emit op 0 c) (tests_for flip) c) ->
  exists u, goes (code_size c, v :: s, os) (code_size (fold_left (fun c op => chunk_emit op 0 c) (tests_for flip) c), u :: s, os) /\ is_truthy u = xorb (is_truthy v) flip.
Proof.
  destruct flip; cbn [tests_for fold_left]; intros HC.
  - eexists. rewrite size_emit. split; [eapply go_not, contains_emit, HC|]. cbn. destruct (is_truthy v); reflexivity.
  - exists v. split; [apply goes_refl|]. destruct (is_truthy v); reflexivity.
Qed.

Lemma size_tests flip c : code_size c <= code_size (fold_left (fun c op => chunk_emit op 0 c) (tests_for flip) c).
Proof. apply grows_size, grows_emits. Qed.

(** A test and the jump behind it. *)
Lemma branch_sound flip test t c c1 rho yes no a s os Q : compile test false c = Some c1 -> eval_if ev rho test yes no = Some a -> ready c rho s os -> aligned c s (no_let test) ->
  room s os (weight test) -> contains (code_size c) (n_consts c) (fold_left (fun c op => chunk_emit op 0 c) (tests_for flip) c1) ->
  instr_at (code_size (fold_left (fun c op => chunk_emit op 0 c) (tests_for flip) c1)) OP_JUMP_IF_FALSE t ->
  (forall os1, heap_grows os os1 -> Z.of_nat (length os1) <= Z.of_nat (length os) + (weight test - 1) -> (if flip then no else yes) = Some a ->
    yields (code_size (fold_left (fun c op => chunk_emit op 0 c) (tests_for flip) c1) + 1, s, os1) a Q) ->
  (forall os1, heap_grows os os1 -> Z.of_nat (length os1) <= Z.of_nat (length os) + (weight test - 1) -> (if flip then yes else no) = Some a -> yields (t, s, os1) a Q) ->
  yields (code_size c, s, os) a Q.
Proof.
  intros E He R Ha Hr HC Hj H1 H2. unfold eval_if in He. apply ebind_inv in He as (a1 & He1 & He). pose proof (compile_grew _ _ _ _ E) as G1.
  pose proof (grows_emits (tests_for flip) c1) as Gt.
  eapply yields_bind; [eapply IH; [exact E|exact He1|exact R|exact Ha|exact Hr|part HC]|exact He|]. intros d v os1 Hv Hg Hn Hb. cbv beta in Hb. destruct (truth d) as [b|] eqn:Et; [|discriminate].
  destruct (tests_go flip c1 v s os1) as (u & Hu & Tu); [part HC|]. eapply yields_go; [exact Hu|]. eapply yields_go; [apply (go_jump_if_false _ _ _ _ _ Hj)|]. rewrite Tu, (truth_sound _ _ _ _ Et Hv).
  destruct b, flip; cbn [xorb] in *; auto.
Qed.

(** What a statement of the code around a part says about it. *)
Ltac gets :=
  lazymatch goal with
  | |- array_get (ch_code (patch ?s _ _ _)) ?s = _ => apply get_patch_same
  | |- array_get (ch_code (patch _ _ _ _)) _ = _ => apply get_patch_other; [| |gets]
  | |- array_get (ch_code (chunk_emit _ _ ?c)) (code_size ?c) = _ => apply get_last
  | |- array_get (ch_code (chunk_emit _ _ _)) _ = _ => apply get_emit; gets
  | H : grows _ ?c |- array_get (ch_code ?c) _ = _ => apply (get_grows _ _ _ _ H); gets
  end.

Lemma if_sound test yes no t c c' rho a s os : compile_if compile test (yes :: no) t c = Some c' ->
  eval_if ev rho test (ev rho yes) match no with [x] => ev rho x | _ => None end = Some a -> ready c rho s os -> aligned c s (forallb no_let (test :: yes :: no)) ->
  room s os (weights (test :: yes :: no)) -> contains (code_size c) (n_consts c) c' -> yields (code_size c, s, os) a (pushed (code_size c') s os (weights (test :: yes :: no))).
Proof.
  unfold compile_if. cbn [placeholder]. intros Hc He R Ha Hr HC. apply bind_some in Hc as (c1 & E1 & Hc). apply bind_some in Hc as (c3 & E3 & Hc).
  apply aligned_cons in Ha as (At & Ha). apply aligned_cons in Ha as (Ay & Ano). pose proof (compile_grew _ _ _ _ E1) as G1. pose proof (compile_grew _ _ _ _ E3) as G3.
  pose proof (weight_pos test). pose proof (weight_pos yes). pose proof (code_size_nonneg c). pose proof (weights_nonneg no).
  assert (G2 : grows c (chunk_emit OP_NOP 0 c1)) by (eapply chunk_grows_trans; [exact G1|apply grows_emit]).
  change (weights (test :: yes :: no)) with (weight test + (weight yes + weights no)) in *. destruct Hr as (Hr1 & Hr2).
  assert (S1 := grows_size _ _ G1). assert (S3 := grows_size _ _ G3). assert (N1 := later_n_consts _ _ _ (grows_later _ _ G1)). assert (N3 := later_n_consts _ _ _ (grows_later _ _ G3)). autorewrite with chunk in S3, N3.
  assert (Yes : forall os1, heap_grows os os1 -> Z.of_nat (length os1) <= Z.of_nat (length os) + (weight test - 1) -> ev rho yes = Some a -> contains (code_size c) (n_consts c) c' -> later (code_size c1 + 1) c3 c' ->
    yields (code_size c1 + 1, s, os1) a (pushed (code_size c3) s os (weight test + (weight yes + weights no)))).
  { intros os1 Hg Hn Hy _ L. rewrite <- (size_emit OP_NOP 0 c1). eapply yields_mono; [|eapply (IH yes); [exact E3|exact Hy| | | |]].
    - intros d cf Q. eapply pushed_weaken; [|exact (pushed_more _ _ _ _ _ _ _ _ Hg Hn Q)]. lia.
    - apply (ready_grows c _ _ _ _ G2). exact (ready_push _ _ _ _ [] _ R Hg).
    - exact (aligned_grows _ _ _ _ G2 Ay).
    - split; lia.
    - refine (contains_sub _ _ _ _ _ _ HC _ _ _); autorewrite with chunk; [exact L|lia|lia]. }
  destruct no as [|no more].
  - injection Hc as <-. rewrite size_patch in *.
    eapply (branch_sound false test); [exact E1|exact He|exact R|exact At|split; cbn in *; lia| | | |discriminate]; cbn [tests_for fold_left].
    + part HC.
    + apply (contains_get _ _ _ _ _ _ HC); [lia|]. gets. lia.
    + intros os1 Hg Hn Hy. apply Yes; try assumption. laters.
  - apply bind_some in Hc as (c6 & E6 & Hc). injection Hc as <-. set (c5 := patch (code_size c1) _ _ _) in *. pose proof (compile_grew _ _ _ _ E6) as G6.
    assert (S5 : code_size c5 = code_size c3 + 1) by (unfold c5; autorewrite with chunk; reflexivity). assert (N5 : n_consts c5 = n_consts c3) by reflexivity.
    assert (S6 := grows_size _ _ G6). assert (N6 := later_n_consts _ _ _ (grows_later _ _ G6)).
    assert (G5 : grows c c5) by (apply grows_patch; [lia|autorewrite with chunk; lia|]; eapply chunk_grows_trans; [exact G2|]; eapply chunk_grows_trans; [exact G3|apply grows_emit]).
    assert (L5 : later (code_size c1 + 1) c3 c5) by (unfold c5; laters). assert (I5 : array_get (ch_code c5) (code_size c1) = Some (mkInstruction (opcode_byte OP_JUMP_IF_FALSE) (code_size c5))).
    { unfold c5. rewrite size_patch. apply get_patch_same. autorewrite with chunk. lia. }
    assert (L1 : later (code_size c) c1 c5) by (refine (later_patch_out _ _ _ _ _ _ _ _ _); [laters|lia|autorewrite with chunk; lia]). clearbody c5. rewrite size_patch in *.
    assert (HC5 : forall lo c0, later lo c0 c5 -> lo <= code_size c5 -> (code_size c3 < lo \/ code_size c0 <= code_size c3) -> 0 <= lo -> later lo c0 (patch (code_size c3) OP_JUMP (code_size c6) c6)).
    { intros lo c0 L Hlo Hs H0'. apply later_patch_out; [|exact Hs|lia]. refine (later_trans _ _ _ _ L (later_weaken 0 _ _ _ H0' (grows_later _ _ G6))). }
    cbn [fold_right weights] in *. pose proof (weight_pos no). pose proof (weights_nonneg more). change (fold_right _ 0 more) with (weights more) in *.
    eapply (branch_sound false test); [exact E1|exact He|exact R|exact At|split; cbn in *; lia| | | |]; cbn [tests_for fold_left].
    + refine (contains_sub _ _ _ _ _ _ HC (HC5 _ _ L1 _ _ _) _ _); lia.
    + apply (contains_get _ _ _ _ _ _ HC); [lia|]. apply get_patch_other; [lia|lia|]. apply (get_grows _ _ _ _ G6), I5.
    + intros os1 Hg Hn Hy. eapply yields_then; [exact (Yes os1 Hg Hn Hy HC ltac:(apply HC5; [exact L5|lia|lia|lia]))|]. intros x os'. apply go_jump.
      apply (contains_get _ _ _ _ _ _ HC); [lia|]. apply get_patch_same. lia.
    + intros os1 Hg Hn Hno. destruct more as [|? ?]; [|discriminate]. eapply yields_mono; [|eapply (IH no); [exact E6|exact Hno| | | |]].
      * intros d cf Q. eapply pushed_weaken; [|exact (pushed_more _ _ _ _ _ _ _ _ Hg Hn Q)]. cbn. lia.
      * apply (ready_grows c _ _ _ _ G5). exact (ready_push _ _ _ _ [] _ R Hg).
      * apply (aligned_grows _ _ _ _ G5). exact (proj1 (aligned_cons _ _ _ _ Ano)).
      * split; cbn in *; lia.
      * refine (contains_sub _ _ _ _ _ _ HC _ _ _); [|lia|lia]. apply later_patch_out; [apply later_refl|lia|lia].
Qed.

(** [when] and [unless], whose body is reached. *)
Lemma when_sound flip test body c c' rho a s os : compile_when compile test (tests_for flip) body c = Some c' ->
  eval_if ev rho test (if flip then None else eval_sequence ev rho body) (if flip then eval_sequence ev rho body else None) = Some a -> ready c rho s os ->
  aligned c s (forallb no_let (test :: body)) -> room s os (weights (test :: body)) -> contains (code_size c) (n_consts c) c' ->
  yields (code_size c, s, os) a (pushed (code_size c') s os (weights (test :: body))).
Proof.
  unfold compile_when. cbn [placeholder]. intros Hc He R Ha Hr HC. apply bind_some in Hc as (c1 & E1 & Hc). apply bind_some in Hc as (c3 & E3 & Hc). injection Hc as <-.
  apply aligned_cons in Ha as (At & Ab). pose proof (compile_grew _ _ _ _ E1) as G1. pose proof (grows_sequence compile compile_grew _ _ _ _ E3) as G3. pose proof (tests_go flip c1) as Ht. clear Ht.
  set (ct := fold_left (fun c op => chunk_emit op 0 c) (tests_for flip) c1) in *. assert (Gt : grows c1 ct) by apply grows_emits.
  pose proof (weight_pos test). pose proof (weights_nonneg body). pose proof (code_size_nonneg c).
  change (weights (test :: body)) with (weight test + weights body) in *. destruct Hr as (Hr1 & Hr2). rewrite size_patch in *.
  assert (S1 := grows_size _ _ G1). assert (S3 := grows_size _ _ G3). assert (St := grows_size _ _ Gt). assert (N1 := later_n_consts _ _ _ (grows_later _ _ G1)). assert (Nt := later_n_consts _ _ _ (grows_later _ _ Gt)). autorewrite with chunk in S3.
  assert (G2 : grows c (chunk_emit OP_NOP 0 ct)) by (eapply chunk_grows_trans; [exact G1|]; eapply chunk_grows_trans; [exact Gt|apply grows_emit]).
  assert (Hb : forall os1, heap_grows os os1 -> Z.of_nat (length os1) <= Z.of_nat (length os) + (weight test - 1) -> eval_sequence ev rho body = Some a ->
    yields (code_size ct + 1, s, os1) a (pushed (code_size c3) s os (weight test + weights body))).
  { intros os1 Hg Hn Hy. rewrite <- (size_emit OP_NOP 0 ct). eapply (yields_more _ _ _ _ _ (weights body)); [exact Hg|exact Hn|lia|]. eapply sequence_sound; [exact E3|exact Hy| | | |].
    - apply (ready_grows c _ _ _ _ G2). exact (ready_push _ _ _ _ [] _ R Hg).
    - exact (aligned_grows _ _ _ _ G2 Ab).
    - split; lia.
    - refine (contains_sub _ _ _ _ _ _ HC _ _ _); autorewrite with chunk; [|lia|lia]. apply later_patch_out; [apply later_refl|lia|lia]. }
  assert (L : later 0 ct (patch (code_size ct) OP_JUMP_IF_FALSE (code_size c3) c3)).
  { apply later_patch_out; [|right; lia|pose proof (code_size_nonneg ct); lia]. exact (later_trans _ _ _ _ (later_emit _ _ _ _) (grows_later _ _ G3)). }
  eapply (branch_sound flip test); [exact E1|exact He|exact R|exact At|split; lia| | | |].
  - refine (contains_sub _ _ _ _ _ _ HC (later_weaken 0 _ _ _ _ L) _ _); lia.
  - apply (contains_get _ _ _ _ _ _ HC); [fold ct; lia|]. fold ct. apply get_patch_same. lia.
  - fold ct. destruct flip; exact Hb.
  - destruct flip; discriminate.
Qed.

(** [and] and [or]. *)
Lemma shortcut_done stop rho d l b : truth d = Some b -> Bool.eqb b stop = true -> eval_shortcut ev stop rho d l = returns d.
Proof. intros Ht Hb. destruct l as [|x l]; cbn [eval_shortcut]; [reflexivity|]. rewrite Ht, Hb. reflexivity. Qed.

Lemma shortcut_sound stop l c c' rho d v a s os : compile_shortcut compile (tests_for stop) l c = Some c' -> eval_shortcut ev stop rho d l = Some a -> rep os d v -> ready c rho s os ->
  aligned c s (forallb no_let l) -> room s os (2 + weights l) -> contains (code_size c) (n_consts c) c' -> yields (code_size c, v :: s, os) a (pushed (code_size c') s os (weights l)).
Proof.
  revert c d v os. induction l as [|x l IHl]; intros c d v os; cbn [compile_shortcut eval_shortcut].
  - intros [= <-] [= <-] Hv _ _ _ _. apply yields_return, just_pushed. exists v. auto.
  - cbn [placeholder]. intros Hc He Hv R Ha Hr HC. apply aligned_cons in Ha as (Ax & Al). apply bind_some in Hc as (c4 & E4 & Hc). destruct (truth d) as [b|] eqn:Et; [|discriminate].
    set (c1 := chunk_emit OP_DUP 0 c) in *. set (ct := fold_left (fun c op => chunk_emit op 0 c) (tests_for stop) c1) in *. set (c5 := patch (code_size ct) OP_JUMP_IF_FALSE (code_size c4) c4) in *.
    pose proof (compile_grew _ _ _ _ E4) as G4. assert (Gt : grows c1 ct) by apply grows_emits. assert (G1 : grows c c1) by apply grows_emit.
    pose proof (grows_shortcut compile compile_grew (tests_for stop) l c5 c' Hc) as G6. pose proof (weight_pos x). pose proof (weights_nonneg l). pose proof (code_size_nonneg c).
    change (weights (x :: l)) with (weight x + weights l) in *. destruct Hr as (Hr1 & Hr2).
    assert (S1 : code_size c1 = code_size c + 1) by apply size_emit. assert (N1 : n_consts c1 = n_consts c) by reflexivity. assert (St := grows_size _ _ Gt). assert (Nt := later_n_consts _ _ _ (grows_later _ _ Gt)). assert (S4 := grows_size _ _ G4). assert (N4 := later_n_consts _ _ _ (grows_later _ _ G4)). autorewrite with chunk in S4, N4.
    assert (S5 : code_size c5 = code_size c4) by (unfold c5; apply size_patch). assert (N5 : n_consts c5 = n_consts c4) by reflexivity.
    set (c3 := chunk_emit OP_POP 0 (chunk_emit OP_NOP 0 ct)) in *. assert (S3 : code_size c3 = code_size ct + 2) by (unfold c3; autorewrite with chunk; lia). assert (N3 : n_consts c3 = n_consts ct) by reflexivity.
    assert (G3 : grows c c3) by (unfold c3; eapply chunk_grows_trans; [exact G1|]; eapply chunk_grows_trans; [exact Gt|]; eapply chunk_grows_trans; apply grows_emit).
    assert (G5 : grows c c5) by (apply grows_patch; [lia|lia|]; eapply chunk_grows_trans; [exact G3|exact G4]).
    assert (L4 : later (code_size ct + 1) c4 c5) by (apply later_patch_out; [apply later_refl|lia|lia]).
    assert (L3 : later (code_size ct + 1) c3 c5) by (refine (later_trans _ _ _ _ (later_weaken 0 _ _ _ _ (grows_later _ _ G4)) L4); lia).
    assert (Lt : later 0 ct c5). { apply later_patch_out; [|right; lia|lia]. refine (later_trans _ _ _ _ _ (grows_later _ _ G4)). exact (later_trans _ _ _ _ (later_emit _ _ _ _) (later_emit _ _ _ _)). }
    assert (L6 : forall lo c0, 0 <= lo -> later lo c0 c5 -> later lo c0 c') by (intros lo c0 Hlo L; refine (later_trans _ _ _ _ L (later_weaken 0 _ _ _ Hlo (grows_later _ _ G6)))).
    assert (Hd : instr_at (code_size c) OP_DUP 0). { apply contains_emit. fold c1. refine (contains_sub _ _ _ _ _ _ HC (L6 _ _ _ (later_weaken 0 _ _ _ _ (later_trans _ _ _ _ (grows_later _ _ Gt) Lt))) _ _); lia. }
    assert (Hj : instr_at (code_size ct) OP_JUMP_IF_FALSE (code_size c5)).
    { rewrite S5. apply (contains_get _ _ _ _ _ _ HC); [lia|]. apply (get_grows _ _ _ _ G6). apply get_patch_same. lia. }
    eapply yields_go; [apply (go_dup _ _ _ _ _ Hd); cbn [length]; lia|]. rewrite <- S1.
    destruct (tests_go stop c1 v (v :: s) os) as (u & Hu & Tu); [fold ct; refine (contains_sub _ _ _ _ _ _ HC (L6 _ _ _ (later_weaken 0 _ _ _ _ Lt)) _ _); lia|]. fold ct in Hu.
    eapply yields_go; [exact Hu|]. eapply yields_go; [apply (go_jump_if_false _ _ _ _ _ Hj)|]. rewrite Tu, (truth_sound _ _ _ _ Et Hv).
    assert (HC5 : contains (code_size c5) (n_consts c5) c') by (refine (contains_sub _ _ _ _ _ _ HC (later_refl _ _) _ _); lia).
    destruct (Bool.eqb b stop) eqn:Eb.
    + apply eqb_prop in Eb as ->. rewrite xorb_nilpotent. eapply yields_mono; [intros d2 cf; apply (pushed_weaken _ _ _ (weights l)); lia|].
      eapply IHl; [exact Hc|rewrite (shortcut_done stop rho d l stop Et (eqb_reflx stop)); exact He|exact Hv|apply (ready_grows c); [exact G5|exact R]|exact (aligned_grows _ _ _ _ G5 Al)|split; lia|exact HC5].
    + assert (xorb b stop = true) as -> by (destruct b, stop; try discriminate; reflexivity). apply ebind_inv in He as (a1 & He1 & He).
      assert (Hp : instr_at (code_size ct + 1) OP_POP 0).
      { rewrite <- (size_emit OP_NOP 0 ct). apply contains_emit. fold c3. refine (contains_sub _ _ _ _ _ _ HC (L6 _ _ _ (later_weaken (code_size ct + 1) _ _ _ _ L3)) _ _); autorewrite with chunk; lia. }
      eapply yields_go; [apply (go_pop _ _ _ _ _ Hp)|]. replace (code_size ct + 1 + 1) with (code_size c3) by lia.
      eapply yields_bind; [eapply IH; [exact E4|exact He1|apply (ready_grows c); [exact G3|exact R]|exact (aligned_grows _ _ _ _ G3 Ax)|split; lia|]|exact He|].
      * refine (contains_sub _ _ _ _ _ _ HC (L6 _ _ _ (later_weaken (code_size ct + 1) _ _ _ _ L4)) _ _); lia.
      * intros d2 v2 os1 Hv2 Hg Hn He2. rewrite <- S5. eapply (yields_more _ _ _ _ _ (weights l)); [exact Hg|exact Hn|lia|].
        eapply IHl; [exact Hc|exact He2|exact Hv2| |exact (aligned_grows _ _ _ _ G5 Al)|split; lia|exact HC5]. apply (ready_grows c); [exact G5|]. exact (ready_push _ _ _ _ [] _ R Hg).
Qed.

(** *** Clauses of cond *)

Lemma aligned_children c s l : aligned c s (no_let (N_LIST l)) -> aligned c s (forallb no_let l).
Proof. intros [H|H]; [left; exact H|right; exact (no_let_children _ H)]. Qed.

Definition slots_in (c : FuncChunk) (slots : list Z) : Prop := Forall (fun e => 0 <= e < code_size c) slots.

Lemma fold_patch_other slots t c i x : slots_in c slots -> ~ In i slots -> array_get (ch_code c) i = Some x ->
  array_get (ch_code (fold_left (fun c slot => patch slot OP_JUMP t c) slots c)) i = Some x.
Proof.
  revert c. induction slots as [|e slots IHs]; intros c HF Hn H; cbn; [exact H|]. inversion HF as [|? ? He HF']; subst. apply IHs; [|cbn in Hn; tauto|].
  - unfold slots_in. rewrite size_patch. exact HF'.
  - apply get_patch_other; [exact He|intros ->; apply Hn; left; reflexivity|exact H].
Qed.

Lemma fold_patch_same slots t c e : slots_in c slots -> In e slots -> array_get (ch_code (fold_left (fun c slot => patch slot OP_JUMP t c) slots c)) e = Some (mkInstruction (opcode_byte OP_JUMP) t).
Proof.
  revert c. induction slots as [|e' slots IHs]; intros c HF Hin; cbn; [contradiction|]. inversion HF as [|? ? He HF']; subst.
  assert (HS : slots_in (patch e' OP_JUMP t c) slots) by (unfold slots_in; rewrite size_patch; exact HF').
  destruct (in_dec Z.eq_dec e slots) as [Hi|Hi]; [apply IHs; assumption|]. destruct Hin as [->|Hin]; [|contradiction]. apply fold_patch_other; [exact HS|exact Hi|apply get_patch_same, He].
Qed.

Lemma later_patch_all lo c0 c slots : later lo c0 c -> Forall (fun e => (e < lo \/ code_size c0 <= e) /\ 0 <= e < code_size c) slots -> later lo c0 (patch_all slots c).
Proof.
  unfold patch_all. generalize (code_size c) at 2. intros t. revert c. induction slots as [|e slots IHs]; intros c L HF; cbn; [exact L|]. inversion HF as [|? ? He HF']; subst. apply IHs.
  - apply later_patch_out; [exact L|exact (proj1 He)|exact (proj2 He)].
  - rewrite size_patch. exact HF'.
Qed.

Lemma clauses_jumps t l : forall ends c c' e, compile_clauses compile t ends l c = Some c' -> slots_in c ends -> In e ends ->
  array_get (ch_code c') e = Some (mkInstruction (opcode_byte OP_JUMP) (code_size c')).
Proof.
  induction l as [|cl l IHl]; intros ends c c' e; cbn [compile_clauses].
  - intros [= <-] HF Hin. rewrite size_patch_all. apply fold_patch_same; assumption.
  - destruct cl as [ | |[|test [|b body]]| | ]; try (apply IHl; assumption). destruct (is_sym test "else").
    + intros H HF Hin. apply bind_some in H as (c1 & E1 & H). injection H as <-. rewrite size_patch_all. apply fold_patch_same; [|exact Hin].
      eapply Forall_impl; [|exact HF]. cbv beta. intros x Hx. pose proof (grows_size _ _ (grows_sequence compile compile_grew _ _ _ _ E1)). lia.
    + intros H HF Hin. apply bind_some in H as (c1 & E1 & H). cbn [placeholder] in H. apply bind_some in H as (c3 & E3 & H).
      pose proof (grows_size _ _ (compile_grew _ _ _ _ E1)). pose proof (grows_size _ _ (grows_sequence compile compile_grew _ _ _ _ E3)). autorewrite with chunk in *. pose proof (code_size_nonneg c1).
      destruct (length ends <? 64)%nat; cbn [placeholder] in H; (apply (IHl _ _ _ e) in H; [exact H| |try (apply in_or_app; left); exact Hin]); unfold slots_in; autorewrite with chunk.
      * apply Forall_app. split; [|repeat constructor; lia]. eapply Forall_impl; [|exact HF]. cbv beta. intros x Hx. lia.
      * eapply Forall_impl; [|exact HF]. cbv beta. intros x Hx. lia.
Qed.

Lemma clauses_later t l : forall ends c c' lo c0, compile_clauses compile t ends l c = Some c' -> later lo c0 c -> 0 <= lo ->
  Forall (fun e => (e < lo \/ code_size c0 <= e) /\ 0 <= e < code_size c) ends -> later lo c0 c'.
Proof.
  induction l as [|cl l IHl]; intros ends c c' lo c0; cbn [compile_clauses].
  - intros [= <-] L H0 HF. apply later_patch_all; assumption.
  - destruct cl as [ | |[|test [|b body]]| | ]; try (apply IHl; assumption). destruct (is_sym test "else").
    + intros H L H0 HF. apply bind_some in H as (c1 & E1 & H). injection H as <-. pose proof (grows_sequence compile compile_grew _ _ _ _ E1) as G1. pose proof (grows_size _ _ G1). apply later_patch_all.
      * exact (later_trans _ _ _ _ L (later_weaken 0 _ _ _ H0 (grows_later _ _ G1))).
      * eapply Forall_impl; [|exact HF]. cbv beta. intros x Hx. lia.
    + intros H L H0 HF. apply bind_some in H as (c1 & E1 & H). cbn [placeholder] in H. apply bind_some in H as (c3 & E3 & H). pose proof (compile_grew _ _ _ _ E1) as G1. pose proof (grows_sequence compile compile_grew _ _ _ _ E3) as G3.
      pose proof (grows_size _ _ G1). pose proof (grows_size _ _ G3). pose proof (later_size _ _ _ L). autorewrite with chunk in *. pose proof (code_size_nonneg c1).
      assert (L3 : later lo c0 c3).
      { refine (later_trans _ _ _ _ L (later_weaken 0 _ _ _ H0 _)). exact (later_trans _ _ _ _ (grows_later _ _ G1) (later_trans _ _ _ _ (later_emit _ _ _ _) (grows_later _ _ G3))). }
      destruct (length ends <? 64)%nat; cbn [placeholder] in H; (eapply IHl; [exact H| |exact H0|]).
      * apply later_patch_out; [exact (later_trans _ _ _ _ L3 (later_emit _ _ _ _))|right; lia|autorewrite with chunk; lia].
      * autorewrite with chunk. apply Forall_app. split; [|repeat constructor; lia]. eapply Forall_impl; [|exact HF]. cbv beta. intros x Hx. lia.
      * apply later_patch_out; [exact L3|right; lia|lia].
      * autorewrite with chunk. eapply Forall_impl; [|exact HF]. cbv beta. intros x Hx. lia.
Qed.

(** An instruction in front of the clauses that is no jump to their end stays. *)
Lemma clauses_get t l ends c c' i x : compile_clauses compile t ends l c = Some c' -> slots_in c ends -> ~ In i ends ->
  array_get (ch_code c) i = Some x -> array_get (ch_code c') i = Some x.
Proof.
  intros Hc HF Hn Hx. pose proof (array_get_Some _ _ _ Hx) as Hr. set (c0 := mkChunk (firstn (S (Z.to_nat i)) (ch_code c)) (ch_constants c) (ch_locals c) (scope_depth c)).
  assert (S0 : code_size c0 = i + 1) by (unfold code_size, c0; cbn [ch_code]; rewrite length_firstn; lia).
  assert (Hf : forall j y, array_get (ch_code c0) j = Some y -> array_get (ch_code c) j = Some y).
  { intros j y Hj. unfold c0 in Hj. cbn [ch_code] in Hj. rewrite <- (firstn_skipn (S (Z.to_nat i)) (ch_code c)). apply array_get_app, Hj. }
  assert (L : later i c0 c') .
  { eapply clauses_later; [exact Hc|split; [unfold code_size in *; lia|intros j y _; apply Hf|exists []; cbn; rewrite app_nil_r; reflexivity]|lia|].
    apply Forall_forall. intros e He. pose proof (proj1 (Forall_forall _ _) HF e He). cbv beta in *. split; [|assumption]. assert (e <> i) by (intros ->; contradiction). lia. }
  apply (later_code _ _ _ L); [lia|]. rewrite <- Hx. unfold array_get. destruct (Z.ltb_spec i 0); [reflexivity|]. cbn [ch_code c0]. rewrite nth_error_firstn. destruct (Nat.ltb_spec (Z.to_nat i) (S (Z.to_nat i))); [reflexivity|lia].
Qed.

Lemma clauses_sound t l : forall ends c c' rho a s os, compile_clauses compile t ends l c = Some c' -> eval_clauses ev rho l = Some a -> (length ends + length l <= 64)%nat -> slots_in c ends ->
  ready c rho s os -> aligned c s (forallb no_let l) -> room s os (weights l) -> contains (code_size c) (n_consts c) c' -> yields (code_size c, s, os) a (pushed (code_size c') s os (weights l)).
Proof.
  induction l as [|cl l IHl]; intros ends c c' rho a s os; cbn [compile_clauses eval_clauses]; [discriminate|]. destruct cl as [ | |[|test [|b body]]| | ]; try discriminate.
  intros Hc He Hlen HF R Ha Hr HC. apply aligned_cons in Ha as (Acl & Al). apply aligned_children in Acl. set (bd := b :: body) in *. apply aligned_cons in Acl as (At & Ab).
  pose proof (weight_pos test). pose proof (weights_nonneg bd). pose proof (weights_nonneg l). pose proof (code_size_nonneg c).
  replace (weights (N_LIST (test :: bd) :: l)) with (2 + (weight test + weights bd) + weights l) in * by reflexivity. destruct Hr as (Hr1 & Hr2).
  destruct (is_sym test "else").
  - apply bind_some in Hc as (c1 & E1 & Hc). injection Hc as <-. rewrite size_patch_all. eapply yields_mono; [intros d cf; apply (pushed_weaken _ _ _ (weights bd)); lia|].
    eapply sequence_sound; [exact E1|exact He|exact R|exact Ab|split; lia|]. refine (contains_sub _ _ _ _ _ _ HC _ _ _); [|lia|lia]. apply later_patch_all; [apply later_refl|].
    pose proof (grows_size _ _ (grows_sequence compile compile_grew _ _ _ _ E1)). eapply Forall_impl; [|exact HF]. cbv beta. intros x Hx. lia.
  - apply bind_some in Hc as (c1 & E1 & Hc). cbn [placeholder] in Hc. apply bind_some in Hc as (c3 & E3 & Hc). cbn [length] in Hlen. destruct (Nat.ltb_spec (length ends) 64); [|lia]. cbn [placeholder] in Hc.
    pose proof (compile_grew _ _ _ _ E1) as G1. pose proof (grows_sequence compile compile_grew _ _ _ _ E3) as G3. set (c2 := chunk_emit OP_NOP 0 c1) in *.
    assert (S1 := grows_size _ _ G1). assert (S2 : code_size c2 = code_size c1 + 1) by apply size_emit. assert (S3 := grows_size _ _ G3). assert (N1 := later_n_consts _ _ _ (grows_later _ _ G1)). assert (N2 : n_consts c2 = n_consts c1) by reflexivity. assert (N3 := later_n_consts _ _ _ (grows_later _ _ G3)).
    set (c5 := patch (code_size c1) OP_JUMP_IF_FALSE (code_size (chunk_emit OP_NOP 0 c3)) (chunk_emit OP_NOP 0 c3)) in *. assert (S5 : code_size c5 = code_size c3 + 1) by (unfold c5; autorewrite with chunk; reflexivity). assert (N5 : n_consts c5 = n_consts c3) by reflexivity.
    assert (G2 : grows c c2) by (eapply chunk_grows_trans; [exact G1|apply grows_emit]).
    assert (G5 : grows c c5) by (apply grows_patch; [lia|autorewrite with chunk; lia|]; eapply chunk_grows_trans; [exact G2|]; eapply chunk_grows_trans; [exact G3|apply grows_emit]).
    assert (HE : slots_in c5 (ends ++ [code_size c3])).
    { apply Forall_app. split; [|repeat constructor; lia]. eapply Forall_impl; [|exact HF]. cbv beta. intros x Hx. lia. }
    assert (L5 : forall lo c0, later lo c0 c5 -> code_size c <= lo -> code_size c0 <= code_size c3 -> later lo c0 c').
    { intros lo c0 L Hlo Hs. eapply clauses_later; [exact Hc|exact L|lia|]. apply Forall_app. split; [eapply Forall_impl; [|exact HF]; cbv beta; intros x Hx; lia|repeat constructor; lia]. }
    assert (L3 : later (code_size c2) c3 c5) by (apply later_patch_out; [apply later_emit|lia|autorewrite with chunk; lia]).
    assert (L1 : later (code_size c) c1 c5).
    { apply later_patch_out; [|lia|autorewrite with chunk; lia]. refine (later_weaken 0 _ _ _ _ (later_trans _ _ _ _ (later_emit _ _ _ _) (later_trans _ _ _ _ (grows_later _ _ G3) (later_emit _ _ _ _)))). lia. }
    eapply (branch_sound false test (code_size c5)); [exact E1|exact He|exact R|exact At|split; lia| | | |]; cbn [tests_for fold_left].
    + refine (contains_sub _ _ _ _ _ _ HC (L5 _ _ L1 _ _) _ _); lia.
    + apply (contains_get _ _ _ _ _ _ HC); [lia|]. eapply clauses_get; [exact Hc|exact HE| |unfold c5; rewrite size_patch; apply get_patch_same; autorewrite with chunk; lia].
      intros Hin. apply in_app_or in Hin as [Hin|[Hin|[]]]; [|lia]. pose proof (proj1 (Forall_forall _ _) HF _ Hin). cbv beta in *. lia.
    + intros os1 Hg Hn Hy. rewrite <- S2. eapply yields_then.
      * eapply (yields_more _ _ _ _ _ (weights bd)); [exact Hg|exact Hn| |eapply sequence_sound; [exact E3|exact Hy|apply (ready_grows c _ _ _ _ G2); exact (ready_push _ _ _ _ [] _ R Hg)|exact (aligned_grows _ _ _ _ G2 Ab)|split; lia|]]; [lia|].
        refine (contains_sub _ _ _ _ _ _ HC (L5 _ _ L3 _ _) _ _); lia.
      * intros x os'. apply go_jump. apply (contains_get _ _ _ _ _ _ HC); [lia|]. eapply clauses_jumps; [exact Hc|exact HE|]. apply in_or_app. right. left. reflexivity.
    + intros os1 Hg Hn Hno. eapply (yields_more _ _ _ _ _ (weights l)); [exact Hg|exact Hn|lia|]. eapply IHl; [exact Hc|exact Hno|rewrite length_app; cbn [length]; lia|exact HE| |exact (aligned_grows _ _ _ _ G5 Al)|split; lia|].
      * apply (ready_grows c _ _ _ _ G5). exact (ready_push _ _ _ _ [] _ R Hg).
      * refine (contains_sub _ _ _ _ _ _ HC (later_refl _ _) _ _); lia.
Qed.

(** *** let and let* *)

(** The value of a scope, above the values of its variables. *)
Definition scoped (p n : Z) (s : list VmValue) (os : list HeapObject) (w : Z) (d : value) (cf : config) : Prop :=
  exists x l os', cf = (p, x :: l ++ s, os') /\ Z.of_nat (length l) = n /\ rep os' d x /\ heap_grows os os' /\ Z.of_nat (length os') <= Z.of_nat (length os) + w.

Lemma size_add_local b x c : code_size (add_local_boxed b x c) = code_size c.
Proof. reflexivity. Qed.

Lemma bindings_sound box body t l : forall c c1 c2 rho a s os, compile_bindings compile box l c = Some c1 -> compile_sequence compile body t c1 = Some c2 -> eval_let_star ev rho l body = Some a ->
  ready c rho s os -> Z.of_nat (length s) = fp v0 + n_locals c -> room s os (weights l + weights body) -> contains (code_size c) (n_consts c) c2 ->
  yields (code_size c, s, os) a (scoped (code_size c2) (n_locals c1 - n_locals c) s os (weights l + weights body)).
Proof.
  induction l as [|b l IHl]; intros c c1 c2 rho a s os; cbn [compile_bindings eval_let_star].
  - intros [= <-] Hc He R Ha Hr HC. eapply yields_mono; [|eapply sequence_sound; [exact Hc|exact He|exact R|left; exact Ha|exact Hr|exact HC]].
    intros d cf (x & os' & -> & Hx & Hg & Hn). exists x, [], os'. repeat split; try assumption. cbn [length]. lia.
  - destruct b as [ | |[|x [|e [|? ?]]]| | ]; try discriminate; destruct x as [ |name| | | ]; try discriminate. intros Hb Hc He R Ha Hr HC. apply bind_some in Hb as (ce & Ee & Hb). apply ebind_inv in He as (a1 & He1 & He).
    set (cb := if box name then chunk_emit OP_VEC_CREATE 1 ce else ce) in *. set (c3 := add_local_boxed (box name) name cb) in *.
    pose proof (compile_grew _ _ _ _ Ee) as G1. pose proof (grows_bindings compile compile_grew _ _ _ _ Hb) as (G3 & (ls & Els) & _). pose proof (grows_sequence compile compile_grew _ _ _ _ Hc) as G4.
    assert (Gb : grows ce cb) by (unfold cb; destruct (box name); [apply grows_emit|apply chunk_grows_refl]). pose proof (code_size_nonneg c). pose proof (weight_pos e). pose proof (weights_nonneg l). pose proof (weights_nonneg body).
    assert (S1 := grows_size _ _ G1). assert (Sb := grows_size _ _ Gb). assert (N1 := later_n_consts _ _ _ (grows_later _ _ G1)). assert (Nb := later_n_consts _ _ _ (grows_later _ _ Gb)). assert (S3 : code_size c3 = code_size cb) by reflexivity. assert (N3 : n_consts c3 = n_consts cb) by reflexivity.
    replace (weights (N_LIST [N_SYMBOL name; e] :: l)) with (4 + weight e + weights l) in * by (cbn [weights weight fold_right]; unfold weights; lia). destruct Hr as (Hr1 & Hr2).
    assert (L3 : later 0 c3 c2) by (refine (later_trans _ _ _ _ G3 (grows_later _ _ G4))). assert (Lb : later 0 cb c2) by (refine (later_trans _ _ _ _ (later_add_local _ _ _ _) L3)).
    assert (HL : n_locals c3 = n_locals c + 1) by (unfold c3; rewrite n_locals_add, (grows_n_locals _ _ Gb), (grows_n_locals _ _ G1); reflexivity).
    eapply yields_bind; [eapply IH; [exact Ee|exact He1|exact R|left; exact Ha|split; lia|]|exact He|].
    { refine (contains_sub _ _ _ _ _ _ HC (later_weaken 0 _ _ _ _ (later_trans _ _ _ _ (grows_later _ _ Gb) Lb)) _ _); lia. }
    intros d v os1 Hv Hg Hn He2. assert (HG : grows c cb) by (exact (chunk_grows_trans _ _ _ G1 Gb)).
    assert (HR : forall y os2, heap_grows os os2 -> holds os2 (box name) d y -> ready c3 ((name, d) :: rho) (y :: s) os2).
    { intros y os2 Hg2 Hh. apply ready_bind; [apply (ready_grows c _ _ _ _ HG); exact (ready_push _ _ _ _ [] _ R Hg2)|rewrite (grows_n_locals _ _ HG); exact Ha|exact Hh]. }
    assert (HK : forall y os2, heap_grows os os2 -> Z.of_nat (length os2) <= Z.of_nat (length os) + weight e -> holds os2 (box name) d y -> yields (code_size c3, y :: s, os2) a (scoped (code_size c2) (n_locals c1 - n_locals c) s os (4 + weight e + weights l + weights body))).
    { intros y os2 Hg2 Hn2 Hh. eapply yields_mono; [|eapply IHl; [exact Hb|exact Hc|exact He2|exact (HR y os2 Hg2 Hh)|cbn [length]; lia|split; cbn [length]; lia|]].
      - intros d2 cf (x & l2 & os' & -> & Hl2 & Hx & Hg3 & Hn3). exists x, (l2 ++ [y]), os'. rewrite <- app_assoc. split; [reflexivity|]. split; [rewrite length_app; cbn [length]; lia|]. split; [exact Hx|]. split; [exact (heap_grows_trans _ _ _ Hg2 Hg3)|lia].
      - refine (contains_sub _ _ _ _ _ _ HC (later_refl _ _) _ _); lia. }
    unfold cb, holds in *. destruct (box name).
    + assert (Hi : instr_at (code_size ce) OP_VEC_CREATE 1) by (apply contains_emit; refine (contains_sub _ _ _ _ _ _ HC (later_weaken 0 _ _ _ _ Lb) _ _); lia).
      eapply yields_go; [apply (go_box _ _ _ _ Hi); lia|]. rewrite <- (size_emit OP_VEC_CREATE 1 ce). assert (Hg2 : heap_grows os1 (os1 ++ [HEAP_VECTOR (Some (mkVector [v] 1))])) by (eexists; reflexivity).
      apply HK; [exact (heap_grows_trans _ _ _ Hg Hg2)|rewrite length_app; cbn [length]; lia|]. exists (Z.of_nat (length os1)), v. split; [reflexivity|]. split; [apply array_get_last|exact (rep_grows _ _ _ _ Hg2 Hv)].
    + apply HK; [exact Hg|lia|exact Hv].
Qed.

Lemma scope_sound box l body t c c' rho a s os : compile_scope compile box l body t c = Some c' -> eval_let_star ev rho l body = Some a -> ready c rho s os ->
  Z.of_nat (length s) = fp v0 + n_locals c -> room s os (weights l + weights body) -> contains (code_size c) (n_consts c) c' -> yields (code_size c, s, os) a (pushed (code_size c') s os (weights l + weights body)).
Proof.
  unfold compile_scope. intros Hc He R Ha Hr HC. apply bind_some in Hc as (c1 & E1 & Hc). apply bind_some in Hc as (c2 & E2 & Hc). injection Hc as <-.
  pose proof (grows_bindings compile compile_grew _ _ _ _ E1) as (G1 & (ls & Els) & _). pose proof (grows_sequence compile compile_grew _ _ _ _ E2) as G2.
  assert (HN : n_locals c1 - n_locals c = Z.of_nat (length ls)) by (unfold n_locals; rewrite Els, length_app; cbn; lia).
  assert (N1 := later_n_consts _ _ _ G1). assert (N2 := later_n_consts _ _ _ (grows_later _ _ G2)). assert (S1 := later_size _ _ _ G1). assert (S2 := grows_size _ _ G2). change (code_size (enter_scope c)) with (code_size c) in *. change (n_consts (enter_scope c)) with (n_consts c) in *.
  set (c3 := if 0 <? n_locals c1 - n_locals c then chunk_emit OP_POPN (n_locals c1 - n_locals c) c2 else c2) in *.
  assert (L3 : later (code_size c) c2 c3) by (unfold c3; destruct (0 <? _); [apply later_emit|apply later_refl]). change (code_size (leave_scope (restore_locals (n_locals c) c3))) with (code_size c3).
  assert (HC3 : contains (code_size c) (n_consts c) c3) by exact HC.
  eassert (Y : yields (code_size c, s, os) a (scoped (code_size c2) (n_locals c1 - n_locals c) s os (weights l + weights body))).
  { apply (bindings_sound box body _ l (enter_scope c) c1 c2 rho a s os E1 E2 He); [exact (ready_same c (enter_scope c) _ _ _ eq_refl R)|exact Ha|exact Hr|]. refine (contains_sub _ _ _ _ _ _ HC3 L3 _ _); apply Z.le_refl. }
  destruct a as [d|]; [|exact Y]. destruct Y as (cf & Hgo & x & lv & os' & -> & Hl & Hx & Hg & Hn). unfold c3 in *. destruct (Z.ltb_spec 0 (n_locals c1 - n_locals c)).
  - assert (Hi : instr_at (code_size c2) OP_POPN (n_locals c1 - n_locals c)) by (apply contains_emit; refine (contains_sub _ _ _ _ _ _ HC3 (later_refl _ _) _ _); lia).
    exists (code_size c2 + 1, x :: s, os'). split; [exact (goes_trans _ _ _ Hgo (go_popn _ _ _ _ _ _ Hi Hl ltac:(lia)))|]. exists x, os'. rewrite size_emit. auto.
  - destruct lv; [|cbn in Hl; lia]. exists (code_size c2, x :: s, os'). split; [exact Hgo|]. exists x, os'. auto.
Qed.

(** The parallel bindings of [let] may be evaluated one after the other. *)
Context (ev_agree : forall rho rho' e, (forall y, mentions y e = true -> env_lookup y rho = env_lookup y rho') -> ev rho e = ev rho' e).

Lemma lookup_cons x d rho y : env_lookup y ((x, d) :: rho) = if String.eqb y x then Some d else env_lookup y rho.
Proof. unfold env_lookup, assoc. cbn [find fst]. destruct (String.eqb y x); reflexivity. Qed.

Lemma let_is_let_star body l : forall outer rho bound a, eval_let ev outer rho bound l body = Some a -> (forall y, ~ In y bound -> env_lookup y rho = env_lookup y outer) -> eval_let_star ev rho l body = Some a.
Proof.
  induction l as [|b l IHl]; intros outer rho bound a; cbn [eval_let eval_let_star]; [auto|]. destruct b as [ | |[|x [|e [|? ?]]]| | ]; try discriminate; destruct x as [ |name| | | ]; try discriminate.
  destruct (existsb _ bound) eqn:Eb; [discriminate|]. intros He Hl. rewrite (ev_agree rho outer e).
  - apply ebind_inv in He as (a1 & He1 & He). rewrite He1. destruct a1 as [d|]; [|exact He]. cbn [ebind] in *. eapply IHl; [exact He|]. intros y Hy. rewrite lookup_cons. destruct (String.eqb_spec y name) as [->|]; [exfalso; apply Hy; left; reflexivity|].
    apply Hl. intros Hin. apply Hy. right. exact Hin.
  - intros y Hy. apply Hl. intros Hin. pose proof (existsb_none _ _ _ Eb Hin). cbv beta in *. congruence.
Qed.

(** *** Primitives *)

Definition access_op (step : bool) : OpCode := if step then OP_CAR else OP_CDR.
Definition plain (op : OpCode) : OpCode * Z := (op, 0).

Fixpoint letters (path : list bool) : string := match path with [] => "r"%string | b :: path => String (if b then "a" else "d")%char (letters path) end.

Lemma letters_of s : forall path, path_letters s = Some path -> s = letters path.
Proof.
  induction s as [|c s IHs]; intros path; cbn [path_letters]; [discriminate|]. destruct (Ascii.eqb_spec c "r") as [->|].
  - destruct s; [|discriminate]. intros [= <-]. reflexivity.
  - destruct (Ascii.eqb_spec c "a") as [->|]; [|destruct (Ascii.eqb_spec c "d") as [->|]; [|discriminate]]; (destruct (path_letters s) as [p|]; [|discriminate]); intros [= <-]; cbn; f_equal; auto.
Qed.

(** An accessor is compiled to its letters, from the last one. *)
Lemma accessor_form name path x : accessor name = Some path -> arith_of name = None /\ form_of name [N_SYMBOL name; x] = F_Plain (List.map plain (List.map access_op (rev path))).
Proof.
  unfold accessor. do 5 (match goal with |- context [String.eqb name ?k] => destruct (String.eqb_spec name k) as [->|] end; [intros [= <-]; split; reflexivity|]).
  destruct name as [|c s]; [discriminate|]. destruct (Ascii.eqb_spec c "c") as [->|Hc].
  - destruct (path_letters s) as [p|] eqn:E; [|discriminate]. apply letters_of in E as ->. destruct (_ && _) eqn:Hl; [|discriminate]. intros [= <-].
    destruct p as [|[] [|[] [|[] [|[] [|? ?]]]]]; try discriminate; split; reflexivity.
  - destruct c as [[] [] [] [] [] [] [] []]; try discriminate. contradiction Hc. reflexivity.
Qed.

Lemma emit_all_app a b c : emit_all (a ++ b) c = emit_all b (emit_all a c).
Proof. apply fold_left_app. Qed.

Lemma yields_after p s os cf a b Q : yields cf a (just p s os) -> (forall d z, a = Returns d -> rep os d z -> yields (p, z :: s, os) b Q) -> (a = Raises -> b = Raises) -> yields cf b Q.
Proof.
  intros H1 H2 H3. destruct a as [d|]; [|rewrite (H3 eq_refl); exact H1]. destruct H1 as (cf' & Hg & z & -> & Hz). exact (yields_go _ _ _ _ Hg (H2 d z eq_refl Hz)).
Qed.

Lemma follow_sound path d v c s os : contains (code_size c) (n_consts c) (emit_all (List.map plain (List.map access_op (rev path))) c) -> rep os d v ->
  yields (code_size c, v :: s, os) (follow_path path d) (just (code_size (emit_all (List.map plain (List.map access_op (rev path))) c)) s os).
Proof.
  induction path as [|b path IHp]; cbn [rev].
  - intros _ Hv. apply yields_return. exists v. auto.
  - rewrite !map_app, emit_all_app. set (c1 := emit_all (List.map plain (List.map access_op (rev path))) c) in *. intros HC Hv.
    assert (G : grows c c1) by apply grows_emit_all. pose proof (grows_size _ _ G). pose proof (later_n_consts _ _ _ (grows_later _ _ G)).
    assert (HC1 : contains (code_size c) (n_consts c) c1) by (refine (contains_sub _ _ _ _ _ _ HC (later_weaken 0 _ _ _ (code_size_nonneg _) (grows_later _ _ (grows_emit_all _ _))) _ _); apply Z.le_refl).
    cbn [List.map emit_all fold_left plain fst snd] in *. assert (Hi : instr_at (code_size c1) (access_op b) 0) by (apply contains_emit; refine (contains_sub _ _ _ _ _ _ HC (later_refl _ _) _ _); lia).
    rewrite size_emit. eapply yields_after; [exact (IHp HC1 Hv)| |cbn [follow_path]; intros ->; reflexivity]. intros d1 z E Hz. cbn [follow_path]. rewrite E.
    assert (HX : exists part, exec_instruction grants (access_op b) 0 = exec_access part /\ forall A (x y : A), (if b then x else y) = (if b then x else y) /\ part = (if b then fst else snd)) by (destruct b; eexists; (split; [reflexivity|auto])).
    destruct HX as (part & Ep & HX). specialize (HX unit tt tt) as (_ & ->).
    destruct d1 as [i|f|bb| |a1 d1].
    1-4: refine (stop_access _ _ _ _ _ _ _ Ep Hi _); cbn in Hz; subst z; reflexivity.
    destruct Hz as (q & y1 & y2 & -> & Hq & H1 & H2). eexists. split; [exact (go_access _ _ _ _ _ _ _ _ _ Ep Hi Hq)|]. destruct b; eexists; (split; [reflexivity|assumption]).
Qed.

Lemma test_sound op f b d : (forall y, exec_instruction grants op y = exec_test f) -> (forall os v, rep os d v -> f v = b) ->
  forall c v s os, contains (code_size c) (n_consts c) (emit_all [(op, 0)] c) -> rep os d v -> yields (code_size c, v :: s, os) (Returns (D_BOOL b)) (just (code_size (emit_all [(op, 0)] c)) s os).
Proof.
  intros E Hf c v s os HC Hv. cbn [emit_all fold_left fst snd] in *. rewrite size_emit. eexists. split; [eapply (go_test op f); [exact (E 0)|apply contains_emit, HC]|]. eexists. split; [reflexivity|]. cbn. rewrite (Hf _ _ Hv). reflexivity.
Qed.

Ltac test_end := eexists; split; [reflexivity|]; eapply test_sound; [reflexivity|]; intros os v.
Ltac represented := cbn; try (intros (? & ? & ? & -> & _)); try intros ->; try reflexivity.
Ltac test d := match goal with H : returns _ = Some _ |- _ => injection H as <- end; test_end; destruct d; represented.

Lemma primitive1_sound name d r x : primitive1 name d = Some r -> arith_of name = None -> name <> "zero?"%string ->
  exists ops, form_of name [N_SYMBOL name; x] = F_Plain ops /\
    forall c v s os, contains (code_size c) (n_consts c) (emit_all ops c) -> rep os d v -> yields (code_size c, v :: s, os) r (just (code_size (emit_all ops c)) s os).
Proof.
  unfold primitive1. destruct (accessor name) as [path|] eqn:Ea; intros H Hn Hz.
  - injection H as <-. eexists. split; [exact (proj2 (accessor_form _ _ x Ea))|]. intros. apply follow_sound; assumption.
  - clear Ea.
    repeat match type of H with (if ?t then _ else _) = _ =>
      lazymatch t with
      | String.eqb name ?k => destruct (String.eqb_spec name k) as [->|]
      | _ => destruct t eqn:?
      end end; try congruence; try discriminate Hn.
    all: repeat match goal with E : (_ || _)%bool = true |- _ => apply orb_true_iff in E as [E|E] | E : String.eqb ?n _ = true |- _ => apply String.eqb_eq in E as -> end.
    + destruct (truth d) as [b|] eqn:Et; [|discriminate]. injection H as <-. eexists. split; [reflexivity|]. intros c v s os HC Hv. cbn [emit_all fold_left fst snd List.map] in *. rewrite size_emit. eexists. split; [eapply go_not, contains_emit, HC|].
      rewrite (truth_sound _ _ _ _ Et Hv). eexists. split; reflexivity.
    + test d.
    + test d.
    + test d.
    + test d.
    + test d.
    + destruct d; try discriminate; injection H as <-; test_end; represented.
    + test d.
    + test d.
    + test d.
    + destruct d as [i| | | | ]; try discriminate. unfold exact in H. destruct (in_int64 (Z.abs i)) eqn:Er; [|discriminate]. injection H as <-. eexists. split; [reflexivity|]. intros c v s os HC ->. cbn [emit_all fold_left fst snd List.map] in *.
      rewrite size_emit. eexists. split; [eapply go_abs, contains_emit, HC; exact Er|]. eexists. split; reflexivity.
Qed.

(** Two expressions, the value of the first an anonymous local of the second. *)
Lemma two_sound e1 e2 k c c1 c2 rho a s os Q : compile e1 false c = Some c1 -> compile e2 false (add_local "__operand__" c1) = Some c2 ->
  ebind (ev rho e1) (fun d1 => ebind (ev rho e2) (k d1)) = Some a -> ready c rho s os -> aligned c s (forallb no_let [e1; e2]) ->
  room s os (weight e1 + weight e2) -> contains (code_size c) (n_consts c) c2 ->
  (forall d1 v1 d2 v2 os', rep os' d1 v1 -> rep os' d2 v2 -> heap_grows os os' -> Z.of_nat (length os') <= Z.of_nat (length os) + (weight e1 + weight e2 - 2) -> k d1 d2 = Some a ->
    yields (code_size c2, v2 :: v1 :: s, os') a Q) -> yields (code_size c, s, os) a Q.
Proof.
  intros E1 E2 He R Ha (Hr1 & Hr2) HC H. apply aligned_cons in Ha as (A1 & A2). apply aligned_cons in A2 as (A2 & _). apply ebind_inv in He as (a1 & He1 & He).
  pose proof (compile_grew _ _ _ _ E1) as G1. pose proof (compile_grew _ _ _ _ E2) as G2. pose proof (weight_pos e1). pose proof (weight_pos e2).
  pose proof (grows_size _ _ G1). pose proof (later_n_consts _ _ _ (grows_later _ _ G1)).
  eapply yields_bind; [eapply IH; [exact E1|exact He1|exact R|exact A1|split; lia|]|exact He|].
  { refine (contains_sub _ _ _ _ _ _ HC (later_weaken 0 _ _ _ (code_size_nonneg _) (later_trans _ _ _ _ (later_add_local _ _ _ _) (grows_later _ _ G2))) _ _); apply Z.le_refl. }
  intros d1 v1 os1 Hv1 Hg1 Hn1 He2. apply ebind_inv in He2 as (a2 & He2 & He3). change (code_size c1) with (code_size (add_local "__operand__" c1)).
  eapply yields_bind; [eapply IH; [exact E2|exact He2| | |split; cbn [length]; lia|]|exact He3|].
  - apply ready_operand, (ready_grows c _ _ _ _ G1). exact (ready_push _ _ _ _ [] _ R Hg1).
  - apply aligned_operand, (aligned_grows _ _ _ _ G1), A2.
  - refine (contains_sub _ _ _ _ _ _ HC (later_refl _ _) _ _); [change (code_size (add_local "__operand__" c1)) with (code_size c1)|change (n_consts (add_local "__operand__" c1)) with (n_consts c1)]; lia.
  - intros d2 v2 os2 Hv2 Hg2 Hn2 Hk. apply (H d1 v1 d2 v2 os2); [exact (rep_grows _ _ _ _ Hg2 Hv1)|exact Hv2|exact (heap_grows_trans _ _ _ Hg1 Hg2)|lia|exact Hk].
Qed.

Lemma restored_after_two e1 e2 c c1 c2 : compile e1 false c = Some c1 -> compile e2 false (add_local "__operand__" c1) = Some c2 -> grows c (restore_locals (n_locals c) c2).
Proof.
  intros E1 E2. apply grows_restored. eapply grows_with_trans; [apply grows_grows_with, (compile_grew _ _ _ _ E1)|].
  eapply grows_with_trans; [apply (grows_with_local false)|apply grows_grows_with, (compile_grew _ _ _ _ E2)].
Qed.

Lemma cons_sound x y c c1 c2 rho a s os : compile y false c = Some c1 -> compile x false (add_local "__operand__" c1) = Some c2 ->
  (ev! d := ev rho y in ev! a := ev rho x in returns (D_PAIR a d)) = Some a -> ready c rho s os -> aligned c s (forallb no_let [y; x]) -> room s os (weight y + weight x) ->
  contains (code_size c) (n_consts c) (chunk_emit OP_CONS 0 (restore_locals (n_locals c) c2)) ->
  yields (code_size c, s, os) a (pushed (code_size c2 + 1) s os (weight y + weight x)).
Proof.
  intros E1 E2 He R Ha Hr HC. pose proof (grows_size _ _ (restored_after_two _ _ _ _ _ E1 E2)) as S. change (code_size (restore_locals (n_locals c) c2)) with (code_size c2) in S.
  assert (N : n_consts c <= n_consts c2) by (exact (later_n_consts _ _ _ (grows_later _ _ (restored_after_two _ _ _ _ _ E1 E2)))).
  eapply two_sound; [exact E1|exact E2|exact He|exact R|exact Ha|exact Hr| |].
  - refine (contains_sub _ _ _ _ _ _ HC (later_trans _ _ _ _ (later_restore _ _ _) (later_emit _ _ _ _)) _ _); apply Z.le_refl.
  - intros d1 v1 d2 v2 os1 Hv1 Hv2 Hg Hn [= <-]. destruct Hr as (Hr1 & Hr2). pose proof (weight_pos x). pose proof (weight_pos y).
    assert (Hi : instr_at (code_size c2) OP_CONS 0) by (apply (contains_emit OP_CONS 0 (restore_locals (n_locals c) c2)); refine (contains_sub _ _ _ _ _ _ HC (later_refl _ _) _ _); [exact S|exact N]).
    eapply yields_go; [apply (go_cons _ _ _ _ _ _ Hi); lia|]. apply yields_return. eexists _, _. split; [reflexivity|]. assert (Hc3 : heap_grows os1 (os1 ++ [HEAP_CONS v2 v1])) by (eexists; reflexivity).
    split; [|split; [exact (heap_grows_trans _ _ _ Hg Hc3)|rewrite length_app; cbn [length]; lia]].
    cbn [rep]. eexists _, v2, v1. split; [reflexivity|]. split; [apply array_get_last|]. split; eapply rep_grows; eassumption.
Qed.

Lemma primitive2_form name a b r x y : primitive2 name a b = Some r ->
  exists op, form_of name [N_SYMBOL name; x; y] = F_Tracked op /\ forall p va vb s os, rep os a va -> rep os b vb -> instr_at p op 0 -> yields (p, vb :: va :: s, os) r (just (p + 1) s os).
Proof.
  unfold primitive2. destruct a as [i| | | | ]; try discriminate. destruct b as [j| | | | ]; try discriminate. cbn [rep]. intros H.
  assert (Cmp : forall op f fd, (forall y, exec_instruction grants op y = compare op f fd) ->
    forall p va vb s (os : list HeapObject), va = VAL_INT i -> vb = VAL_INT j -> instr_at p op 0 -> yields (p, vb :: va :: s, os) (Returns (D_BOOL (f i j))) (just (p + 1) s os)).
  { intros op f fd E p va vb s os -> -> Hi. eexists. split; [eapply go_compare; [exact (E 0)|exact Hi]|]. eexists. split; reflexivity. }
  repeat match type of H with (if String.eqb name ?k then _ else _) = _ => destruct (String.eqb_spec name k) as [->|] end; try discriminate.
  - injection H as <-. exists OP_EQ. split; [reflexivity|]. eapply (Cmp OP_EQ Z.eqb). reflexivity.
  - injection H as <-. exists OP_LT. split; [reflexivity|]. eapply (Cmp OP_LT Z.ltb). reflexivity.
  - injection H as <-. exists OP_GT. split; [reflexivity|]. rewrite <- Z.gtb_ltb. eapply (Cmp OP_GT Z.gtb). reflexivity.
  - injection H as <-. exists OP_LE. split; [reflexivity|]. eapply (Cmp OP_LE Z.leb). reflexivity.
  - injection H as <-. exists OP_GE. split; [reflexivity|]. rewrite <- Z.geb_leb. eapply (Cmp OP_GE Z.geb). reflexivity.
  - exists OP_MOD. split; [reflexivity|]. intros p va vb s os -> -> Hi. destruct (Z.eqb_spec j 0) as [->|Hj].
    + injection H as <-. eapply stop_mod, Hi.
    + destruct (_ && _) eqn:Em; [discriminate|]. injection H as <-. eexists. split; [eapply go_mod; [exact Hj|exact Em|exact Hi]|]. eexists. split; reflexivity.
Qed.

(** *** Constants *)

Context (ev_number : forall rho v i k ch inex a, ev rho (N_NUMBER v i k ch inex) = Some a -> exists d, a = Returns d /\ (if i then d = D_INT k else exists f, d = D_FLOAT f)).

Definition of_arith (op : arith_op) : Z -> Z -> Z := match op with Sub => Z.sub | Mul => Z.mul | _ => Z.add end.

Lemma reduce_integers op l : op <> Div -> forall ds acc rho a, literals double_literal l = Some ds -> eval_reduce ev op rho (D_INT acc) l = Some a ->
  exists is_, literals int_literal l = Some is_ /\ forall r, fold_ints (of_arith op) acc is_ = Some r -> a = Returns (D_INT r).
Proof.
  intros Hop. induction l as [|x l IHl]; intros ds acc rho a; cbn [literals eval_reduce].
  - intros _ [= <-]. exists []. split; [reflexivity|]. intros r [= <-]. reflexivity.
  - destruct x as [v i k ch inex| | | | ]; try discriminate. cbn [double_literal int_literal]. destruct (literals double_literal l) as [ds'|] eqn:Ed; [|discriminate]. intros _ He.
    apply ebind_inv in He as (a1 & He1 & He). apply ev_number in He1 as (d & -> & Hd). cbn [ebind] in He. destruct i; [subst d|destruct Hd as (f & ->); destruct op; discriminate].
    assert (Ea : arithmetic op (D_INT acc) (D_INT k) = exact (of_arith op acc k)) by (destruct op; congruence || reflexivity). rewrite Ea in He. unfold exact in He. destruct (in_int64 (of_arith op acc k)) eqn:Er; [|discriminate].
    cbn [ebind returns] in He. edestruct IHl as (is_ & -> & Hf); [reflexivity|exact He|]. exists (k :: is_). split; [reflexivity|]. intros r. cbn [fold_ints]. rewrite Er. apply Hf.
Qed.

Lemma constant_fold_sound op x l v rho a : constant_fold op (x :: l) = Some v -> l <> [] -> (ev! d := ev rho x in eval_reduce ev op rho d l) = Some a ->
  exists i, a = Returns (D_INT i) /\ v = VAL_INT i.
Proof.
  intros Hv Hl He. assert (Hop : op <> Div). { intros ->. unfold constant_fold in Hv. destruct (literals int_literal (x :: l)); [discriminate|]. destruct (literals double_literal (x :: l)); discriminate. }
  assert (HD : exists ds, literals double_literal (x :: l) = Some ds).
  { unfold constant_fold in Hv. destruct (literals int_literal (x :: l)) as [is_|] eqn:Ei; [|destruct (literals double_literal (x :: l)); [eauto|discriminate]]. clear - Ei.
    revert is_ Ei. generalize (x :: l). intros l'. induction l' as [|y l' IHl]; cbn; [eauto|]. intros is_. destruct y as [w i k ch inex| | | | ]; try discriminate. destruct i; [|discriminate]. cbn.
    destruct (literals int_literal l') as [i2|]; [|discriminate]. intros _. destruct (IHl _ eq_refl) as (ds & ->). eauto. }
  destruct HD as (ds & HD). cbn [literals] in HD. destruct x as [w i k ch inex| | | | ]; try discriminate. cbn [double_literal] in HD. destruct (literals double_literal l) as [ds'|] eqn:Ed; [|discriminate].
  apply ebind_inv in He as (a1 & He1 & He). apply ev_number in He1 as (d & -> & Hd). cbn [ebind] in He. destruct i; [subst d|].
  - destruct (reduce_integers op l Hop _ _ _ _ Ed He) as (is_ & Ei & Hf). unfold constant_fold in Hv. cbn [literals int_literal] in Hv. rewrite Ei in Hv. destruct op; try congruence; cbn [fold_exact fold_ints option_map] in Hv.
    + rewrite Z.add_0_l in Hv. destruct (in_int64 k); [|discriminate]. cbn [of_arith] in Hf. destruct (fold_ints Z.add k is_) as [r|] eqn:Er; [|discriminate]. injection Hv as <-. exists r. auto.
    + cbn [of_arith] in Hf. destruct (fold_ints Z.sub k is_) as [r|] eqn:Er; [|discriminate]. injection Hv as <-. exists r. auto.
    + rewrite Z.mul_1_l in Hv. destruct (in_int64 k); [|discriminate]. cbn [of_arith] in Hf. destruct (fold_ints Z.mul k is_) as [r|] eqn:Er; [|discriminate]. injection Hv as <-. exists r. auto.
  - destruct Hd as (f & ->). destruct l as [|y l]; [congruence|]. cbn [eval_reduce] in He. apply ebind_inv in He as (a2 & He2 & He). cbn [literals] in Ed. destruct y as [w2 i2 k2 ch2 inex2| | | | ]; try discriminate.
    apply ev_number in He2 as (d2 & -> & _). destruct d2; discriminate.
Qed.

(** *** Quotations and variables *)

Definition quote_items (deep : bool) : list Node -> FuncChunk -> FuncChunk :=
  fix items (l : list Node) := match l with [] => fun c => c | x :: l => fun c => chunk_emit OP_CONS 0 (compile_quote deep x (items l c)) end.

Definition datum_items : list Node -> option value :=
  fix items (l : list Node) := match l with [] => Some D_NIL | x :: l => match items l, quoted_datum x with Some d, Some a => Some (D_PAIR a d) | _, _ => None end end.

Lemma quote_atom v d x c s os : contains (code_size c) (n_consts c) (emit_const v c) -> rep os d v -> room s os (weight x) ->
  yields (code_size c, s, os) (Returns d) (pushed (code_size c + 1) s os (weight x - 1)).
Proof.
  intros HC Hv (Hr & _). pose proof (weight_pos x). eexists. split; [apply (contains_const _ _ _ _ HC); lia|]. exists v, os. split; [reflexivity|]. split; [exact Hv|]. split; [apply heap_grows_refl|lia].
Qed.

Lemma bool_sound b c s os x : contains (code_size c) (n_consts c) (emit_bool b c) -> room s os (weight x) ->
  yields (code_size c, s, os) (Returns (D_BOOL b)) (pushed (code_size (emit_bool b c)) s os (weight x - 1)).
Proof.
  intros HC (Hr & _). pose proof (weight_pos x). unfold emit_bool in *. rewrite size_emit. eexists. split; [apply (go_bool _ b _ _ 0); [apply contains_emit, HC|lia]|]. exists (BOOL_VAL b), os.
  split; [reflexivity|]. split; [reflexivity|]. split; [apply heap_grows_refl|lia].
Qed.

Lemma quote_sound deep x : forall c d s os, quoted_datum x = Some d -> room s os (weight x) -> contains (code_size c) (n_consts c) (compile_quote deep x c) ->
  yields (code_size c, s, os) (Returns d) (pushed (code_size (compile_quote deep x c)) s os (weight x - 1)).
Proof.
  induction x as [v i j k m|z|z|b|l Hl] using node_ind'; intros c d s os; cbn [quoted_datum compile_quote]; try discriminate.
  - destruct k; [discriminate|]. destruct i; [intros [= <-] Hr HC; rewrite size_const; eapply quote_atom; [exact HC|reflexivity|exact Hr]|]. destruct m; [|discriminate]. unfold exact_or_float. destruct (exact_double v); [discriminate|].
    intros [= <-] Hr HC. rewrite size_const. eapply quote_atom; [exact HC|reflexivity|exact Hr].
  - intros [= <-] Hr HC. apply bool_sound; assumption.
  - fold datum_items. fold (quote_items deep). change (weight (N_LIST l)) with (2 + weights l). intros Hd Hr HC.
    enough (Y : yields (code_size c, s, os) (Returns d) (pushed (code_size (quote_items deep l (chunk_emit OP_NIL 0 c))) s os (weights l))).
    { eapply yields_mono; [|exact Y]. intros d2 cf. apply pushed_weaken. lia. }
    revert d Hd Hr HC. induction Hl as [|x l Hx _ IHl]; intros d; cbn [datum_items quote_items].
    + intros [= <-] (Hr1 & Hr2) HC. change (weights []) with 0 in *. rewrite size_emit. eexists. split; [apply (go_nil _ _ _ 0); [apply contains_emit, HC|lia]|]. exists VAL_NIL, os. split; [reflexivity|]. split; [reflexivity|]. split; [apply heap_grows_refl|lia].
    + fold datum_items. fold (quote_items deep). destruct (datum_items l) as [d2|] eqn:Ed; [|discriminate]. destruct (quoted_datum x) as [d1|] eqn:Ex; [|discriminate]. intros [= <-] Hr HC. set (c1 := quote_items deep l (chunk_emit OP_NIL 0 c)) in *.
      pose proof (grows_quote deep x c1) as Gx. assert (G1 : grows c c1) by exact (grows_quote deep (N_LIST l) c). set (c2 := compile_quote deep x c1) in *. pose proof (grows_size _ _ Gx). pose proof (later_n_consts _ _ _ (grows_later _ _ Gx)).
      pose proof (grows_size _ _ G1). pose proof (later_n_consts _ _ _ (grows_later _ _ G1)). pose proof (weight_pos x). pose proof (weights_nonneg l). change (weights (x :: l)) with (weight x + weights l) in *. destruct Hr as (Hr1 & Hr2).
      assert (L : later 0 c2 (chunk_emit OP_CONS 0 c2)) by apply later_emit. pose proof (code_size_nonneg c).
      destruct (IHl d2 eq_refl) as (cf & Hgo & v & os1 & -> & Hv & Hg & Hn); [split; lia| |].
      { refine (contains_sub _ _ _ _ _ _ HC (later_weaken 0 _ _ _ _ (later_trans _ _ _ _ (grows_later _ _ Gx) L)) _ _); lia. }
      destruct (Hx c1 d1 (v :: s) os1 eq_refl) as (cf2 & Hgo2 & v2 & os2 & -> & Hv2 & Hg2 & Hn2); [split; cbn [length]; lia| |].
      { refine (contains_sub _ _ _ _ _ _ HC (later_weaken 0 _ _ _ _ L) _ _); lia. }
      assert (Hi : instr_at (code_size c2) OP_CONS 0) by (apply contains_emit; refine (contains_sub _ _ _ _ _ _ HC (later_refl _ _) _ _); lia).
      assert (Hh : Z.of_nat (length os2) < HEAP_SIZE) by lia. eexists. split; [exact (goes_trans _ _ _ Hgo (goes_trans _ _ _ Hgo2 (go_cons _ _ _ _ _ _ Hi Hh)))|]. rewrite size_emit. eexists _, _. split; [reflexivity|].
      assert (Hc3 : heap_grows os2 (os2 ++ [HEAP_CONS v2 v])) by (eexists; reflexivity). split; [|split; [exact (heap_grows_trans _ _ _ Hg (heap_grows_trans _ _ _ Hg2 Hc3))|rewrite length_app; cbn [length]; lia]].
      cbn [rep]. eexists _, v2, v. split; [reflexivity|]. split; [apply array_get_last|]. split; [exact (rep_grows _ _ _ _ Hc3 Hv2)|exact (rep_grows _ _ _ _ (heap_grows_trans _ _ _ Hg2 Hc3) Hv)].
Qed.

Lemma find_local_slot c rho s os x l : ready c rho s os -> find_local c x = Some l -> 0 <= l_slot l < n_locals c /\ array_get (ch_locals c) (l_slot l) = Some l.
Proof.
  intros [R1 _ _] Hf. apply find_some in Hf as (Hin & _). apply in_rev in Hin. apply In_nth_error in Hin as (i & Hi). assert (Ha : array_get (ch_locals c) (Z.of_nat i) = Some l) by (unfold array_get; destruct (Z.ltb_spec (Z.of_nat i) 0); [lia|rewrite Nat2Z.id; exact Hi]).
  rewrite (R1 _ _ Ha). split; [|exact Ha]. pose proof (array_get_Some _ _ _ Ha). unfold n_locals. lia.
Qed.

(** The box of a local is found by its slot. *)
Lemma boxed_slot c rho s os x l : ready c rho s os -> find_local c x = Some l -> existsb (fun k => (l_slot k =? l_slot l) && l_boxed k) (ch_locals c) = l_boxed l.
Proof.
  intros R Hf. pose proof (find_local_slot _ _ _ _ _ _ R Hf) as (Hs & Ha). destruct R as [R1 _ _]. destruct (l_boxed l) eqn:Eb.
  - apply existsb_exists. exists l. split; [|rewrite Z.eqb_refl; exact Eb]. unfold array_get in Ha. destruct (Z.ltb_spec (l_slot l) 0); [discriminate|]. eapply nth_error_In, Ha.
  - apply not_true_iff_false. intros E. apply existsb_exists in E as (k & Hk & E). apply andb_true_iff in E as (E1 & E2). apply Z.eqb_eq in E1. apply In_nth_error in Hk as (i & Hi).
    assert (Hk : array_get (ch_locals c) (Z.of_nat i) = Some k) by (unfold array_get; destruct (Z.ltb_spec (Z.of_nat i) 0); [lia|rewrite Nat2Z.id; exact Hi]).
    rewrite <- (R1 _ _ Hk) in Hk. rewrite E1, Ha in Hk. injection Hk as <-. congruence.
Qed.

Lemma symbol_sound x d c rho s os : env_lookup x rho = Some d -> x <> "#t"%string -> x <> "#f"%string -> x <> "__operand__"%string -> ready c rho s os -> room s os 2 ->
  contains (code_size c) (n_consts c) (compile_symbol x c) -> yields (code_size c, s, os) (Returns d) (pushed (code_size (compile_symbol x c)) s os 1).
Proof.
  intros Hx H1 H2 H3 R (Hr & _) HC. destruct (r_env _ _ _ _ R x d Hx H3) as (l & y & Hf & Hy & Hh). destruct (find_local_slot _ _ _ _ _ _ R Hf) as (Hs & _). unfold compile_symbol, resolve_local in *.
  apply String.eqb_neq in H1, H2. rewrite H1, H2, Hf in *. cbn [option_map] in *. destruct (Z.eqb_spec (l_slot l) (-99)); [lia|]. destruct (Z.ltb_spec (l_slot l) 0); [lia|]. cbv zeta in *. cbn [ch_locals chunk_emit] in *.
  rewrite (boxed_slot _ _ _ _ _ _ R Hf) in *. set (c1 := chunk_emit OP_GET_LOCAL (l_slot l) c) in *. assert (S1 : code_size c1 = code_size c + 1) by apply size_emit. assert (N1 : n_consts c1 = n_consts c) by reflexivity. unfold holds in Hh. destruct (l_boxed l).
  - set (c2 := emit_const (VAL_INT 0) c1) in *. assert (S2 : code_size c2 = code_size c1 + 1) by apply size_const. assert (N2 : n_consts c2 = n_consts c1 + 1) by apply n_consts_const.
    destruct Hh as (q & z & -> & Hq & Hz). rewrite size_emit.
    assert (Hi : instr_at (code_size c) OP_GET_LOCAL (l_slot l)) by (apply contains_emit; refine (contains_sub _ _ _ _ _ _ HC (later_trans _ _ _ _ (later_const _ _ _) (later_emit _ _ _ _)) _ _); lia).
    assert (Hj : instr_at (code_size c2) OP_VEC_REF 0) by (apply contains_emit; refine (contains_sub _ _ _ _ _ _ HC (later_refl _ _) _ _); lia).
    assert (Hk : contains (code_size c1) (n_consts c1) c2) by (refine (contains_sub _ _ _ _ _ _ HC (later_emit _ _ _ _) _ _); lia).
    eapply yields_go; [apply (go_get_local _ _ _ _ _ Hi Hy); lia|]. rewrite <- S1. eapply yields_go; [apply (contains_const _ _ _ _ Hk); cbn [length]; lia|]. rewrite <- S2.
    eapply yields_go; [apply (go_unbox _ _ _ _ _ _ Hj Hq)|]. apply yields_return. exists z, os. split; [reflexivity|]. split; [exact Hz|]. split; [apply heap_grows_refl|lia].
  - rewrite S1. eexists. split; [apply (go_get_local _ _ _ _ _ (contains_emit _ _ _ HC) Hy); lia|]. exists y, os. split; [reflexivity|]. split; [exact Hh|]. split; [apply heap_grows_refl|lia].
Qed.

(** *** Every form *)

Definition computes (w : Z) (no_locals : bool) (f : FuncChunk -> option FuncChunk) (rho : env) (a : answer) : Prop :=
  forall c c' s os, f c = Some c' -> ready c rho s os -> aligned c s no_locals -> room s os w -> contains (code_size c) (n_consts c) c' ->
    yields (code_size c, s, os) a (pushed (code_size c') s os (w - 1)).

Definition form_weight (args : list Node) : Z := 4 + weights args.

Lemma special name k f l : assoc name special_forms = Some (k, f) -> k <= Z.of_nat (length l) -> form_of name l = f.
Proof.
  intros Hn Hk. unfold assoc in Hn. destruct (find _ special_forms) as [[nm [k' f']]|] eqn:E; [|discriminate]. injection Hn as -> ->. apply find_some in E as (Hin & En). apply String.eqb_eq in En. cbn [fst] in En. subst nm.
  apply Z.leb_le in Hk. cbn [special_forms] in Hin. repeat (destruct Hin as [Ei|Hin]; [injection Ei as <- <- <-; unfold form_of; cbn -[Z.of_nat Z.leb length]; rewrite Hk; reflexivity|]). contradiction.
Qed.

Lemma computes_weaken w w' b f rho a : w <= w' -> (forall c c' s os, f c = Some c' -> ready c rho s os -> aligned c s b -> room s os w -> contains (code_size c) (n_consts c) c' ->
    yields (code_size c, s, os) a (pushed (code_size c') s os w)) -> computes (w' + 1) b f rho a.
Proof.
  intros Hw H c c' s os Hf R Ha (Hr1 & Hr2) HC. eapply yields_mono; [intros d cf; apply (pushed_weaken _ _ _ w); lia|]. apply H; try assumption. split; lia.
Qed.

Lemma aligned_args c s name args : aligned c s (no_let (N_LIST (N_SYMBOL name :: args))) -> aligned c s (forallb no_let args).
Proof. intros H. apply aligned_children in H. exact (proj2 (aligned_cons _ _ _ _ H)). Qed.

Lemma room_less s os w w' : w <= w' -> room s os w' -> room s os w.
Proof. intros Hw (H1 & H2). split; lia. Qed.

Lemma special_arith name k f : assoc name special_forms = Some (k, f) -> arith_of name = None.
Proof.
  unfold assoc. destruct (find _ special_forms) as [[nm q]|] eqn:E; [|discriminate]. intros _. apply find_some in E as (Hin & En). apply String.eqb_eq in En. cbn [fst] in En. subst nm.
  cbn [special_forms] in Hin. repeat (destruct Hin as [Ei|Hin]; [injection Ei as <- _; reflexivity|]). contradiction.
Qed.

(** A form by its name: what it means and what it is compiled to. *)
Definition form_sound_for (name : string) : Prop := forall deep args t rho a, eval_form ev rho name args = Some a ->
  computes (form_weight args) (no_let (N_LIST (N_SYMBOL name :: args))) (compile_form compile deep name args t) rho a.

Ltac form_case :=
  intros deep args t rho a He c c' s os Hc R Ha Hr HC; unfold compile_form in Hc; unfold form_weight in *;
  eapply yields_mono; [intros ? ?; apply (pushed_weaken _ _ _ (weights args)); lia|]; apply (room_less _ _ (weights args)) in Hr as Hr'; [|lia].

Lemma form_if : form_sound_for "if".
Proof.
  form_case. cbn [eval_form arith_of] in He. destruct args as [|test [|yes [|no [|? ?]]]]; try discriminate; rewrite (special "if" 3 F_If) in Hc by (reflexivity || (cbn [length]; lia)).
  - eapply (if_sound test yes []); [exact Hc|exact He|exact R|exact (aligned_args _ _ _ _ Ha)|exact Hr'|exact HC].
  - eapply (if_sound test yes [no]); [exact Hc|exact He|exact R|exact (aligned_args _ _ _ _ Ha)|exact Hr'|exact HC].
Qed.

Lemma form_begin : form_sound_for "begin".
Proof.
  form_case. rewrite (special "begin" 1 F_Begin) in Hc by (reflexivity || (cbn [length]; lia)). eapply sequence_sound; [exact Hc|exact He|exact R|exact (aligned_args _ _ _ _ Ha)|exact Hr'|exact HC].
Qed.

Lemma form_let : form_sound_for "let".
Proof.
  form_case. change (eval_form ev rho "let" args) with (match args with N_LIST bindings :: ((_ :: _) as body) => eval_let ev rho rho [] bindings body | _ => None end) in He.
  destruct args as [|[ | |bs| | ] [|b body]]; try discriminate. rewrite (special "let" 3 F_Let) in Hc by (reflexivity || (cbn [length]; lia)). destruct Ha as [Ha|Ha]; [|discriminate].
  assert (W : weights bs + weights (b :: body) <= weights (N_LIST bs :: b :: body)) by (change (weights (N_LIST bs :: b :: body)) with (2 + weights bs + weights (b :: body)); lia).
  eapply yields_mono; [intros ? ?; apply (pushed_weaken _ _ _ _ _ _ _ W)|]. eapply scope_sound; [exact Hc| |exact R|exact Ha|exact (room_less _ _ _ _ W Hr')|exact HC]. eapply let_is_let_star; [exact He|reflexivity].
Qed.

Lemma form_let_star : form_sound_for "let*".
Proof.
  form_case. change (eval_form ev rho "let*" args) with (match args with N_LIST bindings :: ((_ :: _) as body) => eval_let_star ev rho bindings body | _ => None end) in He.
  destruct args as [|[ | |bs| | ] [|b body]]; try discriminate. rewrite (special "let*" 3 F_Let_star) in Hc by (reflexivity || (cbn [length]; lia)). destruct Ha as [Ha|Ha]; [|unfold no_let in Ha; rewrite negb_true_iff, orb_false_iff in Ha; destruct Ha; discriminate].
  assert (W : weights bs + weights (b :: body) <= weights (N_LIST bs :: b :: body)) by (change (weights (N_LIST bs :: b :: body)) with (2 + weights bs + weights (b :: body)); lia).
  eapply yields_mono; [intros ? ?; apply (pushed_weaken _ _ _ _ _ _ _ W)|]. eapply scope_sound; [exact Hc|exact He|exact R|exact Ha|exact (room_less _ _ _ _ W Hr')|exact HC].
Qed.

Lemma form_shortcut (stop : bool) name k : name = (if stop then "or" else "and")%string -> k = (if stop then F_Or else F_And) -> form_sound_for name.
Proof.
  intros Hname Hk. form_case. assert (E : eval_form ev rho name args = match args with x :: l => ev! d := ev rho x in eval_shortcut ev stop rho d l | [] => None end) by (subst name; destruct stop; reflexivity).
  rewrite E in He. clear E. destruct args as [|x l]; [discriminate|]. rewrite (special name 2 k) in Hc by ((subst; destruct stop; reflexivity) || (cbn [length]; lia)).
  assert (Hc' : (let? c := compile x false c in compile_shortcut compile (tests_for stop) l c) = Some c') by (subst k; destruct stop; exact Hc). clear Hc. apply bind_some in Hc' as (c1 & E1 & Hc).
  apply ebind_inv in He as (a1 & He1 & He). apply aligned_args, aligned_cons in Ha as (Ax & Al). pose proof (compile_grew _ _ _ _ E1) as G1. pose proof (grows_shortcut compile compile_grew _ _ _ _ Hc) as G2.
  change (weights (x :: l)) with (weight x + weights l) in *. pose proof (weight_pos x). pose proof (weights_nonneg l). pose proof (grows_size _ _ G1). pose proof (later_n_consts _ _ _ (grows_later _ _ G1)). destruct Hr as (Hr1 & Hr2).
  eapply yields_bind; [eapply IH; [exact E1|exact He1|exact R|exact Ax|split; lia|]|exact He|].
  - refine (contains_sub _ _ _ _ _ _ HC (later_weaken 0 _ _ _ (code_size_nonneg _) (grows_later _ _ G2)) _ _); apply Z.le_refl.
  - intros d v os1 Hv Hg Hn He2. eapply (yields_more _ _ _ _ _ (weights l)); [exact Hg|exact Hn|lia|]. eapply shortcut_sound; [exact Hc|exact He2|exact Hv| |exact (aligned_grows _ _ _ _ G1 Al)|split; lia|].
    + apply (ready_grows c _ _ _ _ G1). exact (ready_push _ _ _ _ [] _ R Hg).
    + refine (contains_sub _ _ _ _ _ _ HC (later_refl _ _) _ _); lia.
Qed.

Lemma form_cond : form_sound_for "cond".
Proof.
  form_case. change (eval_form ev rho "cond" args) with (if (length args <=? 64)%nat then eval_clauses ev rho args else None) in He. destruct (Nat.leb_spec (length args) 64) as [Hl|]; [|discriminate].
  destruct args as [|cl l]; [discriminate|]. rewrite (special "cond" 2 F_Cond) in Hc by (reflexivity || (cbn [length]; lia)).
  eapply clauses_sound; [exact Hc|exact He|exact Hl|constructor|exact R|exact (aligned_args _ _ _ _ Ha)|exact Hr'|exact HC].
Qed.

Lemma form_when (flip : bool) name k : name = (if flip then "unless" else "when")%string -> k = (if flip then F_Unless else F_When) -> form_sound_for name.
Proof.
  intros Hname Hk. form_case. destruct args as [|test [|b body]]; [subst name; destruct flip; discriminate..|].
  assert (E : eval_form ev rho name (test :: b :: body) = eval_if ev rho test (if flip then None else eval_sequence ev rho (b :: body)) (if flip then eval_sequence ev rho (b :: body) else None)) by (subst name; destruct flip; reflexivity).
  rewrite E in He. clear E. rewrite (special name 3 k) in Hc by ((subst; destruct flip; reflexivity) || (cbn [length]; lia)).
  eapply (when_sound flip test (b :: body)); [subst k; destruct flip; exact Hc|exact He|exact R|exact (aligned_args _ _ _ _ Ha)|exact Hr'|exact HC].
Qed.

Lemma form_quote : form_sound_for "quote".
Proof.
  form_case. change (eval_form ev rho "quote" args) with (match args with [x] => option_map Returns (quoted_datum x) | _ => None end) in He. destruct args as [|x [|? ?]]; try discriminate.
  destruct (quoted_datum x) as [d|] eqn:Ed; [|discriminate]. injection He as <-. change (compile_form compile deep "quote" [x] t c) with (Some (compile_quote deep x c)) in Hc. injection Hc as <-.
  eapply yields_mono; [|eapply quote_sound; [exact Ed| |exact HC]].
  - intros d2 cf. apply pushed_weaken. cbn [weights fold_right]. lia.
  - eapply room_less; [|exact Hr']. cbn [weights fold_right]. lia.
Qed.

Lemma form_list : form_sound_for "list".
Proof.
  form_case. change (eval_form ev rho "list" args) with (eval_list ev rho args) in He. rewrite (special "list" 1 F_List) in Hc by (reflexivity || (cbn [length]; lia)).
  eapply list_sound; [exact Hc|reflexivity|exact He|exact R|eapply room_less; [|exact Hr]; lia|exact HC].
Qed.

Lemma form_cons : form_sound_for "cons".
Proof.
  form_case. change (eval_form ev rho "cons" args) with (match args with [x; y] => ev! d := ev rho y in ev! a := ev rho x in returns (D_PAIR a d) | _ => None end) in He. destruct args as [|x [|y [|? ?]]]; try discriminate.
  change (form_of "cons" [N_SYMBOL "cons"; x; y]) with F_Cons in Hc. apply bind_some in Hc as (c1 & E1 & Hc). apply bind_some in Hc as (c2 & E2 & Hc). injection Hc as <-.
  replace (weights [x; y]) with (weight y + weight x) in * by (cbn [weights fold_right]; lia). rewrite size_emit. change (code_size (restore_locals (n_locals c) c2)) with (code_size c2).
  eapply cons_sound; [exact E1|exact E2|exact He|exact R| |exact Hr'|exact HC]. apply aligned_args in Ha. destruct Ha as [Ha|Ha]; [left; exact Ha|right]. cbn [forallb] in *. destruct (no_let x), (no_let y); auto.
Qed.

(** Arithmetic with an operator that has at least one operand. *)
Lemma reduce_form name op h x l : arith_of name = Some op -> (op = Sub -> l <> []) -> form_of name (h :: x :: l) = F_Reduce op.
Proof.
  intros Hn Hl. unfold form_of. rewrite Hn. destruct op; try reflexivity. destruct l as [|y l]; [contradiction (Hl eq_refl eq_refl)|]. cbn [length]. destruct (Z.eqb_spec (Z.of_nat (S (S (S (length l))))) 2); [lia|reflexivity].
Qed.

Lemma form_reduce name op : arith_of name = Some op -> forall deep x l t rho a, (op = Sub -> l <> []) -> (ev! d := ev rho x in eval_reduce ev op rho d l) = Some a ->
  computes (form_weight (x :: l)) (no_let (N_LIST (N_SYMBOL name :: x :: l))) (compile_form compile deep name (x :: l) t) rho a.
Proof.
  intros Hop deep x l t rho a Hl He c c' s os Hc R Ha Hr HC. unfold compile_form in Hc. rewrite (reduce_form _ op) in Hc by assumption. unfold form_weight in *. change (weights (x :: l)) with (weight x + weights l) in *.
  pose proof (weight_pos x). pose proof (weights_nonneg l). destruct Hr as (Hr1 & Hr2). destruct (if (2 <=? length (x :: l))%nat then constant_fold op (x :: l) else None) as [v|] eqn:Ek.
  - destruct l as [|y l]; [discriminate|]. destruct (constant_fold_sound _ _ _ _ _ _ Ek ltac:(discriminate) He) as (i & -> & ->). injection Hc as <-. rewrite size_const.
    eexists. split; [apply (contains_const _ _ _ _ HC); lia|]. exists (VAL_INT i), os. split; [reflexivity|]. split; [reflexivity|]. split; [apply heap_grows_refl|lia].
  - apply bind_some in Hc as (c1 & E1 & Hc). apply ebind_inv in He as (a1 & He1 & He). apply aligned_args, aligned_cons in Ha as (Ax & Al). pose proof (compile_grew _ _ _ _ E1) as G1. rewrite <- (grows_n_locals _ _ G1) in Hc.
    pose proof (grows_reduce compile compile_grew _ _ _ _ _ eq_refl Hc) as G2. pose proof (grows_size _ _ G1). pose proof (later_n_consts _ _ _ (grows_later _ _ G1)).
    eapply yields_bind; [eapply IH; [exact E1|exact He1|exact R|exact Ax|split; lia|]|exact He|].
    + refine (contains_sub _ _ _ _ _ _ HC (later_weaken 0 _ _ _ (code_size_nonneg _) (grows_later _ _ G2)) _ _); apply Z.le_refl.
    + intros d v os1 Hv Hg Hn He2. eapply (yields_more _ _ _ _ _ (weights l)); [exact Hg|exact Hn|lia|]. eapply reduce_sound; [exact Hc|exact He2|exact Hv| |exact (aligned_grows _ _ _ _ G1 Al)|split; cbn [length]; lia|].
      * apply (ready_grows c _ _ _ _ G1). exact (ready_push _ _ _ _ [] _ R Hg).
      * refine (contains_sub _ _ _ _ _ _ HC (later_refl _ _) _ _); lia.
Qed.

(** One operand and instructions behind it that push no value but their result. *)
Lemma unary_sound x ops w c c1 rho a1 a k s os : compile x false c = Some c1 -> ev rho x = Some a1 -> ebind (Some a1) k = Some a -> ready c rho s os -> aligned c s (no_let x) ->
  weight x <= w -> room s os w -> grows c1 ops -> contains (code_size c) (n_consts c) ops ->
  (forall d v os1, rep os1 d v -> k d = Some a -> contains (code_size c1) (n_consts c1) ops -> yields (code_size c1, v :: s, os1) a (just (code_size ops) s os1)) ->
  yields (code_size c, s, os) a (pushed (code_size ops) s os w).
Proof.
  intros E1 He1 He R Ha Hw (Hr1 & Hr2) G HC H. pose proof (compile_grew _ _ _ _ E1) as G1. pose proof (grows_size _ _ G1). pose proof (later_n_consts _ _ _ (grows_later _ _ G1)). pose proof (weight_pos x).
  eapply yields_bind; [eapply IH; [exact E1|exact He1|exact R|exact Ha|split; lia|]|exact He|].
  - refine (contains_sub _ _ _ _ _ _ HC (later_weaken 0 _ _ _ (code_size_nonneg _) (grows_later _ _ G)) _ _); apply Z.le_refl.
  - intros d v os1 Hv Hg Hn Hk. eapply (yields_more _ _ _ _ _ 0); [exact Hg|exact Hn|lia|]. eapply yields_mono; [intros d2 cf; apply just_pushed|]. apply (H d v os1 Hv Hk).
    refine (contains_sub _ _ _ _ _ _ HC (later_refl _ _) _ _); lia.
Qed.

Lemma form_negate deep x t rho a : (ev! d := ev rho x in primitive1 "-" d) = Some a ->
  computes (form_weight [x]) (no_let (N_LIST [N_SYMBOL "-"; x])) (compile_form compile deep "-" [x] t) rho a.
Proof.
  intros He c c' s os Hc R Ha Hr HC. change (compile_form compile deep "-" [x] t c) with (let? c := compile x false c in Some (chunk_emit OP_NEG 0 c)) in Hc. apply bind_some in Hc as (c1 & E1 & Hc). injection Hc as <-.
  apply ebind_inv in He as (a1 & He1 & He). apply aligned_args, aligned_cons in Ha as (Ax & _). unfold form_weight in *. change (weights [x]) with (weight x + 0) in *. pose proof (weight_pos x).
  eapply (unary_sound x); [exact E1|exact He1|exact He|exact R|exact Ax|lia|eapply room_less; [|exact Hr]; lia|apply grows_emit|exact HC|].
  intros d v os1 Hv Hk HC1. destruct d as [i| | | | ]; try discriminate. unfold exact in Hk. change (primitive1 "-" (D_INT i)) with (exact (- i)) in Hk. unfold exact in Hk. destruct (in_int64 (- i)) eqn:Er; [|discriminate]. injection Hk as <-. cbn [rep] in Hv. subst v.
  rewrite size_emit. eexists. split; [eapply go_neg; [exact Er|apply contains_emit, HC1]|]. eexists. split; reflexivity.
Qed.

Lemma zero_sound c v d r s os : primitive1 "zero?" d = Some r -> contains (code_size c) (n_consts c) (chunk_emit OP_EQ 0 (emit_const (VAL_INT 0) c)) -> rep os d v -> Z.of_nat (length (v :: s)) < STACK_SIZE ->
  yields (code_size c, v :: s, os) r (just (code_size (chunk_emit OP_EQ 0 (emit_const (VAL_INT 0) c))) s os).
Proof.
  intros Hr HC Hv Hs. destruct d as [i| | | | ]; try discriminate. injection Hr as <-. cbn [rep] in Hv. subst v. rewrite size_emit, size_const.
  assert (Hi : instr_at (code_size c + 1) OP_EQ 0). { rewrite <- (size_const (VAL_INT 0)). apply contains_emit. refine (contains_sub _ _ _ _ _ _ HC (later_refl _ _) _ _); [rewrite size_const; lia|rewrite n_consts_const; lia]. }
  eapply yields_go; [apply (contains_const (VAL_INT 0)); [refine (contains_sub _ _ _ _ _ _ HC (later_emit _ _ _ _) _ _); apply Z.le_refl|exact Hs]|].
  eexists. split; [eapply (go_compare OP_EQ Z.eqb); [reflexivity|exact Hi]|]. eexists. split; reflexivity.
Qed.

Lemma unary_form name x : has_unary name = true -> name <> "zero?"%string -> arith_of name = None /\ exists ops, form_of name [N_SYMBOL name; x] = F_Plain ops.
Proof.
  unfold has_unary. destruct (accessor name) as [path|] eqn:Ea; [intros _ _; destruct (accessor_form _ _ x Ea) as (H1 & H2); eauto|]. intros H Hz.
  apply existsb_exists in H as (k & Hk & E). apply String.eqb_eq in E as <-. cbn [In] in Hk. repeat (destruct Hk as [<-|Hk]; [split; [reflexivity|eexists; reflexivity] || contradiction (Hz eq_refl)|]). contradiction.
Qed.

Lemma form_unary name deep x t rho a : has_unary name = true -> (ev! d := ev rho x in primitive1 name d) = Some a ->
  computes (form_weight [x]) (no_let (N_LIST [N_SYMBOL name; x])) (compile_form compile deep name [x] t) rho a.
Proof.
  intros Hu He c c' s os Hc R Ha Hr HC. apply ebind_inv in He as (a1 & He1 & He). apply aligned_args, aligned_cons in Ha as (Ax & _). unfold form_weight in *. change (weights [x]) with (weight x + 0) in *. pose proof (weight_pos x).
  destruct (String.eqb_spec name "zero?") as [->|Hz].
  - change (compile_form compile deep "zero?" [x] t c) with (let? c := compile x false c in Some (chunk_emit OP_EQ 0 (emit_const (VAL_INT 0) c))) in Hc. apply bind_some in Hc as (c1 & E1 & Hc). injection Hc as <-.
    assert (G : grows c1 (chunk_emit OP_EQ 0 (emit_const (VAL_INT 0) c1))) by (eapply chunk_grows_trans; [apply grows_const|apply grows_emit]). destruct Hr as (Hr1 & Hr2).
    eapply (unary_sound x); [exact E1|exact He1|exact He|exact R|exact Ax|lia|split; lia|exact G|exact HC|]. intros d v os1 Hv Hk HC1. eapply zero_sound; [exact Hk|exact HC1|exact Hv|cbn [length]; lia].
  - destruct (unary_form name x Hu Hz) as (Hn & ops & Hf). unfold compile_form in Hc. rewrite Hf in Hc. apply bind_some in Hc as (c1 & E1 & Hc). injection Hc as <-. cbn [compile_operands] in E1. apply bind_some in E1 as (c2 & E1 & [= ->]).
    eapply (unary_sound x); [exact E1|exact He1|exact He|exact R|exact Ax|lia|eapply room_less; [|exact Hr]; lia|apply grows_emit_all|exact HC|].
    intros d v os1 Hv Hk HC1. destruct (primitive1_sound name d a x Hk Hn Hz) as (ops' & Hf' & HS). rewrite Hf in Hf'. injection Hf' as <-. exact (HS _ _ _ _ HC1 Hv).
Qed.

Lemma binary_form name x y : has_binary name = true -> exists op, form_of name [N_SYMBOL name; x; y] = F_Tracked op.
Proof.
  intros H. apply existsb_exists in H as (k & Hk & E). apply String.eqb_eq in E as <-. cbn [In] in Hk. repeat (destruct Hk as [<-|Hk]; [eexists; reflexivity|]). contradiction.
Qed.

Lemma form_binary name deep x y t rho r : has_binary name = true -> (ev! a := ev rho x in ev! b := ev rho y in primitive2 name a b) = Some r ->
  computes (form_weight [x; y]) (no_let (N_LIST [N_SYMBOL name; x; y])) (compile_form compile deep name [x; y] t) rho r.
Proof.
  intros Hb He c c' s os Hc R Ha Hr HC. destruct (binary_form name x y Hb) as (op & Hf). unfold compile_form in Hc. rewrite Hf in Hc. apply bind_some in Hc as (c3 & E & Hc). injection Hc as <-. cbn [compile_operands_tracked] in E.
  apply bind_some in E as (c1 & E1 & E). apply bind_some in E as (c2 & E2 & [= <-]). apply aligned_args in Ha. unfold form_weight in *. change (weights [x; y]) with (weight x + (weight y + 0)) in *.
  change (restore_locals (n_locals c) (add_local "__operand__" c2)) with (mkChunk (ch_code c2) (ch_constants c2) (firstn (Z.to_nat (n_locals c)) (ch_locals c2 ++ [mkLocal "__operand__" (n_locals c2) (scope_depth c2) false])) (scope_depth c2)) in *.
  set (c4 := mkChunk _ _ _ _) in *. assert (L4 : later (code_size c) c2 c4) by (apply later_locals; reflexivity). pose proof (grows_size _ _ (restored_after_two _ _ _ _ _ E1 E2)) as S. change (code_size (restore_locals (n_locals c) c2)) with (code_size c4) in S.
  assert (N : n_consts c <= n_consts c4) by (exact (later_n_consts _ _ _ (grows_later _ _ (restored_after_two _ _ _ _ _ E1 E2)))).
  eapply two_sound; [exact E1|exact E2|exact He|exact R|exact Ha|eapply room_less; [|exact Hr]; lia| |].
  - refine (contains_sub _ _ _ _ _ _ HC (later_trans _ _ _ _ L4 (later_emit _ _ _ _)) _ _); apply Z.le_refl.
  - intros d1 v1 d2 v2 os1 Hv1 Hv2 Hg Hn Hk. destruct (primitive2_form name d1 d2 r x y Hk) as (op' & Hf' & HS). rewrite Hf in Hf'. injection Hf' as <-.
    assert (Hi : instr_at (code_size c4) op 0) by (apply contains_emit; refine (contains_sub _ _ _ _ _ _ HC (later_refl _ _) _ _); [exact S|exact N]).
    rewrite size_emit. eapply (yields_more _ _ _ _ _ 0); [exact Hg|exact Hn|lia|]. eapply yields_mono; [intros ? ?; apply just_pushed|]. exact (HS _ _ _ _ _ Hv1 Hv2 Hi).
Qed.

Lemma form_sound name args deep t rho a : eval_form ev rho name args = Some a ->
  computes (form_weight args) (no_let (N_LIST (N_SYMBOL name :: args))) (compile_form compile deep name args t) rho a.
Proof.
  intros He. destruct (arith_of name) as [op|] eqn:Eo.
  - unfold eval_form in He. rewrite Eo in He. destruct args as [|x l]; [destruct op; discriminate|]. destruct op.
    + eapply form_reduce; [exact Eo|discriminate|exact He].
    + destruct l as [|y l]; [|eapply form_reduce; [exact Eo|discriminate|exact He]]. unfold arith_of in Eo. repeat (match type of Eo with (if String.eqb name ?k then _ else _) = _ => destruct (String.eqb_spec name k) as [->|] end; try discriminate). apply form_negate, He.
    + eapply form_reduce; [exact Eo|discriminate|exact He].
    + destruct l as [|y l]; [discriminate|]. eapply form_reduce; [exact Eo|discriminate|exact He].
  - pose proof He as He'. unfold eval_form in He'. rewrite Eo in He'.
    repeat match type of He' with (if String.eqb name ?k then _ else _) = _ => destruct (String.eqb_spec name k) as [->|] end.
    + apply form_if, He.
    + apply form_begin, He.
    + apply form_let, He.
    + apply form_let_star, He.
    + apply (form_shortcut false "and" F_And eq_refl eq_refl), He.
    + apply (form_shortcut true "or" F_Or eq_refl eq_refl), He.
    + apply form_cond, He.
    + apply (form_when false "when" F_When eq_refl eq_refl), He.
    + apply (form_when true "unless" F_Unless eq_refl eq_refl), He.
    + apply form_quote, He.
    + apply form_list, He.
    + apply form_cons, He.
    + destruct args as [|x [|y [|? ?]]]; try discriminate.
      * destruct (has_unary name) eqn:Eu; [|discriminate]. apply form_unary; assumption.
      * destruct (has_binary name) eqn:Eb; [|discriminate]. apply form_binary; assumption.
Qed.

End Sound.

(** ** The value depends on the variables that occur *)

Section Agree.
  Context (ev : env -> Node -> option answer).

Definition agrees (rho rho' : env) (l : list Node) : Prop := forall y, existsb (mentions y) l = true -> env_lookup y rho = env_lookup y rho'.

  Context (ev_agrees : forall rho rho' e, agrees rho rho' [e] -> ev rho e = ev rho' e).

Lemma agrees_cons rho rho' x l : agrees rho rho' (x :: l) -> agrees rho rho' [x] /\ agrees rho rho' l.
Proof. intros H. split; intros y Hy; apply H; cbn [existsb] in *; apply orb_true_iff; [left|right; exact Hy]. apply orb_true_iff in Hy as [Hy|Hy]; [exact Hy|discriminate]. Qed.

Lemma agrees_children rho rho' l : agrees rho rho' [N_LIST l] -> agrees rho rho' l.
Proof. intros H y Hy. apply H. cbn [existsb mentions]. rewrite Hy. reflexivity. Qed.

Lemma agrees_bind rho rho' x d l : agrees rho rho' l -> agrees ((x, d) :: rho) ((x, d) :: rho') l.
Proof. intros H y Hy. rewrite !lookup_cons. destruct (String.eqb y x); [reflexivity|apply H, Hy]. Qed.

Lemma ebind_ext m k k' : (forall d, k d = k' d) -> ebind m k = ebind m k'.
Proof. intros H. destruct m as [[d|]|]; cbn; auto. Qed.

Lemma sequence_agrees l : forall rho rho', agrees rho rho' l -> eval_sequence ev rho l = eval_sequence ev rho' l.
Proof.
  induction l as [|x l IHl]; intros rho rho' H; cbn [eval_sequence]; [reflexivity|]. apply agrees_cons in H as (Hx & Hl). rewrite (ev_agrees _ _ _ Hx). destruct l as [|y l]; [reflexivity|].
  apply ebind_ext. intros _. apply IHl, Hl.
Qed.

Lemma reduce_agrees op l : forall rho rho' acc, agrees rho rho' l -> eval_reduce ev op rho acc l = eval_reduce ev op rho' acc l.
Proof.
  induction l as [|x l IHl]; intros rho rho' acc H; cbn [eval_reduce]; [reflexivity|]. apply agrees_cons in H as (Hx & Hl). rewrite (ev_agrees _ _ _ Hx). apply ebind_ext. intros d. apply ebind_ext. intros d2. apply IHl, Hl.
Qed.

Lemma list_agrees l : forall rho rho', agrees rho rho' l -> eval_list ev rho l = eval_list ev rho' l.
Proof.
  induction l as [|x l IHl]; intros rho rho' H; cbn [eval_list]; [reflexivity|]. apply agrees_cons in H as (Hx & Hl). rewrite (ev_agrees _ _ _ Hx), (IHl _ _ Hl). reflexivity.
Qed.

Lemma shortcut_agrees stop l : forall rho rho' d, agrees rho rho' l -> eval_shortcut ev stop rho d l = eval_shortcut ev stop rho' d l.
Proof.
  induction l as [|x l IHl]; intros rho rho' d H; cbn [eval_shortcut]; [reflexivity|]. apply agrees_cons in H as (Hx & Hl). rewrite (ev_agrees _ _ _ Hx). destruct (truth d) as [b|]; [|reflexivity]. destruct (Bool.eqb b stop); [reflexivity|].
  apply ebind_ext. intros d2. apply IHl, Hl.
Qed.

Lemma if_agrees rho rho' test yes yes' no no' : agrees rho rho' [test] -> yes = yes' -> no = no' -> eval_if ev rho test yes no = eval_if ev rho' test yes' no'.
Proof. intros H -> ->. unfold eval_if. rewrite (ev_agrees _ _ _ H). reflexivity. Qed.

Lemma clauses_agree l : forall rho rho', agrees rho rho' l -> eval_clauses ev rho l = eval_clauses ev rho' l.
Proof.
  induction l as [|cl l IHl]; intros rho rho' H; cbn [eval_clauses]; [reflexivity|]. apply agrees_cons in H as (Hc & Hl). destruct cl as [ | |[|test [|b body]]| | ]; try reflexivity.
  apply agrees_children, agrees_cons in Hc as (Ht & Hb). rewrite (sequence_agrees _ _ _ Hb). destruct (is_sym test "else"); [reflexivity|]. apply if_agrees; [exact Ht|reflexivity|apply IHl, Hl].
Qed.

Lemma let_star_agrees body l : forall rho rho', agrees rho rho' l -> agrees rho rho' body -> eval_let_star ev rho l body = eval_let_star ev rho' l body.
Proof.
  induction l as [|b l IHl]; intros rho rho' H Hb; cbn [eval_let_star]; [apply sequence_agrees, Hb|]. apply agrees_cons in H as (Hc & Hl). destruct b as [ | |[|[ |x| | | ] [|e [|? ?]]]| | ]; try reflexivity.
  apply agrees_children, agrees_cons in Hc as (_ & He). rewrite (ev_agrees _ _ _ He). apply ebind_ext. intros d. apply IHl; apply agrees_bind; assumption.
Qed.

Lemma let_agrees body l : forall outer outer' rho rho' bound, agrees outer outer' l -> agrees rho rho' body -> eval_let ev outer rho bound l body = eval_let ev outer' rho' bound l body.
Proof.
  induction l as [|b l IHl]; intros outer outer' rho rho' bound H Hb; cbn [eval_let]; [apply sequence_agrees, Hb|]. apply agrees_cons in H as (Hc & Hl). destruct b as [ | |[|[ |x| | | ] [|e [|? ?]]]| | ]; try reflexivity.
  apply agrees_children, agrees_cons in Hc as (_ & He). destruct (existsb _ bound); [reflexivity|]. rewrite (ev_agrees _ _ _ He). apply ebind_ext. intros d. apply IHl; [exact Hl|apply agrees_bind, Hb].
Qed.

Lemma form_agrees rho rho' name args : agrees rho rho' args -> eval_form ev rho name args = eval_form ev rho' name args.
Proof.
  intros H. assert (H1 : forall x l, args = x :: l -> agrees rho rho' [x] /\ agrees rho rho' l) by (intros x l ->; apply agrees_cons, H). unfold eval_form.
  assert (HR : forall op x l, args = x :: l -> (ev! d := ev rho x in eval_reduce ev op rho d l) = (ev! d := ev rho' x in eval_reduce ev op rho' d l)).
  { intros op x l E. destruct (H1 _ _ E) as (Hx & Hl). rewrite (ev_agrees _ _ _ Hx). apply ebind_ext. intros d. apply reduce_agrees, Hl. }
  assert (HS : forall stop x l, args = x :: l -> (ev! d := ev rho x in eval_shortcut ev stop rho d l) = (ev! d := ev rho' x in eval_shortcut ev stop rho' d l)).
  { intros stop x l E. destruct (H1 _ _ E) as (Hx & Hl). rewrite (ev_agrees _ _ _ Hx). apply ebind_ext. intros d. apply shortcut_agrees, Hl. }
  destruct (arith_of name) as [op|].
  { destruct args as [|x l]; [destruct op; reflexivity|]. destruct (H1 _ _ eq_refl) as (Hx & _). destruct op, l; try (apply HR; reflexivity); [|reflexivity]. rewrite (ev_agrees _ _ _ Hx). reflexivity. }
  repeat match goal with |- (if String.eqb name ?k then _ else _) = _ => destruct (String.eqb name k) end.
  - destruct args as [|x [|y [|z [|? ?]]]]; try reflexivity; apply agrees_cons in H as (Hx & H); apply agrees_cons in H as (Hy & Hz); (apply if_agrees; [exact Hx|apply ev_agrees, Hy|]); [reflexivity|apply ev_agrees, Hz].
  - apply sequence_agrees, H.
  - destruct args as [|[ | |bs| | ] [|b body]]; try reflexivity. apply agrees_cons in H as (Hb & H). apply let_agrees; [apply agrees_children, Hb|exact H].
  - destruct args as [|[ | |bs| | ] [|b body]]; try reflexivity. apply agrees_cons in H as (Hb & H). apply let_star_agrees; [apply agrees_children, Hb|exact H].
  - destruct args as [|x l]; [reflexivity|]. apply HS. reflexivity.
  - destruct args as [|x l]; [reflexivity|]. apply HS. reflexivity.
  - rewrite (clauses_agree _ _ _ H). reflexivity.
  - destruct args as [|x [|b body]]; try reflexivity. apply agrees_cons in H as (Hx & Hb). apply if_agrees; [exact Hx|apply sequence_agrees, Hb|reflexivity].
  - destruct args as [|x [|b body]]; try reflexivity. apply agrees_cons in H as (Hx & Hb). apply if_agrees; [exact Hx|reflexivity|apply sequence_agrees, Hb].
  - reflexivity.
  - apply list_agrees, H.
  - destruct args as [|x [|y [|? ?]]]; try reflexivity. apply agrees_cons in H as (Hx & Hy). rewrite (ev_agrees _ _ _ Hx), (ev_agrees _ _ _ Hy). reflexivity.
  - destruct args as [|x [|y [|? ?]]]; try reflexivity.
    + rewrite (ev_agrees _ _ _ H). reflexivity.
    + apply agrees_cons in H as (Hx & Hy). rewrite (ev_agrees _ _ _ Hx), (ev_agrees _ _ _ Hy). reflexivity.
Qed.

End Agree.

Lemma eval_agrees n : forall rho rho' e, agrees rho rho' [e] -> eval n rho e = eval n rho' e.
Proof.
  induction n as [|n IHn]; intros rho rho' e H; cbn [eval]; [reflexivity|]. destruct e as [v i k ch inex|x|[|[ |name| | | ] args]|z|b]; try reflexivity.
  - rewrite (H x) by (cbn; rewrite String.eqb_refl; reflexivity). reflexivity.
  - rewrite (H name) by (cbn; rewrite String.eqb_refl; reflexivity). destruct (env_lookup name rho'); [reflexivity|]. apply form_agrees; [exact IHn|]. apply agrees_children, agrees_cons in H as (_ & H). exact H.
Qed.

(** ** Compiled expressions compute their values *)

Lemma eval_number n rho v i k ch inex a : eval n rho (N_NUMBER v i k ch inex) = Some a -> exists d, a = Returns d /\ (if i then d = D_INT k else exists f, d = D_FLOAT f).
Proof. destruct n as [|n]; cbn [eval]; [discriminate|]. destruct ch; [discriminate|]. destruct i; [intros [= <-]; eauto|]. destruct inex; [intros [= <-]; eauto|discriminate]. Qed.

(** The code of an expression, anywhere in the machine's code, leaves its value on the stack. *)
Lemma compile_expr_correct is_macro m : forall n x t c c' rho a s os, (m <= n)%nat -> compile_expr is_macro n x t c = Some c' -> eval m rho x = Some a -> ready c rho s os -> aligned c s (no_let x) ->
  room s os (weight x) -> contains (code_size c) (n_consts c) c' -> yields (code_size c, s, os) a (pushed (code_size c') s os (weight x - 1)).
Proof.
  induction m as [|m IHm]; intros n x t c c' rho a s os Hn Hc He R Ha Hr HC; [discriminate|]. destruct n as [|n]; [lia|]. cbn [compile_expr eval] in *. unfold compile_expr_impl in Hc.
  destruct x as [v i k ch inex|x|[|[ |name|l| | ] args]|z|b]; try discriminate.
  - unfold compile_number in Hc. destruct ch; [discriminate|]. destruct i; [injection Hc as <-; injection He as <-; rewrite size_const; eapply quote_atom; [exact HC|reflexivity|exact Hr]|].
    destruct inex; [|discriminate]. injection Hc as <-. injection He as <-. rewrite size_const. eapply quote_atom; [exact HC|reflexivity|exact Hr].
  - injection Hc as <-. change (weight (N_SYMBOL x)) with 2 in *. destruct (String.eqb_spec x "#t") as [->|H1]; [injection He as <-; exact (bool_sound true c s os (N_SYMBOL EmptyString) HC Hr)|].
    destruct (String.eqb_spec x "#f") as [->|H2]; [injection He as <-; exact (bool_sound false c s os (N_SYMBOL EmptyString) HC Hr)|]. destruct (String.eqb_spec x "__operand__") as [|H3]; [discriminate|].
    destruct (env_lookup x rho) as [d|] eqn:Hx; [|discriminate]. injection He as <-. apply (symbol_sound x d c rho s os); assumption.
  - destruct (is_macro name); [discriminate|]. destruct (env_lookup name rho); [discriminate|]. replace (weight (N_LIST (N_SYMBOL name :: args))) with (form_weight args) in * by (unfold form_weight, weights; cbn [weight fold_right]; lia).
    refine (form_sound (compile_expr is_macro n) (eval m) _ _ _ _ name args _ t rho a He c c' s os Hc R Ha Hr HC).
    + intros x0 t0 c0 c0'. apply compile_grows.
    + intros x0 t0 c0 c0' rho0 a0 s0 os0. apply IHm. lia.
    + intros rho0 rho1 e H. apply eval_agrees. intros y Hy. apply H. cbn [existsb] in Hy. rewrite orb_false_r in Hy. exact Hy.
    + apply eval_number.
  - injection Hc as <-. injection He as <-. apply bool_sound; assumption.
Qed.
End Machine.

(** ** Expressions that the model covers *)

Section Covered.
  Context (is_macro : string -> bool).

(** Heads of lists, wherever they occur: no form that is left out, no macro use, no named
    let, no arithmetic without operands; and the codes of characters are integers. *)
Definition covered_head (name : string) (args : list Node) : bool :=
  negb (is_macro name) && negb (existsb (String.eqb name) other_forms) &&
  match arith_of name, args with Some _, [] => false | _, _ => true end &&
  match args with N_SYMBOL _ :: _ => negb (String.eqb name "let") | _ => true end.

Fixpoint covered (node : Node) : bool :=
  match node with
  | N_LIST children => match children with N_SYMBOL name :: args => covered_head name args | _ => true end && forallb covered children
  | N_NUMBER v _ _ is_char _ => negb is_char || match cast_int64 v with Some _ => true | None => false end
  | _ => true
  end.

Lemma covered_cons x l : forallb covered (x :: l) = true -> covered x = true /\ forallb covered l = true.
Proof. apply andb_true_iff. Qed.

Section Succeeds.
  Context (compile : Node -> bool -> FuncChunk -> option FuncChunk) (IH : forall x t c, covered x = true -> exists c', compile x t c = Some c') (deep : bool).

Abbreviation succeeds f := (forall c, exists c', f c = Some c').

Lemma then_succeeds (m : option FuncChunk) (k : FuncChunk -> option FuncChunk) : (exists c, m = Some c) -> succeeds k -> exists c', (let? c := m in k c) = Some c'.
Proof. intros (c & ->) Hk. apply Hk. Qed.

Ltac step := first [assumption | apply IH; assumption | eexists; reflexivity | apply then_succeeds; [step|intros ?; step]].
Ltac heads H := apply covered_cons in H as [? H].

Lemma sequence_succeeds l t : forallb covered l = true -> succeeds (compile_sequence compile l t).
Proof.
  intros H. induction l as [|x l IHl]; intros c; [eexists; reflexivity|]. heads H. destruct l as [|y l]; [apply IH; assumption|].
  cbn [compile_sequence]. apply then_succeeds; [step|]. intros c'. apply (IHl H).
Qed.

Lemma tracked_succeeds name l : forallb covered l = true -> succeeds (compile_operands_tracked compile name l).
Proof. intros H. induction l as [|x l IHl]; intros c; [eexists; reflexivity|]. heads H. cbn. apply then_succeeds; [step|]. intros c'. apply (IHl H). Qed.

Lemma operands_succeeds l : forallb covered l = true -> succeeds (compile_operands compile l).
Proof. intros H. induction l as [|x l IHl]; intros c; [eexists; reflexivity|]. heads H. cbn. apply then_succeeds; [step|]. intros c'. apply (IHl H). Qed.

Lemma reduce_succeeds op saved l : forallb covered l = true -> succeeds (compile_reduce compile op saved l).
Proof. intros H. induction l as [|x l IHl]; intros c; [eexists; reflexivity|]. heads H. cbn. apply then_succeeds; [step|]. intros c'. apply (IHl H). Qed.

Lemma list_succeeds l : forallb covered l = true -> succeeds (compile_list compile l).
Proof. intros H. induction l as [|x l IHl]; intros c; [eexists; reflexivity|]. heads H. cbn. apply then_succeeds; [apply (IHl H)|]. intros c'. step. Qed.

Lemma shortcut_succeeds tests l : forallb covered l = true -> succeeds (compile_shortcut compile tests l).
Proof. intros H. induction l as [|x l IHl]; intros c; [eexists; reflexivity|]. heads H. cbn. apply then_succeeds; [step|]. intros c'. apply (IHl H). Qed.

Lemma covered_children l : covered (N_LIST l) = true -> forallb covered l = true.
Proof. cbn [covered]. intros H. apply andb_true_iff in H as [_ H]. exact H. Qed.

Lemma clauses_succeeds t l : forallb covered l = true -> forall ends, succeeds (compile_clauses compile t ends l).
Proof.
  intros H. induction l as [|cl l IHl]; intros ends c; [eexists; reflexivity|]. heads H. specialize (IHl H). destruct cl as [ | |[|test [|b body]]| | ]; try apply IHl.
  apply covered_children in H0. heads H0. pose proof (sequence_succeeds _ t H0) as HS. cbn [compile_clauses placeholder]. destruct (is_sym test "else"); [apply then_succeeds; [apply HS|]; intros c1; step|].
  apply then_succeeds; [step|]. intros c1. apply then_succeeds; [apply HS|]. intros c2. destruct (length ends <? 64)%nat; apply IHl.
Qed.

Lemma cases_succeeds t l : forallb covered l = true -> forall ends, succeeds (compile_cases compile deep t ends l).
Proof.
  intros H. induction l as [|cl l IHl]; intros ends c; [eexists; reflexivity|]. heads H. specialize (IHl H). destruct cl as [ | |[|data [|b body]]| | ]; try apply IHl.
  apply covered_children in H0. heads H0. pose proof (sequence_succeeds _ t H0) as HS. cbn [compile_cases]. destruct (is_sym data "else"); [apply then_succeeds; [apply HS|]; intros c1; step|].
  destruct data as [ | |data| | ]; try apply IHl. destruct (compile_data deep [] data c) as [bodies c1]. cbn zeta. apply then_succeeds; [apply HS|]. intros c2. apply IHl.
Qed.

Lemma bindings_succeeds box l : forallb covered l = true -> succeeds (compile_bindings compile box l).
Proof.
  intros H. induction l as [|b l IHl]; intros c; [eexists; reflexivity|]. heads H. specialize (IHl H). destruct b as [ | |[|[ |name| | | ] [|e [|? ?]]]| | ]; try apply IHl.
  apply covered_children in H0. heads H0. heads H0. cbn [compile_bindings]. apply then_succeeds; [step|]. intros c1. apply IHl.
Qed.

Lemma scope_succeeds box bindings body t : forallb covered bindings = true -> forallb covered body = true -> succeeds (compile_scope compile box bindings body t).
Proof.
  intros Hb Hy c. unfold compile_scope. apply then_succeeds; [apply bindings_succeeds, Hb|]. intros c1. cbv zeta. apply then_succeeds; [apply sequence_succeeds, Hy|]. intros c2. step.
Qed.

Lemma call_succeeds head args t : covered head = true -> forallb covered args = true -> succeeds (compile_call compile head args t).
Proof. intros Hh Ha c. unfold compile_call. cbv zeta. apply then_succeeds; [step|]. intros c1. apply then_succeeds; [apply tracked_succeeds, Ha|]. intros c2. step. Qed.


(** The operands that a form takes for granted. *)
Definition shaped (name : string) (args : list Node) (f : form) : Prop :=
  match f with
  | F_Reduce _ | F_And | F_Or => args <> []
  | F_Negate | F_Zero | F_Pass | F_Quote => length args = 1%nat
  | F_Cons => length args = 2%nat
  | F_Case | F_When | F_Unless | F_If => (2 <= length args)%nat
  | F_Let => name = "let"%string
  | F_Other => False
  | _ => True
  end.

Lemma form_of_shape name args : existsb (String.eqb name) other_forms = false -> match arith_of name, args with Some _, [] => false | _, _ => true end = true ->
  shaped name args (form_of name (N_SYMBOL name :: args)).
Proof.
  intros Ho Ha. unfold form_of. set (n := Z.of_nat (length (N_SYMBOL name :: args))). assert (Hn : n = Z.of_nat (length args) + 1) by (unfold n; cbn [length]; lia). clearbody n.
  destruct (arith_of name) as [op|].
  { assert (args <> []) by (destruct args; discriminate). destruct op; try assumption. destruct (Z.eqb_spec n 2); cbn; [lia|assumption]. }
  rewrite Ho. destruct (assoc name unary_forms) as [ops|]; [destruct (n =? 2); exact Logic.I|]. destruct (assoc name native_forms) as [[k id]|]; [destruct (n =? k); exact Logic.I|].
  destruct (assoc name tracked_forms) as [[k op]|]; [destruct (n =? k); exact Logic.I|]. destruct (assoc name special_forms) as [[k f]|] eqn:E.
  - destruct (Z.leb_spec k n); [|exact Logic.I]. unfold assoc in E. destruct (find _ special_forms) as [[nm [k' f']]|] eqn:Ef; [|discriminate]. injection E as -> ->.
    apply find_some in Ef as (Hin & En). apply String.eqb_eq in En. cbn [fst] in En. subst nm. cbn [special_forms] in Hin.
    repeat (destruct Hin as [Ei|Hin]; [injection Ei as <- <- <-; cbn; first [exact Logic.I|reflexivity|lia|intros ->; cbn in *; lia]|]). contradiction.
  - do 4 (match goal with |- shaped _ _ (if ?b then _ else _) => destruct b eqn:?; [match goal with H : _ && _ = true |- _ => apply andb_true_iff in H as [_ H]; cbn; lia end|] end). exact Logic.I.
Qed.

Lemma when_succeeds test ops body : covered test = true -> forallb covered body = true -> succeeds (compile_when compile test ops body).
Proof.
  intros Ht Hb c. unfold compile_when. apply then_succeeds; [step|]. intros c1. cbn [placeholder]. apply then_succeeds; [apply sequence_succeeds, Hb|]. intros c2. step.
Qed.

Lemma if_succeeds test yes no t : covered test = true -> covered yes = true -> forallb covered no = true -> succeeds (compile_if compile test (yes :: no) t).
Proof.
  intros Ht Hy Hn c. unfold compile_if. apply then_succeeds; [step|]. intros c1. cbn [placeholder]. apply then_succeeds; [step|]. intros c2.
  destruct no as [|no l]; [step|]. heads Hn. step.
Qed.

Ltac build :=
  first
    [ assumption
    | apply IH; assumption
    | apply sequence_succeeds; assumption | apply tracked_succeeds; assumption | apply operands_succeeds; assumption | apply reduce_succeeds; assumption
    | apply list_succeeds; assumption | apply shortcut_succeeds; assumption | apply clauses_succeeds; assumption | apply cases_succeeds; assumption
    | apply scope_succeeds; [apply covered_children; assumption|assumption] | apply call_succeeds; [reflexivity|assumption]
    | apply when_succeeds; assumption | apply if_succeeds; assumption
    | eexists; reflexivity
    | apply then_succeeds; [build|intros ?; build] ].

Lemma form_succeeds name args t : covered_head name args = true -> forallb covered args = true -> succeeds (compile_form compile deep name args t).
Proof.
  intros Hh Ha c. apply andb_true_iff in Hh as [Hh Hlet]. apply andb_true_iff in Hh as [Hh Hop]. apply andb_true_iff in Hh as [_ Ho]. apply negb_true_iff in Ho.
  pose proof (form_of_shape name args Ho Hop) as Hs. unfold compile_form. destruct (form_of name (N_SYMBOL name :: args)) eqn:Ef; cbn [shaped] in Hs.

  all: try (destruct args as [|x args]; cbn [length] in Hs; [solve [congruence|lia]|]; pose proof Ha as Ha'; heads Ha).
  all: try (destruct args as [|y args]; cbn [length] in Hs; [|lia]; try solve [build]).
  all: try solve [build].
  - destruct (if (2 <=? _)%nat then _ else _); build.
  - destruct args as [|x [|y args]]; [build| |build]. heads Ha. build.
  - destruct args as [|y [|? ?]]; cbn [length] in Hs; [lia| |lia]. heads Ha. build.
  - destruct args as [|y args]; cbn [length] in Hs; [lia|]. heads Ha. build.
  - subst name. destruct args as [|[ |y|bs| | ] args]; try build; [discriminate|]. heads Ha. build.
  - destruct args as [|[ |y|bs| | ] args]; try build. heads Ha. build.
  - contradiction.
Qed.

End Succeeds.

Lemma expr_succeeds n : forall x t c, covered x = true -> exists c', compile_expr is_macro n x t c = Some c'.
Proof.
  induction n as [|n IH]; intros x t c Hx; [eexists; reflexivity|]. cbn [compile_expr]. unfold compile_expr_impl.
  destruct x as [v i k ch inex|x|[|[ |name|l| | ] args]|z|b]; try (eexists; reflexivity).
  - unfold compile_number. destruct ch; [|destruct i; eexists; reflexivity]. cbn in Hx. destruct (cast_int64 v); [eexists; reflexivity|discriminate].
  - cbn [covered] in Hx. apply andb_true_iff in Hx as (Hh & Ha). apply covered_cons in Ha as (_ & Ha). pose proof Hh as Hm. unfold covered_head in Hm.
    destruct (is_macro name); [discriminate|]. apply form_succeeds; assumption.
  - apply covered_children, covered_cons in Hx as (Hh & Ha). apply call_succeeds; assumption.
Qed.

End Covered.

(** ** Programs *)

Lemma fresh_machine code ks n : is_config (fresh_vm code ks n) (0, [], []) (fresh_vm code ks n).
Proof. exists (repeat VAL_NIL (Z.to_nat STACK_SIZE)), 0. split; [reflexivity|]. rewrite repeat_length. cbn [length]. unfold STACK_SIZE. lia. Qed.

Lemma chunk_contained c : n_consts c <= MAX_CONSTS -> contains (run_compiled_chunk (chunk_emit OP_HALT 0 c)) 0 0 (chunk_emit OP_HALT 0 c).
Proof.
  unfold n_consts. intros H. split; [auto|]. cbn [run_compiled_chunk fresh_vm constants n_constants ch_constants chunk_emit]. intros j x _ Hx.
  pose proof (array_get_Some _ _ _ Hx). split; [|lia]. rewrite firstn_all2 by lia. apply array_get_app, Hx.
Qed.

(** What a run of a program ends in. *)
Definition ends_with (v : VM) (a : answer) : Prop :=
  match a with
  | Returns d => error v = false /\ sp v = 1 /\ exists y, array_get (stack v) 0 = Some y /\ rep (objects v) d y
  | Raises => error v = true
  end.

Lemma halts grants v0 p y os v : is_config v0 (p, [y], os) v -> instr_at v0 p OP_HALT 0 ->
  exists v', vm_run grants 1 v = Stopped v' /\ error v' = false /\ sp v' = 1 /\ array_get (stack v') 0 = Some y /\ objects v' = os.
Proof.
  intros (junk & rq & -> & _) Hi. exists (with_halted (machine v0 (p + 1) [y] junk os rq)). cbn [vm_run]. rewrite (vm_step_at _ _ _ OP_HALT 0) by exact Hi. repeat split.
Qed.

(** The machine stops behind a program with the value of its expression on the stack. *)
Lemma program_runs is_macro grants x c a : (forall i, grants i = true) -> compile_expr is_macro max_compile_depth x false empty_chunk = Some c -> eval max_compile_depth [] x = Some a ->
  weight x <= STACK_SIZE -> n_consts c <= MAX_CONSTS -> exists fuel v', vm_run grants fuel (run_compiled_chunk (chunk_emit OP_HALT 0 c)) = Stopped v' /\ ends_with v' a.
Proof.
  intros Hg Hc He Hw Hk. set (v0 := run_compiled_chunk (chunk_emit OP_HALT 0 c)). pose proof (chunk_contained c Hk) as HC. fold v0 in HC.
  assert (R : ready v0 empty_chunk [] [] []) by (split; [intros i l H; exfalso; pose proof (array_get_Some _ _ _ H) as H1; change (0 <= i < 0) in H1; lia|split; reflexivity|discriminate]).
  assert (HC' : contains v0 (code_size empty_chunk) (n_consts empty_chunk) c) by (apply (contains_sub _ _ _ _ _ _ _ HC (later_emit _ OP_HALT 0 c)); [apply code_size_nonneg|unfold n_consts; lia]).
  pose proof (compile_expr_correct grants Hg v0 is_macro max_compile_depth max_compile_depth x false empty_chunk c [] a [] [] (le_n _) Hc He R (or_introl eq_refl)) as HY.
  specialize (HY ltac:(unfold room; cbn [length]; unfold HEAP_SIZE, STACK_SIZE in *; lia) HC'). destruct a as [d|]; cbn [yields] in HY.
  - destruct HY as (cf & Hgo & (y & os & -> & Hr & _ & _)). destruct (Hgo v0 (fresh_machine _ _ _)) as (k & v1 & E1 & H1).
    assert (Hi : instr_at v0 (code_size c) OP_HALT 0) by (apply (proj1 HC); [apply code_size_nonneg|apply array_get_last]).
    destruct (halts grants v0 _ _ _ _ H1 Hi) as (v2 & E2 & H2 & H3 & H4 & H5). exists (k + 1)%nat, v2. rewrite (vm_run_app grants _ _ _ _ E1). split; [exact E2|]. split; [exact H2|]. split; [exact H3|].
    exists y. rewrite H5. auto.
  - destruct (HY v0 (fresh_machine _ _ _)) as (k & v1 & E1 & H1). exists k, v1. auto.
Qed.

(** C23 A program of the forms that are modelled is compiled, and when its expression has a
    value, running the code in a fresh machine ends, with no error and with that value
    alone on the stack, pairs as objects of the heap; when the expression is an error (the
    car of no pair, a modulus by zero), the machine stops with its error flag set.  Values
    are those of a reference evaluator with environments: exact integers, booleans, lists,
    if, cond, when, unless, and, or, begin, let, let*, list, cons, quote, arithmetic,
    comparisons, predicates and accessors.  Expressions outside of it have no value there,
    and neither have those that the compiler gets wrong (compiler_deviates).  The program
    fits the stack, counting two slots for each node, and its constants the machine; memory
    is granted.  The code is that of compile_expr and a HALT, without the preamble of
    builtins and the peephole pass of the command line. *)
Theorem compiled_code_computes is_macro grants x a : (forall i, grants i = true) ->
  covered is_macro x = true -> eval max_compile_depth [] x = Some a -> weight x <= STACK_SIZE ->
  exists c, compile_expr is_macro max_compile_depth x false empty_chunk = Some c /\
    (n_consts c <= MAX_CONSTS -> exists fuel v', vm_run grants fuel (run_compiled_chunk (chunk_emit OP_HALT 0 c)) = Stopped v' /\ ends_with v' a).
Proof.
  intros Hg Hx He Hw. destruct (expr_succeeds is_macro max_compile_depth x false empty_chunk Hx) as (c & Hc). exists c. split; [exact Hc|].
  intros Hk. exact (program_runs is_macro grants x c a Hg Hc He Hw Hk).
Qed.

(** *** Programs *)

Definition pair_list (l : list value) : value := fold_right D_PAIR D_NIL l.
(** (let* ((x 2) (y (let ((z (+ x 3))) ( * z z)))) (if (and (> y 20) (pair? '(1))) (list x (car (cons y 0)) (- y x)) #f)) *)
Definition sample_program : Node :=
  apply_form "let*"
    [N_LIST [N_LIST [sym "x"; num 2]; N_LIST [sym "y"; apply_form "let" [N_LIST [N_LIST [sym "z"; apply_form "+" [sym "x"; num 3]]]; apply_form "*" [sym "z"; sym "z"]]]];
     apply_form "if"
       [apply_form "and" [apply_form ">" [sym "y"; num 20]; apply_form "pair?" [apply_form "quote" [N_LIST [num 1]]]];
        apply_form "list" [sym "x"; apply_form "car" [apply_form "cons" [sym "y"; num 0]]; apply_form "-" [sym "y"; sym "x"]]; N_BOOL false]].

Example sample_value : eval max_compile_depth [] sample_program = Some (Returns (pair_list [D_INT 2; D_INT 25; D_INT 23])).
Proof. vm_compute. reflexivity. Qed.

Example sample_error : eval max_compile_depth [] (apply_form "car" [apply_form "modulo" [num 7; num 4]]) = Some Raises.
Proof. vm_compute. reflexivity. Qed.

Lemma compiled_code_computes_witness :
  covered no_macros sample_program = true /\ weight sample_program <= STACK_SIZE /\
  exists c, compile_expr no_macros max_compile_depth sample_program false empty_chunk = Some c /\
    (n_consts c <= MAX_CONSTS -> exists fuel v', vm_run always_granted fuel (run_compiled_chunk (chunk_emit OP_HALT 0 c)) = Stopped v' /\
      ends_with v' (Returns (pair_list [D_INT 2; D_INT 25; D_INT 23]))).
Proof.
  split; [vm_compute; reflexivity|]. split; [apply Z.leb_le; vm_compute; reflexivity|].
  apply compiled_code_computes; [reflexivity|vm_compute; reflexivity|vm_compute; reflexivity|apply Z.leb_le; vm_compute; reflexivity].
Defined.

(** What compiled code computes otherwise than Scheme: the value on the stack, or the error. *)
Definition result_of (x : Node) : option (option VmValue) :=
  option_map (fun r : list VmValue * bool => if snd r then None else hd_error (rev (fst r))) (compile_and_run x).

(** - The variable of a [let] among operands of a call that are not tracked as locals is
      read from a slot below it: (car (list (let ((x 1)) x))) is the empty list.
    - The expressions of [let] see its variables bound before.
    - [case] compares with [=], for which booleans are zero.
    - [if] without an alternative leaves nothing on the stack when the test fails.
    - The empty list is false.
    - The names of primitives cannot be bound.
    - The reciprocal is the number. *)
Lemma compiler_deviates :
  result_of (apply_form "car" [apply_form "list" [apply_form "let" [N_LIST [N_LIST [sym "x"; num 1]]; sym "x"]]]) = Some (Some VAL_NIL) /\
  result_of (apply_form "let" [N_LIST [N_LIST [sym "x"; num 1]]; apply_form "let" [N_LIST [N_LIST [sym "x"; num 2]; N_LIST [sym "y"; sym "x"]]; sym "y"]]) = Some (Some (VAL_INT 2)) /\
  result_of (apply_form "case" [N_BOOL true; N_LIST [N_LIST [N_BOOL false]; num 1]; N_LIST [sym "else"; num 2]]) = Some (Some (VAL_INT 1)) /\
  result_of (apply_form "+" [num 5; apply_form "if" [N_BOOL false; num 3]]) = Some None /\
  result_of (apply_form "if" [apply_form "quote" [N_LIST []]; num 1; num 2]) = Some (Some (VAL_INT 2)) /\
  result_of (apply_form "let" [N_LIST [N_LIST [sym "car"; num 7]]; apply_form "car" [apply_form "quote" [N_LIST [num 3]]]]) = Some (Some (VAL_INT 3)) /\
  result_of (apply_form "/" [num 2]) = Some (Some (VAL_INT 2)).
Proof. repeat split; vm_compute; reflexivity. Qed.
